(* ===== verification/_CoqProject ===== *)
-Q . S2P
Prelude.v
Queue.v
Graph.v
HashMap.v
SortedKeys.v
Value.v
Containers.v
SetTable.v
ObjectTable.v
RefOps.v
Path.v
Json.v
Inmem.v
InmemTxn.v
InmemStore.v
Index.v
IndexSound.v
IndexRules.v
IndexBody.v
EvalCache.v
RuleTree.v
Bindings.v
Unify.v
UnifySound.v
UnifyTotal.v
DepGraph.v
Cache.v
UnionFind.v
Native.v
Types.v
TypesSound.v
Check.v
Builtins.v
Document.v
ObjectUnion.v
Subset.v
Reachable.v
Walk.v
Arith.v
BitVector.v
EditTree.v
EditArray.v
EditTreeSound.v
EditOps.v
EditPaths.v
JsonPatch.v
PatchSound.v
JsonPaths.v
VarVisitor.v
Safety.v
UnifySafe.v
ReorderSound.v
SafetySound.v
EvalGround.v
Eval.v
EvalRules.v
EvalPolicy.v
EvalRefs.v
EvalTerms.v
EvalSem.v
EvalDocs.v
EvalIndex.v
EvalStates.v
EvalClosures.v
EvalChild.v
EvalVirtual.v
EvalUnify.v
EvalSound.v
EvalData.v
EvalRun.v
