(* ===== verification/Prelude.v ===== *)
(** * Verification of the Open Policy Agent

    This library models parts of OPA (Go, under [src/]) as Rocq functions and
    step relations, and proves that they do what the rest of the program relies
    on.  Definitions carry the names of the functions they translate and are
    executable; the witnesses after the theorems run them on concrete inputs.

    ** How the parts fit together

    A policy is a set of rules over documents.  The AST package holds values,
    their order, hash codes and containers; the compiler reorders bodies so that
    variables are bound before they are used, sorts the rules, checks types and
    builds an index per rule; the evaluator looks the index up,
    unifies terms under bindings, calls built-in functions and reads base
    documents from a store in a transaction.  Caches, queues, hash maps and graph
    searches are shared utilities.

    ** Conventions

    - Go's [int] is 64 bits wide; [wrap64] writes wrap-around out where it can
      happen ([Prelude]).  Comparison functions return [comparison].
    - Fallible code returns a sum, such as [res E A]; a panic or a failed type
      assertion is [None] or a constructor of its own, and lack of fuel is [None].
    - Maps whose iteration order is not fixed in Go are finite maps; where the
      order matters it is an argument.
    - Sets and objects are used through their sorted slices ([Containers.set_mem],
      [set_insert], [obj_get], [obj_insert]).  [SetTable] and [ObjectTable] show
      that the hash tables of [ast/term.go] implement the slices, for keys whose
      number literals are canonical and within the float64 range ([key_ok]).
    - Hash codes are recomputed from values; [ObjectTable.cached_hashes_agree] shows
      for which containers the codes that the code caches can be used instead.
    - Equality of values is [Compare] giving [Eq], as in the code: numbers with
      the same value are equal whatever their literal.
    - Third-party code (xxhash, class [XXHash], of which nothing is assumed), the
      texts of values used as keys and the iterators passed to functions are
      arguments.

    ** Files

    Shared: [Prelude] (comparisons, machine integers, errors, lists, automation),
    [SortedKeys] (sorted slices with distinct keys), [Queue], [Graph], [HashMap]
    ([util/queue.go], [graph.go], [hashmap.go]: the queues refine a stack and a
    queue behind the class [Worklist], the searches visit what is reachable, the
    hash map refines a finite map).

    Values: [Value] ([ast/term.go], [compare.go]: the total order, and equal
    values have equal hash codes), [Containers], [SetTable], [ObjectTable]
    (arrays, sets and objects as laid out in memory, and their refinement to
    slices), [RefOps] (references and lookup by path), [Native]
    ([util/compare.go], [InterfaceToValue] and back: a round trip), [Document]
    (documents and their equality).

    Storage: [Path] ([storage/path.go]: parsing and printing), [Json] (documents),
    [Inmem], [InmemTxn] ([storage/inmem/txn.go]: a transaction whose writes
    succeed refines the sequence of its patches, on documents without arrays),
    [InmemStore] ([inmem.go]: locks and transactions as a step relation; readers
    keep their snapshot, writers exclude each other, and a writer can commit once
    the active readers have closed).

    Rule index ([ast/index.go]): [Index] (references, the trie, the lookup),
    [IndexSound] (the traversal), [IndexRules] (which rules a lookup returns, all
    rules, early exit), [IndexBody] (no rule without glob patterns whose body can be
    satisfied is lost).

    Unification: [Bindings] ([topdown/bindings.go]), [Unify], [UnifySound],
    [UnifyTotal] (unification in [topdown/eval.go], in continuation-passing style
    with undo: when it returns, it has called its continuation under a most general
    unifier or there is none; it returns when there is a solution and the continuation
    returns.  The code has no
    occurs check.  References, comprehensions and the save set of partial
    evaluation are arguments).

    Evaluation ([topdown/eval.go], [query.go]): [Eval] is the evaluator, [eval_at] for
    [eval.eval] and [biunify_at] for [eval.biunify] calling each other; what it calls for
    references to [data], calls of functions of the policy and [with] are arguments, which
    [EvalRules] defines: the walk along the rule tree, complete and partial rules,
    functions, base documents and [with].  [EvalCache] ([topdown/cache.go]) holds
    the caches and stacks of an evaluation (the virtual cache is a stack of maps, the base
    cache agrees with the store), [RuleTree] ([ast/compile.go]) the rule tree and the rules of the
    indices, [EvalPolicy] puts a policy together and runs queries over it, among them runs
    that the caches spoil.  [EvalGround]
    shows that unification with one side known calls its continuation at most
    once, [EvalRefs] and [EvalTerms] that references call it once per value, [EvalSem]
    says what a query means ([sat]) and which queries are considered ([query_ok]),
    [EvalDocs] what the documents of rules are ([model]) and which rules are considered
    ([docs_ok]), [EvalIndex] that the rules an index leaves out have no value.
    [EvalStates] holds the invariant between expressions, [EvalClosures] negation,
    comprehensions and [every], [EvalUnify] equations, [EvalSound] expressions and
    queries, [EvalChild] the binding lists of rule bodies, [EvalVirtual] complete rules
    with their [else] and [default] rules, early exit and cache, [EvalData] references to
    rules that refer to rules, [EvalRun] that [Query.Run] returns the satisfying
    assignments when no two rules of a document conflict and no built-in function halts.

    Other parts: [DepGraph] ([ast/compile.go]: the topological sort of the rules),
    [UnionFind] ([topdown/copypropagation]: the classes of equal variables), [Cache]
    ([topdown/cache/cache.go]: consistency, eviction in order of insertion, the
    bound on its size).

    Types: [Types] ([types/types.go]), [TypesSound] (unions, selection and
    enumeration against the documents of a type), [Check] ([ast/env.go],
    [check.go]: the types of references and terms are sound, and a literal
    with scalar keys unifies with every type that contains it).

    Built-in functions ([src/topdown]): [Builtins] (operands, sets, arrays,
    objects, aggregates, casts, comparisons), [ObjectUnion] (the union of many
    objects in place equals the union one by one), [Subset], [Reachable] (graphs),
    [Walk], [Arith] (numbers as big floats of 64 bits, bits, ranges).

    JSON patches: [BitVector] ([internal/edittree/bitvector]: a vector is a list of
    bits), [EditTree] ([internal/edittree/edittree.go]), [EditArray],
    [EditTreeSound], [EditOps], [EditPaths] (the relation [reps] between a tree and
    the document it stands for, and that rendering, insertion, removal and unfolding
    respect it), [JsonPatch] ([topdown/json.go]), [PatchSound] (json.patch against
    the operations on documents, and the runs on which the code departs from them),
    [JsonPaths] (json.remove against the removal of paths).

    Safety: [VarVisitor] ([ast/visit.go], [varset.go]: variables of terms and
    closures), [Safety] ([ast/unify.go], the safety check in [ast/compile.go]: the
    expressions live in a store, as [Append] writes their index through a pointer),
    [UnifySafe] (the variables of an equation that are marked safe are determined by
    the others), [ReorderSound] (an accepted body is in a safe order, and a body in a
    safe order is accepted unchanged), [SafetySound] (safe equations have at most one
    solution; two bodies on which the check is wrong).

    ** Fuel and bounds

    The theorems on the following functions include that they return.

    - [Graph]: fuel from the size of a finite graph;
      [DepGraph]: a level per node; [UnionFind]: a parent step per element.
    - [Containers.probe]: the entries of the table bound the probe.
      [Cache.evict]: the elements of the list bound the eviction loop.
    - [Unify]: fuel bounds the nesting of the terms; from some fuel on the
      computation completes when the equation has a solution.
    - [Eval]: fuel bounds the depth of the calls; [base N + rank * K + cost n q] is enough
      for a query [q] with closures nested [n] deep and values nested [N] deep, over rules
      that refer to each other [rank] deep and whose bodies need [K], as is any larger
      fuel.
    - [Check.unifies]: the sizes of the two types.
    - [Subset]: the pairs of cursors.  [Arith.range_loop]: the numbers between the
      ends of the range, in steps.
    - [Reachable]: the queue may hold a vertex many times, so some fuel is shown to
      be enough, as is any larger one; the path search has depth at most twice the
      number of vertices plus three.

    - [Safety]: a pass that places nothing ends the reordering, so one pass more than
      there are expressions; [markSafe] recurses once per variable that waits;
      closures are visited with fuel for their nesting.
    - [EditTree]: trees are finite and the loops are over indices of an array.

    Two bounds are properties of Go's number formats that are not proved here:
    [Arith.shortest] stops at 21 decimal digits, enough to identify a mantissa of
    64 bits (for integers the result is proved exact), and numbers are taken to have
    exponents in the range of [big.Float].

    ** What is not modelled

    The parser and scanner, the compiler stages other than those above (resolving and
    rewriting of references and variables), partial
    evaluation, tracing and cancellation ([EvalRun] is on references to complete rules;
    partial rules, functions of the policy, base documents and [with] are modelled in
    [EvalRules] but not in that theorem), the planner and the Wasm compiler,
    the disk store (a wrapper of badger), bundles, plugins, the server, the REPL
    and the command line (input and output around the parts above), and built-in
    functions on strings, times, networks, tokens and cryptography.  In the
    parts that are modelled, most printing and JSON encoding is left out.  Sharing
    of mutable values is modelled for queue nodes, object entries, bindings, key
    iterators, union-find roots and the expressions of a body; elsewhere values are trees, which in
    [Inmem] leaves updates built from a stored array out of the refinement.

    Lemmas next to the theorems record where the code departs from what it means
    to do, for instance [Arith.ceil_minus_half], [Subset.array_set_subset_miscounts],
    [Reachable.reachable_paths_repeats], [PatchSound.patch_divergence],
    [SafetySound.safety_check_wrong], [EvalPolicy.rules_divergence],
    [UnifyTotal.objects_shared_iterator], [ObjectTable.object_stale_hash],
    [Check.literal_composite_key],
    [Check.Get_dynamic_lost] and [Cache.limit_max]. *)
From Stdlib Require Import ZArith Lia Bool String Ascii QArith.
From stdpp Require Import base gmap list strings fin_maps.

(** * Comparison results

    The Go code returns [-1], [0] or [1] from its comparison functions; the
    development uses [comparison] ([Lt], [Eq], [Gt]) for that sign. *)

(** [cmp_then c1 c2] is the shape
    [if cmp := ...; cmp != 0 { return cmp }; return ...]. *)
Definition cmp_then (c1 c2 : comparison) : comparison :=
  match c1 with Eq => c2 | _ => c1 end.

Declare Scope opa_scope.
Delimit Scope opa_scope with opa.
Notation "c1 '&&&' c2" := (cmp_then c1 c2)
  (at level 40, left associativity) : opa_scope.
Open Scope opa_scope.

(** The loop shared by [termSliceCompare], [importsCompare], [Path.Compare],
    ...: compare position by position up to the shorter length, then by
    length. *)
Section SliceCompare.
Context {A : Type} (cmp : A -> A -> comparison).
Fixpoint slice_compare (a b : list A) : comparison :=
  match a, b with
  | [], [] => Eq
  | [], _ :: _ => Lt
  | _ :: _, [] => Gt
  | x :: a', y :: b' => cmp x y &&& slice_compare a' b'
  end.
End SliceCompare.

(** What a comparison function owes its clients at one point [x] of its
    domain, among the points that satisfy [P].  Stating the laws pointwise
    lets a recursive comparison be proved by structural induction on its first
    argument. *)
Record cmp_ok_on {A} (P : A -> Prop) (cmp : A -> A -> comparison) (x : A) : Prop := {
  cmp_on_sym : forall y, P y -> cmp y x = CompOpp (cmp x y);
  cmp_on_trans : forall y z, P y -> P z -> cmp x y = Lt -> cmp y z = Lt -> cmp x z = Lt;
  cmp_on_lt_eq : forall y z, P y -> P z -> cmp x y = Lt -> cmp y z = Eq -> cmp x z = Lt;
  cmp_on_eq : forall y z, P y -> P z -> cmp x y = Eq -> cmp y z = cmp x z;
}.
Abbreviation cmp_ok_at := (cmp_ok_on (fun _ => True)).

(** A total preorder given by a three-way comparison. *)
Class CmpOk {A} (cmp : A -> A -> comparison) : Prop :=
  cmp_ok : forall x, cmp_ok_at cmp x.

(** * Machine integers

    Go's [int] on the 64-bit platforms OPA is built for: two's complement,
    addition wraps around. *)
Definition two63 : Z := 9223372036854775808.
Definition two64 : Z := 18446744073709551616.
Definition wrap64 (z : Z) : Z := ((z + two63) mod two64 - two63)%Z.
Definition in_int64 (z : Z) : bool := ((- two63 <=? z) && (z <? two63))%Z.
Definition addw (a b : Z) : Z := wrap64 (a + b).

(** * Errors *)
Inductive res (E A : Type) : Type :=
| Ok (a : A)
| Err (e : E).
Arguments Ok {E A} a.
Arguments Err {E A} e.

Definition res_bind {E A B} (r : res E A) (f : A -> res E B) : res E B :=
  match r with Ok a => f a | Err e => Err e end.
Notation "'let?' x := r 'in' k" := (res_bind r (fun x => k))
  (at level 10, x pattern, r at level 100, k at level 200) : opa_scope.

Definition is_ok {E A} (r : res E A) : bool :=
  match r with Ok _ => true | Err _ => false end.

(** * Automation *)
Create HintDb opa discriminated.

Ltac split_ands := repeat match goal with |- _ /\ _ => split end.

(** Case on every boolean test or match that blocks the goal. *)
Ltac dcase :=
  match goal with
  | |- context [match ?x with _ => _ end] =>
      lazymatch x with context [match _ with _ => _ end] => fail | _ => destruct x eqn:? end
  | H : context [match ?x with _ => _ end] |- _ =>
      lazymatch x with context [match _ with _ => _ end] => fail | _ => destruct x eqn:? end
  end.

(** * Lemmas on machine integers *)
Lemma wrap64_mod z : (wrap64 z mod two64 = z mod two64)%Z.
Proof.
  unfold wrap64. rewrite Zminus_mod_idemp_l. f_equal. lia.
Qed.

Lemma wrap64_eq a b : (a mod two64 = b mod two64)%Z -> wrap64 a = wrap64 b.
Proof.
  intros E. unfold wrap64. f_equal.
  rewrite <- (Zplus_mod_idemp_l a), <- (Zplus_mod_idemp_l b). by rewrite E.
Qed.

Lemma wrap64_add_l a b : wrap64 (wrap64 a + b) = wrap64 (a + b).
Proof.
  apply wrap64_eq. rewrite <- Zplus_mod_idemp_l, wrap64_mod. apply Zplus_mod_idemp_l.
Qed.

Lemma wrap64_add_r a b : wrap64 (a + wrap64 b) = wrap64 (a + b).
Proof. rewrite Z.add_comm, wrap64_add_l. f_equal. lia. Qed.

Lemma wrap64_small z : in_int64 z = true -> wrap64 z = z.
Proof.
  unfold in_int64, wrap64, two63, two64.
  intros [H1%Z.leb_le H2%Z.ltb_lt]%andb_true_iff. rewrite Z.mod_small; lia.
Qed.

Lemma wrap64_range z : in_int64 (wrap64 z) = true.
Proof.
  unfold in_int64, wrap64. apply andb_true_iff. rewrite Z.leb_le, Z.ltb_lt.
  pose proof (Z.mod_pos_bound (z + two63) two64 eq_refl).
  unfold two63, two64 in *. lia.
Qed.

(** * Lemmas on comparisons *)
Section Comparison.
Context {A : Type} (cmp : A -> A -> comparison).

Lemma cmp_then_eq c1 c2 : (c1 &&& c2) = Eq <-> c1 = Eq /\ c2 = Eq.
Proof. destruct c1; simpl; intuition congruence. Qed.

Lemma cmp_then_lt c1 c2 : (c1 &&& c2) = Lt <-> c1 = Lt \/ (c1 = Eq /\ c2 = Lt).
Proof. destruct c1; simpl; intuition congruence. Qed.

Lemma cmp_then_opp c1 c2 : CompOpp (c1 &&& c2) = CompOpp c1 &&& CompOpp c2.
Proof. by destruct c1. Qed.

Lemma cmp_at_refl x : cmp_ok_at cmp x -> cmp x x = Eq.
Proof.
  intros H. pose proof (cmp_on_sym _ _ _ H x I) as E.
  destruct (cmp x x); [done|discriminate E|discriminate E].
Qed.

Lemma slice_compare_eq_iff a b :
  slice_compare cmp a b = Eq <-> Forall2 (fun x y => cmp x y = Eq) a b.
Proof.
  revert b; induction a as [|x a IH]; intros [|y b]; simpl;
    rewrite ?Forall2_cons, ?cmp_then_eq, ?IH; split; intros H;
    try discriminate; try (by inversion H); auto.
Qed.
End Comparison.

(** Lexicographic steps: the second comparison only has to obey the laws on
    the points the first one cannot tell from [x]. *)
Lemma cmp_then_ok {A} (c1 c2 : A -> A -> comparison) x :
  cmp_ok_at c1 x -> cmp_ok_on (fun y => c1 x y = Eq) c2 x ->
  cmp_ok_at (fun a b => c1 a b &&& c2 a b) x.
Proof.
  intros H1 H2. split.
  - intros y _. rewrite cmp_then_opp, (cmp_on_sym _ _ _ H1 y I).
    destruct (c1 x y) eqn:E; simpl; [|done|done]. by apply (cmp_on_sym _ _ _ H2).
  - intros y z _ _ [L1|[E1 L1]]%cmp_then_lt [L2|[E2 L2]]%cmp_then_lt; apply cmp_then_lt.
    + left. by apply (cmp_on_trans _ _ _ H1 y).
    + left. by apply (cmp_on_lt_eq _ _ _ H1 y).
    + left. by rewrite <- (cmp_on_eq _ _ _ H1 y z I I E1).
    + right. assert (c1 x z = Eq) by (by rewrite <- (cmp_on_eq _ _ _ H1 y z I I E1)).
      split; [done|]. by apply (cmp_on_trans _ _ _ H2 y).
  - intros y z _ _ [L1|[E1 L1]]%cmp_then_lt [E2 L2]%cmp_then_eq; apply cmp_then_lt.
    + left. by apply (cmp_on_lt_eq _ _ _ H1 y).
    + right. assert (c1 x z = Eq) by (by rewrite <- (cmp_on_eq _ _ _ H1 y z I I E1)).
      split; [done|]. by apply (cmp_on_lt_eq _ _ _ H2 y).
  - intros y z _ _ [E1 E2]%cmp_then_eq. rewrite (cmp_on_eq _ _ _ H1 y z I I E1).
    destruct (c1 x z) eqn:E; simpl; [|done|done].
    by apply (cmp_on_eq _ _ _ H2).
Qed.

Lemma cmp_ok_weaken {A} (P Q : A -> Prop) (c : A -> A -> comparison) x :
  (forall y, Q y -> P y) -> cmp_ok_on P c x -> cmp_ok_on Q c x.
Proof.
  intros HPQ [Hs Ht Hl He]. split; intros.
  - by apply Hs, HPQ.
  - apply (Ht y); auto.
  - apply (Hl y); auto.
  - by apply He; try apply HPQ.
Qed.

Lemma cmp_contramap {A B} (f : A -> B) (c : B -> B -> comparison) x :
  cmp_ok_at c (f x) -> cmp_ok_at (fun a b => c (f a) (f b)) x.
Proof.
  intros [Hs Ht Hl He]. split; intros.
  - by apply Hs.
  - by apply (Ht (f y)).
  - by apply (Hl (f y)).
  - by apply He.
Qed.

Lemma cmp_lex {A} (c1 c2 : A -> A -> comparison) x :
  cmp_ok_at c1 x -> cmp_ok_at c2 x -> cmp_ok_at (fun a b => c1 a b &&& c2 a b) x.
Proof. intros H1 H2. apply cmp_then_ok; [done|]. eapply cmp_ok_weaken; [|exact H2]. done. Qed.

(** Laws of a comparison on the image of an injection-like constructor. *)
Lemma cmp_image {A B} (C : B -> A) (P : A -> Prop) (c : A -> A -> comparison)
    (c' : B -> B -> comparison) x :
  (forall y, P y -> exists y', y = C y') -> (forall a b, c (C a) (C b) = c' a b) ->
  cmp_ok_at c' x -> cmp_ok_on P c (C x).
Proof.
  intros HP Hc [Hs Ht Hl He].
  split; intros y; [intros Hy|intros z Hy Hz..];
    destruct (HP _ Hy) as [y' ->]; try destruct (HP _ Hz) as [z' ->]; rewrite !Hc.
  - by apply Hs.
  - by apply Ht.
  - by apply Hl.
  - by apply He.
Qed.

Lemma slice_compare_ok {A} (cmp : A -> A -> comparison) a :
  Forall (cmp_ok_at cmp) a -> cmp_ok_at (slice_compare cmp) a.
Proof.
  induction 1 as [|x a H1 _ H2].
  - split.
    + by intros [].
    + by intros [|] [|].
    + by intros [|] [|].
    + by intros [|] [|].
  - split.
    + intros [|y b] _; simpl; [done|].
      by rewrite cmp_then_opp, (cmp_on_sym _ _ _ H1 y I), (cmp_on_sym _ _ _ H2 b I).
    + intros [|y b] [|z c] _ _; simpl; try done.
      intros [L1|[E1 L1]]%cmp_then_lt [L2|[E2 L2]]%cmp_then_lt; apply cmp_then_lt.
      * left. by apply (cmp_on_trans _ _ _ H1 y).
      * left. by apply (cmp_on_lt_eq _ _ _ H1 y).
      * left. by rewrite <- (cmp_on_eq _ _ _ H1 y z I I E1).
      * right. split; [by rewrite <- (cmp_on_eq _ _ _ H1 y z I I E1)|].
        by apply (cmp_on_trans _ _ _ H2 b).
    + intros [|y b] [|z c] _ _; simpl; try done.
      intros [L1|[E1 L1]]%cmp_then_lt [E2 L2]%cmp_then_eq; apply cmp_then_lt.
      * left. by apply (cmp_on_lt_eq _ _ _ H1 y).
      * right. split; [by rewrite <- (cmp_on_eq _ _ _ H1 y z I I E1)|].
        by apply (cmp_on_lt_eq _ _ _ H2 b).
    + intros [|y b] [|z c] _ _; simpl; try done.
      intros [E1 E2]%cmp_then_eq.
      by rewrite (cmp_on_eq _ _ _ H1 y z I I E1), (cmp_on_eq _ _ _ H2 b c I I E2).
Qed.

(** A comparison that is total on its whole type gives a global order. *)
Section CmpGlobal.
Context {A : Type} (cmp : A -> A -> comparison) `{H : !CmpOk cmp}.

Lemma cmp_refl x : cmp x x = Eq.
Proof. apply cmp_at_refl, H. Qed.
Lemma cmp_sym x y : cmp y x = CompOpp (cmp x y).
Proof. by apply (cmp_on_sym _ _ _ (H x)). Qed.
Lemma cmp_lt_trans x y z : cmp x y = Lt -> cmp y z = Lt -> cmp x z = Lt.
Proof. by apply (cmp_on_trans _ _ _ (H x)). Qed.
Lemma cmp_lt_eq x y z : cmp x y = Lt -> cmp y z = Eq -> cmp x z = Lt.
Proof. by apply (cmp_on_lt_eq _ _ _ (H x)). Qed.
Lemma cmp_eq_l x y z : cmp x y = Eq -> cmp y z = cmp x z.
Proof. by apply (cmp_on_eq _ _ _ (H x)). Qed.
Lemma cmp_eq_sym x y : cmp x y = Eq -> cmp y x = Eq.
Proof. intros E. by rewrite (cmp_sym x y), E. Qed.
Lemma cmp_eq_trans x y z : cmp x y = Eq -> cmp y z = Eq -> cmp x z = Eq.
Proof. intros E1 E2. by rewrite <- (cmp_eq_l x y z E1). Qed.
Lemma cmp_eq_r x y z : cmp y z = Eq -> cmp x y = cmp x z.
Proof.
  intros E. rewrite (cmp_sym y x), (cmp_sym z x). f_equal.
  symmetry. by apply cmp_eq_l.
Qed.
Lemma cmp_gt_lt x y : cmp x y = Gt <-> cmp y x = Lt.
Proof. rewrite (cmp_sym x y). destruct (cmp x y); simpl; intuition congruence. Qed.
End CmpGlobal.

Lemma Z_compare_ok : CmpOk Z.compare.
Proof.
  intros x. split; intros.
  - apply Z.compare_antisym.
  - rewrite Z.compare_lt_iff in *. lia.
  - rewrite Z.compare_lt_iff in *. rewrite Z.compare_eq_iff in *. lia.
  - apply Z.compare_eq_iff in H1. by subst.
Qed.

Lemma ascii_compare_ok : CmpOk Ascii.compare.
Proof.
  intros x. unfold Ascii.compare. apply cmp_contramap with (c := N.compare).
  split; intros.
  - apply N.compare_antisym.
  - rewrite N.compare_lt_iff in *. lia.
  - rewrite N.compare_lt_iff in *. rewrite N.compare_eq_iff in *. lia.
  - apply N.compare_eq_iff in H1. by subst.
Qed.

(** Go compares strings bytewise; [String.compare] is the same loop. *)
Lemma string_compare_slice s t :
  String.compare s t =
    slice_compare Ascii.compare (list_ascii_of_string s) (list_ascii_of_string t).
Proof.
  revert t. induction s as [|a s IH]; intros [|b t]; simpl; try done.
  destruct (Ascii.compare a b) eqn:E; simpl; auto.
Qed.

Lemma string_compare_ok : CmpOk String.compare.
Proof.
  intros x.
  assert (cmp_ok_at (fun a b => slice_compare Ascii.compare
            (list_ascii_of_string a) (list_ascii_of_string b)) x) as [Hs Ht Hl He].
  { apply cmp_contramap with (c := slice_compare Ascii.compare).
    apply slice_compare_ok, Forall_true, ascii_compare_ok. }
  split; intros y.
  - rewrite !string_compare_slice. apply Hs.
  - intros z. rewrite !string_compare_slice. apply Ht.
  - intros z. rewrite !string_compare_slice. apply Hl.
  - intros z. rewrite !string_compare_slice. apply He.
Qed.

#[export] Existing Instance Z_compare_ok.
#[export] Existing Instance string_compare_ok.

Lemma string_compare_eq s t : String.compare s t = Eq <-> s = t.
Proof.
  split; [apply String.compare_eq_iff|]. intros ->. apply (cmp_refl String.compare).
Qed.

(** * Lemmas on lists *)
Lemma Forall_sublist {A} (P : A -> Prop) l l' : l' `sublist_of` l -> Forall P l -> Forall P l'.
Proof. rewrite !Forall_forall. intros S H x Hx. by eapply H, elem_of_sublist. Qed.

Lemma forallb_Forall {A} (f : A -> bool) l : forallb f l = true <-> Forall (fun x => f x = true) l.
Proof. rewrite forallb_forall, Forall_forall. by setoid_rewrite list_elem_of_In. Qed.

Lemma NoDup_map_inj {A B} (f : A -> B) l x y :
  NoDup (map f l) -> x ∈ l -> y ∈ l -> f x = f y -> x = y.
Proof.
  intros N (i & Hi)%list_elem_of_lookup (j & Hj)%list_elem_of_lookup E.
  assert (i = j) as ->; [|congruence].
  eapply (NoDup_lookup (map f l)); [done| |]; rewrite list_lookup_fmap.
  - by rewrite Hi.
  - rewrite Hj. simpl. by rewrite E.
Qed.

Lemma fold_left_ext {A B} (f g : A -> B -> A) l : forall a,
  (forall a b, f a b = g a b) -> fold_left f l a = fold_left g l a.
Proof. induction l as [|b l IH]; intros a E; simpl; [done|]. by rewrite E, IH. Qed.
