(* ===== verification/Queue.v ===== *)
(** Queues: [src/util/queue.go].

    [LIFO] is an immutable linked list with a size counter.  [FIFO] keeps two
    pointers into a chain of mutable nodes ([s.back.next = node] writes through
    a pointer that the front also reaches), so its model has an explicit heap
    of nodes; dereferencing a nil pointer is a panic ([None]).

    Both queues are proved to refine lists, operation sequence by operation
    sequence, and to implement the [Worklist] interface that the graph
    traversals of Graph.v are proved against. *)
From Stdlib Require Import ZArith Lia.
From stdpp Require Import base gmap list fin_maps.
From S2P Require Import Prelude.

(** ** The interface the traversals use *)

(** A bag of pending nodes.  [wl_rep q l]: queue [q] holds exactly the elements
    of [l], in some order.  [None] is a panic of the Go code. *)
Class Worklist (T Q : Type) : Type := {
  wl_new : T -> option Q;
  wl_push : Q -> T -> option Q;
  wl_pop : Q -> option (option T * Q);
  wl_size : Q -> Z;
  wl_rep : Q -> list T -> Prop;
  wl_new_ok : forall t, exists q, wl_new t = Some q /\ wl_rep q [t];
  wl_push_ok : forall q l t, wl_rep q l ->
    exists q' l', wl_push q t = Some q' /\ wl_rep q' l' /\ l' ≡ₚ t :: l;
  wl_pop_ok : forall q x l, wl_rep q (x :: l) ->
    exists y l' q', wl_pop q = Some (Some y, q') /\ wl_rep q' l' /\ x :: l ≡ₚ y :: l';
  wl_size_ok : forall q l, wl_rep q l -> wl_size q = Z.of_nat (length l);
}.

(** Operations and observations shared by the two refinement theorems. *)
Inductive queue_op (T : Type) := OpPush (t : T) | OpPop | OpPeek | OpSize.
Arguments OpPush {T} t. Arguments OpPop {T}. Arguments OpPeek {T}. Arguments OpSize {T}.
Inductive queue_out (T : Type) := OutUnit | OutElem (o : option T) | OutSize (n : Z).
Arguments OutUnit {T}. Arguments OutElem {T} o. Arguments OutSize {T} n.

Module Lifo.
Section Lifo.
Context {T : Type}.

Record LIFO := { top : list T; size : Z }.

Definition Push (s : LIFO) (t : T) : LIFO :=
  {| top := t :: top s; size := size s + 1 |}.

Definition NewLIFO (ts : list T) : LIFO :=
  fold_left Push ts {| top := []; size := 0 |}.

Definition Peek (s : LIFO) : option T :=
  match top s with [] => None | v :: _ => Some v end.

Definition Pop (s : LIFO) : option T * LIFO :=
  match top s with
  | [] => (None, s)
  | v :: next => (Some v, {| top := next; size := size s - 1 |})
  end.

Definition Size (s : LIFO) : Z := size s.

(** Running an operation sequence, and the stack it should behave as. *)
Definition step (s : LIFO) (o : queue_op T) : LIFO * queue_out T :=
  match o with
  | OpPush t => (Push s t, OutUnit)
  | OpPop => let '(r, s') := Pop s in (s', OutElem r)
  | OpPeek => (s, OutElem (Peek s))
  | OpSize => (s, OutSize (Size s))
  end.
Fixpoint run (s : LIFO) (os : list (queue_op T)) : list (queue_out T) :=
  match os with [] => [] | o :: os => let '(s', r) := step s o in r :: run s' os end.

Definition spec_step (l : list T) (o : queue_op T) : list T * queue_out T :=
  match o with
  | OpPush t => (t :: l, OutUnit)
  | OpPop => (tail l, OutElem (head l))
  | OpPeek => (l, OutElem (head l))
  | OpSize => (l, OutSize (Z.of_nat (length l)))
  end.
Fixpoint spec_run (l : list T) (os : list (queue_op T)) : list (queue_out T) :=
  match os with
  | [] => [] | o :: os => let '(l', r) := spec_step l o in r :: spec_run l' os
  end.

Definition rep (s : LIFO) (l : list T) : Prop :=
  top s = l /\ size s = Z.of_nat (length l).

Lemma lifo_push_rep s l t : rep s l -> rep (Push s t) (t :: l).
Proof. intros [<- E]. split; simpl; [done|]. rewrite E. simpl. lia. Qed.

Lemma lifo_new_rep ts : rep (NewLIFO ts) (rev ts).
Proof.
  unfold NewLIFO.
  enough (forall s l, rep s l -> rep (fold_left Push ts s) (rev ts ++ l)) as H.
  { rewrite <- (app_nil_r (rev ts)). by apply H. }
  induction ts as [|t ts IH]; intros s l H; simpl; [done|].
  rewrite <- app_assoc. apply IH. by apply lifo_push_rep.
Qed.

Lemma lifo_step_rep s l o :
  rep s l ->
  (step s o).2 = (spec_step l o).2 /\ rep (step s o).1 (spec_step l o).1.
Proof.
  intros [<- E]. destruct o; simpl; unfold Pop, Peek, Size.
  - split; [done|]. by apply lifo_push_rep.
  - destruct (top s) eqn:Et; simpl; [by repeat split|].
    split; [done|]. split; [done|]. simpl. rewrite E. simpl. lia.
  - split; [by destruct (top s)|done].
  - split; [by rewrite E|done].
Qed.

Lemma lifo_run_rep os s l : rep s l -> run s os = spec_run l os.
Proof.
  revert s l. induction os as [|o os IH]; intros s l H; [done|]. simpl.
  destruct (lifo_step_rep s l o H) as [E1 E2].
  destruct (step s o), (spec_step l o); simpl in *. subst. f_equal. auto.
Qed.

#[global] Program Instance lifo_worklist : Worklist T LIFO := {
  wl_new t := Some (NewLIFO [t]);
  wl_push s t := Some (Push s t);
  wl_pop s := Some (Pop s);
  wl_size := Size;
  wl_rep := rep;
}.
Next Obligation. intros t. eexists. split; [done|]. exact (lifo_new_rep [t]). Qed.
Next Obligation.
  intros q l t H. eexists _, _. split; [done|]. split; [by apply lifo_push_rep|done].
Qed.
Next Obligation.
  intros q x l [E1 E2]. eexists x, l, _. split; [|split; [|done]].
  - unfold Pop. by rewrite E1.
  - split; [done|]. simpl in *. rewrite E2. lia.
Qed.
Next Obligation. by intros q l [_ E]. Qed.
End Lifo.
Arguments LIFO : clear implicits.
End Lifo.

Module Fifo.
Section Fifo.
Context {T : Type}.

Record queueNode := { v : T; next : option nat }.

(** [heap] and [alloc] stand for Go's heap: the live nodes and the next free
    address. *)
Record FIFO := {
  heap : gmap nat queueNode;
  alloc : nat;
  front : option nat;
  back : option nat;
  size : Z;
}.

Definition empty_fifo : FIFO :=
  {| heap := ∅; alloc := 0; front := None; back := None; size := 0 |}.

Definition Push (s : FIFO) (t : T) : option FIFO :=
  let node := alloc s in
  let h := <[node := {| v := t; next := None |}]> (heap s) in
  match front s with
  | None =>
      Some {| heap := h; alloc := S node; front := Some node; back := Some node;
              size := size s + 1 |}
  | Some _ =>
      match back s with
      | None => None
      | Some b =>
          match h !! b with
          | None => None
          | Some bn =>
              Some {| heap := <[b := {| v := v bn; next := Some node |}]> h;
                      alloc := S node; front := front s; back := Some node;
                      size := size s + 1 |}
          end
      end
  end.

Definition NewFIFO (ts : list T) : option FIFO :=
  fold_left (fun s t => s ≫= fun s => Push s t) ts (Some empty_fifo).

Definition Peek (s : FIFO) : option (option T) :=
  match front s with
  | None => Some None
  | Some f => match heap s !! f with Some n => Some (Some (v n)) | None => None end
  end.

Definition Pop (s : FIFO) : option (option T * FIFO) :=
  match front s with
  | None => Some (None, s)
  | Some f =>
      match heap s !! f with
      | None => None
      | Some node =>
          Some (Some (v node),
                {| heap := heap s; alloc := alloc s; front := next node;
                   back := back s; size := size s - 1 |})
      end
  end.

Definition Size (s : FIFO) : Z := size s.

Definition step (s : FIFO) (o : queue_op T) : option (FIFO * queue_out T) :=
  match o with
  | OpPush t => s' ← Push s t; Some (s', OutUnit)
  | OpPop => '(r, s') ← Pop s; Some (s', OutElem r)
  | OpPeek => r ← Peek s; Some (s, OutElem r)
  | OpSize => Some (s, OutSize (Size s))
  end.
Fixpoint run (s : FIFO) (os : list (queue_op T)) : option (list (queue_out T)) :=
  match os with
  | [] => Some []
  | o :: os => '(s', r) ← step s o; rs ← run s' os; Some (r :: rs)
  end.

Definition spec_step (l : list T) (o : queue_op T) : list T * queue_out T :=
  match o with
  | OpPush t => (l ++ [t], OutUnit)
  | OpPop => (tail l, OutElem (head l))
  | OpPeek => (l, OutElem (head l))
  | OpSize => (l, OutSize (Z.of_nat (length l)))
  end.
Fixpoint spec_run (l : list T) (os : list (queue_op T)) : list (queue_out T) :=
  match os with
  | [] => [] | o :: os => let '(l', r) := spec_step l o in r :: spec_run l' os
  end.

(** [chain h p ps l]: from pointer [p] the nodes at addresses [ps] carry the
    values [l], and the last one has a nil [next]. *)
Inductive chain (h : gmap nat queueNode) : option nat -> list nat -> list T -> Prop :=
| chain_nil : chain h None [] []
| chain_cons p n ps l :
    h !! p = Some n -> chain h (next n) ps l -> chain h (Some p) (p :: ps) (v n :: l).

Definition rep (s : FIFO) (l : list T) : Prop :=
  exists ps, chain (heap s) (front s) ps l /\ NoDup ps /\
    Forall (fun p => p < alloc s) ps /\
    (l <> [] -> back s = last ps) /\ size s = Z.of_nat (length l).

Lemma chain_insert_fresh h p ps l a n :
  chain h p ps l -> a ∉ ps -> chain (<[a := n]> h) p ps l.
Proof.
  induction 1 as [|p m ps l Hp Hc IH]; intros Ha; constructor.
  - rewrite lookup_insert_ne; [done|set_solver].
  - apply IH. set_solver.
Qed.

Lemma chain_snoc h p ps l b bn a t :
  chain h p ps l -> NoDup ps -> last ps = Some b -> h !! b = Some bn -> a ∉ ps ->
  chain (<[b := {| v := v bn; next := Some a |}]> (<[a := {| v := t; next := None |}]> h))
    p (ps ++ [a]) (l ++ [t]).
Proof.
  intros Hc. revert b bn. induction Hc as [|p n ps l Hp Hc IH]; intros b bn Hnd Hl Hb Ha; [done|].
  apply NoDup_cons in Hnd as [Hnin Hnd].
  destruct ps as [|q ps].
  - simpl in Hl. assert (p = b) as -> by congruence.
    assert (n = bn) as -> by congruence. inversion Hc; subst. simpl.
    apply (chain_cons _ b {| v := v bn; next := Some a |}); simpl.
    + by rewrite lookup_insert_eq.
    + apply (chain_cons _ a {| v := t; next := None |}); simpl; [|constructor].
      rewrite lookup_insert_ne by set_solver. by rewrite lookup_insert_eq.
  - rewrite last_cons_cons in Hl.
    assert (b ∈ q :: ps) by (apply last_Some in Hl as [l' ->]; set_solver).
    simpl. apply chain_cons.
    + rewrite !lookup_insert_ne by set_solver. done.
    + apply IH; try done. set_solver.
Qed.

Lemma fifo_push_rep s l t : rep s l -> exists s', Push s t = Some s' /\ rep s' (l ++ [t]).
Proof.
  intros (ps & Hc & Hnd & Hlt & Hb & Hsz).
  assert (Hfresh : alloc s ∉ ps).
  { intros Hin. rewrite Forall_forall in Hlt. specialize (Hlt _ Hin). lia. }
  unfold Push. inversion Hc as [E1 E2 E3|p n ps' l' Hp Hc' E1 E2 E3]; subst.
  - eexists. split; [done|]. exists [alloc s]. simpl. split_ands; auto.
    + apply (chain_cons _ _ {| v := t; next := None |}); [apply lookup_insert_eq|constructor].
    + apply NoDup_singleton.
    + simpl in *. lia.
  - rewrite Hb by done. destruct (last (p :: ps')) as [b|] eqn:El;
      [|by apply last_None in El].
    assert (Hbin : b ∈ p :: ps') by (apply last_Some in El as [k ->]; set_solver).
    assert (exists bn, heap s !! b = Some bn) as [bn Hbn].
    { clear -Hc Hbin E1. rewrite <- E1 in Hc. revert Hc Hbin.
      generalize (Some p) (p :: ps') (v n :: l').
      induction 1; intros Hin; [set_solver|].
      apply elem_of_cons in Hin as [->|]; eauto. }
    rewrite lookup_insert_ne, Hbn by (intros <-; done).
    eexists. split; [done|]. exists ((p :: ps') ++ [alloc s]). simpl.
    rewrite <- E1 in Hc. split_ands.
    + apply (chain_snoc (heap s) (Some p) (p :: ps') (v n :: l')); auto.
    + apply (NoDup_app (p :: ps') [alloc s]). split_ands; auto.
      * intros x Hx Hx'%list_elem_of_singleton. by subst.
      * apply NoDup_singleton.
    + apply (Forall_app _ (p :: ps') [alloc s]). split.
      * eapply Forall_impl; [done|]. simpl. lia.
      * repeat constructor; lia.
    + intros _. change (p :: ps' ++ [alloc s]) with ((p :: ps') ++ [alloc s]).
      by rewrite last_snoc.
    + simpl in *. rewrite length_app. simpl. lia.
Qed.

Lemma pop_rep s l :
  rep s l ->
  exists s', Pop s = Some (head l, s') /\ rep s' (tail l).
Proof.
  intros (ps & Hc & Hnd & Hlt & Hb & Hsz). unfold Pop.
  inversion Hc as [E1 E2 E3|p n ps' l' Hp Hc' E1 E2 E3]; subst.
  - eexists. split; [done|]. exists []. rewrite <- E1. split_ands; by try constructor.
  - rewrite Hp. eexists. split; [done|]. exists ps'. simpl in *.
    apply NoDup_cons in Hnd as [_ Hnd]. inversion Hlt; subst.
    split_ands; auto; [|lia].
    intros Hne. rewrite Hb by done. destruct ps'; [by inversion Hc'; subst|done].
Qed.

Lemma empty_rep : rep empty_fifo [].
Proof. exists []. split_ands; by try constructor. Qed.

Lemma fifo_new_rep ts : exists s, NewFIFO ts = Some s /\ rep s ts.
Proof.
  unfold NewFIFO.
  enough (forall s l, rep s l -> exists s',
    fold_left (fun s t => s ≫= fun s => Push s t) ts (Some s) = Some s' /\ rep s' (l ++ ts))
    as H by exact (H _ _ empty_rep).
  induction ts as [|t ts IH]; intros s l H; simpl.
  - exists s. by rewrite app_nil_r.
  - destruct (fifo_push_rep s l t H) as (s1 & -> & H1).
    destruct (IH _ _ H1) as (s2 & E & H2). exists s2. split; [done|].
    by rewrite <- app_assoc in H2.
Qed.

Lemma fifo_step_rep s l o :
  rep s l ->
  exists s', step s o = Some (s', (spec_step l o).2) /\ rep s' (spec_step l o).1.
Proof.
  intros H. destruct o as [t| | |]; simpl.
  - destruct (fifo_push_rep s l t H) as (s' & -> & H'). by exists s'.
  - destruct (pop_rep s l H) as (s' & -> & H'). by exists s'.
  - exists s. split; [|done]. destruct H as (ps & Hc & _). unfold Peek.
    inversion Hc as [|p n ps' l' Hp]; [done|]. by rewrite Hp.
  - exists s. split; [|done]. destruct H as (ps & _ & _ & _ & _ & Hsz).
    unfold Size. by rewrite Hsz.
Qed.

Lemma fifo_run_rep os s l : rep s l -> run s os = Some (spec_run l os).
Proof.
  revert s l. induction os as [|o os IH]; intros s l H; [done|]. simpl.
  destruct (fifo_step_rep s l o H) as (s' & -> & H'). simpl.
  rewrite (IH _ _ H'). simpl. by destruct (spec_step l o).
Qed.

#[global] Program Instance fifo_worklist : Worklist T FIFO := {
  wl_new t := NewFIFO [t];
  wl_push := Push;
  wl_pop := Pop;
  wl_size := Size;
  wl_rep := rep;
}.
Next Obligation. intros t. exact (fifo_new_rep [t]). Qed.
Next Obligation.
  intros q l t H. destruct (fifo_push_rep q l t H) as (s' & ? & ?).
  exists s', (l ++ [t]). split_ands; auto. by rewrite Permutation_app_comm.
Qed.
Next Obligation.
  intros q x l H. destruct (pop_rep q (x :: l) H) as (s' & ? & ?).
  by exists x, l, s'.
Qed.
Next Obligation. by intros q l (ps & _ & _ & _ & _ & E). Qed.
End Fifo.
Arguments FIFO : clear implicits.
End Fifo.

(** ** Properties *)

(** A LIFO built from [ts] behaves, for every sequence of pushes, pops, peeks
    and size queries, as the stack holding [ts] with its last element on top. *)
Theorem lifo_refines_stack {T} (ts : list T) (os : list (queue_op T)) :
  Lifo.run (Lifo.NewLIFO ts) os = Lifo.spec_run (rev ts) os.
Proof. apply Lifo.lifo_run_rep, Lifo.lifo_new_rep. Qed.

(** A FIFO built from [ts] never dereferences nil and behaves, for every
    sequence of operations, as the queue holding [ts] with its first element at
    the front; in particular the [back] pointer left stale by popping the last
    element is never read. *)
Theorem fifo_refines_queue {T} (ts : list T) (os : list (queue_op T)) :
  (s ← Fifo.NewFIFO ts; Fifo.run s os) = Some (Fifo.spec_run ts os).
Proof.
  destruct (Fifo.fifo_new_rep ts) as (s & -> & H). simpl. by apply Fifo.fifo_run_rep.
Qed.
