(* ===== verification/Graph.v ===== *)
(** Graph traversals: [src/util/graph.go].

    [DFS] and [BFS] are the same loop over a LIFO or a FIFO, so the loop is
    written once against the [Worklist] interface of Queue.v and instantiated
    twice.  The [Traversal] interface of the Go code (a user-supplied [Edges]
    function and a stateful [Visited] test) is the class [Traversal]; its law
    is the documented one: [Visited u] answers whether [u] was seen before in
    this traversal, and from then on it was.  Loops run on fuel; the theorems
    show that on a finite graph a fuel computed from the graph is enough. *)
From Stdlib Require Import ZArith Lia.
From stdpp Require Import base gmap list fin_maps sets relations.
From S2P Require Import Prelude Queue.

Class Traversal (T S : Type) `{Countable T} : Type := {
  Edges : T -> list T;
  Visited : T -> S -> bool * S;
  seen : S -> gset T;
  Visited_ok : forall u s,
    (Visited u s).1 = bool_decide (u ∈ seen s) /\ seen (Visited u s).2 = {[u]} ∪ seen s;
}.

Section Graph.
Context {T S : Type} `{Countable T} `{!Traversal T S}.

Definition edge (u v : T) : Prop := v ∈ Edges u.

Section Search.
Context {Q : Type} `{!Worklist T Q}.
(** The callback [f], with the state it closes over. *)
Context {A : Type} (f : T -> A -> bool * A).

Fixpoint push_all (q : Q) (vs : list T) : option Q :=
  match vs with
  | [] => Some q
  | v :: vs => q' ← wl_push q v; push_all q' vs
  end.

Fixpoint search_loop (fuel : nat) (q : Q) (s : S) (a : A) : option (bool * S * A) :=
  match fuel with
  | 0 => None
  | Datatypes.S fuel =>
      if (wl_size q >? 0)%Z then
        '(o, q1) ← wl_pop q;
        next ← o;
        let '(vis, s1) := Visited next s in
        if vis then search_loop fuel q1 s1 a
        else
          let '(stop, a1) := f next a in
          if stop then Some (true, s1, a1)
          else
            q2 ← push_all q1 (Edges next);
            search_loop fuel q2 s1 a1
      else Some (false, s, a)
  end.

Definition search (fuel : nat) (s : S) (a : A) (u : T) : option (bool * S * A) :=
  q ← wl_new u; search_loop fuel q s a.
End Search.

Definition DFS {A} (f : T -> A -> bool * A) (fuel : nat) (s : S) (a : A) (u : T) :=
  search (Q := Lifo.LIFO T) f fuel s a u.

Definition BFS {A} (f : T -> A -> bool * A) (fuel : nat) (s : S) (a : A) (u : T) :=
  search (Q := Fifo.FIFO T) f fuel s a u.

(** [DFSPath]: the recursion, then the in-place reversal loop. *)
Section Path.
Context (eq : T -> T -> bool).

(** The [for _, v := range t.Edges(u)] loop of [dfsRecursive], with the
    recursive call as an argument. *)
Fixpoint dfs_edges (rec : S -> T -> option (list T * S)) (u z : T) (path es : list T) (s : S) :
    option (list T * S) :=
  match es with
  | [] => Some (path, s)
  | v :: es =>
      if eq v z then Some ((path ++ [z]) ++ [u], s)
      else
        '(p, s') ← rec s v;
        if 0 <? length p then Some (p ++ [u], s') else dfs_edges rec u z path es s'
  end.

Fixpoint dfsRecursive (fuel : nat) (s : S) (u z : T) (path : list T) : option (list T * S) :=
  match fuel with
  | 0 => None
  | Datatypes.S fuel =>
      let '(vis, s1) := Visited u s in
      if vis then Some (path, s1)
      else dfs_edges (fun s v => dfsRecursive fuel s v z path) u z path (Edges u) s1
  end.

(** [p[i], p[o] = p[o], p[i]]; an index out of range is a panic. *)
Definition swap (i o : nat) (p : list T) : option (list T) :=
  x ← p !! i; y ← p !! o; Some (<[o := x]> (<[i := y]> p)).

(** [for i := k - 1; i >= 0; i-- { ... }] *)
Fixpoint reverse_loop (k : nat) (p : list T) : option (list T) :=
  match k with
  | 0 => Some p
  | Datatypes.S i => p' ← swap i (length p - i - 1) p; reverse_loop i p'
  end.

Definition DFSPath (fuel : nat) (s : S) (a z : T) : option (list T) :=
  '(p, _) ← dfsRecursive fuel s a z [];
  reverse_loop (length p / 2) p.

End Path.

(** ** Correctness of the searches *)

Lemma reach_closed (P : T -> Prop) :
  (forall x y, P x -> edge x y -> P y) -> forall x y, rtc edge x y -> P x -> P y.
Proof. intros HP. induction 1; eauto. Qed.

(** The work left: one loop iteration per pending element, and one per edge
    of a node not seen yet. *)
Definition weight (W : gset T) : nat := sum_list_with (fun v => length (Edges v)) (elements W).

Lemma weight_union x W : x ∉ W -> weight ({[x]} ∪ W) = length (Edges x) + weight W.
Proof.
  intros Hx. unfold weight. rewrite elements_union_singleton by done. done.
Qed.

Section SearchOk.
Context {Q : Type} `{!Worklist T Q}.
Context (V : gset T) (V_closed : forall u v, u ∈ V -> edge u v -> v ∈ V).
Context (stop : T -> bool) (u0 : T) (u0_V : u0 ∈ V).

(** The callback that records the nodes it is called on and stops on
    [stop]. *)
Definition record (u : T) (tr : list T) : bool * list T := (stop u, tr ++ [u]).

Definition fuel_for : nat := weight V + 2.

Lemma push_all_rep vs q l :
  wl_rep q l -> exists q' l', push_all q vs = Some q' /\ wl_rep q' l' /\ l' ≡ₚ vs ++ l.
Proof.
  revert q l. induction vs as [|v vs IH]; intros q l Hq; simpl; [by exists q, l|].
  destruct (wl_push_ok q l v Hq) as (q1 & l1 & -> & H1 & P1). simpl.
  destruct (IH q1 l1 H1) as (q2 & l2 & E & H2 & P2). exists q2, l2. split_ands; auto.
  rewrite P2, P1. by rewrite Permutation_middle.
Qed.

(** Loop invariant: the trace is what was seen, nothing in it stops, its
    edges lead to seen or pending nodes. *)
Record inv (l : list T) (s : S) (tr : list T) : Prop := {
  inv_seen : seen s = list_to_set tr;
  inv_nodup : NoDup tr;
  inv_reach : forall x, x ∈ tr \/ x ∈ l -> rtc edge u0 x;
  inv_nostop : forall x, x ∈ tr -> stop x = false;
  inv_closed : forall x y, x ∈ tr -> edge x y -> y ∈ tr \/ y ∈ l;
  inv_start : u0 ∈ tr \/ u0 ∈ l;
}.

Lemma reach_V x : rtc edge u0 x -> x ∈ V.
Proof. intros Hx. by apply (reach_closed (fun x => x ∈ V) V_closed u0). Qed.

Definition outcome (b : bool) (tr : list T) : Prop :=
  NoDup tr /\ (forall x, x ∈ tr -> rtc edge u0 x) /\
  (b = true -> exists tr' x, tr = tr' ++ [x] /\ stop x = true /\
                 forall y, y ∈ tr' -> stop y = false) /\
  (b = false -> forall x, rtc edge u0 x -> x ∈ tr /\ stop x = false).

Lemma inv_done s tr : inv [] s tr -> outcome false tr.
Proof.
  intros I. unfold outcome. split_ands; [apply I| |done|].
  - intros x Hx. apply (inv_reach _ _ _ I). by left.
  - intros _ x Hx. cut (x ∈ tr); [intros; split; [done|]; by apply (inv_nostop _ _ _ I)|].
    destruct (inv_start _ _ _ I) as [Hs|]; [|set_solver].
    apply (reach_closed (fun x => x ∈ tr)) with u0; [|done..].
    intros y z Hy E. destruct (inv_closed _ _ _ I y z Hy E); [done|set_solver].
Qed.

Lemma inv_seen_again x l l0 s tr :
  inv l0 s tr -> l0 ≡ₚ x :: l -> x ∈ seen s -> inv l (Visited x s).2 tr.
Proof.
  intros I P Hx. destruct (Visited_ok x s) as [_ E2].
  pose proof (inv_seen _ _ _ I) as Es.
  assert (x ∈ tr) by set_solver.
  split; try apply I.
  - rewrite E2, Es. set_solver.
  - intros y [Hy|Hy]; apply (inv_reach _ _ _ I); [by left|].
    right. rewrite P. set_solver.
  - intros y z Hy E. destruct (inv_closed _ _ _ I y z Hy E) as [|Hz]; [by left|].
    rewrite P in Hz. apply elem_of_cons in Hz as [->|]; auto.
  - destruct (inv_start _ _ _ I) as [|Hz]; [by left|].
    rewrite P in Hz. apply elem_of_cons in Hz as [->|]; auto.
Qed.

Lemma inv_visit x l l0 l1 s tr :
  inv l0 s tr -> l0 ≡ₚ x :: l -> x ∉ seen s -> stop x = false -> l1 ≡ₚ Edges x ++ l ->
  inv l1 (Visited x s).2 (tr ++ [x]).
Proof.
  intros I P Hx Hst P1. destruct (Visited_ok x s) as [_ E2].
  pose proof (inv_seen _ _ _ I) as Es.
  assert (Hrx : rtc edge u0 x) by (apply (inv_reach _ _ _ I); right; rewrite P; set_solver).
  split.
  - rewrite E2, Es, list_to_set_app_L. set_solver.
  - apply NoDup_app. split_ands; [apply I| |apply NoDup_singleton]. set_solver.
  - intros y [[Hy|Hy]%elem_of_app|Hy].
    + apply (inv_reach _ _ _ I). by left.
    + apply list_elem_of_singleton in Hy as ->. done.
    + rewrite P1 in Hy. apply elem_of_app in Hy as [Hy|Hy].
      * by eapply rtc_r.
      * apply (inv_reach _ _ _ I). right. rewrite P. set_solver.
  - intros y [Hy|Hy%list_elem_of_singleton]%elem_of_app; [|by subst]. by apply (inv_nostop _ _ _ I).
  - intros y z [Hy|Hy%list_elem_of_singleton]%elem_of_app E; [|subst y].
    + destruct (inv_closed _ _ _ I y z Hy E) as [|Hz]; [set_solver|].
      rewrite P in Hz. rewrite P1. set_solver.
    + right. rewrite P1. unfold edge in E. set_solver.
  - destruct (inv_start _ _ _ I) as [|Hz]; [set_solver|].
    rewrite P in Hz. rewrite P1. set_solver.
Qed.

Lemma search_loop_ok fuel : forall q l s tr,
  wl_rep q l -> inv l s tr -> length l + weight (V ∖ seen s) < fuel ->
  exists b s' tr', search_loop record fuel q s tr = Some (b, s', tr') /\ outcome b tr'.
Proof.
  induction fuel as [|fuel IH]; intros q l s tr Hq I Hf; [lia|]. simpl.
  rewrite (wl_size_ok q l Hq). destruct l as [|x0 l0].
  { exists false, s, tr. split; [done|]. by eapply inv_done. }
  replace (Z.of_nat (length (x0 :: l0)) >? 0)%Z with true
    by (symmetry; apply Z.gtb_lt; simpl; lia).
  destruct (wl_pop_ok q x0 l0 Hq) as (x & l & q1 & -> & Hq1 & P). simpl.
  destruct (Visited_ok x s) as [E1 E2].
  destruct (Visited x s) as [vis s1] eqn:Ev; simpl in *. subst vis.
  pose proof (Permutation_length P) as Hlen. simpl in Hlen.
  case_bool_decide as Hx.
  { apply (IH q1 l); auto; [|replace (seen s1) with (seen s) by set_solver; lia].
    replace s1 with (Visited x s).2 by (by rewrite Ev). by eapply inv_seen_again. }
  unfold record at 1. assert (Hxr : rtc edge u0 x)
    by (apply (inv_reach _ _ _ I); right; rewrite P; set_solver).
  destruct (stop x) eqn:Est.
  { exists true, s1, (tr ++ [x]). split; [done|]. unfold outcome. split_ands; [| | |done].
    - apply NoDup_app. split_ands; [apply I| |apply NoDup_singleton].
      pose proof (inv_seen _ _ _ I). set_solver.
    - intros y [Hy|Hy%list_elem_of_singleton]%elem_of_app; [|by subst].
      apply (inv_reach _ _ _ I). by left.
    - intros _. exists tr, x. split_ands; auto. apply I. }
  destruct (push_all_rep (Edges x) q1 l Hq1) as (q2 & l2 & -> & Hq2 & P2). simpl.
  apply (IH q2 l2); auto.
  - replace s1 with (Visited x s).2 by (by rewrite Ev). by eapply inv_visit.
  - apply Permutation_length in P2. rewrite length_app in P2.
    assert (V ∖ seen s = {[x]} ∪ (V ∖ seen s1)) as Ew.
    { rewrite E2. pose proof (reach_V x Hxr). apply set_eq. intros y.
      destruct (decide (y = x)); set_solver. }
    rewrite Ew, weight_union in Hf by (rewrite E2; set_solver). lia.
Qed.

Lemma search_ok s :
  seen s = ∅ ->
  exists b s' tr, search record fuel_for s [] u0 = Some (b, s', tr) /\ outcome b tr.
Proof.
  intros Hs. unfold search. destruct (wl_new_ok u0) as (q & -> & Hq). simpl.
  apply (search_loop_ok _ q [u0]); auto.
  - split; [by rewrite Hs|constructor| |set_solver..].
    intros x [Hx|Hx]; [set_solver|]. apply list_elem_of_singleton in Hx as ->. apply rtc_refl.
  - rewrite Hs, difference_empty_L. unfold fuel_for. simpl. lia.
Qed.
End SearchOk.

(** ** Correctness of [DFSPath] *)

(** [path_to u z p]: [p] lists the nodes of a walk of at least one edge from
    [u] to [z]. *)
Fixpoint walk (u : T) (p : list T) (z : T) : Prop :=
  match p with
  | [] => False
  | [x] => x = z /\ edge u z
  | x :: p => edge u x /\ walk x p z
  end.
Definition path_to (u z : T) (p : list T) : Prop :=
  exists q, p = u :: q /\ walk u q z.

Section PathOk.
Context (V : gset T) (V_closed : forall u v, u ∈ V -> edge u v -> v ∈ V).
Context (eq : T -> T -> bool) (eq_ok : forall u v, eq u v = bool_decide (u = v)).

(** What one call guarantees: either a reversed path, or everything newly
    seen is closed under edges and has no edge to [z]. *)
Definition rec_ok (s : S) (u z : T) (p : list T) (s' : S) : Prop :=
  seen s ⊆ seen s' /\
  (p <> [] -> path_to u z (rev p)) /\
  (p = [] -> u ∈ seen s' /\
     forall x y, x ∈ seen s' -> x ∉ seen s -> edge x y -> y <> z /\ y ∈ seen s').

Lemma walk_cons u x q z : edge u x -> walk x q z -> walk u (x :: q) z.
Proof. destruct q; [done|]. by split. Qed.

Lemma dfs_edges_ok rec s1 u z :
  (forall s2 v, seen s1 ⊆ seen s2 -> v ∈ V ->
     exists p s', rec s2 v = Some (p, s') /\ rec_ok s2 v z p s') ->
  u ∈ V ->
  forall es s2, (forall v, v ∈ es -> edge u v) -> seen s1 ⊆ seen s2 ->
    (forall x y, x ∈ seen s2 -> x ∉ seen s1 -> edge x y -> y <> z /\ y ∈ seen s2) ->
    exists p s', dfs_edges eq rec u z [] es s2 = Some (p, s') /\ seen s2 ⊆ seen s' /\
      (p <> [] -> path_to u z (rev p)) /\
      (p = [] -> (forall v, v ∈ es -> v <> z /\ v ∈ seen s') /\
         forall x y, x ∈ seen s' -> x ∉ seen s1 -> edge x y -> y <> z /\ y ∈ seen s').
Proof.
  intros Hrec Hu es. induction es as [|v es IH]; intros s2 Hes Hs Hcl; simpl.
  { exists [], s2. split_ands; [done..|]. intros _. split; [set_solver|done]. }
  assert (Hv : edge u v) by set_solver. rewrite eq_ok. case_bool_decide as Ez.
  { subst v. exists [z; u], s2. split_ands; [done..| |done].
    intros _. exists [z]. by simpl. }
  destruct (Hrec s2 v Hs) as (p & s' & -> & Hss & Hp & Hn); [by eapply V_closed|]. simpl.
  destruct p as [|a p]; simpl.
  - destruct Hn as [Hvs Hn]; [done|].
    destruct (IH s') as (p & s3 & E & Hs3 & Hp3 & Hn3); [set_solver..| |].
    { intros x y Hx Hx1 E. destruct (decide (x ∈ seen s2)); [|by apply (Hn x)].
      destruct (Hcl x y); auto. }
    exists p, s3. split_ands; [done|set_solver|done|].
    intros Ep. destruct (Hn3 Ep) as [H1 H2]. split; [|done]. set_solver.
  - exists (a :: p ++ [u]), s'. split_ands; [done|done| |done]. intros _.
    destruct Hp as (q & E & Hw); [done|].
    exists (v :: q). change (a :: p ++ [u]) with ((a :: p) ++ [u]).
    rewrite rev_app_distr, E. split; [done|]. by apply walk_cons.
Qed.

Lemma dfsRecursive_ok fuel : forall s u z,
  u ∈ V -> size (V ∖ seen s) < fuel ->
  exists p s', dfsRecursive eq fuel s u z [] = Some (p, s') /\ rec_ok s u z p s'.
Proof.
  induction fuel as [|fuel IH]; intros s u z Hu Hf; [lia|]. simpl. unfold rec_ok.
  destruct (Visited_ok u s) as [E1 E2].
  destruct (Visited u s) as [vis s1]; simpl in *. subst vis.
  case_bool_decide as Hx.
  { exists [], s1. split_ands; [done|set_solver|done|]. intros _. set_solver. }
  assert (Hf1 : size (V ∖ seen s1) < fuel).
  { assert (V ∖ seen s1 ⊂ V ∖ seen s) as Hsub%subset_size by set_solver. lia. }
  destruct (dfs_edges_ok (fun s v => dfsRecursive eq fuel s v z []) s1 u z)
    with (es := Edges u) (s2 := s1) as (p & s' & E & Hs' & Hp & Hn); [|done|done|done|done|].
  { intros s2 v Hs Hv. apply IH; [done|].
    assert (V ∖ seen s2 ⊆ V ∖ seen s1) as Hsub%subseteq_size by set_solver. lia. }
  exists p, s'. split_ands; [done|set_solver|done|].
  intros Ep. destruct (Hn Ep) as [Hn1 Hn2]. split; [set_solver|].
  intros x y Hx1 Hx2 E'. destruct (decide (x = u)) as [->|Hne]; [by apply Hn1|].
  apply (Hn2 x); auto. rewrite E2, elem_of_union, elem_of_singleton. by intros [|].
Qed.

(** The in-place reversal loop computes [rev]. *)
Lemma swap_some i o p :
  i < length p -> o < length p ->
  exists p', swap i o p = Some p' /\ length p' = length p /\
    forall j, p' !! j = if decide (j = o) then p !! i
                        else if decide (j = i) then p !! o else p !! j.
Proof.
  intros Hi Ho. unfold swap.
  destruct (lookup_lt_is_Some_2 p i Hi) as [x Hx].
  destruct (lookup_lt_is_Some_2 p o Ho) as [y Hy].
  rewrite Hx, Hy. simpl. eexists. split; [done|].
  split; [by rewrite !length_insert|]. intros j.
  destruct (decide (j = o)) as [->|].
  { by rewrite list_lookup_insert_eq by (by rewrite length_insert). }
  rewrite list_lookup_insert_ne by done.
  destruct (decide (j = i)) as [->|]; [by rewrite list_lookup_insert_eq|].
  by rewrite list_lookup_insert_ne by done.
Qed.

Lemma reverse_loop_ok k : forall p,
  2 * k <= length p ->
  exists p', reverse_loop k p = Some p' /\ length p' = length p /\
    forall j, j < length p ->
      p' !! j = if decide (j < k \/ length p - k <= j) then p !! (length p - j - 1)
                else p !! j.
Proof.
  induction k as [|k IH]; intros p Hk; simpl.
  { exists p. split_ands; [done..|]. intros j Hj. case_decide; [lia|done]. }
  destruct (swap_some k (length p - k - 1) p) as (p1 & -> & L1 & H1); [lia..|]. simpl.
  destruct (IH p1) as (p2 & -> & L2 & H2); [lia|].
  exists p2. split_ands; [done|lia|]. intros j Hj.
  rewrite H2, !H1, !L1 by lia.
  repeat case_decide; try lia; try (f_equal; lia).
Qed.

Lemma reverse_loop_rev p : reverse_loop (length p / 2) p = Some (rev p).
Proof.
  destruct (reverse_loop_ok (length p / 2) p) as (p' & -> & L & Hl).
  { pose proof (Nat.div_mod_eq (length p) 2). lia. }
  f_equal. rewrite rev_alt. change (rev_append p []) with (reverse p).
  apply list_eq. intros j.
  destruct (decide (j < length p)) as [Hj|Hj].
  - rewrite reverse_lookup by done. rewrite Hl by done.
    replace (length p - Datatypes.S j) with (length p - j - 1) by lia.
    case_decide as Hc; [done|].
    pose proof (Nat.div_mod_eq (length p) 2).
    pose proof (Nat.mod_upper_bound (length p) 2).
    f_equal. lia.
  - rewrite !(proj2 (lookup_ge_None _ _)); [done| |lia]. rewrite length_reverse. lia.
Qed.
End PathOk.
End Graph.

(** ** Properties *)

(** On a finite graph (a finite set [V] closed under [Edges]) with nothing
    seen yet, [DFS] terminates, calls its callback at most once per node and
    only on nodes reachable from the start, returns [true] exactly when the
    callback stopped it (on the last node visited), and when it returns [false]
    every reachable node was visited and none stops. *)
Theorem DFS_visits_reachable {T S} `{Countable T} `{!Traversal T S}
    (V : gset T) (stop : T -> bool) (u : T) (s : S) :
  (forall x y, x ∈ V -> edge x y -> y ∈ V) -> u ∈ V -> seen s = ∅ ->
  exists b s' tr,
    DFS (record stop) (fuel_for V) s [] u = Some (b, s', tr) /\
    outcome stop u b tr.
Proof. intros HV Hu Hs. by apply (search_ok (Q := Lifo.LIFO T)). Qed.

(** The same contract for [BFS]. *)
Theorem BFS_visits_reachable {T S} `{Countable T} `{!Traversal T S}
    (V : gset T) (stop : T -> bool) (u : T) (s : S) :
  (forall x y, x ∈ V -> edge x y -> y ∈ V) -> u ∈ V -> seen s = ∅ ->
  exists b s' tr,
    BFS (record stop) (fuel_for V) s [] u = Some (b, s', tr) /\
    outcome stop u b tr.
Proof. intros HV Hu Hs. by apply (search_ok (Q := Fifo.FIFO T)). Qed.

(** On a finite graph [DFSPath] terminates; a non-empty result is a walk
    from [a] to [z] (first node [a], last node [z], consecutive nodes joined by
    edges), and the result is empty exactly when [z] cannot be reached from [a]
    by one or more edges. *)
Theorem DFSPath_correct {T S} `{Countable T} `{!Traversal T S}
    (V : gset T) (eq : T -> T -> bool) (a z : T) (s : S) :
  (forall x y, x ∈ V -> edge x y -> y ∈ V) -> a ∈ V -> seen s = ∅ ->
  (forall u v, eq u v = bool_decide (u = v)) ->
  exists p, DFSPath eq (size V + 1) s a z = Some p /\
    (p <> [] -> path_to a z p) /\ (p = [] <-> ~ tc edge a z).
Proof.
  intros HV Ha Hs Heq. unfold DFSPath.
  destruct (dfsRecursive_ok V HV eq Heq (size V + 1) s a z Ha) as (p & s' & E & Hss & Hp & Hn).
  { assert (V ∖ seen s ⊆ V) as Hsub%subseteq_size by set_solver. lia. }
  rewrite E. cbn -[Nat.div]. rewrite reverse_loop_rev. exists (rev p). split; [done|].
  assert (Hrev : rev p = [] <-> p = []).
  { split; [|by intros ->]. intros E0. by rewrite <- (rev_involutive p), E0. }
  split; [by rewrite Hrev|]. rewrite Hrev. split.
  - intros ->. destruct Hn as [Has Hn]; [done|]. intros Hr.
    assert (Hcl : forall x y, x ∈ seen s' -> edge x y -> y <> z /\ y ∈ seen s')
      by (intros x y Hx Ed; apply (Hn x y); set_solver).
    clear -Hr Has Hcl. induction Hr as [x y Ed|x y w Ed Hr IH].
    + by destruct (Hcl x y Has Ed).
    + apply IH; [|done]. by destruct (Hcl x y Has Ed).
  - intros Hr. destruct p as [|x p]; [done|]. destruct Hr.
    destruct Hp as (q & _ & Hw); [done|]. clear -Hw. revert a Hw.
    induction q as [|y q IH]; [done|]. intros a Hw. destruct q as [|y' q].
    + destruct Hw as [_ ?]. by apply tc_once.
    + destruct Hw as [Ed Hw]. eapply tc_l; [exact Ed|]. by apply IH.
Qed.

(** ** A concrete graph for the witnesses: 0 -> 1, 2; 1 -> 2; 2 -> 0; 3 -> 3 *)
Definition ex_edges (n : nat) : list nat :=
  match n with 0 => [1; 2] | 1 => [2] | 2 => [0] | 3 => [3] | _ => [] end.

#[global] Program Instance ex_traversal : Traversal nat (gset nat) := {
  Edges := ex_edges;
  Visited u s := (bool_decide (u ∈ s), {[u]} ∪ s);
  seen s := s;
}.
Next Obligation. done. Qed.

Definition ex_nodes : gset nat := {[0; 1; 2]}.

Lemma ex_nodes_closed x y : x ∈ ex_nodes -> edge x y -> y ∈ ex_nodes.
Proof.
  unfold ex_nodes, edge. intros Hx Hy.
  assert (x = 0 \/ x = 1 \/ x = 2) as [-> | [-> | ->]] by set_solver; simpl in Hy; set_solver.
Qed.

Example DFS_runs :
  DFS (record (Nat.eqb 5)) (fuel_for ex_nodes) ∅ [] 0 = Some (false, ex_nodes, [0; 2; 1]).
Proof. by vm_compute. Qed.

Example BFS_runs :
  BFS (record (Nat.eqb 5)) (fuel_for ex_nodes) ∅ [] 0 = Some (false, ex_nodes, [0; 1; 2]).
Proof. by vm_compute. Qed.

Example DFSPath_runs :
  DFSPath Nat.eqb 4 (∅ : gset nat) 1 1 = Some [1; 2; 0; 1] /\
  DFSPath Nat.eqb 4 (∅ : gset nat) 1 3 = Some [].
Proof. by vm_compute. Qed.

Lemma DFS_visits_reachable_witness :
  exists b s' tr,
    DFS (record (Nat.eqb 2)) (fuel_for ex_nodes) ∅ [] 0 = Some (b, s', tr) /\
    outcome (Nat.eqb 2) 0 b tr.
Proof.
  apply (DFS_visits_reachable ex_nodes (Nat.eqb 2) 0 ∅);
    [exact ex_nodes_closed|set_solver|done].
Defined.

Lemma BFS_visits_reachable_witness :
  exists b s' tr,
    BFS (record (Nat.eqb 2)) (fuel_for ex_nodes) ∅ [] 0 = Some (b, s', tr) /\
    outcome (Nat.eqb 2) 0 b tr.
Proof.
  apply (BFS_visits_reachable ex_nodes (Nat.eqb 2) 0 ∅);
    [exact ex_nodes_closed|set_solver|done].
Defined.

Lemma DFSPath_correct_witness :
  exists p, DFSPath Nat.eqb (size ex_nodes + 1) (∅ : gset nat) 1 1 = Some p /\
    (p <> [] -> path_to 1 1 p) /\ (p = [] <-> ~ tc edge 1 1).
Proof.
  apply (DFSPath_correct ex_nodes Nat.eqb 1 1 ∅);
    [exact ex_nodes_closed|set_solver|done|].
  intros u v. case_bool_decide as E; [by apply Nat.eqb_eq|by apply Nat.eqb_neq].
Defined.
