(* ===== verification/HashMap.v ===== *)
(** Chained hash map: [src/util/hashmap.go].

    The table maps a hash code to a chain of entries, newest first.  Keys and
    values share the type [T] (Go's [util.T]); [eq] and [hash] are the closures
    given to [NewHashMap].  Go iterates over the table in an unspecified order,
    so [Iter] and the operations built on it take the order in which the table's
    hash codes are enumerated as an argument, and the theorems hold for every
    order.  The hypotheses on [eq] and [hash] are what callers must provide: an
    equivalence that the hash respects. *)
From Stdlib Require Import ZArith Lia.
From stdpp Require Import base gmap list fin_maps.
From S2P Require Import Prelude.

Section Model.
Context {T : Type} (eq : T -> T -> bool) (hash : T -> Z).

Record HashMap := { table : gmap Z (list (T * T)); size : Z }.

Definition NewHashMap : HashMap := {| table := ∅; size := 0 |}.

(** [h.table[hash]]; a missing chain is the nil entry. *)
Definition bucket (h : HashMap) (i : Z) : list (T * T) := default [] (table h !! i).

(** The loop of [Get] over one chain. *)
Fixpoint chain_get (b : list (T * T)) (k : T) : option T :=
  match b with
  | [] => None
  | (k', v) :: b => if eq k' k then Some v else chain_get b k
  end.

Definition Get (h : HashMap) (k : T) : option T := chain_get (bucket h (hash k)) k.

(** The loop of [Put]: [Some] of the chain with the first matching entry
    overwritten, [None] when no entry matches. *)
Fixpoint chain_set (b : list (T * T)) (k v : T) : option (list (T * T)) :=
  match b with
  | [] => None
  | (k', v') :: b =>
      if eq k' k then Some ((k', v) :: b)
      else b' ← chain_set b k v; Some ((k', v') :: b')
  end.

Definition Put (h : HashMap) (k v : T) : HashMap :=
  let head := bucket h (hash k) in
  match chain_set head k v with
  | Some b => {| table := <[hash k := b]> (table h); size := size h |}
  | None => {| table := <[hash k := (k, v) :: head]> (table h); size := size h + 1 |}
  end.

(** The loop of [Delete]: unlink the first matching entry. *)
Fixpoint chain_delete (b : list (T * T)) (k : T) : option (list (T * T)) :=
  match b with
  | [] => None
  | (k', v') :: b =>
      if eq k' k then Some b
      else b' ← chain_delete b k; Some ((k', v') :: b')
  end.

Definition Delete (h : HashMap) (k : T) : HashMap :=
  match chain_delete (bucket h (hash k)) k with
  | Some b => {| table := <[hash k := b]> (table h); size := size h - 1 |}
  | None => h
  end.

Definition Len (h : HashMap) : Z := size h.

(** [Iter]: the callback threads the state it closes over. *)
Fixpoint iter_chain {A} (f : T -> T -> A -> bool * A) (b : list (T * T)) (a : A) : bool * A :=
  match b with
  | [] => (false, a)
  | (k, v) :: b => let '(stop, a') := f k v a in if stop then (true, a') else iter_chain f b a'
  end.
Fixpoint Iter {A} (order : list Z) (h : HashMap) (f : T -> T -> A -> bool * A) (a : A) : bool * A :=
  match order with
  | [] => (false, a)
  | i :: order =>
      let '(stop, a') := iter_chain f (bucket h i) a in
      if stop then (true, a') else Iter order h f a'
  end.

Definition put_all (order : list Z) (src dst : HashMap) : HashMap :=
  (Iter order src (fun k v d => (false, Put d k v)) dst).2.

Definition Copy (order : list Z) (h : HashMap) : HashMap := put_all order h NewHashMap.

Definition Equal (order : list Z) (h other : HashMap) : bool :=
  if negb (Len h =? Len other)%Z then false
  else negb (Iter order h (fun k v (_ : unit) =>
               match Get other k with
               | None => (true, tt)
               | Some ov => (negb (eq v ov), tt)
               end) tt).1.

Definition Hash (order : list Z) (h : HashMap) : Z :=
  (Iter order h (fun k v acc => (false, addw acc (addw (hash k) (hash v)))) 0%Z).2.

Definition Update (order1 order2 : list Z) (h other : HashMap) : HashMap :=
  put_all order2 other (Copy order1 h).

(** What Go's [range] over the table may enumerate. *)
Definition range_order (order : list Z) (h : HashMap) : Prop :=
  order ≡ₚ (map_to_list (table h)).*1.
End Model.
Arguments HashMap : clear implicits.

(** Total length of the chains of a table. *)
Definition total {T} (t : gmap Z (list (T * T))) : nat :=
  sum_list_with (fun ib => length ib.2) (map_to_list t).

Lemma sum_list_with_perm {A} (f : A -> nat) l1 l2 :
  l1 ≡ₚ l2 -> sum_list_with f l1 = sum_list_with f l2.
Proof. induction 1; simpl; lia. Qed.

Lemma total_insert {T} (t : gmap Z (list (T * T))) i b :
  total (<[i := b]> t) + length (default [] (t !! i)) = total t + length b.
Proof.
  assert (Hnew : forall (t : gmap Z (list (T * T))) b, t !! i = None ->
            total (<[i := b]> t) = length b + total t).
  { intros t' b' Hi. unfold total.
    by rewrite (sum_list_with_perm _ _ _ (map_to_list_insert _ _ b' Hi)). }
  destruct (t !! i) as [b0|] eqn:Hi; simpl; [|rewrite Hnew by done; lia].
  rewrite <- (insert_delete_id t i b0 Hi) at 2. rewrite <- (insert_delete_eq t i b).
  rewrite !Hnew by apply lookup_delete_eq. lia.
Qed.

Section Correct.
Context {T : Type} (eq : T -> T -> bool) (hash : T -> Z).
Context (E_refl : forall x, eq x x = true)
        (E_sym : forall x y, eq x y = eq y x)
        (E_trans : forall x y z, eq x y = true -> eq y z = true -> eq x z = true)
        (E_hash : forall x y, eq x y = true -> hash x = hash y).

Lemma eq_left x y z : eq x y = true -> eq x z = eq y z.
Proof.
  intros E. destruct (eq x z) eqn:E1, (eq y z) eqn:E2; try done.
  - rewrite <- E2. symmetry. apply E_trans with x; [by rewrite E_sym|done].
  - rewrite <- E1. apply E_trans with y; done.
Qed.

(** [absent b k]: no entry of the chain has a key equal to [k]. *)
Definition absent (b : list (T * T)) (k : T) : Prop := Forall (fun e => eq e.1 k = false) b.

(** No two keys of the chain are equal. *)
Fixpoint distinct (b : list (T * T)) : Prop :=
  match b with
  | [] => True
  | (k, _) :: b => absent b k /\ distinct b
  end.

(** All entries of the map, chain by chain in the given order. *)
Definition entries (order : list Z) (h : HashMap T) : list (T * T) :=
  order ≫= bucket h.

Record wf (h : HashMap T) : Prop := {
  wf_hash : forall i e, e ∈ bucket h i -> hash e.1 = i;
  wf_distinct : forall i, distinct (bucket h i);
  wf_size : size h = Z.of_nat (total (table h));
}.

(** *** Chains *)
Lemma absent_congr b k k' : eq k k' = true -> absent b k -> absent b k'.
Proof.
  intros E Ha. eapply Forall_impl; [exact Ha|]. intros [k0 v]; simpl. rewrite !(E_sym k0).
  by rewrite (eq_left _ _ k0 E).
Qed.

Lemma chain_get_none b k : chain_get eq b k = None <-> absent b k.
Proof.
  unfold absent. induction b as [|[k' v] b IH]; simpl; [by split|]. rewrite Forall_cons. simpl.
  destruct (eq k' k); [split; [done|by intros []]|]. rewrite IH. tauto.
Qed.

Lemma chain_get_in b k v :
  chain_get eq b k = Some v -> exists k', (k', v) ∈ b /\ eq k' k = true.
Proof.
  induction b as [|[k' w] b IH]; simpl; [done|]. destruct (eq k' k) eqn:E.
  - intros [= ->]. exists k'. split; [by left|done].
  - intros (k2 & H1 & H2)%IH. exists k2. split; [by right|done].
Qed.

Lemma chain_get_of_in b k' v k :
  distinct b -> (k', v) ∈ b -> eq k' k = true -> chain_get eq b k = Some v.
Proof.
  induction b as [|[k0 v0] b IH]; [set_solver|]. intros [Hd Hds] Hin E. simpl.
  apply elem_of_cons in Hin as [[= <- <-]|Hin]; [by rewrite E|].
  unfold absent in Hd. rewrite Forall_forall in Hd. specialize (Hd _ Hin). simpl in Hd.
  destruct (eq k0 k) eqn:E0; [|by apply IH].
  rewrite (eq_left k' k k0 E), E_sym, E0 in Hd. done.
Qed.

Lemma chain_get_congr b k k' : eq k k' = true -> chain_get eq b k = chain_get eq b k'.
Proof.
  intros E. induction b as [|[k0 v0] b IH]; simpl; [done|].
  rewrite !(E_sym k0), (eq_left _ _ k0 E). by rewrite IH.
Qed.

Lemma chain_get_app b1 b2 k :
  chain_get eq (b1 ++ b2) k =
    match chain_get eq b1 k with Some v => Some v | None => chain_get eq b2 k end.
Proof. induction b1 as [|[k0 v0] b1 IH]; simpl; [done|]. by destruct (eq k0 k). Qed.

(** Two lists with the same keys are [absent]/[distinct] together. *)
Lemma absent_keys b b' k : b.*1 = b'.*1 -> absent b k -> absent b' k.
Proof.
  revert b'. unfold absent.
  induction b as [|[k0 v0] b IH]; intros [|[k1 v1] b'] E; try done.
  simpl in E. injection E as <- E. rewrite !Forall_cons. simpl. intros []. auto.
Qed.

Lemma distinct_keys b b' : b.*1 = b'.*1 -> distinct b -> distinct b'.
Proof.
  revert b'. induction b as [|[k0 v0] b IH]; intros [|[k1 v1] b'] E; try done.
  simpl in E. injection E as <- E. simpl. intros []. split; [by eapply absent_keys|auto].
Qed.

Lemma chain_set_none b k v : chain_set eq b k v = None <-> absent b k.
Proof.
  unfold absent. induction b as [|[k' w] b IH]; simpl; [by split|]. rewrite Forall_cons. simpl.
  destruct (eq k' k); [split; [done|by intros []]|].
  destruct (chain_set eq b k v); simpl; [|by rewrite <- IH].
  split; [done|]. by intros [_ ?%IH].
Qed.

Lemma chain_set_some b k v b' :
  chain_set eq b k v = Some b' ->
  b'.*1 = b.*1 /\
  forall k', chain_get eq b' k' = if eq k k' then Some v else chain_get eq b k'.
Proof.
  revert b'. induction b as [|[k0 w] b IH]; simpl; [done|]. intros b'.
  destruct (eq k0 k) eqn:E.
  - intros [= <-]. split; [done|]. intros k'. simpl. rewrite (eq_left _ _ k' E).
    by destruct (eq k k').
  - destruct (chain_set eq b k v) as [b1|]; simpl; [|done]. intros [= <-].
    destruct (IH b1) as [E1 E2]; [done|]. split; [by simpl; f_equal|].
    intros k'. simpl. rewrite E2. destruct (eq k0 k') eqn:E0; [|done].
    destruct (eq k k') eqn:E3; [|done].
    by rewrite (eq_left _ _ k E0), E_sym, E3 in E.
Qed.

Lemma chain_delete_none b k : chain_delete eq b k = None <-> absent b k.
Proof.
  unfold absent. induction b as [|[k' w] b IH]; simpl; [by split|]. rewrite Forall_cons. simpl.
  destruct (eq k' k); [split; [done|by intros []]|].
  destruct (chain_delete eq b k); simpl; [|by rewrite <- IH].
  split; [done|]. by intros [_ ?%IH].
Qed.

Lemma chain_delete_some b k b' :
  distinct b -> chain_delete eq b k = Some b' ->
  distinct b' /\ length b = S (length b') /\ (forall e, e ∈ b' -> e ∈ b) /\
  forall k', chain_get eq b' k' = if eq k k' then None else chain_get eq b k'.
Proof.
  revert b'. induction b as [|[k0 w] b IH]; simpl; [done|]. intros b' [Ha Hd].
  destruct (eq k0 k) eqn:E.
  - intros [= <-]. split_ands; [done|done|by intros e; right|]. intros k'.
    rewrite (eq_left _ _ k' E). destruct (eq k k') eqn:E'; [|done].
    apply chain_get_none. apply absent_congr with k0; [|done].
    by rewrite (eq_left _ _ k' E).
  - destruct (chain_delete eq b k) as [b1|]; simpl; [|done]. intros [= <-].
    destruct (IH b1) as (H1 & H2 & H3 & H4); [done..|]. simpl. split_ands.
    + apply Forall_forall. intros e He.
      unfold absent in Ha. rewrite Forall_forall in Ha. by apply Ha, H3.
    + done.
    + lia.
    + intros e [->|He]%elem_of_cons; [by left|right; auto].
    + intros k'. rewrite H4. destruct (eq k0 k') eqn:E0; [|done].
      destruct (eq k k') eqn:E3; [|done].
      by rewrite (eq_left _ _ k E0), E_sym, E3 in E.
Qed.

(** *** The map operations *)
Lemma bucket_insert (h : HashMap T) i b sz j :
  bucket {| table := <[i := b]> (table h); size := sz |} j =
    if decide (i = j) then b else bucket h j.
Proof. unfold bucket. simpl. rewrite lookup_insert. by case_decide. Qed.

Lemma wf_new : wf NewHashMap.
Proof. split; [|done|done]. intros i e He. by apply not_elem_of_nil in He. Qed.

Lemma Get_new k : Get eq hash NewHashMap k = None.
Proof. done. Qed.

Lemma bucket_absent h k i : wf h -> hash k <> i -> absent (bucket h i) k.
Proof.
  intros Hw Hi. apply Forall_forall. intros e He.
  destruct (eq e.1 k) eqn:E; [|done]. apply E_hash in E.
  rewrite (wf_hash _ Hw i e He) in E. congruence.
Qed.

Lemma Put_ok h k v :
  wf h ->
  wf (Put eq hash h k v) /\
  (forall k', Get eq hash (Put eq hash h k v) k' =
     if eq k k' then Some v else Get eq hash h k') /\
  Len (Put eq hash h k v) = (Len h + match Get eq hash h k with Some _ => 0 | None => 1 end)%Z.
Proof.
  intros Hw. unfold Put, Get, Len.
  destruct (chain_set eq (bucket h (hash k)) k v) as [b|] eqn:E.
  - destruct (chain_set_some _ _ _ _ E) as [Ek Eg]. split_ands.
    + split; simpl.
      * intros i e. rewrite bucket_insert. case_decide as Hi; [|apply Hw].
        intros He. assert (e.1 ∈ b.*1) as H by (by apply list_elem_of_fmap_2).
        rewrite Ek in H. apply list_elem_of_fmap in H as (e' & -> & He').
        subst. by apply Hw.
      * intros i. rewrite bucket_insert. case_decide; [|apply Hw].
        eapply distinct_keys; [by symmetry|]. apply Hw.
      * rewrite (wf_size _ Hw). pose proof (total_insert (table h) (hash k) b) as Ht.
        apply (f_equal length) in Ek. rewrite !length_fmap in Ek.
        change (default [] (table h !! hash k)) with (bucket h (hash k)) in Ht. lia.
    + intros k'. rewrite bucket_insert. destruct (eq k k') eqn:Ekk.
      * rewrite (E_hash _ _ Ekk), decide_True by done. by rewrite Eg, Ekk.
      * case_decide as Hi; [|done]. by rewrite Eg, Ekk, Hi.
    + simpl. destruct (chain_get eq (bucket h (hash k)) k) eqn:Eg'; [lia|].
      apply chain_get_none in Eg'. by apply (chain_set_none _ _ v) in Eg'; rewrite Eg' in E.
  - apply chain_set_none in E. split_ands.
    + split; simpl.
      * intros i e. rewrite bucket_insert. case_decide as Hi; [|apply Hw].
        intros [->|He]%elem_of_cons; [done|]. subst. by apply Hw.
      * intros i. rewrite bucket_insert. case_decide; [|apply Hw].
        split; [done|]. apply Hw.
      * rewrite (wf_size _ Hw).
        pose proof (total_insert (table h) (hash k) ((k, v) :: bucket h (hash k))) as Ht.
        change (default [] (table h !! hash k)) with (bucket h (hash k)) in Ht.
        simpl in Ht. lia.
    + intros k'. rewrite bucket_insert. destruct (eq k k') eqn:Ekk.
      * rewrite (E_hash _ _ Ekk), decide_True by done. simpl. by rewrite Ekk.
      * case_decide as Hi; [|done]. simpl. by rewrite Ekk, Hi.
    + simpl. apply chain_get_none in E. by rewrite E.
Qed.

Lemma Delete_ok h k :
  wf h ->
  wf (Delete eq hash h k) /\
  (forall k', Get eq hash (Delete eq hash h k) k' =
     if eq k k' then None else Get eq hash h k') /\
  Len (Delete eq hash h k) = (Len h - match Get eq hash h k with Some _ => 1 | None => 0 end)%Z.
Proof.
  intros Hw. unfold Delete, Get, Len.
  destruct (chain_delete eq (bucket h (hash k)) k) as [b|] eqn:E.
  - destruct (chain_delete_some _ _ _ (wf_distinct _ Hw _) E) as (Hd & Hl & Hin & Eg).
    split_ands.
    + split; simpl.
      * intros i e. rewrite bucket_insert. case_decide as Hi; [|apply Hw].
        subst. intros He. by apply Hw, Hin.
      * intros i. rewrite bucket_insert. case_decide; [done|apply Hw].
      * rewrite (wf_size _ Hw). pose proof (total_insert (table h) (hash k) b) as Ht.
        change (default [] (table h !! hash k)) with (bucket h (hash k)) in Ht. lia.
    + intros k'. rewrite bucket_insert. destruct (eq k k') eqn:Ekk.
      * rewrite (E_hash _ _ Ekk), decide_True by done. by rewrite Eg, Ekk.
      * case_decide as Hi; [|done]. by rewrite Eg, Ekk, Hi.
    + simpl. destruct (chain_get eq (bucket h (hash k)) k) eqn:Eg'; [lia|].
      apply chain_get_none, chain_delete_none in Eg'. by rewrite Eg' in E.
  - apply chain_delete_none in E. split_ands; [done| |].
    + intros k'. destruct (eq k k') eqn:Ekk; [|done].
      rewrite <- (E_hash _ _ Ekk). apply chain_get_none. by apply absent_congr with k.
    + apply chain_get_none in E. rewrite E. lia.
Qed.

(** *** Iteration *)
Lemma iter_chain_app {A} (f : T -> T -> A -> bool * A) b1 b2 a :
  iter_chain f (b1 ++ b2) a =
    let '(stop, a') := iter_chain f b1 a in if stop then (true, a') else iter_chain f b2 a'.
Proof.
  revert a. induction b1 as [|[k v] b1 IH]; intros a; simpl; [done|].
  destruct (f k v a) as [[] a']; [done|]. apply IH.
Qed.

Lemma Iter_entries {A} (f : T -> T -> A -> bool * A) order h a :
  Iter order h f a = iter_chain f (entries order h) a.
Proof.
  revert a. induction order as [|i order IH]; intros a; simpl; [done|].
  unfold entries. simpl. rewrite iter_chain_app.
  destruct (iter_chain f (bucket h i) a) as [[] a']; [done|]. apply IH.
Qed.

Lemma entries_elem order h e :
  wf h -> range_order order h -> e ∈ entries order h <-> e ∈ bucket h (hash e.1).
Proof.
  intros Hw Ho. unfold entries. rewrite list_elem_of_bind. split.
  - intros (i & He & _). by rewrite (wf_hash _ Hw i e He).
  - intros He. exists (hash e.1). split; [done|]. unfold range_order in Ho. rewrite Ho.
    unfold bucket in He. destruct (table h !! hash e.1) as [b|] eqn:Eb;
      [|by apply not_elem_of_nil in He].
    apply list_elem_of_fmap. exists (hash e.1, b). split; [done|].
    by apply elem_of_map_to_list.
Qed.

Lemma distinct_app b1 b2 :
  distinct b1 -> distinct b2 ->
  (forall e1 e2, e1 ∈ b1 -> e2 ∈ b2 -> eq e2.1 e1.1 = false) -> distinct (b1 ++ b2).
Proof.
  induction b1 as [|[k v] b1 IH]; simpl; [done|]. intros [Ha Hd] Hd2 Hx. split.
  - apply Forall_app. split; [done|]. apply Forall_forall. intros e He.
    apply (Hx (k, v) e); [by left|done].
  - apply IH; [done..|]. intros e1 e2 H1 H2. apply Hx; [by right|done].
Qed.

Lemma entries_distinct order h :
  wf h -> NoDup order -> distinct (entries order h).
Proof.
  intros Hw. induction 1 as [|i order Hi _ IH]; [done|]. unfold entries. simpl.
  apply distinct_app; [apply Hw|done|]. intros e1 e2 H1 H2.
  apply list_elem_of_bind in H2 as (j & H2 & Hj).
  destruct (eq e2.1 e1.1) eqn:E; [|done]. apply E_hash in E.
  rewrite (wf_hash _ Hw _ _ H1), (wf_hash _ Hw _ _ H2) in E. by subst.
Qed.

Lemma range_nodup order (h : HashMap T) : range_order order h -> NoDup order.
Proof. intros Ho. unfold range_order in Ho. rewrite Ho. apply NoDup_fst_map_to_list. Qed.

Lemma chain_get_entries order h k :
  wf h -> range_order order h -> chain_get eq (entries order h) k = Get eq hash h k.
Proof.
  intros Hw Ho. unfold Get.
  pose proof (entries_distinct order h Hw (range_nodup _ _ Ho)) as Hd.
  destruct (chain_get eq (bucket h (hash k)) k) as [v|] eqn:E.
  - apply chain_get_in in E as (k' & Hin & E). apply chain_get_of_in with k'; [done| |done].
    apply entries_elem; [done..|]. simpl. by rewrite (E_hash _ _ E).
  - apply chain_get_none. apply chain_get_none in E. apply Forall_forall. intros e He.
    apply entries_elem in He; [|done..].
    destruct (eq e.1 k) eqn:Ek; [|done]. rewrite (E_hash _ _ Ek) in He.
    unfold absent in E. rewrite Forall_forall in E. by rewrite (E _ He) in Ek.
Qed.

Lemma entries_length order h :
  wf h -> range_order order h -> Len h = Z.of_nat (length (entries order h)).
Proof.
  intros Hw Ho. unfold Len. rewrite (wf_size _ Hw). f_equal. unfold total, entries.
  unfold range_order in Ho. rewrite Ho.
  assert (forall l, (forall p, p ∈ l -> table h !! p.1 = Some p.2) ->
    sum_list_with (fun ib => length ib.2) l = length (l.*1 ≫= bucket h)) as Hl.
  { induction l as [|[i b] l IH]; intros Hb; simpl; [done|].
    rewrite length_app, IH by (intros; apply Hb; by right).
    assert (bucket h i = b) as ->; [|done].
    pose proof (Hb (i, b)) as Hib. simpl in Hib. unfold bucket. rewrite Hib; [done|by left]. }
  apply Hl. intros [i b]. apply elem_of_map_to_list.
Qed.

(** *** [Copy] and [Update] *)
Lemma put_all_fold order src dst :
  put_all eq hash order src dst =
    fold_left (fun d e => Put eq hash d e.1 e.2) (entries order src) dst.
Proof.
  unfold put_all. rewrite Iter_entries. revert dst.
  induction (entries order src) as [|[k v] es IH]; intros dst; simpl; [done|]. apply IH.
Qed.

Lemma fold_put_ok es : forall dst,
  wf dst -> distinct es ->
  let r := fold_left (fun d e => Put eq hash d e.1 e.2) es dst in
  wf r /\ forall k, Get eq hash r k =
    match chain_get eq es k with Some v => Some v | None => Get eq hash dst k end.
Proof.
  induction es as [|[k0 v0] es IH]; intros dst Hw Hd; simpl; [done|].
  destruct Hd as [Ha Hd]. destruct (Put_ok dst k0 v0 Hw) as (Hw1 & Hg1 & _).
  destruct (IH _ Hw1 Hd) as [Hw2 Hg2]. split; [done|]. intros k.
  rewrite Hg2, Hg1. destruct (eq k0 k) eqn:E; [|done].
  replace (chain_get eq es k) with (@None T); [done|]. symmetry. apply chain_get_none.
  by apply absent_congr with k0.
Qed.

Lemma put_all_ok order src dst :
  wf src -> wf dst -> range_order order src ->
  wf (put_all eq hash order src dst) /\
  forall k, Get eq hash (put_all eq hash order src dst) k =
    match Get eq hash src k with Some v => Some v | None => Get eq hash dst k end.
Proof.
  intros Hs Hd Ho. rewrite put_all_fold.
  destruct (fold_put_ok (entries order src) dst Hd) as [Hw Hg].
  { apply entries_distinct; [done|by eapply range_nodup]. }
  split; [done|]. intros k. by rewrite Hg, chain_get_entries.
Qed.

(** *** [Equal] and [Hash] *)
Definition covers (es1 es2 : list (T * T)) : Prop :=
  forall k, is_Some (chain_get eq es1 k) -> is_Some (chain_get eq es2 k).

(** One step of the counting arguments: take the first key of [es1] out of
    [es2]. *)
Lemma covers_step k v es1 es2 :
  distinct ((k, v) :: es1) -> distinct es2 -> covers ((k, v) :: es1) es2 ->
  exists es2', chain_delete eq es2 k = Some es2' /\ distinct es2' /\
    length es2 = S (length es2') /\ covers es1 es2' /\
    forall k', chain_get eq es2' k' = if eq k k' then None else chain_get eq es2 k'.
Proof.
  intros [Ha Hd1] Hd2 Hc.
  destruct (chain_delete eq es2 k) as [es2'|] eqn:E.
  - destruct (chain_delete_some _ _ _ Hd2 E) as (H1 & H2 & _ & H4).
    exists es2'. split_ands; try done. intros k' Hk'. rewrite H4.
    destruct (eq k k') eqn:Ek.
    + destruct Hk' as [w Hw]. rewrite (proj2 (chain_get_none es1 k')) in Hw; [done|].
      by apply absent_congr with k.
    + apply Hc. simpl. by rewrite Ek.
  - apply chain_delete_none, chain_get_none in E.
    destruct (Hc k) as [w Hw]; [simpl; rewrite E_refl; eauto|]. by rewrite E in Hw.
Qed.

Lemma covers_length es1 : forall es2,
  distinct es1 -> distinct es2 -> covers es1 es2 -> length es1 <= length es2.
Proof.
  induction es1 as [|[k v] es1 IH]; intros es2 Hd1 Hd2 Hc; simpl; [lia|].
  destruct (covers_step k v es1 es2) as (es2' & _ & Hd & Hl & Hc' & _); [done..|].
  specialize (IH es2' (proj2 Hd1) Hd Hc'). lia.
Qed.

Lemma covers_back es1 : forall es2,
  distinct es1 -> distinct es2 -> covers es1 es2 -> length es2 <= length es1 -> covers es2 es1.
Proof.
  induction es1 as [|[k v] es1 IH]; intros es2 Hd1 Hd2 Hc Hl.
  - destruct es2; [done|simpl in Hl; lia].
  - destruct (covers_step k v es1 es2) as (es2' & _ & Hd & Hl' & Hc' & Hg); [done..|].
    simpl in Hl. intros k' Hk'. simpl. destruct (eq k k') eqn:Ek; [eauto|].
    apply (IH es2' (proj2 Hd1) Hd Hc'); [lia|]. by rewrite Hg, Ek.
Qed.

(** The maps agree on every key, up to [eq] on values. *)
Definition same_map (h other : HashMap T) : Prop :=
  forall k, match Get eq hash h k, Get eq hash other k with
            | Some v, Some ov => eq v ov = true
            | None, None => True
            | _, _ => False
            end.

(** The loop of [Equal] finds no difference exactly when every entry has a
    counterpart. *)
Lemma equal_loop_iff (get : T -> option T) es :
  (iter_chain (fun k v (_ : unit) =>
     match get k with None => (true, tt) | Some ov => (negb (eq v ov), tt) end) es tt).1 = false
  <-> forall e, e ∈ es -> exists ov, get e.1 = Some ov /\ eq e.2 ov = true.
Proof.
  induction es as [|[k v] es IH]; simpl.
  - split; [|done]. intros _ e He. by apply not_elem_of_nil in He.
  - destruct (get k) as [ov|] eqn:E; simpl.
    + destruct (eq v ov) eqn:Ev; simpl.
      * rewrite IH. split.
        -- intros H e [->|He]%elem_of_cons; [simpl; eauto|auto].
        -- intros H e He. apply H. by right.
      * split; [done|]. intros H. destruct (H (k, v)) as (w & E1 & E2); [by left|].
        simpl in *. congruence.
    + split; [done|]. intros H. destruct (H (k, v)) as (w & E1 & E2); [by left|].
      simpl in *. congruence.
Qed.

(** The same contract on entry lists. *)
Definition same_entries (es1 es2 : list (T * T)) : Prop :=
  forall k, match chain_get eq es1 k, chain_get eq es2 k with
            | Some v, Some ov => eq v ov = true
            | None, None => True
            | _, _ => False
            end.

Lemma same_entries_covers es1 es2 :
  same_entries es1 es2 -> covers es1 es2 /\ covers es2 es1.
Proof.
  intros Hs. split; intros k [v Hv]; specialize (Hs k); rewrite Hv in Hs.
  - destruct (chain_get eq es2 k); [eauto|done].
  - destruct (chain_get eq es1 k); [eauto|done].
Qed.

Lemma all_counterparts es1 es2 :
  distinct es1 -> distinct es2 -> length es1 = length es2 ->
  (forall e, e ∈ es1 -> exists ov, chain_get eq es2 e.1 = Some ov /\ eq e.2 ov = true) <->
  same_entries es1 es2.
Proof.
  intros Hd1 Hd2 El. split.
  - intros Hall.
    assert (Hc : forall k v, chain_get eq es1 k = Some v ->
              exists ov, chain_get eq es2 k = Some ov /\ eq v ov = true).
    { intros k0 v (k' & Hin & E)%chain_get_in. destruct (Hall _ Hin) as (ov & E1 & E2).
      exists ov. split; [|done]. by rewrite <- (chain_get_congr es2 k' k0 E). }
    intros k. destruct (chain_get eq es1 k) as [v|] eqn:E1.
    { by destruct (Hc _ _ E1) as (ov & -> & ?). }
    destruct (chain_get eq es2 k) as [ov|] eqn:E2; [|done].
    destruct (covers_back es1 es2 Hd1 Hd2) with (k := k) as [w Hw]; [|lia|eauto|congruence].
    intros k0 [v Hv]. destruct (Hc _ _ Hv) as (ov0 & -> & _). eauto.
  - intros Hs [k v] Hin. simpl. specialize (Hs k).
    rewrite (chain_get_of_in _ _ _ k Hd1 Hin (E_refl k)) in Hs.
    destruct (chain_get eq es2 k); [eauto|done].
Qed.

Lemma same_map_entries o1 o2 h other :
  wf h -> wf other -> range_order o1 h -> range_order o2 other ->
  same_map h other <-> same_entries (entries o1 h) (entries o2 other).
Proof.
  intros Hh Hot Ho1 Ho2. split; intros Hs k; specialize (Hs k);
    rewrite ?chain_get_entries in *; done.
Qed.

Lemma range_order_exists (h : HashMap T) : range_order ((map_to_list (table h)).*1) h.
Proof. unfold range_order. reflexivity. Qed.

Lemma Equal_iff order h other :
  wf h -> wf other -> range_order order h ->
  Equal eq hash order h other = true <-> same_map h other.
Proof.
  intros Hh Hot Ho. unfold Equal. pose proof (range_order_exists other) as Hoo.
  rewrite (same_map_entries order _ h other) by done.
  rewrite (entries_length order h Hh Ho), (entries_length _ other Hot Hoo).
  set (es2 := entries (map_to_list (table other)).*1 other) in *.
  set (es1 := entries order h) in *.
  assert (Hd1 : distinct es1) by (apply entries_distinct; [done|by eapply range_nodup]).
  assert (Hd2 : distinct es2) by (apply entries_distinct; [done|by eapply range_nodup]).
  destruct (Z.eqb_spec (Z.of_nat (length es1)) (Z.of_nat (length es2))) as [El|El]; simpl.
  - rewrite negb_true_iff, Iter_entries, equal_loop_iff. fold es1.
    rewrite <- all_counterparts by (done || lia).
    apply forall_proper. intros e. apply forall_proper. intros _.
    by rewrite <- (chain_get_entries _ other e.1 Hot Hoo).
  - split; [done|]. intros [C1 C2]%same_entries_covers. exfalso. apply El. f_equal.
    pose proof (covers_length es1 es2 Hd1 Hd2 C1).
    pose proof (covers_length es2 es1 Hd2 Hd1 C2). lia.
Qed.

(** The unbounded sum whose wrap-around [Hash] computes. *)
Definition sum_hash (es : list (T * T)) : Z :=
  fold_right (fun e acc => hash e.1 + hash e.2 + acc)%Z 0%Z es.

Lemma Hash_sum order h : Hash hash order h = wrap64 (sum_hash (entries order h)).
Proof.
  unfold Hash. rewrite Iter_entries.
  assert (H : forall es acc,
    (iter_chain (fun k v acc => (false, addw acc (addw (hash k) (hash v)))) es (wrap64 acc)).2
      = wrap64 (acc + sum_hash es)).
  { induction es as [|[k v] es IH]; intros acc; simpl; [f_equal; lia|].
    unfold addw. rewrite wrap64_add_r, wrap64_add_l, IH. f_equal. lia. }
  apply (H _ 0%Z).
Qed.

Lemma sum_hash_delete es k es' :
  chain_delete eq es k = Some es' ->
  exists k' v, eq k' k = true /\ chain_get eq es k = Some v /\
    sum_hash es = (hash k' + hash v + sum_hash es')%Z.
Proof.
  revert es'. induction es as [|[k0 v0] es IH]; simpl; [done|]. intros es'.
  destruct (eq k0 k) eqn:E; [intros [= <-]; eauto|].
  destruct (chain_delete eq es k) as [es1|]; simpl; [|done]. intros [= <-].
  destruct (IH _ eq_refl) as (k' & v & H1 & H2 & H3). exists k', v. split_ands; auto.
  simpl. lia.
Qed.

Lemma same_entries_sum es1 : forall es2,
  distinct es1 -> distinct es2 -> same_entries es1 es2 -> sum_hash es1 = sum_hash es2.
Proof.
  induction es1 as [|[k v] es1 IH]; intros es2 Hd1 Hd2 Hs.
  - destruct es2 as [|[k v] es2]; [done|]. specialize (Hs k). simpl in Hs.
    by rewrite E_refl in Hs.
  - destruct (same_entries_covers _ _ Hs) as [Hc _].
    destruct (covers_step k v es1 es2) as (es2' & E & Hd & _ & _ & Hg); [done..|].
    destruct (sum_hash_delete _ _ _ E) as (k' & ov & Ek & Ev & ->).
    pose proof (Hs k) as Hk. simpl in Hk. rewrite E_refl, Ev in Hk. simpl.
    rewrite (E_hash _ _ Ek), (E_hash _ _ Hk). rewrite (IH es2'); [lia|apply Hd1|done|].
    intros k2. specialize (Hs k2). simpl in Hs. rewrite Hg.
    destruct (eq k k2) eqn:Ek2; [|done].
    replace (chain_get eq es1 k2) with (@None T); [done|]. symmetry. apply chain_get_none.
    apply absent_congr with k; [done|]. apply Hd1.
Qed.

Lemma Hash_same_map o1 o2 h other :
  wf h -> wf other -> range_order o1 h -> range_order o2 other ->
  same_map h other -> Hash hash o1 h = Hash hash o2 other.
Proof.
  intros Hh Hot Ho1 Ho2 Hs. rewrite !Hash_sum. f_equal. apply same_entries_sum.
  - apply entries_distinct; [done|by eapply range_nodup].
  - apply entries_distinct; [done|by eapply range_nodup].
  - by apply same_map_entries.
Qed.

Lemma same_map_refl h : same_map h h.
Proof. intros k. destruct (Get eq hash h k); [apply E_refl|done]. Qed.
End Correct.

(** ** Properties *)

(** What a caller of [NewHashMap] must provide: an equivalence that the hash
    function respects. *)
Record hash_contract {T} (eq : T -> T -> bool) (hash : T -> Z) : Prop := {
  hc_refl : forall x, eq x x = true;
  hc_sym : forall x y, eq x y = eq y x;
  hc_trans : forall x y z, eq x y = true -> eq y z = true -> eq x z = true;
  hc_hash : forall x y, eq x y = true -> hash x = hash y;
}.

(** The updates of the refinement theorem. *)
Inductive map_op (T : Type) := MPut (k v : T) | MDelete (k : T).
Arguments MPut {T} k v. Arguments MDelete {T} k.

Definition run_op {T} (eq : T -> T -> bool) (hash : T -> Z) (h : HashMap T) (o : map_op T) :=
  match o with MPut k v => Put eq hash h k v | MDelete k => Delete eq hash h k end.

(** The reference: a map as a lookup function and its number of keys. *)
Definition spec_op {T} (eq : T -> T -> bool) (m : (T -> option T) * Z) (o : map_op T) :=
  match o with
  | MPut k v => (fun k' => if eq k k' then Some v else m.1 k',
                 (m.2 + match m.1 k with Some _ => 0 | None => 1 end)%Z)
  | MDelete k => (fun k' => if eq k k' then None else m.1 k',
                  (m.2 - match m.1 k with Some _ => 1 | None => 0 end)%Z)
  end.

(** C32: After any sequence of [Put] and [Delete] calls on a new map, [Get]
    returns for every key what the reference map holds, [Len] is the number of
    its keys, and the representation invariant (entries filed under their hash,
    no duplicate key in a chain, [size] the number of entries) holds.  In whatever
    order the table is ranged over, [Iter] calls its function, until it stops, on
    the pairs of the reference map, one for each key. *)
Theorem HashMap_refines_map {T} (eq : T -> T -> bool) (hash : T -> Z) (os : list (map_op T)) :
  hash_contract eq hash ->
  let h := fold_left (run_op eq hash) os NewHashMap in
  let m := fold_left (spec_op eq) os (fun _ => None, 0%Z) in
  wf eq hash h /\ (forall k, Get eq hash h k = m.1 k) /\ Len h = m.2 /\
  forall order, range_order order h -> exists pairs,
    (forall A (f : T -> T -> A -> bool * A) a, Iter order h f a = iter_chain f pairs a) /\
    distinct eq pairs /\ Z.of_nat (length pairs) = m.2 /\
    forall k v, m.1 k = Some v <-> exists k', (k', v) ∈ pairs /\ eq k' k = true.
Proof.
  intros [Hr Hs Ht Hh] h0 m0.
  assert (forall h m, wf eq hash h -> (forall k, Get eq hash h k = m.1 k) -> Len h = m.2 ->
    let h := fold_left (run_op eq hash) os h in
    let m := fold_left (spec_op eq) os m in
    wf eq hash h /\ (forall k, Get eq hash h k = m.1 k) /\ Len h = m.2) as H.
  { induction os as [|o os IH]; intros h m Hw Hg Hl; simpl; [done|].
    destruct o as [k v|k]; simpl.
    - destruct (Put_ok eq hash Hs Ht Hh h k v Hw) as (H1 & H2 & H3). apply IH; simpl; [done| |].
      + intros k'. by rewrite H2, Hg.
      + rewrite H3, Hl, Hg. by destruct (m.1 k).
    - destruct (Delete_ok eq hash Hs Ht Hh h k Hw) as (H1 & H2 & H3). apply IH; simpl; [done| |].
      + intros k'. by rewrite H2, Hg.
      + rewrite H3, Hl, Hg. by destruct (m.1 k). }
  destruct (H NewHashMap (fun _ => None, 0%Z)) as (Hw & Hg & Hl); [apply wf_new|done|done|]. split_ands; [done..|].
  intros order Ho. exists (entries order h0). split_ands.
  - intros A f a. apply Iter_entries.
  - by apply (entries_distinct eq hash Hh), (range_nodup order h0).
  - fold h0 m0 in Hl. by rewrite <- Hl, (entries_length eq hash order h0).
  - intros k v. fold h0 m0 in Hg. rewrite <- Hg, <- (chain_get_entries eq hash Hr Hs Ht Hh order h0) by done. split.
    + apply chain_get_in.
    + intros (k' & Hin & E). apply (chain_get_of_in eq hash Hr Hs Ht Hh _ k'); [|done|done]. by apply (entries_distinct eq hash Hh), (range_nodup order h0).
Qed.

(** [Update] is left-biased union towards its argument whatever the two
    iteration orders, and leaves a well-formed map; [Copy] has the same
    contents as the original. *)
Theorem HashMap_update {T} (eq : T -> T -> bool) (hash : T -> Z) (h other : HashMap T) o1 o2 :
  hash_contract eq hash -> wf eq hash h -> wf eq hash other ->
  range_order o1 h -> range_order o2 other ->
  wf eq hash (Update eq hash o1 o2 h other) /\
  (forall k, Get eq hash (Copy eq hash o1 h) k = Get eq hash h k) /\
  forall k, Get eq hash (Update eq hash o1 o2 h other) k =
    match Get eq hash other k with Some v => Some v | None => Get eq hash h k end.
Proof.
  intros [Hr Hs Ht Hh] Hw1 Hw2 Ho1 Ho2.
  destruct (put_all_ok eq hash Hr Hs Ht Hh o1 h NewHashMap Hw1 (wf_new eq hash) Ho1) as [Hwc Hgc].
  assert (Hc : forall k, Get eq hash (Copy eq hash o1 h) k = Get eq hash h k).
  { intros k. unfold Copy. rewrite Hgc. by destruct (Get eq hash h k). }
  destruct (put_all_ok eq hash Hr Hs Ht Hh o2 other (Copy eq hash o1 h) Hw2 Hwc Ho2) as [Hwu Hgu].
  split; [done|]. split; [done|]. intros k. unfold Update. by rewrite Hgu, Hc.
Qed.

(** [Equal] decides extensional equality (same keys, [eq] values), although
    it only compares sizes and looks the left map's entries up in the right one;
    and equal maps have the same [Hash] whatever the iteration orders, with the
    wrap-around of Go's [int] included. *)
Theorem HashMap_equal_hash {T} (eq : T -> T -> bool) (hash : T -> Z) (h other : HashMap T) o1 o2 :
  hash_contract eq hash -> wf eq hash h -> wf eq hash other ->
  range_order o1 h -> range_order o2 other ->
  (Equal eq hash o1 h other = true <-> same_map eq hash h other) /\
  (Equal eq hash o1 h other = true -> Hash hash o1 h = Hash hash o2 other).
Proof.
  intros [Hr Hs Ht Hh] Hw1 Hw2 Ho1 Ho2.
  pose proof (Equal_iff eq hash Hr Hs Ht Hh o1 h other Hw1 Hw2 Ho1) as HE.
  split; [done|]. intros E%HE. by apply (Hash_same_map eq hash Hr Hs Ht Hh).
Qed.

(** ** Witnesses: keys and values are integers, equal modulo 10, hashed modulo
    5, so that distinct keys share chains. *)
Local Open Scope Z_scope.
Definition eq10 (x y : Z) : bool := (x mod 10 =? y mod 10)%Z.
Definition hash5 (x : Z) : Z := (x mod 10 mod 5)%Z.

Lemma eq10_contract : hash_contract eq10 hash5.
Proof.
  unfold eq10, hash5. split; intros.
  - apply Z.eqb_refl.
  - apply Z.eqb_sym.
  - rewrite Z.eqb_eq in *. congruence.
  - rewrite Z.eqb_eq in *. congruence.
Qed.

Definition ex_ops : list (map_op Z) := [MPut 1 7; MPut 6 8; MPut 11 9; MDelete 16; MPut 3 4]%Z.
Definition ex_map : HashMap Z := fold_left (run_op eq10 hash5) ex_ops NewHashMap.
Definition ex_other : HashMap Z :=
  fold_left (run_op eq10 hash5) [MPut 3 14; MPut 21 9]%Z NewHashMap.

Lemma HashMap_refines_map_witness :
  let m := fold_left (spec_op eq10) ex_ops (fun _ => None, 0%Z) in
  wf eq10 hash5 ex_map /\ (forall k, Get eq10 hash5 ex_map k = m.1 k) /\ Len ex_map = m.2 /\
  exists pairs, Z.of_nat (length pairs) = m.2 /\ exists k, (k, 9%Z) ∈ pairs /\ eq10 k 1 = true.
Proof.
  intros m. destruct (HashMap_refines_map eq10 hash5 ex_ops eq10_contract) as (H1 & H2 & H3 & H4).
  split; [exact H1|]. split; [exact H2|]. split; [exact H3|].
  destruct (H4 ((map_to_list (table ex_map)).*1) ltac:(unfold range_order; apply Permutation_refl)) as (pairs & _ & _ & E & P).
  exists pairs. split; [exact E|]. apply (P 1%Z 9%Z). vm_compute. reflexivity.
Defined.

Lemma run_ops_wf os : wf eq10 hash5 (fold_left (run_op eq10 hash5) os NewHashMap).
Proof.
  destruct eq10_contract as [_ Hs Ht Hh].
  assert (forall h, wf eq10 hash5 h -> wf eq10 hash5 (fold_left (run_op eq10 hash5) os h)) as H.
  { induction os as [|[k v|k] os IH]; intros h Hw; simpl; [done| |]; apply IH.
    - by apply Put_ok.
    - by apply Delete_ok. }
  apply H, wf_new.
Qed.

Example ex_map_gets :
  (Get eq10 hash5 ex_map 1, Get eq10 hash5 ex_map 6, Get eq10 hash5 ex_map 43, Len ex_map)
    = (Some 9, None, Some 4, 2)%Z.
Proof. by vm_compute. Qed.

Lemma HashMap_update_witness :
  wf eq10 hash5 (Update eq10 hash5 [3; 1] [1; 3] ex_map ex_other)%Z /\
  (forall k, Get eq10 hash5 (Copy eq10 hash5 [3; 1] ex_map)%Z k = Get eq10 hash5 ex_map k) /\
  forall k, Get eq10 hash5 (Update eq10 hash5 [3; 1] [1; 3] ex_map ex_other)%Z k =
    match Get eq10 hash5 ex_other k with Some v => Some v | None => Get eq10 hash5 ex_map k end.
Proof.
  apply (HashMap_update eq10 hash5 ex_map ex_other).
  - exact eq10_contract.
  - apply run_ops_wf.
  - apply run_ops_wf.
  - unfold range_order. vm_compute. solve [reflexivity|apply Permutation_swap].
  - unfold range_order. vm_compute. solve [reflexivity|apply Permutation_swap].
Defined.

Lemma HashMap_equal_hash_witness :
  Equal eq10 hash5 [3; 1]%Z ex_map ex_other = true /\
  Hash hash5 [3; 1]%Z ex_map = Hash hash5 [1; 3]%Z ex_other.
Proof.
  assert (E : Equal eq10 hash5 [3; 1]%Z ex_map ex_other = true) by (by vm_compute).
  split; [exact E|].
  apply (HashMap_equal_hash eq10 hash5 ex_map ex_other [3; 1]%Z [1; 3]%Z).
  - exact eq10_contract.
  - apply run_ops_wf.
  - apply run_ops_wf.
  - unfold range_order. vm_compute. solve [reflexivity|apply Permutation_swap].
  - unfold range_order. vm_compute. solve [reflexivity|apply Permutation_swap].
  - exact E.
Defined.
