(* ===== verification/SortedKeys.v ===== *)
(** Sorted slices of keyed elements: the form in which [sortedKeys()] presents
    a set or an object ([src/ast/term.go]), with lookup and insertion on it.
    The hash tables of Containers.v are shown to implement these operations.

    [sort.Sort] is modelled by insertion sort.  The elements it is applied to
    have pairwise different keys, so every correct sorting routine returns the
    same slice ([ssorted_unique]). *)
From Stdlib Require Import ZArith Lia.
From stdpp Require Import base list sorting.
From S2P Require Import Prelude.

Section SortedKeys.
Context {K B : Type} (cmp : K -> K -> comparison) (key : B -> K).

Definition same_key (k : K) (c : B) : bool :=
  match cmp k (key c) with Eq => true | _ => false end.

Fixpoint insert_by (b : B) (l : list B) : list B :=
  match l with
  | [] => [b]
  | c :: l' => match cmp (key b) (key c) with Gt => c :: insert_by b l' | _ => b :: l end
  end.
Definition sort_by (l : list B) : list B := foldr insert_by [] l.

Fixpoint sfind (k : K) (l : list B) : option B :=
  match l with
  | [] => None
  | c :: l' => if same_key k c then Some c else sfind k l'
  end.

(** [upd old new] is what an occupied slot holds after the insertion. *)
Fixpoint sins (upd : B -> B -> B) (b : B) (l : list B) : list B :=
  match l with
  | [] => [b]
  | c :: l' =>
      match cmp (key b) (key c) with
      | Lt => b :: l
      | Eq => upd c b :: l'
      | Gt => c :: sins upd b l'
      end
  end.

Definition ssorted (l : list B) : Prop :=
  StronglySorted (fun a b => cmp (key a) (key b) = Lt) l.
(** No two positions have equal keys. *)
Definition distinct (l : list B) : Prop :=
  ForallOrdPairs (fun a b => cmp (key a) (key b) <> Eq) l.

Context `{H : !CmpOk cmp}.

Lemma same_key_true k c : same_key k c = true <-> cmp k (key c) = Eq.
Proof. unfold same_key. destruct (cmp k (key c)); done. Qed.

Lemma insert_by_perm b l : insert_by b l ≡ₚ b :: l.
Proof.
  induction l as [|c l IH]; simpl; [done|].
  destruct (cmp (key b) (key c)); [done|done|]. rewrite IH. apply Permutation_swap.
Qed.

Lemma sort_by_perm l : sort_by l ≡ₚ l.
Proof. induction l as [|b l IH]; simpl; [done|]. by rewrite insert_by_perm, IH. Qed.

Lemma elem_of_sort_by b l : b ∈ sort_by l <-> b ∈ l.
Proof. by rewrite sort_by_perm. Qed.

Lemma length_sort_by l : length (sort_by l) = length l.
Proof. by rewrite sort_by_perm. Qed.

Lemma insert_by_ssorted b l :
  ssorted l -> Forall (fun c => cmp (key b) (key c) <> Eq) l -> ssorted (insert_by b l).
Proof.
  unfold ssorted. induction 1 as [|c l Hs IH Hc]; intros Hb; simpl.
  { by repeat constructor. }
  apply Forall_cons in Hb as [Hbc Hb].
  destruct (cmp (key b) (key c)) eqn:E; [done| |].
  - constructor; [by constructor|]. constructor; [done|].
    eapply Forall_impl; [exact Hc|]. intros d. by apply (cmp_lt_trans cmp).
  - constructor; [auto|]. rewrite insert_by_perm. constructor; [|done].
    by apply (cmp_gt_lt cmp).
Qed.

Lemma sort_by_ssorted l : distinct l -> ssorted (sort_by l).
Proof.
  induction 1 as [|b l Hb _ IH]; simpl; [constructor|].
  apply insert_by_ssorted; [done|]. by rewrite sort_by_perm.
Qed.

Lemma ssorted_distinct l : ssorted l -> distinct l.
Proof.
  induction 1 as [|b l _ IH Hb]; constructor; [|done].
  eapply Forall_impl; [exact Hb|]. intros c E. by rewrite E.
Qed.

Lemma ssorted_unique l1 l2 :
  ssorted l1 -> ssorted l2 -> (forall b, b ∈ l1 <-> b ∈ l2) -> l1 = l2.
Proof.
  intros H1. revert l2. induction H1 as [|b l1 Hs IH Hb]; intros [|c l2] H2 E.
  - done.
  - destruct (E c) as [_ []%not_elem_of_nil]. left.
  - destruct (E b) as [[]%not_elem_of_nil _]. left.
  - inversion H2 as [|? ? Hs2 Hc]; subst. rewrite Forall_forall in Hb, Hc.
    assert (b = c) as <-.
    { destruct (E b) as [Eb _], (E c) as [_ Ec].
      specialize (Eb ltac:(left)). specialize (Ec ltac:(left)).
      apply elem_of_cons in Eb as [|Eb]; [done|]. apply elem_of_cons in Ec as [|Ec]; [done|].
      specialize (Hb _ Ec). specialize (Hc _ Eb).
      rewrite (cmp_sym cmp (key b)), Hb in Hc. discriminate Hc. }
    f_equal. apply IH; [done|]. intros d. specialize (E d). rewrite !elem_of_cons in E.
    assert (Hirr : cmp (key b) (key b) <> Lt) by (by rewrite (cmp_refl cmp)).
    split; intros Hd.
    + destruct (proj1 E (or_intror Hd)) as [->|]; [|done]. by destruct Hirr; apply Hb.
    + destruct (proj2 E (or_intror Hd)) as [->|]; [|done]. by destruct Hirr; apply Hc.
Qed.

Lemma sort_by_id l : ssorted l -> sort_by l = l.
Proof.
  intros Hl. apply ssorted_unique; [|done|intros b; apply elem_of_sort_by].
  by apply sort_by_ssorted, ssorted_distinct.
Qed.

Lemma sfind_Some_1 k l c : sfind k l = Some c -> c ∈ l /\ cmp k (key c) = Eq.
Proof.
  induction l as [|d l IH]; simpl; [done|].
  destruct (same_key k d) eqn:E.
  - intros [= ->]. apply same_key_true in E. split; [left|done].
  - intros [H1 H2]%IH. split; [by right|done].
Qed.

Lemma sfind_None k l : sfind k l = None <-> Forall (fun c => cmp k (key c) <> Eq) l.
Proof.
  induction l as [|d l IH]; simpl; [by split; [constructor|]|].
  rewrite Forall_cons, <- IH. pose proof (same_key_true k d) as E.
  destruct (same_key k d); intuition congruence.
Qed.

Lemma distinct_eq l b c :
  distinct l -> b ∈ l -> c ∈ l -> cmp (key b) (key c) = Eq -> b = c.
Proof.
  induction 1 as [|d l Hd _ IH]; [by intros []%not_elem_of_nil|].
  rewrite Forall_forall in Hd. intros [->|Hb]%elem_of_cons [->|Hc]%elem_of_cons E; auto.
  - by destruct (Hd _ Hc).
  - destruct (Hd _ Hb). by apply (cmp_eq_sym cmp).
Qed.

Lemma sfind_Some k l c :
  distinct l -> sfind k l = Some c <-> c ∈ l /\ cmp k (key c) = Eq.
Proof.
  intros Hl. split; [apply sfind_Some_1|]. intros [Hc E].
  destruct (sfind k l) as [d|] eqn:F.
  - apply sfind_Some_1 in F as [Hd E2]. f_equal. apply (distinct_eq l); [done..|].
    apply (cmp_eq_trans cmp _ k); [by apply (cmp_eq_sym cmp)|done].
  - apply sfind_None in F. rewrite Forall_forall in F. by destruct (F _ Hc).
Qed.

(** Lookup does not depend on the order of a slice with distinct keys. *)
Lemma sfind_ext k l1 l2 :
  distinct l1 -> distinct l2 -> (forall b, b ∈ l1 <-> b ∈ l2) -> sfind k l1 = sfind k l2.
Proof.
  intros H1 H2 E. destruct (sfind k l1) as [c|] eqn:F; symmetry.
  - apply (sfind_Some _ _ _ H1) in F as [Hc Ec]. apply sfind_Some; [done|].
    by rewrite <- E.
  - apply sfind_None. apply sfind_None in F. rewrite Forall_forall in F |- *.
    intros x Hx. by apply F, E.
Qed.

Lemma sfind_cmp_eq k k' l : cmp k k' = Eq -> sfind k l = sfind k' l.
Proof.
  intros E. induction l as [|c l IH]; simpl; [done|].
  unfold same_key. by rewrite (cmp_eq_l cmp k k' (key c) E), IH.
Qed.

(** Sorted slices with the same elements up to key equality agree position by
    position. *)
Definition covers (l1 l2 : list B) : Prop :=
  forall b, b ∈ l1 -> exists c, c ∈ l2 /\ cmp (key b) (key c) = Eq.

Lemma covers_tail b c l1 l2 :
  ssorted (b :: l1) -> cmp (key b) (key c) = Eq -> covers (b :: l1) (c :: l2) -> covers l1 l2.
Proof.
  intros Hs E C d Hd. apply StronglySorted_inv in Hs as [_ Hb]. rewrite Forall_forall in Hb.
  destruct (C d) as (e & [->|He]%elem_of_cons & Ee); [by right| |by exists e].
  specialize (Hb _ Hd). assert (cmp (key b) (key d) = Eq); [|congruence].
  apply (cmp_eq_trans cmp _ (key c)); [done|by apply (cmp_eq_sym cmp)].
Qed.

Lemma covers_head_le b l1 c l2 :
  ssorted (c :: l2) -> covers (b :: l1) (c :: l2) -> cmp (key b) (key c) <> Lt.
Proof.
  intros Hs C L. apply StronglySorted_inv in Hs as [_ Hc]. rewrite Forall_forall in Hc.
  destruct (C b) as (e & [->|He]%elem_of_cons & Ee); [by left|congruence|].
  pose proof (cmp_lt_trans cmp _ _ _ L (Hc _ He)). congruence.
Qed.

Lemma covers_behead b l1 c l2 :
  ssorted (b :: l1) -> ssorted (c :: l2) -> covers (b :: l1) (c :: l2) -> covers l1 l2.
Proof.
  intros H1 H2 C x Hx. pose proof (covers_head_le _ _ _ _ H2 C) as L.
  destruct (C x) as (e & [->|He]%elem_of_cons & Ee); [by right| |by exists e].
  apply StronglySorted_inv in H1 as [_ Hb]. rewrite Forall_forall in Hb. destruct L.
  rewrite <- (cmp_eq_r cmp _ _ _ Ee). by apply Hb.
Qed.

(** Distinct keys cannot be covered by fewer. *)
Lemma covers_length_le l2 : forall l1,
  ssorted l1 -> ssorted l2 -> covers l1 l2 -> (length l1 <= length l2)%nat.
Proof.
  induction l2 as [|c l2 IH]; intros [|b l1] H1 H2 C; simpl; try lia.
  - destruct (C b) as (e & []%not_elem_of_nil & _). left.
  - pose proof (covers_behead _ _ _ _ H1 H2 C) as C'.
    apply StronglySorted_inv in H1 as [H1 _]. apply StronglySorted_inv in H2 as [H2 _].
    specialize (IH l1 H1 H2 C'). lia.
Qed.

Lemma covers_same_length l1 : forall l2,
  ssorted l1 -> ssorted l2 -> length l1 = length l2 -> covers l1 l2 ->
  Forall2 (fun b c => cmp (key b) (key c) = Eq) l1 l2.
Proof.
  induction l1 as [|b l1 IH]; intros [|c l2] H1 H2 L C; try discriminate L; [constructor|].
  pose proof (covers_behead _ _ _ _ H1 H2 C) as C'.
  assert (T1 := proj1 (StronglySorted_inv H1)). assert (T2 := proj1 (StronglySorted_inv H2)).
  constructor; [|apply IH; try done; simpl in L; lia].
  destruct (C b) as (e & [->|He]%elem_of_cons & Ee); [by left|done|]. exfalso.
  assert (Cb : covers (b :: l1) l2).
  { intros x [->|Hx]%elem_of_cons; [by exists e|by apply C']. }
  pose proof (covers_length_le _ _ H1 T2 Cb). simpl in *. lia.
Qed.

Lemma ssorted_covers l1 l2 :
  ssorted l1 -> ssorted l2 -> covers l1 l2 -> covers l2 l1 ->
  Forall2 (fun b c => cmp (key b) (key c) = Eq) l1 l2.
Proof.
  revert l2. induction l1 as [|b l1 IH]; intros [|c l2] H1 H2 C1 C2.
  - constructor.
  - destruct (C2 c) as (e & []%not_elem_of_nil & _). left.
  - destruct (C1 b) as (e & []%not_elem_of_nil & _). left.
  - pose proof (covers_head_le _ _ _ _ H2 C1) as L1.
    pose proof (covers_head_le _ _ _ _ H1 C2) as L2.
    assert (E : cmp (key b) (key c) = Eq).
    { rewrite <- (cmp_gt_lt cmp) in L2. by destruct (cmp (key b) (key c)). }
    constructor; [done|].
    pose proof (covers_tail _ _ _ _ H1 E C1).
    pose proof (covers_tail _ _ _ _ H2 (cmp_eq_sym cmp _ _ E) C2).
    apply StronglySorted_inv in H1 as [H1 _]. apply StronglySorted_inv in H2 as [H2 _].
    by apply IH.
Qed.

Section Insert.
Context (upd : B -> B -> B) (Hupd : forall o b, cmp (key o) (key (upd o b)) = Eq).

(** What the slot of [b] holds after the insertion. *)
Definition slot (b : B) (l : list B) : B :=
  match sfind (key b) l with Some o => upd o b | None => b end.

Lemma slot_key b l : cmp (key b) (key (slot b l)) = Eq.
Proof.
  unfold slot. destruct (sfind (key b) l) as [o|] eqn:F; [|apply (cmp_refl cmp)].
  apply sfind_Some_1 in F as [_ E]. by apply (cmp_eq_trans cmp _ (key o)).
Qed.

Lemma sins_elem b l c :
  ssorted l ->
  c ∈ sins upd b l <-> c = slot b l \/ (c ∈ l /\ cmp (key b) (key c) <> Eq).
Proof.
  unfold slot. induction 1 as [|d l Hs IH Hd]; simpl.
  { rewrite list_elem_of_singleton. split; [by left|]. intros [|[[]%not_elem_of_nil _]]; done. }
  unfold same_key. destruct (cmp (key b) (key d)) eqn:E; rewrite ?elem_of_cons.
  - split; intros [->|H1].
    + by left.
    + right. split; [by right|]. rewrite Forall_forall in Hd.
      rewrite <- (cmp_eq_l cmp _ _ (key c) E). by rewrite (Hd _ H1).
    + by left.
    + destruct H1 as [[->|H1] N]; [done|by right].
  - assert (F : sfind (key b) l = None).
    { apply sfind_None. eapply Forall_impl; [exact Hd|]. intros x Hx.
      by rewrite (cmp_lt_trans cmp _ _ _ E Hx). }
    rewrite F. split.
    + intros [->|[->|Hc]]; [by left|right; split; [by left|by rewrite E]|].
      right. split; [by right|]. apply sfind_None in F. rewrite Forall_forall in F. by apply F.
    + intros [->|[[->|Hc] _]]; auto.
  - rewrite IH. split.
    + intros [->|[->|[Hc N]]]; [right; split; [by left|by rewrite E]|by left|auto].
    + intros [->|[[->|Hc] N]]; auto.
Qed.

Lemma sins_ssorted b l : ssorted l -> ssorted (sins upd b l).
Proof.
  induction 1 as [|d l Hs IH Hd]; simpl; [by repeat constructor|].
  destruct (cmp (key b) (key d)) eqn:E.
  - constructor; [done|]. eapply Forall_impl; [exact Hd|]. intros x Hx.
    by rewrite (cmp_eq_l cmp _ _ (key x) (Hupd d b)).
  - constructor; [by constructor|]. constructor; [done|].
    eapply Forall_impl; [exact Hd|]. intros x. by apply (cmp_lt_trans cmp).
  - constructor; [done|]. rewrite Forall_forall. intros x [->|[Hx _]]%sins_elem; [| |done].
    + rewrite <- (cmp_eq_r cmp (key d) _ _ (slot_key b l)). by apply (cmp_gt_lt cmp).
    + rewrite Forall_forall in Hd. by apply Hd.
Qed.

Lemma sfind_sins k b l :
  ssorted l ->
  sfind k (sins upd b l) = if same_key k b then Some (slot b l) else sfind k l.
Proof.
  intros Hl. pose proof (sins_ssorted b l Hl) as Hi.
  destruct (same_key k b) eqn:E.
  - apply same_key_true in E. apply sfind_Some; [by apply ssorted_distinct|].
    split; [by apply sins_elem; [|left]|].
    apply (cmp_eq_trans cmp _ (key b)); [done|apply slot_key].
  - assert (N : cmp k (key b) <> Eq) by (rewrite <- same_key_true, E; done).
    destruct (sfind k l) as [c|] eqn:F.
    + apply sfind_Some_1 in F as [Hc Ec]. apply sfind_Some; [by apply ssorted_distinct|].
      split; [|done]. apply sins_elem; [done|]. right. split; [done|].
      intros Eb. destruct N. apply (cmp_eq_trans cmp _ (key c)); [done|].
      by apply (cmp_eq_sym cmp).
    + apply sfind_None. rewrite Forall_forall. intros c [->|[Hc _]]%sins_elem; [| |done].
      * intros Ec. destruct N. apply (cmp_eq_trans cmp _ (key (slot b l))); [done|].
        by apply (cmp_eq_sym cmp), slot_key.
      * apply sfind_None in F. rewrite Forall_forall in F. by apply F.
Qed.

Lemma length_sins b l :
  ssorted l ->
  length (sins upd b l) =
    match sfind (key b) l with Some _ => length l | None => S (length l) end.
Proof.
  induction 1 as [|d l Hs IH Hd]; simpl; [done|].
  unfold same_key. destruct (cmp (key b) (key d)) eqn:E; simpl.
  - done.
  - assert (F : sfind (key b) l = None).
    { apply sfind_None. eapply Forall_impl; [exact Hd|]. intros x Hx.
      by rewrite (cmp_lt_trans cmp _ _ _ E Hx). }
    by rewrite F.
  - rewrite IH. by destruct (sfind (key b) l).
Qed.

(** The characterisation used by the hash tables: a slice with distinct keys
    that holds the slot of [b] and the old elements with other keys sorts to
    the insertion. *)
Lemma sort_by_sins b l l' :
  distinct l -> distinct l' ->
  (forall c, c ∈ l' <-> c = slot b l \/ (c ∈ l /\ cmp (key b) (key c) <> Eq)) ->
  sort_by l' = sins upd b (sort_by l).
Proof.
  intros Hl Hl' E. pose proof (sort_by_ssorted l Hl) as Hs.
  assert (Hslot : slot b (sort_by l) = slot b l).
  { unfold slot. rewrite (sfind_ext (key b) (sort_by l) l); [done| |done|].
    - by apply ssorted_distinct.
    - intros x. apply elem_of_sort_by. }
  apply ssorted_unique.
  - by apply sort_by_ssorted.
  - by apply sins_ssorted.
  - intros c. rewrite elem_of_sort_by, E, sins_elem, Hslot, elem_of_sort_by by done. done.
Qed.
End Insert.
End SortedKeys.
