(* ===== verification/Value.v ===== *)
(** AST values and their total order: [src/ast/term.go] (the value types),
    [src/ast/policy.go] (Expr, Body, With, SomeDecl, Every) and
    [src/ast/compare.go].

    A [*Term] is a value with a source location; locations take no part in any
    operation modelled here, so terms and values are one type.  Objects and sets
    are kept as the sorted key slices that [sortedKeys()] returns, which is what
    every observer of the two hash tables sees; the tables themselves are
    modelled in Containers.v.  Go compares bytes of strings, [String.compare]
    does the same on ascii characters.

    A [Number] is a [json.Number] literal: [NInt z] one written as an integer,
    [NDec m e] one with a fraction or an exponent, whose exact value is
    [m * 10^e].  Exponents stay inside the range of [big.Float] (decimal
    exponents up to about 646 million), so that [SetString] neither overflows nor
    underflows and [big.Rat] holds the exact value. *)
From Stdlib Require Import ZArith Lia QArith String.
From stdpp Require Import base list strings.
From S2P Require Import Prelude.

(** ** Data *)
Inductive number : Set :=
| NInt (z : Z)
| NDec (m e : Z).

Inductive value : Type :=
| Null
| Boolean (b : bool)
| Number (n : number)
| Str (s : string)
| Var (x : string)
| Ref (ts : list value)
| Array (elems : list value)
| Object (kvs : list (value * value))
| SetV (keys : list value)
| ArrayComprehension (t : value) (body : list expr)
| ObjectComprehension (k v : value) (body : list expr)
| SetComprehension (t : value) (body : list expr)
| Call (ts : list value)
(** [Expr]: its terms, [with] modifiers (target and value), index and negation. *)
with expr : Type :=
| Expr (ts : terms) (withs : list (value * value)) (index : Z) (negated : bool)
(** The dynamic type of [Expr.Terms]. *)
with terms : Type :=
| TTerm (t : value)
| TTerms (ts : list value)
| TSome (symbols : list value)
| TEvery (key : option value) (val domain : value) (body : list expr).

Abbreviation body := (list expr).

(** ** Numbers *)

(** [json.Number.Int64]: [strconv.ParseInt(s, 10, 64)]. *)
Definition num_int64 (n : number) : option Z :=
  match n with
  | NInt z => if in_int64 z then Some z else None
  | NDec _ _ => None
  end.

(** [new(big.Rat).SetString(s)]. *)
Definition num_rat (n : number) : Q :=
  match n with
  | NInt z => inject_Z z
  | NDec m e =>
      if (0 <=? e)%Z then inject_Z (m * 10 ^ e) else (m # Z.to_pos (10 ^ (- e)))
  end.

Definition num_compare (a b : number) : comparison :=
  match num_int64 a, num_int64 b with
  | Some ai, Some bi => Z.compare ai bi
  | _, _ => Qcompare (num_rat a) (num_rat b)
  end.

(** ** Compare *)
Definition sortOrder (v : value) : Z :=
  match v with
  | Null => 0
  | Boolean _ => 1
  | Number _ => 2
  | Str _ => 3
  | Var _ => 4
  | Ref _ => 5
  | Array _ => 6
  | Object _ => 7
  | SetV _ => 8
  | ArrayComprehension _ _ => 9
  | ObjectComprehension _ _ _ => 10
  | SetComprehension _ _ => 11
  | Call _ => 12
  end.

Definition terms_sortOrder (t : terms) : Z :=
  match t with TSome _ => 0 | TTerm _ => 1 | TTerms _ => 2 | TEvery _ _ _ _ => 3 end.

Definition bool_compare (a b : bool) : comparison :=
  if Bool.eqb a b then Eq else if negb a then Lt else Gt.

(** [expr.Negated && !other.Negated] is greater. *)
Definition negated_compare (a b : bool) : comparison :=
  match a, b with true, false => Gt | false, true => Lt | _, _ => Eq end.

Section Pairs.
Context {A : Type} (cmp : A -> A -> comparison).
Definition pair_compare (x y : A * A) : comparison := cmp x.1 y.1 &&& cmp x.2 y.2.
(** Comparison of two possibly nil terms. *)
Definition option_compare (x y : option A) : comparison :=
  match x, y with
  | None, None => Eq
  | None, Some _ => Lt
  | Some _, None => Gt
  | Some x, Some y => cmp x y
  end.
End Pairs.

(** [Compare] on values, [Expr.Compare], and the switch on [Expr.Terms].
    [termSliceCompare], [object.Compare], [set.Compare], [Body.Compare] and
    [withSliceCompare] are [slice_compare] of the element comparison. *)
Fixpoint Compare (a b : value) {struct a} : comparison :=
  Z.compare (sortOrder a) (sortOrder b) &&&
  match a, b with
  | Null, Null => Eq
  | Boolean x, Boolean y => bool_compare x y
  | Number x, Number y => num_compare x y
  | Str x, Str y => String.compare x y
  | Var x, Var y => String.compare x y
  | Ref x, Ref y => slice_compare Compare x y
  | Array x, Array y => slice_compare Compare x y
  | Object x, Object y =>
      slice_compare (pair_compare Compare) x y
  | SetV x, SetV y => slice_compare Compare x y
  | ArrayComprehension t1 b1, ArrayComprehension t2 b2 =>
      Compare t1 t2 &&& slice_compare Expr_Compare b1 b2
  | ObjectComprehension k1 v1 b1, ObjectComprehension k2 v2 b2 =>
      Compare k1 k2 &&& Compare v1 v2 &&& slice_compare Expr_Compare b1 b2
  | SetComprehension t1 b1, SetComprehension t2 b2 =>
      Compare t1 t2 &&& slice_compare Expr_Compare b1 b2
  | Call x, Call y => slice_compare Compare x y
  | _, _ => Eq
  end
with Expr_Compare (a b : expr) {struct a} : comparison :=
  match a, b with
  | Expr t1 w1 i1 n1, Expr t2 w2 i2 n2 =>
      Z.compare (terms_sortOrder t1) (terms_sortOrder t2) &&&
      Z.compare i1 i2 &&& negated_compare n1 n2 &&& Terms_Compare t1 t2 &&&
      slice_compare (pair_compare Compare) w1 w2
  end
with Terms_Compare (a b : terms) {struct a} : comparison :=
  match a, b with
  | TTerm x, TTerm y => Compare x y
  | TTerms x, TTerms y => slice_compare Compare x y
  | TSome x, TSome y => slice_compare Compare x y
  | TEvery k1 v1 d1 b1, TEvery k2 v2 d2 b2 =>
      option_compare Compare k1 k2 &&& Compare v1 v2 &&& Compare d1 d2 &&& slice_compare Expr_Compare b1 b2
  | _, _ => Eq
  end.

(** [Term.Equal] and [Value.Equal]: comparison zero (the scalar fast paths
    compare with [==], which agrees). *)
Definition Equal (a b : value) : bool :=
  match Compare a b with Eq => true | _ => false end.

Definition Less (a b : value) : bool :=
  match Compare a b with Lt => true | _ => false end.

(** ** Induction over the syntax *)
Section SyntaxInd.
Context (P : value -> Prop) (E : expr -> Prop) (R : terms -> Prop).
Context
  (HNull : P Null) (HBool : forall b, P (Boolean b)) (HNum : forall n, P (Number n))
  (HStr : forall s, P (Str s)) (HVar : forall x, P (Var x))
  (HRef : forall l, Forall P l -> P (Ref l))
  (HArray : forall l, Forall P l -> P (Array l))
  (HObject : forall l, Forall (fun kv => P kv.1 /\ P kv.2) l -> P (Object l))
  (HSet : forall l, Forall P l -> P (SetV l))
  (HAC : forall t b, P t -> Forall E b -> P (ArrayComprehension t b))
  (HOC : forall k v b, P k -> P v -> Forall E b -> P (ObjectComprehension k v b))
  (HSC : forall t b, P t -> Forall E b -> P (SetComprehension t b))
  (HCall : forall l, Forall P l -> P (Call l))
  (HExpr : forall t w i n, R t -> Forall (fun kv => P kv.1 /\ P kv.2) w -> E (Expr t w i n))
  (HTerm : forall t, P t -> R (TTerm t))
  (HTerms : forall l, Forall P l -> R (TTerms l))
  (HSome : forall l, Forall P l -> R (TSome l))
  (HEvery : forall k v d b, (forall x, k = Some x -> P x) -> P v -> P d -> Forall E b ->
     R (TEvery k v d b)).

Fixpoint value_all (v : value) : P v :=
  let vs := fix vs (l : list value) : Forall P l :=
    match l with
    | [] => Forall_nil_2 P
    | x :: l => Forall_cons_2 P x l (value_all x) (vs l)
    end in
  let kvs := fix kvs (l : list (value * value)) : Forall (fun kv => P kv.1 /\ P kv.2) l :=
    match l with
    | [] => Forall_nil_2 _
    | (k, v) :: l => Forall_cons_2 _ (k, v) l (conj (value_all k) (value_all v)) (kvs l)
    end in
  let es := fix es (l : list expr) : Forall E l :=
    match l with
    | [] => Forall_nil_2 E
    | x :: l => Forall_cons_2 E x l (expr_all x) (es l)
    end in
  match v with
  | Null => HNull
  | Boolean b => HBool b
  | Number n => HNum n
  | Str s => HStr s
  | Var x => HVar x
  | Ref l => HRef l (vs l)
  | Array l => HArray l (vs l)
  | Object l => HObject l (kvs l)
  | SetV l => HSet l (vs l)
  | ArrayComprehension t b => HAC t b (value_all t) (es b)
  | ObjectComprehension k v b => HOC k v b (value_all k) (value_all v) (es b)
  | SetComprehension t b => HSC t b (value_all t) (es b)
  | Call l => HCall l (vs l)
  end
with expr_all (e : expr) : E e :=
  let kvs := fix kvs (l : list (value * value)) : Forall (fun kv => P kv.1 /\ P kv.2) l :=
    match l with
    | [] => Forall_nil_2 _
    | (k, v) :: l => Forall_cons_2 _ (k, v) l (conj (value_all k) (value_all v)) (kvs l)
    end in
  match e with Expr t w i n => HExpr t w i n (terms_all t) (kvs w) end
with terms_all (t : terms) : R t :=
  let vs := fix vs (l : list value) : Forall P l :=
    match l with
    | [] => Forall_nil_2 P
    | x :: l => Forall_cons_2 P x l (value_all x) (vs l)
    end in
  let es := fix es (l : list expr) : Forall E l :=
    match l with
    | [] => Forall_nil_2 E
    | x :: l => Forall_cons_2 E x l (expr_all x) (es l)
    end in
  match t with
  | TTerm t => HTerm t (value_all t)
  | TTerms l => HTerms l (vs l)
  | TSome l => HSome l (vs l)
  | TEvery k v d b =>
      HEvery k v d b
        (match k return (forall x, k = Some x -> P x) with
         | None => fun x H => match H in (_ = o) return
                     match o with Some x => P x | None => True end with eq_refl => I end
         | Some y => fun x H => match H in (_ = o) return
                     match o with Some x => P x | None => True end with
                     eq_refl => value_all y end
         end) (value_all v) (value_all d) (es b)
  end.

Lemma syntax_ind : (forall v, P v) /\ (forall e, E e) /\ (forall t, R t).
Proof. split; [exact value_all|split; [exact expr_all|exact terms_all]]. Qed.
End SyntaxInd.

(** ** Compare is a total order *)
Lemma Q_compare_ok : CmpOk Qcompare.
Proof.
  intros x. split; intros.
  - symmetry. apply Qcompare_antisym.
  - rewrite <- Qlt_alt in *. by apply Qlt_trans with y.
  - rewrite <- Qlt_alt in *. rewrite <- Qeq_alt in *. by rewrite <- H2.
  - rewrite <- Qeq_alt in H1. by rewrite H1.
Qed.

(** The [Int64] fast path agrees with comparing exact values. *)
Lemma num_compare_rat a b : num_compare a b = Qcompare (num_rat a) (num_rat b).
Proof.
  unfold num_compare.
  destruct (num_int64 a) as [x|] eqn:Ea; [|done].
  destruct (num_int64 b) as [y|] eqn:Eb; [|done].
  destruct a as [za|]; [|done]. destruct b as [zb|]; [|done]. simpl in *.
  destruct (in_int64 za); [|done]. destruct (in_int64 zb); [|done]. simplify_eq.
  unfold Qcompare, inject_Z. simpl. by rewrite !Z.mul_1_r.
Qed.

Lemma num_compare_ok : CmpOk num_compare.
Proof.
  intros x. pose proof (cmp_contramap num_rat Qcompare x (Q_compare_ok _)) as [Hs Ht Hl He].
  split; intros y; [|intros z..]; rewrite !num_compare_rat; [apply Hs|apply Ht|apply Hl|apply He].
Qed.

Lemma bool_compare_ok : CmpOk bool_compare.
Proof. intros []; split; intros []; try intros []; simpl; done. Qed.

Lemma negated_compare_ok : CmpOk negated_compare.
Proof. intros []; split; intros []; try intros []; simpl; done. Qed.

(** [Compare] past the sort-order test, as a function of both arguments. *)
Definition Compare_same (a b : value) : comparison :=
  match a, b with
  | Null, Null => Eq
  | Boolean x, Boolean y => bool_compare x y
  | Number x, Number y => num_compare x y
  | Str x, Str y => String.compare x y
  | Var x, Var y => String.compare x y
  | Ref x, Ref y => slice_compare Compare x y
  | Array x, Array y => slice_compare Compare x y
  | Object x, Object y => slice_compare (pair_compare Compare) x y
  | SetV x, SetV y => slice_compare Compare x y
  | ArrayComprehension t1 b1, ArrayComprehension t2 b2 =>
      Compare t1 t2 &&& slice_compare Expr_Compare b1 b2
  | ObjectComprehension k1 v1 b1, ObjectComprehension k2 v2 b2 =>
      Compare k1 k2 &&& Compare v1 v2 &&& slice_compare Expr_Compare b1 b2
  | SetComprehension t1 b1, SetComprehension t2 b2 =>
      Compare t1 t2 &&& slice_compare Expr_Compare b1 b2
  | Call x, Call y => slice_compare Compare x y
  | _, _ => Eq
  end.

Lemma Compare_unfold a b :
  Compare a b = Z.compare (sortOrder a) (sortOrder b) &&& Compare_same a b.
Proof. by destruct a. Qed.

Lemma pair_compare_ok {A} (cmp : A -> A -> comparison) p :
  cmp_ok_at cmp p.1 -> cmp_ok_at cmp p.2 -> cmp_ok_at (pair_compare cmp) p.
Proof.
  intros H1 H2. unfold pair_compare.
  apply (cmp_lex (fun p q => cmp p.1 q.1) (fun p q => cmp p.2 q.2)).
  - by apply (cmp_contramap fst).
  - by apply (cmp_contramap snd).
Qed.

Lemma option_compare_ok {A} (cmp : A -> A -> comparison) o :
  (forall x, o = Some x -> cmp_ok_at cmp x) -> cmp_ok_at (option_compare cmp) o.
Proof.
  destruct o as [x|]; intros H.
  - destruct (H x eq_refl) as [Hs Ht Hl He].
    split.
    + intros [y|] _; simpl; [by apply Hs|done].
    + intros [y|] [z|] _ _; simpl; try done. by apply Ht.
    + intros [y|] [z|] _ _; simpl; try done. by apply Hl.
    + intros [y|] [z|] _ _; simpl; try done. by apply He.
  - split; [by intros [y|] _|by intros [y|] [z|] _ _..].
Qed.

Lemma Forall_and_pairs {A} (P : A -> Prop) (l : list (A * A)) (Q : A * A -> Prop) :
  (forall p, P p.1 -> P p.2 -> Q p) -> Forall (fun kv => P kv.1 /\ P kv.2) l -> Forall Q l.
Proof. intros HQ H. eapply Forall_impl; [exact H|]. intros p []. auto. Qed.

(** A value of the same sort order as [C _] is built with [C] too. *)
Ltac same_ctor :=
  let y := fresh in let H := fresh in
  intros y H; destruct y; try discriminate H;
  solve [by eexists|by eexists tt|by eexists (_, _)|by eexists (_, _, _)|by eexists (_, _, _, _)].

Lemma Compare_same_ok v :
  match v with
  | Ref l | Array l | SetV l | Call l => Forall (cmp_ok_at Compare) l
  | Object l => Forall (fun kv => cmp_ok_at Compare kv.1 /\ cmp_ok_at Compare kv.2) l
  | ArrayComprehension t b | SetComprehension t b =>
      cmp_ok_at Compare t /\ Forall (cmp_ok_at Expr_Compare) b
  | ObjectComprehension k v b =>
      cmp_ok_at Compare k /\ cmp_ok_at Compare v /\ Forall (cmp_ok_at Expr_Compare) b
  | _ => True
  end ->
  cmp_ok_on (fun y => Z.compare (sortOrder v) (sortOrder y) = Eq) Compare_same v.
Proof.
  destruct v as [|x|x|x|x|l|l|l|l|t b|k v b|t b|l]; intros H.
  - apply (cmp_image (fun _ : unit => Null) _ _ (fun _ _ => Eq) tt); [same_ctor|done|by split].
  - apply (cmp_image Boolean _ _ bool_compare); [same_ctor|done|apply bool_compare_ok].
  - apply (cmp_image Number _ _ num_compare); [same_ctor|done|apply num_compare_ok].
  - apply (cmp_image Str _ _ String.compare); [same_ctor|done|apply string_compare_ok].
  - apply (cmp_image Var _ _ String.compare); [same_ctor|done|apply string_compare_ok].
  - apply (cmp_image Ref _ _ (slice_compare Compare)); [same_ctor|done|by apply slice_compare_ok].
  - apply (cmp_image Array _ _ (slice_compare Compare)); [same_ctor|done|by apply slice_compare_ok].
  - apply (cmp_image Object _ _ (slice_compare (pair_compare Compare)));
      [same_ctor|done|].
    apply slice_compare_ok. eapply Forall_and_pairs; [|exact H]. apply pair_compare_ok.
  - apply (cmp_image SetV _ _ (slice_compare Compare)); [same_ctor|done|by apply slice_compare_ok].
  - apply (cmp_image (fun p => ArrayComprehension p.1 p.2) _ _
      (fun p q => Compare p.1 q.1 &&& slice_compare Expr_Compare p.2 q.2) (t, b));
      [same_ctor|done|].
    destruct H as [H1 H2]. apply (cmp_lex (fun p q => Compare p.1 q.1)).
    + by apply (cmp_contramap fst).
    + apply (cmp_contramap snd). by apply slice_compare_ok.
  - apply (cmp_image (fun p => ObjectComprehension p.1.1 p.1.2 p.2) _ _
      (fun p q => Compare p.1.1 q.1.1 &&& Compare p.1.2 q.1.2 &&&
                  slice_compare Expr_Compare p.2 q.2) (k, v, b));
      [same_ctor|done|].
    destruct H as (H1 & H2 & H3).
    apply (cmp_lex (fun p q => Compare p.1.1 q.1.1 &&& Compare p.1.2 q.1.2)).
    + apply (cmp_lex (fun p q => Compare p.1.1 q.1.1));
        [by apply (cmp_contramap (fun p => p.1.1))|by apply (cmp_contramap (fun p => p.1.2))].
    + apply (cmp_contramap snd). by apply slice_compare_ok.
  - apply (cmp_image (fun p => SetComprehension p.1 p.2) _ _
      (fun p q => Compare p.1 q.1 &&& slice_compare Expr_Compare p.2 q.2) (t, b));
      [same_ctor|done|].
    destruct H as [H1 H2]. apply (cmp_lex (fun p q => Compare p.1 q.1)).
    + by apply (cmp_contramap fst).
    + apply (cmp_contramap snd). by apply slice_compare_ok.
  - apply (cmp_image Call _ _ (slice_compare Compare)); [same_ctor|done|by apply slice_compare_ok].
Qed.

Lemma Terms_Compare_ok t :
  match t with
  | TTerm x => cmp_ok_at Compare x
  | TTerms l | TSome l => Forall (cmp_ok_at Compare) l
  | TEvery k v d b =>
      (forall x, k = Some x -> cmp_ok_at Compare x) /\ cmp_ok_at Compare v /\
      cmp_ok_at Compare d /\ Forall (cmp_ok_at Expr_Compare) b
  end ->
  cmp_ok_on (fun u => Z.compare (terms_sortOrder t) (terms_sortOrder u) = Eq) Terms_Compare t.
Proof.
  destruct t as [x|l|l|k v d b]; intros H.
  - by apply (cmp_image TTerm _ _ Compare); [same_ctor| |].
  - apply (cmp_image TTerms _ _ (slice_compare Compare)); [same_ctor|done|by apply slice_compare_ok].
  - apply (cmp_image TSome _ _ (slice_compare Compare)); [same_ctor|done|by apply slice_compare_ok].
  - destruct H as (H1 & H2 & H3 & H4).
    apply (cmp_image (fun p => TEvery p.1.1.1 p.1.1.2 p.1.2 p.2) _ _
      (fun p q => option_compare Compare p.1.1.1 q.1.1.1 &&& Compare p.1.1.2 q.1.1.2 &&&
         Compare p.1.2 q.1.2 &&& slice_compare Expr_Compare p.2 q.2) (k, v, d, b));
      [same_ctor|done|].
    apply (cmp_lex (fun p q => option_compare Compare p.1.1.1 q.1.1.1 &&&
                      Compare p.1.1.2 q.1.1.2 &&& Compare p.1.2 q.1.2)).
    + apply (cmp_lex (fun p q => option_compare Compare p.1.1.1 q.1.1.1 &&&
                        Compare p.1.1.2 q.1.1.2)); [|by apply (cmp_contramap (fun p => p.1.2))].
      apply (cmp_lex (fun p q => option_compare Compare p.1.1.1 q.1.1.1));
        [|by apply (cmp_contramap (fun p => p.1.1.2))].
      apply (cmp_contramap (fun p => p.1.1.1)). by apply option_compare_ok.
    + apply (cmp_contramap snd). by apply slice_compare_ok.
Qed.

Lemma Expr_Compare_ok t w i n :
  cmp_ok_on (fun u => Z.compare (terms_sortOrder t) (terms_sortOrder u) = Eq) Terms_Compare t ->
  Forall (fun kv => cmp_ok_at Compare kv.1 /\ cmp_ok_at Compare kv.2) w ->
  cmp_ok_at Expr_Compare (Expr t w i n).
Proof.
  intros Ht Hw.
  apply (cmp_image (fun p => Expr p.1.1.1 p.2 p.1.1.2 p.1.2) _ _
    (fun p q => Z.compare (terms_sortOrder p.1.1.1) (terms_sortOrder q.1.1.1) &&&
       Z.compare p.1.1.2 q.1.1.2 &&& negated_compare p.1.2 q.1.2 &&&
       Terms_Compare p.1.1.1 q.1.1.1 &&& slice_compare (pair_compare Compare) p.2 q.2)
    (t, i, n, w)).
  { intros [t' w' i' n'] _. by exists (t', i', n', w'). }
  { done. }
  apply (cmp_lex (fun p q => Z.compare (terms_sortOrder p.1.1.1) (terms_sortOrder q.1.1.1) &&&
    Z.compare p.1.1.2 q.1.1.2 &&& negated_compare p.1.2 q.1.2 &&&
    Terms_Compare p.1.1.1 q.1.1.1)).
  - apply (cmp_then_ok (fun p q => Z.compare (terms_sortOrder p.1.1.1) (terms_sortOrder q.1.1.1)
      &&& Z.compare p.1.1.2 q.1.1.2 &&& negated_compare p.1.2 q.1.2)).
    + apply (cmp_lex (fun p q => Z.compare (terms_sortOrder p.1.1.1) (terms_sortOrder q.1.1.1)
        &&& Z.compare p.1.1.2 q.1.1.2));
        [|apply (cmp_contramap (fun p => p.1.2)), negated_compare_ok].
      apply (cmp_lex (fun p q => Z.compare (terms_sortOrder p.1.1.1) (terms_sortOrder q.1.1.1))).
      * apply (cmp_contramap (fun p => terms_sortOrder p.1.1.1)), Z_compare_ok.
      * apply (cmp_contramap (fun p => p.1.1.2)), Z_compare_ok.
    + destruct Ht as [Hs Htr Hl He].
      split; intros y; [intros Hy|intros z Hy Hz..];
        apply cmp_then_eq in Hy as [[Hy _]%cmp_then_eq _];
        try apply cmp_then_eq in Hz as [[Hz _]%cmp_then_eq _];
        [by apply Hs|by apply Htr|by apply Hl|by apply He].
  - apply (cmp_contramap snd), slice_compare_ok.
    eapply Forall_and_pairs; [|exact Hw]. apply pair_compare_ok.
Qed.

Lemma Compare_ok_all :
  (forall v, cmp_ok_at Compare v) /\ (forall e, cmp_ok_at Expr_Compare e) /\
  (forall t, cmp_ok_on (fun u => Z.compare (terms_sortOrder t) (terms_sortOrder u) = Eq)
               Terms_Compare t).
Proof.
  assert (Hv : forall v, cmp_ok_on (fun y => Z.compare (sortOrder v) (sortOrder y) = Eq)
                           Compare_same v -> cmp_ok_at Compare v).
  { intros v H.
    destruct (cmp_then_ok (fun a b => Z.compare (sortOrder a) (sortOrder b)) Compare_same v)
      as [Hs Ht Hl He]; [apply (cmp_contramap sortOrder), Z_compare_ok|done|].
    split; intros y; [|intros z..]; rewrite !Compare_unfold;
      [apply Hs|apply Ht|apply Hl|apply He]. }
  apply syntax_ind; intros; try (apply Hv, Compare_same_ok; by split_ands).
  - by apply Expr_Compare_ok.
  - by apply Terms_Compare_ok.
  - by apply Terms_Compare_ok.
  - by apply Terms_Compare_ok.
  - apply Terms_Compare_ok. by split_ands.
Qed.

#[global] Instance Compare_ok : CmpOk Compare.
Proof. intros v. apply Compare_ok_all. Qed.

(** C30: [Compare] is a total order on values: it is reflexive, swapping the
    arguments negates the result, [<] is transitive, and values that compare
    equal compare alike with every third value. *)
Theorem Compare_total_order (a b c : value) :
  Compare a a = Eq /\
  Compare b a = CompOpp (Compare a b) /\
  (Compare a b = Lt -> Compare b c = Lt -> Compare a c = Lt) /\
  (Compare a b = Eq -> Compare b c = Compare a c /\ Compare c b = Compare c a).
Proof.
  split_ands.
  - apply (cmp_refl Compare).
  - apply (cmp_sym Compare).
  - apply (cmp_lt_trans Compare).
  - intros E. split; [by apply (cmp_eq_l Compare)|symmetry; by apply (cmp_eq_r Compare)].
Qed.

(** ** Hash codes *)

(** [strconv.ParseFloat(s, 64)] followed by the conversion [int(f)].  The value
    is rounded to the nearest [m * 2^e] with [m < 2^53] and [e >= -1074], ties
    to even, and is a range error when it reaches [2^1024]; the conversion
    truncates, and gives the least integer for a float that does not fit (what
    amd64 does). *)
Definition round_half_even (n d : Z) : Z :=
  let q := (n / d)%Z in
  let r := (n mod d)%Z in
  match Z.compare (2 * r) d with
  | Lt => q
  | Gt => (q + 1)%Z
  | Eq => if Z.even q then q else (q + 1)%Z
  end.

(** The magnitude of the float, [m * 2^e]. *)
Definition round_float (a d : Z) : Z * Z :=
  let e0 := (Z.log2 a - Z.log2 d - 52)%Z in
  let small := if (0 <=? e0)%Z then (a <? d * 2 ^ (e0 + 52))%Z
               else (a * 2 ^ (- e0) <? d * 2 ^ 52)%Z in
  let e := Z.max (if small then e0 - 1 else e0)%Z (-1074) in
  (if (0 <=? e)%Z then round_half_even a (d * 2 ^ e)
   else round_half_even (a * 2 ^ (- e)) d, e).

Definition ParseFloat_int (q : Q) : option Z :=
  let n := Qnum (Qred q) in
  let d := Zpos (Qden (Qred q)) in
  if (n =? 0)%Z then Some 0%Z
  else
    let '(m, e) := round_float (Z.abs n) d in
    if (0 <=? e)%Z && (2 ^ 1024 <=? m * 2 ^ e)%Z then None
    else
      let i := (Z.sgn n * (if (0 <=? e)%Z then m * 2 ^ e else m / 2 ^ (- e)))%Z in
      Some (if in_int64 i then i else (- two63)%Z).

(** The third-party xxhash functions: [ChecksumString64S] with the seed of
    [src/ast/term.go] on a string or variable name, [Checksum64] on the text of
    a number. *)
Class XXHash := {
  xxhash_string : string -> Z;
  xxhash_number : number -> Z;
}.

(** [s := 0; for _, x := range l { s += f(x) }] on 64-bit integers. *)
Section SumHash.
Context {A : Type} (f : A -> Z).
Definition sum_hash (l : list A) : Z := fold_left (fun s x => addw s (f x)) l 0%Z.
End SumHash.

Section Hash.
Context `{X : XXHash}.

Definition num_hash (n : number) : Z :=
  match ParseFloat_int (num_rat n) with
  | Some i => i
  | None => wrap64 (xxhash_number n)
  end.

(** The hash of the contents.  Arrays, sets and objects carry a hash that is
    maintained as they are built (Containers.v); it is this one as long as no key of
    an object is overwritten and a sorted array is not changed (ObjectTable.v,
    SetTable.v).  The cases of [Expr.Hash] other than the terms are added in the
    order of the source. *)
Fixpoint Hash (v : value) : Z :=
  match v with
  | Null => 0
  | Boolean b => if b then 1 else 0
  | Number n => num_hash n
  | Str s => wrap64 (xxhash_string s)
  | Var x => wrap64 (xxhash_string x)
  | Ref ts | Call ts => sum_hash Hash ts
  | Array elems => sum_hash Hash elems
  | Object kvs => sum_hash (fun kv => addw (Hash kv.1) (Hash kv.2)) kvs
  | SetV keys => sum_hash Hash keys
  | ArrayComprehension t b => addw (Hash t) (sum_hash Expr_Hash b)
  | ObjectComprehension k v b => addw (addw (Hash k) (Hash v)) (sum_hash Expr_Hash b)
  | SetComprehension t b => addw (Hash t) (sum_hash Expr_Hash b)
  end
with Expr_Hash (e : expr) : Z :=
  match e with
  | Expr ts ws i n =>
      let s := Terms_Hash ts i in
      let s := if n then addw s 1 else s in
      fold_left (fun s w => addw s (addw (Hash w.1) (Hash w.2))) ws s
  end
with Terms_Hash (t : terms) (s : Z) : Z :=
  match t with
  | TSome l => addw s (sum_hash Hash l)
  | TTerms l => fold_left (fun s t => addw s (Hash t)) l s
  | TTerm t => addw s (Hash t)
  | TEvery _ _ _ _ => s
  end.
End Hash.

(** ** Ground and constant values *)

(** The head of a reference and the operator of a call expression are not
    looked at.  ([ts[1:]] panics on an empty call, which the parser never
    builds.) *)
Fixpoint IsGround (v : value) : bool :=
  match v with
  | Null | Boolean _ | Number _ | Str _ => true
  | Var _ => false
  | Ref ts => match ts with [] => true | _ :: ts => forallb IsGround ts end
  | Array l | SetV l | Call l => forallb IsGround l
  | Object kvs => forallb (fun kv => IsGround kv.1 && IsGround kv.2) kvs
  | ArrayComprehension t b => IsGround t && forallb Expr_IsGround b
  | ObjectComprehension k v b => IsGround k && IsGround v && forallb Expr_IsGround b
  | SetComprehension t b => IsGround t && forallb Expr_IsGround b
  end
with Expr_IsGround (e : expr) : bool :=
  match e with Expr ts _ _ _ => Terms_IsGround ts end
with Terms_IsGround (t : terms) : bool :=
  match t with
  | TTerms l => match l with [] => true | _ :: l => forallb IsGround l end
  | TTerm t => IsGround t
  | TSome _ | TEvery _ _ _ _ => true
  end.

(** The visitor stops at the first variable, reference, comprehension or call,
    and otherwise walks into arrays, objects and sets. *)
Fixpoint IsConstant (v : value) : bool :=
  match v with
  | Null | Boolean _ | Number _ | Str _ => true
  | Var _ | Ref _ | ArrayComprehension _ _ | ObjectComprehension _ _ _
  | SetComprehension _ _ | Call _ => false
  | Array l | SetV l => forallb IsConstant l
  | Object kvs => forallb (fun kv => IsConstant kv.1 && IsConstant kv.2) kvs
  end.

Definition IsComprehension (v : value) : bool :=
  match v with
  | ArrayComprehension _ _ | ObjectComprehension _ _ _ | SetComprehension _ _ => true
  | _ => false
  end.

Definition IsScalar (v : value) : bool :=
  match v with Str _ | Number _ | Boolean _ | Null => true | _ => false end.

(** Every number of the value, also inside bodies, satisfies [p]. *)
Section NumsAll.
Context (p : number -> bool).
Fixpoint nums_all (v : value) : bool :=
  match v with
  | Null | Boolean _ | Str _ | Var _ => true
  | Number n => p n
  | Ref l | Array l | SetV l | Call l => forallb nums_all l
  | Object kvs => forallb (fun kv => nums_all kv.1 && nums_all kv.2) kvs
  | ArrayComprehension t b => nums_all t && forallb expr_nums_all b
  | ObjectComprehension k v b => nums_all k && nums_all v && forallb expr_nums_all b
  | SetComprehension t b => nums_all t && forallb expr_nums_all b
  end
with expr_nums_all (e : expr) : bool :=
  match e with
  | Expr ts ws _ _ => terms_nums_all ts && forallb (fun w => nums_all w.1 && nums_all w.2) ws
  end
with terms_nums_all (t : terms) : bool :=
  match t with
  | TTerm t => nums_all t
  | TTerms l | TSome l => forallb nums_all l
  | TEvery k v d b =>
      match k with Some k => nums_all k | None => true end && nums_all v && nums_all d &&
      forallb expr_nums_all b
  end.
End NumsAll.

(** A number whose float64 conversion is no range error. *)
Definition num_in_range (n : number) : bool :=
  match ParseFloat_int (num_rat n) with Some _ => true | None => false end.

(** ** Values that compare equal are indistinguishable to Hash and IsGround *)
Lemma slice_congr {A} (cmp : A -> A -> comparison) (ok : A -> bool) (R : A -> A -> Prop) l l' :
  Forall (fun a => forall b, cmp a b = Eq -> ok a = true -> ok b = true -> R a b) l ->
  slice_compare cmp l l' = Eq -> forallb ok l = true -> forallb ok l' = true -> Forall2 R l l'.
Proof.
  intros H. revert l'. induction H as [|a l Ha _ IH]; intros [|b l']; simpl; try done.
  intros [E1 E2]%cmp_then_eq [O1 O2]%andb_true_iff [O3 O4]%andb_true_iff.
  constructor; auto.
Qed.

Lemma pair_congr {A} (cmp : A -> A -> comparison) (ok : A -> bool) (R : A -> A -> Prop) l l' :
  Forall (fun p => (forall b, cmp p.1 b = Eq -> ok p.1 = true -> ok b = true -> R p.1 b) /\
                   (forall b, cmp p.2 b = Eq -> ok p.2 = true -> ok b = true -> R p.2 b)) l ->
  slice_compare (pair_compare cmp) l l' = Eq ->
  forallb (fun p => ok p.1 && ok p.2) l = true -> forallb (fun p => ok p.1 && ok p.2) l' = true ->
  Forall2 (fun p q => R p.1 q.1 /\ R p.2 q.2) l l'.
Proof.
  intros H. apply slice_congr. eapply Forall_impl; [exact H|]. intros p [H1 H2] q.
  intros [E1 E2]%cmp_then_eq [O1 O2]%andb_true_iff [O3 O4]%andb_true_iff. auto.
Qed.

Lemma fold_addw_congr {A} (f : A -> Z) l l' s :
  Forall2 (fun x y => f x = f y) l l' ->
  fold_left (fun s x => addw s (f x)) l s = fold_left (fun s x => addw s (f x)) l' s.
Proof.
  intros H. revert s. induction H as [|x y l l' E _ IH]; intros s; simpl; [done|].
  by rewrite E, IH.
Qed.

Lemma forallb_congr {A} (f : A -> bool) l l' :
  Forall2 (fun x y => f x = f y) l l' -> forallb f l = forallb f l'.
Proof. induction 1 as [|x y l l' E _ IH]; simpl; [done|]. by rewrite E, IH. Qed.

Lemma Forall2_pair_fun {A B} (f : A -> B) (g : B -> B -> B) (l l' : list (A * A)) :
  Forall2 (fun p q => f p.1 = f q.1 /\ f p.2 = f q.2) l l' ->
  Forall2 (fun p q => g (f p.1) (f p.2) = g (f q.1) (f q.2)) l l'.
Proof. intros H. eapply Forall2_impl; [exact H|]. by intros p q [-> ->]. Qed.

#[export] Hint Resolve fold_addw_congr forallb_congr Forall2_pair_fun : opa.
#[export] Hint Resolve slice_congr pair_congr : opa.

Lemma num_hash_congr `{X : XXHash} a b :
  num_compare a b = Eq -> num_in_range a = true -> num_in_range b = true ->
  num_hash a = num_hash b.
Proof.
  rewrite num_compare_rat, <- Qeq_alt. intros E%Qred_complete.
  unfold num_in_range, num_hash, ParseFloat_int. rewrite E. by destruct (_ =? _)%Z;
    [|destruct (round_float _ _); destruct (_ && _)].
Qed.

(** Split the conjunctions that [Compare] and [nums_all] reduce to. *)
Ltac split_hyps :=
  repeat match goal with
  | H : (_ &&& _) = Eq |- _ => apply cmp_then_eq in H as [? ?]
  | H : (_ && _)%bool = true |- _ => apply andb_true_iff in H as [? ?]
  | H : _ /\ _ |- _ => destruct H
  | H : Z.compare _ _ = Eq |- _ => apply Z.compare_eq_iff in H
  end.

Section HashCongr.
Context `{X : XXHash}.
Let HP (a : value) : Prop := forall b, Compare a b = Eq ->
  nums_all num_in_range a = true -> nums_all num_in_range b = true -> Hash a = Hash b.
Let HE (a : expr) : Prop := forall b, Expr_Compare a b = Eq ->
  expr_nums_all num_in_range a = true -> expr_nums_all num_in_range b = true ->
  Expr_Hash a = Expr_Hash b.
Let HT (a : terms) : Prop := forall b s, terms_sortOrder a = terms_sortOrder b ->
  Terms_Compare a b = Eq ->
  terms_nums_all num_in_range a = true -> terms_nums_all num_in_range b = true ->
  Terms_Hash a s = Terms_Hash b s.

Lemma sum_hash_congr l l' :
  Forall HP l -> slice_compare Compare l l' = Eq ->
  forallb (nums_all num_in_range) l = true -> forallb (nums_all num_in_range) l' = true ->
  forall s, fold_left (fun s x => addw s (Hash x)) l s = fold_left (fun s x => addw s (Hash x)) l' s.
Proof. intros. eapply fold_addw_congr, slice_congr; eauto. Qed.

Lemma sum_hash_congr_pairs l l' :
  Forall (fun p => HP p.1 /\ HP p.2) l -> slice_compare (pair_compare Compare) l l' = Eq ->
  forallb (fun p => nums_all num_in_range p.1 && nums_all num_in_range p.2) l = true ->
  forallb (fun p => nums_all num_in_range p.1 && nums_all num_in_range p.2) l' = true ->
  forall s, fold_left (fun s w => addw s (addw (Hash w.1) (Hash w.2))) l s =
            fold_left (fun s w => addw s (addw (Hash w.1) (Hash w.2))) l' s.
Proof.
  intros. apply (fold_addw_congr (fun w => addw (Hash w.1) (Hash w.2))).
  apply Forall2_pair_fun,
    (pair_congr Compare (nums_all num_in_range) (fun x y => Hash x = Hash y)); auto.
Qed.

Lemma sum_hash_congr_body l l' :
  Forall HE l -> slice_compare Expr_Compare l l' = Eq ->
  forallb (expr_nums_all num_in_range) l = true ->
  forallb (expr_nums_all num_in_range) l' = true ->
  sum_hash Expr_Hash l = sum_hash Expr_Hash l'.
Proof. intros. eapply fold_addw_congr, slice_congr; eauto. Qed.

Lemma Hash_congr_all : (forall v, HP v) /\ (forall e, HE e) /\ (forall t, HT t).
Proof.
  apply syntax_ind.
  - intros []; simpl; done.
  - intros b [] E; simpl in *; try done. destruct b, b0; done.
  - intros n [] E; simpl in *; try done. by apply num_hash_congr.
  - intros s [] E; simpl in *; try done. apply string_compare_eq in E. by subst.
  - intros s [] E; simpl in *; try done. apply string_compare_eq in E. by subst.
  - intros l Hl [] E; simpl in *; try done. intros. by apply sum_hash_congr.
  - intros l Hl [] E; simpl in *; try done. intros. by apply sum_hash_congr.
  - intros l Hl [] E; simpl in *; try done. intros. by apply sum_hash_congr_pairs.
  - intros l Hl [] E; simpl in *; try done. intros. by apply sum_hash_congr.
  - intros t b Ht Hb [] E; simpl in *; try done. intros. split_hyps.
    f_equal; [by apply Ht|by apply sum_hash_congr_body].
  - intros k v b Hk Hv Hb [] E; simpl in *; try done. intros. split_hyps.
    f_equal; [f_equal; [by apply Hk|by apply Hv]|by apply sum_hash_congr_body].
  - intros t b Ht Hb [] E; simpl in *; try done. intros. split_hyps.
    f_equal; [by apply Ht|by apply sum_hash_congr_body].
  - intros l Hl [] E; simpl in *; try done. intros. by apply sum_hash_congr.
  - intros t w i n Ht Hw [t' w' i' n'] E; simpl in *; intros. split_hyps. subst i'.
    assert (n = n') as -> by (by destruct n, n').
    erewrite Ht by eauto. by apply sum_hash_congr_pairs.
  - intros t Ht [] s E; simpl in *; try done. intros. f_equal. by apply Ht.
  - intros l Hl [] s E; simpl in *; try done. intros. by apply sum_hash_congr.
  - intros l Hl [] s E; simpl in *; try done. intros. f_equal. by apply sum_hash_congr.
  - intros k v d b _ _ _ _ [] s E; simpl in *; done.
Qed.
End HashCongr.

Section GroundCongr.
Let GP (a : value) : Prop := forall b, Compare a b = Eq -> IsGround a = IsGround b.
Let GE (a : expr) : Prop := forall b, Expr_Compare a b = Eq -> Expr_IsGround a = Expr_IsGround b.
Let GT (a : terms) : Prop := forall b, terms_sortOrder a = terms_sortOrder b ->
  Terms_Compare a b = Eq -> Terms_IsGround a = Terms_IsGround b.

Lemma forallb_slice_congr {A} (cmp : A -> A -> comparison) (f : A -> bool) l l' :
  Forall (fun a => forall b, cmp a b = Eq -> f a = f b) l -> slice_compare cmp l l' = Eq ->
  forallb f l = forallb f l'.
Proof.
  intros H E%slice_compare_eq_iff. apply forallb_congr.
  induction E as [|x y l l' Ex _ IH]; constructor; inversion H; subst; auto.
Qed.

(** The test on all but the head, for references and call expressions. *)
Lemma forallb_tail_congr l l' :
  Forall GP l -> slice_compare Compare l l' = Eq ->
  match l with [] => true | _ :: l => forallb IsGround l end =
  match l' with [] => true | _ :: l => forallb IsGround l end.
Proof.
  intros H. destruct l as [|x l], l' as [|y l']; simpl; try done.
  intros [_ E]%cmp_then_eq. inversion H; subst. by apply (forallb_slice_congr Compare).
Qed.

Lemma IsGround_congr_all : (forall v, GP v) /\ (forall e, GE e) /\ (forall t, GT t).
Proof.
  apply syntax_ind.
  - intros []; simpl; done.
  - intros b [] E; simpl in *; done.
  - intros n [] E; simpl in *; done.
  - intros s [] E; simpl in *; done.
  - intros s [] E; simpl in *; done.
  - intros l Hl [] E; simpl in *; try done. by apply forallb_tail_congr.
  - intros l Hl [] E; simpl in *; try done. by apply (forallb_slice_congr Compare).
  - intros l Hl [] E; simpl in *; try done. eapply forallb_slice_congr; [|exact E].
    eapply Forall_impl; [exact Hl|]. intros p [H1 H2] q [E1 E2]%cmp_then_eq.
    f_equal; auto.
  - intros l Hl [] E; simpl in *; try done. by apply (forallb_slice_congr Compare).
  - intros t b Ht Hb [] E; simpl in *; try done. split_hyps.
    f_equal; [by apply Ht|by apply (forallb_slice_congr Expr_Compare)].
  - intros k v b Hk Hv Hb [] E; simpl in *; try done. split_hyps.
    f_equal; [f_equal; [by apply Hk|by apply Hv]|by apply (forallb_slice_congr Expr_Compare)].
  - intros t b Ht Hb [] E; simpl in *; try done. split_hyps.
    f_equal; [by apply Ht|by apply (forallb_slice_congr Expr_Compare)].
  - intros l Hl [] E; simpl in *; try done. by apply (forallb_slice_congr Compare).
  - intros t w i n Ht Hw [t' w' i' n'] E; simpl in *. split_hyps. by apply Ht.
  - intros t Ht [] E; simpl in *; try done. by apply Ht.
  - intros l Hl [] E; simpl in *; try done. by apply forallb_tail_congr.
  - intros l Hl [] E; simpl in *; done.
  - intros k v d b _ _ _ _ [] E; simpl in *; done.
Qed.
End GroundCongr.

Lemma Hash_congr `{X : XXHash} a b :
  Compare a b = Eq -> nums_all num_in_range a = true -> nums_all num_in_range b = true ->
  Hash a = Hash b.
Proof. apply Hash_congr_all. Qed.

Lemma IsGround_congr a b : Compare a b = Eq -> IsGround a = IsGround b.
Proof. apply IsGround_congr_all. Qed.

(** The hash of the contents respects equality: two values that compare equal have the same
    groundness, and the same hash code as soon as no number in them overflows
    float64 (so [{"a": 1}] and [{"a": 1.0}] land in the same bucket). *)
Theorem Equal_same_Hash `{X : XXHash} (a b : value) :
  Compare a b = Eq ->
  IsGround a = IsGround b /\
  (nums_all num_in_range a = true -> nums_all num_in_range b = true -> Hash a = Hash b).
Proof. intros E. split; [by apply IsGround_congr|by apply Hash_congr]. Qed.

Definition xx_length : XXHash :=
  {| xxhash_string := fun s => Z.of_nat (String.length s); xxhash_number := fun _ => 7%Z |}.

Lemma Equal_same_Hash_witness :
  let a := Object [(Str "a", Array [Number (NInt 1); Number (NDec 25 (-1))])] in
  let b := Object [(Str "a", Array [Number (NDec 10 (-1)); Number (NDec 250 (-2))])] in
  Compare a b = Eq /\ @Hash xx_length a = @Hash xx_length b.
Proof.
  intros a b. split; [reflexivity|].
  apply (@Equal_same_Hash xx_length a b); vm_compute; reflexivity.
Defined.

(** Outside the float64 range equality and hash disagree: [1e400] and [10e399]
    are the same number, but their texts are hashed. *)
Lemma Number_Hash_out_of_range (h : number -> Z) :
  let X := {| xxhash_string := fun _ => 0%Z; xxhash_number := h |} in
  let a := NDec 1 400 in
  let b := NDec 10 399 in
  Compare (Number a) (Number b) = Eq /\
  Hash (Number a) = wrap64 (h a) /\ Hash (Number b) = wrap64 (h b).
Proof.
  intros X a b.
  assert (Ha : ParseFloat_int (num_rat a) = None) by (vm_compute; reflexivity).
  assert (Hb : ParseFloat_int (num_rat b) = None) by (vm_compute; reflexivity).
  split; [vm_compute; reflexivity|].
  clearbody a b. cbn [Hash]. unfold num_hash. by rewrite Ha, Hb.
Qed.

(** Induction on the arrays, objects and sets of a value. *)
Lemma value_composite_ind (P : value -> Prop) :
  (forall v, match v with
             | Array l | SetV l => Forall P l
             | Object kvs => Forall (fun kv => P kv.1 /\ P kv.2) kvs
             | _ => True
             end -> P v) -> forall v, P v.
Proof. intros H. apply (syntax_ind P (fun _ => True) (fun _ => True)); intros; try done; by apply H. Qed.
