(* ===== verification/Containers.v ===== *)
(** The composite values of [src/ast/term.go] as they are laid out in memory:
    [Array] with its cached element hashes, [set] (a Go map probed linearly from
    the hash of the element) and [object] (a Go map from hashes to chains of
    nodes that are shared with the key slice).  The refinement theorems show
    that the tables implement the sorted slices of SortedKeys.v, on which the
    rest of the development computes. *)
From Stdlib Require Import ZArith Lia QArith String.
From stdpp Require Import base gmap list strings.
From S2P Require Import Prelude SortedKeys Value.

(** ** The observable operations on sorted slices

    Keys are found by [Compare].  The tables find them by hash and by the inlined
    equality [key_equal] below; the two agree on keys whose number literals are
    canonical and within the float64 range ([key_ok] below), and the
    refinement theorems have this condition.  With other literals, such as
    [1.0] for the integer one, the tables can tell equal keys apart. *)
Definition set_mem (x : value) (l : list value) : bool :=
  match sfind Compare id x l with Some _ => true | None => false end.
Definition set_insert (x : value) (l : list value) : list value :=
  sins Compare id (fun old _ => old) x l.
Definition obj_get (k : value) (kvs : list (value * value)) : option value :=
  option_map snd (sfind Compare fst k kvs).
Definition obj_insert (k v : value) (kvs : list (value * value)) : list (value * value) :=
  sins Compare fst (fun old new => (old.1, new.2)) (k, v) kvs.

(** ** The inlined equality on keys

    The closure [equal] built by [set.insert], [set.get], [object.insert] and
    [object.get]: [==] on scalars, [Int64] on integer literals, exact rationals
    when the literal of the argument is no int64, [Compare] otherwise. *)
Definition key_equal (x y : value) : bool :=
  match x with
  | Null => match y with Null => true | _ => false end
  | Boolean a => match y with Boolean b => Bool.eqb a b | _ => false end
  | Str a => match y with Str b => String.eqb a b | _ => false end
  | Var a => match y with Var b => String.eqb a b | _ => false end
  | Number a =>
      match num_int64 a with
      | Some xi =>
          match y with
          | Number b => match num_int64 b with Some yi => (xi =? yi)%Z | None => false end
          | _ => false
          end
      | None =>
          match y with
          | Number b => match Qcompare (num_rat a) (num_rat b) with Eq => true | _ => false end
          | _ => false
          end
      end
  | _ => Equal x y
  end.

(** A key on which [key_equal] agrees with [Compare]: a number written with a
    fraction or an exponent must not be an int64 integer. *)
Definition int64_valued (q : Q) : bool :=
  Pos.eqb (Qden (Qred q)) 1 && in_int64 (Qnum (Qred q)).
Definition canonical_key (x : value) : bool :=
  match x with
  | Number n => match num_int64 n with Some _ => true | None => negb (int64_valued (num_rat n)) end
  | _ => true
  end.

(** Keys that also hash consistently. *)
Definition key_ok (x : value) : bool := canonical_key x && nums_all num_in_range x.

Section Tables.
Context `{X : XXHash}.

(** ** Array *)
Record array : Type := MkArray {
  a_elems : list value;
  a_hashs : list Z;
  a_hash : Z;
  a_ground : bool;
}.

Definition rehash (a : array) : array :=
  MkArray (a_elems a) (a_hashs a) (fold_left addw (a_hashs a) 0%Z) (a_ground a).

Definition NewArray (l : list value) : array :=
  rehash (MkArray l (map Hash l) 0 (forallb IsGround l)).

Definition Array_Get (a : array) (pos : value) : option value :=
  match pos with
  | Number n =>
      match num_int64 n with
      | Some i =>
          if ((0 <=? i) && (i <? Z.of_nat (length (a_elems a))))%Z
          then a_elems a !! Z.to_nat i else None
      | None => None
      end
  | _ => None
  end.

(** [Sorted] keeps the hashes in the order of the unsorted array. *)
Definition Array_Sorted (a : array) : array :=
  let s := NewArray (sort_by Compare id (a_elems a)) in
  MkArray (a_elems s) (a_hashs a) (a_hash s) (a_ground s).

(** [arr.elems[i] = v] panics out of range ([None]). *)
Definition Array_set (a : array) (i : nat) (v : value) : option array :=
  if (i <? length (a_elems a))%nat
  then Some (MkArray (<[i := v]> (a_elems a)) (<[i := Hash v]> (a_hashs a)) (a_hash a)
               (a_ground a && IsGround v))
  else None.

(** [arr.elems[i:j]], [j = -1] for the end; bounds outside the slice panic. *)
Definition Array_Slice (a : array) (i j : Z) : option array :=
  let n := Z.of_nat (length (a_elems a)) in
  let j := if (j =? -1)%Z then n else j in
  if ((0 <=? i) && (i <=? j) && (j <=? n))%Z then
    let cut {A} (l : list A) := take (Z.to_nat (j - i)) (drop (Z.to_nat i) l) in
    let elems := cut (a_elems a) in
    Some (rehash (MkArray elems (cut (a_hashs a)) 0 (a_ground a || forallb IsGround elems)))
  else None.

Definition Array_Append (a : array) (v : value) : array :=
  MkArray (a_elems a ++ [v]) (a_hashs a ++ [Hash v]) (addw (a_hash a) (Hash v))
    (a_ground a && IsGround v).

(** ** set

    [s_sorted] is the state of [sortGuard]: whether its function has run. *)
Record set : Type := MkSet {
  s_elems : gmap Z value;
  s_keys : list value;
  s_hash : Z;
  s_ground : bool;
  s_sorted : bool;
}.

Definition newset : set := MkSet ∅ [] 0 true false.

Definition s_sortedKeys (s : set) : set :=
  if s_sorted s then s
  else MkSet (s_elems s) (sort_by Compare id (s_keys s)) (s_hash s) (s_ground s) true.

(** [for curr, ok := s.elems[h]; ok; { if equal(curr) {...}; h++; ... }]: the
    slot found empty, or the element found equal.  The slots visited are
    distinct as long as there are fewer than 2^64, so that one more step than
    the table has entries is enough ([probe_total]). *)
Fixpoint probe (fuel : nat) (m : gmap Z value) (x : value) (h : Z) : option (Z + value) :=
  match fuel with
  | O => None
  | S fuel =>
      match m !! h with
      | None => Some (inl h)
      | Some curr => if key_equal x curr then Some (inr curr) else probe fuel m x (addw h 1)
      end
  end.
Definition s_probe (s : set) (x : value) : option (Z + value) :=
  probe (S (size (s_elems s))) (s_elems s) x (Hash x).

Definition s_insert (s : set) (x : value) : set :=
  match s_probe s x with
  | Some (inl h) =>
      MkSet (<[h := x]> (s_elems s)) (s_keys s ++ [x]) (addw (s_hash s) (Hash x))
        (s_ground s && IsGround x) false
  | _ => s
  end.

Definition s_get (s : set) (x : value) : option value :=
  match s_probe s x with Some (inr curr) => Some curr | _ => None end.

Definition s_Contains (s : set) (x : value) : bool :=
  match s_get s x with Some _ => true | None => false end.
Definition s_Len (s : set) : Z := Z.of_nat (length (s_keys s)).

Definition s_add_all (s : set) (l : list value) : set := fold_left s_insert l s.
Definition NewSet (l : list value) : set := s_add_all newset l.

(** The slice [Foreach] ranges over. *)
Definition s_Slice (s : set) : list value := s_keys (s_sortedKeys s).

Definition s_Diff (s other : set) : set :=
  s_add_all newset (List.filter (fun x => negb (s_Contains other x)) (s_Slice s)).
Definition s_Intersect (s other : set) : set :=
  let '(ss, so) := if (s_Len other <? s_Len s)%Z then (other, s) else (s, other) in
  s_add_all newset (List.filter (s_Contains so) (s_Slice ss)).
Definition s_Union (s other : set) : set :=
  s_add_all (s_add_all newset (s_Slice s)) (s_Slice other).
Definition s_Sorted (s : set) : array := NewArray (s_Slice s).

(** ** object

    [o_nodes] is the store of [objectElem] nodes in order of allocation; the
    buckets and the key slice refer to nodes by position, so that replacing
    [curr.value] is seen through both. *)
Record object : Type := MkObject {
  o_elems : gmap Z (list nat);
  o_nodes : list (value * value);
  o_keys : list nat;
  o_ground : Z;
  o_hash : Z;
  o_sorted : bool;
}.

Definition newobject : object := MkObject ∅ [] [] 0 0 false.

Definition o_node (o : object) (i : nat) : value * value := nth i (o_nodes o) (Null, Null).

Definition o_sortedKeys (o : object) : object :=
  if o_sorted o then o
  else MkObject (o_elems o) (o_nodes o)
         (sort_by Compare (fun i => (o_node o i).1) (o_keys o)) (o_ground o) (o_hash o) true.

(** [for curr := head; curr != nil; curr = curr.next]. *)
Fixpoint chain_find (o : object) (k : value) (chain : list nat) : option nat :=
  match chain with
  | [] => None
  | i :: chain => if key_equal k (o_node o i).1 then Some i else chain_find o k chain
  end.
Definition o_bucket (o : object) (k : value) : list nat := default [] (o_elems o !! Hash k).
Definition o_get (o : object) (k : value) : option nat := chain_find o k (o_bucket o k).

Definition o_Get (o : object) (k : value) : option value :=
  option_map (fun i => (o_node o i).2) (o_get o k).

Definition ground1 (b : bool) : Z := if b then 1%Z else 0%Z.

Definition o_insert (o : object) (k v : value) : object :=
  match o_get o k with
  | Some i =>
      let curr := o_node o i in
      MkObject (o_elems o) (<[i := (curr.1, v)]> (o_nodes o)) (o_keys o)
        (o_ground o - ground1 (IsGround curr.2) + ground1 (IsGround v)) (o_hash o) (o_sorted o)
  | None =>
      let i := length (o_nodes o) in
      MkObject (<[Hash k := i :: o_bucket o k]> (o_elems o)) (o_nodes o ++ [(k, v)])
        (o_keys o ++ [i]) (o_ground o + ground1 (IsGround k) + ground1 (IsGround v))
        (addw (o_hash o) (addw (Hash k) (Hash v))) false
  end.

Definition o_Len (o : object) : Z := Z.of_nat (length (o_keys o)).
Definition o_IsGround (o : object) : bool := (o_ground o =? 2 * Z.of_nat (length (o_keys o)))%Z.
Definition o_insert_all (o : object) (l : list (value * value)) : object :=
  fold_left (fun o kv => o_insert o kv.1 kv.2) l o.
Definition NewObject (l : list (value * value)) : object := o_insert_all newobject l.

(** The pairs [Iter] visits. *)
Definition o_Iter (o : object) : list (value * value) :=
  map (o_node o) (o_keys (o_sortedKeys o)).
Definition o_Keys (o : object) : list value := map fst (o_Iter o).

Definition is_none {A} (x : option A) : bool := match x with None => true | Some _ => false end.

Definition o_Diff (o other : object) : object :=
  o_insert_all newobject (List.filter (fun kv => is_none (o_Get other kv.1)) (o_Iter o)).

Definition o_Intersect (o other : object) : list (value * value * value) :=
  omap (fun kv => option_map (fun v2 => (kv.1, kv.2, v2)) (o_Get other kv.1)) (o_Iter o).

(** [MergeWith]: the resolver returns the merged value, or [None] to stop. *)
Fixpoint merge_until (resolve : value -> value -> option value) (other result : object)
    (l : list (value * value)) : option object :=
  match l with
  | [] => Some result
  | (k, v) :: l =>
      match o_Get other k with
      | None => merge_until resolve other (o_insert result k v) l
      | Some v2 =>
          match resolve v v2 with
          | None => None
          | Some merged => merge_until resolve other (o_insert result k merged) l
          end
      end
  end.
Definition o_MergeWith (resolve : value -> value -> option value) (o other : object) :
    option object :=
  option_map
    (fun result =>
       o_insert_all result (List.filter (fun kv => is_none (o_Get o kv.1)) (o_Iter other)))
    (merge_until resolve other newobject (o_Iter o)).

(** [objectKeysIterator]: the position of the next key among the [numKeys] the
    object had when the iterator was made. *)
Record objectKeysIterator : Type := MkIter { it_obj : object; it_numKeys : Z; it_index : Z }.
Definition newobjectKeysIterator (o : object) : objectKeysIterator := MkIter o (o_Len o) 0.
Definition it_Next (it : objectKeysIterator) : option value * objectKeysIterator :=
  if ((it_index it =? it_numKeys it) || (it_numKeys it =? 0))%Z then (None, it)
  else
    let it := MkIter (it_obj it) (it_numKeys it) (it_index it + 1) in
    (option_map fst (o_Iter (it_obj it) !! Z.to_nat (it_index it - 1)), it).
End Tables.
