(* ===== verification/SetTable.v ===== *)
(** Correctness of the hash-table [set] and of [Array] ([src/ast/term.go],
    definitions in Containers.v): probing terminates, every operation implements
    the corresponding one on the sorted slice of elements, and the cached hash
    and ground bit are those of the slice. *)
From Stdlib Require Import ZArith Lia QArith Qcanon String.
From stdpp Require Import base gmap list strings.
From S2P Require Import Prelude SortedKeys Value Containers.

(** ** The inlined key equality *)
Lemma Qred_int z : Qred (z # 1) = (z # 1)%Q.
Proof. apply Qred_identity. simpl. by rewrite Z.gcd_1_r. Qed.

Lemma int64_valued_eq n z q :
  num_int64 n = Some z -> Qeq (num_rat n) q -> int64_valued q = true.
Proof.
  destruct n as [z'|]; [|done]. simpl. destruct (in_int64 z') eqn:E; [|done].
  intros [= ->] Hq%Qred_complete. unfold int64_valued. rewrite <- Hq.
  unfold inject_Z. rewrite Qred_int. simpl. done.
Qed.

Lemma Equal_true a b : Equal a b = true <-> Compare a b = Eq.
Proof. unfold Equal. destruct (Compare a b); done. Qed.

Lemma Equal_sym a b : Equal a b = Equal b a.
Proof. unfold Equal. rewrite (cmp_sym Compare b a). by destruct (Compare b a). Qed.

Lemma Equal_trans a b c : Equal a b = true -> Equal b c = true -> Equal a c = true.
Proof. rewrite !Equal_true. apply (cmp_eq_trans Compare). Qed.
Lemma Equal_refl a : Equal a a = true.
Proof. rewrite Equal_true. apply (cmp_refl Compare). Qed.

Lemma Equal_sortOrder a b : Equal a b = true -> sortOrder a = sortOrder b.
Proof. rewrite Equal_true, Compare_unfold, cmp_then_eq. intros [H _]. by apply Z.compare_eq. Qed.

Lemma Equal_scalar s w : IsScalar s = true -> Equal s w = true -> IsScalar w = true.
Proof. intros Hs H%Equal_sortOrder. by destruct s, w. Qed.

Lemma Equal_Array ts w :
  Equal (Array ts) w = true -> exists ws, w = Array ws /\ Forall2 (fun x y => Equal x y = true) ts ws.
Proof.
  intros H. pose proof (Equal_sortOrder _ _ H) as O. destruct w; try discriminate O.
  eexists. split; [done|]. apply Equal_true in H. rewrite Compare_unfold in H. simpl in H.
  apply slice_compare_eq_iff in H. eapply Forall2_impl; [exact H|]. intros x y. apply Equal_true.
Qed.

Lemma Equal_Object kvs w :
  Equal (Object kvs) w = true ->
  exists kvs', w = Object kvs' /\
    Forall2 (fun x y => Equal x.1 y.1 = true /\ Equal x.2 y.2 = true) kvs kvs'.
Proof.
  intros H. pose proof (Equal_sortOrder _ _ H) as O. destruct w; try discriminate O.
  eexists. split; [done|]. apply Equal_true in H. rewrite Compare_unfold in H. simpl in H.
  apply slice_compare_eq_iff in H. eapply Forall2_impl; [exact H|]. intros x y.
  unfold pair_compare. rewrite cmp_then_eq, !Equal_true. done.
Qed.

Lemma Equal_cong a b c : Equal a b = true -> Equal a c = Equal b c.
Proof.
  intros H. apply eq_true_iff_eq. split; intros X; [|by eapply Equal_trans].
  rewrite Equal_sym in H. by eapply Equal_trans.
Qed.

Lemma eqb_compare a b :
  String.eqb a b = match String.compare a b with Eq => true | _ => false end.
Proof.
  destruct (String.eqb_spec a b) as [->|N].
  - by rewrite (proj2 (string_compare_eq b b) eq_refl).
  - destruct (String.compare a b) eqn:E; [|done..]. by apply string_compare_eq in E.
Qed.

Lemma key_equal_spec x y :
  canonical_key x = true -> canonical_key y = true -> key_equal x y = Equal x y.
Proof.
  destruct x as [|a|a|a|a| | | | | | | | ], y as [|b|b|b|b| | | | | | | | ];
    try done; try (by unfold key_equal; destruct (num_int64 a)).
  - by destruct a, b.
  - unfold key_equal, Equal, canonical_key. simpl. unfold num_compare.
    destruct (num_int64 a) as [i|] eqn:Ea; [|done].
    destruct (num_int64 b) as [j|] eqn:Eb.
    + intros _ _. by rewrite Z.eqb_compare.
    + intros _ Hb%negb_true_iff. destruct (Qcompare _ _) eqn:E; [|done..].
      apply Qeq_alt in E. by rewrite (int64_valued_eq _ _ _ Ea E) in Hb.
  - intros _ _. apply eqb_compare.
  - intros _ _. apply eqb_compare.
Qed.

Lemma key_ok_equal x y : key_ok x = true -> key_ok y = true -> key_equal x y = Equal x y.
Proof. intros [? _]%andb_true_iff [? _]%andb_true_iff. by apply key_equal_spec. Qed.

(** ** Sums of hashes *)
Definition Zsum (l : list Z) : Z := foldr Z.add 0%Z l.

Lemma Zsum_perm l1 l2 : l1 ≡ₚ l2 -> Zsum l1 = Zsum l2.
Proof. induction 1; simpl; lia. Qed.

Lemma Zsum_app l1 l2 : Zsum (l1 ++ l2) = (Zsum l1 + Zsum l2)%Z.
Proof. induction l1; simpl; lia. Qed.

Lemma fold_addw {A} (f : A -> Z) l s :
  in_int64 s = true ->
  fold_left (fun s x => addw s (f x)) l s = wrap64 (s + Zsum (map f l)).
Proof.
  revert s. induction l as [|x l IH]; intros s Hs; simpl.
  - by rewrite Z.add_0_r, wrap64_small.
  - rewrite IH by apply wrap64_range. unfold addw. rewrite wrap64_add_l. f_equal. lia.
Qed.

Lemma sum_hash_Zsum {A} (f : A -> Z) l : sum_hash f l = wrap64 (Zsum (map f l)).
Proof. unfold sum_hash. by rewrite fold_addw. Qed.

Lemma sum_hash_perm {A} (f : A -> Z) l1 l2 : l1 ≡ₚ l2 -> sum_hash f l1 = sum_hash f l2.
Proof. intros E. rewrite !sum_hash_Zsum. by rewrite (Zsum_perm (map f l1) (map f l2)); [|rewrite E]. Qed.

Lemma sum_hash_snoc {A} (f : A -> Z) l x : sum_hash f (l ++ [x]) = addw (sum_hash f l) (f x).
Proof. unfold sum_hash. by rewrite fold_left_app. Qed.

Lemma forallb_perm {A} (f : A -> bool) l1 l2 : l1 ≡ₚ l2 -> forallb f l1 = forallb f l2.
Proof.
  induction 1; simpl; [done|by f_equal|by destruct (f x), (f y)|congruence].
Qed.

Lemma set_elems l : forall acc y, y ∈ fold_left (fun s x => set_insert x s) l acc -> y ∈ acc \/ y ∈ l.
Proof.
  induction l as [|x l IH]; intros acc y; simpl; [by left|]. intros [H|H]%IH; [|right; by right].
  assert (G : forall acc, y ∈ set_insert x acc -> y ∈ acc \/ y = x).
  { clear. unfold set_insert. induction acc as [|z acc IH]; simpl; [intros ->%list_elem_of_singleton; by right|].
    destruct (Compare _ _); rewrite !elem_of_cons; naive_solver. }
  destruct (G acc H) as [?| ->]; [by left|right; left].
Qed.

Section SetTable.
Context `{X : XXHash}.

Lemma Hash_range v : in_int64 (Hash v) = true.
Proof.
  destruct v; simpl; rewrite ?sum_hash_Zsum; try apply wrap64_range; try done.
  - by destruct b.
  - unfold num_hash. destruct (ParseFloat_int (num_rat n)) as [i|] eqn:E; [|apply wrap64_range].
    unfold ParseFloat_int in E. destruct (_ =? 0)%Z; [by simplify_eq|].
    destruct (round_float _ _) as [m e]. destruct (_ && _); [done|].
    simplify_eq. by match goal with |- context [if in_int64 ?z then _ else _] =>
      destruct (in_int64 z) eqn:? end.
Qed.

Lemma key_ok_hash x y :
  key_ok x = true -> key_ok y = true -> Compare x y = Eq -> Hash x = Hash y.
Proof. intros [_ ?]%andb_true_iff [_ ?]%andb_true_iff ?. by apply Hash_congr. Qed.

(** ** Probing *)

(** The [i]-th slot probed from hash [h]. *)
Definition at_slot (h : Z) (i : nat) : Z := wrap64 (h + Z.of_nat i).

Lemma at_slot_0 x : at_slot (Hash x) 0 = Hash x.
Proof. unfold at_slot. rewrite Z.add_0_r. apply wrap64_small, Hash_range. Qed.

Lemma at_slot_S h i : addw (at_slot h i) 1 = at_slot h (S i).
Proof. unfold addw, at_slot. rewrite wrap64_add_l. f_equal. lia. Qed.

Lemma at_slot_inj h i j :
  (Z.of_nat i < two64)%Z -> (Z.of_nat j < two64)%Z -> at_slot h i = at_slot h j -> i = j.
Proof.
  unfold at_slot. intros Hi Hj E.
  assert (((h + Z.of_nat i) mod two64 = (h + Z.of_nat j) mod two64)%Z) as E2.
  { by rewrite <- (wrap64_mod (h + Z.of_nat i)), E, wrap64_mod. }
  assert (((h + Z.of_nat i - h) mod two64 = (h + Z.of_nat j - h) mod two64)%Z) as E3.
  { rewrite Zminus_mod, E2, <- Zminus_mod. done. }
  replace (h + Z.of_nat i - h)%Z with (Z.of_nat i) in E3 by lia.
  replace (h + Z.of_nat j - h)%Z with (Z.of_nat j) in E3 by lia.
  rewrite !Z.mod_small in E3 by lia. lia.
Qed.

Lemma probe_spec fuel m x h i :
  match probe fuel m x (at_slot h i) with
  | None => forall j, (i <= j < i + fuel)%nat -> is_Some (m !! at_slot h j)
  | Some (inl h') => exists n, (i <= n)%nat /\ h' = at_slot h n /\ m !! h' = None /\
      forall j, (i <= j < n)%nat -> exists y, m !! at_slot h j = Some y /\ key_equal x y = false
  | Some (inr c) => exists h', m !! h' = Some c /\ key_equal x c = true
  end.
Proof.
  revert i. induction fuel as [|fuel IH]; intros i; simpl; [lia|].
  destruct (m !! at_slot h i) as [y|] eqn:E.
  - destruct (key_equal x y) eqn:K; [by exists (at_slot h i)|].
    rewrite at_slot_S. specialize (IH (S i)). destruct (probe _ _ _ _) as [[h'|c]|].
    + destruct IH as (n & Hn & -> & Hnone & Hj). exists n. split_ands; [lia|done|done|].
      intros j Hij. destruct (decide (j = i)) as [->|]; [by exists y|apply Hj; lia].
    + done.
    + intros j Hij. destruct (decide (j = i)) as [->|]; [by exists y|apply IH; lia].
  - exists i. split_ands; [lia|done|done|]. intros j Hj. lia.
Qed.

(** Fewer than 2^64 entries cannot fill one slot more than there are entries. *)
Lemma probe_total m x :
  (Z.of_nat (size m) < two64)%Z -> probe (S (size m)) m x (Hash x) <> None.
Proof.
  intros Hs E. pose proof (probe_spec (S (size m)) m x (Hash x) 0) as P.
  rewrite at_slot_0, E in P.
  set (slots := map (at_slot (Hash x)) (seq 0 (S (size m)))).
  assert (Hnd : NoDup slots).
  { apply NoDup_fmap_2_strong; [|apply NoDup_seq].
    intros i j Hi%elem_of_seq Hj%elem_of_seq. apply at_slot_inj; lia. }
  assert (Hsub : list_to_set slots ⊆ dom m).
  { intros a [j [-> Hj%elem_of_seq]]%elem_of_list_to_set%list_elem_of_fmap.
    apply elem_of_dom, P. lia. }
  apply subseteq_size in Hsub. rewrite size_list_to_set, size_dom in Hsub by done.
  unfold slots in Hsub. rewrite length_map, length_seq in Hsub. lia.
Qed.

(** ** The table invariant *)
Record set_wf (s : set) : Prop := {
  sw_ok : Forall (fun x => key_ok x = true) (s_keys s);
  sw_elem : forall y, y ∈ s_keys s <-> exists h, s_elems s !! h = Some y;
  sw_size : length (s_keys s) = size (s_elems s);
  sw_distinct : distinct Compare id (s_keys s);
  sw_chain : forall h y, s_elems s !! h = Some y ->
    exists n, h = at_slot (Hash y) n /\
      forall i, (i < n)%nat -> is_Some (s_elems s !! at_slot (Hash y) i);
  sw_hash : s_hash s = sum_hash Hash (s_keys s);
  sw_ground : s_ground s = forallb IsGround (s_keys s);
  sw_sorted : s_sorted s = true -> ssorted Compare id (s_keys s);
}.

Lemma set_wf_new : set_wf newset.
Proof.
  split; simpl; [constructor| |done|constructor|intros h y Hh; by rewrite lookup_empty in Hh|done..].
  intros y. split; [by intros []%not_elem_of_nil|]. intros [h Hh]. by rewrite lookup_empty in Hh.
Qed.

Lemma s_Slice_sort s : set_wf s -> s_Slice s = sort_by Compare id (s_keys s).
Proof.
  intros W. unfold s_Slice, s_sortedKeys. destruct (s_sorted s) eqn:E; [|done].
  symmetry. apply (sort_by_id Compare id), (sw_sorted s W E).
Qed.

(** A probe for [x] finds its equal if there is one, and an empty slot at the
    end of the chain of [x] otherwise. *)
Lemma s_probe_ok s x :
  set_wf s -> key_ok x = true -> (Z.of_nat (length (s_keys s)) < two64)%Z ->
  match s_probe s x with
  | None => False
  | Some (inr c) => sfind Compare id x (s_keys s) = Some c
  | Some (inl h) => sfind Compare id x (s_keys s) = None /\ s_elems s !! h = None /\
      exists n, h = at_slot (Hash x) n /\
        forall i, (i < n)%nat -> is_Some (s_elems s !! at_slot (Hash x) i)
  end.
Proof.
  intros W Hx Hlen. rewrite (sw_size s W) in Hlen.
  pose proof (sw_ok s W) as Hok. rewrite Forall_forall in Hok.
  assert (Hin : forall h y, s_elems s !! h = Some y -> y ∈ s_keys s /\ key_ok y = true).
  { intros h y E. assert (y ∈ s_keys s) by (apply (sw_elem s W); eauto). auto. }
  pose proof (probe_total _ x Hlen) as T. unfold s_probe.
  pose proof (probe_spec (S (size (s_elems s))) (s_elems s) x (Hash x) 0) as P.
  rewrite at_slot_0 in P. destruct (probe _ _ _ _) as [[h|c]|]; [| |done].
  - destruct P as (n & _ & -> & Hnone & Hn). split_ands; [|done|].
    + apply sfind_None, Forall_forall. intros y Hy E.
      apply (sw_elem s W) in Hy as [h Hh]. destruct (Hin _ _ Hh) as [Hy Oy].
      destruct (sw_chain s W _ _ Hh) as (k & -> & Hk).
      rewrite <- (key_ok_hash x y) in Hh, Hk by done.
      destruct (decide (k < n)%nat) as [L|L].
      * destruct (Hn k ltac:(lia)) as (y' & Hy' & K). assert (y' = y) as -> by congruence.
        rewrite key_ok_equal in K by done. apply Equal_true in E. unfold id in E. congruence.
      * destruct (decide (k = n)) as [->|]; [congruence|].
        destruct (Hk n ltac:(lia)) as [z Hz]. congruence.
    + exists n. split; [done|]. intros i Hi. destruct (Hn i ltac:(lia)) as (y & -> & _). done.
  - destruct P as (h & Hh & K). destruct (Hin _ _ Hh) as [Hc Oc].
    apply (sfind_Some Compare id); [apply (sw_distinct s W)|]. split; [done|].
    apply Equal_true. by rewrite <- key_ok_equal.
Qed.

Lemma distinct_snoc {K B} (cmp : K -> K -> comparison) (key : B -> K) `{!CmpOk cmp} l b :
  distinct cmp key l -> Forall (fun c => cmp (key b) (key c) <> Eq) l ->
  distinct cmp key (l ++ [b]).
Proof.
  induction 1 as [|c l Hc _ IH]; simpl; intros Hb; [by repeat constructor|].
  apply Forall_cons in Hb as [Hbc Hb]. constructor; [|by apply IH].
  apply Forall_app. split; [done|]. constructor; [|constructor].
  intros E. by apply Hbc, (cmp_eq_sym cmp).
Qed.

Lemma set_upd_key (o b : value) : Compare (id o) (id ((fun old _ : value => old) o b)) = Eq.
Proof. apply (cmp_refl Compare). Qed.

Lemma s_insert_ok s x :
  set_wf s -> key_ok x = true -> (Z.of_nat (length (s_keys s)) < two64)%Z ->
  set_wf (s_insert s x) /\ s_Slice (s_insert s x) = set_insert x (s_Slice s).
Proof.
  intros W Hx Hlen. pose proof (s_probe_ok s x W Hx Hlen) as P. unfold s_insert.
  destruct (s_probe s x) as [[h|c]|]; [| |done].
  - destruct P as (F & Hh & n & -> & Hn).
    match goal with |- set_wf ?t /\ _ => assert (W' : set_wf t) end.
    { destruct W as [Wo We Ws Wd Wc Wh Wg _]. split; simpl.
      - apply Forall_app. by split; [|constructor].
      - intros y. rewrite elem_of_app, list_elem_of_singleton, We. split.
        + intros [[h E] | ->]; [|exists (at_slot (Hash x) n); by rewrite lookup_insert_eq].
          exists h. rewrite lookup_insert_ne; [done|congruence].
        + intros [h [[_ <-]|[_ E]]%lookup_insert_Some]; eauto.
      - rewrite length_app, map_size_insert_None by done. simpl. lia.
      - apply distinct_snoc; [apply _|done|]. by apply sfind_None.
      - assert (Hmono : forall h, is_Some (s_elems s !! h) ->
          is_Some (<[at_slot (Hash x) n := x]> (s_elems s) !! h)).
        { intros h Hs. apply lookup_insert_is_Some'. by right. }
        intros h y [[<- <-]|[_ E]]%lookup_insert_Some.
        + exists n. split; [done|]. intros i Hi. by apply Hmono, Hn.
        + destruct (Wc _ _ E) as (k & -> & Hk). exists k. split; [done|].
          intros i Hi. by apply Hmono, Hk.
      - by rewrite Wh, sum_hash_snoc.
      - rewrite Wg, forallb_app. simpl. by rewrite andb_true_r.
      - done. }
    split; [done|]. rewrite !s_Slice_sort by done. simpl.
    apply (sort_by_sins Compare id); [apply set_upd_key|apply (sw_distinct s W)|
      apply (sw_distinct _ W')|].
    intros c. unfold slot. simpl. rewrite F, elem_of_app, list_elem_of_singleton.
    apply sfind_None in F. rewrite Forall_forall in F. naive_solver.
  - split; [done|]. rewrite s_Slice_sort by done. unfold set_insert.
    symmetry. rewrite <- (sort_by_sins Compare id _ set_upd_key x (s_keys s) (s_keys s)); try done.
    1-2: apply (sw_distinct s W).
    intros d. unfold slot. simpl. rewrite P.
    pose proof (sfind_Some_1 Compare id x _ _ P) as [Hc E]. split.
    + intros Hd. destruct (Compare x d) eqn:Ed; [left|right; by split|right; by split].
      apply (distinct_eq Compare id (s_keys s)); [apply (sw_distinct s W)|done|done|].
      apply (cmp_eq_trans Compare _ x); [|done]. by apply (cmp_eq_sym Compare).
    + by intros [->|[? _]].
Qed.

Lemma s_get_ok s x :
  set_wf s -> key_ok x = true -> (Z.of_nat (length (s_keys s)) < two64)%Z ->
  s_get s x = sfind Compare id x (s_Slice s).
Proof.
  intros W Hx Hlen. pose proof (s_probe_ok s x W Hx Hlen) as P. unfold s_get.
  rewrite s_Slice_sort by done.
  rewrite (sfind_ext Compare id x (sort_by Compare id (s_keys s)) (s_keys s)).
  - destruct (s_probe s x) as [[h|c]|]; [by destruct P as [-> _]|done|done].
  - apply ssorted_distinct, sort_by_ssorted, (sw_distinct s W). apply _.
  - apply (sw_distinct s W).
  - intros b. apply elem_of_sort_by.
Qed.

Lemma s_Slice_sorted s : set_wf s -> ssorted Compare id (s_Slice s).
Proof. intros W. rewrite s_Slice_sort by done. apply sort_by_ssorted, (sw_distinct s W). apply _. Qed.

Lemma s_Slice_perm s : set_wf s -> s_Slice s ≡ₚ s_keys s.
Proof. intros W. rewrite s_Slice_sort by done. apply sort_by_perm. Qed.

Lemma s_Slice_ok s : set_wf s -> Forall (fun x => key_ok x = true) (s_Slice s).
Proof. intros W. rewrite s_Slice_perm by done. apply (sw_ok s W). Qed.

Lemma s_length_insert s x : (length (s_keys (s_insert s x)) <= S (length (s_keys s)))%nat.
Proof.
  unfold s_insert. destruct (s_probe s x) as [[h|c]|]; simpl; [|lia..].
  rewrite length_app. simpl. lia.
Qed.

Lemma s_add_all_ok l s :
  set_wf s -> Forall (fun x => key_ok x = true) l ->
  (Z.of_nat (length (s_keys s) + length l) < two64)%Z ->
  set_wf (s_add_all s l) /\
  s_Slice (s_add_all s l) = fold_left (fun acc x => set_insert x acc) l (s_Slice s) /\
  (length (s_keys (s_add_all s l)) <= length (s_keys s) + length l)%nat.
Proof.
  revert s. induction l as [|x l IH]; simpl; intros s W Hl Hlen; [split_ands; [done|done|lia]|].
  apply Forall_cons in Hl as [Hx Hl].
  destruct (s_insert_ok s x) as [W' E]; [done|done|lia|].
  pose proof (s_length_insert s x) as L.
  destruct (IH (s_insert s x) W' Hl) as (W2 & E2 & L2); [lia|].
  split_ands; [done|by rewrite E2, E|lia].
Qed.

Lemma set_mem_true x l : set_mem x l = true <-> exists y, y ∈ l /\ Compare x y = Eq.
Proof.
  unfold set_mem. destruct (sfind Compare id x l) as [c|] eqn:F.
  - split; [|done]. intros _. exists c. by apply sfind_Some_1 in F.
  - split; [done|]. intros (y & Hy & E). apply sfind_None in F.
    rewrite Forall_forall in F. by destruct (F _ Hy).
Qed.

Lemma set_mem_existsb x l : set_mem x l = existsb (Equal x) l.
Proof.
  apply eq_true_iff_eq. rewrite set_mem_true, existsb_exists.
  setoid_rewrite <- list_elem_of_In. by setoid_rewrite Equal_true.
Qed.

Lemma set_insert_ssorted x l : ssorted Compare id l -> ssorted Compare id (set_insert x l).
Proof. intros H. by apply (sins_ssorted Compare id _ set_upd_key). Qed.

Lemma set_mem_insert x y l :
  ssorted Compare id l -> set_mem x (set_insert y l) = Equal x y || set_mem x l.
Proof.
  intros Hl. unfold set_mem, set_insert.
  rewrite (sfind_sins Compare id _ set_upd_key) by done.
  unfold same_key, Equal, id. by destruct (Compare x y).
Qed.

Lemma fold_insert_sorted l : forall acc,
  ssorted Compare id acc ->
  ssorted Compare id (fold_left (fun acc x => set_insert x acc) l acc) /\
  forall x, set_mem x (fold_left (fun acc x => set_insert x acc) l acc) =
            set_mem x acc || existsb (Equal x) l.
Proof.
  induction l as [|y l IH]; simpl; intros acc Hacc.
  { split; [done|]. intros x. by rewrite orb_false_r. }
  destruct (IH (set_insert y acc)) as [H1 H2].
  { by apply sins_ssorted; [apply _|apply set_upd_key|]. }
  split; [done|]. intros x. rewrite H2, set_mem_insert by done.
  by destruct (Equal x y), (set_mem x acc).
Qed.

(** Everything a client sees of a table built by additions. *)
Lemma s_view s : set_wf s ->
  s_Len s = Z.of_nat (length (s_Slice s)) /\
  s_hash s = Hash (SetV (s_Slice s)) /\ s_ground s = IsGround (SetV (s_Slice s)).
Proof.
  intros W. pose proof (s_Slice_perm s W) as P. split_ands.
  - unfold s_Len. by rewrite P.
  - rewrite (sw_hash s W). symmetry. by apply sum_hash_perm.
  - rewrite (sw_ground s W). symmetry. by apply forallb_perm.
Qed.

Lemma s_Contains_ok s x :
  set_wf s -> key_ok x = true -> (Z.of_nat (length (s_keys s)) < two64)%Z ->
  s_Contains s x = set_mem x (s_Slice s).
Proof. intros. unfold s_Contains, set_mem. by rewrite s_get_ok. Qed.

Lemma NewSet_ok l :
  Forall (fun x => key_ok x = true) l -> (Z.of_nat (length l) < two64)%Z ->
  set_wf (NewSet l) /\ (length (s_keys (NewSet l)) <= length l)%nat /\
  forall x, key_ok x = true -> s_Contains (NewSet l) x = existsb (Equal x) l.
Proof.
  intros Hl Hlen. destruct (s_add_all_ok l newset set_wf_new Hl Hlen) as (W & E & L).
  split_ands; [done|done|]. intros x Hx.
  change (s_add_all newset l) with (NewSet l) in *.
  rewrite s_Contains_ok by (done || (simpl in L; lia)).
  rewrite E. by rewrite (proj2 (fold_insert_sorted l (s_Slice newset) ltac:(constructor))).
Qed.
End SetTable.

(** C28: The hash-table set is the mathematical set of what was added: for any
    sequence of additions of well-formed keys, [Slice] is the strictly sorted
    slice obtained by inserting them one by one, [Contains] holds exactly of
    the values equal to an added one, and [Len], [Hash] and [IsGround] are those
    of that slice, whatever the collisions on the way.  Well-formed keys have numbers
    in the range of float64, and a number that is a key is written as an integer when
    it is one: the inlined equality of the table tells [1] and [1.0] apart, depending
    on the order of insertion. *)
Theorem set_refines_slice `{X : XXHash} (l : list value) :
  Forall (fun x => key_ok x = true) l -> (Z.of_nat (length l) < two64)%Z ->
  let s := NewSet l in
  s_Slice s = fold_left (fun acc x => set_insert x acc) l [] /\
  ssorted Compare id (s_Slice s) /\
  (forall x, key_ok x = true -> s_Contains s x = existsb (Equal x) l) /\
  s_Len s = Z.of_nat (length (s_Slice s)) /\
  s_hash s = Hash (SetV (s_Slice s)) /\ s_ground s = IsGround (SetV (s_Slice s)).
Proof.
  intros Hl Hlen s. destruct (NewSet_ok l Hl Hlen) as (W & L & C).
  destruct (s_add_all_ok l newset set_wf_new Hl Hlen) as (_ & E & _).
  destruct (s_view s W) as (V1 & V2 & V3).
  split_ands; try done. by apply s_Slice_sorted.
Qed.

(** Three keys of one hash, a repeated key and a number. *)
Definition ex_keys : list value :=
  [Str "b"; Str "a"; Number (NInt 1); Str "b"; Array [Str "c"]; Null]%string.

Lemma set_refines_slice_witness :
  let s := @NewSet xx_length ex_keys in
  s_Slice s = [Null; Number (NInt 1); Str "a"; Str "b"; Array [Str "c"]]%string /\
  s_hash s = @Hash xx_length (SetV (s_Slice s)).
Proof.
  intros s. split; [vm_compute; reflexivity|].
  apply (@set_refines_slice xx_length ex_keys); [|vm_compute; reflexivity].
  repeat constructor.
Defined.

(** ** Set algebra *)
Section Algebra.
Context `{X : XXHash}.

Lemma existsb_perm {A} (f : A -> bool) l1 l2 : l1 ≡ₚ l2 -> existsb f l1 = existsb f l2.
Proof.
  induction 1; simpl; [done|by f_equal|by destruct (f x), (f y)|congruence].
Qed.

Lemma existsb_Equal_filter (p : value -> bool) x l :
  (forall y, y ∈ l -> Compare x y = Eq -> p y = p x) ->
  existsb (Equal x) (List.filter p l) = existsb (Equal x) l && p x.
Proof.
  induction l as [|y l IH]; simpl; intros Hp; [done|].
  assert (IH' := IH ltac:(intros; apply Hp; [by right|done])).
  destruct (Equal x y) eqn:E; simpl.
  - assert (p y = p x) as -> by (apply Hp; [left|by apply Equal_true]).
    destruct (p x); simpl; [by rewrite E|]. rewrite IH'. by rewrite andb_false_r.
  - destruct (p y); simpl; [by rewrite E|done].
Qed.

Lemma s_Contains_congr s x y :
  set_wf s -> key_ok x = true -> key_ok y = true ->
  (Z.of_nat (length (s_keys s)) < two64)%Z -> Compare x y = Eq ->
  s_Contains s y = s_Contains s x.
Proof.
  intros W Hx Hy Hlen E. rewrite !s_Contains_ok by done. unfold set_mem.
  by rewrite (sfind_cmp_eq Compare id x y).
Qed.

Lemma s_filter_ok s t (p : bool -> bool) :
  set_wf s -> set_wf t ->
  (Z.of_nat (length (s_keys s)) < two64)%Z -> (Z.of_nat (length (s_keys t)) < two64)%Z ->
  let r := s_add_all newset (List.filter (fun x => p (s_Contains t x)) (s_Slice s)) in
  set_wf r /\
  forall x, key_ok x = true -> s_Contains r x = s_Contains s x && p (s_Contains t x).
Proof.
  intros Ws Wt Ls Lt r.
  pose proof (s_Slice_ok s Ws) as Hok. pose proof (s_Slice_perm s Ws) as P.
  assert (Hok' : Forall (fun x => key_ok x = true)
                   (List.filter (fun x => p (s_Contains t x)) (s_Slice s))).
  { rewrite Forall_forall in Hok |- *. intros x Hx. apply Hok.
    apply list_elem_of_In in Hx. apply filter_In in Hx as [Hx _].
    by apply list_elem_of_In. }
  assert (Hle : (length (List.filter (fun x => p (s_Contains t x)) (s_Slice s)) <=
                 length (s_keys s))%nat) by (rewrite <- P; apply List.filter_length_le).
  destruct (NewSet_ok _ Hok') as (W & L & C); [lia|].
  split; [done|]. intros x Hx. change r with (NewSet (List.filter (fun x => p (s_Contains t x)) (s_Slice s))).
  rewrite C by done. rewrite (existsb_Equal_filter (fun x => p (s_Contains t x))).
  - f_equal. rewrite s_Contains_ok by done. by rewrite set_mem_existsb.
  - intros y Hy E. f_equal. apply s_Contains_congr; try done.
    rewrite Forall_forall in Hok. by apply Hok.
Qed.
End Algebra.

(** Union, intersection and difference of two sets contain what their names
    say, although [Intersect] ranges over whichever operand is smaller. *)
Theorem set_algebra `{X : XXHash} (l1 l2 : list value) (x : value) :
  Forall (fun x => key_ok x = true) l1 -> Forall (fun x => key_ok x = true) l2 ->
  (Z.of_nat (length l1 + length l2) < two64)%Z -> key_ok x = true ->
  let s := NewSet l1 in
  let t := NewSet l2 in
  s_Contains (s_Union s t) x = s_Contains s x || s_Contains t x /\
  s_Contains (s_Intersect s t) x = s_Contains s x && s_Contains t x /\
  s_Contains (s_Diff s t) x = s_Contains s x && negb (s_Contains t x).
Proof.
  intros H1 H2 Hlen Hx s t.
  destruct (NewSet_ok l1 H1) as (Ws & Ls & Cs); [lia|].
  destruct (NewSet_ok l2 H2) as (Wt & Lt & Ct); [lia|].
  fold s in Ws, Ls. fold t in Wt, Lt. clearbody s t.
  split_ands.
  - destruct (NewSet_ok (s_Slice s ++ s_Slice t)) as (Wu & Lu & Cu).
    + apply Forall_app. split; by apply s_Slice_ok.
    + rewrite length_app, !s_Slice_perm by done. lia.
    + unfold s_Union, s_add_all. rewrite <- (fold_left_app s_insert (s_Slice s) (s_Slice t)).
      unfold NewSet, s_add_all in Cu. rewrite Cu by done. rewrite existsb_app.
      rewrite !s_Contains_ok, !set_mem_existsb by (done || lia). done.
  - unfold s_Intersect. destruct (_ <? _)%Z.
    + rewrite (andb_comm (s_Contains s x)). apply (s_filter_ok t s id); done || lia.
    + apply (s_filter_ok s t id); done || lia.
  - apply (s_filter_ok s t negb); done || lia.
Qed.

Lemma set_algebra_witness :
  let s := @NewSet xx_length [Number (NInt 1); Number (NInt 2); Str "a"]%string in
  let t := @NewSet xx_length [Str "b"; Number (NInt 2)]%string in
  s_Slice (@s_Intersect xx_length s t) = [Number (NInt 2)] /\
  @s_Contains xx_length (@s_Union xx_length s t) (Str "b") = true.
Proof.
  intros s t. split; [vm_compute; reflexivity|].
  pose proof (@set_algebra xx_length [Number (NInt 1); Number (NInt 2); Str "a"]%string
    [Str "b"; Number (NInt 2)]%string (Str "b") ltac:(repeat constructor)
    ltac:(repeat constructor) ltac:(vm_compute; reflexivity) ltac:(vm_compute; reflexivity)) as A.
  fold s t in A. destruct A as [-> _]. vm_compute. reflexivity.
Defined.

Lemma covers_existsb l1 l2 :
  (forall x, x ∈ l1 -> existsb (Equal x) l2 = true) -> covers Compare id l1 l2.
Proof.
  intros H x Hx. specialize (H x Hx). apply existsb_exists in H as (y & Hy & E).
  exists y. split; [by apply list_elem_of_In|by apply Equal_true].
Qed.

Lemma existsb_Equal_refl x l : x ∈ l -> existsb (Equal x) l = true.
Proof.
  intros Hx. apply existsb_exists. exists x. split; [by apply list_elem_of_In|].
  apply Equal_true, (cmp_refl Compare).
Qed.

(** Set equality is extensional: the slices of two sets compare equal
    exactly when the sets have the same members, and then their hash codes
    agree, independently of insertion order, repetitions and collisions. *)
Theorem set_extensional `{X : XXHash} (l1 l2 : list value) :
  Forall (fun x => key_ok x = true) l1 -> Forall (fun x => key_ok x = true) l2 ->
  (Z.of_nat (length l1) < two64)%Z -> (Z.of_nat (length l2) < two64)%Z ->
  let s := NewSet l1 in
  let t := NewSet l2 in
  (Compare (SetV (s_Slice s)) (SetV (s_Slice t)) = Eq <->
   (forall x, key_ok x = true -> s_Contains s x = s_Contains t x)) /\
  (Compare (SetV (s_Slice s)) (SetV (s_Slice t)) = Eq -> s_hash s = s_hash t).
Proof.
  intros H1 H2 L1 L2 s t.
  destruct (NewSet_ok l1 H1 L1) as (Ws & Ls & _). destruct (NewSet_ok l2 H2 L2) as (Wt & Lt & _).
  fold s in Ws, Ls. fold t in Wt, Lt. clearbody s t.
  pose proof (s_Slice_ok s Ws) as Os. pose proof (s_Slice_ok t Wt) as Ot.
  rewrite Forall_forall in Os, Ot. split; [split|].
  - simpl. intros E%slice_compare_eq_iff x Hx.
    rewrite !s_Contains_ok, !set_mem_existsb by (done || lia). clear Os Ot.
    induction E as [|a b la lb Hab _ IH]; simpl; [done|]. f_equal; [|done].
    unfold Equal. by rewrite (cmp_eq_r Compare x _ _ Hab).
  - intros C. simpl. apply slice_compare_eq_iff.
    apply (ssorted_covers Compare id); try (by apply s_Slice_sorted).
    + apply covers_existsb. intros x Hx. specialize (C x (Os x Hx)).
      rewrite !s_Contains_ok, !set_mem_existsb in C by (auto || lia).
      by rewrite <- C, existsb_Equal_refl.
    + apply covers_existsb. intros x Hx. specialize (C x (Ot x Hx)).
      rewrite !s_Contains_ok, !set_mem_existsb in C by (auto || lia).
      by rewrite C, existsb_Equal_refl.
  - intros E. destruct (s_view s Ws) as (_ & -> & _). destruct (s_view t Wt) as (_ & -> & _).
    apply Hash_congr; [done|..]; simpl; apply forallb_forall; intros x Hx%list_elem_of_In.
    + by apply Os, andb_true_iff in Hx as [_ ?].
    + by apply Ot, andb_true_iff in Hx as [_ ?].
Qed.

Lemma set_extensional_witness :
  let s := @NewSet xx_length ex_keys in
  let t := @NewSet xx_length (rev ex_keys) in
  s_keys s <> s_keys t /\ s_hash s = s_hash t.
Proof.
  intros s t. split; [vm_compute; discriminate|].
  destruct (@set_extensional xx_length ex_keys (rev ex_keys) ltac:(repeat constructor)
    ltac:(repeat constructor) ltac:(vm_compute; reflexivity) ltac:(vm_compute; reflexivity))
    as [_ E].
  apply E. vm_compute. reflexivity.
Defined.

(** Outside the canonical keys the inlined equality is not symmetric: the set
    [{1.0, 1}] has two elements, [{1, 1.0}] has one. *)
Lemma set_insert_asymmetric `{X : XXHash} :
  let one := Number (NInt 1) in
  let one' := Number (NDec 10 (-1)) in
  Compare one one' = Eq /\
  s_Len (NewSet [one'; one]) = 2%Z /\ s_Len (NewSet [one; one']) = 1%Z.
Proof. intros one one'. split_ands; vm_compute; reflexivity. Qed.

(** ** Array *)
Section ArrayCache.
Context `{X : XXHash}.

(** The arrays that the constructors and the non-mutating operations produce. *)
Inductive array_built : array -> Prop :=
| ab_new l : array_built (NewArray l)
| ab_append a v : array_built a -> array_built (Array_Append a v)
| ab_slice a i j b : array_built a -> Array_Slice a i j = Some b -> array_built b.

Definition array_cache_ok (a : array) : Prop :=
  a_hashs a = map Hash (a_elems a) /\ a_hash a = Hash (Array (a_elems a)) /\
  a_ground a = IsGround (Array (a_elems a)).

Lemma rehash_hash l : fold_left addw (map Hash l) 0%Z = sum_hash Hash l.
Proof.
  unfold sum_hash. generalize 0%Z. induction l as [|x l IH]; intros s; simpl; [done|]. apply IH.
Qed.

Lemma forallb_cut {A} (f : A -> bool) n m l :
  forallb f l = true -> forallb f (take n (drop m l)) = true.
Proof.
  rewrite !forallb_forall. intros H x Hx%list_elem_of_In.
  apply H, list_elem_of_In. rewrite <- (take_drop m l), <- (take_drop n (drop m l)).
  rewrite !elem_of_app. auto.
Qed.

Lemma Array_Slice_ok a i j b :
  array_cache_ok a -> Array_Slice a i j = Some b -> array_cache_ok b.
Proof.
  intros (Hh & _ & Hg). unfold Array_Slice. destruct (_ && _); [|done]. intros [= <-].
  unfold array_cache_ok. simpl. rewrite Hh, !skipn_map, !firstn_map.
  split_ands; [done|apply rehash_hash|].
  rewrite Hg. simpl. destruct (forallb IsGround (a_elems a)) eqn:E; [|done].
  simpl. symmetry. by apply forallb_cut.
Qed.
End ArrayCache.

(** The caches of an array are right: in every array made by [NewArray],
    [Append] and [Slice], in any combination, the stored element hashes, the
    stored hash and the ground bit are those of the elements. *)
Theorem array_cache `{X : XXHash} (a : array) :
  array_built a ->
  a_hashs a = map Hash (a_elems a) /\ a_hash a = Hash (Array (a_elems a)) /\
  a_ground a = IsGround (Array (a_elems a)).
Proof.
  induction 1 as [l|a v _ (Hh & Hs & Hg)|a i j b _ IH E].
  - split_ands; [done|apply rehash_hash|done].
  - simpl. rewrite Hh, Hs, Hg. split_ands.
    + by rewrite map_app.
    + simpl. by rewrite sum_hash_snoc.
    + simpl. rewrite forallb_app. simpl. by rewrite andb_true_r.
  - by apply (Array_Slice_ok a i j).
Qed.

Definition ex_array : array :=
  @Array_Append xx_length (@NewArray xx_length [Str "aa"; Var "x"; Number (NInt 5)]%string) Null.

Lemma array_cache_witness :
  exists b, Array_Slice ex_array 2%Z (-1)%Z = Some b /\
    a_elems b = [Number (NInt 5); Null] /\ a_ground b = true /\
    a_hash b = @Hash xx_length (Array (a_elems b)).
Proof.
  eexists. split; [vm_compute; reflexivity|]. split_ands; [reflexivity|reflexivity|].
  apply (@array_cache xx_length). apply (@ab_slice xx_length ex_array 2%Z (-1)%Z).
  - apply ab_append, ab_new.
  - vm_compute. reflexivity.
Defined.

(** [Sorted] leaves the element hashes in the old order, so a slice of a sorted
    array has a hash that is not that of its elements. *)
Lemma Array_Sorted_stale_hashs `{X : XXHash} :
  exists b, Array_Slice (Array_Sorted (NewArray [Number (NInt 2); Number (NInt 1)])) 0%Z 1%Z = Some b /\
    a_elems b = [Number (NInt 1)] /\ a_hash b = 2%Z /\ Hash (Array (a_elems b)) = 1%Z.
Proof. eexists. split; [vm_compute; reflexivity|]. split_ands; vm_compute; reflexivity. Qed.
