(* ===== verification/ObjectTable.v ===== *)
(** Correctness of the hash-table [object] ([src/ast/term.go], definitions in
    Containers.v): the table and its shared nodes implement the sorted slice of
    key/value pairs, the ground counter counts, and [Diff], [Intersect],
    [MergeWith] and the key iterator compute what they promise. *)
From Stdlib Require Import ZArith Lia String.
From stdpp Require Import sorting base gmap list strings.
From S2P Require Import Prelude SortedKeys Value Containers SetTable.

(** ** Lists *)
Lemma sort_by_map {A B K} (cmp : K -> K -> comparison) (key : B -> K) (f : A -> B) l :
  map f (sort_by cmp (fun a => key (f a)) l) = sort_by cmp key (map f l).
Proof.
  induction l as [|a l IH]; simpl; [done|]. rewrite <- IH.
  generalize (sort_by cmp (fun a => key (f a)) l). intros m. clear IH.
  induction m as [|b m IH]; simpl; [done|].
  destruct (cmp (key (f a)) (key (f b))); simpl; by rewrite ?IH.
Qed.

Lemma map_nth_seq {A} (l : list A) d : map (fun i => nth i l d) (seq 0 (length l)) = l.
Proof.
  induction l as [|x l IH]; simpl; [done|]. f_equal.
  by rewrite <- seq_shift, map_map.
Qed.

Lemma distinct_perm {K B} (cmp : K -> K -> comparison) (key : B -> K) `{!CmpOk cmp} l1 l2 :
  l1 ≡ₚ l2 -> distinct cmp key l1 -> distinct cmp key l2.
Proof.
  assert (Hsym : forall a b : B, cmp (key a) (key b) <> Eq -> cmp (key b) (key a) <> Eq).
  { intros a b N E. by apply N, (cmp_eq_sym cmp). }
  induction 1 as [|x l1 l2 P IH|x y l|l1 l2 l3 _ IH1 _ IH2]; intros D; [done| | |auto].
  - inversion D as [|? ? Hx Hl]; subst. constructor; [by rewrite <- P|by apply IH].
  - inversion D as [|? ? Hx Hl]; subst. inversion Hl as [|? ? Hy Hl']; subst.
    apply Forall_cons in Hx as [Hxy Hx].
    constructor; [constructor; [by apply Hsym|done]|]. by constructor.
Qed.

Lemma distinct_lookup {K B} (cmp : K -> K -> comparison) (key : B -> K) `{!CmpOk cmp} l i j a b :
  distinct cmp key l -> l !! i = Some a -> l !! j = Some b ->
  cmp (key a) (key b) = Eq -> i = j.
Proof.
  intros D. revert i j. induction D as [|x l Hx _ IH]; intros i j Ha Hb E; [done|].
  rewrite Forall_forall in Hx. destruct i as [|i], j as [|j]; simpl in *; [done|..].
  - simplify_eq. destruct (Hx b); [by eapply list_elem_of_lookup_2|done].
  - simplify_eq. destruct (Hx a); [by eapply list_elem_of_lookup_2|].
    by apply (cmp_eq_sym cmp).
  - f_equal. by apply IH.
Qed.

Lemma Zsum_insert {A} (f : A -> Z) l i x y :
  l !! i = Some x -> Zsum (map f (<[i := y]> l)) = (Zsum (map f l) - f x + f y)%Z.
Proof.
  revert i. induction l as [|z l IH]; intros [|i] E; simpl in *; [done|done| |].
  - simplify_eq. lia.
  - rewrite (IH i E). lia.
Qed.

Section ObjectTable.
Context `{X : XXHash}.

Abbreviation kv_distinct := (distinct Compare (fst : value * value -> value)).
Abbreviation kv_sorted := (ssorted Compare (fst : value * value -> value)).

Definition kv_ground (kv : value * value) : Z := (ground1 (IsGround kv.1) + ground1 (IsGround kv.2))%Z.
Definition kv_hash (kv : value * value) : Z := addw (Hash kv.1) (Hash kv.2).

Record obj_wf (o : object) : Prop := {
  ow_ok : Forall (fun kv => key_ok kv.1 = true) (o_nodes o);
  ow_distinct : kv_distinct (o_nodes o);
  ow_keys : o_keys o ≡ₚ seq 0 (length (o_nodes o));
  ow_bucket : forall h i, i ∈ default [] (o_elems o !! h) <->
    exists kv, o_nodes o !! i = Some kv /\ Hash kv.1 = h;
  ow_ground : o_ground o = Zsum (map kv_ground (o_nodes o));
  ow_sorted : o_sorted o = true -> kv_sorted (map (o_node o) (o_keys o));
}.

Lemma o_node_lookup o i kv : o_nodes o !! i = Some kv -> o_node o i = kv.
Proof. intros E. unfold o_node. by apply nth_lookup_Some. Qed.

Lemma obj_wf_new : obj_wf newobject.
Proof.
  split; simpl; [constructor|constructor|done| |done|done].
  intros h i. rewrite lookup_empty. simpl. split; [by intros []%not_elem_of_nil|].
  by intros (kv & E & _).
Qed.

Lemma o_keys_nodes o : obj_wf o -> map (o_node o) (o_keys o) ≡ₚ o_nodes o.
Proof.
  intros W. transitivity (map (o_node o) (seq 0 (length (o_nodes o)))).
  - by apply Permutation_map, ow_keys.
  - unfold o_node. by rewrite map_nth_seq.
Qed.

(** The pairs in key order, whether or not the key slice has been sorted. *)
Lemma o_Iter_sort o : obj_wf o -> o_Iter o = sort_by Compare fst (o_nodes o).
Proof.
  intros W. pose proof (o_keys_nodes o W) as P.
  assert (D : kv_distinct (map (o_node o) (o_keys o))).
  { by apply (distinct_perm Compare fst (o_nodes o)), (ow_distinct o W). }
  transitivity (sort_by Compare fst (map (o_node o) (o_keys o))).
  - unfold o_Iter, o_sortedKeys. destruct (o_sorted o) eqn:E; simpl.
    + symmetry. apply (sort_by_id Compare fst), (ow_sorted o W E).
    + apply (sort_by_map Compare fst (o_node o)).
  - apply (ssorted_unique Compare fst).
    + apply sort_by_ssorted; [apply _|done].
    + apply sort_by_ssorted, (ow_distinct o W). apply _.
    + intros b. by rewrite !elem_of_sort_by, P.
Qed.

Lemma o_Iter_sorted o : obj_wf o -> kv_sorted (o_Iter o).
Proof. intros W. rewrite o_Iter_sort by done. apply sort_by_ssorted, (ow_distinct o W). apply _. Qed.

Lemma o_Iter_perm o : obj_wf o -> o_Iter o ≡ₚ o_nodes o.
Proof. intros W. rewrite o_Iter_sort by done. apply sort_by_perm. Qed.

Lemma sfind_Iter o k : obj_wf o -> sfind Compare fst k (o_Iter o) = sfind Compare fst k (o_nodes o).
Proof.
  intros W. apply (sfind_ext Compare fst).
  - apply ssorted_distinct, (o_Iter_sorted o W).
  - apply (ow_distinct o W).
  - intros b. by rewrite o_Iter_perm.
Qed.

(** A chain search finds the one node whose key is equal. *)
Lemma o_get_ok o k :
  obj_wf o -> key_ok k = true ->
  match o_get o k with
  | Some i => exists kv, o_nodes o !! i = Some kv /\ sfind Compare fst k (o_nodes o) = Some kv
  | None => sfind Compare fst k (o_nodes o) = None
  end.
Proof.
  intros W Hk. pose proof (ow_ok o W) as Hok. rewrite Forall_forall in Hok.
  assert (Hchain : forall chain, (forall i, i ∈ chain -> i ∈ o_bucket o k) ->
    match chain_find o k chain with
    | Some i => exists kv, o_nodes o !! i = Some kv /\ Compare k kv.1 = Eq
    | None => forall i kv, i ∈ chain -> o_nodes o !! i = Some kv -> Compare k kv.1 <> Eq
    end).
  { induction chain as [|i chain IH]; simpl; intros Hc.
    { by intros i kv []%not_elem_of_nil. }
    destruct (proj1 (ow_bucket o W (Hash k) i)) as (kv & Hi & _); [apply Hc; left|].
    rewrite (o_node_lookup o i kv Hi).
    rewrite key_ok_equal by (done || by eapply Hok, list_elem_of_lookup_2).
    destruct (Equal k kv.1) eqn:E.
    - exists kv. split; [done|by apply Equal_true].
    - assert (N : Compare k kv.1 <> Eq) by (intros N; apply Equal_true in N; congruence).
      specialize (IH ltac:(intros; apply Hc; by right)).
      destruct (chain_find o k chain); [done|].
      intros j kv' [->|Hj]%elem_of_cons Hkv; [by simplify_eq|by eapply IH]. }
  specialize (Hchain (o_bucket o k) ltac:(done)). unfold o_get.
  destruct (chain_find o k (o_bucket o k)) as [i|].
  - destruct Hchain as (kv & Hi & E). exists kv. split; [done|].
    apply (sfind_Some Compare fst); [apply (ow_distinct o W)|].
    split; [by eapply list_elem_of_lookup_2|done].
  - apply sfind_None, Forall_forall. intros kv Hkv E.
    apply list_elem_of_lookup in Hkv as [i Hi].
    apply (Hchain i kv); [|done|done]. apply (ow_bucket o W). exists kv. split; [done|].
    symmetry. apply key_ok_hash; [done| |done]. by eapply Hok, list_elem_of_lookup_2.
Qed.

Lemma o_Get_ok o k :
  obj_wf o -> key_ok k = true -> o_Get o k = obj_get k (o_Iter o).
Proof.
  intros W Hk. pose proof (o_get_ok o k W Hk) as G. unfold o_Get, obj_get.
  rewrite sfind_Iter by done. destruct (o_get o k) as [i|]; [|by rewrite G].
  destruct G as (kv & Hi & ->). simpl. by rewrite (o_node_lookup o i kv Hi).
Qed.

(** ** Insertion *)
Lemma obj_upd_key (o b : value * value) :
  Compare o.1 ((fun old new : value * value => (old.1, new.2)) o b).1 = Eq.
Proof. apply (cmp_refl Compare). Qed.

Lemma map_fst_insert (l : list (value * value)) i kv v :
  l !! i = Some kv -> map fst (<[i := (kv.1, v)]> l) = map fst l.
Proof.
  revert i. induction l as [|x l IH]; intros [|i] E; simpl in *; [done|done|by simplify_eq|].
  by rewrite IH.
Qed.

Lemma distinct_map_fst l1 l2 : map fst l1 = map fst l2 -> kv_distinct l1 -> kv_distinct l2.
Proof.
  intros E D. revert l2 E. induction D as [|x l Hx _ IH]; intros [|y l2] E; simplify_eq/=; [constructor|].
  constructor; [|by apply IH]. rewrite <- H. clear IH.
  revert l2 H0. induction Hx as [|z l Hz _ IHl]; intros [|w l2] E2; simplify_eq/=; constructor.
  - congruence.
  - by apply IHl.
Qed.

Lemma sorted_map_fst l1 l2 : map fst l1 = map fst l2 -> kv_sorted l1 -> kv_sorted l2.
Proof.
  intros E D. revert l2 E. induction D as [|x l _ IH Hx]; intros [|y l2] E; simplify_eq/=; [constructor|].
  constructor; [by apply IH|]. rewrite <- H. clear IH.
  revert l2 H0. induction Hx as [|z l Hz _ IHl]; intros [|w l2] E2; simplify_eq/=; constructor.
  - congruence.
  - by apply IHl.
Qed.

(** Replacing the value of node [i]. *)
Lemma o_replace_wf o k v i kv :
  obj_wf o -> o_nodes o !! i = Some kv -> o_get o k = Some i -> obj_wf (o_insert o k v).
Proof.
  intros W Hi G. destruct W as [Wo Wd Wk Wb Wg Ws].
  pose proof (o_node_lookup o i kv Hi) as N. unfold o_insert. rewrite G, N.
  pose proof (map_fst_insert (o_nodes o) i kv v Hi) as Hf. split; simpl.
  - rewrite Forall_forall in *. intros x Hx.
    assert (x.1 ∈ map fst (o_nodes o)) as (y & -> & Hy)%list_elem_of_fmap.
    { rewrite <- Hf. by apply list_elem_of_fmap_2. }
    by apply Wo.
  - by apply (distinct_map_fst (o_nodes o)).
  - by rewrite length_insert.
  - intros h j. rewrite Wb. destruct (decide (i = j)) as [->|Nij].
    + rewrite list_lookup_insert_eq by (by eapply lookup_lt_Some). rewrite Hi. naive_solver.
    + by rewrite list_lookup_insert_ne.
  - rewrite (Zsum_insert kv_ground _ _ kv) by done. rewrite Wg. unfold kv_ground. simpl. lia.
  - intros E. apply (sorted_map_fst (map (o_node o) (o_keys o))); [|by apply Ws].
    rewrite !map_map. apply map_ext. intros j. unfold o_node. simpl.
    rewrite <- !(map_nth fst). by rewrite Hf.
Qed.

(** Adding a node in front of its chain. *)
Lemma o_append_wf o k v :
  obj_wf o -> key_ok k = true -> o_get o k = None ->
  sfind Compare fst k (o_nodes o) = None -> obj_wf (o_insert o k v).
Proof.
  intros W Hk G F. destruct W as [Wo Wd Wk Wb Wg Ws]. unfold o_insert. rewrite G. split; simpl.
  - apply Forall_app. by split; [|constructor].
  - apply distinct_snoc; [apply _|done|]. by apply (sfind_None Compare fst).
  - rewrite length_app. simpl. rewrite Nat.add_1_r, seq_S. by rewrite Wk.
  - intros h i.
    assert (L : forall x, (o_nodes o ++ [(k, v)]) !! i = Some x <->
      o_nodes o !! i = Some x \/ (i = length (o_nodes o) /\ x = (k, v))).
    { intros x. rewrite lookup_app_Some, list_lookup_singleton_Some. split.
      - intros [?|(? & ? & <-)]; [by left|right; split; [lia|done]].
      - intros [?|[-> ->]]; [by left|right; split; [done|split; [lia|done]]]. }
    setoid_rewrite L. destruct (decide (h = Hash k)) as [->|Nh].
    + rewrite lookup_insert_eq. simpl. rewrite elem_of_cons.
      change (o_bucket o k) with (default [] (o_elems o !! Hash k)). rewrite Wb. naive_solver.
    + rewrite lookup_insert_ne by done. rewrite Wb. naive_solver.
  - rewrite map_app, Zsum_app, Wg. unfold kv_ground. simpl. lia.
  - done.
Qed.

Lemma o_insert_ok o k v :
  obj_wf o -> key_ok k = true ->
  obj_wf (o_insert o k v) /\ o_Iter (o_insert o k v) = obj_insert k v (o_Iter o).
Proof.
  intros W Hk. pose proof (o_get_ok o k W Hk) as G.
  assert (W' : obj_wf (o_insert o k v)).
  { destruct (o_get o k) as [i|] eqn:E; [|by apply o_append_wf].
    destruct G as (kv & Hi & _). by apply (o_replace_wf o k v i kv). }
  split; [done|]. rewrite !o_Iter_sort by done.
  apply (sort_by_sins Compare fst _ obj_upd_key (k, v)); [apply (ow_distinct o W)|
    apply (ow_distinct _ W')|].
  intros c. unfold slot, o_insert. simpl. destruct (o_get o k) as [i|] eqn:E; simpl.
  - destruct G as (kv & Hi & F). rewrite F, (o_node_lookup o i kv Hi).
    pose proof (sfind_Some_1 Compare fst k _ _ F) as [_ Ek]. split.
    + intros [j Hj]%list_elem_of_lookup. destruct (decide (i = j)) as [->|Nij].
      * rewrite list_lookup_insert_eq in Hj by (by eapply lookup_lt_Some). simplify_eq. by left.
      * rewrite list_lookup_insert_ne in Hj by done. right.
        split; [by eapply list_elem_of_lookup_2|]. intros Ec. destruct Nij.
        eapply (distinct_lookup Compare fst); [apply (ow_distinct o W)|done|done|].
        apply (cmp_eq_trans Compare _ k); [by apply (cmp_eq_sym Compare)|done].
    + intros [->|[[j Hj]%list_elem_of_lookup N]].
      * eapply list_elem_of_lookup_2, list_lookup_insert_eq. by eapply lookup_lt_Some.
      * apply (list_elem_of_lookup_2 _ j). rewrite list_lookup_insert_ne; [done|].
        intros <-. by simplify_eq.
  - rewrite G, elem_of_app, list_elem_of_singleton. apply sfind_None in G.
    rewrite Forall_forall in G. naive_solver.
Qed.

Lemma o_insert_all_ok l o :
  obj_wf o -> Forall (fun kv => key_ok kv.1 = true) l ->
  obj_wf (o_insert_all o l) /\
  o_Iter (o_insert_all o l) = fold_left (fun acc kv => obj_insert kv.1 kv.2 acc) l (o_Iter o).
Proof.
  revert o. induction l as [|[k v] l IH]; simpl; intros o W Hl; [done|].
  apply Forall_cons in Hl as [Hk Hl]. destruct (o_insert_ok o k v W Hk) as [W' <-].
  by apply IH.
Qed.

Lemma obj_insert_sorted k v l : kv_sorted l -> kv_sorted (obj_insert k v l).
Proof. by apply (sins_ssorted Compare fst _ obj_upd_key). Qed.

Lemma obj_get_insert k k' v l :
  kv_sorted l -> obj_get k (obj_insert k' v l) = if Equal k k' then Some v else obj_get k l.
Proof.
  intros Hl. unfold obj_get, obj_insert. rewrite (sfind_sins Compare fst _ obj_upd_key) by done.
  unfold same_key, Equal. simpl. destruct (Compare k k'); try done.
  simpl. unfold slot. simpl. by destruct (sfind Compare fst k' l).
Qed.

Lemma obj_get_congr k k' l : Compare k k' = Eq -> obj_get k l = obj_get k' l.
Proof. intros E. unfold obj_get. by rewrite (sfind_cmp_eq Compare fst k k'). Qed.

(** The value of the last pair of [l] whose key equals [k]. *)
Definition last_value (k : value) (l : list (value * value)) (d : option value) : option value :=
  fold_left (fun acc kv => if Equal k kv.1 then Some kv.2 else acc) l d.

Lemma fold_insert_kv_sorted l : forall acc, kv_sorted acc ->
  kv_sorted (fold_left (fun acc kv => obj_insert kv.1 kv.2 acc) l acc) /\
  forall k, obj_get k (fold_left (fun acc kv => obj_insert kv.1 kv.2 acc) l acc) =
            last_value k l (obj_get k acc).
Proof.
  induction l as [|kv l IH]; simpl; intros acc Hacc; [done|].
  destruct (IH (obj_insert kv.1 kv.2 acc)) as [H1 H2]; [by apply obj_insert_sorted|].
  split; [done|]. intros k. by rewrite H2, obj_get_insert.
Qed.

(** Each pair adds at most two to the ground counter. *)
Lemma ground_count l :
  (Zsum (map kv_ground l) <= 2 * Z.of_nat (length l))%Z /\
  ((Zsum (map kv_ground l) =? 2 * Z.of_nat (length l))%Z =
   forallb (fun kv => IsGround kv.1 && IsGround kv.2) l).
Proof.
  induction l as [|kv l [IH1 IH2]]; [done|]. cbn [map Zsum foldr length forallb].
  fold (Zsum (map kv_ground l)). rewrite <- IH2. clear IH2.
  set (z := Zsum (map kv_ground l)) in *. clearbody z. unfold kv_ground, ground1.
  rewrite Nat2Z.inj_succ. set (n := Z.of_nat (length l)) in *. clearbody n.
  destruct (IsGround kv.1), (IsGround kv.2); cbn [andb]; (split; [lia|]);
    repeat match goal with |- context [(?a =? ?b)%Z] => destruct (Z.eqb_spec a b) end;
    try done; lia.
Qed.

Lemma o_view o : obj_wf o ->
  o_Len o = Z.of_nat (length (o_Iter o)) /\ o_IsGround o = IsGround (Object (o_Iter o)).
Proof.
  intros W. pose proof (o_Iter_perm o W) as P. pose proof (ow_keys o W) as K.
  assert (L : length (o_keys o) = length (o_Iter o)) by (by rewrite P, K, length_seq).
  split; [unfold o_Len; by rewrite L|]. unfold o_IsGround. rewrite L, (ow_ground o W).
  simpl. rewrite <- (proj2 (ground_count (o_Iter o))). f_equal. apply Zsum_perm.
  by rewrite P.
Qed.

Lemma o_insert_hash o k v :
  obj_wf o -> key_ok k = true -> o_Get o k = None ->
  o_hash o = Hash (Object (o_Iter o)) ->
  o_hash (o_insert o k v) = Hash (Object (o_Iter (o_insert o k v))).
Proof.
  intros W Hk G Hh. destruct (o_insert_ok o k v W Hk) as [W' _].
  assert (E : o_get o k = None) by (unfold o_Get in G; by destruct (o_get o k)).
  pose proof (o_Iter_perm _ W') as P'. pose proof (o_Iter_perm _ W) as P.
  cbn [Hash] in *. rewrite (sum_hash_perm _ _ _ P'). rewrite (sum_hash_perm _ _ _ P) in Hh.
  unfold o_insert in *. rewrite E in *. simpl. by rewrite Hh, sum_hash_snoc.
Qed.

Lemma o_insert_all_hash l o :
  obj_wf o -> Forall (fun kv => key_ok kv.1 = true) l -> kv_distinct l ->
  Forall (fun kv => o_Get o kv.1 = None) l -> o_hash o = Hash (Object (o_Iter o)) ->
  o_hash (o_insert_all o l) = Hash (Object (o_Iter (o_insert_all o l))).
Proof.
  intros W Hl D. revert o W Hl. induction D as [|kv l Hkv D IH]; simpl; intros o W Hl Hn Hh; [done|].
  apply Forall_cons in Hl as [Hk Hl]. apply Forall_cons in Hn as [Hkn Hn].
  destruct (o_insert_ok o kv.1 kv.2 W Hk) as [W' E].
  apply (IH (o_insert o kv.1 kv.2)); [done|done| |by apply o_insert_hash].
  rewrite Forall_forall in *. intros kv' Hkv'.
  rewrite o_Get_ok, E, obj_get_insert by (auto using o_Iter_sorted).
  rewrite Equal_sym. destruct (Equal kv.1 kv'.1) eqn:Eq; [by apply Equal_true, Hkv in Eq|].
  rewrite <- o_Get_ok by auto. by apply Hn.
Qed.
End ObjectTable.

Lemma keys_mem k kvs : set_mem k (map fst kvs) = match obj_get k kvs with Some _ => true | None => false end.
Proof.
  unfold set_mem, obj_get. induction kvs as [|[k' v] kvs IH]; [done|]. simpl. unfold same_key in *. simpl. by destruct (Compare k k').
Qed.
Lemma last_value_found_iff k l : match last_value k l None with Some _ => true | None => false end = existsb (fun kv => Equal k kv.1) l.
Proof.
  assert (G : forall d, match last_value k l d with Some _ => true | None => false end = match d with Some _ => true | None => false end || existsb (fun kv => Equal k kv.1) l).
  { unfold last_value. induction l as [|kv l IH]; intros d; simpl; [by rewrite orb_false_r|]. rewrite IH. by destruct (Equal k kv.1), d. }
  apply (G None).
Qed.

(** C29: The hash-table object is the finite map of what was inserted: after any
    sequence of insertions [Iter] visits the pairs in strictly increasing key
    order, exactly as inserting them one by one into a sorted slice gives,
    [Get] returns the value inserted last under an equal key, [Keys] holds a key
    exactly when an equal one was inserted, [Len] and [IsGround] are right after
    replacements too, and the hash is that of the contents when no key was inserted
    twice.  Keys have numbers in range, and a number that is a key is written as an
    integer when it is one: the equality that is inlined in the table tells [1] and
    [1.0] apart. *)
Theorem object_refines_slice `{X : XXHash} (l : list (value * value)) :
  Forall (fun kv => key_ok kv.1 = true) l ->
  let o := NewObject l in
  o_Iter o = fold_left (fun acc kv => obj_insert kv.1 kv.2 acc) l [] /\
  ssorted Compare fst (o_Iter o) /\
  (forall k, key_ok k = true -> o_Get o k = last_value k l None) /\
  (forall k, set_mem k (o_Keys o) = existsb (fun kv => Equal k kv.1) l) /\
  o_Len o = Z.of_nat (length (o_Iter o)) /\
  o_IsGround o = IsGround (Object (o_Iter o)) /\
  (distinct Compare fst l -> o_hash o = Hash (Object (o_Iter o))).
Proof.
  intros Hl o. destruct (o_insert_all_ok l newobject obj_wf_new Hl) as [W E].
  change (o_insert_all newobject l) with o in *.
  destruct (o_view o W) as [V1 V2].
  destruct (fold_insert_kv_sorted l (o_Iter newobject) ltac:(constructor)) as [Hs Hg].
  split_ands; try done.
  - by rewrite E.
  - intros k Hk. rewrite o_Get_ok by done. rewrite E. apply Hg.
  - intros k. unfold o_Keys. rewrite E, keys_mem, Hg. apply last_value_found_iff.
  - intros D. apply o_insert_all_hash; try done; [apply obj_wf_new|].
    by apply Forall_forall.
Qed.

(** ** The hashes that containers carry *)
Section CachedHash.
Context `{X : XXHash}.
Abbreviation in_range := (nums_all num_in_range).

Lemma sins_Forall {B} (key : B -> value) (upd : B -> B -> B) (P : B -> Prop) b l :
  (forall o n, P o -> P n -> P (upd o n)) -> P b -> Forall P l -> Forall P (sins Compare key upd b l).
Proof.
  intros U Hb. induction 1 as [|c l Hc Hl IH]; simpl; [by constructor|]. destruct (Compare (key b) (key c)); repeat constructor; auto.
Qed.

Lemma NewSet_hash l : Forall (fun x => key_ok x = true) l -> (Z.of_nat (length l) < two64)%Z ->
  s_hash (NewSet l) = Hash (SetV (s_Slice (NewSet l))) /\ in_range (SetV (s_Slice (NewSet l))) = true.
Proof.
  intros Hl Hlen. destruct (NewSet_ok l Hl Hlen) as (W & _). split; [apply (s_view _ W)|].
  destruct (s_add_all_ok l newset set_wf_new Hl Hlen) as (_ & E & _). change (s_add_all newset l) with (NewSet l) in E. rewrite E. simpl. apply forallb_Forall.
  assert (F : Forall (fun x => in_range x = true) (s_Slice newset)) by constructor. revert F. generalize (s_Slice newset). clear -Hl.
  induction Hl as [|x l Hx _ IH]; intros acc F; simpl; [exact F|]. apply IH.
  apply sins_Forall; [done|by apply andb_true_iff in Hx as [_ ?]|done].
Qed.

Lemma NewObject_hash l : Forall (fun kv => key_ok kv.1 = true /\ in_range kv.2 = true) l -> distinct Compare fst l ->
  o_hash (NewObject l) = Hash (Object (o_Iter (NewObject l))) /\ in_range (Object (o_Iter (NewObject l))) = true.
Proof.
  intros Hl D. assert (Hk : Forall (fun kv => key_ok kv.1 = true) l) by (eapply Forall_impl; [exact Hl|]; by intros kv [? _]).
  split; [apply o_insert_all_hash; try done; [apply obj_wf_new|by apply Forall_forall]|].
  destruct (o_insert_all_ok l newobject obj_wf_new Hk) as [_ E]. change (o_insert_all newobject l) with (NewObject l) in E. rewrite E. simpl. apply forallb_Forall.
  assert (F : Forall (fun kv => in_range kv.1 = true /\ in_range kv.2 = true) (o_Iter newobject)) by constructor. revert F. generalize (o_Iter newobject). clear -Hl.
  induction Hl as [|kv l [Hk Hv] _ IH]; intros acc F; simpl; [eapply Forall_impl; [exact F|]; by intros x [-> ->]|]. apply IH.
  apply sins_Forall; [by intros o n [? _] [_ ?]|by apply andb_true_iff in Hk as [_ ?]|done].
Qed.
End CachedHash.

(** C31: Containers that are equal carry the same hash, whatever the order in which
    they were built: arrays made by [NewArray], [Append] and [Slice], sets made by
    additions, and objects made by insertions of different keys.  Numbers are in the
    range of float64, and number keys that are integers are written as such.  (After
    the value of a key of an object is replaced this fails, see [object_stale_hash].) *)
Theorem cached_hashes_agree `{X : XXHash} :
  (forall a b, array_built a -> array_built b ->
     nums_all num_in_range (Array (a_elems a)) = true -> nums_all num_in_range (Array (a_elems b)) = true ->
     Compare (Array (a_elems a)) (Array (a_elems b)) = Eq -> a_hash a = a_hash b) /\
  (forall l l', Forall (fun x => key_ok x = true) l -> Forall (fun x => key_ok x = true) l' ->
     (Z.of_nat (length l) < two64)%Z -> (Z.of_nat (length l') < two64)%Z ->
     Compare (SetV (s_Slice (NewSet l))) (SetV (s_Slice (NewSet l'))) = Eq -> s_hash (NewSet l) = s_hash (NewSet l')) /\
  (forall l l', Forall (fun kv => key_ok kv.1 = true /\ nums_all num_in_range kv.2 = true) l ->
     Forall (fun kv => key_ok kv.1 = true /\ nums_all num_in_range kv.2 = true) l' ->
     distinct Compare fst l -> distinct Compare fst l' ->
     Compare (Object (o_Iter (NewObject l))) (Object (o_Iter (NewObject l'))) = Eq -> o_hash (NewObject l) = o_hash (NewObject l')).
Proof.
  split_ands.
  - intros a b Ha Hb Ra Rb E. destruct (array_cache a Ha) as (_ & -> & _), (array_cache b Hb) as (_ & -> & _). by apply Hash_congr.
  - intros l l' Hl Hl' N N' E. destruct (NewSet_hash l Hl N) as [-> R], (NewSet_hash l' Hl' N') as [-> R']. by apply Hash_congr.
  - intros l l' Hl Hl' D D' E. destruct (NewObject_hash l Hl D) as [-> R], (NewObject_hash l' Hl' D') as [-> R']. by apply Hash_congr.
Qed.

Definition ex_pairs : list (value * value) :=
  [(Str "b", Var "x"); (Str "a", Number (NInt 1)); (Number (NInt 3), Null);
   (Str "b", Boolean true)]%string.

Lemma object_refines_slice_witness :
  let o := @NewObject xx_length ex_pairs in
  o_Iter o = [(Number (NInt 3), Null); (Str "a", Number (NInt 1)); (Str "b", Boolean true)]%string /\
  @o_Get xx_length o (Str "b") = Some (Boolean true) /\ o_IsGround o = true.
Proof.
  intros o.
  pose proof (@object_refines_slice xx_length ex_pairs ltac:(repeat constructor))
    as (E & _ & G & _ & _ & R & _).
  fold o in E, G, R. rewrite R, E, G by reflexivity. split_ands; vm_compute; reflexivity.
Defined.

(** Replacing a value leaves the hash of the old one: [{"a": 1}] updated to
    [{"a": 2}] equals [{"a": 2}] but hashes differently. *)
Lemma object_stale_hash `{X : XXHash} :
  let a := Str "a"%string in
  let o := NewObject [(a, Number (NInt 1)); (a, Number (NInt 2))] in
  let o' := NewObject [(a, Number (NInt 2))] in
  Compare (Object (o_Iter o)) (Object (o_Iter o')) = Eq /\
  o_hash o = addw (Hash a) 1 /\ o_hash o' = addw (Hash a) 2.
Proof.
  intros a o o'. pose proof (Hash_range a) as R.
  assert (S : o_insert newobject a (Number (NInt 1)) =
    MkObject (<[Hash a := [0%nat]]> ∅) [(a, Number (NInt 1))] [0%nat] 2
      (addw 0 (addw (Hash a) 1)) false) by (unfold o_insert, o_get, o_bucket; simpl;
        by rewrite lookup_empty).
  assert (G : o_get (o_insert newobject a (Number (NInt 1))) a = Some 0%nat).
  { rewrite S. unfold o_get, o_bucket. simpl. by rewrite lookup_insert_eq. }
  unfold o, o', NewObject, o_insert_all. simpl.
  split_ands.
  - unfold o_insert at 1. rewrite G. by rewrite S.
  - unfold o_insert at 1. rewrite G, S. simpl. unfold addw. by rewrite wrap64_add_r.
  - unfold o_insert, o_get, o_bucket. simpl. rewrite lookup_empty. simpl. unfold addw.
    by rewrite wrap64_add_r.
Qed.

(** ** Operations on two objects *)
Section Pairs.
Context `{X : XXHash}.

Lemma last_value_distinct k l d :
  distinct Compare fst l ->
  last_value k l d = match sfind Compare fst k l with Some kv => Some kv.2 | None => d end.
Proof.
  intros D. revert d. induction D as [|kv l Hkv D IH]; intros d; simpl; [done|].
  rewrite IH. unfold same_key, Equal. destruct (Compare k kv.1) eqn:E; try done.
  assert (F : sfind Compare fst k l = None).
  { apply sfind_None. eapply Forall_impl; [exact Hkv|]. intros c Hc Ec. apply Hc.
    apply (cmp_eq_trans Compare _ k); [by apply (cmp_eq_sym Compare)|done]. }
  by rewrite F.
Qed.

Lemma distinct_filter (p : value * value -> bool) l :
  distinct Compare fst l -> distinct Compare fst (List.filter p l).
Proof.
  induction 1 as [|kv l Hkv _ IH]; simpl; [constructor|]. destruct (p kv); [|done].
  constructor; [|done]. rewrite Forall_forall in *.
  intros x Hx%list_elem_of_In%filter_In. by apply Hkv, list_elem_of_In, Hx.
Qed.

Lemma sfind_filter (p : value * value -> bool) k l :
  distinct Compare fst l ->
  sfind Compare fst k (List.filter p l) =
    match sfind Compare fst k l with
    | Some kv => if p kv then Some kv else None
    | None => None
    end.
Proof.
  intros D. pose proof (distinct_filter p l D) as D'.
  destruct (sfind Compare fst k (List.filter p l)) as [kv|] eqn:F; symmetry.
  - apply sfind_Some_1 in F as [[Hkv Hp]%list_elem_of_In%filter_In E].
    assert (sfind Compare fst k l = Some kv) as ->.
    { apply sfind_Some; [apply _|done|]. split; [by apply list_elem_of_In|done]. }
    by rewrite Hp.
  - destruct (sfind Compare fst k l) as [kv|] eqn:G; [|done].
    destruct (p kv) eqn:Hp; [|done]. apply sfind_Some_1 in G as [Hkv E].
    apply sfind_None in F. rewrite Forall_forall in F. destruct (F kv); [|done].
    apply list_elem_of_In, filter_In. split; [by apply list_elem_of_In|done].
Qed.

Lemma o_Iter_ok o : obj_wf o -> Forall (fun kv => key_ok kv.1 = true) (o_Iter o).
Proof. intros W. rewrite o_Iter_perm by done. apply (ow_ok o W). Qed.

Lemma o_Iter_distinct o : obj_wf o -> distinct Compare fst (o_Iter o).
Proof. intros W. apply ssorted_distinct, (o_Iter_sorted o W). Qed.

Lemma o_Get_congr o k k' :
  obj_wf o -> key_ok k = true -> key_ok k' = true -> Compare k k' = Eq -> o_Get o k = o_Get o k'.
Proof. intros. rewrite !o_Get_ok by done. by apply obj_get_congr. Qed.

Lemma Forall_filter_key (p : value * value -> bool) l :
  Forall (fun kv => key_ok kv.1 = true) l ->
  Forall (fun kv => key_ok kv.1 = true) (List.filter p l).
Proof.
  rewrite !Forall_forall. intros H x [Hx _]%list_elem_of_In%filter_In.
  by apply H, list_elem_of_In.
Qed.

(** Adding to [r] the pairs of [src] whose key is absent from [o]. *)
Lemma o_add_missing r o src k :
  obj_wf r -> obj_wf o -> obj_wf src -> key_ok k = true ->
  let r' := o_insert_all r (List.filter (fun kv => is_none (o_Get o kv.1)) (o_Iter src)) in
  obj_wf r' /\
  o_Get r' k = match o_Get o k, o_Get src k with
               | None, Some v => Some v
               | _, _ => o_Get r k
               end.
Proof.
  intros Wr Wo Ws Hk r'.
  pose proof (Forall_filter_key (fun kv => is_none (o_Get o kv.1)) _ (o_Iter_ok src Ws)) as Hl.
  destruct (o_insert_all_ok _ r Wr Hl) as [W' E]. split; [done|].
  rewrite (o_Get_ok r') by done. unfold r'. rewrite E.
  rewrite (proj2 (fold_insert_kv_sorted _ (o_Iter r) (o_Iter_sorted r Wr))).
  rewrite last_value_distinct by (by apply distinct_filter, o_Iter_distinct).
  rewrite sfind_filter by (by apply o_Iter_distinct).
  rewrite (o_Get_ok src), <- (o_Get_ok r) by done. unfold obj_get.
  destruct (sfind Compare fst k (o_Iter src)) as [kv|] eqn:F; simpl; [|by destruct (o_Get o k)].
  apply sfind_Some_1 in F as [Hkv Ek].
  pose proof (o_Iter_ok src Ws) as Hok. rewrite Forall_forall in Hok.
  rewrite (o_Get_congr o k kv.1) by auto. by destruct (o_Get o kv.1).
Qed.

Lemma merge_until_ok resolve other l : forall res,
  obj_wf other -> obj_wf res -> distinct Compare fst l ->
  Forall (fun kv => key_ok kv.1 = true) l ->
  match merge_until resolve other res l with
  | Some r => obj_wf r /\
      (forall kv v2, kv ∈ l -> o_Get other kv.1 = Some v2 -> resolve kv.2 v2 <> None) /\
      forall k, key_ok k = true ->
        o_Get r k = match sfind Compare fst k l with
                    | None => o_Get res k
                    | Some kv => match o_Get other k with
                                 | None => Some kv.2
                                 | Some v2 => resolve kv.2 v2
                                 end
                    end
  | None => exists kv v2, kv ∈ l /\ o_Get other kv.1 = Some v2 /\ resolve kv.2 v2 = None
  end.
Proof.
  induction l as [|[k v] l IH]; simpl; intros res Wo Wr D Hl.
  { split_ands; [done|by intros kv v2 []%not_elem_of_nil|done]. }
  apply Forall_cons in Hl as [Hk Hl]. inversion D as [|? ? Hkl D']; subst. simpl in *.
  assert (Step : forall m, (forall v2, o_Get other k = Some v2 -> resolve v v2 = Some m) ->
    (o_Get other k = None -> m = v) ->
    match merge_until resolve other (o_insert res k m) l with
    | Some r => obj_wf r /\
        (forall kv v2, kv ∈ (k, v) :: l -> o_Get other kv.1 = Some v2 -> resolve kv.2 v2 <> None) /\
        forall k', key_ok k' = true -> o_Get r k' =
          match (if same_key Compare fst k' (k, v) then Some (k, v) else sfind Compare fst k' l) with
          | None => o_Get res k'
          | Some kv => match o_Get other k' with None => Some kv.2 | Some v2 => resolve kv.2 v2 end
          end
    | None => exists kv v2, kv ∈ (k, v) :: l /\ o_Get other kv.1 = Some v2 /\ resolve kv.2 v2 = None
    end).
  { intros m Hm1 Hm2. destruct (o_insert_ok res k m Wr Hk) as [W' E'].
    specialize (IH (o_insert res k m) Wo W' D' Hl).
    destruct (merge_until resolve other (o_insert res k m) l) as [r|].
    - destruct IH as (W & C & G). split_ands; [done| |].
      + intros kv v2 [->|Hkv]%elem_of_cons Hv2; [simpl; by rewrite (Hm1 v2 Hv2)|by apply (C kv v2)].
      + intros k' Hk'. rewrite G by done. rewrite (o_Get_ok (o_insert res k m)), E' by done.
        rewrite obj_get_insert, <- (o_Get_ok res) by (done || by apply o_Iter_sorted).
        unfold same_key, Equal. simpl. destruct (Compare k' k) eqn:Ek; try done.
        assert (F : sfind Compare fst k' l = None).
        { apply sfind_None. eapply Forall_impl; [exact Hkl|]. intros c Hc Ec. apply Hc.
          apply (cmp_eq_trans Compare _ k'); [by apply (cmp_eq_sym Compare)|done]. }
        rewrite F, (o_Get_congr other k' k) by done.
        destruct (o_Get other k) as [v2|] eqn:GO; simpl; [by rewrite (Hm1 v2)|by rewrite Hm2].
    - destruct IH as (kv & v2 & Hkv & ?). exists kv, v2. split; [by right|done]. }
  destruct (o_Get other k) as [v2|] eqn:G; [|by apply Step].
  destruct (resolve v v2) as [m|] eqn:R.
  - apply Step; [|done]. intros v2' [= <-]. done.
  - exists (k, v), v2. split_ands; [left|done|done].
Qed.
End Pairs.

Lemma NewObject_wf `{X : XXHash} l :
  Forall (fun kv => key_ok kv.1 = true) l -> obj_wf (NewObject l).
Proof. apply o_insert_all_ok, obj_wf_new. Qed.

(** [MergeWith] computes the merge of two objects: it fails exactly when the
    resolver gives up on some key both objects have, and otherwise a key present
    in one object keeps its value while a key present in both gets the resolved
    value, always resolving the receiver's value against the argument's. *)
Theorem object_MergeWith `{X : XXHash} (l1 l2 : list (value * value))
    (resolve : value -> value -> option value) :
  Forall (fun kv => key_ok kv.1 = true) l1 -> Forall (fun kv => key_ok kv.1 = true) l2 ->
  let o := NewObject l1 in
  let other := NewObject l2 in
  match o_MergeWith resolve o other with
  | Some r => forall k, key_ok k = true ->
      match o_Get o k, o_Get other k with
      | Some v, Some v2 => resolve v v2 <> None /\ o_Get r k = resolve v v2
      | Some v, None | None, Some v => o_Get r k = Some v
      | None, None => o_Get r k = None
      end
  | None => exists k v v2, key_ok k = true /\ o_Get o k = Some v /\ o_Get other k = Some v2 /\
      resolve v v2 = None
  end.
Proof.
  intros H1 H2 o other.
  pose proof (NewObject_wf l1 H1) as Wo. pose proof (NewObject_wf l2 H2) as Wt.
  fold o in Wo. fold other in Wt. clearbody o other. unfold o_MergeWith.
  pose proof (o_Iter_ok o Wo) as Ho.
  pose proof (merge_until_ok resolve other (o_Iter o) newobject Wt obj_wf_new
    (o_Iter_distinct o Wo) Ho) as M.
  rewrite Forall_forall in Ho.
  assert (Hget : forall kv, kv ∈ o_Iter o -> o_Get o kv.1 = Some kv.2).
  { intros kv Hkv. rewrite o_Get_ok by auto. unfold obj_get.
    rewrite (proj2 (sfind_Some Compare fst kv.1 _ kv (o_Iter_distinct o Wo))); [done|].
    split; [done|apply (cmp_refl Compare)]. }
  destruct (merge_until resolve other newobject (o_Iter o)) as [r|]; simpl.
  - destruct M as (Wr & C & G). intros k Hk.
    destruct (o_add_missing r o other k Wr Wo Wt Hk) as [_ ->]. rewrite (G k Hk).
    rewrite (o_Get_ok o) by done. unfold obj_get.
    destruct (sfind Compare fst k (o_Iter o)) as [kv|] eqn:F; simpl.
    + apply sfind_Some_1 in F as [Hkv E]. destruct (o_Get other k) as [v2|] eqn:Gt; [|done].
      split; [|done]. apply (C kv v2 Hkv). by rewrite <- (o_Get_congr other k kv.1) by auto.
    + by destruct (o_Get other k).
  - destruct M as (kv & v2 & Hkv & Gt & R). exists kv.1, kv.2, v2. split_ands; auto.
Qed.

Lemma object_MergeWith_witness :
  let o := @NewObject xx_length [(Str "a", Number (NInt 1)); (Str "b", Null)]%string in
  let other := @NewObject xx_length [(Str "a", Number (NInt 2)); (Str "c", Null)]%string in
  exists r, @o_MergeWith xx_length (fun a _ => Some a) o other = Some r /\
    @o_Get xx_length r (Str "a") = Some (Number (NInt 1)).
Proof.
  intros o other.
  pose proof (@object_MergeWith xx_length [(Str "a", Number (NInt 1)); (Str "b", Null)]%string
    [(Str "a", Number (NInt 2)); (Str "c", Null)]%string (fun a _ => Some a)
    ltac:(repeat constructor) ltac:(repeat constructor)) as M.
  fold o other in M. cbv zeta in M.
  destruct (@o_MergeWith xx_length (fun a _ => Some a) o other) as [r|] eqn:E.
  - exists r. split; [reflexivity|]. specialize (M (Str "a") eq_refl).
    destruct (@o_Get xx_length o (Str "a")) as [v|] eqn:G1; [|vm_compute in G1; discriminate G1].
    destruct (@o_Get xx_length other (Str "a")) as [v2|] eqn:G2; [|vm_compute in G2; discriminate G2].
    destruct M as [_ ->]. rewrite <- G1. vm_compute. reflexivity.
  - vm_compute in E. discriminate E.
Defined.

(** [Diff] keeps the pairs whose key the other object lacks, and [Intersect]
    lists, in key order, each common key with both values. *)
Theorem object_Diff_Intersect `{X : XXHash} (l1 l2 : list (value * value)) :
  Forall (fun kv => key_ok kv.1 = true) l1 -> Forall (fun kv => key_ok kv.1 = true) l2 ->
  let o := NewObject l1 in
  let other := NewObject l2 in
  (forall k, key_ok k = true ->
     o_Get (o_Diff o other) k = match o_Get other k with None => o_Get o k | Some _ => None end) /\
  StronglySorted (fun a b => Compare a.1.1 b.1.1 = Lt) (o_Intersect o other) /\
  (forall k v v2, (k, v, v2) ∈ o_Intersect o other <->
     (k, v) ∈ o_Iter o /\ o_Get other k = Some v2).
Proof.
  intros H1 H2 o other.
  pose proof (NewObject_wf l1 H1) as Wo. pose proof (NewObject_wf l2 H2) as Wt.
  fold o in Wo. fold other in Wt. clearbody o other. split_ands.
  - intros k Hk. destruct (o_add_missing newobject other o k obj_wf_new Wt Wo Hk) as [_ E].
    unfold o_Diff. rewrite E. change (o_Get newobject k) with (@None value).
    by destruct (o_Get other k), (o_Get o k).
  - unfold o_Intersect. pose proof (o_Iter_sorted o Wo) as S.
    induction S as [|kv l S IH Hkv]; simpl; [constructor|].
    destruct (o_Get other kv.1) as [v2|]; simpl; [|done]. constructor; [done|].
    rewrite Forall_forall in Hkv. apply Forall_forall. intros x Hx.
    apply list_elem_of_omap in Hx as (kv' & Hkv' & E).
    destruct (o_Get other kv'.1); simplify_eq/=. by apply Hkv.
  - intros k v v2. unfold o_Intersect. rewrite list_elem_of_omap. split.
    + intros ([k' v'] & Hkv & E). simpl in E. destruct (o_Get other k') eqn:G; simplify_eq/=. done.
    + intros [Hkv G]. exists (k, v). simpl. by rewrite G.
Qed.

Lemma object_Diff_Intersect_witness :
  let o := @NewObject xx_length [(Str "a", Number (NInt 1)); (Str "b", Null)]%string in
  let other := @NewObject xx_length [(Str "b", Number (NInt 2))]%string in
  @o_Get xx_length (@o_Diff xx_length o other) (Str "b") = None /\
  @o_Intersect xx_length o other = [(Str "b", Null, Number (NInt 2))]%string.
Proof.
  intros o other.
  pose proof (@object_Diff_Intersect xx_length [(Str "a", Number (NInt 1)); (Str "b", Null)]%string
    [(Str "b", Number (NInt 2))]%string ltac:(repeat constructor) ltac:(repeat constructor))
    as [D _].
  fold o other in D. rewrite (D (Str "b") eq_refl). split; vm_compute; reflexivity.
Defined.

(** [for k, ok := it.Next(); ok; k, ok = it.Next()], at most [n] times. *)
Fixpoint it_run (n : nat) (it : objectKeysIterator) : list value :=
  match n with
  | O => []
  | S n =>
      match it_Next it with
      | (Some k, it) => k :: it_run n it
      | (None, _) => []
      end
  end.

Lemma it_run_drop `{X : XXHash} n o i :
  obj_wf o -> (i <= length (o_Iter o))%nat ->
  it_run n (MkIter o (o_Len o) (Z.of_nat i)) = take n (drop i (o_Keys o)).
Proof.
  intros W. destruct (o_view o W) as [Hlen _]. revert i.
  induction n as [|n IH]; intros i Hi; [done|]. cbn [it_run]. unfold it_Next.
  cbn [it_index it_numKeys it_obj]. rewrite Hlen.
  assert (Hk : length (o_Keys o) = length (o_Iter o)) by apply length_map.
  destruct (decide (i = length (o_Iter o))) as [->|Ne].
  - rewrite Z.eqb_refl. simpl. rewrite drop_ge by lia. done.
  - destruct (Z.eqb_spec (Z.of_nat i) (Z.of_nat (length (o_Iter o)))); [lia|].
    destruct (Z.eqb_spec (Z.of_nat (length (o_Iter o))) 0); [lia|]. cbn [orb].
    replace (Z.to_nat (Z.of_nat i + 1 - 1)) with i by lia.
    destruct (lookup_lt_is_Some_2 (o_Iter o) i) as [kv Hkv]; [lia|].
    rewrite Hkv. cbn [option_map].
    assert (Hkey : o_Keys o !! i = Some kv.1).
    { unfold o_Keys. rewrite list_lookup_fmap. by rewrite Hkv. }
    rewrite (drop_S _ _ _ Hkey). cbn [take]. f_equal.
    replace (Z.of_nat i + 1)%Z with (Z.of_nat (S i)) by lia. rewrite <- Hlen. apply IH. lia.
Qed.

(** A key iterator yields the keys of the object in strictly increasing
    order, each once, and then reports exhaustion. *)
Theorem keys_iterator `{X : XXHash} (l : list (value * value)) (n : nat) :
  Forall (fun kv => key_ok kv.1 = true) l -> (length l <= n)%nat ->
  let o := NewObject l in
  it_run n (newobjectKeysIterator o) = o_Keys o /\ ssorted Compare id (o_Keys o).
Proof.
  intros Hl Hn o. destruct (o_insert_all_ok l newobject obj_wf_new Hl) as [W E].
  change (o_insert_all newobject l) with o in *.
  assert (Hlen : (length (o_Iter o) <= n)%nat).
  { rewrite E. etransitivity; [|exact Hn]. change (length l) with (length (o_Iter newobject) + length l)%nat.
    assert (kv_sorted_new : ssorted Compare fst (o_Iter newobject)) by constructor.
    revert kv_sorted_new. generalize (o_Iter newobject). clear.
    induction l as [|kv l IH]; intros acc S; simpl; [lia|].
    etransitivity; [apply IH; by apply obj_insert_sorted|].
    pose proof (length_sins Compare fst (fun old new => (old.1, new.2)) (kv.1, kv.2) acc S) as L.
    unfold obj_insert. rewrite L. destruct (sfind _ _ _ _); lia. }
  split.
  - unfold newobjectKeysIterator. change 0%Z with (Z.of_nat 0).
    rewrite (it_run_drop n o 0) by (done || lia). rewrite drop_0, take_ge; [done|]. unfold o_Keys. by rewrite length_map.
  - unfold o_Keys. pose proof (o_Iter_sorted o W) as S.
    clear E Hlen. induction S as [|kv m S IH Hkv]; simpl; [constructor|]. constructor; [done|].
    rewrite Forall_forall in Hkv. apply Forall_forall.
    intros k (kv' & -> & Hkv')%list_elem_of_fmap. by apply Hkv.
Qed.

Lemma keys_iterator_witness :
  it_run 9 (newobjectKeysIterator (@NewObject xx_length ex_pairs)) =
    [Number (NInt 3); Str "a"; Str "b"]%string.
Proof.
  rewrite (proj1 (@keys_iterator xx_length ex_pairs 9 ltac:(repeat constructor)
    ltac:(apply le_S, le_S, le_S, le_S, le_S, le_n))).
  vm_compute. reflexivity.
Defined.
