(* ===== verification/RefOps.v ===== *)
(** References and path lookup: the operations of [Ref] and the [Find] methods
    of the values ([src/ast/term.go]). *)
From Stdlib Require Import ZArith Lia String.
From stdpp Require Import base list strings.
From S2P Require Import Prelude SortedKeys Value Containers SetTable ObjectTable.

(** ** Building references *)
Definition Ref_Append (ref : list value) (t : value) : list value := ref ++ [t].

(** [None] is the panic: the explicit one above [len(ref)+1], the slice bounds
    [ref[:pos]] at [len(ref)+1]. *)
Definition Ref_Insert (ref : list value) (x : value) (pos : nat) : option (list value) :=
  if (pos =? length ref)%nat then Some (Ref_Append ref x)
  else if (length ref <? pos)%nat then None
  else Some (take pos ref ++ x :: drop pos ref).

(** The head of [other] must be a variable; it becomes a string. *)
Definition Ref_Extend (ref other : list value) : option (list value) :=
  match other with
  | Var x :: rest => Some (ref ++ Str x :: rest)
  | _ => None
  end.

Definition Ref_Concat (ref ts : list value) : list value :=
  match ts with [] => ref | _ => ref ++ ts end.

(** ** Prefixes *)

(** The loop from position [i] on: the first operand that is not constant. *)
Fixpoint first_dynamic (l : list value) (i : nat) : option nat :=
  match l with
  | [] => None
  | x :: l => if negb (IsConstant x) then Some i else first_dynamic l (S i)
  end.

(** [None] is [-1].  ([ref[0]] of an empty reference panics; references made by
    the parser and the compiler have a head.) *)
Definition Ref_Dynamic (ref : list value) : option nat :=
  match ref with
  | [] => None
  | Call _ :: _ => Some 0%nat
  | _ :: l => first_dynamic l 1
  end.

Definition Ref_ConstantPrefix (ref : list value) : list value :=
  match Ref_Dynamic ref with None => ref | Some i => take i ref end.

Definition Ref_DynamicSuffix (ref : list value) : list value :=
  match Ref_Dynamic ref with None => [] | Some i => drop i ref end.

Fixpoint string_prefix (l : list value) : list value :=
  match l with
  | Str s :: l => Str s :: string_prefix l
  | _ => []
  end.
Definition Ref_StringPrefix (ref : list value) : list value :=
  match ref with [] => [] | h :: l => h :: string_prefix l end.

Fixpoint ground_prefix (i : nat) (l : list value) : list value :=
  match l with
  | [] => []
  | x :: l => if (0 <? i)%nat && negb (IsGround x) then [] else x :: ground_prefix (S i) l
  end.
Definition Ref_GroundPrefix (ref : list value) : list value := ground_prefix 0 ref.

Definition Ref_IsNested (ref : list value) : bool :=
  existsb (fun x => match x with Ref _ => true | _ => false end) ref.

Definition Ref_HasPrefix (ref other : list value) : bool :=
  if (length ref <? length other)%nat then false
  else forallb (fun p => Equal p.1 p.2) (combine ref other).

(** ** Lookup along a path *)

(** [num.Int()] as an index of an array of length [n]. *)
Definition array_index (pos : value) (n : nat) : option nat :=
  match pos with
  | Number x =>
      match num_int64 x with
      | Some i => if ((i <? 0) || (Z.of_nat n <=? i))%Z then None else Some (Z.to_nat i)
      | None => None
      end
  | _ => None
  end.

(** [None] is [errFindNotFound].  Elements of a set are found under themselves. *)
Fixpoint Find (v : value) (path : list value) {struct path} : option value :=
  match path with
  | [] => Some v
  | p :: path =>
      match v with
      | Array l =>
          match array_index p (length l) with
          | Some i => match l !! i with Some x => Find x path | None => None end
          | None => None
          end
      | Object kvs =>
          match obj_get p kvs with Some x => Find x path | None => None end
      | SetV l => if set_mem p l then Find p path else None
      | _ => None
      end
  end.

(** [Term.Get]: one step of lookup. *)
Definition Term_Get (t name : value) : option value :=
  match t with
  | Object kvs => obj_get name kvs
  | Array l => match array_index name (length l) with Some i => l !! i | None => None end
  | SetV l => if set_mem name l then Some name else None
  | _ => None
  end.

(** ** Lemmas *)
Lemma first_dynamic_spec l i :
  match first_dynamic l i with
  | None => forallb IsConstant l = true
  | Some j => (i <= j)%nat /\ forallb IsConstant (take (j - i) l) = true /\
      exists x, l !! (j - i)%nat = Some x /\ IsConstant x = false
  end.
Proof.
  revert i. induction l as [|x l IH]; intros i; simpl; [done|].
  destruct (IsConstant x) eqn:E; simpl.
  - specialize (IH (S i)). destruct (first_dynamic l (S i)) as [j|]; [|done].
    destruct IH as (Hj & Hc & y & Hy & Ey). replace (j - i)%nat with (S (j - S i)) by lia.
    simpl. rewrite E. split_ands; [lia|done|by exists y].
  - rewrite Nat.sub_diag. split_ands; [lia|done|by exists x].
Qed.

Lemma ground_prefix_spec l i : (0 < i)%nat ->
  ground_prefix i l `prefix_of` l /\ forallb IsGround (ground_prefix i l) = true /\
  (forall x, ground_prefix i l ++ [x] `prefix_of` l -> IsGround x = false).
Proof.
  revert i. induction l as [|y l IH]; intros i Hi; simpl.
  { split_ands; [done|done|]. intros x P. by apply prefix_nil_not in P. }
  destruct (Nat.ltb_spec 0 i); [|lia]. simpl. destruct (IsGround y) eqn:E; simpl.
  - destruct (IH (S i)) as (P & G & M); [lia|]. split_ands.
    + by apply prefix_cons.
    + by rewrite E.
    + intros x Hx. by apply M, (prefix_cons_inv_2 y y).
  - split_ands; [apply prefix_nil|done|]. intros x Hx.
    by apply prefix_cons_inv_1 in Hx as ->.
Qed.

Lemma string_prefix_spec l :
  string_prefix l `prefix_of` l /\
  (forall x, x ∈ string_prefix l -> exists s, x = Str s) /\
  (forall x, string_prefix l ++ [x] `prefix_of` l -> forall s, x <> Str s).
Proof.
  induction l as [|y l IH]; simpl.
  { split_ands; [done|by intros x []%not_elem_of_nil|]. intros x P. by apply prefix_nil_not in P. }
  destruct y; try (split_ands; [apply prefix_nil|by intros ? []%not_elem_of_nil|];
    intros ? Hx ?; by apply prefix_cons_inv_1 in Hx as ->).
  destruct IH as (P & G & M). split_ands.
  - by apply prefix_cons.
  - intros x [->|Hx]%elem_of_cons; [by eexists|by apply G].
  - intros x Hx. by apply M, (prefix_cons_inv_2 (Str s) (Str s)).
Qed.

Lemma prefix_of_take {A} (l : list A) j x y :
  l !! j = Some y -> take j l ++ [x] `prefix_of` l -> x = y.
Proof.
  intros Hy [k Hk]. assert (l !! j = Some x) as Hx; [|congruence].
  pose proof (lookup_lt_Some _ _ _ Hy).
  rewrite Hk, <- app_assoc, lookup_app_r; rewrite length_take; [|lia].
  by replace (j - j `min` length l)%nat with 0%nat by lia.
Qed.

(** [p] is a prefix of [ref] whose operands are [good], and the longest one
    unless it is empty. *)
Definition cut (ref p : list value) (good : value -> Prop) : Prop :=
  p `prefix_of` ref /\ (forall x, x ∈ tail p -> good x) /\
  (forall x, p <> [] -> p ++ [x] `prefix_of` ref -> ~ good x).

Lemma constant_prefix_cut h ops :
  cut (h :: ops) (Ref_ConstantPrefix (h :: ops)) (fun x => IsConstant x = true).
Proof.
  unfold Ref_ConstantPrefix. pose proof (first_dynamic_spec ops 1) as F.
  assert (D : Ref_Dynamic (h :: ops) = Some 0%nat \/ Ref_Dynamic (h :: ops) = first_dynamic ops 1)
    by (destruct h; auto).
  destruct D as [-> | ->].
  { split; [apply prefix_nil|split; [by intros x []%not_elem_of_nil|by intros x []]]. }
  destruct (first_dynamic ops 1) as [j|].
  - destruct F as (Hj & Hc & y & Hy & Ey). destruct j as [|j]; [lia|].
    replace (S j - 1)%nat with j in * by lia. simpl. split; [|split].
    + apply prefix_cons. exists (drop j ops). by rewrite take_drop.
    + intros x Hx%list_elem_of_In. by apply (proj1 (forallb_forall _ _) Hc).
    + intros x _ Hx%prefix_cons_inv_2. rewrite (prefix_of_take ops j x y Hy Hx). congruence.
  - split; [done|split].
    + intros x Hx%list_elem_of_In. by apply (proj1 (forallb_forall _ _) F).
    + intros x _ Hx%prefix_length. rewrite length_app in Hx. simpl in Hx. lia.
Qed.

(** The prefix operations of a reference cut where they say: each result is
    a prefix of the reference, its operands past the head are constant (ground,
    strings), and it cannot be extended by one more operand; [ConstantPrefix]
    and [DynamicSuffix] split the reference when it is dynamic. *)
Theorem Ref_prefixes (h : value) (ops : list value) :
  let ref := h :: ops in
  cut ref (Ref_ConstantPrefix ref) (fun x => IsConstant x = true) /\
  cut ref (Ref_GroundPrefix ref) (fun x => IsGround x = true) /\
  cut ref (Ref_StringPrefix ref) (fun x => exists s, x = Str s) /\
  (Ref_Dynamic ref <> None -> Ref_ConstantPrefix ref ++ Ref_DynamicSuffix ref = ref).
Proof.
  intros ref. split_ands.
  - apply constant_prefix_cut.
  - unfold Ref_GroundPrefix, ref. simpl. destruct (ground_prefix_spec ops 1) as (P & G & M); [lia|].
    split; [by apply prefix_cons|split].
    + intros x Hx%list_elem_of_In. by apply (proj1 (forallb_forall _ _) G).
    + intros x _ Hx%prefix_cons_inv_2. by rewrite (M x Hx).
  - unfold ref. simpl. destruct (string_prefix_spec ops) as (P & G & M).
    split; [by apply prefix_cons|split; [done|]]. intros x _ Hx%prefix_cons_inv_2 [s ->].
    by apply (M _ Hx s).
  - unfold Ref_ConstantPrefix, Ref_DynamicSuffix. destruct (Ref_Dynamic ref); [|done].
    intros _. apply take_drop.
Qed.

(** [HasPrefix] is the prefix order up to equality of terms: it holds
    exactly when the reference compares equal to the other one followed by
    some operands. *)
Theorem Ref_HasPrefix_iff (ref other : list value) :
  Ref_HasPrefix ref other = true <->
  exists rest, Compare (Ref ref) (Ref (other ++ rest)) = Eq.
Proof.
  assert (E : Ref_HasPrefix ref other = true <->
    exists rest, Forall2 (fun x y => Compare x y = Eq) ref (other ++ rest)).
  { unfold Ref_HasPrefix. revert other.
    induction ref as [|x ref IH]; intros [|y other]; simpl.
    - split; [by exists []|done].
    - split; [done|]. intros [rest H]. inversion H.
    - split; [|done]. intros _. exists (x :: ref).
      constructor; [apply (cmp_refl Compare)|]. clear IH.
      induction ref; constructor; [apply (cmp_refl Compare)|done].
    - rewrite andb_comm. specialize (IH other). change (S ?a <? S ?b)%nat with (a <? b)%nat.
      destruct (length ref <? length other)%nat eqn:L.
      + split; [done|]. intros [rest H]. inversion H; subst.
        by apply IH; exists rest.
      + rewrite andb_true_iff, Equal_true, IH. split.
        * intros [[rest H] Exy]. exists rest. by constructor.
        * intros [rest H]. inversion H; subst. split; [by exists rest|done]. }
  rewrite E. split; intros [rest H]; exists rest; simpl in *; by apply slice_compare_eq_iff.
Qed.

(** Path lookup composes: finding a concatenated path is finding its first
    part and then the rest in the result, and a one-step path is [Term.Get]. *)
Theorem Find_app (v : value) (p q : list value) :
  Find v (p ++ q) = match Find v p with Some w => Find w q | None => None end /\
  (forall k, Find v [k] = Term_Get v k).
Proof.
  split.
  - revert v. induction p as [|k p IH]; intros v; simpl; [done|].
    destruct v; try done.
    + destruct (array_index k (length elems)) as [i|]; [|done]. by destruct (elems !! i).
    + by destruct (obj_get k kvs).
    + by destruct (set_mem k keys).
  - intros k. destruct v; try done; simpl.
    + destruct (array_index k (length elems)) as [i|]; [|done]. by destruct (elems !! i).
    + by destruct (obj_get k kvs).
Qed.
