(* ===== verification/Path.v ===== *)
(** Storage paths: [src/storage/path.go], with the parts of Go's [strings],
    [net/url] and [strconv] it uses. *)
From Stdlib Require Import ZArith Lia String Ascii.
From stdpp Require Import base list strings pretty.
From S2P Require Import Prelude.

Definition path := list string.

(** ** Go's library on strings *)
Definition slash : ascii := "/"%char.

(** [strings.Split(s, "/")]: never empty. *)
Fixpoint split_slash (s : string) : list string :=
  match s with
  | EmptyString => [EmptyString]
  | String c s =>
      match split_slash s with
      | [] => [EmptyString] (* not reached *)
      | w :: ws => if Ascii.eqb c slash then EmptyString :: w :: ws else String c w :: ws
      end
  end.

(** [strings.Join(l, "/")]. *)
Fixpoint join_slash (l : list string) : string :=
  match l with
  | [] => EmptyString
  | [w] => w
  | w :: ws => String.append w (String slash (join_slash ws))
  end.

(** Characters that [url.PathEscape] leaves alone: letters, digits and
    [-_.~$&+=:@]. *)
Definition in_range (lo hi c : ascii) : bool :=
  (N_of_ascii lo <=? N_of_ascii c)%N && (N_of_ascii c <=? N_of_ascii hi)%N.
Definition path_safe (c : ascii) : bool :=
  in_range "a" "z" c || in_range "A" "Z" c || in_range "0" "9" c ||
  existsb (Ascii.eqb c) ["-"; "_"; "."; "~"; "$"; "&"; "+"; "="; ":"; "@"]%char.

Definition hex_digit (n : N) : ascii :=
  ascii_of_N (if (n <? 10)%N then N_of_ascii "0" + n else N_of_ascii "A" + (n - 10)).
Definition percent : ascii := "%"%char.

Fixpoint PathEscape (s : string) : string :=
  match s with
  | EmptyString => EmptyString
  | String c s =>
      if path_safe c then String c (PathEscape s)
      else String percent (String (hex_digit (N_of_ascii c / 16))
             (String (hex_digit (N_of_ascii c mod 16)) (PathEscape s)))
  end.

Definition unhex (c : ascii) : option N :=
  let n := N_of_ascii c in
  if in_range "0" "9" c then Some (n - N_of_ascii "0")%N
  else if in_range "a" "f" c then Some (n - N_of_ascii "a" + 10)%N
  else if in_range "A" "F" c then Some (n - N_of_ascii "A" + 10)%N
  else None.

(** [None] is the [EscapeError] of a malformed [%]-sequence. *)
Fixpoint PathUnescape (s : string) : option string :=
  match s with
  | EmptyString => Some EmptyString
  | String c s =>
      if Ascii.eqb c percent then
        match s with
        | String h (String l s) =>
            match unhex h, unhex l, PathUnescape s with
            | Some h, Some l, Some s => Some (String (ascii_of_N (16 * h + l)) s)
            | _, _, _ => None
            end
        | _ => None
        end
      else option_map (String c) (PathUnescape s)
  end.

(** [strconv.ParseInt(s, 10, 64)] and [strconv.Atoi(s)]: an optional sign and a
    non-empty run of digits, within the range of int64. *)
Definition digit_val (c : ascii) : option Z :=
  if in_range "0" "9" c then Some (Z.of_N (N_of_ascii c - N_of_ascii "0")) else None.
Fixpoint parse_digits (s : string) (acc : Z) : option Z :=
  match s with
  | EmptyString => Some acc
  | String c s =>
      match digit_val c with Some d => parse_digits s (10 * acc + d)%Z | None => None end
  end.
Definition parse_nat (s : string) : option Z :=
  match s with EmptyString => None | _ => parse_digits s 0 end.
Definition Atoi (s : string) : option Z :=
  let r := match s with
           | String "+" s => parse_nat s
           | String "-" s => option_map Z.opp (parse_nat s)
           | _ => parse_nat s
           end in
  match r with Some z => if in_int64 z then Some z else None | None => None end.

(** ** The path operations *)
Definition ParsePath (s : string) : option path :=
  match s with
  | EmptyString => None
  | String c rest =>
      if negb (Ascii.eqb c slash) then None
      else match rest with EmptyString => Some [] | _ => Some (split_slash rest) end
  end.

(** A segment that does not unescape is kept. *)
Definition ParsePathEscaped (s : string) : option path :=
  option_map (map (fun seg => match PathUnescape seg with Some u => u | None => seg end))
    (ParsePath s).

Definition Path_Compare (p other : path) : comparison := slice_compare String.compare p other.
Definition Path_Equal (p other : path) : bool :=
  match Path_Compare p other with Eq => true | _ => false end.

(** [for i := range other { if p[i] != other[i] ... }] after the length test. *)
Definition Path_HasPrefix (p other : path) : bool :=
  if (length p <? length other)%nat then false
  else forallb (fun ab => String.eqb ab.1 ab.2) (combine p other).

Definition Path_String (p : path) : string := String slash (join_slash (map PathEscape p)).

(** ** Lemmas *)
#[global] Instance Path_Compare_ok : CmpOk Path_Compare.
Proof. intros p. apply slice_compare_ok, Forall_true, string_compare_ok. Qed.

Lemma Path_Compare_eq p q : Path_Compare p q = Eq <-> p = q.
Proof.
  unfold Path_Compare. rewrite slice_compare_eq_iff. split.
  - induction 1 as [|x y p q E _ IH]; [done|]. apply string_compare_eq in E. by subst.
  - intros ->. induction q; constructor; [by apply string_compare_eq|done].
Qed.

Lemma Path_Equal_true p q : Path_Equal p q = true <-> p = q.
Proof. rewrite <- Path_Compare_eq. unfold Path_Equal. by destruct (Path_Compare p q). Qed.

Lemma Path_HasPrefix_true p q : Path_HasPrefix p q = true <-> q `prefix_of` p.
Proof.
  unfold Path_HasPrefix. revert q. induction p as [|x p IH]; intros [|y q]; simpl.
  - by split.
  - split; [done|]. intros H. by apply prefix_nil_not in H.
  - split; [|done]. intros _. apply prefix_nil.
  - change (S (length p) <? S (length q))%nat with (length p <? length q)%nat.
    specialize (IH q). destruct (length p <? length q)%nat.
    + split; [done|]. intros H%prefix_cons_inv_2. by apply IH.
    + rewrite andb_true_iff, IH, String.eqb_eq. split.
      * intros [-> H]. by apply prefix_cons.
      * intros H. split; [symmetry; by eapply prefix_cons_inv_1|by eapply prefix_cons_inv_2].
Qed.

Lemma split_slash_cons s : exists w ws, split_slash s = w :: ws.
Proof.
  destruct s as [|c s]; simpl; [by eexists _, _|].
  destruct (split_slash s); [by eexists _, _|]. destruct (Ascii.eqb c slash); by eexists _, _.
Qed.

Fixpoint no_slash (s : string) : bool :=
  match s with EmptyString => true | String c s => negb (Ascii.eqb c slash) && no_slash s end.

Lemma split_slash_append w s :
  no_slash w = true ->
  split_slash (String.append w (String slash s)) = w :: split_slash s.
Proof.
  induction w as [|c w IH]; simpl.
  - intros _. destruct (split_slash_cons s) as (v & vs & ->). done.
  - intros [Hc Hw]%andb_true_iff. apply negb_true_iff in Hc. by rewrite IH, Hc.
Qed.

Lemma split_slash_word w : no_slash w = true -> split_slash w = [w].
Proof.
  induction w as [|c w IH]; simpl; [done|].
  intros [Hc Hw]%andb_true_iff. apply negb_true_iff in Hc. by rewrite IH, Hc.
Qed.

Lemma split_join l : l <> [] -> Forall (fun w => no_slash w = true) l ->
  split_slash (join_slash l) = l.
Proof.
  intros Hl. induction 1 as [|w l Hw H IH]; [done|].
  destruct l as [|v l]; [by apply split_slash_word|].
  change (join_slash (w :: v :: l)) with (String.append w (String slash (join_slash (v :: l)))).
  rewrite split_slash_append by done. by rewrite IH.
Qed.

(** Facts on single characters, by enumeration. *)
Definition escaped_ok (c : ascii) : bool :=
  let h := hex_digit (N_of_ascii c / 16) in
  let l := hex_digit (N_of_ascii c mod 16) in
  negb (Ascii.eqb h slash) && negb (Ascii.eqb l slash) &&
  match unhex h, unhex l with
  | Some h, Some l => Ascii.eqb (ascii_of_N (16 * h + l)) c
  | _, _ => false
  end.

Lemma escaped_ok_all c : escaped_ok c = true.
Proof. destruct c as [[] [] [] [] [] [] [] []]; vm_compute; reflexivity. Qed.

Lemma path_safe_plain c :
  path_safe c = true -> Ascii.eqb c slash = false /\ Ascii.eqb c percent = false.
Proof. destruct c as [[] [] [] [] [] [] [] []]; vm_compute; done. Qed.

Lemma PathEscape_no_slash s : no_slash (PathEscape s) = true.
Proof.
  induction s as [|c s IH]; simpl; [done|]. destruct (path_safe c) eqn:E.
  - simpl. destruct (path_safe_plain c E) as [-> _]. done.
  - pose proof (escaped_ok_all c) as H. unfold escaped_ok in H.
    apply andb_true_iff in H as [[H1 H2]%andb_true_iff _]. simpl. by rewrite H1, H2, IH.
Qed.

Lemma PathUnescape_Escape s : PathUnescape (PathEscape s) = Some s.
Proof.
  induction s as [|c s IH]; [done|]. cbn [PathEscape]. destruct (path_safe c) eqn:E.
  - destruct (path_safe_plain c E) as [_ Hp]. cbn [PathUnescape]. by rewrite Hp, IH.
  - pose proof (escaped_ok_all c) as H. unfold escaped_ok in H.
    apply andb_true_iff in H as [_ H]. cbn [PathUnescape]. rewrite Ascii.eqb_refl.
    destruct (unhex (hex_digit (N_of_ascii c / 16))) as [h|]; [|done].
    destruct (unhex (hex_digit (N_of_ascii c mod 16))) as [l|]; [|done].
    rewrite IH. apply Ascii.eqb_eq in H. by rewrite H.
Qed.

(** Printing a path and parsing it back gives the path, whatever characters
    its segments contain, except for the path of one empty segment, which prints
    as the root. *)
Theorem Path_roundtrip (p : path) :
  ParsePathEscaped (Path_String p) =
    Some (if Path_Equal p [EmptyString] then [] else p).
Proof.
  assert (U : map (fun seg => match PathUnescape seg with Some u => u | None => seg end)
                (map PathEscape p) = p).
  { induction p as [|w p IH]; simpl; [done|]. by rewrite PathUnescape_Escape, IH. }
  destruct (Path_Equal p [EmptyString]) eqn:E; [apply Path_Equal_true in E; by subst|].
  unfold ParsePathEscaped, Path_String, ParsePath. rewrite Ascii.eqb_refl. cbn [negb].
  destruct p as [|w p]; [done|].
  assert (S : split_slash (join_slash (map PathEscape (w :: p))) = map PathEscape (w :: p)).
  { apply split_join; [done|]. apply Forall_map, Forall_true. intros x. apply PathEscape_no_slash. }
  destruct (join_slash (map PathEscape (w :: p))) as [|c s] eqn:J.
  - exfalso. assert (map PathEscape (w :: p) = [EmptyString]) as M by (by rewrite <- S).
    destruct p as [|v p]; [|discriminate M]. injection M as M. 
    pose proof (PathUnescape_Escape w) as W. rewrite M in W. injection W as <-.
    discriminate E.
  - cbn [option_map]. by rewrite S, U.
Qed.
