(* ===== verification/Json.v ===== *)
(** JSON documents as the storage layer holds them
    ([map[string]interface{}], [[]interface{}] and scalars), and the algebra of
    updates at a path through objects, on which the transaction proofs rest. *)
From Stdlib Require Import ZArith Lia String.
From stdpp Require Import base gmap list strings.
From S2P Require Import Prelude Path.

Inductive json : Type :=
| JNull
| JBool (b : bool)
| JNum (s : string)
| JStr (s : string)
| JArr (l : list json)
| JObj (m : gmap string json).

(** No array anywhere in the document. *)
Inductive array_free : json -> Prop :=
| af_null : array_free JNull
| af_bool b : array_free (JBool b)
| af_num s : array_free (JNum s)
| af_str s : array_free (JStr s)
| af_obj m : (forall k j, m !! k = Some j -> array_free j) -> array_free (JObj m).

(** Lookup of a path through objects. *)
Fixpoint olookup (d : json) (p : path) : option json :=
  match p with
  | [] => Some d
  | k :: p =>
      match d with
      | JObj m => match m !! k with Some d => olookup d p | None => None end
      | _ => None
      end
  end.

(** Put a value at a path ([Some v]) or delete the key ([None]); where the path
    does not lead through objects nothing happens. *)
Fixpoint oset (d : json) (p : path) (x : option json) : json :=
  match p with
  | [] => match x with Some v => v | None => d end
  | k :: p' =>
      match d with
      | JObj m =>
          match p' with
          | [] => JObj (partial_alter (fun _ => x) k m)
          | _ =>
              match m !! k with
              | Some d' => JObj (<[k := oset d' p' x]> m)
              | None => JObj m
              end
          end
      | _ => d
      end
  end.

(** Neither path is a prefix of the other. *)
Definition disjoint_paths (p q : path) : Prop := ~ p `prefix_of` q /\ ~ q `prefix_of` p.

Lemma disjoint_paths_sym p q : disjoint_paths p q -> disjoint_paths q p.
Proof. intros [? ?]. by split. Qed.

Lemma disjoint_paths_ext p q s : disjoint_paths p q -> disjoint_paths (p ++ s) q.
Proof.
  intros [H1 H2]. split.
  - intros H. apply H1. etransitivity; [|exact H]. by exists s.
  - intros H. destruct (prefix_weak_total q p (p ++ s) H) as [E|E]; [by exists s|done|done].
Qed.

(** Paths with the same first key are disjoint when their tails are; with
    different first keys always. *)
Lemma disjoint_cons k l p q : disjoint_paths (k :: p) (l :: q) <-> k <> l \/ (k = l /\ disjoint_paths p q).
Proof.
  unfold disjoint_paths. split.
  - intros [H1 H2]. destruct (decide (k = l)) as [->|]; [right|by left]. split; [done|].
    split; intros H; [apply H1|apply H2]; by apply prefix_cons.
  - intros [N|[-> [H1 H2]]].
    + split; intros H%prefix_cons_inv_1; by destruct N.
    + split; intros H%prefix_cons_inv_2; auto.
Qed.

Lemma disjoint_nil p : ~ disjoint_paths [] p.
Proof. intros [H _]. by apply H, prefix_nil. Qed.

Lemma oset_cons k p m x :
  oset (JObj m) (k :: p) x =
    match p with
    | [] => JObj (partial_alter (fun _ => x) k m)
    | _ => match m !! k with Some d => JObj (<[k := oset d p x]> m) | None => JObj m end
    end.
Proof. done. Qed.

(** Equality of maps built by insertions and alterations, key by key. *)
Ltac map_ext :=
  apply map_eq; intros ?; unfold insert, map_insert;
  rewrite !lookup_partial_alter; repeat case_decide; congruence.

(** ** Algebra *)
Lemma oset_commute d p q x y :
  disjoint_paths p q -> oset (oset d p x) q y = oset (oset d q y) p x.
Proof.
  revert d q. induction p as [|k p IH]; intros d q D; [by apply disjoint_nil in D|].
  destruct q as [|l q]; [by apply disjoint_paths_sym, disjoint_nil in D|].
  destruct d as [| | | | |m]; try done. rewrite !oset_cons.
  apply disjoint_cons in D as [N|[<- D]].
  - destruct p as [|k' p], q as [|l' q].
    + rewrite !oset_cons. f_equal. map_ext.
    + destruct (m !! l) as [d|] eqn:E; rewrite oset_cons.
      * rewrite lookup_partial_alter_ne, E by done. rewrite oset_cons. f_equal.
        map_ext.
      * by rewrite lookup_partial_alter_ne, E.
    + destruct (m !! k) as [d|] eqn:E; rewrite oset_cons.
      * rewrite oset_cons, lookup_partial_alter_ne, E by done. f_equal.
        map_ext.
      * by rewrite oset_cons, lookup_partial_alter_ne, E.
    + destruct (m !! k) as [d|] eqn:E, (m !! l) as [d'|] eqn:E'; rewrite !oset_cons;
        rewrite ?lookup_insert_ne, ?E, ?E' by done; try done.
      f_equal. map_ext.
  - destruct p as [|k' p]; [by apply disjoint_nil in D|].
    destruct q as [|l' q]; [by apply disjoint_paths_sym, disjoint_nil in D|].
    destruct (m !! k) as [d|] eqn:E; rewrite !oset_cons; rewrite ?lookup_insert_eq, ?E; [|done].
    rewrite !insert_insert_eq. do 2 f_equal. by apply IH.
Qed.

(** A later update above masks an earlier one below. *)
Lemma oset_mask d p s x y : p <> [] -> oset (oset d (p ++ s) x) p y = oset d p y.
Proof.
  revert d. induction p as [|k p IH]; intros d Hp; [done|].
  destruct d as [| | | | |m]; try done. simpl (_ ++ _). rewrite oset_cons.
  destruct p as [|k' p].
  - simpl app. destruct s as [|k' s].
    + rewrite oset_cons. simpl. f_equal. map_ext.
    + destruct (m !! k) as [d|] eqn:E; [|done]. simpl. f_equal. map_ext.
  - simpl app. destruct (m !! k) as [d|] eqn:E; rewrite !oset_cons, ?lookup_insert_eq, ?E; [|done].
    rewrite insert_insert_eq. do 2 f_equal. by apply (IH d).
Qed.

(** An update below a value that was just put amends that value. *)
Lemma oset_below d p s v x :
  s <> [] -> oset (oset d p (Some v)) (p ++ s) x = oset d p (Some (oset v s x)).
Proof.
  intros Hs. revert d. induction p as [|k p IH]; intros d; [done|].
  destruct d as [| | | | |m]; try done. simpl (_ ++ _). rewrite oset_cons.
  destruct p as [|k' p].
  - simpl app. destruct s as [|k' s]; [done|]. rewrite oset_cons, lookup_partial_alter_eq.
    rewrite oset_cons. f_equal. map_ext.
  - simpl app. rewrite (oset_cons k (k' :: p) m (Some _)).
    destruct (m !! k) as [d|] eqn:E; rewrite !oset_cons, ?lookup_insert_eq, ?E; [|done].
    rewrite insert_insert_eq. do 2 f_equal. by apply (IH d).
Qed.

(** ** Lookup after an update *)
Lemma olookup_app d p q :
  olookup d (p ++ q) = match olookup d p with Some v => olookup v q | None => None end.
Proof.
  revert d. induction p as [|k p IH]; intros d; simpl; [done|].
  destruct d as [| | | | |m]; try done. destruct (m !! k); [apply IH|done].
Qed.

Lemma olookup_oset_disjoint d p q x :
  disjoint_paths p q -> olookup (oset d p x) q = olookup d q.
Proof.
  revert d q. induction p as [|k p IH]; intros d q D; [by apply disjoint_nil in D|].
  destruct q as [|l q]; [by apply disjoint_paths_sym, disjoint_nil in D|].
  destruct d as [| | | | |m]; try done. rewrite oset_cons.
  apply disjoint_cons in D as [N|[<- D]].
  - destruct p as [|k' p]; [|destruct (m !! k); [|done]]; simpl.
    + by rewrite lookup_partial_alter_ne.
    + by rewrite lookup_insert_ne.
  - destruct p as [|k' p]; [by apply disjoint_nil in D|].
    destruct (m !! k) as [d|] eqn:E; simpl; [|by rewrite E].
    rewrite lookup_insert_eq, E. by apply (IH d).
Qed.

Lemma olookup_oset_below d p s x :
  s <> [] -> olookup (oset d (p ++ s) x) p = option_map (fun v => oset v s x) (olookup d p).
Proof.
  intros Hs. revert d. induction p as [|k p IH]; intros d; [done|].
  destruct d as [| | | | |m]; try done. simpl (_ ++ _). rewrite oset_cons.
  destruct (p ++ s) as [|k' q] eqn:E; [by destruct p|].
  simpl. destruct (m !! k) as [d|] eqn:Em; simpl; [|by rewrite Em].
  rewrite lookup_insert_eq. apply IH.
Qed.

(** The path leads through objects up to its last key. *)
Definition parent_obj (d : json) (p : path) : Prop :=
  exists m, olookup d (removelast p) = Some (JObj m).

Lemma parent_obj_cons d k k' p :
  parent_obj d (k :: k' :: p) <-> exists m d', d = JObj m /\ m !! k = Some d' /\ parent_obj d' (k' :: p).
Proof.
  unfold parent_obj. change (removelast (k :: k' :: p)) with (k :: removelast (k' :: p)). simpl olookup.
  split.
  - intros [m' H]. destruct d as [| | | | |m]; try done.
    destruct (m !! k) as [d'|] eqn:E; [|done]. by exists m, d'; eauto.
  - intros (m & d' & -> & -> & H). done.
Qed.

Lemma olookup_oset_at d p s x :
  p <> [] -> parent_obj d p ->
  olookup (oset d p x) (p ++ s) = match x with Some v => olookup v s | None => None end.
Proof.
  revert d. induction p as [|k p IH]; intros d Hp Hd; [done|].
  destruct p as [|k' p].
  - destruct Hd as [m [= ->]]. rewrite oset_cons. simpl.
    rewrite lookup_partial_alter_eq. done.
  - apply parent_obj_cons in Hd as (m & d' & -> & E & Hd). rewrite oset_cons, E. simpl (_ ++ _).
    cbn [olookup]. rewrite lookup_insert_eq. by apply (IH d').
Qed.

Lemma parent_obj_disjoint d p q x :
  disjoint_paths p q -> parent_obj d p -> parent_obj (oset d q x) p.
Proof.
  intros D [m Hm]. unfold parent_obj.
  destruct (decide (removelast p `prefix_of` q)) as [[s ->]|N].
  - assert (Hs : s <> []).
    { intros ->. rewrite app_nil_r in D. destruct D as [_ D]. apply D.
      destruct p as [|k p] using rev_ind; [done|]. rewrite removelast_last. by exists [k]. }
    rewrite olookup_oset_below, Hm by done. simpl. destruct s as [|k s]; [done|].
    rewrite oset_cons. destruct s; [eauto|]. destruct (m !! k); eauto.
  - rewrite olookup_oset_disjoint; [eauto|]. split; [|done]. intros H. destruct D as [_ D].
    apply D. etransitivity; [exact H|]. destruct p as [|k p] using rev_ind; [done|].
    rewrite removelast_last. by exists [k].
Qed.

(** ** Array-free documents *)
Lemma array_free_lookup d p v : array_free d -> olookup d p = Some v -> array_free v.
Proof.
  intros H. revert d H. induction p as [|k p IH]; intros d H; simpl; [by intros [= <-]|].
  destruct H as [| | | |m H]; try done. destruct (m !! k) eqn:E; [|done]. apply IH. eauto.
Qed.

Lemma array_free_oset d p x :
  array_free d -> (forall v, x = Some v -> array_free v) -> array_free (oset d p x).
Proof.
  intros H Hx. revert d H. induction p as [|k p IH]; intros d H.
  { simpl. destruct x; auto. }
  destruct H as [| | | |m H]; try constructor. rewrite oset_cons. destruct p as [|k' p].
  - constructor. intros l j. rewrite lookup_partial_alter. case_decide; eauto.
  - destruct (m !! k) as [d|] eqn:E; constructor; [|done].
    intros l j. rewrite lookup_insert. case_decide; [|eauto]. intros [= <-]. eauto.
Qed.
