(* ===== verification/Inmem.v ===== *)
(** The in-memory store: [src/storage/internal/ptr/ptr.go],
    [src/storage/inmem/txn.go] and the lock protocol of
    [src/storage/inmem/inmem.go].

    Documents are trees (Json.v): [DeepCopy] is the identity on them, and the
    in-place mutation of a document that [Apply] performs is an update of the
    tree.  Values written to the store are trees of their own because
    [store.Write] round-trips them through JSON.  The one place where the
    code shares structure, an update built from an array of the store, is left
    out of the refinement theorem, which is about documents without arrays. *)
From Stdlib Require Import ZArith Lia String.
From stdpp Require Import base gmap list strings pretty.
From S2P Require Import Prelude Path Json.

Inductive PatchOp : Set := AddOp | RemoveOp | ReplaceOp.

Inductive hint : Set := DoesNotExistMsg | ArrayIndexTypeMsg | OutOfRangeMsg.
Inductive storage_error : Type :=
| NotFoundErr (p : path) (h : hint)
| PolicyNotFoundErr (id : string)
| InvalidPatchErr
| InvalidTransactionErr
| InternalErr.

(** ** Pointers *)
Definition inRange (i : Z) (arr : list json) (p : path) : res storage_error nat :=
  if ((i <? 0) || (Z.of_nat (length arr) <=? i))%Z then Err (NotFoundErr p OutOfRangeMsg)
  else Ok (Z.to_nat i).

Definition ValidateArrayIndex (arr : list json) (s : string) (p : path) : res storage_error nat :=
  match Atoi s with
  | None => Err (NotFoundErr p ArrayIndexTypeMsg)
  | Some idx => inRange idx arr p
  end.

(** The loop over the keys; [full] is the path reported in errors. *)
Fixpoint Ptr_loop (full : path) (node : json) (p : path) : res storage_error json :=
  match p with
  | [] => Ok node
  | key :: p =>
      match node with
      | JObj curr =>
          match curr !! key with
          | Some node => Ptr_loop full node p
          | None => Err (NotFoundErr full DoesNotExistMsg)
          end
      | JArr curr =>
          let? pos := ValidateArrayIndex curr key full in
          match curr !! pos with
          | Some node => Ptr_loop full node p
          | None => Err InternalErr (* not reached: [pos] is in range *)
          end
      | _ => Err (NotFoundErr full DoesNotExistMsg)
      end
  end.
Definition Ptr (data : json) (p : path) : res storage_error json := Ptr_loop p data p.

(** ** Updates *)
Record update : Type := MkUpdate { u_path : path; u_remove : bool; u_value : json }.

Definition is_add (op : PatchOp) : bool := match op with AddOp => true | _ => false end.
Definition is_remove (op : PatchOp) : bool := match op with RemoveOp => true | _ => false end.

(** The update of an array at its last path key. *)
Definition newUpdateArray_last (data : list json) (op : PatchOp) (p : path) (key : string)
    (value : json) : res storage_error update :=
  if String.eqb key "-" || String.eqb key (pretty (length data)) then
    if is_add op then Ok (MkUpdate (removelast p) false (JArr (data ++ [value])))
    else Err InvalidPatchErr
  else
    let? pos := ValidateArrayIndex data key p in
    Ok (MkUpdate (removelast p) false
          (JArr match op with
                | AddOp => take pos data ++ value :: drop pos data
                | RemoveOp => take pos data ++ drop (S pos) data
                | ReplaceOp => <[pos := value]> data
                end)).

(** [rest] is [path[idx:]]; it is never empty. *)
Fixpoint newUpdate (data : json) (op : PatchOp) (p rest : path) (value : json) :
    res storage_error update :=
  match rest with
  | [] => Err InternalErr (* not reached *)
  | key :: rest =>
      match data with
      | JObj m =>
          match rest with
          | [] =>
              match op, m !! key with
              | (ReplaceOp | RemoveOp), None => Err (NotFoundErr p DoesNotExistMsg)
              | _, _ => Ok (MkUpdate p (is_remove op) value)
              end
          | _ =>
              match m !! key with
              | Some d => newUpdate d op p rest value
              | None => Err (NotFoundErr p DoesNotExistMsg)
              end
          end
      | JArr l =>
          match rest with
          | [] => newUpdateArray_last l op p key value
          | _ =>
              let? pos := ValidateArrayIndex l key p in
              match l !! pos with
              | Some d => newUpdate d op p rest value
              | None => Err InternalErr (* not reached *)
              end
          end
      | JNull | JBool _ | JNum _ | JStr _ => Err (NotFoundErr p DoesNotExistMsg)
      end
  end.

(** Change the node that [Ptr(data, p)] points to; [None] when there is none. *)
Fixpoint modify (data : json) (p : path) (f : json -> option json) : option json :=
  match p with
  | [] => f data
  | key :: p =>
      match data with
      | JObj m =>
          match m !! key with
          | Some d => option_map (fun d => JObj (<[key := d]> m)) (modify d p f)
          | None => None
          end
      | JArr l =>
          match ValidateArrayIndex l key p with
          | Ok pos =>
              match l !! pos with
              | Some d => option_map (fun d => JArr (<[pos := d]> l)) (modify d p f)
              | None => None
              end
          | Err _ => None
          end
      | _ => None
      end
  end.

(** What [Apply] does to the parent of the last key.  [None] is a panic. *)
Definition apply_parent (u : update) (key : string) (parent : json) : option json :=
  if u_remove u then
    match parent with JObj obj => Some (JObj (delete key obj)) | _ => None end
  else
    match parent with
    | JObj obj => Some (JObj (<[key := u_value u]> obj))
    | JArr arr =>
        match Atoi key with
        | Some idx =>
            if ((0 <=? idx) && (idx <? Z.of_nat (length arr)))%Z
            then Some (JArr (<[Z.to_nat idx := u_value u]> arr)) else None
        | None => None
        end
    | _ => Some parent
    end.

Definition Apply (u : update) (data : json) : option json :=
  match last (u_path u) with
  | None => Some (u_value u)
  | Some key => modify data (removelast (u_path u)) (apply_parent u key)
  end.

Definition Relative (u : update) (p : path) : update :=
  MkUpdate (drop (length p) (u_path u)) (u_remove u) (u_value u).

(** ** Transactions *)
Record policyUpdate : Type := MkPolicyUpdate { pu_value : string; pu_remove : bool }.

(** The data and policies of [store]; its locks and transaction ids are modelled
    by the protocol below. *)
Record db : Type := MkDb { db_data : json; db_policies : gmap string string }.

Record transaction : Type := MkTxn {
  t_write : bool;
  t_updates : list update; (* front of the list first *)
  t_policies : gmap string policyUpdate;
}.

Definition newTransaction (write : bool) : transaction := MkTxn write [] ∅.

(** Result of an operation: the error of the code, or a panic. *)
Inductive outcome (A : Type) : Type :=
| Done (a : A)
| Fails (e : storage_error)
| Panics.
Arguments Done {A} a.
Arguments Fails {A} e.
Arguments Panics {A}.

(** How the scan over the pending updates ends: [Next] goes on to make a new
    update, [Returned] leaves [Write]. *)
Inductive scan_end : Type := Next | Returned (r : outcome unit).

(** The loop of [Write].  It returns the updates that are left, because those
    removed on the way stay removed even when the write fails later. *)
Fixpoint write_scan (op : PatchOp) (p : path) (value : json) (us : list update) :
    list update * scan_end :=
  match us with
  | [] => ([], Next)
  | u :: us' =>
      if Path_Equal (u_path u) p then
        if u_remove u && negb (is_add op)
        then (us, Returned (Fails (NotFoundErr p DoesNotExistMsg)))
        else (us', Next)
      else if Path_HasPrefix (u_path u) p then write_scan op p value us'
      else if Path_HasPrefix p (u_path u) then
        if u_remove u then (us, Returned (Fails (NotFoundErr p DoesNotExistMsg)))
        else
          let suffix := drop (length (u_path u)) p in
          match newUpdate (u_value u) op suffix suffix value with
          | Err e => (us, Returned (Fails e))
          | Ok nu =>
              match Apply nu (u_value u) with
              | Some v => (MkUpdate (u_path u) (u_remove u) v :: us', Returned (Done tt))
              | None => (us, Returned Panics)
              end
          end
      else
        let '(us'', r) := write_scan op p value us' in (u :: us'', r)
  end.

Definition set_updates (txn : transaction) (us : list update) : transaction :=
  MkTxn (t_write txn) us (t_policies txn).

Definition updateRoot (txn : transaction) (op : PatchOp) (value : json) :
    transaction * outcome unit :=
  match op, value with
  | RemoveOp, _ => (txn, Fails InvalidPatchErr)
  | _, JObj _ => (set_updates txn [MkUpdate [] false value], Done tt)
  | _, _ => (txn, Fails InvalidPatchErr)
  end.

Definition Write (d : db) (txn : transaction) (op : PatchOp) (p : path) (value : json) :
    transaction * outcome unit :=
  if negb (t_write txn) then (txn, Fails InvalidTransactionErr)
  else
    match p with
    | [] => updateRoot txn op value
    | _ =>
        let '(us, r) := write_scan op p value (t_updates txn) in
        match r with
        | Returned r => (set_updates txn us, r)
        | Next =>
            match newUpdate (db_data d) op p p value with
            | Err e => (set_updates txn us, Fails e)
            | Ok u => (set_updates txn (u :: us), Done tt)
            end
        end
    end.

(** [Commit]: the data after applying the updates front to back ([None] for a
    panic), and the policies after applying theirs. *)
Definition apply_all (us : list update) (data : json) : option json :=
  fold_left (fun d u => match d with Some d => Apply u d | None => None end) us (Some data).

Definition commit_policies (ps : gmap string policyUpdate) (old : gmap string string) :
    gmap string string :=
  map_fold (fun id u db => if pu_remove u then delete id db else <[id := pu_value u]> db) old ps.

Definition Commit (d : db) (txn : transaction) : option db :=
  match apply_all (t_updates txn) (db_data d) with
  | Some data => Some (MkDb data (commit_policies (t_policies txn) (db_policies d)))
  | None => None
  end.

(** The loop of [Read]: an update at or above the path answers the read, updates
    below it are collected. *)
Inductive read_scan_end : Type :=
| Answered (r : outcome json)
| Merge (us : list update).

Definition of_res {A} (r : res storage_error A) : outcome A :=
  match r with Ok a => Done a | Err e => Fails e end.

Fixpoint read_scan (p : path) (us : list update) (merge : list update) : read_scan_end :=
  match us with
  | [] => Merge merge
  | u :: us =>
      if Path_HasPrefix p (u_path u) then
        Answered (if u_remove u then Fails (NotFoundErr p DoesNotExistMsg)
                  else of_res (Ptr (u_value u) (drop (length (u_path u)) p)))
      else if Path_HasPrefix (u_path u) p then read_scan p us (merge ++ [u])
      else read_scan p us merge
  end.

Definition Read (d : db) (txn : transaction) (p : path) : outcome json :=
  if negb (t_write txn) then of_res (Ptr (db_data d) p)
  else
    match read_scan p (t_updates txn) [] with
    | Answered r => r
    | Merge merge =>
        match Ptr (db_data d) p with
        | Err e => Fails e
        | Ok data =>
            match apply_all (map (fun u => Relative u p) merge) data with
            | Some v => Done v
            | None => Panics
            end
        end
    end.

(** ** Policies *)
Definition GetPolicy (d : db) (txn : transaction) (id : string) : outcome string :=
  match t_policies txn !! id with
  | Some u => if pu_remove u then Fails (PolicyNotFoundErr id) else Done (pu_value u)
  | None =>
      match db_policies d !! id with
      | Some bs => Done bs
      | None => Fails (PolicyNotFoundErr id)
      end
  end.

(** The ids, in the order in which the two maps happen to be ranged over. *)
Definition ListPolicies (d : db) (txn : transaction) : list string :=
  List.filter (fun id => match t_policies txn !! id with Some _ => false | None => true end)
    (map fst (map_to_list (db_policies d))) ++
  map fst (List.filter (fun iu => negb (pu_remove iu.2)) (map_to_list (t_policies txn))).

Definition set_policy (txn : transaction) (id : string) (u : policyUpdate) :
    transaction * outcome unit :=
  if negb (t_write txn) then (txn, Fails InvalidTransactionErr)
  else (MkTxn (t_write txn) (t_updates txn) (<[id := u]> (t_policies txn)), Done tt).
Definition UpsertPolicy (txn : transaction) (id bs : string) : transaction * outcome unit :=
  set_policy txn id (MkPolicyUpdate bs false).
Definition DeletePolicy (txn : transaction) (id : string) : transaction * outcome unit :=
  set_policy txn id (MkPolicyUpdate EmptyString true).
(** [store.DeletePolicy] looks the policy up first. *)
Definition store_DeletePolicy (d : db) (txn : transaction) (id : string) :
    transaction * outcome unit :=
  match GetPolicy d txn id with
  | Done _ => DeletePolicy txn id
  | Fails e => (txn, Fails e)
  | Panics => (txn, Panics)
  end.
