(* ===== verification/InmemTxn.v ===== *)
(** Correctness of transactions of the in-memory store (definitions in
    Inmem.v): on documents without arrays, a transaction behaves as the sequence
    of its patches, for reads inside it and for its commit; and its policy
    operations behave as a map. *)
From Stdlib Require Import ZArith Lia String.
From stdpp Require Import base gmap list strings.
From S2P Require Import Prelude Path Json Inmem.

(** ** The specification: one patch after the other *)
Definition patch (d : json) (op : PatchOp) (p : path) (v : json) : option json :=
  match p with
  | [] =>
      match op, v with
      | RemoveOp, _ => None
      | _, JObj _ => Some v
      | _, _ => None
      end
  | _ =>
      match olookup d (removelast p), olookup d p, op with
      | Some (JObj _), Some _, _ | Some (JObj _), None, AddOp =>
          Some (oset d p (if is_remove op then None else Some v))
      | _, _, _ => None
      end
  end.

Definition write_op : Type := PatchOp * path * json.
Definition patches (ws : list write_op) (d : json) : option json :=
  fold_left (fun d w => match d with Some d => patch d w.1.1 w.1.2 w.2 | None => None end) ws (Some d).

(** The writes of a transaction; [None] as soon as one does not succeed. *)
Fixpoint run_writes (d : db) (txn : transaction) (ws : list write_op) : option transaction :=
  match ws with
  | [] => Some txn
  | (op, p, v) :: ws =>
      match Write d txn op p v with
      | (txn, Done _) => run_writes d txn ws
      | _ => None
      end
  end.

(** ** Pending updates as an update of the document *)
Definition uval (u : update) : option json := if u_remove u then None else Some (u_value u).
Definition put (d : json) (u : update) : json := oset d (u_path u) (uval u).
Definition view (us : list update) (d : json) : json := fold_left put us d.

Definition fits (d : json) (u : update) : Prop :=
  (u_path u <> [] /\ parent_obj d (u_path u)) \/ (u_path u = [] /\ u_remove u = false).

Record inv (d : json) (us : list update) : Prop := {
  inv_disjoint : ForallOrdPairs (fun u v => disjoint_paths (u_path u) (u_path v)) us;
  inv_fits : Forall (fits d) us;
  inv_free : Forall (fun u => array_free (u_value u)) us;
}.

Lemma Ptr_olookup full d p :
  array_free d ->
  Ptr_loop full d p = match olookup d p with
                      | Some v => Ok v
                      | None => Err (NotFoundErr full DoesNotExistMsg)
                      end.
Proof.
  revert d. induction p as [|k p IH]; intros d H; simpl; [done|].
  destruct H as [| | | |m H]; try done. destruct (m !! k) eqn:E; [|done]. apply IH. eauto.
Qed.

Lemma newUpdate_ok d op p rest v u :
  array_free d -> newUpdate d op p rest v = Ok u ->
  u = MkUpdate p (is_remove op) v /\ rest <> [] /\ parent_obj d rest /\
  (is_add op = false -> is_Some (olookup d rest)).
Proof.
  revert d. induction rest as [|k rest IH]; intros d H; [done|].
  destruct H as [| | | |m H]; try done. cbn [newUpdate]. destruct rest as [|k' rest].
  - intros E. assert (u = MkUpdate p (is_remove op) v /\ (is_add op = false -> is_Some (m !! k)))
      as [-> Hs].
    { destruct op, (m !! k); simplify_eq/=; done. }
    split_ands; [done|done|by exists m|]. intros Ha. simpl. by destruct (Hs Ha) as [x ->].
  - destruct (m !! k) as [d|] eqn:E; [|done]. intros Hn.
    destruct (IH d) as (-> & Hr & Hp & He); [by eauto|done|].
    split_ands; [done|done| |].
    + apply parent_obj_cons. eauto.
    + intros Ha. cbn [olookup]. rewrite E. by apply He.
Qed.

Lemma modify_oset d p k f x m :
  olookup d p = Some (JObj m) -> f (JObj m) = Some (JObj (partial_alter (fun _ => x) k m)) ->
  modify d p f = Some (oset d (p ++ [k]) x).
Proof.
  revert d. induction p as [|l p IH]; intros d Hd Hf; simpl in *.
  - by simplify_eq.
  - destruct d as [| | | | |m']; try done. destruct (m' !! l) as [d|] eqn:E; [|done].
    rewrite (IH d Hd Hf). simpl.
    destruct (p ++ [k]) as [|] eqn:Ep; [by destruct p|done].
Qed.

Lemma Apply_put d u : fits d u -> Apply u d = Some (put d u).
Proof.
  unfold Apply, put, uval. intros [[Hp [m Hm]]|[Hp Hr]].
  - destruct u as [p r v]. simpl in *. destruct p as [|k p] using rev_ind; [done|].
    rewrite last_snoc. rewrite removelast_last in *.
    apply (modify_oset _ _ _ _ _ m Hm). unfold apply_parent. by destruct r.
  - rewrite Hp, Hr. done.
Qed.

Lemma fits_put d u w :
  disjoint_paths (u_path u) (u_path w) -> fits d w -> fits (put d u) w.
Proof.
  intros D [[Hp Hd]|H]; [left|by right]. split; [done|].
  apply parent_obj_disjoint; [|done]. by apply disjoint_paths_sym.
Qed.

Lemma inv_tail d u us : inv d (u :: us) -> inv (put d u) us.
Proof.
  intros [D F A]. inversion D as [|? ? Du D']; subst.
  apply Forall_cons in F as [_ F], A as [_ A]. split; [done| |done].
  rewrite Forall_forall in *. intros w Hw. apply fits_put; auto.
Qed.

Lemma apply_all_cons u us d :
  apply_all (u :: us) d = match Apply u d with Some d => apply_all us d | None => None end.
Proof.
  unfold apply_all. simpl. destruct (Apply u d); [done|]. by induction us.
Qed.

Lemma apply_all_view us d : inv d us -> apply_all us d = Some (view us d).
Proof.
  revert d. induction us as [|u us IH]; intros d I; [done|].
  rewrite apply_all_cons. pose proof (inv_fits _ _ I) as F. apply Forall_cons in F as [F _].
  rewrite Apply_put by done. by apply IH, inv_tail.
Qed.

Lemma view_cons u us d : view (u :: us) d = view us (put d u).
Proof. done. Qed.

(** An update at a path that no pending one overlaps can be made first. *)
Lemma view_commute us d p x :
  Forall (fun u => disjoint_paths p (u_path u)) us ->
  view us (oset d p x) = oset (view us d) p x.
Proof.
  intros H. revert d. induction H as [|u us Hu _ IH]; intros d; [done|].
  rewrite !view_cons. unfold put. rewrite oset_commute by done. apply IH.
Qed.

Lemma olookup_view us d p :
  Forall (fun u => disjoint_paths p (u_path u)) us -> olookup (view us d) p = olookup d p.
Proof.
  intros H. revert d. induction H as [|u us Hu _ IH]; intros d; [done|].
  rewrite view_cons, IH. apply olookup_oset_disjoint. by apply disjoint_paths_sym.
Qed.

Lemma parent_obj_view us d p :
  Forall (fun u => disjoint_paths p (u_path u)) us -> parent_obj d p -> parent_obj (view us d) p.
Proof.
  intros H. revert d. induction H as [|u us Hu _ IH]; intros d Hd; [done|].
  rewrite view_cons. by apply IH, parent_obj_disjoint.
Qed.

Lemma parent_obj_above d p s x : p <> [] -> parent_obj d p -> parent_obj (oset d (p ++ s) x) p.
Proof.
  intros Hp [m Hm]. destruct p as [|k p] using rev_ind; [done|]. clear IHp.
  unfold parent_obj. rewrite removelast_last in *. rewrite <- app_assoc.
  rewrite olookup_oset_below, Hm by done. simpl app. cbn [option_map].
  rewrite oset_cons. destruct s; [eauto|]. destruct (m !! k); eauto.
Qed.

Lemma inv_sublist d us us' : us' `sublist_of` us -> inv d us -> inv d us'.
Proof.
  intros S [D F A]. split; [|by eapply Forall_sublist..].
  clear F A. induction S as [|u us' us S IH|u us' us S IH]; [done| |];
    inversion D as [|? ? Du D']; subst; [|auto].
  constructor; [by eapply Forall_sublist|auto].
Qed.

(** The four ways in which the path of an update and of a write can relate. *)
Lemma path_cases p q (P : Prop) :
  (p = q -> P) ->
  (forall s, p <> q -> s <> [] -> p = q ++ s -> P) ->
  (forall s, s <> [] -> q = p ++ s -> P) ->
  (disjoint_paths p q -> P) -> P.
Proof.
  intros H1 H2 H3 H4. destruct (decide (p = q)) as [|N]; [auto|].
  destruct (decide (q `prefix_of` p)) as [[s E]|N1].
  { apply (H2 s); [done| |done]. intros ->. by rewrite app_nil_r in E. }
  destruct (decide (p `prefix_of` q)) as [[s E]|N2].
  { apply (H3 s); [|done]. intros ->. rewrite app_nil_r in E. by destruct N. }
  by apply H4.
Qed.

(** One step of the scan, by the relation of the paths. *)
Lemma write_scan_cons op p v u us :
  write_scan op p v (u :: us) =
    if decide (u_path u = p) then
      if u_remove u && negb (is_add op)
      then (u :: us, Returned (Fails (NotFoundErr p DoesNotExistMsg)))
      else (us, Next)
    else if decide (p `prefix_of` u_path u) then write_scan op p v us
    else if decide (u_path u `prefix_of` p) then
      if u_remove u then (u :: us, Returned (Fails (NotFoundErr p DoesNotExistMsg)))
      else
        let suffix := drop (length (u_path u)) p in
        match newUpdate (u_value u) op suffix suffix v with
        | Err e => (u :: us, Returned (Fails e))
        | Ok nu =>
            match Apply nu (u_value u) with
            | Some w => (MkUpdate (u_path u) (u_remove u) w :: us, Returned (Done tt))
            | None => (u :: us, Returned Panics)
            end
        end
    else let '(us', r) := write_scan op p v us in (u :: us', r).
Proof.
  cbn [write_scan].
  pose proof (Path_Equal_true (u_path u) p) as E1.
  pose proof (Path_HasPrefix_true (u_path u) p) as E2.
  pose proof (Path_HasPrefix_true p (u_path u)) as E3.
  destruct (Path_Equal (u_path u) p), (decide (u_path u = p)) as [?|N1]; try done;
    [by destruct N1; apply E1|by discriminate (proj2 E1 ltac:(done))|].
  destruct (Path_HasPrefix (u_path u) p), (decide (p `prefix_of` u_path u)) as [?|N2]; try done;
    [by destruct N2; apply E2|by discriminate (proj2 E2 ltac:(done))|].
  destruct (Path_HasPrefix p (u_path u)), (decide (u_path u `prefix_of` p)) as [?|N3]; try done;
    [by destruct N3; apply E3|by discriminate (proj2 E3 ltac:(done))].
Qed.

Lemma scan_next op p v us us' d :
  inv d us -> p <> [] -> write_scan op p v us = (us', Next) ->
  us' `sublist_of` us /\ Forall (fun u => disjoint_paths p (u_path u)) us' /\
  (forall x, view us' (oset d p x) = oset (view us d) p x) /\
  (parent_obj d p -> parent_obj (view us d) p) /\
  (is_add op = false -> is_Some (olookup d p) -> is_Some (olookup (view us d) p)).
Proof.
  intros I Hp. revert d us' I. induction us as [|u us IH]; intros d us' I.
  { intros [= <-]. split_ands; [done|constructor|done|done|done]. }
  pose proof (inv_tail _ _ _ I) as I'. pose proof (inv_disjoint _ _ I) as D.
  inversion D as [|? ? Du _]; subst. rewrite write_scan_cons, view_cons.
  destruct (decide (u_path u = p)) as [E|N].
  { destruct (u_remove u && negb (is_add op)) eqn:R; [done|]. intros [= ->].
    rewrite E in Du. pose proof (fun x => view_commute us' d p x Du) as C.
    unfold put. rewrite E. split_ands.
    - by constructor.
    - done.
    - intros x. rewrite !view_commute by done.
      pose proof (oset_mask (view us' d) p [] (uval u) x Hp) as M. by rewrite app_nil_r in M.
    - intros Hd. apply parent_obj_view; [done|].
      pose proof (parent_obj_above d p [] (uval u) Hp Hd) as M. by rewrite app_nil_r in M.
    - intros Ha Hs. rewrite olookup_view by done. rewrite Ha, andb_true_r in R.
      unfold uval. rewrite R. pose proof (inv_fits _ _ I) as F.
      apply Forall_cons in F as [[[_ F]|[F _]] _]; [|congruence]. rewrite E in F.
      pose proof (olookup_oset_at d p [] (Some (u_value u)) Hp F) as L.
      rewrite app_nil_r in L. by rewrite L. }
  destruct (decide (p `prefix_of` u_path u)) as [[s E]|N2].
  { intros W. destruct (IH _ _ I' W) as (S & Dp & V & Pa & Ex).
    assert (Hs : s <> []) by (intros ->; by rewrite app_nil_r in E).
    assert (M : forall x, oset (put d u) p x = oset d p x)
      by (intros x; unfold put; rewrite E; by apply oset_mask).
    split_ands; [by constructor|done| | |].
    - intros x. by rewrite <- V, M.
    - intros Hd. apply Pa. unfold put. rewrite E. by apply parent_obj_above.
    - intros Ha Hd. apply Ex; [done|]. unfold put. rewrite E, olookup_oset_below by done.
      destruct Hd as [? ->]. done. }
  destruct (decide (u_path u `prefix_of` p)) as [[s E]|N3].
  { cbv zeta. by repeat case_match. }
  assert (Dpu : disjoint_paths p (u_path u)) by by split.
  destruct (write_scan op p v us) as [us'' r] eqn:W. intros [= <- ->].
  destruct (IH _ _ I' eq_refl) as (S & Dp & V & Pa & Ex). split_ands.
  - by constructor.
  - by constructor.
  - intros x. rewrite view_cons, <- V. unfold put. by rewrite oset_commute.
  - intros Hd. by apply Pa, parent_obj_disjoint.
  - intros Ha Hd. apply Ex; [done|]. unfold put.
    by rewrite olookup_oset_disjoint by (by apply disjoint_paths_sym).
Qed.

Lemma patch_defined d op p v m :
  p <> [] -> olookup d (removelast p) = Some (JObj m) ->
  (is_add op = false -> is_Some (olookup d p)) ->
  patch d op p v = Some (oset d p (if is_remove op then None else Some v)).
Proof.
  intros Hp Hm He. destruct p as [|k p]; [done|]. unfold patch. rewrite Hm.
  destruct (olookup d (k :: p)) eqn:E; [done|]. destruct op; [done|..];
    by destruct (He eq_refl).
Qed.

(** Looking below the path of a pending update looks into its value. *)
Lemma olookup_below d u us s w :
  inv d (u :: us) -> uval u = Some w -> olookup (view (u :: us) d) (u_path u ++ s) = olookup w s.
Proof.
  intros I Hw. rewrite view_cons. pose proof (inv_disjoint _ _ I) as D.
  inversion D as [|? ? Du _]; subst. rewrite olookup_view.
  - unfold put. rewrite Hw. pose proof (inv_fits _ _ I) as F.
    apply Forall_cons in F as [[[Hp F]|[-> _]] _]; [|done].
    by rewrite olookup_oset_at.
  - eapply Forall_impl; [exact Du|]. intros x. apply disjoint_paths_ext.
Qed.

Lemma removelast_app_ne {A} (p s : list A) : s <> [] -> removelast (p ++ s) = p ++ removelast s.
Proof. apply removelast_app. Qed.

(** A write below a pending update amends the update. *)
Lemma amend_ok d u us op s v nu :
  inv d (u :: us) -> u_remove u = false -> array_free v ->
  newUpdate (u_value u) op s s v = Ok nu ->
  exists w, Apply nu (u_value u) = Some w /\
    patch (view (u :: us) d) op (u_path u ++ s) v =
      Some (view (MkUpdate (u_path u) (u_remove u) w :: us) d) /\
    inv d (MkUpdate (u_path u) (u_remove u) w :: us).
Proof.
  intros I R Av N. pose proof (inv_free _ _ I) as A. apply Forall_cons in A as [Au A].
  destruct (newUpdate_ok _ _ _ _ _ _ Au N) as (-> & Hs & Hpar & Hex).
  set (x := if is_remove op then None else Some v).
  assert (Hx : uval (MkUpdate s (is_remove op) v) = x) by (unfold x, uval; by destruct op).
  exists (oset (u_value u) s x). pose proof (inv_disjoint _ _ I) as D.
  inversion D as [|? ? Du D']; subst.
  assert (Hw : uval u = Some (u_value u)) by (unfold uval; by rewrite R).
  split_ands.
  - rewrite Apply_put by (by left). unfold put. by rewrite Hx.
  - destruct Hpar as [m Hm]. rewrite (patch_defined _ op _ v m).
    + fold x. f_equal. rewrite !view_cons. unfold put. simpl. rewrite Hw. unfold uval at 1.
      simpl. rewrite R. rewrite <- (oset_below d (u_path u) s) by done.
      symmetry. apply view_commute. eapply Forall_impl; [exact Du|]. intros y. apply disjoint_paths_ext.
    + by destruct (u_path u), s.
    + rewrite removelast_app by done. by rewrite (olookup_below d u us _ (u_value u)).
    + intros Ha. rewrite (olookup_below d u us _ (u_value u)) by done. by apply Hex.
  - destruct I as [_ F _]. apply Forall_cons in F as [Fu F]. split.
    + constructor; done.
    + constructor; [|done]. destruct Fu as [H|H]; [by left|by right].
    + constructor; [|done]. apply array_free_oset; [done|].
      intros y. unfold x. destruct op; simpl; by intros [= <-].
Qed.

Definition fails {A} (r : outcome A) : bool := match r with Fails _ => true | _ => false end.

(** When the scan itself finishes the write, it does so at an update above the
    path, and has not removed any update before. *)
Lemma scan_returned_split op p v us us' r d :
  inv d us -> write_scan op p v us = (us', Returned r) -> fails r = false ->
  exists us1 u us2 s nu, us = us1 ++ u :: us2 /\ p = u_path u ++ s /\ u_remove u = false /\
    newUpdate (u_value u) op s s v = Ok nu /\
    match Apply nu (u_value u) with
    | Some w => us' = us1 ++ MkUpdate (u_path u) (u_remove u) w :: us2 /\ r = Done tt
    | None => r = Panics
    end.
Proof.
  intros I. revert d us' I. induction us as [|u us IH]; intros d us' I; [done|].
  pose proof (inv_tail _ _ _ I) as I'. pose proof (inv_disjoint _ _ I) as D.
  inversion D as [|? ? Du _]; subst. rewrite write_scan_cons.
  destruct (decide (u_path u = p)) as [E|N]; [by case_match; intros [= <- <-]|].
  destruct (decide (p `prefix_of` u_path u)) as [Pu|N2].
  { intros W Hr. destruct (IH _ _ I' W Hr) as (us1 & w & us2 & s & nu & -> & -> & _).
    apply Forall_app in Du as [_ [[_ Dw] _]%Forall_cons]. destruct Dw.
    etransitivity; [|exact Pu]. by exists s. }
  destruct (decide (u_path u `prefix_of` p)) as [[s ->]|N3].
  { destruct (u_remove u) eqn:R; [by intros [= <- <-]|]. rewrite drop_app_length. cbv zeta.
    destruct (newUpdate (u_value u) op s s v) as [nu|e] eqn:Nu; [|by intros [= <- <-]].
    intros W Hr. exists [], u, us, s, nu. split_ands; [done|done|done|done|].
    rewrite R. destruct (Apply nu (u_value u)); by simplify_eq/=. }
  destruct (write_scan op p v us) as [us'' r'] eqn:W. intros [= <- ->] Hr.
  destruct (IH _ us'' I' eq_refl Hr) as (us1 & w & us2 & s & nu & -> & E & R & Nu & M).
  exists (u :: us1), w, us2, s, nu. split_ands; [done|done|done|done|].
  destruct (Apply nu (u_value w)); [|done]. destruct M as [-> ->]. done.
Qed.

Lemma view_app us1 us2 d : view (us1 ++ us2) d = view us2 (view us1 d).
Proof. apply fold_left_app. Qed.

Lemma inv_app d us1 us2 : inv d (us1 ++ us2) -> inv (view us1 d) us2.
Proof.
  revert d. induction us1 as [|u us1 IH]; intros d I; [done|].
  rewrite view_cons. by apply IH, inv_tail.
Qed.

Lemma inv_replace d us1 us2 u w :
  inv d (us1 ++ u :: us2) -> array_free w ->
  inv d (us1 ++ MkUpdate (u_path u) (u_remove u) w :: us2).
Proof.
  intros [D F A] Hw. split.
  - clear F A. induction us1 as [|x us1 IH]; simpl in *; inversion D; subst; constructor; auto.
    rewrite !Forall_app, !Forall_cons in *. done.
  - rewrite Forall_app, Forall_cons in *. destruct F as (? & Fu & ?). split_ands; [done| |done].
    destruct Fu; [by left|by right].
  - rewrite Forall_app, Forall_cons in *. naive_solver.
Qed.

Lemma scan_returned op p v us us' r d :
  inv d us -> array_free v -> write_scan op p v us = (us', Returned r) ->
  match r with
  | Done _ => patch (view us d) op p v = Some (view us' d) /\ inv d us'
  | Fails _ => True
  | Panics => False
  end.
Proof.
  intros I Av W. destruct (fails r) eqn:Hr; [by destruct r|].
  destruct (scan_returned_split _ _ _ _ _ _ _ I W Hr) as (us1 & u & us2 & s & nu & -> & -> & R & Nu & M).
  destruct (amend_ok _ u us2 op s v nu (inv_app _ _ _ I) R Av Nu) as (w & Ew & Hv & Hi).
  rewrite Ew in M. destruct M as [-> ->]. rewrite !view_app. split; [done|].
  apply inv_replace; [done|]. apply inv_free in Hi. by apply Forall_cons in Hi as [? _].
Qed.

Lemma inv_root d v : array_free v -> inv d [MkUpdate [] false v].
Proof.
  intros A. split; [|apply Forall_singleton; by right|by apply Forall_singleton].
  apply FOP_cons; [by apply Forall_nil|apply FOP_nil].
Qed.

(** Every successful write is a patch of the view, and no write panics. *)
Lemma Write_ok d txn op p v txn' r :
  array_free (db_data d) -> array_free v -> t_write txn = true ->
  inv (db_data d) (t_updates txn) -> Write d txn op p v = (txn', r) ->
  t_write txn' = true /\
  match r with
  | Done _ => patch (view (t_updates txn) (db_data d)) op p v =
                Some (view (t_updates txn') (db_data d)) /\
              inv (db_data d) (t_updates txn')
  | Fails _ => True
  | Panics => False
  end.
Proof.
  intros Ad Av Hw I. unfold Write. rewrite Hw. cbn [negb]. destruct p as [|k p].
  { unfold updateRoot. destruct op, v; intros [= <- <-]; try done;
      (split; [done|]; split; [done|by apply inv_root]). }
  destruct (write_scan op (k :: p) v (t_updates txn)) as [us e] eqn:W. destruct e as [|r'].
  - destruct (scan_next op (k :: p) v _ us _ I ltac:(done) W) as (S & Dp & V & Pa & Ex).
    destruct (newUpdate (db_data d) op (k :: p) (k :: p) v) as [u|e] eqn:Nu; intros [= <- <-]; [|done].
    destruct (newUpdate_ok _ _ _ _ _ _ Ad Nu) as (-> & Hs & Hpar & Hex).
    split; [done|]. split.
    + destruct (Pa Hpar) as [m Hm]. rewrite (patch_defined _ _ _ _ m); [|done|done|auto].
      cbn [t_updates set_updates]. rewrite view_cons. unfold put, uval.
      cbn [u_path u_remove u_value]. by rewrite V.
    + pose proof (inv_sublist _ _ _ S I) as [D F A]. split; simpl.
      * by constructor.
      * constructor; [by left|done].
      * by constructor.
  - pose proof (scan_returned _ _ _ _ _ _ _ I Av W) as H. intros [= <- <-]. done.
Qed.

(** ** Reads *)
Definition below (p : path) (u : update) : bool := Path_HasPrefix (u_path u) p.

Lemma read_scan_merge p us acc :
  Forall (fun u => ~ u_path u `prefix_of` p) us ->
  read_scan p us acc = Merge (acc ++ List.filter (below p) us).
Proof.
  intros H. revert acc. induction H as [|u us Hu _ IH]; intros acc; simpl; [by rewrite app_nil_r|].
  destruct (Path_HasPrefix p (u_path u)) eqn:E; [by apply Path_HasPrefix_true in E|].
  unfold below at 1. destruct (Path_HasPrefix (u_path u) p); rewrite IH; [|done].
  by rewrite <- app_assoc.
Qed.

Lemma read_scan_answer p us1 u us2 acc :
  Forall (fun w => ~ u_path w `prefix_of` p) us1 -> u_path u `prefix_of` p ->
  read_scan p (us1 ++ u :: us2) acc =
    Answered (if u_remove u then Fails (NotFoundErr p DoesNotExistMsg)
              else of_res (Ptr (u_value u) (drop (length (u_path u)) p))).
Proof.
  intros H Hu. revert acc. induction H as [|w us Hw _ IH]; intros acc; simpl.
  - by rewrite (proj2 (Path_HasPrefix_true p (u_path u)) Hu).
  - destruct (Path_HasPrefix p (u_path w)) eqn:E; [by apply Path_HasPrefix_true in E|].
    by destruct (Path_HasPrefix (u_path w) p).
Qed.

(** The pending updates split at the first one above [p], if there is one. *)
Lemma first_above p (us : list update) :
  Forall (fun u => ~ u_path u `prefix_of` p) us \/
  exists us1 u us2, us = us1 ++ u :: us2 /\ u_path u `prefix_of` p /\
    Forall (fun w => ~ u_path w `prefix_of` p) us1.
Proof.
  induction us as [|u us IH]; [by left|].
  destruct (decide (u_path u `prefix_of` p)) as [P|N]; [right; by exists [], u, us|].
  destruct IH as [H|(us1 & w & us2 & -> & P & H)]; [left; by constructor|].
  right. exists (u :: us1), w, us2. split_ands; [done|done|by constructor].
Qed.

Lemma below_relative p u :
  below p u = true -> u_path u = p ++ u_path (Relative u p).
Proof.
  intros [s E]%Path_HasPrefix_true. unfold Relative. simpl. by rewrite E, drop_app_length.
Qed.

Lemma disjoint_app p s t : disjoint_paths (p ++ s) (p ++ t) -> disjoint_paths s t.
Proof. intros [H1 H2]. split; intros H; [apply H1|apply H2]; by apply prefix_app. Qed.

Lemma inv_relative p us d v :
  inv d us -> Forall (fun u => ~ u_path u `prefix_of` p) us -> olookup d p = Some v ->
  inv v (map (fun u => Relative u p) (List.filter (below p) us)).
Proof.
  intros [D F A] H Hv.
  induction us as [|u us IH]; simpl; [split; [apply FOP_nil|by apply Forall_nil..]|].
  inversion D as [|? ? Du D']; subst.
  apply Forall_cons in F as [Fu F], A as [Au A], H as [Hu H]. specialize (IH D' F A H).
  destruct (below p u) eqn:B; [|done]. pose proof (below_relative p u B) as E.
  assert (Hs : u_path (Relative u p) <> []).
  { intros E0. rewrite E0, app_nil_r in E. by rewrite E in Hu. }
  destruct IH as [D2 F2 A2]. simpl. split.
  - apply FOP_cons; [|done]. rewrite Forall_forall in Du. apply Forall_forall.
    intros r (w & -> & [Hw Bw]%list_elem_of_In%filter_In)%list_elem_of_fmap.
    apply list_elem_of_In, Du in Hw. rewrite E, (below_relative p w Bw) in Hw.
    by apply disjoint_app in Hw.
  - constructor; [|done]. left. split; [done|]. destruct Fu as [[_ [m Hm]]|[E0 _]].
    + exists m. rewrite E, removelast_app, olookup_app, Hv in Hm by done. done.
    + rewrite E0 in E. destruct p; [by destruct (u_path (Relative u [])) |done].
  - by constructor.
Qed.

(** What the view holds at [p] when no pending update is above [p]: the stored
    document with the updates below [p] applied. *)
Lemma view_merge p us d :
  inv d us -> Forall (fun u => ~ u_path u `prefix_of` p) us ->
  olookup (view us d) p =
    option_map (view (map (fun u => Relative u p) (List.filter (below p) us))) (olookup d p).
Proof.
  intros I H. revert d I. induction H as [|u us Hu H IH]; intros d I.
  { simpl. by destruct (olookup d p). }
  rewrite view_cons, (IH _ (inv_tail _ _ _ I)). simpl. destruct (below p u) eqn:B.
  - pose proof (below_relative p u B) as E.
    assert (Hs : u_path (Relative u p) <> []).
    { intros E0. rewrite E0, app_nil_r in E. by rewrite E in Hu. }
    unfold put at 1. rewrite E, olookup_oset_below by done.
    by destruct (olookup d p).
  - assert (Dp : disjoint_paths (u_path u) p).
    { split; [done|]. intros P. apply Path_HasPrefix_true in P. unfold below in B. congruence. }
    unfold put at 1. by rewrite olookup_oset_disjoint.
Qed.

Lemma Read_ok d txn p :
  array_free (db_data d) -> t_write txn = true -> inv (db_data d) (t_updates txn) ->
  match Read d txn p with
  | Done v => olookup (view (t_updates txn) (db_data d)) p = Some v
  | Fails _ => olookup (view (t_updates txn) (db_data d)) p = None
  | Panics => False
  end.
Proof.
  intros Ad Hw I. unfold Read. rewrite Hw. cbn [negb].
  destruct (first_above p (t_updates txn)) as [H|(us1 & u & us2 & Eus & [s ->] & H)].
  - rewrite read_scan_merge by done. simpl app. unfold Ptr. rewrite Ptr_olookup by done.
    rewrite view_merge by done. destruct (olookup (db_data d) p) as [v|] eqn:E; [|done].
    simpl. rewrite apply_all_view; [done|]. by apply (inv_relative p _ (db_data d)).
  - rewrite Eus in *. rewrite read_scan_answer by (done || by exists s).
    rewrite drop_app_length, view_app. pose proof (inv_app _ _ _ I) as I2.
    destruct (u_remove u) eqn:R.
    + rewrite view_cons. pose proof (inv_disjoint _ _ I2) as D. inversion D as [|? ? Du _]; subst.
      rewrite olookup_view by (eapply Forall_impl; [exact Du|]; intros y; apply disjoint_paths_ext).
      unfold put, uval. rewrite R. pose proof (inv_fits _ _ I2) as F.
      apply Forall_cons in F as [[[Hp F]|[_ F]] _]; [|congruence]. by rewrite olookup_oset_at.
    + rewrite (olookup_below _ u us2 s (u_value u) I2) by (unfold uval; by rewrite R).
      unfold Ptr. rewrite Ptr_olookup.
      * by destruct (olookup (u_value u) s).
      * pose proof (inv_free _ _ I2) as A. by apply Forall_cons in A as [? _].
Qed.

Lemma inv_empty d : inv d [].
Proof. split; [apply FOP_nil|by apply Forall_nil..]. Qed.

Lemma run_writes_ok d ws : forall txn txn',
  array_free (db_data d) -> Forall (fun w => array_free w.2) ws -> t_write txn = true ->
  inv (db_data d) (t_updates txn) -> run_writes d txn ws = Some txn' ->
  t_write txn' = true /\ inv (db_data d) (t_updates txn') /\
  patches ws (view (t_updates txn) (db_data d)) = Some (view (t_updates txn') (db_data d)).
Proof.
  induction ws as [|[[op p] v] ws IH]; intros txn txn' Ad Aw Hw I; [by intros [= <-]|].
  apply Forall_cons in Aw as [Av Aw]. cbn [run_writes].
  destruct (Write d txn op p v) as [txn2 r] eqn:W.
  destruct (Write_ok d txn op p v txn2 r Ad Av Hw I W) as [Hw2 H]. destruct r as [a|e|]; [|done|done].
  destruct H as [Hp I2]. intros R. unfold patches. cbn [fold_left]. simpl fst. simpl snd. rewrite Hp.
  by apply (IH txn2).
Qed.

(** C6: A transaction of the in-memory store is the sequence of its writes: if
    every write of the transaction succeeds, applying the same patches one after
    the other to the stored document is possible too, its result is what the
    commit stores, and before the commit every read in the transaction returns
    what that document holds (and fails where it holds nothing), although the
    code only keeps a compacted set of updates, no two of which overlap.  The
    documents hold no arrays. *)
Theorem txn_refines_patches (d : db) (ws : list write_op) (txn : transaction) :
  array_free (db_data d) -> Forall (fun w => array_free w.2) ws ->
  run_writes d (newTransaction true) ws = Some txn ->
  ForallOrdPairs (fun u v => disjoint_paths (u_path u) (u_path v)) (t_updates txn) /\
  exists doc, patches ws (db_data d) = Some doc /\
    option_map db_data (Commit d txn) = Some doc /\
    forall p, match Read d txn p with
              | Done v => olookup doc p = Some v
              | Fails _ => olookup doc p = None
              | Panics => False
              end.
Proof.
  intros Ad Aw R.
  destruct (run_writes_ok d ws (newTransaction true) txn Ad Aw eq_refl (inv_empty _) R) as (Hw & I & E).
  split; [by apply (inv_disjoint _ _ I)|]. exists (view (t_updates txn) (db_data d)). split_ands; [done| |].
  - unfold Commit. by rewrite (apply_all_view _ _ I).
  - intros p. by apply Read_ok.
Qed.

Definition ex_db : db := MkDb (JObj {[ "a"%string := JObj ∅ ]}) ∅.
Definition ex_writes : list write_op :=
  [(AddOp, ["a"; "b"], JObj ∅); (AddOp, ["a"; "b"; "c"], JNum "1");
   (AddOp, ["a"; "d"], JNull); (RemoveOp, ["a"; "b"; "c"], JNull);
   (AddOp, ["x"], JBool true)]%string.

Lemma txn_refines_patches_witness :
  exists txn doc, run_writes ex_db (newTransaction true) ex_writes = Some txn /\
    patches ex_writes (db_data ex_db) = Some doc /\
    option_map db_data (Commit ex_db txn) = Some doc.
Proof.
  destruct (run_writes ex_db (newTransaction true) ex_writes) as [txn|] eqn:R;
    [|vm_compute in R; discriminate R].
  destruct (txn_refines_patches ex_db ex_writes txn) as (_ & doc & E & C & _).
  - constructor. intros k j Hj. apply lookup_singleton_Some in Hj as [_ <-].
    constructor. intros k' j' Hj. rewrite lookup_empty in Hj. discriminate Hj.
  - repeat constructor. intros k j Hj. rewrite lookup_empty in Hj. discriminate Hj.
  - exact R.
  - exists txn, doc. split; [reflexivity|]. split; [exact E|exact C].
Defined.

(** A document added in the transaction cannot be replaced in it: the write is
    refused, and the pending addition is lost on the way. *)
Lemma Write_replace_after_add :
  let d := MkDb (JObj ∅) ∅ in
  let '(t1, r1) := Write d (newTransaction true) AddOp ["a"] (JNum "1") in
  let '(t2, r2) := Write d t1 ReplaceOp ["a"] (JNum "2") in
  r1 = Done tt /\ Read d t1 ["a"] = Done (JNum "1") /\
  r2 = Fails (NotFoundErr ["a"] DoesNotExistMsg) /\
  Read d t2 ["a"] = Fails (NotFoundErr ["a"] DoesNotExistMsg) /\
  patches [(AddOp, ["a"], JNum "1"); (ReplaceOp, ["a"], JNum "2")] (db_data d) =
    Some (JObj {[ "a" := JNum "2" ]}).
Proof. vm_compute. split_ands; reflexivity. Qed.

(** With arrays the updates can overlap: the write to [/a/1/b] is applied after
    the insertion at [/a/0] has moved the element, and is lost. *)
Lemma Write_array_overlap :
  let o := JObj {[ "k" := JNull ]} in
  let d := MkDb (JObj {[ "a" := JArr [JNum "0"; JObj ∅] ]}) ∅ in
  exists txn, run_writes d (newTransaction true)
      [(AddOp, ["a"; "1"; "b"], JNum "7"); (AddOp, ["a"; "0"], o)] = Some txn /\
    map u_path (t_updates txn) = [["a"]; ["a"; "1"; "b"]] /\
    Commit d txn = Some (MkDb (JObj {[ "a" := JArr [o; JNum "0"; JObj ∅] ]}) ∅).
Proof. eexists. split; [vm_compute; reflexivity|]. split; vm_compute; reflexivity. Qed.

(** ** Policies *)
Lemma commit_policies_lookup ps old id :
  commit_policies ps old !! id =
    match ps !! id with
    | Some u => if pu_remove u then None else Some (pu_value u)
    | None => old !! id
    end.
Proof.
  unfold commit_policies. revert id.
  apply (map_fold_weak_ind (fun b m => forall id, b !! id =
    match m !! id with
    | Some u => if pu_remove u then None else Some (pu_value u)
    | None => old !! id
    end)); [intros id; by rewrite lookup_empty|].
  intros i u m b _ IH id. destruct (decide (i = id)) as [->|N].
  - rewrite lookup_insert_eq. destruct (pu_remove u); [apply lookup_delete_eq|apply lookup_insert_eq].
  - rewrite lookup_insert_ne by done. rewrite <- IH.
    destruct (pu_remove u); [by apply lookup_delete_ne|by apply lookup_insert_ne].
Qed.

Lemma ListPolicies_nodup d txn : NoDup (ListPolicies d txn).
Proof.
  unfold ListPolicies. apply NoDup_app. split_ands.
  - apply NoDup_ListNoDup, List.NoDup_filter, NoDup_ListNoDup, NoDup_fst_map_to_list.
  - intros x [Hx Hn]%list_elem_of_In%filter_In (iu & -> & Hiu)%list_elem_of_fmap.
    apply list_elem_of_In, filter_In in Hiu as [Hiu _].
    destruct iu as [i u]. apply list_elem_of_In, elem_of_map_to_list in Hiu. simpl in Hn.
    by rewrite Hiu in Hn.
  - pose proof (NoDup_fst_map_to_list (t_policies txn)) as N.
    induction (map_to_list (t_policies txn)) as [|iu l IH]; simpl in *; [constructor|].
    apply NoDup_cons in N as [N1 N2]. destruct (negb (pu_remove iu.2)); simpl; [|auto].
    constructor; [|auto]. intros (iu' & E & Hiu)%list_elem_of_fmap. apply N1.
    apply list_elem_of_fmap. exists iu'. split; [done|].
    apply list_elem_of_In, filter_In in Hiu as [Hiu _]. by apply list_elem_of_In.
Qed.

Lemma ListPolicies_elem d txn id :
  id ∈ ListPolicies d txn <->
  is_Some (commit_policies (t_policies txn) (db_policies d) !! id).
Proof.
  rewrite commit_policies_lookup. unfold ListPolicies. rewrite elem_of_app. split.
  - intros [[Hx Hn]%list_elem_of_In%filter_In|(iu & -> & Hiu)%list_elem_of_fmap].
    + destruct (t_policies txn !! id); [done|].
      apply list_elem_of_In, list_elem_of_fmap in Hx as ([i b] & -> & Hb).
      simpl. apply elem_of_map_to_list in Hb. by rewrite Hb.
    + apply list_elem_of_In, filter_In in Hiu as [Hiu Hr]. destruct iu as [i u].
      apply list_elem_of_In, elem_of_map_to_list in Hiu. simpl in *. rewrite Hiu.
      by destruct (pu_remove u).
  - destruct (t_policies txn !! id) as [u|] eqn:E.
    + destruct (pu_remove u) eqn:R; [by intros []|]. intros _. right.
      apply list_elem_of_fmap. exists (id, u). split; [done|].
      apply list_elem_of_In, filter_In. simpl. rewrite R. split; [|done].
      by apply list_elem_of_In, elem_of_map_to_list.
    + intros [b Hb]. left. apply list_elem_of_In, filter_In. rewrite E. split; [|done].
      apply list_elem_of_In, list_elem_of_fmap. exists (id, b). split; [done|].
      by apply elem_of_map_to_list.
Qed.

(** The policy operations of a transaction read the map its commit will
    store: [GetPolicy] looks an id up in that map, and [ListPolicies] lists each
    of its ids once. *)
Theorem policies_view (d : db) (txn : transaction) (id : string) :
  (match GetPolicy d txn id with Done bs => Some bs | _ => None end) =
    commit_policies (t_policies txn) (db_policies d) !! id /\
  NoDup (ListPolicies d txn) /\
  (id ∈ ListPolicies d txn <->
   is_Some (commit_policies (t_policies txn) (db_policies d) !! id)).
Proof.
  split_ands; [|apply ListPolicies_nodup|apply ListPolicies_elem].
  rewrite commit_policies_lookup. unfold GetPolicy.
  destruct (t_policies txn !! id) as [u|]; [by destruct (pu_remove u)|].
  by destruct (db_policies d !! id).
Qed.
