(* ===== verification/InmemStore.v ===== *)
(** The concurrency protocol of the in-memory store ([src/storage/inmem/inmem.go]):
    [NewTransaction], [Commit], [Abort] and the data operations as steps on the
    store, its two locks and its transactions.

    A step is what one goroutine does while it holds a lock or between two
    blocking lock operations; a blocked operation is a step that is not
    enabled.  [rmu] is its number of readers and whether a writer holds it,
    [wmu] whether it is held.  Transactions are numbered by position.  Two
    fields of a transaction are ghosts that no operation reads: [ts_open], set
    until the client closes the transaction, and [ts_snap], the database when
    it began.  Clients follow the protocol of [storage.Store]: they use a
    transaction until they close it, once. *)
From Stdlib Require Import ZArith Lia String.
From stdpp Require Import base gmap list strings.
From S2P Require Import Prelude Path Json Inmem.

Record txn_state : Type := MkTxnState {
  ts_txn : transaction;
  ts_stale : bool;
  ts_open : bool;
  ts_snap : db;
}.

Record store : Type := MkStore {
  st_db : db;
  st_readers : nat;            (* rmu.RLock count *)
  st_rlocked : bool;           (* rmu.Lock *)
  st_wlocked : bool;           (* wmu.Lock *)
  st_committing : option nat;  (* the transaction inside Commit *)
  st_txns : list txn_state;
}.

Definition NewWithOpts : store := MkStore (MkDb (JObj ∅) ∅) 0 false false None [].

Definition set_txn (st : store) (i : nat) (t : txn_state) : store :=
  MkStore (st_db st) (st_readers st) (st_rlocked st) (st_wlocked st) (st_committing st)
    (<[i := t]> (st_txns st)).

(** [underlying]: the transaction, unless it is stale. *)
Definition underlying (st : store) (i : nat) : res storage_error txn_state :=
  match st_txns st !! i with
  | Some t => if ts_stale t then Err InvalidTransactionErr else Ok t
  | None => Err InvalidTransactionErr
  end.

(** Lock operations of a new transaction; [None] while they block. *)
Definition NewTransaction (st : store) (write : bool) : option store :=
  let t := MkTxnState (newTransaction write) false true (st_db st) in
  if write then
    if st_wlocked st then None
    else Some (MkStore (st_db st) (st_readers st) (st_rlocked st) true (st_committing st)
                 (st_txns st ++ [t]))
  else
    if st_rlocked st then None
    else Some (MkStore (st_db st) (S (st_readers st)) false (st_wlocked st) (st_committing st)
                 (st_txns st ++ [t])).

(** A data or policy write in transaction [i]. *)
Inductive write_kind : Type :=
| WData (op : PatchOp) (p : path) (v : json)
| WUpsert (id bs : string)
| WDelete (id : string).

Definition do_write (d : db) (txn : transaction) (w : write_kind) : transaction :=
  match w with
  | WData op p v => (Write d txn op p v).1
  | WUpsert id bs => (UpsertPolicy txn id bs).1
  | WDelete id => (store_DeletePolicy d txn id).1
  end.

Definition store_Write (st : store) (i : nat) (w : write_kind) : option store :=
  match underlying st i with
  | Ok t => Some (set_txn st i (MkTxnState (do_write (st_db st) (ts_txn t) w) (ts_stale t)
                                  (ts_open t) (ts_snap t)))
  | Err _ => None
  end.

(** [Commit] of a write transaction takes [rmu], which waits for the readers ... *)
Definition Commit_lock (st : store) (i : nat) : option store :=
  match underlying st i with
  | Ok t =>
      if t_write (ts_txn t) && negb (st_rlocked st) && (st_readers st =? 0)%nat
      then Some (MkStore (st_db st) (st_readers st) true (st_wlocked st) (Some i) (st_txns st))
      else None
  | Err _ => None
  end.

(** ... applies the updates, marks the transaction stale and releases both
    locks. *)
Definition Commit_apply (st : store) : option store :=
  match st_committing st with
  | Some i =>
      match st_txns st !! i with
      | Some t =>
          option_map
            (fun d => MkStore d (st_readers st) false false None
                        (<[i := MkTxnState (ts_txn t) true false (ts_snap t)]> (st_txns st)))
            (Commit (st_db st) (ts_txn t))
      | None => None
      end
  | None => None
  end.

(** [Commit] of a read transaction only releases [rmu]; the transaction is not
    marked stale. *)
Definition Commit_read (st : store) (i : nat) : option store :=
  match underlying st i with
  | Ok t =>
      if t_write (ts_txn t) then None
      else Some (MkStore (st_db st) (pred (st_readers st)) (st_rlocked st) (st_wlocked st)
                   (st_committing st)
                   (<[i := MkTxnState (ts_txn t) false false (ts_snap t)]> (st_txns st)))
  | Err _ => None
  end.

Definition Abort (st : store) (i : nat) : option store :=
  match underlying st i with
  | Ok t =>
      let txns := <[i := MkTxnState (ts_txn t) true false (ts_snap t)]> (st_txns st) in
      if t_write (ts_txn t)
      then Some (MkStore (st_db st) (st_readers st) (st_rlocked st) false (st_committing st) txns)
      else Some (MkStore (st_db st) (pred (st_readers st)) (st_rlocked st) (st_wlocked st)
                   (st_committing st) txns)
  | Err _ => None
  end.

(** Transaction [i] is open, and its client is not inside [Commit]. *)
Definition usable (st : store) (i : nat) : Prop :=
  st_committing st <> Some i /\ exists t, st_txns st !! i = Some t /\ ts_open t = true.

Inductive step (st : store) : store -> Prop :=
| step_begin write st' : NewTransaction st write = Some st' -> step st st'
| step_write i w st' : usable st i -> store_Write st i w = Some st' -> step st st'
| step_commit_lock i st' : usable st i -> Commit_lock st i = Some st' -> step st st'
| step_commit_apply st' : Commit_apply st = Some st' -> step st st'
| step_commit_read i st' : usable st i -> Commit_read st i = Some st' -> step st st'
| step_abort i st' : usable st i -> Abort st i = Some st' -> step st st'.

Inductive reachable : store -> Prop :=
| reach_new : reachable NewWithOpts
| reach_step st st' : reachable st -> step st st' -> reachable st'.

(** ** Invariant *)
Definition open_reader (t : txn_state) : bool := ts_open t && negb (t_write (ts_txn t)).
Definition open_writer (t : txn_state) : bool := ts_open t && t_write (ts_txn t).
Definition count (f : txn_state -> bool) (l : list txn_state) : nat := length (List.filter f l).

Record store_inv (st : store) : Prop := {
  si_readers : st_readers st = count open_reader (st_txns st);
  si_writers : count open_writer (st_txns st) = if st_wlocked st then 1%nat else 0%nat;
  si_rlocked : st_rlocked st = match st_committing st with Some _ => true | None => false end;
  si_excl : st_rlocked st = true -> st_readers st = 0%nat;
  si_commit : forall i, st_committing st = Some i ->
    exists t, st_txns st !! i = Some t /\ open_writer t = true;
  si_stale : forall i t, st_txns st !! i = Some t -> ts_open t = true -> ts_stale t = false;
  si_snap : forall i t, st_txns st !! i = Some t -> open_reader t = true -> ts_snap t = st_db st;
}.

Definition b2n (b : bool) : nat := if b then 1%nat else 0%nat.

Lemma count_insert f l i x y :
  l !! i = Some x -> (count f (<[i := y]> l) + b2n (f x) = count f l + b2n (f y))%nat.
Proof.
  unfold count. revert i. induction l as [|z l IH]; intros [|i] E; simpl in *; [done|done| |].
  - simplify_eq. destruct (f x), (f y); simpl; lia.
  - specialize (IH i E). destruct (f z); simpl; lia.
Qed.

Lemma count_snoc f l x : count f (l ++ [x]) = (count f l + b2n (f x))%nat.
Proof.
  unfold count. rewrite List.filter_app, length_app. simpl. by destruct (f x).
Qed.

Lemma count_pos f l i x : l !! i = Some x -> f x = true -> (0 < count f l)%nat.
Proof.
  unfold count. revert i. induction l as [|z l IH]; intros [|i] E Hf; simpl in *; [done|done| |].
  - simplify_eq. rewrite Hf. simpl. lia.
  - specialize (IH i E Hf). destruct (f z); simpl; lia.
Qed.

Lemma count_zero f l i x : count f l = 0%nat -> l !! i = Some x -> f x = false.
Proof.
  intros C E. destruct (f x) eqn:F; [|done]. pose proof (count_pos f l i x E F). lia.
Qed.

Lemma do_write_kind d txn w : t_write (do_write d txn w) = t_write txn.
Proof.
  destruct w as [op p v|id bs|id]; simpl.
  - unfold Write. destruct (t_write txn) eqn:E; simpl; [|done]. destruct p as [|k p].
    + unfold updateRoot. by destruct op, v.
    + destruct (write_scan op (k :: p) v (t_updates txn)) as [us [|r]]; [|done].
      by destruct (newUpdate (db_data d) op (k :: p) (k :: p) v).
  - unfold UpsertPolicy, set_policy. by destruct (t_write txn) eqn:E.
  - unfold store_DeletePolicy. destruct (GetPolicy d txn id); [|done|done].
    unfold DeletePolicy, set_policy. by destruct (t_write txn) eqn:E.
Qed.

Lemma underlying_ok st i t : underlying st i = Ok t -> st_txns st !! i = Some t /\ ts_stale t = false.
Proof.
  unfold underlying. destruct (st_txns st !! i) as [t'|]; [|done].
  destruct (ts_stale t') eqn:E; [done|]. by intros [= ->].
Qed.

(** Lookup in the transactions after a change of one. *)
Ltac txn_lookup :=
  match goal with
  | H : <[?i := _]> ?l !! ?j = Some _ |- _ =>
      apply list_lookup_insert_Some in H as [(-> & <- & _)|[? H]]
  | H : (?l ++ [_]) !! _ = Some _ |- _ =>
      apply lookup_app_Some in H as [H|[_ H]]; [|apply list_lookup_singleton_Some in H as [_ <-]]
  end.

Lemma inv_new : store_inv NewWithOpts.
Proof. by split. Qed.

Lemma inv_begin st write st' : store_inv st -> NewTransaction st write = Some st' -> store_inv st'.
Proof.
  intros [Hr Hw Hrl He Hc Hs Hn]. unfold NewTransaction.
  destruct write.
  - destruct (st_wlocked st) eqn:W; [done|]. intros [= <-]. split; simpl; try done.
    + rewrite count_snoc. simpl. lia.
    + rewrite count_snoc, Hw. done.
    + intros i Hi. destruct (Hc i Hi) as (t & Ht & Ot). exists t. split; [|done].
      by apply lookup_app_l_Some.
    + intros i t Ht. txn_lookup; [by apply (Hs i)|done].
    + intros i t Ht. txn_lookup; [by apply (Hn i)|done].
  - destruct (st_rlocked st) eqn:L; [done|]. intros [= <-]. split; simpl; try done.
    + rewrite count_snoc. simpl. lia.
    + rewrite count_snoc, Hw. simpl. lia.
    + intros i Hi. destruct (Hc i Hi) as (t & Ht & Ot). exists t. split; [|done].
      by apply lookup_app_l_Some.
    + intros i t Ht. txn_lookup; [by apply (Hs i)|done].
    + intros i t Ht. txn_lookup; [by apply (Hn i)|done].
Qed.

Lemma inv_write st i w st' : store_inv st -> store_Write st i w = Some st' -> store_inv st'.
Proof.
  intros [Hr Hw Hrl He Hc Hs Hn]. unfold store_Write.
  destruct (underlying st i) as [t|] eqn:U; [|done]. intros [= <-].
  apply underlying_ok in U as [Ht St].
  set (t' := MkTxnState _ _ _ _).
  assert (Er : open_reader t' = open_reader t).
  { unfold open_reader, t'. simpl. by rewrite do_write_kind. }
  assert (Ew : open_writer t' = open_writer t).
  { unfold open_writer, t'. simpl. by rewrite do_write_kind. }
  split; simpl; try done.
  - pose proof (count_insert open_reader _ i t t' Ht). rewrite Er in *. lia.
  - pose proof (count_insert open_writer _ i t t' Ht). rewrite Ew in *. rewrite <- Hw. lia.
  - intros j Hj. destruct (Hc j Hj) as (u & Hu & Ou). destruct (decide (i = j)) as [<-|N].
    + exists t'. rewrite list_lookup_insert_eq by (by eapply lookup_lt_Some).
      split; [done|]. rewrite Ew. by simplify_eq.
    + exists u. by rewrite list_lookup_insert_ne.
  - intros j u Hu. txn_lookup; [done|by apply (Hs j)].
  - intros j u Hu. txn_lookup; [|by apply (Hn j)]. rewrite Er. exact (Hn j t Ht).
Qed.

Lemma inv_commit_lock st i st' :
  store_inv st -> usable st i -> Commit_lock st i = Some st' -> store_inv st'.
Proof.
  intros [Hr Hw Hrl He Hc Hs Hn] [_ (t & Ht & Ot)]. unfold Commit_lock.
  destruct (underlying st i) as [t'|] eqn:U; [|done]. apply underlying_ok in U as [Ht' _].
  simplify_eq. destruct (t_write (ts_txn t)) eqn:W; [|done].
  destruct (st_rlocked st) eqn:L; [done|]. destruct (Nat.eqb_spec (st_readers st) 0); [|done].
  intros [= <-]. split; simpl; try done.
  intros j [= <-]. exists t. split; [done|]. unfold open_writer. by rewrite Ot, W.
Qed.

(** Closing transaction [i]: the counts of the others. *)
Lemma count_close f l i t t' :
  l !! i = Some t -> f t = true -> f t' = false -> count f (<[i := t']> l) = pred (count f l).
Proof.
  intros Ht F F'. pose proof (count_insert f l i t t' Ht) as C. rewrite F, F' in C.
  simpl in C. lia.
Qed.

Lemma count_same f l i t t' :
  l !! i = Some t -> f t = f t' -> count f (<[i := t']> l) = count f l.
Proof. intros Ht F. pose proof (count_insert f l i t t' Ht) as C. rewrite F in C. lia. Qed.

Lemma inv_commit_apply st st' : store_inv st -> Commit_apply st = Some st' -> store_inv st'.
Proof.
  intros [Hr Hw Hrl He Hc Hs Hn]. unfold Commit_apply.
  destruct (st_committing st) as [i|] eqn:C; [|done].
  destruct (Hc i eq_refl) as (t & Ht & Ot). rewrite Ht.
  destruct (Commit (st_db st) (ts_txn t)) as [d|]; [|done]. intros [= <-].
  assert (R0 : count open_reader (st_txns st) = 0%nat) by (rewrite <- Hr; auto).
  apply andb_true_iff in Ot as [Oo Ow].
  assert (Er : open_reader t = false) by (unfold open_reader; by rewrite Ow, andb_false_r).
  assert (Er2 : count open_reader (<[i := MkTxnState (ts_txn t) true false (ts_snap t)]> (st_txns st))
    = count open_reader (st_txns st)) by (by apply (count_same _ _ _ t)).
  split; simpl; try done.
  - by rewrite Er2.
  - rewrite (count_close open_writer _ i t); [|done|by unfold open_writer; rewrite Oo, Ow|done].
    rewrite Hw. by destruct (st_wlocked st).
  - intros j u Hu. txn_lookup; [done|by apply (Hs j)].
  - intros j u Hu Ou. pose proof (count_pos open_reader _ j u Hu Ou). lia.
Qed.

(** Closing a transaction that is not being committed. *)
Lemma inv_close st i t stale readers wlocked :
  store_inv st -> st_committing st <> Some i -> st_txns st !! i = Some t -> ts_open t = true ->
  readers = (if t_write (ts_txn t) then st_readers st else pred (st_readers st)) ->
  wlocked = (if t_write (ts_txn t) then false else st_wlocked st) ->
  store_inv (MkStore (st_db st) readers (st_rlocked st) wlocked (st_committing st)
               (<[i := MkTxnState (ts_txn t) stale false (ts_snap t)]> (st_txns st))).
Proof.
  intros [Hr Hw Hrl He Hc Hs Hn] Nc Ht Ot -> ->. set (t' := MkTxnState _ _ _ _).
  assert (Kr : open_reader t = negb (t_write (ts_txn t))) by (unfold open_reader; by rewrite Ot).
  assert (Kw : open_writer t = t_write (ts_txn t)) by (unfold open_writer; by rewrite Ot).
  split; simpl; try done.
  - rewrite Hr. destruct (t_write (ts_txn t)) eqn:W; symmetry.
    + by apply (count_same _ _ _ t).
    + by apply (count_close _ _ _ t).
  - destruct (t_write (ts_txn t)) eqn:W.
    + rewrite (count_close open_writer _ i t) by done. rewrite Hw. by destruct (st_wlocked st).
    + by rewrite (count_same open_writer _ i t).
  - intros L. specialize (He L). destruct (t_write (ts_txn t)); lia.
  - intros j Hj. destruct (Hc j Hj) as (u & Hu & Ou). exists u. split; [|done].
    rewrite list_lookup_insert_ne; [done|]. congruence.
  - intros j u Hu. txn_lookup; [done|by apply (Hs j)].
  - intros j u Hu. txn_lookup; [done|by apply (Hn j)].
Qed.

Lemma step_inv st st' : store_inv st -> step st st' -> store_inv st'.
Proof.
  intros I [write s H|i w s _ H|i s U H|s H|i s [Nc (t & Ht & Ot)] H|i s [Nc (t & Ht & Ot)] H].
  - by eapply inv_begin.
  - by eapply inv_write.
  - by eapply inv_commit_lock.
  - by eapply inv_commit_apply.
  - unfold Commit_read in H. destruct (underlying st i) as [t'|] eqn:E; [|done].
    apply underlying_ok in E as [Ht' _]. simplify_eq.
    destruct (t_write (ts_txn t)) eqn:W; [done|]. injection H as <-.
    apply (inv_close st i t); try done; by rewrite W.
  - unfold Abort in H. destruct (underlying st i) as [t'|] eqn:E; [|done].
    apply underlying_ok in E as [Ht' _]. simplify_eq.
    destruct (t_write (ts_txn t)) eqn:W; injection H as <-;
      apply (inv_close st i t); try done; by rewrite W.
Qed.

Lemma reachable_inv st : reachable st -> store_inv st.
Proof. induction 1 as [|st st' _ IH S]; [apply inv_new|by eapply step_inv]. Qed.


(** Two readers and a writer whose commit has to wait for them. *)
Definition ex_store : option store :=
  match NewTransaction NewWithOpts false with
  | Some st =>
      match NewTransaction st true with
      | Some st => store_Write st 1 (WData AddOp ["a"%string] JNull)
      | None => None
      end
  | None => None
  end.


(** A committed read transaction is not stale: it can be committed again, which
    releases the lock of another reader. *)
Lemma Commit_read_twice :
  exists s1 s2 s3 s4, NewTransaction NewWithOpts false = Some s1 /\
    NewTransaction s1 false = Some s2 /\ Commit_read s2 0 = Some s3 /\
    Commit_read s3 0 = Some s4 /\ st_readers s4 = 0%nat /\
    exists t, st_txns s4 !! 1%nat = Some t /\ open_reader t = true.
Proof.
  do 4 eexists. do 4 (split; [vm_compute; reflexivity|]). split; [vm_compute; reflexivity|].
  eexists. split; vm_compute; reflexivity.
Qed.

(** ** Progress *)

(** Read transactions that end with [Commit], one after the other. *)
Inductive readers_close : nat -> store -> store -> Prop :=
| close_none st : readers_close 0 st st
| close_one n st j st' st'' : usable st j -> Commit_read st j = Some st' -> readers_close n st' st'' ->
    readers_close (S n) st st''.

Lemma count_witness f l : (0 < count f l)%nat -> exists j u, l !! j = Some u /\ f u = true.
Proof.
  unfold count. induction l as [|u l IH]; simpl; [lia|]. destruct (f u) eqn:F; [by exists 0%nat, u|].
  intros H. destruct (IH H) as (j & v & Hv). by exists (S j), v.
Qed.

Lemma reader_can_close st i t : store_inv st -> st_committing st = None -> st_txns st !! i = Some t -> open_writer t = true ->
  (0 < st_readers st)%nat -> exists j st', usable st j /\ Commit_read st j = Some st' /\ store_inv st' /\
    st_committing st' = None /\ st_txns st' !! i = Some t /\ st_db st' = st_db st /\ st_readers st = S (st_readers st').
Proof.
  intros I Hc Ht Ow Hr. pose proof I as [Er _ _ _ _ Hs _]. rewrite Er in Hr.
  destruct (count_witness _ _ Hr) as (j & u & Hu & [Ou Wu]%andb_true_iff).
  assert (U : usable st j) by (split; [by rewrite Hc|by exists u]).
  assert (E : underlying st j = Ok u) by (unfold underlying; by rewrite Hu, (Hs j u Hu Ou)).
  apply negb_true_iff in Wu. exists j. eexists. split_ands; [done| | | | | |].
  - unfold Commit_read. rewrite E, Wu. done.
  - apply (step_inv st); [done|]. apply (step_commit_read st j); [done|]. unfold Commit_read. by rewrite E, Wu.
  - done.
  - simpl. rewrite list_lookup_insert_ne; [done|]. intros ->. rewrite Ht in Hu. injection Hu as ->.
    unfold open_writer in Ow. by rewrite Wu, andb_false_r in Ow.
  - done.
  - simpl. lia.
Qed.

(** C26: A writer that wants to commit while readers are active is not blocked for
    good: the readers can always close, the database does not change meanwhile,
    and after exactly as many closings as there are readers the commit gets the
    lock. *)
Theorem writer_proceeds (st : store) (i : nat) (t : txn_state) :
  reachable st -> st_committing st = None -> st_txns st !! i = Some t -> open_writer t = true ->
  exists st' st'', readers_close (st_readers st) st st' /\ st_db st' = st_db st /\ usable st' i /\
    Commit_lock st' i = Some st''.
Proof.
  intros I%reachable_inv. remember (st_readers st) as n eqn:En. revert st I En.
  induction n as [|n IH]; intros st I En Hc Ht Ow; pose proof Ow as [Ot Wt]%andb_true_iff.
  - exists st. eexists. split_ands; [constructor|done|split; [by rewrite Hc|by exists t]|].
    unfold Commit_lock, underlying. rewrite Ht, (si_stale st I i t Ht Ot), Wt, (si_rlocked st I), Hc, <- En. done.
  - destruct (reader_can_close st i t I Hc Ht Ow ltac:(lia)) as (j & s1 & U & C & I1 & Hc1 & Ht1 & D1 & R1).
    destruct (IH s1 I1 ltac:(lia) Hc1 Ht1 Ow) as (s2 & s3 & Hcl & D2 & U2 & L2).
    exists s2, s3. split_ands; [by econstructor|congruence|done|done].
Qed.

Lemma writer_proceeds_witness :
  exists st, NewTransaction NewWithOpts false = Some st /\ exists st1, NewTransaction st true = Some st1 /\
    Commit_lock st1 1 = None /\ exists st2 st3, readers_close 1 st1 st2 /\ Commit_lock st2 1 = Some st3.
Proof.
  eexists. split; [reflexivity|]. eexists. split; [reflexivity|]. split; [reflexivity|].
  match goal with |- exists st2 st3, readers_close 1 ?s st2 /\ _ => set (st1 := s) end.
  assert (R : reachable st1).
  { eapply reach_step; [eapply reach_step; [apply reach_new|]|]; [apply (step_begin _ false)|apply (step_begin _ true)]; reflexivity. }
  destruct (writer_proceeds st1 1 _ R eq_refl eq_refl eq_refl) as (st2 & st3 & H1 & _ & _ & H2).
  exists st2, st3. exact (conj H1 H2).
Defined.
