(* ===== verification/Index.v ===== *)
(** The rule index: [src/ast/index.go].

    A compiled rule set is a list of rules, each with its chain of [else] rules
    ([WalkRules] visits the rule and then the chain).  Rules are identified by
    [r_id], which stands for the [*Rule] pointer.  The hash maps of the trie and
    of [refindices] are association lists up to [Compare] (HashMap.v and
    Value.v show that [util.HashMap] with [valueEq]/[valueHash] is such a map);
    the order in which they are iterated is not fixed by the code.

    [refindices.Sorted] returns the indexed references in an order that depends
    on that iteration, so [Build] takes the order as an argument.  Resolvers and
    [isVirtual] are arguments too. *)
From Stdlib Require Import ZArith Lia String Ascii.
From stdpp Require Import base gmap list strings.
From S2P Require Import Prelude SortedKeys Value Containers SetTable RefOps.

Record rule : Type := MkRule {
  r_id : nat;
  r_default : bool;
  r_args : list value;
  r_body : list expr;
  r_ref : list value;      (* Ref(): the path of the package and Head.Reference *)
  r_key : option value;
  r_value : option value;
}.
(** [Head.DocKind() == CompleteDoc], and [Head.Reference.IsGround()], as the path of a
    package is ground. *)
Definition r_complete (r : rule) : bool := match r_key r with None => true | Some _ => false end.
Definition r_ground (r : rule) : bool := IsGround (Ref (r_ref r)).

(** [None] is the panic of a head with neither value nor key. *)
Inductive RuleKind : Set := SingleValue | MultiValue.
Definition rule_kind (r : rule) : option RuleKind :=
  match r_value r, r_key r with
  | Some _, _ => Some SingleValue
  | None, Some _ => Some MultiValue
  | None, None => None
  end.

(** ** Glob patterns *)
Definition backslash : ascii := ascii_of_N 92.

(** [strings.ContainsRune(delim, rune(b))]: an ASCII byte is looked for as such,
    a byte from 128 on as the two-byte encoding of that code point. *)
Fixpoint has_pair (s : string) (a b : ascii) : bool :=
  match s with
  | String c ((String d _) as s') => (Ascii.eqb a c && Ascii.eqb b d) || has_pair s' a b
  | _ => false
  end.
Definition ContainsRune (delim : string) (c : ascii) : bool :=
  let n := N_of_ascii c in
  if (n <? 128)%N then existsb (Ascii.eqb c) (list_ascii_of_string delim)
  else has_pair delim (ascii_of_N (192 + n / 64)) (ascii_of_N (128 + n mod 64)).

(** The loop of [splitStringEscaped]: [cur] is [s[last:curr]]. *)
Fixpoint split_escaped (delim s cur : string) (escaped : bool) : list string :=
  match s with
  | EmptyString => [cur]
  | String c s =>
      if Ascii.eqb c backslash || escaped
      then split_escaped delim s (String.append cur (String c EmptyString)) (negb escaped)
      else if ContainsRune delim c then cur :: split_escaped delim s EmptyString escaped
      else split_escaped delim s (String.append cur (String c EmptyString)) escaped
  end.
Definition splitStringEscaped (s delim : string) : list string :=
  split_escaped delim s EmptyString false.

Definition stringSliceToArray (l : list string) : value := Array (map Str l).

(** Whether a part contains an unescaped special character. *)
Fixpoint has_special (s : string) (escaped : bool) : bool :=
  match s with
  | EmptyString => false
  | String c s =>
      if Ascii.eqb c backslash then has_special s (negb escaped)
      else (negb escaped && existsb (Ascii.eqb c) ["["; "?"; "{"; "*"]%char) || has_special s false
  end.

Fixpoint glob_parts (parts : list string) : option (list value) :=
  match parts with
  | [] => Some []
  | p :: parts =>
      if String.eqb p "*" then option_map (cons (Var "$globwildcard")) (glob_parts parts)
      else if has_special p false then None
      else option_map (cons (Str p)) (glob_parts parts)
  end.

Definition globPatternToArray (pattern : value) (delim : string) : option value :=
  match pattern with
  | Str s => option_map Array (glob_parts (splitStringEscaped s delim))
  | _ => None
  end.

Fixpoint concat_strings (l : list value) : option string :=
  match l with
  | [] => Some EmptyString
  | Str s :: l => option_map (String.append s) (concat_strings l)
  | _ => None
  end.
Definition globDelimiterToString (delim : value) : option string :=
  match delim with
  | Array [] => Some "."%string
  | Array l => concat_strings l
  | _ => None
  end.

(** ** Indexable equalities *)

(** [valueMapper]: its key is the delimiter that its function splits on. *)
Definition MapValue (delim : string) (v : value) : value :=
  match v with Str s => stringSliceToArray (splitStringEscaped s delim) | _ => v end.

Record refindex : Type := MkRefindex {
  ri_ref : list value;
  ri_value : value;
  ri_mapper : option string;
}.

(** The visitor of [indexValue] on an element of the array: nested composites
    and references stop it; a call is walked into. *)
Fixpoint index_stop (v : value) : bool :=
  match v with
  | Array _ | Object _ | SetV _ | ArrayComprehension _ _ | ObjectComprehension _ _ _
  | SetComprehension _ _ | Ref _ => true
  | Call ts => existsb index_stop ts
  | _ => false
  end.

Definition indexValue (b : value) : option value :=
  match b with
  | Null | Boolean _ | Number _ | Str _ | Var _ => Some b
  | Array l => if existsb index_stop l then None else Some b
  | _ => None
  end.

Definition FunctionArgRootDocument : value := Var "args".
Definition IntNumberTerm (i : nat) : value := Number (NInt (Z.of_nat i)).
Definition arg_ref (i : nat) : list value := [FunctionArgRootDocument; IntNumberTerm i].
Definition is_root_document (v : value) : bool :=
  Equal v (Var "data") || Equal v (Var "input").

(** The loop over the arguments: the first equal argument for which [b] has an
    index value. *)
Fixpoint arg_refindex (i : nat) (args : list value) (v b : value) : option refindex :=
  match args with
  | [] => None
  | arg :: args =>
      match Equal arg v, indexValue b with
      | true, Some bval => Some (MkRefindex (arg_ref i) bval None)
      | _, _ => arg_refindex (S i) args v b
      end
  end.

Definition eqOperandsToRefAndValue (isVirtual : list value -> bool) (args : list value)
    (a b : value) : option refindex :=
  match a with
  | Var _ => arg_refindex 0 args a b
  | Ref v =>
      match v with
      | [] => None
      | head :: _ =>
          if negb (is_root_document head) then None
          else if isVirtual v then None
          else if Ref_IsNested v || negb (IsGround a) then None
          else option_map (fun bval => MkRefindex v bval None) (indexValue b)
      end
  | _ => None
  end.

(** ** refindices *)
Record refindices : Type := MkRefindices {
  rules_idx : gmap nat (list refindex);
  frequency : list (list value * Z);
}.
Definition newrefindices : refindices := MkRefindices ∅ [].

Definition ref_eq (a b : list value) : bool := Equal (Ref a) (Ref b).
Definition rule_indices (i : refindices) (r : rule) : list refindex :=
  default [] (rules_idx i !! r_id r).

Fixpoint freq_incr (l : list (list value * Z)) (ref : list value) : list (list value * Z) :=
  match l with
  | [] => [(ref, 1%Z)]
  | (r, n) :: l => if ref_eq r ref then (r, (n + 1)%Z) :: l else (r, n) :: freq_incr l ref
  end.

Fixpoint replace_index (l : list refindex) (idx : refindex) : list refindex :=
  match l with
  | [] => [idx]
  | other :: l =>
      if ref_eq (ri_ref other) (ri_ref idx) then idx :: l else other :: replace_index l idx
  end.

Definition ri_insert (i : refindices) (r : rule) (idx : refindex) : refindices :=
  MkRefindices (<[r_id r := replace_index (rule_indices i r) idx]> (rules_idx i))
    (freq_incr (frequency i) (ri_ref idx)).

Definition updateEq (isVirtual : list value -> bool) (i : refindices) (r : rule) (a b : value) :
    refindices :=
  match eqOperandsToRefAndValue isVirtual (r_args r) a b with
  | Some idx => ri_insert i r idx
  | None =>
      match eqOperandsToRefAndValue isVirtual (r_args r) b a with
      | Some idx => ri_insert i r idx
      | None => i
      end
  end.

(** The last index of the rule whose value is the matched variable ... *)
Definition glob_ref_of_rule (l : list refindex) (m : value) : option (list value) :=
  fold_left (fun acc other =>
    match ri_value other with
    | Var _ => if Equal (ri_value other) m then Some (ri_ref other) else acc
    | _ => acc
    end) l None.
(** ... or the last argument equal to it. *)
Definition glob_ref_of_args (args : list value) (m : value) : option (list value) :=
  fold_left (fun acc ja => if Equal ja.2 m then Some (arg_ref ja.1) else acc)
    (combine (seq 0 (length args)) args) None.

Definition updateGlobMatch (i : refindices) (r : rule) (pattern delim m : value) : refindices :=
  match globDelimiterToString delim with
  | None => i
  | Some d =>
      match globPatternToArray pattern d, m with
      | Some arr, Var _ =>
          let ref := match glob_ref_of_rule (rule_indices i r) m with
                     | Some ref => Some ref
                     | None => glob_ref_of_args (r_args r) m
                     end in
          match ref with
          | Some ref => ri_insert i r (MkRefindex ref arr (Some d))
          | None => i
          end
      | _, _ => i
      end
  end.

(** The operators that are indexed. *)
Definition Equality_Ref : list value := [Var "eq"].
Definition Equal_Ref : list value := [Var "equal"].
Definition GlobMatch_Ref : list value := [Var "glob"; Str "match"].
Definition InternalPrint_Ref : list value := [Var "internal"; Str "print"].

(** Expressions whose terms are not a call have no operator, and no operator
    but those above is indexed.  ([Operand] of a missing position is nil, and
    the code would then fail on it; the compiler checks the arity.) *)
Definition Update (isVirtual : list value -> bool) (i : refindices) (r : rule) (e : expr) :
    refindices :=
  match e with
  | Expr (TTerms (Ref op :: operands)) withs _ negated =>
      if negated then i
      else if negb (length withs =? 0)%nat then i
      else if ref_eq op Equality_Ref then
        match operands with a :: b :: _ => updateEq isVirtual i r a b | _ => i end
      else if ref_eq op Equal_Ref && (length operands =? 2)%nat then
        match operands with a :: b :: _ => updateEq isVirtual i r a b | _ => i end
      else if ref_eq op GlobMatch_Ref && (length operands =? 3)%nat then
        match operands with a :: b :: c :: _ => updateGlobMatch i r a b c | _ => i end
      else i
  | _ => i
  end.

(** A rule that calls [internal.print] is not indexed. *)
Definition skips (r : rule) : bool :=
  existsb (fun e => match e with
                    | Expr (TTerms (op :: _)) _ _ _ => Equal op (Ref InternalPrint_Ref)
                    | _ => false
                    end) (r_body r).

Definition index_rule (isVirtual : list value -> bool) (i : refindices) (r : rule) : refindices :=
  if r_default r || skips r then i
  else fold_left (fun i e => Update isVirtual i r e) (r_body r) i.

Definition build_indices (isVirtual : list value -> bool) (rules : list (list rule)) : refindices :=
  fold_left (fun i chain => fold_left (index_rule isVirtual) chain i) rules newrefindices.

(** [index]: the entry of a rule for a reference. *)
Fixpoint ri_index (l : list refindex) (ref : list value) : option refindex :=
  match l with
  | [] => None
  | idx :: l => if ref_eq (ri_ref idx) ref then Some idx else ri_index l ref
  end.
Definition Indexed (i : refindices) (r : rule) : bool :=
  negb (length (rule_indices i r) =? 0)%nat.

(** ** The trie *)
Record ruleNode : Type := MkRuleNode { rn_idx : nat; rn_prio : nat; rn_rule : rule }.

Inductive trieNode : Type := Node {
  n_ref : list value;
  n_values : option (list value);
  n_mappers : list string;
  n_next : option trieNode;
  n_any : option trieNode;
  n_undefined : option trieNode;
  n_scalars : list (value * trieNode);
  n_array : option trieNode;
  n_rules : list ruleNode;
}.

Definition newTrieNodeImpl : trieNode := Node [] None [] None None None [] None [].

Definition or_new (n : option trieNode) : trieNode := default newTrieNodeImpl n.

Definition with_next (n : trieNode) (x : option trieNode) : trieNode :=
  Node (n_ref n) (n_values n) (n_mappers n) x (n_any n) (n_undefined n) (n_scalars n) (n_array n)
    (n_rules n).
Definition with_any (n : trieNode) (x : option trieNode) : trieNode :=
  Node (n_ref n) (n_values n) (n_mappers n) (n_next n) x (n_undefined n) (n_scalars n) (n_array n)
    (n_rules n).
Definition with_undefined (n : trieNode) (x : option trieNode) : trieNode :=
  Node (n_ref n) (n_values n) (n_mappers n) (n_next n) (n_any n) x (n_scalars n) (n_array n)
    (n_rules n).
Definition with_scalars (n : trieNode) (x : list (value * trieNode)) : trieNode :=
  Node (n_ref n) (n_values n) (n_mappers n) (n_next n) (n_any n) (n_undefined n) x (n_array n)
    (n_rules n).
Definition with_array (n : trieNode) (x : option trieNode) : trieNode :=
  Node (n_ref n) (n_values n) (n_mappers n) (n_next n) (n_any n) (n_undefined n) (n_scalars n) x
    (n_rules n).

(** [append]: the rule, and the values of complete rules.  [None] is the panic of adding
    the nil value of a multi-value rule to the set. *)
Definition node_append (rn : ruleNode) (n : trieNode) : option trieNode :=
  values ← match n_values n with
           | Some vs => v ← r_value (rn_rule rn); Some (Some (set_insert v vs))
           | None => if r_complete (rn_rule rn) then v ← r_value (rn_rule rn); Some (Some [v]) else Some None
           end;
  Some (Node (n_ref n) values (n_mappers n) (n_next n) (n_any n) (n_undefined n) (n_scalars n)
    (n_array n) (n_rules n ++ [rn])).

Definition addMapper (key : string) (n : trieNode) : trieNode :=
  if existsb (String.eqb key) (n_mappers n) then n
  else Node (n_ref n) (n_values n) (n_mappers n ++ [key]) (n_next n) (n_any n) (n_undefined n)
         (n_scalars n) (n_array n) (n_rules n).

(** The code returns the node it has made or found and goes on there.  Here the
    rest of the insertion is the argument [k], which is applied to that node;
    [None] is the panic on an illegal value. *)
Fixpoint scalars_update (v : value) (k : trieNode -> option trieNode)
    (l : list (value * trieNode)) : option (list (value * trieNode)) :=
  match l with
  | [] => option_map (fun c => [(v, c)]) (k newTrieNodeImpl)
  | (w, c) :: l =>
      if Equal w v then option_map (fun c => (w, c) :: l) (k c)
      else option_map (cons (w, c)) (scalars_update v k l)
  end.

Fixpoint insertArray (arr : list value) (k : trieNode -> option trieNode) (n : trieNode) :
    option trieNode :=
  match arr with
  | [] => k n
  | head :: arr =>
      match head with
      | Var _ => option_map (fun c => with_any n (Some c)) (insertArray arr k (or_new (n_any n)))
      | Null | Boolean _ | Number _ | Str _ =>
          option_map (with_scalars n) (scalars_update head (insertArray arr k) (n_scalars n))
      | _ => None
      end
  end.

Definition insertValue (v : option value) (k : trieNode -> option trieNode) (n : trieNode) :
    option trieNode :=
  match v with
  | None => option_map (fun c => with_undefined n (Some c)) (k (or_new (n_undefined n)))
  | Some (Var _) => option_map (fun c => with_any n (Some c)) (k (or_new (n_any n)))
  | Some ((Null | Boolean _ | Number _ | Str _) as s) =>
      option_map (with_scalars n) (scalars_update s k (n_scalars n))
  | Some (Array arr) =>
      option_map (fun c => with_array n (Some c)) (insertArray arr k (or_new (n_array n)))
  | Some _ => None
  end.

(** A fresh [next] node gets the reference of the level. *)
Definition next_or_new (n : trieNode) (ref : list value) : trieNode :=
  match n_next n with
  | Some m => m
  | None => Node ref None [] None None None [] None []
  end.

Definition Insert (ref : list value) (v : option value) (mapper : option string)
    (k : trieNode -> option trieNode) (n : trieNode) : option trieNode :=
  let m := next_or_new n ref in
  let m := match mapper with Some key => addMapper key m | None => m end in
  option_map (fun m => with_next n (Some m)) (insertValue v k m).

(** One level of the trie: the reference, and the value and mapper of the rule
    for it. *)
Definition level : Type := list value * option value * option string.
Definition rule_level (i : refindices) (r : rule) (ref : list value) : level :=
  match ri_index (rule_indices i r) ref with
  | Some idx => (ref, Some (ri_value idx), ri_mapper idx)
  | None => (ref, None, None)
  end.

Fixpoint insert_levels (ls : list level) (k : trieNode -> option trieNode) (n : trieNode) :
    option trieNode :=
  match ls with
  | [] => k n
  | (ref, v, mapper) :: ls => Insert ref v mapper (insert_levels ls k) n
  end.

Definition rule_levels (i : refindices) (sorted : list (list value)) (r : rule) : list level :=
  if Indexed i r then map (rule_level i r) sorted else [].

Definition insert_rule (i : refindices) (sorted : list (list value)) (n : trieNode)
    (rn : ruleNode) : option trieNode :=
  insert_levels (rule_levels i sorted (rn_rule rn)) (node_append rn) n.

(** The rules in the order of the second loop of [Build], with their position
    and their priority in the chain; default rules are left out and take no
    priority. *)
Definition chain_nodes (idx : nat) (chain : list rule) : list ruleNode :=
  let rs := List.filter (fun r => negb (r_default r)) chain in
  map (fun pr => MkRuleNode idx pr.1 pr.2) (combine (seq 0 (length rs)) rs).
Definition all_nodes (rules : list (list rule)) : list ruleNode :=
  concat (map (fun ic => chain_nodes ic.1 ic.2) (combine (seq 0 (length rules)) rules)).

Definition build_trie (i : refindices) (sorted : list (list value)) (rns : list ruleNode) :
    option trieNode :=
  fold_left (fun n rn => match n with Some n => insert_rule i sorted n rn | None => None end)
    rns (Some newTrieNodeImpl).

Record baseDocEqIndex : Type := MkIndex {
  ix_root : trieNode;
  ix_default : option rule;
  ix_kind : RuleKind;
  ix_onlyGroundRefs : bool;
}.

(** [None]: no index (there are no rules), or a panic.  A list of rules is a rule and its
    chain. *)
Definition Build (isVirtual : list value -> bool) (sorted : list (list value))
    (rules : list (list rule)) : option baseDocEqIndex :=
  first ← (chain ← head rules; head chain);
  kind ← rule_kind first;
  let i := build_indices isVirtual rules in
  let flat := concat rules in
  option_map
    (fun root => MkIndex root (last (List.filter r_default flat)) kind
                   (forallb (fun r => r_default r || r_ground r) flat))
    (build_trie i sorted (all_nodes rules)).

(** ** Lookup *)

(** What a resolver says about a reference: a value, undefined, unknown, or an
    error. *)
Inductive resolved (E : Type) : Type :=
| RValue (v : value)
| RUndefined
| RUnknown
| RError (e : E).
Arguments RValue {E} v.
Arguments RUndefined {E}.
Arguments RUnknown {E}.
Arguments RError {E} e.

(** A traversal as the sequence of nodes it adds to its result and errors it
    meets; the code stops at the first error and drops the result. *)
Inductive event (E : Type) : Type :=
| EAdd (n : trieNode)
| EErr (e : E).
Arguments EAdd {E} n.
Arguments EErr {E} e.

Section OptNode.
Context {R : Type} (f : trieNode -> list R).
Definition opt_node (n : option trieNode) : list R :=
  match n with Some n => f n | None => [] end.
Fixpoint scalar_node (v : value) (l : list (value * trieNode)) : list R :=
  match l with
  | [] => []
  | (w, c) :: l => if Equal w v then f c else scalar_node v l
  end.
Fixpoint each_scalar (l : list (value * trieNode)) : list R :=
  match l with
  | [] => []
  | (_, c) :: l => f c ++ each_scalar l
  end.
End OptNode.

(** Which of the three mutually recursive methods visits a node. *)
Inductive mode : Type := MLevel | MArray (arr : list value) | MUnknown.

Section Traverse.
Context {E : Type} (resolve : list value -> resolved E).

(** [traverse] ([MLevel]) is on the node of a level, [traverseArray] and
    [traverseUnknown] on nodes inside it, and [Traverse] on the nodes at the
    end of its edges: it adds the node and goes to the next level. *)
Fixpoint visit (m : mode) (n : trieNode) {struct n} : list (event E) :=
  let Traverse (c : trieNode) := EAdd c :: opt_node (visit MLevel) (n_next c) in
  let traverseValue (v : value) :=
    match v with
    | Array arr => opt_node (visit (MArray arr)) (n_array n)
    | Null | Boolean _ | Number _ | Str _ => scalar_node Traverse v (n_scalars n)
    | _ => []
    end in
  let traverseUnknown :=
    Traverse n ++
    opt_node (visit MUnknown) (n_undefined n) ++ opt_node (visit MUnknown) (n_any n) ++
    opt_node (visit MUnknown) (n_array n) ++ each_scalar (visit MUnknown) (n_scalars n) in
  match m with
  | MUnknown => traverseUnknown
  | MArray [] => Traverse n
  | MArray (head :: arr) =>
      opt_node (visit (MArray arr)) (n_any n) ++
      (if IsScalar head then scalar_node (visit (MArray arr)) head (n_scalars n) else [])
  | MLevel =>
      match resolve (n_ref n) with
      | RError e => [EErr e]
      | RUnknown => traverseUnknown
      | RUndefined => opt_node Traverse (n_undefined n)
      | RValue v =>
          opt_node Traverse (n_undefined n) ++ opt_node Traverse (n_any n) ++
          traverseValue v ++ concat (map (fun d => traverseValue (MapValue d v)) (n_mappers n))
      end
  end.

Definition Traverse (n : trieNode) : list (event E) := EAdd n :: opt_node (visit MLevel) (n_next n).
Definition traverseValue (n : trieNode) (v : value) : list (event E) :=
  match v with
  | Array arr => opt_node (visit (MArray arr)) (n_array n)
  | Null | Boolean _ | Number _ | Str _ => scalar_node Traverse v (n_scalars n)
  | _ => []
  end.
End Traverse.

(** ** Results *)

(** [trieTraversalResult]: the groups of rule nodes by position, in the order
    in which the positions were met, and the values of complete rules. *)
Record trieTraversalResult : Type := MkResult {
  tr_groups : list (nat * list ruleNode);
  tr_values : list value;
}.

Fixpoint group_add (gs : list (nat * list ruleNode)) (rn : ruleNode) : list (nat * list ruleNode) :=
  match gs with
  | [] => [(rn_idx rn, [rn])]
  | (i, rns) :: gs => if (i =? rn_idx rn)%nat then (i, rns ++ [rn]) :: gs else (i, rns) :: group_add gs rn
  end.

Definition result_Add (tr : trieTraversalResult) (n : trieNode) : trieTraversalResult :=
  MkResult (fold_left group_add (n_rules n) (tr_groups tr))
    (fold_left (fun vs v => set_insert v vs) (default [] (n_values n)) (tr_values tr)).

Record IndexResult : Type := MkIndexResult {
  ir_rules : list rule;
  ir_else : list (rule * list rule);
  ir_default : option rule;
  ir_kind : RuleKind;
  ir_earlyExit : bool;
  ir_onlyGroundRefs : bool;
}.

(** The nodes of a position by priority. *)
Definition sorted_group (rns : list ruleNode) : list rule :=
  map rn_rule (sort_by Z.compare (fun rn => Z.of_nat (rn_prio rn)) rns).

Definition make_result (ix : baseDocEqIndex) (tr : trieTraversalResult) : IndexResult :=
  let groups := map (fun g => sorted_group g.2) (tr_groups tr) in
  MkIndexResult
    (concat (map (fun g => take 1 g) groups))
    (concat (map (fun g => match g with r :: (_ :: _) as rest => [(r, rest)] | _ => [] end) groups))
    (ix_default ix)
    (ix_kind ix)
    match tr_values tr with [v] => IsGround v | _ => false end
    (ix_onlyGroundRefs ix).

Fixpoint collect {E} (es : list (event E)) (tr : trieTraversalResult) : res E trieTraversalResult :=
  match es with
  | [] => Ok tr
  | EAdd n :: es => collect es (result_Add tr n)
  | EErr e :: _ => Err e
  end.

Definition Lookup {E} (resolve : list value -> resolved E) (ix : baseDocEqIndex) : res E IndexResult :=
  let? tr := collect (Traverse resolve (ix_root ix)) (MkResult [] []) in
  Ok (make_result ix tr).

(** [ruleWalker]: every node of the trie. *)
Fixpoint walk (n : trieNode) : list trieNode :=
  n :: opt_node walk (n_any n) ++ opt_node walk (n_undefined n) ++ each_scalar walk (n_scalars n) ++
  opt_node walk (n_array n) ++ opt_node walk (n_next n).

Definition AllRules (ix : baseDocEqIndex) : IndexResult :=
  make_result ix (fold_left result_Add (walk (ix_root ix)) (MkResult [] [])).
