(* ===== verification/IndexSound.v ===== *)
(** Correctness of the rule index (definitions in Index.v): a lookup returns
    every rule whose indexed conditions hold, and without glob patterns only
    those; [AllRules] returns every rule; early exit is only announced when the
    returned rules agree on a value. *)
From Stdlib Require Import ZArith Lia String.
From stdpp Require Import base gmap list strings.
From S2P Require Import Prelude SortedKeys Value Containers SetTable RefOps Index.

(** ** What the index promises *)

(** An array pattern of scalars and variables against a value. *)
Definition elem_match (p x : value) : bool :=
  match p with Var _ => true | _ => IsScalar x && Equal p x end.
Fixpoint elems_match (ps xs : list value) : bool :=
  match ps, xs with
  | [], [] => true
  | p :: ps, x :: xs => elem_match p x && elems_match ps xs
  | _, _ => false
  end.
Definition array_match (ps : list value) (w : value) : bool :=
  match w with Array xs => elems_match ps xs | _ => false end.

(** The condition a rule puts on one reference, against what it resolves to. *)
Definition level_match {E} (resolve : list value -> resolved E) (l : level) : bool :=
  let '(ref, v, mapper) := l in
  match resolve ref with
  | RUnknown => true
  | RError _ => false
  | RUndefined => match v with None => true | Some _ => false end
  | RValue w =>
      match v with
      | None | Some (Var _) => true
      | Some (Array ps) =>
          array_match ps w ||
          match mapper with Some d => array_match ps (MapValue d w) | None => false end
      | Some s => IsScalar w && Equal s w
      end
  end.

(** ** Induction over the trie *)
Section TrieInd.
Context (P : trieNode -> Prop).
Definition oP (o : option trieNode) : Prop := forall c, o = Some c -> P c.
Context (H : forall n, oP (n_next n) -> oP (n_any n) -> oP (n_undefined n) ->
  Forall (fun p => P p.2) (n_scalars n) -> oP (n_array n) -> P n).

Fixpoint trie_ind (n : trieNode) : P n :=
  let o (x : option trieNode) : oP x :=
    match x with
    | Some c => fun c' E => match E in _ = y return
                  match y with Some c' => P c' | None => True end with eq_refl => trie_ind c end
    | None => fun c' E => match E in _ = y return
                  match y with Some c' => P c' | None => True end with eq_refl => I end
    end in
  let s := fix s (l : list (value * trieNode)) : Forall (fun p => P p.2) l :=
    match l with
    | [] => Forall_nil_2 _
    | (w, c) :: l => Forall_cons_2 _ (w, c) l (trie_ind c) (s l)
    end in
  match n with
  | Node ref values mappers next any undefined scalars array rules =>
      H (Node ref values mappers next any undefined scalars array rules)
        (o next) (o any) (o undefined) (s scalars) (o array)
  end.
End TrieInd.

(** ** Extension of a trie *)
Inductive ext : trieNode -> trieNode -> Prop :=
| ext_intro n n' :
    n_ref n = n_ref n' -> n_rules n ⊆ n_rules n' -> n_mappers n ⊆ n_mappers n' ->
    (forall c, n_next n = Some c -> exists c', n_next n' = Some c' /\ ext c c') ->
    (forall c, n_any n = Some c -> exists c', n_any n' = Some c' /\ ext c c') ->
    (forall c, n_undefined n = Some c -> exists c', n_undefined n' = Some c' /\ ext c c') ->
    (forall c, n_array n = Some c -> exists c', n_array n' = Some c' /\ ext c c') ->
    (exists l1 l2, n_scalars n' = l1 ++ l2 /\
       Forall2 (fun p q => p.1 = q.1 /\ ext p.2 q.2) (n_scalars n) l1) ->
    ext n n'.

Lemma ext_refl n : ext n n.
Proof.
  induction n as [n Hn Ha Hu Hs Hr] using trie_ind.
  constructor; try done; try (intros c E; exists c; split; [done|]; auto; fail).
  exists (n_scalars n), []. split; [by rewrite app_nil_r|].
  induction Hs; constructor; auto.
Qed.

Lemma ext_trans n1 n2 n3 : ext n1 n2 -> ext n2 n3 -> ext n1 n3.
Proof.
  revert n2 n3. induction n1 as [n Hn Ha Hu Hs Hr] using trie_ind. intros n2 n3 E1 E2.
  destruct E1 as [n n2 R1 Ru1 M1 N1 A1 U1 Ar1 (l1 & l2 & S1 & F1)].
  destruct E2 as [n2 n3 R2 Ru2 M2 N2 A2 U2 Ar2 (l3 & l4 & S2 & F2)].
  constructor.
  - congruence.
  - by transitivity (n_rules n2).
  - by transitivity (n_mappers n2).
  - intros c E. destruct (N1 c E) as (c' & E' & X1). destruct (N2 c' E') as (c'' & E'' & X2).
    exists c''. split; [done|]. by eapply Hn.
  - intros c E. destruct (A1 c E) as (c' & E' & X1). destruct (A2 c' E') as (c'' & E'' & X2).
    exists c''. split; [done|]. by eapply Ha.
  - intros c E. destruct (U1 c E) as (c' & E' & X1). destruct (U2 c' E') as (c'' & E'' & X2).
    exists c''. split; [done|]. by eapply Hu.
  - intros c E. destruct (Ar1 c E) as (c' & E' & X1). destruct (Ar2 c' E') as (c'' & E'' & X2).
    exists c''. split; [done|]. by eapply Hr.
  - rewrite S1 in F2. apply Forall2_app_inv_l in F2 as (k1 & k2 & F3 & _ & ->).
    exists k1, (k2 ++ l4). rewrite app_assoc. split; [done|].
    clear -F1 F3 Hs. revert l1 k1 F1 F3. induction Hs as [|p l Hp _ IH]; intros l1 k1 F1 F3.
    + inversion F1; subst. inversion F3; subst. constructor.
    + inversion F1 as [|? q ? l1' [E1 X1] F1']; subst.
      inversion F3 as [|? r ? k1' [E2 X2] F3']; subst. constructor; [|by eapply IH].
      split; [congruence|by eapply Hp].
Qed.

(** ** Rules found by a traversal *)
Section Found.
Context {E : Type} (resolve : list value -> resolved E).

Definition found (rn : ruleNode) (es : list (event E)) : Prop :=
  exists n, EAdd n ∈ es /\ rn ∈ n_rules n.

Lemma found_app rn es1 es2 : found rn (es1 ++ es2) <-> found rn es1 \/ found rn es2.
Proof. unfold found. setoid_rewrite elem_of_app. naive_solver. Qed.

Lemma found_add rn n es : found rn (EAdd n :: es) <-> rn ∈ n_rules n \/ found rn es.
Proof.
  unfold found. setoid_rewrite elem_of_cons. split.
  - intros (n' & [[= ->]|H] & Hr); eauto.
  - intros [H|(n' & H & Hr)]; eauto.
Qed.

Lemma found_nil rn : ~ found rn [].
Proof. by intros (n & []%not_elem_of_nil & _). Qed.

Lemma found_opt rn f o :
  found rn (opt_node f o) <-> exists c, o = Some c /\ found rn (f c).
Proof.
  destruct o as [c|]; simpl; [|split; [by intros []%found_nil|by intros (? & ? & _)]].
  split; [eauto|]. by intros (c' & [= <-] & H).
Qed.

Lemma found_each rn f l :
  found rn (each_scalar f l) <-> exists p, p ∈ l /\ found rn (f p.2).
Proof.
  induction l as [|[w c] l IH]; simpl.
  - split; [by intros []%found_nil|by intros (p & []%not_elem_of_nil & _)].
  - rewrite found_app, IH. setoid_rewrite elem_of_cons. split.
    + intros [H|(p & Hp & H)]; [by exists (w, c); split; [left|]|eauto].
    + intros (p & [->|Hp] & H); [by left|eauto].
Qed.

Lemma found_mappers {A} rn (f : A -> list (event E)) l :
  found rn (concat (map f l)) <-> exists d, d ∈ l /\ found rn (f d).
Proof.
  induction l as [|d l IH]; simpl.
  - split; [by intros []%found_nil|by intros (d & []%not_elem_of_nil & _)].
  - rewrite found_app, IH. setoid_rewrite elem_of_cons. naive_solver.
Qed.

(** The entry that a lookup of [w] meets first. *)
Definition scalar_entry (w : value) (l : list (value * trieNode)) (c : trieNode) : Prop :=
  exists l1 k l2, l = l1 ++ (k, c) :: l2 /\ Equal k w = true /\
    Forall (fun p => Equal p.1 w = false) l1.

Lemma found_scalar rn f w l :
  found rn (scalar_node f w l) <-> exists c, scalar_entry w l c /\ found rn (f c).
Proof.
  induction l as [|[k c] l IH]; simpl.
  - split; [by intros []%found_nil|]. intros (c & (l1 & k & l2 & E1 & _) & _). by destruct l1.
  - destruct (Equal k w) eqn:Ek.
    + split.
      * intros H. exists c. split; [|done]. by exists [], k, l.
      * intros (c' & (l1 & k' & l2 & E1 & E2 & F) & H). destruct l1 as [|p l1]; simplify_eq/=; [done|].
        apply Forall_cons in F as [F _]. simpl in F. congruence.
    + rewrite IH. split; intros (c' & (l1 & k' & l2 & E1 & E2 & F) & H); exists c'; (split; [|done]).
      * exists ((k, c) :: l1), k', l2. rewrite E1. split_ands; [done|done|by constructor].
      * destruct l1 as [|p l1]; simplify_eq/=; [congruence|].
        apply Forall_cons in F as [_ F]. by exists l1, k', l2.
Qed.

(** One level of [visit], as the code has it. *)
Lemma visit_unfold m n :
  visit resolve m n =
  match m with
  | MArray [] => Traverse resolve n
  | MArray (head :: arr) =>
      opt_node (visit resolve (MArray arr)) (n_any n) ++
      (if IsScalar head then scalar_node (visit resolve (MArray arr)) head (n_scalars n) else [])
  | MUnknown =>
      Traverse resolve n ++ opt_node (visit resolve MUnknown) (n_undefined n) ++
      opt_node (visit resolve MUnknown) (n_any n) ++
      opt_node (visit resolve MUnknown) (n_array n) ++
      each_scalar (visit resolve MUnknown) (n_scalars n)
  | MLevel =>
      match resolve (n_ref n) with
      | RError e => [EErr e]
      | RUnknown =>
          Traverse resolve n ++ opt_node (visit resolve MUnknown) (n_undefined n) ++
          opt_node (visit resolve MUnknown) (n_any n) ++
          opt_node (visit resolve MUnknown) (n_array n) ++
          each_scalar (visit resolve MUnknown) (n_scalars n)
      | RUndefined => opt_node (Traverse resolve) (n_undefined n)
      | RValue v =>
          opt_node (Traverse resolve) (n_undefined n) ++ opt_node (Traverse resolve) (n_any n) ++
          traverseValue resolve n v ++
          concat (map (fun d => traverseValue resolve n (MapValue d v)) (n_mappers n))
      end
  end.
Proof. by destruct n, m as [|[|]|]. Qed.
End Found.

(** ** Extending the trie loses no rule *)
Section Mono.
Context {E : Type} (resolve : list value -> resolved E) (rn : ruleNode).
Abbreviation fnd := (found (E := E) rn).

Definition keeps (n : trieNode) : Prop := forall n', ext n n' ->
  (fnd (Traverse resolve n) -> fnd (Traverse resolve n')) /\
  forall m, fnd (visit resolve m n) -> fnd (visit resolve m n').

Lemma opt_mono (f : trieNode -> list (event E)) o o' :
  (forall c, o = Some c -> exists c', o' = Some c' /\ ext c c') ->
  (forall c c', o = Some c -> ext c c' -> fnd (f c) -> fnd (f c')) ->
  fnd (opt_node f o) -> fnd (opt_node f o').
Proof.
  intros Ho Hf (c & Ec & H)%found_opt. destruct (Ho c Ec) as (c' & Ec' & X).
  apply found_opt. exists c'. split; [done|]. by eapply Hf.
Qed.

Lemma scalar_mono (f : trieNode -> list (event E)) w l l' :
  (exists l1 l2, l' = l1 ++ l2 /\ Forall2 (fun p q => p.1 = q.1 /\ ext p.2 q.2) l l1) ->
  (forall p c', p ∈ l -> ext p.2 c' -> fnd (f p.2) -> fnd (f c')) ->
  fnd (scalar_node f w l) -> fnd (scalar_node f w l').
Proof.
  intros (l1 & l2 & -> & F) Hf. induction F as [|[k c] [k' c'] l l1 [Ek X] F IH]; simpl in *;
    [by intros []%found_nil|].
  subst k'. destruct (Equal k w).
  - apply (Hf (k, c)); [left|done].
  - apply IH. intros p c'' Hp. apply Hf. by right.
Qed.

Lemma each_mono (f : trieNode -> list (event E)) l l' :
  (exists l1 l2, l' = l1 ++ l2 /\ Forall2 (fun p q => p.1 = q.1 /\ ext p.2 q.2) l l1) ->
  (forall p c', p ∈ l -> ext p.2 c' -> fnd (f p.2) -> fnd (f c')) ->
  fnd (each_scalar f l) -> fnd (each_scalar f l').
Proof.
  intros (l1 & l2 & -> & F) Hf (p & Hp & H)%found_each.
  apply list_elem_of_lookup in Hp as [i Hi].
  destruct (Forall2_lookup_l _ _ _ _ _ F Hi) as (q & Hq & _ & X).
  apply found_each. exists q. split.
  - apply elem_of_app. left. by eapply list_elem_of_lookup_2.
  - eapply (Hf p); [by eapply list_elem_of_lookup_2|done|done].
Qed.

Lemma keeps_all n : keeps n.
Proof.
  induction n as [n Hn Ha Hu Hs Hr] using trie_ind. intros n' X.
  destruct X as [n n' Rf Ru Mp Nx An Un Ar Sc]. rewrite Forall_forall in Hs.
  assert (T : fnd (Traverse resolve n) -> fnd (Traverse resolve n')).
  { unfold Traverse. rewrite !found_add. intros [H|H]; [left; by apply Ru|right].
    revert H. apply opt_mono; [done|]. intros c c' Ec X. by apply Hn. }
  assert (V : forall v, fnd (traverseValue resolve n v) -> fnd (traverseValue resolve n' v)).
  { intros v. unfold traverseValue. destruct v; try done;
      try (apply scalar_mono; [done|]; intros p c' Hp X; by apply (Hs p Hp)).
    apply opt_mono; [done|]. intros c c' Ec X. by apply Hr. }
  assert (U : fnd (visit resolve MUnknown n) -> fnd (visit resolve MUnknown n')).
  { rewrite !visit_unfold, !found_app. intros [H|[H|[H|[H|H]]]]; [auto|right..].
    - left. revert H. apply opt_mono; [done|]. intros c c' Ec X. by apply Hu.
    - right; left. revert H. apply opt_mono; [done|]. intros c c' Ec X. by apply Ha.
    - right; right; left. revert H. apply opt_mono; [done|]. intros c c' Ec X. by apply Hr.
    - right; right; right. revert H. apply each_mono; [done|]. intros p c' Hp X. by apply (Hs p Hp). }
  split; [done|]. intros [|arr|]; [|clear U V|done].
  - rewrite (visit_unfold _ MLevel n), (visit_unfold _ MLevel n'), <- Rf.
    destruct (resolve (n_ref n)) as [v| | |e].
    + rewrite !found_app. intros [H|[H|[H|H]]].
      * left. revert H. apply opt_mono; [done|]. intros c c' Ec X. by apply Hu.
      * right; left. revert H. apply opt_mono; [done|]. intros c c' Ec X. by apply Ha.
      * right; right; left. by apply V.
      * do 3 right. apply found_mappers in H as (d & Hd & H). apply found_mappers.
        exists d. split; [by apply Mp|by apply V].
    + apply opt_mono; [done|]. intros c c' Ec X. by apply Hu.
    + rewrite !(visit_unfold _ MUnknown) in U. exact U.
    + done.
  - destruct arr as [|x arr]; rewrite !visit_unfold; [done|]. rewrite !found_app. intros [H|H]; [left|right].
    + revert H. apply opt_mono; [done|]. intros c c' Ec X. by apply Ha.
    + destruct (IsScalar x); [|done]. revert H. apply scalar_mono; [done|].
      intros p c' Hp X. by apply (Hs p Hp).
Qed.
End Mono.

(** ** Insertion extends the trie *)
Lemma scalars_ext_refl (l : list (value * trieNode)) :
  exists l1 l2, l = l1 ++ l2 /\ Forall2 (fun p q => p.1 = q.1 /\ ext p.2 q.2) l l1.
Proof.
  exists l, []. split; [by rewrite app_nil_r|]. apply Forall_Forall2_diag, Forall_true.
  intros p. split; [done|apply ext_refl].
Qed.

Ltac ext_same :=
  first [done | apply scalars_ext_refl 
        | let x := fresh in intros x ?; exists x; split; [done|apply ext_refl]].

(** The child that replaces an optional one extends it. *)
Definition oext (o : option trieNode) (c' : trieNode) : Prop := forall c, o = Some c -> ext c c'.

Lemma ext_with_any n c : oext (n_any n) c -> ext n (with_any n (Some c)).
Proof. intros H. constructor; simpl; try ext_same. intros x Ex. exists c. split; [done|by apply H]. Qed.
Lemma ext_with_undefined n c : oext (n_undefined n) c -> ext n (with_undefined n (Some c)).
Proof. intros H. constructor; simpl; try ext_same. intros x Ex. exists c. split; [done|by apply H]. Qed.
Lemma ext_with_array n c : oext (n_array n) c -> ext n (with_array n (Some c)).
Proof. intros H. constructor; simpl; try ext_same. intros x Ex. exists c. split; [done|by apply H]. Qed.
Lemma ext_with_next n c : oext (n_next n) c -> ext n (with_next n (Some c)).
Proof. intros H. constructor; simpl; try ext_same. intros x Ex. exists c. split; [done|by apply H]. Qed.
Lemma ext_with_scalars n l :
  (exists l1 l2, l = l1 ++ l2 /\ Forall2 (fun p q => p.1 = q.1 /\ ext p.2 q.2) (n_scalars n) l1) ->
  ext n (with_scalars n l).
Proof. intros H. constructor; simpl; ext_same. Qed.

(** Only the rules and their values change. *)
Lemma node_append_eq rn n n' : node_append rn n = Some n' -> exists values,
  n' = Node (n_ref n) values (n_mappers n) (n_next n) (n_any n) (n_undefined n) (n_scalars n) (n_array n) (n_rules n ++ [rn]).
Proof. unfold node_append. intros (values & _ & [= <-])%bind_Some. by exists values. Qed.

Lemma ext_append rn n n' : node_append rn n = Some n' -> ext n n'.
Proof.
  intros (values & ->)%node_append_eq. constructor; simpl; try ext_same. intros x Hx. apply elem_of_app. by left.
Qed.

Lemma ext_addMapper d n : ext n (addMapper d n).
Proof.
  unfold addMapper. destruct (existsb _ _); [apply ext_refl|].
  constructor; simpl; try ext_same. intros x Hx. apply elem_of_app. by left.
Qed.

Lemma oext_or_new (K : trieNode -> option trieNode) o c' :
  (forall c c', K c = Some c' -> ext c c') -> K (or_new o) = Some c' -> oext o c'.
Proof. intros HK H c ->. by apply HK. Qed.

Section InsertExt.
Context (K : trieNode -> option trieNode) (HK : forall c c', K c = Some c' -> ext c c').

Lemma scalars_update_ext v l l' :
  scalars_update v K l = Some l' ->
  exists l1 l2, l' = l1 ++ l2 /\ Forall2 (fun p q => p.1 = q.1 /\ ext p.2 q.2) l l1.
Proof.
  revert l'. induction l as [|[w c] l IH]; intros l'; simpl.
  - destruct (K newTrieNodeImpl) as [c'|]; [|done]. intros [= <-].
    exists [], [(v, c')]. split; [done|constructor].
  - destruct (Equal w v).
    + destruct (K c) as [c'|] eqn:Ec; [|done]. intros [= <-].
      destruct (scalars_ext_refl l) as (l1 & l2 & El & F). exists ((w, c') :: l1), l2.
      rewrite El at 1. split; [done|]. constructor; [split; [done|by apply HK]|done].
    + destruct (scalars_update v K l) as [l2|]; [|done]. intros [= <-].
      destruct (IH l2 eq_refl) as (l3 & l4 & -> & F). exists ((w, c) :: l3), l4.
      split; [done|]. constructor; [split; [done|apply ext_refl]|done].
Qed.
End InsertExt.

Lemma insertArray_ext K arr : (forall c c', K c = Some c' -> ext c c') ->
  forall n n', insertArray arr K n = Some n' -> ext n n'.
Proof.
  intros HK. induction arr as [|x arr IH]; intros n n'; simpl; [apply HK|].
  destruct x; try done;
    try (destruct (scalars_update _ _ _) as [l|] eqn:S; [|done]; intros [= <-];
         apply ext_with_scalars; by eapply scalars_update_ext).
  destruct (insertArray arr K (or_new (n_any n))) as [c|] eqn:Ec; [|done]. intros [= <-].
  apply ext_with_any. by apply (oext_or_new (insertArray arr K)).
Qed.

Lemma insertValue_ext K v n n' :
  (forall c c', K c = Some c' -> ext c c') -> insertValue v K n = Some n' -> ext n n'.
Proof.
  intros HK. unfold insertValue.
  assert (S : forall s, option_map (with_scalars n) (scalars_update s K (n_scalars n)) = Some n' -> ext n n').
  { intros s. destruct (scalars_update s K (n_scalars n)) as [l|] eqn:S; [|done]. intros [= <-].
    apply ext_with_scalars. by eapply scalars_update_ext. }
  destruct v as [[]|]; try done; try apply S.
  - destruct (K (or_new (n_any n))) as [c|] eqn:Ec; [|done]. intros [= <-].
    apply ext_with_any. by apply (oext_or_new K).
  - destruct (insertArray elems K (or_new (n_array n))) as [c|] eqn:Ec; [|done]. intros [= <-].
    apply ext_with_array. apply (oext_or_new (insertArray elems K)); [|done].
    by apply insertArray_ext.
  - destruct (K (or_new (n_undefined n))) as [c|] eqn:Ec; [|done]. intros [= <-].
    apply ext_with_undefined. by apply (oext_or_new K).
Qed.

Lemma insert_levels_ext k ls : (forall c c', k c = Some c' -> ext c c') ->
  forall n n', insert_levels ls k n = Some n' -> ext n n'.
Proof.
  intros Hk. induction ls as [|[[ref v] mapper] ls IH]; intros n n'; simpl; [apply Hk|].
  unfold Insert. set (m := match mapper with Some key => _ | None => _ end).
  destruct (insertValue v (insert_levels ls k) m) as [m'|] eqn:Em; [|done]. intros [= <-].
  apply ext_with_next. intros c Ec. apply (ext_trans c m).
  - unfold m, next_or_new. rewrite Ec. destruct mapper; [apply ext_addMapper|apply ext_refl].
  - by eapply insertValue_ext.
Qed.

(** ** Every level of the trie asks about one reference *)
Inductive leveled : list (list value) -> trieNode -> Prop :=
| lv_end refs n : n_next n = None -> leveled refs n
| lv_next ref refs n m :
    n_next n = Some m -> n_ref m = ref ->
    (forall c, n_any m = Some c -> leveled refs c) ->
    (forall c, n_undefined m = Some c -> leveled refs c) ->
    (forall p, p ∈ n_scalars m -> leveled refs p.2) ->
    (forall c, n_array m = Some c -> arr_leveled refs c) ->
    leveled (ref :: refs) n
with arr_leveled : list (list value) -> trieNode -> Prop :=
| al_node refs n :
    leveled refs n -> (forall c, n_any n = Some c -> arr_leveled refs c) ->
    (forall p, p ∈ n_scalars n -> arr_leveled refs p.2) ->
    arr_leveled refs n.

Lemma leveled_new refs : leveled refs newTrieNodeImpl.
Proof. by constructor. Qed.
Lemma arr_leveled_new refs : arr_leveled refs newTrieNodeImpl.
Proof. constructor; [by constructor|done|]. by intros p []%not_elem_of_nil. Qed.

Lemma leveled_or_new refs o : (forall c, o = Some c -> leveled refs c) -> leveled refs (or_new o).
Proof. intros H. destruct o; [by apply H|apply leveled_new]. Qed.
Lemma arr_leveled_or_new refs o :
  (forall c, o = Some c -> arr_leveled refs c) -> arr_leveled refs (or_new o).
Proof. intros H. destruct o; [by apply H|apply arr_leveled_new]. Qed.

(** Where [scalars_update] has put the child. *)
Lemma scalars_update_entry v K l l' :
  scalars_update v K l = Some l' ->
  exists c c', K c = Some c' /\ (c = newTrieNodeImpl \/ exists w, (w, c) ∈ l) /\
    (forall p, p ∈ l' -> p ∈ l \/ p.2 = c') /\ (exists w, (w, c') ∈ l') /\
    forall w, Equal v w = true -> scalar_entry w l' c'.
Proof.
  revert l'. induction l as [|[k c] l IH]; intros l'; simpl.
  - destruct (K newTrieNodeImpl) as [c'|] eqn:Ec; [|done]. intros [= <-].
    exists newTrieNodeImpl, c'. split_ands; [done|by left| | |].
    + intros p ->%list_elem_of_singleton. by right.
    + exists v. left.
    + intros w Ew. by exists [], v, [].
  - destruct (Equal k v) eqn:Ekv.
    + destruct (K c) as [c'|] eqn:Ec; [|done]. intros [= <-]. exists c, c'. split_ands.
      * done.
      * right. exists k. left.
      * intros p [->|Hp]%elem_of_cons; [by right|left; by right].
      * exists k. left.
      * intros w Ew. exists [], k, l. split_ands; [done| |done].
        apply Equal_true. apply Equal_true in Ekv, Ew. by apply (cmp_eq_trans Compare _ v).
    + destruct (scalars_update v K l) as [l2|]; [|done]. intros [= <-].
      destruct (IH l2 eq_refl) as (c0 & c' & HK & Hc & Hp & [w0 Hw] & Hs).
      exists c0, c'. split_ands.
      * done.
      * destruct Hc as [|[w Hc]]; [by left|right; exists w; by right].
      * intros p [->|Hp']%elem_of_cons; [left; left|].
        destruct (Hp p Hp'); [left; by right|by right].
      * exists w0. by right.
      * intros w Ew. destruct (Hs w Ew) as (l3 & k' & l4 & -> & E2 & F).
        exists ((k, c) :: l3), k', l4. split_ands; [done|done|]. constructor; [|done]. simpl.
        destruct (Equal k w) eqn:Ekw; [|done]. apply Equal_true in Ekw, Ew.
        assert (Equal k v = true); [|congruence]. apply Equal_true.
        apply (cmp_eq_trans Compare _ w); [done|by apply (cmp_eq_sym Compare)].
Qed.

(** A continuation that goes on at the end of an edge leaves the edges of the
    node alone, and keeps it levelled. *)
Record edge_ok (refs : list (list value)) (K : trieNode -> option trieNode) : Prop := {
  eo_any : forall c c', K c = Some c' -> n_any c' = n_any c;
  eo_scalars : forall c c', K c = Some c' -> n_scalars c' = n_scalars c;
  eo_leveled : forall c c', K c = Some c' -> leveled refs c -> leveled refs c';
}.

Lemma leveled_scalars (Q : trieNode -> Prop) v K l l' :
  Q newTrieNodeImpl -> (forall c c', K c = Some c' -> Q c -> Q c') ->
  scalars_update v K l = Some l' -> (forall p, p ∈ l -> Q p.2) -> forall p, p ∈ l' -> Q p.2.
Proof.
  intros Hn HK S Hl p Hp.
  destruct (scalars_update_entry v K l l' S) as (c & c' & Hc & Hsrc & Hall & _).
  destruct (Hall p Hp) as [H| ->]; [by apply Hl|]. apply (HK c); [done|].
  destruct Hsrc as [-> |[w H]]; [done|by apply (Hl (w, c))].
Qed.

Lemma insertArray_leveled refs K arr : edge_ok refs K ->
  forall n n', insertArray arr K n = Some n' -> arr_leveled refs n -> arr_leveled refs n'.
Proof.
  intros HK. induction arr as [|x arr IH]; intros n n' H L; simpl in H;
    inversion L as [? ? L1 L2 L3]; subst.
  - constructor; [by eapply eo_leveled|by rewrite (eo_any _ _ HK n n' H)|
      by rewrite (eo_scalars _ _ HK n n' H)].
  - assert (Hn : forall c, n_next c = n_next n -> leveled refs c).
    { intros c Ec. inversion L1 as [? ? E|? ? ? m E]; subst; [constructor; congruence|].
      eapply lv_next; [by rewrite Ec, E|done..]. }
    assert (Sc : option_map (with_scalars n) (scalars_update x (insertArray arr K) (n_scalars n)) =
        Some n' -> arr_leveled refs n').
    { destruct (scalars_update _ _ _) as [l|] eqn:S; [|done]. intros [= <-].
      constructor; [by apply Hn|done|]. simpl.
      apply (leveled_scalars (arr_leveled refs) x (insertArray arr K) (n_scalars n));
        [apply arr_leveled_new|apply IH|done|done]. }
    destruct x; try discriminate H; try exact (Sc H).
    destruct (insertArray arr K (or_new (n_any n))) as [c|] eqn:Ec; [|done]. injection H as <-.
    constructor; [by apply Hn| |done]. simpl. intros c' [= <-].
    eapply IH; [exact Ec|]. by apply arr_leveled_or_new.
Qed.

(** The node of a level. *)
Definition level_ok (refs : list (list value)) (m : trieNode) : Prop :=
  (forall c, n_any m = Some c -> leveled refs c) /\
  (forall c, n_undefined m = Some c -> leveled refs c) /\
  (forall p, p ∈ n_scalars m -> leveled refs p.2) /\
  (forall c, n_array m = Some c -> arr_leveled refs c).

Lemma insertValue_level refs K v m m' :
  edge_ok refs K -> insertValue v K m = Some m' -> level_ok refs m ->
  level_ok refs m' /\ n_ref m' = n_ref m /\ n_mappers m' = n_mappers m.
Proof.
  intros HK H (La & Lu & Ls & Lr).
  assert (Sc : forall s, option_map (with_scalars m) (scalars_update s K (n_scalars m)) = Some m' ->
    level_ok refs m' /\ n_ref m' = n_ref m /\ n_mappers m' = n_mappers m).
  { intros s. destruct (scalars_update s K (n_scalars m)) as [l|] eqn:S; [|done]. intros [= <-].
    split; [|done]. split; [done|split; [done|split; [|done]]].
    apply (leveled_scalars (leveled refs) s K (n_scalars m));
      [apply leveled_new|apply (eo_leveled _ _ HK)|done|done]. }
  destruct v as [x|]; simpl in H.
  - destruct x; try discriminate H; try exact (Sc _ H); clear Sc.
    + destruct (K (or_new (n_any m))) as [c|] eqn:Ec; [|done]. injection H as <-.
      split; [|done]. split; [|split; [exact Lu|split; [exact Ls|exact Lr]]]. intros c' [= <-].
      eapply (eo_leveled _ _ HK); [exact Ec|]. by apply leveled_or_new.
    + destruct (insertArray elems K (or_new (n_array m))) as [c|] eqn:Ec; [|done].
      injection H as <-. split; [|done].
      split; [exact La|split; [exact Lu|split; [exact Ls|]]]. intros c' [= <-].
      eapply insertArray_leveled; [done|exact Ec|]. by apply arr_leveled_or_new.
  - destruct (K (or_new (n_undefined m))) as [c|] eqn:Ec; [|done]. injection H as <-.
    split; [|done]. split; [exact La|split; [|split; [exact Ls|exact Lr]]]. intros c' [= <-].
    eapply (eo_leveled _ _ HK); [exact Ec|]. by apply leveled_or_new.
Qed.

(** The level node that [Insert] works on. *)
Definition level_node (n : trieNode) (ref : list value) (mapper : option string) : trieNode :=
  match mapper with Some key => addMapper key (next_or_new n ref) | None => next_or_new n ref end.

Lemma level_node_ok ref refs n mapper :
  leveled (ref :: refs) n ->
  level_ok refs (level_node n ref mapper) /\ n_ref (level_node n ref mapper) = ref /\
  (forall d, mapper = Some d -> d ∈ n_mappers (level_node n ref mapper)).
Proof.
  intros L.
  assert (M : level_ok refs (next_or_new n ref) /\ n_ref (next_or_new n ref) = ref).
  { unfold next_or_new. inversion L as [? ? E|? ? ? m E Er L1 L2 L3 L4]; subst; rewrite E; [|done].
    split; [|done]. unfold level_ok. split_ands; try done. by intros p []%not_elem_of_nil. }
  destruct M as [M1 M2].
  destruct mapper as [key|]; simpl; [|split; [exact M1|split; [exact M2|discriminate]]].
  unfold addMapper.
  destruct (existsb (String.eqb key) (n_mappers (next_or_new n ref))) eqn:X.
  - split; [exact M1|split; [exact M2|]]. intros d [= <-].
    apply existsb_exists in X as (y & Hy & ->%String.eqb_eq). by apply list_elem_of_In.
  - split; [exact M1|split; [exact M2|]]. intros d [= <-]. simpl. apply elem_of_app. right. left.
Qed.

Lemma insert_levels_edge k ls :
  (forall refs, edge_ok refs k) -> edge_ok (map (fun l => l.1.1) ls) (insert_levels ls k).
Proof.
  intros Hk. induction ls as [|[[ref v] mapper] ls IH]; [apply Hk|]. cbn [insert_levels map fst].
  assert (D : forall c c', Insert ref v mapper (insert_levels ls k) c = Some c' ->
    exists m', insertValue v (insert_levels ls k) (level_node c ref mapper) = Some m' /\
      c' = with_next c (Some m')).
  { intros c c'. unfold Insert. fold (level_node c ref mapper).
    destruct (insertValue _ _ _) as [m'|]; [|done]. intros [= <-]. eauto. }
  split; intros c c' (m' & Hm & ->)%D; [done|done|]. intros L.
  destruct (level_node_ok ref _ c mapper L) as (Lm & Er & _).
  destruct (insertValue_level _ _ _ _ _ IH Hm Lm) as ((La & Lu & Ls & Lr) & Er' & _).
  eapply lv_next; [done|congruence|done..].
Qed.

(** ** A matching rule is found *)
Section Hit.
Context {E : Type} (resolve : list value -> resolved E) (rn : ruleNode).
Abbreviation fnd := (found (E := E) rn).

(** [K] puts the rule where a traversal of the node finds it. *)
Definition hits (refs : list (list value)) (K : trieNode -> option trieNode) : Prop :=
  forall c c', K c = Some c' -> leveled refs c -> fnd (Traverse resolve c').

Lemma unknown_Traverse n : fnd (Traverse resolve n) -> fnd (visit resolve MUnknown n).
Proof. intros H. rewrite visit_unfold, found_app. by left. Qed.

Lemma insertArray_hit refs K ps : hits refs K ->
  forall n n', insertArray ps K n = Some n' -> arr_leveled refs n ->
    (forall xs, elems_match ps xs = true -> fnd (visit resolve (MArray xs) n')) /\
    fnd (visit resolve MUnknown n').
Proof.
  intros HK. induction ps as [|p ps IH]; intros n n' H L; simpl in H;
    inversion L as [? ? L1 L2 L3]; subst.
  { pose proof (HK n n' H L1) as F. split; [|by apply unknown_Traverse].
    intros [|x xs]; [|done]. intros _. by rewrite visit_unfold. }
  assert (Sc : option_map (with_scalars n) (scalars_update p (insertArray ps K) (n_scalars n)) =
    Some n' -> (forall x, elem_match p x = IsScalar x && Equal p x) ->
    (forall xs, elems_match (p :: ps) xs = true -> fnd (visit resolve (MArray xs) n')) /\
    fnd (visit resolve MUnknown n')).
  { destruct (scalars_update _ _ _) as [l|] eqn:S; [|done]. intros [= <-] Hp.
    destruct (scalars_update_entry _ _ _ _ S) as (c & c' & Hc & Hsrc & _ & [w Hw] & Hent).
    destruct (IH c c' Hc) as [IH1 IH2].
    { destruct Hsrc as [-> |[w' Hsrc]]; [apply arr_leveled_new|apply (L3 _ Hsrc)]. }
    split.
    - intros [|x xs]; [done|]. cbn [elems_match]. rewrite Hp.
      intros [[Sx Ex]%andb_true_iff M]%andb_true_iff. rewrite visit_unfold, Sx, found_app. right.
      apply found_scalar. exists c'. split; [by apply Hent|by apply IH1].
    - rewrite visit_unfold, !found_app. do 4 right. apply found_each. by exists (w, c'). }
  destruct p; try discriminate H; try exact (Sc H (fun _ => eq_refl)). clear Sc.
  destruct (insertArray ps K (or_new (n_any n))) as [c|] eqn:Ec; [|done]. injection H as <-.
  destruct (IH _ _ Ec) as [IH1 IH2]; [by apply arr_leveled_or_new|]. split.
  - intros [|y xs]; [done|]. intros M. rewrite visit_unfold, found_app. left.
    apply found_opt. exists c. split; [done|by apply IH1].
  - rewrite visit_unfold, !found_app. do 2 right. left. apply found_opt. by exists c.
Qed.

(** The four kinds of edges of a level, in a traversal that knows the value,
    and in one that does not. *)
Lemma hit_undefined m c :
  fnd (Traverse resolve c) -> (forall e, resolve (n_ref m) <> RError e) ->
  fnd (visit resolve MLevel (with_undefined m (Some c))).
Proof.
  intros F Ne. rewrite visit_unfold. cbn [n_ref with_undefined].
  destruct (resolve (n_ref m)) as [w| | |e]; [| | |by destruct (Ne e)].
  - rewrite found_app. left. apply found_opt. by exists c.
  - apply found_opt. by exists c.
  - rewrite !found_app. right; left. apply found_opt. exists c. split; [done|].
    by apply unknown_Traverse.
Qed.

(** What is asked of a rule with a value for the reference. *)
Definition defined_match (ref : list value) (b : value -> bool) : bool :=
  match resolve ref with
  | RUnknown => true
  | RValue w => b w
  | RUndefined | RError _ => false
  end.

Lemma hit_any m c :
  fnd (Traverse resolve c) -> defined_match (n_ref m) (fun _ => true) = true ->
  fnd (visit resolve MLevel (with_any m (Some c))).
Proof.
  intros F M. unfold defined_match in M. rewrite visit_unfold. cbn [n_ref with_any].
  destruct (resolve (n_ref m)) as [w| | |e]; [|done| |done]; rewrite !found_app.
  - right; left. apply found_opt. by exists c.
  - right; right; left. apply found_opt. exists c. split; [done|by apply unknown_Traverse].
Qed.

Lemma hit_scalar m l x c w0 :
  fnd (Traverse resolve c) -> (forall w, Equal x w = true -> scalar_entry w l c) -> (w0, c) ∈ l ->
  defined_match (n_ref m) (fun w => IsScalar w && Equal x w) = true ->
  fnd (visit resolve MLevel (with_scalars m l)).
Proof.
  intros F Hent Hw M. unfold defined_match in M. rewrite visit_unfold. cbn [n_ref with_scalars].
  destruct (resolve (n_ref m)) as [w| | |e]; [|done| |done]; rewrite !found_app.
  - apply andb_true_iff in M as [Sw Ew]. right; right; left.
    assert (fnd (scalar_node (Traverse resolve) w l)).
    { apply found_scalar. exists c. split; [by apply Hent|done]. }
    unfold traverseValue. by destruct w.
  - do 4 right. apply found_each. exists (w0, c). split; [done|]. by apply unknown_Traverse.
Qed.

Lemma hit_array m c ps mapper :
  (forall xs, elems_match ps xs = true -> fnd (visit resolve (MArray xs) c)) ->
  fnd (visit resolve MUnknown c) -> (forall d, mapper = Some d -> d ∈ n_mappers m) ->
  defined_match (n_ref m) (fun w => array_match ps w ||
    match mapper with Some d => array_match ps (MapValue d w) | None => false end) = true ->
  fnd (visit resolve MLevel (with_array m (Some c))).
Proof.
  intros F1 F2 Hd M. unfold defined_match in M. rewrite visit_unfold. cbn [n_ref with_array].
  assert (V : forall w, array_match ps w = true ->
    fnd (traverseValue resolve (with_array m (Some c)) w)).
  { intros [] Hw; try done. by apply F1. }
  destruct (resolve (n_ref m)) as [w| | |e]; [|done| |done]; rewrite !found_app.
  - apply orb_true_iff in M as [M|M].
    + right; right; left. by apply V.
    + destruct mapper as [d|]; [|done]. do 3 right. apply found_mappers.
      exists d. split; [by apply Hd|by apply V].
  - do 3 right. left. apply found_opt. by exists c.
Qed.

Lemma insertValue_hit refs K ref v mapper m m' :
  hits refs K -> insertValue v K m = Some m' -> level_ok refs m -> n_ref m = ref ->
  (forall d, mapper = Some d -> d ∈ n_mappers m) ->
  level_match resolve (ref, v, mapper) = true -> fnd (visit resolve MLevel m').
Proof.
  intros HK H (La & Lu & Ls & Lr) <- Hd M. unfold level_match in M.
  destruct v as [x|]; simpl in H.
  2:{ destruct (K (or_new (n_undefined m))) as [c|] eqn:Ec; [|done]. injection H as <-.
    apply hit_undefined; [apply (HK _ _ Ec); by apply leveled_or_new|].
    intros e Ee. by rewrite Ee in M. }
  assert (Sc : option_map (with_scalars m) (scalars_update x K (n_scalars m)) = Some m' ->
    defined_match (n_ref m) (fun w => IsScalar w && Equal x w) = true ->
    fnd (visit resolve MLevel m')).
  { destruct (scalars_update _ _ _) as [l|] eqn:S; [|done]. intros [= <-] Mx.
    destruct (scalars_update_entry _ _ _ _ S) as (c & c' & Hc & Hsrc & _ & [w' Hw] & Hent).
    apply (hit_scalar m l x c' w'); [|done..]. apply (HK _ _ Hc).
    destruct Hsrc as [-> |[w'' Hsrc]]; [apply leveled_new|apply (Ls _ Hsrc)]. }
  destruct x; try discriminate H; try exact (Sc H M); clear Sc.
  - destruct (K (or_new (n_any m))) as [c|] eqn:Ec; [|done]. injection H as <-.
    apply hit_any; [apply (HK _ _ Ec); by apply leveled_or_new|exact M].
  - destruct (insertArray elems K (or_new (n_array m))) as [c|] eqn:Ec; [|done].
    injection H as <-.
    destruct (insertArray_hit refs K elems HK _ _ Ec) as [F1 F2]; [by apply arr_leveled_or_new|].
    exact (hit_array m c elems mapper F1 F2 Hd M).
Qed.

Lemma insert_levels_hit k ls :
  (forall refs, edge_ok refs k) -> (forall c c', k c = Some c' -> rn ∈ n_rules c') ->
  Forall (fun l => level_match resolve l = true) ls ->
  hits (map (fun l => l.1.1) ls) (insert_levels ls k).
Proof.
  intros Hk Hr. induction 1 as [|[[ref v] mapper] ls M _ IH]; intros n n' H L.
  - unfold Traverse. apply found_add. left. by eapply Hr.
  - cbn [insert_levels map fst] in *. unfold Insert in H. fold (level_node n ref mapper) in H.
    destruct (insertValue _ _ _) as [m'|] eqn:V; [|done]. injection H as <-.
    destruct (level_node_ok ref _ n mapper L) as (Lm & Er & Hd).
    unfold Traverse. apply found_add. right. apply found_opt. exists m'. split; [done|].
    by apply (insertValue_hit _ _ ref v mapper _ _ IH V Lm).
Qed.
End Hit.

(** ** The whole index *)
Lemma append_edge rn refs : edge_ok refs (node_append rn).
Proof.
  split; intros c c' (values & ->)%node_append_eq; [done|done|]. intros L.
  inversion L as [? ? E|? ? ? m E Er L1 L2 L3 L4]; subst; [by constructor|].
  by eapply lv_next.
Qed.

Lemma rule_levels_refs i sorted r :
  rule_levels i sorted r = [] \/ map (fun l => l.1.1) (rule_levels i sorted r) = sorted.
Proof.
  unfold rule_levels. destruct (Indexed i r); [right|by left].
  rewrite map_map. etransitivity; [|apply map_id]. apply map_ext. intros ref.
  unfold rule_level. by destruct (ri_index _ _).
Qed.

Lemma insert_rule_leveled i sorted n n' rn :
  insert_rule i sorted n rn = Some n' -> leveled sorted n -> leveled sorted n'.
Proof.
  unfold insert_rule. intros H L.
  destruct (rule_levels_refs i sorted (rn_rule rn)) as [E|E].
  - rewrite E in H. by apply (eo_leveled _ _ (append_edge rn sorted) n).
  - pose proof (insert_levels_edge _ (rule_levels i sorted (rn_rule rn)) (append_edge rn)) as X.
    rewrite E in X. by apply (eo_leveled _ _ X n).
Qed.

Lemma insert_rule_ext i sorted n n' rn : insert_rule i sorted n rn = Some n' -> ext n n'.
Proof. apply insert_levels_ext. intros c c'. apply ext_append. Qed.

Lemma insert_rule_hit {E} (resolve : list value -> resolved E) i sorted n n' rn :
  insert_rule i sorted n rn = Some n' -> leveled sorted n ->
  Forall (fun l => level_match resolve l = true) (rule_levels i sorted (rn_rule rn)) ->
  found rn (Traverse resolve n').
Proof.
  intros H L M.
  assert (Hr : forall c c', node_append rn c = Some c' -> rn ∈ n_rules c').
  { intros c c' (values & ->)%node_append_eq. simpl. apply elem_of_app. right. left. }
  destruct (rule_levels_refs i sorted (rn_rule rn)) as [E2|E2].
  - unfold insert_rule in H. rewrite E2 in H. apply found_add. left. by apply (Hr n).
  - pose proof (insert_levels_hit resolve rn _ _ (append_edge rn) Hr M) as X.
    rewrite E2 in X. by apply (X n).
Qed.

Lemma build_trie_sound {E} (resolve : list value -> resolved E) i sorted rns : forall n root,
  fold_left (fun n rn => match n with Some n => insert_rule i sorted n rn | None => None end)
    rns (Some n) = Some root ->
  leveled sorted n ->
  ext n root /\
  forall rn, rn ∈ rns ->
    Forall (fun l => level_match resolve l = true) (rule_levels i sorted (rn_rule rn)) ->
    found rn (Traverse resolve root).
Proof.
  assert (N : forall rns, fold_left (fun n rn => match n with
    Some n => insert_rule i sorted n rn | None => None end) rns None = None).
  { induction rns0; [done|]. done. }
  induction rns as [|rn rns IH]; intros n root; simpl.
  { intros [= <-] _. split; [apply ext_refl|]. by intros rn []%not_elem_of_nil. }
  destruct (insert_rule i sorted n rn) as [n'|] eqn:H; [|by rewrite N].
  intros B L. destruct (IH n' root B) as [X F]; [by eapply insert_rule_leveled|].
  split; [apply (ext_trans n n'); [by eapply insert_rule_ext|done]|].
  intros rn' [->|Hrn]%elem_of_cons M; [|by apply F].
  apply (keeps_all resolve rn n' root X). by eapply insert_rule_hit.
Qed.

(** ** From the nodes found to the result *)
Definition in_groups (rn : ruleNode) (gs : list (nat * list ruleNode)) : Prop :=
  exists g, g ∈ gs /\ rn ∈ g.2.

Lemma group_add_in gs rn rn' :
  in_groups rn' (group_add gs rn) <-> in_groups rn' gs \/ rn' = rn.
Proof.
  unfold in_groups. induction gs as [|[i rns] gs IH]; simpl.
  - setoid_rewrite list_elem_of_singleton. split.
    + intros (g & -> & H). simpl in H. apply list_elem_of_singleton in H. by right.
    + intros [(g & []%not_elem_of_nil & _)| ->]. eexists. split; [done|]. simpl. left.
  - destruct (i =? rn_idx rn)%nat; setoid_rewrite elem_of_cons.
    + split.
      * intros (g & [->|Hg] & H); simpl in H.
        { apply elem_of_app in H as [H|H%list_elem_of_singleton]; [left|by right].
          exists (i, rns). split; [by left|done]. }
        left. eauto.
      * intros [(g & [->|Hg] & H)| ->].
        { exists (i, rns ++ [rn]). split; [by left|]. simpl. apply elem_of_app. by left. }
        { eauto. }
        exists (i, rns ++ [rn]). split; [by left|]. simpl. apply elem_of_app. right. left.
    + split.
      * intros (g & [->|Hg] & H); [left; exists (i, rns); split; [by left|done]|].
        destruct (proj1 IH) as [(g' & Hg' & H')| ->]; [by exists g|left; eauto|by right].
      * intros [(g & [->|Hg] & H)| ->].
        { exists (i, rns). split; [by left|done]. }
        { destruct (proj2 IH) as (g' & Hg' & H'); [left; by exists g|]. eauto. }
        destruct (proj2 IH) as (g' & Hg' & H'); [by right|]. eauto.
Qed.

Lemma group_add_all_in rns gs rn :
  in_groups rn (fold_left group_add rns gs) <-> in_groups rn gs \/ rn ∈ rns.
Proof.
  revert gs. induction rns as [|r rns IH]; intros gs; simpl.
  - split; [by left|]. by intros [|[]%not_elem_of_nil].
  - rewrite IH, group_add_in, elem_of_cons. tauto.
Qed.

(** Every event sequence without an error is collected. *)
Lemma collect_ok {E} (es : list (event E)) tr :
  (forall e, EErr e ∉ es) -> exists tr', collect es tr = Ok tr'.
Proof.
  revert tr. induction es as [|[n|e] es IH]; intros tr H; simpl; [eauto| |].
  - apply IH. intros e He. by apply (H e); right.
  - destruct (H e). left.
Qed.

Lemma collect_in {E} (es : list (event E)) tr tr' rn :
  collect es tr = Ok tr' ->
  in_groups rn (tr_groups tr') <-> in_groups rn (tr_groups tr) \/ found rn es.
Proof.
  revert tr. induction es as [|[n|e] es IH]; intros tr; simpl; [|intros C|done].
  - intros [= <-]. split; [by left|]. intros [|F]; [done|by apply found_nil in F].
  - rewrite (IH _ C). unfold result_Add. simpl. rewrite group_add_all_in, found_add. tauto.
Qed.

(** The rules a result holds, as roots or in an [else] chain. *)
Definition in_result (r : rule) (res : IndexResult) : Prop :=
  r ∈ ir_rules res \/ exists root rest, (root, rest) ∈ ir_else res /\ r ∈ rest.

Lemma in_concat_map {A B} (f : A -> list B) l b :
  b ∈ concat (map f l) <-> exists a, a ∈ l /\ b ∈ f a.
Proof.
  induction l as [|a l IH]; simpl.
  - split; [by intros []%not_elem_of_nil|by intros (a & []%not_elem_of_nil & _)].
  - rewrite elem_of_app, IH. setoid_rewrite elem_of_cons. naive_solver.
Qed.

Lemma make_result_in ix tr r :
  in_result r (make_result ix tr) <-> exists rn, in_groups rn (tr_groups tr) /\ rn_rule rn = r.
Proof.
  assert (G : forall g : nat * list ruleNode, r ∈ sorted_group g.2 <->
    exists rn, rn ∈ g.2 /\ rn_rule rn = r).
  { intros g. unfold sorted_group. rewrite list_elem_of_fmap. setoid_rewrite elem_of_sort_by.
    naive_solver. }
  unfold in_result, make_result, in_groups. cbn [ir_rules ir_else]. rewrite map_map, in_concat_map.
  setoid_rewrite map_map. setoid_rewrite in_concat_map. split.
  - intros [(g & Hg & H)|(root & rest & (g & Hg & H) & Hr)].
    + destruct (proj1 (G g)) as (rn & Hrn & E); [|eauto].
      by apply (elem_of_sublist _ _ _ H), sublist_take.
    + destruct (proj1 (G g)) as (rn & Hrn & E); [|eauto].
      destruct (sorted_group g.2) as [|r0 [|r1 l]]; try (by apply not_elem_of_nil in H).
      apply list_elem_of_singleton in H. simplify_eq. by right.
  - intros (rn & (g & Hg & Hrn) & E).
    assert (H : r ∈ sorted_group g.2) by (apply G; eauto).
    destruct (sorted_group g.2) as [|r0 [|r1 l]] eqn:S; [by apply not_elem_of_nil in H| |].
    + left. exists g. split; [done|]. by rewrite S.
    + apply elem_of_cons in H as [->|H].
      * left. exists g. split; [done|]. rewrite S. left.
      * right. exists r0, (r1 :: l). split; [|done]. exists g. split; [done|]. rewrite S. left.
Qed.
