(* ===== verification/IndexRules.v ===== *)
(** The results of the rule index (definitions in Index.v): a lookup returns
    every rule whose indexed conditions hold, and only rules of the set;
    [AllRules] returns exactly the rules of the set; early exit is announced
    only when the returned complete rules agree on one ground value. *)
From Stdlib Require Import ZArith Lia String Sorting.Sorted.
From stdpp Require Import base gmap list strings.
From S2P Require Import Prelude SortedKeys Value Containers SetTable RefOps Index IndexSound.

(** ** The nodes of a trie *)
Lemma Forall_opt_node {R} (Q : R -> Prop) f o :
  Forall Q (opt_node f o) <-> forall c, o = Some c -> Forall Q (f c).
Proof.
  destruct o as [c|]; simpl; [|by split].
  split; [|by auto]. by intros H c' [= <-].
Qed.

Lemma Forall_each_scalar {R} (Q : R -> Prop) f l :
  Forall Q (each_scalar f l) <-> forall p, p ∈ l -> Forall Q (f p.2).
Proof.
  induction l as [|[w c] l IH]; simpl.
  - split; [by intros _ p []%not_elem_of_nil|by intros; apply Forall_nil].
  - rewrite Forall_app, IH. setoid_rewrite elem_of_cons. split.
    + intros [H1 H2] p [->|Hp]; [done|by apply H2].
    + intros H. split; [apply (H (w, c)); by left|]. intros p Hp. apply H. by right.
Qed.

Lemma Forall_scalar_node {R} (Q : R -> Prop) f v l :
  (forall p, p ∈ l -> Forall Q (f p.2)) -> Forall Q (scalar_node f v l).
Proof.
  induction l as [|[w c] l IH]; simpl; intros H; [apply Forall_nil; done|].
  destruct (Equal w v); [apply (H (w, c)); left|]. apply IH. intros p Hp. apply H. by right.
Qed.

Section Nodes.
Context (Q : trieNode -> Prop).
Definition nodes (n : trieNode) : Prop := Forall Q (walk n).

Lemma nodes_unfold n :
  nodes n <-> Q n /\ (forall c, n_any n = Some c -> nodes c) /\
    (forall c, n_undefined n = Some c -> nodes c) /\ (forall p, p ∈ n_scalars n -> nodes p.2) /\
    (forall c, n_array n = Some c -> nodes c) /\ (forall c, n_next n = Some c -> nodes c).
Proof.
  unfold nodes. assert (E : walk n = n :: opt_node walk (n_any n) ++ opt_node walk (n_undefined n) ++
    each_scalar walk (n_scalars n) ++ opt_node walk (n_array n) ++ opt_node walk (n_next n))
    by (by destruct n).
  rewrite E, Forall_cons, !Forall_app, !Forall_opt_node, Forall_each_scalar. done.
Qed.

(** A condition on the reference, the rules and the values of a node, which a fresh node
    with a reference of [G] meets. *)
Context (G : list value -> Prop) (Gnil : G []).
Context (Qext : forall n n', n_ref n = n_ref n' -> n_rules n = n_rules n' -> n_values n = n_values n' -> Q n -> Q n').
Context (Qnew : forall n, G (n_ref n) -> n_rules n = [] -> n_values n = None -> Q n).

Lemma nodes_fresh ref : G ref -> nodes (Node ref None [] None None None [] None []).
Proof.
  intros Hg. apply nodes_unfold. split; [by apply Qnew|]. split_ands; try done. by intros p []%not_elem_of_nil.
Qed.
Lemma nodes_or_new o : (forall c, o = Some c -> nodes c) -> nodes (or_new o).
Proof. destruct o; simpl; [by auto|]. intros _. by apply nodes_fresh. Qed.

Abbreviation preserves := (fun K : trieNode -> option trieNode =>
  forall c c', K c = Some c' -> nodes c -> nodes c').

Lemma scalars_nodes v K n n' : preserves K ->
  option_map (with_scalars n) (scalars_update v K (n_scalars n)) = Some n' -> nodes n -> nodes n'.
Proof.
  intros HK. destruct (scalars_update _ _ _) as [l|] eqn:S; [|done]. intros [= <-].
  rewrite !nodes_unfold. simpl. intros (H0 & H1 & H2 & H3 & H4 & H5).
  split; [by apply (Qext n)|]. split_ands; try done.
  eapply (leveled_scalars nodes); [by apply nodes_fresh|apply HK|done|done].
Qed.

Lemma insertArray_nodes K arr : preserves K -> preserves (insertArray arr K).
Proof.
  intros HK. induction arr as [|x arr IH]; intros n n'; simpl; [apply HK|].
  destruct x; try discriminate; try (by apply scalars_nodes).
  destruct (insertArray arr K (or_new (n_any n))) as [c|] eqn:Ec; [|done]. intros [= <-].
  rewrite !nodes_unfold. simpl. intros (H0 & H1 & H2 & H3 & H4 & H5).
  split; [by apply (Qext n)|]. split_ands; try done. intros ? [= <-].
  eapply IH; [exact Ec|]. by apply nodes_or_new.
Qed.

Lemma insertValue_nodes K v : preserves K -> preserves (insertValue v K).
Proof.
  intros HK n n' H N. pose proof (proj1 (nodes_unfold n) N) as (H0 & H1 & H2 & H3 & H4 & H5).
  destruct v as [x|]; simpl in H.
  - destruct x; try discriminate H; try exact (scalars_nodes _ _ _ _ HK H N).
    + destruct (K (or_new (n_any n))) as [c|] eqn:Ec; [|done]. injection H as <-.
      apply nodes_unfold. split; [by apply (Qext n)|]. split_ands; try done. intros ? [= <-].
      eapply HK; [exact Ec|]. by apply nodes_or_new.
    + destruct (insertArray elems K (or_new (n_array n))) as [c|] eqn:Ec; [|done].
      injection H as <-. apply nodes_unfold. split; [by apply (Qext n)|]. split_ands; try done.
      intros ? [= <-]. eapply insertArray_nodes; [exact HK|exact Ec|]. by apply nodes_or_new.
  - destruct (K (or_new (n_undefined n))) as [c|] eqn:Ec; [|done]. injection H as <-.
    apply nodes_unfold. split; [by apply (Qext n)|]. split_ands; try done. intros ? [= <-].
    eapply HK; [exact Ec|]. by apply nodes_or_new.
Qed.

Lemma level_node_nodes n ref mapper : G ref -> nodes n -> nodes (level_node n ref mapper).
Proof.
  intros Hg N. assert (M : nodes (next_or_new n ref)).
  { unfold next_or_new. destruct (n_next n) eqn:E; [|by apply nodes_fresh].
    by apply nodes_unfold in N as (_ & _ & _ & _ & _ & H); apply H. }
  destruct mapper as [key|]; simpl; [|done]. unfold addMapper. destruct (existsb _ _); [done|].
  apply nodes_unfold in M as (H0 & H1 & H2 & H3 & H4 & H5).
  apply nodes_unfold. split; [by apply (Qext (next_or_new n ref))|]. split_ands; done.
Qed.

Lemma insert_levels_nodes k ls : Forall (fun l => G l.1.1) ls -> preserves k -> preserves (insert_levels ls k).
Proof.
  intros Hg Hk. induction ls as [|[[ref v] mapper] ls IH]; [apply Hk|]. apply Forall_cons in Hg as [Hr Hg]. specialize (IH Hg). intros n n' H N.
  cbn [insert_levels] in H. unfold Insert in H. fold (level_node n ref mapper) in H.
  destruct (insertValue _ _ _) as [m'|] eqn:V; [|done]. injection H as <-.
  pose proof (insertValue_nodes _ _ IH _ _ V (level_node_nodes n ref mapper Hr N)) as M.
  apply nodes_unfold in N as (H0 & H1 & H2 & H3 & H4 & H5).
  apply nodes_unfold. split; [by apply (Qext n)|]. split_ands; try done. by intros ? [= <-].
Qed.

Lemma build_trie_nodes i sorted rns root : Forall G sorted ->
  (forall n n' rn, rn ∈ rns -> node_append rn n = Some n' -> Q n -> Q n') ->
  build_trie i sorted rns = Some root -> nodes root.
Proof.
  intros Hg HQ. unfold build_trie. generalize (nodes_fresh [] Gnil). fold newTrieNodeImpl.
  generalize newTrieNodeImpl. induction rns as [|rn rns IH]; intros n N; simpl.
  { by intros [= <-]. }
  destruct (insert_rule i sorted n rn) as [n'|] eqn:H.
  - apply IH; [intros m m' rn' Hm; apply HQ; by right|]. revert H N. apply insert_levels_nodes.
    { unfold rule_levels. destruct (Indexed _ _); [|by apply Forall_nil]. apply Forall_fmap. eapply Forall_impl; [exact Hg|]. intros ref Hr.
      unfold compose, rule_level. by destruct (ri_index _ _). }
    intros c c' Hc. rewrite !nodes_unfold. intros (H0 & HH).
    assert (Hq : Q c') by (eapply HQ; [left|exact Hc|done]). destruct (node_append_eq _ _ _ Hc) as (values & ->). by split.
  - clear IH HQ. by induction rns.
Qed.
End Nodes.

(** ** A traversal only meets nodes of the trie *)
Definition ev_in {E} (Q : trieNode -> Prop) (F : E -> Prop) (ev : event E) : Prop :=
  match ev with EAdd n => Q n | EErr e => F e end.

Lemma visit_nodes {E} (resolve : list value -> resolved E) Q n :
  nodes Q n ->
  Forall (ev_in Q (fun e => exists ref, resolve ref = RError e)) (Traverse resolve n) /\
  forall m, Forall (ev_in Q (fun e => exists ref, resolve ref = RError e)) (visit resolve m n).
Proof.
  set (P := ev_in Q _). induction n as [n Hn Ha Hu Hs Hr] using trie_ind.
  rewrite Forall_forall in Hs. rewrite nodes_unfold. intros (H0 & H1 & H2 & H3 & H4 & H5).
  assert (T : Forall P (Traverse resolve n)).
  { constructor; [done|]. apply Forall_opt_node. intros c Ec. by apply (Hn c Ec (H5 c Ec)). }
  assert (A : forall m, Forall P (opt_node (visit resolve m) (n_any n))).
  { intros m. apply Forall_opt_node. intros c Ec. by apply (Ha c Ec (H1 c Ec)). }
  assert (U : forall m, Forall P (opt_node (visit resolve m) (n_undefined n))).
  { intros m. apply Forall_opt_node. intros c Ec. by apply (Hu c Ec (H2 c Ec)). }
  assert (R : forall m, Forall P (opt_node (visit resolve m) (n_array n))).
  { intros m. apply Forall_opt_node. intros c Ec. by apply (Hr c Ec (H4 c Ec)). }
  assert (S : forall m p, p ∈ n_scalars n -> Forall P (visit resolve m p.2)).
  { intros m p Hp. by apply (Hs p Hp (H3 p Hp)). }
  assert (V : forall v, Forall P (traverseValue resolve n v)).
  { intros v. unfold traverseValue. destruct v; try apply R; try (by apply Forall_nil);
      apply Forall_scalar_node; intros p Hp; by apply (Hs p Hp (H3 p Hp)). }
  assert (Unk : Forall P (visit resolve MUnknown n)).
  { rewrite visit_unfold, !Forall_app, Forall_each_scalar. split_ands; [exact T|exact (U _)|exact (A _)|exact (R _)|exact (S _)]. }
  split; [done|]. intros [|[|x arr]|]; [|by rewrite visit_unfold| |done]; rewrite visit_unfold.
  - destruct (resolve (n_ref n)) as [v| | |e] eqn:E1.
    + rewrite !Forall_app. split_ands; [| |done|].
      * apply Forall_opt_node. intros c Ec. by apply (Hu c Ec (H2 c Ec)).
      * apply Forall_opt_node. intros c Ec. by apply (Ha c Ec (H1 c Ec)).
      * induction (n_mappers n); [by apply Forall_nil|]. simpl. apply Forall_app. auto.
    + apply Forall_opt_node. intros c Ec. by apply (Hu c Ec (H2 c Ec)).
    + rewrite visit_unfold in Unk. exact Unk.
    + constructor; [by exists (n_ref n)|by apply Forall_nil].
  - rewrite Forall_app. split; [done|]. destruct (IsScalar x); [|by apply Forall_nil].
    apply Forall_scalar_node. auto.
Qed.

(** A traversal asks only about the references of the nodes. *)
Lemma scalar_node_ext {R} (f g : trieNode -> list R) v l : (forall p, p ∈ l -> f p.2 = g p.2) -> scalar_node f v l = scalar_node g v l.
Proof.
  induction l as [|[w c] l IH]; intros H; [done|]. simpl. rewrite IH by (intros p Hp; apply H; by right). destruct (Equal w v); [|done].
  apply (H (w, c)). by left.
Qed.
Lemma each_scalar_ext {R} (f g : trieNode -> list R) l : (forall p, p ∈ l -> f p.2 = g p.2) -> each_scalar f l = each_scalar g l.
Proof. induction l as [|[w c] l IH]; intros H; [done|]. simpl. rewrite IH by (intros p Hp; apply H; by right). f_equal. apply (H (w, c)). by left. Qed.
Lemma opt_node_ext {R} (f g : trieNode -> list R) o : (forall c, o = Some c -> f c = g c) -> opt_node f o = opt_node g o.
Proof. destruct o as [c|]; intros H; [by apply H|done]. Qed.

Lemma visit_ext {E} (resolve resolve' : list value -> resolved E) n : nodes (fun n => resolve (n_ref n) = resolve' (n_ref n)) n ->
  Traverse resolve n = Traverse resolve' n /\ forall m, visit resolve m n = visit resolve' m n.
Proof.
  induction n as [n Hn Ha Hu Hs Hr] using trie_ind. rewrite Forall_forall in Hs. rewrite nodes_unfold. intros (H0 & H1 & H2 & H3 & H4 & H5).
  assert (T : Traverse resolve n = Traverse resolve' n).
  { unfold Traverse. f_equal. apply opt_node_ext. intros c Ec. by apply (Hn c Ec (H5 c Ec)). }
  assert (V : forall v, traverseValue resolve n v = traverseValue resolve' n v).
  { intros v. unfold traverseValue. assert (S : forall v, scalar_node (Traverse resolve) v (n_scalars n) = scalar_node (Traverse resolve') v (n_scalars n)).
    { intros w. apply scalar_node_ext. intros p Hp. by apply (Hs p Hp (H3 p Hp)). }
    destruct v; try done; try apply S. apply opt_node_ext. intros c Ec. by apply (Hr c Ec (H4 c Ec)). }
  assert (Ou : forall m, opt_node (visit resolve m) (n_undefined n) = opt_node (visit resolve' m) (n_undefined n))
    by (intros m; apply opt_node_ext; intros c Ec; by apply (Hu c Ec (H2 c Ec))).
  assert (Oa : forall m, opt_node (visit resolve m) (n_any n) = opt_node (visit resolve' m) (n_any n))
    by (intros m; apply opt_node_ext; intros c Ec; by apply (Ha c Ec (H1 c Ec))).
  assert (Or : forall m, opt_node (visit resolve m) (n_array n) = opt_node (visit resolve' m) (n_array n))
    by (intros m; apply opt_node_ext; intros c Ec; by apply (Hr c Ec (H4 c Ec))).
  assert (Os : forall m, each_scalar (visit resolve m) (n_scalars n) = each_scalar (visit resolve' m) (n_scalars n))
    by (intros m; apply each_scalar_ext; intros p Hp; by apply (Hs p Hp (H3 p Hp))).
  split; [done|]. intros [|[|x arr]|]; rewrite !visit_unfold, ?T, ?Ou, ?Oa, ?Or, ?Os; try done.
  - rewrite H0. destruct (resolve' (n_ref n)); try done.
    + rewrite V. f_equal; [apply opt_node_ext; intros c Ec; by apply (Hu c Ec (H2 c Ec))|]. f_equal; [apply opt_node_ext; intros c Ec; by apply (Ha c Ec (H1 c Ec))|].
      f_equal. f_equal. apply map_ext. intros d. apply V.
    + apply opt_node_ext. intros c Ec. by apply (Hu c Ec (H2 c Ec)).
  - destruct (IsScalar x); [|done]. f_equal. apply scalar_node_ext. intros p Hp. by apply (Hs p Hp (H3 p Hp)).
Qed.

(** ** What every node of an index holds *)

(** Its rules are rules of the set, and the values of its complete rules are in
    its value set. *)
Definition node_ok (S : list ruleNode) (n : trieNode) : Prop :=
  Forall (fun rn => rn ∈ S) (n_rules n) /\
  ssorted Compare id (default [] (n_values n)) /\
  Forall (fun rn => r_complete (rn_rule rn) = true -> forall v, r_value (rn_rule rn) = Some v ->
    set_mem v (default [] (n_values n)) = true) (n_rules n).

Lemma node_ok_append S n n' rn : rn ∈ S -> node_append rn n = Some n' -> node_ok S n -> node_ok S n'.
Proof.
  intros HS (values & Hv & [= <-])%bind_Some (H1 & H2 & H3).
  assert (E : forall v, Equal v v = true) by (intros v; unfold Equal; by rewrite (cmp_refl Compare)).
  unfold node_ok. cbn [n_rules n_values]. rewrite !Forall_app, !Forall_singleton.
  destruct (n_values n) as [vs|]; cbn [default] in *; [|destruct (r_complete (rn_rule rn)) eqn:Hc].
  - apply bind_Some in Hv as (v & Ev & [= <-]). cbn [default]. split_ands; [done|done|by apply set_insert_ssorted| |].
    + eapply Forall_impl; [exact H3|]. cbn beta. intros rn' X Hc w Ew. unfold id in *.
      cbn [from_option]. rewrite set_mem_insert by done. rewrite (X Hc w Ew). by rewrite orb_true_r.
    + intros _ w. rewrite Ev. intros [= <-]. unfold id. cbn [from_option]. by rewrite set_mem_insert, E by done.
  - apply bind_Some in Hv as (v & Ev & [= <-]). split_ands; [done|done|by repeat constructor| |].
    + eapply Forall_impl; [exact H3|]. cbn beta. intros rn' X Hc' w Ew. by specialize (X Hc' w Ew).
    + intros _ w. rewrite Ev. intros [= <-]. apply set_mem_true. exists v. split; [left|apply (cmp_refl Compare)].
  - injection Hv as <-. by split_ands.
Qed.

Lemma Build_eq isVirtual sorted rules ix : Build isVirtual sorted rules = Some ix ->
  exists root kind, build_trie (build_indices isVirtual rules) sorted (all_nodes rules) = Some root /\
    ix = MkIndex root (last (List.filter r_default (concat rules))) kind (forallb (fun r => r_default r || r_ground r) (concat rules)).
Proof.
  unfold Build. intros (first & _ & (kind & _ & H)%bind_Some)%bind_Some. exists (ix_root ix), kind.
  destruct (build_trie _ _ _) as [root|]; [|done]. by injection H as <-.
Qed.

Lemma Build_nodes isVirtual sorted rules ix :
  Build isVirtual sorted rules = Some ix -> nodes (node_ok (all_nodes rules)) (ix_root ix).
Proof.
  intros (root & kind & B & ->)%Build_eq. eapply (build_trie_nodes _ (fun _ => True)) in B; [exact B|done|..|by apply Forall_true|].
  - unfold node_ok. by intros n n' _ <- <-.
  - intros n _ E1 E2. unfold node_ok. rewrite E1, E2. split_ands; [by apply Forall_nil|constructor|by apply Forall_nil].
  - intros n n' rn. apply node_ok_append.
Qed.

(** The references of the nodes. *)
Lemma Build_refs isVirtual sorted rules ix :
  Build isVirtual sorted rules = Some ix -> nodes (fun n => n_ref n = [] \/ n_ref n ∈ sorted) (ix_root ix).
Proof.
  intros (root & kind & B & ->)%Build_eq. eapply (build_trie_nodes _ (fun ref => ref = [] \/ ref ∈ sorted)) in B; [exact B|by left|..].
  - cbv beta. intros n n' -> _ _ H. exact H.
  - done.
  - apply Forall_forall. by right.
  - intros n n' rn _ (values & _ & [= <-])%bind_Some. done.
Qed.

(** Two resolvers that agree on the references of an index find the same rules. *)
Lemma nodes_impl (P Q : trieNode -> Prop) : (forall n, P n -> Q n) -> forall n, nodes P n -> nodes Q n.
Proof.
  intros HPQ n. induction n as [n Hn Ha Hu Hs Hr] using trie_ind. rewrite Forall_forall in Hs. rewrite !nodes_unfold. intros (H0 & H1 & H2 & H3 & H4 & H5).
  repeat split; eauto.
Qed.
Lemma Lookup_ext {E} (resolve resolve' : list value -> resolved E) isVirtual sorted rules ix : Build isVirtual sorted rules = Some ix ->
  (forall ref, ref = [] \/ ref ∈ sorted -> resolve ref = resolve' ref) -> Lookup resolve ix = Lookup resolve' ix.
Proof.
  intros B H. unfold Lookup. rewrite (proj1 (visit_ext resolve resolve' (ix_root ix) (nodes_impl _ _ (fun n => H (n_ref n)) _ (Build_refs _ _ _ _ B)))). done.
Qed.

(** The rule nodes are those of the rules that are not defaults. *)
Lemma elem_of_combine_seq {A} (l : list A) s a : a ∈ l <-> exists i, (i, a) ∈ combine (seq s (length l)) l.
Proof.
  revert s. induction l as [|x l IH]; intros s; simpl.
  - split; [by intros []%not_elem_of_nil|by intros (i & []%not_elem_of_nil)].
  - setoid_rewrite elem_of_cons. rewrite (IH (S s)). naive_solver.
Qed.

Lemma all_nodes_rule rules r :
  (exists rn, rn ∈ all_nodes rules /\ rn_rule rn = r) <-> r ∈ concat rules /\ r_default r = false.
Proof.
  unfold all_nodes. setoid_rewrite in_concat_map. unfold chain_nodes.
  setoid_rewrite list_elem_of_fmap.
  assert (C : r ∈ concat rules <-> exists c, c ∈ rules /\ r ∈ c).
  { induction rules as [|c rules IH]; simpl.
    - split; [by intros []%not_elem_of_nil|by intros (c & []%not_elem_of_nil & _)].
    - rewrite elem_of_app, IH. setoid_rewrite elem_of_cons. naive_solver. }
  assert (Fi : forall c, r ∈ List.filter (fun r => negb (r_default r)) c <-> r ∈ c /\ r_default r = false).
  { intros c. rewrite !list_elem_of_In, filter_In. by rewrite negb_true_iff. }
  rewrite C. split.
  - intros (rn & (ic & Hic & pr & -> & Hpr) & <-). destruct ic as [i c], pr as [p r']. simpl in *.
    destruct (proj1 (Fi c)) as [H1 H2].
    { eapply elem_of_combine_seq. by exists p. }
    split; [|done]. exists c. split; [|done]. eapply elem_of_combine_seq. by exists i.
  - intros [(c & Hc & Hr) Hd]. apply (elem_of_combine_seq _ 0) in Hc as [i Hi].
    destruct (proj1 (elem_of_combine_seq (List.filter (fun r => negb (r_default r)) c) 0 r))
      as [p Hp]; [by apply Fi|].
    eexists. split; [exists (i, c); split; [done|]; by exists (p, r)|done].
Qed.

(** ** The values of a result *)
Lemma fold_values_mem l : forall acc, ssorted Compare id acc ->
  let r := fold_left (fun vs v => set_insert v vs) l acc in
  ssorted Compare id r /\ forall x, set_mem x r = true <-> set_mem x acc = true \/ set_mem x l = true.
Proof.
  intros acc H r. destruct (fold_insert_sorted l acc H) as [H1 H2]. split; [exact H1|].
  intros x. unfold r. by rewrite H2, orb_true_iff, <- set_mem_existsb.
Qed.

Lemma collect_values {E} (es : list (event E)) S : forall tr tr',
  collect es tr = Ok tr' -> ssorted Compare id (tr_values tr) ->
  Forall (ev_in (node_ok S) (fun _ => True)) es ->
  ssorted Compare id (tr_values tr') /\
  (forall x, set_mem x (tr_values tr) = true -> set_mem x (tr_values tr') = true) /\
  (forall rn v, found rn es -> r_complete (rn_rule rn) = true -> r_value (rn_rule rn) = Some v ->
    set_mem v (tr_values tr') = true).
Proof.
  induction es as [|[n|e] es IH]; intros tr tr'; simpl; [|intros C Ht|done].
  - intros [= <-] H _. split_ands; [done|done|]. by intros rn v []%found_nil.
  - intros [(_ & Hs & Hn) Hes]%Forall_cons.
    destruct (fold_values_mem (default [] (n_values n)) _ Ht) as [V1 V2].
    destruct (IH _ _ C V1 Hes) as (I1 & I2 & I3). split_ands; [done| |].
    + intros x Hx. apply I2. simpl. apply V2. by left.
    + intros rn v [Hrn|Hrn]%found_add Hc Ev; [|by eapply I3]. apply I2. simpl. apply V2. right.
      rewrite Forall_forall in Hn. by eapply Hn.
Qed.

Lemma earlyExit_agree ix tr :
  ir_earlyExit (make_result ix tr) = true ->
  exists v, IsGround v = true /\ forall x, set_mem x (tr_values tr) = true -> Equal x v = true.
Proof.
  simpl. destruct (tr_values tr) as [|v [|]]; try done. intros H. exists v. split; [done|].
  intros x. rewrite set_mem_existsb. simpl. by rewrite orb_false_r.
Qed.

(** ** Groups *)
Definition groups_wf (gs : list (nat * list ruleNode)) : Prop :=
  NoDup (map fst gs) /\ Forall (fun g => g.2 <> [] /\ Forall (fun rn => rn_idx rn = g.1) g.2) gs.

Lemma group_add_keys gs rn i : i ∈ map fst (group_add gs rn) <-> i ∈ map fst gs \/ i = rn_idx rn.
Proof.
  induction gs as [|[j rns] gs IH]; simpl.
  - rewrite list_elem_of_singleton. split; [by right|]. by intros [[]%not_elem_of_nil|].
  - destruct (j =? rn_idx rn)%nat eqn:E; simpl; rewrite !elem_of_cons; [|rewrite IH; tauto].
    apply Nat.eqb_eq in E. subst. tauto.
Qed.

Lemma group_add_wf gs rn : groups_wf gs -> groups_wf (group_add gs rn).
Proof.
  unfold groups_wf. induction gs as [|[j rns] gs IH]; simpl.
  - intros _. split; [apply NoDup_singleton|]. apply Forall_singleton. split; [done|].
    by apply Forall_singleton.
  - intros [[Nj N]%NoDup_cons [[Hne Hj] F]%Forall_cons]. simpl in *.
    destruct (j =? rn_idx rn)%nat eqn:E; simpl.
    + apply Nat.eqb_eq in E. split; [by apply NoDup_cons|]. apply Forall_cons. split; [|done]. simpl.
      split; [by destruct rns|]. apply Forall_app. split; [done|]. by apply Forall_singleton.
    + apply Nat.eqb_neq in E. destruct (IH (conj N F)) as [N' F'].
      split; [|by apply Forall_cons]. apply NoDup_cons. split; [|done].
      rewrite group_add_keys. by intros [|].
Qed.

Lemma collect_wf {E} (es : list (event E)) tr tr' :
  collect es tr = Ok tr' -> groups_wf (tr_groups tr) -> groups_wf (tr_groups tr').
Proof.
  revert tr. induction es as [|[n|e] es IH]; intros tr; simpl; [by intros [= <-]| |done].
  intros C W. apply (IH _ C). simpl. clear C IH. revert W. generalize (tr_groups tr).
  induction (n_rules n) as [|rn rns IH]; intros gs W; simpl; [done|]. by apply IH, group_add_wf.
Qed.

(** The rules of a chain that are inserted, and where the nodes of an index come from. *)
Definition nondefault (chain : list rule) : list rule := List.filter (fun r => negb (r_default r)) chain.

Lemma combine_seq_lookup {A} (l : list A) s i a : (i, a) ∈ combine (seq s (length l)) l <-> (s <= i)%nat /\ l !! (i - s)%nat = Some a.
Proof.
  revert s. induction l as [|x l IH]; intros s; simpl; [split; [by intros ?%elem_of_nil|by intros [_ ?]]|].
  rewrite elem_of_cons, IH. split.
  - intros [[= -> ->]|[Hi L]]; [by rewrite Nat.sub_diag|]. split; [lia|]. by replace (i - s)%nat with (S (i - S s)) by lia.
  - intros [Hi L]. destruct (decide (i = s)) as [->|].
    + rewrite Nat.sub_diag in L. injection L as ->. by left.
    + right. split; [lia|]. by replace (i - s)%nat with (S (i - S s)) in L by lia.
Qed.

Lemma all_nodes_lookup rules rn : rn ∈ all_nodes rules <-> exists c, rules !! rn_idx rn = Some c /\ nondefault c !! rn_prio rn = Some (rn_rule rn).
Proof.
  unfold all_nodes. rewrite in_concat_map. split.
  - intros ([i c] & [_ Hc]%combine_seq_lookup & ([p r] & -> & [_ Hp]%combine_seq_lookup)%list_elem_of_fmap). rewrite Nat.sub_0_r in *. by exists c.
  - intros (c & Hc & Hp). exists (rn_idx rn, c). split; [apply combine_seq_lookup; rewrite Nat.sub_0_r; split; [lia|done]|].
    apply list_elem_of_fmap. exists (rn_prio rn, rn_rule rn). split; [by destruct rn|]. apply combine_seq_lookup. rewrite Nat.sub_0_r. split; [lia|done].
Qed.

(** The rules are at positions of one chain, default rules left out, in the order of the
    chain.  (A traversal may meet a rule twice.) *)
Definition in_chain_order (rules : list (list rule)) (l : list rule) : Prop :=
  exists chain positions, chain ∈ rules /\ Sorted Nat.le positions /\
    Forall2 (fun i r => nondefault chain !! i = Some r) positions l.

Lemma insert_by_le_sorted b l :
  Sorted (fun a b => rn_prio a <= rn_prio b)%nat l ->
  Sorted (fun a b => rn_prio a <= rn_prio b)%nat
    (insert_by Z.compare (fun rn => Z.of_nat (rn_prio rn)) b l).
Proof.
  induction l as [|c l IH]; simpl; intros H; [by repeat constructor|].
  destruct (Z.compare _ _) eqn:E;
    [apply Z.compare_eq in E|rewrite Z.compare_lt_iff in E|rewrite Z.compare_gt_iff in E].
  - constructor; [done|]. constructor. lia.
  - constructor; [done|]. constructor. lia.
  - apply Sorted_inv in H as [H1 H2]. constructor; [by apply IH|].
    destruct l as [|d l]; simpl; [constructor; lia|].
    destruct (Z.compare _ _); constructor; try lia; by inversion H2.
Qed.

Lemma sorted_map_prio rns : Sorted (fun a b => rn_prio a <= rn_prio b)%nat rns -> Sorted Nat.le (map rn_prio rns).
Proof. induction 1 as [|a l _ IH H]; simpl; constructor; [done|]. by inversion H; subst; constructor. Qed.

Lemma sorted_group_order rules i rns : rns <> [] -> Forall (fun rn => rn_idx rn = i /\ rn ∈ all_nodes rules) rns ->
  in_chain_order rules (sorted_group rns).
Proof.
  intros Ne H. unfold sorted_group. set (l := sort_by _ _ rns).
  assert (Hl : Forall (fun rn => rn_idx rn = i /\ rn ∈ all_nodes rules) l).
  { rewrite Forall_forall in H |- *. intros rn Hrn. apply elem_of_sort_by in Hrn. by apply H. }
  assert (Sl : Sorted Nat.le (map rn_prio l)).
  { apply sorted_map_prio. unfold l. clear. induction rns as [|b l IH]; simpl; [constructor|]. by apply insert_by_le_sorted. }
  destruct rns as [|rn rns]; [done|]. apply Forall_cons in H as [[<- (chain & Hc & _)%all_nodes_lookup] _].
  exists chain, (map rn_prio l). split_ands; [by eapply list_elem_of_lookup_2|done|]. clear Sl.
  induction Hl as [|rn' l' [E (chain' & Hc' & Hp)%all_nodes_lookup] _ IH]; simpl; constructor; [|exact IH].
  rewrite E, Hc in Hc'. by injection Hc' as <-.
Qed.

(** ** Lookup and AllRules as collections of events *)
Lemma collect_walk l : forall tr,
  collect (map (fun n => EAdd (E := Empty_set) n) l) tr = Ok (fold_left result_Add l tr).
Proof. induction l as [|n l IH]; intros tr; simpl; [done|]. apply IH. Qed.

Lemma build_root isVirtual sorted rules ix :
  Build isVirtual sorted rules = Some ix ->
  build_trie (build_indices isVirtual rules) sorted (all_nodes rules) = Some (ix_root ix).
Proof. by intros (root & kind & B & ->)%Build_eq. Qed.

(** What a result made of events of the index holds. *)
Section Results.
Context {E : Type} (isVirtual : list value -> bool) (sorted : list (list value)).
Context (rules : list (list rule)) (ix : baseDocEqIndex) (es : list (event E)).
Context (tr : trieTraversalResult).
Context (He : Forall (ev_in (node_ok (all_nodes rules)) (fun _ => True)) es).
Context (C : collect es (MkResult [] []) = Ok tr).

Lemma result_found r :
  in_result r (make_result ix tr) <-> exists rn, found rn es /\ rn_rule rn = r.
Proof.
  rewrite make_result_in. split; intros (rn & H & Hr); exists rn; (split; [|done]).
  - apply (collect_in _ _ _ _ C) in H as [(g & []%not_elem_of_nil & _)|H]. done.
  - apply (collect_in _ _ _ _ C). by right.
Qed.

Lemma found_rule rn : found rn es -> rn ∈ all_nodes rules.
Proof.
  intros (n & Hn & Hrn). rewrite Forall_forall in He. destruct (He _ Hn) as [H _].
  rewrite Forall_forall in H. by apply H.
Qed.

Lemma result_rules r : in_result r (make_result ix tr) -> r ∈ concat rules /\ r_default r = false.
Proof.
  rewrite result_found. intros (rn & H & Hr). apply all_nodes_rule.
  exists rn. split; [by apply found_rule|done].
Qed.

Lemma result_earlyExit :
  ir_earlyExit (make_result ix tr) = true ->
  exists v, IsGround v = true /\ forall r, in_result r (make_result ix tr) ->
    r_complete r = true -> forall w, r_value r = Some w -> Equal w v = true.
Proof.
  intros (v & Hg & Hv)%earlyExit_agree. exists v. split; [done|]. intros r Hr Hc w Ew. apply Hv.
  apply result_found in Hr as (rn & Hrn & <-).
  by eapply (collect_values es _ _ _ C (SSorted_nil _) He).
Qed.

Lemma result_chains :
  (forall root rest, (root, rest) ∈ ir_else (make_result ix tr) ->
    root ∈ ir_rules (make_result ix tr) /\ rest <> [] /\ in_chain_order rules (root :: rest)).
Proof.
  intros root rest H. assert (W : groups_wf (tr_groups tr)).
  { apply (collect_wf _ _ _ C). split; [apply NoDup_nil_2|by apply Forall_nil]. }
  destruct W as [_ W]. rewrite Forall_forall in W. unfold make_result in *. cbn [ir_rules ir_else] in *.
  apply in_concat_map in H as (l & (g & -> & Hg)%list_elem_of_fmap & H).
  assert (O : in_chain_order rules (sorted_group g.2)).
  { destruct (W g Hg) as [Ne Hi]. apply (sorted_group_order rules g.1); [done|]. rewrite Forall_forall in Hi |- *. intros rn Hrn. split; [by apply Hi|].
    apply found_rule. apply (collect_in _ _ _ rn) in C as [C _]. destruct C as [(g' & ?%elem_of_nil & _)|]; [by exists g|done|done]. }
  apply (list_elem_of_fmap_2 (fun g => sorted_group g.2)) in Hg.
  rewrite in_concat_map. destruct (sorted_group g.2) as [|r0 [|r1 l]] eqn:S;
    try (by apply not_elem_of_nil in H).
  apply list_elem_of_singleton in H. injection H as -> ->. split_ands; [|done|done].
  eexists. split; [exact Hg|]. left.
Qed.
End Results.

Lemma Lookup_events {E} (resolve : list value -> resolved E) isVirtual sorted rules ix :
  Build isVirtual sorted rules = Some ix ->
  Forall (ev_in (node_ok (all_nodes rules)) (fun e => exists ref, resolve ref = RError e))
    (Traverse resolve (ix_root ix)).
Proof. intros B. apply visit_nodes. by eapply Build_nodes. Qed.

Lemma ev_in_weaken {E} Q (F F' : E -> Prop) es :
  (forall e, F e -> F' e) -> Forall (ev_in Q F) es -> Forall (ev_in Q F') es.
Proof. intros H He. eapply Forall_impl; [exact He|]. intros [n|e]; simpl; auto. Qed.

Lemma Lookup_cases {E} (resolve : list value -> resolved E) isVirtual sorted rules ix :
  Build isVirtual sorted rules = Some ix ->
  match Lookup resolve ix with
  | Ok res => exists tr, res = make_result ix tr /\
      collect (Traverse resolve (ix_root ix)) (MkResult [] []) = Ok tr
  | Err e => exists ref, resolve ref = RError e
  end.
Proof.
  intros B. pose proof (Lookup_events resolve _ _ _ _ B) as He. unfold Lookup.
  destruct (collect _ _) as [tr|e] eqn:C; simpl; [eauto|].
  revert He C. generalize (Traverse resolve (ix_root ix)), (MkResult [] []).
  induction l as [|[n|e'] es IH]; intros tr; simpl; [done|..].
  - intros [_ H]%Forall_cons. by apply IH.
  - by intros [H _]%Forall_cons [= <-].
Qed.

(** C3: Looking up an index that was built from a rule set succeeds unless the
    resolver reports an error, and then fails with such an error.  The result
    holds every rule that is not a default and whose condition on each indexed
    reference is met by what the reference resolves to (an unknown reference
    meets every condition), it holds only rules of the set that are not
    defaults, its [else] lists are rules of one chain of the set in the order of the chain,
    and the default rule and the ground-reference flag are those of the set. *)
Theorem Lookup_sound {E} (resolve : list value -> resolved E) isVirtual sorted rules ix :
  Build isVirtual sorted rules = Some ix ->
  match Lookup resolve ix with
  | Err e => exists ref, resolve ref = RError e
  | Ok res =>
      (forall r, r ∈ concat rules -> r_default r = false ->
        Forall (fun l => level_match resolve l = true)
          (rule_levels (build_indices isVirtual rules) sorted r) ->
        in_result r res) /\
      (forall r, in_result r res -> r ∈ concat rules /\ r_default r = false) /\
      (forall root rest, (root, rest) ∈ ir_else res ->
        root ∈ ir_rules res /\ rest <> [] /\ in_chain_order rules (root :: rest)) /\
      ir_default res = last (List.filter r_default (concat rules)) /\
      ir_onlyGroundRefs res = forallb (fun r => r_default r || r_ground r) (concat rules)
  end.
Proof.
  intros B. pose proof (Lookup_cases resolve _ _ _ _ B) as L.
  destruct (Lookup resolve ix) as [res|e]; [|done]. destruct L as (tr & -> & C).
  pose proof (ev_in_weaken _ _ (fun _ => True) _ (fun _ _ => I) (Lookup_events resolve _ _ _ _ B)) as He.
  split_ands.
  - intros r Hr Hd M. apply (result_found _ _ _ C).
    destruct (proj2 (all_nodes_rule rules r) (conj Hr Hd)) as (rn & Hrn & <-).
    exists rn. split; [|done].
    by apply (build_trie_sound resolve _ _ _ _ _ (build_root _ _ _ _ B) (leveled_new _)).
  - intros r. by apply (result_rules rules ix _ _ He C).
  - by apply (result_chains rules ix _ _ He C).
  - by destruct (Build_eq _ _ _ _ B) as (root & kind & _ & ->).
  - by destruct (Build_eq _ _ _ _ B) as (root & kind & _ & ->).
Qed.

(** The walk over the trie meets every rule. *)
Lemma walk_found isVirtual sorted rules ix rn : Build isVirtual sorted rules = Some ix -> rn ∈ all_nodes rules ->
  found rn (map (fun n => EAdd (E := Empty_set) n) (walk (ix_root ix))).
Proof.
  intros B Hrn. assert (Hu : Forall (fun l => level_match (fun _ => RUnknown (E := Empty_set)) l = true)
    (rule_levels (build_indices isVirtual rules) sorted (rn_rule rn))).
  { apply Forall_forall. by intros [[ref v] m] _. }
  destruct (build_trie_sound (fun _ => RUnknown (E := Empty_set)) _ _ _ _ _ (build_root _ _ _ _ B) (leveled_new _)) as [_ F].
  destruct (F rn Hrn Hu) as (n & Hn & Hr). exists n. split; [|done]. apply list_elem_of_fmap. exists n. split; [done|].
  assert (W : nodes (fun n => n ∈ walk (ix_root ix)) (ix_root ix)) by (by apply Forall_forall).
  apply (visit_nodes (fun _ => RUnknown (E := Empty_set))) in W as [W _]. rewrite Forall_forall in W. exact (W _ Hn).
Qed.

(** C33: [AllRules] returns exactly the rules of the set that are not defaults,
    and what any lookup returns is among them. *)
Theorem AllRules_exact {E} (resolve : list value -> resolved E) isVirtual sorted rules ix :
  Build isVirtual sorted rules = Some ix ->
  (forall r, in_result r (AllRules ix) <-> r ∈ concat rules /\ r_default r = false) /\
  (forall res r, Lookup resolve ix = Ok res -> in_result r res -> in_result r (AllRules ix)).
Proof.
  intros B. pose proof (Build_nodes _ _ _ _ B) as N.
  set (es := map (fun n => EAdd (E := Empty_set) n) (walk (ix_root ix))).
  assert (He : Forall (ev_in (node_ok (all_nodes rules)) (fun _ : Empty_set => True)) es)
    by (by apply Forall_fmap).
  assert (A : forall r, in_result r (AllRules ix) <-> r ∈ concat rules /\ r_default r = false).
  { intros r. unfold AllRules. pose proof (collect_walk (walk (ix_root ix)) (MkResult [] [])) as C.
    split; [apply (result_rules rules ix es _ He C)|].
    intros (rn & Hrn & <-)%all_nodes_rule. apply (result_found _ _ _ C). exists rn. split; [by eapply walk_found|done]. }
  split; [exact A|]. intros res r L Hr. apply A.
  pose proof (Lookup_cases resolve _ _ _ _ B) as X. rewrite L in X. destruct X as (tr & -> & C).
  eapply (result_rules rules ix _ _); [|exact C|exact Hr].
  exact (ev_in_weaken _ _ (fun _ => True) _ (fun _ _ => I) (Lookup_events resolve _ _ _ _ B)).
Qed.

(** C39: When a lookup announces early exit, there is one ground value that every
    complete rule it returns has as its value: evaluation may stop at the first
    rule that succeeds. *)
Theorem EarlyExit_agree {E} (resolve : list value -> resolved E) isVirtual sorted rules ix res :
  Build isVirtual sorted rules = Some ix -> Lookup resolve ix = Ok res -> ir_earlyExit res = true ->
  exists v, IsGround v = true /\
    forall r, in_result r res -> r_complete r = true -> forall w, r_value r = Some w -> Equal w v = true.
Proof.
  intros B L Hx. pose proof (Lookup_cases resolve _ _ _ _ B) as X. rewrite L in X.
  destruct X as (tr & -> & C). refine (result_earlyExit rules ix _ _ _ C Hx).
  exact (ev_in_weaken _ _ (fun _ => True) _ (fun _ _ => I) (Lookup_events resolve _ _ _ _ B)).
Qed.

(** ** A concrete rule set

    [p { input.m = "GET" } else { input.m = "PUT" }] and
    [p { input.x = ["a", y] }], both with the value true. *)
Module Sample.
Definition m : list value := [Var "input"; Str "m"].
Definition x : list value := [Var "input"; Str "x"].
Definition eq_expr (a b : value) : expr := Expr (TTerms [Ref Equality_Ref; a; b]) [] 0 false.
Definition mk (id : nat) (body : list expr) : rule := MkRule id false [] body [Var "data"; Str "p"] None (Some (Boolean true)).
Definition r0 : rule := mk 0 [eq_expr (Ref m) (Str "GET")].
Definition r1 : rule := mk 1 [eq_expr (Ref m) (Str "PUT")].
Definition r2 : rule := mk 2 [eq_expr (Array [Str "a"; Var "y"]) (Ref x)].
Definition rules : list (list rule) := [[r0; r1]; [r2]].
Definition isVirtual (_ : list value) : bool := false.
Definition index : baseDocEqIndex :=
  default (MkIndex newTrieNodeImpl None SingleValue true) (Build isVirtual [m; x] rules).
(** [input] is [{"m": "PUT", "x": ["a", 1]}]. *)
Definition resolve (ref : list value) : resolved Empty_set :=
  if ref_eq ref m then RValue (Str "PUT")
  else if ref_eq ref x then RValue (Array [Str "a"; Number (NInt 1)]) else RUndefined.

Definition unknown (_ : list value) : resolved Empty_set := RUnknown.

Lemma built : Build isVirtual [m; x] rules = Some index.
Proof. reflexivity. Qed.
End Sample.

Lemma Lookup_sound_witness :
  (exists res, Lookup Sample.resolve Sample.index = Ok res /\ ir_rules res = [Sample.r2; Sample.r1] /\
    in_result Sample.r1 res) /\
  (exists res, Lookup Sample.unknown Sample.index = Ok res /\ ir_else res = [(Sample.r0, [Sample.r1])] /\
    in_chain_order Sample.rules [Sample.r0; Sample.r1]).
Proof.
  split.
  - pose proof (Lookup_sound Sample.resolve _ _ _ _ Sample.built) as H.
    destruct (Lookup Sample.resolve Sample.index) as [res|e] eqn:L; [|destruct e].
    exists res. split; [reflexivity|]. split.
    + vm_compute in L. injection L as <-. reflexivity.
    + apply (proj1 H); [|reflexivity|repeat constructor]. vm_compute. right. left.
  - pose proof (Lookup_sound Sample.unknown _ _ _ _ Sample.built) as H.
    destruct (Lookup Sample.unknown Sample.index) as [res|e] eqn:L; [|destruct e].
    exists res. split; [reflexivity|]. assert (Er : ir_else res = [(Sample.r0, [Sample.r1])]) by (vm_compute in L; injection L as <-; reflexivity).
    split; [exact Er|]. apply (proj1 (proj2 (proj2 H)) Sample.r0 [Sample.r1]). rewrite Er. left.
Defined.

Lemma AllRules_exact_witness :
  in_result Sample.r0 (AllRules Sample.index).
Proof.
  apply (AllRules_exact Sample.resolve _ _ _ _ Sample.built). split; [vm_compute; left|reflexivity].
Defined.

Lemma EarlyExit_agree_witness :
  exists v, IsGround v = true /\ forall w, r_value Sample.r1 = Some w -> Equal w v = true.
Proof.
  destruct (Lookup Sample.resolve Sample.index) as [res|e] eqn:L; [|destruct e].
  destruct (EarlyExit_agree Sample.resolve _ _ _ _ res Sample.built L) as (v & Hg & H).
  - vm_compute in L. injection L as <-. reflexivity.
  - exists v. split; [exact Hg|]. apply H; [|reflexivity]. vm_compute in L. injection L as <-.
    left. vm_compute. right. left.
Defined.

(** The rules come in the order in which the traversal meets their positions,
    which need not be the order in which they were passed to [Build]: here the
    rule of the second chain comes first. *)
Lemma Lookup_order :
  exists res, Lookup Sample.resolve Sample.index = Ok res /\ ir_rules res = [Sample.r2; Sample.r1] /\
    concat Sample.rules = [Sample.r0; Sample.r1; Sample.r2].
Proof. eexists. split; [vm_compute; reflexivity|]. split; reflexivity. Qed.

(** The rules in the extent of a rule with variables in its reference are in one index,
    whatever their kinds.  With [p[r].s := 1] and [p.q contains 2], the nil value of the
    second is added to the values of the first, which panics. *)
Lemma Build_mixed_kinds :
  let r1 := MkRule 0 false [] [] [Var "data"; Str "p"; Var "r"; Str "s"] None (Some (Number (NInt 1))) in
  let r2 := MkRule 1 false [] [] [Var "data"; Str "p"; Str "q"] (Some (Number (NInt 2))) None in
  Build Sample.isVirtual [] [[r1]; [r2]] = None /\
  is_Some (Build Sample.isVirtual [] [[r1]]) /\ is_Some (Build Sample.isVirtual [] [[r2]]).
Proof. intros r1 r2. split; [vm_compute; reflexivity|]. split; vm_compute; by eexists. Qed.
