(* ===== verification/IndexBody.v ===== *)
(** The rule index against the meaning of rule bodies: a lookup never drops a
    rule whose equalities can hold, and [Build] does not panic on rule sets
    whose array operands hold no calls. *)
From Stdlib Require Import ZArith Lia String Ascii.
From stdpp Require Import base gmap list strings.
From S2P Require Import Prelude SortedKeys Value Containers SetTable RefOps.
From S2P Require Import Index IndexSound IndexRules.

(** ** When an equality holds

    [denotes t v]: under the bindings [sigma] and the documents that [resolve]
    knows, the term [t] may have the value [v].  An unknown reference may have
    any value; so may terms that the index does not look into. *)
Section Holds.
Context {E : Type} (resolve : list value -> resolved E) (sigma : string -> value).

Definition may_be (ref : list value) (v : value) : bool :=
  match resolve ref with RValue w => Equal w v | RUnknown => true | _ => false end.

Fixpoint denotes (t v : value) {struct t} : bool :=
  match t with
  | Var x => Equal (sigma x) v
  | Ref r => may_be r v
  | Array ts =>
      match v with
      | Array vs =>
          (fix all (ts vs : list value) : bool :=
             match ts, vs with
             | [], [] => true
             | t :: ts, v :: vs => denotes t v && all ts vs
             | _, _ => false
             end) ts vs
      | _ => false
      end
  | Null | Boolean _ | Number _ | Str _ => Equal t v
  | _ => true
  end.

Definition eq_holds (a b : value) : Prop := exists v, denotes a v = true /\ denotes b v = true.

(** The operands of an equality that is neither negated nor modified. *)
Definition eq_operands (e : expr) : option (value * value) :=
  match e with
  | Expr (TTerms [Ref op; a; b]) [] _ false =>
      if ref_eq op Equality_Ref || ref_eq op Equal_Ref then Some (a, b) else None
  | _ => None
  end.

(** The equalities of the body hold, and the arguments of the call are values
    of the parameters. *)
Definition body_holds (r : rule) : Prop :=
  (forall e a b, e ∈ r_body r -> eq_operands e = Some (a, b) -> eq_holds a b) /\
  (forall i arg, r_args r !! i = Some arg -> exists v, may_be (arg_ref i) v = true /\ denotes arg v = true).
End Holds.

(** Bodies without glob patterns. *)
Definition is_glob (e : expr) : bool :=
  match e with
  | Expr (TTerms (Ref op :: _)) _ _ _ => ref_eq op GlobMatch_Ref
  | _ => false
  end.
Definition glob_free (r : rule) : bool := forallb (fun e => negb (is_glob e)) (r_body r).
(** Equalities have two operands. *)
Definition eq_arity (r : rule) : bool :=
  forallb (fun e => match e with
                    | Expr (TTerms (Ref op :: operands)) _ _ _ =>
                        negb (ref_eq op Equality_Ref) || (length operands =? 2)%nat
                    | _ => true
                    end) (r_body r).

(** ** From holding to matching *)
Definition insertable (v : value) : bool :=
  match v with
  | Null | Boolean _ | Number _ | Str _ | Var _ => true
  | Array l => forallb (fun x => match x with Var _ => true | x => IsScalar x end) l
  | _ => false
  end.

Lemma scalar_match s v w :
  IsScalar s = true -> Equal s v = true -> Equal v w = true -> IsScalar w && Equal s w = true.
Proof.
  intros Hs H1 H2. pose proof (Equal_trans _ _ _ H1 H2) as T. rewrite T, andb_true_r.
  by apply (Equal_scalar s).
Qed.

Section Match.
Context {E : Type} (resolve : list value -> resolved E) (sigma : string -> value).

Lemma denotes_elems ps : forall vs ws,
  denotes resolve sigma (Array ps) (Array vs) = true ->
  Forall2 (fun x y => Equal x y = true) vs ws ->
  insertable (Array ps) = true -> elems_match ps ws = true.
Proof.
  induction ps as [|p ps IH]; intros vs ws D F I; destruct vs as [|v vs]; try discriminate D;
    inversion F as [|? w ? ws' Ev F']; subst; [done|].
  cbn [elems_match]. change (denotes resolve sigma p v && denotes resolve sigma (Array ps) (Array vs) = true) in D.
  apply andb_true_iff in D as [D1 D2]. cbn [insertable forallb] in I. apply andb_true_iff in I as [I1 I2].
  apply andb_true_iff. split; [|by eapply IH].
  destruct p; try discriminate I1; try done; apply (scalar_match _ v); done.
Qed.

Lemma denotes_match ref b v mapper :
  may_be resolve ref v = true -> denotes resolve sigma b v = true -> insertable b = true ->
  level_match resolve (ref, Some b, mapper) = true.
Proof.
  unfold may_be, level_match. destruct (resolve ref) as [w| | |]; try done. intros Hw D I.
  rewrite Equal_sym in Hw.
  destruct b; try discriminate I; try (by apply (scalar_match _ v)); [done|].
  destruct v as [| | | | | |vs| | | | | |]; try discriminate D.
  destruct (Equal_Array _ _ Hw) as (ws & -> & F). simpl. by rewrite (denotes_elems _ _ _ D F I).
Qed.
End Match.

(** ** Where the indices of a rule come from *)
Lemma build_indices_ind isVirtual rules (P : refindices -> Prop) : P newrefindices ->
  (forall i r e, r ∈ concat rules -> e ∈ r_body r -> P i -> P (Update isVirtual i r e)) -> P (build_indices isVirtual rules).
Proof.
  intros P0 Step. assert (Pr : forall i r, r ∈ concat rules -> P i -> P (index_rule isVirtual i r)).
  { intros i r Hr. unfold index_rule. destruct (_ || _); [done|]. specialize (fun i e => Step i r e Hr). clear Hr. revert i.
    induction (r_body r) as [|e l IH]; intros i H; [done|]. simpl. apply IH; [intros; apply Step; [by right|done]|]. apply Step; [by left|done]. }
  unfold build_indices. revert P0 Pr. clear Step. generalize newrefindices. induction rules as [|c rules IH]; intros i P0 Pr; [done|]. simpl.
  apply IH; [|intros i' r Hr; apply Pr; simpl; apply elem_of_app; by right].
  assert (Pc : forall i r, r ∈ c -> P i -> P (index_rule isVirtual i r)) by (intros i' r Hr; apply Pr; simpl; apply elem_of_app; by left).
  clear Pr IH. revert i P0. induction c as [|r c IHc]; intros i P0; [done|]. simpl. apply IHc; [intros; apply Pc; [by right|done]|]. apply Pc; [by left|done].
Qed.

Section Provenance.
Context (isVirtual : list value -> bool) (rules : list (list rule)) (r : rule).
Context (Hr : forall r', r' ∈ concat rules -> r_id r' = r_id r -> r' = r).
Context (Harity : eq_arity r = true) (Hglob : glob_free r = true).

Definition from_body (idx : refindex) : Prop :=
  exists e a b, e ∈ r_body r /\ eq_operands e = Some (a, b) /\
    (eqOperandsToRefAndValue isVirtual (r_args r) a b = Some idx \/
     eqOperandsToRefAndValue isVirtual (r_args r) b a = Some idx).
Definition indices_ok (i : refindices) : Prop := Forall from_body (rule_indices i r).

Lemma replace_index_ok l idx : Forall from_body l -> from_body idx -> Forall from_body (replace_index l idx).
Proof.
  induction l as [|o l IH]; simpl; intros H Hi; [by apply Forall_singleton|].
  apply Forall_cons in H as [H1 H2]. destruct (ref_eq _ _); apply Forall_cons; auto.
Qed.

Lemma rule_indices_insert i r' idx :
  rule_indices (ri_insert i r' idx) r =
  if (r_id r' =? r_id r)%nat then replace_index (rule_indices i r') idx else rule_indices i r.
Proof.
  unfold rule_indices at 1, ri_insert. cbn [rules_idx].
  destruct (r_id r' =? r_id r)%nat eqn:D.
  - apply Nat.eqb_eq in D. by rewrite D, lookup_insert_eq.
  - apply Nat.eqb_neq in D. by rewrite lookup_insert_ne.
Qed.

(** An update adds an index of an equality of the body. *)
Definition adds (i i' : refindices) : Prop := i' = i \/ exists idx, from_body idx /\ i' = ri_insert i r idx.

Lemma updateEq_adds i e a b : e ∈ r_body r -> eq_operands e = Some (a, b) -> adds i (updateEq isVirtual i r a b).
Proof.
  intros He Ho. unfold updateEq. destruct (eqOperandsToRefAndValue isVirtual (r_args r) a b) as [idx|] eqn:E1;
    [|destruct (eqOperandsToRefAndValue isVirtual (r_args r) b a) as [idx|] eqn:E2; [|by left]];
    right; exists idx; (split; [|done]); exists e, a, b; auto.
Qed.

Lemma Update_adds i e : e ∈ r_body r -> adds i (Update isVirtual i r e).
Proof.
  intros He. pose proof He as Ha. pose proof He as Hg.
  unfold eq_arity in Harity. rewrite forallb_forall in Harity.
  apply list_elem_of_In, Harity in Ha.
  unfold glob_free in Hglob. rewrite forallb_forall in Hglob.
  apply list_elem_of_In, Hglob, negb_true_iff in Hg.
  destruct e as [[t|[|[] ops]| |] withs ix neg]; try (by left). unfold Update.
  destruct neg; [by left|]. destruct withs as [|w withs]; [|by left]. cbn [length Nat.eqb negb].
  unfold is_glob in Hg. rewrite Hg. cbn beta iota in Ha.
  assert (Up : forall a b, ops = [a; b] -> ref_eq ts Equality_Ref || ref_eq ts Equal_Ref = true ->
    adds i (updateEq isVirtual i r a b)).
  { intros a b -> Ho. eapply updateEq_adds; [exact He|]. simpl. by rewrite Ho. }
  destruct (ref_eq ts Equality_Ref) eqn:E1.
  - simpl in Ha. destruct ops as [|a [|b [|]]]; try discriminate Ha. by apply Up.
  - destruct (ref_eq ts Equal_Ref) eqn:E2; simpl; [|by left].
    destruct ops as [|a [|b [|]]]; try (by left). by apply Up.
Qed.

Lemma Update_ok i e : e ∈ r_body r -> indices_ok i -> indices_ok (Update isVirtual i r e).
Proof.
  intros He H. destruct (Update_adds i e He) as [->|(idx & Hi & ->)]; [done|]. unfold indices_ok.
  rewrite rule_indices_insert, Nat.eqb_refl. by apply replace_index_ok.
Qed.

(** The updates of other rules do not touch the indices of this one. *)
Lemma Update_other i r' e : r_id r' <> r_id r -> rule_indices (Update isVirtual i r' e) r = rule_indices i r.
Proof.
  intros Hne%Nat.eqb_neq.
  assert (U : forall a b, rule_indices (updateEq isVirtual i r' a b) r = rule_indices i r).
  { intros a b. unfold updateEq.
    repeat case_match; try done; by rewrite rule_indices_insert, Hne. }
  assert (G : forall a b c, rule_indices (updateGlobMatch i r' a b c) r = rule_indices i r).
  { intros a b c. unfold updateGlobMatch. destruct (globDelimiterToString b) as [d|]; [|done].
    destruct (globPatternToArray a d) as [arr|]; [|done]. destruct c; try done.
    destruct (match glob_ref_of_rule _ _ with Some ref => _ | None => _ end); [|done].
    by rewrite rule_indices_insert, Hne. }
  destruct e as [[t|[|[] ops]| |] withs ix neg]; try done. unfold Update.
  destruct neg; [done|]. destruct (negb _); [done|].
  destruct (ref_eq ts Equality_Ref); [by destruct ops as [|? [|]]|].
  destruct (_ && _); [by destruct ops as [|? [|]]|].
  destruct (_ && _); [by destruct ops as [|? [|? [|]]]|done].
Qed.

Lemma build_indices_ok : indices_ok (build_indices isVirtual rules).
Proof.
  apply build_indices_ind; [by apply Forall_nil|]. intros i r' e Hr' He H. destruct (decide (r_id r' = r_id r)) as [D|D].
  - rewrite (Hr r' Hr' D) in *. by apply Update_ok.
  - unfold indices_ok. by rewrite Update_other.
Qed.
End Provenance.

(** The references that are counted are those of equalities. *)
Lemma freq_incr_in l ref p : p ∈ freq_incr l ref -> p.1 = ref \/ p.1 ∈ map fst l.
Proof.
  induction l as [|[r n] l IH]; simpl; [intros ->%list_elem_of_singleton; by left|]. destruct (ref_eq r ref).
  - intros [->|Hp]%elem_of_cons; right; simpl; [by left|]. right. by apply list_elem_of_fmap_2.
  - intros [->|[|]%IH]%elem_of_cons; [right; by left|by left|right; by right].
Qed.
Lemma frequency_from_body isVirtual rules : (forall r, r ∈ concat rules -> eq_arity r = true /\ glob_free r = true) ->
  forall ref, ref ∈ map fst (frequency (build_indices isVirtual rules)) -> exists r idx, r ∈ concat rules /\ from_body isVirtual r idx /\ ri_ref idx = ref.
Proof.
  intros Hr. apply build_indices_ind; [by intros ref ?%elem_of_nil|]. intros i r e Hin He H ref Href. destruct (Hr r Hin) as [Ha Hg].
  destruct (Update_adds isVirtual r Ha Hg i e He) as [E|(idx & Hi & E)]; rewrite E in Href; [by apply H|].
  apply list_elem_of_fmap in Href as (p & -> & [Ep|Hp]%freq_incr_in); [|by apply H]. exists r, idx. by rewrite Ep.
Qed.

(** ** What can be inserted *)
Definition level_insertable (l : level) : Prop :=
  match l.1.2 with Some v => insertable v = true | None => True end.

Lemma scalars_update_k v K l l' : scalars_update v K l = Some l' -> exists c c', K c = Some c'.
Proof. intros S. destruct (scalars_update_entry v K l l' S) as (c & c' & Hc & _). eauto. Qed.

Lemma insertArray_insertable K arr : forall n n',
  insertArray arr K n = Some n' -> insertable (Array arr) = true /\ exists c c', K c = Some c'.
Proof.
  induction arr as [|x arr IH]; intros n n' H; simpl in H; [eauto|].
  assert (X : (exists n n', insertArray arr K n = Some n') -> (match x with Var _ => true | x => IsScalar x end) = true ->
    insertable (Array (x :: arr)) = true /\ exists c c', K c = Some c').
  { intros (m & m' & Hm) Hx. destruct (IH m m' Hm) as [I1 I2]. split; [|done]. simpl. by rewrite Hx. }
  destruct x; try discriminate H; apply X; try done;
    try (destruct (scalars_update _ _ _) eqn:S; [|done]; by eapply scalars_update_k).
  destruct (insertArray arr K _) eqn:S; [|done]. eauto.
Qed.

Lemma insertValue_insertable v K n n' :
  insertValue v K n = Some n' ->
  (match v with Some v => insertable v = true | None => True end) /\ exists c c', K c = Some c'.
Proof.
  destruct v as [v|]; simpl.
  - destruct v; try done;
      try (destruct (scalars_update _ _ _) eqn:S; [|done]; intros _; split; [done|by eapply scalars_update_k]).
    + destruct (K _) eqn:S; [|done]. eauto.
    + destruct (insertArray _ _ _) eqn:S; [|done]. intros _. by eapply insertArray_insertable.
  - destruct (K _) eqn:S; [|done]. eauto.
Qed.

Lemma insert_levels_insertable k ls : forall n n',
  insert_levels ls k n = Some n' -> Forall level_insertable ls.
Proof.
  induction ls as [|[[ref v] mapper] ls IH]; intros n n' H; [by apply Forall_nil|].
  cbn [insert_levels] in H. unfold Insert in H.
  destruct (insertValue _ _ _) eqn:V; [|done].
  apply insertValue_insertable in V as [V (c & c' & Hc)]. apply Forall_cons. split; [done|by eapply IH].
Qed.

Lemma build_trie_insertable i sorted rns : forall n root,
  fold_left (fun n rn => match n with Some n => insert_rule i sorted n rn | None => None end)
    rns (Some n) = Some root ->
  forall rn, rn ∈ rns -> Forall level_insertable (rule_levels i sorted (rn_rule rn)).
Proof.
  induction rns as [|rn rns IH]; intros n root; simpl; [by intros _ rn []%not_elem_of_nil|].
  destruct (insert_rule i sorted n rn) as [n'|] eqn:H.
  - intros B rn' [->|Hrn]%elem_of_cons; [by eapply insert_levels_insertable|by eapply IH].
  - clear IH. intros B. exfalso. clear H. induction rns; [done|]. by apply IHrns.
Qed.

(** ** Rules whose body can hold are returned *)
Lemma ri_index_Some l ref idx :
  ri_index l ref = Some idx -> idx ∈ l /\ ref_eq (ri_ref idx) ref = true.
Proof.
  induction l as [|o l IH]; simpl; [done|]. destruct (ref_eq (ri_ref o) ref) eqn:D.
  - intros [= <-]. split; [left|done].
  - intros [H1 H2]%IH. split; [by right|done].
Qed.

Lemma indexValue_Some b v : indexValue b = Some v -> v = b.
Proof. destruct b; simpl; try done; try (by intros [= <-]). destruct (existsb _ _); [done|]. by intros [= <-]. Qed.

Lemma arg_refindex_Some args a b : forall j idx, arg_refindex j args a b = Some idx ->
  exists i arg, args !! i = Some arg /\ Equal arg a = true /\ idx = MkRefindex (arg_ref (j + i)) b None.
Proof.
  induction args as [|arg args IH]; intros j idx; simpl; [done|].
  assert (R : arg_refindex (S j) args a b = Some idx ->
    exists i arg', (arg :: args) !! i = Some arg' /\ Equal arg' a = true /\
      idx = MkRefindex (arg_ref (j + i)) b None).
  { intros (i & arg' & H1 & H2 & ->)%IH. exists (S i), arg'. split_ands; [done|done|].
    by rewrite Nat.add_succ_r. }
  destruct (Equal arg a) eqn:D; [|done]. destruct (indexValue b) as [bval|] eqn:Eb; [|done].
  intros [= <-]. apply indexValue_Some in Eb as ->. exists 0%nat, arg. by rewrite Nat.add_0_r.
Qed.

Section Body.
Context {E : Type} (resolve : list value -> resolved E) (sigma : string -> value).

Lemma may_be_Equal ref v v' : may_be resolve ref v = true -> Equal v v' = true -> may_be resolve ref v' = true.
Proof. unfold may_be. destruct (resolve ref); try done. apply Equal_trans. Qed.

Lemma Var_Equal t x : Equal t (Var x) = true -> t = Var x.
Proof.
  intros H. pose proof (Equal_sortOrder _ _ H) as O. destruct t; try discriminate O.
  apply Equal_true in H. rewrite Compare_unfold in H. simpl in H. f_equal.
  by apply String.compare_eq_iff in H.
Qed.

Lemma eqOperands_hold isVirtual r a b idx :
  body_holds resolve sigma r -> eq_holds resolve sigma a b ->
  eqOperandsToRefAndValue isVirtual (r_args r) a b = Some idx ->
  ri_value idx = b /\
  exists v, may_be resolve (ri_ref idx) v = true /\ denotes resolve sigma b v = true.
Proof.
  intros [_ Hargs] (v & Da & Db) H. destruct a; try discriminate H; simpl in H.
  - apply arg_refindex_Some in H as (i & arg & Hi & Ha & ->). apply Var_Equal in Ha as ->.
    split; [done|]. exists v. split; [|done]. destruct (Hargs i _ Hi) as (v' & M & D).
    simpl in Da, D |- *. apply (may_be_Equal _ v'); [done|].
    rewrite Equal_sym in D. by eapply Equal_trans.
  - destruct ts as [|h ts]; [done|]. destruct (negb _); [done|]. destruct (isVirtual _); [done|].
    destruct (_ || _); [done|]. destruct (indexValue b) as [bval|] eqn:Eb; [|done].
    injection H as <-. apply indexValue_Some in Eb as ->. split; [done|]. exists v. done.
Qed.
End Body.

Lemma body_levels {E} (resolve : list value -> resolved E) sigma isVirtual sorted rules r :
  (forall idx ref v, idx ∈ rule_indices (build_indices isVirtual rules) r -> ref ∈ sorted -> ref_eq (ri_ref idx) ref = true ->
    may_be resolve (ri_ref idx) v = true -> may_be resolve ref v = true) ->
  NoDup (map r_id (concat rules)) -> r ∈ concat rules ->
  eq_arity r = true -> glob_free r = true -> body_holds resolve sigma r ->
  let levels := rule_levels (build_indices isVirtual rules) sorted r in
  (forall ref e, resolve ref <> RError e) ->
  Forall level_insertable levels -> Forall (fun l => level_match resolve l = true) levels.
Proof.
  intros Hres Nd Hr Har Hgl Hb levels Herr Hi. unfold levels, rule_levels in *.
  destruct (Indexed _ r); [|by apply Forall_nil].
  rewrite Forall_fmap in *. rewrite Forall_forall in *. intros ref Href. specialize (Hi ref Href).
  unfold compose, level_insertable, rule_level in *.
  destruct (ri_index _ ref) as [idx|] eqn:Ei; simpl in *.
  2:{ destruct (resolve ref) eqn:X; try done. by destruct (Herr ref e). }
  apply ri_index_Some in Ei as [Ei Er].
  pose proof (build_indices_ok isVirtual rules r (fun r' H1 H2 => NoDup_map_inj r_id _ _ _ Nd H1 Hr H2) Har Hgl) as P.
  unfold indices_ok in P. rewrite Forall_forall in P. destruct (P idx Ei) as (e & a & b & He & Ho & Hidx).
  assert (X : exists v, may_be resolve (ri_ref idx) v = true /\
    denotes resolve sigma (ri_value idx) v = true).
  { pose proof (proj1 Hb e a b He Ho) as Hab.
    destruct Hidx as [Hidx|Hidx].
    - by destruct (eqOperands_hold resolve sigma _ _ _ _ _ Hb Hab Hidx) as [-> ?].
    - assert (Hba : eq_holds resolve sigma b a) by (destruct Hab as (v & ? & ?); by exists v).
      by destruct (eqOperands_hold resolve sigma _ _ _ _ _ Hb Hba Hidx) as [-> ?]. }
  destruct X as (v & Hm & Hd). apply (denotes_match resolve sigma ref _ v); [|done|done].
  by apply (Hres idx ref v).
Qed.

Lemma satisfiable_found {E} (resolve : list value -> resolved E) sigma isVirtual sorted rules ix rn :
  Build isVirtual sorted rules = Some ix ->
  (forall idx ref v, idx ∈ rule_indices (build_indices isVirtual rules) (rn_rule rn) -> ref ∈ sorted -> ref_eq (ri_ref idx) ref = true ->
    may_be resolve (ri_ref idx) v = true -> may_be resolve ref v = true) ->
  (forall ref e, resolve ref <> RError e) -> NoDup (map r_id (concat rules)) -> rn ∈ all_nodes rules ->
  eq_arity (rn_rule rn) = true -> glob_free (rn_rule rn) = true -> body_holds resolve sigma (rn_rule rn) -> found rn (Traverse resolve (ix_root ix)).
Proof.
  intros B Hres Herr Nd Hrn Har Hgl Hb. pose proof (build_root _ _ _ _ B) as Br.
  apply (build_trie_sound resolve _ _ _ _ _ Br (leveled_new _)); [done|]. eapply body_levels; try done.
  - apply (all_nodes_rule rules (rn_rule rn)). by exists rn.
  - by eapply (build_trie_insertable _ _ _ _ _ Br).
Qed.

(** C2: The index never drops a rule that could succeed.  Let a rule of the set
    (neither a default nor using glob patterns) be such that, under some
    bindings of its variables and what the resolver says about the documents,
    every unconditional equality of its body holds and its parameters can take
    the call's arguments.  Then a lookup that does not end in an error of the
    resolver returns the rule.  References that are equal must resolve alike,
    and rules are told apart by their identity. *)
Theorem Lookup_keeps_satisfiable {E} (resolve : list value -> resolved E) sigma isVirtual sorted
    rules ix r :
  Build isVirtual sorted rules = Some ix ->
  (forall a b, ref_eq a b = true -> resolve a = resolve b) ->
  (forall ref e, resolve ref <> RError e) ->
  NoDup (map r_id (concat rules)) -> r ∈ concat rules -> r_default r = false ->
  eq_arity r = true -> glob_free r = true -> body_holds resolve sigma r ->
  exists res, Lookup resolve ix = Ok res /\ in_result r res.
Proof.
  intros B Hres Herr Nd Hr Hd Har Hgl Hb.
  pose proof (Lookup_cases resolve _ _ _ _ B) as L.
  destruct (Lookup resolve ix) as [res|e]; [|destruct L as [ref L]; by destruct (Herr ref e)].
  destruct L as (tr & -> & C). exists (make_result ix tr). split; [done|].
  apply (result_found _ _ _ C).
  destruct (proj2 (all_nodes_rule rules r) (conj Hr Hd)) as (rn & Hrn & <-). exists rn. split; [|done].
  eapply satisfiable_found; try done. intros idx ref v _ _ Hab. unfold may_be. by rewrite (Hres _ _ Hab).
Qed.

Lemma Lookup_keeps_satisfiable_witness :
  exists res, Lookup Sample.resolve Sample.index = Ok res /\ in_result Sample.r2 res.
Proof.
  apply (Lookup_keeps_satisfiable Sample.resolve (fun _ => Number (NInt 1)) _ _ _ _ _ Sample.built).
  - intros a b H. unfold Sample.resolve, ref_eq. by rewrite !(Equal_cong (Ref a) (Ref b) _ H).
  - intros ref e. destruct e.
  - vm_compute. repeat constructor; set_solver.
  - vm_compute. right. right. left.
  - reflexivity.
  - reflexivity.
  - reflexivity.
  - split.
    + intros e a b ->%list_elem_of_singleton H. vm_compute in H. injection H as <- <-.
      exists (Array [Str "a"; Number (NInt 1)]). split; vm_compute; reflexivity.
    + intros i arg H. discriminate H.
Defined.

(** The escaped part of a glob pattern is kept with its backslash, and is then
    compared with parts of values that have none.  The pattern [a\*] is the
    literal [a*], but the rule [p { x = input.x; glob.match("a\\*", [], x) }]
    is not returned for that input. *)
Lemma glob_escape_dropped :
  let x := [Var "input"; Str "x"] in
  let r := MkRule 0 false []
    [Sample.eq_expr (Var "x") (Ref x);
     Expr (TTerms [Ref GlobMatch_Ref; Str (String "a"%char (String backslash "*")); Array []; Var "x"]) [] 1 false]
    [Var "data"; Str "p"] None (Some (Boolean true)) in
  exists ix res, Build Sample.isVirtual [x] [[r]] = Some ix /\
    Lookup (E := Empty_set) (fun _ => RValue (Str "a*")) ix = Ok res /\ ir_rules res = [].
Proof. do 2 eexists. split; [vm_compute; reflexivity|]. split; [vm_compute; reflexivity|reflexivity]. Qed.
