(* ===== verification/EvalCache.v ===== *)
(** The caches and stacks of one evaluation: [src/topdown/cache.go].

    [virtualCache] keeps the values of rules and of function calls, [baseCache] the base
    documents read from the store, [comprehensionCache] the results of comprehensions,
    [refStack] and [functionMocksStack] what [with] modifiers replace.  All but the last
    two are tries over the terms of a reference.  The children of a node are an association
    list; HashMap.v shows that the hash maps of the code behave like one. *)
From Stdlib Require Import ZArith Lia String.
From stdpp Require Import base list strings.
From S2P Require Import Prelude Value Containers SetTable RefOps.

(** ** Tries *)
Inductive trie (A : Type) : Type :=
| Node (content : A) (children : list (value * trie A)).
Arguments Node {A}.

Section Trie.
Context {A : Type} (same : value -> value -> bool) (start : A).

Definition content (t : trie A) : A := let 'Node c _ := t in c.
Definition children (t : trie A) : list (value * trie A) := let 'Node _ l := t in l.
Definition new_node : trie A := Node start [].

Fixpoint child_get (k : value) (l : list (value * trie A)) : option (trie A) :=
  match l with [] => None | (k', t) :: l => if same k' k then Some t else child_get k l end.
Fixpoint child_put (k : value) (t : trie A) (l : list (value * trie A)) : list (value * trie A) :=
  match l with [] => [(k, t)] | (k', t') :: l => if same k' k then (k', t) :: l else (k', t') :: child_put k t l end.

(** The loops over the terms of a reference: in [Get] a missing child ends the search, in
    [Put] it is created. *)
Fixpoint node_at (ref : list value) (t : trie A) : option (trie A) :=
  match ref with [] => Some t | k :: ref => t' ← child_get k (children t); node_at ref t' end.
Fixpoint update (ref : list value) (f : trie A -> trie A) (t : trie A) : trie A :=
  match ref with
  | [] => f t
  | k :: ref => Node (content t) (child_put k (update ref f (default new_node (child_get k (children t)))) (children t))
  end.
End Trie.

(** ** Virtual documents *)
Module VirtualCache.
Record elem : Type := MkElem { value_of : option value; undefined : bool }.
Definition newVirtualCacheElem : trie elem := new_node (MkElem None false).
(** The top of the stack comes first. *)
Definition virtualCache : Type := list (trie elem).
Definition Push (c : virtualCache) : virtualCache := newVirtualCacheElem :: c.
Definition newVirtualCache : virtualCache := Push [].
Definition Pop (c : virtualCache) : option virtualCache := match c with [] => None | _ :: c => Some c end.

Definition result (e : elem) : option value * bool := if undefined e then (None, true) else (value_of e, false).
Definition Get (c : virtualCache) (ref : list value) : option (option value * bool) :=
  match c with
  | [] => None
  | top :: _ => Some (match node_at Equal ref top with Some t => result (content t) | None => (None, false) end)
  end.

Definition store (v : option value) (t : trie elem) : trie elem :=
  let 'MkElem old undef := content t in
  Node (match v with Some _ => MkElem v undef | None => MkElem old true end) (children t).
Definition Put (c : virtualCache) (ref : list value) (v : option value) : option virtualCache :=
  match c with [] => None | top :: c => Some (update Equal (MkElem None false) ref (store v) top :: c) end.
End VirtualCache.

(** ** Base documents

    The children are a Go map from values: keys are the same when they are identical
    scalars; the keys of base documents are scalars. *)
Module BaseCache.
Definition number_same (a b : number) : bool :=
  match a, b with
  | NInt x, NInt y => (x =? y)%Z
  | NDec m e, NDec m' e' => (m =? m')%Z && (e =? e')%Z
  | _, _ => false
  end.
Definition same (a b : value) : bool :=
  match a, b with
  | Null, Null => true
  | Boolean x, Boolean y => Bool.eqb x y
  | Number x, Number y => number_same x y
  | Str x, Str y => String.eqb x y
  | Var x, Var y => String.eqb x y
  | _, _ => false
  end.

Definition baseCache : Type := trie (option value).
Definition newBaseCache : baseCache := new_node None.
Fixpoint Get_from (ref : list value) (node : baseCache) : option value :=
  match ref with
  | [] => None
  | k :: ref =>
      match child_get same k (children node) with
      | None => None
      | Some node => match content node with Some v => Find v ref | None => Get_from ref node end
      end
  end.
Definition Get (c : baseCache) (ref : list value) : option value := Get_from ref c.
Definition set (v : value) (node : baseCache) : baseCache := Node (Some v) [].
Definition Put (c : baseCache) (ref : list value) (v : value) : baseCache := update same None ref (set v) c.
End BaseCache.

(** ** Comprehensions *)
Module ComprehensionCache.
Definition elem : Type := trie (option value).
Definition newComprehensionCacheElem : elem := new_node None.
Definition Get (c : elem) (key : list value) : option value := t ← node_at Equal key c; content t.
Definition Put (c : elem) (key : list value) (v : value) : elem :=
  update Equal None key (fun t => Node (Some v) (children t)) c.
End ComprehensionCache.

(** ** Targets of [with] *)
Module RefStack.
Definition refStack : Type := list (list (list value)).
Definition newRefStack : refStack := [].
Definition Push (s : refStack) (refs : list (list value)) : refStack := refs :: s.
Definition Pop (s : refStack) : option refStack := match s with [] => None | _ :: s => Some s end.
Definition Prefixed (s : refStack) (ref : list value) : bool := existsb (existsb (Ref_HasPrefix ref)) s.
End RefStack.

(** ** Replacements of functions

    A frame maps the text of a function's reference to its replacement; [String] is
    [Ref.String]. *)
Module FunctionMocks.
Section Mocks.
Context (String : list value -> string).
Definition frame : Type := list (string * value).
Definition stack : Type := list (list frame).
Definition Push (s : stack) : stack := [] :: s.
Definition newFunctionMocksStack : stack := Push [].
Definition Pop (s : stack) : option stack := match s with [] => None | _ :: s => Some s end.
Definition Put (s : stack) (el : frame) : option stack := match s with [] => None | top :: s => Some ((el :: top) :: s) end.
(** The last pair for a text is in force. *)
Definition PutPairs (s : stack) (mocks : list (list value * value)) : option stack :=
  Put s (rev (map (fun m => (String m.1, m.2)) mocks)).
Definition PopPairs (s : stack) : option stack := match s with (_ :: top) :: s => Some (top :: s) | _ => None end.
Fixpoint frame_get (f : string) (el : frame) : option value :=
  match el with [] => None | (g, v) :: el => if String.eqb g f then Some v else frame_get f el end.
Fixpoint frames_get (f : string) (l : list frame) : option value :=
  match l with [] => None | el :: l => match frame_get f el with Some v => Some v | None => frames_get f l end end.
Definition Get (s : stack) (f : list value) : option (option value) :=
  match s with [] => None | top :: _ => Some (frames_get (String f) top) end.
End Mocks.
End FunctionMocks.

(** What the evaluators of one query share. *)
Record shared : Type := MkShared {
  virtualCache : VirtualCache.virtualCache;
  baseCache : BaseCache.baseCache;
  targetStack : RefStack.refStack;
  functionMocks : FunctionMocks.stack;
}.
Definition newShared : shared :=
  MkShared VirtualCache.newVirtualCache BaseCache.newBaseCache RefStack.newRefStack FunctionMocks.newFunctionMocksStack.

(** ** Lemmas on tries *)
Section TrieLemmas.
Context {A : Type} (same : value -> value -> bool) (start : A).
Context (same_sym : forall a b, same a b = same b a) (same_trans : forall a b c, same a b = true -> same b c = true -> same a c = true).
Implicit Types t : trie A.

Lemma same_cong a b c : same a b = true -> same a c = same b c.
Proof using same_sym same_trans.
  intros H. destruct (same b c) eqn:E; [by eapply same_trans|]. destruct (same a c) eqn:E'; [|done].
  rewrite same_sym in H. rewrite <- E. symmetry. by eapply same_trans.
Qed.

Lemma child_get_put k t l k' : child_get same k' (child_put same k t l) = if same k k' then Some t else child_get same k' l.
Proof using same_sym same_trans.
  induction l as [|[k2 t2] l IH]; simpl; [done|]. destruct (same k2 k) eqn:E; simpl.
  - rewrite (same_cong _ _ _ E). by destruct (same k k').
  - rewrite IH. destruct (same k2 k') eqn:E2; [|done]. destruct (same k k') eqn:E3; [|done].
    rewrite same_sym in E3. by rewrite (same_trans _ _ _ E2 E3) in E.
Qed.

(** What is stored under a reference. *)
Definition entry (ref : list value) t : A := match node_at same ref t with Some t => content t | None => start end.
Fixpoint same_refs (r r' : list value) : bool :=
  match r, r' with [], [] => true | a :: r, b :: r' => same a b && same_refs r r' | _, _ => false end.

Lemma entry_cons k ref t : entry (k :: ref) t = entry ref (default (new_node start) (child_get same k (children t))).
Proof. unfold entry. simpl. destruct (child_get same k (children t)); [done|]. by destruct ref. Qed.

Lemma entry_update (g : A -> A) f : (forall t, f t = Node (g (content t)) (children t)) -> forall ref ref' t,
  entry ref' (update same start ref f t) = if same_refs ref ref' then g (entry ref t) else entry ref' t.
Proof using same_sym same_trans.
  intros Hf. induction ref as [|k ref IH]; intros [|k' ref'] t; cbn [update same_refs].
  - by rewrite Hf.
  - by rewrite Hf, !entry_cons.
  - done.
  - rewrite !entry_cons. cbn [children]. rewrite child_get_put. destruct (same k k') eqn:E; [|done]. cbn [from_option id andb]. rewrite IH.
    assert (Ek : child_get same k (children t) = child_get same k' (children t)).
    { induction (children t) as [|[k2 t2] l IHl]; [done|]. simpl. rewrite (same_sym k2 k), (same_cong _ _ _ E), same_sym. by destruct (same k2 k'). }
    by rewrite Ek.
Qed.
End TrieLemmas.

Lemma Equal_per : (forall a b, Equal a b = Equal b a) /\ (forall a b c, Equal a b = true -> Equal b c = true -> Equal a c = true).
Proof. split; [apply Equal_sym|apply Equal_trans]. Qed.

(** ** The virtual cache is a stack of maps *)
Module VirtualSpec.
Import VirtualCache.
(** References that are equal term by term are the same key. *)
Definition map := list value -> elem.
Definition empty : map := fun _ => MkElem None false.
Definition put (m : map) (ref : list value) (v : option value) : map := fun r =>
  if same_refs Equal ref r then match v with Some _ => MkElem v (undefined (m ref)) | None => MkElem (value_of (m ref)) true end else m r.

Inductive op : Type := OPush | OPop | OPut (ref : list value) (v : option value).
Definition run_op (c : option virtualCache) (o : op) : option virtualCache :=
  c ← c; match o with OPush => Some (Push c) | OPop => Pop c | OPut ref v => Put c ref v end.
Definition spec_op (ms : option (list map)) (o : op) : option (list map) :=
  ms ← ms;
  match o, ms with
  | OPush, _ => Some (empty :: ms)
  | OPop, _ :: ms => Some ms
  | OPut ref v, m :: ms => Some (put m ref v :: ms)
  | _, [] => None
  end.

Definition repr (t : trie elem) (m : map) : Prop := forall ref, entry Equal (MkElem None false) ref t = m ref.

Lemma new_repr : repr newVirtualCacheElem empty.
Proof. intros [|k ref]; [done|]. unfold entry. by destruct ref. Qed.

Lemma put_repr t m ref v : repr t m -> repr (update Equal (MkElem None false) ref (store v) t) (put m ref v).
Proof.
  intros H r. unfold put. rewrite (entry_update Equal (MkElem None false) Equal_sym Equal_trans
    (fun e => match v with Some _ => MkElem v (undefined e) | None => MkElem (value_of e) true end)), !H; [done|].
  intros [[] ?]. destruct v; reflexivity.
Qed.

Lemma ops_repr os : forall c ms, option_Forall2 (Forall2 repr) c ms -> option_Forall2 (Forall2 repr) (fold_left run_op os c) (fold_left spec_op os ms).
Proof.
  induction os as [|o os IH]; intros c ms H; [done|]. simpl. apply IH. destruct H as [c ms F|]; [|by constructor].
  destruct o as [| |ref v]; simpl.
  - constructor. constructor; [apply new_repr|done].
  - destruct F; by constructor.
  - destruct F as [|t m c ms Ht F]; constructor. constructor; [by apply put_repr|done].
Qed.

(** C4: The virtual cache behaves like a stack of maps from references to values and
    "undefined": after any sequence of [Push], [Pop] and [Put] on a new cache, the cache
    has panicked exactly when the stack of maps has run empty, and otherwise [Get] returns for
    every reference what the top map holds, a reference being undefined from the first
    [Put] of nil on.  References are the same key when their terms are equal. *)
Theorem virtualCache_refines_maps (os : list op) :
  match fold_left run_op os (Some newVirtualCache), fold_left spec_op os (Some [empty]) with
  | Some c, Some ms => forall ref, Get c ref = match ms with m :: _ => Some (result (m ref)) | [] => None end
  | None, None => True
  | _, _ => False
  end.
Proof.
  pose proof (ops_repr os (Some newVirtualCache) (Some [empty])) as H. destruct H as [c ms F|]; [|intros ref|done].
  - constructor. constructor; [apply new_repr|constructor].
  - destruct F as [|t m c ms Ht F]; [done|]. unfold Get. rewrite <- (Ht ref). unfold entry. by destruct (node_at Equal ref t).
Qed.
End VirtualSpec.

(** ** The base cache returns what the document has *)
Module BaseSpec.
Import BaseCache.

Lemma same_eq a b : same a b = true -> a = b.
Proof.
  destruct a, b; simpl; try done.
  - by intros ->%eqb_prop.
  - destruct n as [x|m e], n0 as [y|m' e']; simpl; try done; [by intros ->%Z.eqb_eq|]. intros [->%Z.eqb_eq ->%Z.eqb_eq]%andb_true_iff. done.
  - by intros ->%String.eqb_eq.
  - by intros ->%String.eqb_eq.
Qed.
Lemma same_sym a b : same a b = same b a.
Proof.
  destruct (same a b) eqn:E; [by pose proof (same_eq _ _ E) as ->|]. destruct (same b a) eqn:E'; [|done].
  pose proof (same_eq _ _ E') as ->. congruence.
Qed.
Lemma same_trans a b c : same a b = true -> same b c = true -> same a c = true.
Proof. by intros ->%same_eq. Qed.

(** The terms of references into base documents: the root and scalars. *)
Definition key (k : value) : bool := match k with Var _ => true | _ => IsScalar k end.
Lemma key_same k : key k = true -> same k k = true.
Proof.
  destruct k as [|b|[z|m e]|s|x| | | | | | | |]; simpl; try done; intros _;
    [by destruct b|apply Z.eqb_refl|by rewrite !Z.eqb_refl|apply String.eqb_refl..].
Qed.

(** The document that a reference is about; its first term is the root. *)
Section Document.
Context (d : value).
Definition doc_at (ref : list value) : option value := match ref with [] => None | _ :: p => Find d p end.

Lemma doc_at_app ref v q : doc_at ref = Some v -> doc_at (ref ++ q) = Find v q.
Proof. destruct ref as [|k p]; [done|]. simpl. intros H. by rewrite (proj1 (Find_app d p q)), H. Qed.

(** Every value in the trie is that of its reference. *)
Fixpoint coherent (p : list value) (t : baseCache) : Prop :=
  let 'Node c l := t in
  (forall v, c = Some v -> doc_at p = Some v) /\
  (fix all l := match l with [] => True | (k, t) :: l => coherent (p ++ [k]) t /\ all l end) l.

Lemma coherent_node p c l : coherent p (Node c l) <-> (forall v, c = Some v -> doc_at p = Some v) /\ Forall (fun kt => coherent (p ++ [kt.1]) kt.2) l.
Proof.
  cbn [coherent]. apply and_iff_compat_l. induction l as [|[k t] l IH]; [done|]. rewrite Forall_cons, IH. done.
Qed.

Lemma child_coherent p t k n : coherent p t -> child_get same k (children t) = Some n -> coherent (p ++ [k]) n.
Proof.
  destruct t as [c l]. rewrite coherent_node. intros [_ F] H. simpl in H. induction F as [|[k' t'] l Ht F IH]; [done|]. simpl in H.
  destruct (same k' k) eqn:E; [|by apply IH]. injection H as <-. by rewrite <- (same_eq _ _ E).
Qed.

Lemma child_put_coherent p k n l : coherent (p ++ [k]) n -> Forall (fun kt => coherent (p ++ [kt.1]) kt.2) l ->
  Forall (fun kt => coherent (p ++ [kt.1]) kt.2) (child_put same k n l).
Proof.
  intros Hn F. induction F as [|[k' t'] l Ht F IHl]; [by apply Forall_singleton|]. cbn [child_put]. destruct (same k' k) eqn:E.
  - constructor; [|exact F]. cbn [fst snd]. by rewrite (same_eq _ _ E).
  - constructor; [exact Ht|exact IHl].
Qed.

Lemma put_coherent v : forall ref p t, coherent p t -> doc_at (p ++ ref) = Some v -> coherent p (update same None ref (set v) t).
Proof.
  induction ref as [|k ref IH]; intros p t Ht Hv.
  - rewrite app_nil_r in Hv. apply coherent_node. split; [by intros ? [= <-]|done].
  - cbn [update]. apply coherent_node. destruct t as [c l]. pose proof Ht as [Hc F]%coherent_node. split; [exact Hc|].
    apply child_put_coherent; [|exact F]. apply IH; [|by rewrite <- (assoc_L (++))]. cbn [children].
    destruct (child_get same k l) as [n|] eqn:E; [by apply (child_coherent p (Node c l))|]. simpl. by split.
Qed.

Lemma Get_coherent : forall ref p t w, coherent p t -> Get_from ref t = Some w -> doc_at (p ++ ref) = Some w.
Proof.
  induction ref as [|k ref IH]; intros p t w Ht H; [done|]. simpl in H. destruct (child_get same k (children t)) as [n|] eqn:E; [|done].
  pose proof (child_coherent p t k n Ht E) as Hn. change (k :: ref) with ([k] ++ ref). rewrite (assoc_L (++)).
  destruct (content n) as [v|] eqn:C; [|by eapply IH]. destruct n as [c l]. simpl in C. apply coherent_node in Hn as [Hc _].
  rewrite (doc_at_app _ v); [done|by apply Hc].
Qed.

(** A value is met on the way along the reference. *)
Fixpoint covered (ref : list value) (t : baseCache) : Prop :=
  match ref with
  | [] => False
  | k :: ref => match child_get same k (children t) with None => False | Some n => content n <> None \/ covered ref n end
  end.

Lemma covered_Get q : forall ref p t, coherent p t -> covered ref t -> Get_from (ref ++ q) t = doc_at (p ++ ref ++ q).
Proof.
  induction ref as [|k ref IH]; intros p t Ht H; [done|]. simpl in H |- *. destruct (child_get same k (children t)) as [n|] eqn:E; [|done].
  pose proof (child_coherent p t k n Ht E) as Hn. change (k :: ref ++ q) with ([k] ++ ref ++ q). rewrite (assoc_L (++) p).
  destruct (content n) as [v|] eqn:C.
  - destruct n as [c l]. simpl in C. apply coherent_node in Hn as [Hc _]. symmetry. by rewrite (doc_at_app _ v); [|apply Hc].
  - destruct H as [H|H]; [done|]. by apply IH.
Qed.

Lemma covered_put v : forall r ref t, covered ref t -> content (update same None r (set v) t) <> None \/ covered ref (update same None r (set v) t).
Proof.
  induction r as [|k r IH]; intros ref t H; [by left|]. right. destruct ref as [|k' ref]; [done|]. cbn [update covered children] in *.
  rewrite (child_get_put same same_sym same_trans). destruct (same k k') eqn:E; [|done]. rewrite (same_eq _ _ E).
  destruct (child_get same k' (children t)) as [n|]; [|done]. cbn [from_option id]. destruct H as [H|H]; [|by apply IH].
  left. by destruct r.
Qed.

Lemma put_covered v : forall ref t, ref <> [] -> forallb key ref = true -> covered ref (update same None ref (set v) t).
Proof.
  induction ref as [|k ref IH]; intros t Hn Hk; [done|]. cbn [forallb] in Hk. apply andb_true_iff in Hk as [Hk Hr].
  cbn [update covered children]. rewrite (child_get_put same same_sym same_trans), (key_same _ Hk).
  destruct ref as [|k2 ref]; [by left|]. right. by apply IH.
Qed.
End Document.

(** C5: The base cache is coherent: when every document put into it is what the base
    document has at its reference, [Get] returns only what the base document has; and
    below every reference that was put, whatever was put later, it returns exactly that,
    and nothing where the document has nothing. *)
Theorem baseCache_coherent (d : value) (puts : list (list value * value)) :
  Forall (fun rv => rv.1 <> [] /\ forallb key rv.1 = true /\ doc_at d rv.1 = Some rv.2) puts ->
  let c := fold_left (fun c rv => Put c rv.1 rv.2) puts newBaseCache in
  (forall ref w, Get c ref = Some w -> doc_at d ref = Some w) /\
  (forall ref v q, (ref, v) ∈ puts -> Get c (ref ++ q) = doc_at d (ref ++ q)).
Proof.
  intros Hp c. assert (H : forall c0 done0, coherent d [] c0 -> Forall (fun rv => covered rv.1 c0) done0 ->
    let c := fold_left (fun c rv => Put c rv.1 rv.2) puts c0 in coherent d [] c /\ Forall (fun rv => covered rv.1 c) (done0 ++ puts)).
  { clear c. induction Hp as [|[ref v] puts (Hn & Hk & Hv) Hp IH]; intros c0 done0 Hc Hd; simpl; [by rewrite app_nil_r|].
    change ((ref, v) :: puts) with ([(ref, v)] ++ puts). rewrite (assoc_L (++)). apply IH.
    - by apply put_coherent.
    - apply Forall_app. split; [|constructor; [by apply put_covered|done]]. eapply Forall_impl; [exact Hd|].
      intros [r w] H. simpl in *. destruct (covered_put v ref r c0 H) as [C|C]; [|done].
      destruct ref as [|k ref]; [done|]. destruct c0 as [[w'|] l]; [|done]. apply coherent_node in Hc as [Hc _]. by specialize (Hc w' eq_refl). }
  destruct (H newBaseCache []) as [Hc Hd]; [by split|done|]. split.
  - intros ref w Hw. apply (Get_coherent d ref [] c w Hc Hw).
  - intros ref v q Hin. rewrite Forall_forall in Hd. apply (covered_Get d q ref [] c Hc (Hd _ Hin)).
Qed.

Lemma baseCache_coherent_witness : exists c, (forall ref w, Get c ref = Some w -> doc_at (Object [(Str "a", Array [Number (NInt 1)])]) ref = Some w) /\
  Get c [Var "data"; Str "a"; Number (NInt 0)] = Some (Number (NInt 1)).
Proof.
  destruct (baseCache_coherent (Object [(Str "a", Array [Number (NInt 1)])])
    [([Var "data"; Str "a"; Number (NInt 0)], Number (NInt 1)); ([Var "data"; Str "a"], Array [Number (NInt 1)])]) as [H1 H2].
  - repeat (apply Forall_cons_2 || apply Forall_nil_2); by split_ands.
  - eexists. split; [exact H1|]. apply (H2 [Var "data"; Str "a"] (Array [Number (NInt 1)]) [Number (NInt 0)]).
    apply elem_of_cons. right. by apply list_elem_of_singleton.
Defined.
End BaseSpec.
