(* ===== verification/RuleTree.v ===== *)
(** The rule tree and the rule indices of the compiler: [TreeNode], [NewRuleTree] and
    [buildRuleIndices] in [src/ast/compile.go].

    The children of a node are kept in the order of [Sorted], which is sorted at the end of
    the construction; lookup is by identity, as in a Go map (EvalCache.v). *)
From Stdlib Require Import ZArith Lia String.
From stdpp Require Import base list strings.
From S2P Require Import Prelude SortedKeys Value Containers RefOps EvalCache Index.

Inductive TreeNode : Type :=
| Tree (values : list rule) (children : list (value * TreeNode)) (hide : bool).
Definition Values (n : TreeNode) : list rule := let 'Tree vs _ _ := n in vs.
Definition Children (n : TreeNode) : list (value * TreeNode) := let 'Tree _ l _ := n in l.
Definition Hide (n : TreeNode) : bool := let 'Tree _ _ h := n in h.

Fixpoint child_in (k : value) (l : list (value * TreeNode)) : option TreeNode :=
  match l with [] => None | (k', n) :: l => if BaseCache.same k' k then Some n else child_in k l end.
Definition Child (n : TreeNode) (k : value) : option TreeNode :=
  match k with Value.Ref _ | Call _ => None | _ => child_in k (Children n) end.

Fixpoint Tree_Find (n : TreeNode) (ref : list value) : option TreeNode :=
  match ref with [] => Some n | k :: ref => c ← Child n k; Tree_Find c ref end.

(** The nodes of a path below [ref]. *)
Fixpoint treeNodeFromRef (ref : list value) (r : option rule) : TreeNode :=
  match ref with
  | [] => Tree (match r with Some r => [r] | None => [] end) [] false
  | k :: ref => Tree [] [(k, treeNodeFromRef ref r)] false
  end.

(** [add] walks with [find] as far as there are nodes. *)
Fixpoint replace_child (k : value) (c : TreeNode) (l : list (value * TreeNode)) : list (value * TreeNode) :=
  match l with [] => [] | (k', n) :: l => if BaseCache.same k' k then (k', c) :: l else (k', n) :: replace_child k c l end.
Fixpoint add (path : list value) (r : option rule) (n : TreeNode) : TreeNode :=
  match path with
  | [] => Tree (Values n ++ match r with Some r => [r] | None => [] end) (Children n) (Hide n)
  | k :: path =>
      match Child n k with
      | Some c => Tree (Values n) (replace_child k (add path r c) (Children n)) (Hide n)
      | None => Tree (Values n) (Children n ++ [(k, treeNodeFromRef path r)]) (Hide n)
      end
  end.

Fixpoint hide (path : list value) (n : TreeNode) : TreeNode :=
  match path with
  | [] => Tree (Values n) (Children n) true
  | k :: path => match Child n k with Some c => Tree (Values n) (replace_child k (hide path c) (Children n)) (Hide n) | None => n end
  end.

Fixpoint sort (n : TreeNode) : TreeNode :=
  let 'Tree vs l h := n in
  Tree vs (sort_by Compare fst ((fix go l := match l with [] => [] | (k, c) :: l => (k, sort c) :: go l end) l)) h.

(** A module: the path of its package and its rules.  The modules come in the order of the
    traversal of the module tree. *)
Definition module : Type := list value * list rule.
Definition add_module (m : module) (n : TreeNode) : TreeNode :=
  match m.2 with
  | [] => add m.1 None n
  | rs => fold_left (fun n r => add (Ref_GroundPrefix (r_ref r)) (Some r) n) rs n
  end.
Definition SystemDocumentKey : value := Str "system".
Definition NewRuleTree (mods : list module) : TreeNode :=
  sort (hide [Var "data"; SystemDocumentKey] (fold_left (fun n m => add_module m n) mods (Tree [] [] false))).

(** [isVirtual]: the path meets a rule, or ends inside the tree. *)
Fixpoint isVirtual (n : TreeNode) (ref : list value) : bool :=
  match ref with
  | [] => true
  | k :: ref =>
      match Child n k with
      | None => false
      | Some c => match Values c with [] => isVirtual c ref | _ => true end
      end
  end.

(** ** Rule indices *)

(** The values of a node and of those below it. *)
Fixpoint all_values (n : TreeNode) : list rule :=
  let 'Tree vs l _ := n in
  vs ++ (fix go l := match l with [] => [] | (_, c) :: l => all_values c ++ go l end) l.

(** [buildRuleIndices]: the rules of the indices by path.  The last rule of a node decides
    whether the rules below it go into its index.  [else_of] is the chain of a rule. *)
Definition last_nonground (rules : list rule) : bool := fold_left (fun _ r => negb (r_ground r)) rules false.
Definition node_rules (n : TreeNode) : list rule :=
  Values n ++ (if last_nonground (Values n) then concat (map (fun kc => all_values kc.2) (Children n)) else []).
Fixpoint indexed_rules (n : TreeNode) : list (list value * list rule) :=
  let 'Tree vs l _ := n in
  let below := (fix go l := match l with [] => [] | (_, c) :: l => indexed_rules c ++ go l end) l in
  match vs with
  | [] => below
  | r :: _ => (Ref_GroundPrefix (r_ref r), node_rules n) :: if last_nonground vs then [] else below
  end.
