(* ===== verification/Bindings.v ===== *)
(** Variable bindings of the evaluator: [src/topdown/bindings.go].

    A [*bindings] is a pointer into a store, [None] being the nil pointer; the
    keys are terms that hold variables, so a key is a variable name.  A call on
    a nil pointer that the code does not guard against is a panic, which the
    operations report as [None]. *)
From Stdlib Require Import ZArith Lia String.
From stdpp Require Import base gmap list strings pretty.
From S2P Require Import Prelude SortedKeys Value Containers.

(** ** bindingsArrayHashmap *)
Definition maxLinearScan : nat := 16.

Section ArrayHashmap.
Context {V : Type}.

(** [hm_a] holds the slots of the array that have been written, in order; the
    slots from [hm_n] on are stale. *)
Record bindingsArrayHashmap : Type := MkHashmap {
  hm_n : nat;
  hm_a : option (list (string * V));
  hm_m : option (gmap string V);
}.

Definition newBindingsArrayHashmap : bindingsArrayHashmap := MkHashmap 0 None None.

(** The scan of [find] over the first [n] slots. *)
Fixpoint find_from (i n : nat) (a : list (string * V)) (x : string) : option nat :=
  match n, a with
  | S n, (y, _) :: a => if String.eqb y x then Some i else find_from (S i) n a x
  | _, _ => None
  end.
Definition hm_find (b : bindingsArrayHashmap) (x : string) : option nat :=
  match hm_a b with
  | Some a => find_from 0 (hm_n b) a x
  | None => None
  end.

(** Writing slot [i] of the array. *)
Definition set_slot (a : list (string * V)) (i : nat) (kv : string * V) : list (string * V) :=
  if (i <? length a)%nat then <[i := kv]> a else a ++ [kv].

Definition hm_Put (b : bindingsArrayHashmap) (x : string) (v : V) : bindingsArrayHashmap :=
  match hm_m b with
  | None =>
      let a := default [] (hm_a b) in
      match hm_find b x with
      | Some i => MkHashmap (hm_n b) (Some (set_slot a i (x, v))) None
      | None =>
          if (hm_n b <? maxLinearScan)%nat
          then MkHashmap (S (hm_n b)) (Some (set_slot a (hm_n b) (x, v))) None
          else MkHashmap 0 (Some a)
                 (Some (<[x := v]> (fold_left (fun m kv => <[kv.1 := kv.2]> m) a ∅)))
      end
  | Some m => MkHashmap (hm_n b) (hm_a b) (Some (<[x := v]> m))
  end.

Definition hm_Get (b : bindingsArrayHashmap) (x : string) : option V :=
  match hm_m b with
  | None =>
      match hm_find b x with
      | Some i => snd <$> default [] (hm_a b) !! i
      | None => None
      end
  | Some m => m !! x
  end.

Definition hm_Delete (b : bindingsArrayHashmap) (x : string) : bindingsArrayHashmap :=
  match hm_m b with
  | None =>
      match hm_find b x with
      | Some i =>
          let n := (hm_n b - 1)%nat in
          let a := default [] (hm_a b) in
          let a := match a !! n with
                   | Some last => if (i <? n)%nat then <[i := last]> a else a
                   | None => a
                   end in
          MkHashmap n (Some a) None
      | None => b
      end
  | Some m => MkHashmap (hm_n b) (hm_a b) (Some (delete x m))
  end.

(** The entries in the order of [Iter]; [order] is the iteration order of the
    Go map. *)
Definition hm_Iter (order : list string) (b : bindingsArrayHashmap) : list (string * V) :=
  match hm_m b with
  | None => take (hm_n b) (default [] (hm_a b))
  | Some m => omap (fun x => pair x <$> m !! x) order
  end.
End ArrayHashmap.
Arguments bindingsArrayHashmap : clear implicits.

(** *** The hash map is a finite map *)
Section Refinement.
Context {V : Type}.
Implicit Types b : bindingsArrayHashmap V.

Definition live b : list (string * V) := take (hm_n b) (default [] (hm_a b)).

Definition hm_map b : gmap string V :=
  match hm_m b with Some m => m | None => list_to_map (live b) end.

Definition hm_wf b : Prop :=
  hm_m b = None ->
  (hm_n b <= length (default [] (hm_a b)))%nat /\ (length (default [] (hm_a b)) <= maxLinearScan)%nat /\
  NoDup (map fst (live b)) /\ (hm_a b = None -> hm_n b = 0%nat).

Lemma find_from_spec n : forall i (a : list (string * V)) x, (n <= length a)%nat ->
  match find_from i n a x with
  | Some j => (i <= j)%nat /\ (j - i < n)%nat /\ exists v, a !! (j - i)%nat = Some (x, v)
  | None => x ∉ map fst (take n a)
  end.
Proof.
  induction n as [|n IH]; intros i a x Hn; simpl; [by destruct a; apply not_elem_of_nil|].
  destruct a as [|[y v] a]; simpl in Hn; [lia|]. simpl. destruct (String.eqb y x) eqn:E.
  - apply String.eqb_eq in E as ->. rewrite Nat.sub_diag. split_ands; [lia|lia|]. by exists v.
  - specialize (IH (S i) a x ltac:(lia)). destruct (find_from (S i) n a x) as [j|].
    + destruct IH as (H1 & H2 & v' & H3). split_ands; [lia|lia|]. exists v'.
      replace (j - i)%nat with (S (j - S i)) by lia. done.
    + rewrite elem_of_cons. intros [->|H]; [by rewrite String.eqb_refl in E|done].
Qed.

Lemma hm_find_spec b x : hm_wf b -> hm_m b = None ->
  match hm_find b x with
  | Some i => (i < hm_n b)%nat /\ exists v, default [] (hm_a b) !! i = Some (x, v)
  | None => x ∉ map fst (live b)
  end.
Proof.
  intros W M. destruct (W M) as (H1 & _ & _ & H4). unfold hm_find, live in *.
  destruct (hm_a b) as [a|]; simpl in *.
  - pose proof (find_from_spec (hm_n b) 0 a x H1) as F. destruct (find_from _ _ _ _) as [i|]; [|done].
    destruct F as (_ & F1 & v & F2). rewrite Nat.sub_0_r in *. split; [lia|]. by exists v.
  - rewrite (H4 eq_refl). apply not_elem_of_nil.
Qed.

Lemma live_lookup b i : (i < hm_n b)%nat -> live b !! i = default [] (hm_a b) !! i.
Proof. intros H. unfold live. by rewrite lookup_take_lt. Qed.

(** The entry at a live slot is the binding of its key. *)
Lemma live_Some b i x v : hm_wf b -> hm_m b = None -> (i < hm_n b)%nat ->
  default [] (hm_a b) !! i = Some (x, v) -> hm_map b !! x = Some v.
Proof.
  intros W M Hi H. destruct (W M) as (_ & _ & N & _). unfold hm_map. rewrite M.
  apply elem_of_list_to_map; [exact N|]. rewrite <- live_lookup in H by done.
  by eapply list_elem_of_lookup_2.
Qed.

Lemma hm_Get_ok b x : hm_wf b -> hm_Get b x = hm_map b !! x.
Proof.
  intros W. unfold hm_Get. destruct (hm_m b) as [m|] eqn:M; [unfold hm_map; by rewrite M|].
  pose proof (hm_find_spec b x W M) as F. destruct (hm_find b x) as [i|].
  - destruct F as (Hi & v & Hv). rewrite Hv. simpl. symmetry. by eapply live_Some.
  - unfold hm_map. rewrite M. symmetry. by apply not_elem_of_list_to_map_1.
Qed.

(** *** Updates of the array part *)
Lemma list_to_map_set (l : list (string * V)) i x v w :
  NoDup (map fst l) -> l !! i = Some (x, w) ->
  list_to_map (M := gmap string V) (<[i := (x, v)]> l) = <[x := v]> (list_to_map l) /\
  map fst (<[i := (x, v)]> l) = map fst l.
Proof.
  intros N H. pose proof (lookup_lt_Some _ _ _ H) as Hl.
  assert (K : map fst (<[i := (x, v)]> l) = map fst l).
  { rewrite (list_fmap_insert fst). apply list_insert_id. by rewrite list_lookup_fmap, H. }
  split; [|done].
  assert (P1 : l ≡ₚ (x, w) :: (take i l ++ drop (S i) l)).
  { rewrite <- (take_drop_middle l i (x, w) H) at 1. by rewrite <- Permutation_middle. }
  assert (P2 : <[i := (x, v)]> l ≡ₚ (x, v) :: (take i l ++ drop (S i) l)).
  { rewrite insert_take_drop by done. by rewrite <- Permutation_middle. }
  rewrite (list_to_map_proper _ _ (eq_ind_r (fun k => NoDup k) N K) P2).
  rewrite (list_to_map_proper _ _ N P1). simpl. by rewrite insert_insert_eq.
Qed.

Lemma swap_remove_perm {A} (l : list A) i n y z :
  length l = S n -> l !! i = Some y -> l !! n = Some z ->
  y :: take n (if (i <? n)%nat then <[i := z]> l else l) ≡ₚ l.
Proof.
  intros Hl Hi Hn. pose proof (lookup_lt_Some _ _ _ Hi) as Hi'.
  assert (Dn : drop n l = [z]).
  { rewrite (drop_S l z n Hn), drop_ge by lia. done. }
  destruct (i <? n)%nat eqn:C.
  - apply Nat.ltb_lt in C. rewrite take_insert_lt by done.
    set (t := take n l). assert (Ht : t !! i = Some y) by (unfold t; by rewrite lookup_take_lt).
    assert (L : l = t ++ [z]) by (unfold t; by rewrite <- Dn, take_drop).
    clearbody t. subst l. rewrite insert_take_drop by (by eapply lookup_lt_Some).
    rewrite <- (take_drop_middle t i y Ht) at 3.
    rewrite <- (Permutation_middle (take i t)), <- (Permutation_middle (take i t)). simpl.
    apply perm_skip. by rewrite <- Permutation_cons_append.
  - apply Nat.ltb_ge in C. assert (i = n) as -> by lia. assert (y = z) as -> by congruence.
    rewrite <- (take_drop n l) at 2. rewrite Dn. by rewrite Permutation_app_comm.
Qed.

Lemma hm_Put_ok b x v : hm_wf b -> hm_wf (hm_Put b x v) /\ hm_map (hm_Put b x v) = <[x := v]> (hm_map b).
Proof.
  intros W. unfold hm_Put. destruct (hm_m b) as [m|] eqn:M.
  { split; [done|]. unfold hm_map. by rewrite M. }
  pose proof (hm_find_spec b x W M) as F. destruct (W M) as (H1 & H2 & N & H4).
  unfold hm_map. rewrite M. set (a := default [] (hm_a b)) in *. destruct (hm_find b x) as [i|].
  - destruct F as (Hi & w & Hw). unfold hm_wf, live, set_slot. cbn [hm_m hm_n hm_a default].
    rewrite (proj2 (Nat.ltb_lt i (length a))) by lia. unfold id.
    rewrite !length_insert, !take_insert_lt by done. fold a.
    destruct (list_to_map_set (take (hm_n b) a) i x v w N) as [E1 E2];
      [by rewrite lookup_take_lt|].
    split; [|exact E1]. intros _. rewrite E2. done.
  - assert (La : live b = take (hm_n b) a) by done. rewrite La in *.
    destruct (hm_n b <? maxLinearScan)%nat eqn:C.
    + apply Nat.ltb_lt in C. unfold hm_wf, live. cbn [hm_m hm_n hm_a default]. unfold id.
      assert (T : take (S (hm_n b)) (set_slot a (hm_n b) (x, v)) = take (hm_n b) a ++ [(x, v)] /\
        (S (hm_n b) <= length (set_slot a (hm_n b) (x, v)) <= maxLinearScan)%nat).
      { unfold set_slot. destruct (hm_n b <? length a)%nat eqn:D.
        - apply Nat.ltb_lt in D. rewrite length_insert. split; [|lia].
          rewrite (take_S_r _ _ (x, v)) by (by apply list_lookup_insert_eq).
          by rewrite take_insert_ge.
        - apply Nat.ltb_ge in D. rewrite length_app. simpl. split; [|lia].
          rewrite take_ge by (rewrite length_app; simpl; lia). by rewrite (take_ge a) by lia. }
      destruct T as [T1 T2]. rewrite T1. split.
      * intros _. split_ands; [lia|lia| |done]. rewrite map_app. simpl.
        apply NoDup_app. split_ands; [done| |apply NoDup_singleton].
        intros y Hy. rewrite list_elem_of_singleton. by intros ->.
      * rewrite list_to_map_snoc by exact F. done.
    + apply Nat.ltb_ge in C. split; [done|]. cbn [hm_m]. f_equal.
      rewrite take_ge by lia. rewrite take_ge in N by lia. clear -N.
      assert (G : forall (l : list (string * V)) m, NoDup (map fst l) ->
        fold_left (fun m kv => <[kv.1 := kv.2]> m) l m = list_to_map (M := gmap string V) l ∪ m).
      { induction l as [|[k w] l IH]; intros m Nd; simpl; [by rewrite (left_id_L ∅ (∪))|].
        apply NoDup_cons in Nd as [Nk Nd]. rewrite IH by done.
        rewrite <- insert_union_l, insert_union_r; [done|]. by apply not_elem_of_list_to_map_1. }
      rewrite G by done. by rewrite (right_id_L ∅ (∪)).
Qed.

Lemma hm_Delete_ok b x : hm_wf b -> hm_wf (hm_Delete b x) /\ hm_map (hm_Delete b x) = delete x (hm_map b).
Proof.
  intros W. unfold hm_Delete. destruct (hm_m b) as [m|] eqn:M.
  { split; [done|]. unfold hm_map. by rewrite M. }
  pose proof (hm_find_spec b x W M) as F. destruct (hm_find b x) as [i|].
  2:{ split; [done|]. unfold hm_map. rewrite M, delete_id; [done|]. by apply not_elem_of_list_to_map_1. }
  destruct (W M) as (H1 & H2 & N & H4). destruct F as (Hi & w & Hw).
  unfold hm_map. rewrite M. unfold hm_wf, live in *. cbn [hm_m hm_n hm_a].
  set (a := default [] (hm_a b)) in *. cbn [from_option]. unfold id. destruct (hm_n b) as [|n]; [lia|].
  replace (S n - 1)%nat with n by lia.
  destruct (lookup_lt_is_Some_2 a n ltac:(lia)) as [z Hz]. rewrite Hz.
  assert (P : (x, w) :: take n (if (i <? n)%nat then <[i := z]> a else a) ≡ₚ take (S n) a).
  { rewrite <- (swap_remove_perm (take (S n) a) i n (x, w) z).
    - destruct (i <? n)%nat eqn:C; [|by rewrite take_take, Nat.min_l by lia].
      apply Nat.ltb_lt in C. rewrite !take_insert_lt, take_take, Nat.min_l by lia. done.
    - rewrite length_take. lia.
    - by rewrite lookup_take_lt.
    - rewrite lookup_take_lt by lia. done. }
  assert (N' : NoDup (map fst ((x, w) :: take n (if (i <? n)%nat then <[i := z]> a else a)))).
  { by rewrite P. }
  assert (E : list_to_map (M := gmap string V) ((x, w) :: take n (if (i <? n)%nat then <[i := z]> a else a)) =
    list_to_map (take (S n) a)) by (apply list_to_map_proper; [exact N'|exact P]).
  rewrite <- E. clear E. simpl in N'. apply NoDup_cons in N' as [Nx Nt]. split.
  - intros _. assert (L : length (if (i <? n)%nat then <[i := z]> a else a) = length a)
      by (destruct (i <? n)%nat; [by rewrite length_insert|done]).
    rewrite L. split_ands; [lia|lia|done|done].
  - simpl. rewrite delete_insert_eq. symmetry. apply delete_id. by apply not_elem_of_list_to_map_1.
Qed.

Lemma hm_wf_new : hm_wf newBindingsArrayHashmap.
Proof. intros _. simpl. split_ands; [lia|unfold maxLinearScan; lia|apply NoDup_nil_2|done]. Qed.

Lemma hm_Iter_ok b order : hm_wf b ->
  (forall x, x ∈ order <-> is_Some (hm_map b !! x)) -> NoDup order ->
  hm_Iter order b ≡ₚ map_to_list (hm_map b).
Proof.
  intros W Ho Nd. unfold hm_Iter, hm_map in *. destruct (hm_m b) as [m|] eqn:M.
  - apply NoDup_Permutation; [|apply NoDup_map_to_list|].
    + clear Ho. induction Nd as [|x l Hx Nd IH]; simpl; [apply NoDup_nil_2|].
      destruct (m !! x) as [v|]; simpl; [|done]. apply NoDup_cons. split; [|done].
      rewrite list_elem_of_omap. intros (y & Hy & E). destruct (m !! y); [|done]. simplify_eq/=. done.
    + intros [x v]. rewrite list_elem_of_omap, elem_of_map_to_list. split.
      * intros (y & Hy & E). destruct (m !! y) eqn:My; simplify_eq/=. done.
      * intros E. exists x. rewrite Ho, E. split; [by eexists|done].
  - fold (live b). symmetry. apply map_to_list_to_map. by destruct (W M) as (_ & _ & N & _).
Qed.
End Refinement.

(** Operations on the hash map, and on the finite map that it stands for. *)
Inductive hm_op (V : Type) : Type :=
| HPut (x : string) (v : V)
| HDelete (x : string).
Arguments HPut {V} x v.
Arguments HDelete {V} x.

Definition hm_run {V} (os : list (hm_op V)) : bindingsArrayHashmap V :=
  fold_left (fun b o => match o with HPut x v => hm_Put b x v | HDelete x => hm_Delete b x end)
    os newBindingsArrayHashmap.
Definition map_run {V} (os : list (hm_op V)) : gmap string V :=
  fold_left (fun m o => match o with HPut x v => <[x := v]> m | HDelete x => delete x m end) os ∅.

Lemma hm_run_ok {V} (os : list (hm_op V)) : hm_wf (hm_run os) /\ hm_map (hm_run os) = map_run os.
Proof.
  unfold hm_run, map_run. assert (W : hm_wf (V := V) newBindingsArrayHashmap) by apply hm_wf_new.
  assert (E : hm_map (V := V) newBindingsArrayHashmap = ∅) by done. revert W E.
  generalize (newBindingsArrayHashmap (V := V)). generalize (∅ : gmap string V).
  induction os as [|o os IH]; intros m b W E; simpl; [done|]. apply IH.
  - destruct o; [by apply hm_Put_ok|by apply hm_Delete_ok].
  - destruct o as [x v|x]; [rewrite (proj2 (hm_Put_ok b x v W))|rewrite (proj2 (hm_Delete_ok b x W))];
      by rewrite E.
Qed.

(** The bindings table, an array that is scanned linearly up to 16 entries
    and a hash map from then on, behaves as a finite map through any sequence of
    puts and deletes: [Get] is its lookup and [Iter] visits each binding once. *)
Theorem bindings_table_refines_map {V} (os : list (hm_op V)) (order : list string) (x : string) :
  hm_Get (hm_run os) x = map_run os !! x /\
  (NoDup order -> (forall y, y ∈ order <-> is_Some (map_run os !! y)) ->
   hm_Iter order (hm_run os) ≡ₚ map_to_list (map_run os)).
Proof.
  destruct (hm_run_ok os) as [W E]. rewrite <- E. split; [by apply hm_Get_ok|].
  intros Nd Ho. by apply hm_Iter_ok.
Qed.

(** ** bindings *)
Record bvalue : Type := MkBvalue { bv_u : option nat; bv_v : value }.
Record bindings : Type := MkBindings { b_id : N; b_values : bindingsArrayHashmap bvalue }.
Definition newBindings (id : N) : bindings := MkBindings id newBindingsArrayHashmap.

(** The store that the pointers point into. *)
Abbreviation heap := (gmap nat bindings).

Definition b_get (h : heap) (u : option nat) (x : string) : option bvalue :=
  match u with
  | None => None
  | Some p => match h !! p with Some b => hm_Get (b_values b) x | None => None end
  end.

Definition b_update (h : heap) (u : option nat) (f : bindingsArrayHashmap bvalue -> bindingsArrayHashmap bvalue) :
    option heap :=
  match u with
  | None => None
  | Some p =>
      match h !! p with
      | Some b => Some (<[p := MkBindings (b_id b) (f (b_values b))]> h)
      | None => None
      end
  end.

(** [bind] sets up the undo record [(a, u)]; [Undo] deletes that key. *)
Definition b_bind (h : heap) (u : option nat) (x : string) (b : value) (other : option nat) : option heap :=
  b_update h u (fun values => hm_Put values x (MkBvalue other b)).
Definition b_delete (h : heap) (u : option nat) (x : string) : option heap :=
  b_update h u (fun values => hm_Delete values x).

(** The number of bindings in the store, which bounds the length of a chain of
    variables. *)
Definition b_count (h : heap) : nat :=
  map_fold (fun _ b n => size (hm_map (b_values b)) + n)%nat 0%nat h.

Fixpoint apply_fuel (fuel : nat) (h : heap) (u : option nat) (a : value) : option (value * option nat) :=
  match fuel with
  | O => None
  | S fuel =>
      match a with
      | Var x =>
          match b_get h u x with
          | None => Some (a, u)
          | Some val => apply_fuel fuel h (bv_u val) (bv_v val)
          end
      | _ => Some (a, u)
      end
  end.
Definition b_apply (h : heap) (u : option nat) (a : value) : option (value * option nat) :=
  apply_fuel (S (b_count h)) h u a.

Definition is_root_name (x : string) : bool := String.eqb x "data" || String.eqb x "input".

(** Variables of other bindings than the caller's get the id as a suffix. *)
Definition namespaceVar (h : heap) (u : option nat) (x : string) (caller : option nat) : option value :=
  match caller with
  | None => Some (Var x)
  | Some c =>
      if bool_decide (u = Some c) || is_root_name x then Some (Var x)
      else match u with
           | None => None
           | Some p => match h !! p with
                       | Some b => Some (Var (x +:+ pretty (b_id b)))
                       | None => None
                       end
           end
  end.

(** [NewArray], [object.Map] and [set.Map] of the plugged elements.  The fuel
    bounds the nesting of the result. *)
Fixpoint plugNamespaced (fuel : nat) (h : heap) (u : option nat) (a : value) (caller : option nat) :
    option value :=
  match fuel with
  | O => None
  | S fuel =>
      match a with
      | Var x =>
          match b_get h u x with
          | None => namespaceVar h u x caller
          | Some val =>
              match b_apply h (bv_u val) (bv_v val) with
              | Some (b, next) => plugNamespaced fuel h next b caller
              | None => None
              end
          end
      | Array l =>
          if IsGround a then Some a
          else option_map Array (mapM (fun x => plugNamespaced fuel h u x caller) l)
      | Object kvs =>
          if IsGround a then Some a
          else option_map (fun kvs => Object (fold_left (fun acc kv => obj_insert kv.1 kv.2 acc) kvs []))
                 (mapM (fun kv => match plugNamespaced fuel h u kv.1 caller, plugNamespaced fuel h u kv.2 caller with
                                  | Some k, Some v => Some (k, v)
                                  | _, _ => None
                                  end) kvs)
      | SetV keys =>
          if IsGround a then Some a
          else option_map (fun keys => SetV (fold_left (fun acc x => set_insert x acc) keys []))
                 (mapM (fun x => plugNamespaced fuel h u x caller) keys)
      | Ref ts => option_map Ref (mapM (fun x => plugNamespaced fuel h u x caller) ts)
      | _ => Some a
      end
  end.
Definition Plug (fuel : nat) (h : heap) (u : option nat) (a : value) : option value :=
  plugNamespaced fuel h u a None.
