(* ===== verification/Unify.v ===== *)
(** Unification in the evaluator: [biunify] and its helpers in
    [src/topdown/eval.go], on the bindings of Bindings.v.

    The code is in continuation-passing style: [iter] is called with the
    bindings extended, and the bindings are undone when it returns.  A
    computation [K] takes the evaluator's state and gives the state it leaves
    and the error it returns ([None] for nil); it is [None] when the code panics
    or the fuel, which bounds the nesting of the terms, runs out.  The iterators
    over object keys are shared between the invocations of a continuation, so
    their positions live in the state.

    References, comprehensions and the terms saved by partial evaluation are
    handed to the parts of the evaluator that treat them, which are arguments
    here; the save set is one too. *)
From Stdlib Require Import ZArith Lia String.
From stdpp Require Import base gmap list strings.
From S2P Require Import Prelude SortedKeys Value Containers SetTable ObjectTable EvalCache Bindings.

(** What the evaluator keeps besides the bindings: the variables that closures of
    the code assign ([cells]), the next query identifier of [queryIDFactory], the
    errors of built-in functions, and what all evaluators of a query share ([common]).
    Unification does not touch them. *)
Record env : Type := MkEnv {
  cells : list value;
  curr : N;
  errs : list string;
  common : shared;
}.

Record ustate : Type := MkUstate {
  us_heap : heap;
  us_iters : list nat;
  us_env : env;
}.
Definition set_heap (st : ustate) (h : heap) : ustate := MkUstate h (us_iters st) (us_env st).
Definition set_iters (st : ustate) (l : list nat) : ustate := MkUstate (us_heap st) l (us_env st).

Section Unify.
Context {E : Type}.
Definition K : Type := ustate -> option (ustate * option E).

Definition return_nil : K := fun st => Some (st, None).

Context (Contains ContainsRecursive : ustate -> value -> option nat -> bool).
Context (saveUnify biunifyRef : value -> value -> option nat -> option nat -> K -> K).
Context (biunifyComprehension : value -> value -> option nat -> option nat -> bool -> K -> K).

Definition is_ref (v : value) : bool := match v with Ref _ => true | _ => false end.
Definition is_set (v : value) : bool := match v with SetV _ => true | _ => false end.

(** [bind], [iter], [Undo]. *)
Definition bind_and_iter (u : option nat) (x : string) (b : value) (other : option nat) (iter : K) : K :=
  fun st =>
    match b_bind (us_heap st) u x b other with
    | None => None
    | Some h =>
        match iter (set_heap st h) with
        | None => None
        | Some (st', err) =>
            match b_delete (us_heap st') u x with
            | None => None
            | Some h' => Some (set_heap st' h', err)
            end
        end
    end.

Definition biunifyValues (fuel : nat) (a b : value) (b1 b2 : option nat) (iter : K) : K := fun st =>
  let saveA := if is_set a then ContainsRecursive st a b1 else Contains st a b1 in
  if negb (is_set a) && negb saveA && is_ref a then biunifyRef a b b1 b2 iter st else
  let saveB := if is_set b then ContainsRecursive st b b2 else Contains st b b2 in
  if negb (is_set b) && negb saveB && is_ref b then biunifyRef b a b2 b1 iter st else
  if saveA || saveB then saveUnify a b b1 b2 iter st else
  if IsComprehension a then biunifyComprehension a b b1 b2 false iter st else
  if IsComprehension b then biunifyComprehension b a b2 b1 true iter st else
  match a, b with
  | Var x, Var _ =>
      if bool_decide (b1 = b2) && Equal a b then iter st else bind_and_iter b1 x b b2 iter st
  | Var x, _ => bind_and_iter b1 x b b2 iter st
  | _, Var y => bind_and_iter b2 y a b1 iter st
  | SetV _, _ =>
      match Plug fuel (us_heap st) b1 a, Plug fuel (us_heap st) b2 b with
      | Some a, Some b => if Equal a b then iter st else return_nil st
      | _, _ => None
      end
  | _, _ => if Equal a b then iter st else return_nil st
  end.

(** [biunifyArraysRec]: [unify] is [biunify] on elements. *)
Fixpoint arrays_rec (unify : value -> value -> K -> K) (la lb : list value) (iter : K) : K :=
  match la, lb with
  | x :: la, y :: lb => unify x y (arrays_rec unify la lb iter)
  | [], _ => iter
  | _ :: _, [] => fun _ => None
  end.
Definition biunifyArrays (unify : value -> value -> K -> K) (la lb : list value) (iter : K) : K :=
  if (length la =? length lb)%nat then arrays_rec unify la lb iter else return_nil.

Definition nonGroundKeys (kvs : list (value * value)) : bool :=
  existsb (fun kv => negb (IsGround kv.1)) kvs.
Definition plugKeys (fuel : nat) (h : heap) (kvs : list (value * value)) (u : option nat) :
    option (list (value * value)) :=
  option_map (fun kvs => fold_left (fun acc kv => obj_insert kv.1 kv.2 acc) kvs [])
    (mapM (fun kv => match Plug fuel h u kv.1 with Some k => Some (k, kv.2) | None => None end) kvs).

(** [biunifyObjectsRec] with the iterator [c] over [keys]: every invocation
    takes the next key, wherever the iterator is by then.  It advances at each
    level, so [n], the number of keys, bounds the levels. *)
Fixpoint objects_rec (n : nat) (unify : value -> value -> K -> K) (a b : list (value * value))
    (keys : list value) (c : nat) (iter : K) : K := fun st =>
  let pos := default 0%nat (us_iters st !! c) in
  match keys !! pos with
  | None => iter st
  | Some key =>
      let st := set_iters st (<[c := S pos]> (us_iters st)) in
      match obj_get key b with
      | None => return_nil st
      | Some v2 =>
          match obj_get key a, n with
          | Some v1, S n => unify v1 v2 (objects_rec n unify a b keys c iter) st
          | _, _ => None
          end
      end
  end.
Definition biunifyObjects (fuel : nat) (unify : value -> value -> K -> K) (a b : list (value * value))
    (b1 b2 : option nat) (iter : K) : K := fun st =>
  if negb (length a =? length b)%nat then return_nil st else
  let h := us_heap st in
  match (if nonGroundKeys a then plugKeys fuel h a b1 else Some a),
        (if nonGroundKeys b then plugKeys fuel h b b2 else Some b) with
  | Some a, Some b =>
      objects_rec (length a) unify a b (map fst a) (length (us_iters st)) iter
        (set_iters st (us_iters st ++ [0%nat]))
  | _, _ => None
  end.

Fixpoint biunify (fuel : nat) (a b : value) (b1 b2 : option nat) (iter : K) : K := fun st =>
  match fuel with
  | O => None
  | S fuel =>
      match b_apply (us_heap st) b1 a, b_apply (us_heap st) b2 b with
      | Some (a, b1), Some (b, b2) =>
          let values := biunifyValues fuel a b b1 b2 iter in
          let unify x y k := biunify fuel x y b1 b2 k in
          match a with
          | Var _ | Ref _ | ArrayComprehension _ _ | SetComprehension _ _ | ObjectComprehension _ _ _ =>
              values st
          | Null => match b with Var _ | Null | Ref _ => values st | _ => return_nil st end
          | Boolean _ => match b with Var _ | Boolean _ | Ref _ => values st | _ => return_nil st end
          | Number _ => match b with Var _ | Number _ | Ref _ => values st | _ => return_nil st end
          | Str _ => match b with Var _ | Str _ | Ref _ => values st | _ => return_nil st end
          | Array la =>
              match b with
              | Var _ | Ref _ | ArrayComprehension _ _ => values st
              | Array lb => biunifyArrays unify la lb iter st
              | _ => return_nil st
              end
          | Object oa =>
              match b with
              | Var _ | Ref _ | ObjectComprehension _ _ _ => values st
              | Object ob => biunifyObjects fuel unify oa ob b1 b2 iter st
              | _ => return_nil st
              end
          | SetV _ => values st
          | Call _ => return_nil st
          end
      | _, _ => None
      end
  end.
End Unify.
