(* ===== verification/UnifySound.v ===== *)
(** Correctness of unification (definitions in Unify.v): when [biunify] calls
    its continuation, the bindings have exactly the solutions of the old
    bindings that also solve the equation; when it does not, there are none; and
    it leaves the bindings as they were. *)
From Stdlib Require Import ZArith Lia String.
From stdpp Require Import base gmap list strings.
From S2P Require Import Prelude SortedKeys Value Containers SetTable ObjectTable Bindings Unify.

(** ** The store as finite maps *)
Abbreviation vstore := (gmap nat (N * gmap string bvalue)).
Definition view (h : heap) : vstore := (fun b => (b_id b, hm_map (b_values b))) <$> h.
Definition heap_wf (h : heap) : Prop := forall p b, h !! p = Some b -> hm_wf (b_values b).
Definition vget (V : vstore) (u : option nat) (x : string) : option bvalue :=
  match u with
  | None => None
  | Some p => match V !! p with Some (_, m) => m !! x | None => None end
  end.
Definition vcount (V : vstore) : nat := map_fold (fun _ im n => size im.2 + n)%nat 0%nat V.

Lemma view_lookup h p : view h !! p = (fun b => (b_id b, hm_map (b_values b))) <$> h !! p.
Proof. apply lookup_fmap. Qed.

Lemma b_get_view h u x : heap_wf h -> b_get h u x = vget (view h) u x.
Proof.
  intros W. destruct u as [p|]; [|done]. unfold b_get, vget. rewrite view_lookup.
  destruct (h !! p) as [b|] eqn:E; [|done]. simpl. apply hm_Get_ok. by eapply W.
Qed.

Lemma b_count_view h : b_count h = vcount (view h).
Proof. unfold b_count, vcount, view. symmetry. exact (map_fold_fmap _ _ _ _). Qed.

(** Adding and removing a binding. *)
Definition vput (V : vstore) (p : nat) (x : string) (v : bvalue) : vstore :=
  alter (fun im => (im.1, <[x := v]> im.2)) p V.
Definition vdel (V : vstore) (p : nat) (x : string) : vstore :=
  alter (fun im => (im.1, delete x im.2)) p V.

Lemma b_bind_view h u x b other h' :
  heap_wf h -> b_bind h u x b other = Some h' ->
  exists p, u = Some p /\ is_Some (view h !! p) /\ heap_wf h' /\ view h' = vput (view h) p x (MkBvalue other b).
Proof.
  intros W. unfold b_bind, b_update. destruct u as [p|]; [|done].
  destruct (h !! p) as [bs|] eqn:Hp; [|done]. intros [= <-]. exists p.
  destruct (hm_Put_ok (b_values bs) x (MkBvalue other b) (W p bs Hp)) as [W' E'].
  split_ands; [done| | |].
  - rewrite view_lookup, Hp. by eexists.
  - intros q bq. destruct (decide (p = q)) as [<-|N].
    + rewrite lookup_insert_eq. by intros [= <-].
    + rewrite lookup_insert_ne by done. apply W.
  - unfold view, vput. rewrite fmap_insert. simpl. rewrite E'.
    apply map_eq. intros q. destruct (decide (p = q)) as [<-|N].
    + by rewrite lookup_insert_eq, lookup_alter_eq, lookup_fmap, Hp.
    + by rewrite lookup_insert_ne, lookup_alter_ne by done.
Qed.

Lemma b_delete_view h p x h' :
  heap_wf h -> b_delete h (Some p) x = Some h' -> heap_wf h' /\ view h' = vdel (view h) p x.
Proof.
  intros W. unfold b_delete, b_update. destruct (h !! p) as [bs|] eqn:Hp; [|done]. intros [= <-].
  destruct (hm_Delete_ok (b_values bs) x (W p bs Hp)) as [W' E']. split.
  - intros q bq. destruct (decide (p = q)) as [<-|N].
    + rewrite lookup_insert_eq. by intros [= <-].
    + rewrite lookup_insert_ne by done. apply W.
  - unfold view, vdel. rewrite fmap_insert. simpl. rewrite E'.
    apply map_eq. intros q. destruct (decide (p = q)) as [<-|N].
    + by rewrite lookup_insert_eq, lookup_alter_eq, lookup_fmap, Hp.
    + by rewrite lookup_insert_ne, lookup_alter_ne by done.
Qed.

Lemma vget_vput V p x v u y : is_Some (V !! p) ->
  vget (vput V p x v) u y = if decide (u = Some p /\ y = x) then Some v else vget V u y.
Proof.
  intros [[i m] Hp]. destruct u as [q|]; [|by rewrite decide_False by (by intros [? ?])]. cbn [vget].
  unfold vput. destruct (decide (p = q)) as [<-|N].
  - rewrite lookup_alter_eq, Hp. simpl. destruct (decide (y = x)) as [->|Nx].
    + rewrite lookup_insert_eq, decide_True by done. done.
    + rewrite lookup_insert_ne, decide_False by naive_solver. done.
  - rewrite lookup_alter_ne, decide_False by naive_solver. done.
Qed.

Lemma vdel_vput V p x v : vget V (Some p) x = None -> vdel (vput V p x v) p x = V.
Proof.
  intros H. unfold vdel, vput. apply map_eq. intros q. destruct (decide (p = q)) as [<-|N].
  - rewrite !lookup_alter_eq. simpl in H. destruct (V !! p) as [[i m]|]; [|done]. simpl in *.
    by rewrite delete_insert_id.
  - by rewrite !lookup_alter_ne.
Qed.

Lemma vcount_vput V p x v : is_Some (V !! p) -> vget V (Some p) x = None ->
  vcount (vput V p x v) = S (vcount V).
Proof.
  intros [[i m] Hp] H. simpl in H. rewrite Hp in H.
  assert (E1 : V = <[p := (i, m)]> (delete p V)) by (by rewrite insert_delete_id).
  assert (E2 : vput V p x v = <[p := (i, <[x := v]> m)]> (delete p V)).
  { apply map_eq. intros q. unfold vput. destruct (decide (p = q)) as [<-|N].
    - by rewrite lookup_alter_eq, Hp, lookup_insert_eq.
    - by rewrite lookup_alter_ne, lookup_insert_ne, lookup_delete_ne. }
  rewrite E2. rewrite E1 at 2. unfold vcount.
  rewrite !map_fold_insert_L by (try (intros; lia); apply lookup_delete_eq). simpl.
  rewrite map_size_insert_None by done. lia.
Qed.

(** ** Terms and their values

    The terms that unification handles by itself: scalars, variables, arrays,
    objects with ground keys and ground sets.  ([IsGround] keys and elements are
    what the code expects at this point; it plugs them first otherwise.) *)
Inductive plain : value -> Prop :=
| plain_scalar v : IsScalar v = true -> plain v
| plain_var x : plain (Var x)
| plain_array l : Forall plain l -> plain (Array l)
| plain_object kvs :
    ssorted Compare fst kvs -> Forall (fun kv => IsGround kv.1 = true) kvs ->
    Forall (fun kv => plain kv.2) kvs -> plain (Object kvs)
| plain_set keys : IsGround (SetV keys) = true -> plain (SetV keys).

(** The value of a term under an assignment to the variables of each bindings
    list. *)
Fixpoint ev (sigma : option nat -> string -> value) (u : option nat) (t : value) : value :=
  match t with
  | Var x => sigma u x
  | Array l => Array (map (ev sigma u) l)
  | Object kvs => Object (map (fun kv => (kv.1, ev sigma u kv.2)) kvs)
  | _ => t
  end.

(** An assignment solves the bindings: every bound variable has the value of its
    term. *)
Definition solves (sigma : option nat -> string -> value) (V : vstore) : Prop :=
  forall u x bv, vget V u x = Some bv -> Equal (sigma u x) (ev sigma (bv_u bv) (bv_v bv)) = true.

(** Chains of variables end. *)
Inductive chain (V : vstore) : option nat -> value -> nat -> Prop :=
| chain_term u t : (forall x, t <> Var x) -> chain V u t 0
| chain_free u x : vget V u x = None -> chain V u (Var x) 0
| chain_bound u x bv n :
    vget V u x = Some bv -> chain V (bv_u bv) (bv_v bv) n -> chain V u (Var x) (S n).

Record pre (st : ustate) : Prop := {
  pre_wf : heap_wf (us_heap st);
  pre_plain : forall u x bv, vget (view (us_heap st)) u x = Some bv -> plain (bv_v bv);
  pre_chain : forall u t, exists n, (n <= vcount (view (us_heap st)))%nat /\ chain (view (us_heap st)) u t n;
}.

Definition sview (st : ustate) : vstore := view (us_heap st).

(** *** apply *)
Lemma apply_chain h u t n : heap_wf h -> chain (view h) u t n -> forall fuel, (n < fuel)%nat ->
  exists t' u', apply_fuel fuel h u t = Some (t', u') /\
    (forall x, t' = Var x -> vget (view h) u' x = None) /\
    (forall sigma, solves sigma (view h) -> Equal (ev sigma u t) (ev sigma u' t') = true) /\
    ((forall u x bv, vget (view h) u x = Some bv -> plain (bv_v bv)) -> plain t -> plain t').
Proof.
  intros W C. induction C as [u t Ht|u x Hx|u x bv n Hx C IH]; intros [|fuel] Hf; try lia.
  - exists t, u. split_ands; [destruct t; try done; by destruct (Ht x)|by intros x ->; destruct (Ht x)| |done].
    intros sigma _. apply Equal_refl.
  - exists (Var x), u. simpl. rewrite b_get_view, Hx by done.
    split_ands; [done|by intros y [= <-]| |done]. intros sigma _. apply Equal_refl.
  - simpl. rewrite b_get_view, Hx by done.
    destruct (IH fuel ltac:(lia)) as (t' & u' & E1 & E2 & E3 & E4). exists t', u'.
    split_ands; [done|done| |].
    + intros sigma S. eapply Equal_trans; [by apply S|by apply E3].
    + intros P _. apply E4; [done|]. by eapply P.
Qed.

Lemma b_apply_ok st u t : pre st ->
  exists t' u', b_apply (us_heap st) u t = Some (t', u') /\
    (forall x, t' = Var x -> vget (sview st) u' x = None) /\
    (forall sigma, solves sigma (sview st) -> Equal (ev sigma u t) (ev sigma u' t') = true) /\
    (plain t -> plain t').
Proof.
  intros P. destruct (pre_chain st P u t) as (n & Hn & C).
  destruct (apply_chain _ _ _ _ (pre_wf st P) C (S (b_count (us_heap st)))) as (t' & u' & E1 & E2 & E3 & E4).
  { rewrite b_count_view. lia. }
  exists t', u'. split_ands; [done|done|done|]. apply E4. by apply (pre_plain st P).
Qed.

(** *** Binding a variable *)
Lemma chain_vput V p x b other u t n :
  is_Some (V !! p) -> vget V (Some p) x = None ->
  (forall y, b = Var y -> vget V other y = None /\ (other, y) <> (Some p, x)) ->
  chain V u t n -> exists m, (m <= S n)%nat /\ chain (vput V p x (MkBvalue other b)) u t m.
Proof.
  intros Hp Hx Hb C. induction C as [u t Ht|u y Hy|u y bv n Hy C IH].
  - exists 0%nat. split; [lia|by constructor].
  - destruct (decide (u = Some p /\ y = x)) as [[-> ->]|N].
    + exists 1%nat. split; [lia|]. eapply chain_bound; [by rewrite vget_vput, decide_True by done|]. simpl.
      destruct b as [| | | |z| | | | | | | |]; try (by constructor).
      destruct (Hb z eq_refl) as [H1 H2]. apply chain_free.
      rewrite vget_vput, decide_False by (done || (intros [-> ->]; done)). done.
    + exists 0%nat. split; [lia|]. apply chain_free. by rewrite vget_vput, decide_False.
  - destruct IH as (m & Hm & C'). exists (S m). split; [lia|]. eapply chain_bound; [|exact C'].
    rewrite vget_vput by done. rewrite decide_False; [done|]. intros [-> ->]. congruence.
Qed.

Lemma pre_bind st u x b other h :
  pre st -> plain b -> vget (sview st) u x = None ->
  (forall y, b = Var y -> vget (sview st) other y = None /\ (other, y) <> (u, x)) ->
  b_bind (us_heap st) u x b other = Some h ->
  exists p, u = Some p /\ pre (set_heap st h) /\
    view h = vput (sview st) p x (MkBvalue other b) /\
    forall sigma, solves sigma (view h) <->
      solves sigma (sview st) /\ Equal (sigma u x) (ev sigma other b) = true.
Proof.
  intros P Pb Hx Hb H. destruct (b_bind_view _ _ _ _ _ _ (pre_wf st P) H) as (p & -> & Hp & W & Vw).
  exists p. fold (sview st) in *. split_ands; [done| |done|].
  - split; cbn [us_heap set_heap]; [done| |].
    + intros u y bv. rewrite Vw, vget_vput by done. destruct (decide _); [by intros [= <-]|].
      apply (pre_plain st P).
    + intros u t. destruct (pre_chain st P u t) as (n & Hn & C).
      destruct (chain_vput _ p x b other u t n Hp Hx Hb C) as (m & Hm & C').
      exists m. rewrite Vw, vcount_vput by done. unfold sview in *. split; [lia|done].
  - intros sigma. rewrite Vw. split.
    + intros S. split.
      * intros u y bv Hy. apply S. rewrite vget_vput, decide_False by (done || (intros [-> ->]; congruence)). done.
      * apply (S (Some p) x (MkBvalue other b)). by rewrite vget_vput, decide_True.
    + intros [S1 S2] u y bv. rewrite vget_vput by done. destruct (decide _) as [[-> ->]|].
      * by intros [= <-].
      * apply S1.
Qed.

(** ** What a unification does

    [spec L st Eqn iter res]: from [st] the computation either calls [iter] once,
    in a state whose solutions are those of [st] that satisfy [Eqn], and returns
    what it returns, or returns nil because [Eqn] has no solution; the bindings
    are as before.  The iterators [L] that exist already are not moved before
    [iter] is called. *)
Section Spec.
Context {E : Type}.
Implicit Types iter : K (E := E).

Definition K_ok iter : Prop := forall st st' r, pre st -> iter st = Some (st', r) ->
  pre st' /\ sview st' = sview st.

Definition spec (L : list nat) (st : ustate) (Eqn : (option nat -> string -> value) -> Prop) iter
    (res : option (ustate * option E)) : Prop :=
  match res with
  | None => True
  | Some (st', r) =>
      pre st' /\ sview st' = sview st /\
      ((exists st1 st2, pre st1 /\ L `prefix_of` us_iters st1 /\
          (forall sigma, solves sigma (sview st1) <-> solves sigma (sview st) /\ Eqn sigma) /\
          iter st1 = Some (st2, r)) \/
       (r = None /\ forall sigma, solves sigma (sview st) -> ~ Eqn sigma))
  end.

Lemma spec_iff L st (P Q : (option nat -> string -> value) -> Prop) iter res :
  (forall sigma, solves sigma (sview st) -> (P sigma <-> Q sigma)) -> spec L st P iter res -> spec L st Q iter res.
Proof.
  intros H. unfold spec. destruct res as [[st' r]|]; [|done]. intros (P1 & P2 & P3).
  split_ands; [done|done|]. destruct P3 as [(st1 & st2 & Q1 & Q2 & Q3 & Q4)|[-> HQ]].
  - left. exists st1, st2. split_ands; [done|done| |done]. intros sigma. rewrite Q3. naive_solver.
  - right. split; [done|]. intros sigma S. rewrite <- H by done. by apply HQ.
Qed.

Lemma spec_iter L st (P : (option nat -> string -> value) -> Prop) iter : pre st -> L `prefix_of` us_iters st -> K_ok iter ->
  (forall sigma, solves sigma (sview st) -> P sigma) -> spec L st P iter (iter st).
Proof.
  intros Hst HL Hk HP. unfold spec. destruct (iter st) as [[st' r]|] eqn:I; [|done].
  destruct (Hk _ _ _ Hst I) as [H1 H2]. split_ands; [done|done|]. left. exists st, st'.
  split_ands; [done|done|naive_solver|done].
Qed.

Lemma spec_nil L st (P : (option nat -> string -> value) -> Prop) iter : pre st ->
  (forall sigma, solves sigma (sview st) -> ~ P sigma) -> spec L st P iter (return_nil st).
Proof. intros Hst HP. unfold spec, return_nil. split_ands; [done|done|]. by right. Qed.

(** First one equation, then the others in its continuation. *)
Lemma spec_seq L L' st (P Q : (option nat -> string -> value) -> Prop) (k : K (E := E)) iter res :
  spec L' st P k res ->
  (forall st1, pre st1 -> L' `prefix_of` us_iters st1 -> spec L st1 Q iter (k st1)) ->
  spec L st (fun sigma => P sigma /\ Q sigma) iter res.
Proof.
  intros H HQ. unfold spec in *. destruct res as [[st' r]|]; [|done].
  destruct H as (P1 & P2 & P3). split_ands; [done|done|].
  destruct P3 as [(st1 & st2 & Q1 & Q2 & Q3 & Q4)|[-> Hn]].
  - specialize (HQ st1 Q1 Q2). rewrite Q4 in HQ.
    destruct HQ as (_ & _ & [(st1' & st2' & R1 & R2 & R3 & R4)|[-> Hn]]).
    + left. exists st1', st2'. split_ands; [done|done| |done].
      intros sigma. rewrite R3, Q3. tauto.
    + right. split; [done|]. intros sigma S [HP HQ]. apply (Hn sigma); [|done]. by apply Q3.
  - right. split; [done|]. intros sigma S [HP _]. by apply (Hn sigma).
Qed.

Lemma spec_K_ok (k : K (E := E)) :
  (forall st, pre st -> exists L P iter, spec L st P iter (k st)) -> K_ok k.
Proof.
  intros H st st' r Hst Hk. destruct (H st Hst) as (L & P & iter & X). rewrite Hk in X. naive_solver.
Qed.

(** Only the bindings of the state matter. *)
Lemma spec_state L st st' (P : (option nat -> string -> value) -> Prop) iter res :
  sview st = sview st' -> spec L st' P iter res -> spec L st P iter res.
Proof. intros H. unfold spec. by rewrite H. Qed.

(** [bind], [iter], [Undo]. *)
Lemma spec_bind st u x b other iter :
  pre st -> K_ok iter -> plain b -> vget (sview st) u x = None ->
  (forall y, b = Var y -> vget (sview st) other y = None /\ (other, y) <> (u, x)) ->
  spec (us_iters st) st (fun sigma => Equal (sigma u x) (ev sigma other b) = true) iter
    (bind_and_iter u x b other iter st).
Proof.
  intros P Hk Pb Hx Hb. unfold bind_and_iter.
  destruct (b_bind (us_heap st) u x b other) as [h|] eqn:Bd; [|done].
  destruct (pre_bind st u x b other h P Pb Hx Hb Bd) as (p & -> & P1 & Vw & S1).
  destruct (iter _) as [[st' r]|] eqn:I; [|done].
  destruct (Hk _ _ _ P1 I) as [P2 V2].
  destruct (b_delete (us_heap st') (Some p) x) as [h'|] eqn:Dl; [|done].
  destruct (b_delete_view _ _ _ _ (pre_wf st' P2) Dl) as [W3 V3].
  assert (Vh : view h' = sview st).
  { rewrite V3. unfold sview in V2. cbn [us_heap set_heap] in V2. rewrite V2, Vw. by apply vdel_vput. }
  unfold spec. split_ands.
  - split; cbn [us_heap set_heap]; [done| |]; rewrite Vh; apply P.
  - exact Vh.
  - left. exists (set_heap st h), st'. split_ands; [done|done|exact S1|done].
Qed.
End Spec.

(** ** Equality of composite values *)
Lemma Equal_Array_map (f g : value -> value) la lb :
  Equal (Array (map f la)) (Array (map g lb)) = true <->
  Forall2 (fun x y => Equal (f x) (g y) = true) la lb.
Proof.
  rewrite Equal_true, Compare_unfold. simpl. rewrite slice_compare_eq_iff.
  rewrite Forall2_fmap. split; intros H; (eapply Forall2_impl; [exact H|]); intros x y; apply Equal_true.
Qed.

Lemma Equal_Object_map (f g : value -> value) a b :
  Equal (Object (map (fun kv => (kv.1, f kv.2)) a)) (Object (map (fun kv => (kv.1, g kv.2)) b)) = true <->
  Forall2 (fun x y => Compare x.1 y.1 = Eq /\ Equal (f x.2) (g y.2) = true) a b.
Proof.
  rewrite Equal_true, Compare_unfold. simpl. rewrite slice_compare_eq_iff.
  rewrite Forall2_fmap. unfold pair_compare. simpl.
  split; intros H; (eapply Forall2_impl; [exact H|]); intros x y; simpl; by rewrite cmp_then_eq, Equal_true.
Qed.

(** Sorted objects of one size correspond when each key of the first is found in the
    second with a related value. *)
Lemma Forall2_obj_get (R : value -> value -> Prop) (a b : list (value * value)) :
  ssorted Compare fst a -> ssorted Compare fst b -> length a = length b ->
  Forall2 (fun x y => Compare x.1 y.1 = Eq /\ R x.2 y.2) a b <->
  Forall (fun kv => exists v2, obj_get kv.1 b = Some v2 /\ R kv.2 v2) a.
Proof.
  intros Ha Hb L.
  assert (G : forall x y, y ∈ b -> Compare x y.1 = Eq -> obj_get x b = Some y.2).
  { intros x y Hy C. rewrite (obj_get_congr _ _ _ C). unfold obj_get.
    rewrite (proj2 (sfind_Some Compare fst y.1 b y (ssorted_distinct Compare fst b Hb))); [done|].
    split; [done|apply (cmp_refl Compare)]. }
  split; intros H.
  - apply Forall_forall. intros kv (i & Hi)%list_elem_of_lookup.
    destruct (Forall2_lookup_l _ _ _ _ _ H Hi) as (y & Hy & C & Q). exists y.2. split; [|done].
    apply G; [by eapply list_elem_of_lookup_2|done].
  - rewrite Forall_forall in H. assert (C : covers Compare fst a b).
    { intros x Hx. destruct (H x Hx) as (v2 & Hv & _). unfold obj_get in Hv.
      destruct (sfind Compare fst x.1 b) as [c|] eqn:F; [|done].
      apply (sfind_Some_1 Compare fst) in F as [F1 F2]. by exists c. }
    pose proof (covers_same_length Compare fst a b Ha Hb L C) as F.
    apply Forall2_same_length_lookup_2; [done|]. intros i x y Hx Hy.
    assert (Cxy := Forall2_lookup_lr _ _ _ _ _ _ F Hx Hy). split; [done|].
    destruct (H x) as (v2 & Hv & Q); [by eapply list_elem_of_lookup_2|].
    rewrite (G x.1 y) in Hv; [by simplify_eq|by eapply list_elem_of_lookup_2|done].
Qed.

Lemma Equal_Object_get (f g : value -> value) a b :
  ssorted Compare fst a -> ssorted Compare fst b -> length a = length b ->
  Forall2 (fun x y => Compare x.1 y.1 = Eq /\ Equal (f x.2) (g y.2) = true) a b <->
  Forall (fun kv => exists v2, obj_get kv.1 b = Some v2 /\ Equal (f kv.2) (g v2) = true) a.
Proof. apply (Forall2_obj_get (fun x y => Equal (f x) (g y) = true)). Qed.

(** ** Unification *)
Section Unification.
Context {E : Type} (Contains ContainsRecursive : ustate -> value -> option nat -> bool).
Context (saveUnify biunifyRef : value -> value -> option nat -> option nat -> K (E := E) -> K (E := E)).
Context (biunifyComprehension : value -> value -> option nat -> option nat -> bool -> K (E := E) -> K (E := E)).
(** Nothing is saved outside partial evaluation. *)
Context (HC : forall st v u, Contains st v u = false) (HCR : forall st v u, ContainsRecursive st v u = false).
Abbreviation values := (biunifyValues Contains ContainsRecursive saveUnify biunifyRef biunifyComprehension).
Abbreviation unif := (biunify Contains ContainsRecursive saveUnify biunifyRef biunifyComprehension).

(** The value of a scalar or a set does not depend on the assignment. *)
Lemma ev_const sigma u t : IsScalar t = true \/ is_set t = true -> ev sigma u t = t.
Proof. destruct t; simpl; intros [H|H]; congruence. Qed.

Lemma Plug_ground fuel h u t t' : IsGround t = true -> Plug fuel h u t = Some t' ->
  (is_set t = true -> t' = t) /\ sortOrder t' = sortOrder t.
Proof.
  unfold Plug. destruct fuel as [|fuel]; [done|]. intros G. cbn [plugNamespaced].
  destruct t; try discriminate G; rewrite ?G; try (by intros [= <-]).
  destruct (mapM _ ts); [|done]. simpl. by intros [= <-].
Qed.

Lemma Plug_sort fuel h u t t' : (forall x, t <> Var x) -> Plug fuel h u t = Some t' ->
  sortOrder t' = sortOrder t.
Proof.
  unfold Plug. destruct fuel as [|fuel]; [done|]. intros N. cbn [plugNamespaced].
  destruct t; try (by intros [= <-]); [by destruct (N x)|..];
    (destruct (IsGround _); [by intros [= <-]|]) || idtac;
    (destruct (mapM _ _); [|done]); simpl; by intros [= <-].
Qed.

Lemma values_spec fuel a b b1 b2 iter st :
  pre st -> K_ok iter -> plain a -> plain b ->
  (forall x, a = Var x -> vget (sview st) b1 x = None) ->
  (forall y, b = Var y -> vget (sview st) b2 y = None) ->
  (exists x, a = Var x) \/ (exists y, b = Var y) \/ (IsScalar a = true /\ IsScalar b = true) \/
    is_set a = true ->
  spec (us_iters st) st (fun sigma => Equal (ev sigma b1 a) (ev sigma b2 b) = true) iter
    (values fuel a b b1 b2 iter st).
Proof.
  intros P Hk Pa Pb Ha Hb D.
  assert (Ca : IsComprehension a = false /\ is_ref a = false) by (inversion Pa; subst; try done; by destruct a).
  assert (Cb : IsComprehension b = false /\ is_ref b = false) by (inversion Pb; subst; try done; by destruct b).
  destruct Ca as [Ca Ra], Cb as [Cb Rb].
  assert (Eq : forall (a b : value), (forall sigma, ev sigma b1 a = a) -> (forall sigma, ev sigma b2 b = b) ->
    spec (us_iters st) st (fun sigma => Equal (ev sigma b1 a) (ev sigma b2 b) = true) iter
      (if Equal a b then iter st else return_nil st)).
  { intros a' b' Ea Eb. destruct (Equal a' b') eqn:Q.
    - apply spec_iter; [done|done|done|]. intros sigma _. by rewrite Ea, Eb.
    - apply spec_nil; [done|]. intros sigma _. rewrite Ea, Eb, Q. done. }
  assert (BR : forall y, b = Var y -> (forall x, a <> Var x) ->
    spec (us_iters st) st (fun sigma => Equal (ev sigma b1 a) (ev sigma b2 b) = true) iter (bind_and_iter b2 y a b1 iter st)).
  { intros y -> Nv. eapply spec_iff; [|apply spec_bind; try done].
    - intros sigma _. simpl. by rewrite Equal_sym.
    - by apply Hb.
    - intros x ->. by destruct (Nv x). }
  unfold biunifyValues. rewrite !HC, !HCR, Ra, Rb, Ca, Cb, !andb_false_r. cbn [orb].
  replace (if is_set a then false else false) with false by (by destruct (is_set a)).
  replace (if is_set b then false else false) with false by (by destruct (is_set b)). cbn [orb].
  destruct a as [| | | |x| | | |ks| | | |]; try (by inversion Pa);
    try (destruct b; try (by inversion Pb); try (by apply BR); try (by apply Eq);
      by destruct D as [[? D]|[[? D]|[[? D]|D]]]).
  - (* a variable *)
    assert (Bd : (forall y, b = Var y -> (b2, y) <> (b1, x)) ->
      spec (us_iters st) st (fun sigma => Equal (ev sigma b1 (Var x)) (ev sigma b2 b) = true) iter (bind_and_iter b1 x b b2 iter st)).
    { intros N. apply spec_bind; try done; [by apply Ha|]. intros y Hy. split; [by apply Hb|by apply N]. }
    destruct b as [| | | |y| | | | | | | |]; try (by apply Bd).
    destruct (bool_decide (b1 = b2) && Equal (Var x) (Var y)) eqn:Q.
    + apply andb_true_iff in Q as [->%bool_decide_eq_true Q]. apply Equal_true in Q.
      assert (x = y) as ->. { rewrite Compare_unfold in Q. simpl in Q. by apply String.compare_eq_iff. }
      apply spec_iter; [done|done|done|]. intros sigma _. apply Equal_refl.
    + apply Bd. intros y' [= <-] [= -> ->]. by rewrite bool_decide_true, Equal_refl in Q.
  - (* a set *)
    assert (Gs : IsGround (SetV ks) = true) by (inversion Pa; subst; done).
    assert (Hs : (forall y, b <> Var y) -> spec (us_iters st) st (fun sigma => Equal (ev sigma b1 (SetV ks)) (ev sigma b2 b) = true) iter
      match Plug fuel (us_heap st) b1 (SetV ks), Plug fuel (us_heap st) b2 b with
      | Some a, Some b => if Equal a b then iter st else return_nil st
      | _, _ => None end).
    { intros Nv. destruct (Plug fuel _ b1 (SetV ks)) as [a'|] eqn:PA; [|done].
      destruct (Plug fuel _ b2 b) as [b'|] eqn:PB; [|done].
      destruct (Plug_ground _ _ _ _ _ Gs PA) as [-> _]; [|done]. destruct (is_set b) eqn:Sb.
      - assert (Gb : IsGround b = true) by (destruct b; try done; by inversion Pb).
        destruct (Plug_ground _ _ _ _ _ Gb PB) as [-> _]; [|done].
        apply Eq; intros sigma; apply ev_const; by right.
      - assert (Q : forall w, sortOrder w = sortOrder b -> Equal (SetV ks) w = false).
        { intros w Hw. destruct (Equal (SetV ks) w) eqn:Q; [|done].
          apply Equal_sortOrder in Q. rewrite Hw in Q. by destruct b. }
        rewrite Q by (by eapply Plug_sort). apply spec_nil; [done|]. intros sigma _. simpl.
        rewrite Q; [done|]. destruct b; try done. by destruct (Nv x). }
    destruct b; try (by apply Hs). by apply BR.
Qed.

(** *** Arrays and objects, over the unification of their elements *)
Section Elements.
Context (b1 b2 : option nat) (unify : value -> value -> K (E := E) -> K (E := E)).
Context (U : forall x y k st, pre st -> K_ok k -> plain x -> plain y ->
  spec (us_iters st) st (fun sigma => Equal (ev sigma b1 x) (ev sigma b2 y) = true) k (unify x y k st)).

Lemma unify_K_ok x y k : K_ok k -> plain x -> plain y -> K_ok (unify x y k).
Proof. intros Hk Hx Hy. apply spec_K_ok. intros st Hst. do 3 eexists. by apply U. Qed.

Lemma arrays_spec la : forall lb iter st, K_ok iter -> Forall plain la -> Forall plain lb ->
  length la = length lb -> pre st ->
  spec (us_iters st) st (fun sigma => Forall2 (fun x y => Equal (ev sigma b1 x) (ev sigma b2 y) = true) la lb)
    iter (arrays_rec unify la lb iter st).
Proof.
  induction la as [|x la IH]; intros [|y lb] iter st Hk Ha Hb Hl Hst; try discriminate Hl; simpl.
  - apply spec_iter; [done|done|done|]. intros. constructor.
  - apply Forall_cons in Ha as [Hx Ha]. apply Forall_cons in Hb as [Hy Hb]. injection Hl as Hl.
    eapply spec_iff; [intros sigma _; symmetry; apply Forall2_cons|].
    eapply spec_seq; [apply U; try done|].
    + apply spec_K_ok. intros st1 H1. do 3 eexists. by apply IH.
    + intros st1 H1 Hp. specialize (IH lb iter st1 Hk Ha Hb Hl H1).
      unfold spec in *. destruct (arrays_rec _ _ _ _ _) as [[st' r]|]; [|done].
      destruct IH as (I1 & I2 & [(s1 & s2 & J1 & J2 & J3 & J4)|I3]); split_ands; try done; [left|by right].
      exists s1, s2. split_ands; try done. by etransitivity.
Qed.

Context (oa ob : list (value * value)).
Context (Sa : ssorted Compare fst oa).
Context (Pa : Forall (fun kv => plain kv.2) oa) (Pb : Forall (fun kv => plain kv.2) ob).

Lemma obj_get_plain k v kvs : Forall (fun kv => plain kv.2) kvs -> obj_get k kvs = Some v -> plain v.
Proof.
  intros H. unfold obj_get. destruct (sfind Compare fst k kvs) as [[k' v']|] eqn:F; [|done].
  intros [= <-]. apply (sfind_Some_1 Compare fst) in F as [F _]. rewrite Forall_forall in H. by apply (H _ F).
Qed.

Lemma obj_get_at kvs i k v : ssorted Compare fst kvs -> kvs !! i = Some (k, v) -> obj_get k kvs = Some v.
Proof.
  intros Hs Hi. unfold obj_get. rewrite (proj2 (sfind_Some Compare fst k kvs (k, v) (ssorted_distinct Compare fst kvs Hs))).
  - done.
  - split; [by eapply list_elem_of_lookup_2|apply (cmp_refl Compare)].
Qed.

Lemma pre_iters st l : pre st -> pre (set_iters st l).
Proof. intros P. split; apply P. Qed.

Lemma objects_K_ok n c iter : K_ok iter -> K_ok (objects_rec n unify oa ob (map fst oa) c iter).
Proof.
  intros Hk. induction n as [|n IH]; intros st st' r Hst; simpl;
    (destruct (map fst oa !! _) as [key|]; [|by apply Hk]);
    (destruct (obj_get key ob) as [v2|] eqn:G2; [|intros [= <- <-]; split; [by apply pre_iters|done]]);
    (destruct (obj_get key oa) as [v1|] eqn:G1; [|done]); [done|].
  intros H. eapply unify_K_ok in H; [exact H|exact IH|exact (obj_get_plain _ _ _ Pa G1)|exact (obj_get_plain _ _ _ Pb G2)|].
  by apply pre_iters.
Qed.

Definition obj_eqn (sigma : option nat -> string -> value) (kv : value * value) : Prop :=
  exists v2, obj_get kv.1 ob = Some v2 /\ Equal (ev sigma b1 kv.2) (ev sigma b2 v2) = true.

Lemma objects_spec n c iter L : K_ok iter -> (length L <= c)%nat -> forall st pos, pre st ->
  L `prefix_of` us_iters st -> us_iters st !! c = Some pos ->
  spec L st (fun sigma => Forall (obj_eqn sigma) (drop pos oa)) iter
    (objects_rec n unify oa ob (map fst oa) c iter st).
Proof.
  intros Hk Hc. induction n as [|n IH]; intros st pos Hst HL Hpos; simpl; rewrite Hpos; simpl;
    rewrite list_lookup_fmap; (destruct (oa !! pos) as [[key v]|] eqn:Ho; simpl;
      [|apply spec_iter; try done; intros; rewrite drop_ge by (by apply lookup_ge_None); by apply Forall_nil]);
    rewrite (obj_get_at _ _ _ _ Sa Ho);
    (destruct (obj_get key ob) as [v2|] eqn:G2;
      [|eapply spec_state; [|apply spec_nil; [by apply pre_iters|]]; [done|];
        intros sigma _; rewrite (drop_S _ _ _ Ho), Forall_cons; intros [(w & Hw & _) _]; simpl in Hw; congruence]);
    [done|].
  set (st' := set_iters st (<[c := S pos]> (us_iters st))).
  assert (Hv : plain v) by (rewrite Forall_forall in Pa; apply (Pa (key, v)); by eapply list_elem_of_lookup_2).
  eapply spec_state with (st' := st'); [done|].
  eapply (spec_iff L st' (fun sigma => Equal (ev sigma b1 v) (ev sigma b2 v2) = true /\
    Forall (obj_eqn sigma) (drop (S pos) oa))).
  - intros sigma _. rewrite (drop_S _ _ _ Ho), Forall_cons. unfold obj_eqn at 2. simpl. naive_solver.
  - eapply spec_seq.
    + apply U; [by apply pre_iters|by apply objects_K_ok|done|exact (obj_get_plain _ _ _ Pb G2)].
    + intros st1 H1 Hp. apply IH; [done| |].
      * etransitivity; [|exact Hp]. destruct HL as [k Hk']. unfold st'. cbn [us_iters set_iters]. rewrite Hk'.
        rewrite insert_app_r_alt by lia. by eexists.
      * eapply prefix_lookup_Some; [|exact Hp]. unfold st'. cbn [us_iters set_iters].
        apply list_lookup_insert_eq. by eapply lookup_lt_Some.
Qed.
End Elements.

Lemma ground_keys kvs : Forall (fun kv => IsGround kv.1 = true) kvs -> nonGroundKeys kvs = false.
Proof.
  intros H. unfold nonGroundKeys. induction H as [|kv l Hkv H IH]; simpl; [done|]. by rewrite Hkv.
Qed.

Lemma biunifyObjects_spec fuel unify b1 b2 oa ob iter st :
  (forall x y k st, pre st -> K_ok k -> plain x -> plain y ->
     spec (us_iters st) st (fun sigma => Equal (ev sigma b1 x) (ev sigma b2 y) = true) k (unify x y k st)) ->
  K_ok iter -> plain (Object oa) -> plain (Object ob) -> pre st ->
  spec (us_iters st) st
    (fun sigma => Equal (ev sigma b1 (Object oa)) (ev sigma b2 (Object ob)) = true) iter
    (biunifyObjects (E := E) fuel unify oa ob b1 b2 iter st).
Proof.
  intros U Hk Ha Hb Hst. inversion Ha as [? D|x|l D|? Sa Ga Pa|]; subst; [done|].
  inversion Hb as [? D|x|l D|? Sb Gb Pb|]; subst; [done|]. unfold biunifyObjects.
  destruct (length oa =? length ob)%nat eqn:L; simpl.
  - apply Nat.eqb_eq in L. rewrite !ground_keys by done.
    eapply spec_iff; [|eapply (spec_state _ st (set_iters st (us_iters st ++ [0%nat]))); [done|];
      apply (objects_spec b1 b2 unify U oa ob Sa Pa Pb)].
    + intros sigma _. simpl. rewrite drop_0, Equal_Object_map. symmetry. by apply Equal_Object_get.
    + done.
    + done.
    + by apply pre_iters.
    + by eexists.
    + simpl. rewrite lookup_app_r, Nat.sub_diag by done. done.
  - apply spec_nil; [done|]. intros sigma _ H. apply Equal_Object_map, Forall2_length in H.
    by rewrite H, Nat.eqb_refl in L.
Qed.

Lemma biunify_spec fuel : forall a b b1 b2 iter st,
  pre st -> K_ok iter -> plain a -> plain b ->
  spec (us_iters st) st (fun sigma => Equal (ev sigma b1 a) (ev sigma b2 b) = true) iter
    (unif fuel a b b1 b2 iter st).
Proof.
  induction fuel as [|fuel IH]; intros a b b1 b2 iter st Hst Hk Pa Pb; [done|]. cbn [biunify].
  destruct (b_apply_ok st b1 a Hst) as (a' & b1' & -> & Fa & Ea & Pa').
  destruct (b_apply_ok st b2 b Hst) as (b' & b2' & -> & Fb & Eb & Pb').
  specialize (Pa' Pa). specialize (Pb' Pb).
  apply (spec_iff _ _ (fun sigma => Equal (ev sigma b1' a') (ev sigma b2' b') = true)).
  { intros sigma S. rewrite (Equal_cong _ _ _ (Ea sigma S)), (Equal_sym (ev sigma b1' a')),
      (Equal_sym (ev sigma b1' a')), (Equal_cong _ _ _ (Eb sigma S)). done. }
  clear a b Pa Pb Ea Eb. rename a' into a, b' into b, b1' into u1, b2' into u2.
  assert (Hv : (exists x, a = Var x) \/ (exists y, b = Var y) \/ (IsScalar a = true /\ IsScalar b = true) \/
    is_set a = true -> spec (us_iters st) st (fun sigma => Equal (ev sigma u1 a) (ev sigma u2 b) = true) iter
      (values fuel a b u1 u2 iter st)) by (intros; by apply values_spec).
  assert (Hn : (forall y, b <> Var y) -> sortOrder a <> sortOrder b -> (forall x, a <> Var x) ->
    spec (us_iters st) st (fun sigma => Equal (ev sigma u1 a) (ev sigma u2 b) = true) iter (return_nil st)).
  { intros Nb N Na. apply spec_nil; [done|]. intros sigma _ Q%Equal_sortOrder. apply N.
    destruct a; try (by destruct (Na x)); destruct b; try (by destruct (Nb x)); done. }
  destruct a; try (by inversion Pa'); try (by apply Hv; eauto);
    (destruct b; try (by inversion Pb'); try (by apply Hv; eauto); try (by apply Hn)).
  - unfold biunifyArrays. destruct (length elems =? length elems0)%nat eqn:L.
    + apply Nat.eqb_eq in L. eapply spec_iff; [intros sigma _; symmetry; apply Equal_Array_map|].
      apply (arrays_spec u1 u2); try done; [by intros; apply IH|by inversion Pa'|by inversion Pb'].
    + apply spec_nil; [done|]. intros sigma _ H. apply Equal_Array_map, Forall2_length in H.
      by rewrite H, Nat.eqb_refl in L.
  - apply biunifyObjects_spec; try done. by intros; apply IH.
Qed.
End Unification.
