(* ===== verification/UnifyTotal.v ===== *)
(** Unification terminates and does not panic on equations that have a solution
    (definitions in Unify.v, partial correctness in UnifySound.v). *)
From Stdlib Require Import ZArith Lia String.
From stdpp Require Import base gmap list strings.
From S2P Require Import Prelude SortedKeys Value Containers SetTable ObjectTable EvalCache Bindings.
From S2P Require Import Unify UnifySound.

(** ** The nesting of a value *)
Fixpoint bounded (n : nat) (v : value) : Prop :=
  match n with
  | O => match v with Array _ | Object _ | SetV _ => False | _ => True end
  | S n =>
      match v with
      | Array l | SetV l => Forall (bounded n) l
      | Object kvs => Forall (fun kv => bounded n kv.2) kvs /\ Forall (fun kv => bounded n kv.1) kvs
      | _ => True
      end
  end.

Lemma Equal_Set ts w :
  Equal (SetV ts) w = true -> exists ws, w = SetV ws /\ Forall2 (fun x y => Equal x y = true) ts ws.
Proof.
  intros H. pose proof (Equal_sortOrder _ _ H) as O. destruct w; try discriminate O.
  eexists. split; [done|]. apply Equal_true in H. rewrite Compare_unfold in H. simpl in H.
  apply slice_compare_eq_iff in H. eapply Forall2_impl; [exact H|]. intros x y. apply Equal_true.
Qed.

Lemma Forall_Forall2_transfer {A B} (P : A -> Prop) (Q : B -> Prop) (R : A -> B -> Prop) l l' :
  (forall x y, R x y -> P x -> Q y) -> Forall2 R l l' -> Forall P l -> Forall Q l'.
Proof. intros H F. induction F; [done|]. rewrite !Forall_cons. intros []. split; eauto. Qed.

Lemma bounded_Equal n : forall v w, Equal v w = true -> bounded n v -> bounded n w.
Proof.
  induction n as [|n IH]; intros v w H.
  - pose proof (Equal_sortOrder _ _ H) as O. by destruct v, w.
  - destruct v as [| | | | | |l|kvs|l| | | |].
    7:{ destruct (Equal_Array _ _ H) as (l' & -> & F). by apply (Forall_Forall2_transfer _ _ _ _ _ IH). }
    7:{ destruct (Equal_Object _ _ H) as (l' & -> & F). intros [B1 B2].
        split; [eapply Forall_Forall2_transfer; [|exact F|exact B1]|eapply Forall_Forall2_transfer; [|exact F|exact B2]];
          intros x y [? ?]; by apply IH. }
    7:{ destruct (Equal_Set _ _ H) as (l' & -> & F). by apply (Forall_Forall2_transfer _ _ _ _ _ IH). }
    all: apply Equal_sortOrder in H; by destruct w.
Qed.

Lemma bounded_S n : forall v, bounded n v -> bounded (S n) v.
Proof.
  induction n as [|n IH]; intros v H; [by destruct v|].
  destruct v; try done.
  - exact (Forall_impl _ _ _ H IH).
  - destruct H as [H1 H2]. split; [exact (Forall_impl _ _ _ H1 (fun kv => IH kv.2))|exact (Forall_impl _ _ _ H2 (fun kv => IH kv.1))].
  - exact (Forall_impl _ _ _ H IH).
Qed.

Lemma bounded_le n m v : (n <= m)%nat -> bounded n v -> bounded m v.
Proof. induction 1; [done|]. intros Hb. apply bounded_S. auto. Qed.

Lemma bounded_list {A} (f : A -> value) (l : list A) :
  Forall (fun v => exists n, bounded n (f v)) l -> exists n, Forall (fun v => bounded n (f v)) l.
Proof.
  induction 1 as [|v l [n Hn] _ [m Hm]]; [by exists 0%nat|]. exists (Nat.max n m).
  apply Forall_cons. split; [eapply bounded_le; [|exact Hn]; lia|].
  eapply Forall_impl; [exact Hm|]. intros x. apply bounded_le. lia.
Qed.

Lemma bounded_exists v : exists n, bounded n v.
Proof.
  revert v. refine (proj1 (syntax_ind (fun v => exists n, bounded n v) (fun _ => True) (fun _ => True)
    _ _ _ _ _ _ _ _ _ _ _ _ _ _ _ _ _ _)); try done; try (intros; by exists 0%nat).
  - intros l [n Hn]%(bounded_list (fun v => v)). by exists (S n).
  - intros l H. destruct (bounded_list fst l) as [n Hn]; [eapply Forall_impl; [exact H|]; by intros kv [? _]|].
    destruct (bounded_list snd l) as [m Hm]; [eapply Forall_impl; [exact H|]; by intros kv [_ ?]|].
    exists (S (Nat.max n m)). split; [eapply Forall_impl; [exact Hm|]|eapply Forall_impl; [exact Hn|]]; intros kv; apply bounded_le; lia.
  - intros l [n Hn]%(bounded_list (fun v => v)). by exists (S n).
Qed.

(** ** States in which nothing panics *)

(** Bound terms refer to bindings lists that exist. *)
Definition valid (V : vstore) (u : option nat) : Prop := exists p, u = Some p /\ is_Some (V !! p).
Definition closed (V : vstore) : Prop := forall u x bv, vget V u x = Some bv -> valid V (bv_u bv).

Lemma valid_vput V p x v u : valid (vput V p x v) u <-> valid V u.
Proof.
  unfold valid, vput. split; intros (q & -> & Hq); exists q; (split; [done|]);
    by rewrite lookup_alter_is_Some in *.
Qed.

Lemma closed_vput V p x v : is_Some (V !! p) -> valid V (bv_u v) -> closed V -> closed (vput V p x v).
Proof.
  intros Hp Hv C u y bv. rewrite vget_vput by done. rewrite valid_vput.
  destruct (decide _); [by intros [= <-]|]. apply C.
Qed.

Section Total.
Context {E : Type} (Contains ContainsRecursive : ustate -> value -> option nat -> bool).
Context (saveUnify biunifyRef : value -> value -> option nat -> option nat -> K (E := E) -> K (E := E)).
Context (biunifyComprehension : value -> value -> option nat -> option nat -> bool -> K (E := E) -> K (E := E)).
Context (HC : forall st v u, Contains st v u = false) (HCR : forall st v u, ContainsRecursive st v u = false).
Abbreviation values := (biunifyValues Contains ContainsRecursive saveUnify biunifyRef biunifyComprehension).
Abbreviation unif := (biunify Contains ContainsRecursive saveUnify biunifyRef biunifyComprehension).

Context (sigma : option nat -> string -> value) (D : gset nat).

Record good (st : ustate) : Prop := {
  g_pre : pre st;
  g_closed : closed (sview st);
  g_dom : dom (sview st) = D;
  g_solves : solves sigma (sview st);
}.

(** A continuation that answers in every good state that extends the iterators
    [L]. *)
Definition tot (L : list nat) (k : K (E := E)) : Prop := forall st,
  good st -> L `prefix_of` us_iters st -> k st <> None.

Lemma good_iters st l : good st -> good (set_iters st l).
Proof. intros [P C Dm S]. split; [by apply pre_iters|done..]. Qed.

Lemma good_valid_apply st u t t' u' : good st -> valid (sview st) u ->
  b_apply (us_heap st) u t = Some (t', u') -> valid (sview st) u'.
Proof.
  intros G. unfold b_apply. generalize (S (b_count (us_heap st))). intros fuel. revert u t.
  induction fuel as [|fuel IH]; intros u t V; simpl; [done|].
  destruct t; try (by intros [= <- <-]). rewrite b_get_view by apply G.
  destruct (vget _ u x) as [bv|] eqn:Gx; [|by intros [= <- <-]]. apply IH. by eapply (g_closed st G).
Qed.

Lemma bind_tot st L u x b other iter :
  good st -> L `prefix_of` us_iters st -> tot L iter -> K_ok iter -> plain b ->
  valid (sview st) u -> valid (sview st) other ->
  vget (sview st) u x = None ->
  (forall y, b = Var y -> vget (sview st) other y = None /\ (other, y) <> (u, x)) ->
  Equal (sigma u x) (ev sigma other b) = true ->
  bind_and_iter u x b other iter st <> None.
Proof.
  intros G HL T Hk Pb Vu Vo Hx Hb Q. unfold bind_and_iter.
  destruct (b_bind (us_heap st) u x b other) as [h|] eqn:Bd.
  2:{ exfalso. destruct Vu as (p & -> & Hp). unfold b_bind, b_update in Bd.
      unfold sview in Hp. rewrite view_lookup in Hp. destruct (us_heap st !! p); [done|]. by destruct Hp. }
  destruct (pre_bind st u x b other h (g_pre st G) Pb Hx Hb Bd) as (p & -> & P1 & Vw & S1).
  assert (Hp : is_Some (sview st !! p)) by (by destruct Vu as (q & [= <-] & Hq)).
  assert (G1 : good (set_heap st h)).
  { split; [done| | |]; unfold sview; cbn [us_heap set_heap].
    - rewrite Vw. by apply closed_vput; [| |apply G].
    - rewrite Vw. unfold vput. rewrite dom_alter_L. apply G.
    - apply S1. split; [apply G|done]. }
  specialize (T _ G1 HL). destruct (iter _) as [[st' r]|] eqn:I; [|done].
  destruct (Hk _ _ _ P1 I) as [P2 V2].
  assert (Hp' : is_Some (sview st' !! p)).
  { rewrite V2. unfold sview. cbn [us_heap set_heap]. rewrite Vw. by apply lookup_alter_is_Some. }
  unfold b_delete, b_update. unfold sview in Hp'. rewrite view_lookup in Hp'.
  destruct (us_heap st' !! p); [done|]. by destruct Hp'.
Qed.

Lemma values_tot fuel a b u1 u2 iter st L :
  good st -> L `prefix_of` us_iters st -> tot L iter -> K_ok iter -> plain a -> plain b ->
  valid (sview st) u1 -> valid (sview st) u2 ->
  (forall x, a = Var x -> vget (sview st) u1 x = None) ->
  (forall y, b = Var y -> vget (sview st) u2 y = None) ->
  Equal (ev sigma u1 a) (ev sigma u2 b) = true ->
  values (S fuel) a b u1 u2 iter st <> None.
Proof.
  intros G HL T Hk Pa Pb V1 V2 Ha Hb Q.
  assert (Ca : IsComprehension a = false /\ is_ref a = false) by (inversion Pa; subst; try done; by destruct a).
  assert (Cb : IsComprehension b = false /\ is_ref b = false) by (inversion Pb; subst; try done; by destruct b).
  destruct Ca as [Ca Ra], Cb as [Cb Rb].
  assert (Eq : forall a b : value, (if Equal a b then iter st else return_nil st) <> None).
  { intros a' b'. destruct (Equal a' b'); [by apply (T st)|done]. }
  assert (BR : forall y, b = Var y -> (forall x, a <> Var x) -> bind_and_iter u2 y a u1 iter st <> None).
  { intros y -> Nv. apply (bind_tot st L); try done; [by apply Hb|by intros x ->; destruct (Nv x)|].
    rewrite Equal_sym. exact Q. }
  unfold biunifyValues. rewrite !HC, !HCR, Ra, Rb, Ca, Cb, !andb_false_r. cbn [orb].
  replace (if is_set a then false else false) with false by (by destruct (is_set a)).
  replace (if is_set b then false else false) with false by (by destruct (is_set b)). cbn [orb].
  destruct a as [| | | |x| | | |ks| | | |]; try (by inversion Pa);
    try (destruct b; try (by inversion Pb); try (by apply BR); by apply Eq).
  - assert (Bd : (forall y, b = Var y -> (u2, y) <> (u1, x)) -> bind_and_iter u1 x b u2 iter st <> None).
    { intros N. apply (bind_tot st L); try done; [by apply Ha|]. intros y Hy. split; [by apply Hb|by apply N]. }
    destruct b as [| | | |y| | | | | | | |]; try (by apply Bd).
    destruct (bool_decide (u1 = u2) && Equal (Var x) (Var y)) eqn:Qv; [by apply (T st)|].
    apply Bd. intros y' [= <-] [= -> ->]. by rewrite bool_decide_true, Equal_refl in Qv.
  - assert (Gs : IsGround (SetV ks) = true) by (inversion Pa; subst; done).
    pose proof (Equal_sortOrder _ _ Q) as O.
    destruct b as [| | | |y| | | |ks'| | | |]; try discriminate O; [by apply BR|].
    assert (Gb : IsGround (SetV ks') = true) by (inversion Pb; subst; done).
    unfold Plug. cbn [plugNamespaced]. rewrite Gs, Gb. apply Eq.
Qed.

Section Elements.
Context (n : nat) (u1 u2 : option nat) (unify : value -> value -> K (E := E) -> K (E := E)).
Context (Vd : forall st, good st -> valid (sview st) u1 /\ valid (sview st) u2).
Context (UK : forall x y k, K_ok k -> plain x -> plain y -> K_ok (unify x y k)).
Context (U : forall x y k L, K_ok k -> plain x -> plain y -> tot L k ->
  Equal (ev sigma u1 x) (ev sigma u2 y) = true -> bounded n (ev sigma u1 x) -> tot L (unify x y k)).

Lemma arrays_tot la : forall lb iter L, K_ok iter -> tot L iter -> Forall plain la -> Forall plain lb ->
  Forall2 (fun x y => Equal (ev sigma u1 x) (ev sigma u2 y) = true) la lb ->
  Forall (fun x => bounded n (ev sigma u1 x)) la ->
  tot L (arrays_rec unify la lb iter) /\ K_ok (arrays_rec unify la lb iter).
Proof.
  induction la as [|x la IH]; intros lb iter L Hk T Ha Hb F Bd; inversion F as [|? y ? lb' Q F']; subst.
  - done.
  - apply Forall_cons in Ha as [Hx Ha], Hb as [Hy Hb], Bd as [Bx Bd]. simpl.
    destruct (IH lb' iter L Hk T Ha Hb F' Bd) as [I1 I2]. split; [by apply U|by apply UK].
Qed.

Context (oa ob : list (value * value)) (Sa : ssorted Compare fst oa).
Context (Pa : Forall (fun kv => plain kv.2) oa) (Pb : Forall (fun kv => plain kv.2) ob).
Context (Ek : Forall (obj_eqn u1 u2 ob sigma) oa) (Bk : Forall (fun kv => bounded n (ev sigma u1 kv.2)) oa).

Lemma objects_rec_K_ok m c iter : K_ok iter -> K_ok (objects_rec m unify oa ob (map fst oa) c iter).
Proof.
  intros Hk. induction m as [|m IH]; intros st st' r Hst; simpl;
    (destruct (map fst oa !! _) as [key|]; [|by apply Hk]);
    (destruct (obj_get key ob) as [v2|] eqn:G2; [|intros [= <- <-]; split; [by apply pre_iters|done]]);
    (destruct (obj_get key oa) as [v1|] eqn:G1; [|done]); [done|].
  intros H. eapply UK in H;
    [exact H|exact IH|exact (obj_get_plain _ _ _ Pa G1)|exact (obj_get_plain _ _ _ Pb G2)|by apply pre_iters].
Qed.

Lemma objects_tot m c iter L : K_ok iter -> tot L iter -> (length L <= c)%nat -> forall st pos,
  good st -> L `prefix_of` us_iters st -> us_iters st !! c = Some pos -> (length oa - pos <= m)%nat ->
  objects_rec m unify oa ob (map fst oa) c iter st <> None.
Proof.
  intros Hk T Hc. induction m as [|m IH]; intros st pos G HL Hpos Hm; simpl; rewrite Hpos; simpl;
    rewrite list_lookup_fmap; (destruct (oa !! pos) as [[key v]|] eqn:Ho; simpl; [|by apply (T st)]).
  { apply lookup_lt_Some in Ho. lia. }
  pose proof (list_elem_of_lookup_2 _ _ _ Ho) as Hin.
  destruct (proj1 (Forall_forall _ _) Ek _ Hin) as (v2 & G2 & Q). simpl in G2, Q. rewrite G2, (obj_get_at _ _ _ _ Sa Ho).
  pose proof (proj1 (Forall_forall _ _) Bk) as Bk'. pose proof (proj1 (Forall_forall _ _) Pa) as Pa'.
  apply (U _ _ _ (<[c := S pos]> (us_iters st))).
  - by apply objects_rec_K_ok.
  - apply (Pa' (key, v) Hin).
  - exact (obj_get_plain _ _ _ Pb G2).
  - intros st1 G1 Hp. apply (IH st1 (S pos)); [done| | |lia].
    + etransitivity; [|exact Hp]. destruct HL as [k ->]. rewrite insert_app_r_alt by lia. by eexists.
    + eapply prefix_lookup_Some; [|exact Hp]. apply list_lookup_insert_eq. by eapply lookup_lt_Some.
  - exact Q.
  - apply (Bk' (key, v) Hin).
  - by apply good_iters.
  - done.
Qed.
End Elements.

Lemma good_valid st u : good st -> (exists p, u = Some p /\ p ∈ D) <-> valid (sview st) u.
Proof.
  intros G. unfold valid. rewrite <- (g_dom st G). by setoid_rewrite elem_of_dom.
Qed.

Lemma biunify_tot n : forall fuel a b b1 b2 iter L, (S n < fuel)%nat ->
  K_ok iter -> tot L iter -> plain a -> plain b ->
  (exists p, b1 = Some p /\ p ∈ D) -> (exists p, b2 = Some p /\ p ∈ D) ->
  Equal (ev sigma b1 a) (ev sigma b2 b) = true -> bounded n (ev sigma b1 a) ->
  tot L (unif fuel a b b1 b2 iter).
Proof.
  induction n as [n IHn] using lt_wf_ind; intros [|[|fuel]] a b b1 b2 iter L Hf Hk T Pa Pb V1 V2 Q Bd;
    try lia.
  intros st G HL. assert (Hst := g_pre st G).
  apply (good_valid st _ G) in V1. apply (good_valid st _ G) in V2.
  cbn [biunify]. fold (unif (S fuel)).
  destruct (b_apply_ok st b1 a Hst) as (a' & u1 & Aa & Fa & Ea & Pa').
  destruct (b_apply_ok st b2 b Hst) as (b' & u2 & Ab & Fb & Eb & Pb').
  specialize (Pa' Pa). specialize (Pb' Pb). rewrite Aa, Ab.
  pose proof (good_valid_apply _ _ _ _ _ G V1 Aa) as W1. pose proof (good_valid_apply _ _ _ _ _ G V2 Ab) as W2.
  assert (Q' : Equal (ev sigma u1 a') (ev sigma u2 b') = true).
  { specialize (Ea sigma (g_solves st G)). specialize (Eb sigma (g_solves st G)).
    rewrite Equal_sym in Ea. eapply Equal_trans; [exact Ea|]. eapply Equal_trans; [exact Q|exact Eb]. }
  assert (Bd' : bounded n (ev sigma u1 a')) by (eapply bounded_Equal; [by apply Ea, G|done]).
  clear a b Pa Pb Ea Eb Aa Ab Q Bd. rename a' into a, b' into b.
  assert (Hv : values (S fuel) a b u1 u2 iter st <> None) by (by apply (values_tot fuel a b u1 u2 iter st L)).
  assert (W1' := proj2 (good_valid st u1 G) W1). assert (W2' := proj2 (good_valid st u2 G) W2).
  destruct a as [| | | | | |la|oa| | | | |]; try done;
    (destruct b as [| | | | | |lb|ob| | | | |]; try done; try (by inversion Pb')).
  - (* arrays *)
    unfold biunifyArrays. simpl in Q', Bd'. apply Equal_Array_map in Q'.
    rewrite (Forall2_length _ _ _ Q'), Nat.eqb_refl. destruct n as [|n]; [done|]. simpl in Bd'.
    rewrite Forall_fmap in Bd'.
    eapply (arrays_tot n u1 u2 (fun x y k => unif (S fuel) x y u1 u2 k)); try done.
    + intros x y k Hk' Hx Hy. apply spec_K_ok. intros st0 H0. do 3 eexists. by apply biunify_spec.
    + intros. apply (IHn n ltac:(lia)); try done. lia.
    + by inversion Pa'.
    + by inversion Pb'.
  - (* objects *)
    inversion Pa' as [? X|x|l X|? Sa Ga Fpa|]; subst; [done|].
    inversion Pb' as [? X|x|l X|? Sb Gb Fpb|]; subst; [done|].
    simpl in Q', Bd'. apply Equal_Object_map in Q'. pose proof (Forall2_length _ _ _ Q') as Hlen.
    apply Equal_Object_get in Q'; [|done..]. destruct n as [|n]; [done|]. destruct Bd' as [Bd' _].
    rewrite Forall_fmap in Bd'. unfold biunifyObjects. rewrite Hlen, Nat.eqb_refl. simpl.
    rewrite !ground_keys by done.
    eapply (objects_tot n u1 u2 (fun x y k => unif (S fuel) x y u1 u2 k)); try done.
    + intros x y k Hk' Hx Hy. apply spec_K_ok. intros st0 H0. do 3 eexists. by apply biunify_spec.
    + intros. apply (IHn n ltac:(lia)); try done. lia.
    + by apply prefix_length.
    + by apply good_iters.
    + simpl. destruct HL as [k ->]. rewrite <- app_assoc. by eexists.
    + simpl. rewrite lookup_app_r, Nat.sub_diag by done. done.
    + lia.
Qed.
End Total.

(** ** The theorems *)
Section Theorems.
Context {E : Type} (Contains ContainsRecursive : ustate -> value -> option nat -> bool).
Context (saveUnify biunifyRef : value -> value -> option nat -> option nat -> K (E := E) -> K (E := E)).
Context (biunifyComprehension : value -> value -> option nat -> option nat -> bool -> K (E := E) -> K (E := E)).
Abbreviation unif := (biunify Contains ContainsRecursive saveUnify biunifyRef biunifyComprehension).

Lemma unif_returns a b b1 b2 iter st sigma :
  (forall st v u, Contains st v u = false) -> (forall st v u, ContainsRecursive st v u = false) ->
  pre st -> closed (sview st) -> valid (sview st) b1 -> valid (sview st) b2 -> plain a -> plain b ->
  K_ok iter -> (forall st1, iter st1 <> None) ->
  solves sigma (sview st) -> Equal (ev sigma b1 a) (ev sigma b2 b) = true ->
  exists n, forall fuel, (n < fuel)%nat -> is_Some (unif fuel a b b1 b2 iter st).
Proof.
  intros HC HCR Hst Hc V1 V2 Pa Pb Hk Ht S Q. destruct (bounded_exists (ev sigma b1 a)) as [n Hn].
  exists (Datatypes.S n). intros fuel Hf. set (D := dom (sview st)).
  assert (G : good sigma D st) by (by split).
  apply not_eq_None_Some.
  apply (biunify_tot Contains ContainsRecursive saveUnify biunifyRef biunifyComprehension HC HCR sigma D n
    fuel a b b1 b2 iter []); try done.
  - by intros st1 _ _.
  - by apply (good_valid sigma D st).
  - by apply (good_valid sigma D st).
  - apply prefix_nil.
Qed.

(** C8: Unification outside partial evaluation computes a most general unifier of
    plain terms: scalars, variables, arrays, objects with ground keys and ground
    sets.  When it returns it has left the bindings as it found them, and either
    it has called its continuation, with bindings whose solutions are exactly the
    solutions of the old bindings under which the two terms are equal, and
    returns what the continuation returned; or it returns nil, and no solution of
    the bindings makes the terms equal.  When there is such a solution and the
    continuation returns, it returns from some fuel on, having called its
    continuation.  (There is no occurs check: on equations that only infinite
    terms solve the code need not return.) *)
Theorem biunify_most_general a b b1 b2 iter st :
  (forall st v u, Contains st v u = false) -> (forall st v u, ContainsRecursive st v u = false) ->
  pre st -> plain a -> plain b -> K_ok iter ->
  let unifies sigma := solves sigma (sview st) /\ Equal (ev sigma b1 a) (ev sigma b2 b) = true in
  let called r := exists st1 st2, (forall sigma, solves sigma (sview st1) <-> unifies sigma) /\ iter st1 = Some (st2, r) in
  (forall fuel st' r, unif fuel a b b1 b2 iter st = Some (st', r) ->
     sview st' = sview st /\ (called r \/ r = None /\ forall sigma, ~ unifies sigma)) /\
  (closed (sview st) -> valid (sview st) b1 -> valid (sview st) b2 -> (forall st1, iter st1 <> None) -> (exists sigma, unifies sigma) ->
     exists n, forall fuel, (n < fuel)%nat -> exists st' r, unif fuel a b b1 b2 iter st = Some (st', r) /\ sview st' = sview st /\ called r).
Proof.
  intros HC HCR Hst Pa Pb Hk unifies called.
  assert (P : forall fuel st' r, unif fuel a b b1 b2 iter st = Some (st', r) -> sview st' = sview st /\ (called r \/ r = None /\ forall sigma, ~ unifies sigma)).
  { intros fuel st' r H. pose proof (biunify_spec _ _ saveUnify biunifyRef biunifyComprehension HC HCR fuel a b b1 b2 iter st Hst Hk Pa Pb) as X.
    rewrite H in X. destruct X as (_ & V & X). split; [done|].
    destruct X as [(st1 & st2 & _ & _ & S & I)|[-> N]]; [left; by exists st1, st2|right].
    split; [done|]. intros sigma [S Q]. by apply (N sigma S). }
  split; [exact P|]. intros Hc V1 V2 Ht [sigma U].
  destruct (unif_returns a b b1 b2 iter st sigma HC HCR Hst Hc V1 V2 Pa Pb Hk Ht (proj1 U) (proj2 U)) as [n Hn].
  exists n. intros fuel Hf. destruct (Hn fuel Hf) as [[st' r] Er]. exists st', r. split; [done|].
  destruct (P fuel st' r Er) as [V [C|[_ N]]]; [done|by destruct (N sigma)].
Qed.

End Theorems.

(** ** A run

    In the first bindings list, [[x, {"k": y}]]; in the second, [[1, {"k": z}]]. *)
Module Run.
Definition st0 : ustate := MkUstate {[ 0%nat := newBindings 0; 1%nat := newBindings 1 ]} [] (MkEnv [] 0 [] newShared).
Definition ta : value := Array [Var "x"; Object [(Str "k", Var "y")]].
Definition tb : value := Array [Number (NInt 1); Object [(Str "k", Var "z")]].
Definition no_save (_ : ustate) (_ : value) (_ : option nat) : bool := false.
Definition no_ref (_ _ : value) (_ _ : option nat) (_ : K (E := list (option bvalue))) :
    K (E := list (option bvalue)) := fun _ => None.
Definition no_compr (_ _ : value) (_ _ : option nat) (_ : bool) (_ : K (E := list (option bvalue))) :
    K (E := list (option bvalue)) := fun _ => None.
(** The continuation reports the bindings of [x] and [y]. *)
Definition iter : K (E := list (option bvalue)) := fun st =>
  Some (st, Some [b_get (us_heap st) (Some 0%nat) "x"; b_get (us_heap st) (Some 0%nat) "y"]).
Definition sigma (_ : option nat) (_ : string) : value := Number (NInt 1).

Lemma st0_empty u x : vget (sview st0) u x = None.
Proof.
  destruct u as [p|]; [|done]. unfold vget, sview. rewrite view_lookup.
  destruct (us_heap st0 !! p) as [b|] eqn:H; [|done]. unfold st0 in H. cbn [us_heap set_heap] in H.
  apply lookup_insert_Some in H as [[_ <-]|[_ H]]; [done|].
  apply lookup_singleton_Some in H as [_ <-]. done.
Qed.

Lemma st0_pre : pre st0.
Proof.
  split.
  - intros p b H. unfold st0 in H. cbn [us_heap set_heap] in H.
    apply lookup_insert_Some in H as [[_ <-]|[_ H]]; [apply hm_wf_new|].
    apply lookup_singleton_Some in H as [_ <-]. apply hm_wf_new.
  - intros u x bv. fold (sview st0). by rewrite st0_empty.
  - intros u t. exists 0%nat. split; [lia|].
    destruct t; try (by constructor). apply chain_free. apply st0_empty.
Qed.

Lemma plain_pair h v : plain h -> plain v -> plain (Array [h; Object [(Str "k", v)]]).
Proof.
  intros Hh Hv. apply plain_array. apply Forall_cons; split; [done|]. apply Forall_singleton.
  apply plain_object; [by repeat constructor|by apply Forall_singleton|by apply Forall_singleton].
Qed.
Lemma plain_ta : plain ta.
Proof. apply plain_pair; apply plain_var. Qed.
Lemma plain_tb : plain tb.
Proof. apply plain_pair; [by apply plain_scalar|apply plain_var]. Qed.

Lemma iter_ok : K_ok iter.
Proof. intros st st' r P [= <- <-]. done. Qed.
End Run.

Lemma biunify_most_general_witness :
  (exists st', biunify Run.no_save Run.no_save Run.no_ref Run.no_ref Run.no_compr 5 Run.ta Run.tb
      (Some 0%nat) (Some 1%nat) Run.iter Run.st0 =
    Some (st', Some [Some (MkBvalue (Some 1%nat) (Number (NInt 1))); Some (MkBvalue (Some 1%nat) (Var "z"))]) /\
  sview st' = sview Run.st0) /\
  exists n, forall fuel, (n < fuel)%nat -> exists st' r, biunify Run.no_save Run.no_save Run.no_ref Run.no_ref Run.no_compr fuel Run.ta Run.tb
      (Some 0%nat) (Some 1%nat) Run.iter Run.st0 = Some (st', r) /\ sview st' = sview Run.st0.
Proof.
  destruct (biunify_most_general Run.no_save Run.no_save Run.no_ref Run.no_ref Run.no_compr Run.ta Run.tb
    (Some 0%nat) (Some 1%nat) Run.iter Run.st0
    (fun _ _ _ => eq_refl) (fun _ _ _ => eq_refl) Run.st0_pre Run.plain_ta Run.plain_tb Run.iter_ok) as [P T].
  split.
  - assert (R : exists st', biunify Run.no_save Run.no_save Run.no_ref Run.no_ref Run.no_compr 5 Run.ta Run.tb (Some 0%nat) (Some 1%nat) Run.iter Run.st0 =
      Some (st', Some [Some (MkBvalue (Some 1%nat) (Number (NInt 1))); Some (MkBvalue (Some 1%nat) (Var "z"))])) by (eexists; vm_compute; reflexivity).
    destruct R as [st' R]. exists st'. exact (conj R (proj1 (P 5%nat st' _ R))).
  - destruct T as [n Hn].
    + intros u x bv. rewrite Run.st0_empty. discriminate.
    + exists 0%nat. split; [reflexivity|]. eexists. reflexivity.
    + exists 1%nat. split; [reflexivity|]. eexists. reflexivity.
    + intros st1. discriminate.
    + exists Run.sigma. split; [|vm_compute; reflexivity]. intros u x bv. rewrite Run.st0_empty. discriminate.
    + exists n. intros fuel Hf. destruct (Hn fuel Hf) as (st' & r & E & V & _). exists st', r. exact (conj E V).
Defined.


(** The iterator over the keys of an object is shared by all invocations of a
    continuation.  If the value of the first key is a reference with two
    solutions, the second invocation of the continuation finds the iterator at
    its end and calls [iter] although the values of the second key differ. *)
Lemma objects_shared_iterator :
  let twice (_ _ : value) (_ _ : option nat) (k : K (E := list (option bvalue))) : K := fun st =>
    match k st with Some (st', None) => k st' | r => r end in
  let a := Object [(Str "a", Ref [Var "r"]); (Str "b", Number (NInt 1))] in
  let b := Object [(Str "a", Null); (Str "b", Number (NInt 2))] in
  exists st', biunify Run.no_save Run.no_save twice twice Run.no_compr 5 a b (Some 0%nat) (Some 1%nat)
    Run.iter Run.st0 = Some (st', Some [None; None]).
Proof. eexists. vm_compute. reflexivity. Qed.
