(* ===== verification/DepGraph.v ===== *)
(** The rule dependency graph of the compiler: [Graph], [graphSort] and
    [GraphTraversal] in [src/ast/compile.go].

    Nodes are rule pointers, any countable type here.  Go maps are [gmap] and
    [gset]; the orders in which they are iterated are arguments ([order] for the
    nodes, [ord u] for the dependencies of [u], which are iterated at most once
    in a sort).  [Visit] recurses along dependencies; its fuel is bounded by the
    number of nodes. *)
From Stdlib Require Import ZArith Lia.
From stdpp Require Import base gmap list sets relations.
From S2P Require Import Prelude Queue Graph.

Section DepGraph.
Context {T : Type} `{Countable T}.

Record graph : Type := MkGraph {
  g_adj : gmap T (gset T);
  g_radj : gmap T (gset T);
  g_nodes : gset T;
  g_sorted : option (list T);
}.
Definition empty_graph : graph := MkGraph ∅ ∅ ∅ None.

Definition addNode (g : graph) (n : T) : graph :=
  MkGraph (g_adj g) (g_radj g) ({[n]} ∪ g_nodes g) (g_sorted g).

(** [edges[v] = struct{}{}] on the set of [u], which is made when missing. *)
Definition add_edge (adj : gmap T (gset T)) (u v : T) : gmap T (gset T) :=
  <[u := {[v]} ∪ default ∅ (adj !! u)]> adj.

Definition addDependency (g : graph) (u v : T) : graph :=
  let g := if bool_decide (u ∈ g_nodes g) then g else addNode g u in
  let g := if bool_decide (v ∈ g_nodes g) then g else addNode g v in
  MkGraph (add_edge (g_adj g) u v) (add_edge (g_radj g) v u) (g_nodes g) (g_sorted g).

Definition Dependencies (g : graph) (x : T) : gset T := default ∅ (g_adj g !! x).
Definition Dependents (g : graph) (x : T) : gset T := default ∅ (g_radj g !! x).

(** ** graphSort *)
Record graphSort : Type := MkSort {
  gs_sorted : list T;
  gs_marked : gset T;
  gs_temp : gset T;
}.

Definition Marked (s : graphSort) (n : T) : bool := bool_decide (n ∈ gs_marked s).

(** The loop over the dependencies, with the recursive call as an argument. *)
Fixpoint visit_all (visit : graphSort -> T -> option (graphSort * bool)) (s : graphSort) (l : list T) :
    option (graphSort * bool) :=
  match l with
  | [] => Some (s, true)
  | other :: l =>
      match visit s other with
      | Some (s', true) => visit_all visit s' l
      | r => r
      end
  end.

Fixpoint Visit (ord : T -> list T) (fuel : nat) (s : graphSort) (n : T) : option (graphSort * bool) :=
  match fuel with
  | O => None
  | S fuel =>
      if bool_decide (n ∈ gs_temp s) then Some (s, false)
      else if Marked s n then Some (s, true)
      else
        let s := MkSort (gs_sorted s) (gs_marked s) ({[n]} ∪ gs_temp s) in
        match visit_all (Visit ord fuel) s (ord n) with
        | Some (s, true) =>
            Some (MkSort (gs_sorted s ++ [n]) ({[n]} ∪ gs_marked s) (gs_temp s ∖ {[n]}), true)
        | r => r
        end
  end.

(** [Sort] returns the graph with the cached result, and the result: [None] in
    the second component is [ok == false]. *)
Definition Sort (order : list T) (ord : T -> list T) (g : graph) : option (graph * option (list T)) :=
  match g_sorted g with
  | Some l => Some (g, Some l)
  | None =>
      match visit_all (Visit ord (S (size (g_nodes g)))) (MkSort [] ∅ ∅) order with
      | Some (s, true) =>
          Some (MkGraph (g_adj g) (g_radj g) (g_nodes g) (Some (gs_sorted s)), Some (gs_sorted s))
      | Some (_, false) => Some (g, None)
      | None => None
      end
  end.

(** ** GraphTraversal: an implementation of the interface of Graph.v *)
#[program] Definition graph_traversal (g : graph) : Traversal T (gset T) := {|
  Edges x := elements (Dependencies g x);
  Visited u visited := (bool_decide (u ∈ visited), {[u]} ∪ visited);
  seen visited := visited;
|}.
Next Obligation. done. Qed.

(** ** The graphs that are built *)
Definition dep (g : graph) (u v : T) : Prop := v ∈ Dependencies g u.

Record graph_wf (g : graph) : Prop := {
  wf_dep : forall u v, dep g u v -> u ∈ g_nodes g /\ v ∈ g_nodes g;
  wf_radj : forall u v, v ∈ Dependencies g u <-> u ∈ Dependents g v;
}.

Lemma wf_empty : graph_wf empty_graph.
Proof.
  split; unfold dep, Dependencies, Dependents; simpl; intros u v; rewrite ?lookup_empty; simpl.
  - by intros []%not_elem_of_empty.
  - done.
Qed.

Lemma wf_addNode g n : graph_wf g -> graph_wf (addNode g n).
Proof.
  intros W. split; [|apply W]. intros u v D. destruct (wf_dep g W u v D). simpl. set_solver.
Qed.

Lemma add_edge_in adj u v x y :
  y ∈ default ∅ (add_edge adj u v !! x) <-> y ∈ default ∅ (adj !! x) \/ (x = u /\ y = v).
Proof.
  unfold add_edge. destruct (decide (u = x)) as [<-|N].
  - rewrite lookup_insert_eq. simpl. set_solver.
  - rewrite lookup_insert_ne by done. naive_solver.
Qed.

Lemma wf_addDependency g u v : graph_wf g ->
  graph_wf (addDependency g u v) /\
  (forall x y, dep (addDependency g u v) x y <-> dep g x y \/ (x = u /\ y = v)) /\
  g_nodes (addDependency g u v) = {[u; v]} ∪ g_nodes g.
Proof.
  intros W. unfold addDependency. set (g1 := if bool_decide (u ∈ g_nodes g) then g else addNode g u).
  assert (W1 : graph_wf g1 /\ g_adj g1 = g_adj g /\ g_radj g1 = g_radj g /\ g_nodes g1 = {[u]} ∪ g_nodes g).
  { unfold g1. case_bool_decide; [split_ands; [done..|set_solver]|].
    split_ands; [by apply wf_addNode|done..]. }
  destruct W1 as (W1 & A1 & R1 & N1). clearbody g1.
  set (g2 := if bool_decide (v ∈ g_nodes g1) then g1 else addNode g1 v).
  assert (W2 : graph_wf g2 /\ g_adj g2 = g_adj g /\ g_radj g2 = g_radj g /\ g_nodes g2 = {[u; v]} ∪ g_nodes g).
  { unfold g2. case_bool_decide; [split_ands; [done..|set_solver]|].
    split_ands; [by apply wf_addNode|done|done|simpl; set_solver]. }
  destruct W2 as (W2 & A2 & R2 & N2). clearbody g2.
  assert (De : forall x y, y ∈ default ∅ (add_edge (g_adj g2) u v !! x) <-> dep g x y \/ (x = u /\ y = v)).
  { intros x y. rewrite add_edge_in, A2. done. }
  split_ands.
  - split; unfold dep, Dependencies, Dependents; simpl; intros x y.
    + rewrite De, N2. intros [D|[-> ->]]; [|set_solver]. destruct (wf_dep g W x y D). set_solver.
    + rewrite De, add_edge_in, R2. unfold dep. rewrite (wf_radj g W). unfold Dependents. naive_solver.
  - intros x y. unfold dep, Dependencies. simpl. apply De.
  - done.
Qed.

(** ** Sorting *)
Section Sorting.
Context (g : graph) (W : graph_wf g) (ord : T -> list T).
Context (Hord : forall n x, x ∈ ord n <-> x ∈ Dependencies g n).

(** Every node comes after its dependencies. *)
Definition topological (l : list T) : Prop :=
  forall l1 x l2, l = l1 ++ x :: l2 -> forall y, dep g x y -> y ∈ l1.

Record sort_inv (s : graphSort) : Prop := {
  si_nodup : NoDup (gs_sorted s);
  si_marked : forall x, x ∈ gs_sorted s <-> x ∈ gs_marked s;
  si_nodes : gs_marked s ⊆ g_nodes g;
  si_temp : gs_temp s ⊆ g_nodes g;
  si_disj : gs_marked s ## gs_temp s;
  si_topo : topological (gs_sorted s);
}.

Lemma topological_snoc l n : topological l -> (forall y, dep g n y -> y ∈ l) -> topological (l ++ [n]).
Proof.
  intros Hl Hn l1 x l2 E y D. destruct l2 as [|z l2 _] using rev_ind.
  - apply app_inj_tail in E as [-> ->]. by apply Hn.
  - rewrite app_comm_cons, app_assoc in E. apply app_inj_tail in E as [E _]. by eapply Hl.
Qed.

Definition visit_spec (s : graphSort) (n : T) (r : option (graphSort * bool)) : Prop :=
  match r with
  | None => False
  | Some (s', true) =>
      sort_inv s' /\ gs_temp s' = gs_temp s /\ n ∈ gs_marked s' /\ gs_marked s ⊆ gs_marked s'
  | Some (_, false) => exists x, tc (dep g) x x
  end.

Lemma visit_all_ok visit temp l : forall s,
  (forall s n, sort_inv s -> gs_temp s = temp -> n ∈ l -> visit_spec s n (visit s n)) ->
  sort_inv s -> gs_temp s = temp ->
  match visit_all visit s l with
  | None => False
  | Some (s', true) =>
      sort_inv s' /\ gs_temp s' = gs_temp s /\ (forall n, n ∈ l -> n ∈ gs_marked s') /\
      gs_marked s ⊆ gs_marked s'
  | Some (_, false) => exists x, tc (dep g) x x
  end.
Proof.
  induction l as [|n l IH]; intros s V I Ht; simpl.
  { split_ands; [done|done|by intros n []%not_elem_of_nil|done]. }
  pose proof (V s n I Ht ltac:(left)) as Vn. unfold visit_spec in Vn.
  destruct (visit s n) as [[s' []]|]; [|done|done]. destruct Vn as (I' & T' & M' & S').
  specialize (IH s'). destruct (visit_all visit s' l) as [[s2 []]|].
  - destruct IH as (I2 & T2 & M2 & S2); [by intros; apply V; [| |right]|done|congruence|].
    split_ands; [done|congruence| |set_solver].
    intros m [->|Hm]%elem_of_cons; [by apply S2|by apply M2].
  - apply IH; [by intros; apply V; [| |right]|done|congruence].
  - apply IH; [by intros; apply V; [| |right]|done|congruence].
Qed.

Lemma Visit_ok fuel : forall s n,
  sort_inv s -> n ∈ g_nodes g -> (forall t, t ∈ gs_temp s -> tc (dep g) t n) ->
  (size (g_nodes g ∖ gs_temp s) < fuel)%nat -> visit_spec s n (Visit ord fuel s n).
Proof.
  induction fuel as [|fuel IH]; intros s n I Hn Ht Hf; [lia|]. simpl.
  case_bool_decide as Hin; [exists n; by apply Ht|].
  unfold Marked. case_bool_decide as Hm; [by split_ands|].
  set (s1 := MkSort (gs_sorted s) (gs_marked s) ({[n]} ∪ gs_temp s)).
  assert (I1 : sort_inv s1).
  { destruct I as [I1 I2 I3 I4 I5 I6]. split; simpl; try done; set_solver. }
  assert (V : forall s0 m, sort_inv s0 -> gs_temp s0 = {[n]} ∪ gs_temp s -> m ∈ ord n ->
    visit_spec s0 m (Visit ord fuel s0 m)).
  { intros s0 m I0 T0 Hm'%Hord. apply IH; [done|by apply (wf_dep g W n m)| |]; rewrite T0.
    - intros t [->%elem_of_singleton|Hin']%elem_of_union; [by apply tc_once|].
      eapply tc_r; [by apply Ht|done].
    - assert (E : g_nodes g ∖ gs_temp s = {[n]} ∪ (g_nodes g ∖ ({[n]} ∪ gs_temp s))).
      { apply set_eq. intros x. destruct (decide (x = n)) as [->|]; set_solver. }
      rewrite E, size_union, size_singleton in Hf by set_solver. lia. }
  pose proof (visit_all_ok (Visit ord fuel) ({[n]} ∪ gs_temp s) (ord n) s1 V I1 eq_refl) as A.
  destruct (visit_all (Visit ord fuel) s1 (ord n)) as [[s2 []]|]; [|done|done].
  destruct A as (I2 & T2 & M2 & S2).
  simpl in T2, S2. assert (Nm : n ∉ gs_marked s2) by (pose proof (si_disj s2 I2); set_solver).
  destruct I2 as [J1 J2 J3 J4 J5 J6]. unfold visit_spec. split_ands.
  - split; simpl.
    + apply NoDup_app. split_ands; [done| |apply NoDup_singleton].
      intros x Hx ->%list_elem_of_singleton. by apply Nm, J2.
    + intros x. rewrite elem_of_app, list_elem_of_singleton, J2. set_solver.
    + set_solver.
    + set_solver.
    + set_solver.
    + apply topological_snoc; [done|]. intros y Hy. apply J2, M2. by apply Hord.
  - simpl. rewrite T2. apply set_eq. intros x. destruct (decide (x = n)) as [->|]; set_solver.
  - simpl. set_solver.
  - simpl. set_solver.
Qed.

Lemma inv_start : sort_inv (MkSort [] ∅ ∅).
Proof.
  split; simpl; [apply NoDup_nil_2|set_solver|set_solver|set_solver|set_solver|].
  by intros [|] x l2 E.
Qed.

Lemma sort_loop_ok order :
  (forall x, x ∈ order <-> x ∈ g_nodes g) ->
  match visit_all (Visit ord (S (size (g_nodes g)))) (MkSort [] ∅ ∅) order with
  | None => False
  | Some (s', true) => sort_inv s' /\ forall x, x ∈ g_nodes g -> x ∈ gs_sorted s'
  | Some (_, false) => exists x, tc (dep g) x x
  end.
Proof.
  intros Ho.
  pose proof (visit_all_ok (Visit ord (S (size (g_nodes g)))) ∅ order (MkSort [] ∅ ∅)) as A.
  destruct (visit_all _ _ _) as [[s []]|].
  - destruct A as (I & _ & M & _); [|apply inv_start|done|].
    { intros s0 n I0 T0 Hn%Ho. apply Visit_ok; [done|done| |]; rewrite T0; [set_solver|].
      rewrite difference_empty_L. lia. }
    split; [done|]. intros x Hx%Ho. by apply (si_marked s I), M.
  - apply A; [|apply inv_start|done]. intros s0 n I0 T0 Hn%Ho.
    apply Visit_ok; [done|done| |]; rewrite T0; [set_solver|]. rewrite difference_empty_L. lia.
  - apply A; [|apply inv_start|done]. intros s0 n I0 T0 Hn%Ho.
    apply Visit_ok; [done|done| |]; rewrite T0; [set_solver|]. rewrite difference_empty_L. lia.
Qed.

(** A topological order excludes cycles. *)
Lemma topological_acyclic l : NoDup l -> topological l -> (forall x, x ∈ g_nodes g -> x ∈ l) ->
  forall x, ~ tc (dep g) x x.
Proof using W.
  clear ord Hord. intros Nd Tp All.
  assert (P : forall x y, tc (dep g) x y -> forall l1 l2, l = l1 ++ x :: l2 -> y ∈ l1).
  { induction 1 as [x y D|x y z D Tyz IH]; intros l1 l2 E.
    - by eapply Tp.
    - pose proof (Tp _ _ _ E y D) as Hy. apply list_elem_of_split in Hy as (k1 & k2 & ->).
      rewrite <- app_assoc in E. simpl in E. specialize (IH k1 (k2 ++ x :: l2) E). set_solver. }
  intros x Tx. assert (Hx : x ∈ l).
  { apply All. assert (D : exists y, dep g x y) by (inversion Tx; eauto).
    destruct D as [y D]. by apply (wf_dep g W x y). }
  apply list_elem_of_split in Hx as (l1 & l2 & E). pose proof (P x x Tx l1 l2 E) as Hx.
  rewrite E in Nd. apply NoDup_app in Nd as (_ & Nd & _). apply (Nd x Hx). left.
Qed.
End Sorting.
End DepGraph.
Arguments graph T {_ _}.

(** Building a graph: the nodes and dependencies that are added. *)
Inductive graph_op (T : Type) : Type :=
| OpNode (n : T)
| OpDep (u v : T).
Arguments OpNode {T} n.
Arguments OpDep {T} u v.

Definition build_graph {T} `{Countable T} (os : list (graph_op T)) : graph T :=
  fold_left (fun g o => match o with OpNode n => addNode g n | OpDep u v => addDependency g u v end)
    os empty_graph.

Lemma build_graph_ok {T} `{Countable T} (os : list (graph_op T)) :
  graph_wf (build_graph os) /\ g_sorted (build_graph os) = None.
Proof.
  unfold build_graph. generalize (wf_empty (T := T)). assert (S : g_sorted (empty_graph (T := T)) = None) by done.
  revert S. generalize (empty_graph (T := T)). induction os as [|o os IH]; intros g S W; simpl; [done|].
  apply IH.
  - destruct o; [done|]. unfold addDependency. repeat case_bool_decide; done.
  - destruct o; [by apply wf_addNode|by apply wf_addDependency].
Qed.

(** C13: Sorting the dependency graph terminates within its fuel, whatever the
    iteration orders of the maps.  It succeeds exactly when the graph has no
    cycle, and then returns every node once, after all its dependencies. *)
Theorem Sort_topological {T} `{Countable T} (os : list (graph_op T)) (order : list T) (ord : T -> list T) :
  let g := build_graph os in
  (forall x, x ∈ order <-> x ∈ g_nodes g) -> (forall n x, x ∈ ord n <-> x ∈ Dependencies g n) ->
  exists g' r, Sort order ord g = Some (g', r) /\
    match r with
    | Some l => (forall x, ~ tc (dep g) x x) /\ NoDup l /\ (forall x, x ∈ l <-> x ∈ g_nodes g) /\
                (forall l1 x l2, l = l1 ++ x :: l2 -> forall y, dep g x y -> y ∈ l1)
    | None => exists x, tc (dep g) x x
    end.
Proof.
  intros g Ho Hd. destruct (build_graph_ok os) as [W S]. fold g in W, S. unfold Sort. rewrite S.
  pose proof (sort_loop_ok g W ord Hd order Ho) as L.
  destruct (visit_all _ _ _) as [[s []]|]; [|by do 2 eexists|done].
  destruct L as [I All]. do 2 eexists. split; [done|]. cbn beta iota. split_ands.
  - by apply (topological_acyclic g W (gs_sorted s)); [apply I|apply I|].
  - apply I.
  - intros x. split; [|by apply All]. intros Hx%(si_marked g s I). by apply (si_nodes g s I).
  - apply I.
Qed.

(** [0 -> 1 -> 2], [0 -> 2] and a node without dependencies. *)
Definition ex_deps : list (graph_op nat) := [OpDep 0 1; OpDep 1 2; OpDep 0 2; OpNode 3]%nat.
Definition ex_graph : graph nat := build_graph ex_deps.
Definition ex_order : list nat := elements (g_nodes ex_graph).
Definition ex_ord (n : nat) : list nat := elements (Dependencies ex_graph n).

Lemma Sort_topological_witness :
  option_map snd (Sort ex_order ex_ord ex_graph) = Some (Some [2; 3; 1; 0]%nat) /\
  forall x, ~ tc (dep ex_graph) x x.
Proof.
  assert (R : option_map snd (Sort ex_order ex_ord ex_graph) = Some (Some [2; 3; 1; 0]%nat))
    by (vm_compute; reflexivity).
  split; [exact R|].
  destruct (Sort_topological ex_deps ex_order ex_ord (fun x => elem_of_elements _ x)
    (fun n x => elem_of_elements _ x)) as (g' & r & E & P).
  fold ex_graph in E, P. rewrite E in R. cbn [option_map snd] in R. injection R as ->. exact (proj1 P).
Defined.
