(* ===== verification/Cache.v ===== *)
(** The inter-query cache: [src/topdown/cache/cache.go].

    Every operation runs under the mutex of the cache, so operations are atomic
    steps on its state.  The doubly linked list is the sequence of its elements,
    oldest first; an element is a number with the key it holds.  Keys are values
    and are identified by their text, [String], which is an argument; so is
    [SizeInBytes] of the cached values.  Times are integers, the zero time is 0. *)
From Stdlib Require Import ZArith Lia String.
From stdpp Require Import base gmap list strings.
From S2P Require Import Prelude Value.
Open Scope Z_scope.

Record InterQueryBuiltinCacheConfig : Type := MkConfig {
  MaxSizeBytes : option Z;
  ForcedEvictionThresholdPercentage : option Z;
  StaleEntryEvictionPeriodSeconds : option Z;
}.
Definition defaultMaxSizeBytes : Z := 0.
Definition defaultForcedEvictionThresholdPercentage : Z := 100.
Definition defaultStaleEntryEvictionPeriodSeconds : Z := 0.

Inductive config_error : Type :=
| InvalidThreshold (z : Z)
| InvalidPeriod (z : Z).

Definition validateAndInjectDefaults (c : InterQueryBuiltinCacheConfig) :
    res config_error InterQueryBuiltinCacheConfig :=
  let maxSize := default defaultMaxSizeBytes (MaxSizeBytes c) in
  let? threshold :=
    match ForcedEvictionThresholdPercentage c with
    | None => Ok defaultForcedEvictionThresholdPercentage
    | Some t => if (t <? 0) || (100 <? t) then Err (InvalidThreshold t) else Ok t
    end in
  let? period :=
    match StaleEntryEvictionPeriodSeconds c with
    | None => Ok defaultStaleEntryEvictionPeriodSeconds
    | Some p => if p <? 0 then Err (InvalidPeriod p) else Ok p
    end in
  Ok (MkConfig (Some maxSize) (Some threshold) (Some period)).

(** [float64(z)] for an integer, as the integer it stands for, and the
    conversion of a float back to [int64]. *)
Definition float64 (z : Z) : Z :=
  if z =? 0 then 0
  else let '(m, e) := round_float (Z.abs z) 1 in
       Z.sgn z * (if 0 <=? e then m * 2 ^ e else m / 2 ^ (- e)).
Definition int64_of_float (z : Z) : Z := if in_int64 z then z else - two63.

(** [math.Ceil(float64(p) / 100.0)] for the percentages 0 to 100 that
    validation admits: the quotient is rounded, but stays within (0, 1]. *)
Definition ceil_percent (p : Z) : Z := - ((- p) / 100).

Lemma float64_exact z : 0 <= z < 2 ^ 53 -> float64 z = z.
Proof.
  intros Hz. unfold float64. destruct (z =? 0) eqn:E0; [apply Z.eqb_eq in E0; lia|]. apply Z.eqb_neq in E0.
  assert (L : 2 ^ Z.log2 z <= z < 2 ^ Z.succ (Z.log2 z)) by (apply Z.log2_spec; lia).
  assert (L52 : 0 <= Z.log2 z <= 52) by (split; [apply Z.log2_nonneg|apply Z.lt_succ_r, Z.log2_lt_pow2; lia]).
  rewrite Z.abs_eq, Z.sgn_pos by lia. unfold round_float. change (Z.log2 1) with 0. rewrite Z.sub_0_r.
  assert (R : forall n, round_half_even n 1 = n).
  { intros n. unfold round_half_even. rewrite Z.mod_1_r, Z.div_1_r. done. }
  set (l := Z.log2 z) in *. destruct (0 <=? l - 52) eqn:C.
  - apply Z.leb_le in C. replace (l - 52) with 0 by lia.
    rewrite (proj2 (Z.ltb_ge z (1 * 2 ^ (0 + 52)))) by (replace l with 52 in L by lia; simpl in *; lia).
    change (Z.max 0 (-1074)) with 0. cbn [Z.leb Z.compare]. rewrite Z.pow_0_r, !Z.mul_1_r, R. lia.
  - apply Z.leb_gt in C.
    assert (P : 2 ^ 52 = 2 ^ l * 2 ^ (- (l - 52))) by (rewrite <- Z.pow_add_r by lia; f_equal; lia).
    assert (P0 : 0 < 2 ^ (- (l - 52))) by (apply Z.pow_pos_nonneg; lia).
    rewrite (proj2 (Z.ltb_ge (z * 2 ^ (- (l - 52))) (1 * 2 ^ 52))) by (rewrite P; nia).
    rewrite Z.max_l by lia. rewrite (proj2 (Z.leb_gt 0 (l - 52)) C), R, Z.div_mul by lia. lia.
Qed.

Section Cache.
Context {V : Type} (SizeInBytes : V -> Z) (String : value -> string).

Record cacheItem : Type := MkItem {
  ci_value : V;
  ci_expiresAt : Z;
  ci_keyElement : nat;
}.
Record cache : Type := MkCache {
  c_items : gmap string cacheItem;
  c_usage : Z;
  c_config : option InterQueryBuiltinCacheConfig;
  c_l : list (nat * value);
  c_fresh : nat;  (* the number of the next list element *)
}.

Definition newCache (config : option InterQueryBuiltinCacheConfig) : cache := MkCache ∅ 0 config [] 0.

(** A missing field of a configuration would be a nil dereference; the
    configurations that are installed have been validated. *)
Definition maxSizeBytes (c : cache) : Z :=
  match c_config c with None => defaultMaxSizeBytes | Some cfg => default 0 (MaxSizeBytes cfg) end.
Definition forcedEvictionThresholdPercentage (c : cache) : Z :=
  match c_config c with
  | None => defaultForcedEvictionThresholdPercentage
  | Some cfg => default 0 (ForcedEvictionThresholdPercentage cfg)
  end.
Definition limit (c : cache) : Z :=
  int64_of_float (float64 (ceil_percent (forcedEvictionThresholdPercentage c) * float64 (maxSizeBytes c))).

Definition unsafeGet (c : cache) (k : value) : option cacheItem := c_items c !! String k.

Definition unsafeDelete (c : cache) (k : value) : cache :=
  match unsafeGet c k with
  | None => c
  | Some item =>
      MkCache (delete (String k) (c_items c)) (wrap64 (c_usage c - SizeInBytes (ci_value item)))
        (c_config c) (List.filter (fun e => negb (e.1 =? ci_keyElement item)%nat) (c_l c)) (c_fresh c)
  end.

(** The eviction loop; the fuel bounds the number of elements. *)
Fixpoint evict (fuel : nat) (c : cache) (size limit : Z) (dropped : nat) : option (cache * nat) :=
  match c_l c with
  | [] => Some (c, dropped)
  | (_, dropKey) :: _ =>
      if limit <? wrap64 (c_usage c + size) then
        match fuel with
        | O => None
        | S fuel => evict fuel (unsafeDelete c dropKey) size limit (S dropped)
        end
      else Some (c, dropped)
  end.

Definition unsafeInsert (c : cache) (k : value) (v : V) (expiresAt : Z) : option (cache * nat) :=
  let size := SizeInBytes v in
  let limit := limit c in
  if (0 <? limit) && (limit <? size) then Some (c, 1%nat)
  else
    match (if 0 <? limit then evict (length (c_l c)) c size limit 0 else Some (c, 0%nat)) with
    | None => None
    | Some (c, dropped) =>
        let c := unsafeDelete c k in
        let elem := c_fresh c in
        Some (MkCache (<[String k := MkItem v expiresAt elem]> (c_items c)) (wrap64 (c_usage c + size))
                (c_config c) (c_l c ++ [(elem, k)]) (S elem), dropped)
    end.

Definition InsertWithExpiry := unsafeInsert.
Definition Insert (c : cache) (k : value) (v : V) : option (cache * nat) := InsertWithExpiry c k v 0.
Definition Get (c : cache) (k : value) : option V := option_map ci_value (unsafeGet c k).
Definition Delete (c : cache) (k : value) : cache := unsafeDelete c k.
Definition UpdateConfig (c : cache) (config : option InterQueryBuiltinCacheConfig) : cache :=
  match config with
  | None => c
  | Some _ => MkCache (c_items c) (c_usage c) config (c_l c) (c_fresh c)
  end.

(** [cleanStaleValues] walks the elements that the list had at the start; the
    time is read at each element. *)
Definition clean_step (now : nat -> Z) (cd : cache * nat) (e : nat * value) : cache * nat :=
  let '(c, dropped) := cd in
  let ea := match c_items c !! String e.2 with Some item => ci_expiresAt item | None => 0 end in
  if negb (ea =? 0) && (ea <? now e.1) then (unsafeDelete c e.2, S dropped) else (c, dropped).
Definition cleanStaleValues (now : nat -> Z) (c : cache) : cache * nat :=
  fold_left (clean_step now) (c_l c) (c, 0%nat).

(** ** The invariant *)
Abbreviation key_of := (fun e : nat * value => String e.2).
Definition entry_size (items : gmap string cacheItem) (e : nat * value) : Z :=
  match items !! String e.2 with Some item => SizeInBytes (ci_value item) | None => 0 end.
Definition total_size (items : gmap string cacheItem) (l : list (nat * value)) : Z :=
  foldr (fun e s => entry_size items e + s) 0 l.

(** The list and the table hold the same keys, each once, and the usage is the
    size of what is cached. *)
Record cache_inv (c : cache) : Prop := {
  inv_keys : NoDup (map key_of (c_l c));
  inv_elems : NoDup (map fst (c_l c));
  inv_listed : forall e, e ∈ c_l c -> exists item, c_items c !! String e.2 = Some item /\ ci_keyElement item = e.1;
  inv_items : forall s item, c_items c !! s = Some item ->
    exists k, (ci_keyElement item, k) ∈ c_l c /\ String k = s;
  inv_fresh : Forall (fun e => (e.1 < c_fresh c)%nat) (c_l c);
  inv_usage : c_usage c = wrap64 (total_size (c_items c) (c_l c));
}.

Lemma cache_inv_new config : cache_inv (newCache config).
Proof.
  split; simpl; [apply NoDup_nil_2|apply NoDup_nil_2|by intros e []%not_elem_of_nil| |by apply Forall_nil|done].
  intros s item. by rewrite lookup_empty.
Qed.

(** The list without the entries of one key. *)
Definition without (s : string) (l : list (nat * value)) : list (nat * value) :=
  List.filter (fun e => negb (String.eqb (String e.2) s)) l.

Lemma without_in s l e : e ∈ without s l <-> e ∈ l /\ String e.2 <> s.
Proof.
  unfold without. rewrite !list_elem_of_In, filter_In, negb_true_iff, String.eqb_neq. done.
Qed.

Lemma without_sublist s l : without s l `sublist_of` l.
Proof.
  unfold without. induction l as [|e l IH]; simpl; [done|].
  destruct (negb _); [by apply sublist_skip|by apply sublist_cons].
Qed.

Lemma total_size_congr items items' l :
  (forall e, e ∈ l -> items !! String e.2 = items' !! String e.2) ->
  total_size items l = total_size items' l.
Proof.
  induction l as [|e l IH]; intros H; simpl; [done|]. unfold entry_size at 1 2.
  rewrite (H e) by left. f_equal. apply IH. intros e' He. apply H. by right.
Qed.

Lemma total_size_without items l e :
  NoDup (map key_of l) -> e ∈ l ->
  total_size items l = entry_size items e + total_size items (without (String e.2) l).
Proof.
  induction l as [|x l IH]; intros N He; [by apply not_elem_of_nil in He|].
  simpl in N. apply NoDup_cons in N as [Nx N]. simpl.
  apply elem_of_cons in He as [->|He].
  - rewrite String.eqb_refl. simpl. f_equal. f_equal. unfold without. symmetry.
    apply List.forallb_filter_id, forallb_forall. intros y Hy%list_elem_of_In.
    apply negb_true_iff, String.eqb_neq. intros E. apply Nx. rewrite <- E.
    apply (list_elem_of_fmap_2 key_of _ _ Hy).
  - destruct (String.eqb (String x.2) (String e.2)) eqn:E.
    + apply String.eqb_eq in E. destruct Nx. rewrite E. apply (list_elem_of_fmap_2 key_of _ _ He).
    + simpl. rewrite (IH N He). lia.
Qed.

Lemma wrap64_sub a b : wrap64 (wrap64 a - b) = wrap64 (a - b).
Proof. unfold Z.sub. apply wrap64_add_l. Qed.

(** [unsafeDelete] removes one entry from the table and from the list. *)
Lemma unsafeDelete_ok c k : cache_inv c ->
  cache_inv (unsafeDelete c k) /\
  c_items (unsafeDelete c k) = delete (String k) (c_items c) /\
  c_l (unsafeDelete c k) = without (String k) (c_l c) /\
  c_config (unsafeDelete c k) = c_config c /\ c_fresh (unsafeDelete c k) = c_fresh c.
Proof.
  intros I. unfold unsafeDelete, unsafeGet. destruct (c_items c !! String k) as [item|] eqn:Hk.
  2:{ split_ands; [done|by rewrite delete_id| |done|done]. symmetry. unfold without.
      apply List.forallb_filter_id, forallb_forall. intros e He%list_elem_of_In.
      apply negb_true_iff, String.eqb_neq. intros E. destruct (inv_listed c I e He) as (it & Hi & _). congruence. }
  destruct (inv_items c I _ _ Hk) as (k0 & Hin & Ek).
  assert (L : List.filter (fun e => negb (e.1 =? ci_keyElement item)%nat) (c_l c) = without (String k) (c_l c)).
  { unfold without. apply List.filter_ext_in. intros e He%list_elem_of_In. f_equal.
    apply eq_true_iff_eq. rewrite Nat.eqb_eq, String.eqb_eq. split; intros Q.
    - by rewrite (NoDup_map_inj fst _ _ _ (inv_elems c I) He Hin Q).
    - by rewrite (NoDup_map_inj key_of _ _ _ (inv_keys c I) He Hin (eq_trans Q (eq_sym Ek))). }
  rewrite L. split_ands; [|done..]. pose proof (without_sublist (String k) (c_l c)) as Sub.
  split; simpl.
  - eapply sublist_NoDup; [apply I|]. by apply fmap_sublist.
  - eapply sublist_NoDup; [apply I|]. by apply fmap_sublist.
  - intros e [He Ne]%without_in. rewrite lookup_delete_ne by done. by apply (inv_listed c I).
  - intros s it [Ns Hs]%lookup_delete_Some. destruct (inv_items c I s it Hs) as (k' & Hk' & <-).
    exists k'. split; [|done]. by apply without_in.
  - eapply Forall_sublist; [exact Sub|apply I].
  - rewrite (inv_usage c I), wrap64_sub. f_equal.
    rewrite (total_size_without _ _ _ (inv_keys c I) Hin). simpl. rewrite Ek.
    unfold entry_size at 1. simpl. rewrite Ek, Hk.
    rewrite (total_size_congr (delete (String k) (c_items c)) (c_items c)); [lia|].
    intros e [He Ne]%without_in. by rewrite lookup_delete_ne.
Qed.

(** ** Eviction *)
Definition sized (c : cache) : Prop := forall e, e ∈ c_l c -> 0 <= entry_size (c_items c) e.

Lemma total_size_nonneg items l : (forall e, e ∈ l -> 0 <= entry_size items e) -> 0 <= total_size items l.
Proof.
  induction l as [|e l IH]; intros H; simpl; [lia|].
  pose proof (H e ltac:(left)). specialize (IH ltac:(intros; apply H; by right)). lia.
Qed.

Lemma usage_exact c : cache_inv c -> sized c -> total_size (c_items c) (c_l c) < two63 ->
  c_usage c = total_size (c_items c) (c_l c).
Proof.
  intros I Z T. rewrite (inv_usage c I). apply wrap64_small. pose proof (total_size_nonneg _ _ Z).
  unfold in_int64, two63 in *. apply andb_true_iff. rewrite Z.leb_le, Z.ltb_lt. lia.
Qed.

(** Deleting the oldest entry drops the head of the list. *)
Lemma delete_front c e l : cache_inv c -> c_l c = e :: l ->
  let c' := unsafeDelete c e.2 in
  cache_inv c' /\ c_l c' = l /\ c_items c' ⊆ c_items c /\ c_config c' = c_config c /\ c_fresh c' = c_fresh c /\
  (forall x, x ∈ l -> c_items c' !! String x.2 = c_items c !! String x.2).
Proof.
  intros I E c'. destruct (unsafeDelete_ok c e.2 I) as (I' & Di & Dl & Dc & Df).
  pose proof (inv_keys c I) as N. rewrite E in N. apply NoDup_cons in N as [Ne N].
  assert (W : forall x, x ∈ l -> String x.2 <> String e.2).
  { intros x Hx Q. apply Ne. rewrite <- Q. apply (list_elem_of_fmap_2 key_of _ _ Hx). }
  unfold c'. rewrite Dl, E, Di, Dc, Df. split_ands; [done| |apply delete_subseteq|done..|].
  - unfold without. simpl. rewrite String.eqb_refl. simpl.
    apply List.forallb_filter_id, forallb_forall. intros x Hx%list_elem_of_In.
    by apply negb_true_iff, String.eqb_neq, W.
  - intros x Hx. by rewrite lookup_delete_ne by (intros Q; by apply (W x Hx)).
Qed.

Lemma evict_ok fuel : forall c size lim d,
  cache_inv c -> sized c -> 0 <= size -> total_size (c_items c) (c_l c) + size < two63 ->
  (length (c_l c) <= fuel)%nat ->
  exists n c', evict fuel c size lim d = Some (c', (d + n)%nat) /\
    cache_inv c' /\ sized c' /\ c_l c' = drop n (c_l c) /\ c_items c' ⊆ c_items c /\
    c_config c' = c_config c /\ c_fresh c' = c_fresh c /\
    (c_l c' = [] \/ total_size (c_items c') (c_l c') + size <= lim) /\
    (forall m, (m < n)%nat -> lim < total_size (c_items c) (drop m (c_l c)) + size).
Proof.
  induction fuel as [|fuel IH]; intros c size lim d I Z Hs T Hf.
  - destruct (c_l c) as [|e l] eqn:E; [|simpl in Hf; lia]. exists 0%nat, c. simpl. rewrite E, Nat.add_0_r.
    split_ands; try done; [by left|lia].
  - simpl. destruct (c_l c) as [|[i k] l] eqn:E.
    + exists 0%nat, c. rewrite E, Nat.add_0_r. split_ands; try done; [by left|lia].
    + rewrite <- E in T. pose proof (total_size_nonneg _ _ Z) as T0.
      rewrite (usage_exact c I Z) by lia.
      rewrite wrap64_small by (unfold in_int64, two63 in *; apply andb_true_iff; rewrite Z.leb_le, Z.ltb_lt; lia).
      destruct (lim <? total_size (c_items c) (c_l c) + size) eqn:L.
      2:{ apply Z.ltb_ge in L. exists 0%nat, c. rewrite E, Nat.add_0_r. rewrite E in L.
          split_ands; try done; [by right|lia]. }
      apply Z.ltb_lt in L. destruct (delete_front c (i, k) l I E) as (I' & L' & S' & C' & F' & G').
      set (c' := unsafeDelete c (i, k).2) in *. change (unsafeDelete c k) with c'.
      assert (Gs : forall x, x ∈ l -> entry_size (c_items c') x = entry_size (c_items c) x).
      { intros x Hx. unfold entry_size. by rewrite G'. }
      assert (Gt : forall m, total_size (c_items c') (drop m l) = total_size (c_items c) (drop m l)).
      { intros m. apply total_size_congr. intros x Hx. apply G'. rewrite <- (take_drop m l). apply elem_of_app. by right. }
      rewrite E in T, L. simpl in T. pose proof (Z (i, k) ltac:(rewrite E; left)) as Z1.
      pose proof (Gt 0%nat) as Gt0. rewrite !drop_0 in Gt0.
      destruct (IH c' size lim (S d)) as (n & c'' & -> & I2 & Z2 & L2 & S2 & C2 & F2 & B2 & M2).
      * done.
      * intros x Hx. rewrite L' in Hx. rewrite Gs by done. apply Z. rewrite E. by right.
      * done.
      * rewrite L', Gt0. lia.
      * rewrite L'. simpl in Hf. lia.
      * exists (S n), c''. rewrite L2, L'. split_ands; try done; [f_equal; f_equal; lia|by etrans|congruence|congruence| |].
        -- by rewrite L2, L' in B2.
        -- intros [|m] Hm; [rewrite drop_0; exact L|]. specialize (M2 m ltac:(lia)). rewrite L', Gt in M2. done.
Qed.

(** Without any assumption on sizes the loop still ends. *)
Lemma evict_inv fuel : forall c size lim d, cache_inv c -> (length (c_l c) <= fuel)%nat ->
  exists n c', evict fuel c size lim d = Some (c', n) /\ cache_inv c'.
Proof.
  induction fuel as [|fuel IH]; intros c size lim d I Hf; simpl;
    destruct (c_l c) as [|[i k] l] eqn:E; simpl in Hf; try (by eexists _, _); [lia|].
  destruct (lim <? _); [|by eexists _, _].
  destruct (delete_front c (i, k) l I E) as (I' & L' & _). apply IH; [done|]. simpl in L'. rewrite L'. lia.
Qed.

(** The end of an insertion: the old entry of the key goes, the new one is the
    youngest. *)
Definition put_back (c : cache) (k : value) (v : V) (expiresAt : Z) : cache :=
  let c := unsafeDelete c k in
  MkCache (<[String k := MkItem v expiresAt (c_fresh c)]> (c_items c)) (wrap64 (c_usage c + SizeInBytes v))
    (c_config c) (c_l c ++ [(c_fresh c, k)]) (S (c_fresh c)).

Lemma total_size_app items l l' : total_size items (l ++ l') = total_size items l + total_size items l'.
Proof. induction l as [|e l IH]; simpl; [lia|]. rewrite IH. lia. Qed.

Lemma put_back_list c k v ea : cache_inv c ->
  c_l (put_back c k v ea) = without (String k) (c_l c) ++ [(c_fresh c, k)] /\
  c_items (put_back c k v ea) = <[String k := MkItem v ea (c_fresh c)]> (delete (String k) (c_items c)) /\
  c_config (put_back c k v ea) = c_config c /\
  total_size (c_items (put_back c k v ea)) (c_l (put_back c k v ea)) =
    total_size (c_items c) (without (String k) (c_l c)) + SizeInBytes v.
Proof.
  intros I. destruct (unsafeDelete_ok c k I) as (I' & Di & Dl & Dc & Df). unfold put_back. simpl.
  rewrite Di, Dl, Df, Dc. split_ands; [done..|]. rewrite total_size_app. simpl. unfold entry_size at 1. simpl.
  rewrite lookup_insert_eq. simpl. rewrite Z.add_0_r. f_equal.
  apply total_size_congr. intros e [_ Ne]%without_in. by rewrite lookup_insert_ne, lookup_delete_ne.
Qed.

Lemma put_back_inv c k v ea : cache_inv c -> cache_inv (put_back c k v ea).
Proof.
  intros I. destruct (unsafeDelete_ok c k I) as (I' & Di & Dl & Dc & Df).
  destruct (put_back_list c k v ea I) as (Pl & Pi & _ & Pt).
  assert (Fr : forall e, e ∈ c_l c -> (e.1 < c_fresh c)%nat).
  { intros e He. by apply (proj1 (Forall_forall _ _) (inv_fresh c I)). }
  split.
  - rewrite Pl, map_app. apply NoDup_app. split_ands; [rewrite <- Dl; apply I'| |apply NoDup_singleton].
    intros s (e & -> & [_ Ne]%without_in)%list_elem_of_fmap. simpl. by rewrite list_elem_of_singleton.
  - rewrite Pl, map_app. apply NoDup_app. split_ands; [rewrite <- Dl; apply I'| |apply NoDup_singleton].
    intros s (e & -> & [He _]%without_in)%list_elem_of_fmap. simpl. rewrite list_elem_of_singleton.
    specialize (Fr e He). lia.
  - intros e. rewrite Pl, Pi, elem_of_app, list_elem_of_singleton. intros [[He Ne]%without_in| ->].
    + rewrite lookup_insert_ne, lookup_delete_ne by done. by apply (inv_listed c I).
    + simpl. rewrite lookup_insert_eq. by eexists.
  - intros s item. rewrite Pi, Pl. intros [[<- <-]|[Ns [_ Hs]%lookup_delete_Some]]%lookup_insert_Some.
    + exists k. split; [|done]. apply elem_of_app. right. by apply list_elem_of_singleton.
    + destruct (inv_items c I s item Hs) as (k' & Hk' & <-). exists k'. split; [|done].
      apply elem_of_app. left. apply without_in. by split.
  - rewrite Pl. unfold put_back. cbn [c_fresh]. rewrite Df. apply Forall_forall. intros e.
    rewrite elem_of_app, list_elem_of_singleton. intros [[He _]%without_in| ->]; simpl; [|lia].
    specialize (Fr e He). lia.
  - rewrite Pt. unfold put_back. cbn [c_usage]. rewrite (inv_usage _ I'), wrap64_add_l, Dl, Di. f_equal. f_equal.
    apply total_size_congr. intros e [_ Ne]%without_in. by rewrite lookup_delete_ne.
Qed.

Lemma unsafeInsert_unfold c k v ea : unsafeInsert c k v ea =
  if (0 <? limit c) && (limit c <? SizeInBytes v) then Some (c, 1%nat)
  else '(c', d) ← (if 0 <? limit c then evict (length (c_l c)) c (SizeInBytes v) (limit c) 0 else Some (c, 0%nat));
       Some (put_back c' k v ea, d).
Proof.
  unfold unsafeInsert. destruct (_ && _); [done|].
  destruct (if 0 <? limit c then _ else _) as [[c' d]|]; done.
Qed.

Lemma unsafeInsert_inv c k v ea : cache_inv c ->
  exists c' d, unsafeInsert c k v ea = Some (c', d) /\ cache_inv c'.
Proof.
  intros I. rewrite unsafeInsert_unfold. destruct (_ && _); [by eexists _, _|].
  destruct (0 <? limit c).
  - destruct (evict_inv (length (c_l c)) c (SizeInBytes v) (limit c) 0 I ltac:(lia)) as (n & c' & -> & I').
    eexists _, _. split; [done|]. by apply put_back_inv.
  - eexists _, _. split; [done|]. by apply put_back_inv.
Qed.

(** ** Stale entries *)
Definition stale (now : nat -> Z) (items : gmap string cacheItem) (e : nat * value) : bool :=
  let ea := match items !! String e.2 with Some item => ci_expiresAt item | None => 0 end in
  negb (ea =? 0) && (ea <? now e.1).

Lemma without_middle pre e l : NoDup (map key_of (pre ++ e :: l)) ->
  without (String e.2) (pre ++ e :: l) = pre ++ l.
Proof.
  rewrite map_app. simpl. intros (_ & N1 & [N2 _]%NoDup_cons)%NoDup_app. unfold without.
  rewrite List.filter_app. simpl. rewrite String.eqb_refl. simpl.
  f_equal; apply List.forallb_filter_id, forallb_forall; intros x Hx%list_elem_of_In;
    apply negb_true_iff, String.eqb_neq; intros Q.
  - apply (N1 (String x.2)); [apply (list_elem_of_fmap_2 key_of _ _ Hx)|]. rewrite Q. left.
  - apply N2. rewrite <- Q. apply (list_elem_of_fmap_2 key_of _ _ Hx).
Qed.

Lemma clean_ok now : forall l c d pre, cache_inv c -> c_l c = pre ++ l ->
  exists c' n, fold_left (clean_step now) l (c, d) = (c', (d + n)%nat) /\ cache_inv c' /\
    c_l c' = pre ++ List.filter (fun e => negb (stale now (c_items c) e)) l /\ c_items c' ⊆ c_items c /\
    length (List.filter (stale now (c_items c)) l) = n /\ c_config c' = c_config c.
Proof.
  induction l as [|e l IH]; intros c d pre I E; simpl.
  - exists c, 0%nat. rewrite E, Nat.add_0_r. done.
  - fold (stale now (c_items c) e). destruct (stale now (c_items c) e) eqn:S; simpl.
    + destruct (unsafeDelete_ok c e.2 I) as (I' & Di & Dl & Dc & Df).
      pose proof (inv_keys c I) as N. rewrite E in N.
      rewrite E, without_middle in Dl by done.
      destruct (IH (unsafeDelete c e.2) (Datatypes.S d) pre I' Dl) as (c' & n & -> & I2 & L2 & S2 & N2 & C2).
      assert (Q : forall x, x ∈ l -> stale now (c_items (unsafeDelete c e.2)) x = stale now (c_items c) x).
      { intros x Hx. unfold stale. rewrite Di, lookup_delete_ne; [done|]. intros K.
        rewrite map_app in N. apply NoDup_app in N as (_ & _ & [N _]%NoDup_cons). apply N. rewrite K.
        apply (list_elem_of_fmap_2 key_of _ _ Hx). }
      exists c', (Datatypes.S n). split_ands.
      * f_equal. lia.
      * done.
      * rewrite L2. f_equal. apply List.filter_ext_in. intros x Hx%list_elem_of_In. by rewrite Q.
      * etrans; [exact S2|]. rewrite Di. apply delete_subseteq.
      * rewrite <- N2. f_equal. f_equal. apply List.filter_ext_in. intros x Hx%list_elem_of_In. by rewrite Q.
      * congruence.
    + destruct (IH c d (pre ++ [e]) I) as (c' & n & -> & I2 & L2 & S2 & N2 & C2);
        [by rewrite <- app_assoc|].
      exists c', n. rewrite L2, <- app_assoc. done.
Qed.

(** What the list holds is what [Get] finds, in a part of a cache. *)
Lemma Get_part c c' k : cache_inv c -> cache_inv c' -> c_items c' ⊆ c_items c ->
  Get c' k = if bool_decide (String k ∈ map key_of (c_l c')) then Get c k else None.
Proof.
  intros I I' S. unfold Get, unsafeGet. case_bool_decide as H.
  - apply list_elem_of_fmap in H as (e & E & He). rewrite E.
    destruct (inv_listed c' I' e He) as (item & Hi & _). rewrite Hi.
    by rewrite (lookup_weaken _ _ _ _ Hi S).
  - destruct (c_items c' !! String k) as [item|] eqn:Hi; [|done]. destruct H.
    destruct (inv_items c' I' _ _ Hi) as (k' & Hk & <-). apply (list_elem_of_fmap_2 key_of _ _ Hk).
Qed.

(** [insert_spec] below is the behaviour of an insertion on any consistent cache. *)
Lemma entry_size_nonneg items e : (forall v, 0 <= SizeInBytes v) -> 0 <= entry_size items e.
Proof. intros H. unfold entry_size. destruct (items !! String e.2); [apply H|lia]. Qed.

Lemma total_size_without_le items s l : (forall v, 0 <= SizeInBytes v) ->
  total_size items (without s l) <= total_size items l.
Proof.
  intros H. induction l as [|e l IH]; simpl; [lia|]. pose proof (entry_size_nonneg items e H).
  destruct (negb _); simpl; lia.
Qed.

Lemma Get_put_back c k v ea k' : cache_inv c ->
  Get (put_back c k v ea) k' = if String.eqb (String k') (String k) then Some v else Get c k'.
Proof.
  intros I. destruct (put_back_list c k v ea I) as (_ & Pi & _). unfold Get, unsafeGet. rewrite Pi.
  destruct (String.eqb (String k') (String k)) eqn:E.
  - apply String.eqb_eq in E as ->. by rewrite lookup_insert_eq.
  - apply String.eqb_neq in E. by rewrite lookup_insert_ne, lookup_delete_ne.
Qed.

Definition evicted_to (c c' : cache) (size lim : Z) (n : nat) : Prop :=
  cache_inv c' /\ c_l c' = drop n (c_l c) /\ c_items c' ⊆ c_items c /\ c_config c' = c_config c /\
  c_fresh c' = c_fresh c /\ (lim <= 0 -> n = 0%nat) /\
  (0 < lim -> total_size (c_items c') (c_l c') + size <= lim) /\
  (forall m, (m < n)%nat -> lim < total_size (c_items c) (drop m (c_l c)) + size).

Lemma evict_spec c size : cache_inv c -> (forall v, 0 <= SizeInBytes v) -> 0 <= size ->
  (0 < limit c -> size <= limit c) -> total_size (c_items c) (c_l c) + size < two63 ->
  exists c' n, (if 0 <? limit c then evict (length (c_l c)) c size (limit c) 0 else Some (c, 0%nat)) = Some (c', n) /\
    evicted_to c c' size (limit c) n.
Proof.
  intros I Hs H0 Hl T. destruct (0 <? limit c) eqn:L.
  - apply Z.ltb_lt in L. destruct (evict_ok (length (c_l c)) c size (limit c) 0 I) as
      (n & c' & -> & I' & Z' & L' & S' & C' & F' & B' & M'); try done.
    { intros e _. by apply entry_size_nonneg. }
    exists c', n. split; [done|]. unfold evicted_to. split_ands; try done; [lia|].
    intros _. destruct B' as [->|B]; [simpl; specialize (Hl L); lia|done].
  - apply Z.ltb_ge in L. exists c, 0%nat. unfold evicted_to. split_ands; try done; lia.
Qed.

Lemma insert_spec c k v ea : cache_inv c -> (forall v, 0 <= SizeInBytes v) ->
  total_size (c_items c) (c_l c) + SizeInBytes v < two63 ->
  exists c' dropped, unsafeInsert c k v ea = Some (c', dropped) /\
  if (0 <? limit c) && (limit c <? SizeInBytes v) then c' = c /\ dropped = 1%nat
  else
    c_l c' = without (String k) (drop dropped (c_l c)) ++ [(c_fresh c, k)] /\
    (limit c <= 0 -> dropped = 0%nat) /\
    (0 < limit c -> c_usage c' <= limit c) /\
    (forall m, (m < dropped)%nat -> limit c < total_size (c_items c) (drop m (c_l c)) + SizeInBytes v) /\
    Get c' k = Some v /\
    forall k', String k' <> String k -> Get c' k' =
      if bool_decide (String k' ∈ map key_of (drop dropped (c_l c))) then Get c k' else None.
Proof.
  intros I Hs T. rewrite unsafeInsert_unfold. destruct (_ && _) eqn:G; [by eexists _, _|].
  destruct (evict_spec c (SizeInBytes v) I Hs (Hs v)) as (c1 & n & -> & I1 & L1 & S1 & C1 & F1 & N1 & B1 & M1).
  { intros L. apply andb_false_iff in G as [G|G]; [apply Z.ltb_ge in G; lia|by apply Z.ltb_ge in G]. }
  { done. }
  cbn [mbind option_bind]. destruct (put_back_list c1 k v ea I1) as (Pl & Pi & Pc & Pt).
  pose proof (put_back_inv c1 k v ea I1) as I2.
  eexists _, _. split; [done|]. split_ands.
  - by rewrite Pl, L1, F1.
  - done.
  - intros L. pose proof (total_size_without_le (c_items c1) (String k) (c_l c1) Hs).
    pose proof (entry_size_nonneg) as E. specialize (B1 L).
    assert (limit c < two63).
    { unfold limit, int64_of_float. destruct (in_int64 _) eqn:J; [|done].
      unfold in_int64 in J. apply andb_true_iff in J as [_ J]. by apply Z.ltb_lt in J. }
    rewrite usage_exact; [lia|done| |lia]. intros e _. by apply entry_size_nonneg.
  - done.
  - rewrite Get_put_back by done. by rewrite String.eqb_refl.
  - intros k' Ne. rewrite Get_put_back by done. rewrite (proj2 (String.eqb_neq _ _) Ne).
    rewrite (Get_part c c1 k') by done. by rewrite L1.
Qed.

(** ** Sequences of operations *)
Inductive cache_op : Type :=
| OpInsert (k : value) (v : V) (expiresAt : Z)
| OpDelete (k : value)
| OpUpdateConfig (config : option InterQueryBuiltinCacheConfig)
| OpClean (now : nat -> Z).

Definition cache_step (c : cache) (o : cache_op) : option cache :=
  match o with
  | OpInsert k v ea => fst <$> InsertWithExpiry c k v ea
  | OpDelete k => Some (Delete c k)
  | OpUpdateConfig cfg => Some (UpdateConfig c cfg)
  | OpClean now => Some (cleanStaleValues now c).1
  end.
Fixpoint cache_run (c : cache) (os : list cache_op) : option cache :=
  match os with
  | [] => Some c
  | o :: os => c' ← cache_step c o; cache_run c' os
  end.

Lemma UpdateConfig_inv c cfg : cache_inv c -> cache_inv (UpdateConfig c cfg).
Proof. intros I. destruct cfg; [|done]. by destruct I. Qed.

Lemma cache_step_inv c o : cache_inv c -> exists c', cache_step c o = Some c' /\ cache_inv c'.
Proof.
  intros I. destruct o as [k v ea|k|cfg|now]; simpl.
  - unfold InsertWithExpiry. destruct (unsafeInsert_inv c k v ea I) as (c' & d & -> & I'). by eexists.
  - eexists. split; [done|]. by apply unsafeDelete_ok.
  - eexists. split; [done|]. by apply UpdateConfig_inv.
  - eexists. split; [done|].
    destruct (clean_ok now (c_l c) c 0 [] I eq_refl) as (c' & n & E & I' & _).
    unfold cleanStaleValues. by rewrite E.
Qed.

Lemma cache_run_inv os : forall c, cache_inv c -> exists c', cache_run c os = Some c' /\ cache_inv c'.
Proof.
  induction os as [|o os IH]; intros c I; simpl; [by eexists|].
  destruct (cache_step_inv c o I) as (c' & -> & I'). by apply IH.
Qed.

(** ** The limit bounds the usage *)
Lemma total_size_filter_le items p l : (forall v, 0 <= SizeInBytes v) ->
  total_size items (List.filter p l) <= total_size items l.
Proof.
  intros H. induction l as [|e l IH]; simpl; [lia|]. pose proof (entry_size_nonneg items e H).
  destruct (p e); simpl; lia.
Qed.

Lemma total_size_part c c' : cache_inv c' -> c_items c' ⊆ c_items c ->
  total_size (c_items c') (c_l c') = total_size (c_items c) (c_l c').
Proof.
  intros I S. apply total_size_congr. intros e He. destruct (inv_listed c' I e He) as (item & Hi & _).
  rewrite Hi. symmetry. by eapply lookup_weaken.
Qed.

Definition within (cfg : InterQueryBuiltinCacheConfig) (m : Z) (c : cache) : Prop :=
  cache_inv c /\ c_config c = Some cfg /\ total_size (c_items c) (c_l c) <= m.

Lemma insert_within cfg m c k v ea c' d : (forall v, 0 <= SizeInBytes v) -> 0 < m < 2 ^ 62 -> limit c = m ->
  within cfg m c -> unsafeInsert c k v ea = Some (c', d) -> within cfg m c'.
Proof.
  intros Hs Hm El (I & C & T). rewrite unsafeInsert_unfold. destruct (_ && _) eqn:G; [by intros [= <- <-]|].
  assert (Sz : SizeInBytes v <= m).
  { apply andb_false_iff in G as [G|G]; apply Z.ltb_ge in G; lia. }
  destruct (evict_spec c (SizeInBytes v) I Hs (Hs v)) as (c1 & n & -> & I1 & L1 & S1 & C1 & F1 & N1 & B1 & M1).
  { intros _. by rewrite El. }
  { unfold two63. lia. }
  intros [= <- <-]. destruct (put_back_list c1 k v ea I1) as (Pl & Pi & Pc & Pt).
  unfold within; split_ands; [by apply put_back_inv|congruence|]. rewrite Pt.
  pose proof (total_size_without_le (c_items c1) (String k) (c_l c1) Hs). specialize (B1 ltac:(lia)). lia.
Qed.

Lemma step_within cfg m c o c' : (forall v, 0 <= SizeInBytes v) -> 0 < m < 2 ^ 62 -> limit c = m ->
  (forall g, o <> OpUpdateConfig g) -> within cfg m c -> cache_step c o = Some c' -> within cfg m c'.
Proof.
  intros Hs Hm El No W. pose proof W as (I & C & T). destruct o as [k v ea|k|g|now]; simpl.
  - unfold InsertWithExpiry. destruct (unsafeInsert c k v ea) as [[c1 d]|] eqn:E; intros [= <-].
    by eapply insert_within.
  - intros [= <-]. destruct (unsafeDelete_ok c k I) as (I' & Di & Dl & Dc & _).
    unfold within; split_ands; [done|by rewrite <- C|]. unfold Delete. rewrite (total_size_part c) by (rewrite ?Di; by try apply delete_subseteq).
    rewrite Dl. pose proof (total_size_without_le (c_items c) (String k) (c_l c) Hs). lia.
  - by destruct (No g).
  - intros [= <-]. unfold cleanStaleValues.
    destruct (clean_ok now (c_l c) c 0 [] I eq_refl) as (c1 & n & -> & I' & L' & S' & _ & C').
    unfold within; split_ands; [done|by rewrite <- C|]. cbn [fst]. rewrite (total_size_part c) by done. rewrite L'. simpl.
    pose proof (total_size_filter_le (c_items c) (fun e => negb (stale now (c_items c) e)) (c_l c) Hs). lia.
Qed.
End Cache.

(** ** Properties *)

(** The limit of a validated configuration: any threshold from 1 to 100 per
    cent is rounded up to the whole maximum. *)
Lemma limit_max {V} (c : cache (V := V)) cfg m t :
  c_config c = Some cfg -> MaxSizeBytes cfg = Some m -> ForcedEvictionThresholdPercentage cfg = Some t ->
  0 < t <= 100 -> 0 < m < 2 ^ 53 -> limit c = m.
Proof.
  intros C M T Ht Hm. unfold limit, maxSizeBytes, forcedEvictionThresholdPercentage. rewrite C, M, T. simpl.
  assert (ceil_percent t = 1) as ->.
  { unfold ceil_percent. pose proof (Z.div_mod (- t) 100 ltac:(lia)). pose proof (Z.mod_pos_bound (- t) 100). lia. }
  rewrite !(float64_exact m), Z.mul_1_l, (float64_exact m) by lia.
  unfold int64_of_float, in_int64, two63. by rewrite (proj2 (Z.leb_le _ _)), (proj2 (Z.ltb_lt _ _)) by lia.
Qed.

Lemma validated_threshold cfg cfg' t : validateAndInjectDefaults cfg = Ok cfg' ->
  ForcedEvictionThresholdPercentage cfg' = Some t -> 0 <= t <= 100.
Proof.
  unfold validateAndInjectDefaults. destruct (ForcedEvictionThresholdPercentage cfg) as [t0|] eqn:E; simpl.
  - destruct (t0 <? 0) eqn:E1; [done|]. destruct (100 <? t0) eqn:E2; [done|]. simpl.
    apply Z.ltb_ge in E1, E2. destruct (StaleEntryEvictionPeriodSeconds cfg) as [p|];
      [destruct (p <? 0); [done|]|]; simpl; intros [= <-]; simpl; intros [= <-]; lia.
  - destruct (StaleEntryEvictionPeriodSeconds cfg) as [p|];
      [destruct (p <? 0); [done|]|]; simpl; intros [= <-]; simpl; intros [= <-];
      unfold defaultForcedEvictionThresholdPercentage; lia.
Qed.

(** The cache never loops: every sequence of insertions, deletions, changes
    of configuration and cleanings completes.  Afterwards the table and the list
    hold the same keys, each once, and the usage is the sum of the sizes of the
    cached values, as a 64-bit integer.  Cleaning then removes exactly the
    entries that have expired. *)
Theorem cache_consistent {V} (SizeInBytes : V -> Z) (String : value -> string) config
    (os : list (cache_op (V := V))) :
  exists c, cache_run SizeInBytes String (newCache config) os = Some c /\ cache_inv SizeInBytes String c /\
    forall now, let '(c', dropped) := cleanStaleValues SizeInBytes String now c in
      cache_inv SizeInBytes String c' /\
      c_l c' = List.filter (fun e => negb (stale String now (c_items c) e)) (c_l c) /\
      dropped = length (List.filter (stale String now (c_items c)) (c_l c)) /\
      forall k, Get String c' k =
        if bool_decide (String k ∈ map (fun e => String e.2) (c_l c')) then Get String c k else None.
Proof.
  destruct (cache_run_inv SizeInBytes String os _ (cache_inv_new SizeInBytes String config)) as (c & R & I).
  exists c. split_ands; [done..|]. intros now. unfold cleanStaleValues.
  destruct (clean_ok SizeInBytes String now (c_l c) c 0 [] I eq_refl) as (c' & n & -> & I' & L & S & N & _).
  split_ands; [done..|]. intros k. by eapply Get_part.
Qed.


(** C35: Under a validated configuration with a positive maximum below 2^53 bytes
    and a positive eviction threshold (a zero of either means no limit), no
    sequence of insertions, deletions and cleanings, without an update of the
    configuration, lets the usage exceed the maximum, and the usage never
    overflows: it is the sum of the sizes of the cached values. *)
Theorem usage_bounded {V} (SizeInBytes : V -> Z) (String : value -> string) cfg cfg' m t os c :
  (forall v, 0 <= SizeInBytes v) ->
  validateAndInjectDefaults cfg = Ok cfg' -> MaxSizeBytes cfg' = Some m -> 0 < m < 2 ^ 53 ->
  ForcedEvictionThresholdPercentage cfg' = Some t -> t <> 0 ->
  Forall (fun o => forall g, o <> OpUpdateConfig g) os ->
  cache_run SizeInBytes String (newCache (Some cfg')) os = Some c ->
  limit c = m /\ 0 <= c_usage c <= m /\ c_usage c = total_size SizeInBytes String (c_items c) (c_l c).
Proof.
  intros Hs Hv HM Hm HT Ht Ho. pose proof (validated_threshold _ _ _ Hv HT) as Rt.
  assert (El : forall c : cache (V := V), within SizeInBytes String cfg' m c -> limit c = m).
  { intros c0 (_ & C & _). eapply limit_max; eauto. lia. }
  assert (W : within SizeInBytes String cfg' m (newCache (Some cfg'))).
  { unfold within; split_ands; [apply cache_inv_new|done|simpl; lia]. }
  revert W. generalize (newCache (V := V) (Some cfg')). induction Ho as [|o os No Ho IH]; intros c0 W; simpl.
  - intros [= <-]. split; [by apply El|]. destruct W as (I & _ & T).
    assert (P : forall e, 0 <= entry_size SizeInBytes String (c_items c0) e) by (intros; by apply entry_size_nonneg).
    pose proof (total_size_nonneg SizeInBytes String (c_items c0) (c_l c0) (fun e _ => P e)).
    rewrite (usage_exact SizeInBytes String c0 I (fun e _ => P e)) by (unfold two63; lia). lia.
  - destruct (cache_step SizeInBytes String c0 o) as [c1|] eqn:E; [|done]. simpl. apply IH.
    eapply step_within; eauto. lia.
Qed.

(** A cache of at most 10 bytes of values that are their own size. *)
Definition ex_config : InterQueryBuiltinCacheConfig := MkConfig (Some 10) (Some 50) (Some 0).
Definition ex_String (v : value) : string := match v with Str s => s | _ => "?" end.
Definition ex_ops : list (cache_op (V := N)) :=
  [OpInsert (Str "a") 4%N 0; OpInsert (Str "b") 4%N 0; OpClean (fun _ => 7)].
Definition ex_cache : option (cache (V := N)) := cache_run Z.of_N ex_String (newCache (Some ex_config)) ex_ops.

Lemma ex_ops_insert : Forall (fun o => forall g, o <> OpUpdateConfig g) ex_ops.
Proof. unfold ex_ops. rewrite !Forall_cons, Forall_nil. split_ands; [discriminate|discriminate|discriminate|exact I]. Qed.
Definition ex_limit : option (Z * Z) :=
  c ← ex_cache; Some (limit c, total_size Z.of_N ex_String (c_items c) (c_l c)).


Lemma usage_bounded_witness : exists c, ex_cache = Some c /\ limit c = 10 /\ 0 <= c_usage c <= 10.
Proof.
  assert (L : ex_limit = Some (10, 8)) by (vm_compute; reflexivity). unfold ex_limit in L.
  destruct ex_cache as [c|] eqn:E; [|discriminate L]. clear L. exists c. split; [done|].
  destruct (usage_bounded Z.of_N ex_String ex_config ex_config 10 50 ex_ops c) as (H1 & H2 & _);
    [apply N2Z.is_nonneg|reflexivity|reflexivity|lia|reflexivity|lia|exact ex_ops_insert|exact E|exact (conj H1 H2)].
Defined.
