(* ===== verification/UnionFind.v ===== *)
(** The union-find structure of copy propagation:
    [src/topdown/copypropagation/unionfind.go], and [makeDisjointSets] of
    [src/topdown/copypropagation/copypropagation.go].

    The elements are variables, named by strings: [makeDisjointSets] puts
    nothing else into the structure, and equality and hash of variables are
    those of their names, so the two hash maps are [gmap]s.  A
    [*unionFindRoot] is a pointer into a heap of roots, which are compared by
    pointer and mutated in place.  [Find] recurses along the parents; its fuel
    is the number of elements.  [None] is a run that panics or does not
    return. *)
From Stdlib Require Import ZArith Lia String.
From stdpp Require Import base gmap list strings relations.
From S2P Require Import Prelude Value SetTable.

Record unionFindRoot : Type := MkRoot { key : string; constant : option value }.
Definition newUnionFindRoot (k : string) : unionFindRoot := MkRoot k None.

Record unionFind : Type := MkUF {
  uf_roots : gmap string nat;
  uf_parents : gmap string string;
  uf_heap : list unionFindRoot;
}.
Definition newUnionFind : unionFind := MkUF ∅ ∅ [].

Fixpoint Find (fuel : nat) (uf : unionFind) (v : string) : option (option nat) :=
  match uf_parents uf !! v with
  | None => Some None
  | Some parent =>
      if String.eqb parent v then
        match uf_roots uf !! v with Some r => Some (Some r) | None => None end
      else match fuel with O => None | S fuel => Find fuel uf parent end
  end.
Definition find (uf : unionFind) (v : string) : option (option nat) := Find (size (uf_parents uf)) uf v.

Definition MakeSet (uf : unionFind) (v : string) : option (unionFind * nat) :=
  match find uf v with
  | None => None
  | Some (Some root) => Some (uf, root)
  | Some None =>
      let root := length (uf_heap uf) in
      Some (MkUF (<[v := root]> (uf_roots uf)) (<[v := v]> (uf_parents uf))
              (uf_heap uf ++ [newUnionFindRoot v]), root)
  end.

Definition set_constant (uf : unionFind) (p : nat) (c : option value) : unionFind :=
  MkUF (uf_roots uf) (uf_parents uf) (alter (fun r => MkRoot (key r) c) p (uf_heap uf)).

(** [rank r1 r2] is true when the first root is kept.  The root that is
    returned is [None] with [ok == false]. *)
Definition Merge (rank : unionFindRoot -> unionFindRoot -> bool) (uf : unionFind) (a b : string) :
    option (unionFind * option nat) :=
  '(uf, p1) ← MakeSet uf a;
  '(uf, p2) ← MakeSet uf b;
  if (p1 =? p2)%nat then Some (uf, Some p1)
  else
    r1 ← uf_heap uf !! p1;
    r2 ← uf_heap uf !! p2;
    let '(p1, r1, p2, r2) := if rank r1 r2 then (p1, r1, p2, r2) else (p2, r2, p1, r1) in
    let uf := MkUF (delete (key r2) (uf_roots uf)) (<[key r2 := key r1]> (uf_parents uf)) (uf_heap uf) in
    match constant r1, constant r2 with
    | Some c1, Some c2 => Some (uf, if Equal c1 c2 then Some p1 else None)
    | None, c2 => Some (set_constant uf p1 c2, Some p1)
    | Some _, None => Some (uf, Some p1)
    end.

(** ** makeDisjointSets *)
Definition isGlobalBuiltin (e : expr) (name : string) : bool :=
  match e with
  | Expr (TTerms (Value.Ref [Var head] :: _)) _ _ _ => String.eqb head name
  | _ => false
  end.
Definition IsEquality (e : expr) : bool := isGlobalBuiltin e "eq".
Definition Operand (e : expr) (pos : nat) : option value :=
  match e with Expr (TTerms ts) _ _ _ => ts !! S pos | _ => None end.
Definition e_negated (e : expr) : bool := match e with Expr _ _ _ n => n end.
Definition e_with (e : expr) : list (value * value) := match e with Expr _ w _ _ => w end.

Definition livevars_rank (livevars : gset string) (r1 _ : unionFindRoot) : bool :=
  bool_decide (key r1 ∈ livevars).

(** The case of a variable and a constant: [None] in the result is the return
    of [nil, false]. *)
Definition set_var_constant (uf : unionFind) (x : string) (c : value) : option (option unionFind) :=
  '(uf, p) ← MakeSet uf x;
  root ← uf_heap uf !! p;
  match constant root with
  | Some c' => if Equal c' c then Some (Some (set_constant uf p (Some c))) else Some None
  | None => Some (Some (set_constant uf p (Some c)))
  end.

(** One expression of the query.  (The code would fail on an equality without
    two operands; the arity is checked when the query is compiled.) *)
Definition disjoint_step (livevars : gset string) (uf : unionFind) (e : expr) : option (option unionFind) :=
  if IsEquality e && negb (e_negated e) && (length (e_with e) =? 0)%nat then
    match Operand e 0, Operand e 1 with
    | Some (Var a), Some (Var b) =>
        '(uf, r) ← Merge (livevars_rank livevars) uf a b;
        Some (match r with Some _ => Some uf | None => None end)
    | Some (Var a), Some b => if IsConstant b then set_var_constant uf a b else Some (Some uf)
    | Some a, Some (Var b) => if IsConstant a then set_var_constant uf b a else Some (Some uf)
    | _, _ => Some (Some uf)
    end
  else Some (Some uf).

Fixpoint disjoint_loop (livevars : gset string) (uf : unionFind) (query : body) : option (option unionFind) :=
  match query with
  | [] => Some (Some uf)
  | e :: query =>
      r ← disjoint_step livevars uf e;
      match r with Some uf => disjoint_loop livevars uf query | None => Some None end
  end.
Definition makeDisjointSets (livevars : gset string) (query : body) : option (option unionFind) :=
  disjoint_loop livevars newUnionFind query.

(** ** The forest of parents *)
Inductive chain (P : gmap string string) : nat -> string -> string -> Prop :=
| chain_root v : P !! v = Some v -> chain P 0 v v
| chain_step n v w k : P !! v = Some w -> w <> v -> chain P n w k -> chain P (S n) v k.
Definition reach (uf : unionFind) (v k : string) : Prop := exists n, chain (uf_parents uf) n v k.

Lemma chain_det P n v k : chain P n v k -> forall m k', chain P m v k' -> n = m /\ k = k'.
Proof.
  induction 1 as [v H|n v w k H Ne _ IH]; intros m k' C; inversion C; simplify_eq; try done.
  by destruct (IH _ _ ltac:(eassumption)) as [-> ->].
Qed.

Lemma chain_end P n v k : chain P n v k -> P !! k = Some k.
Proof. by induction 1. Qed.

Lemma reach_det uf v k k' : reach uf v k -> reach uf v k' -> k = k'.
Proof. intros [n C] [m C']. by destruct (chain_det _ _ _ _ C _ _ C'). Qed.

(** A chain visits distinct elements, so it is no longer than their number. *)
Lemma chain_nodes P n v k : chain P n v k ->
  exists l, length l = S n /\ NoDup l /\
    forall x, x ∈ l -> is_Some (P !! x) /\ exists m, (m <= n)%nat /\ chain P m x k.
Proof.
  induction 1 as [v H|n v w k H Ne C (l & Hl & N & F)].
  - exists [v]. split_ands; [done|apply NoDup_singleton|].
    intros x ->%list_elem_of_singleton. split; [by eexists|]. exists 0%nat. split; [lia|by constructor].
  - exists (v :: l). split_ands; [simpl; lia| |].
    + apply NoDup_cons. split; [|done]. intros (_ & m & Hm & C')%F.
      destruct (chain_det _ _ _ _ (chain_step _ _ _ _ _ H Ne C) _ _ C'). lia.
    + intros x [->|Hx]%elem_of_cons.
      * split; [by eexists|]. exists (S n). split; [lia|by eapply chain_step].
      * destruct (F x Hx) as (D & m & Hm & C'). split; [done|]. exists m. split; [lia|done].
Qed.

Lemma chain_bound P n v k : chain P n v k -> (n < size P)%nat.
Proof.
  intros (l & Hl & N & F)%chain_nodes. rewrite <- size_dom.
  rewrite <- (size_list_to_set (C := gset string) l N) in Hl. unfold lt. rewrite <- Hl.
  apply subseteq_size. intros x Hx%elem_of_list_to_set. apply elem_of_dom. by apply F.
Qed.

(** ** The invariant *)
Record uf_inv (uf : unionFind) : Prop := {
  inv_reach : forall v, is_Some (uf_parents uf !! v) -> exists k, reach uf v k;
  inv_root : forall k, uf_parents uf !! k = Some k -> is_Some (uf_roots uf !! k);
  inv_ptr : forall k p, uf_roots uf !! k = Some p ->
    uf_parents uf !! k = Some k /\ exists c, uf_heap uf !! p = Some (MkRoot k c);
}.

(** The constant of the set with root [k]. *)
Definition cst (uf : unionFind) (k : string) : option value :=
  p ← uf_roots uf !! k; r ← uf_heap uf !! p; constant r.

Lemma Find_ok uf : uf_inv uf -> forall fuel v n k, chain (uf_parents uf) n v k -> (n <= fuel)%nat ->
  exists p, Find fuel uf v = Some (Some p) /\ uf_roots uf !! k = Some p.
Proof.
  intros I. induction fuel as [|fuel IH]; intros v n k C Hn; inversion C as [v' H|n' v' w k' H Ne C']; simplify_eq; simpl.
  1,3: rewrite H, String.eqb_refl; destruct (inv_root uf I _ H) as [p Hp]; rewrite Hp; by exists p.
  - lia.
  - rewrite H. rewrite (proj2 (String.eqb_neq w v)) by done. apply (IH w n' k); [done|lia].
Qed.

Lemma find_ok uf v : uf_inv uf ->
  match uf_parents uf !! v with
  | None => find uf v = Some None /\ forall k, ~ reach uf v k
  | Some _ => exists k p, find uf v = Some (Some p) /\ reach uf v k /\ uf_roots uf !! k = Some p
  end.
Proof.
  intros I. destruct (uf_parents uf !! v) as [w|] eqn:E.
  - destruct (inv_reach uf I v ltac:(by eexists)) as (k & n & C). pose proof (chain_bound _ _ _ _ C).
    destruct (Find_ok uf I (size (uf_parents uf)) v n k C ltac:(lia)) as (p & F & R).
    exists k, p. split_ands; [done|by exists n|done].
  - split.
    + unfold find. destruct (size (uf_parents uf)); simpl; by rewrite E.
    + intros k (n & C). inversion C; congruence.
Qed.

(** Elements with the same root have the same pointer, and conversely. *)
Lemma root_inj uf k k' p : uf_inv uf -> uf_roots uf !! k = Some p -> uf_roots uf !! k' = Some p -> k = k'.
Proof.
  intros I H H'. destruct (inv_ptr uf I _ _ H) as (_ & c & E). destruct (inv_ptr uf I _ _ H') as (_ & c' & E').
  congruence.
Qed.

Lemma uf_inv_new : uf_inv newUnionFind.
Proof.
  split; simpl.
  - intros v [x H]. by rewrite lookup_empty in H.
  - intros k H. by rewrite lookup_empty in H.
  - intros k p H. by rewrite lookup_empty in H.
Qed.

(** ** The operations on the forest *)
Lemma MakeSet_new_reach uf v r h x k : uf_inv uf -> uf_parents uf !! v = None ->
  reach (MkUF r (<[v := v]> (uf_parents uf)) h) x k <-> reach uf x k \/ (x = v /\ k = v).
Proof.
  intros I Hv. split.
  - intros (n & C). simpl in C. induction C as [x H|n x w k H Ne C IH].
    + apply lookup_insert_Some in H as [[-> _]|[_ H]]; [by right|left; exists 0%nat; by constructor].
    + apply lookup_insert_Some in H as [[-> ->]|[Nx H]]; [done|]. left. destruct IH as [[m C']|[-> ->]].
      * exists (S m). by eapply chain_step.
      * destruct (inv_reach uf I x ltac:(by eexists)) as (k & m & C'). inversion C' as [|? ? ? ? H' ? C'']; simplify_eq.
        inversion C''; congruence.
  - intros [(n & C)|[-> ->]].
    + exists n. simpl. induction C as [x H|n x w k H Ne C IH].
      * constructor. rewrite lookup_insert_ne; [done|congruence].
      * eapply chain_step; [|done|done]. rewrite lookup_insert_ne; [done|congruence].
    + exists 0%nat. constructor. simpl. apply lookup_insert_eq.
Qed.

Definition makes (uf uf' : unionFind) (v : string) : Prop :=
  uf_inv uf' /\
  (forall x k, reach uf' x k <-> reach uf x k \/ (x = v /\ k = v /\ uf_parents uf !! v = None)) /\
  (forall k, cst uf' k = cst uf k) /\
  forall k p, uf_roots uf !! k = Some p -> uf_roots uf' !! k = Some p.

Lemma cst_heap_app uf v h k : uf_inv uf -> uf_parents uf !! v = None ->
  cst (MkUF (<[v := length (uf_heap uf)]> (uf_roots uf)) h (uf_heap uf ++ [newUnionFindRoot v])) k = cst uf k.
Proof.
  intros I Hv. unfold cst. simpl. destruct (decide (k = v)) as [->|Ne].
  - rewrite lookup_insert_eq. simpl. rewrite lookup_app_r, Nat.sub_diag by lia. simpl.
    destruct (uf_roots uf !! v) as [p|] eqn:E; [|done]. destruct (inv_ptr uf I _ _ E). congruence.
  - rewrite lookup_insert_ne by done. destruct (uf_roots uf !! k) as [p|] eqn:E; [|done]. simpl.
    destruct (inv_ptr uf I _ _ E) as (_ & c & H). rewrite H, lookup_app_l; [by rewrite H|].
    by eapply lookup_lt_Some.
Qed.

Lemma MakeSet_ok uf v : uf_inv uf ->
  exists uf' p k, MakeSet uf v = Some (uf', p) /\ makes uf uf' v /\ reach uf' v k /\ uf_roots uf' !! k = Some p.
Proof.
  intros I. unfold MakeSet. pose proof (find_ok uf v I) as F. destruct (uf_parents uf !! v) as [w|] eqn:E.
  - destruct F as (k & p & -> & R & P). exists uf, p, k. split_ands; try done. split; [done|].
    split; [|done]. intros x k'. split; [by left|intros [?|(_ & _ & ?)]; [done|congruence]].
  - destruct F as [-> N]. eexists _, _, v. split_ands; [done| | |by apply lookup_insert_eq].
    2:{ apply MakeSet_new_reach; auto. }
    split; [|split; [|split]].
    + split; simpl.
      * intros x [w [[<- _]|[Nx H]]%lookup_insert_Some].
        -- exists v. apply MakeSet_new_reach; auto.
        -- destruct (inv_reach uf I x ltac:(by eexists)) as [k R]. exists k. apply MakeSet_new_reach; auto.
      * intros k [[<- _]|[Nk H]]%lookup_insert_Some; [by rewrite lookup_insert_eq|].
        rewrite lookup_insert_ne by done. by apply (inv_root uf I).
      * intros k p [[<- <-]|[Nk H]]%lookup_insert_Some.
        -- split; [by rewrite lookup_insert_eq|]. exists None. by rewrite lookup_app_r, Nat.sub_diag by lia.
        -- rewrite lookup_insert_ne by done. destruct (inv_ptr uf I _ _ H) as (Q & c & H'). split; [done|].
           exists c. rewrite lookup_app_l; [done|]. by eapply lookup_lt_Some.
    + intros x k. rewrite MakeSet_new_reach by done. naive_solver.
    + intros k. by apply cst_heap_app.
    + intros k p H. simpl. rewrite lookup_insert_ne; [done|]. intros <-. destruct (inv_ptr uf I _ _ H). congruence.
Qed.

(** Hanging the root [k2] below the root [k1]. *)
Definition link (uf : unionFind) (k1 k2 : string) : unionFind :=
  MkUF (delete k2 (uf_roots uf)) (<[k2 := k1]> (uf_parents uf)) (uf_heap uf).

Lemma link_chain P k1 k2 n x k : P !! k1 = Some k1 -> P !! k2 = Some k2 -> k1 <> k2 -> chain P n x k ->
  exists m, chain (<[k2 := k1]> P) m x (if decide (k = k2) then k1 else k).
Proof.
  intros H1 H2 Ne. induction 1 as [x H|n x w k H Nw C (m & IH)].
  - destruct (decide (x = k2)) as [->|Nx].
    + exists 1%nat. eapply chain_step; [apply lookup_insert_eq|done|]. constructor. by rewrite lookup_insert_ne.
    + exists 0%nat. constructor. by rewrite lookup_insert_ne.
  - exists (S m). eapply chain_step; [|done|done]. rewrite lookup_insert_ne; [done|congruence].
Qed.

Lemma link_reach uf k1 k2 x k : uf_inv uf ->
  uf_parents uf !! k1 = Some k1 -> uf_parents uf !! k2 = Some k2 -> k1 <> k2 ->
  reach (link uf k1 k2) x k <-> (reach uf x k2 /\ k = k1) \/ (reach uf x k /\ k <> k2).
Proof.
  intros I H1 H2 Ne.
  assert (F : forall x k, reach uf x k -> reach (link uf k1 k2) x (if decide (k = k2) then k1 else k)).
  { intros x0 k0 (n & C). by eapply link_chain. }
  split.
  - intros R. assert (D : is_Some (uf_parents uf !! x)).
    { destruct R as (n & C). simpl in C. destruct (decide (x = k2)) as [->|Nx]; [by eexists|].
      inversion C as [? H|? ? ? ? H]; simplify_eq; rewrite lookup_insert_ne in H by done; by eexists. }
    destruct (inv_reach uf I x D) as [k0 R0]. pose proof (reach_det _ _ _ _ R (F _ _ R0)) as ->.
    destruct (decide (k0 = k2)) as [->|]; [by left|by right].
  - intros [[R ->]|[R Nk]]; apply F in R; [by rewrite decide_True in R|by rewrite decide_False in R].
Qed.

Lemma link_inv uf k1 k2 : uf_inv uf ->
  uf_parents uf !! k1 = Some k1 -> uf_parents uf !! k2 = Some k2 -> k1 <> k2 -> uf_inv (link uf k1 k2).
Proof.
  intros I H1 H2 Ne. split.
  - intros x D. assert (D' : is_Some (uf_parents uf !! x)).
    { destruct D as [w D]. simpl in D. apply lookup_insert_Some in D as [[<- _]|[_ H]]; by eexists. }
    destruct (inv_reach uf I x D') as [k R]. destruct (decide (k = k2)) as [->|Nk]; eexists; apply link_reach; eauto.
  - simpl. intros k [[-> ->]|[Nk H]]%lookup_insert_Some; [done|].
    rewrite lookup_delete_ne by done. by apply (inv_root uf I).
  - simpl. intros k p [Nk H]%lookup_delete_Some. rewrite lookup_insert_ne by done. by apply (inv_ptr uf I).
Qed.

Lemma link_cst uf k1 k2 k : k <> k2 -> cst (link uf k1 k2) k = cst uf k.
Proof. intros Ne. unfold cst. simpl. by rewrite lookup_delete_ne. Qed.

Lemma set_constant_ok uf p k c : uf_inv uf -> uf_roots uf !! k = Some p ->
  uf_inv (set_constant uf p c) /\ (forall x k', reach (set_constant uf p c) x k' <-> reach uf x k') /\
  cst (set_constant uf p c) k = c /\ forall k', k' <> k -> cst (set_constant uf p c) k' = cst uf k'.
Proof.
  intros I H. destruct (inv_ptr uf I _ _ H) as (_ & c0 & Hp).
  assert (O : forall k' p', k' <> k -> uf_roots uf !! k' = Some p' -> p' <> p).
  { intros k' p' Ne H' ->. apply Ne. by eapply root_inj. }
  split_ands.
  - split; simpl.
    + apply I.
    + apply I.
    + intros k' p' H'. destruct (inv_ptr uf I _ _ H') as (Q & c' & Hc'). split; [done|].
      destruct (decide (p = p')) as [->|Np].
      * rewrite list_lookup_alter_eq, Hc'. simpl. by eexists.
      * rewrite list_lookup_alter_ne by done. by eexists.
  - done.
  - unfold cst. simpl. rewrite H. simpl. by rewrite list_lookup_alter_eq, Hp.
  - intros k' Ne. unfold cst. simpl. destruct (uf_roots uf !! k') as [p'|] eqn:E; [|done]. simpl.
    rewrite list_lookup_alter_ne; [done|]. intros ->. by apply (O k' p').
Qed.

(** ** What a union-find means for an assignment of the variables *)
Definition veq (a b : value) : Prop := Equal a b = true.
#[export] Instance veq_equivalence : Equivalence veq.
Proof.
  split; unfold veq.
  - intros a. apply Equal_refl.
  - intros a b. by rewrite Equal_sym.
  - intros a b c. apply Equal_trans.
Qed.

Definition models (sigma : string -> value) (uf : unionFind) : Prop :=
  forall x k, reach uf x k -> veq (sigma x) (sigma k) /\ forall c, cst uf k = Some c -> veq (sigma k) c.

(** Two elements are equal or in one set. *)
Definition together (uf : unionFind) (x y : string) : Prop := x = y \/ exists k, reach uf x k /\ reach uf y k.

Lemma reach_root uf x k : reach uf x k -> reach uf k k.
Proof. intros (n & C). exists 0%nat. constructor. by eapply chain_end. Qed.

(** [uf'] is [uf] with the sets of [k1] and [k2] made one, with a constant of
    one of the two. *)
Record joined (uf uf' : unionFind) (k1 k2 : string) : Prop := {
  j_inv : uf_inv uf';
  j_reach : forall x k, reach uf' x k <-> (reach uf x k2 /\ k = k1) \/ (reach uf x k /\ k <> k2);
  j_cst : cst uf' k1 = match cst uf k1 with Some c => Some c | None => cst uf k2 end;
  j_same : match cst uf k1, cst uf k2 with Some c1, Some c2 => veq c1 c2 | _, _ => True end;
  j_other : forall k, k <> k1 -> k <> k2 -> cst uf' k = cst uf k;
}.

Section Joined.
Context (uf uf' : unionFind) (k1 k2 : string).
Context (R1 : reach uf k1 k1) (R2 : reach uf k2 k2) (Ne : k1 <> k2) (J : joined uf uf' k1 k2).

Lemma joined_models sigma : models sigma uf' <-> models sigma uf /\ veq (sigma k1) (sigma k2).
Proof.
  destruct J as [_ Hr Hc Hs Ho]. split.
  - intros M. destruct (M k2 k1) as [E Ec]; [apply Hr; by left|].
    split; [|by symmetry]. intros x k R. destruct (decide (k = k2)) as [->|Nk].
    + destruct (M x k1) as [Ex _]; [apply Hr; by left|]. split; [by rewrite Ex, E|].
      intros c H. rewrite E. destruct (cst uf k1) as [c1|] eqn:E1; [|apply Ec; by rewrite Hc].
      rewrite H in Hs. rewrite <- Hs. apply Ec. by rewrite Hc.
    + destruct (M x k) as [Ex Ek]; [apply Hr; by right|]. split; [done|]. intros c H. apply Ek.
      destruct (decide (k = k1)) as [->|N1]; [by rewrite Hc, H|by rewrite Ho].
  - intros [M E] x k [[R ->]|[R Nk]]%Hr.
    + destruct (M _ _ R) as [Ex Ek]. destruct (M _ _ R1) as [_ Ek1]. split; [by rewrite Ex, E|].
      rewrite Hc. intros c. destruct (cst uf k1) as [c1|]; [apply Ek1|]. intros H. rewrite E. by apply Ek.
    + destruct (M _ _ R) as [Ex Ek]. split; [done|]. intros c. destruct (decide (k = k1)) as [->|N1].
      * rewrite Hc. destruct (cst uf k1) as [c1|]; [apply Ek|]. intros H. rewrite E. by apply (M _ _ R2).
      * rewrite Ho by done. apply Ek.
Qed.

Lemma joined_together x y : together uf' x y <->
  together uf x y \/ (together uf x k1 /\ together uf k2 y) \/ (together uf x k2 /\ together uf k1 y).
Proof.
  destruct J as [_ Hr _ _ _].
  assert (T : forall x k, reach uf k k -> together uf x k <-> reach uf x k).
  { intros z k Rk. split; [|intros R; right; by exists k].
    intros [->|(k' & Rz & Rk')]; [done|]. by rewrite (reach_det _ _ _ _ Rk Rk'). }
  assert (S : forall x y, together uf x y -> together uf y x).
  { intros ?? [->|(k & ? & ?)]; [by left|right; by exists k]. }
  assert (T' : forall y k, reach uf k k -> together uf k y <-> reach uf y k).
  { intros z k Rk. rewrite <- (T z k Rk). split; apply S. }
  rewrite (T x k1 R1), (T x k2 R2), (T' y k1 R1), (T' y k2 R2). unfold together. split.
  - intros [->|(k & X & Y)]; [by left; left|]. apply Hr in X, Y.
    destruct X as [[X ->]|[X Nk]], Y as [[Y Ek]|[Y Nk']]; subst; eauto 6.
  - assert (F : forall z, reach uf z k1 -> reach uf' z k1) by (intros z Rz; apply Hr; by right).
    assert (G : forall z, reach uf z k2 -> reach uf' z k1) by (intros z Rz; apply Hr; by left).
    intros [[->|(k & X & Y)]|[[X Y]|[X Y]]]; [by left| |right; exists k1; auto..].
    right. destruct (decide (k = k2)) as [->|Nk]; [exists k1; auto|]. exists k. rewrite !Hr. auto.
Qed.
End Joined.

#[export] Instance together_equivalence uf : Equivalence (together uf).
Proof.
  split.
  - intros x. by left.
  - intros x y [->|(k & ? & ?)]; [by left|right; by exists k].
  - intros x y z [->|(k & X & Y)] [->|(k' & Y' & Z)]; [by left|right; eauto..|].
    right. exists k. split; [done|]. by rewrite (reach_det _ _ _ _ Y Y').
Qed.

(** The equivalence with one more pair. *)
Definition join (R : string -> string -> Prop) (a b x y : string) : Prop :=
  R x y \/ (R x a /\ R b y) \/ (R x b /\ R a y).

Lemma join_proper (R R' : string -> string -> Prop) a b k1 k2 x y : Equivalence R' ->
  (forall x y, R x y <-> R' x y) -> R' a k1 -> R' b k2 -> join R' k1 k2 x y <-> join R a b x y.
Proof.
  intros Q E A B. unfold join. rewrite !E. split.
  - intros [?|[[X Y]|[X Y]]]; [by left|right; left|right; right]; split;
      (etransitivity; [eassumption|]) || idtac; first [by symmetry|by etransitivity; eassumption].
  - intros [?|[[X Y]|[X Y]]]; [by left|right; left|right; right]; split; etransitivity; try eassumption;
      by symmetry.
Qed.

Lemma join_sym (R : string -> string -> Prop) a b x y : join R a b x y <-> join R b a x y.
Proof. unfold join. tauto. Qed.

Lemma makes_models uf uf' v sigma : uf_inv uf -> makes uf uf' v -> models sigma uf' <-> models sigma uf.
Proof.
  intros I (_ & R & C & _). split; intros M x k X.
  - rewrite <- C. apply M, R. by left.
  - rewrite C. apply R in X as [X|(-> & -> & N)]; [by apply M|]. split; [reflexivity|].
    unfold cst. destruct (uf_roots uf !! v) as [p|] eqn:E; [|done]. destruct (inv_ptr uf I _ _ E). congruence.
Qed.

Lemma makes_together uf uf' v x y : makes uf uf' v -> together uf' x y <-> together uf x y.
Proof.
  intros (_ & R & _). unfold together. split.
  - intros [->|(k & X & Y)]; [by left|]. apply R in X, Y.
    destruct X as [X|(-> & -> & N)], Y as [Y|(-> & E & N')]; eauto.
    + subst k. destruct X as (n & C). apply chain_end in C. congruence.
    + destruct Y as (n & C). apply chain_end in C. congruence.
  - intros [->|(k & X & Y)]; [by left|]. right. exists k. rewrite !R. auto.
Qed.

(** Roots by their pointers. *)
Lemma heap_cst uf k p : uf_inv uf -> uf_roots uf !! k = Some p -> uf_heap uf !! p = Some (MkRoot k (cst uf k)).
Proof.
  intros I H. destruct (inv_ptr uf I _ _ H) as (_ & c & E). unfold cst. rewrite H. simpl. rewrite E. done.
Qed.

(** The end of [Merge]: [k1] stays, [k2] goes below it. *)
Lemma Merge_link uf k1 k2 p1 : uf_inv uf -> uf_roots uf !! k1 = Some p1 -> reach uf k2 k2 -> k1 <> k2 ->
  let uf' := link uf k1 k2 in
  exists uf'' r, match cst uf k1, cst uf k2 with
    | Some c1, Some c2 => Some (uf', if Equal c1 c2 then Some p1 else None)
    | None, c2 => Some (set_constant uf' p1 c2, Some p1)
    | Some _, None => Some (uf', Some p1)
    end = Some (uf'', r) /\
    match r with
    | Some _ => joined uf uf'' k1 k2
    | None => exists c1 c2, cst uf k1 = Some c1 /\ cst uf k2 = Some c2 /\ ~ veq c1 c2
    end.
Proof.
  intros I H1 (n & C2) Ne uf'. apply chain_end in C2. destruct (inv_ptr uf I _ _ H1) as (P1 & _).
  pose proof (link_inv uf k1 k2 I P1 C2 Ne) as I'.
  assert (H1' : uf_roots uf' !! k1 = Some p1) by (unfold uf'; simpl; by rewrite lookup_delete_ne).
  destruct (cst uf k1) as [c1|] eqn:E1.
  - assert (G : match cst uf k2 with Some c2 => veq c1 c2 | None => True end -> joined uf uf' k1 k2).
    { intros S. split; [done| | | |].
      - intros x k. by apply link_reach.
      - unfold uf'. by rewrite link_cst, E1.
      - by rewrite E1.
      - intros k _ Nk. by apply link_cst. }
    destruct (cst uf k2) as [c2|] eqn:E2; [|eexists _, _; split; [done|by apply G]].
    destruct (Equal c1 c2) eqn:Q; eexists _, _; (split; [done|]); [by apply G|].
    exists c1, c2. split_ands; [done..|]. unfold veq. by rewrite Q.
  - destruct (set_constant_ok uf' p1 k1 (cst uf k2) I' H1') as (I2 & Rs & Cs & Os).
    eexists _, _. split; [done|]. split; [done| | | |].
    + intros x k. rewrite Rs. by apply link_reach.
    + by rewrite Cs, E1.
    + by rewrite E1.
    + intros k N1 Nk. rewrite Os by done. by apply link_cst.
Qed.

(** What [Merge] is to do on an assignment and on the sets. *)
Definition merged (uf uf' : unionFind) (a b : string) (r : option nat) : Prop :=
  match r with
  | Some _ => uf_inv uf' /\ (forall sigma, models sigma uf' <-> models sigma uf /\ veq (sigma a) (sigma b)) /\
      forall x y, together uf' x y <-> join (together uf) a b x y
  | None => forall sigma, models sigma uf -> ~ veq (sigma a) (sigma b)
  end.

Lemma joined_merged uf uf' a b k1 k2 r : uf_inv uf -> reach uf a k1 -> reach uf b k2 -> k1 <> k2 ->
  match r with
  | Some _ => joined uf uf' k1 k2
  | None => exists c1 c2, cst uf k1 = Some c1 /\ cst uf k2 = Some c2 /\ ~ veq c1 c2
  end -> merged uf uf' a b r.
Proof.
  intros I A B Ne. pose proof (reach_root _ _ _ A) as R1. pose proof (reach_root _ _ _ B) as R2. destruct r as [p|].
  - intros J. split; [apply J|]. split.
    + intros sigma. rewrite (joined_models uf uf' k1 k2) by done. split; intros [M E]; (split; [done|]);
        destruct (M _ _ A) as [E1 _], (M _ _ B) as [E2 _]; [by rewrite E1, E2|by rewrite <- E1, <- E2].
    + intros x y. rewrite (joined_together uf uf' k1 k2) by done.
      apply (join_proper (together uf)); [apply _|done|right; by exists k1|right; by exists k2].
  - intros (c1 & c2 & H1 & H2 & N) sigma M E. apply N.
    destruct (M _ _ A) as [E1 F1], (M _ _ B) as [E2 F2]. by rewrite <- (F1 _ H1), <- E1, E, E2, (F2 _ H2).
Qed.

Lemma merged_sym uf uf' a b r : merged uf uf' b a r -> merged uf uf' a b r.
Proof.
  unfold merged. destruct r as [p|].
  - intros (I & M & T). split_ands; [done| |].
    + intros sigma. rewrite M. split; intros [? E]; (split; [done|by symmetry]).
    + intros x y. rewrite T. apply join_sym.
  - intros H sigma M E. apply (H sigma M). by symmetry.
Qed.

Lemma Merge_ok rank uf a b : uf_inv uf ->
  exists uf' r, Merge rank uf a b = Some (uf', r) /\ merged uf uf' a b r.
Proof.
  intros I. unfold Merge. destruct (MakeSet_ok uf a I) as (uf1 & pa & ka & -> & Ma & Ra & Pa). simpl.
  pose proof Ma as (I1 & R1 & _ & _). destruct (MakeSet_ok uf1 b I1) as (uf2 & pb & kb & -> & Mb & Rb & Pb). simpl.
  pose proof Mb as (I2 & R2 & _ & Q2). apply Q2 in Pa. assert (Ra2 : reach uf2 a ka) by (apply R2; by left).
  assert (G : forall uf' r, merged uf2 uf' a b r -> merged uf uf' a b r).
  { assert (Hm : forall sigma, models sigma uf2 <-> models sigma uf).
    { intros sigma. by rewrite (makes_models uf1 uf2 b), (makes_models uf uf1 a). }
    assert (Ht : forall x y, together uf2 x y <-> together uf x y).
    { intros x y. by rewrite (makes_together uf1 uf2 b), (makes_together uf uf1 a). }
    intros uf' [p|]; unfold merged; [|intros H sigma M%Hm; by apply H].
    intros (I' & M & T). split_ands; [done|intros sigma; by rewrite M, Hm|].
    intros x y. rewrite T. unfold join. by rewrite !Ht. }
  destruct (pa =? pb)%nat eqn:Ep.
  - apply Nat.eqb_eq in Ep as <-. pose proof (root_inj _ _ _ _ I2 Pa Pb) as <-.
    eexists _, _. split; [done|]. apply G. unfold merged. split_ands; [done| |].
    + intros sigma. split; [|by intros [? _]]. intros M. split; [done|].
      destruct (M _ _ Ra2) as [E1 _], (M _ _ Rb) as [E2 _]. by rewrite E1, E2.
    + intros x y. unfold join. assert (Tab : together uf2 a b) by (right; by exists ka).
      split; [by left|]. intros [?|[[X Y]|[X Y]]]; [done| |]; (etransitivity; [exact X|]);
        etransitivity; [exact Tab|exact Y|symmetry; exact Tab|exact Y].
  - apply Nat.eqb_neq in Ep. rewrite (heap_cst uf2 ka pa I2 Pa), (heap_cst uf2 kb pb I2 Pb). simpl.
    assert (Ne : ka <> kb) by (intros ->; congruence).
    destruct (rank _ _); simpl.
    + destruct (Merge_link uf2 ka kb pa I2 Pa (reach_root _ _ _ Rb) Ne) as (uf' & r & E & H).
      exists uf', r. split; [exact E|]. apply G. by apply (joined_merged uf2 uf' a b ka kb).
    + destruct (Merge_link uf2 kb ka pb I2 Pb (reach_root _ _ _ Ra2) (not_eq_sym Ne)) as (uf' & r & E & H).
      exists uf', r. split; [exact E|]. apply G, merged_sym. by apply (joined_merged uf2 uf' b a kb ka).
Qed.

(** ** The sets of a query *)
Lemma set_var_constant_ok uf x c : uf_inv uf ->
  exists r, set_var_constant uf x c = Some r /\
  match r with
  | Some uf' => uf_inv uf' /\ (forall sigma, models sigma uf' <-> models sigma uf /\ veq (sigma x) c) /\
      forall y z, together uf' y z <-> together uf y z
  | None => forall sigma, models sigma uf -> ~ veq (sigma x) c
  end.
Proof.
  intros I. unfold set_var_constant. destruct (MakeSet_ok uf x I) as (uf1 & p & k & -> & Mk & R & P). simpl.
  pose proof Mk as (I1 & _ & _ & _). rewrite (heap_cst uf1 k p I1 P). simpl.
  destruct (set_constant_ok uf1 p k (Some c) I1 P) as (I2 & Rs & Cs & Os).
  assert (G : (forall c', cst uf1 k = Some c' -> veq c' c) ->
    uf_inv (set_constant uf1 p (Some c)) /\
    (forall sigma, models sigma (set_constant uf1 p (Some c)) <-> models sigma uf /\ veq (sigma x) c) /\
    forall y z, together (set_constant uf1 p (Some c)) y z <-> together uf y z).
  { intros Hc. split_ands; [done| |].
    - intros sigma. rewrite <- (makes_models uf uf1 x sigma I Mk). split.
      + intros M. split.
        * intros y k' Ry. destruct (M y k') as [Ey Ck]; [by apply Rs|]. split; [done|]. intros c' H.
          destruct (decide (k' = k)) as [->|Nk]; [rewrite (Hc _ H); by apply Ck|apply Ck; by rewrite Os].
        * destruct (M x k) as [E C]; [by apply Rs|]. rewrite E. by apply C.
      + intros [M E] y k' Ry%Rs. destruct (M _ _ Ry) as [Ey Ck]. split; [done|]. intros c' H.
        destruct (decide (k' = k)) as [->|Nk]; [|apply Ck; by rewrite <- Os].
        rewrite Cs in H. injection H as <-. rewrite <- E. symmetry. by apply (M _ _ R).
    - intros y z. rewrite <- (makes_together uf uf1 x y z Mk). unfold together. by setoid_rewrite Rs. }
  destruct (cst uf1 k) as [c'|] eqn:E; [|eexists; split; [done|]; by apply G].
  destruct (Equal c' c) eqn:Q; eexists; (split; [done|]).
  - apply G. by intros ? [= <-].
  - intros sigma M V. rewrite <- (makes_models uf uf1 x sigma I Mk) in M. destruct (M _ _ R) as [E1 E2].
    specialize (E2 _ E). assert (veq c' c) by (by rewrite <- E2, <- E1). unfold veq in *. congruence.
Qed.

(** The equalities that the structure accounts for: between variables, and
    between a variable and a constant. *)
Definition simple_equality (e : expr) : option (value * value) :=
  if IsEquality e && negb (e_negated e) && (length (e_with e) =? 0)%nat then
    match Operand e 0, Operand e 1 with
    | Some (Var a), Some (Var b) => Some (Var a, Var b)
    | Some (Var a), Some b => if IsConstant b then Some (Var a, b) else None
    | Some a, Some (Var b) => if IsConstant a then Some (Var b, a) else None
    | _, _ => None
    end
  else None.
Definition ev (sigma : string -> value) (v : value) : value := match v with Var x => sigma x | _ => v end.
Definition holds (sigma : string -> value) (e : expr) : Prop :=
  match simple_equality e with Some (a, b) => veq (ev sigma a) (ev sigma b) | None => True end.
Definition equated (query : body) (x y : string) : Prop :=
  exists e, e ∈ query /\ simple_equality e = Some (Var x, Var y).

Definition accounts (uf : unionFind) (e : expr) (r : option unionFind) : Prop :=
  match r with
  | Some uf' => uf_inv uf' /\ (forall sigma, models sigma uf' <-> models sigma uf /\ holds sigma e) /\
      forall x y, together uf' x y <->
        match simple_equality e with Some (Var a, Var b) => join (together uf) a b x y | _ => together uf x y end
  | None => forall sigma, models sigma uf -> ~ holds sigma e
  end.

Lemma accounts_skip uf e : uf_inv uf -> simple_equality e = None -> accounts uf e (Some uf).
Proof.
  intros I E. unfold accounts, holds. rewrite E. split_ands; [done| |done]. intros sigma. tauto.
Qed.

Lemma accounts_constant uf e x c : uf_inv uf -> simple_equality e = Some (Var x, c) -> IsConstant c = true ->
  exists r, set_var_constant uf x c = Some r /\ accounts uf e r.
Proof.
  intros I E C. destruct (set_var_constant_ok uf x c I) as (r & -> & H). exists r. split; [done|].
  unfold accounts, holds. rewrite E. by destruct c.
Qed.

Lemma disjoint_step_ok livevars uf e : uf_inv uf ->
  exists r, disjoint_step livevars uf e = Some r /\ accounts uf e r.
Proof.
  intros I. unfold disjoint_step. destruct (IsEquality e && _ && _) eqn:G.
  2:{ eexists. split; [done|]. apply accounts_skip; [done|]. unfold simple_equality. by rewrite G. }
  assert (K : forall x c, IsConstant c = true -> simple_equality e = Some (Var x, c) ->
    exists r, set_var_constant uf x c = Some r /\ accounts uf e r) by (intros; by apply accounts_constant).
  assert (N : simple_equality e = None -> exists r, Some (Some uf) = Some r /\ accounts uf e r).
  { intros. eexists. split; [done|]. by apply accounts_skip. }
  assert (V : forall a b, simple_equality e = Some (Var a, Var b) ->
    exists r, ('(uf, r) ← Merge (livevars_rank livevars) uf a b;
               Some (match r with Some _ => Some uf | None => None end)) = Some r /\ accounts uf e r).
  { intros a b E. destruct (Merge_ok (livevars_rank livevars) uf a b I) as (uf' & r & -> & M). simpl.
    eexists. split; [done|]. unfold accounts, holds. rewrite E. by destruct r. }
  clear I. unfold simple_equality in *. rewrite G in *. clear G.
  destruct (Operand e 0) as [a|]; [|by apply N]. destruct (Operand e 1) as [b|]; [|destruct a; by apply N].
  destruct a as [| | | |xa| | | | | | | |], b as [| | | |xb| | | | | | | |];
    try (by apply N); try (by apply V);
    match goal with |- context [if ?c then _ else _] => destruct c eqn:?; [by apply K|by apply N] end.
Qed.

Lemma rtsc_join (R : string -> string -> Prop) a b x y :
  rtsc (fun x y => R x y \/ (x = a /\ y = b)) x y <-> join (rtsc R) a b x y.
Proof.
  assert (Up : forall x y, rtsc R x y -> rtsc (fun x y => R x y \/ (x = a /\ y = b)) x y).
  { intros u v. apply rtc_subrel. intros ? ? [?|?]; [left|right]; by left. }
  assert (Sy : forall x y, rtsc R x y -> rtsc R y x) by (intros; by apply (symmetry (R := rtsc R))).
  split.
  - induction 1 as [x|x z y S _ IH]; [left; reflexivity|]. destruct S as [[S|[-> ->]]|[S|[-> ->]]].
    + assert (Q : rtsc R x z) by (by apply rtc_once; left).
      destruct IH as [?|[[? ?]|[? ?]]]; [left|right; left|right; right]; try split; try done; by etransitivity.
    + destruct IH as [?|[[? ?]|[? ?]]]; [right; left; split; [reflexivity|done]|right; left; split; [reflexivity|done]|].
      left. done.
    + assert (Q : rtsc R x z) by (by apply rtc_once; right).
      destruct IH as [?|[[? ?]|[? ?]]]; [left|right; left|right; right]; try split; try done; by etransitivity.
    + destruct IH as [?|[[? ?]|[? ?]]]; [right; right; split; [reflexivity|done]| |right; right; split; [reflexivity|done]].
      left. done.
  - assert (AB : rtsc (fun x y => R x y \/ (x = a /\ y = b)) a b) by (apply rtc_once; left; by right).
    assert (BA : rtsc (fun x y => R x y \/ (x = a /\ y = b)) b a) by (apply rtc_once; right; by right).
    intros [?|[[X Y]|[X Y]]]; [by apply Up| |]; apply Up in X, Y;
      (etransitivity; [exact X|]); (etransitivity; [|exact Y]); done.
Qed.

Lemma rtsc_ext (R R' : string -> string -> Prop) x y :
  (forall x y, R x y <-> R' x y) -> rtsc R x y <-> rtsc R' x y.
Proof. intros E. split; apply rtc_subrel; intros ? ? [?|?]; [left|right|left|right]; by apply E. Qed.

Lemma disjoint_loop_ok livevars query : forall uf (R : string -> string -> Prop), uf_inv uf ->
  (forall x y, together uf x y <-> rtsc R x y) ->
  exists r, disjoint_loop livevars uf query = Some r /\
  match r with
  | Some uf' => uf_inv uf' /\
      (forall sigma, models sigma uf' <-> models sigma uf /\ Forall (holds sigma) query) /\
      forall x y, together uf' x y <-> rtsc (fun x y => R x y \/ equated query x y) x y
  | None => forall sigma, models sigma uf -> ~ Forall (holds sigma) query
  end.
Proof.
  induction query as [|e query IH]; intros uf R I T; simpl.
  - exists (Some uf). split; [done|]. split_ands; [done| |].
    + intros sigma. rewrite Forall_nil. tauto.
    + intros x y. rewrite T. apply rtsc_ext. intros u v. split; [by left|].
      intros [?|(e & He & _)]; [done|by apply not_elem_of_nil in He].
  - destruct (disjoint_step_ok livevars uf e I) as ([uf1|] & -> & A); simpl.
    2:{ exists None. split; [done|]. intros sigma M [F _]%Forall_cons. by apply (A sigma). }
    destruct A as (I1 & M1 & T1).
    set (R1 := fun x y => R x y \/ simple_equality e = Some (Var x, Var y)).
    destruct (IH uf1 R1 I1) as (r & -> & H).
    + intros x y. rewrite T1. unfold R1. destruct (simple_equality e) as [[[| | | |a| | | | | | | |] [| | | |b| | | | | | | |]]|];
        try (rewrite T; apply rtsc_ext; intros ? ?; split; [intros ?; by left|intros [?|?]; [done|congruence]]).
      unfold join. rewrite !T. fold (join (rtsc R) a b x y). rewrite <- rtsc_join. apply rtsc_ext. naive_solver.
    + exists r. split; [done|]. destruct r as [uf2|].
      * destruct H as (I2 & M2 & T2). split_ands; [done| |].
        -- intros sigma. rewrite M2, M1, Forall_cons. tauto.
        -- intros x y. rewrite T2. apply rtsc_ext. intros u v. unfold R1, equated. split.
           ++ intros [[?|E]|(e' & He & E)]; [by left|right; exists e; split; [left|done]|right; exists e'; split; [by right|done]].
           ++ intros [?|(e' & [->|He]%elem_of_cons & E)]; [by left; left|by left; right|right; by exists e'].
      * intros sigma M [He F]%Forall_cons. apply (H sigma); [|done]. apply M1. done.
Qed.

(** The assignment that the constants of the sets suggest. *)
Definition assignment (uf : unionFind) (x : string) : value :=
  match find uf x with
  | Some (Some p) => match uf_heap uf !! p with Some r => default Null (constant r) | None => Null end
  | _ => Null
  end.

Lemma find_root uf x k p : uf_inv uf -> reach uf x k -> uf_roots uf !! k = Some p -> find uf x = Some (Some p).
Proof.
  intros I R P. pose proof (find_ok uf x I) as F. destruct (uf_parents uf !! x) eqn:E.
  - destruct F as (k' & p' & -> & R' & P'). rewrite (reach_det _ _ _ _ R R') in P. congruence.
  - destruct R as (n & C). inversion C; congruence.
Qed.

Lemma assignment_models uf : uf_inv uf -> models (assignment uf) uf.
Proof.
  intros I. assert (A : forall x k, reach uf x k -> assignment uf x = default Null (cst uf k)).
  { intros x k R. destruct (reach_root _ _ _ R) as (n & C). apply chain_end in C.
    destruct (inv_root uf I k C) as [p P]. unfold assignment. rewrite (find_root uf x k p I R P).
    by rewrite (heap_cst uf k p I P). }
  intros x k R. rewrite (A x k R), (A k k (reach_root _ _ _ R)). split; [reflexivity|].
  intros c ->. reflexivity.
Qed.

(** C19: [makeDisjointSets] decides the equalities of a query between variables
    and constants.  It always returns.  When it returns false no assignment of
    the variables satisfies them.  When it returns a structure some assignment
    does; two variables have the same root exactly when the equalities connect
    them; and under every assignment that satisfies the equalities a variable
    equals the value of its root, the constant of its set or its
    representative. *)
Theorem makeDisjointSets_correct (livevars : gset string) (query : body) :
  exists r, makeDisjointSets livevars query = Some r /\
  match r with
  | None => forall sigma, ~ Forall (holds sigma) query
  | Some uf =>
      (exists sigma, Forall (holds sigma) query) /\
      (forall x y p, find uf x = Some (Some p) ->
         find uf y = Some (Some p) <-> rtsc (equated query) x y) /\
      forall sigma x p, Forall (holds sigma) query -> find uf x = Some (Some p) ->
        exists root, uf_heap uf !! p = Some root /\
          veq (sigma x) (match constant root with Some c => c | None => sigma (key root) end)
  end.
Proof.
  destruct (disjoint_loop_ok livevars query newUnionFind (fun _ _ => False) uf_inv_new) as (r & E & H).
  { intros x y. split.
    - intros [->|(k & (n & C) & _)]; [reflexivity|]. inversion C; simplify_map_eq.
    - induction 1 as [|? ? ? [[]|[]]]. by left. }
  assert (M0 : forall sigma, models sigma newUnionFind).
  { intros sigma x k (n & C). inversion C; simplify_map_eq. }
  exists r. split; [exact E|]. destruct r as [uf|]; [|intros sigma; by apply H].
  destruct H as (I & M & T).
  assert (F : forall x p, find uf x = Some (Some p) -> exists k, reach uf x k /\ uf_roots uf !! k = Some p).
  { intros x p Hx. pose proof (find_ok uf x I) as Q. destruct (uf_parents uf !! x); [|destruct Q; congruence].
    destruct Q as (k & p' & E' & R & P). exists k. rewrite Hx in E'. by injection E' as ->. }
  split_ands.
  - exists (assignment uf). by apply M, assignment_models.
  - intros x y p Hx. rewrite <- (rtsc_ext (fun x y => False \/ equated query x y)) by tauto. rewrite <- T.
    destruct (F x p Hx) as (k & R & P). split.
    + intros (k' & R' & P')%F. rewrite (root_inj uf k k' p I P P') in R. right. by exists k'.
    + intros [<-|(k' & R' & Ry)]; [done|]. apply (find_root uf y k); [done| |done].
      by rewrite (reach_det _ _ _ _ R R').
  - intros sigma x p S Hx. destruct (F x p Hx) as (k & R & P).
    assert (Ms : models sigma uf) by (by apply M).
    exists (MkRoot k (cst uf k)). split; [by apply heap_cst|]. destruct (Ms x k R) as [E1 E2].
    simpl. destruct (cst uf k) as [c|]; [|done]. by rewrite E1, (E2 c eq_refl).
Qed.
