(* ===== verification/Native.v ===== *)
(** Native Go documents ([interface{}] values as decoded from JSON), their
    order [Compare] of [src/util/compare.go], and the conversions between them
    and AST values in [src/ast/term.go].

    A [map[string]interface{}] is the list of its entries by increasing key.
    Numbers are [json.Number]s; the cases of [Compare] for Go integers and
    floats do not arise for decoded documents and are left out.  The JSON text
    of a composite object key, [encode], is an argument. *)
From Stdlib Require Import ZArith Lia QArith String.
From stdpp Require Import base list strings sorting.
From S2P Require Import Prelude SortedKeys Value Containers SetTable ObjectTable.

Inductive native : Type :=
| NNil
| NBool (b : bool)
| NNum (n : number)
| NStr (s : string)
| NArr (l : list native)
| NMap (m : list (string * native)).

Section NativeInd.
Context (P : native -> Prop).
Context (Hnil : P NNil) (Hbool : forall b, P (NBool b)) (Hnum : forall n, P (NNum n)) (Hstr : forall s, P (NStr s)).
Context (Harr : forall l, Forall P l -> P (NArr l)).
Context (Hmap : forall m, Forall (fun kx => P kx.2) m -> P (NMap m)).
Fixpoint native_induction (x : native) : P x :=
  match x with
  | NNil => Hnil
  | NBool b => Hbool b
  | NNum n => Hnum n
  | NStr s => Hstr s
  | NArr l => Harr l ((fix go l : Forall P l :=
      match l with [] => List.Forall_nil _ | x :: l => List.Forall_cons _ _ _ (native_induction x) (go l) end) l)
  | NMap m => Hmap m ((fix go m : Forall (fun kx => P kx.2) m :=
      match m with
      | [] => List.Forall_nil _
      | kx :: m => List.Forall_cons _ _ _ (native_induction kx.2) (go m)
      end) m)
  end.
End NativeInd.

(** ** Compare *)

(** [new(big.Float).SetString(s)]: the value rounded to 64 bits of precision,
    to the nearest, ties to even. *)
Definition big_float (q : Q) : Q :=
  let n := Qnum (Qred q) in
  let d := Zpos (Qden (Qred q)) in
  if (n =? 0)%Z then 0%Q
  else
    let a := Z.abs n in
    let e0 := (Z.log2 a - Z.log2 d - 63)%Z in
    let small := if (0 <=? e0)%Z then (a <? d * 2 ^ (e0 + 63))%Z else (a * 2 ^ (- e0) <? d * 2 ^ 63)%Z in
    let e := if small then (e0 - 1)%Z else e0 in
    if (0 <=? e)%Z then inject_Z (Z.sgn n * (round_half_even a (d * 2 ^ e) * 2 ^ e))
    else (Z.sgn n * round_half_even (a * 2 ^ (- e)) d) # Z.to_pos (2 ^ (- e)).
Definition compareJSONNumber (a b : number) : comparison :=
  Qcompare (big_float (num_rat a)) (big_float (num_rat b)).

Definition util_sortOrder (v : native) : Z :=
  match v with NNil => 0 | NBool _ => 1 | NNum _ => 2 | NStr _ => 3 | NArr _ => 4 | NMap _ => 5 end.

Fixpoint util_Compare (a b : native) : comparison :=
  Z.compare (util_sortOrder a) (util_sortOrder b) &&&
  match a, b with
  | NBool x, NBool y => bool_compare x y
  | NNum x, NNum y => compareJSONNumber x y
  | NStr x, NStr y => String.compare x y
  | NArr x, NArr y => slice_compare util_Compare x y
  | NMap x, NMap y => slice_compare (fun p q => String.compare p.1 q.1 &&& util_Compare p.2 q.2) x y
  | _, _ => Eq
  end.

(** ** Conversions *)
Definition map_put (k : string) (x : native) (m : list (string * native)) : list (string * native) :=
  sins String.compare fst (fun _ new => new) (k, x) m.

Fixpoint InterfaceToValue (x : native) : value :=
  match x with
  | NNil => Null
  | NBool b => Boolean b
  | NNum n => Number n
  | NStr s => Str s
  | NArr l => Array (map InterfaceToValue l)
  | NMap m =>
      Object (fold_left (fun r kv => obj_insert kv.1 kv.2 r) (map (fun kx => (Str kx.1, InterfaceToValue kx.2)) m) [])
  end.

Section ToInterface.
Context (encode : native -> string) (resolve : list value -> option native).

Definition key_string (ki : native) : string := match ki with NStr s => s | _ => encode ki end.

(** [None] is the error of the conversion. *)
Fixpoint valueToInterface (v : value) : option native :=
  match v with
  | Null => Some NNil
  | Boolean b => Some (NBool b)
  | Number n => Some (NNum n)
  | Str s => Some (NStr s)
  | Array l | SetV l =>
      option_map NArr (foldr (fun x r => match x, r with Some x, Some r => Some (x :: r) | _, _ => None end) (Some [])
                         (map valueToInterface l))
  | Object kvs =>
      option_map NMap
        (fold_left (fun buf kv =>
           match buf, kv.1, kv.2 with
           | Some buf, Some ki, Some vi => Some (map_put (key_string ki) vi buf)
           | _, _, _ => None
           end) (map (fun kv => (valueToInterface kv.1, valueToInterface kv.2)) kvs) (Some []))
  | Value.Ref r => resolve r
  | _ => None
  end.
End ToInterface.

(** [JSON] resolves no references. *)
Definition JSON (encode : native -> string) (v : value) : option native := valueToInterface encode (fun _ => None) v.

(** ** The order *)
Lemma compareJSONNumber_ok : CmpOk compareJSONNumber.
Proof. intros x. apply (cmp_contramap (fun n => big_float (num_rat n)) Qcompare), Q_compare_ok. Qed.

(** Numbers that [Compare] of the AST takes for equal are equal here too. *)
Lemma compareJSONNumber_eq a b : num_compare a b = Eq -> compareJSONNumber a b = Eq.
Proof.
  rewrite num_compare_rat. intros E%Qeq_alt. unfold compareJSONNumber, big_float.
  rewrite (Qred_complete _ _ E). apply Qeq_alt. reflexivity.
Qed.

Definition native_same (a b : native) : comparison :=
  match a, b with
  | NBool x, NBool y => bool_compare x y
  | NNum x, NNum y => compareJSONNumber x y
  | NStr x, NStr y => String.compare x y
  | NArr x, NArr y => slice_compare util_Compare x y
  | NMap x, NMap y => slice_compare (fun p q => String.compare p.1 q.1 &&& util_Compare p.2 q.2) x y
  | _, _ => Eq
  end.
Lemma util_Compare_unfold a b :
  util_Compare a b = Z.compare (util_sortOrder a) (util_sortOrder b) &&& native_same a b.
Proof. by destruct a. Qed.

Lemma native_same_ok x :
  match x with
  | NArr l => Forall (cmp_ok_at util_Compare) l
  | NMap m => Forall (fun kx => cmp_ok_at util_Compare kx.2) m
  | _ => True
  end -> cmp_ok_on (fun y => Z.compare (util_sortOrder x) (util_sortOrder y) = Eq) native_same x.
Proof.
  destruct x as [|b|n|s|l|m]; intros H.
  - apply (cmp_image (fun _ : unit => NNil) _ _ (fun _ _ => Eq) tt); [same_ctor|done|by split].
  - apply (cmp_image NBool _ _ bool_compare); [same_ctor|done|apply bool_compare_ok].
  - apply (cmp_image NNum _ _ compareJSONNumber); [same_ctor|done|apply compareJSONNumber_ok].
  - apply (cmp_image NStr _ _ String.compare); [same_ctor|done|apply string_compare_ok].
  - apply (cmp_image NArr _ _ (slice_compare util_Compare)); [same_ctor|done|by apply slice_compare_ok].
  - apply (cmp_image NMap _ _ (slice_compare (fun p q => String.compare p.1 q.1 &&& util_Compare p.2 q.2)));
      [same_ctor|done|]. apply slice_compare_ok. eapply Forall_impl; [exact H|]. intros [k x] Hx.
    apply (cmp_lex (fun p q => String.compare p.1 q.1)).
    + apply (cmp_contramap fst), string_compare_ok.
    + by apply (cmp_contramap snd).
Qed.

#[global] Instance util_Compare_ok : CmpOk util_Compare.
Proof.
  assert (Hv : forall v, cmp_ok_on (fun y => Z.compare (util_sortOrder v) (util_sortOrder y) = Eq) native_same v ->
    cmp_ok_at util_Compare v).
  { intros v H.
    destruct (cmp_then_ok (fun a b => Z.compare (util_sortOrder a) (util_sortOrder b)) native_same v)
      as [Hs Ht Hl He]; [apply (cmp_contramap util_sortOrder), Z_compare_ok|done|].
    split; intros y; [|intros z..]; rewrite !util_Compare_unfold; [apply Hs|apply Ht|apply Hl|apply He]. }
  intros v. induction v using native_induction; by apply Hv, native_same_ok.
Qed.

(** ** The conversions are inverse *)
Inductive native_wf : native -> Prop :=
| nwf_nil : native_wf NNil
| nwf_bool b : native_wf (NBool b)
| nwf_num n : native_wf (NNum n)
| nwf_str s : native_wf (NStr s)
| nwf_arr l : Forall native_wf l -> native_wf (NArr l)
| nwf_map m : ssorted String.compare fst m -> Forall (fun kx => native_wf kx.2) m -> native_wf (NMap m).

(** AST values that a JSON document denotes. *)
Inductive json_value : value -> Prop :=
| jv_null : json_value Null
| jv_bool b : json_value (Boolean b)
| jv_num n : json_value (Number n)
| jv_str s : json_value (Str s)
| jv_arr l : Forall json_value l -> json_value (Array l)
| jv_obj kvs : ssorted Compare fst kvs -> Forall (fun kv => exists s, kv.1 = Str s) kvs ->
    Forall (fun kv => json_value kv.2) kvs -> json_value (Object kvs).

(** Inserting in increasing order appends. *)
Lemma sins_snoc {K B} (cmp : K -> K -> comparison) (key : B -> K) `{!CmpOk cmp} upd b l :
  Forall (fun c => cmp (key c) (key b) = Lt) l -> sins cmp key upd b l = l ++ [b].
Proof.
  induction 1 as [|c l H _ IH]; simpl; [done|]. by rewrite (cmp_sym cmp), H, IH.
Qed.

Lemma fold_sins_sorted {K B} (cmp : K -> K -> comparison) (key : B -> K) `{!CmpOk cmp} upd l : forall acc,
  ssorted cmp key (acc ++ l) -> fold_left (fun r b => sins cmp key upd b r) l acc = acc ++ l.
Proof.
  induction l as [|b l IH]; intros acc S; simpl; [by rewrite app_nil_r|].
  rewrite sins_snoc; [|done|].
  - rewrite IH; by rewrite <- app_assoc.
  - unfold ssorted in S. apply StronglySorted_app in S as (S & _ & _).
    apply Forall_forall. intros c Hc. apply S; [done|left].
Qed.

Lemma ssorted_map {K K' B B'} (cmp : K -> K -> comparison) (cmp' : K' -> K' -> comparison)
    (key : B -> K) (key' : B' -> K') (f : B -> B') l :
  (forall b c, cmp' (key' (f b)) (key' (f c)) = cmp (key b) (key c)) ->
  ssorted cmp key l <-> ssorted cmp' key' (map f l).
Proof.
  intros E. unfold ssorted. induction l as [|b l IH]; simpl; [split; constructor|].
  split; intros S; inversion S; subst; constructor; try by apply IH.
  - rewrite Forall_map. eapply Forall_impl; [eassumption|]. intros c. simpl. by rewrite !E.
  - eapply Forall_impl; [apply Forall_map; eassumption|]. intros c. simpl. by rewrite !E.
Qed.

Lemma InterfaceToValue_map m : ssorted String.compare fst m ->
  InterfaceToValue (NMap m) = Object (map (fun kx => (Str kx.1, InterfaceToValue kx.2)) m).
Proof.
  intros S. simpl. f_equal. set (l := map _ m).
  rewrite (fold_left_ext _ (fun r b => sins Compare fst (fun old new => (old.1, new.2)) b r)) by (by intros ? []).
  apply (fold_sins_sorted Compare fst _ l []). simpl. apply (ssorted_map String.compare Compare fst fst); done.
Qed.

Section Roundtrip.
Context (encode : native -> string).

Lemma JSON_list l xs : Forall2 (fun v x => JSON encode v = Some x) l xs -> JSON encode (Array l) = Some (NArr xs).
Proof.
  intros H. unfold JSON. simpl.
  assert (foldr (fun x r => match x, r with Some x, Some r => Some (x :: r) | _, _ => None end) (Some [])
            (map (valueToInterface encode (fun _ => None)) l) = Some xs) as ->; [|done].
  induction H as [|v x l xs Hv _ IH]; simpl; [done|]. unfold JSON in Hv. by rewrite Hv, IH.
Qed.

Lemma JSON_map kvs m : ssorted String.compare fst m ->
  Forall2 (fun kv kx => kv.1 = Str kx.1 /\ JSON encode kv.2 = Some kx.2) kvs m ->
  JSON encode (Object kvs) = Some (NMap m).
Proof.
  intros S H. unfold JSON. simpl.
  assert (G : forall acc, fold_left (fun buf kv =>
      match buf, kv.1, kv.2 with
      | Some buf, Some ki, Some vi => Some (map_put (key_string encode ki) vi buf)
      | _, _, _ => None
      end) (map (fun kv => (valueToInterface encode (fun _ => None) kv.1, valueToInterface encode (fun _ => None) kv.2)) kvs)
      (Some acc) = Some (fold_left (fun r b => sins String.compare fst (fun _ new => new) b r) m acc)).
  { clear S. induction H as [|[k v] [s x] kvs m [Hk Hv] _ IH]; intros acc; simpl; [done|].
    simpl in Hk, Hv. subst k. unfold JSON in Hv. rewrite Hv. simpl. apply IH. }
  rewrite G, (fold_sins_sorted String.compare fst) by done. done.
Qed.

Lemma JSON_InterfaceToValue x : native_wf x -> JSON encode (InterfaceToValue x) = Some x.
Proof.
  induction x as [|b|n|s|l IH|m IH] using native_induction; intros W; try done; inversion W as [| | | |? Wl|? S Wm]; subst.
  - apply JSON_list. clear W. induction IH as [|x l Hx _ IH']; simpl; [constructor|].
    apply Forall_cons in Wl as [Wx Wl]. constructor; auto.
  - rewrite InterfaceToValue_map by done. apply JSON_map; [done|]. clear W S.
    induction IH as [|[k x] l Hx _ IH']; simpl; [constructor|]. apply Forall_cons in Wm as [Wx Wm]. constructor; auto.
Qed.

Lemma InterfaceToValue_JSON v : json_value v ->
  exists x, JSON encode v = Some x /\ native_wf x /\ InterfaceToValue x = v.
Proof.
  induction v as [v IH] using value_composite_ind. intros J.
  destruct J as [|b|n|s|l Jl|kvs S K Jv].
  - exists NNil. split_ands; [done|constructor|done].
  - exists (NBool b). split_ands; [done|constructor|done].
  - exists (NNum n). split_ands; [done|constructor|done].
  - exists (NStr s). split_ands; [done|constructor|done].
  - assert (exists xs, Forall2 (fun v x => JSON encode v = Some x /\ native_wf x /\ InterfaceToValue x = v) l xs)
      as (xs & F).
    { induction IH as [|v l Hv _ IH']; [by exists []|]. apply Forall_cons in Jl as [J Jl].
      destruct (Hv J) as (x & Hx). destruct (IH' Jl) as (xs & Hxs). exists (x :: xs). by constructor. }
    exists (NArr xs). split_ands.
    + apply JSON_list. eapply Forall2_impl; [exact F|]. by intros ? ? (? & ?).
    + constructor. clear -F. induction F as [|? ? ? ? (_ & ? & _)]; by constructor.
    + simpl. f_equal. clear -F. induction F as [|? ? ? ? (_ & _ & ?)]; simpl; by f_equal.
  - assert (exists m, Forall2 (fun kv kx => kv.1 = Str kx.1 /\ JSON encode kv.2 = Some kx.2 /\
        native_wf kx.2 /\ InterfaceToValue kx.2 = kv.2) kvs m) as (m & F).
    { clear S. induction IH as [|[k v] l [_ Hv] _ IH']; [by exists []|].
      apply Forall_cons in Jv as [J Jv]. apply Forall_cons in K as [[s Hs] K]. simpl in *.
      destruct (Hv J) as (x & Hx). destruct (IH' K Jv) as (xs & Hxs). exists ((s, x) :: xs). by constructor. }
    assert (E : kvs = map (fun kx => (Str kx.1, InterfaceToValue kx.2)) m).
    { clear -F. induction F as [|[k v] [s x] ? ? (E & _ & _ & ?)]; simpl in *; [done|]. subst. by f_equal. }
    assert (Sm : ssorted String.compare fst m).
    { apply (ssorted_map String.compare Compare fst fst (fun kx => (Str kx.1, InterfaceToValue kx.2))); [done|].
      by rewrite <- E. }
    exists (NMap m). split_ands.
    + apply JSON_map; [done|]. eapply Forall2_impl; [exact F|]. by intros ? ? (? & ? & _).
    + constructor; [done|]. clear -F. induction F as [|? ? ? ? (_ & _ & ? & _)]; by constructor.
    + by rewrite InterfaceToValue_map, E by done.
Qed.
End Roundtrip.

(** C36: The conversions between native documents and AST values are inverse to
    each other: converting a document to a value and back gives the document,
    and every value without sets, variables and the like whose object keys are
    strings converts to a document that converts back to it. *)
Theorem native_roundtrip (encode : native -> string) :
  (forall x, native_wf x -> JSON encode (InterfaceToValue x) = Some x) /\
  (forall v, json_value v -> exists x, JSON encode v = Some x /\ native_wf x /\ InterfaceToValue x = v).
Proof. split; intros; [by apply JSON_InterfaceToValue|by apply InterfaceToValue_JSON]. Qed.
