(* ===== verification/Types.v ===== *)
(** The types of the checker: [src/types/types.go].

    [nil] types are the constructor [TNil]; a dynamic property is an option.
    [NamedType], which only carries documentation for built-in functions and
    which [unwrap] removes before every operation, is left out, and so are
    printing and the JSON form.  [NewAny] and [NewObject] sort with [sort.Sort]
    and [sort.Slice], which is [sort_by] here (the elements are pairwise
    different in all uses that the theorems cover). *)
From Stdlib Require Import ZArith Lia String.
From stdpp Require Import base list strings sorting.
From S2P Require Import Prelude SortedKeys Value Native.

Inductive ty : Type :=
| TNil
| TNull
| TBoolean
| TNumber
| TString
| TArray (static : list ty) (dynamic : ty)
| TObject (static : list (native * ty)) (dynamic : option (ty * ty))
| TSet (elem : ty)
| TAny (l : list ty)
| TFunction (args : list ty) (result variadic : ty).

Section TyInd.
Context (P : ty -> Prop).
Context (Hnil : P TNil) (Hnull : P TNull) (Hbool : P TBoolean) (Hnum : P TNumber) (Hstr : P TString).
Context (Harr : forall s d, Forall P s -> P d -> P (TArray s d)).
Context (Hobj : forall s d, Forall (fun p => P p.2) s -> (forall k v, d = Some (k, v) -> P k /\ P v) -> P (TObject s d)).
Context (Hset : forall t, P t -> P (TSet t)) (Hany : forall l, Forall P l -> P (TAny l)).
Context (Hfun : forall a r v, Forall P a -> P r -> P v -> P (TFunction a r v)).
Fixpoint ty_induction (t : ty) : P t :=
  let all := fix all (l : list ty) : Forall P l :=
    match l with [] => List.Forall_nil _ | x :: l => List.Forall_cons _ _ _ (ty_induction x) (all l) end in
  match t with
  | TNil => Hnil
  | TNull => Hnull
  | TBoolean => Hbool
  | TNumber => Hnum
  | TString => Hstr
  | TArray s d => Harr s d (all s) (ty_induction d)
  | TObject s d =>
      Hobj s d ((fix go s : Forall (fun p => P p.2) s :=
        match s with [] => List.Forall_nil _ | p :: s => List.Forall_cons _ _ _ (ty_induction p.2) (go s) end) s)
        (match d return (forall k v, d = Some (k, v) -> P k /\ P v) with
         | None => fun k v H => match H in (_ = o) return match o with Some (k, v) => P k /\ P v | None => True end with eq_refl => I end
         | Some (k', v') => fun k v H => match H in (_ = o) return match o with Some (k, v) => P k /\ P v | None => True end with
                                         eq_refl => conj (ty_induction k') (ty_induction v') end
         end)
  | TSet t => Hset t (ty_induction t)
  | TAny l => Hany l (all l)
  | TFunction a r v => Hfun a r v (all a) (ty_induction r) (ty_induction v)
  end.
End TyInd.

Definition is_nil (t : ty) : bool := match t with TNil => true | _ => false end.
Definition is_function (t : ty) : bool := match t with TFunction _ _ _ => true | _ => false end.
Definition is_any (t : ty) : bool := match t with TAny _ => true | _ => false end.

(** ** Compare *)
Definition typeOrder (x : ty) : Z :=
  match x with
  | TNull => 0
  | TBoolean => 1
  | TNumber => 2
  | TString => 3
  | TArray _ _ => 4
  | TObject _ _ => 5
  | TSet _ => 6
  | TAny _ => 7
  | TFunction _ _ _ => 8
  | TNil => -1
  end.

(** The comparison of two types that may be nil, with the nil cases first. *)
Definition nil_first (c : comparison) (a b : ty) : comparison :=
  if negb (is_nil a) && is_nil b then Gt
  else if negb (is_nil b) && is_nil a then Lt
  else if negb (is_nil a) && negb (is_nil b) then c
  else Eq.

Fixpoint ty_Compare (a b : ty) : comparison :=
  Z.compare (typeOrder a) (typeOrder b) &&&
  match a, b with
  | TArray sa da, TArray sb db => nil_first (ty_Compare da db) da db &&& slice_compare ty_Compare sa sb
  | TObject sa da, TObject sb db =>
      match da, db with
      | Some _, None => Gt
      | None, Some _ => Lt
      | Some (ka, va), Some (kb, vb) => ty_Compare ka kb &&& ty_Compare va vb
      | None, None => Eq
      end &&& slice_compare (fun p q => util_Compare p.1 q.1 &&& ty_Compare p.2 q.2) sa sb
  | TSet x, TSet y => nil_first (ty_Compare x y) x y
  | TAny x, TAny y => slice_compare ty_Compare x y
  | TFunction xa xr xv, TFunction ya yr yv =>
      Z.compare (Z.of_nat (length xa)) (Z.of_nat (length ya)) &&& slice_compare ty_Compare xa ya &&&
      ty_Compare xr yr &&& ty_Compare xv yv
  | _, _ => Eq
  end.
Definition ty_eqb (a b : ty) : bool := match ty_Compare a b with Eq => true | _ => false end.

(** ** sort.Search *)
Fixpoint search (fuel : nat) (f : nat -> bool) (i j : nat) : nat :=
  match fuel with
  | O => i
  | S fuel =>
      if (i <? j)%nat then
        let h := ((i + j) / 2)%nat in
        if negb (f h) then search fuel f (S h) j else search fuel f i h
      else i
  end.
(** The interval shrinks at every step, so [n] steps are enough. *)
Definition Search (n : nat) (f : nat -> bool) : nat := search n f 0 n.

(** The first position of a sorted slice that is not below [x]. *)
Definition search_slice {A B} (cmp : A -> B -> comparison) (l : list A) (x : B) : nat :=
  Search (length l) (fun i => match l !! i with
                              | Some a => match cmp a x with Lt => false | _ => true end
                              | None => false
                              end).

(** ** Any *)
Definition NewAny (l : list ty) : ty := TAny (sort_by ty_Compare id l).
Definition A : ty := TAny [].

Definition Any_Contains (t : list ty) (other : ty) : bool :=
  if is_function other then false
  else
    let i := search_slice ty_Compare t other in
    match t !! i with
    | Some x => ty_eqb x other || (length t =? 0)%nat
    | None => (length t =? 0)%nat
    end.

(** The merging loop of [Union]. *)
Fixpoint union_merge (t : list ty) : list ty -> list ty :=
  fix go (other : list ty) : list ty :=
    match t, other with
    | [], _ => other
    | _, [] => t
    | x :: t', y :: other' =>
        match ty_Compare x y with
        | Lt => x :: union_merge t' other
        | Eq => x :: union_merge t' other'
        | Gt => y :: go other'
        end
    end.
Definition Any_Union (t other : list ty) : list ty :=
  match t, other with
  | [], _ => t
  | _, [] => other
  | _, _ => union_merge t other
  end.

Definition Any_Merge (t : list ty) (other : ty) : list ty :=
  match other with
  | TAny o => Any_Union t o
  | _ =>
      if Any_Contains t other then t
      else let idx := search_slice ty_Compare t other in take idx t ++ other :: drop idx t
  end.

(** ** Or *)

(** [Union] of two functions whose numbers of arguments or variadic parts do
    not agree is a nil [*Function].  It is [TNil] here; in the code it is a
    type that is not nil in comparisons, and no theorem is about function types. *)
Fixpoint Or (a b : ty) : ty :=
  match a, b with
  | TNil, _ => b
  | _, TNil => a
  | TFunction xa xr xv, TFunction ya yr yv =>
      if negb (length xa =? length ya)%nat then TNil
      else if negb (Bool.eqb (is_nil xv) (is_nil yv)) then TNil
      else TFunction (zip_with (fun f y => f y) (map Or xa) ya) (Or xr yr) (Or xv yv)
  | TFunction _ _ _, _ | _, TFunction _ _ _ => TNil
  | TAny x, _ => TAny (Any_Merge x b)
  | _, TAny y => TAny (Any_Merge y a)
  | _, _ => if ty_eqb a b then a else NewAny [a; b]
  end.

Definition Contains (a b : ty) : bool :=
  match a with TAny l => Any_Contains l b | _ => ty_eqb a b end.

(** ** Selection *)
Definition NewObject (static : list (native * ty)) (dynamic : option (ty * ty)) : ty :=
  TObject (sort_by util_Compare fst static) dynamic.

Fixpoint TypeOf (x : native) : ty :=
  match x with
  | NNil => TNull
  | NBool _ => TBoolean
  | NNum _ => TNumber
  | NStr _ => TString
  | NMap m => NewObject (map (fun kx => (NStr kx.1, TypeOf kx.2)) m) None
  | NArr l => TArray (map TypeOf l) TNil
  end.

Definition Array_Select (static : list ty) (dynamic : ty) (pos : Z) : ty :=
  if (0 <=? pos)%Z then
    match static !! Z.to_nat pos with
    | Some t => t
    | None => dynamic
    end
  else TNil.

Definition Object_Select (static : list (native * ty)) (dynamic : option (ty * ty)) (name : native) : ty :=
  let pos := search_slice (fun p n => util_Compare p.1 n) static name in
  let rest := match dynamic with
              | Some (dk, dv) => if Contains dk (TypeOf name) then dv else TNil
              | None => TNil
              end in
  match static !! pos with
  | Some (k, t) => match util_Compare k name with Eq => t | _ => rest end
  | None => rest
  end.

Fixpoint Select (a : ty) (x : native) : ty :=
  match a with
  | TArray static dynamic =>
      match x with
      | NNum n => match num_int64 n with Some pos => Array_Select static dynamic pos | None => TNil end
      | _ => TNil
      end
  | TObject static dynamic => Object_Select static dynamic x
  | TSet e =>
      let tpe := TypeOf x in
      if ty_eqb e tpe then e
      else match e with
           | TAny l => if Any_Contains l tpe then tpe else TNil
           | _ => TNil
           end
  | TAny l => if ty_eqb a A then A else fold_left (fun tpe s => Or s tpe) (map (fun t => Select t x) l) TNil
  | _ => TNil
  end.

Fixpoint Keys (a : ty) : ty :=
  match a with
  | TArray _ _ => TNumber
  | TObject static dynamic =>
      let tpe := fold_left (fun tpe p => Or tpe (TypeOf p.1)) static TNil in
      match dynamic with Some (dk, _) => Or tpe dk | None => tpe end
  | TSet e => e
  | TAny l => if ty_eqb a A then A else fold_left (fun tpe k => Or k tpe) (map Keys l) TNil
  | _ => TNil
  end.

Fixpoint Values (a : ty) : ty :=
  match a with
  | TArray static dynamic => Or (fold_left Or static TNil) dynamic
  | TObject static dynamic =>
      let tpe := fold_left (fun tpe p => Or tpe p.2) static TNil in
      match dynamic with Some (_, dv) => Or tpe dv | None => tpe end
  | TSet e => e
  | TAny l => if ty_eqb a A then A else fold_left (fun tpe v => Or v tpe) (map Values l) TNil
  | _ => TNil
  end.

Fixpoint Nil (a : ty) : bool :=
  match a with
  | TNil => true
  | TFunction args result _ => existsb (fun b => b) (map Nil args) || Nil result
  | TArray static dynamic =>
      existsb (fun b => b) (map Nil static) || (negb (is_nil dynamic) && Nil dynamic)
  | TObject static dynamic =>
      existsb (fun b => b) (map (fun p => Nil p.2) static) ||
      match dynamic with Some (k, v) => Nil k || Nil v | None => false end
  | TSet e => Nil e
  | _ => false
  end.

(** ** The order on types *)
Lemma nil_first_eq a b : nil_first (ty_Compare a b) a b = ty_Compare a b.
Proof. by destruct a, b. Qed.

Definition ty_pair_compare (p q : ty * ty) : comparison := ty_Compare p.1 q.1 &&& ty_Compare p.2 q.2.
Definition property_compare (p q : native * ty) : comparison := util_Compare p.1 q.1 &&& ty_Compare p.2 q.2.
Definition ty_same (a b : ty) : comparison :=
  match a, b with
  | TArray sa da, TArray sb db => ty_Compare da db &&& slice_compare ty_Compare sa sb
  | TObject sa da, TObject sb db => option_compare ty_pair_compare da db &&& slice_compare property_compare sa sb
  | TSet x, TSet y => ty_Compare x y
  | TAny x, TAny y => slice_compare ty_Compare x y
  | TFunction xa xr xv, TFunction ya yr yv =>
      Z.compare (Z.of_nat (length xa)) (Z.of_nat (length ya)) &&& slice_compare ty_Compare xa ya &&&
      ty_Compare xr yr &&& ty_Compare xv yv
  | _, _ => Eq
  end.
Lemma ty_Compare_unfold a b : ty_Compare a b = Z.compare (typeOrder a) (typeOrder b) &&& ty_same a b.
Proof.
  destruct a, b; simpl; try done; rewrite ?nil_first_eq; try done.
  by destruct dynamic as [[]|], dynamic0 as [[]|].
Qed.

Lemma ty_same_ok t :
  match t with
  | TArray s d => Forall (cmp_ok_at ty_Compare) s /\ cmp_ok_at ty_Compare d
  | TObject s d => Forall (fun p => cmp_ok_at ty_Compare p.2) s /\
      forall k v, d = Some (k, v) -> cmp_ok_at ty_Compare k /\ cmp_ok_at ty_Compare v
  | TSet x => cmp_ok_at ty_Compare x
  | TAny l => Forall (cmp_ok_at ty_Compare) l
  | TFunction a r v => Forall (cmp_ok_at ty_Compare) a /\ cmp_ok_at ty_Compare r /\ cmp_ok_at ty_Compare v
  | _ => True
  end -> cmp_ok_on (fun y => Z.compare (typeOrder t) (typeOrder y) = Eq) ty_same t.
Proof.
  destruct t as [| | | | |s d|s d|x|l|a r v]; intros H.
  - apply (cmp_image (fun _ : unit => TNil) _ _ (fun _ _ => Eq) tt); [same_ctor|done|by split].
  - apply (cmp_image (fun _ : unit => TNull) _ _ (fun _ _ => Eq) tt); [same_ctor|done|by split].
  - apply (cmp_image (fun _ : unit => TBoolean) _ _ (fun _ _ => Eq) tt); [same_ctor|done|by split].
  - apply (cmp_image (fun _ : unit => TNumber) _ _ (fun _ _ => Eq) tt); [same_ctor|done|by split].
  - apply (cmp_image (fun _ : unit => TString) _ _ (fun _ _ => Eq) tt); [same_ctor|done|by split].
  - destruct H as [Hs Hd].
    apply (cmp_image (fun p => TArray p.1 p.2) _ _
      (fun p q => ty_Compare p.2 q.2 &&& slice_compare ty_Compare p.1 q.1) (s, d)); [same_ctor|done|].
    apply (cmp_lex (fun p q => ty_Compare p.2 q.2)).
    + by apply (cmp_contramap snd).
    + apply (cmp_contramap fst). by apply slice_compare_ok.
  - destruct H as [Hs Hd].
    apply (cmp_image (fun p => TObject p.1 p.2) _ _
      (fun p q => option_compare ty_pair_compare p.2 q.2 &&& slice_compare property_compare p.1 q.1) (s, d));
      [same_ctor|done|].
    apply (cmp_lex (fun p q => option_compare ty_pair_compare p.2 q.2)).
    + apply (cmp_contramap snd). apply option_compare_ok. intros [k v] E. destruct (Hd k v E) as [Hk Hv].
      apply (cmp_lex (fun p q => ty_Compare p.1 q.1)); [by apply (cmp_contramap fst)|by apply (cmp_contramap snd)].
    + apply (cmp_contramap fst). apply slice_compare_ok. eapply Forall_impl; [exact Hs|]. intros [k x] Hx.
      apply (cmp_lex (fun p q => util_Compare p.1 q.1)).
      * apply (cmp_contramap fst), util_Compare_ok.
      * by apply (cmp_contramap snd).
  - apply (cmp_image TSet _ _ ty_Compare); [same_ctor|done|done].
  - apply (cmp_image TAny _ _ (slice_compare ty_Compare)); [same_ctor|done|by apply slice_compare_ok].
  - destruct H as (Ha & Hr & Hv).
    apply (cmp_image (fun p => TFunction p.1.1 p.1.2 p.2) _ _
      (fun p q => Z.compare (Z.of_nat (length p.1.1)) (Z.of_nat (length q.1.1)) &&&
         slice_compare ty_Compare p.1.1 q.1.1 &&& ty_Compare p.1.2 q.1.2 &&& ty_Compare p.2 q.2) (a, r, v));
      [same_ctor|done|].
    apply (cmp_lex (fun p q => Z.compare (Z.of_nat (length p.1.1)) (Z.of_nat (length q.1.1)) &&&
         slice_compare ty_Compare p.1.1 q.1.1 &&& ty_Compare p.1.2 q.1.2)); [|by apply (cmp_contramap snd)].
    apply (cmp_lex (fun p q => Z.compare (Z.of_nat (length p.1.1)) (Z.of_nat (length q.1.1)) &&&
         slice_compare ty_Compare p.1.1 q.1.1)); [|by apply (cmp_contramap (fun p => p.1.2))].
    apply (cmp_lex (fun p q => Z.compare (Z.of_nat (length p.1.1)) (Z.of_nat (length q.1.1)))).
    + apply (cmp_contramap (fun p => Z.of_nat (length p.1.1))), Z_compare_ok.
    + apply (cmp_contramap (fun p => p.1.1)). by apply slice_compare_ok.
Qed.

#[global] Instance ty_Compare_ok : CmpOk ty_Compare.
Proof.
  assert (Hv : forall v, cmp_ok_on (fun y => Z.compare (typeOrder v) (typeOrder y) = Eq) ty_same v ->
    cmp_ok_at ty_Compare v).
  { intros v H.
    destruct (cmp_then_ok (fun a b => Z.compare (typeOrder a) (typeOrder b)) ty_same v)
      as [Hs Ht Hl He]; [apply (cmp_contramap typeOrder), Z_compare_ok|done|].
    split; intros y; [|intros z..]; rewrite !ty_Compare_unfold; [apply Hs|apply Ht|apply Hl|apply He]. }
  intros t. induction t using ty_induction; apply Hv, ty_same_ok; by auto.
Qed.

Lemma ty_eqb_true a b : ty_eqb a b = true <-> ty_Compare a b = Eq.
Proof. unfold ty_eqb. by destruct (ty_Compare a b). Qed.

(** ** Searching *)
Lemma search_spec f n : (forall i j, (i <= j < n)%nat -> f i = true -> f j = true) ->
  forall fuel i j, (j - i <= fuel)%nat -> (i <= j <= n)%nat ->
  (forall k, (k < i)%nat -> f k = false) -> (forall k, (j <= k < n)%nat -> f k = true) ->
  let r := search fuel f i j in
  (r <= n)%nat /\ (forall k, (k < r)%nat -> f k = false) /\ (forall k, (r <= k < n)%nat -> f k = true).
Proof.
  intros Mono. induction fuel as [|fuel IH]; intros i j Hf Hij Lo Hi; cbn [search]; cbv zeta.
  - split_ands; [lia|done|]. intros k Hk. apply Hi. lia.
  - destruct (i <? j)%nat eqn:C; [apply Nat.ltb_lt in C|apply Nat.ltb_ge in C].
    2:{ split_ands; [lia|done|]. intros k Hk. apply Hi. lia. }
    pose proof (Nat.div_mod (i + j) 2 ltac:(lia)). pose proof (Nat.mod_upper_bound (i + j) 2 ltac:(lia)).
    set (h := ((i + j) / 2)%nat) in *. assert (i <= h < j)%nat by lia.
    destruct (f h) eqn:F; cbn [negb].
    + apply IH; [lia|lia|done|]. intros k Hk. apply (Mono h); [lia|done].
    + apply IH; [lia|lia| |done]. intros k Hk. destruct (f k) eqn:Fk; [|done].
      rewrite (Mono k h) in F; [done|lia|done].
Qed.

Lemma Search_spec f n : (forall i j, (i <= j < n)%nat -> f i = true -> f j = true) ->
  (Search n f <= n)%nat /\ (forall k, (k < Search n f)%nat -> f k = false) /\
  (forall k, (Search n f <= k < n)%nat -> f k = true).
Proof. intros Mono. apply search_spec; [done|lia|lia|lia|lia]. Qed.

Section SearchSorted.
Context {K B : Type} (cmp : K -> K -> comparison) (key : B -> K) `{!CmpOk cmp}.

Lemma search_slice_spec l x : ssorted cmp key l ->
  let pos := search_slice (fun b x => cmp (key b) x) l x in
  Forall (fun b => cmp (key b) x = Lt) (take pos l) /\ Forall (fun b => cmp (key b) x <> Lt) (drop pos l).
Proof.
  intros S pos. set (f := fun i => match l !! i with
                              | Some a => match cmp (key a) x with Lt => false | _ => true end
                              | None => false
                              end).
  assert (L : forall i j a b, (i < j)%nat -> l !! i = Some a -> l !! j = Some b -> cmp (key a) (key b) = Lt).
  { intros i j a b Hij Ha Hb. rewrite <- (take_drop_middle l i a Ha) in S. unfold ssorted in S.
    apply StronglySorted_app in S as (_ & _ & S). inversion S as [|? ? _ F]; subst.
    rewrite Forall_forall in F. apply F. apply list_elem_of_lookup. exists (j - Datatypes.S i)%nat.
    rewrite lookup_drop. rewrite <- Hb. f_equal. lia. }
  destruct (Search_spec f (length l)) as (Hn & Lo & Hi).
  { intros i j Hij. destruct (decide (i = j)) as [->|Ne]; [done|]. unfold f.
    destruct (lookup_lt_is_Some_2 l i ltac:(lia)) as [a Ha], (lookup_lt_is_Some_2 l j ltac:(lia)) as [b Hb].
    rewrite Ha, Hb. pose proof (L i j a b ltac:(lia) Ha Hb) as Lt'.
    destruct (cmp (key b) x) eqn:Eb; [done| |done]. by rewrite (cmp_lt_trans cmp _ _ _ Lt' Eb). }
  change (Search (length l) f) with pos in *. split; apply Forall_lookup.
  - intros i b Hb. pose proof (lookup_lt_Some _ _ _ Hb). rewrite length_take in *.
    rewrite lookup_take_lt in Hb by lia. specialize (Lo i ltac:(lia)). unfold f in Lo. rewrite Hb in Lo.
    by destruct (cmp (key b) x).
  - intros i b Hb. rewrite lookup_drop in Hb. pose proof (lookup_lt_Some _ _ _ Hb).
    specialize (Hi (pos + i)%nat ltac:(lia)). unfold f in Hi. rewrite Hb in Hi. by destruct (cmp (key b) x).
Qed.

Lemma search_sfind l x : ssorted cmp key l ->
  match l !! search_slice (fun b x => cmp (key b) x) l x with
  | Some b => match cmp (key b) x with Eq => Some b | _ => None end
  | None => None
  end = sfind cmp key x l.
Proof.
  intros S. destruct (search_slice_spec l x S) as [Lo Hi]. set (pos := search_slice _ l x) in *.
  assert (N : forall l', Forall (fun b => cmp (key b) x = Lt) l' -> sfind cmp key x l' = None).
  { intros l' F. apply (sfind_None cmp key). eapply Forall_impl; [exact F|]. intros b E. by rewrite (cmp_sym cmp (key b)), E. }
  destruct (l !! pos) as [b|] eqn:E.
  - rewrite <- (take_drop_middle l pos b E) in S |- *. rewrite (drop_S l b pos E) in Hi.
    apply Forall_cons in Hi as [Hb Hi].
    assert (G : forall l1 l2, sfind cmp key x l1 = None -> sfind cmp key x (l1 ++ l2) = sfind cmp key x l2).
    { induction l1 as [|c l1 IH]; intros l2; simpl; [done|]. destruct (same_key cmp key x c); [done|apply IH]. }
    rewrite G by (by apply N). simpl. unfold same_key. rewrite (cmp_sym cmp (key b) x).
    destruct (cmp (key b) x) eqn:Cb; simpl; [done|done|]. symmetry. apply (sfind_None cmp key).
    unfold ssorted in S. apply StronglySorted_app in S as (_ & _ & S). inversion S as [|? ? _ F]; subst.
    eapply Forall_impl; [exact F|]. intros c Hc. apply (cmp_gt_lt cmp) in Cb.
    by rewrite (cmp_lt_trans cmp _ _ _ Cb Hc).
  - apply lookup_ge_None in E. rewrite take_ge in Lo by done. symmetry. by apply N.
Qed.

Lemma sins_split upd b l1 l2 :
  Forall (fun c => cmp (key c) (key b) = Lt) l1 -> Forall (fun c => cmp (key b) (key c) = Lt) l2 ->
  sins cmp key upd b (l1 ++ l2) = l1 ++ b :: l2.
Proof.
  intros F1 F2. induction F1 as [|c l1 H _ IH]; simpl.
  - destruct F2 as [|c l2 H _]; simpl; [done|]. by rewrite H.
  - by rewrite (cmp_sym cmp), H, IH.
Qed.

Lemma search_insert upd b l : ssorted cmp key l -> sfind cmp key (key b) l = None ->
  let pos := search_slice (fun c x => cmp (key c) x) l (key b) in
  take pos l ++ b :: drop pos l = sins cmp key upd b l.
Proof.
  intros S N pos. destruct (search_slice_spec l (key b) S) as [Lo Hi]. fold pos in Lo, Hi.
  apply (sfind_None cmp key) in N. rewrite <- (take_drop pos l) in N. apply Forall_app in N as [_ N].
  rewrite <- (take_drop pos l) at 3. symmetry. apply sins_split; [done|].
  rewrite Forall_forall in *. intros c Hc. specialize (N c Hc). specialize (Hi c Hc).
  apply (cmp_gt_lt cmp). rewrite (cmp_sym cmp) in N. by destruct (cmp (key c) (key b)).
Qed.
End SearchSorted.
