(* ===== verification/TypesSound.v ===== *)
(** What the types of Types.v mean: the documents of a type, and that the
    operations of the checker respect the meaning.

    A document is an AST value.  The static properties of an object type are
    the properties its documents must have, by scalar keys; [nil] is the type
    without documents and [Any] without alternatives the type of all. *)
From Stdlib Require Import ZArith Lia String.
From stdpp Require Import base list strings sorting.
From S2P Require Import Prelude SortedKeys Value Containers SetTable RefOps Native Types.

(** The native form of a scalar ([JSON] on scalars). *)
Definition scalar_native (v : value) : option native :=
  match v with
  | Null => Some NNil
  | Boolean b => Some (NBool b)
  | Number n => Some (NNum n)
  | Str s => Some (NStr s)
  | _ => None
  end.
Definition native_scalar (n : native) : bool := match n with NArr _ | NMap _ => false | _ => true end.
Definition key_is (k : value) (n : native) : Prop :=
  match scalar_native k with Some n' => util_Compare n' n = Eq | None => False end.

Section Pieces.
Abbreviation doc_pred := (value -> Prop).

Fixpoint arr_typed (static : list doc_pred) (dynamic : doc_pred) (vs : list value) : Prop :=
  match static, vs with
  | [], _ => Forall dynamic vs
  | P :: static, v :: vs => P v /\ arr_typed static dynamic vs
  | _ :: _, [] => False
  end.

(** An entry has the type of a static property with its key, or else the
    dynamic types. *)
Definition entry_typed (static : list (native * doc_pred)) (dynamic : option (doc_pred * doc_pred))
    (kv : value * value) : Prop :=
  Exists (fun p => key_is kv.1 p.1 /\ p.2 kv.2) static \/
  (Forall (fun p => ~ key_is kv.1 p.1) static /\
   match dynamic with Some (K, V) => K kv.1 /\ V kv.2 | None => False end).
Definition obj_typed (static : list (native * doc_pred)) (dynamic : option (doc_pred * doc_pred))
    (kvs : list (value * value)) : Prop :=
  Forall (fun p => Exists (fun kv => key_is kv.1 p.1) kvs) static /\ Forall (entry_typed static dynamic) kvs.
End Pieces.

Fixpoint has_type (t : ty) (v : value) : Prop :=
  match t with
  | TNil | TFunction _ _ _ => False
  | TNull => v = Null
  | TBoolean => exists b, v = Boolean b
  | TNumber => exists n, v = Number n
  | TString => exists s, v = Str s
  | TArray s d => match v with Array vs => arr_typed (map has_type s) (has_type d) vs | _ => False end
  | TObject s d =>
      match v with
      | Object kvs =>
          obj_typed (map (fun p => (p.1, has_type p.2)) s)
            (match d with Some (k, x) => Some (has_type k, has_type x) | None => None end) kvs
      | _ => False
      end
  | TSet e => match v with SetV l => Forall (has_type e) l | _ => False end
  | TAny l => match l with [] => True | _ => Exists (fun P => P v) (map has_type l) end
  end.

(** Well-formed types: alternatives sorted and flat, properties sorted by
    scalar keys, no functions. *)
Definition flat (t : ty) : bool := negb (is_nil t) && negb (is_any t) && negb (is_function t).
Fixpoint wf (t : ty) : Prop :=
  match t with
  | TNil | TNull | TBoolean | TNumber | TString => True
  | TArray s d => Forall (fun P => P) (map wf s) /\ wf d
  | TObject s d =>
      ssorted util_Compare fst s /\ Forall (fun p => native_scalar p.1 = true) s /\
      Forall (fun P => P) (map (fun p => wf p.2) s) /\
      match d with Some (k, x) => wf k /\ wf x | None => True end
  | TSet e => is_nil e = false /\ wf e
  | TAny l => ssorted ty_Compare id l /\ Forall (fun t => flat t = true) l /\ Forall (fun P => P) (map wf l)
  | TFunction _ _ _ => False
  end.

(** ** Types and documents up to their comparisons *)
Lemma key_is_native k n n' : util_Compare n n' = Eq -> key_is k n <-> key_is k n'.
Proof.
  intros E. unfold key_is. destruct (scalar_native k) as [m|]; [|done].
  by rewrite (cmp_eq_r util_Compare m n n' E).
Qed.

Lemma scalar_native_Equal k k' : Equal k k' = true ->
  match scalar_native k, scalar_native k' with
  | Some n, Some n' => util_Compare n n' = Eq
  | None, None => True
  | _, _ => False
  end.
Proof.
  intros E. pose proof (Equal_sortOrder _ _ E) as O. apply Equal_true in E.
  rewrite Compare_unfold in E. apply cmp_then_eq in E as [_ E].
  destruct k, k'; try discriminate O; simpl in *; try done; rewrite ?cmp_then_eq; try done.
  by apply compareJSONNumber_eq.
Qed.

Lemma key_is_Equal k k' n : Equal k k' = true -> key_is k n <-> key_is k' n.
Proof.
  intros E%scalar_native_Equal. unfold key_is. destruct (scalar_native k) as [m|], (scalar_native k') as [m'|]; try done.
  by rewrite (cmp_eq_l util_Compare m m' n E).
Qed.

Lemma arr_typed_ext s s' (d d' : value -> Prop) vs :
  Forall2 (fun P Q => forall v, P v <-> Q v) s s' -> (forall v, d v <-> d' v) ->
  arr_typed s d vs <-> arr_typed s' d' vs.
Proof.
  intros F E. revert vs. induction F as [|P Q s s' H _ IH]; intros vs; simpl.
  - split; intros G; eapply Forall_impl; try exact G; intros v; apply E.
  - destruct vs as [|v vs]; [done|]. by rewrite H, IH.
Qed.

Lemma Exists_Forall2 {A B} (P : A -> Prop) (Q : B -> Prop) l l' :
  Forall2 (fun x y => P x <-> Q y) l l' -> Exists P l <-> Exists Q l'.
Proof. induction 1 as [|x y l l' H _ IH]; [by rewrite !Exists_nil|]. by rewrite !Exists_cons, H, IH. Qed.
Lemma Forall_Forall2_iff {A B} (P : A -> Prop) (Q : B -> Prop) l l' :
  Forall2 (fun x y => P x <-> Q y) l l' -> Forall P l <-> Forall Q l'.
Proof. induction 1 as [|x y l l' H _ IH]; [by rewrite !Forall_nil|]. by rewrite !Forall_cons, H, IH. Qed.

Definition same_static (p q : native * (value -> Prop)) : Prop :=
  util_Compare p.1 q.1 = Eq /\ forall v, p.2 v <-> q.2 v.
Definition same_dynamic (d d' : option ((value -> Prop) * (value -> Prop))) : Prop :=
  match d, d' with
  | Some (K, V), Some (K', V') => (forall v, K v <-> K' v) /\ (forall v, V v <-> V' v)
  | None, None => True
  | _, _ => False
  end.

Lemma obj_typed_ext s s' d d' kvs : Forall2 same_static s s' -> same_dynamic d d' ->
  obj_typed s d kvs <-> obj_typed s' d' kvs.
Proof.
  intros F E. unfold obj_typed. f_equiv.
  - apply Forall_Forall2_iff. eapply Forall2_impl; [exact F|]. intros p q [Hk _].
    apply Exists_Forall2. apply Forall_Forall2_diag. apply Forall_forall. intros kv _. by apply key_is_native.
  - apply Forall_Forall2_iff, Forall_Forall2_diag, Forall_forall. intros kv _. unfold entry_typed. f_equiv; [|f_equiv].
    + apply Exists_Forall2. eapply Forall2_impl; [exact F|]. intros p q [Hk Hv].
      by rewrite (key_is_native _ _ _ Hk), Hv.
    + apply Forall_Forall2_iff. eapply Forall2_impl; [exact F|]. intros p q [Hk _].
      by rewrite (key_is_native _ _ _ Hk).
    + destruct d as [[K V]|], d' as [[K' V']|]; simpl in E; try done. destruct E as [E1 E2]. by rewrite E1, E2.
Qed.

(** Types that compare equal have the same documents. *)
Lemma has_type_Compare a : forall b v, ty_Compare a b = Eq -> has_type a v <-> has_type b v.
Proof.
  assert (L : forall l, Forall (fun a => forall b v, ty_Compare a b = Eq -> has_type a v <-> has_type b v) l ->
    forall l', slice_compare ty_Compare l l' = Eq ->
    Forall2 (fun P Q => forall v, P v <-> Q v) (map has_type l) (map has_type l')).
  { intros l IH l' E%slice_compare_eq_iff. revert IH. induction E as [|x y l l' H _ IH']; intros IH; simpl; constructor.
    - intros v. apply Forall_cons in IH as [IH _]. by apply IH.
    - apply Forall_cons in IH as [_ IH]. by apply IH'. }
  induction a as [| | | | |s d IHs IHd|s d IHs IHd|e IH|l IH|ar r vr] using ty_induction; intros b v E;
    rewrite ty_Compare_unfold in E; apply cmp_then_eq in E as [O%Z.compare_eq E];
    destruct b as [| | | | |s' d'|s' d'|e'|l'|ar' r' vr']; try discriminate O; try done; simpl in E |- *.
  - apply cmp_then_eq in E as [Ed Es]. destruct v; try done. apply arr_typed_ext; [by apply L|]. intros w. by apply IHd.
  - apply cmp_then_eq in E as [Ed Es]. destruct v; try done. apply obj_typed_ext.
    + apply slice_compare_eq_iff in Es. clear -Es IHs. induction Es as [|[n x] [n' x'] s s' H _ IH']; simpl; [constructor|].
      apply Forall_cons in IHs as [Hx IHs]. apply cmp_then_eq in H as [Hn H]. constructor; [|by apply IH'].
      split; [done|]. intros w. by apply Hx.
    + destruct d as [[k x]|], d' as [[k' x']|]; try done. simpl in Ed. apply cmp_then_eq in Ed as [Ek Ex].
      destruct (IHd k x eq_refl) as [Hk Hx]. split; intros w; [by apply Hk|by apply Hx].
  - destruct v; try done. apply Forall_Forall2_iff, Forall_Forall2_diag, Forall_forall. intros w _. by apply IH.
  - pose proof (L l IH l' E) as F. destruct l, l'; try done; try by inversion F.
    apply Exists_Forall2. eapply Forall2_impl; [exact F|]. intros P Q H. apply H.
Qed.

(** Documents that compare equal have the same types. *)
Lemma Forall_Equal (P : value -> Prop) l l' :
  (forall v w, Equal v w = true -> P v -> P w) -> Forall2 (fun x y => Equal x y = true) l l' ->
  Forall P l -> Forall P l'.
Proof. intros H F. induction F; intros G; inversion G; constructor; eauto. Qed.

Lemma arr_typed_Equal s d vs ws :
  Forall (fun P => forall v w, Equal v w = true -> P v -> P w) s -> (forall v w, Equal v w = true -> d v -> d w) ->
  Forall2 (fun x y => Equal x y = true) vs ws -> arr_typed s d vs -> arr_typed s d ws.
Proof.
  intros Hs Hd F. revert s Hs. induction F as [|v w vs ws E F IH]; intros [|P s] Hs; simpl; try done.
  - intros H. apply Forall_cons in H as [H1 H2]. constructor; [eauto|by eapply Forall_Equal].
  - apply Forall_cons in Hs as [HP Hs]. intros [H1 H2]. split; [eauto|by apply IH].
Qed.

Lemma obj_typed_Equal s d kvs kvs' :
  Forall (fun p => forall v w, Equal v w = true -> p.2 v -> p.2 w) s ->
  match d with
  | Some (K, V) => (forall v w, Equal v w = true -> K v -> K w) /\ (forall v w, Equal v w = true -> V v -> V w)
  | None => True
  end ->
  Forall2 (fun x y => Equal x.1 y.1 = true /\ Equal x.2 y.2 = true) kvs kvs' ->
  obj_typed s d kvs -> obj_typed s d kvs'.
Proof.
  intros Hs Hd F [Hp He]. split.
  - eapply Forall_impl; [exact Hp|]. intros p. refine (proj1 (Exists_Forall2 _ _ kvs kvs' _)).
    eapply Forall2_impl; [exact F|]. intros x y [E _]. by apply key_is_Equal.
  - clear Hp. induction F as [|[k v] [k' v'] kvs kvs' [E1 E2] _ IH]; [constructor|].
    apply Forall_cons in He as [H He]. constructor; [|by apply IH]. simpl in E1, E2. destruct H as [H|[H1 H2]]; [left|right].
    + apply Exists_exists in H as (p & Hp & Hk & Hv). apply Exists_exists. exists p. split; [done|].
      split; [by apply (key_is_Equal _ _ p.1 E1)|]. rewrite Forall_forall in Hs. by apply (Hs p Hp v).
    + split.
      * eapply Forall_impl; [exact H1|]. intros p N H. apply N. by apply (key_is_Equal _ _ p.1 E1).
      * destruct d as [[K V]|]; [|done]. destruct Hd as [HK HV], H2 as [X Y]. split; [by apply (HK k)|by apply (HV v)].
Qed.

Lemma has_type_Equal t : forall v w, Equal v w = true -> has_type t v -> has_type t w.
Proof.
  induction t as [| | | | |s d IHs IHd|s d IHs IHd|e IH|l IH|ar r vr] using ty_induction; intros v w E; simpl; try done.
  1-4: pose proof (Equal_sortOrder _ _ E) as O.
  - intros ->. by destruct w.
  - intros [b ->]. destruct w; try discriminate O. by eexists.
  - intros [b ->]. destruct w; try discriminate O. by eexists.
  - intros [b ->]. destruct w; try discriminate O. by eexists.
  - destruct v; try done. apply Equal_Array in E as (ws & -> & F).
    apply arr_typed_Equal; [|done|done]. by apply Forall_map.
  - destruct v; try done. apply Equal_Object in E as (kvs' & -> & F).
    apply obj_typed_Equal; [|destruct d as [[k x]|]; [by apply IHd|done]|done]. by apply Forall_map.
  - destruct v; try done. pose proof (Equal_sortOrder _ _ E) as O. destruct w as [| | | | | | | |ws| | | |]; try discriminate O.
    apply Equal_true in E. rewrite Compare_unfold in E. apply cmp_then_eq in E as [_ E]. simpl in E.
    apply slice_compare_eq_iff in E. apply Forall_Equal; [exact IH|].
    eapply Forall2_impl; [exact E|]. intros x y. apply Equal_true.
  - destruct l as [|a l]; [done|]. intros H. apply Exists_exists in H as (P & (t & -> & Ht)%list_elem_of_fmap & HP).
    apply Exists_exists. exists (has_type t). split; [by apply (list_elem_of_fmap_2 has_type)|].
    rewrite Forall_forall in IH. by apply (IH t Ht v).
Qed.

(** ** Unions *)
Lemma any_typed l v : has_type (TAny l) v <-> l = [] \/ exists t, t ∈ l /\ has_type t v.
Proof.
  destruct l as [|a l]; simpl; [split; [by left|done]|]. rewrite <- (map_cons has_type a l).
  rewrite Exists_exists. split.
  - intros (P & (t & -> & Ht)%list_elem_of_fmap & HP). right. by exists t.
  - intros [[=]|(t & Ht & HP)]. exists (has_type t). split; [|done]. by apply (list_elem_of_fmap_2 has_type).
Qed.

Lemma any_wf l : wf (TAny l) <-> ssorted ty_Compare id l /\ forall t, t ∈ l -> flat t = true /\ wf t.
Proof.
  simpl. rewrite Forall_map, !Forall_forall. naive_solver.
Qed.

Lemma Any_Contains_iff l t : ssorted ty_Compare id l -> is_function t = false ->
  Any_Contains l t = true <-> l = [] \/ exists x, x ∈ l /\ ty_Compare x t = Eq.
Proof.
  intros S F. unfold Any_Contains. rewrite F. pose proof (search_sfind ty_Compare id l t S) as E.
  change (search_slice (fun b x => ty_Compare (id b) x) l t) with (search_slice ty_Compare l t) in E.
  assert (N : sfind ty_Compare id t l = None -> (exists x, x ∈ l /\ ty_Compare x t = Eq) -> False).
  { intros N (x & Hx & Ex). apply (sfind_None ty_Compare id) in N. rewrite Forall_forall in N.
    apply (N x Hx). by apply (cmp_eq_sym ty_Compare). }
  destruct (l !! search_slice ty_Compare l t) as [x|] eqn:L.
  - unfold ty_eqb, id in *. destruct (ty_Compare x t) eqn:C; simpl.
    + split; [|done]. intros _. right. exists x. split; [by eapply list_elem_of_lookup_2|done].
    + rewrite Nat.eqb_eq, length_zero_iff_nil. split; [by left|]. intros [?|H]; [done|]. by destruct N.
    + rewrite Nat.eqb_eq, length_zero_iff_nil. split; [by left|]. intros [?|H]; [done|]. by destruct N.
  - rewrite Nat.eqb_eq, length_zero_iff_nil. split; [by left|]. intros [?|H]; [done|]. by destruct N.
Qed.

Lemma union_merge_ok t : forall o, ssorted ty_Compare id t -> ssorted ty_Compare id o ->
  ssorted ty_Compare id (union_merge t o) /\
  (forall x, x ∈ union_merge t o -> x ∈ t \/ x ∈ o) /\ (forall x, x ∈ t -> x ∈ union_merge t o) /\
  (forall x, x ∈ o -> exists y, y ∈ union_merge t o /\ ty_Compare y x = Eq).
Proof.
  unfold ssorted, id. induction t as [|x t IH]; intros o St So.
  { assert (E : union_merge [] o = o) by (by destruct o). rewrite E. split_ands; [done|auto| |].
    - by intros x ?%not_elem_of_nil.
    - intros x Hx. exists x. split; [done|apply (cmp_refl ty_Compare)]. }
  induction o as [|y o IHo].
  { simpl. split_ands; auto. by intros z ?%not_elem_of_nil. }
  inversion St as [|? ? St' Fx]; inversion So as [|? ? So' Fy]; subst. simpl.
  rewrite Forall_forall in Fx, Fy. destruct (ty_Compare x y) eqn:C.
  - destruct (IH o St' So') as (S & H1 & H2 & H3). split_ands.
    + constructor; [done|]. apply Forall_forall. intros z [Hz|Hz]%H1; [by apply Fx|].
      rewrite <- (cmp_eq_l ty_Compare x y z C). by apply Fy.
    + intros z [->|Hz]%elem_of_cons; [left; left|]. destruct (H1 z Hz); [left|right]; by right.
    + intros z [->|Hz]%elem_of_cons; [left|right; auto].
    + intros z [->|Hz]%elem_of_cons; [exists x; split; [left|done]|].
      destruct (H3 z Hz) as (w & ? & ?). exists w. split; [by right|done].
  - destruct (IH (y :: o) St' So) as (S & H1 & H2 & H3). split_ands.
    + constructor; [done|]. apply Forall_forall. intros z [Hz|[->|Hz]%elem_of_cons]%H1; [by apply Fx|done|].
      apply (cmp_lt_trans ty_Compare x y); [done|by apply Fy].
    + intros z [->|Hz]%elem_of_cons; [left; left|]. destruct (H1 z Hz); [left; by right|by right].
    + intros z [->|Hz]%elem_of_cons; [left|right; auto].
    + intros z Hz. destruct (H3 z Hz) as (w & ? & ?). exists w. split; [by right|done].
  - destruct (IHo So') as (S & H1 & H2 & H3). apply (cmp_gt_lt ty_Compare) in C. fold (union_merge (x :: t) o).
    change ((fix go (other : list ty) : list ty := _) o) with (union_merge (x :: t) o). split_ands.
    + constructor; [done|]. apply Forall_forall. intros z [[->|Hz]%elem_of_cons|Hz]%H1; [done| |by apply Fy].
      apply (cmp_lt_trans ty_Compare y x); [done|by apply Fx].
    + intros z [->|Hz]%elem_of_cons; [right; left|]. destruct (H1 z Hz); [by left|right; by right].
    + intros z Hz. right. auto.
    + intros z [->|Hz]%elem_of_cons; [exists y; split; [left|apply (cmp_refl ty_Compare)]|].
      destruct (H3 z Hz) as (w & ? & ?). exists w. split; [by right|done].
Qed.

(** [TAny l'] is the union of [TAny l] and [t]. *)
Definition is_union (l' : list ty) (a b : ty) : Prop :=
  wf (TAny l') /\ forall v, has_type (TAny l') v <-> has_type a v \/ has_type b v.

Lemma Any_Union_ok l o : wf (TAny l) -> wf (TAny o) -> is_union (Any_Union l o) (TAny l) (TAny o).
Proof.
  intros Wl Wo. unfold is_union. destruct l as [|x l]; [split; [done|simpl; tauto]|].
  destruct o as [|y o]; [split; [done|simpl; tauto]|]. cbn [Any_Union].
  pose proof Wl as [Sl Fl]%any_wf. pose proof Wo as [So Fo]%any_wf.
  destruct (union_merge_ok (x :: l) (y :: o) Sl So) as (S & H1 & H2 & H3).
  set (u := union_merge (x :: l) (y :: o)) in *. split.
  - apply any_wf. split; [done|]. intros t [Ht|Ht]%H1; auto.
  - intros v. rewrite !any_typed. split.
    + intros [E|(t & [Ht|Ht]%H1 & Hv)]; [|left; right; eauto|right; right; eauto].
      specialize (H2 x ltac:(left)). rewrite E in H2. by apply not_elem_of_nil in H2.
    + intros [[[=]|(t & Ht & Hv)]|[[=]|(t & Ht & Hv)]]; right; [exists t; auto|].
      destruct (H3 t Ht) as (t' & Ht' & C). exists t'. split; [done|]. by apply (has_type_Compare t' t v C).
Qed.

Lemma Any_Merge_ok l t : wf (TAny l) -> wf t -> is_nil t = false -> is_function t = false ->
  is_union (Any_Merge l t) (TAny l) t.
Proof.
  intros Wl Wt Nn Nf. destruct (is_any t) eqn:Na; [destruct t; try discriminate Na; by apply Any_Union_ok|].
  assert (E : Any_Merge l t = if Any_Contains l t then l
    else take (search_slice ty_Compare l t) l ++ t :: drop (search_slice ty_Compare l t) l) by (by destruct t).
  rewrite E. clear E. pose proof Wl as [Sl Fl]%any_wf. pose proof (Any_Contains_iff l t Sl Nf) as C.
  unfold is_union. destruct (Any_Contains l t).
  - destruct C as [C _]. split; [done|]. intros v. rewrite any_typed. split; [tauto|]. intros [?|Hv]; [done|].
    destruct (C eq_refl) as [->|(x & Hx & Ex)]; [by left|right; exists x; split; [done|]]. by apply (has_type_Compare x t v Ex).
  - assert (N : sfind ty_Compare id (id t) l = None).
    { apply (sfind_None ty_Compare id), Forall_forall. intros x Hx Ex. destruct C as [_ C]. discriminate C.
      right. exists x. split; [done|]. by apply (cmp_eq_sym ty_Compare). }
    pose proof (search_insert ty_Compare id (fun o _ => o) t l Sl N) as E.
    change (search_slice (fun c x => ty_Compare (id c) x) l (id t)) with (search_slice ty_Compare l t) in E.
    cbv zeta in E. set (l' := take _ l ++ t :: drop _ l) in *.
    assert (El : forall x, x ∈ l' <-> x = t \/ x ∈ l).
    { intros x. unfold l'. rewrite elem_of_app, elem_of_cons.
      assert (x ∈ l <-> x ∈ take (search_slice ty_Compare l t) l ++ drop (search_slice ty_Compare l t) l) as ->
        by (by rewrite take_drop). rewrite elem_of_app. tauto. }
    split.
    + apply any_wf. split; [rewrite E; apply (sins_ssorted ty_Compare id); [|done]; intros; apply (cmp_refl ty_Compare)|]. intros x [->|Hx]%El; [|auto].
      split; [|done]. unfold flat. by rewrite Nn, Na, Nf.
    + assert (T : t ∈ l') by (apply El; by left). intros v. rewrite any_typed, any_typed. split.
      * intros [E'|(x & [->|Hx]%El & Hv)]; [rewrite E' in T; by apply not_elem_of_nil in T|by right|left; right; eauto].
      * intros [[->|(x & Hx & Hv)]|Hv]; right; [|exists x; split; [apply El; by right|done]|by exists t].
        destruct C as [_ C]. discriminate C. by left.
Qed.

Lemma Or_ok a b : wf a -> wf b ->
  wf (Or a b) /\ forall v, has_type (Or a b) v <-> has_type a v \/ has_type b v.
Proof.
  intros Wa Wb. assert (Fa : is_function a = false) by (by destruct a). assert (Fb : is_function b = false) by (by destruct b).
  destruct (is_nil a) eqn:Na; [destruct a; try discriminate Na; simpl; split; [by destruct b|intros v; destruct b; tauto]|].
  destruct (is_nil b) eqn:Nb.
  { destruct b; try discriminate Nb. assert (Or a TNil = a) as -> by (by destruct a). split; [done|]. intros v. simpl. tauto. }
  destruct (is_any a) eqn:Ka.
  { destruct a as [| | | | | | | |l|]; try discriminate Ka.
    assert (Or (TAny l) b = TAny (Any_Merge l b)) as -> by (by destruct b). by apply Any_Merge_ok. }
  destruct (is_any b) eqn:Kb.
  { destruct b as [| | | | | | | |l|]; try discriminate Kb.
    assert (Or a (TAny l) = TAny (Any_Merge l a)) as -> by (by destruct a).
    destruct (Any_Merge_ok l a Wb Wa Na Fa) as [W H]. split; [done|]. intros v. rewrite H. tauto. }
  assert (Or a b = if ty_eqb a b then a else NewAny [a; b]) as -> by (by destruct a, b).
  destruct (ty_eqb a b) eqn:E.
  - apply ty_eqb_true in E. split; [done|]. intros v. rewrite (has_type_Compare a b v E). tauto.
  - assert (Ne : ty_Compare a b <> Eq) by (rewrite <- ty_eqb_true, E; done).
    assert (El : forall x, x ∈ sort_by ty_Compare id [a; b] <-> x = a \/ x = b).
    { intros x. rewrite (elem_of_sort_by ty_Compare id), !elem_of_cons, elem_of_nil. tauto. }
    unfold NewAny. split.
    + apply any_wf. split.
      * apply (sort_by_ssorted ty_Compare id). repeat constructor; done.
      * intros x [->| ->]%El; (split; [|done]); unfold flat; by rewrite ?Na, ?Nb, ?Ka, ?Kb, ?Fa, ?Fb.
    + intros v. rewrite any_typed. split.
      * intros [E'|(x & [->| ->]%El & H)]; [|by left|by right].
        assert (a ∈ sort_by ty_Compare id [a; b]) as Q by (apply El; by left). rewrite E' in Q. by apply not_elem_of_nil in Q.
      * intros [H|H]; right; [exists a|exists b]; (split; [apply El; auto|done]).
Qed.

(** Unions of lists of types, from either side. *)
Lemma fold_Or_ok {B} (f : ty -> B -> ty) (g : B -> ty) l : forall t,
  (forall t x, f t x = Or t (g x) \/ f t x = Or (g x) t) -> wf t -> Forall (fun x => wf (g x)) l ->
  wf (fold_left f l t) /\
  forall v, has_type (fold_left f l t) v <-> has_type t v \/ Exists (fun x => has_type (g x) v) l.
Proof.
  induction l as [|x l IH]; intros t Hf Wt Wl; simpl.
  - split; [done|]. intros v. rewrite Exists_nil. tauto.
  - apply Forall_cons in Wl as [Wx Wl].
    assert (S : wf (f t x) /\ forall v, has_type (f t x) v <-> has_type t v \/ has_type (g x) v).
    { destruct (Hf t x) as [-> | ->]; [by apply Or_ok|].
      destruct (Or_ok (g x) t Wx Wt) as [W H]. split; [done|]. intros v. rewrite H. tauto. }
    destruct S as [W H]. destruct (IH (f t x) Hf W Wl) as [W' H']. split; [done|].
    intros v. rewrite H', H, Exists_cons. tauto.
Qed.

(** ** Enumeration and selection *)
Lemma array_wf s d : wf (TArray s d) <-> Forall wf s /\ wf d.
Proof. simpl. by rewrite Forall_map. Qed.
Lemma object_wf s d : wf (TObject s d) <->
  ssorted util_Compare fst s /\ Forall (fun p => native_scalar p.1 = true) s /\ Forall (fun p => wf p.2) s /\
  match d with Some (k, x) => wf k /\ wf x | None => True end.
Proof. simpl. by rewrite Forall_map. Qed.

Lemma any_A l : ty_eqb (TAny l) A = true <-> l = [].
Proof. destruct l; simpl; [done|]. split; [done|]. intros [=]. Qed.

Lemma A_wf : wf A.
Proof. apply any_wf. split; [constructor|]. by intros t ?%not_elem_of_nil. Qed.

Lemma TypeOf_wf n : native_scalar n = true -> wf (TypeOf n).
Proof. by destruct n. Qed.
Lemma scalar_TypeOf k n : scalar_native k = Some n -> has_type (TypeOf n) k /\ native_scalar n = true.
Proof. destruct k; simpl; intros [= <-]; simpl; eauto. Qed.
Lemma key_is_TypeOf k n : key_is k n -> has_type (TypeOf n) k.
Proof.
  unfold key_is. destruct k; cbn [scalar_native]; try done; rewrite util_Compare_unfold; intros [E%Z.compare_eq _]%cmp_then_eq;
    destruct n; try discriminate E; simpl; eauto.
Qed.

(** A scalar has exactly one flat type. *)
Lemma scalar_flat t k n : scalar_native k = Some n -> flat t = true -> has_type t k -> t = TypeOf n.
Proof. destruct k; simpl; intros [= <-] F; destruct t; try discriminate F; simpl; naive_solver. Qed.

Lemma scalar_Contains t k n : wf t -> scalar_native k = Some n -> has_type t k -> Contains t (TypeOf n) = true.
Proof.
  intros W Hk H. destruct (flat t) eqn:F.
  - pose proof (scalar_flat t k n Hk F H) as ->. assert (Contains (TypeOf n) (TypeOf n) = ty_eqb (TypeOf n) (TypeOf n)) as ->.
    { by destruct (TypeOf n). }
    apply ty_eqb_true, (cmp_refl ty_Compare).
  - destruct t as [| | | | | | | |l|]; try discriminate F; try done. pose proof W as [S Fl]%any_wf. simpl.
    apply Any_Contains_iff; [done|by destruct k; simplify_eq/=|]. apply any_typed in H as [->|(t & Ht & H)]; [by left|].
    right. exists t. split; [done|]. rewrite (scalar_flat t k n Hk (proj1 (Fl t Ht)) H). apply (cmp_refl ty_Compare).
Qed.

(** The entries that iteration over a document enumerates. *)
Definition entries (v : value) : list (value * value) :=
  match v with
  | Array l => imap (fun i x => (Number (NInt (Z.of_nat i)), x)) l
  | Object kvs => kvs
  | SetV l => map (fun x => (x, x)) l
  | _ => []
  end.

Lemma arr_typed_elem s d vs x : arr_typed s d vs -> x ∈ vs -> Exists (fun P => P x) s \/ d x.
Proof.
  revert s. induction vs as [|v vs IH]; intros s H Hx; [by apply not_elem_of_nil in Hx|].
  destruct s as [|P s]; simpl in H.
  - right. rewrite Forall_forall in H. by apply H.
  - destruct H as [H1 H2]. apply elem_of_cons in Hx as [->|Hx]; [left; by left|].
    destruct (IH s H2 Hx); [left; by right|by right].
Qed.

Definition enumerates (t : ty) : Prop :=
  wf (Keys t) /\ wf (Values t) /\
  forall v kx, has_type t v -> kx ∈ entries v -> has_type (Keys t) kx.1 /\ has_type (Values t) kx.2.

Lemma array_enumerates s d : wf (TArray s d) -> enumerates (TArray s d).
Proof.
  intros [Ws Wd]%array_wf. unfold enumerates. cbn [Keys Values].
  destruct (fold_Or_ok Or id s TNil) as [W1 H1]; [by left|done|done|].
  destruct (Or_ok _ d W1 Wd) as [W2 H2]. split_ands; [done|done|].
  intros v [k x] Hv Hx. destruct v as [| | | | | |vs| | | | | |]; try done. simpl in Hx.
  apply elem_of_lookup_imap_1 in Hx as (i & y & E & Hy). injection E as -> ->. simpl. split; [by eexists|].
  apply H2. destruct (arr_typed_elem _ _ _ y Hv) as [E|E]; [by eapply list_elem_of_lookup_2| |by right].
  left. apply H1. right. exact (proj1 (Exists_fmap _ _ _) E).
Qed.

Lemma entry_typed_static s d kv : entry_typed (map (fun p => (p.1, has_type p.2)) s) d kv ->
  (exists p, p ∈ s /\ key_is kv.1 p.1 /\ has_type p.2 kv.2) \/
  (Forall (fun p => ~ key_is kv.1 p.1) s /\ match d with Some (K, V) => K kv.1 /\ V kv.2 | None => False end).
Proof.
  intros [H|[H1 H2]].
  - left. apply Exists_exists in H as (p & (q & -> & Hq)%list_elem_of_fmap & Hk & Hv). by exists q.
  - right. split; [|done]. rewrite Forall_map in H1. exact H1.
Qed.

Lemma object_enumerates s d : wf (TObject s d) -> enumerates (TObject s d).
Proof.
  intros (S & N & Ws & Wd)%object_wf. unfold enumerates. cbn [Keys Values].
  destruct (fold_Or_ok (fun tpe p => Or tpe (TypeOf p.1)) (fun p => TypeOf p.1) s TNil) as [Wk Hk]; [by left|done| |].
  { eapply Forall_impl; [exact N|]. intros p. apply TypeOf_wf. }
  destruct (fold_Or_ok (fun tpe p => Or tpe p.2) snd s TNil) as [Wv Hv]; [by left|done|done|].
  set (tk := fold_left _ s TNil) in *. set (tv := fold_left (fun tpe p => Or tpe p.2) s TNil) in *.
  assert (St : forall kx, (exists p, p ∈ s /\ key_is kx.1 p.1 /\ has_type p.2 kx.2) ->
    has_type tk kx.1 /\ has_type tv kx.2).
  { intros kx (p & Hp & Hkey & Hx). rewrite Hk, Hv. split; right; apply Exists_exists; exists p; (split; [done|]); [|done].
    by apply key_is_TypeOf. }
  destruct d as [[dk dv]|].
  - destruct Wd as [Wdk Wdv]. destruct (Or_ok tk dk Wk Wdk) as [W1 H1], (Or_ok tv dv Wv Wdv) as [W2 H2].
    split_ands; [done|done|]. intros v kx Hty Hkx. destruct v as [| | | | | | |kvs| | | | |]; try done. simpl in Hty, Hkx.
    destruct Hty as [_ He]. rewrite Forall_forall in He. rewrite H1, H2.
    destruct (entry_typed_static _ _ _ (He kx Hkx)) as [Hs|[_ [? ?]]]; [|auto]. destruct (St kx Hs); auto.
  - split_ands; [done|done|]. intros v kx Hty Hkx. destruct v as [| | | | | | |kvs| | | | |]; try done. simpl in Hty, Hkx.
    destruct Hty as [_ He]. rewrite Forall_forall in He.
    destruct (entry_typed_static _ _ _ (He kx Hkx)) as [Hs|[_ []]]. by apply St.
Qed.

Lemma Keys_Values_ok t : wf t -> enumerates t.
Proof.
  induction t as [| | | | |s d IHs IHd|s d IHs IHd|e IH|l IH|ar r vr] using ty_induction; intros W;
    try (by apply array_enumerates); try (by apply object_enumerates); unfold enumerates; try by simpl in *.
  - split_ands; [done..|]. intros v kx ->. by intros ?%not_elem_of_nil.
  - split_ands; [done..|]. intros v kx [? ->]. by intros ?%not_elem_of_nil.
  - split_ands; [done..|]. intros v kx [? ->]. by intros ?%not_elem_of_nil.
  - split_ands; [done..|]. intros v kx [? ->]. by intros ?%not_elem_of_nil.
  - split_ands; [apply W|apply W|]. intros v kx H. destruct v as [| | | | | | | |vs| | | |]; try done. simpl in *.
    intros (x & -> & Hx)%list_elem_of_fmap. rewrite Forall_forall in H. simpl. split; by apply H.
  - pose proof W as [S Fl]%any_wf. cbn [Keys Values]. destruct (ty_eqb (TAny l) A) eqn:E.
    { split_ands; [apply A_wf|apply A_wf|done]. }
    assert (Ne : l <> []) by (rewrite <- any_A, E; done).
    assert (IHl : Forall enumerates l).
    { rewrite Forall_forall in IH |- *. intros t Ht. apply IH; [done|]. by apply Fl. }
    destruct (fold_Or_ok (fun tpe k => Or k tpe) id (map Keys l) TNil) as [Wk Hk]; [by right|done| |].
    { rewrite Forall_map. eapply Forall_impl; [exact IHl|]. by intros ? (? & ?). }
    destruct (fold_Or_ok (fun tpe k => Or k tpe) id (map Values l) TNil) as [Wv Hv]; [by right|done| |].
    { rewrite Forall_map. eapply Forall_impl; [exact IHl|]. by intros ? (? & ? & ?). }
    split_ands; [done|done|]. intros v kx [->|(t & Ht & Hty)]%any_typed Hkx; [done|].
    rewrite Forall_forall in IHl. destruct (IHl t Ht) as (_ & _ & G). destruct (G v kx Hty Hkx) as [G1 G2].
    rewrite Hk, Hv. split; right; apply Exists_exists; eexists; (split; [by apply list_elem_of_fmap_2|done]).
Qed.

(** [Object.Select] is the lookup in the sorted properties. *)
Lemma Object_Select_eq s d n : ssorted util_Compare fst s ->
  Object_Select s d n =
    match sfind util_Compare fst n s with
    | Some p => p.2
    | None => match d with Some (dk, dv) => if Contains dk (TypeOf n) then dv else TNil | None => TNil end
    end.
Proof.
  intros S. unfold Object_Select. rewrite <- (search_sfind util_Compare fst s n S).
  change (search_slice (fun b x => util_Compare b.1 x) s n) with (search_slice (fun p n => util_Compare p.1 n) s n).
  destruct (s !! _) as [[k t]|]; [|done]. simpl. by destruct (util_Compare k n).
Qed.

(** Selecting by a scalar key gives a type of what the lookup finds. *)
Definition selects (t : ty) : Prop :=
  forall k n, scalar_native k = Some n ->
  wf (Select t n) /\ forall v x, has_type t v -> Term_Get v k = Some x -> has_type (Select t n) x.

Lemma arr_typed_lookup s d vs i x : arr_typed (map has_type s) (has_type d) vs -> vs !! i = Some x ->
  has_type (match s !! i with Some t => t | None => d end) x.
Proof.
  revert s i. induction vs as [|v vs IH]; intros [|t s] i H Hi; try done; simpl in H.
  - rewrite lookup_nil. rewrite Forall_lookup in H. by eapply H.
  - destruct H as [H1 H2]. destruct i as [|i]; simpl in *; [by simplify_eq|]. by apply IH.
Qed.

Lemma array_selects s d : wf (TArray s d) -> selects (TArray s d).
Proof.
  intros [Ws Wd]%array_wf k n Hk. destruct k; simpl in Hk; simplify_eq/=; try (split; [done|]; intros [] ? ?; by simpl).
  rename n0 into n. unfold Array_Select. destruct (num_int64 n) as [pos|] eqn:E.
  - split.
    + destruct (0 <=? pos)%Z; [|done]. destruct (s !! Z.to_nat pos) as [t|] eqn:Et; [|done].
      rewrite Forall_lookup in Ws. by eapply Ws.
    + intros v x Hv Hx. destruct v as [| | | | | |vs| | | | | |]; try done. simpl in Hx. rewrite E in Hx.
      destruct (_ || _) eqn:B; [done|]. apply orb_false_iff in B as [B _]. apply Z.ltb_ge in B.
      rewrite (proj2 (Z.leb_le 0 pos) B). by eapply arr_typed_lookup.
  - split; [done|]. intros v x Hv. destruct v; try done. simpl. by rewrite E.
Qed.

Lemma object_selects s d : wf (TObject s d) -> selects (TObject s d).
Proof.
  intros (S & N & Ws & Wd)%object_wf k n Hk. simpl. rewrite Object_Select_eq by done. split.
  - destruct (sfind util_Compare fst n s) as [p|] eqn:F.
    + apply sfind_Some_1 in F as [F _]. rewrite Forall_forall in Ws. by apply Ws.
    + destruct d as [[dk dv]|]; [|done]. destruct (Contains dk (TypeOf n)); [apply Wd|done].
  - intros v x Hv Hx. destruct v as [| | | | | | |kvs| | | | |]; try done. simpl in Hv, Hx. destruct Hv as [_ He].
    unfold obj_get in Hx. destruct (sfind Compare fst k kvs) as [[k' x']|] eqn:G; [|done]. injection Hx as <-.
    apply sfind_Some_1 in G as [G Ek]. simpl in Ek. apply Equal_true in Ek. rewrite Forall_forall in He.
    destruct (entry_typed_static _ _ _ (He _ G)) as [(p & Hp & Hkey & Hx)|[Hn Hd]]; simpl in *.
    + apply (key_is_Equal k k' p.1 Ek) in Hkey. unfold key_is in Hkey. rewrite Hk in Hkey.
      assert (sfind util_Compare fst n s = Some p) as ->; [|done].
      apply (sfind_Some util_Compare fst); [by apply (ssorted_distinct util_Compare fst)|done].
    + assert (F : sfind util_Compare fst n s = None).
      { apply (sfind_None util_Compare fst). eapply Forall_impl; [exact Hn|]. intros p Np E. apply Np.
        apply (key_is_Equal k k' p.1 Ek). unfold key_is. by rewrite Hk. }
      rewrite F. destruct d as [[dk dv]|]; [|done]. destruct Hd as [Hdk Hdv], Wd as [Wdk Wdv].
      rewrite (scalar_Contains dk k n Wdk Hk); [done|]. rewrite Equal_sym in Ek. by apply (has_type_Equal dk k').
Qed.

Lemma set_selects e : wf (TSet e) -> selects (TSet e).
Proof.
  intros [_ W] k n Hk. destruct (scalar_TypeOf k n Hk) as [Ht Hn]. pose proof (TypeOf_wf n Hn) as Wn. simpl. split.
  - destruct (ty_eqb e (TypeOf n)); [done|]. destruct e; try done. by destruct (Any_Contains l (TypeOf n)).
  - intros v x Hv Hx. destruct v as [| | | | | | | |l| | | |]; try done. simpl in Hx.
    destruct (set_mem k l) eqn:M; [|done]. injection Hx as <-. apply set_mem_true in M as (y & Hy & Ey).
    simpl in Hv. rewrite Forall_forall in Hv. assert (Hk' : has_type e k).
    { apply (has_type_Equal e y); [|by apply Hv]. rewrite Equal_sym. by apply Equal_true. }
    destruct (ty_eqb e (TypeOf n)) eqn:E; [done|].
    pose proof (scalar_Contains e k n W Hk Hk') as C. destruct (flat e) eqn:F.
    + pose proof (scalar_flat e k n Hk F Hk') as ->. unfold ty_eqb in E. by rewrite (cmp_refl ty_Compare) in E.
    + destruct e as [| | | | | | | |l'|]; try discriminate F; try done. simpl in C. by rewrite C.
Qed.

Lemma Select_ok t : wf t -> selects t.
Proof.
  induction t as [| | | | |s d IHs IHd|s d IHs IHd|e IH|l IH|ar r vr] using ty_induction; intros W;
    try (by apply array_selects); try (by apply object_selects); try (by apply set_selects); try by simpl in W.
  1-4: intros k n Hk; split; [exact I|]; intros v x Hv Hx; simpl in Hv; naive_solver.
  pose proof W as [S Fl]%any_wf. intros k n Hk. cbn [Select]. destruct (ty_eqb (TAny l) A) eqn:E; [split; [apply A_wf|done]|].
  assert (Ne : l <> []) by (rewrite <- any_A, E; done).
  assert (IHl : Forall selects l).
  { rewrite Forall_forall in IH |- *. intros t Ht. apply IH; [done|]. by apply Fl. }
  destruct (fold_Or_ok (fun tpe s => Or s tpe) id (map (fun t => Select t n) l) TNil) as [Wk Hs]; [by right|done| |].
  { rewrite Forall_map. eapply Forall_impl; [exact IHl|]. intros t Ht. by apply (Ht k n Hk). }
  split; [done|]. intros v x [->|(t & Ht & Hty)]%any_typed Hx; [done|].
  rewrite Forall_forall in IHl. apply Hs. right. apply Exists_exists. exists (Select t n).
  split; [apply list_elem_of_fmap; by exists t|]. by apply (IHl t Ht k n Hk) with v.
Qed.

(** C34: [Or] is the union of types: of two well-formed types it is well formed,
    and its documents are exactly the documents of the two. *)
Theorem types_Or_union (a b : ty) : wf a -> wf b ->
  wf (Or a b) /\ forall v, has_type (Or a b) v <-> has_type a v \/ has_type b v.
Proof. apply Or_ok. Qed.

Lemma types_Or_union_witness :
  has_type (Or (TSet TNumber) (TAny [TNumber; TString])) (SetV [Number (NInt 1)]) /\
  Or (TSet TNumber) (TAny [TNumber; TString]) = TAny [TNumber; TString; TSet TNumber].
Proof.
  split; [|by vm_compute]. apply types_Or_union.
  - by split.
  - apply any_wf. split.
    + unfold ssorted. apply SSorted_cons; [apply SSorted_cons; [apply SSorted_nil|done]|by apply Forall_singleton].
    + intros t Ht. rewrite !elem_of_cons, elem_of_nil in Ht. by destruct Ht as [-> |[-> |[]]].
  - left. simpl. apply Forall_singleton. by eexists.
Defined.

(** Enumerating a document of a well-formed type gives keys of type [Keys]
    and elements of type [Values]. *)
Theorem types_enumeration (t : ty) (v k x : value) : wf t -> has_type t v -> (k, x) ∈ entries v ->
  has_type (Keys t) k /\ has_type (Values t) x.
Proof. intros W H E. destruct (Keys_Values_ok t W) as (_ & _ & G). by apply (G v (k, x)). Qed.

Lemma types_enumeration_witness :
  has_type (Values (TArray [TNumber] TString)) (Str "x") /\ Values (TArray [TNumber] TString) = TAny [TNumber; TString].
Proof.
  split; [|by vm_compute].
  apply (types_enumeration (TArray [TNumber] TString) (Array [Number (NInt 7); Str "x"]) (Number (NInt 1))).
  - apply array_wf. split; [by apply Forall_singleton|done].
  - simpl. split; [by eexists|]. apply Forall_singleton. by eexists.
  - simpl. right. left.
Defined.
