(* ===== verification/Check.v ===== *)
(** Parts of the type checker that compute with types: the types of terms and
    references ([TypeEnv.Get], [selectConstant] and [selectRef] of
    [src/ast/env.go]) and the test whether two types can meet ([unifies] and its
    helpers in [src/ast/check.go]).

    What the environment holds for variables, references and comprehensions is
    given by arguments.  [unifies] recurses on both of its arguments in turn;
    its fuel bounds the sum of their sizes, and [None] stands for running out
    of it or for a failed type assertion. *)
From Stdlib Require Import ZArith Lia String.
From stdpp Require Import base list strings sorting.
From S2P Require Import Prelude SortedKeys Value Containers SetTable RefOps Native Types TypesSound.

Section Env.
Context (encode : native -> string).

Definition selectConstant (tpe : ty) (t : value) : ty :=
  match JSON encode t with Some x => Select tpe x | None => TNil end.

Fixpoint selectRef (tpe : ty) (ref : list value) : ty :=
  match ref with
  | [] => tpe
  | head :: tail =>
      if is_nil tpe then tpe
      else match head with
           | Var _ | Value.Ref _ | Array _ | Object _ | SetV _ => selectRef (Values tpe) tail
           | _ => selectRef (selectConstant tpe head) tail
           end
  end.

Context (var_type : string -> ty) (ref_type : list value -> ty) (comprehension_type : value -> ty).

(** The loop over the entries of an object; the dynamic property is that of the
    last key that is no static one. *)
Definition object_entry (acc : list (native * ty) * option (ty * ty)) (e : value * (ty * ty)) :
    list (native * ty) * option (ty * ty) :=
  let '(k, (typeK, typeV)) := e in
  match (if IsConstant k then JSON encode k else None) with
  | Some kjson => (acc.1 ++ [(kjson, typeV)], acc.2)
  | None => (acc.1, Some (typeK, typeV))
  end.

Fixpoint Get (x : value) : ty :=
  match x with
  | Null => TNull
  | Boolean _ => TBoolean
  | Number _ => TNumber
  | Str _ => TString
  | Array l => TArray (map Get l) (if (length l =? 0)%nat then A else TNil)
  | Object kvs =>
      let '(static, dynamic) := fold_left object_entry (map (fun kv => (kv.1, (Get kv.1, Get kv.2))) kvs) ([], None) in
      NewObject static
        (if (length static =? 0)%nat && match dynamic with None => true | Some _ => false end then Some (A, A) else dynamic)
  | SetV l =>
      let tpe := fold_left Or (map Get l) TNil in
      TSet (if is_nil tpe then A else tpe)
  | ArrayComprehension _ _ | ObjectComprehension _ _ _ | SetComprehension _ _ => comprehension_type x
  | Value.Ref r => ref_type r
  | Var x => var_type x
  | Call _ => TNil
  end.
End Env.

(** ** unifies *)
Fixpoint all_loop {B} (f : B -> option bool) (l : list B) : option bool :=
  match l with
  | [] => Some true
  | x :: l => match f x with Some true => all_loop f l | r => r end
  end.
Fixpoint any_loop {B} (f : B -> option bool) (l : list B) : option bool :=
  match l with
  | [] => Some false
  | x :: l => match f x with Some false => any_loop f l | r => r end
  end.

Section Unifies.
Context (unifies : ty -> ty -> option bool).

Definition unifiesAny (l : list ty) (b : ty) : option bool :=
  if is_function b then Some false
  else match any_loop (fun t => unifies t b) l with
       | Some false => Some (length l =? 0)%nat
       | r => r
       end.

Definition unifiesArraysStatic (sa : list ty) (da : ty) (sb : list ty) (db : ty) : option bool :=
  all_loop (fun i => unifies (Array_Select sa da (Z.of_nat i)) (Array_Select sb db (Z.of_nat i))) (seq 0 (length sa)).
Definition unifiesArrays (sa : list ty) (da : ty) (sb : list ty) (db : ty) : option bool :=
  match unifiesArraysStatic sa da sb db with
  | Some true =>
      match unifiesArraysStatic sb db sa da with
      | Some true => if is_nil da || is_nil db then Some true else unifies da db
      | r => r
      end
  | r => r
  end.

Definition DynamicValue (d : option (ty * ty)) : ty := match d with Some (_, v) => v | None => TNil end.
Definition unifiesObjectsStatic (sa : list (native * ty)) (da : option (ty * ty)) (sb : list (native * ty))
    (db : option (ty * ty)) : option bool :=
  all_loop (fun p => unifies (Object_Select sa da p.1) (Object_Select sb db p.1)) sa.
Definition unifiesObjects (sa : list (native * ty)) (da : option (ty * ty)) (sb : list (native * ty))
    (db : option (ty * ty)) : option bool :=
  match unifiesObjectsStatic sa da sb db with
  | Some true =>
      match unifiesObjectsStatic sb db sa da with
      | Some true =>
          if is_nil (DynamicValue da) || is_nil (DynamicValue db) then Some true
          else unifies (DynamicValue da) (DynamicValue db)
      | r => r
      end
  | r => r
  end.
End Unifies.

Definition Arity (x : ty) : Z :=
  match x with TNil => -1 | TFunction args _ _ => Z.of_nat (length args) | _ => 0 end.

Fixpoint unifies_fuel (fuel : nat) (a b : ty) : option bool :=
  match fuel with
  | O => None
  | S fuel =>
      let unifies := unifies_fuel fuel in
      if is_nil a || is_nil b then Some false
      else
        match (match a with TAny l => unifiesAny unifies l b | _ => Some false end) with
        | Some false =>
            match (match b with TAny l => unifiesAny unifies l a | _ => Some false end) with
            | Some false =>
                if is_any a || is_any b then Some false
                else
                  match a, b with
                  | TNull, TNull | TBoolean, TBoolean | TNumber, TNumber | TString, TString => Some true
                  | TArray sa da, TArray sb db => unifiesArrays unifies sa da sb db
                  | TObject sa da, TObject sb db => unifiesObjects unifies sa da sb db
                  | TSet _, TSet _ => unifies (Values a) (Values b)
                  | TFunction xa _ _, _ =>
                      if (Arity a =? Arity b)%Z then
                        match b with
                        | TFunction ya _ _ => all_loop (fun p => unifies p.1 p.2) (zip xa ya)
                        | _ => None
                        end
                      else Some false
                  | _, _ => Some false
                  end
            | r => r
            end
        | r => r
        end
  end.

Fixpoint ty_size (t : ty) : nat :=
  match t with
  | TNil | TNull | TBoolean | TNumber | TString => 1
  | TArray s d => S (sum_list (map ty_size s) + ty_size d)
  | TObject s d =>
      S (sum_list (map (fun p => ty_size p.2) s) + match d with Some (k, v) => ty_size k + ty_size v | None => 0 end)
  | TSet e => S (ty_size e)
  | TAny l => S (sum_list (map ty_size l))
  | TFunction a r v => S (sum_list (map ty_size a) + ty_size r + ty_size v)
  end.
Definition unifies (a b : ty) : option bool := unifies_fuel (S (ty_size a + ty_size b)) a b.

(** ** References *)

(** A path that a reference can stand for: scalars are fixed, variables,
    nested references and composite operands can be anything. *)
Definition path_of (r p : value) : Prop :=
  match r with
  | Var _ | Value.Ref _ | Array _ | Object _ | SetV _ => True
  | _ => IsScalar r = true /\ p = r
  end.

(** One step of [Find] is [Term.Get]. *)
Lemma Find_step v p path x : Find v (p :: path) = Some x -> exists y, Term_Get v p = Some y /\ Find y path = Some x.
Proof.
  destruct v; try done; simpl.
  - destruct (array_index p (length elems)) as [i|]; [|done]. destruct (elems !! i) as [y|]; [|done]. by exists y.
  - destruct (obj_get p kvs) as [y|]; [|done]. by exists y.
  - destruct (set_mem p keys); [|done]. by exists p.
Qed.

Lemma Values_Term_Get t v p y : wf t -> has_type t v -> Term_Get v p = Some y -> has_type (Values t) y.
Proof.
  intros W H G. destruct (Keys_Values_ok t W) as (_ & _ & E). destruct v; try done; simpl in G.
  - destruct (array_index p (length elems)) as [i|]; [|done].
    apply (E _ (Number (NInt (Z.of_nat i)), y) H). simpl. apply elem_of_lookup_imap. by exists i, y.
  - unfold obj_get in G. destruct (sfind Compare fst p kvs) as [[k z]|] eqn:F; [|done]. injection G as ->.
    apply sfind_Some_1 in F as [F _]. by apply (E _ (k, y) H).
  - destruct (set_mem p keys) eqn:M; [|done]. injection G as <-. apply set_mem_true in M as (z & Hz & Ez).
    apply (has_type_Equal _ z); [rewrite Equal_sym; by apply Equal_true|].
    apply (E _ (z, z) H). simpl. by apply (list_elem_of_fmap_2 (fun x => (x, x))).
Qed.

Lemma JSON_scalar encode v n : scalar_native v = Some n -> JSON encode v = Some n.
Proof. destruct v; simpl; by intros [= <-]. Qed.

Lemma selectRef_typed encode ref : forall t path v x, wf t -> has_type t v -> Forall2 path_of ref path ->
  Find v path = Some x -> has_type (selectRef encode t ref) x.
Proof.
  induction ref as [|r ref IH]; intros t path v x W H F E; inversion F as [|? p ? path' P F']; subst.
  - injection E as <-. done.
  - assert (Nt : is_nil t = false) by (by destruct t). simpl. rewrite Nt.
    apply Find_step in E as (y & G & E).
    assert (C : IsScalar r = true -> p = r -> has_type (selectRef encode (selectConstant encode t r) ref) x).
    { intros Sr ->. destruct (scalar_native r) as [n|] eqn:Er; [|by destruct r].
      unfold selectConstant. rewrite (JSON_scalar encode r n Er). destruct (Select_ok t W r n Er) as [Ws Hs].
      apply (IH _ path' y); try done. by apply (Hs v). }
    destruct (Keys_Values_ok t W) as (_ & Wv & _).
    destruct r; simpl in P; try (by destruct P; apply C); apply (IH _ path' y); try done; by eapply Values_Term_Get.
Qed.

(** C14: Types of references are sound.  If a document has a well-formed type and
    a reference, with anything in place of its variables and composite
    operands, leads to a value in the document, then that value has the type
    that [selectRef] computes. *)
Theorem selectRef_sound encode t ref path v x :
  wf t -> has_type t v -> Forall2 path_of ref path -> Find v path = Some x ->
  has_type (selectRef encode t ref) x.
Proof. apply selectRef_typed. Qed.

(** [{"a": [1, "x"], "b": true}] at [a[i]], of type any of number and string. *)
Definition ex_doc : value := Object [(Str "a", Array [Number (NInt 1); Str "x"]); (Str "b", Boolean true)].
Definition ex_ty : ty :=
  TObject [(NStr "a", TArray [TNumber; TString] TNil); (NStr "b", TBoolean)] (Some (TString, A)).
Lemma selectRef_sound_witness :
  has_type (selectRef (fun _ => "?") ex_ty [Str "a"; Var "i"]) (Str "x") /\
  selectRef (fun _ => "?") ex_ty [Str "a"; Var "i"] = TAny [TNumber; TString].
Proof.
  split; [|by vm_compute].
  apply (selectRef_sound (fun _ => "?") ex_ty _ [Str "a"; Number (NInt 1)] ex_doc).
  - apply object_wf. split_ands; [|by repeat constructor|by repeat constructor|done|apply A_wf].
    unfold ssorted. apply SSorted_cons; [apply SSorted_cons; [apply SSorted_nil|done]|by apply Forall_singleton].
  - split; simpl; rewrite !Forall_cons, Forall_nil; split_ands; try exact I.
    + by apply Exists_cons_hd.
    + by apply Exists_cons_tl, Exists_cons_hd.
    + left. apply Exists_cons_hd. simpl. split_ands; [done|by eexists..|done].
    + left. apply Exists_cons_tl, Exists_cons_hd. split; [done|by eexists].
  - repeat constructor.
  - by vm_compute.
Defined.

(** ** Terms *)

(** Terms of scalars and variables in arrays, sets, and objects whose keys are
    scalars (that do not become equal when numbers are rounded). *)
Fixpoint simple_term (t : value) : Prop :=
  match t with
  | Null | Boolean _ | Number _ | Str _ | Var _ => True
  | Array l | SetV l => Forall (fun P => P) (map simple_term l)
  | Object kvs =>
      ssorted Compare fst kvs /\
      (exists ns, Forall2 (fun kv n => scalar_native kv.1 = Some n) kvs ns /\ distinct util_Compare id ns) /\
      Forall (fun P => P) (map (fun kv => simple_term kv.2) kvs)
  | _ => False
  end.

(** The value of such a term under an assignment of its variables. *)
Fixpoint instance (sigma : string -> value) (t : value) : value :=
  match t with
  | Var x => sigma x
  | Array l => Array (map (instance sigma) l)
  | SetV l => SetV (fold_left (fun s x => set_insert x s) (map (instance sigma) l) [])
  | Object kvs => Object (map (fun kv => (kv.1, instance sigma kv.2)) kvs)
  | _ => t
  end.

Section GetSound.
Context (encode : native -> string).
Context (var_type : string -> ty) (ref_type : list value -> ty) (comprehension_type : value -> ty).
Abbreviation Get := (Get encode var_type ref_type comprehension_type).

Lemma object_entries kvs ns acc : Forall2 (fun kv n => scalar_native kv.1 = Some n) kvs ns ->
  fold_left (object_entry encode) (map (fun kv => (kv.1, (Get kv.1, Get kv.2))) kvs) acc =
    (acc.1 ++ zip ns (map (fun kv => Get kv.2) kvs), acc.2).
Proof.
  intros F. revert acc. induction F as [|[k v] n kvs ns Hk _ IH]; intros [st dy]; simpl; [by rewrite app_nil_r|].
  simpl in Hk. assert (IsConstant k = true) as -> by (by destruct k).
  rewrite (JSON_scalar encode k n Hk). rewrite IH. simpl. by rewrite <- app_assoc.
Qed.

Definition entry_types (kvs : list (value * value)) (ns : list native) : list (native * ty) :=
  zip ns (map (fun kv => Get kv.2) kvs).

Lemma Get_Object kvs ns : Forall2 (fun kv n => scalar_native kv.1 = Some n) kvs ns ->
  Get (Object kvs) = NewObject (entry_types kvs ns) (if (length kvs =? 0)%nat then Some (A, A) else None).
Proof.
  intros F. cbn [Check.Get]. rewrite (object_entries kvs ns ([], None) F). simpl.
  assert (L : length (zip ns (map (fun kv => Get kv.2) kvs)) = length kvs).
  { rewrite length_zip_with, length_map, (Forall2_length _ _ _ F). lia. }
  rewrite L, andb_true_r. by destruct (length kvs =? 0)%nat.
Qed.

Lemma entry_types_elem kvs ns p : Forall2 (fun kv n => scalar_native kv.1 = Some n) kvs ns -> p ∈ entry_types kvs ns ->
  exists kv, kv ∈ kvs /\ scalar_native kv.1 = Some p.1 /\ p.2 = Get kv.2.
Proof.
  unfold entry_types. induction 1 as [|kv n kvs ns Hk _ IH]; simpl; [by intros ?%not_elem_of_nil|].
  intros [->|Hp]%elem_of_cons; [exists kv; split; [left|done]|].
  destruct (IH Hp) as (kv' & ? & ?). exists kv'. split; [by right|done].
Qed.
Lemma elem_entry_types kvs ns kv : Forall2 (fun kv n => scalar_native kv.1 = Some n) kvs ns -> kv ∈ kvs ->
  exists n, scalar_native kv.1 = Some n /\ (n, Get kv.2) ∈ entry_types kvs ns.
Proof.
  unfold entry_types. induction 1 as [|kv' n kvs ns Hk _ IH]; simpl; [by intros ?%not_elem_of_nil|].
  intros [->|Hp]%elem_of_cons; [exists n; split; [done|left]|].
  destruct (IH Hp) as (n' & ? & ?). exists n'. split; [done|by right].
Qed.

Lemma entry_types_sorted kvs ns : Forall2 (fun kv n => scalar_native kv.1 = Some n) kvs ns ->
  distinct util_Compare id ns -> ssorted util_Compare fst (sort_by util_Compare fst (entry_types kvs ns)).
Proof.
  intros F D. apply (sort_by_ssorted util_Compare fst). unfold entry_types. revert D.
  induction F as [|kv n kvs ns Hk _ IH]; intros D; simpl; [constructor|]. inversion D as [|? ? D1 D2]; subst.
  constructor; [|by apply IH]. apply Forall_forall. intros [n' t] Ht. apply elem_of_zip_l in Ht.
  rewrite Forall_forall in D1. by apply D1.
Qed.

Context (sigma : string -> value).
Context (Hvar : forall x, wf (var_type x) /\ has_type (var_type x) (sigma x)).

Definition typed (t : value) : Prop := wf (Get t) /\ has_type (Get t) (instance sigma t).

Lemma scalar_instance k n : scalar_native k = Some n -> key_is k n.
Proof. intros E. unfold key_is. rewrite E. apply (cmp_refl util_Compare). Qed.

Lemma object_typed kvs : simple_term (Object kvs) -> Forall (fun kv => typed kv.2) kvs -> typed (Object kvs).
Proof.
  intros (_ & (ns & F & D) & _) T. rewrite Forall_forall in T. unfold typed. rewrite (Get_Object kvs ns F).
  pose proof (entry_types_sorted kvs ns F D) as S. unfold NewObject.
  assert (El : forall p, p ∈ sort_by util_Compare fst (entry_types kvs ns) -> exists kv, kv ∈ kvs /\ scalar_native kv.1 = Some p.1 /\ p.2 = Get kv.2).
  { intros p Hp. rewrite (elem_of_sort_by util_Compare fst) in Hp. exact (entry_types_elem kvs ns p F Hp). }
  set (static := sort_by util_Compare fst (entry_types kvs ns)) in *. split.
  - apply object_wf. split_ands; [done| | |].
    + apply Forall_forall. intros p (kv & Hkv & Hn & _)%El. apply (scalar_TypeOf kv.1 p.1 Hn).
    + apply Forall_forall. intros p (kv & Hkv & _ & ->)%El. by apply T.
    + destruct (length kvs =? 0)%nat; [split; apply A_wf|done].
  - simpl. split.
    + rewrite Forall_map. apply Forall_forall. intros p (kv & Hkv & Hn & _)%El. apply Exists_exists.
      exists (kv.1, instance sigma kv.2). split; [by apply (list_elem_of_fmap_2 (fun kv => (kv.1, instance sigma kv.2)))|].
      by apply scalar_instance.
    + rewrite Forall_map. apply Forall_forall. intros kv Hkv.
      destruct (elem_entry_types kvs ns kv F Hkv) as (n & Hn & Hp). left. apply Exists_exists.
      exists (n, has_type (Get kv.2)). split; [|split; [by apply scalar_instance|by apply T]].
      apply list_elem_of_fmap. exists (n, Get kv.2). split; [done|]. unfold static. by rewrite (elem_of_sort_by util_Compare fst).
Qed.

Lemma set_typed l : Forall typed l -> typed (SetV l).
Proof.
  intros T. unfold typed. cbn [Check.Get instance].
  destruct (fold_Or_ok Or id (map Get l) TNil) as [W H]; [by left|done| |].
  { rewrite Forall_map. eapply Forall_impl; [exact T|]. by intros t []. }
  set (tpe := fold_left Or (map Get l) TNil) in *.
  assert (G : Forall (has_type tpe) (map (instance sigma) l)).
  { rewrite Forall_map. apply Forall_forall. intros t Ht. apply H. right. apply Exists_exists. exists (Get t).
    split; [by apply (list_elem_of_fmap_2 Get)|]. rewrite Forall_forall in T. by apply T. }
  split; [destruct (is_nil tpe) eqn:Nt; (split; [done|]); [apply A_wf|done]|]. cbn [has_type]. apply Forall_forall. intros y Hy.
  destruct (set_elems _ _ _ Hy) as [?%not_elem_of_nil|Hy']; [done|]. rewrite Forall_forall in G.
  specialize (G y Hy'). destruct (is_nil tpe) eqn:N; [by destruct tpe|done].
Qed.

Lemma arr_typed_map (d : value -> Prop) l : Forall typed l ->
  arr_typed (map has_type (map Get l)) d (map (instance sigma) l).
Proof. induction 1 as [|x l [_ H] _ IH]; simpl; [constructor|done]. Qed.

Lemma Get_typed t : simple_term t -> typed t.
Proof.
  induction t as [t IH] using value_composite_ind. intros S. destruct t; try done.
  - split; [done|by eexists].
  - split; [done|by eexists].
  - split; [done|by eexists].
  - apply Hvar.
  - simpl in S. rewrite Forall_map in S. split.
    + apply array_wf. split; [|destruct elems; [apply A_wf|exact I]].
      rewrite Forall_map. rewrite Forall_forall in IH, S |- *. intros x Hx. by apply IH, S.
    + cbn [Check.Get has_type instance]. apply arr_typed_map. rewrite Forall_forall in IH, S |- *.
      intros x Hx. by apply IH, S.
  - apply object_typed; [done|]. destruct S as (_ & _ & S). rewrite Forall_map in S.
    rewrite Forall_forall in IH, S |- *. intros kv Hkv. apply IH; [done|by apply S].
  - apply set_typed. simpl in S. rewrite Forall_map in S. rewrite Forall_forall in IH, S |- *. intros x Hx. by apply IH, S.
Qed.
End GetSound.

(** C15: Types of terms are sound.  When every variable has a document of its
    type, the type that [Get] computes for a term of scalars, variables,
    arrays, sets and objects with scalar keys is well formed and is a type of
    the value of the term. *)
Theorem Get_sound encode var_type ref_type comprehension_type sigma t :
  (forall x, wf (var_type x) /\ has_type (var_type x) (sigma x)) -> simple_term t ->
  wf (Get encode var_type ref_type comprehension_type t) /\
  has_type (Get encode var_type ref_type comprehension_type t) (instance sigma t).
Proof. intros Hvar S. by apply Get_typed. Qed.

(** [{"a": x, "b": [1, x]}] with a string for [x]. *)
Definition ex_term : value := Object [(Str "a", Var "x"); (Str "b", Array [Number (NInt 1); Var "x"])].
Lemma Get_sound_witness :
  has_type (Get (fun _ => "?") (fun _ => TString) (fun _ => A) (fun _ => A) ex_term)
    (Object [(Str "a", Str "s"); (Str "b", Array [Number (NInt 1); Str "s"])]).
Proof.
  apply (Get_sound (fun _ => "?") (fun _ => TString) (fun _ => A) (fun _ => A) (fun _ => Str "s") ex_term).
  - intros x. split; [exact I|by eexists].
  - simpl. split_ands.
    + unfold ssorted. apply SSorted_cons; [apply SSorted_cons; [apply SSorted_nil|done]|by apply Forall_singleton].
    + exists [NStr "a"; NStr "b"]. split; [by repeat constructor|]. unfold distinct. repeat constructor; discriminate.
    + repeat apply Forall_cons_2; try exact I; apply Forall_nil_2.
Defined.

(** ** unifies returns *)
Lemma sum_list_elem {B} (f : B -> nat) l x : x ∈ l -> (f x <= sum_list (map f l))%nat.
Proof. induction l as [|y l IH]; intros H; [by apply not_elem_of_nil in H|]. apply elem_of_cons in H as [->|H]; simpl; [lia|]. specialize (IH H). lia. Qed.

Lemma ty_size_pos t : (1 <= ty_size t)%nat.
Proof. destruct t; simpl; lia. Qed.

Lemma Array_Select_size s d i : (ty_size (Array_Select s d i) < ty_size (TArray s d))%nat.
Proof.
  unfold Array_Select. pose proof (ty_size_pos d). simpl. destruct (0 <=? i)%Z; simpl; [|lia].
  destruct (s !! Z.to_nat i) as [t|] eqn:E; [|lia]. apply list_elem_of_lookup_2 in E.
  pose proof (sum_list_elem ty_size s t E). lia.
Qed.
Lemma Array_Select_wf s d i : wf (TArray s d) -> wf (Array_Select s d i).
Proof.
  intros [Ws Wd]%array_wf. unfold Array_Select. destruct (0 <=? i)%Z; [|done].
  destruct (s !! Z.to_nat i) as [t|] eqn:E; [|done]. rewrite Forall_lookup in Ws. by eapply Ws.
Qed.

Lemma Object_Select_size s d n : ssorted util_Compare fst s -> (ty_size (Object_Select s d n) <= ty_size (TObject s d))%nat.
Proof.
  intros S. rewrite Object_Select_eq by done. simpl. destruct (sfind util_Compare fst n s) as [p|] eqn:F.
  - apply sfind_Some_1 in F as [F _]. pose proof (sum_list_elem (fun p => ty_size p.2) s p F). simpl in *. lia.
  - destruct d as [[dk dv]|]; simpl; [|lia]. pose proof (ty_size_pos dk). destruct (Contains _ _); simpl; lia.
Qed.
Lemma Object_Select_static s d p : ssorted util_Compare fst s -> p ∈ s -> Object_Select s d p.1 = p.2.
Proof.
  intros S Hp. rewrite Object_Select_eq by done.
  assert (sfind util_Compare fst p.1 s = Some p) as ->; [|done].
  apply (sfind_Some util_Compare fst); [by apply (ssorted_distinct util_Compare fst)|].
  split; [done|apply (cmp_refl util_Compare)].
Qed.
Lemma Object_Select_wf s d n : wf (TObject s d) -> wf (Object_Select s d n).
Proof.
  intros (S & _ & Ws & Wd)%object_wf. rewrite Object_Select_eq by done.
  destruct (sfind util_Compare fst n s) as [p|] eqn:F.
  - apply sfind_Some_1 in F as [F _]. rewrite Forall_forall in Ws. by apply Ws.
  - destruct d as [[dk dv]|]; [|done]. destruct (Contains _ _); [apply Wd|done].
Qed.

Lemma all_loop_total {B} (f : B -> option bool) l : (forall x, x ∈ l -> is_Some (f x)) -> is_Some (all_loop f l).
Proof.
  induction l as [|x l IH]; intros H; simpl; [by eexists|]. destruct (H x ltac:(left)) as [[|] ->]; [|by eexists].
  apply IH. intros y Hy. apply H. by right.
Qed.
Lemma any_loop_total {B} (f : B -> option bool) l : (forall x, x ∈ l -> is_Some (f x)) -> is_Some (any_loop f l).
Proof.
  induction l as [|x l IH]; intros H; simpl; [by eexists|]. destruct (H x ltac:(left)) as [[|] ->]; [by eexists|].
  apply IH. intros y Hy. apply H. by right.
Qed.
Lemma all_loop_true {B} (f : B -> option bool) l : (forall x, x ∈ l -> f x = Some true) -> all_loop f l = Some true.
Proof.
  induction l as [|x l IH]; intros H; simpl; [done|]. rewrite (H x) by left. apply IH. intros y Hy. apply H. by right.
Qed.
Lemma any_loop_true {B} (f : B -> option bool) l x :
  (forall x, x ∈ l -> is_Some (f x)) -> x ∈ l -> f x = Some true -> any_loop f l = Some true.
Proof.
  intros H Hx E. induction l as [|y l IH]; [by apply not_elem_of_nil in Hx|]. simpl.
  destruct (H y ltac:(left)) as [[|] Ey]; rewrite Ey; [done|]. apply elem_of_cons in Hx as [->|Hx]; [congruence|].
  apply IH; [|done]. intros z Hz. apply H. by right.
Qed.

Lemma unifiesAny_total u l b : (forall t, t ∈ l -> is_Some (u t b)) -> is_Some (unifiesAny u l b).
Proof.
  intros H. unfold unifiesAny. destruct (is_function b); [by eexists|].
  destruct (any_loop_total (fun t => u t b) l H) as [[|] ->]; by eexists.
Qed.

Lemma wf_function a : wf a -> is_function a = false.
Proof. by destruct a. Qed.

Lemma unifies_total n : forall a b, wf a -> wf b -> (ty_size a + ty_size b < n)%nat -> is_Some (unifies_fuel n a b).
Proof.
  induction n as [|n IH]; intros a b Wa Wb Hn; [lia|]. cbn [unifies_fuel]. cbv zeta.
  destruct (is_nil a || is_nil b); [by eexists|].
  assert (Any : forall l x, wf (TAny l) -> wf x -> (ty_size (TAny l) + ty_size x < S n)%nat ->
    is_Some (unifiesAny (unifies_fuel n) l x)).
  { intros l x [_ Fl]%any_wf Wx Hs. apply unifiesAny_total. intros t Ht. apply IH; [by apply Fl|done|].
    pose proof (sum_list_elem ty_size l t Ht). simpl in Hs. lia. }
  assert (R1 : is_Some (match a with TAny l => unifiesAny (unifies_fuel n) l b | _ => Some false end)).
  { destruct a; try by eexists. by apply Any. }
  assert (R2 : is_Some (match b with TAny l => unifiesAny (unifies_fuel n) l a | _ => Some false end)).
  { destruct b; try by eexists. apply Any; [done|done|lia]. }
  destruct R1 as [[|] ->]; [by eexists|]. destruct R2 as [[|] ->]; [by eexists|].
  destruct (is_any a || is_any b); [by eexists|]. clear Any. destruct a as [| | | | |sa da|sa da|ea|la|? ? ?], b as [| | | | |sb db|sb db|eb|lb|? ? ?];
    try (destruct Wa; fail); try (destruct Wb; fail); try (by eexists).
  - assert (St : forall s d s' d', wf (TArray s d) -> wf (TArray s' d') ->
      (ty_size (TArray s d) + ty_size (TArray s' d') < S n)%nat -> is_Some (unifiesArraysStatic (unifies_fuel n) s d s' d')).
    { intros s d s' d' W W' Hs. apply all_loop_total. intros i _. pose proof (Array_Select_size s d (Z.of_nat i)).
      pose proof (Array_Select_size s' d' (Z.of_nat i)). apply IH; [by apply Array_Select_wf|by apply Array_Select_wf|lia]. }
    unfold unifiesArrays. destruct (St sa da sb db Wa Wb Hn) as [[|] ->]; [|by eexists].
    destruct (St sb db sa da Wb Wa ltac:(lia)) as [[|] ->]; [|by eexists].
    destruct (_ || _); [by eexists|]. apply array_wf in Wa as [_ Wa], Wb as [_ Wb]. apply IH; [done|done|simpl in Hn; lia].
  - assert (St : forall s d s' d', wf (TObject s d) -> wf (TObject s' d') ->
      (ty_size (TObject s d) + ty_size (TObject s' d') < S n)%nat -> is_Some (unifiesObjectsStatic (unifies_fuel n) s d s' d')).
    { intros s d s' d' W W' Hs. apply all_loop_total. intros p Hp. pose proof W as (S1 & _)%object_wf.
      pose proof W' as (S2 & _)%object_wf. pose proof (Object_Select_size s' d' p.1 S2).
      apply IH; [by apply Object_Select_wf|by apply Object_Select_wf|]. rewrite (Object_Select_static s d p S1 Hp).
      pose proof (sum_list_elem (fun p => ty_size p.2) s p Hp). simpl in *. lia. }
    unfold unifiesObjects. destruct (St sa da sb db Wa Wb Hn) as [[|] ->]; [|by eexists].
    destruct (St sb db sa da Wb Wa ltac:(lia)) as [[|] ->]; [|by eexists].
    destruct (is_nil (DynamicValue da) || is_nil (DynamicValue db)) eqn:E; [by eexists|].
    destruct da as [[ka va]|], db as [[kb vb]|]; try discriminate E.
    apply object_wf in Wa as (_ & _ & _ & _ & Wa), Wb as (_ & _ & _ & _ & Wb).
    pose proof (ty_size_pos ka). pose proof (ty_size_pos kb). apply IH; [done|done|simpl in *; lia].
    by rewrite orb_true_r in E.
  - apply IH; [apply Wa|apply Wb|simpl in *; lia].
Qed.

(** ** Literals are never rejected *)
Definition alts (t : ty) : list ty := match t with TAny l => l | TNil => [] | _ => [t] end.

(** [a] is the type that inference gives to the literal [v], up to the order
    on types. *)
Fixpoint exact (v : value) (a : ty) : Prop :=
  match v with
  | Null => a = TNull
  | Boolean _ => a = TBoolean
  | Number _ => a = TNumber
  | Str _ => a = TString
  | Array l =>
      match a with
      | TArray s d => Forall2 (fun (P : ty -> Prop) t => P t) (map exact l) s /\ (d = TNil \/ (l = [] /\ d = A))
      | _ => False
      end
  | Object kvs =>
      match a with
      | TObject s d =>
          Forall (fun p => Exists (fun e => key_is e.1 p.1 /\ e.2 p.2) (map (fun kv => (kv.1, exact kv.2)) kvs)) s /\
          Forall (fun e => Exists (fun p => key_is e.1 p.1 /\ e.2 p.2) s) (map (fun kv => (kv.1, exact kv.2)) kvs) /\
          (d = None \/ d = Some (A, A))
      | _ => False
      end
  | SetV l =>
      match a with
      | TSet e => e = A \/ Exists (fun P => Exists P (alts e)) (map exact l)
      | _ => False
      end
  | _ => False
  end.

Lemma exact_object kvs s d : exact (Object kvs) (TObject s d) <->
  (forall p, p ∈ s -> exists kv, kv ∈ kvs /\ key_is kv.1 p.1 /\ exact kv.2 p.2) /\
  (forall kv, kv ∈ kvs -> exists p, p ∈ s /\ key_is kv.1 p.1 /\ exact kv.2 p.2) /\
  (d = None \/ d = Some (A, A)).
Proof.
  simpl. rewrite Forall_map, !Forall_forall. setoid_rewrite Exists_exists.
  setoid_rewrite list_elem_of_fmap. naive_solver.
Qed.

Lemma Compare_A d : ty_Compare A d = Eq -> d = A.
Proof. destruct d; simpl; try discriminate. destruct l; [done|discriminate]. Qed.
Lemma Compare_nil d : ty_Compare TNil d = Eq -> d = TNil.
Proof. destruct d; simpl; try discriminate. done. Qed.

Lemma slice_Forall2 {B} (cmp : B -> B -> comparison) l l' :
  slice_compare cmp l l' = Eq -> Forall2 (fun x y => cmp x y = Eq) l l'.
Proof. apply slice_compare_eq_iff. Qed.

Lemma Forall2_elem_l {B C} (R : B -> C -> Prop) l l' x : Forall2 R l l' -> x ∈ l -> exists y, y ∈ l' /\ R x y.
Proof.
  intros F (i & Hi)%list_elem_of_lookup. destruct (Forall2_lookup_l _ _ _ _ _ F Hi) as (y & Hy & H).
  exists y. split; [by eapply list_elem_of_lookup_2|done].
Qed.
Lemma Forall2_elem_r {B C} (R : B -> C -> Prop) l l' y : Forall2 R l l' -> y ∈ l' -> exists x, x ∈ l /\ R x y.
Proof.
  intros F (i & Hi)%list_elem_of_lookup. destruct (Forall2_lookup_r _ _ _ _ _ F Hi) as (x & Hx & H).
  exists x. split; [by eapply list_elem_of_lookup_2|done].
Qed.

Lemma alts_Compare a a' t : ty_Compare a a' = Eq -> t ∈ alts a -> exists t', t' ∈ alts a' /\ ty_Compare t t' = Eq.
Proof.
  intros E Ht. pose proof E as E'. rewrite ty_Compare_unfold in E. apply cmp_then_eq in E as [O%Z.compare_eq E].
  destruct a, a'; try discriminate O; simpl in *; try (by apply not_elem_of_nil in Ht);
    try (apply list_elem_of_singleton in Ht as ->; eexists; split; [by apply list_elem_of_singleton|done]).
  exact (Forall2_elem_l _ _ _ _ (slice_Forall2 _ _ _ E) Ht).
Qed.

Lemma exact_Compare v : forall a a', exact v a -> ty_Compare a a' = Eq -> exact v a'.
Proof.
  induction v as [v IH] using value_composite_ind. intros a a' H E.
  pose proof E as E'. rewrite ty_Compare_unfold in E'. apply cmp_then_eq in E' as [O%Z.compare_eq E'].
  destruct v as [| | | | | |l|kvs|l| | | |]; simpl in H; try done; try (subst a; destruct a'; try discriminate O; done).
  - destruct a as [| | | | |s d| | | |]; try done. destruct a' as [| | | | |s' d'| | | |]; try discriminate O.
    simpl in E'. apply cmp_then_eq in E' as [Ed Es]. destruct H as [F D]. simpl. split.
    + apply slice_Forall2 in Es. clear -IH F Es. revert s s' F Es.
      induction IH as [|x l Hx _ IH']; intros s s' F Es; inversion F; subst; inversion Es; subst; simpl; constructor; eauto.
    + destruct D as [-> |[-> ->]]; [left; by apply Compare_nil|right; split; [done|by apply Compare_A]].
  - destruct a as [| | | | | |s d| | |]; try done. destruct a' as [| | | | | |s' d'| | |]; try discriminate O.
    simpl in E'. apply cmp_then_eq in E' as [Ed Es]. apply slice_Forall2 in Es.
    apply exact_object in H as (H1 & H2 & D). rewrite Forall_forall in IH. apply exact_object. split_ands.
    + intros p' Hp'. destruct (Forall2_elem_r _ _ _ _ Es Hp') as (p & Hp & [En Et]%cmp_then_eq).
      destruct (H1 p Hp) as (kv & Hkv & Hk & Hx). exists kv. split_ands; [done|by apply (key_is_native _ _ _ En)|].
      by eapply IH.
    + intros kv Hkv. destruct (H2 kv Hkv) as (p & Hp & Hk & Hx).
      destruct (Forall2_elem_l _ _ _ _ Es Hp) as (p' & Hp' & [En Et]%cmp_then_eq).
      exists p'. split_ands; [done|by apply (key_is_native _ _ _ En)|]. by eapply IH.
    + destruct D as [-> | ->], d' as [[k' x']|]; simpl in Ed; try discriminate Ed; [by left|].
      apply cmp_then_eq in Ed as [Ek Ex]. right. apply Compare_A in Ek, Ex. simpl in *. by subst.
  - destruct a as [| | | | | | |e| |]; try done. destruct a' as [| | | | | | |e'| |]; try discriminate O. simpl in E'.
    destruct H as [-> |H]; [left; by apply Compare_A|]. right.
    apply Exists_exists in H as (P & (x & -> & Hx)%list_elem_of_fmap & H). apply Exists_exists in H as (t & Ht & H).
    destruct (alts_Compare _ _ _ E' Ht) as (t' & Ht' & Et). apply Exists_exists. exists (exact x).
    split; [by apply list_elem_of_fmap_2|]. apply Exists_exists. exists t'. split; [done|].
    rewrite Forall_forall in IH. by eapply IH.
Qed.

(** Alternatives survive a union, up to the order on types. *)
Lemma Or_alts a b : wf a -> wf b -> a <> A -> b <> A ->
  Or a b <> A /\ forall t, t ∈ alts a \/ t ∈ alts b -> exists t', t' ∈ alts (Or a b) /\ ty_Compare t' t = Eq.
Proof.
  intros Wa Wb Na Nb. pose proof (wf_function a Wa) as Fa. pose proof (wf_function b Wb) as Fb.
  assert (Re : forall (l : list ty) (t : ty), t ∈ l -> exists t', t' ∈ l /\ ty_Compare t' t = Eq).
  { intros l t Ht. exists t. split; [done|apply (cmp_refl ty_Compare)]. }
  destruct (is_nil a) eqn:Za.
  { destruct a; try discriminate Za. simpl. split; [done|]. intros t [?%not_elem_of_nil|Ht]; [done|by apply Re]. }
  destruct (is_nil b) eqn:Zb.
  { destruct b; try discriminate Zb. assert (Or a TNil = a) as -> by (by destruct a). split; [done|].
    intros t [Ht|?%not_elem_of_nil]; [by apply Re|done]. }
  assert (M : forall l x, wf (TAny l) -> wf x -> l <> [] -> x <> A -> is_nil x = false ->
    Any_Merge l x <> [] /\ forall t, t ∈ l \/ t ∈ alts x -> exists t', t' ∈ Any_Merge l x /\ ty_Compare t' t = Eq).
  { clear -Re. intros l x Wl Wx Nl Nx Zx. pose proof Wl as [Sl _]%any_wf. destruct (is_any x) eqn:Kx.
    - destruct x as [| | | | | | | |o|]; try discriminate Kx. pose proof Wx as [So _]%any_wf.
      assert (No : o <> []) by (by intros ->). destruct l as [|y l]; [done|]. destruct o as [|z o]; [done|].
      cbn [Any_Merge Any_Union alts]. destruct (union_merge_ok (y :: l) (z :: o) Sl So) as (_ & _ & H2 & H3). split.
      + intros E. specialize (H2 y ltac:(left)). rewrite E in H2. by apply not_elem_of_nil in H2.
      + intros t [Ht|Ht]; [by apply Re, H2|by apply H3].
    - assert (Any_Merge l x = if Any_Contains l x then l
        else take (search_slice ty_Compare l x) l ++ x :: drop (search_slice ty_Compare l x) l) as -> by (by destruct x).
      assert (alts x = [x]) as -> by (by destruct x).
      destruct (Any_Contains l x) eqn:C.
      + split; [done|]. intros t [Ht| ->%list_elem_of_singleton]; [by apply Re|].
        apply Any_Contains_iff in C as [?|C]; [done|done|done|by apply wf_function].
      + split; [by destruct (take _ l)|]. intros t Ht. apply Re. destruct Ht as [Ht| ->%list_elem_of_singleton].
        * rewrite <- (take_drop (search_slice ty_Compare l x) l) in Ht.
          rewrite elem_of_app, elem_of_cons. apply elem_of_app in Ht. tauto.
        * apply elem_of_app. right. left. }
  destruct (is_any a) eqn:Ka.
  { destruct a as [| | | | | | | |l|]; try discriminate Ka.
    assert (Or (TAny l) b = TAny (Any_Merge l b)) as -> by (by destruct b).
    destruct (M l b Wa Wb) as [M1 M2]; [by intros ->|done|done|]. split; [by intros [=]|exact M2]. }
  destruct (is_any b) eqn:Kb.
  { destruct b as [| | | | | | | |l|]; try discriminate Kb.
    assert (Or a (TAny l) = TAny (Any_Merge l a)) as -> by (by destruct a).
    destruct (M l a Wb Wa) as [M1 M2]; [by intros ->|done|done|]. split; [by intros [=]|].
    intros t Ht. apply M2. tauto. }
  assert (Or a b = if ty_eqb a b then a else NewAny [a; b]) as -> by (by destruct a, b).
  assert (alts a = [a]) as Aa by (by destruct a). assert (alts b = [b]) as Ab by (by destruct b). rewrite Ab.
  destruct (ty_eqb a b) eqn:E.
  - split; [done|]. rewrite Aa. intros t [Ht| ->%list_elem_of_singleton]; [by apply Re|].
    exists a. split; [by apply list_elem_of_singleton|by apply ty_eqb_true].
  - rewrite Aa. unfold NewAny. cbn [alts].
    assert (El : forall x, x ∈ sort_by ty_Compare id [a; b] <-> x = a \/ x = b).
    { intros x. rewrite (elem_of_sort_by ty_Compare id), !elem_of_cons, elem_of_nil. tauto. }
    split; [|intros t [Ht|Ht]; apply list_elem_of_singleton in Ht as ->; apply Re, El; auto].
    intros E'. assert (a ∈ alts (TAny (sort_by ty_Compare id [a; b]))) as Q by (apply El; by left).
    rewrite E' in Q. by apply not_elem_of_nil in Q.
Qed.

(** A fold of unions over types that are not [A]. *)
Lemma fold_Or_alts l : forall t0, wf t0 -> t0 <> A -> Forall (fun t => wf t /\ t <> A) l ->
  fold_left Or l t0 <> A /\
  forall t, t ∈ alts t0 \/ (exists u, u ∈ l /\ t ∈ alts u) -> exists t', t' ∈ alts (fold_left Or l t0) /\ ty_Compare t' t = Eq.
Proof.
  induction l as [|u l IH]; intros t0 W0 N0 F; simpl.
  - split; [done|]. intros t [Ht|(u & Hu & _)]; [|by apply not_elem_of_nil in Hu].
    exists t. split; [done|apply (cmp_refl ty_Compare)].
  - apply Forall_cons in F as [[Wu Nu] F]. destruct (Or_alts t0 u W0 Wu N0 Nu) as [N1 H1].
    destruct (IH (Or t0 u) (proj1 (Or_ok t0 u W0 Wu)) N1 F) as [N2 H2]. split; [done|].
    intros t Ht.
    assert (G : (t ∈ alts t0 \/ t ∈ alts u) \/ exists u', u' ∈ l /\ t ∈ alts u').
    { destruct Ht as [?|(u' & [->|Hu]%elem_of_cons & ?)]; [by left; left|by left; right|right; eauto]. }
    destruct G as [(t1 & Ht1 & E1)%H1|G]; [|apply H2; by right].
    destruct (H2 t1 (or_introl Ht1)) as (t2 & Ht2 & E2). exists t2. split; [done|].
    by apply (cmp_eq_trans ty_Compare t2 t1).
Qed.

Section Literal.
Context (encode : native -> string).
Context (var_type : string -> ty) (ref_type : list value -> ty) (comprehension_type : value -> ty).
Abbreviation Get := (Get encode var_type ref_type comprehension_type).

(** Constant terms whose object keys are scalars. *)
Definition literal (v : value) : Prop := simple_term v /\ IsConstant v = true.

Lemma literal_array l : literal (Array l) -> Forall literal l.
Proof.
  intros [S C]. simpl in S, C. rewrite Forall_map in S.
  rewrite Forall_forall in S |- *. intros x Hx. split; [by apply S|].
  rewrite forallb_forall in C. by apply C, list_elem_of_In.
Qed.
Lemma literal_set l : literal (SetV l) -> Forall literal l.
Proof. intros [S C]. by apply literal_array. Qed.
Lemma literal_object kvs : literal (Object kvs) -> Forall (fun kv => literal kv.2) kvs.
Proof.
  intros [(_ & _ & S) C]. simpl in C. rewrite Forall_map in S. rewrite Forall_forall in S |- *. intros kv Hkv.
  split; [by apply S|]. rewrite forallb_forall in C. specialize (C kv (proj1 (list_elem_of_In _ _) Hkv)).
  by apply andb_true_iff in C as [_ C].
Qed.

Lemma Get_literal v : literal v -> Get v = Check.Get encode (fun _ => TNull) ref_type comprehension_type v.
Proof.
  induction v as [v IH] using value_composite_ind. intros L. destruct v as [| | | |x| |l|kvs|l| | | |]; try done.
  - by destruct L.
  - apply literal_array in L. cbn [Check.Get]. f_equal. apply map_ext_in. intros x Hx%list_elem_of_In.
    rewrite Forall_forall in IH, L. auto.
  - pose proof (literal_object kvs L) as L'. destruct L as [(_ & (ns & F & _) & _) _].
    rewrite (Get_Object encode var_type ref_type comprehension_type kvs ns F).
    rewrite (Get_Object encode (fun _ => TNull) ref_type comprehension_type kvs ns F). f_equal.
    unfold entry_types. f_equal. apply map_ext_in. intros kv Hkv%list_elem_of_In.
    rewrite Forall_forall in IH, L'. apply IH; auto.
  - apply literal_set in L. cbn [Check.Get].
    assert (map Get l = map (Check.Get encode (fun _ => TNull) ref_type comprehension_type) l) as ->; [|done].
    apply map_ext_in. intros x Hx%list_elem_of_In. rewrite Forall_forall in IH, L. auto.
Qed.

Lemma literal_wf v : literal v -> wf (Get v).
Proof.
  intros L. rewrite Get_literal by done. destruct L as [S _].
  apply (Get_typed encode (fun _ => TNull) ref_type comprehension_type (fun _ => Null)); [|done].
  intros x. by split.
Qed.

Lemma literal_flat v : literal v -> flat (Get v) = true.
Proof.
  intros L. destruct v; try by destruct L. destruct L as [(_ & (ns & F & _) & _) _].
  by rewrite (Get_Object encode var_type ref_type comprehension_type kvs ns F).
Qed.

Lemma literal_exact v : literal v -> exact v (Get v).
Proof.
  induction v as [v IH] using value_composite_ind. intros L. destruct v as [| | | |x| |l|kvs|l| | | |]; try by destruct L.
  - pose proof (literal_array l L) as L'. cbn [Check.Get exact]. split.
    + clear L. induction IH as [|x l Hx _ IH']; simpl; [constructor|]. apply Forall_cons in L' as [Lx L']. constructor; auto.
    + destruct l; [by right|by left].
  - pose proof (literal_object kvs L) as L'. destruct L as [(_ & (ns & F & _) & _) _].
    rewrite (Get_Object encode var_type ref_type comprehension_type kvs ns F). apply exact_object.
    rewrite Forall_forall in IH, L'. split_ands.
    + intros p Hp. rewrite (elem_of_sort_by util_Compare fst) in Hp.
      destruct (entry_types_elem _ _ _ _ kvs ns p F Hp) as (kv & Hkv & Hn & ->).
      exists kv. split_ands; [done|by apply scalar_instance|]. apply IH; auto.
    + intros kv Hkv. destruct (elem_entry_types encode var_type ref_type comprehension_type kvs ns kv F Hkv) as (n & Hn & Hp).
      exists (n, Get kv.2). rewrite (elem_of_sort_by util_Compare fst).
      split_ands; [done|by apply scalar_instance|]. apply IH; auto.
    + destruct (length kvs =? 0)%nat; [by right|by left].
  - pose proof (literal_set l L) as L'. cbn [Check.Get exact]. destruct l as [|x l]; [by left|]. right.
    destruct (fold_Or_alts (map Get (x :: l)) TNil) as [_ H]; [done|done| |].
    { rewrite Forall_map. eapply Forall_impl; [exact L'|]. intros y Ly. split; [by apply literal_wf|].
      pose proof (literal_flat y Ly) as Fy. by intros E; rewrite E in Fy. }
    set (tpe := fold_left Or (map Get (x :: l)) TNil) in *. apply Forall_cons in L' as [Lx _], IH as [IHx _].
    destruct (H (Get x)) as (t' & Ht' & E).
    { right. exists (Get x). split; [left|]. pose proof (literal_flat x Lx). destruct (Get x); try done; by apply list_elem_of_singleton. }
    destruct (is_nil tpe) eqn:N; [destruct tpe; try discriminate N; by apply not_elem_of_nil in Ht'|].
    apply Exists_cons_hd, Exists_exists. exists t'. split; [done|].
    apply (exact_Compare x (Get x)); [by apply IHx|]. by apply (cmp_eq_sym ty_Compare).
Qed.
End Literal.

(** Both orders of arguments unify. *)
Definition meet (n : nat) (a b : ty) : Prop := unifies_fuel n a b = Some true /\ unifies_fuel n b a = Some true.

Lemma unifies_A n b : wf b -> is_nil b = false -> (ty_size A + ty_size b < n)%nat -> meet n A b.
Proof.
  intros W N Hn. destruct n as [|n]; [lia|]. pose proof (wf_function b W) as F.
  assert (U : unifiesAny (unifies_fuel n) [] b = Some true) by (unfold unifiesAny; by rewrite F).
  assert (R : is_Some (match b with TAny l => unifiesAny (unifies_fuel n) l A | _ => Some false end)).
  { destruct b; try by eexists. apply unifiesAny_total. intros t Ht. apply unifies_total; [|apply A_wf|].
    - apply any_wf in W as [_ W]. by apply W.
    - pose proof (sum_list_elem ty_size l t Ht). simpl in *. lia. }
  unfold meet. cbn [unifies_fuel]. cbv zeta. rewrite N, orb_false_r. simpl. rewrite U. split; [done|].
  change (TAny []) with A in R. destruct R as [[|] ->]; done.
Qed.

(** The cases of [unifies] on types that are not unions. *)
Lemma unifies_flat n a b : flat a = true -> flat b = true ->
  unifies_fuel (S n) a b =
    match a, b with
    | TNull, TNull | TBoolean, TBoolean | TNumber, TNumber | TString, TString => Some true
    | TArray sa da, TArray sb db => unifiesArrays (unifies_fuel n) sa da sb db
    | TObject sa da, TObject sb db => unifiesObjects (unifies_fuel n) sa da sb db
    | TSet x, TSet y => unifies_fuel n x y
    | _, _ => Some false
    end.
Proof. by destruct a, b. Qed.

Lemma exact_flat v a : exact v a -> flat a = true.
Proof. destruct v, a; simpl; try done; by intros [=]. Qed.

Section Meet.
Context (n : nat).
Context (IH : forall m v a b, (m <= n)%nat -> exact v a -> simple_term v -> wf a -> wf b -> has_type b v ->
  (ty_size a + ty_size b < m)%nat -> meet m a b).

Lemma any_meets v a l : exact v a -> simple_term v -> wf a -> wf (TAny l) -> has_type (TAny l) v ->
  (ty_size a + ty_size (TAny l) < S n)%nat -> meet (S n) a (TAny l).
Proof.
  intros X S Wa Wl H Hn. pose proof (exact_flat v a X) as F. pose proof Wl as [_ Fl]%any_wf.
  assert (U : unifiesAny (unifies_fuel n) l a = Some true).
  { unfold unifiesAny. rewrite (wf_function a Wa). apply any_typed in H as [->|(t & Ht & H)]; [done|].
    assert (Sz : forall t, t ∈ l -> (ty_size a + ty_size t < n)%nat).
    { intros u Hu. pose proof (sum_list_elem ty_size l u Hu). simpl in Hn. lia. }
    rewrite (any_loop_true _ l t); [done| |done|].
    - intros u Hu. apply unifies_total; [by apply Fl|done|]. specialize (Sz u Hu). lia.
    - apply (IH n v a t); try done; [by apply Fl|by apply Sz]. }
  unfold meet. cbn [unifies_fuel]. cbv zeta. rewrite U.
  assert (Na : is_nil a = false) by (by destruct a). rewrite Na. simpl.
  split; [|done]. by destruct a.
Qed.

Lemma arrays_meet vs sa da sb db : exact (Array vs) (TArray sa da) -> simple_term (Array vs) ->
  wf (TArray sa da) -> wf (TArray sb db) -> has_type (TArray sb db) (Array vs) ->
  (ty_size (TArray sa da) + ty_size (TArray sb db) < S n)%nat -> meet (S n) (TArray sa da) (TArray sb db).
Proof.
  intros [X D] S Wa Wb H Hn. unfold meet. rewrite !unifies_flat by done.
  pose proof (Forall2_length _ _ _ X) as La. rewrite length_map in La.
  assert (St : forall i, (i < length vs)%nat ->
    meet n (Array_Select sa da (Z.of_nat i)) (Array_Select sb db (Z.of_nat i))).
  { intros i Hi. destruct (lookup_lt_is_Some_2 vs i Hi) as [v Hv].
    destruct (lookup_lt_is_Some_2 sa i ltac:(lia)) as [t Ht].
    assert (Ea : Array_Select sa da (Z.of_nat i) = t).
    { unfold Array_Select. by rewrite (proj2 (Z.leb_le 0 (Z.of_nat i))), Nat2Z.id, Ht by lia. }
    pose proof (Array_Select_wf sa da (Z.of_nat i) Wa) as Wi. pose proof (Array_Select_size sa da (Z.of_nat i)) as Zi.
    pose proof (Array_Select_size sb db (Z.of_nat i)). rewrite Ea in *. apply (IH n v); try done.
    - apply (Forall2_lookup_lr _ _ _ i (exact v) t X); [by rewrite list_lookup_fmap, Hv|done].
    - simpl in S. rewrite Forall_map, Forall_lookup in S. by eapply S.
    - by apply Array_Select_wf.
    - unfold Array_Select. rewrite (proj2 (Z.leb_le 0 (Z.of_nat i))), Nat2Z.id by lia. by eapply arr_typed_lookup.
    - lia. }
  assert (Lb : (length sb <= length vs)%nat).
  { clear -H. simpl in H. revert vs H. induction sb as [|t sb IH]; intros vs H; simpl; [lia|].
    destruct vs as [|v vs]; [done|]. destruct H as [_ H]. specialize (IH vs H). simpl. lia. }
  assert (S1 : unifiesArraysStatic (unifies_fuel n) sa da sb db = Some true).
  { apply all_loop_true. intros i Hi%elem_of_seq. apply St. lia. }
  assert (S2 : unifiesArraysStatic (unifies_fuel n) sb db sa da = Some true).
  { apply all_loop_true. intros i Hi%elem_of_seq. apply St. lia. }
  unfold unifiesArrays. rewrite S1, S2. destruct D as [->|[-> ->]]; [by rewrite orb_true_r|].
  destruct (is_nil db) eqn:Nd; [done|]. apply array_wf in Wb as [_ Wb]. pose proof (ty_size_pos A).
  destruct (unifies_A n db Wb Nd) as [E1 E2]; [simpl in *; lia|]. done.
Qed.

Lemma Object_Select_key s d n1 n2 : ssorted util_Compare fst s -> native_scalar n1 = true -> util_Compare n1 n2 = Eq ->
  Object_Select s d n1 = Object_Select s d n2.
Proof.
  intros S N E. rewrite !Object_Select_eq by done. rewrite (sfind_cmp_eq util_Compare fst n1 n2) by done.
  assert (TypeOf n1 = TypeOf n2) as ->; [|done].
  rewrite util_Compare_unfold in E. apply cmp_then_eq in E as [O%Z.compare_eq _].
  by destruct n1, n2; try discriminate O.
Qed.

Lemma object_meet_at kvs kv sa da sb db name : exact (Object kvs) (TObject sa da) -> simple_term (Object kvs) ->
  wf (TObject sa da) -> wf (TObject sb db) -> has_type (TObject sb db) (Object kvs) ->
  (ty_size (TObject sa da) + ty_size (TObject sb db) < S n)%nat -> kv ∈ kvs -> key_is kv.1 name ->
  meet n (Object_Select sa da name) (Object_Select sb db name).
Proof.
  intros (_ & X & _)%exact_object (Sk & _ & Sv) Wa Wb H Hn Hkv Hname.
  pose proof Wa as (Sa & _)%object_wf. pose proof Wb as (Sb & _)%object_wf.
  unfold key_is in Hname. destruct (scalar_native kv.1) as [m|] eqn:Em; [|done].
  destruct (scalar_TypeOf _ _ Em) as [_ Nm]. destruct (X kv Hkv) as (p & Hp & Hkey & Hx).
  unfold key_is in Hkey. rewrite Em in Hkey.
  rewrite <- (Object_Select_key sa da m name), <- (Object_Select_key sb db m name) by done.
  rewrite (Object_Select_key sa da m p.1), (Object_Select_static sa da p) by done.
  pose proof (sum_list_elem (fun p => ty_size p.2) sa p Hp). pose proof (Object_Select_size sb db m Sb).
  apply (IH n kv.2); try done.
  - rewrite Forall_map, Forall_forall in Sv. by apply Sv.
  - apply object_wf in Wa as (_ & _ & Wa & _). rewrite Forall_forall in Wa. by apply Wa.
  - by apply Object_Select_wf.
  - destruct (object_selects sb db Wb kv.1 m Em) as [_ G]. apply (G (Object kvs)); [done|]. simpl. unfold obj_get.
    assert (sfind Compare fst kv.1 kvs = Some kv) as ->; [|done].
    apply (sfind_Some Compare fst); [by apply (ssorted_distinct Compare fst)|]. split; [done|apply (cmp_refl Compare)].
  - simpl in *. lia.
Qed.

Lemma objects_meet kvs sa da sb db : exact (Object kvs) (TObject sa da) -> simple_term (Object kvs) ->
  wf (TObject sa da) -> wf (TObject sb db) -> has_type (TObject sb db) (Object kvs) ->
  (ty_size (TObject sa da) + ty_size (TObject sb db) < S n)%nat -> meet (S n) (TObject sa da) (TObject sb db).
Proof.
  intros X S Wa Wb H Hn. unfold meet. rewrite !unifies_flat by done.
  pose proof (fun kv name => object_meet_at kvs kv sa da sb db name X S Wa Wb H Hn) as At.
  apply exact_object in X as (X & _ & D).
  assert (S1 : unifiesObjectsStatic (unifies_fuel n) sa da sb db = Some true).
  { apply all_loop_true. intros p Hp. destruct (X p Hp) as (kv & Hkv & Hk & _). by apply (At kv). }
  assert (S2 : unifiesObjectsStatic (unifies_fuel n) sb db sa da = Some true).
  { apply all_loop_true. intros p Hp. destruct H as [Pr _]. rewrite Forall_map, Forall_forall in Pr.
    specialize (Pr p Hp). simpl in Pr. apply Exists_exists in Pr as (kv & Hkv & Hk). by apply (At kv). }
  unfold unifiesObjects. rewrite S1, S2. destruct D as [-> | ->]; [by rewrite orb_true_r|].
  destruct db as [[kb vb]|]; [|done]. cbn [DynamicValue]. destruct (is_nil vb) eqn:Nd; [done|].
  apply object_wf in Wb as (_ & _ & _ & _ & Wb). pose proof (ty_size_pos kb).
  destruct (unifies_A n vb Wb Nd) as [E1 E2]; [simpl in *; lia|]. done.
Qed.

(** One alternative that meets [b] is enough. *)
Lemma alts_meet x e t b : exact x t -> simple_term x -> t ∈ alts e -> wf e -> wf b -> has_type b x ->
  (ty_size e + ty_size b < n)%nat -> meet n e b.
Proof.
  intros X S Ht We Wb H Hn. destruct (is_any e) eqn:K.
  2:{ assert (t = e) as ->; [|by apply (IH n x)]. destruct e; try discriminate K; try by apply list_elem_of_singleton in Ht.
      by apply not_elem_of_nil in Ht. }
  destruct e as [| | | | | | | |l|]; try discriminate K. simpl in Ht. pose proof We as [_ Fl]%any_wf.
  assert (Nb : is_nil b = false) by (by destruct b). pose proof (wf_function b Wb) as Fb.
  destruct n as [|m]; [lia|].
  assert (Sz : forall t, t ∈ l -> (ty_size t + ty_size b < m)%nat).
  { intros u Hu. pose proof (sum_list_elem ty_size l u Hu). simpl in Hn. lia. }
  assert (U : unifiesAny (unifies_fuel m) l b = Some true).
  { unfold unifiesAny. rewrite Fb, (any_loop_true _ l t); [done| |done|].
    - intros u Hu. apply unifies_total; [by apply Fl|done|by apply Sz].
    - apply (IH m x t b); try done; [lia|by apply Fl|by apply Sz]. }
  assert (R : is_Some (match b with TAny lb => unifiesAny (unifies_fuel m) lb (TAny l) | _ => Some false end)).
  { destruct b as [| | | | | | | |lb|]; try by eexists. apply unifiesAny_total. intros u Hu.
    pose proof (sum_list_elem ty_size lb u Hu). apply any_wf in Wb as [_ Wb].
    apply unifies_total; [by apply Wb|done|simpl in *; lia]. }
  unfold meet. cbn [unifies_fuel]. cbv zeta. rewrite Nb, U. simpl. split; [done|]. by destruct R as [[|] ->].
Qed.

Lemma sets_meet l e eb : exact (SetV l) (TSet e) -> simple_term (SetV l) -> wf (TSet e) -> wf (TSet eb) ->
  has_type (TSet eb) (SetV l) -> (ty_size (TSet e) + ty_size (TSet eb) < S n)%nat -> meet (S n) (TSet e) (TSet eb).
Proof.
  intros X S [_ We] [Nb Wb] H Hn. unfold meet. rewrite !unifies_flat by done. simpl in X, S, H, Hn.
  destruct X as [-> |X]; [apply unifies_A; [done|done|lia]|].
  apply Exists_exists in X as (P & (x & -> & Hx)%list_elem_of_fmap & X). apply Exists_exists in X as (t & Ht & X).
  rewrite Forall_map in S. rewrite Forall_forall in S, H. apply (alts_meet x e t); auto. lia.
Qed.

Lemma exact_meets v a b : exact v a -> simple_term v -> wf a -> wf b -> has_type b v ->
  (ty_size a + ty_size b < S n)%nat -> meet (S n) a b.
Proof.
  intros X S Wa Wb H Hn. destruct (is_any b) eqn:K; [destruct b; try discriminate K; by eapply any_meets|].
  destruct v as [| | | | | |vs|kvs|l| | | |]; try done; simpl in X;
    try (subst a; destruct b; try discriminate K; simpl in H; try (by destruct H); by split).
  - destruct a; try done. destruct b; try discriminate K; try done; try (simpl in H; naive_solver). by eapply arrays_meet.
  - destruct a; try done. destruct b; try discriminate K; try done; try (simpl in H; naive_solver). by eapply objects_meet.
  - destruct a; try done. destruct b; try discriminate K; try done; try (simpl in H; naive_solver). by eapply sets_meet.
Qed.
End Meet.

Lemma exact_meet n : forall m v a b, (m <= n)%nat -> exact v a -> simple_term v -> wf a -> wf b -> has_type b v ->
  (ty_size a + ty_size b < m)%nat -> meet m a b.
Proof.
  induction n as [|n IH]; intros m v a b Hm X S Wa Wb H Hs; [lia|].
  destruct m as [|m]; [lia|]. apply (exact_meets m) with v; try done.
  intros m' v' a' b' Hm'. apply IH. lia.
Qed.

(** C16: The checker never reports a match error for an equality between a simple
    literal (scalars in arrays, sets, and objects with scalar keys that stay distinct
    as native numbers) and an expression whose type contains the literal: [unifies]
    returns, within its fuel, that their types can meet, in either order. *)
Theorem literal_unifies encode var_type ref_type comprehension_type v b :
  literal v -> wf b -> has_type b v ->
  unifies (Get encode var_type ref_type comprehension_type v) b = Some true /\
  unifies b (Get encode var_type ref_type comprehension_type v) = Some true.
Proof.
  intros L Wb H. pose proof (literal_wf encode var_type ref_type comprehension_type v L) as Wa.
  pose proof (literal_exact encode var_type ref_type comprehension_type v L) as X. destruct L as [S _].
  unfold unifies. set (a := Get _ _ _ _ v) in *. rewrite (Nat.add_comm (ty_size b)).
  apply (exact_meet (Datatypes.S (ty_size a + ty_size b)) _ v); try done. lia.
Qed.

(** [["x", 1]] against arrays of strings and numbers. *)
Lemma literal_unifies_witness :
  let v := Array [Str "x"; Number (NInt 1)] in
  let b := TArray [] (TAny [TNumber; TString]) in
  unifies (Get (fun _ => "?") (fun _ => TNil) (fun _ => TNil) (fun _ => TNil) v) b = Some true.
Proof.
  cbv zeta. apply literal_unifies.
  - split; [|done]. simpl. by repeat apply Forall_cons_2.
  - apply array_wf. split; [done|]. apply any_wf. split.
    + unfold ssorted. apply SSorted_cons; [apply SSorted_cons; [apply SSorted_nil|done]|by apply Forall_singleton].
    + intros t Ht. rewrite !elem_of_cons, elem_of_nil in Ht. by destruct Ht as [-> |[-> |[]]].
  - simpl. rewrite !Forall_cons, Forall_nil. split_ands; [|  |done].
    + apply Exists_cons_tl, Exists_cons_hd. by eexists.
    + apply Exists_cons_hd. by eexists.
Defined.

(** With a composite key this fails: [{[1]: 2}] is an object from arrays of numbers to
    numbers, but the static property of its type is looked up in that type by comparing
    the type of the key, an array of one number, with the type of the keys. *)
Lemma literal_composite_key :
  let v := Object [(Array [Number (NInt 1)], Number (NInt 2))] in
  let b := TObject [] (Some (TArray [] TNumber, TNumber)) in
  wf b /\ has_type b v /\ IsConstant v = true /\
  unifies (Get (fun _ => "?") (fun _ => TNil) (fun _ => TNil) (fun _ => TNil) v) b = Some false.
Proof.
  intros v b. split_ands; [by repeat constructor| |done|by vm_compute].
  split; [constructor|]. apply Forall_singleton. right. split; [constructor|]. split; [apply Forall_singleton|]; by eexists.
Qed.

(** The dynamic property of an object literal is that of its last variable key
    only: in [{x: 1, y: "a"}] the type of the first entry is lost. *)
Lemma Get_dynamic_lost :
  let t := Object [(Var "x", Number (NInt 1)); (Var "y", Str "a")] in
  let g := Get (fun _ => "?") (fun _ => TString) (fun _ => TNil) (fun _ => TNil) t in
  g = TObject [] (Some (TString, TString)) /\
  ~ has_type g (Object [(Str "k", Number (NInt 1)); (Str "l", Str "a")]).
Proof.
  cbv zeta. split; [done|]. intros [_ H]. apply Forall_cons in H as [H _].
  destruct (entry_typed_static [] _ _ H) as [(p & Hp & _)|[_ [_ [s Hs]]]]; [by apply not_elem_of_nil in Hp|discriminate Hs].
Qed.
