(* ===== verification/Builtins.v ===== *)
(** Built-in functions on collections: the operand helpers of
    [src/topdown/builtins/builtins.go] and the functions of
    [src/topdown/{sets,binary,array,object,aggregates,casts,type,comparison}.go].

    A built-in either fails, returns [nil] without calling its iterator (the
    call is undefined), or calls the iterator on one value.  Operands are the
    values themselves, objects and sets as the sorted slices of Containers.v. *)
From Stdlib Require Import ZArith Lia QArith String Ascii Sorting.Sorted.
From stdpp Require Import base gmap list strings pretty.
From S2P Require Import Prelude SortedKeys Value Containers SetTable ObjectTable RefOps.

(** ** Operands *)
Inductive builtin_error : Type :=
| OperandErr (pos : nat) (msg : string)
| OperandTypeErr (pos : nat) (got : value) (expected : list string)
| OperandElementErr (pos : nat) (composite got : value) (expected : list string)
| PlainErr (msg : string).

Abbreviation builtin_result := (res builtin_error (option value)).
Definition iter_on (v : value) : builtin_result := Ok (Some v).
Definition undefined : builtin_result := Ok None.

Definition SetOperand (x : value) (pos : nat) : res builtin_error (list value) :=
  match x with SetV s => Ok s | _ => Err (OperandTypeErr pos x ["set"%string]) end.
Definition ObjectOperand (x : value) (pos : nat) : res builtin_error (list (value * value)) :=
  match x with Object o => Ok o | _ => Err (OperandTypeErr pos x ["object"%string]) end.
Definition ArrayOperand (x : value) (pos : nat) : res builtin_error (list value) :=
  match x with Array a => Ok a | _ => Err (OperandTypeErr pos x ["array"%string]) end.
Definition NumberOperand (x : value) (pos : nat) : res builtin_error number :=
  match x with Number n => Ok n | _ => Err (OperandTypeErr pos x ["number"%string]) end.
Definition IntOperand (x : value) (pos : nat) : res builtin_error Z :=
  match x with
  | Number n =>
      match num_int64 n with
      | Some i => Ok i
      | None => Err (OperandErr pos "must be integer number but got floating-point number")
      end
  | _ => Err (OperandTypeErr pos x ["number"%string])
  end.

Definition IntNumberTerm (i : Z) : value := Number (NInt i).

(** ** Sets of values as slices *)
Definition set_of (l : list value) : list value := fold_left (fun s x => set_insert x s) l [].
Definition set_diff (s o : list value) : list value := set_of (List.filter (fun x => negb (set_mem x o)) s).
Definition set_intersect (s o : list value) : list value :=
  let '(ss, so) := if (length o <? length s)%nat then (o, s) else (s, o) in
  set_of (List.filter (fun x => set_mem x so) ss).
Definition set_union (s o : list value) : list value := fold_left (fun r x => set_insert x r) o (set_of s).

(** ** sets.go, binary.go *)
Definition builtinSetDiff (a b : value) : builtin_result :=
  let? s1 := SetOperand a 1 in let? s2 := SetOperand b 2 in iter_on (SetV (set_diff s1 s2)).
Definition builtinBinaryAnd (a b : value) : builtin_result :=
  let? s1 := SetOperand a 1 in let? s2 := SetOperand b 2 in iter_on (SetV (set_intersect s1 s2)).
Definition builtinBinaryOr (a b : value) : builtin_result :=
  let? s1 := SetOperand a 1 in let? s2 := SetOperand b 2 in iter_on (SetV (set_union s1 s2)).

(** The loop of [builtinSetIntersection]; [None] is the initial [nil]. *)
Fixpoint intersect_all (result : option (list value)) (l : list value) :
    res builtin_error (option (list value)) :=
  match l with
  | [] => Ok result
  | x :: l =>
      let? n := SetOperand x 1 in
      intersect_all (Some (match result with None => n | Some r => set_intersect r n end)) l
  end.
(** The set handed to [iter] is never [nil]: the loop ran at least once. *)
Definition builtinSetIntersection (a : value) : builtin_result :=
  let? inputSet := SetOperand a 1 in
  if (length inputSet =? 0)%nat then iter_on (SetV [])
  else let? r := intersect_all None inputSet in iter_on (SetV (default [] r)).

Fixpoint union_all (result : list value) (l : list value) : res builtin_error (list value) :=
  match l with
  | [] => Ok result
  | x :: l =>
      let? item := SetOperand x 1 in
      union_all (fold_left (fun r y => set_insert y r) item result) l
  end.
Definition builtinSetUnion (a : value) : builtin_result :=
  let? inputSet := SetOperand a 1 in
  let? r := union_all [] inputSet in iter_on (SetV r).

(** ** array.go *)
Definition builtinArrayConcat (a b : value) : builtin_result :=
  let? arrA := ArrayOperand a 1 in let? arrB := ArrayOperand b 2 in iter_on (Array (arrA ++ arrB)).

(** [arr.elems[i:j]] at checked bounds; [None] is a panic. *)
Definition slice {A} (l : list A) (i j : Z) : option (list A) :=
  let n := Z.of_nat (length l) in
  let j := if (j =? -1)%Z then n else j in
  if ((0 <=? i) && (i <=? j) && (j <=? n))%Z then Some (take (Z.to_nat (j - i)) (drop (Z.to_nat i) l)) else None.
Definition builtinArraySlice (a b c : value) : option builtin_result :=
  match ArrayOperand a 1, IntOperand b 2, IntOperand c 3 with
  | Err e, _, _ | _, Err e, _ | _, _, Err e => Some (Err e)
  | Ok arr, Ok startIndex, Ok stopIndex =>
      let len := Z.of_nat (length arr) in
      let stopIndex := if (stopIndex <? 0)%Z then 0%Z else if (len <? stopIndex)%Z then len else stopIndex in
      let startIndex := if (startIndex <? 0)%Z then 0%Z
                        else if (stopIndex <? startIndex)%Z then stopIndex else startIndex in
      option_map (fun l => iter_on (Array l)) (slice arr startIndex stopIndex)
  end.

(** [reversedArr[index] = arr.Elem(length - index - 1)]; [None] is a panic. *)
Definition builtinArrayReverse (a : value) : option builtin_result :=
  match ArrayOperand a 1 with
  | Err e => Some (Err e)
  | Ok arr =>
      option_map (fun l => iter_on (Array l))
        (mapM (fun index => arr !! (length arr - index - 1)%nat) (seq 0 (length arr)))
  end.

(** ** aggregates.go *)

(** The width of the first rune of a string ([utf8.DecodeRune]); an invalid
    byte is one rune. *)
Definition in_byte (lo hi : N) (s : string) : bool :=
  match s with
  | EmptyString => false
  | String.String c _ => ((lo <=? N_of_ascii c) && (N_of_ascii c <=? hi))%N
  end.
Fixpoint skip (n : nat) (s : string) : string :=
  match n, s with
  | S n, String.String _ s => skip n s
  | _, _ => s
  end.
Definition rune_width (s : string) : nat :=
  match s with
  | EmptyString => 0
  | String.String c r =>
      let b := N_of_ascii c in
      let cont := in_byte 128 191 in
      let second := if (b =? 224)%N then in_byte 160 191 r
                    else if (b =? 237)%N then in_byte 128 159 r
                    else if (b =? 240)%N then in_byte 144 191 r
                    else if (b =? 244)%N then in_byte 128 143 r
                    else cont r in
      if in_byte 194 223 s && second then 2
      else if in_byte 224 239 s && second && cont (skip 1 r) then 3
      else if in_byte 240 244 s && second && cont (skip 1 r) && cont (skip 2 r) then 4
      else 1
  end%nat.
Fixpoint rune_count_from (fuel : nat) (s : string) : nat :=
  match fuel, s with
  | S fuel, String.String _ _ => S (rune_count_from fuel (skip (rune_width s) s))
  | _, _ => 0%nat
  end.
Definition rune_count (s : string) : nat := rune_count_from (String.length s) s.

Definition builtinCount (a : value) : builtin_result :=
  match a with
  | Array l => iter_on (IntNumberTerm (Z.of_nat (length l)))
  | Object o => iter_on (IntNumberTerm (Z.of_nat (length o)))
  | SetV s => iter_on (IntNumberTerm (Z.of_nat (length s)))
  | Str s => iter_on (IntNumberTerm (Z.of_nat (rune_count s)))
  | _ => Err (OperandTypeErr 1 a ["array"; "object"; "set"; "string"]%string)
  end.

(** [ast.Compare(max, x) <= 0], [ast.Compare(min, x) >= 0]. *)
Definition le_cmp (a b : value) : bool := match Compare a b with Gt => false | _ => true end.
Definition ge_cmp (a b : value) : bool := match Compare a b with Lt => false | _ => true end.
Definition max_loop (l : list value) : value := fold_left (fun m x => if le_cmp m x then x else m) l Null.
Definition builtinMax (a : value) : builtin_result :=
  match a with
  | Array l | SetV l => if (length l =? 0)%nat then undefined else iter_on (max_loop l)
  | _ => Err (OperandTypeErr 1 a ["set"; "array"]%string)
  end.

Definition min_array (min : value) (l : list value) : value :=
  fold_left (fun m x => if ge_cmp m x then x else m) l min.
Definition min_set (l : list value) : value :=
  fold_left (fun m x => if Equal m Null then x else if ge_cmp m x then x else m) l Null.
Definition builtinMin (a : value) : builtin_result :=
  match a with
  | Array l => match l with [] => undefined | x :: _ => iter_on (min_array x l) end
  | SetV l => if (length l =? 0)%nat then undefined else iter_on (min_set l)
  | _ => Err (OperandTypeErr 1 a ["set"; "array"]%string)
  end.

Definition builtinSort (a : value) : builtin_result :=
  match a with
  | Array l => iter_on (Array (sort_by Compare id l))
  | SetV l => iter_on (Array l)
  | _ => Err (OperandTypeErr 1 a ["set"; "array"]%string)
  end.

(** [Until]: whether the function returned true on an element. *)
Fixpoint until {A} (f : A -> bool) (l : list A) : bool :=
  match l with [] => false | x :: l => if f x then true else until f l end.
Definition builtinAll (a : value) : builtin_result :=
  match a with
  | SetV l | Array l => iter_on (Boolean (negb (until (fun t => negb (Equal (Boolean true) t)) l)))
  | _ => Err (OperandTypeErr 1 a ["array"; "set"]%string)
  end.
Definition builtinAny (a : value) : builtin_result :=
  match a with
  | SetV l => iter_on (Boolean ((0 <? length l)%nat && set_mem (Boolean true) l))
  | Array l => iter_on (Boolean (until (Equal (Boolean true)) l))
  | _ => Err (OperandTypeErr 1 a ["array"; "set"]%string)
  end.
Definition builtinMember (containee c : value) : builtin_result :=
  match c with
  | SetV l => iter_on (Boolean (set_mem containee l))
  | Array l => iter_on (Boolean (until (fun v => Equal v containee) l))
  | Object kvs => iter_on (Boolean (until (fun kv => Equal kv.2 containee) kvs))
  | _ => iter_on (Boolean false)
  end.
(** Arrays and objects have the method [Get]; sets do not. *)
Definition builtinMemberWithKey (key val c : value) : builtin_result :=
  match c with
  | Array _ | Object _ =>
      iter_on (Boolean (match Term_Get c key with Some act => Equal act val | None => false end))
  | _ => iter_on (Boolean false)
  end.

(** ** casts.go *)
Definition builtinToArray (a : value) : builtin_result :=
  match a with
  | Array _ => iter_on a
  | SetV l => iter_on (Array l)
  | _ => Err (OperandTypeErr 1 a ["array"; "set"]%string)
  end.
Definition builtinToSet (a : value) : builtin_result :=
  match a with
  | Array l => iter_on (SetV (set_of l))
  | SetV _ => iter_on a
  | _ => Err (OperandTypeErr 1 a ["array"; "set"]%string)
  end.
Definition builtinToString (a : value) : builtin_result :=
  match a with Str _ => iter_on a | _ => Err (OperandTypeErr 1 a ["string"%string]) end.
Definition builtinToBoolean (a : value) : builtin_result :=
  match a with Boolean _ => iter_on a | _ => Err (OperandTypeErr 1 a ["boolean"%string]) end.
Definition builtinToNull (a : value) : builtin_result :=
  match a with Null => iter_on a | _ => Err (OperandTypeErr 1 a ["null"%string]) end.
Definition builtinToObject (a : value) : builtin_result :=
  match a with Object _ => iter_on a | _ => Err (OperandTypeErr 1 a ["object"%string]) end.

(** ** type.go *)
Definition builtinIsNumber (a : value) : builtin_result :=
  iter_on (Boolean (match a with Number _ => true | _ => false end)).
Definition builtinIsString (a : value) : builtin_result :=
  iter_on (Boolean (match a with Str _ => true | _ => false end)).
Definition builtinIsBoolean (a : value) : builtin_result :=
  iter_on (Boolean (match a with Boolean _ => true | _ => false end)).
Definition builtinIsArray (a : value) : builtin_result :=
  iter_on (Boolean (match a with Array _ => true | _ => false end)).
Definition builtinIsSet (a : value) : builtin_result :=
  iter_on (Boolean (match a with SetV _ => true | _ => false end)).
Definition builtinIsObject (a : value) : builtin_result :=
  iter_on (Boolean (match a with Object _ => true | _ => false end)).
Definition builtinIsNull (a : value) : builtin_result :=
  iter_on (Boolean (match a with Null => true | _ => false end)).

(** ** comparison.go *)
Definition compareGreaterThan (a b : value) : bool := match Compare a b with Gt => true | _ => false end.
Definition compareGreaterThanEq (a b : value) : bool := match Compare a b with Lt => false | _ => true end.
Definition compareLessThan (a b : value) : bool := match Compare a b with Lt => true | _ => false end.
Definition compareLessThanEq (a b : value) : bool := match Compare a b with Gt => false | _ => true end.
Definition compareNotEq (a b : value) : bool := match Compare a b with Eq => false | _ => true end.
Definition compareEq (a b : value) : bool := match Compare a b with Eq => true | _ => false end.
Definition builtinCompare (cmp : value -> value -> bool) (a b : value) : builtin_result :=
  iter_on (Boolean (cmp a b)).

(** ** object.go *)
Definition getObjectKeysParam (arrayOrSet : value) : res builtin_error (list value) :=
  match arrayOrSet with
  | Array l | SetV l => Ok (set_of l)
  | Object kvs => Ok (set_of (map fst kvs))
  | _ => Err (OperandTypeErr 2 arrayOrSet ["object"; "set"; "array"]%string)
  end.

Definition obj_of (kvs : list (value * value)) : list (value * value) :=
  fold_left (fun r kv => obj_insert kv.1 kv.2 r) kvs [].

Definition builtinObjectRemove (a b : value) : builtin_result :=
  let? obj := ObjectOperand a 1 in
  let? keysToRemove := getObjectKeysParam b in
  iter_on (Object (obj_of (List.filter (fun kv => negb (set_mem kv.1 keysToRemove)) obj))).

(** [filterObject] of [src/ast/term.go].  The recursive calls are on the members
    of [o] that a key finds: [rec] pairs each member with the call on it. *)
Fixpoint res_fold {A B} (f : A -> B -> res builtin_error B) (l : list A) (acc : B) : res builtin_error B :=
  match l with [] => Ok acc | x :: l => let? acc := f x acc in res_fold f l acc end.
Fixpoint filterObject (o filter : value) {struct o} : res builtin_error value :=
  if Equal filter Null then Ok o
  else match filter with
  | Object filteredObj =>
      match o with
      | Str _ | Number _ | Boolean _ | Null => Ok o
      | Array l =>
          let rec := map filterObject l in
          let? values := res_fold (fun ir values =>
              match obj_get (Str (pretty (N.of_nat ir.1))) filteredObj with
              | Some subFilter => let? x := ir.2 subFilter in Ok (values ++ [x])
              | None => Ok values
              end) (combine (seq 0 (length l)) rec) [] in
          Ok (Array values)
      | SetV l =>
          let rec := map (fun t => (t, filterObject t)) l in
          let? values := res_fold (fun tr values =>
              match obj_get tr.1 filteredObj with
              | Some subFilter => let? x := tr.2 subFilter in Ok (set_insert x values)
              | None => Ok values
              end) rec [] in
          Ok (SetV values)
      | Object v =>
          let rec := map (fun kv => (kv.1, filterObject kv.2)) v in
          let smaller := (length v <? length filteredObj)%nat in
          let iterObj := if smaller then filteredObj else v in
          let other := if smaller then v else filteredObj in
          let? values := res_fold (fun kv values =>
              match obj_get kv.1 other with
              | Some _ =>
                  match sfind Compare fst kv.1 rec, obj_get kv.1 filteredObj with
                  | Some r, Some subFilter => let? x := r.2 subFilter in Ok (obj_insert kv.1 x values)
                  | _, _ => Ok values (* not reached: both have the key *)
                  end
              | None => Ok values
              end) iterObj [] in
          Ok (Object values)
      | _ => Err (PlainErr "invalid object value type")
      end
  | _ => Err (PlainErr "invalid filter value, expected an object")
  end.

Definition builtinObjectFilter (a b : value) : builtin_result :=
  let? obj := ObjectOperand a 1 in
  let? keys := getObjectKeysParam b in
  let? r := filterObject (Object obj) (Object (obj_of (map (fun k => (k, Null)) keys))) in
  iter_on r.

Definition builtinObjectGet (a b c : value) : builtin_result :=
  let? object := ObjectOperand a 1 in
  match ArrayOperand b 2 with
  | Err _ => match obj_get b object with Some ret => iter_on ret | None => iter_on c end
  | Ok path =>
      if (length path =? 0)%nat then iter_on a
      else match Find (Object object) path with Some v => iter_on v | None => iter_on c end
  end.

Definition builtinObjectKeys (a : value) : builtin_result :=
  let? object := ObjectOperand a 1 in iter_on (SetV (set_of (map fst object))).

(** * Lemmas *)
Lemma set_of_sorted l : ssorted Compare id (set_of l).
Proof. apply fold_insert_sorted. constructor. Qed.

Lemma set_mem_set_of x l : set_mem x (set_of l) = existsb (Equal x) l.
Proof. unfold set_of. by rewrite (proj2 (fold_insert_sorted l [] ltac:(constructor))). Qed.

Lemma set_mem_congr x y l : Compare x y = Eq -> set_mem x l = set_mem y l.
Proof. intros E. unfold set_mem. by rewrite (sfind_cmp_eq Compare id x y). Qed.

Lemma set_diff_mem x s o : set_mem x (set_diff s o) = set_mem x s && negb (set_mem x o).
Proof.
  unfold set_diff. rewrite set_mem_set_of, existsb_Equal_filter, <- set_mem_existsb; [done|].
  intros y _ E. f_equal. symmetry. by apply set_mem_congr.
Qed.

Lemma set_intersect_mem x s o : set_mem x (set_intersect s o) = set_mem x s && set_mem x o.
Proof.
  unfold set_intersect. destruct (length o <? length s)%nat; rewrite set_mem_set_of, existsb_Equal_filter, <- set_mem_existsb;
    [apply andb_comm| |done|]; intros y _ E; symmetry; by apply set_mem_congr.
Qed.

Lemma set_union_mem x s o : set_mem x (set_union s o) = set_mem x s || set_mem x o.
Proof.
  unfold set_union. rewrite (proj2 (fold_insert_sorted o _ (set_of_sorted s))), set_mem_set_of.
  by rewrite <- !set_mem_existsb.
Qed.

Lemma set_intersect_sorted s o : ssorted Compare id (set_intersect s o).
Proof. unfold set_intersect. by destruct (length o <? length s)%nat; apply set_of_sorted. Qed.

Lemma union_all_ok ss : forall r, ssorted Compare id r ->
  exists u, union_all r (map SetV ss) = Ok u /\ ssorted Compare id u /\
    forall x, set_mem x u = set_mem x r || existsb (set_mem x) ss.
Proof.
  induction ss as [|s ss IH]; simpl; intros r Hr.
  { exists r. split_ands; [done..|]. intros x. by rewrite orb_false_r. }
  destruct (fold_insert_sorted s r Hr) as [Hs Hm].
  destruct (IH _ Hs) as (u & -> & Hu & Hx). exists u. split_ands; [done..|]. intros x.
  by rewrite Hx, Hm, <- set_mem_existsb, orb_assoc.
Qed.

Lemma intersect_all_ok ss : forall r, ssorted Compare id r -> Forall (ssorted Compare id) ss ->
  exists u, intersect_all (Some r) (map SetV ss) = Ok (Some u) /\ ssorted Compare id u /\
    forall x, set_mem x u = set_mem x r && forallb (set_mem x) ss.
Proof.
  induction ss as [|s ss IH]; simpl; intros r Hr Hss.
  { exists r. split_ands; [done..|]. intros x. by rewrite andb_true_r. }
  apply Forall_cons in Hss as [_ Hss].
  destruct (IH (set_intersect r s) (set_intersect_sorted r s) Hss) as (u & -> & Hu & Hx).
  exists u. split_ands; [done..|]. intros x. by rewrite Hx, set_intersect_mem, andb_assoc.
Qed.

(** The first element that is no set decides the error. *)
Lemma union_all_err pre x l : forall r, (forall s, x <> SetV s) ->
  union_all r (map SetV pre ++ x :: l) = Err (OperandTypeErr 1 x ["set"%string]).
Proof.
  induction pre as [|s pre IH]; simpl; intros r Hx; [|by apply IH].
  destruct x; try done. by destruct (Hx keys).
Qed.
Lemma intersect_all_err pre x l : forall r, (forall s, x <> SetV s) ->
  intersect_all r (map SetV pre ++ x :: l) = Err (OperandTypeErr 1 x ["set"%string]).
Proof.
  induction pre as [|s pre IH]; simpl; intros r Hx; [|by apply IH].
  destruct x; try done. by destruct (Hx keys).
Qed.

(** The operators on sets compute difference, intersection and union as
    sorted slices; [union] and [intersection] of a set of sets hold what some,
    respectively every, member holds (nothing for no member), and both fail on
    the first member that is not a set. *)
Theorem set_builtins (s o : list value) (ss : list (list value)) (x : value) :
  Forall (ssorted Compare id) ss ->
  let is_set r f := exists u, r = iter_on (SetV u) /\ ssorted Compare id u /\ forall y, set_mem y u = f y in
  is_set (builtinSetDiff (SetV s) (SetV o)) (fun y => set_mem y s && negb (set_mem y o)) /\
  is_set (builtinBinaryAnd (SetV s) (SetV o)) (fun y => set_mem y s && set_mem y o) /\
  is_set (builtinBinaryOr (SetV s) (SetV o)) (fun y => set_mem y s || set_mem y o) /\
  is_set (builtinSetUnion (SetV (map SetV ss))) (fun y => existsb (set_mem y) ss) /\
  is_set (builtinSetIntersection (SetV (map SetV ss)))
    (fun y => (0 <? length ss)%nat && forallb (set_mem y) ss) /\
  ((forall s', x <> SetV s') -> forall l,
    builtinSetUnion (SetV (map SetV ss ++ x :: l)) = Err (OperandTypeErr 1 x ["set"%string]) /\
    builtinSetIntersection (SetV (map SetV ss ++ x :: l)) = Err (OperandTypeErr 1 x ["set"%string])).
Proof.
  intros Hss is_set. subst is_set. simpl. split_ands.
  - eexists. split_ands; [done|apply set_of_sorted|]. intros y. apply set_diff_mem.
  - eexists. split_ands; [done|apply set_intersect_sorted|]. intros y. apply set_intersect_mem.
  - eexists. split_ands; [done|apply fold_insert_sorted, set_of_sorted|]. intros y. apply set_union_mem.
  - destruct (union_all_ok ss [] ltac:(constructor)) as (u & E & Hu & Hx). exists u.
    unfold builtinSetUnion. simpl. by rewrite E.
  - unfold builtinSetIntersection. destruct Hss as [|t ss Ht Hss]; simpl.
    { exists []. split_ands; [done|constructor|done]. }
    destruct (intersect_all_ok ss t Ht Hss) as (u & -> & Hu & Hx). by exists u.
  - intros Hx l. unfold builtinSetUnion, builtinSetIntersection. simpl.
    rewrite union_all_err, intersect_all_err by done. split; [done|].
    rewrite length_app, length_map. simpl. by rewrite Nat.add_succ_r.
Qed.

Lemma set_builtins_witness :
  let n := fun i => Number (NInt (Z.of_nat i)) in
  Forall (ssorted Compare id) [[n 1; n 2]; [n 2]] /\
  exists u, builtinSetIntersection (SetV (map SetV [[n 1; n 2]; [n 2]])) = iter_on (SetV u) /\
    set_mem (n 2) u = true /\ set_mem (n 1) u = false.
Proof.
  intros n.
  assert (H1 : ssorted Compare id [n 1; n 2]) by (repeat constructor).
  assert (H2 : Forall (ssorted Compare id) [[n 1; n 2]; [n 2]]).
  { apply Forall_cons_2; [exact H1|]. apply Forall_cons_2; [repeat constructor|constructor]. }
  destruct (set_builtins [n 1; n 2] [] [[n 1; n 2]; [n 2]] Null H2) as (_ & _ & _ & _ & (u & E & _ & Hx) & _).
  split; [exact H2|]. exists u. split; [exact E|]. split; rewrite Hx; reflexivity.
Defined.

(** ** Aggregates *)
Abbreviation at_most a b := (Compare a b <> Gt).

Lemma at_most_refl a : at_most a a.
Proof. by rewrite (cmp_refl Compare). Qed.

Lemma at_most_trans a b c : at_most a b -> at_most b c -> at_most a c.
Proof.
  intros H1 H2. destruct (Compare a b) eqn:E1; [| |done].
  - by rewrite <- (cmp_eq_l Compare _ _ c E1).
  - destruct (Compare b c) eqn:E2; [| |done].
    + by rewrite <- (cmp_eq_r Compare a _ _ E2), E1.
    + by rewrite (cmp_lt_trans Compare _ _ _ E1 E2).
Qed.

Lemma not_at_most a b : Compare a b = Gt -> at_most b a.
Proof. intros E. apply (cmp_gt_lt Compare) in E. by rewrite E. Qed.
Lemma at_most_ge a b : Compare a b <> Lt -> at_most b a.
Proof. intros H E. apply H. by apply (cmp_gt_lt Compare). Qed.

Lemma Null_least x : at_most Null x.
Proof. by destruct x. Qed.

(** [m] is an element of [l] that [R] relates to every other. *)
Definition extreme (R : value -> value -> Prop) (m : value) (l : list value) : Prop :=
  m ∈ l /\ Forall (R m) l.

Lemma max_fold l : forall m0, let m := fold_left (fun m x => if le_cmp m x then x else m) l m0 in
  (m = m0 \/ m ∈ l) /\ at_most m0 m /\ Forall (fun x => at_most x m) l.
Proof.
  induction l as [|x l IH]; cbn [fold_left]; intros m0.
  { split_ands; [by left|apply at_most_refl|constructor]. }
  destruct (IH (if le_cmp m0 x then x else m0)) as (H1 & H2 & H3). unfold le_cmp in *.
  rewrite elem_of_cons. destruct (Compare m0 x) eqn:E; split_ands.
  all: try (constructor; [|exact H3]).
  all: first [by destruct H1; [right; left|right; right] | by destruct H1; [left|right; right] | exact H2 | idtac].
  all: first [eapply at_most_trans; [|exact H2]; by rewrite ?E |
    eapply at_most_trans; [by apply not_at_most|exact H2]].
Qed.

Lemma max_loop_ok l : l <> [] -> extreme (fun m x => at_most x m) (max_loop l) l.
Proof.
  intros Hl. destruct (max_fold l Null) as (H1 & _ & H3). split; [|exact H3].
  destruct H1 as [H1|]; [|done]. unfold max_loop. rewrite H1 in *.
  destruct l as [|x l]; [done|]. apply Forall_cons in H3 as [Hx _]. destruct x; try (by destruct Hx). left.
Qed.

Lemma min_fold l : forall m0, let m := min_array m0 l in
  (m = m0 \/ m ∈ l) /\ at_most m m0 /\ Forall (fun x => at_most m x) l.
Proof.
  induction l as [|x l IH]; unfold min_array in *; cbn [fold_left]; intros m0.
  { split_ands; [by left|apply at_most_refl|constructor]. }
  destruct (IH (if ge_cmp m0 x then x else m0)) as (H1 & H2 & H3). unfold ge_cmp in *.
  rewrite elem_of_cons. destruct (Compare m0 x) eqn:E; split_ands.
  all: try (constructor; [|exact H3]).
  all: first [by destruct H1; [right; left|right; right] | by destruct H1; [left|right; right] | exact H2 | idtac].
  all: eapply at_most_trans; [exact H2|]; first [apply at_most_ge; by rewrite E | by rewrite E].
Qed.

(** Over a set the running minimum restarts after each [null], so [null] is
    passed over when there is another element. *)
Lemma min_set_fold l : forall m0, Equal m0 Null = false -> Forall (fun x => Equal x Null = false) l ->
  fold_left (fun m x => if Equal m Null then x else if ge_cmp m x then x else m) l m0 = min_array m0 l.
Proof.
  induction l as [|x l IH]; intros m0 H0 Hl; [done|]. apply Forall_cons in Hl as [Hx Hl].
  unfold min_array. cbn [fold_left]. rewrite H0. apply IH; [|done]. by destruct (ge_cmp m0 x).
Qed.

Lemma min_set_ok x l : Forall (fun x => Equal x Null = false) (x :: l) ->
  extreme (fun m x => at_most m x) (min_set (x :: l)) (x :: l).
Proof.
  intros [Hx Hl]%Forall_cons. unfold min_set. cbn [fold_left Equal]. rewrite Equal_refl, min_set_fold by done.
  destruct (min_fold l x) as (H1 & H2 & H3). split; [|by constructor].
  rewrite elem_of_cons. destruct H1; auto.
Qed.

Lemma min_array_ok x l : extreme (fun m x => at_most m x) (min_array x (x :: l)) (x :: l).
Proof.
  destruct (min_fold (x :: l) x) as (H1 & _ & H3). split; [|done].
  destruct H1 as [->|]; [left|done].
Qed.

Lemma insert_by_sorted x l : StronglySorted (fun a b => at_most a b) l ->
  StronglySorted (fun a b => at_most a b) (insert_by Compare id x l).
Proof.
  induction 1 as [|y l Hs IH Hy]; simpl; [by repeat constructor|].
  unfold id in *. destruct (Compare x y) eqn:E.
  1, 2: constructor; [by constructor|]; constructor; [by rewrite E|];
    eapply Forall_impl; [exact Hy|]; intros z; apply at_most_trans; by rewrite E.
  constructor; [done|]. rewrite (insert_by_perm Compare (fun v : value => v)). constructor; [by apply not_at_most|done].
Qed.

Lemma sort_by_sorted l : StronglySorted (fun a b => at_most a b) (sort_by Compare id l).
Proof. induction l as [|x l IH]; simpl; [constructor|by apply insert_by_sorted]. Qed.

Lemma until_existsb {A} (f : A -> bool) l : until f l = existsb f l.
Proof. induction l as [|x l IH]; simpl; [done|]. rewrite IH. by destruct (f x). Qed.

Lemma existsb_negb {A} (f : A -> bool) l : negb (existsb (fun x => negb (f x)) l) = forallb f l.
Proof. induction l as [|x l IH]; simpl; [done|]. rewrite <- IH. by destruct (f x). Qed.

(** On a collection that is not empty [max] and [min] give a greatest and a
    least element (over a set when it holds no [null]), [sort] an ordered
    permutation, [all] and [any] whether every and some element is [true], and
    membership whether some element equals the value; on an empty collection
    [max] and [min] are undefined. *)
Theorem aggregates_correct (l : list value) (y : value) :
  l <> [] ->
  (exists m, builtinMax (Array l) = iter_on m /\ builtinMax (SetV l) = iter_on m /\
    extreme (fun m x => at_most x m) m l) /\
  (exists m, builtinMin (Array l) = iter_on m /\ extreme (fun m x => at_most m x) m l) /\
  (Forall (fun x => Equal x Null = false) l ->
    exists m, builtinMin (SetV l) = iter_on m /\ extreme (fun m x => at_most m x) m l) /\
  (exists r, builtinSort (Array l) = iter_on (Array r) /\ r ≡ₚ l /\ StronglySorted (fun a b => at_most a b) r) /\
  builtinAll (Array l) = iter_on (Boolean (forallb (Equal (Boolean true)) l)) /\
  builtinAll (SetV l) = builtinAll (Array l) /\
  builtinAny (Array l) = iter_on (Boolean (existsb (Equal (Boolean true)) l)) /\
  builtinAny (SetV l) = builtinAny (Array l) /\
  builtinMember y (Array l) = iter_on (Boolean (existsb (Equal y) l)) /\
  builtinMember y (SetV l) = builtinMember y (Array l) /\
  builtinMax (Array []) = undefined /\ builtinMin (SetV []) = undefined.
Proof.
  intros Hl. destruct l as [|x l]; [done|].
  assert (Hy : forall l, existsb (fun v => Equal v y) l = existsb (Equal y) l).
  { intros l'. induction l' as [|z l' IH]; simpl; [done|]. by rewrite IH, Equal_sym. }
  split_ands; try done.
  - exists (max_loop (x :: l)). split_ands; [done..|]. by apply max_loop_ok.
  - exists (min_array x (x :: l)). split; [done|apply min_array_ok].
  - intros Hn. exists (min_set (x :: l)). split; [done|by apply min_set_ok].
  - eexists. split_ands; [done|apply (sort_by_perm Compare)|apply sort_by_sorted].
  - unfold builtinAll. by rewrite until_existsb, existsb_negb.
  - unfold builtinAny. by rewrite until_existsb.
  - unfold builtinAny. by rewrite until_existsb, set_mem_existsb.
  - unfold builtinMember. by rewrite until_existsb, Hy.
  - unfold builtinMember. by rewrite until_existsb, Hy, set_mem_existsb.
Qed.

Lemma aggregates_correct_witness :
  let l := [Number (NInt 3); Str "a"; Number (NInt 1)] in
  l <> [] /\ exists m, builtinMax (Array l) = iter_on m /\ extreme (fun m x => at_most x m) m l.
Proof.
  intros l. assert (H : l <> []) by discriminate.
  destruct (aggregates_correct l Null H) as [(m & E & _ & Hm) _]. split; [exact H|]. exists m. exact (conj E Hm).
Defined.

(** [min] of a set and of the array of its elements differ on [null]. *)
Lemma min_null :
  builtinMin (Array [Null; Number (NInt 1)]) = iter_on Null /\
  builtinMin (SetV [Null; Number (NInt 1)]) = iter_on (Number (NInt 1)).
Proof. by split. Qed.

(** ** Arrays *)
Ltac zcases := repeat match goal with |- context [(?a <? ?b)%Z] => destruct (Z.ltb_spec a b) end.

Definition clamp (lo hi i : Z) : Z := if (i <? lo)%Z then lo else if (hi <? i)%Z then hi else i.

Lemma slice_clamped {A} (l : list A) i j :
  let len := Z.of_nat (length l) in
  let j' := clamp 0 len j in
  let i' := clamp 0 j' i in
  slice l i' j' = Some (take (Z.to_nat (j' - i')) (drop (Z.to_nat i') l)).
Proof.
  intros len j' i'. unfold slice.
  assert (0 <= i' <= j' /\ j' <= len)%Z as [H1 H2].
  { subst i' j' len. unfold clamp. zcases; lia. }
  destruct (j' =? -1)%Z eqn:E; [lia|]. by destruct (_ && _)%Z eqn:B; [|lia].
Qed.

Lemma mapM_rev {A} (l : list A) : mapM (fun i => l !! (length l - i - 1)%nat) (seq 0 (length l)) = Some (rev l).
Proof.
  apply mapM_Some. apply Forall2_same_length_lookup_2; [by rewrite length_seq, length_rev|].
  intros k i x [-> Hk]%lookup_seq Hx. simpl. rewrite rev_alt in Hx. change (rev_append l []) with (reverse l) in Hx.
  rewrite reverse_lookup in Hx by done. rewrite <- Hx. f_equal. lia.
Qed.

(** [array.slice] never panics, and for integer bounds gives the elements
    from the clamped start up to the clamped stop; cutting an array in two and
    concatenating gives the array back, and [array.reverse] reverses. *)
Theorem array_builtins (arr : list value) (i j : Z) :
  in_int64 i = true -> in_int64 j = true ->
  let n x := Number (NInt x) in
  let len := Z.of_nat (length arr) in
  let j' := clamp 0 len j in
  let i' := clamp 0 j' i in
  builtinArraySlice (Array arr) (n i) (n j) =
    Some (iter_on (Array (take (Z.to_nat (j' - i')) (drop (Z.to_nat i') arr)))) /\
  (forall a b c, builtinArraySlice a b c <> None) /\
  (in_int64 len = true -> exists pre post,
    builtinArraySlice (Array arr) (n 0%Z) (n i) = Some (iter_on (Array pre)) /\
    builtinArraySlice (Array arr) (n i) (n len) = Some (iter_on (Array post)) /\
    builtinArrayConcat (Array pre) (Array post) = iter_on (Array arr)) /\
  builtinArrayReverse (Array arr) = Some (iter_on (Array (rev arr))).
Proof.
  intros Hi Hj n len j' i'.
  assert (S : forall i j, in_int64 i = true -> in_int64 j = true ->
    builtinArraySlice (Array arr) (n i) (n j) =
    option_map (fun l => iter_on (Array l)) (slice arr (clamp 0 (clamp 0 len j) i) (clamp 0 len j))).
  { intros a b Ha Hb. unfold builtinArraySlice. simpl. by rewrite Ha, Hb. }
  split_ands.
  - rewrite S by done. subst i' j' len. by rewrite slice_clamped.
  - intros a b c. unfold builtinArraySlice. destruct (ArrayOperand a 1) as [l|], (IntOperand b 2) as [x|], (IntOperand c 3) as [y|]; try done.
    cbv zeta. pose proof (slice_clamped l x y) as E. unfold clamp in E. cbv zeta in E. by rewrite E.
  - intros Hlen. rewrite !S by done. subst len. rewrite !slice_clamped. do 2 eexists. split_ands; [done..|].
    unfold builtinArrayConcat. simpl. do 3 f_equal.
    assert (E1 : clamp 0 (clamp 0 (Z.of_nat (length arr)) i) 0 = 0%Z).
    { unfold clamp. zcases; lia. }
    assert (E2 : clamp 0 (Z.of_nat (length arr)) (Z.of_nat (length arr)) = Z.of_nat (length arr)).
    { unfold clamp. zcases; lia. }
    rewrite E1, E2, drop_0, Z.sub_0_r. set (k := clamp 0 _ i).
    rewrite (take_ge (drop (Z.to_nat k) arr)) by (rewrite length_drop; lia). apply take_drop.
  - unfold builtinArrayReverse. simpl. by rewrite mapM_rev.
Qed.

Lemma array_builtins_witness :
  let arr := [Null; Boolean true; Str "a"] in
  in_int64 (-5) = true /\ in_int64 2 = true /\
  builtinArraySlice (Array arr) (Number (NInt (-5))) (Number (NInt 2)) = Some (iter_on (Array [Null; Boolean true])).
Proof.
  intros arr. assert (H1 : in_int64 (-5) = true) by reflexivity. assert (H2 : in_int64 2 = true) by reflexivity.
  split; [exact H1|]. split; [exact H2|]. rewrite (proj1 (array_builtins arr (-5) 2 H1 H2)). reflexivity.
Defined.

(** ** Objects *)
Abbreviation kv_distinct := (distinct Compare (fst : value * value -> value)).
Abbreviation kv_sorted := (ssorted Compare (fst : value * value -> value)).

Lemma obj_of_sorted l : kv_sorted (obj_of l).
Proof. apply fold_insert_kv_sorted. constructor. Qed.

Lemma obj_get_obj_of k l : kv_distinct l -> obj_get k (obj_of l) = obj_get k l.
Proof.
  intros D. unfold obj_of. rewrite (proj2 (fold_insert_kv_sorted l [] ltac:(constructor))).
  rewrite last_value_distinct by done. unfold obj_get at 2. by destruct (sfind Compare fst k l).
Qed.

Lemma obj_get_filter (p : value * value -> bool) k l : kv_distinct l ->
  obj_get k (obj_of (List.filter p l)) =
    match sfind Compare fst k l with Some kv => if p kv then Some kv.2 else None | None => None end.
Proof.
  intros D. rewrite obj_get_obj_of by (by apply distinct_filter). unfold obj_get.
  rewrite sfind_filter by done. destruct (sfind Compare fst k l) as [kv|]; [|done]. by destruct (p kv).
Qed.

Lemma sfind_map_snd {B} (f : value -> B) k (l : list (value * value)) :
  sfind Compare fst k (map (fun kv => (kv.1, f kv.2)) l) =
    option_map (fun kv => (kv.1, f kv.2)) (sfind Compare fst k l).
Proof. induction l as [|kv l IH]; simpl; [done|]. unfold same_key. simpl. destruct (Compare k kv.1); [done|exact IH..]. Qed.

Lemma keys_of_nulls k ks : ssorted Compare id ks ->
  obj_get k (obj_of (map (fun k => (k, Null)) ks)) = if set_mem k ks then Some Null else None.
Proof.
  intros Hs. rewrite obj_get_obj_of.
  - unfold obj_get, set_mem. clear Hs. induction ks as [|x ks IH]; simpl; [done|].
    unfold same_key, id in *. simpl. by destruct (Compare k x).
  - apply ssorted_distinct. induction Hs as [|x ks Hs IH Hx]; simpl; [constructor|constructor; [done|]].
    apply Forall_map. eapply Forall_impl; [exact Hx|]. done.
Qed.

(** The loop of [filterObject] over an object, with a filter that keeps members
    whole. *)
Lemma filter_loop (o f : list (value * value)) it : forall acc, kv_sorted acc ->
  (forall k, obj_get k f = None \/ obj_get k f = Some Null) ->
  exists r,
    res_fold (fun kv values =>
      match obj_get kv.1 (if (length o <? length f)%nat then o else f) with
      | Some _ =>
          match sfind Compare fst kv.1 (map (fun kv => (kv.1, filterObject kv.2)) o), obj_get kv.1 f with
          | Some r, Some subFilter => let? x := r.2 subFilter in Ok (obj_insert kv.1 x values)
          | _, _ => Ok values
          end
      | None => Ok values
      end) it acc = Ok r /\ kv_sorted r /\
    forall k, obj_get k r =
      match obj_get k o, obj_get k f with
      | Some v, Some _ => if existsb (fun kv : value * value => Equal k kv.1) it then Some v else obj_get k acc
      | _, _ => obj_get k acc
      end.
Proof.
  induction it as [|kv it IH]; intros acc Hacc Hf; cbn [res_fold existsb].
  { exists acc. split_ands; [done..|]. intros k. by destruct (obj_get k o), (obj_get k f). }
  rewrite sfind_map_snd. fold (obj_get kv.1 o).
  assert (Ho : obj_get kv.1 o = option_map snd (sfind Compare fst kv.1 o)) by done.
  destruct (sfind Compare fst kv.1 o) as [e|] eqn:Fo; destruct (obj_get kv.1 f) as [sf|] eqn:Ff; simpl in Ho;
    cbn [option_map].
  2, 3, 4: destruct (IH acc Hacc Hf) as (r & E & Hr & Hk); exists r; split_ands;
    [by destruct (obj_get kv.1 (if (length o <? length f)%nat then o else f)) |done|]; intros k; rewrite Hk;
    destruct (Equal k kv.1) eqn:Ek; [|done]; apply Equal_true in Ek; rewrite !(obj_get_congr k kv.1), Ho, ?Ff by done; done.
  destruct (Hf kv.1) as [?|E0]; [congruence|]. assert (sf = Null) as -> by congruence.
  assert (Ec : obj_get kv.1 (if (length o <? length f)%nat then o else f) <> None)
    by (by destruct (length o <? length f)%nat; rewrite ?Ho, ?Ff).
  destruct (obj_get kv.1 (if (length o <? length f)%nat then o else f)); [|done].
  cbn [fst snd option_map].
  assert (filterObject e.2 Null = Ok e.2) as -> by (destruct e as [? []]; done). cbn [res_bind].
  destruct (IH _ (obj_insert_sorted kv.1 e.2 acc Hacc) Hf) as (r & E & Hr & Hk).
  exists r. split_ands; [done..|]. intros k. rewrite Hk, obj_get_insert by done.
  destruct (Equal k kv.1) eqn:Ek; cbn [orb]; [|done]. apply Equal_true in Ek.
  rewrite !(obj_get_congr k kv.1), Ho, Ff by done. by destruct (existsb _ it).
Qed.

Lemma obj_get_existsb k (l : list (value * value)) v :
  obj_get k l = Some v -> existsb (fun kv : value * value => Equal k kv.1) l = true.
Proof.
  unfold obj_get. destruct (sfind Compare fst k l) as [e|] eqn:F; [|done]. intros _.
  apply sfind_Some_1 in F as [He E]. apply existsb_exists. exists e. split; [by apply list_elem_of_In|by apply Equal_true].
Qed.

Lemma filter_keys_ok (o : list (value * value)) ks : ssorted Compare id ks ->
  exists r, filterObject (Object o) (Object (obj_of (map (fun k => (k, Null)) ks))) = Ok (Object r) /\ kv_sorted r /\
    forall k, obj_get k r = if set_mem k ks then obj_get k o else None.
Proof.
  intros Hks. set (f := obj_of _).
  assert (Hf : forall k, obj_get k f = if set_mem k ks then Some Null else None) by (intros k; by apply keys_of_nulls).
  destruct (filter_loop o f (if (length o <? length f)%nat then f else o) [] ltac:(constructor))
    as (r & E & Hr & Hk). { intros k. rewrite Hf. destruct (set_mem k ks); auto. }
  exists r. split_ands; [|done|].
  - cbn [filterObject]. unfold Equal at 1. cbn [Compare sortOrder]. simpl. simpl in E. by rewrite E.
  - intros k. rewrite Hk. pose proof (Hf k) as Hfk. destruct (set_mem k ks).
    + rewrite Hfk. destruct (obj_get k o) as [v|] eqn:Go; [|done].
      by destruct (length o <? length f)%nat; erewrite obj_get_existsb by done.
    + rewrite Hfk. by destruct (obj_get k o).
Qed.

(** With keys given as an array, set or object, [object.remove] drops and
    [object.filter] keeps exactly the members with these keys; [object.keys]
    holds the keys, and [object.get] gives the member under a key or at a path
    and the default when there is none. *)
Theorem object_builtins (o : list (value * value)) (b d : value) (ks : list value) :
  kv_sorted o -> getObjectKeysParam b = Ok ks ->
  (exists r f, builtinObjectRemove (Object o) b = iter_on (Object r) /\
    builtinObjectFilter (Object o) b = iter_on (Object f) /\ kv_sorted r /\ kv_sorted f /\
    forall k, obj_get k r = (if set_mem k ks then None else obj_get k o) /\
              obj_get k f = (if set_mem k ks then obj_get k o else None)) /\
  (exists s, builtinObjectKeys (Object o) = iter_on (SetV s) /\
    forall k, set_mem k s = match obj_get k o with Some _ => true | None => false end) /\
  (forall k, (forall l, k <> Array l) ->
    builtinObjectGet (Object o) k d = iter_on (default d (obj_get k o))) /\
  (forall path, builtinObjectGet (Object o) (Array path) d = iter_on (default d (Find (Object o) path))).
Proof.
  intros Ho Hb. assert (Hks : ssorted Compare id ks).
  { destruct b; try discriminate Hb; simplify_eq/=; apply set_of_sorted. }
  pose proof (ssorted_distinct Compare fst o Ho) as D. split_ands.
  - destruct (filter_keys_ok o ks Hks) as (f & Ef & Hf & Hfk).
    eexists _, f. unfold builtinObjectRemove, builtinObjectFilter. simpl ObjectOperand. rewrite Hb. cbn [res_bind].
    rewrite Ef. split_ands; [done|done|apply obj_of_sorted|done|]. intros k. split; [|apply Hfk].
    rewrite obj_get_filter by done. unfold obj_get. destruct (sfind Compare fst k o) as [kv|] eqn:F; [|by destruct (set_mem k ks)].
    apply sfind_Some_1 in F as [_ E]. rewrite (set_mem_congr k kv.1) by done. by destruct (set_mem kv.1 ks).
  - eexists. split; [done|]. intros k. rewrite set_mem_set_of. unfold obj_get. clear D Ho Hb Hks.
    induction o as [|kv o IH]; simpl; [done|]. unfold same_key, Equal. by destruct (Compare k kv.1).
  - intros k Hk. unfold builtinObjectGet. simpl. destruct k; try (by destruct (obj_get _ o)). by destruct (Hk elems).
  - intros path. unfold builtinObjectGet. simpl. destruct path as [|p path]; [done|]. cbn [length Nat.eqb].
    change (Find (Object o) (p :: path)) with (match obj_get p o with Some x => Find x path | None => None end).
    destruct (obj_get p o); [|done]. by destruct (Find _ path).
Qed.

Lemma object_builtins_witness :
  let o := [(Str "a", Number (NInt 1)); (Str "b", Null)] in
  let b := Array [Str "b"; Str "c"] in
  kv_sorted o /\ getObjectKeysParam b = Ok [Str "b"; Str "c"] /\
  exists r f, builtinObjectRemove (Object o) b = iter_on (Object r) /\
    builtinObjectFilter (Object o) b = iter_on (Object f) /\
    obj_get (Str "a") r = Some (Number (NInt 1)) /\ obj_get (Str "b") f = Some Null.
Proof.
  intros o b. assert (H1 : kv_sorted o) by (repeat constructor).
  assert (H2 : getObjectKeysParam b = Ok [Str "b"; Str "c"]) by reflexivity.
  destruct (object_builtins o b Null _ H1 H2) as ((r & f & E1 & E2 & _ & _ & Hk) & _).
  split; [exact H1|]. split; [exact H2|]. exists r, f. split; [exact E1|]. split; [exact E2|].
  rewrite (proj1 (Hk (Str "a"))), (proj2 (Hk (Str "b"))). split; reflexivity.
Defined.
