(* ===== verification/Document.v ===== *)
(** Documents: values whose objects and sets, at every level, are sorted slices,
    as the operations of [src/ast/term.go] keep them, and whose arrays have a length
    that is an [int].  Equality of documents by
    their members, and lookup respects it. *)
From Stdlib Require Import ZArith Lia String.
From stdpp Require Import base list strings.
From S2P Require Import Prelude SortedKeys Value Containers SetTable ObjectTable RefOps Builtins.

Definition is_composite (v : value) : bool :=
  match v with Array _ | Object _ | SetV _ => true | _ => false end.

Inductive doc : value -> Prop :=
| doc_array l : in_int64 (Z.of_nat (length l)) = true -> Forall doc l -> doc (Array l)
| doc_object kvs : kv_sorted kvs -> Forall (fun kv => doc kv.2) kvs -> doc (Object kvs)
| doc_set l : ssorted Compare id l -> Forall doc l -> doc (SetV l)
| doc_leaf v : is_composite v = false -> doc v.

Lemma doc_array_inv l : doc (Array l) -> in_int64 (Z.of_nat (length l)) = true /\ Forall doc l.
Proof. inversion 1; done. Qed.
Lemma doc_object_inv kvs : doc (Object kvs) -> kv_sorted kvs /\ Forall (fun kv => doc kv.2) kvs.
Proof. inversion 1; done. Qed.
Lemma doc_set_inv l : doc (SetV l) -> ssorted Compare id l /\ Forall doc l.
Proof. inversion 1; done. Qed.

Lemma doc_induction (P : value -> Prop) :
  (forall l, in_int64 (Z.of_nat (length l)) = true -> Forall doc l -> Forall P l -> P (Array l)) ->
  (forall kvs, kv_sorted kvs -> Forall (fun kv => doc kv.2) kvs -> Forall (fun kv => P kv.2) kvs -> P (Object kvs)) ->
  (forall l, ssorted Compare id l -> Forall doc l -> Forall P l -> P (SetV l)) ->
  (forall v, is_composite v = false -> P v) -> forall v, doc v -> P v.
Proof.
  intros HA HO HS HL. apply (value_composite_ind (fun v => doc v -> P v)). intros v IH Hv.
  destruct v; try (by apply HL).
  - apply doc_array_inv in Hv as [Hl Hv]. apply HA; [done..|]. rewrite Forall_forall in *. auto.
  - apply doc_object_inv in Hv as [Hs Hv]. apply HO; [done..|]. rewrite Forall_forall in *. intros kv Hkv. by apply IH, Hv.
  - apply doc_set_inv in Hv as [Hs Hv]. apply HS; [done..|]. rewrite Forall_forall in *. auto.
Qed.

(** ** Equality of optional values *)
Definition oeq (a b : option value) : Prop :=
  match a, b with
  | Some x, Some y => Compare x y = Eq
  | None, None => True
  | _, _ => False
  end.

Lemma oeq_refl a : oeq a a.
Proof. destruct a; [apply (cmp_refl Compare)|done]. Qed.
Lemma oeq_of_eq a b : a = b -> oeq a b.
Proof. intros ->. apply oeq_refl. Qed.
Lemma oeq_trans a b c : oeq a b -> oeq b c -> oeq a c.
Proof. destruct a, b, c; simpl; try done. apply (cmp_eq_trans Compare). Qed.

Lemma obj_get_elem (l : list (value * value)) kv : kv_distinct l -> kv ∈ l -> obj_get kv.1 l = Some kv.2.
Proof.
  intros D Hkv. unfold obj_get. rewrite (proj2 (sfind_Some Compare fst kv.1 l kv D)); [done|].
  split; [done|apply (cmp_refl Compare)].
Qed.

Lemma obj_get_Some (l : list (value * value)) k v :
  obj_get k l = Some v -> exists kv, kv ∈ l /\ Compare k kv.1 = Eq /\ kv.2 = v.
Proof.
  unfold obj_get. destruct (sfind Compare fst k l) as [kv|] eqn:F; [|done]. intros [= <-].
  apply sfind_Some_1 in F as [Hkv E]. by exists kv.
Qed.

Lemma obj_get_doc kvs k v : doc (Object kvs) -> obj_get k kvs = Some v -> doc v.
Proof.
  intros [_ Hd]%doc_object_inv (kv & Hkv & _ & <-)%obj_get_Some. rewrite Forall_forall in Hd. by apply Hd.
Qed.

(** Objects are equal when every key finds equal members. *)
Lemma object_ext a b : kv_sorted a -> kv_sorted b ->
  (forall k, oeq (obj_get k a) (obj_get k b)) -> Compare (Object a) (Object b) = Eq.
Proof.
  intros Ha Hb E. simpl. apply slice_compare_eq_iff.
  pose proof (ssorted_distinct Compare fst a Ha) as Da. pose proof (ssorted_distinct Compare fst b Hb) as Db.
  assert (C : forall a b, kv_sorted a -> (forall k, oeq (obj_get k a) (obj_get k b)) -> covers Compare fst a b).
  { intros a' b' Ha' E' kv Hkv. specialize (E' kv.1).
    rewrite (obj_get_elem a' kv) in E' by (done || by apply ssorted_distinct).
    destruct (obj_get kv.1 b') as [w|] eqn:G; [|done]. apply obj_get_Some in G as (c & Hc & Ec & _). by exists c. }
  assert (E' : forall k, oeq (obj_get k b) (obj_get k a)).
  { intros k. specialize (E k). destruct (obj_get k a), (obj_get k b); try done. by apply (cmp_eq_sym Compare). }
  pose proof (ssorted_covers Compare fst a b Ha Hb (C _ _ Ha E) (C _ _ Hb E')) as F.
  apply Forall2_same_length_lookup_2; [by eapply Forall2_length|]. intros i x y Hx Hy.
  unfold pair_compare. apply cmp_then_eq. rewrite Forall2_lookup in F. specialize (F i). rewrite Hx, Hy in F.
  inversion F as [? ? Ek|]; subst. split; [done|]. specialize (E x.1).
  rewrite (obj_get_elem a x), (obj_get_congr x.1 y.1 b), (obj_get_elem b y) in E by (done || by eapply list_elem_of_lookup_2).
  exact E.
Qed.

Lemma object_ext_inv a b : Compare (Object a) (Object b) = Eq -> forall k, oeq (obj_get k a) (obj_get k b).
Proof.
  simpl. intros F%slice_compare_eq_iff k. unfold obj_get.
  induction F as [|x y a b E _ IH]; simpl; [done|]. unfold pair_compare in E. apply cmp_then_eq in E as [E1 E2].
  unfold same_key. rewrite (cmp_eq_r Compare k _ _ E1). by destruct (Compare k y.1).
Qed.

Lemma set_ext a b : ssorted Compare id a -> ssorted Compare id b ->
  (forall x, set_mem x a = set_mem x b) -> Compare (SetV a) (SetV b) = Eq.
Proof.
  intros Ha Hb E. simpl. apply slice_compare_eq_iff. apply (ssorted_covers Compare id); [done..| |];
    apply covers_existsb; intros x Hx; rewrite <- set_mem_existsb; [rewrite <- E|rewrite E];
    by rewrite set_mem_existsb, existsb_Equal_refl.
Qed.

Lemma set_ext_inv a b : Compare (SetV a) (SetV b) = Eq -> forall x, set_mem x a = set_mem x b.
Proof.
  simpl. intros F%slice_compare_eq_iff x. rewrite !set_mem_existsb.
  induction F as [|y z a b E _ IH]; simpl; [done|]. rewrite IH. unfold Equal. by rewrite (cmp_eq_r Compare x _ _ E).
Qed.

(** Lookup along a path respects equality of the document. *)
Lemma Find_congr path : forall v w, Compare v w = Eq -> oeq (Find v path) (Find w path).
Proof.
  induction path as [|p path IH]; intros v w E; [exact E|].
  pose proof (proj2 (Equal_true v w) E) as Eb. pose proof (Equal_sortOrder v w Eb) as O.
  destruct v, w; try discriminate O; cbn [Find]; try done.
  - apply Equal_Array in Eb as (ws & [= <-] & F). rewrite (Forall2_length _ _ _ F).
    destruct (array_index p (length elems0)) as [i|]; [|done].
    rewrite Forall2_lookup in F. specialize (F i). destruct F as [x y Exy|]; [|done]. by apply IH, Equal_true.
  - pose proof (object_ext_inv _ _ E p) as H. destruct (obj_get p kvs), (obj_get p kvs0); try done. by apply IH.
  - rewrite (set_ext_inv _ _ E p). destruct (set_mem p keys0); [|done]. apply oeq_refl.
Qed.
