(* ===== verification/ObjectUnion.v ===== *)
(** [object.union] and [object.union_n] ([src/topdown/object.go]).

    [object.union_n] merges the objects of an array from the last to the first
    into one result, in place, and remembers the terms of the result that a
    value which is no object has already overwritten ([frozenKeys], a set of term
    pointers).  A term of the result never moves, so its pointer is represented
    by the path of keys that leads to it.  The theorem shows that this gives the
    left-to-right union of the objects. *)
From Stdlib Require Import ZArith Lia String.
From stdpp Require Import base list strings.
From S2P Require Import Prelude SortedKeys Value Containers SetTable ObjectTable RefOps Builtins Document.

(** ** mergeWithOverwrite *)

(** The conflict resolver: the right value, unless both are objects.  Objects
    are merged by [object.MergeWith]: the members of the first, resolved against
    the second, then the members only the second has. *)
Fixpoint merge_terms (v1 v2 : value) {struct v1} : value :=
  match v1, v2 with
  | Object objA, Object objB =>
      let resolved := map (fun kv => (kv.1, match obj_get kv.1 objB with
                                            | None => kv.2
                                            | Some v2 => merge_terms kv.2 v2
                                            end)) objA in
      Object (fold_left (fun r kv => obj_insert kv.1 kv.2 r)
                (List.filter (fun kv => is_none (obj_get kv.1 objA)) objB)
                (fold_left (fun r kv => obj_insert kv.1 kv.2 r) resolved []))
  | _, _ => v2
  end.
Definition members (v : value) : list (value * value) := match v with Object kvs => kvs | _ => [] end.
Definition mergeWithOverwrite (objA objB : list (value * value)) : list (value * value) :=
  members (merge_terms (Object objA) (Object objB)).

Definition builtinObjectUnion (a b : value) : builtin_result :=
  let? objA := ObjectOperand a 1 in
  let? objB := ObjectOperand b 2 in
  iter_on (Object (mergeWithOverwrite objA objB)).

(** ** mergewithOverwriteInPlace *)
Definition path_eq (p q : list value) : bool := Equal (Array p) (Array q).
Definition is_frozen (p : list value) (frozenKeys : list (list value)) : bool := existsb (path_eq p) frozenKeys.

(** One round of the loop, [rec] the recursive call on the member. *)
Definition in_place_step (rec : list value -> list (value * value) * list (list value) -> list (value * value) * list (list value))
    (path : list value) (k v : value) (st : list (value * value) * list (list value)) :
    list (value * value) * list (list value) :=
  let '(obj, frozenKeys) := st in
  match obj_get k obj with
  | None => (obj_insert k v obj, frozenKeys)
  | Some v2 =>
      match v2, v with
      | Object original, Object _ =>
          if is_frozen (path ++ [k]) frozenKeys then st
          else
            let '(original, frozenKeys) := rec (path ++ [k]) (original, frozenKeys) in
            (obj_insert k (Object original) obj, frozenKeys)
      | _, _ => (obj, (path ++ [k]) :: frozenKeys)
      end
  end.
(** [path] leads to [obj] in the result. *)
Fixpoint mergewithOverwriteInPlace (other : value) (path : list value)
    (st : list (value * value) * list (list value)) {struct other} :
    list (value * value) * list (list value) :=
  match other with
  | Object kvs =>
      fold_left (fun st e => in_place_step e.2.2 path e.1 e.2.1 st)
        (map (fun kv => (kv.1, (kv.2, mergewithOverwriteInPlace kv.2))) kvs) st
  | _ => st
  end.

(** The loop from the last element to the first. *)
Fixpoint union_loop (arr : value) (l : list value) (st : list (value * value) * list (list value)) :
    res builtin_error (list (value * value)) :=
  match l with
  | [] => Ok st.1
  | Object o :: l => union_loop arr l (mergewithOverwriteInPlace (Object o) [] st)
  | x :: _ => Err (OperandElementErr 1 arr x ["object"%string])
  end.
Definition builtinObjectUnionN (a : value) : builtin_result :=
  let? arr := ArrayOperand a 1 in
  let? result := union_loop (Array arr) (rev arr) ([], []) in
  iter_on (Object result).

(** ** The union *)
Definition merged (a b : option value) : option value :=
  match a, b with
  | None, y => y
  | x, None => x
  | Some v1, Some v2 => Some (merge_terms v1 v2)
  end.

Lemma merge_sorted a b : kv_sorted (mergeWithOverwrite a b).
Proof. apply fold_insert_kv_sorted, fold_insert_kv_sorted. constructor. Qed.

Lemma distinct_map_snd (f : value * value -> value) l : kv_distinct l -> kv_distinct (map (fun kv => (kv.1, f kv)) l).
Proof. apply distinct_map_fst. by rewrite map_map. Qed.

Lemma obj_get_map_snd (f : value * value -> value) k l :
  obj_get k (map (fun kv => (kv.1, f kv)) l) = option_map f (sfind Compare fst k l).
Proof. unfold obj_get. induction l as [|kv l IH]; simpl; [done|]. unfold same_key. simpl. by destruct (Compare k kv.1). Qed.

Lemma last_value_get k l d : kv_distinct l ->
  last_value k l d = match obj_get k l with Some v => Some v | None => d end.
Proof. intros D. rewrite last_value_distinct by done. unfold obj_get. by destruct (sfind Compare fst k l). Qed.

Lemma merge_get k a b : kv_sorted a -> kv_sorted b ->
  obj_get k (mergeWithOverwrite a b) = merged (obj_get k a) (obj_get k b).
Proof.
  intros Ha%ssorted_distinct Hb%ssorted_distinct; [|apply _..]. unfold mergeWithOverwrite. cbn [members merge_terms].
  set (r := map _ a). assert (Hr : kv_distinct r) by (apply (distinct_map_snd _ a Ha)).
  destruct (fold_insert_kv_sorted r [] ltac:(constructor)) as [Hs Hg].
  rewrite (proj2 (fold_insert_kv_sorted _ _ Hs)), Hg, !last_value_get by (done || by apply distinct_filter).
  subst r. rewrite obj_get_map_snd. unfold obj_get at 1. rewrite sfind_filter by done.
  assert (Ga : forall kb, Compare k kb = Eq -> obj_get kb a = obj_get k a) by (intros x E; symmetry; by apply obj_get_congr).
  assert (Gb : forall ka, Compare k ka = Eq -> obj_get ka b = obj_get k b) by (intros x E; symmetry; by apply obj_get_congr).
  unfold obj_get in *. destruct (sfind Compare fst k b) as [kb|] eqn:Fb, (sfind Compare fst k a) as [ka|] eqn:Fa; simpl in *; try done.
  - rewrite (Ga kb.1), (Gb ka.1) by (by eapply sfind_Some_1). done.
  - rewrite (Ga kb.1) by (by eapply sfind_Some_1). done.
  - rewrite (Gb ka.1) by (by eapply sfind_Some_1). done.
Qed.

(** ** Paths *)
Lemma path_eq_cons k p l q : path_eq (k :: p) (l :: q) = Equal k l && path_eq p q.
Proof. unfold path_eq, Equal. simpl. by destruct (Compare k l). Qed.

Lemma path_eq_app p a b : path_eq (p ++ a) (p ++ b) = path_eq a b.
Proof. induction p as [|x p IH]; [done|]. simpl app. by rewrite path_eq_cons, Equal_refl. Qed.

Lemma path_eq_mid p k k' q s : Compare k k' = Eq -> path_eq (p ++ k :: q) s = path_eq (p ++ k' :: q) s.
Proof.
  intros E. revert s. induction p as [|x p IH]; intros [|y s]; simpl app; rewrite ?path_eq_cons; try done.
  - by rewrite (Equal_cong k k' y) by (by apply Equal_true).
  - by rewrite IH.
Qed.

Lemma is_frozen_mid p k k' q fz : Compare k k' = Eq -> is_frozen (p ++ k :: q) fz = is_frozen (p ++ k' :: q) fz.
Proof. intros E. unfold is_frozen. induction fz as [|s fz IH]; simpl; [done|]. by rewrite IH, (path_eq_mid p k k'). Qed.

Lemma is_frozen_app p a b : is_frozen p (a ++ b) = is_frozen p a || is_frozen p b.
Proof. apply existsb_app. Qed.

Lemma is_frozen_below p q A : is_frozen (p ++ q) (map (app p) A) = is_frozen q A.
Proof. unfold is_frozen. induction A as [|a A IH]; simpl; [done|]. by rewrite path_eq_app, IH. Qed.

Abbreviation ip := mergewithOverwriteInPlace.

(** Two frozen sets that say the same below two paths. *)
Definition agree (p : list value) (fz : list (list value)) (p' : list value) (fz' : list (list value)) : Prop :=
  forall q, is_frozen (p ++ q) fz = is_frozen (p' ++ q) fz'.

Lemma agree_app p fz p' fz' A : agree p fz p' fz' -> agree p (map (app p) A ++ fz) p' (map (app p') A ++ fz').
Proof. intros H q. by rewrite !is_frozen_app, !is_frozen_below, H. Qed.

Lemma agree_down p fz p' fz' k : agree p fz p' fz' -> agree (p ++ [k]) fz (p' ++ [k]) fz'.
Proof. intros H q. rewrite <- !app_assoc. apply H. Qed.

Lemma map_app_snoc (p : list value) k A : map (app (p ++ [k])) A = map (app p) (map (cons k) A).
Proof. rewrite map_map. apply map_ext. intros q. by rewrite <- app_assoc. Qed.

(** A merge reads and extends the frozen set below its path only. *)
Definition local_at (f : list value -> list (value * value) * list (list value) -> list (value * value) * list (list value)) : Prop :=
  forall r p fz p' fz', agree p fz p' fz' -> exists r' A,
    f p (r, fz) = (r', map (app p) A ++ fz) /\ f p' (r, fz') = (r', map (app p') A ++ fz') /\
    is_frozen [] A = false.

Lemma step_local rec k v r p fz p' fz' : local_at rec -> agree p fz p' fz' -> exists r' A,
  in_place_step rec p k v (r, fz) = (r', map (app p) (map (cons k) A) ++ fz) /\
  in_place_step rec p' k v (r, fz') = (r', map (app p') (map (cons k) A) ++ fz').
Proof.
  intros L H. unfold in_place_step. destruct (obj_get k r) as [v2|]; [|by eexists _, []].
  destruct v2; try (by eexists _, [[]]). destruct v; try (by eexists _, [[]]).
  rewrite <- (H [k]). destruct (is_frozen (p ++ [k]) fz); [by eexists _, []|].
  destruct (L kvs _ _ _ _ (agree_down _ _ _ _ k H)) as (r' & A & -> & -> & _).
  eexists _, A. by rewrite !map_app_snoc.
Qed.

Lemma ip_local v : local_at (ip v).
Proof.
  induction v as [v IH] using value_composite_ind. destruct v; try (intros r p fz p' fz' _; by eexists _, []).
  induction IH as [|kv kvs [_ IHv] _ IHk]; intros r p fz p' fz' H; [by eexists _, []|].
  destruct (step_local (ip kv.2) kv.1 kv.2 r p fz p' fz' IHv H) as (r1 & A1 & E1 & E1').
  destruct (IHk r1 p _ p' _ (agree_app p fz p' fz' (map (cons kv.1) A1) H)) as (r2 & A2 & E2 & E2' & N2).
  exists r2, (A2 ++ map (cons kv.1) A1). cbn [ip map fold_left fst snd] in *. rewrite E1, E1', E2, E2'.
  rewrite !map_app, <- !app_assoc. split_ands; [done..|]. rewrite is_frozen_app, N2. clear.
  induction A1; simpl; [done|exact IHA1].
Qed.

(** ** One key at a time *)
Definition both (v2 v : value) : option (list (value * value)) :=
  match v2, v with Object r, Object _ => Some r | _, _ => None end.
Definition cell (p : list value) (k v : value) (st : list (value * value) * list (list value)) : value :=
  match obj_get k st.1 with
  | None => v
  | Some v2 =>
      match both v2 v with
      | Some r => if is_frozen (p ++ [k]) st.2 then v2 else Object (ip v (p ++ [k]) (r, st.2)).1
      | None => v2
      end
  end.
Definition cell_frozen (p : list value) (k v : value) (st : list (value * value) * list (list value))
    (q : list value) : bool :=
  match obj_get k st.1 with
  | None => is_frozen (p ++ k :: q) st.2
  | Some v2 =>
      match both v2 v with
      | Some r => if is_frozen (p ++ [k]) st.2 then is_frozen (p ++ k :: q) st.2
                  else is_frozen (p ++ k :: q) (ip v (p ++ [k]) (r, st.2)).2
      | None => match q with [] => true | _ => is_frozen (p ++ k :: q) st.2 end
      end
  end.

Lemma cell_congr p k v st k' st' :
  obj_get k st.1 = obj_get k' st'.1 -> (forall q, is_frozen (p ++ k :: q) st.2 = is_frozen (p ++ k' :: q) st'.2) ->
  cell p k v st = cell p k' v st' /\ forall q, cell_frozen p k v st q = cell_frozen p k' v st' q.
Proof.
  intros E H. unfold cell, cell_frozen. rewrite E. destruct (obj_get k' st'.1) as [v2|]; [|done].
  destruct (both v2 v) as [r|]; [|split; [done|]; intros []; [done|apply H]].
  rewrite (H []). destruct (is_frozen (p ++ [k']) st'.2); [done|].
  destruct (ip_local v r (p ++ [k]) st.2 (p ++ [k']) st'.2) as (r' & A & -> & -> & _).
  { intros q. rewrite <- !app_assoc. apply H. }
  split; [done|]. intros q. simpl. rewrite !is_frozen_app, (H q). f_equal.
  change (k :: q) with ([k] ++ q). change (k' :: q) with ([k'] ++ q). by rewrite !app_assoc, !is_frozen_below.
Qed.

Abbreviation step p kv st := (in_place_step (ip kv.2) p kv.1 kv.2 st).

Lemma obj_insert_keep k k' v l : kv_sorted l -> Compare k k' <> Eq -> obj_get k (obj_insert k' v l) = obj_get k l.
Proof. intros Hl N. rewrite obj_get_insert by done. unfold Equal. by destruct (Compare k k'). Qed.

Lemma obj_insert_self k v l : kv_sorted l -> obj_get k (obj_insert k v l) = Some v.
Proof. intros Hl. by rewrite obj_get_insert, Equal_refl. Qed.

Lemma frozen_other p k k0 q A : Compare k k0 <> Eq -> is_frozen (p ++ k :: q) (map (app p) (map (cons k0) A)) = false.
Proof.
  intros N. rewrite is_frozen_below. unfold is_frozen. induction A as [|a A IH]; simpl; [done|].
  rewrite path_eq_cons, IH. unfold Equal. by destruct (Compare k k0).
Qed.

Lemma step_other p kv st k : kv_sorted st.1 -> Compare k kv.1 <> Eq ->
  obj_get k (step p kv st).1 = obj_get k st.1 /\
  forall q, is_frozen (p ++ k :: q) (step p kv st).2 = is_frozen (p ++ k :: q) st.2.
Proof.
  intros Hs N. destruct st as [obj fz]. simpl in Hs.
  destruct (step_local (ip kv.2) kv.1 kv.2 obj p fz p fz (ip_local _) ltac:(done)) as (r & A & E & _).
  split.
  - unfold in_place_step. destruct (obj_get kv.1 obj) as [v2|]; [|by apply obj_insert_keep].
    destruct v2, kv.2; try done. destruct (is_frozen _ _); [done|].
    destruct (ip _ _ _). by apply obj_insert_keep.
  - intros q. rewrite E. cbn [snd]. by rewrite is_frozen_app, frozen_other.
Qed.

Lemma step_same p kv st : kv_sorted st.1 ->
  kv_sorted (step p kv st).1 /\ obj_get kv.1 (step p kv st).1 = Some (cell p kv.1 kv.2 st) /\
  forall q, is_frozen (p ++ kv.1 :: q) (step p kv st).2 = cell_frozen p kv.1 kv.2 st q.
Proof.
  intros Hs. destruct st as [obj fz]. unfold in_place_step, cell, cell_frozen. cbn [fst snd] in *.
  destruct (obj_get kv.1 obj) as [v2|] eqn:G; cbn [fst snd].
  2: { split_ands; [by apply obj_insert_sorted|by apply obj_insert_self|done]. }
  destruct (both v2 kv.2) as [r|] eqn:B; cbn [fst snd].
  - destruct v2, kv as [k []]; try discriminate B. injection B as ->. cbn [fst snd] in *.
    destruct (is_frozen (p ++ [k]) fz); [done|]. destruct (ip _ _ _) as [r' fz']. cbn [fst snd].
    split_ands; [by apply obj_insert_sorted|by apply obj_insert_self|done].
  - assert (E : match v2, kv.2 with
      | Object original, Object _ =>
          if is_frozen (p ++ [kv.1]) fz then (obj, fz)
          else let '(original, frozenKeys) := ip kv.2 (p ++ [kv.1]) (original, fz) in
               (obj_insert kv.1 (Object original) obj, frozenKeys)
      | _, _ => (obj, (p ++ [kv.1]) :: fz)
      end = (obj, (p ++ [kv.1]) :: fz)) by (destruct v2, kv as [k []]; done).
    rewrite E. cbn [fst snd]. split_ands; [done..|]. intros q. unfold is_frozen. cbn [existsb].
    rewrite path_eq_app, path_eq_cons, Equal_refl. by destruct q.
Qed.

Lemma obj_get_cons k kv (kvs : list (value * value)) :
  obj_get k (kv :: kvs) = if Equal k kv.1 then Some kv.2 else obj_get k kvs.
Proof. unfold obj_get, Equal. simpl. unfold same_key. by destruct (Compare k kv.1). Qed.

Lemma fold_cells p kvs : forall st, kv_distinct kvs -> kv_sorted st.1 ->
  let st' := ip (Object kvs) p st in
  kv_sorted st'.1 /\ forall k,
    obj_get k st'.1 = (match obj_get k kvs with None => obj_get k st.1 | Some v => Some (cell p k v st) end) /\
    forall q, is_frozen (p ++ k :: q) st'.2 =
      match obj_get k kvs with None => is_frozen (p ++ k :: q) st.2 | Some v => cell_frozen p k v st q end.
Proof.
  induction kvs as [|kv kvs IH]; intros st D Hs; [done|]. inversion D as [|? ? Hn D']; subst.
  destruct (step_same p kv st Hs) as (Hs1 & G1 & F1). set (st1 := step p kv st) in *.
  destruct (IH st1 D' Hs1) as (Hs2 & H2). change (ip (Object (kv :: kvs)) p st) with (ip (Object kvs) p st1).
  split; [done|]. intros k. destruct (H2 k) as [G2 F2]. setoid_rewrite F2. rewrite G2. clear IH H2.
  rewrite obj_get_cons. destruct (Equal k kv.1) eqn:E.
  - apply Equal_true in E. assert (obj_get k kvs = None) as ->.
    { unfold obj_get. rewrite (proj2 (sfind_None Compare fst k kvs)); [done|].
      eapply Forall_impl; [exact Hn|]. intros c Hc' Ec. apply Hc'.
      apply (cmp_eq_trans Compare _ k); [by apply (cmp_eq_sym Compare)|done]. }
    destruct (cell_congr p k kv.2 st kv.1 st) as [C1 C2].
    { by apply obj_get_congr. } { intros q. by apply is_frozen_mid. }
    rewrite C1, (obj_get_congr k kv.1) by done. split; [done|]. intros q. by rewrite C2, <- F1, (is_frozen_mid p k kv.1).
  - assert (N : Compare k kv.1 <> Eq) by (by rewrite <- Equal_true, E).
    destruct (step_other p kv st k Hs N) as [O1 O2].
    destruct (obj_get k kvs) as [v|]; [|done]. destruct (cell_congr p k v st1 k st O1 O2) as [-> C]. split; [done|apply C].
Qed.

(** ** Frozen keys are keys of the result *)
Fixpoint reaches (v : value) (q : list value) : bool :=
  match q with
  | [] => true
  | k :: q =>
      match v with
      | Object kvs => match obj_get k kvs with Some x => reaches x q | None => false end
      | _ => false
      end
  end.
Definition fresh (p : list value) (st : list (value * value) * list (list value)) : Prop :=
  forall q, is_frozen (p ++ q) st.2 = true -> reaches (Object st.1) q = true.

Lemma fresh_none p R fz k q : fresh p (R, fz) -> obj_get k R = None -> is_frozen (p ++ k :: q) fz = false.
Proof.
  intros F G. destruct (is_frozen (p ++ k :: q) fz) eqn:E; [|done].
  specialize (F (k :: q) E). simpl in F. by rewrite G in F.
Qed.

Lemma fresh_get p R fz k w q : fresh p (R, fz) -> obj_get k R = Some w -> is_frozen (p ++ k :: q) fz = true -> reaches w q = true.
Proof. intros F G E. specialize (F (k :: q) E). simpl in F. by rewrite G in F. Qed.

Lemma fresh_down p R fz k r : fresh p (R, fz) -> obj_get k R = Some (Object r) -> fresh (p ++ [k]) (r, fz).
Proof. intros F G q. rewrite <- app_assoc. by apply (fresh_get p R). Qed.

Lemma both_Some v2 v r : both v2 v = Some r -> v2 = Object r /\ exists kvs, v = Object kvs.
Proof. destruct v2, v; intros E; try discriminate E. injection E as ->. eauto. Qed.

Lemma merge_terms_not_both v1 v2 : both v2 v1 = None -> merge_terms v1 v2 = v2.
Proof. by destruct v1, v2. Qed.

Lemma both_merge w vx vo : both w (merge_terms vx vo) = both w vo.
Proof. destruct w; try done. by destruct vx, vo. Qed.

Lemma doc_object_get kvs : kv_sorted kvs -> (forall k v, obj_get k kvs = Some v -> doc v) -> doc (Object kvs).
Proof.
  intros Hs H. apply doc_object; [done|]. apply Forall_forall. intros kv Hkv. apply (H kv.1).
  apply obj_get_elem; [by apply ssorted_distinct|done].
Qed.

Lemma doc_sorted kvs : doc (Object kvs) -> kv_sorted kvs.
Proof. intros H. by apply doc_object_inv in H as [? _]. Qed.
#[local] Hint Resolve doc_sorted merge_sorted : core.

Lemma cells p kvs st : doc (Object kvs) -> doc (Object st.1) ->
  let st' := ip (Object kvs) p st in
  kv_sorted st'.1 /\ forall k,
    obj_get k st'.1 = (match obj_get k kvs with None => obj_get k st.1 | Some v => Some (cell p k v st) end) /\
    forall q, is_frozen (p ++ k :: q) st'.2 =
      match obj_get k kvs with None => is_frozen (p ++ k :: q) st.2 | Some v => cell_frozen p k v st q end.
Proof. intros H1 H2. apply fold_cells; [apply ssorted_distinct|]; auto. Qed.

Lemma merge_doc v1 : doc v1 -> forall v2, doc v2 -> doc (merge_terms v1 v2).
Proof.
  induction 1 as [| kvs Hs Hd IH | |v Hv] using doc_induction; intros v2 H2; try done.
  2: { by destruct v. }
  destruct v2 as [| | | | | | |b| | | | |]; try done. assert (H1 : doc (Object kvs)) by (by apply doc_object).
  change (doc (Object (mergeWithOverwrite kvs b))). apply doc_object_get; [auto|]. intros k v.
  rewrite merge_get by auto. destruct (obj_get k kvs) as [x|] eqn:Gx, (obj_get k b) as [y|] eqn:Gy; simpl; intros [= <-].
  - apply obj_get_Some in Gx as (kv & Hkv & _ & <-). rewrite Forall_forall in IH. apply (IH kv Hkv). by apply (obj_get_doc b k).
  - by apply (obj_get_doc kvs k).
  - by apply (obj_get_doc b k).
Qed.

Lemma ip_doc v : doc v -> forall p R fz, doc (Object R) -> doc (Object (ip v p (R, fz)).1).
Proof.
  induction 1 as [| kvs Hs Hd IH | |v Hv] using doc_induction; intros p R fz HR; try done.
  2: { by destruct v. }
  assert (H1 : doc (Object kvs)) by (by apply doc_object).
  destruct (cells p kvs (R, fz) H1 HR) as [Hs' Hk]. apply doc_object_get; [done|]. intros k v.
  rewrite (proj1 (Hk k)). destruct (obj_get k kvs) as [x|] eqn:Gx; [|by apply (obj_get_doc R k)]. intros [= <-].
  unfold cell. cbn [fst snd]. destruct (obj_get k R) as [w|] eqn:Gw; [|by apply (obj_get_doc kvs k)].
  pose proof (obj_get_doc R k w HR Gw) as Hw. destruct (both w x) as [r|] eqn:B; [|done].
  destruct (is_frozen _ _); [done|]. apply both_Some in B as [-> [xs ->]].
  apply obj_get_Some in Gx as (kv & Hkv & _ & Ev). rewrite Forall_forall in IH. specialize (IH kv Hkv). rewrite Ev in IH.
  by apply IH.
Qed.

Lemma member_IH (P : value * value -> Prop) kvs k v :
  Forall P kvs -> obj_get k kvs = Some v -> exists k', P (k', v).
Proof.
  intros H (kv & Hkv & _ & <-)%obj_get_Some. rewrite Forall_forall in H. exists kv.1.
  specialize (H kv Hkv). by destruct kv.
Qed.

Lemma ip_fresh v : doc v -> forall p R fz, doc (Object R) -> fresh p (R, fz) -> fresh p (ip v p (R, fz)).
Proof.
  induction 1 as [| kvs Hs Hd IH | |v Hv] using doc_induction; intros p R fz HR F; try done.
  2: { by destruct v. }
  destruct (cells p kvs (R, fz) ltac:(by apply doc_object) HR) as [Hs' Hk]. intros [|k q] Hq; [done|].
  cbn [reaches]. destruct (Hk k) as [G Z]. rewrite G. rewrite Z in Hq. clear G Z Hk. cbn [fst snd] in *.
  destruct (obj_get k kvs) as [vo|] eqn:Go.
  2: { pose proof (F (k :: q) Hq) as H. by simpl in H. }
  unfold cell, cell_frozen in *. cbn [fst snd] in *.
  destruct (obj_get k R) as [w|] eqn:Gw; [|by rewrite (fresh_none p R) in Hq].
  destruct (both w vo) as [r|] eqn:B.
  - destruct (is_frozen (p ++ [k]) fz) eqn:Z; [by apply (fresh_get p R fz k)|].
    apply both_Some in B as [-> [xs ->]].
    destruct (member_IH _ _ _ _ IH Go) as [k' H]. cbn [snd] in H.
    apply (H (p ++ [k]) r fz (obj_get_doc _ _ _ HR Gw) (fresh_down _ _ _ _ _ F Gw) q). by rewrite <- app_assoc.
  - destruct q as [|k' q]; [done|]. by apply (fresh_get p R fz k).
Qed.

(** Merging into a part of the result that holds no frozen key. *)
Lemma ip_unfrozen v : doc v -> forall p o fz, doc (Object o) -> (forall k q, is_frozen (p ++ k :: q) fz = false) ->
  is_composite v = true -> (exists kvs, v = Object kvs) ->
  Compare (Object (ip v p (o, fz)).1) (merge_terms v (Object o)) = Eq.
Proof.
  induction 1 as [| kvs Hs Hd IH | |v Hv] using doc_induction; intros p o fz Ho F C [kvs' E]; try done.
  2: { by rewrite C in Hv. }
  assert (H1 : doc (Object kvs)) by (by apply doc_object).
  destruct (cells p kvs (o, fz) H1 Ho) as [Hs' Hk].
  change (merge_terms (Object kvs) (Object o)) with (Object (mergeWithOverwrite kvs o)).
  apply object_ext; [done|auto|]. intros k. rewrite (proj1 (Hk k)), merge_get by auto. unfold cell. cbn [fst snd].
  destruct (obj_get k kvs) as [v|] eqn:Gv; [|apply oeq_refl].
  destruct (obj_get k o) as [w|] eqn:Gw; [|apply oeq_refl]. cbn [merged].
  destruct (both w v) as [r|] eqn:B; [|rewrite merge_terms_not_both by done; apply oeq_refl].
  rewrite (F k []). apply both_Some in B as [-> [xs ->]].
  destruct (member_IH _ _ _ _ IH Gv) as [k0 H]. apply H; [by apply (obj_get_doc o k)| |done|eauto].
  intros k' q. rewrite <- app_assoc. apply F.
Qed.

(** Merging [o] and then [x] is merging the union of [x] and [o]. *)
Lemma ip_ip o : doc (Object o) -> forall x p R fz, doc (Object x) -> doc (Object R) -> fresh p (R, fz) ->
  Compare (Object (ip (Object x) p (ip (Object o) p (R, fz))).1)
          (Object (ip (Object (mergeWithOverwrite x o)) p (R, fz)).1) = Eq.
Proof.
  intros Ho. remember (Object o) as v eqn:Ev. revert o Ev.
  induction Ho as [| kvs Hs Hd IH | |v Hv] using doc_induction; intros o E; try discriminate E.
  2: { by rewrite E in Hv. }
  injection E as <-. intros x p R fz Hx HR F. assert (Ho : doc (Object kvs)) by (by apply doc_object).
  pose proof (merge_doc _ Hx _ Ho) as Hm. change (doc (Object (mergeWithOverwrite x kvs))) in Hm.
  set (S1 := ip (Object kvs) p (R, fz)). assert (H1 : doc (Object S1.1)) by (by apply ip_doc).
  destruct (cells p kvs (R, fz) Ho HR) as [_ K1]. fold S1 in K1.
  destruct (cells p x S1 Hx H1) as [Hs2 K2]. destruct (cells p _ (R, fz) Hm HR) as [Hs3 K3].
  apply object_ext; [done..|]. intros k. rewrite (proj1 (K2 k)), (proj1 (K3 k)), merge_get by auto.
  destruct (K1 k) as [G1 F1]. clear K1 K2 K3. cbn [fst snd] in *.
  destruct (obj_get k x) as [vx|] eqn:Gx, (obj_get k kvs) as [vo|] eqn:Go; cbn [merged]; try (apply oeq_of_eq; exact G1).
  2: { apply oeq_of_eq. f_equal. by apply cell_congr. }
  unfold cell at 1. rewrite G1. unfold cell, cell_frozen in *. cbn [fst snd] in *.
  rewrite (F1 []).
  destruct (obj_get k R) as [w|] eqn:Gw.
  2: { rewrite (fresh_none p R) by done. destruct (both vo vx) as [r|] eqn:B.
    - apply both_Some in B as [-> [xs ->]]. apply ip_unfrozen; [by apply (obj_get_doc x k)|by apply (obj_get_doc kvs k)| |done|eauto].
      intros k' q. rewrite <- app_assoc. change ([k] ++ k' :: q) with (k :: k' :: q). rewrite F1. by apply (fresh_none p R).
    - rewrite merge_terms_not_both by done. apply oeq_refl. }
  rewrite both_merge. destruct (both w vo) as [r|] eqn:B; [|destruct (both w vx); apply oeq_refl].
  destruct (is_frozen (p ++ [k]) fz) eqn:Zk; [destruct (both w vx); apply oeq_refl|].
  apply both_Some in B as [-> [os ->]].
  destruct (ip_local (Object os) r (p ++ [k]) fz (p ++ [k]) fz ltac:(done)) as (r1 & A & E1 & _ & N). rewrite E1 in *.
  cbn [fst snd] in *.
  destruct (both (Object r1) vx) as [r1'|] eqn:B1.
  2: { rewrite merge_terms_not_both by (by destruct vx). rewrite E1. apply oeq_refl. }
  apply both_Some in B1 as [[= <-] [xs ->]].
  assert (Z0 : is_frozen (p ++ [k]) (map (app (p ++ [k])) A) = false).
  { rewrite <- (app_nil_r (p ++ [k])) at 1. by rewrite is_frozen_below. }
  rewrite is_frozen_app, Zk, Z0. cbn [orb].
  destruct (ip_local (Object xs) r1 (p ++ [k]) S1.2 (p ++ [k]) (map (app (p ++ [k])) A ++ fz)) as (r2 & A2 & -> & E2 & _).
  { intros q. rewrite <- app_assoc. apply F1. }
  destruct (member_IH _ _ _ _ IH Go) as [k' H]. cbn [snd] in H.
  specialize (H os eq_refl xs (p ++ [k]) r fz (obj_get_doc _ _ _ Hx Gx) (obj_get_doc _ _ _ HR Gw) (fresh_down _ _ _ _ _ F Gw)).
  rewrite E1, E2 in H. exact H.
Qed.

Definition run_back (objs : list (list (value * value))) (st : list (value * value) * list (list value)) :
    list (value * value) * list (list value) :=
  foldr (fun o st => ip (Object o) [] st) st objs.

Lemma union_loop_ok arr objs : forall st, union_loop arr (rev (map Object objs)) st = Ok (run_back objs st).1.
Proof.
  assert (H : forall l l' st, union_loop arr (map Object l ++ l') st =
    union_loop arr l' (fold_left (fun st o => ip (Object o) [] st) l st)).
  { induction l as [|o l IH]; intros l' st; [done|]. apply IH. }
  intros st. rewrite <- map_rev, <- (app_nil_r (map _ _)), H. simpl. unfold run_back.
  by rewrite <- (rev_involutive objs) at 2; rewrite fold_left_rev_right.
Qed.

Lemma run_back_ok objs st : Forall (fun o => doc (Object o)) objs -> doc (Object st.1) -> fresh [] st ->
  doc (Object (run_back objs st).1) /\ fresh [] (run_back objs st).
Proof.
  intros Ho. induction Ho as [|o objs Ho _ IH]; intros Hd Hf; [done|]. destruct (IH Hd Hf) as [H1 H2].
  cbn [run_back foldr]. fold (run_back objs st). destruct (run_back objs st) as [R fz].
  split; [by apply ip_doc|by apply ip_fresh].
Qed.

Lemma run_back_merge objs st : Forall (fun o => doc (Object o)) objs -> doc (Object st.1) -> fresh [] st ->
  forall x, doc (Object x) ->
  Compare (Object (ip (Object x) [] (run_back objs st)).1)
          (Object (ip (Object (fold_left mergeWithOverwrite objs x)) [] st).1) = Eq.
Proof.
  intros Ho Hd Hf. induction Ho as [|o objs Ho Hos IH]; intros x Hx; [apply (cmp_refl Compare)|].
  cbn [fold_left run_back foldr]. fold (run_back objs st).
  destruct (run_back_ok objs st Hos Hd Hf) as [H1 H2]. specialize (IH (mergeWithOverwrite x o) (merge_doc _ Hx _ Ho)).
  destruct (run_back objs st) as [R fz] eqn:E. eapply (cmp_eq_trans Compare); [|exact IH]. by apply ip_ip.
Qed.

(** C20: [object.union_n] of an array of objects, computed from the last object
    to the first in place with frozen keys, equals the union of the objects from
    the left to the right; it fails on the last element that is no object. *)
Theorem union_n_is_union (objs : list (list (value * value))) (l : list value) (x : value) :
  Forall (fun o => doc (Object o)) objs -> (forall o, x <> Object o) ->
  (exists r, builtinObjectUnionN (Array (map Object objs)) = iter_on (Object r) /\
    Equal (Object r) (Object (fold_left mergeWithOverwrite objs [])) = true) /\
  (forall a b, builtinObjectUnion (Object a) (Object b) = iter_on (Object (mergeWithOverwrite a b))) /\
  builtinObjectUnionN (Array (l ++ x :: map Object objs)) =
    Err (OperandElementErr 1 (Array (l ++ x :: map Object objs)) x ["object"%string]).
Proof.
  intros Ho Hx. assert (Hnil : doc (Object [])) by (apply doc_object; constructor).
  assert (Hf : fresh [] ([], [])) by (intros q; done). split_ands.
  - exists (run_back objs ([], [])).1. unfold builtinObjectUnionN. cbn [ArrayOperand res_bind]. rewrite union_loop_ok.
    split; [done|]. apply Equal_true. pose proof (run_back_merge objs ([], []) Ho Hnil Hf [] Hnil) as E.
    cbn [ip map fold_left] in E. eapply (cmp_eq_trans Compare); [exact E|].
    assert (Hm : doc (Object (fold_left mergeWithOverwrite objs []))).
    { clear E Hx. revert Hnil. generalize (@nil (value * value)). induction Ho as [|o objs Ho _ IH]; intros m Hm; [done|].
      simpl. apply IH. by apply (merge_doc _ Hm _ Ho). }
    destruct (cells [] _ ([], []) Hm Hnil) as [Hs Hk]. cbn [ip] in Hs, Hk.
    apply object_ext; [done|by apply doc_sorted|]. intros k. rewrite (proj1 (Hk k)).
    unfold cell. simpl. destruct (obj_get k _); apply oeq_refl.
  - done.
  - unfold builtinObjectUnionN. cbn [ArrayOperand res_bind]. set (arr := Array _).
    rewrite rev_app_distr. simpl rev. rewrite <- app_assoc, <- map_rev. generalize ([] : list (value * value), [] : list (list value)).
    induction (rev objs) as [|o os IH]; intros st; simpl; [|apply IH]. destruct x; try done. by destruct (Hx kvs).
Qed.

Lemma union_n_is_union_witness :
  let n i := Number (NInt (Z.of_nat i)) in
  let objs := [[(Str "a", Object [(Str "b", n 2)])]; [(Str "a", n 4)]; [(Str "a", Object [(Str "c", n 3)])]] in
  Forall (fun o => doc (Object o)) objs /\
  exists r, builtinObjectUnionN (Array (map Object objs)) = iter_on (Object r) /\
    Equal (Object r) (Object [(Str "a", Object [(Str "c", n 3)])]) = true.
Proof.
  intros n objs.
  assert (S : forall k v, doc v -> doc (Object [(Str k, v)])).
  { intros k v Hv. apply doc_object; [repeat constructor|]. apply Forall_cons_2; [exact Hv|apply Forall_nil_2]. }
  assert (N : forall i, doc (n i)) by (intros i; apply doc_leaf; reflexivity).
  assert (H : Forall (fun o => doc (Object o)) objs).
  { apply Forall_cons_2; [apply S, S, N|]. apply Forall_cons_2; [apply S, N|].
    apply Forall_cons_2; [apply S, S, N|]. apply Forall_nil_2. }
  split; [exact H|]. destruct (union_n_is_union objs [] Null H) as [(r & E1 & E2) _]; [intros o Eo; discriminate Eo|].
  exists r. split; [exact E1|]. exact E2.
Defined.
