(* ===== verification/Subset.v ===== *)
(** [object.subset] ([src/topdown/subset.go]): the search for an array inside an
    array, inclusion of sets, and the recursive inclusion of objects.  The
    theorem gives the relation that the functions decide, shows that it is a
    preorder, and that a union contains its right operand. *)
From Stdlib Require Import ZArith Lia String.
From stdpp Require Import base list strings.
From S2P Require Import Prelude SortedKeys Value Containers SetTable ObjectTable RefOps Builtins Document ObjectUnion.

(** ** Arrays *)

(** The cursors of the loop; [None] when an index is out of range or the fuel is
    used up. *)
Fixpoint subset_loop (fuel : nat) (super sub : list value) (superCursor subCursor : nat) : option bool :=
  match fuel with
  | O => None
  | S fuel =>
      if (subCursor =? length sub)%nat then Some true
      else if (superCursor + subCursor =? length super)%nat then Some false
      else
        match sub !! subCursor, super !! (superCursor + subCursor)%nat with
        | Some subElem, Some superElem =>
            if Equal superElem subElem then subset_loop fuel super sub superCursor (S subCursor)
            else subset_loop fuel super sub (S superCursor) 0
        | _, _ => None
        end
  end.
Definition arraySubset (super sub : list value) : bool :=
  if (length super <? length sub)%nat then false
  else if Equal (Array sub) (Array super) then true
  else default false (subset_loop (S (length super * S (length sub) + length sub)) super sub 0 0).

(** ** Sets *)
Definition setSubset (super sub : list value) : bool :=
  negb (until (fun t => negb (set_mem t super)) sub).

(** [arraySetSubset]: [unmatched] counts down at every element of the array that
    is in the set. *)
Fixpoint unmatched_loop (unmatched : Z) (sub super : list value) : bool :=
  match super with
  | [] => false
  | t :: super =>
      let unmatched := if set_mem t sub then (unmatched - 1)%Z else unmatched in
      if (unmatched =? 0)%Z then true else unmatched_loop unmatched sub super
  end.
Definition arraySetSubset (super sub : list value) : bool :=
  unmatched_loop (Z.of_nat (length sub)) sub super.

(** ** Objects *)

(** The body of the loop of [objectSubset] after the lookup of the key. *)
Fixpoint term_subset (superTerm subTerm : value) {struct subTerm} : bool :=
  if Equal subTerm superTerm then true
  else match superTerm, subTerm with
  | Object super, Object sub =>
      negb (until (fun kv => match obj_get kv.1 super with
                             | None => true
                             | Some superTerm => negb (term_subset superTerm kv.2)
                             end) sub)
  | SetV super, SetV sub => setSubset super sub
  | Array super, Array sub => arraySubset super sub
  | _, _ => false
  end.
Definition objectSubset (super sub : list (value * value)) : bool :=
  negb (until (fun kv => match obj_get kv.1 super with
                         | None => true
                         | Some superTerm => negb (term_subset superTerm kv.2)
                         end) sub).

Definition builtinObjectSubset (superTerm subTerm : value) : builtin_result :=
  match superTerm, subTerm with
  | Object super, Object sub => iter_on (Boolean (objectSubset super sub))
  | SetV super, SetV sub => iter_on (Boolean (setSubset super sub))
  | Array super, Array sub => iter_on (Boolean (arraySubset super sub))
  | Array super, SetV sub => iter_on (Boolean (arraySetSubset super sub))
  | _, _ => Err (PlainErr "both arguments object.subset must be of the same type or array and set")
  end.

(** * The relation *)
Abbreviation eqv x y := (Equal x y = true).
(** [sub] stands at position [i] of [super]. *)
Definition at_pos (super sub : list value) (i : nat) : Prop :=
  Forall2 (fun x y => eqv x y) (take (length sub) (drop i super)) sub.
Definition infix (super sub : list value) : Prop :=
  exists pre mid post, super = pre ++ mid ++ post /\ Forall2 (fun x y => eqv x y) mid sub.

Inductive within : value -> value -> Prop :=
| within_equal w v : eqv v w -> within w v
| within_object a b :
    (forall k v, obj_get k b = Some v -> exists w, obj_get k a = Some w /\ within w v) ->
    within (Object a) (Object b)
| within_set a b : (forall x, set_mem x b = true -> set_mem x a = true) -> within (SetV a) (SetV b)
| within_array a b : infix a b -> within (Array a) (Array b).

(** ** The search *)
Lemma at_pos_infix super sub i : at_pos super sub i -> infix super sub.
Proof.
  intros H. exists (take i super), (take (length sub) (drop i super)), (drop (length sub) (drop i super)).
  by rewrite !take_drop.
Qed.

Lemma infix_at_pos super sub : infix super sub -> exists i, at_pos super sub i /\ (i + length sub <= length super)%nat.
Proof.
  intros (pre & mid & post & -> & F). exists (length pre). unfold at_pos.
  rewrite drop_app_length, <- (Forall2_length _ _ _ F), take_app_length. rewrite !length_app. split; [done|lia].
Qed.

Lemma at_pos_lookup super sub i j x y :
  at_pos super sub i -> sub !! j = Some y -> super !! (i + j)%nat = Some x -> eqv x y.
Proof.
  intros F Hy Hx. unfold at_pos in F. rewrite Forall2_lookup in F. specialize (F j).
  rewrite Hy, lookup_take_lt, lookup_drop, Hx in F by (by eapply lookup_lt_Some). by inversion F.
Qed.

Lemma matched_at_pos super sub i :
  (i + length sub <= length super)%nat ->
  (forall j x y, sub !! j = Some y -> super !! (i + j)%nat = Some x -> eqv x y) -> at_pos super sub i.
Proof.
  intros L H. unfold at_pos. apply Forall2_same_length_lookup_2.
  { rewrite length_take, length_drop. lia. }
  intros j x y [Hx Hj]%lookup_take_Some Hy. rewrite lookup_drop in Hx. by apply (H j).
Qed.

(** At cursors [c] and [j]: nothing starts before [c], and the first [j]
    elements match at [c]. *)
Lemma subset_loop_ok super sub fuel : forall c j,
  (c + j <= length super)%nat -> (j <= length sub)%nat ->
  (forall i, (i < c)%nat -> (i + length sub <= length super)%nat -> ~ at_pos super sub i) ->
  (forall i x y, (i < j)%nat -> sub !! i = Some y -> super !! (c + i)%nat = Some x -> eqv x y) ->
  ((length super - c) * S (length sub) + (length sub - j) < fuel)%nat ->
  exists b, subset_loop fuel super sub c j = Some b /\ (b = true <-> infix super sub).
Proof.
  induction fuel as [|fuel IH]; intros c j Hc Hj Hno Hm Hf; [by apply Nat.nlt_0_r in Hf|]. cbn [subset_loop].
  destruct (Nat.eqb_spec j (length sub)) as [Ej|Ej]; [|destruct (Nat.eqb_spec (c + j) (length super)) as [Ec|Ec]].
  - exists true. split; [done|]. split; [intros _|done]. apply (at_pos_infix super sub c), matched_at_pos; [lia|].
    intros i x y Hy Hx. apply (Hm i); [|done..]. apply lookup_lt_Some in Hy. lia.
  - exists false. split; [done|]. split; [done|]. intros (i & Hi & L)%infix_at_pos. exfalso.
    destruct (decide (i < c)%nat); [by apply (Hno i)|lia].
  - destruct (lookup_lt_is_Some_2 sub j ltac:(lia)) as [y Hy].
    destruct (lookup_lt_is_Some_2 super (c + j) ltac:(lia)) as [x Hx]. rewrite Hy, Hx.
    destruct (Equal x y) eqn:E.
    + apply IH; try lia; [done|]. intros i x' y' Hi Hy' Hx'. destruct (decide (i = j)) as [->|]; [congruence|].
      by apply (Hm i); [lia|..].
    + assert ((length super - c) = S (length super - S c)) as Hd by lia. rewrite Hd in Hf.
      apply IH; try lia. intros i Hi L Ha. destruct (decide (i = c)) as [->|]; [|by apply (Hno i); [lia|..]].
      by rewrite (at_pos_lookup super sub c j x y) in E.
Qed.

Lemma Equal_Array_iff a b : eqv (Array a) (Array b) <-> Forall2 (fun x y => eqv x y) a b.
Proof.
  split; [by intros (b' & [= <-] & F)%Equal_Array|]. intros F. apply Equal_true. simpl.
  apply slice_compare_eq_iff. eapply Forall2_impl; [exact F|]. intros x y. apply Equal_true.
Qed.

Lemma eqv_sym x y : eqv x y -> eqv y x.
Proof. by rewrite Equal_sym. Qed.

Lemma arraySubset_ok super sub : arraySubset super sub = true <-> infix super sub.
Proof.
  unfold arraySubset. destruct (length super <? length sub)%nat eqn:L.
  { apply Nat.ltb_lt in L. split; [done|]. intros (i & _ & Hi)%infix_at_pos. lia. }
  destruct (Equal (Array sub) (Array super)) eqn:E.
  - split; [intros _|done]. exists [], super, []. rewrite app_nil_r. split; [done|]. by apply Equal_Array_iff, eqv_sym.
  - apply Nat.ltb_ge in L. destruct (subset_loop_ok super sub (S (length super * S (length sub) + length sub)) 0 0)
      as (b & -> & Hb); [lia|lia|intros i; lia|intros i x y; lia|rewrite !Nat.sub_0_r; lia|exact Hb].
Qed.

Lemma until_false {A} (f : A -> bool) l : negb (until f l) = true <-> Forall (fun x => f x = false) l.
Proof.
  rewrite until_existsb. induction l as [|x l IH]; simpl; [by split|].
  rewrite Forall_cons, <- IH. destruct (f x); naive_solver.
Qed.

Lemma setSubset_ok super sub :
  setSubset super sub = true <-> forall x, set_mem x sub = true -> set_mem x super = true.
Proof.
  unfold setSubset. rewrite until_false, Forall_forall. split.
  - intros H x (y & Hy & E)%set_mem_true. rewrite (set_mem_congr x y) by done. specialize (H y Hy). by destruct (set_mem y super).
  - intros H x Hx. rewrite H; [done|]. apply set_mem_true. exists x. split; [done|apply (cmp_refl Compare)].
Qed.

(** ** The relation on values of one kind *)
Lemma within_objects a b : within (Object a) (Object b) <->
  forall k v, obj_get k b = Some v -> exists w, obj_get k a = Some w /\ within w v.
Proof.
  split; [|by constructor]. inversion 1 as [? ? E| ? ? E | |]; subst; [|done]. intros k v G.
  pose proof (object_ext_inv _ _ (proj1 (Equal_true _ _) E) k) as Ek. rewrite G in Ek.
  destruct (obj_get k a) as [w|]; [|done]. exists w. split; [done|]. by apply within_equal, Equal_true.
Qed.

Lemma within_sets a b : within (SetV a) (SetV b) <-> forall x, set_mem x b = true -> set_mem x a = true.
Proof.
  split; [|by constructor]. inversion 1 as [? ? E| | |]; subst; [|done]. intros x.
  by rewrite (set_ext_inv _ _ (proj1 (Equal_true _ _) E)).
Qed.

Lemma within_arrays a b : within (Array a) (Array b) <-> infix a b.
Proof.
  split; [|by constructor]. inversion 1 as [? ? E| | |]; subst; [|done].
  exists [], a, []. rewrite app_nil_r. split; [done|]. by apply Equal_Array_iff, eqv_sym.
Qed.

Lemma within_kind w v : within w v -> sortOrder w = sortOrder v.
Proof. destruct 1 as [w v E| | |]; [|done..]. symmetry. by apply Equal_sortOrder. Qed.

Lemma within_leaf w v : is_composite v = false -> within w v <-> eqv v w.
Proof. intros L. split; [|by constructor]. by inversion 1; subst. Qed.

Lemma Forall_get (P : value -> value -> Prop) (l : list (value * value)) : kv_sorted l ->
  (forall k k' v, Compare k k' = Eq -> P k v -> P k' v) ->
  Forall (fun kv => P kv.1 kv.2) l <-> forall k v, obj_get k l = Some v -> P k v.
Proof.
  intros Hs C. rewrite Forall_forall. split.
  - intros H k v (kv & Hkv & E & <-)%obj_get_Some. apply (C kv.1); [by apply (cmp_eq_sym Compare)|by apply H].
  - intros H kv Hkv. apply H, obj_get_elem; [by apply ssorted_distinct|done].
Qed.

Lemma term_subset_ok v : doc v -> forall w, term_subset w v = true <-> within w v.
Proof.
  induction 1 as [l Hl Hd IH|kvs Hs Hd IH|l Hs Hd IH|v Hv] using doc_induction; intros w.
  4: rewrite within_leaf by done; destruct (Equal v w) eqn:E; destruct v, w; try discriminate Hv; cbn [term_subset]; by rewrite E.
  all: cbn [term_subset]; match goal with |- context [Equal ?v ?w] => destruct (Equal v w) eqn:E end;
    try (split; [intros _; by apply within_equal|done]).
  - destruct w; try (split; [done|intros H%within_kind; done]). rewrite within_arrays. apply arraySubset_ok.
  - destruct w as [| | | | | | |a| | | | |]; try (split; [done|intros H%within_kind; done]).
    rewrite within_objects, until_false.
    rewrite <- (Forall_get (fun k v => exists w, obj_get k a = Some w /\ within w v)); [|done|].
    2: { intros k k' v Ek. by rewrite (obj_get_congr k k'). }
    rewrite !Forall_forall. rewrite Forall_forall in IH. split; intros H kv Hkv; specialize (H kv Hkv).
    + destruct (obj_get kv.1 a) as [x|]; [|done]. exists x. split; [done|]. apply (IH kv Hkv).
      by destruct (term_subset x kv.2).
    + destruct H as (x & -> & Hx). apply (IH kv Hkv) in Hx. by rewrite Hx.
  - destruct w; try (split; [done|intros H%within_kind; done]). rewrite within_sets. apply setSubset_ok.
Qed.

Lemma within_refl v : within v v.
Proof. apply within_equal, Equal_refl. Qed.

Lemma infix_trans a b c : infix a b -> infix b c -> infix a c.
Proof.
  intros (p & m & q & -> & F) (p' & m' & q' & -> & F').
  apply Forall2_app_inv_r in F as (m1 & m2 & F1 & F2 & ->). apply Forall2_app_inv_r in F2 as (m3 & m4 & F3 & F4 & ->).
  exists (p ++ m1), m3, (m4 ++ q). split; [by rewrite <- !app_assoc|].
  apply Forall2_same_length_lookup_2; [by rewrite (Forall2_length _ _ _ F3), (Forall2_length _ _ _ F')|].
  intros i x z Hx Hz. rewrite Forall2_lookup in F3, F'. specialize (F3 i). specialize (F' i). rewrite Hx in F3.
  rewrite Hz in F'. destruct (m' !! i) as [y|]; [|by inversion F3]. inversion F3; inversion F'; subst. by eapply Equal_trans.
Qed.

Lemma within_trans c : doc c -> forall a b, within a b -> within b c -> within a c.
Proof.
  induction 1 as [l Hl Hd IH|kvs Hs Hd IH|l Hs Hd IH|v Hv] using doc_induction; intros a b Hab Hbc.
  all: pose proof (within_kind _ _ Hab) as Ka; pose proof (within_kind _ _ Hbc) as Kb.
  - destruct b; try discriminate Kb. destruct a; try discriminate Ka. rewrite within_arrays in *. by eapply infix_trans.
  - destruct b as [| | | | | | |b| | | | |]; try discriminate Kb. destruct a as [| | | | | | |a| | | | |]; try discriminate Ka.
    rewrite within_objects in *. intros k v G. destruct (Hbc k v G) as (w & Gw & Hw).
    destruct (Hab k w Gw) as (x & Gx & Hx). exists x. split; [done|].
    destruct (member_IH _ _ _ _ IH G) as [k' H]. by eapply H.
  - destruct b; try discriminate Kb. destruct a; try discriminate Ka. rewrite within_sets in *. auto.
  - rewrite within_leaf in Hbc |- * by done. assert (is_composite b = false) by (by destruct b, v).
    rewrite within_leaf in Hab by done. by eapply Equal_trans.
Qed.

Lemma within_merge v : doc v -> forall a, doc a -> within (merge_terms a v) v.
Proof.
  induction 1 as [l Hl Hd IH|kvs Hs Hd IH|l Hs Hd IH|v Hv] using doc_induction; intros a Ha.
  1, 3, 4: rewrite merge_terms_not_both by (try (by destruct v); done); apply within_refl.
  destruct a as [| | | | | | |a| | | | |]; try apply within_refl.
  change (within (Object (mergeWithOverwrite a kvs)) (Object kvs)). apply within_objects. intros k v G.
  exists (match obj_get k a with Some x => merge_terms x v | None => v end). split.
  { rewrite merge_get, G by (done || by apply doc_sorted). by destruct (obj_get k a). }
  destruct (obj_get k a) as [x|] eqn:Gx; [|apply within_refl].
  destruct (member_IH _ _ _ _ IH G) as [k' H]. apply H. by apply (obj_get_doc a k).
Qed.

Lemma builtin_subset_ok a b : doc b -> is_composite a = true -> sortOrder a = sortOrder b ->
  exists r, builtinObjectSubset a b = iter_on (Boolean r) /\ (r = true <-> within a b).
Proof.
  intros Hb C K. destruct a as [| | | | | |a|a|a| | | |]; try discriminate C; destruct b as [| | | | | |b|b|b| | | |]; try discriminate K.
  - eexists. split; [done|]. rewrite within_arrays. apply arraySubset_ok.
  - eexists. split; [done|]. rewrite within_objects. unfold objectSubset. rewrite until_false.
    apply doc_object_inv in Hb as [Hs Hd].
    rewrite <- (Forall_get (fun k v => exists w, obj_get k a = Some w /\ within w v)); [|done|].
    2: { intros k k' v Ek. by rewrite (obj_get_congr k k'). }
    rewrite !Forall_forall. rewrite Forall_forall in Hd. split; intros H kv Hkv; specialize (H kv Hkv).
    + destruct (obj_get kv.1 a) as [x|]; [|done]. exists x. split; [done|]. apply term_subset_ok; [by apply Hd|].
      by destruct (term_subset x kv.2).
    + destruct H as (x & -> & Hx). apply term_subset_ok in Hx; [by rewrite Hx|by apply Hd].
  - eexists. split; [done|]. rewrite within_sets. apply setSubset_ok.
Qed.

(** C27: On two objects, sets or arrays [object.subset] decides [within]: equal
    values, objects whose members are, key by key, within the members of the
    other, sets by membership, arrays as a contiguous part.  It is reflexive and
    transitive, and a union contains its right operand. *)
Theorem subset_correct (a b c : value) :
  doc a -> doc b -> doc c -> is_composite a = true -> sortOrder a = sortOrder b -> sortOrder b = sortOrder c ->
  let holds x y := builtinObjectSubset x y = iter_on (Boolean true) in
  (exists r, builtinObjectSubset a b = iter_on (Boolean r) /\ (r = true <-> within a b)) /\
  holds a a /\ (holds a b -> holds b c -> holds a c) /\
  (forall u, builtinObjectUnion a b = iter_on u -> holds u b).
Proof.
  intros Ha Hb Hc C K1 K2 holds. assert (Cb : is_composite b = true) by (by destruct a, b).
  destruct (builtin_subset_ok a b Hb C K1) as (r & E & Hr).
  assert (D : forall x y, doc y -> is_composite x = true -> sortOrder x = sortOrder y -> holds x y <-> within x y).
  { intros x y Hy Cx Kxy. destruct (builtin_subset_ok x y Hy Cx Kxy) as (r' & E' & Hr'). unfold holds. rewrite E', <- Hr'.
    split; [by intros [= ->]|by intros ->]. }
  split_ands.
  - by exists r.
  - apply D; [done..|]. apply within_refl.
  - rewrite (D a b), (D b c), (D a c) by (done || congruence). by apply within_trans.
  - intros u. destruct a as [| | | | | | |a| | | | |]; try done. destruct b as [| | | | | | |b| | | | |]; try done. intros [= <-].
    apply D; [done..|]. by apply (within_merge (Object b) Hb (Object a)).
Qed.

Lemma subset_correct_witness :
  let n i := Number (NInt (Z.of_nat i)) in
  let a := Array [n 1; n 2; n 3]%nat in let b := Array [n 2; n 3]%nat in
  doc a /\ doc b /\ builtinObjectSubset a b = iter_on (Boolean true) /\ within a b.
Proof.
  intros n a b.
  assert (N : forall l, in_int64 (Z.of_nat (length (map n l))) = true -> doc (Array (map n l))).
  { intros l Hl. apply doc_array; [exact Hl|]. clear Hl. induction l as [|i l IH]; [apply Forall_nil_2|].
    apply Forall_cons_2; [apply doc_leaf; reflexivity|exact IH]. }
  assert (Ha : doc a) by exact (N [1; 2; 3]%nat eq_refl). assert (Hb : doc b) by exact (N [2; 3]%nat eq_refl).
  destruct (subset_correct a b b Ha Hb Hb eq_refl eq_refl eq_refl) as [(r & E & Hr) _].
  assert (E' : builtinObjectSubset a b = iter_on (Boolean true)) by (vm_compute; reflexivity).
  split; [exact Ha|]. split; [exact Hb|]. split; [exact E'|]. apply Hr. rewrite E' in E. injection E as <-. reflexivity.
Defined.

(** A set is looked for in an array by counting: repeated elements of the array
    count more than once, and the empty set is not found in the empty array. *)
Lemma array_set_subset_miscounts :
  let n i := Number (NInt (Z.of_nat i)) in
  builtinObjectSubset (Array [n 1; n 1]%nat) (SetV [n 1; n 2]%nat) = iter_on (Boolean true) /\
  builtinObjectSubset (Array []) (SetV []) = iter_on (Boolean false).
Proof. by split. Qed.
