(* ===== verification/Reachable.v ===== *)
(** [graph.reachable] and [graph.reachable_paths] ([src/topdown/reachable.go]).

    A graph is an object from vertices to their neighbours, given as an array or
    a set.  [graph.reachable] works off a queue, which may hold a vertex several
    times; the theorem shows that it ends and that it returns the vertices of
    the graph that can be reached. *)
From Stdlib Require Import ZArith Lia String.
From stdpp Require Import base list strings.
From S2P Require Import Prelude SortedKeys Value Containers SetTable ObjectTable RefOps Builtins Document.

(** [foreachVertex] visits these, in this order. *)
Definition vertices (collection : value) : list value :=
  match collection with SetV l | Array l => l | _ => [] end.
Definition numberOfEdges (collection : value) : nat := length (vertices collection).

Section Graph.
Context (graph : list (value * value)).

(** The loop of [builtinReachable]. *)
Fixpoint reach_loop (fuel : nat) (queue reached : list value) : option (list value) :=
  match fuel with
  | O => None
  | S fuel =>
      match queue with
      | [] => Some reached
      | node :: rest =>
          match obj_get node graph with
          | Some edges =>
              let new := List.filter (fun neighbor => negb (set_mem neighbor reached)) (vertices edges) in
              reach_loop fuel (rest ++ new) (set_insert node reached)
          | None => reach_loop fuel rest reached
          end
      end
  end.

(** [pathBuilder] with the sets [edgeRslt] and [reached] that it updates.  The
    slice [paths] belongs to one call: it grows with every path committed in the
    call. *)
Definition path_state : Type := list value * list value.
Fixpoint each_neighbor (visit : value -> path_state -> option path_state) (root : value) (path paths : list value)
    (l : list value) (st : path_state) : option path_state :=
  match l with
  | [] => Some st
  | neighbor :: l =>
      let '(edgeRslt, reached) := st in
      if set_mem neighbor reached then
        let paths := paths ++ path in
        each_neighbor visit root path paths l (set_insert (Array paths) edgeRslt, reached)
      else
        match visit neighbor (edgeRslt, set_insert root reached) with
        | Some st => each_neighbor visit root path paths l st
        | None => None
        end
  end.
Fixpoint pathBuilder (fuel : nat) (root : value) (path : list value) (st : path_state) : option path_state :=
  match fuel with
  | O => None
  | S fuel =>
      match obj_get root graph with
      | Some edges =>
          let path := path ++ [root] in
          if (1 <=? numberOfEdges edges)%nat
          then each_neighbor (fun n st => pathBuilder fuel n path st) root path [] (vertices edges) st
          else Some (set_insert (Array path) st.1, st.2)
      | None => Some (set_insert (Array path) st.1, st.2)
      end
  end.
(** The loops of [builtinReachablePaths]; every call starts with a new set
    [reached] that holds the vertex of the queue. *)
Fixpoint paths_from (fuel : nat) (node : value) (l : list value) (traceResult : list value) : option (list value) :=
  match l with
  | [] => Some traceResult
  | neighbor :: l =>
      match pathBuilder fuel neighbor [node] (traceResult, [node]) with
      | Some st => paths_from fuel node l st.1
      | None => None
      end
  end.
Fixpoint paths_loop (fuel : nat) (queue traceResult : list value) : option (list value) :=
  match queue with
  | [] => Some traceResult
  | node :: queue =>
      match obj_get node graph with
      | Some edges =>
          match (if (1 <=? numberOfEdges edges)%nat then paths_from fuel node (vertices edges) traceResult
                 else Some (set_insert (Array [node]) traceResult)) with
          | Some traceResult => paths_loop fuel queue traceResult
          | None => None
          end
      | None => paths_loop fuel queue traceResult
      end
  end.
End Graph.

Definition builtinReachable (fuel : nat) (a b : value) : option builtin_result :=
  match ObjectOperand a 1 with
  | Err e => Some (Err e)
  | Ok graph =>
      match b with
      | Array _ | SetV _ => option_map (fun r => iter_on (SetV r)) (reach_loop graph fuel (vertices b) [])
      | _ => Some (Err (OperandTypeErr 2 b ["{array, set}"%string]))
      end
  end.
(** Along a branch of the recursion a vertex is entered at most twice, which bounds
    its depth. *)
Definition builtinReachablePaths (a b : value) : option builtin_result :=
  match ObjectOperand a 1 with
  | Err e => Some (Err e)
  | Ok graph =>
      match b with
      | Array _ | SetV _ =>
          option_map (fun r => iter_on (SetV r)) (paths_loop graph (2 * length graph + 3) (vertices b) [])
      | _ => Some (Err (OperandTypeErr 2 b ["{array, set}"%string]))
      end
  end.

(** * Lemmas *)
Section Lemmas.
Context (graph : list (value * value)).

(** Vertices of the graph that are not in [reached]. *)
Definition unreached (reached : list value) : nat :=
  length (List.filter (fun kv => negb (set_mem kv.1 reached)) graph).

Definition in_graph (n : value) : Prop := exists e, obj_get n graph = Some e.

Lemma in_graph_dec n : in_graph n \/ obj_get n graph = None.
Proof. unfold in_graph. destruct (obj_get n graph); eauto. Qed.

Lemma filter_length_le {A} (f g : A -> bool) l : (forall x, x ∈ l -> f x = true -> g x = true) ->
  (length (List.filter f l) <= length (List.filter g l))%nat.
Proof.
  induction l as [|x l IH]; intros H; [done|]. simpl.
  assert (IH' := IH ltac:(intros; apply H; [by right|done])). specialize (H x ltac:(left)).
  destruct (f x); [rewrite H by done; simpl; lia|]. destruct (g x); simpl; lia.
Qed.

Lemma filter_length_lt {A} (f g : A -> bool) l x : (forall x, x ∈ l -> f x = true -> g x = true) ->
  x ∈ l -> f x = false -> g x = true -> (length (List.filter f l) < length (List.filter g l))%nat.
Proof.
  induction l as [|y l IH]; intros H Hx Ef Eg; [by apply not_elem_of_nil in Hx|]. simpl.
  assert (Hl := filter_length_le f g l ltac:(intros; apply H; [by right|done])).
  apply elem_of_cons in Hx as [->|Hx].
  - rewrite Ef, Eg. simpl. lia.
  - assert (IH' := IH ltac:(intros; apply H; [by right|done]) Hx Ef Eg). specialize (H y ltac:(left)).
    destruct (f y); [rewrite H by done; simpl; lia|]. destruct (g y); simpl; lia.
Qed.

Lemma unreached_le r r' : (forall x, set_mem x r = true -> set_mem x r' = true) -> (unreached r' <= unreached r)%nat.
Proof.
  intros H. apply filter_length_le. intros kv _ E. specialize (H kv.1). destruct (set_mem kv.1 r); [by rewrite H in E|done].
Qed.

Lemma unreached_insert n r : ssorted Compare id r -> in_graph n -> set_mem n r = false ->
  (unreached (set_insert n r) < unreached r)%nat.
Proof.
  intros Hs [e (kv & Hkv & E & _)%obj_get_Some] Hn. apply (filter_length_lt _ _ graph kv).
  - intros x _. rewrite set_mem_insert by done. by destruct (Equal x.1 n).
  - done.
  - rewrite set_mem_insert, Equal_sym by done. apply Equal_true in E. by rewrite E.
  - by rewrite <- (set_mem_congr n kv.1), Hn.
Qed.

Lemma unreached_bound r : (unreached r <= length graph)%nat.
Proof.
  unfold unreached. induction graph as [|kv g IH]; simpl; [done|]. destruct (negb _); simpl; lia.
Qed.

Abbreviation loop := (reach_loop graph).

Lemma set_insert_present n r x : ssorted Compare id r -> set_mem n r = true ->
  set_mem x (set_insert n r) = set_mem x r.
Proof.
  intros Hs Hn. rewrite set_mem_insert by done. destruct (Equal x n) eqn:E; [|done].
  by rewrite (set_mem_congr x n), Hn by (by apply Equal_true).
Qed.

Definition ends (queue reached : list value) : Prop := exists fuel r, loop fuel queue reached = Some r.

Lemma ends_step node rest reached :
  ends (match obj_get node graph with
        | Some edges => rest ++ List.filter (fun n => negb (set_mem n reached)) (vertices edges)
        | None => rest
        end)
       (match obj_get node graph with Some _ => set_insert node reached | None => reached end) ->
  ends (node :: rest) reached.
Proof. intros (fuel & r & E). exists (S fuel), r. simpl. by destruct (obj_get node graph). Qed.

(** A vertex that will be reached for the first time. *)
Definition pending (reached : list value) (n : value) : Prop := in_graph n /\ set_mem n reached = false.

(** Once such a vertex is in the queue, the loop gets to it. *)
Lemma ends_pending u : (forall q r, ssorted Compare id r -> (unreached r < u)%nat -> ends q r) ->
  forall i q r x, ssorted Compare id r -> (unreached r <= u)%nat -> q !! i = Some x -> pending r x -> ends q r.
Proof.
  intros IHu. induction i as [|i IH]; intros [|node rest] r x Hs Hu Hx [Hg Hr]; try discriminate Hx.
  - injection Hx as ->. apply ends_step. destruct Hg as [e G]. rewrite G. apply IHu; [by apply set_insert_ssorted|].
    assert (L := unreached_insert x r Hs ltac:(by eexists) Hr). lia.
  - simpl in Hx. apply ends_step. destruct (obj_get node graph) as [e|] eqn:G; [|by apply (IH _ _ x)].
    destruct (set_mem node r) eqn:Hn.
    + apply (IH _ _ x); [by apply set_insert_ssorted| |by apply lookup_app_l_Some|].
      * etransitivity; [apply unreached_le|exact Hu]. intros y Hy. by rewrite set_insert_present.
      * split; [done|]. by rewrite set_insert_present.
    + apply IHu; [by apply set_insert_ssorted|].
      assert (L := unreached_insert node r Hs ltac:(by eexists) Hn). lia.
Qed.

(** Without one, the queue gets lighter. *)
Definition weight (n : value) : nat :=
  match obj_get n graph with Some edges => S (length (vertices edges)) | None => 1 end.

Lemma sum_outside l : Forall (fun n => obj_get n graph = None) l -> sum_list_with weight l = length l.
Proof. induction 1 as [|n l Hn _ IH]; simpl; [done|]. rewrite IH. unfold weight. by rewrite Hn. Qed.

Lemma pending_dec r l : (exists i x, l !! i = Some x /\ pending r x) \/ Forall (fun n => obj_get n graph = None \/ set_mem n r = true) l.
Proof.
  induction l as [|n l IH]; [right; constructor|]. destruct (in_graph_dec n) as [Hn|Hn].
  - destruct (set_mem n r) eqn:E; [|left; by exists 0%nat, n].
    destruct IH as [(i & x & Hi)|IH]; [left; by exists (S i), x|right; constructor; auto].
  - destruct IH as [(i & x & Hi)|IH]; [left; by exists (S i), x|right; constructor; auto].
Qed.

Lemma ends_light u : (forall q r, ssorted Compare id r -> (unreached r < u)%nat -> ends q r) ->
  forall w q r, ssorted Compare id r -> (unreached r <= u)%nat -> (sum_list_with weight q <= w)%nat -> ends q r.
Proof.
  intros IHu. induction w as [|w IH]; intros q r Hs Hu Hw.
  { destruct q as [|n q]; [by exists 1%nat, r|]. exfalso. simpl in Hw. unfold weight at 1 in Hw.
    destruct (obj_get n graph); lia. }
  destruct (pending_dec r q) as [(i & x & Hx & Hp)|Hq]; [by apply (ends_pending u IHu i q r x)|].
  destruct q as [|n q]; [by exists 1%nat, r|]. apply Forall_cons in Hq as [Hn Hq]. simpl in Hw.
  apply ends_step. unfold weight at 1 in Hw. destruct (obj_get n graph) as [e|] eqn:G; [|apply IH; [done..|lia]].
  destruct Hn as [|Hn]; [done|].
  assert (Hu' : (unreached (set_insert n r) <= u)%nat).
  { etransitivity; [apply unreached_le|exact Hu]. intros y Hy. by rewrite set_insert_present. }
  set (new := List.filter _ (vertices e)).
  destruct (pending_dec (set_insert n r) new) as [(i & x & Hx & Hp)|Ho].
  - apply (ends_pending u IHu (length q + i) _ _ x); [by apply set_insert_ssorted|done| |done].
    by rewrite lookup_app_r, Nat.add_comm, Nat.add_sub by lia.
  - apply IH; [by apply set_insert_ssorted|done|]. rewrite sum_list_with_app, (sum_outside new).
    + pose proof (List.filter_length_le (fun m => negb (set_mem m r)) (vertices e)) as L. fold new in L. lia.
    + rewrite Forall_forall in *. intros x Hx. destruct (Ho x Hx) as [|Hm]; [done|].
      rewrite set_insert_present in Hm by done. apply list_elem_of_In, filter_In in Hx as [_ Hx]. by rewrite Hm in Hx.
Qed.

Lemma loop_ends q r : ssorted Compare id r -> ends q r.
Proof.
  remember (unreached r) as u eqn:Hu. assert (L : (unreached r <= u)%nat) by lia. clear Hu. revert q r L.
  induction u as [u IH] using lt_wf_ind; intros q r L Hs.
  apply (ends_light u) with (w := sum_list_with weight q); [|done..].
  intros q' r' Hs' L'. by apply (IH (unreached r')).
Qed.

Lemma loop_more fuel : forall q r x, loop fuel q r = Some x -> forall fuel', (fuel <= fuel')%nat -> loop fuel' q r = Some x.
Proof.
  induction fuel as [|fuel IH]; intros q r x E [|fuel'] L; try discriminate E; [lia|].
  simpl in *. destruct q as [|n q]; [done|]. destruct (obj_get n graph); apply IH; (done || lia).
Qed.

(** ** What is reached *)
Inductive reachable (initial : list value) : value -> Prop :=
| reach_initial u x : u ∈ initial -> Equal u x = true -> in_graph x -> reachable initial x
| reach_edge y e n x : reachable initial y -> obj_get y graph = Some e -> n ∈ vertices e ->
    Equal n x = true -> in_graph x -> reachable initial x.

Definition known (queue reached : list value) (n : value) : Prop :=
  in_graph n -> set_mem n reached = true \/ exists m, m ∈ queue /\ Equal m n = true.

(** The invariant of the loop: what is in the queue or reached can be reached,
    and the queue holds what is still missing. *)
Record loop_inv (initial queue reached : list value) : Prop := {
  li_sorted : ssorted Compare id reached;
  li_reached : forall x, set_mem x reached = true -> reachable initial x;
  li_queue : forall x y, x ∈ queue -> Equal x y = true -> in_graph y -> reachable initial y;
  li_initial : forall u, u ∈ initial -> known queue reached u;
  li_edges : forall y e n, set_mem y reached = true -> obj_get y graph = Some e -> n ∈ vertices e ->
    known queue reached n;
}.

Lemma in_graph_congr x y : Equal x y = true -> in_graph x -> in_graph y.
Proof. intros E [e G]. exists e. by rewrite <- (obj_get_congr x y) by (by apply Equal_true). Qed.

Lemma set_mem_Equal x y r : Equal x y = true -> set_mem x r = set_mem y r.
Proof. intros E. by apply set_mem_congr, Equal_true. Qed.

Lemma known_step node e rest reached n : ssorted Compare id reached ->
  known (node :: rest) reached n -> known (rest ++ e) (set_insert node reached) n.
Proof.
  intros Hs H Hn. rewrite set_mem_insert by done. destruct (H Hn) as [->|(m & [->|Hm]%elem_of_cons & E)].
  - left. apply orb_true_r.
  - left. by rewrite Equal_sym, E.
  - right. exists m. split; [|done]. apply elem_of_app. by left.
Qed.

Lemma loop_inv_step initial node e rest reached : loop_inv initial (node :: rest) reached -> obj_get node graph = Some e ->
  loop_inv initial (rest ++ List.filter (fun n => negb (set_mem n reached)) (vertices e)) (set_insert node reached).
Proof.
  intros [Hs Hr Hq Hi He] G. assert (Hn : reachable initial node).
  { apply (Hq node); [left|apply Equal_refl|by exists e]. }
  assert (Hx : forall x, set_mem x (set_insert node reached) = true -> reachable initial x).
  { intros x. rewrite set_mem_insert by done. destruct (Equal x node) eqn:E; [|apply Hr]. intros _.
    rewrite Equal_sym in E. apply (Hq node); [left|done|]. apply (in_graph_congr node); [done|by exists e]. }
  split; [by apply set_insert_ssorted|done| | |].
  - intros x y [Hx'|[Hx' _]%list_elem_of_In%filter_In]%elem_of_app E Hy; [by apply (Hq x); [right|..]|].
    apply list_elem_of_In in Hx'. by apply (reach_edge initial node e x).
  - intros u Hu. by apply known_step, Hi.
  - intros y e' n Hy G' Hn'. rewrite set_mem_insert in Hy by done. destruct (Equal y node) eqn:E.
    + apply Equal_true in E. rewrite (obj_get_congr y node), G in G' by done. injection G' as <-. intros _.
      rewrite set_mem_insert by done. destruct (set_mem n reached) eqn:M; [left; apply orb_true_r|].
      right. exists n. split; [|apply Equal_refl]. apply elem_of_app. right. apply list_elem_of_In, filter_In.
      split; [by apply list_elem_of_In|by rewrite M].
    + by apply known_step, (He y e' n).
Qed.

Lemma loop_inv_skip initial node rest reached : loop_inv initial (node :: rest) reached -> obj_get node graph = None ->
  loop_inv initial rest reached.
Proof.
  intros [Hs Hr Hq Hi He] G.
  assert (K : forall n, known (node :: rest) reached n -> known rest reached n).
  { intros n H Hn. destruct (H Hn) as [|(m & [->|Hm]%elem_of_cons & E)]; [by left| |right; by exists m].
    rewrite Equal_sym in E. destruct (in_graph_congr n node E Hn) as [e ?]. congruence. }
  split; [done..| | |]; [intros x y Hx; apply Hq; by right| |]; eauto.
Qed.

Lemma loop_correct initial fuel : forall q r x, loop_inv initial q r -> loop fuel q r = Some x -> loop_inv initial [] x.
Proof.
  induction fuel as [|fuel IH]; intros q r x I E; [discriminate E|]. simpl in E.
  destruct q as [|n q]; [by injection E as <-|]. destruct (obj_get n graph) as [e|] eqn:G.
  - by apply (IH _ _ _ (loop_inv_step _ _ _ _ _ I G)).
  - by apply (IH _ _ _ (loop_inv_skip _ _ _ _ I G)).
Qed.

Lemma loop_inv_end initial r x : loop_inv initial [] r -> set_mem x r = true <-> reachable initial x.
Proof.
  intros [Hs Hr Hq Hi He]. split; [apply Hr|].
  assert (K : forall n x, known [] r n -> Equal n x = true -> in_graph x -> set_mem x r = true).
  { intros n y H E Hy. rewrite <- (set_mem_Equal n y) by done.
    destruct H as [|(m & []%not_elem_of_nil & _)]; [|done]. apply (in_graph_congr y); [by rewrite Equal_sym|done]. }
  induction 1 as [u x Hu E Hg|y e n x Hy IH G Hn E Hg]; [by apply (K u); [apply Hi|..]|].
  by apply (K n); [apply (He y e)|..].
Qed.

(** ** Paths end *)
Definition extends (r r' : list value) : Prop := forall x, set_mem x r = true -> set_mem x r' = true.
Definition visit_ok (r : list value) (o : option path_state) : Prop :=
  exists st, o = Some st /\ ssorted Compare id st.2 /\ extends r st.2.

Lemma each_neighbor_ends visit root path r0 :
  (forall n res r, ssorted Compare id r -> set_mem root r = true -> extends r0 r ->
    set_mem n r = false \/ set_mem root r0 = false -> visit_ok r (visit n (res, r))) ->
  forall l paths st, ssorted Compare id st.2 -> extends r0 st.2 -> visit_ok r0 (each_neighbor visit root path paths l st).
Proof.
  intros Hv. induction l as [|n l IH]; intros paths st Hs He; [by exists st|].
  destruct st as [res r]. cbn [each_neighbor fst snd] in *. destruct (set_mem n r) eqn:Hn; [by apply IH|].
  destruct (Hv n res (set_insert root r)) as (st' & -> & Hs' & He').
  - by apply set_insert_ssorted.
  - by rewrite set_mem_insert, Equal_refl.
  - intros x Hx. rewrite set_mem_insert, (He x Hx) by done. apply orb_true_r.
  - destruct (set_mem root r0) eqn:Hr; [left|by right]. rewrite set_mem_insert, Hn, orb_false_r by done.
    destruct (Equal n root) eqn:E; [|done]. by rewrite (set_mem_Equal n root), (He root) in Hn.
  - apply IH; [done|]. intros x Hx. apply He'. rewrite set_mem_insert, (He x Hx) by done. apply orb_true_r.
Qed.

Definition rank (root : value) (r : list value) : nat := 2 * unreached r + (if set_mem root r then 1 else 0).

Lemma pathBuilder_ends fuel : forall root path st, ssorted Compare id st.2 ->
  (rank root st.2 + 1 < fuel)%nat \/ (obj_get root graph = None /\ (1 <= fuel)%nat) ->
  visit_ok st.2 (pathBuilder graph fuel root path st).
Proof.
  induction fuel as [|fuel IH]; intros root path st Hs Hf; [lia|]. cbn [pathBuilder].
  assert (Hd : forall x, visit_ok st.2 (Some (x, st.2))) by (intros x; exists (x, st.2); split_ands; [done|done|by intros ?]).
  destruct (obj_get root graph) as [e|] eqn:G; [|apply Hd].
  destruct Hf as [Hf|[? _]]; [|done]. destruct (1 <=? numberOfEdges e)%nat; [|apply Hd].
  apply each_neighbor_ends; [|done|by intros x]. intros n res r Hs' Hr He Hn. apply (IH n _ (res, r) Hs').
  destruct (obj_get n graph) as [en|] eqn:Gn; [left|right; split; [done|lia]].
  unfold rank in *. cbn [snd]. assert (L := unreached_le _ _ He). destruct (set_mem root st.2) eqn:Hr0.
  - destruct Hn as [->|]; [lia|done].
  - assert (L2 := unreached_insert root st.2 Hs ltac:(by exists e) Hr0).
    assert (L3 : (unreached r <= unreached (set_insert root st.2))%nat).
    { apply unreached_le. intros x. rewrite set_mem_insert by done. destruct (Equal x root) eqn:E; [|apply He].
      intros _. by rewrite (set_mem_Equal x root r). }
    destruct (set_mem n r); lia.
Qed.

Lemma paths_loop_ends queue : forall res, exists r, paths_loop graph (2 * length graph + 3) queue res = Some r.
Proof.
  assert (F : forall node l res, exists r, paths_from graph (2 * length graph + 3) node l res = Some r).
  { intros node. induction l as [|n l IH]; intros res; [by exists res|]. cbn [paths_from].
    destruct (pathBuilder_ends (2 * length graph + 3) n [node] (res, [node])) as (st & -> & _).
    - repeat constructor.
    - left. unfold rank. assert (L := unreached_bound [node]). cbn [snd]. destruct (set_mem n [node]); lia.
    - apply IH. }
  induction queue as [|n queue IH]; intros res; [by exists res|]. cbn [paths_loop].
  destruct (obj_get n graph) as [e|]; [|apply IH]. destruct (1 <=? numberOfEdges e)%nat; [|apply IH].
  destruct (F n (vertices e) res) as [r ->]. apply IH.
Qed.
End Lemmas.

(** C22: [graph.reachable] ends on every graph and every array or set of initial
    vertices, and returns exactly the vertices of the graph that can be reached
    from them, cycles and repeated vertices included; [graph.reachable_paths]
    always returns. *)
Theorem reachable_correct (graph : list (value * value)) (b : value) :
  (exists l, b = Array l \/ b = SetV l) ->
  (exists fuel r, (forall fuel', (fuel <= fuel')%nat -> builtinReachable fuel' (Object graph) b = Some (iter_on (SetV r))) /\
    ssorted Compare id r /\ forall x, set_mem x r = true <-> reachable graph (vertices b) x) /\
  (exists r, builtinReachablePaths (Object graph) b = Some (iter_on (SetV r))).
Proof.
  intros [l Hb].
  assert (E : forall fuel, builtinReachable fuel (Object graph) b =
    option_map (fun r => iter_on (SetV r)) (reach_loop graph fuel (vertices b) [])) by (by destruct Hb; subst).
  split.
  - destruct (loop_ends graph (vertices b) [] ltac:(constructor)) as (fuel & r & Hr).
    assert (I : loop_inv graph (vertices b) [] r).
    { apply (loop_correct graph (vertices b) fuel (vertices b) []); [|done].
      split; [constructor|done| | |done].
      - intros x y Hx Ex Hy. by apply (reach_initial graph _ x).
      - intros u Hu Hg. right. exists u. split; [done|apply Equal_refl]. }
    exists fuel, r. split_ands; [|by destruct I|intros x; by apply loop_inv_end].
    intros fuel' L. by rewrite E, (loop_more graph fuel _ _ r).
  - destruct (paths_loop_ends graph (vertices b) []) as [r Hr]. exists r. unfold builtinReachablePaths. simpl ObjectOperand.
    cbn iota. rewrite Hr. by destruct Hb; subst.
Qed.

Lemma reachable_correct_witness :
  let g := [(Str "a", Array [Str "b"; Str "x"]); (Str "b", Array [Str "a"; Str "b"]); (Str "c", Array [])] in
  let b := Array [Str "a"; Str "a"] in
  (exists l, b = Array l \/ b = SetV l) /\
  exists fuel r, builtinReachable fuel (Object g) b = Some (iter_on (SetV r)) /\
    (set_mem (Str "b") r = true <-> reachable g [Str "a"; Str "a"] (Str "b")).
Proof.
  intros g b. assert (H : exists l, b = Array l \/ b = SetV l) by (exists [Str "a"; Str "a"]; left; reflexivity).
  destruct (reachable_correct g b H) as [(fuel & r & E & _ & Hr) _]. split; [exact H|].
  exists fuel, r. split; [exact (E fuel (le_n fuel))|exact (Hr (Str "b"))].
Defined.

(** A vertex with two neighbours that were reached before commits its path twice
    in a row: [graph.reachable_paths] reports a path that the graph does not
    have. *)
Lemma reachable_paths_repeats :
  let s := Str in
  let g := [(s "a", Array [s "b"]); (s "b", Array [s "c"]); (s "c", Array [s "b"; s "b"])]%string in
  builtinReachablePaths (Object g) (Array [s "a"%string]) =
    Some (iter_on (SetV [Array [s "a"; s "b"; s "c"]; Array [s "a"; s "b"; s "c"; s "a"; s "b"; s "c"]]%string)).
Proof. vm_compute. reflexivity. Qed.
