(* ===== verification/Walk.v ===== *)
(** The relation [walk] ([src/topdown/walk.go]), which calls its iterator on
    every node of a document with the path to it.

    The iterator updates a state and may fail, which stops the walk.  Paths are
    arrays that are copied before they are handed out. *)
From Stdlib Require Import ZArith Lia QArith String.
From stdpp Require Import base list strings.
From S2P Require Import Prelude SortedKeys Value Containers SetTable ObjectTable RefOps Builtins Document.

Section Walk.
Context {S E : Type} (iter : value -> S -> S * option E).

Definition step : Type := S -> S * option E.
Definition return_nil : step := fun s => (s, None).
Definition and_then (f g : step) : step :=
  fun s => match f s with (s, None) => g s | r => r end.
(** [for] over a slice and [Iter], which stop at the first error. *)
Fixpoint each {A} (f : A -> step) (l : list A) : step :=
  match l with [] => return_nil | x :: l => and_then (f x) (each f l) end.
Fixpoint each_index (f : nat -> value -> step) (i : nat) (l : list value) : step :=
  match l with [] => return_nil | x :: l => and_then (f i x) (each_index f (Datatypes.S i) l) end.

Definition index_key (i : nat) : value := IntNumberTerm (Z.of_nat i).

(** [walk] when the filter is [nil] or empty: it stays so below. *)
Fixpoint walk_all (path : list value) (input : value) {struct input} : step :=
  and_then (iter (Array [Array path; input]))
    match input with
    | Array v => each_index (fun i x => walk_all (path ++ [index_key i]) x) 0 v
    | Object v => each (fun kv => walk_all (path ++ [kv.1]) kv.2) v
    | SetV v => each (fun elem => walk_all (path ++ [elem]) elem) v
    | _ => return_nil
    end.
Fixpoint walk (filter path : list value) (input : value) {struct filter} : step :=
  match filter with
  | [] => walk_all path input
  | key :: filter =>
      if IsGround key then
        match Term_Get input key with
        | Some term => walk filter (path ++ [key]) term
        | None => return_nil
        end
      else
        match input with
        | Array v => each_index (fun i x => walk filter (path ++ [index_key i]) x) 0 v
        | Object v => each (fun kv => walk filter (path ++ [kv.1]) kv.2) v
        | SetV v => each (fun elem => walk filter (path ++ [elem]) elem) v
        | _ => return_nil
        end
  end.

Fixpoint walkNoPath (input : value) : step :=
  and_then (iter (Array [Array []; input]))
    match input with
    | Object v => each (fun kv => walkNoPath kv.2) v
    | Array v => each walkNoPath v
    | SetV v => each walkNoPath v
    | _ => return_nil
    end.

Definition IsWildcard (x : string) : bool := String.prefix "$" x.
(** [nil] and the empty array filter alike. *)
Definition getOutputPath (operands : list value) : list value :=
  match operands with [_; Array [Array path; _]] => path | _ => [] end.
Definition pathIsWildcard (operands : list value) : bool :=
  match operands with [_; Array [Var v; _]] => IsWildcard v | _ => false end.
Definition evalWalk (operands : list value) : option step :=
  match operands with
  | input :: _ =>
      Some (if pathIsWildcard operands then walkNoPath input else walk (getOutputPath operands) [] input)
  | [] => None
  end.
End Walk.

(** ** The nodes of a document, in the order of the walk *)
Definition children (v : value) : list (value * value) :=
  match v with
  | Array l => imap (fun i x => (index_key i, x)) l
  | Object kvs => kvs
  | SetV l => map (fun x => (x, x)) l
  | _ => []
  end.

(** ** Steps up to extensional equality *)
Section Steps.
Context {S E : Type}.
Definition step_eq (f g : step (S := S) (E := E)) : Prop := forall s, f s = g s.
#[export] Instance step_eq_equivalence : Equivalence step_eq.
Proof. split; [by intros f s|by intros f g H s|intros f g h H1 H2 s; by rewrite H1]. Qed.
#[export] Instance and_then_proper : Proper (step_eq ==> step_eq ==> step_eq) and_then.
Proof. intros f f' Hf g g' Hg s. unfold and_then. rewrite Hf. destruct (f' s) as [s' []]; [done|apply Hg]. Qed.

Lemma and_then_assoc f g h : step_eq (and_then (and_then f g) h) (and_then f (and_then g h)).
Proof. intros s. unfold and_then. by destruct (f s) as [s' []]. Qed.
Lemma and_then_nil f : step_eq (and_then f return_nil) f.
Proof. intros s. unfold and_then. by destruct (f s) as [s' []]. Qed.

Lemma each_app {A} (f : A -> step) l1 l2 : step_eq (each f (l1 ++ l2)) (and_then (each f l1) (each f l2)).
Proof. induction l1 as [|x l1 IH]; simpl; [done|]. rewrite IH. by rewrite and_then_assoc. Qed.

Lemma each_concat {A B} (f : A -> step) (g : B -> list A) l :
  step_eq (each (fun x => each f (g x)) l) (each f (concat (map g l))).
Proof. induction l as [|x l IH]; simpl; [done|]. by rewrite each_app, IH. Qed.

Lemma each_ext {A} (f g : A -> step) l : Forall (fun x => step_eq (f x) (g x)) l -> step_eq (each f l) (each g l).
Proof. induction 1 as [|x l H _ IH]; simpl; [done|]. by rewrite H, IH. Qed.

Lemma each_map {A B} (f : B -> step) (g : A -> B) l : step_eq (each f (map g l)) (each (fun x => f (g x)) l).
Proof. induction l as [|x l IH]; simpl; [done|]. by rewrite IH. Qed.

Lemma each_index_imap (f : value -> value -> step) l : forall i,
  step_eq (each_index (fun i x => f (index_key i) x) i l)
          (each (fun kx => f kx.1 kx.2) (imap (fun j x => (index_key (i + j), x)) l)).
Proof.
  induction l as [|x l IH]; intros i; simpl; [done|]. rewrite Nat.add_0_r, IH.
  assert (imap ((fun j x => (index_key (i + j), x)) ∘ Datatypes.S) l = imap (fun j x => (index_key (Datatypes.S i + j), x)) l) as ->.
  { apply imap_ext. intros j y _. simpl. by rewrite Nat.add_succ_r. }
  done.
Qed.
End Steps.

(** ** The nodes of a document in the order of the walk, with relative paths *)
Definition below (k : value) (l : list (list value * value)) : list (list value * value) :=
  map (fun px => (k :: px.1, px.2)) l.
Fixpoint all_nodes (v : value) : list (list value * value) :=
  ([], v) ::
  match v with
  | Array l => concat (imap (fun i nodes => below (index_key i) nodes) (map all_nodes l))
  | Object kvs => concat (map (fun kv => below kv.1 (all_nodes kv.2)) kvs)
  | SetV l => concat (map (fun x => below x (all_nodes x)) l)
  | _ => []
  end.
Definition below_each (f : value -> list (list value * value)) (v : value) : list (list value * value) :=
  concat (map (fun kx => below kx.1 (f kx.2)) (children v)).
Fixpoint filter_nodes (filter : list value) (v : value) : list (list value * value) :=
  match filter with
  | [] => all_nodes v
  | key :: filter =>
      if IsGround key then match Term_Get v key with Some t => below key (filter_nodes filter t) | None => [] end
      else below_each (filter_nodes filter) v
  end.

Lemma all_nodes_children v : all_nodes v = ([], v) :: below_each all_nodes v.
Proof.
  unfold below_each. destruct v; try done; cbn [all_nodes children]; f_equal; f_equal.
  - etransitivity; [exact (imap_fmap _ all_nodes elems)|]. symmetry. exact (fmap_imap _ (fun kx => below kx.1 (all_nodes kx.2)) elems).
  - by rewrite map_map.
Qed.

Definition emit (path : list value) (px : list value * value) : value := Array [Array (path ++ px.1); px.2].

Lemma emit_below path k l : map (emit path) (below k l) = map (emit (path ++ [k])) l.
Proof. unfold below. rewrite map_map. apply map_ext. intros [p x]. unfold emit. simpl. by rewrite <- app_assoc. Qed.

Section Runs.
Context {S E : Type} (iter : value -> S -> S * option E).

(** The three loops over the members of a value are one loop over [children]. *)
Lemma each_children (f : value -> value -> step (S := S) (E := E)) v :
  step_eq (match v with
           | Array l => each_index (fun i x => f (index_key i) x) 0 l
           | Object kvs => each (fun kv => f kv.1 kv.2) kvs
           | SetV l => each (fun x => f x x) l
           | _ => return_nil
           end) (each (fun kx => f kx.1 kx.2) (children v)).
Proof. destruct v; try done; [apply (each_index_imap f elems 0)|]. simpl. by rewrite each_map. Qed.

Lemma each_below path (f : value -> list (list value * value)) (w : list value -> value -> step (S := S) (E := E)) v :
  Forall (fun kx => forall path, step_eq (w path kx.2) (each iter (map (emit path) (f kx.2)))) (children v) ->
  step_eq (each (fun kx => w (path ++ [kx.1]) kx.2) (children v)) (each iter (map (emit path) (below_each f v))).
Proof.
  intros H. unfold below_each. rewrite concat_map, map_map. rewrite <- each_concat. apply each_ext.
  eapply Forall_impl; [exact H|]. intros kx Hk. cbn beta. by rewrite emit_below.
Qed.

Lemma children_elem v kx : kx ∈ children v ->
  (exists l i, v = Array l /\ l !! i = Some kx.2 /\ kx.1 = index_key i) \/ (exists kvs, v = Object kvs /\ kx ∈ kvs) \/
  (exists l, v = SetV l /\ kx.2 ∈ l /\ kx.1 = kx.2).
Proof.
  destruct v; try (by intros []%not_elem_of_nil); simpl; intros H.
  - left. apply elem_of_lookup_imap in H as (i & x & -> & Hx). by exists elems, i.
  - right. left. by exists kvs.
  - right. right. apply list_elem_of_fmap in H as (x & -> & Hx). by exists keys.
Qed.

Lemma walk_all_runs v : forall path, step_eq (walk_all iter path v) (each iter (map (emit path) (all_nodes v))).
Proof.
  induction v as [v IH] using value_composite_ind. intros path. rewrite all_nodes_children.
  assert (step_eq (walk_all iter path v) (and_then (iter (Array [Array path; v]))
    (each (fun kx => walk_all iter (path ++ [kx.1]) kx.2) (children v)))) as ->.
  { rewrite <- (each_children (fun k x => walk_all iter (path ++ [k]) x) v). by destruct v. }
  cbn [map each]. unfold emit at 1. cbn [fst snd]. rewrite app_nil_r. apply and_then_proper; [done|].
  apply each_below. apply Forall_forall. intros kx Hk.
  destruct (children_elem v kx Hk) as [(l & i & -> & Hx & _)|[(kvs & -> & Hx)|(l & -> & Hx & _)]]; rewrite Forall_forall in IH.
  - by apply IH, list_elem_of_lookup_2 with i.
  - by apply IH.
  - by apply IH.
Qed.

Lemma walk_runs filter : forall path v, step_eq (walk iter filter path v) (each iter (map (emit path) (filter_nodes filter v))).
Proof.
  induction filter as [|key filter IH]; intros path v; [apply walk_all_runs|]. cbn [walk filter_nodes].
  destruct (IsGround key).
  - destruct (Term_Get v key); [|done]. by rewrite emit_below, IH.
  - rewrite (each_children (fun k x => walk iter filter (path ++ [k]) x) v). apply each_below.
    apply Forall_forall. intros kx _ path'. apply IH.
Qed.

Lemma walkNoPath_runs v : step_eq (walkNoPath iter v) (each iter (map (fun px => Array [Array []; px.2]) (all_nodes v))).
Proof.
  induction v as [v IH] using value_composite_ind. rewrite all_nodes_children.
  assert (step_eq (walkNoPath iter v) (and_then (iter (Array [Array []; v]))
    (each (fun kx => walkNoPath iter kx.2) (children v)))) as ->.
  { rewrite <- (each_children (fun _ x => walkNoPath iter x) v). destruct v; try done. cbn [walkNoPath].
    apply and_then_proper; [done|]. generalize 0%nat. induction elems as [|x l IHl]; intros i; simpl; [done|].
    apply and_then_proper; [done|]. apply IHl. by apply Forall_cons in IH as [_ ?]. }
  cbn [map each]. apply and_then_proper; [done|]. unfold below_each. rewrite concat_map, map_map, <- each_concat.
  apply each_ext, Forall_forall. intros kx Hk. unfold below. rewrite map_map. cbn [snd].
  destruct (children_elem v kx Hk) as [(l & i & -> & Hx & _)|[(kvs & -> & Hx)|(l & -> & Hx & _)]]; rewrite Forall_forall in IH.
  - by apply IH, list_elem_of_lookup_2 with i.
  - by apply IH.
  - by apply IH.
Qed.
End Runs.

(** ** Paths *)
Lemma Find_cons v k p : Find v (k :: p) = match Term_Get v k with Some t => Find t p | None => None end.
Proof.
  destruct v; try done; cbn [Find Term_Get].
  - by destruct (array_index k (length elems)).
  - by destruct (set_mem k keys).
Qed.

Lemma array_index_key i n : in_int64 (Z.of_nat n) = true -> (i < n)%nat -> array_index (index_key i) n = Some i.
Proof.
  unfold in_int64, two63. intros Hn Hi. unfold array_index, index_key, IntNumberTerm, num_int64, in_int64, two63.
  destruct ((_ <=? Z.of_nat i)%Z && _) eqn:B; [|lia].
  destruct ((Z.of_nat i <? 0)%Z || (Z.of_nat n <=? Z.of_nat i)%Z) eqn:B2; [lia|]. by rewrite Nat2Z.id.
Qed.

(** Members are found under their keys. *)
Lemma children_Get v kx : doc v -> kx ∈ children v -> doc kx.2 /\ Term_Get v kx.1 = Some kx.2.
Proof.
  intros Hv [(l & i & -> & Hx & Hk)|[(kvs & -> & Hx)|(l & -> & Hx & Hk)]]%children_elem.
  - apply doc_array_inv in Hv as [Hl Hd]. rewrite Forall_forall in Hd. split; [by apply Hd, list_elem_of_lookup_2 with i|].
    simpl. rewrite Hk, array_index_key by (done || by eapply lookup_lt_Some). done.
  - apply doc_object_inv in Hv as [Hs Hd]. rewrite Forall_forall in Hd. split; [by apply Hd|].
    simpl. apply obj_get_elem; [by apply ssorted_distinct|done].
  - apply doc_set_inv in Hv as [Hs Hd]. rewrite Forall_forall in Hd. split; [by apply Hd|].
    simpl. rewrite Hk. assert (set_mem kx.2 l = true) as ->; [|done].
    apply set_mem_true. exists kx.2. split; [done|apply (cmp_refl Compare)].
Qed.

(** What is found under a key is a member, up to equality. *)
Lemma Get_children v k t : Term_Get v k = Some t ->
  exists kx, kx ∈ children v /\ Equal k kx.1 = true /\ Equal t kx.2 = true.
Proof.
  destruct v; try done; simpl.
  - destruct (array_index k (length elems)) as [i|] eqn:Ei; [|done]. intros Hx.
    exists (index_key i, t). split_ands; [|simpl|apply Equal_refl].
    + apply elem_of_lookup_imap. by exists i, t.
    + unfold array_index in Ei. destruct k; try discriminate Ei. destruct (num_int64 n) as [z|] eqn:Ez; [|discriminate Ei].
      destruct ((z <? 0)%Z || (Z.of_nat (length elems) <=? z)%Z) eqn:B; [discriminate Ei|]. injection Ei as <-.
      apply Equal_true. simpl. unfold num_compare. rewrite Ez. cbn [num_int64].
      assert (Hz : in_int64 z = true).
      { destruct n; simpl in Ez; [|discriminate Ez]. destruct (in_int64 z0) eqn:I; [congruence|discriminate Ez]. }
      rewrite Z2Nat.id by lia. rewrite Hz. apply Z.compare_refl.
  - intros (kv & Hkv & E & <-)%obj_get_Some. exists kv. split_ands; [done|by apply Equal_true|apply Equal_refl].
  - destruct (set_mem k keys) eqn:M; [|done]. intros [= <-]. apply set_mem_true in M as (y & Hy & E).
    exists (y, y). split_ands; [by apply list_elem_of_fmap; exists y|by apply Equal_true..].
Qed.

Lemma elem_below_each (f : value -> list (list value * value)) v px :
  px ∈ below_each f v <-> exists kx p, kx ∈ children v /\ px.1 = kx.1 :: p /\ (p, px.2) ∈ f kx.2.
Proof.
  unfold below_each. rewrite list_elem_of_In, in_concat. split.
  - intros (l & (kx & <- & Hk)%in_map_iff & ([p x] & <- & Hp)%in_map_iff). exists kx, p.
    rewrite !list_elem_of_In. done.
  - intros (kx & p & Hk & E & Hp). rewrite !list_elem_of_In in *. exists (below kx.1 (f kx.2)). split.
    + apply in_map_iff. by exists kx.
    + apply in_map_iff. exists (p, px.2). split; [|done]. destruct px. simpl in *. by subst.
Qed.

(** The paths that a filter lets through. *)
Fixpoint matches (filter p : list value) : bool :=
  match filter, p with
  | [], _ => true
  | key :: filter, k :: p => (negb (IsGround key) || Equal key k) && matches filter p
  | _ :: _, [] => false
  end.

Lemma all_nodes_sound v : doc v -> forall p x, (p, x) ∈ all_nodes v -> Find v p = Some x.
Proof.
  intros Hv p. revert v Hv. induction p as [|k p IH]; intros v Hv x; rewrite all_nodes_children, elem_of_cons, elem_below_each.
  - intros [[= ->]|(kx & p & _ & E & _)]; [done|discriminate E].
  - intros [E|(kx & p' & Hk & [= -> ->] & Hp)]; [discriminate E|]. simpl in Hp.
    destruct (children_Get v kx Hv Hk) as [Hd G]. rewrite Find_cons, G. by apply IH.
Qed.

Lemma Term_Get_doc v k t : doc v -> doc k -> Term_Get v k = Some t -> doc t.
Proof.
  intros Hv Hk. destruct v; try done; simpl.
  - apply doc_array_inv in Hv as [_ Hd]. rewrite Forall_forall in Hd.
    destruct (array_index k (length elems)); [|done]. intros Hx. by eapply Hd, list_elem_of_lookup_2.
  - by apply obj_get_doc.
  - destruct (set_mem k keys); [|done]. by intros [= <-].
Qed.

Lemma filter_nodes_sound filter : Forall doc filter -> forall v p x, doc v ->
  (p, x) ∈ filter_nodes filter v -> Find v p = Some x /\ matches filter p = true.
Proof.
  induction 1 as [|key filter Hkey Hf IH]; intros v p x Hv; cbn [filter_nodes].
  { split; [by apply all_nodes_sound|by destruct p]. }
  destruct (IsGround key) eqn:G.
  - destruct (Term_Get v key) as [t|] eqn:Gt; [|by intros []%not_elem_of_nil].
    intros ([p' x'] & [= -> ->] & Hp)%list_elem_of_fmap. destruct (IH t p' x') as [H1 H2]; [by apply (Term_Get_doc v key)|done|].
    rewrite Find_cons, Gt. simpl. by rewrite Equal_refl, G.
  - intros (kx & p' & Hk & E & Hp)%elem_below_each. simpl in E, Hp. subst p.
    destruct (children_Get v kx Hv Hk) as [Hd Gt]. destruct (IH kx.2 p' x Hd Hp) as [H1 H2].
    rewrite Find_cons, Gt. simpl. by rewrite G.
Qed.

Abbreviation same_node px px' := (Equal (Array px.1) (Array px'.1) = true /\ Equal px.2 px'.2 = true).

Lemma Equal_path_cons k k' p p' : Equal k k' = true -> Equal (Array p) (Array p') = true ->
  Equal (Array (k :: p)) (Array (k' :: p')) = true.
Proof. rewrite !Equal_true. simpl. intros -> ->. done. Qed.

Lemma Find_Equal v w p x : Equal v w = true -> Find v p = Some x -> exists y, Find w p = Some y /\ Equal x y = true.
Proof.
  intros E%Equal_true F. pose proof (Find_congr p v w E) as H. rewrite F in H.
  destruct (Find w p) as [y|]; [|done]. exists y. split; [done|by apply Equal_true].
Qed.

(** Descending into the member that a key finds. *)
Lemma below_complete (f : value -> list (list value * value)) v k t p x :
  Term_Get v k = Some t -> Find t p = Some x ->
  (forall kx y, kx ∈ children v -> Find kx.2 p = Some y ->
    exists px, px ∈ f kx.2 /\ Equal (Array p) (Array px.1) = true /\ Equal y px.2 = true) ->
  exists px, px ∈ below_each f v /\ same_node (k :: p, x) px.
Proof.
  intros Gt F IH. destruct (Get_children v k t Gt) as (kx & Hk & Ek & Et).
  destruct (Find_Equal t kx.2 p x Et F) as (y & Fy & Ey).
  destruct (IH kx y Hk Fy) as (px & Hp & E1 & E2). exists (kx.1 :: px.1, px.2). split_ands.
  - apply elem_below_each. exists kx, px.1. by destruct px.
  - by apply Equal_path_cons.
  - by eapply Equal_trans.
Qed.

Lemma all_nodes_complete p : forall v x, doc v -> Find v p = Some x ->
  exists px, px ∈ all_nodes v /\ same_node (p, x) px.
Proof.
  induction p as [|k p IH]; intros v x Hv F.
  { injection F as <-. exists ([], v). rewrite all_nodes_children. split_ands; [left|apply Equal_refl..]. }
  rewrite Find_cons in F. destruct (Term_Get v k) as [t|] eqn:Gt; [|done].
  destruct (below_complete all_nodes v k t p x Gt F) as (px & Hp & H).
  { intros kx y Hk Fy. by apply IH; [apply (children_Get v kx Hv Hk)|]. }
  exists px. rewrite all_nodes_children. split; [by right|done].
Qed.

(** A key with a literal in canonical form finds what an equal key finds. *)
Lemma Get_canonical v key k t : canonical_key key = true -> Equal key k = true -> Term_Get v k = Some t ->
  exists t', Term_Get v key = Some t' /\ Equal t t' = true.
Proof.
  intros C E. pose proof (proj1 (Equal_true _ _) E) as Ec. destruct v; try done; simpl.
  - assert (array_index k (length elems) <> None -> array_index key (length elems) = array_index k (length elems)) as H.
    { destruct k as [| |n| | | | | | | | | |]; try done. destruct key as [| |m| | | | | | | | | |]; try discriminate E. simpl in *.
      destruct (num_int64 n) as [z|] eqn:Ez; [|done]. intros _. unfold num_compare in Ec. rewrite Ez in Ec.
      destruct (num_int64 m) as [y|] eqn:Ey; [by apply Z.compare_eq in Ec as ->|].
      apply Qeq_alt in Ec. rewrite (int64_valued_eq n z (num_rat m)) in C by (done || by symmetry). done. }
    destruct (array_index k (length elems)) as [i|]; [|done]. rewrite H by done. intros ->. exists t. by rewrite Equal_refl.
  - rewrite (obj_get_congr key k) by done. intros ->. exists t. by rewrite Equal_refl.
  - rewrite (set_mem_congr key k) by done. destruct (set_mem k keys); [|done]. intros [= <-]. exists key. by rewrite Equal_sym.
Qed.

Lemma filter_nodes_complete filter : Forall doc filter -> Forall (fun k => canonical_key k = true) filter ->
  forall p v x, doc v -> Find v p = Some x -> matches filter p = true ->
  exists px, px ∈ filter_nodes filter v /\ same_node (p, x) px.
Proof.
  intros Hd. induction Hd as [|key filter Hkey Hd IH]; intros Hc p v x Hv F M; [by apply all_nodes_complete|].
  apply Forall_cons in Hc as [Ckey Hc]. destruct p as [|k p]; [done|]. cbn [matches] in M.
  apply andb_true_iff in M as [Mk M]. rewrite Find_cons in F. destruct (Term_Get v k) as [t|] eqn:Gt; [|done].
  cbn [filter_nodes]. destruct (IsGround key) eqn:G; simpl in Mk.
  - destruct (Get_canonical v key k t Ckey Mk Gt) as (t' & Gt' & Et). rewrite Gt'.
    destruct (Find_Equal t t' p x Et F) as (y & Fy & Ey).
    destruct (IH Hc p t' y) as (px & Hp & E1 & E2); [by apply (Term_Get_doc v key)|done..|].
    exists (key :: px.1, px.2). split_ands.
    + apply list_elem_of_fmap. by exists px.
    + apply Equal_path_cons; [by rewrite Equal_sym|done].
    + by eapply Equal_trans.
  - apply (below_complete _ v k t p x Gt F). intros kx y Hk Fy. by apply IH; [done|apply (children_Get v kx Hv Hk)|..].
Qed.

(** ** No node twice *)
Definition apart (px py : list value * value) : Prop := Equal (Array px.1) (Array py.1) = false.

Lemma apart_below k px py : apart px py -> apart (k :: px.1, px.2) (k :: py.1, py.2).
Proof. unfold apart, Equal. simpl. by rewrite (cmp_refl Compare). Qed.

Lemma apart_keys k k' px py : Compare k k' <> Eq -> apart (k :: px.1, px.2) (k' :: py.1, py.2).
Proof. unfold apart, Equal. simpl. by destruct (Compare k k'). Qed.

Lemma ForallOrdPairs_app {A} (R : A -> A -> Prop) l1 l2 :
  ForallOrdPairs R l1 -> ForallOrdPairs R l2 -> (forall x y, x ∈ l1 -> y ∈ l2 -> R x y) -> ForallOrdPairs R (l1 ++ l2).
Proof.
  induction 1 as [|x l1 Hx _ IH]; intros H2 H; [done|]. simpl. constructor.
  - apply Forall_app. split; [done|]. apply Forall_forall. intros y Hy. apply H; [left|done].
  - apply IH; [done|]. intros a b Ha Hb. apply H; [by right|done].
Qed.

Lemma below_apart k l : ForallOrdPairs apart l -> ForallOrdPairs apart (below k l).
Proof.
  induction 1 as [|px l Hp _ IH]; simpl; constructor; [|done]. apply Forall_map.
  eapply Forall_impl; [exact Hp|]. intros py. apply apart_below.
Qed.

Lemma in_int64_nat n : in_int64 (Z.of_nat n) = true <-> (Z.of_nat n < two63)%Z.
Proof. unfold in_int64. rewrite andb_true_iff, Z.leb_le, Z.ltb_lt. unfold two63. lia. Qed.

Lemma Compare_index i j : in_int64 (Z.of_nat i) = true -> in_int64 (Z.of_nat j) = true ->
  Compare (index_key i) (index_key j) = Z.compare (Z.of_nat i) (Z.of_nat j).
Proof. intros Hi Hj. simpl. unfold num_compare. simpl. by rewrite Hi, Hj. Qed.

Lemma index_keys_distinct (l : list value) : forall i, in_int64 (Z.of_nat (i + length l)) = true ->
  distinct Compare fst (imap (fun j x => (index_key (i + j), x)) l).
Proof.
  induction l as [|x l IH]; intros i Hi; [constructor|]. simpl.
  assert (E : imap ((fun j x => (index_key (i + j), x)) ∘ Datatypes.S) l = imap (fun j x => (index_key (Datatypes.S i + j), x)) l).
  { apply imap_ext. intros j y _. simpl. by rewrite Nat.add_succ_r. }
  rewrite E. constructor; [|apply IH; by rewrite Nat.add_succ_comm].
  apply Forall_forall. intros kx (j & y & -> & Hy)%elem_of_lookup_imap. apply lookup_lt_Some in Hy. simpl length in Hi.
  cbn [fst]. rewrite Compare_index.
  - intros C%Z.compare_eq. simpl in C. lia.
  - rewrite in_int64_nat in *. lia.
  - rewrite in_int64_nat in *. simpl. lia.
Qed.

Lemma children_distinct v : doc v -> distinct Compare fst (children v).
Proof.
  destruct v; try (intros _; constructor); simpl.
  - intros [Hl _]%doc_array_inv. by apply (index_keys_distinct elems 0).
  - intros [Hs _]%doc_object_inv. by apply ssorted_distinct.
  - intros [Hs _]%doc_set_inv. apply ssorted_distinct in Hs.
    induction Hs as [|x l Hx _ IH]; simpl; constructor; [|done]. apply Forall_map. exact Hx.
Qed.

Lemma below_each_apart (f : value -> list (list value * value)) v : distinct Compare fst (children v) ->
  Forall (fun kx => ForallOrdPairs apart (f kx.2)) (children v) -> ForallOrdPairs apart (below_each f v).
Proof.
  unfold below_each. induction 1 as [|kx l Hk _ IH]; intros Hf; simpl; [constructor|].
  apply Forall_cons in Hf as [Hf Hl]. apply ForallOrdPairs_app; [by apply below_apart|by apply IH|].
  intros px py (a & -> & _)%list_elem_of_fmap Hy. rewrite list_elem_of_In, in_concat in Hy.
  destruct Hy as (m & (ky & <- & Hky)%in_map_iff & (b & <- & _)%in_map_iff). apply apart_keys.
  rewrite Forall_forall in Hk. apply Hk. by apply list_elem_of_In.
Qed.

Lemma all_nodes_apart v : doc v -> ForallOrdPairs apart (all_nodes v).
Proof.
  induction v as [v IH] using value_composite_ind. intros Hv. rewrite all_nodes_children. constructor.
  - apply Forall_forall. intros [p x] (kx & q & _ & E & _)%elem_below_each. simpl in E. by subst.
  - apply below_each_apart; [by apply children_distinct|]. apply Forall_forall. intros kx Hk.
    destruct (children_Get v kx Hv Hk) as [Hd _].
    destruct (children_elem v kx Hk) as [(l & i & -> & Hx & _)|[(kvs & -> & Hx)|(l & -> & Hx & _)]]; rewrite Forall_forall in IH.
    + by apply IH; [apply list_elem_of_lookup_2 with i|].
    + by apply IH.
    + by apply IH.
Qed.

Lemma filter_nodes_apart filter : Forall doc filter -> forall v, doc v -> ForallOrdPairs apart (filter_nodes filter v).
Proof.
  induction 1 as [|key filter Hkey _ IH]; intros v Hv; [by apply all_nodes_apart|]. cbn [filter_nodes].
  destruct (IsGround key).
  - destruct (Term_Get v key) as [t|] eqn:G; [|constructor]. apply below_apart, IH. by apply (Term_Get_doc v key).
  - apply below_each_apart; [by apply children_distinct|]. apply Forall_forall. intros kx Hk. by apply IH, (children_Get v kx Hv Hk).
Qed.

(** C21: [walk] calls its iterator, in order and until the first error, on pairs
    of a path and a node: each leads to its node, satisfies the filter, no path
    is visited twice, and every path in the document that satisfies the filter
    is visited.  The variant without paths visits the same nodes in the same
    order.  Number keys of the filter that are integers are written as such: [1.0]
    finds no array element ([walk_filter_literal]). *)
Theorem walk_correct {S E : Type} (iter : value -> S -> S * option E) (filter : list value) (v out : value) :
  doc v -> Forall doc filter -> Forall (fun k => canonical_key k = true) filter ->
  exists nodes : list (list value * value),
    (forall f, evalWalk iter [v; Array [Array filter; out]] = Some f ->
      forall s, f s = each iter (map (fun px => Array [Array px.1; px.2]) nodes) s) /\
    (forall p x, (p, x) ∈ nodes -> Find v p = Some x /\ matches filter p = true) /\
    (forall p x, Find v p = Some x -> matches filter p = true -> exists px, px ∈ nodes /\ same_node (p, x) px) /\
    ForallOrdPairs apart nodes /\
    (filter = [] -> forall s, walkNoPath iter v s = each iter (map (fun px => Array [Array []; px.2]) nodes) s).
Proof.
  intros Hv Hd Hc. exists (filter_nodes filter v). split_ands.
  - intros f [= <-]. intros s. apply walk_runs.
  - intros p x. by apply filter_nodes_sound.
  - intros p x. by apply filter_nodes_complete.
  - by apply filter_nodes_apart.
  - intros ->. apply walkNoPath_runs.
Qed.

Lemma walk_correct_witness :
  let v := Object [(Str "a", Array [Null; Boolean true]); (Str "b", Array [Str "x"])] in
  let filter := [Var "k"; IntNumberTerm 1] in
  doc v /\ exists nodes : list (list value * value),
    (forall p x, (p, x) ∈ nodes -> Find v p = Some x /\ matches filter p = true) /\
    exists px, px ∈ nodes /\ Equal (Array [Str "a"; IntNumberTerm 1]) (Array px.1) = true.
Proof.
  intros v filter. assert (Hv : doc v).
  { apply doc_object; [repeat constructor|]. repeat (apply Forall_cons_2 || apply Forall_nil_2); (apply doc_array; [reflexivity|]);
      repeat (apply Forall_cons_2 || apply Forall_nil_2); apply doc_leaf; reflexivity. }
  destruct (walk_correct (fun x (l : list value) => (l ++ [x], @None unit)) filter v Null Hv
    (Forall_cons_2 _ _ _ (doc_leaf (Var "k") eq_refl) (Forall_cons_2 _ _ _ (doc_leaf (IntNumberTerm 1) eq_refl) (Forall_nil_2 _)))
    ltac:(repeat constructor))
    as (nodes & _ & H1 & H2 & _).
  split; [exact Hv|]. exists nodes. split; [exact H1|].
  destruct (H2 [Str "a"; IntNumberTerm 1] (Boolean true) eq_refl eq_refl) as (px & Hp & E & _). exists px. exact (conj Hp E).
Defined.

(** A number literal that is no integer literal does not find the element of an
    array, although the path it stands in equals the path to it. *)
Lemma walk_filter_literal :
  let v := Array [Str "x"; Str "y"] in
  let one := Number (NDec 10 (-1)) in
  Equal one (IntNumberTerm 1) = true /\
  walk (fun x (l : list value) => (l ++ [x], @None unit)) [one] [] v [] = ([], None) /\
  walk (fun x (l : list value) => (l ++ [x], @None unit)) [IntNumberTerm 1] [] v [] =
    ([Array [Array [IntNumberTerm 1]; Str "y"]], None).
Proof. vm_compute. done. Qed.
