(* ===== verification/Arith.v ===== *)
(** Arithmetic on numbers: [src/topdown/arithmetic.go], [bits.go], [numbers.go],
    [sum] and [product] of [aggregates.go], and the conversions of
    [src/topdown/builtins/builtins.go].

    A [*big.Float] is the rational number it holds; [NumberToFloat] gives it 64
    bits of precision, and an operation rounds its exact result to the larger
    precision of its operands, to nearest, ties to even ([big_float]).  The sign
    of zero is not represented. *)
From Stdlib Require Import ZArith Lia QArith Qabs Qround String.
From stdpp Require Import base list strings.
From S2P Require Import Prelude SortedKeys Value Containers SetTable ObjectTable RefOps Native Builtins.

Local Open Scope Z_scope.

(** ** Conversions *)
Definition NumberToFloat (n : number) : Q := big_float (num_rat n).

(** [Float.Int]: truncation, and whether it is exact. *)
Definition Float_Int (f : Q) : Z * bool :=
  let q := Qred f in (Z.quot (Qnum q) (Zpos (Qden q)), Pos.eqb (Qden q) 1).
Definition IsInt (f : Q) : bool := (Float_Int f).2.

(** [Float.Text] with the shortest precision: the decimal with the fewest digits
    that lies within half a unit in the last place of a mantissa of 64 bits
    (the bounds included when the mantissa is even), and the nearest of them. *)
Definition float_exp (f : Q) : Z :=
  let a := Z.abs (Qnum (Qred f)) in
  let d := Zpos (Qden (Qred f)) in
  let e0 := Z.log2 a - Z.log2 d - 63 in
  let small := if 0 <=? e0 then a <? d * 2 ^ (e0 + 63) else a * 2 ^ (- e0) <? d * 2 ^ 63 in
  if small then e0 - 1 else e0.
Definition two_to (e : Z) : Q := if 0 <=? e then inject_Z (2 ^ e) else 1 # Z.to_pos (2 ^ (- e)).
Definition within_half_ulp (a c : Q) : bool :=
  let e := float_exp a in
  match Qcompare (2 * Qabs (c - a)) (two_to e) with
  | Lt => true
  | Eq => Z.even (Qfloor (a / two_to e))
  | Gt => false
  end.
Fixpoint digits_from (fuel : nat) (z : Z) : Z :=
  match fuel with
  | O => 0
  | S fuel => if z =? 0 then 0 else 1 + digits_from fuel (z / 10)
  end.
(** The number of decimal digits of a natural number. *)
Definition digits (z : Z) : Z := digits_from (S (Z.to_nat (Z.log2 z))) z.
(** The decimal exponent [x]: [10^(x-1) <= a / d < 10^x]. *)
Definition dec_exp (a d : Z) : Z := if d <=? a then digits (a / d) else 1 - digits ((d - 1) / a).
Definition nearest (a d k : Z) : Z :=
  if 0 <=? k then round_half_even a (d * 10 ^ k) else round_half_even (a * 10 ^ (- k)) d.
(** At most 21 digits identify a mantissa of 64 bits; the search stops there
    with the exact decimal. *)
Fixpoint shortest (fuel : nat) (a d x n : Z) : Z * Z :=
  match fuel with
  | O => let k := Z.log2 d in (a * 5 ^ k, - k)
  | S fuel =>
      let k := x - n in
      let m := nearest a d k in
      if within_half_ulp (a # Z.to_pos d) (num_rat (NDec m k)) then (m, k) else shortest fuel a d x (n + 1)
  end.
Definition scale10 (m k : Z) : Z := if 0 <=? k then m * 10 ^ k else m / 10 ^ (- k).
Definition FloatToNumber (f : Q) : number :=
  let n := Qnum (Qred f) in
  let d := Zpos (Qden (Qred f)) in
  if n =? 0 then NInt 0
  else
    let '(m, k) := shortest 21 (Z.abs n) d (dec_exp (Z.abs n) d) 1 in
    if IsInt f then NInt (Z.sgn n * scale10 m k) else NDec (Z.sgn n * m) k.

Definition NumberToInt (n : number) : option Z :=
  let '(r, exact) := Float_Int (NumberToFloat n) in if exact then Some r else None.
Definition IntToNumber (i : Z) : number := NInt i.
Definition BigIntOperand (x : value) (pos : nat) : res builtin_error Z :=
  match NumberOperand x 1 with
  | Err _ => Err (OperandTypeErr pos x ["integer"%string])
  | Ok n =>
      match NumberToInt n with
      | Some i => Ok i
      | None => Err (OperandErr pos "must be integer number but got floating-point number")
      end
  end.

(** ** arithmetic.go *)
Definition arithAbs (a : Q) : res builtin_error Q := Ok (Qabs a).
Definition half : Q := 1 # 2.
Definition arithRound (a : Q) : res builtin_error Q :=
  let i := if Qnum a <? 0 then (Float_Int (big_float (a - half))).1 else (Float_Int (big_float (a + half))).1 in
  Ok (inject_Z i).
(** [SetInt] is exact, and [i] has at most 64 bits when [a] is no integer. *)
Definition arithCeil (a : Q) : res builtin_error Q :=
  let i := (Float_Int a).1 in
  if (i <? 0) || Qeq_bool a (inject_Z i) then Ok (inject_Z i) else Ok (big_float (inject_Z i + 1)).
Definition arithFloor (a : Q) : res builtin_error Q :=
  let i := (Float_Int a).1 in
  if negb (i <? 0) || Qeq_bool a (inject_Z i) then Ok (inject_Z i) else Ok (big_float (inject_Z i - 1)).
Definition arithPlus (a b : Q) : res builtin_error Q := Ok (big_float (a + b)).
Definition arithMinus (a b : Q) : res builtin_error Q := Ok (big_float (a - b)).
Definition arithMultiply (a b : Q) : res builtin_error Q := Ok (big_float (a * b)).
(** [b.Int64()] is exact and zero only for zero. *)
Definition Float_Int64 (f : Q) : Z * bool :=
  let '(i, exact) := Float_Int f in
  if in_int64 i then (i, exact) else (if i <? 0 then - two63 else two63 - 1, false).
Definition arithDivide (a b : Q) : res builtin_error Q :=
  let '(i, exact) := Float_Int64 b in
  if exact && (i =? 0) then Err (PlainErr "divide by zero") else Ok (big_float (a / b)).

(** [big.Int.Int64]: the low 64 bits of the magnitude, with the sign. *)
Definition BigInt_Int64 (b : Z) : Z := let v := wrap64 (Z.abs b) in if b <? 0 then wrap64 (- v) else v.
Definition arithRem (a b : Z) : res builtin_error Z :=
  if BigInt_Int64 b =? 0 then Err (PlainErr "modulo by zero") else Ok (Z.rem a b).

Definition inSmallIntRange (num : Z) : bool := (-1000 <? num) && (num <? 1000).
Definition small_ints (n1 n2 : number) : option (Z * Z) :=
  match num_int64 n1, num_int64 n2 with
  | Some x, Some y => if inSmallIntRange x && inSmallIntRange y then Some (x, y) else None
  | _, _ => None
  end.
Definition float_result (r : res builtin_error Q) : builtin_result :=
  let? f := r in iter_on (Number (FloatToNumber f)).

Definition builtinPlus (a b : value) : builtin_result :=
  let? n1 := NumberOperand a 1 in
  let? n2 := NumberOperand b 2 in
  match small_ints n1 n2 with
  | Some (x, y) => iter_on (IntNumberTerm (x + y))
  | None => float_result (arithPlus (NumberToFloat n1) (NumberToFloat n2))
  end.
Definition builtinMultiply (a b : value) : builtin_result :=
  let? n1 := NumberOperand a 1 in
  let? n2 := NumberOperand b 2 in
  match small_ints n1 n2 with
  | Some (x, y) => iter_on (IntNumberTerm (x * y))
  | None => float_result (arithMultiply (NumberToFloat n1) (NumberToFloat n2))
  end.
Definition builtinArithArity1 (fn : Q -> res builtin_error Q) (a : value) : builtin_result :=
  let? n := NumberOperand a 1 in float_result (fn (NumberToFloat n)).
Definition builtinArithArity2 (fn : Q -> Q -> res builtin_error Q) (a b : value) : builtin_result :=
  let? n1 := NumberOperand a 1 in
  let? n2 := NumberOperand b 2 in
  float_result (fn (NumberToFloat n1) (NumberToFloat n2)).
Definition builtinMinus (a b : value) : builtin_result :=
  match a, b with
  | Number n1, Number n2 =>
      match small_ints n1 n2 with
      | Some (x, y) => iter_on (IntNumberTerm (x - y))
      | None => float_result (arithMinus (NumberToFloat n1) (NumberToFloat n2))
      end
  | SetV s1, SetV s2 => iter_on (SetV (set_diff s1 s2))
  | SetV _, Number _ => Err (OperandTypeErr 2 b ["set"%string])
  | (Number _ | SetV _), _ => Err (OperandTypeErr 2 b ["number"%string])
  | _, _ => Err (OperandTypeErr 1 a ["number"; "set"]%string)
  end.
Definition builtinRem (a b : value) : builtin_result :=
  match a, b with
  | Number n1, Number n2 =>
      match small_ints n1 n2 with
      | Some (x, y) =>
          if y =? 0 then Err (PlainErr "modulo by zero") else iter_on (IntNumberTerm (Z.rem x y))
      | None =>
          match NumberToInt n1, NumberToInt n2 with
          | Some op1, Some op2 => let? i := arithRem op1 op2 in iter_on (Number (IntToNumber i))
          | _, _ => Err (PlainErr "modulo on floating-point number")
          end
      end
  | Number _, _ => Err (OperandTypeErr 2 b ["number"%string])
  | _, _ => Err (OperandTypeErr 1 a ["number"%string])
  end.

(** ** bits.go *)
Definition bitsOr (a b : Z) : res builtin_error Z := Ok (Z.lor a b).
Definition bitsAnd (a b : Z) : res builtin_error Z := Ok (Z.land a b).
Definition bitsNegate (a : Z) : res builtin_error Z := Ok (Z.lnot a).
Definition bitsXOr (a b : Z) : res builtin_error Z := Ok (Z.lxor a b).
(** [uint(b.Uint64())]: the low 64 bits. *)
Definition bitsShiftLeft (a b : Z) : res builtin_error Z :=
  if b <? 0 then Err (OperandErr 2 "must be an unsigned integer number but got a negative integer")
  else Ok (Z.shiftl a (b mod two64)).
Definition bitsShiftRight (a b : Z) : res builtin_error Z :=
  if b <? 0 then Err (OperandErr 2 "must be an unsigned integer number but got a negative integer")
  else Ok (Z.shiftr a (b mod two64)).
Definition builtinBitsArity1 (fn : Z -> res builtin_error Z) (a : value) : builtin_result :=
  let? i := BigIntOperand a 1 in let? iOut := fn i in iter_on (Number (IntToNumber iOut)).
Definition builtinBitsArity2 (fn : Z -> Z -> res builtin_error Z) (a b : value) : builtin_result :=
  let? i1 := BigIntOperand a 1 in
  let? i2 := BigIntOperand b 2 in
  let? iOut := fn i1 i2 in iter_on (Number (IntToNumber iOut)).

(** ** sum and product *)
Fixpoint fold_numbers (op : Q -> Q -> Q) (a : value) (acc : Q) (l : list value) : res builtin_error Q :=
  match l with
  | [] => Ok acc
  | Number n :: l => fold_numbers op a (op acc (NumberToFloat n)) l
  | x :: _ => Err (OperandElementErr 1 a x ["number"%string])
  end.
Definition builtinSum (a : value) : builtin_result :=
  match a with
  | Array l | SetV l => float_result (fold_numbers (fun s x => big_float (s + x)) a 0 l)
  | _ => Err (OperandTypeErr 1 a ["set"; "array"]%string)
  end.
Definition builtinProduct (a : value) : builtin_result :=
  match a with
  | Array l | SetV l => float_result (fold_numbers (fun p x => big_float (p * x)) a 1 l)
  | _ => Err (OperandTypeErr 1 a ["set"; "array"]%string)
  end.

(** ** numbers.go *)

(** The loop of [generateRange]: [cancelled i] is what [Cancelled] says in the
    round [i]; the outer [None] is for lack of fuel. *)
Fixpoint range_loop (fuel : nat) (cancelled : nat -> bool) (round : nat) (up : bool) (i y step : Z) :
    option (option (list Z)) :=
  match fuel with
  | O => None
  | S fuel =>
      if (if up then i <=? y else y <=? i) then
        if cancelled round then Some None
        else option_map (option_map (cons i))
               (range_loop fuel cancelled (S round) up (if up then i + step else i - step) y step)
      else Some (Some [])
  end.
Definition generateRange (cancelled : nat -> bool) (x y step : Z) (funcName : string) : option builtin_result :=
  option_map
    (fun r => match r with
              | Some l => iter_on (Array (map (fun i => Number (IntToNumber i)) l))
              | None => Err (PlainErr (funcName ++ ": timed out before generating all numbers in range"))
              end)
    (range_loop (Z.to_nat (Z.abs (y - x) / step) + 2) cancelled 0 (x <=? y) x y step).
Definition builtinNumbersRange (cancelled : nat -> bool) (a b : value) : option builtin_result :=
  match BigIntOperand a 1, BigIntOperand b 2 with
  | Err e, _ | _, Err e => Some (Err e)
  | Ok x, Ok y => generateRange cancelled x y 1 "numbers.range"
  end.
Definition builtinNumbersRangeStep (cancelled : nat -> bool) (a b c : value) : option builtin_result :=
  match BigIntOperand a 1, BigIntOperand b 2, BigIntOperand c 3 with
  | Err e, _, _ | _, Err e, _ | _, _, Err e => Some (Err e)
  | Ok x, Ok y, Ok step =>
      if step <=? 0 then Some (Err (PlainErr "numbers.range_step: step must be a positive number above zero"))
      else generateRange cancelled x y step "numbers.range_step"
  end.

(** * Integers of 64 bits are exact *)
Definition exact64 (z : Z) : Prop := Z.abs z < two64.

Lemma round_half_even_1 n : round_half_even n 1 = n.
Proof. unfold round_half_even. rewrite Z.div_1_r, Z.mod_1_r. done. Qed.

Lemma round_half_even_mul n d : 0 < d -> round_half_even (n * d) d = n.
Proof. intros Hd. unfold round_half_even. rewrite Z.div_mul, Z.mod_mul by lia. by destruct d. Qed.

Lemma sgn_abs z : Z.sgn z * Z.abs z = z.
Proof. by destruct z. Qed.

Lemma log2_64 a : 0 < a < two64 -> 0 <= Z.log2 a <= 63.
Proof. unfold two64. intros H. split; [apply Z.log2_nonneg|]. assert (Z.log2 a < 64) by (apply Z.log2_lt_pow2; lia). lia. Qed.

Lemma float_exp_int z : z <> 0 -> exact64 z -> float_exp (inject_Z z) = Z.log2 (Z.abs z) - 63.
Proof.
  intros Hz H. unfold float_exp, inject_Z. rewrite Qred_int. cbn [Qnum Qden].
  assert (Ha : 0 < Z.abs z < two64) by (unfold exact64 in H; lia). pose proof (log2_64 _ Ha) as L.
  destruct (Z.log2_spec (Z.abs z) ltac:(lia)) as [L1 _]. change (Z.log2 1) with 0. rewrite Z.sub_0_r, !Z.mul_1_l.
  set (a := Z.abs z) in *. set (g := Z.log2 a) in *.
  assert (B : (if 0 <=? g - 63 then a <? 2 ^ (g - 63 + 63) else a * 2 ^ (- (g - 63)) <? 2 ^ 63) = false); [|by rewrite B].
  destruct (0 <=? g - 63) eqn:E; apply Z.ltb_ge.
  - by replace (g - 63 + 63) with g by lia.
  - replace 63 with (g + - (g - 63)) at 1 by lia. rewrite Z.pow_add_r by lia. apply Z.mul_le_mono_nonneg_r; lia.
Qed.

Lemma big_float_int z : exact64 z -> (big_float (inject_Z z) == inject_Z z)%Q.
Proof.
  intros H. destruct (Z.eq_dec z 0) as [->|Hz]; [done|].
  pose proof (float_exp_int z Hz H) as E. unfold big_float. unfold float_exp in E. cbv zeta in E. unfold inject_Z in *.
  rewrite Qred_int in *. cbn [Qnum Qden] in *. destruct (z =? 0) eqn:Z0; [lia|]. rewrite E. clear E.
  assert (Ha : 0 < Z.abs z < two64) by (unfold exact64 in H; lia). pose proof (log2_64 _ Ha) as L.
  set (e := Z.log2 (Z.abs z) - 63) in *. destruct (0 <=? e) eqn:Ee.
  - assert (e = 0) as -> by lia. rewrite !Z.mul_1_r, round_half_even_1. unfold Qeq. cbn [Qnum Qden inject_Z].
    rewrite !Z.mul_1_r. apply sgn_abs.
  - rewrite round_half_even_1. unfold Qeq. cbn [Qnum Qden]. rewrite Z.mul_1_r, Z.mul_assoc, sgn_abs.
    by rewrite Z2Pos.id by (apply Z.pow_pos_nonneg; lia).
Qed.

(** ** Floats that are integers *)
Lemma Float_Int_int f z : (f == inject_Z z)%Q -> Float_Int f = (z, true).
Proof.
  intros E. unfold Float_Int. rewrite (Qred_complete _ _ E). unfold inject_Z. rewrite Qred_int. cbn [Qnum Qden].
  by rewrite Z.quot_1_r.
Qed.

Lemma within_half_ulp_int a c : 0 < a < two64 -> within_half_ulp (inject_Z a) (inject_Z c) = true -> c = a.
Proof.
  intros Ha. unfold within_half_ulp. rewrite float_exp_int by (unfold exact64; lia). rewrite Z.abs_eq by lia.
  pose proof (log2_64 a Ha) as L. set (e := Z.log2 a - 63). intros H.
  assert (Q : (2 * Qabs (inject_Z c - inject_Z a) <= two_to e)%Q).
  { apply Qle_alt. intros G. by rewrite G in H. }
  assert (T : (two_to e <= 1)%Q).
  { unfold two_to. destruct (0 <=? e) eqn:Ee; [by assert (e = 0) as -> by lia|]. unfold Qle. cbn [Qnum Qden]. lia. }
  pose proof (Qle_trans _ _ _ Q T) as R. unfold Qle in R. simpl in R. lia.
Qed.

Lemma shortest_int fuel a x : 0 < a < two64 -> forall n,
  let '(m, k) := shortest fuel a 1 x n in scale10 m k = a.
Proof.
  intros Ha. induction fuel as [|fuel IH]; intros n; cbn [shortest].
  { change (Z.log2 1) with 0. unfold scale10. simpl. lia. }
  change (Z.to_pos 1) with 1%positive. destruct (within_half_ulp _ _) eqn:W; [|apply IH].
  unfold nearest, scale10 in *. cbn [num_rat] in W. destruct (0 <=? x - n) eqn:E.
  - by apply (within_half_ulp_int a) in W.
  - rewrite round_half_even_1. apply Z.div_mul. assert (0 < 10 ^ (- (x - n))) by (apply Z.pow_pos_nonneg; lia). lia.
Qed.

Lemma FloatToNumber_int f z : (f == inject_Z z)%Q -> exact64 z -> FloatToNumber f = NInt z.
Proof.
  intros E H. unfold FloatToNumber, IsInt. rewrite (Float_Int_int f z E), (Qred_complete _ _ E). unfold inject_Z.
  rewrite Qred_int. cbn [Qnum Qden snd]. destruct (z =? 0) eqn:Z0; [f_equal; lia|].
  assert (Ha : 0 < Z.abs z < two64) by (unfold exact64 in H; lia).
  pose proof (shortest_int 21 (Z.abs z) (dec_exp (Z.abs z) 1) Ha 1) as S.
  destruct (shortest 21 (Z.abs z) 1 (dec_exp (Z.abs z) 1) 1) as [m k]. rewrite S. f_equal. apply sgn_abs.
Qed.

Lemma big_float_eq q z : (q == inject_Z z)%Q -> exact64 z -> (big_float q == inject_Z z)%Q.
Proof.
  intros E H. assert (big_float q = big_float (inject_Z z)) as ->; [|by apply big_float_int].
  unfold big_float. by rewrite (Qred_complete _ _ E).
Qed.

Lemma NumberToFloat_int z : exact64 z -> (NumberToFloat (NInt z) == inject_Z z)%Q.
Proof. apply big_float_int. Qed.

Lemma NumberToInt_int z : exact64 z -> NumberToInt (NInt z) = Some z.
Proof. intros H. unfold NumberToInt. by rewrite (Float_Int_int _ z (NumberToFloat_int z H)). Qed.

Lemma BigIntOperand_int z pos : exact64 z -> BigIntOperand (Number (NInt z)) pos = Ok z.
Proof. intros H. unfold BigIntOperand. simpl. by rewrite NumberToInt_int. Qed.

(** A float operation that agrees with an operation on integers. *)
Lemma float_result_int (fop : Q -> Q -> Q) (zop : Z -> Z -> Z) x y :
  (forall a b, (a == inject_Z x)%Q -> (b == inject_Z y)%Q -> (fop a b == inject_Z (zop x y))%Q) ->
  exact64 x -> exact64 y -> exact64 (zop x y) ->
  float_result (Ok (big_float (fop (NumberToFloat (NInt x)) (NumberToFloat (NInt y))))) =
    iter_on (Number (NInt (zop x y))).
Proof.
  intros Hop Hx Hy Hz. unfold float_result. cbn [res_bind].
  rewrite (FloatToNumber_int _ (zop x y)); [done| |done]. apply big_float_eq; [|done].
  by apply Hop; apply NumberToFloat_int.
Qed.

Lemma plus_Z a b x y : (a == inject_Z x)%Q -> (b == inject_Z y)%Q -> (a + b == inject_Z (x + y))%Q.
Proof. intros -> ->. by rewrite inject_Z_plus. Qed.
Lemma minus_Z a b x y : (a == inject_Z x)%Q -> (b == inject_Z y)%Q -> (a - b == inject_Z (x - y))%Q.
Proof. intros -> ->. unfold Z.sub. by rewrite inject_Z_plus, inject_Z_opp. Qed.
Lemma mult_Z a b x y : (a == inject_Z x)%Q -> (b == inject_Z y)%Q -> (a * b == inject_Z (x * y))%Q.
Proof. intros -> ->. by rewrite inject_Z_mult. Qed.

(** The small integers take the shortcut. *)
Lemma small_ints_spec x y :
  small_ints (NInt x) (NInt y) = Some (x, y) \/ small_ints (NInt x) (NInt y) = None.
Proof.
  unfold small_ints. simpl. destruct (in_int64 x), (in_int64 y); try by right.
  destruct (inSmallIntRange x && inSmallIntRange y); auto.
Qed.

Lemma BigInt_Int64_nonzero b : 0 < Z.abs b < two64 -> BigInt_Int64 b <> 0.
Proof.
  intros H E. unfold BigInt_Int64 in E.
  assert (W : forall v, wrap64 v = 0 -> v mod two64 = 0) by (intros v Hv; by rewrite <- wrap64_mod, Hv).
  assert (N : two64 <> 0) by done.
  assert (Hw : wrap64 (Z.abs b) mod two64 = 0).
  { destruct (b <? 0); [|by rewrite E]. apply W, Z.mod_divide in E; [|done].
    by apply Z.mod_divide, Z.divide_opp_r. }
  rewrite wrap64_mod, Z.mod_small in Hw; lia.
Qed.

(** Whole numbers of floats. *)
Lemma Float_Int_trunc f : (Float_Int f).1 = if Qlt_le_dec f 0 then Qceiling f else Qfloor f.
Proof.
  unfold Float_Int. cbn [fst].
  assert (C : Qceiling f = Qceiling (Qred f)) by (by rewrite Qred_correct).
  assert (F : Qfloor f = Qfloor (Qred f)) by (by rewrite Qred_correct).
  destruct (Qlt_le_dec f 0) as [L|L]; rewrite <- (Qred_correct f) in L; unfold Qlt, Qle in L; cbn [Qnum Qden] in L.
  - rewrite C. unfold Qceiling, Qfloor. destruct (Qred f) as [n d]. simpl in *. 
    replace n with (- - n) at 1 by lia. rewrite Z.quot_opp_l by done. rewrite Z.quot_div_nonneg by lia. done.
  - rewrite F. unfold Qfloor. destruct (Qred f) as [n d]. simpl in *. rewrite Z.quot_div_nonneg by lia. done.
Qed.

Abbreviation num z := (Number (NInt z)).

(** Sums and products of integers. *)
Lemma fold_ints (fop : Q -> Q -> Q) (zop : Z -> Z -> Z) a l : forall q z,
  (forall q z p x, (q == inject_Z z)%Q -> (p == inject_Z x)%Q -> (fop q p == inject_Z (zop z x))%Q) ->
  (q == inject_Z z)%Q -> Forall exact64 l ->
  (forall k, exact64 (fold_left zop (take k l) z)) ->
  exists r, fold_numbers (fun s x => big_float (fop s x)) a q (map (fun x => num x) l) = Ok r /\
    (r == inject_Z (fold_left zop l z))%Q.
Proof.
  induction l as [|x l IH]; intros q z Hop Hq Hl Hp; [by exists q|]. apply Forall_cons in Hl as [Hx Hl]. simpl.
  apply IH; [done| |done|intros k; exact (Hp (S k))].
  apply big_float_eq; [by apply Hop, NumberToFloat_int|exact (Hp 1%nat)].
Qed.

(** On integers below 2^64 in magnitude, with a result below 2^64, the
    arithmetic functions are exact, whether they take the shortcut for small
    integers or go through big floats: addition, subtraction, multiplication,
    the remainder truncated towards zero, division when it comes out even, and
    [sum] and [product] when the partial results stay below 2^64; the divisor
    zero is an error. *)
Theorem integer_arithmetic (x y : Z) (l : list Z) :
  exact64 x -> exact64 y -> Forall exact64 l ->
  (exact64 (x + y) -> builtinPlus (num x) (num y) = iter_on (num (x + y))) /\
  (exact64 (x - y) -> builtinMinus (num x) (num y) = iter_on (num (x - y))) /\
  (exact64 (x * y) -> builtinMultiply (num x) (num y) = iter_on (num (x * y))) /\
  builtinRem (num x) (num y) = (if y =? 0 then Err (PlainErr "modulo by zero") else iter_on (num (Z.rem x y))) /\
  (exact64 (x * y) -> y <> 0 -> builtinArithArity2 arithDivide (num (x * y)) (num y) = iter_on (num x)) /\
  builtinArithArity2 arithDivide (num x) (num 0) = Err (PlainErr "divide by zero") /\
  ((forall k, exact64 (fold_left Z.add (take k l) 0)) ->
    builtinSum (Array (map (fun x => num x) l)) = iter_on (num (fold_left Z.add l 0))) /\
  ((forall k, exact64 (fold_left Z.mul (take k l) 1)) ->
    builtinProduct (Array (map (fun x => num x) l)) = iter_on (num (fold_left Z.mul l 1))).
Proof.
  intros Hx Hy Hl. split_ands.
  - intros Hz. unfold builtinPlus. cbn [NumberOperand res_bind].
    destruct (small_ints_spec x y) as [-> | ->]; [done|]. apply (float_result_int Qplus); auto using plus_Z.
  - intros Hz. unfold builtinMinus. destruct (small_ints_spec x y) as [-> | ->]; [done|].
    apply (float_result_int Qminus Z.sub); auto using minus_Z.
  - intros Hz. unfold builtinMultiply. cbn [NumberOperand res_bind].
    destruct (small_ints_spec x y) as [-> | ->]; [done|]. apply (float_result_int Qmult); auto using mult_Z.
  - unfold builtinRem. destruct (small_ints_spec x y) as [-> | ->]; [done|]. rewrite !NumberToInt_int by done.
    unfold arithRem. destruct (y =? 0) eqn:E; [by apply Z.eqb_eq in E as ->|].
    assert (BigInt_Int64 y <> 0) as N by (apply BigInt_Int64_nonzero; unfold exact64 in Hy; lia).
    by apply Z.eqb_neq in N as ->.
  - intros Hz Hy0. unfold builtinArithArity2, arithDivide. cbn [NumberOperand res_bind].
    pose proof (NumberToFloat_int y Hy) as Ey. unfold Float_Int64. rewrite (Float_Int_int _ y Ey).
    assert (B : forall (b : bool) i, (let '(i, exact) := if b then (y, true) else (i, false) in
      if exact && (i =? 0) then Err (PlainErr "divide by zero")
      else Ok (big_float (NumberToFloat (NInt (x * y)) / NumberToFloat (NInt y)))) =
      Ok (big_float (NumberToFloat (NInt (x * y)) / NumberToFloat (NInt y)))).
    { intros [] i; [|done]. simpl. by apply Z.eqb_neq in Hy0 as ->. }
    rewrite B. unfold float_result. cbn [res_bind]. rewrite (FloatToNumber_int _ x); [done| |done].
    apply big_float_eq; [|done]. rewrite Ey, (NumberToFloat_int _ Hz), inject_Z_mult. apply Qdiv_mult_l.
    intros E. unfold Qeq in E. simpl in E. lia.
  - done.
  - intros Hp. destruct (fold_ints Qplus Z.add (Array (map (fun x => num x) l)) l 0 0) as (r & E & Hr);
      [intros; by apply plus_Z|done|done|done|]. unfold builtinSum, float_result. rewrite E. cbn [res_bind].
    rewrite (FloatToNumber_int r _ Hr); [done|]. specialize (Hp (length l)). by rewrite firstn_all in Hp.
  - intros Hp. destruct (fold_ints Qmult Z.mul (Array (map (fun x => num x) l)) l 1 1) as (r & E & Hr);
      [intros; by apply mult_Z|done|done|done|]. unfold builtinProduct, float_result. rewrite E. cbn [res_bind].
    rewrite (FloatToNumber_int r _ Hr); [done|]. specialize (Hp (length l)). by rewrite firstn_all in Hp.
Qed.

Lemma integer_arithmetic_witness :
  exact64 999 /\ exact64 18446744073709550000 /\
  builtinPlus (num 999) (num 18446744073709550000) = iter_on (num 18446744073709550999) /\
  builtinPlus (num 999) (num 999) = iter_on (num 1998).
Proof.
  assert (H1 : exact64 999) by reflexivity. assert (H2 : exact64 18446744073709550000) by reflexivity.
  split; [exact H1|]. split; [exact H2|]. split.
  - exact (proj1 (integer_arithmetic 999 18446744073709550000 [] H1 H2 (Forall_nil_2 _)) eq_refl).
  - exact (proj1 (integer_arithmetic 999 999 [] H1 H1 (Forall_nil_2 _)) eq_refl).
Defined.

(** ** Rounding *)
Lemma Qfloor_int q z : (q == inject_Z z)%Q -> Qfloor q = z /\ Qceiling q = z.
Proof. intros ->. by rewrite Qfloor_Z, Qceiling_Z. Qed.

Lemma Qceiling_floor f : ~ (f == inject_Z (Qfloor f))%Q -> Qceiling f = Qfloor f + 1.
Proof.
  intros N. pose proof (Qfloor_le f) as F1. pose proof (Qlt_floor f) as F2.
  pose proof (Qle_ceiling f) as C1. pose proof (Qceiling_lt f) as C2.
  assert (Qfloor f < Qceiling f).
  { rewrite Zlt_Qlt. eapply Qlt_le_trans; [|exact C1]. apply Qle_lteq in F1 as [F1|F1]; [done|]. by destruct N. }
  assert (Qceiling f - 1 < Qfloor f + 1).
  { rewrite Zlt_Qlt. by eapply Qlt_trans. }
  lia.
Qed.

Lemma Qfloor_comp_eq p q : (p == q)%Q -> Qfloor p = Qfloor q /\ Qceiling p = Qceiling q.
Proof. by intros ->. Qed.

Lemma ceil_floor_ok f : exact64 (Qceiling f) -> exact64 (Qfloor f) -> (f <= -1 \/ 0 <= f)%Q ->
  exists c d, arithCeil f = Ok c /\ (c == inject_Z (Qceiling f))%Q /\ arithFloor f = Ok d /\ (d == inject_Z (Qfloor f))%Q.
Proof.
  intros Hc Hf Hr. pose proof (Float_Int_trunc f) as T. unfold arithCeil, arithFloor. rewrite T. destruct (Qlt_le_dec f 0) as [L|L].
  - destruct Hr as [Hr|Hr]; [|by apply Qle_not_lt in Hr].
    assert (Qceiling f < 0). { apply Z.le_lt_trans with (-1); [|done]. rewrite <- (Qceiling_Z (-1)). by apply Qceiling_resp_le. }
    destruct (Qceiling f <? 0) eqn:B; [|lia]. simpl. destruct (Qeq_bool f (inject_Z (Qceiling f))) eqn:E.
    + apply Qeq_bool_eq in E. destruct (Qfloor_int f _ E) as [F1 _]. eexists _, _. split_ands; [done..|]. by rewrite F1.
    + apply Qeq_bool_neq in E. eexists _, _. split_ands; [done..|].
      assert (N : Qceiling f = Qfloor f + 1). { apply Qceiling_floor. intros E'. apply E. by rewrite (proj2 (Qfloor_int f _ E')). }
      apply big_float_eq; [|done]. rewrite N, inject_Z_plus. field.
  - assert (0 <= Qfloor f). { rewrite <- (Qfloor_Z 0). by apply Qfloor_resp_le. }
    destruct (Qfloor f <? 0) eqn:B; [lia|]. simpl. destruct (Qeq_bool f (inject_Z (Qfloor f))) eqn:E.
    + apply Qeq_bool_eq in E. destruct (Qfloor_int f _ E) as [_ C1]. eexists _, _. split_ands; [done| |done|done]. by rewrite C1.
    + apply Qeq_bool_neq in E. eexists _, _. split_ands; [done| |done|done].
      assert (N : Qceiling f = Qfloor f + 1) by (by apply Qceiling_floor).
      apply big_float_eq; [|done]. rewrite N, inject_Z_plus. field.
Qed.

Lemma ceil_floor_between f : (-1 < f < 0)%Q ->
  exists c d, arithCeil f = Ok c /\ (c == 1)%Q /\ arithFloor f = Ok d /\ (d == 0)%Q.
Proof.
  intros [L1 L2]. pose proof (Float_Int_trunc f) as T. assert (C0 : Qceiling f = 0).
  { pose proof (Qle_ceiling f) as C1. pose proof (Qceiling_lt f) as C2.
    assert (-1 < Qceiling f) by (rewrite Zlt_Qlt; by eapply Qlt_le_trans).
    assert (Qceiling f - 1 < 0) by (rewrite Zlt_Qlt; by eapply Qlt_trans). lia. }
  destruct (Qlt_le_dec f 0) as [_|L]; [|by apply Qle_not_lt in L]. unfold arithCeil, arithFloor. rewrite T, C0. simpl.
  destruct (Qeq_bool f (inject_Z 0)) eqn:E; [apply Qeq_bool_eq in E; rewrite E in L2; by apply Qlt_irrefl in L2|].
  eexists _, _. by split_ands.
Qed.

Lemma round_below f : (f < 0)%Q -> (big_float (f - half) == f - half)%Q ->
  arithRound f = Ok (inject_Z (- Qfloor (- f + half))).
Proof.
  intros L E. unfold arithRound. destruct (Qnum f <? 0) eqn:B; [|unfold Qlt in L; simpl in L; lia].
  rewrite Float_Int_trunc. destruct (Qlt_le_dec (big_float (f - half)) 0) as [_|L'].
  - rewrite (proj2 (Qfloor_comp_eq _ _ E)). unfold Qceiling. do 3 f_equal. apply Qfloor_comp_eq. ring.
  - exfalso. rewrite E in L'. apply (Qlt_not_le f 0 L). apply Qle_trans with (f - half)%Q; [done|].
    unfold Qle, half. simpl. lia.
Qed.

Lemma round_above f : (0 <= f)%Q -> (big_float (f + half) == f + half)%Q ->
  arithRound f = Ok (inject_Z (Qfloor (f + half))).
Proof.
  intros L E. unfold arithRound. destruct (Qnum f <? 0) eqn:B; [unfold Qle in L; simpl in L; lia|].
  rewrite Float_Int_trunc. destruct (Qlt_le_dec (big_float (f + half)) 0) as [L'|_].
  - exfalso. rewrite E in L'. apply (Qlt_not_le _ _ L'). apply Qle_trans with f; [done|]. unfold Qle, half. simpl. lia.
  - by rewrite (proj1 (Qfloor_comp_eq _ _ E)).
Qed.

(** C37: [ceil] and [floor] give the ceiling and the floor, except for numbers
    strictly between -1 and 0, where they give 1 and 0; [round] gives the nearest
    integer, halves away from zero, whenever the number plus or minus one half
    is represented exactly. *)
Theorem rounding_correct (f : Q) :
  exact64 (Qceiling f) -> exact64 (Qfloor f) ->
  ((f <= -1 \/ 0 <= f)%Q -> exists c d, arithCeil f = Ok c /\ (c == inject_Z (Qceiling f))%Q /\
    arithFloor f = Ok d /\ (d == inject_Z (Qfloor f))%Q) /\
  ((-1 < f < 0)%Q -> exists c d, arithCeil f = Ok c /\ (c == 1)%Q /\ arithFloor f = Ok d /\ (d == 0)%Q) /\
  ((f < 0)%Q -> (big_float (f - half) == f - half)%Q -> arithRound f = Ok (inject_Z (- Qfloor (- f + half)))) /\
  ((0 <= f)%Q -> (big_float (f + half) == f + half)%Q -> arithRound f = Ok (inject_Z (Qfloor (f + half)))).
Proof.
  intros Hc Hf. split_ands.
  - by apply ceil_floor_ok.
  - apply ceil_floor_between.
  - apply round_below.
  - apply round_above.
Qed.

Lemma rounding_correct_witness :
  exact64 (Qceiling (5 # 2)) /\ exact64 (Qfloor (5 # 2)) /\ arithRound (5 # 2) = Ok (inject_Z 3) /\
  exists c, arithCeil (5 # 2) = Ok c /\ (c == inject_Z 3)%Q.
Proof.
  assert (H1 : exact64 (Qceiling (5 # 2))) by reflexivity. assert (H2 : exact64 (Qfloor (5 # 2))) by reflexivity.
  destruct (rounding_correct (5 # 2) H1 H2) as (C & _ & _ & R).
  assert (L : (0 <= 5 # 2)%Q) by (intros E; discriminate E).
  split; [exact H1|]. split; [exact H2|]. split; [exact (R L eq_refl)|].
  destruct (C (or_intror L)) as (c & d & E & Hc & _). exists c. exact (conj E Hc).
Defined.

(** [ceil(-0.5)] is 1 and [floor(-0.5)] is 0. *)
Lemma ceil_minus_half :
  builtinArithArity1 arithCeil (Number (NDec (-5) (-1))) = iter_on (num 1) /\
  builtinArithArity1 arithFloor (Number (NDec (-5) (-1))) = iter_on (num 0).
Proof. vm_compute. done. Qed.

(** [round] moves odd integers from 2^63 to 2^64: one half is added and the sum
    is rounded to even. *)
Lemma round_moves_integers :
  builtinArithArity1 arithRound (num 9223372036854775809) = iter_on (num 9223372036854775810).
Proof. vm_compute. done. Qed.

(** Multiples of 2^64 are taken for zero by the remainder, shift counts are taken
    modulo 2^64, and integers of more than 64 bits are rounded. *)
Lemma low_bits_only :
  builtinRem (num 5) (num two64) = Err (PlainErr "modulo by zero") /\
  builtinBitsArity2 bitsShiftRight (num 5) (num two64) = iter_on (num 5) /\
  builtinBitsArity2 bitsOr (num (two64 + 1)) (num 0) = iter_on (num two64).
Proof. vm_compute. done. Qed.

(** ** Ranges *)
Lemma range_loop_ok cancelled (up : bool) step y : 0 < step -> (forall r, cancelled r = false) ->
  let dir := if up then step else - step in
  let inside (v : Z) := if up then v <=? y else y <=? v in
  forall fuel r i, (Z.to_nat ((if up then y - i else i - y) / step + 1) < fuel)%nat ->
  exists l, range_loop fuel cancelled r up i y step = Some (Some l) /\
    forall k, l !! k = let v := i + Z.of_nat k * dir in if inside v then Some v else None.
Proof.
  intros Hs Hc dir inside. induction fuel as [|fuel IH]; intros r i Hf; [lia|]. cbn [range_loop].
  change (if up then i <=? y else y <=? i) with (inside i). destruct (inside i) eqn:I.
  2: { exists []. split; [done|]. intros k. assert (inside (i + Z.of_nat k * dir) = false) as ->; [|done].
    subst inside dir. simpl in *. destruct up; apply Z.leb_gt in I; apply Z.leb_gt; nia. }
  rewrite Hc. change (if up then i + step else i - step) with (if up then i + step else i + - step).
  assert (E : (if up then i + step else i + - step) = i + dir) by (by destruct up). rewrite E.
  destruct (IH (S r) (i + dir)) as (l & -> & Hl).
  - assert (D : (if up then y - (i + dir) else i + dir - y) = (if up then y - i else i - y) + -1 * step)
      by (subst dir; destruct up; lia). rewrite D, Z.div_add by lia.
    assert (0 <= (if up then y - i else i - y)) by (subst inside; simpl in I; destruct up; lia).
    assert (0 <= (if up then y - i else i - y) / step) by (apply Z.div_pos; lia). lia.
  - exists (i :: l). split; [done|]. intros [|k]; simpl lookup.
    + cbv zeta. rewrite Z.mul_0_l, Z.add_0_r. by rewrite I.
    + rewrite Hl. cbv zeta. by replace (i + Z.of_nat (S k) * dir) with (i + dir + Z.of_nat k * dir) by lia.
Qed.

Lemma generateRange_ok cancelled x y step name : (forall r, cancelled r = false) -> 0 < step ->
  exists l, generateRange cancelled x y step name = Some (iter_on (Array (map (fun i => num i) l))) /\
    forall k, l !! k = let v := if x <=? y then x + Z.of_nat k * step else x - Z.of_nat k * step in
                       if (if x <=? y then v <=? y else y <=? v) then Some v else None.
Proof.
  intros Hc Hs. unfold generateRange. set (up := x <=? y).
  destruct (range_loop_ok cancelled up step y Hs Hc (Z.to_nat (Z.abs (y - x) / step) + 2) 0 x) as (l & -> & Hl).
  - assert ((if up then y - x else x - y) = Z.abs (y - x)) as -> by (subst up; destruct (x <=? y) eqn:E; lia).
    assert (0 <= Z.abs (y - x) / step) by (apply Z.div_pos; lia). lia.
  - exists l. split; [done|]. intros k. rewrite Hl. cbv zeta. destruct up; [done|].
    by replace (x + Z.of_nat k * - step) with (x - Z.of_nat k * step) by lia.
Qed.

(** [numbers.range_step] on integers returns the arithmetic progression from
    the first number towards the second, up to and including it when it is hit;
    [numbers.range] is the step one; a step that is not positive is an error, and
    a cancelled query stops the loop. *)
Theorem numbers_range (cancelled : nat -> bool) (x y step : Z) :
  exact64 x -> exact64 y -> exact64 step -> (forall r, cancelled r = false) ->
  let up := x <=? y in
  (0 < step -> exists l,
    builtinNumbersRangeStep cancelled (num x) (num y) (num step) = Some (iter_on (Array (map (fun i => num i) l))) /\
    forall k, l !! k = let v := if up then x + Z.of_nat k * step else x - Z.of_nat k * step in
                       if (if up then v <=? y else y <=? v) then Some v else None) /\
  (step <= 0 -> exists e, builtinNumbersRangeStep cancelled (num x) (num y) (num step) = Some (Err e)) /\
  (exists l, builtinNumbersRange cancelled (num x) (num y) = Some (iter_on (Array (map (fun i => num i) l))) /\
    length l = Z.to_nat (Z.abs (y - x) + 1)) /\
  exists e, builtinNumbersRange (fun _ => true) (num x) (num y) = Some (Err e).
Proof.
  intros Hx Hy Hs Hc up.
  pose proof (fun step name => generateRange_ok cancelled x y step name Hc) as R. fold up in R.
  unfold builtinNumbersRangeStep, builtinNumbersRange. rewrite !BigIntOperand_int by done. split_ands.
  - intros Hp. destruct (step <=? 0) eqn:E; [lia|]. by apply R.
  - intros Hp. destruct (step <=? 0) eqn:E; [by eexists|lia].
  - destruct (R 1 "numbers.range"%string ltac:(done)) as (l & E & Hl). exists l. split; [done|].
    apply (Nat.le_antisymm); apply Nat.nlt_ge; intros L.
    + apply lookup_lt_is_Some in L as [v Hv]. rewrite Hl in Hv. cbv zeta in Hv.
      subst up. destruct (x <=? y) eqn:U; destruct (_ <=? _) eqn:B in Hv; try discriminate Hv; rewrite Z2Nat.id in B by lia; lia.
    + assert (N : l !! length l = None) by (by apply lookup_ge_None). rewrite Hl in N. cbv zeta in N.
      subst up. destruct (x <=? y) eqn:U; destruct (_ <=? _) eqn:B in N; try discriminate N; lia.
  - unfold generateRange. rewrite Nat.add_comm. cbn [Nat.add range_loop]. destruct (x <=? y) eqn:U.
    + by eexists.
    + destruct (y <=? x) eqn:V; [by eexists|lia].
Qed.

Lemma numbers_range_witness :
  exact64 5 /\ exact64 1 /\ exact64 2 /\
  exists l, builtinNumbersRangeStep (fun _ => false) (num 5) (num 1) (num 2) = Some (iter_on (Array (map (fun i => num i) l))) /\
    l !! 1%nat = Some 3.
Proof.
  assert (H1 : exact64 5) by reflexivity. assert (H2 : exact64 1) by reflexivity. assert (H3 : exact64 2) by reflexivity.
  destruct (numbers_range (fun _ => false) 5 1 2 H1 H2 H3 (fun _ => eq_refl)) as [R _].
  split; [exact H1|]. split; [exact H2|]. split; [exact H3|].
  destruct (R eq_refl) as (l & E & Hl). exists l. split; [exact E|]. rewrite (Hl 1%nat). reflexivity.
Defined.
