(* ===== verification/BitVector.v ===== *)
(** Bit vectors: [src/internal/edittree/bitvector/bitvector.go].

    A vector is a slice of bytes with a length in bits; bit [i] is bit [i mod 8]
    of byte [i / 8].  Bytes are integers below 256, and the operations on them
    wrap around as Go's [byte] does.  Byte indexes are computed in [uint32].  An
    access outside the vector or its slice panics, which is [None].

    The operations refine lists of bits: [Element], [Set], [Append], [Insert] and
    [Delete] are lookup, update, and insertion and removal at an index. *)
From Stdlib Require Import ZArith Lia.
From stdpp Require Import base list numbers option.
From S2P Require Import Prelude.
Local Open Scope Z_scope.

Record BitVector : Type := MkBitVector { bv_data : list Z; bv_length : Z }.

Definition byte8 (z : Z) : Z := Z.land z 255.
Definition uint32 (z : Z) : Z := z mod 2 ^ 32.

Definition NewBitVector (data : list Z) (length : Z) : BitVector := MkBitVector data length.
Definition Length (vector : BitVector) : Z := bv_length vector.

(** The loop of [shiftLower] runs from the last byte to the first. *)
Fixpoint shiftLower_loop (bit : Z) (b : list Z) : Z * list Z :=
  match b with
  | [] => (bit, [])
  | x :: b =>
      let '(bit, b) := shiftLower_loop bit b in
      (byte8 (Z.shiftl (Z.land x 1) 7), Z.lor (Z.shiftr x 1) bit :: b)
  end.
Definition shiftLower (bit : Z) (b : list Z) : Z * list Z :=
  let '(bit, b) := shiftLower_loop (byte8 (Z.shiftl bit 7)) b in (Z.shiftr bit 7, b).

Fixpoint shiftHigher (bit : Z) (b : list Z) : Z * list Z :=
  match b with
  | [] => (bit, [])
  | x :: b =>
      let newByte := Z.lor (byte8 (Z.shiftl x 1)) bit in
      let '(bit, b) := shiftHigher (Z.shiftr (Z.land x 128) 7) b in (bit, newByte :: b)
  end.

Definition bytesLength (vector : BitVector) : Z := Z.shiftr (bv_length vector - 1) 3 + 1.

Definition indexAssert (vector : BitVector) (i : Z) : bool := negb ((i <? 0) || (bv_length vector <=? i)).

(** [vector.data[i]] and [vector.data[i] = x]. *)
Definition get_byte (d : list Z) (i : Z) : option Z := if 0 <=? i then d !! Z.to_nat i else None.
Definition set_byte (d : list Z) (i x : Z) : list Z := <[Z.to_nat i := x]> d.

(** The byte with bit [byteOffset] turned on or off. *)
Definition with_bit (bit oldByte byteOffset : Z) : Z :=
  if bit =? 1 then Z.lor oldByte (byte8 (Z.shiftl 1 byteOffset))
  else Z.land oldByte (byte8 (Z.lnot (Z.shiftl 1 byteOffset))).

(** [vector.length++] and one more byte where the slice is too short. *)
Definition grow (vector : BitVector) : BitVector :=
  let vector := MkBitVector (bv_data vector) (bv_length vector + 1) in
  if Z.of_nat (length (bv_data vector)) <? bytesLength vector
  then MkBitVector (bv_data vector ++ [0]) (bv_length vector) else vector.

Definition Append (vector : BitVector) (bit : Z) : option BitVector :=
  let index := uint32 (bv_length vector) in
  let vector := grow vector in
  let byteIndex := Z.shiftr index 3 in
  oldByte ← get_byte (bv_data vector) byteIndex;
  Some (MkBitVector (set_byte (bv_data vector) byteIndex (with_bit bit oldByte (index mod 8))) (bv_length vector)).

Definition Element (vector : BitVector) (i : Z) : option Z :=
  if indexAssert vector i then
    b ← get_byte (bv_data vector) (Z.shiftr i 3);
    Some (Z.land (Z.shiftr b (i mod 8)) 1)
  else None.

Definition Set_ (vector : BitVector) (bit index : Z) : option BitVector :=
  if indexAssert vector index then
    let byteIndex := uint32 (Z.shiftr index 3) in
    oldByte ← get_byte (bv_data vector) byteIndex;
    Some (MkBitVector (set_byte (bv_data vector) byteIndex (with_bit bit oldByte (index mod 8))) (bv_length vector))
  else None.

(** The new byte of [Insert]: [bit] between the bits below and from [byteOffset]. *)
Definition insert_in_byte (bit oldByte byteOffset : Z) : Z :=
  let bitToInsert := if bit =? 1 then byte8 (Z.shiftl 1 byteOffset) else 0 in
  let bottomMask := byte8 (Z.shiftl 1 byteOffset - 1) in
  let topMask := byte8 (Z.lnot bottomMask) in
  let top := byte8 (Z.shiftl (Z.land oldByte topMask) 1) in
  Z.lor (Z.lor bitToInsert (Z.land oldByte bottomMask)) top.

(** [f(vector.data[n:])] on a slice that shares its array with the data. *)
Definition on_tail (f : list Z -> Z * list Z) (n : Z) (d : list Z) : Z * list Z :=
  let '(bit, tail) := f (drop (Z.to_nat n) d) in (bit, take (Z.to_nat n) d ++ tail).

Definition Insert (vector : BitVector) (bit index : Z) : option BitVector :=
  if indexAssert vector index then
    let vector := grow vector in
    let byteIndex := uint32 (Z.shiftr index 3) in
    oldByte ← get_byte (bv_data vector) byteIndex;
    let leftoverBit := Z.shiftr (Z.land oldByte 128) 7 in
    let data := set_byte (bv_data vector) byteIndex (insert_in_byte bit oldByte (index mod 8)) in
    Some (MkBitVector (on_tail (shiftHigher leftoverBit) (byteIndex + 1) data).2 (bv_length vector))
  else None.

(** The new byte of [Delete]: the bits above [byteOffset] one lower, [bit] on top. *)
Definition delete_in_byte (bit oldByte byteOffset : Z) : Z :=
  let bottomMask := byte8 (Z.shiftl 1 byteOffset - 1) in
  let topMask := byte8 (Z.lnot (Z.shiftl 1 (byteOffset + 1) - 1)) in
  let newTop := Z.lor (Z.shiftr (Z.land oldByte topMask) 1) (byte8 (Z.shiftl bit 7)) in
  Z.lor (Z.land bottomMask oldByte) newTop.

Definition Delete (vector : BitVector) (index : Z) : option BitVector :=
  if indexAssert vector index then
    let vector := MkBitVector (bv_data vector) (bv_length vector - 1) in
    let byteIndex := uint32 (Z.shiftr index 3) in
    oldByte ← get_byte (bv_data vector) byteIndex;
    let '(bit, data) := on_tail (shiftLower 0) (byteIndex + 1) (bv_data vector) in
    let data := set_byte data byteIndex (delete_in_byte bit oldByte (index mod 8)) in
    let byteLength := bytesLength vector in
    Some (MkBitVector (if byteLength <? Z.of_nat (length data) then take (Z.to_nat byteLength) data else data)
            (bv_length vector))
  else None.

(** ** Facts about bytes, by enumeration *)
#[local] Arguments Nat.div : simpl never.
#[local] Arguments Z.testbit : simpl never.
#[local] Arguments Z.modulo : simpl never.
Definition is_byte (x : Z) : Prop := 0 <= x < 256.
Definition is_bit (b : Z) : Prop := b = 0 \/ b = 1.
Definition range (n : nat) : list Z := map Z.of_nat (seq 0 n).

Lemma elem_of_range (n : nat) z : 0 <= z < Z.of_nat n -> z ∈ range n.
Proof. intros H. apply list_elem_of_fmap. exists (Z.to_nat z). split; [lia|]. apply elem_of_seq. lia. Qed.

Lemma by_enumeration (f : Z -> Z -> Z -> Z -> bool) :
  forallb (fun x => forallb (fun o => forallb (fun j => forallb (f x o j) [0; 1]) (range 8)) (range 8)) (range 256) = true ->
  forall x o j b, is_byte x -> 0 <= o < 8 -> 0 <= j < 8 -> is_bit b -> f x o j b = true.
Proof.
  intros H x o j b Hx Ho Hj Hb. rewrite forallb_forall in H.
  specialize (H x ltac:(apply list_elem_of_In, elem_of_range; exact Hx)). rewrite forallb_forall in H.
  specialize (H o ltac:(apply list_elem_of_In, elem_of_range; exact Ho)). rewrite forallb_forall in H.
  specialize (H j ltac:(apply list_elem_of_In, elem_of_range; exact Hj)). rewrite forallb_forall in H.
  apply H. destruct Hb; subst; simpl; auto.
Qed.

(** What the byte operations do to bit [j], and that they give bytes. *)
Definition byte_ops_ok (x o j b : Z) : bool :=
  Bool.eqb (Z.testbit (with_bit b x o) j) (if j =? o then b =? 1 else Z.testbit x j) &&
  Bool.eqb (Z.testbit (insert_in_byte b x o) j)
    (if j <? o then Z.testbit x j else if j =? o then b =? 1 else Z.testbit x (j - 1)) &&
  Bool.eqb (Z.testbit (delete_in_byte b x o) j)
    (if j <? o then Z.testbit x j else if j =? 7 then b =? 1 else Z.testbit x (j + 1)) &&
  Bool.eqb (Z.testbit (Z.lor (byte8 (Z.shiftl x 1)) b) j) (if j =? 0 then b =? 1 else Z.testbit x (j - 1)) &&
  Bool.eqb (Z.testbit (Z.lor (Z.shiftr x 1) (byte8 (Z.shiftl b 7))) j)
    (if j =? 7 then b =? 1 else Z.testbit x (j + 1)) &&
  (Z.shiftr (Z.land x 128) 7 =? Z.b2z (Z.testbit x 7)) && (Z.land (Z.shiftr x j) 1 =? Z.b2z (Z.testbit x j)) &&
  (byte8 (Z.shiftl (Z.land x 1) 7) =? byte8 (Z.shiftl (Z.b2z (Z.testbit x 0)) 7)) &&
  (Z.shiftr (byte8 (Z.shiftl b 7)) 7 =? b) &&
  forallb (fun y => (0 <=? y) && (y <? 256))
    [with_bit b x o; insert_in_byte b x o; delete_in_byte b x o; Z.lor (byte8 (Z.shiftl x 1)) b;
     Z.lor (Z.shiftr x 1) (byte8 (Z.shiftl b 7))].

Lemma byte_ops x o j b : is_byte x -> 0 <= o < 8 -> 0 <= j < 8 -> is_bit b -> byte_ops_ok x o j b = true.
Proof. apply by_enumeration. vm_compute. reflexivity. Qed.

Section ByteOps.
Context (x o j b : Z) (Hx : is_byte x) (Ho : 0 <= o < 8) (Hj : 0 <= j < 8) (Hb : is_bit b).
Ltac byte_fact :=
  pose proof (byte_ops x o j b Hx Ho Hj Hb) as H; unfold byte_ops_ok in H; simpl forallb in H;
  repeat rewrite andb_true_iff in H; rewrite ?Bool.eqb_true_iff, ?Z.eqb_eq, ?Z.leb_le, ?Z.ltb_lt in H;
  unfold is_byte; tauto.

Lemma with_bit_spec : Z.testbit (with_bit b x o) j = if j =? o then b =? 1 else Z.testbit x j.
Proof. byte_fact. Qed.
Lemma insert_in_byte_spec : Z.testbit (insert_in_byte b x o) j =
  if j <? o then Z.testbit x j else if j =? o then b =? 1 else Z.testbit x (j - 1).
Proof. byte_fact. Qed.
Lemma delete_in_byte_spec : Z.testbit (delete_in_byte b x o) j =
  if j <? o then Z.testbit x j else if j =? 7 then b =? 1 else Z.testbit x (j + 1).
Proof. byte_fact. Qed.
Lemma higher_spec : Z.testbit (Z.lor (byte8 (Z.shiftl x 1)) b) j = if j =? 0 then b =? 1 else Z.testbit x (j - 1).
Proof. byte_fact. Qed.
Lemma lower_spec : Z.testbit (Z.lor (Z.shiftr x 1) (byte8 (Z.shiftl b 7))) j =
  if j =? 7 then b =? 1 else Z.testbit x (j + 1).
Proof. byte_fact. Qed.
Lemma top_bit : Z.shiftr (Z.land x 128) 7 = Z.b2z (Z.testbit x 7).
Proof. byte_fact. Qed.
Lemma bottom_bit : byte8 (Z.shiftl (Z.land x 1) 7) = byte8 (Z.shiftl (Z.b2z (Z.testbit x 0)) 7).
Proof. byte_fact. Qed.
Lemma element_bit : Z.land (Z.shiftr x j) 1 = Z.b2z (Z.testbit x j).
Proof. byte_fact. Qed.
Lemma bit_back : Z.shiftr (byte8 (Z.shiftl b 7)) 7 = b.
Proof. byte_fact. Qed.
Lemma byte_results : is_byte (with_bit b x o) /\ is_byte (insert_in_byte b x o) /\ is_byte (delete_in_byte b x o) /\
  is_byte (Z.lor (byte8 (Z.shiftl x 1)) b) /\ is_byte (Z.lor (Z.shiftr x 1) (byte8 (Z.shiftl b 7))).
Proof. byte_fact. Qed.
End ByteOps.

Lemma is_bit_b2z (c : bool) : is_bit (Z.b2z c).
Proof. unfold is_bit. destruct c; auto. Qed.
Lemma b2z_eq_1 c : (Z.b2z c =? 1) = c.
Proof. by destruct c. Qed.
#[local] Hint Resolve is_bit_b2z : core.
#[local] Hint Extern 1 (_ <= _ < _) => lia : core.

(** ** The bits of a slice of bytes *)
Definition bit (d : list Z) (i : nat) : bool := Z.testbit (nth (i / 8) d 0) (Z.of_nat i mod 8).
Definition bits (vector : BitVector) : list bool := map (bit (bv_data vector)) (seq 0 (Z.to_nat (bv_length vector))).
Definition bv_wf (vector : BitVector) : Prop :=
  0 <= bv_length vector < 2 ^ 32 /\ bytesLength vector <= Z.of_nat (length (bv_data vector)) /\
  Forall is_byte (bv_data vector).

Lemma bit_cons x d i : bit (x :: d) i = if (i <? 8)%nat then Z.testbit x (Z.of_nat i) else bit d (i - 8).
Proof.
  unfold bit. destruct (Nat.ltb_spec i 8).
  - rewrite Nat.div_small by done. rewrite Z.mod_small by lia. done.
  - replace i with (1 * 8 + (i - 8))%nat at 1 2 by lia.
    rewrite Nat.div_add_l by lia. replace (Z.of_nat (1 * 8 + (i - 8))) with (Z.of_nat (i - 8) + 1 * 8) by lia.
    rewrite Z.mod_add by lia. done.
Qed.

Lemma bit_app d e i : bit (d ++ e) i = if (i <? 8 * length d)%nat then bit d i else bit e (i - 8 * length d).
Proof.
  revert i. induction d as [|x d IH]; intros i.
  - simpl. by rewrite Nat.sub_0_r.
  - simpl app. rewrite !bit_cons, IH. cbn [length].
    destruct (Nat.ltb_spec i 8), (Nat.ltb_spec (i - 8) (8 * length d)), (Nat.ltb_spec i (8 * S (length d)));
      try lia; try done. f_equal. lia.
Qed.

Lemma shiftHigher_spec d : forall b, Forall is_byte d -> is_bit b ->
  length (shiftHigher b d).2 = length d /\ Forall is_byte (shiftHigher b d).2 /\
  forall i, (i < 8 * length d)%nat ->
    bit (shiftHigher b d).2 i = if (i =? 0)%nat then b =? 1 else bit d (i - 1).
Proof.
  induction d as [|x d IH]; intros b Hd Hb; [simpl; split_ands; [done|done|lia]|].
  inversion_clear Hd as [|? ? Hx Hd']. cbn [shiftHigher]. rewrite (top_bit x 0 0 b) by auto.
  destruct (IH (Z.b2z (Z.testbit x 7)) Hd' (is_bit_b2z _)) as (L & F & IHd).
  destruct (shiftHigher (Z.b2z (Z.testbit x 7)) d) as [b' d'] eqn:E. cbn [fst snd length] in L, F, IHd |- *.
  split_ands; [lia| |].
  - constructor; [|done]. by apply (byte_results x 0 0 b); auto.
  - intros i Hi. rewrite !bit_cons. destruct (Nat.ltb_spec i 8).
    + rewrite (higher_spec x 0) by auto.
      destruct (Z.eqb_spec (Z.of_nat i) 0), (Nat.eqb_spec i 0); try lia; try done.
      destruct (Nat.ltb_spec (i - 1) 8); [|lia]. f_equal. lia.
    + rewrite IHd, b2z_eq_1 by lia. destruct (Nat.eqb_spec i 0); [lia|].
      destruct (Nat.eqb_spec (i - 8) 0), (Nat.ltb_spec (i - 1) 8); try lia; f_equal; lia.
Qed.

Lemma shiftLower_loop_spec d : forall b, Forall is_byte d -> is_bit b -> exists c, 
  (shiftLower_loop (byte8 (Z.shiftl b 7)) d).1 = byte8 (Z.shiftl c 7) /\ is_bit c /\
  (c =? 1) = (if (0 <? length d)%nat then bit d 0 else b =? 1) /\
  length (shiftLower_loop (byte8 (Z.shiftl b 7)) d).2 = length d /\
  Forall is_byte (shiftLower_loop (byte8 (Z.shiftl b 7)) d).2 /\
  forall i, (i < 8 * length d)%nat ->
    bit (shiftLower_loop (byte8 (Z.shiftl b 7)) d).2 i = if (i + 1 <? 8 * length d)%nat then bit d (i + 1) else b =? 1.
Proof.
  induction d as [|x d IH]; intros b Hd Hb; [exists b; simpl; split_ands; auto; lia|].
  inversion_clear Hd as [|? ? Hx Hd']. destruct (IH b Hd' Hb) as (c & E1 & Hc & E2 & L & F & IHd).
  cbn [shiftLower_loop]. destruct (shiftLower_loop (byte8 (Z.shiftl b 7)) d) as [b' d'] eqn:E.
  cbn [fst snd] in E1, L, F, IHd. subst b'. exists (Z.b2z (Z.testbit x 0)). cbn [fst snd length].
  split_ands; [by apply (bottom_bit x 0 0 b); auto|auto|by rewrite b2z_eq_1, bit_cons|lia| |].
  - constructor; [|done]. by apply (byte_results x 0 0 c); auto.
  - intros i Hi. rewrite !bit_cons. destruct (Nat.ltb_spec i 8).
    + rewrite (lower_spec x 0) by auto.
      destruct (Z.eqb_spec (Z.of_nat i) 7), (Nat.ltb_spec (i + 1) 8), (Nat.ltb_spec (i + 1) (8 * S (length d))); try lia.
      * rewrite E2. destruct (Nat.ltb_spec 0 (length d)); [|lia]. f_equal. lia.
      * rewrite E2. destruct (Nat.ltb_spec 0 (length d)); [lia|done].
      * f_equal. lia.
    + rewrite IHd by lia. destruct (Nat.ltb_spec (i - 8 + 1) (8 * length d)), (Nat.ltb_spec (i + 1) 8),
        (Nat.ltb_spec (i + 1) (8 * S (length d))); try lia; try done; f_equal; lia.
Qed.

(** ** Access to bytes and bits *)
Lemma byte_index i : 0 <= i -> Z.shiftr i 3 = Z.of_nat (Z.to_nat i / 8).
Proof. intros H. rewrite Z.shiftr_div_pow2 by lia. rewrite Nat2Z.inj_div, Z2Nat.id by lia. done. Qed.

Lemma uint32_byte_index i : 0 <= i < 2 ^ 32 -> uint32 (Z.shiftr i 3) = Z.of_nat (Z.to_nat i / 8).
Proof.
  intros H. rewrite byte_index by lia. unfold uint32. apply Z.mod_small.
  rewrite Nat2Z.inj_div, Z2Nat.id by lia. split; [apply Z.div_pos; lia|].
  apply Z.le_lt_trans with i; [|lia]. apply Z.div_le_upper_bound; lia.
Qed.

Lemma get_byte_nth d (k : nat) : (k < length d)%nat -> get_byte d (Z.of_nat k) = Some (nth k d 0).
Proof.
  intros H. unfold get_byte. destruct (Z.leb_spec 0 (Z.of_nat k)); [|lia]. rewrite Nat2Z.id.
  destruct (lookup_lt_is_Some_2 d k H) as [x E]. rewrite E. f_equal. symmetry. by apply nth_lookup_Some.
Qed.

Lemma bit_set_byte d (k : nat) y i : (k < length d)%nat ->
  bit (set_byte d (Z.of_nat k) y) i = if (i / 8 =? k)%nat then Z.testbit y (Z.of_nat i mod 8) else bit d i.
Proof.
  intros H. unfold bit, set_byte. rewrite Nat2Z.id, !nth_lookup. destruct (Nat.eqb_spec (i / 8) k) as [->|N].
  - by rewrite list_lookup_insert_eq.
  - by rewrite list_lookup_insert_ne by auto.
Qed.

Lemma set_byte_wf d k y : Forall is_byte d -> is_byte y ->
  Forall is_byte (set_byte d k y) /\ length (set_byte d k y) = length d.
Proof. intros. split; [by apply Forall_insert|apply length_insert]. Qed.

Lemma length_bits v : length (bits v) = Z.to_nat (bv_length v).
Proof. unfold bits. by rewrite length_map, length_seq. Qed.

Lemma lookup_bits v i : bits v !! i = if (i <? Z.to_nat (bv_length v))%nat then Some (bit (bv_data v) i) else None.
Proof.
  unfold bits. rewrite list_lookup_fmap. destruct (Nat.ltb_spec i (Z.to_nat (bv_length v))).
  - by rewrite lookup_seq_lt.
  - by rewrite lookup_seq_ge.
Qed.

(** A vector of known length has the bits that its data show. *)
Lemma bits_eq v l : Z.to_nat (bv_length v) = length l ->
  (forall i b, l !! i = Some b -> bit (bv_data v) i = b) -> bits v = l.
Proof.
  intros L H. apply list_eq. intros i. rewrite lookup_bits, L. destruct (Nat.ltb_spec i (length l)).
  - destruct (lookup_lt_is_Some_2 l i H0) as [b E]. rewrite E. f_equal. by apply H.
  - by rewrite lookup_ge_None_2.
Qed.

Lemma bytesLength_nat v : 0 < bv_length v -> bytesLength v = Z.of_nat (Z.to_nat (bv_length v - 1) / 8 + 1).
Proof. intros H. unfold bytesLength. rewrite byte_index by lia. lia. Qed.

Lemma byte_in_range v i : bv_wf v -> 0 <= i < bv_length v -> (Z.to_nat i / 8 < length (bv_data v))%nat.
Proof.
  intros (_ & B & _) Hi. rewrite bytesLength_nat in B by lia.
  pose proof (Nat.Div0.div_le_mono (Z.to_nat i) (Z.to_nat (bv_length v - 1)) 8 ltac:(lia)). lia.
Qed.

Lemma byte_at v i : bv_wf v -> 0 <= i < bv_length v -> is_byte (nth (Z.to_nat i / 8) (bv_data v) 0).
Proof.
  intros W Hi. pose proof (byte_in_range v i W Hi) as R. destruct W as (_ & _ & F).
  destruct (lookup_lt_is_Some_2 _ _ R) as [x E]. rewrite (nth_lookup_Some _ _ _ _ E). by apply (Forall_lookup_1 _ _ _ _ F E).
Qed.

Lemma indexAssert_true v i : indexAssert v i = true <-> 0 <= i < bv_length v.
Proof. unfold indexAssert. rewrite negb_true_iff, orb_false_iff, Z.ltb_ge, Z.leb_gt. lia. Qed.

(** ** The operations on lists of bits *)
Lemma Element_ok v i : bv_wf v -> 0 <= i < bv_length v ->
  exists b, bits v !! Z.to_nat i = Some b /\ Element v i = Some (Z.b2z b).
Proof.
  intros W Hi. exists (bit (bv_data v) (Z.to_nat i)). rewrite lookup_bits.
  destruct (Nat.ltb_spec (Z.to_nat i) (Z.to_nat (bv_length v))); [|lia]. split; [done|].
  unfold Element. rewrite (proj2 (indexAssert_true v i) Hi), byte_index by lia.
  rewrite get_byte_nth by (by apply byte_in_range). simpl. f_equal. unfold bit. rewrite Z2Nat.id by lia.
  pose proof (Z.mod_pos_bound i 8). apply (element_bit _ 0 _ 0); [by apply byte_at|lia|lia|by left].
Qed.

(** Writing one byte that changes bit [i] only. *)
Lemma with_bit_at d i b : (i / 8 < length d)%nat -> is_byte (nth (i / 8) d 0) -> is_bit b -> forall j,
  bit (set_byte d (Z.of_nat (i / 8)) (with_bit b (nth (i / 8) d 0) (Z.of_nat i mod 8))) j =
  if (j =? i)%nat then b =? 1 else bit d j.
Proof.
  intros L B Hb j. rewrite bit_set_byte by done. unfold bit.
  pose proof (Z.mod_pos_bound (Z.of_nat i) 8). pose proof (Z.mod_pos_bound (Z.of_nat j) 8).
  pose proof (Z.div_mod (Z.of_nat i) 8). pose proof (Z.div_mod (Z.of_nat j) 8).
  destruct (Nat.eqb_spec (j / 8) (i / 8)) as [E|N].
  - rewrite with_bit_spec by (auto; lia). rewrite E. apply (f_equal Z.of_nat) in E. rewrite !Nat2Z.inj_div in E.
    change (Z.of_nat 8) with 8 in E.
    destruct (Z.eqb_spec (Z.of_nat j mod 8) (Z.of_nat i mod 8)), (Nat.eqb_spec j i); try lia; done.
  - destruct (Nat.eqb_spec j i); [congruence|done].
Qed.

Lemma Set_ok v i b : bv_wf v -> 0 <= i < bv_length v -> is_bit b ->
  exists v', Set_ v b i = Some v' /\ bv_wf v' /\ bits v' = <[Z.to_nat i := b =? 1]> (bits v).
Proof.
  intros W Hi Hb. pose proof (byte_in_range v i W Hi) as R. pose proof (byte_at v i W Hi) as B.
  unfold Set_. rewrite (proj2 (indexAssert_true v i) Hi), uint32_byte_index by (destruct W; lia).
  rewrite get_byte_nth by done. simpl. eexists. split; [done|].
  pose proof (Z.mod_pos_bound i 8). assert (Ei : i mod 8 = Z.of_nat (Z.to_nat i) mod 8) by (rewrite Z2Nat.id; lia).
  split.
  - destruct W as (W1 & W2 & W3). destruct (set_byte_wf (bv_data v) (Z.of_nat (Z.to_nat i / 8))
      (with_bit b (nth (Z.to_nat i / 8) (bv_data v) 0) (i mod 8)) W3) as [F L].
    { by apply (byte_results _ (i mod 8) 0 b); auto; lia. }
    unfold bv_wf, bytesLength in *. cbn [bv_data bv_length]. rewrite L. split_ands; [lia..|done].
  - apply bits_eq; simpl; [by rewrite length_insert, length_bits|]. intros j c. rewrite Ei, with_bit_at by done.
    destruct (Nat.eqb_spec j (Z.to_nat i)) as [->|N].
    + rewrite list_lookup_insert_eq by (rewrite length_bits; lia). congruence.
    + rewrite list_lookup_insert_ne by auto. rewrite lookup_bits. destruct (_ <? _)%nat; congruence.
Qed.

(** [grow] adds a bit and leaves the others. *)
Lemma grow_wf v : bv_wf v -> bv_length v + 1 < 2 ^ 32 ->
  bv_wf (grow v) /\ bv_length (grow v) = bv_length v + 1 /\
  forall i, (i < 8 * length (bv_data v))%nat -> bit (bv_data (grow v)) i = bit (bv_data v) i.
Proof.
  intros (W1 & W2 & W3) H. unfold grow. set (w := MkBitVector (bv_data v) (bv_length v + 1)).
  assert (B : bytesLength w <= bytesLength v + 1).
  { unfold bytesLength, w. simpl. rewrite !Z.shiftr_div_pow2 by lia.
    assert ((bv_length v + 1 - 1) / 2 ^ 3 <= (bv_length v - 1 + 1 * 2 ^ 3) / 2 ^ 3) by (apply Z.div_le_mono; lia).
    rewrite Z.div_add in H0 by lia. lia. }
  destruct (Z.ltb_spec (Z.of_nat (length (bv_data w))) (bytesLength w)); unfold w in *; simpl in *; split_ands;
    try done; try lia; simpl.
  - unfold bv_wf, bytesLength in *. simpl in *. rewrite length_app. simpl. split_ands; [lia..|].
    apply Forall_app. split; [done|]. constructor; [unfold is_byte; lia|done].
  - intros i Hi. rewrite bit_app. destruct (Nat.ltb_spec i (8 * length (bv_data v))); [done|lia].
  - unfold bv_wf, bytesLength in *. simpl in *. split_ands; [lia..|done].
Qed.

Lemma bit_in_data v i : bv_wf v -> (i < Z.to_nat (bv_length v))%nat -> (i < 8 * length (bv_data v))%nat.
Proof.
  intros W Hi. pose proof (byte_in_range v (Z.of_nat i) W ltac:(lia)) as R. rewrite Nat2Z.id in R.
  pose proof (Nat.div_mod_eq i 8). pose proof (Nat.mod_upper_bound i 8). lia.
Qed.

Lemma Append_ok v b : bv_wf v -> bv_length v + 1 < 2 ^ 32 -> is_bit b ->
  exists v', Append v b = Some v' /\ bv_wf v' /\ bits v' = bits v ++ [b =? 1].
Proof.
  intros W H Hb. destruct (grow_wf v W H) as (W' & L & G). pose proof W as (W1 & _).
  unfold Append, uint32. rewrite (Z.mod_small (bv_length v)), byte_index by lia.
  pose proof (byte_in_range _ (bv_length v) W' ltac:(lia)) as R. pose proof (byte_at _ (bv_length v) W' ltac:(lia)) as B.
  rewrite get_byte_nth by done. simpl. eexists. split; [done|].
  assert (Ei : bv_length v mod 8 = Z.of_nat (Z.to_nat (bv_length v)) mod 8) by (rewrite Z2Nat.id; lia).
  pose proof (Z.mod_pos_bound (bv_length v) 8). split.
  - destruct W' as (V1 & V2 & V3). destruct (set_byte_wf (bv_data (grow v)) (Z.of_nat (Z.to_nat (bv_length v) / 8))
      (with_bit b (nth (Z.to_nat (bv_length v) / 8) (bv_data (grow v)) 0) (bv_length v mod 8)) V3) as [F' L'].
    { by apply (byte_results _ (bv_length v mod 8) 0 b); auto; lia. }
    unfold bv_wf, bytesLength in *. cbn [bv_data bv_length]. rewrite L'. split_ands; [lia..|done].
  - apply bits_eq; simpl; [rewrite length_app, length_bits; simpl; lia|]. intros j c.
    rewrite Ei, with_bit_at by done. intros [E|[Hj E]]%lookup_app_Some.
    + rewrite lookup_bits in E. destruct (Nat.ltb_spec j (Z.to_nat (bv_length v))); [|discriminate E]. injection E as <-.
      destruct (Nat.eqb_spec j (Z.to_nat (bv_length v))); [lia|]. apply G. by apply bit_in_data.
    + rewrite length_bits in *. destruct (j - Z.to_nat (bv_length v))%nat eqn:Ej; [|discriminate E]. injection E as <-.
      destruct (Nat.eqb_spec j (Z.to_nat (bv_length v))); [done|lia].
Qed.

(** ** Shifting the bytes behind an index *)
Lemma bit_drop d n j : bit (drop n d) j = bit d (j + 8 * n).
Proof.
  revert d. induction n as [|n IH]; intros d; [by rewrite Nat.mul_0_r, Nat.add_0_r|]. destruct d as [|x d]; cbn [drop].
  - unfold bit. rewrite !nth_overflow by (simpl; lia). by rewrite !Z.bits_0.
  - rewrite IH, bit_cons. destruct (Nat.ltb_spec (j + 8 * S n) 8); [lia|]. f_equal. lia.
Qed.

Lemma on_tail_spec f n d : (n <= length d)%nat -> Forall is_byte d ->
  length (f (drop n d)).2 = length (drop n d) -> Forall is_byte (f (drop n d)).2 ->
  length (on_tail f (Z.of_nat n) d).2 = length d /\ Forall is_byte (on_tail f (Z.of_nat n) d).2 /\
  (on_tail f (Z.of_nat n) d).1 = (f (drop n d)).1 /\
  forall j, bit (on_tail f (Z.of_nat n) d).2 j =
    if (j <? 8 * n)%nat then bit d j else bit (f (drop n d)).2 (j - 8 * n).
Proof.
  intros Hn Hd L F. unfold on_tail. rewrite Nat2Z.id. destruct (f (drop n d)) as [c t]. cbn [fst snd] in *.
  rewrite length_drop in L. split_ands.
  - rewrite length_app, length_take. lia.
  - apply Forall_app. split; [by apply Forall_take|done].
  - done.
  - intros j. rewrite bit_app, length_take, Nat.min_l by done. destruct (Nat.ltb_spec j (8 * n)); [|done].
    rewrite <- (take_drop n d) at 2. rewrite bit_app, length_take, Nat.min_l by done.
    destruct (Nat.ltb_spec j (8 * n)); [done|lia].
Qed.

Lemma bit_at d k r : (r < 8)%nat -> bit d (8 * k + r) = Z.testbit (nth k d 0) (Z.of_nat r).
Proof.
  intros H. unfold bit. replace ((8 * k + r) / 8)%nat with k by (apply (Nat.div_unique _ _ _ r); lia).
  f_equal. rewrite Nat2Z.inj_add, Nat2Z.inj_mul, Z.add_comm, Z.mul_comm, Z.mod_add by lia. apply Z.mod_small. lia.
Qed.

Lemma index_split (i : nat) : exists k r, i = (8 * k + r)%nat /\ (r < 8)%nat /\ (i / 8)%nat = k /\ Z.of_nat i mod 8 = Z.of_nat r.
Proof.
  exists (i / 8)%nat, (i mod 8)%nat. split_ands; [apply Nat.div_mod_eq|apply Nat.mod_upper_bound; lia|done|].
  by rewrite Nat2Z.inj_mod.
Qed.

Lemma bit_set_at d k y q r : (k < length d)%nat -> (r < 8)%nat ->
  bit (set_byte d (Z.of_nat k) y) (8 * q + r) = if (q =? k)%nat then Z.testbit y (Z.of_nat r) else bit d (8 * q + r).
Proof.
  intros H Hr. rewrite !bit_at by done. unfold set_byte. rewrite Nat2Z.id, !nth_lookup. destruct (Nat.eqb_spec q k) as [->|N].
  - by rewrite list_lookup_insert_eq.
  - by rewrite list_lookup_insert_ne by auto.
Qed.

Lemma nth_byte d k : (k < length d)%nat -> Forall is_byte d -> is_byte (nth k d 0).
Proof.
  intros R F. destruct (lookup_lt_is_Some_2 d k R) as [y E]. rewrite (nth_lookup_Some _ _ _ _ E).
  by apply (Forall_lookup_1 _ _ _ _ F E).
Qed.

(** The data of a vector after [bit] was inserted at index [8 * k + o]. *)
Lemma insert_data d k o b : (k < length d)%nat -> (o < 8)%nat -> Forall is_byte d -> is_bit b ->
  let x := nth k d 0 in
  let d' := (on_tail (shiftHigher (Z.shiftr (Z.land x 128) 7)) (Z.of_nat (S k))
              (set_byte d (Z.of_nat k) (insert_in_byte b x (Z.of_nat o)))).2 in
  length d' = length d /\ Forall is_byte d' /\
  forall j, (j < 8 * length d)%nat ->
    bit d' j = if (j <? 8 * k + o)%nat then bit d j else if (j =? 8 * k + o)%nat then b =? 1 else bit d (j - 1).
Proof.
  intros R Ho F Hb x d'. assert (Hx : is_byte x) by (by apply nth_byte).
  destruct (set_byte_wf d (Z.of_nat k) (insert_in_byte b x (Z.of_nat o)) F) as [F1 L1].
  { by apply (byte_results x (Z.of_nat o) 0 b); auto. }
  unfold d'. rewrite (top_bit x 0 0 b) by auto. set (d1 := set_byte d _ _) in *.
  destruct (shiftHigher_spec (drop (S k) d1) (Z.b2z (Z.testbit x 7))) as (L2 & F2 & S2); [by apply Forall_drop|auto|].
  destruct (on_tail_spec (shiftHigher (Z.b2z (Z.testbit x 7))) (S k) d1) as (L3 & F3 & _ & S3); [lia|done..|].
  split_ands; [lia|done|]. intros j Hj. rewrite S3. rewrite length_drop in S2.
  destruct (Nat.ltb_spec j (8 * S k)).
  - destruct (index_split j) as (q & r & -> & Hr & _). unfold d1. rewrite bit_set_at by done.
    destruct (Nat.eqb_spec q k) as [->|]; [|destruct (Nat.ltb_spec (8 * q + r) (8 * k + o)); [done|lia]].
    rewrite insert_in_byte_spec by auto.
    destruct (Z.ltb_spec (Z.of_nat r) (Z.of_nat o)), (Nat.ltb_spec (8 * k + r) (8 * k + o)); try lia; [by rewrite bit_at|].
    destruct (Z.eqb_spec (Z.of_nat r) (Z.of_nat o)), (Nat.eqb_spec (8 * k + r) (8 * k + o)); try lia; try done.
    replace (8 * k + r - 1)%nat with (8 * k + (r - 1))%nat by lia. rewrite bit_at by lia. unfold x. f_equal. lia.
  - rewrite S2 by lia. destruct (Nat.ltb_spec j (8 * k + o)), (Nat.eqb_spec j (8 * k + o)); try lia.
    destruct (Nat.eqb_spec (j - 8 * S k) 0).
    + rewrite b2z_eq_1. replace (j - 1)%nat with (8 * k + 7)%nat by lia. by rewrite bit_at by lia.
    + rewrite bit_drop. replace (j - 8 * S k - 1 + 8 * S k)%nat with (j - 1)%nat by lia.
      destruct (index_split (j - 1)) as (q & r & E & Hr & _). unfold d1. rewrite E, bit_set_at by done.
      destruct (Nat.eqb_spec q k); [lia|done].
Qed.

Lemma shiftLower_spec d : Forall is_byte d ->
  is_bit (shiftLower 0 d).1 /\ ((shiftLower 0 d).1 =? 1) = (if (0 <? length d)%nat then bit d 0 else false) /\
  length (shiftLower 0 d).2 = length d /\ Forall is_byte (shiftLower 0 d).2 /\
  forall i, (i < 8 * length d)%nat ->
    bit (shiftLower 0 d).2 i = if (i + 1 <? 8 * length d)%nat then bit d (i + 1) else false.
Proof.
  intros F. destruct (shiftLower_loop_spec d 0 F (or_introl eq_refl)) as (c & E1 & Hc & E2 & L & F' & S).
  unfold shiftLower. destruct (shiftLower_loop (byte8 (Z.shiftl 0 7)) d) as [b d']. cbn [fst snd] in *. subst b.
  rewrite (bit_back 0 0 0 c) by (auto; unfold is_byte; lia). split_ands; auto.
Qed.

(** The data of a vector after the bit at index [8 * k + o] was removed. *)
Lemma delete_data d k o : (k < length d)%nat -> (o < 8)%nat -> Forall is_byte d ->
  let '(c, d1) := on_tail (shiftLower 0) (Z.of_nat (S k)) d in
  let d' := set_byte d1 (Z.of_nat k) (delete_in_byte c (nth k d 0) (Z.of_nat o)) in
  length d' = length d /\ Forall is_byte d' /\
  forall j, (j + 1 < 8 * length d)%nat -> bit d' j = if (j <? 8 * k + o)%nat then bit d j else bit d (j + 1).
Proof.
  intros R Ho F. set (x := nth k d 0). assert (Hx : is_byte x) by (by apply nth_byte).
  destruct (shiftLower_spec (drop (S k) d)) as (Bc & Ec & L2 & F2 & S2); [by apply Forall_drop|].
  destruct (on_tail_spec (shiftLower 0) (S k) d) as (L3 & F3 & E3 & S3); [lia|done..|].
  destruct (on_tail (shiftLower 0) (Z.of_nat (S k)) d) as [c d1]. cbn [fst snd] in L3, F3, E3, S3. subst c.
  set (c := (shiftLower 0 (drop (S k) d)).1) in *. rewrite length_drop in S2, Ec. intros d'.
  destruct (set_byte_wf d1 (Z.of_nat k) (delete_in_byte c x (Z.of_nat o)) F3) as [F1 L1].
  { by apply (byte_results x (Z.of_nat o) 0 c); auto. }
  split_ands; [unfold d'; lia|done|]. intros j Hj.
  destruct (index_split j) as (q & r & -> & Hr & _). unfold d'. rewrite bit_set_at, S3 by (lia || done).
  destruct (Nat.eqb_spec q k) as [->|N].
  - rewrite delete_in_byte_spec by auto. rewrite bit_at by done. fold x.
    destruct (Z.ltb_spec (Z.of_nat r) (Z.of_nat o)), (Nat.ltb_spec (8 * k + r) (8 * k + o)); try lia; try done.
    destruct (Z.eqb_spec (Z.of_nat r) 7).
    + rewrite Ec. destruct (Nat.ltb_spec 0 (length d - S k)); [|lia]. rewrite bit_drop. f_equal. lia.
    + replace (8 * k + r + 1)%nat with (8 * k + (r + 1))%nat by lia. rewrite bit_at by lia. unfold x. f_equal. lia.
  - destruct (Nat.ltb_spec (8 * q + r) (8 * k + o)), (Nat.ltb_spec (8 * q + r) (8 * S k)); try lia; try done.
    rewrite S2 by lia. destruct (Nat.ltb_spec (8 * q + r - 8 * S k + 1) (8 * (length d - S k))); [|lia].
    rewrite bit_drop. f_equal. lia.
Qed.

Definition insert_at {A} (i : nat) (x : A) (l : list A) : list A := take i l ++ x :: drop i l.

Lemma length_insert_at {A} i (x : A) l : length (insert_at i x l) = S (length l).
Proof. unfold insert_at. rewrite length_app, length_cons, length_take, length_drop. lia. Qed.

Lemma lookup_insert_at {A} i (x : A) l j : (i <= length l)%nat ->
  insert_at i x l !! j = if (j <? i)%nat then l !! j else if (j =? i)%nat then Some x else l !! (j - 1)%nat.
Proof.
  intros H. unfold insert_at. destruct (Nat.ltb_spec j i).
  - rewrite lookup_app_l by (rewrite length_take; lia). by apply lookup_take_lt.
  - rewrite lookup_app_r by (rewrite length_take; lia). rewrite length_take, Nat.min_l by done.
    destruct (Nat.eqb_spec j i) as [->|N]; [by rewrite Nat.sub_diag|].
    replace (j - i)%nat with (S (j - 1 - i)) by lia. simpl. rewrite lookup_drop. f_equal. lia.
Qed.

Lemma lookup_delete_at {A} i (l : list A) j : delete i l !! j = if (j <? i)%nat then l !! j else l !! S j.
Proof.
  destruct (Nat.ltb_spec j i); [by apply list_lookup_delete_lt|by apply list_lookup_delete_ge].
Qed.

Lemma bits_Insert_ok v i b : bv_wf v -> bv_length v + 1 < 2 ^ 32 -> 0 <= i < bv_length v -> is_bit b ->
  exists v', Insert v b i = Some v' /\ bv_wf v' /\ bits v' = insert_at (Z.to_nat i) (b =? 1) (bits v).
Proof.
  intros W H Hi Hb. destruct (grow_wf v W H) as (W' & L & G). unfold Insert.
  rewrite (proj2 (indexAssert_true v i) Hi), uint32_byte_index by lia.
  pose proof (byte_in_range _ i W' ltac:(lia)) as R. rewrite get_byte_nth by done. simpl. eexists. split; [done|].
  destruct (index_split (Z.to_nat i)) as (k & o & Ei & Ho & Ek & Eo). rewrite Z2Nat.id in Eo by lia.
  rewrite Ek, Eo in *. replace (Z.of_nat k + 1) with (Z.of_nat (S k)) by lia. pose proof W' as (V1 & V2 & V3).
  destruct (insert_data (bv_data (grow v)) k o b R Ho V3 Hb) as (L' & F' & S'). split.
  - unfold bv_wf, bytesLength in *. cbn [bv_data bv_length]. rewrite L'. split_ands; [lia..|done].
  - apply bits_eq; [cbn [bv_length]; rewrite length_insert_at, length_bits; lia|]. intros j c.
    rewrite lookup_insert_at by (rewrite length_bits; lia). rewrite !lookup_bits, Ei. cbn [bv_data]. intros E.
    assert (Hj : (j < Z.to_nat (bv_length v + 1))%nat).
    { destruct (Nat.ltb_spec j (8 * k + o)), (Nat.eqb_spec j (8 * k + o)),
        (Nat.ltb_spec (j - 1) (Z.to_nat (bv_length v))); try lia; discriminate E. }
    rewrite S' by (apply (bit_in_data (grow v)); [done|lia]).
    destruct (Nat.ltb_spec j (8 * k + o)), (Nat.eqb_spec j (8 * k + o)), (Nat.ltb_spec j (Z.to_nat (bv_length v))),
      (Nat.ltb_spec (j - 1) (Z.to_nat (bv_length v))); try lia; try congruence;
      (rewrite G; [congruence|apply (bit_in_data v); [done|lia]]).
Qed.

Lemma bits_Delete_ok v i : bv_wf v -> 0 <= i < bv_length v ->
  exists v', Delete v i = Some v' /\ bv_wf v' /\ bits v' = delete (Z.to_nat i) (bits v).
Proof.
  intros W Hi. pose proof W as (V1 & V2 & V3). unfold Delete. cbv zeta. cbn [bv_data bv_length].
  rewrite (proj2 (indexAssert_true v i) Hi), uint32_byte_index by lia.
  pose proof (byte_in_range _ i W ltac:(lia)) as R. rewrite get_byte_nth by done. cbn [mbind option_bind].
  destruct (index_split (Z.to_nat i)) as (k & o & Ei & Ho & Ek & Eo). rewrite Z2Nat.id in Eo by lia.
  rewrite Ek, Eo in *. replace (Z.of_nat k + 1) with (Z.of_nat (S k)) by lia.
  pose proof (delete_data (bv_data v) k o R Ho V3) as D.
  destruct (on_tail (shiftLower 0) (Z.of_nat (S k)) (bv_data v)) as [c d1]. cbv zeta in D.
  set (d' := set_byte d1 _ _) in *. destruct D as (L' & F' & S'). eexists. split; [done|].
  set (w := MkBitVector (bv_data v) (bv_length v - 1)). set (e := if _ <? _ then _ else _).
  assert (Bw : bytesLength w <= bytesLength v).
  { unfold bytesLength, w. cbn [bv_length]. rewrite !Z.shiftr_div_pow2 by lia.
    apply Z.add_le_mono_r, Z.div_le_mono; lia. }
  assert (W' : bv_wf (MkBitVector e (bv_length v - 1))).
  { unfold bv_wf. change (bytesLength (MkBitVector e (bv_length v - 1))) with (bytesLength w). cbn [bv_data bv_length].
    unfold e. destruct (Z.ltb_spec (bytesLength w) (Z.of_nat (length d'))); split_ands; try lia; try done.
    - rewrite length_take. lia.
    - by apply Forall_take. }
  assert (He : forall j, (j < 8 * length e)%nat -> bit e j = bit d' j).
  { unfold e. destruct (Z.ltb_spec (bytesLength w) (Z.of_nat (length d'))); [|done]. intros j Hj.
    rewrite <- (take_drop (Z.to_nat (bytesLength w)) d') at 2. rewrite bit_app.
    destruct (Nat.ltb_spec j (8 * length (take (Z.to_nat (bytesLength w)) d'))); [done|lia]. }
  split; [done|]. assert (Hb : length (delete (Z.to_nat i) (bits v)) = Z.to_nat (bv_length v - 1)).
  { rewrite length_delete by (apply lookup_lt_is_Some_2; rewrite length_bits; lia). rewrite length_bits. lia. }
  apply bits_eq; [by cbn [bv_length]|]. cbn [bv_data]. intros j b E.
  pose proof (lookup_lt_Some _ _ _ E) as Hj. rewrite Hb in Hj.
  rewrite He by (apply (bit_in_data _ j W'); cbn [bv_length]; lia). rewrite lookup_delete_at, !lookup_bits, Ei in E.
  rewrite S' by (pose proof (bit_in_data v (j + 1) W ltac:(lia)); lia).
  destruct (Nat.ltb_spec j (8 * k + o)), (Nat.ltb_spec j (Z.to_nat (bv_length v))),
    (Nat.ltb_spec (S j) (Z.to_nat (bv_length v))); try lia; try congruence. rewrite Nat.add_1_r. congruence.
Qed.

(** ** The vector as a list of bits *)

(** An operation that gives a vector, and the list it should hold; [None] is a panic. *)
Definition holds_bits (r : option BitVector) (l : option (list bool)) : Prop :=
  match r, l with
  | Some v, Some l => bv_wf v /\ bits v = l
  | None, None => True
  | _, _ => False
  end.
Definition in_bits (v : BitVector) (i : Z) : option nat := if indexAssert v i then Some (Z.to_nat i) else None.

Lemma panics v i b : indexAssert v i = false -> Element v i = None /\ Set_ v b i = None /\ Insert v b i = None /\ Delete v i = None.
Proof. intros E. unfold Element, Set_, Insert, Delete. by rewrite E. Qed.

(** C24: a bit vector is a list of bits: in range the operations read, overwrite,
    insert and remove the bit at the index across byte boundaries and [Append] adds
    one, and out of range they panic; the bytes stay bytes and cover the length. *)
Theorem bitvector_refines_list v i b : bv_wf v -> is_bit b -> Length v + 1 < 2 ^ 32 ->
  Length v = Z.of_nat (length (bits v)) /\
  Element v i = (j ← in_bits v i; x ← bits v !! j; Some (Z.b2z x)) /\
  holds_bits (Set_ v b i) (j ← in_bits v i; Some (<[j := b =? 1]> (bits v))) /\
  holds_bits (Insert v b i) (j ← in_bits v i; Some (insert_at j (b =? 1) (bits v))) /\
  holds_bits (Delete v i) (j ← in_bits v i; Some (delete j (bits v))) /\
  holds_bits (Append v b) (Some (bits v ++ [b =? 1])).
Proof.
  intros W Hb H. unfold Length in *. split; [rewrite length_bits; destruct W; lia|]. unfold in_bits.
  destruct (Append_ok v b W H Hb) as (va & -> & Wa & Ba).
  destruct (indexAssert v i) eqn:I; cbn [mbind option_bind]; [|by destruct (panics v i b I) as (-> & -> & -> & ->)].
  apply indexAssert_true in I. destruct (Element_ok v i W I) as (x & -> & ->). destruct (Set_ok v i b W I Hb) as (v1 & -> & ?).
  destruct (bits_Insert_ok v i b W H I Hb) as (v2 & -> & ?). by destruct (bits_Delete_ok v i W I) as (v3 & -> & ?).
Qed.

(** Nine bits: the insertion at index 3 moves the top bit of the first byte into the
    second. *)
Lemma bitvector_refines_list_witness :
  let v := NewBitVector [129; 1] 9 in
  bv_wf v /\ option_map bv_data (Insert v 1 3) = Some [9; 3] /\
  holds_bits (Insert v 1 3) (Some [true; false; false; true; false; false; false; false; true; true]).
Proof.
  intros v. assert (W : bv_wf v).
  { split; [split; reflexivity || discriminate|]. split; [discriminate|]. repeat constructor; discriminate. }
  split; [exact W|]. split; [vm_compute; reflexivity|].
  destruct (bitvector_refines_list v 3 1 W (or_intror eq_refl) eq_refl) as (_ & _ & _ & H & _). exact H.
Defined.
