(* ===== verification/EditTree.v ===== *)
(** Edit trees: [src/internal/edittree/edittree.go].

    A tree holds a term and the edits below it; [Render] gives the edited term.
    A node is updated in place.  The node that [Unfold] returns stays a part of the
    tree, or is detached when it holds a scalar, so [Unfold] takes the operation
    that its caller goes on with as an argument and stores the node that it
    leaves.  Every node belongs to one parent, hence trees are an inductive type.

    A nil term is [None].  Operations return [None] where the code panics, and
    otherwise the node they leave with a result or an error.  Go does not fix the
    order in which the entries of a map are visited; it is given by the class
    [MapOrder].  Maps that are nil are not told from empty ones, since the code
    only reads them. *)
From Stdlib Require Import ZArith Lia String.
From stdpp Require Import base gmap list strings.
From S2P Require Import Prelude SortedKeys Value Containers SetTable RefOps Path Builtins Document BitVector.
Local Open Scope Z_scope.

(** [for hash, x := range m]. *)
Class MapOrder : Type := range_map : forall A : Type, gmap Z A -> list (Z * A).
Arguments range_map {_ A} m.
#[export] Instance sorted_order : MapOrder := fun A m => map_to_list m.

Inductive EditTree : Type := MkTree {
  et_value : option value;
  childKeys : gmap Z value;
  childScalarValues : gmap Z (option value);
  childCompositeValues : gmap Z (option EditTree);
  eliminated : option BitVector;
  insertions : option BitVector;
}.

Inductive et_error : Type :=
| DeletedNode
| SetKeyMismatch
| IndexOutOfBounds
| NotComposite
| AlreadyDeleted
| NoSuchChild
| NilNode
| NoSuchPath
| InvalidIndex
| NilValue.

(** The bit vectors of a new array of length [n]; Go's division truncates. *)
Definition zero_vector (n : nat) : BitVector :=
  let bytesLength := Z.quot (Z.of_nat n - 1) 8 + 1 in
  NewBitVector (replicate (Z.to_nat bytesLength) 0) (Z.of_nat n).

Definition NewEditTree (term : value) : EditTree :=
  match term with
  | Array l => MkTree (Some term) ∅ ∅ ∅ (Some (zero_vector (length l))) (Some (zero_vector (length l)))
  | _ => MkTree (Some term) ∅ ∅ ∅ None None
  end.

Definition isComposite (t : value) : bool :=
  match t with Object _ | SetV _ | Array _ => true | _ => false end.

Section EditTree.
Context `{X : XXHash, MO : MapOrder}.

(** ** Child maps *)

(** The probe for a key from its hash code; one step more than there are keys
    is enough. *)
Fixpoint probe_keys (fuel : nat) (keys : gmap Z value) (key : value) (hash : Z) : option (Z * bool) :=
  match fuel with
  | O => None
  | S fuel =>
      match keys !! hash with
      | None => Some (hash, false)
      | Some curr => if key_equal key curr then Some (hash, true) else probe_keys fuel keys key (addw hash 1)
      end
  end.
Definition getKeyHash (e : EditTree) (key : value) : option (Z * bool) :=
  probe_keys (S (size (childKeys e))) (childKeys e) key (Hash key).

Definition setChildKey (e : EditTree) (hash : Z) (key : value) : EditTree :=
  MkTree (et_value e) (<[hash := key]> (childKeys e)) (childScalarValues e) (childCompositeValues e)
    (eliminated e) (insertions e).
Definition setChildScalarValue (e : EditTree) (hash : Z) (v : option value) : EditTree :=
  MkTree (et_value e) (childKeys e) (<[hash := v]> (childScalarValues e)) (childCompositeValues e)
    (eliminated e) (insertions e).
Definition setChildCompositeValue (e : EditTree) (hash : Z) (child : option EditTree) : EditTree :=
  MkTree (et_value e) (childKeys e) (childScalarValues e) (<[hash := child]> (childCompositeValues e))
    (eliminated e) (insertions e).
Definition deleteChildValue (e : EditTree) (hash : Z) : EditTree :=
  MkTree (et_value e) (childKeys e) (delete hash (childScalarValues e)) (delete hash (childCompositeValues e))
    (eliminated e) (insertions e).
Definition set_insertions (e : EditTree) (bv : BitVector) : EditTree :=
  MkTree (et_value e) (childKeys e) (childScalarValues e) (childCompositeValues e) (eliminated e) (Some bv).
Definition set_eliminated (e : EditTree) (bv : BitVector) : EditTree :=
  MkTree (et_value e) (childKeys e) (childScalarValues e) (childCompositeValues e) (Some bv) (insertions e).

(** The slot [hash] gets the child for [v]. *)
Definition set_child (e : EditTree) (hash : Z) (v : value) : EditTree :=
  if isComposite v then setChildCompositeValue e hash (Some (NewEditTree v))
  else setChildScalarValue e hash (Some v).

(** ** Render *)
Definition ObjectTerm (out : list (value * value)) : value := Object (obj_of out).
Definition SetTerm (out : list value) : value := SetV (set_of out).

(** The first index from [j] whose bit is 0. *)
Fixpoint next_zero (n : nat) (bv : BitVector) (j : Z) : option Z :=
  match n with
  | O => None
  | S n => b ← Element bv j; if b =? 0 then Some j else next_zero n bv (j + 1)
  end.

(** The loop over the [n] indexes from [i]. *)
Fixpoint render_array (n : nat) (ins elim : BitVector) (elems : list value) (scalars : gmap Z (option value))
    (composites : gmap Z (option (option value))) (i eIdx : Z) : option (list value) :=
  match n with
  | O => Some []
  | S n =>
      b ← Element ins i;
      if b =? 0 then
        j ← next_zero (Z.to_nat (Length elim - eIdx)) elim eIdx;
        t ← elems !! Z.to_nat j;
        out ← render_array n ins elim elems scalars composites (i + 1) (j + 1); Some (t :: out)
      else
        t ← match scalars !! i with
            | Some t => t
            | None => match composites !! i with Some (Some t) => t | _ => None end
            end;
        out ← render_array n ins elim elems scalars composites (i + 1) eIdx; Some (t :: out)
  end.

(** The terms of the children in the order of the maps, each with its key;
    [None] is a deletion. *)
Fixpoint collect {A} (keys : gmap Z value) (term : A -> option (option value)) (l : list (Z * A)) :
    option (list (value * option value)) :=
  match l with
  | [] => Some []
  | (hash, x) :: l => k ← keys !! hash; t ← term x; out ← collect keys term l; Some ((k, t) :: out)
  end.

(** The children of an object or a set: scalars first, then composites. *)
Definition children (keys : gmap Z value) (scalars : gmap Z (option value))
    (composites : gmap Z (option (option value))) : option (list (value * option value)) :=
  s ← collect keys (fun t => Some t) (range_map scalars);
  c ← collect keys (fun t => match t with None => Some None | Some None => None | Some t => Some t end)
        (range_map composites);
  Some (s ++ c).

Definition skipped (cs : list (value * option value)) : list value := set_of (map fst cs).
Definition live (cs : list (value * option value)) : list (value * value) :=
  omap (fun kt => match kt.2 with Some t => Some (kt.1, t) | None => None end) cs.

Fixpoint Render (e : EditTree) : option (option value) :=
  match e with
  | MkTree None _ _ _ _ _ => Some None
  | MkTree (Some v) keys scalars composites elim ins =>
      let composites := (fun c => match c with
                                  | None => None
                                  | Some c => Some (match Render c with Some t => t | None => None end)
                                  end) <$> composites in
      match v with
      | Object kvs =>
          if (size keys =? 0)%nat then Some (Some v)
          else
            cs ← children keys scalars composites;
            Some (Some (ObjectTerm (live cs ++ List.filter (fun kv => negb (set_mem kv.1 (skipped cs))) kvs)))
      | SetV l =>
          if (size keys =? 0)%nat then Some (Some v)
          else
            cs ← children keys scalars composites;
            Some (Some (SetTerm (map snd (live cs) ++ List.filter (fun k => negb (set_mem k (skipped cs))) l)))
      | Array elems =>
          ins ← ins; elim ← elim;
          out ← render_array (Z.to_nat (Length ins)) ins elim elems scalars composites 0 0;
          Some (Some (Array out))
      | _ => Some (Some v)
      end
  end.

(** ** Insert *)

(** An operation leaves the node with a result or an error. *)
Definition leaves {A} (e : EditTree) (a : A) : option (EditTree * res et_error A) := Some (e, Ok a).
Definition fails {A} (e : EditTree) (err : et_error) : option (EditTree * res et_error A) := Some (e, Err err).

(** Both [unsafeInsertObject] and [unsafeInsertSet]; the result is the slot that
    holds the child. *)
Definition unsafeInsertObject (e : EditTree) (key v : value) : option (EditTree * Z) :=
  '(keyHash, found) ← getKeyHash e key;
  let e := if (found : bool) then deleteChildValue e keyHash else e in
  Some (set_child (setChildKey e keyHash key) keyHash v, keyHash).
Definition unsafeInsertSet := unsafeInsertObject.

(** The inserted indexes among the [n] ones from [i], scalars and composites. *)
Fixpoint collect_rewrites (n : nat) (e : EditTree) (ins : BitVector) (i : Z) : option (list Z * list Z) :=
  match n with
  | O => Some ([], [])
  | S n =>
      b ← Element ins i;
      if b =? 1 then
        match childScalarValues e !! i, childCompositeValues e !! i with
        | Some _, _ => '(s, c) ← collect_rewrites n e ins (i + 1); Some (i :: s, c)
        | None, Some _ => '(s, c) ← collect_rewrites n e ins (i + 1); Some (s, i :: c)
        | None, None => None
        end
      else collect_rewrites n e ins (i + 1)
  end.

Definition rewrite_scalar (shift : Z) (e : EditTree) (originalIdx : Z) : EditTree :=
  let v := match childScalarValues e !! originalIdx with Some v => v | None => None end in
  setChildScalarValue (deleteChildValue e originalIdx) (originalIdx + shift) v.
Definition rewrite_composite (shift : Z) (e : EditTree) (originalIdx : Z) : EditTree :=
  let v := match childCompositeValues e !! originalIdx with Some v => v | None => None end in
  setChildCompositeValue (deleteChildValue e originalIdx) (originalIdx + shift) v.

Definition unsafeInsertArray (e : EditTree) (ins : BitVector) (idx : Z) (v : value) : option EditTree :=
  '(rewritesScalars, rewritesComposites) ← collect_rewrites (Z.to_nat (Length ins - idx)) e ins idx;
  let e := fold_left (rewrite_scalar 1) (rev rewritesScalars) e in
  let e := fold_left (rewrite_composite 1) (rev rewritesComposites) e in
  ins ← (if idx =? Length ins then Append ins 1 else BitVector.Insert ins 1 idx);
  Some (set_child (set_insertions e ins) idx v).

Definition toIndex (arrayLength : Z) (term : value) : option Z :=
  match term with
  | Number n => num_int64 n
  | Str v =>
      if String.eqb v "-" then Some arrayLength
      else
        i ← Atoi v;
        if negb (String.eqb v "0") && String.prefix "0" v then None else Some i
  | _ => None
  end.

(** Edits below a set are rendered into its term. *)
Definition collapse (e : EditTree) : option EditTree :=
  t ← Render e; Some (MkTree t ∅ ∅ ∅ (eliminated e) (insertions e)).

Definition Insert (e : EditTree) (key v : value) : option (EditTree * res et_error Z) :=
  match et_value e with
  | None => fails e DeletedNode
  | Some (Object _) => '(e, slot) ← unsafeInsertObject e key v; leaves e slot
  | Some (SetV _) =>
      if negb (Equal key v) then fails e SetKeyMismatch
      else
        e ← (if isComposite key then collapse e else Some e);
        '(e, slot) ← unsafeInsertSet e key v; leaves e slot
  | Some (Array _) =>
      ins ← insertions e;
      match toIndex (Length ins) key with
      | None => fails e InvalidIndex
      | Some idx =>
          if (idx <? 0) || (Length ins <? idx) then fails e IndexOutOfBounds
          else e ← unsafeInsertArray e ins idx v; leaves e idx
      end
  | Some _ => fails e NotComposite
  end.

(** ** Delete *)
Definition fallbackDelete (e : EditTree) (key : value) : option (EditTree * res et_error unit) :=
  v ← et_value e;
  match Find v [key] with
  | None => fails e NoSuchChild
  | Some x =>
      '(keyHash, _) ← getKeyHash e key;
      let e := setChildKey e keyHash key in
      leaves (if isComposite x then setChildCompositeValue e keyHash None else setChildScalarValue e keyHash None) tt
  end.

Fixpoint sumZeroes (n : nat) (bv : BitVector) (i : Z) : option Z :=
  match n with
  | O => Some 0
  | S n => b ← Element bv i; s ← sumZeroes n bv (i + 1); Some (if b =? 0 then s + 1 else s)
  end.
Definition sumZeroesBelowIndex (index : Z) (bv : BitVector) : option Z := sumZeroes (Z.to_nat index) bv 0.

(** The outer [None] is a panic, the inner one [false]. *)
Fixpoint nth_zero (n : nat) (bv : BitVector) (target zeroesSeen i : Z) : option (option Z) :=
  match n with
  | O => Some None
  | S n =>
      b ← Element bv i;
      let zeroesSeen := if b =? 0 then zeroesSeen + 1 else zeroesSeen in
      if zeroesSeen =? target then Some (Some i) else nth_zero n bv target zeroesSeen (i + 1)
  end.
Definition findIndexOfNthZero (n : Z) (bv : BitVector) : option (option Z) :=
  nth_zero (Z.to_nat (Length bv)) bv n 0 0.

Definition deleteArray (e : EditTree) (ins : BitVector) (idx : Z) : option EditTree :=
  '(rewritesScalars, rewritesComposites) ← collect_rewrites (Z.to_nat (Length ins - (idx + 1))) e ins (idx + 1);
  let e := deleteChildValue e idx in
  let e := fold_left (rewrite_scalar (-1)) rewritesScalars e in
  let e := fold_left (rewrite_composite (-1)) rewritesComposites e in
  b ← Element ins idx;
  e ← (if b =? 0 then
         zeroes ← sumZeroesBelowIndex idx ins;
         elim ← eliminated e;
         elimIdx ← findIndexOfNthZero (1 + zeroes) elim;
         elimIdx ← elimIdx;
         elim ← Set_ elim 1 elimIdx;
         Some (set_eliminated e elim)
       else Some e);
  ins ← BitVector.Delete ins idx;
  Some (set_insertions e ins).

Definition Delete (e : EditTree) (key : value) : option (EditTree * res et_error unit) :=
  match et_value e with
  | None => fails e DeletedNode
  | Some (Object _) =>
      '(keyHash, found) ← getKeyHash e key;
      if (found : bool) then
        match childScalarValues e !! keyHash, childCompositeValues e !! keyHash with
        | Some None, _ | None, Some None => fails e AlreadyDeleted
        | Some (Some _), _ => leaves (setChildScalarValue (setChildKey e keyHash key) keyHash None) tt
        | None, Some (Some _) => leaves (setChildCompositeValue (setChildKey e keyHash key) keyHash None) tt
        | None, None => None
        end
      else fallbackDelete e key
  | Some (SetV _) =>
      if isComposite key then e ← collapse e; fallbackDelete e key
      else
        '(keyHash, found) ← getKeyHash e key;
        match (if (found : bool) then childScalarValues e !! keyHash else None) with
        | Some None => fails e AlreadyDeleted
        | Some (Some child) =>
            if Equal key child then leaves (setChildScalarValue (setChildKey e keyHash key) keyHash None) tt
            else fallbackDelete e key
        | None => fallbackDelete e key
        end
  | Some (Array _) =>
      ins ← insertions e;
      match toIndex (Length ins) key with
      | None => fails e InvalidIndex
      | Some idx =>
          if (idx <? 0) || (Length ins - 1 <? idx) then fails e IndexOutOfBounds
          else e ← deleteArray e ins idx; leaves e tt
      end
  | Some _ => fails e NotComposite
  end.

(** ** Unfold

    [op] is what the caller does with the node at the end of the path. *)
Section Unfold.
Context {A : Type} (op : EditTree -> option (EditTree * res et_error A)).

(** [child.Unfold(path)] for the child in slot [hash]; a scalar has a node of its
    own, and [NewEditTree(nil)] is a nil pointer. *)
Definition on_child (f : EditTree -> option (EditTree * res et_error A)) (e : EditTree) (hash : Z) :
    option (EditTree * res et_error A) :=
  match childScalarValues e !! hash, childCompositeValues e !! hash with
  | Some (Some term), _ => '(_, r) ← f (NewEditTree term); Some (e, r)
  | None, Some (Some child) => '(child, r) ← f child; Some (setChildCompositeValue e hash (Some child), r)
  | _, _ => None
  end.

(** The key is looked up in the term, and the value becomes a child. *)
Definition extend (f : EditTree -> option (EditTree * res et_error A)) (e : EditTree) (key : value) :
    option (EditTree * res et_error A) :=
  t ← et_value e;
  match Find t [key] with
  | Some v => '(e, r) ← Insert e key v; match r with Ok slot => on_child f e slot | Err err => fails e err end
  | None => fails e NoSuchPath
  end.

Fixpoint Unfold (path : list value) (e : EditTree) : option (EditTree * res et_error A) :=
  match path with
  | [] => op e
  | key :: path =>
      match et_value e with
      | None => fails e NilNode
      | Some (Object _) =>
          '(keyHash, found) ← getKeyHash e key;
          if (found : bool) then
            match childScalarValues e !! keyHash, childCompositeValues e !! keyHash with
            | Some None, _ | None, Some None => fails e AlreadyDeleted
            | _, _ => on_child (Unfold path) e keyHash
            end
          else extend (Unfold path) e key
      | Some (SetV _) =>
          if isComposite key then e ← collapse e; extend (Unfold path) e key
          else
            '(keyHash, found) ← getKeyHash e key;
            match (if (found : bool) then childScalarValues e !! keyHash else None) with
            | Some _ => on_child (Unfold path) e keyHash
            | None => extend (Unfold path) e key
            end
      | Some (Array elems) =>
          ins ← insertions e;
          match toIndex (Length ins) key with
          | None => fails e InvalidIndex
          | Some idx =>
              match childScalarValues e !! idx, childCompositeValues e !! idx with
              | None, None =>
                  match Find (Array elems) [IntNumberTerm idx] with
                  | None => fails e NoSuchPath
                  | Some v =>
                      '(e, r) ← Delete e (IntNumberTerm idx);
                      match r with
                      | Err err => fails e err
                      | Ok _ =>
                          '(e, r) ← Insert e (IntNumberTerm idx) v;
                          match r with Ok slot => on_child (Unfold path) e slot | Err err => fails e err end
                      end
                  end
              | _, _ => on_child (Unfold path) e idx
              end
          end
      | Some _ => fails e NotComposite
      end
  end.
End Unfold.

(** ** Operations at a path *)
Definition split_last (path : list value) : option (list value * value) :=
  match last path with Some k => Some (removelast path, k) | None => None end.

Definition InsertAtPath (e : EditTree) (path : list value) (v : option value) : option (EditTree * res et_error unit) :=
  match v, split_last path with
  | None, _ => fails e NilValue
  | Some v, None =>
      match v with
      | Array l => leaves (MkTree (Some v) ∅ ∅ ∅ (Some (zero_vector (length l))) (Some (zero_vector (length l)))) tt
      | _ => leaves (MkTree (Some v) ∅ ∅ ∅ (eliminated e) (insertions e)) tt
      end
  | Some v, Some (dir, key) =>
      Unfold (fun dest => '(dest, r) ← Insert dest key v; Some (dest, let? _ := r in Ok tt)) dir e
  end.

Definition DeleteAtPath (e : EditTree) (path : list value) : option (EditTree * res et_error unit) :=
  match split_last path with
  | None =>
      match et_value e with
      | None => fails e DeletedNode
      | Some _ => leaves (MkTree None ∅ ∅ ∅ None None) tt
      end
  | Some (dir, key) => Unfold (fun dest => Delete dest key) dir e
  end.

Definition RenderAtPath (e : EditTree) (path : list value) : option (EditTree * res et_error (option value)) :=
  Unfold (fun dest => t ← Render dest; leaves dest t) path e.

(** ** Exists *)
Definition found {A} (o : option A) : bool := match o with Some _ => true | None => false end.

Fixpoint Exists (path : list value) (e : EditTree) : option (EditTree * bool) :=
  match et_value e, path with
  | None, _ => Some (e, false)
  | Some _, [] => Some (e, true)
  | Some v, key :: rest =>
      let on_slot hash :=
        match childScalarValues e !! hash, childCompositeValues e !! hash with
        | Some term, _ => Some (e, (length path =? 1)%nat)
        | None, Some (Some child) =>
            '(child, b) ← Exists rest child; Some (setChildCompositeValue e hash (Some child), b)
        | _, _ => None
        end in
      match v with
      | Object _ =>
          '(keyHash, ok) ← getKeyHash e key;
          if (ok : bool) then
            match childScalarValues e !! keyHash, childCompositeValues e !! keyHash with
            | Some None, _ | None, Some None => Some (e, false)
            | _, _ => on_slot keyHash
            end
          else Some (e, found (Find v path))
      | SetV _ =>
          if isComposite key then e ← collapse e; t ← et_value e; Some (e, found (Find t path))
          else
            '(keyHash, ok) ← getKeyHash e key;
            if (ok : bool) && found (childScalarValues e !! keyHash) then Some (e, (length path =? 1)%nat)
            else Some (e, found (Find v path))
      | Array _ =>
          ins ← insertions e;
          match toIndex (Length ins) key with
          | None => Some (e, false)
          | Some idx =>
              if found (childScalarValues e !! idx) || found (childCompositeValues e !! idx) then on_slot idx
              else Some (e, found (Find v (IntNumberTerm idx :: rest)))
          end
      | _ => Some (e, false)
      end
  end.
End EditTree.
