(* ===== verification/EditArray.v ===== *)
(** The arrays of edit trees: which elements of the original array survive, and
    what the loops over bit vectors in EditTree.v compute. *)
From Stdlib Require Import ZArith Lia String.
From stdpp Require Import base gmap list strings.
From S2P Require Import Prelude SortedKeys Value Containers SetTable RefOps Path Builtins Document BitVector EditTree.

(** ** Zeros and survivors *)
Fixpoint zeros (l : list bool) : nat := match l with [] => 0 | b :: l => (if b then 0 else 1) + zeros l end.

(** The elements that are not eliminated. *)
Fixpoint survivors {A} (elim : list bool) (orig : list A) : list A :=
  match elim, orig with
  | b :: elim, x :: orig => if b then survivors elim orig else x :: survivors elim orig
  | _, _ => []
  end.

Lemma zeros_app l1 l2 : zeros (l1 ++ l2) = (zeros l1 + zeros l2)%nat.
Proof. induction l1 as [|b l1 IH]; simpl; [done|]. rewrite IH. destruct b; lia. Qed.

Lemma zeros_replicate n : zeros (replicate n false) = n.
Proof. induction n; simpl; congruence. Qed.

Lemma zeros_take_S (l : list bool) (i : nat) (b : bool) : l !! i = Some b -> zeros (take (S i) l) = ((if b then 0 else 1) + zeros (take i l))%nat.
Proof. intros H. rewrite (take_S_r _ _ b H), zeros_app. simpl. destruct b; lia. Qed.

Lemma zeros_take_zero (l : list bool) (i : nat) : l !! i = Some false -> zeros (take (S i) l) = S (zeros (take i l)).
Proof. intros H. by rewrite (zeros_take_S l i false H). Qed.

Lemma zeros_take_le l i : (zeros (take i l) <= zeros l)%nat.
Proof. rewrite <- (take_drop i l) at 2. rewrite zeros_app. lia. Qed.

Lemma zeros_take_mono l i j : (i <= j)%nat -> (zeros (take i l) <= zeros (take j l))%nat.
Proof. intros H. replace (take i l) with (take i (take j l)) by (rewrite take_take; f_equal; lia). apply zeros_take_le. Qed.

Lemma zeros_take_lt (l : list bool) (i : nat) : l !! i = Some false -> (zeros (take i l) < zeros l)%nat.
Proof. intros H. pose proof (zeros_take_zero l i H). pose proof (zeros_take_le l (S i)). lia. Qed.

Lemma length_survivors {A} elim (orig : list A) : length elim = length orig -> length (survivors elim orig) = zeros elim.
Proof.
  revert orig. induction elim as [|b elim IH]; intros [|x orig] H; try discriminate H; [done|].
  simpl in *. destruct b; simpl; rewrite IH by lia; done.
Qed.

Lemma survivors_lookup {A} elim (orig : list A) j : length elim = length orig -> elim !! j = Some false ->
  survivors elim orig !! zeros (take j elim) = orig !! j.
Proof.
  revert orig j. induction elim as [|b elim IH]; intros [|x orig] [|j] H E; try discriminate H; try discriminate E.
  - injection E as ->. done.
  - simpl in *. destruct b; simpl; apply IH; auto; lia.
Qed.

Lemma survivors_all {A} (orig : list A) : survivors (replicate (length orig) false) orig = orig.
Proof. induction orig; simpl; congruence. Qed.

Lemma survivors_eliminate {A} elim (orig : list A) j : length elim = length orig -> elim !! j = Some false ->
  survivors (<[j := true]> elim) orig = delete (zeros (take j elim)) (survivors elim orig).
Proof.
  revert orig j. induction elim as [|b elim IH]; intros [|x orig] [|j] H E; try discriminate H; try discriminate E.
  - injection E as ->. done.
  - simpl in *. destruct b; simpl; [|f_equal]; apply IH; auto; lia.
Qed.

Lemma zeros_eliminate (l : list bool) (j : nat) : l !! j = Some false -> S (zeros (<[j := true]> l)) = zeros l.
Proof.
  revert j. induction l as [|b l IH]; intros [|j] E; try discriminate E.
  - injection E as ->. done.
  - simpl in *. rewrite <- (IH j E). destruct b; lia.
Qed.

(** The index of the [z]-th zero. *)
Lemma zero_index (l : list bool) (z : nat) : (z < zeros l)%nat -> exists j, l !! j = Some false /\ zeros (take j l) = z.
Proof.
  revert z. induction l as [|b l IH]; simpl; intros z H; [lia|]. destruct b.
  - destruct (IH z H) as (j & E & Hz). by exists (S j).
  - destruct z as [|z]; [by exists 0%nat|]. destruct (IH z ltac:(lia)) as (j & E & Hz). exists (S j). simpl. by rewrite Hz.
Qed.

Lemma zero_index_unique (l : list bool) (i : nat) (j : nat) : l !! i = Some false -> l !! j = Some false ->
  zeros (take i l) = zeros (take j l) -> i = j.
Proof.
  intros Ei Ej E. pose proof (zeros_take_zero l i Ei). pose proof (zeros_take_zero l j Ej).
  destruct (Nat.lt_trichotomy i j) as [L|[L|L]]; [|done|].
  - pose proof (zeros_take_mono l (S i) j L). lia.
  - pose proof (zeros_take_mono l (S j) i L). lia.
Qed.

(** ** Insertion and removal *)
Lemma take_insert_at {A} i (x : A) l n : (i <= length l)%nat ->
  take n (insert_at i x l) = if (n <=? i)%nat then take n l else insert_at i x (take (n - 1) l).
Proof.
  intros H. unfold insert_at. destruct (Nat.leb_spec n i).
  - rewrite take_app_le by (rewrite length_take; lia). rewrite take_take. f_equal. lia.
  - rewrite take_app_ge by (rewrite length_take; lia). rewrite length_take, Nat.min_l by done.
    destruct (n - i)%nat as [|m] eqn:E; [lia|]. simpl. rewrite take_take, Nat.min_l by lia. f_equal. f_equal.
    rewrite take_drop_commute. replace (i + m)%nat with (n - 1)%nat by lia. done.
Qed.

Lemma zeros_insert_at i b l : zeros (insert_at i b l) = ((if b then 0 else 1) + zeros l)%nat.
Proof. unfold insert_at. rewrite zeros_app. simpl. rewrite <- (take_drop i l) at 3. rewrite zeros_app. destruct b; lia. Qed.

Lemma delete_take_drop' {A} i (l : list A) : delete i l = take i l ++ drop (S i) l.
Proof. apply delete_take_drop. Qed.

Lemma zeros_delete (i : nat) (b : bool) (l : list bool) : l !! i = Some b -> zeros l = ((if b then 0 else 1) + zeros (delete i l))%nat.
Proof.
  intros H. rewrite delete_take_drop'. rewrite <- (take_drop_middle l i b H) at 1. rewrite !zeros_app. simpl. destruct b; lia.
Qed.

Lemma take_delete_at {A} i (l : list A) n : take n (delete i l) = if (n <=? i)%nat then take n l else delete i (take (S n) l).
Proof.
  revert i n. induction l as [|x l IH]; intros i n; [by destruct (n <=? i)%nat, i, n|].
  destruct i as [|i], n as [|n]; try done. simpl. rewrite IH. by destruct (n <=? i)%nat.
Qed.

(** ** The loops over bit vectors *)
Lemma Element_lookup v (i : nat) b : bv_wf v -> bits v !! i = Some b -> Element v (Z.of_nat i) = Some (Z.b2z b).
Proof.
  intros W E. pose proof (lookup_lt_Some _ _ _ E) as H. rewrite length_bits in H.
  destruct (Element_ok v (Z.of_nat i) W) as (c & Ec & ->); [lia|]. rewrite Nat2Z.id in Ec. congruence.
Qed.

Lemma Length_bits v : bv_wf v -> Length v = Z.of_nat (length (bits v)).
Proof. intros (W & _). rewrite length_bits. unfold Length. lia. Qed.

Lemma b2z_0 b : (Z.b2z b =? 0)%Z = negb b.
Proof. by destruct b. Qed.

Lemma drop_lookup {A} (l : list A) i : (i < length l)%nat -> exists x, l !! i = Some x /\ drop i l = x :: drop (S i) l.
Proof. intros H. destruct (lookup_lt_is_Some_2 l i H) as [x E]. exists x. split; [done|]. by apply drop_S. Qed.

Lemma sumZeroes_ok v n : bv_wf v -> forall i : nat, (i + n <= length (bits v))%nat ->
  sumZeroes n v (Z.of_nat i) = Some (Z.of_nat (zeros (take n (drop i (bits v))))).
Proof.
  intros W. induction n as [|n IH]; intros i H; [done|].
  destruct (drop_lookup (bits v) i ltac:(lia)) as (b & E & ->).
  simpl. rewrite (Element_lookup v i b W E). simpl. replace (Z.of_nat i + 1)%Z with (Z.of_nat (S i)) by lia.
  rewrite IH by lia. simpl. rewrite b2z_0. f_equal. destruct b; simpl; lia.
Qed.

Lemma sumZeroesBelowIndex_ok v (i : nat) : bv_wf v -> (i <= length (bits v))%nat ->
  sumZeroesBelowIndex (Z.of_nat i) v = Some (Z.of_nat (zeros (take i (bits v)))).
Proof. intros W H. unfold sumZeroesBelowIndex. rewrite Nat2Z.id. by apply (sumZeroes_ok v i W 0). Qed.

Lemma nth_zero_ok v z n : bv_wf v -> forall i : nat, (i + n = length (bits v))%nat ->
  (zeros (take i (bits v)) <= z)%nat -> (z < zeros (bits v))%nat -> exists j,
  bits v !! j = Some false /\ zeros (take j (bits v)) = z /\
  nth_zero n v (1 + Z.of_nat z) (Z.of_nat (zeros (take i (bits v)))) (Z.of_nat i) = Some (Some (Z.of_nat j)).
Proof.
  intros W. induction n as [|n IH]; intros i H L Hz.
  - rewrite take_ge in L by lia. lia.
  - destruct (drop_lookup (bits v) i ltac:(lia)) as (b & E & _). cbn [nth_zero].
    rewrite (Element_lookup v i b W E). cbn [mbind option_bind]. rewrite b2z_0. pose proof (zeros_take_S _ _ _ E) as S.
    replace (Z.of_nat i + 1)%Z with (Z.of_nat (Datatypes.S i)) by lia.
    replace (if negb b then (Z.of_nat (zeros (take i (bits v))) + 1)%Z else Z.of_nat (zeros (take i (bits v))))
      with (Z.of_nat (zeros (take (Datatypes.S i) (bits v)))) by (rewrite S; destruct b; simpl; lia).
    destruct (Z.eqb_spec (Z.of_nat (zeros (take (Datatypes.S i) (bits v)))) (1 + Z.of_nat z)) as [Ez|N].
    + exists i. destruct b; simpl in S; [lia|]. split_ands; [done|lia|done].
    + apply IH; [lia| |done]. destruct b; simpl in S; lia.
Qed.

Lemma findIndexOfNthZero_ok v z : bv_wf v -> (z < zeros (bits v))%nat -> exists j,
  bits v !! j = Some false /\ zeros (take j (bits v)) = z /\
  findIndexOfNthZero (1 + Z.of_nat z) v = Some (Some (Z.of_nat j)).
Proof.
  intros W Hz. unfold findIndexOfNthZero. rewrite Length_bits, Nat2Z.id by done.
  by apply (nth_zero_ok v z _ W 0); [|simpl; lia|].
Qed.

Lemma next_zero_ok v n : bv_wf v -> forall i : nat, (i + n = length (bits v))%nat ->
  (zeros (take i (bits v)) < zeros (bits v))%nat -> exists j,
  bits v !! j = Some false /\ zeros (take j (bits v)) = zeros (take i (bits v)) /\
  next_zero n v (Z.of_nat i) = Some (Z.of_nat j).
Proof.
  intros W. induction n as [|n IH]; intros i H Hz.
  - rewrite take_ge in Hz by lia. lia.
  - destruct (drop_lookup (bits v) i ltac:(lia)) as (b & E & _). cbn [next_zero].
    rewrite (Element_lookup v i b W E). cbn [mbind option_bind]. rewrite b2z_0.
    destruct b; simpl; [|by exists i]. pose proof (zeros_take_S _ _ _ E) as S. simpl in S.
    replace (Z.of_nat i + 1)%Z with (Z.of_nat (Datatypes.S i)) by lia. rewrite <- S. apply IH; lia.
Qed.

(** ** Rewriting the indexes of children

    [move] takes an entry of the first map to another index and clears its old
    index in both maps. *)
Section Move.
Context {A B : Type}.
Abbreviation maps := (gmap Z (option A) * gmap Z B)%type.
Implicit Types m : gmap Z (option A).

Definition move (shift : Z) (ms : maps) (i : Z) : maps :=
  (<[(i + shift)%Z := match ms.1 !! i with Some v => v | None => None end]> (delete i ms.1), delete i ms.2).

(** The indexes from [i] on that are in the map, up to [n] of them. *)
Fixpoint indexes (n : nat) m (i : Z) : list Z :=
  match n with
  | O => []
  | S n => match m !! i with Some _ => i :: indexes n m (i + 1) | None => indexes n m (i + 1) end
  end.

Lemma indexes_snoc n m i : indexes (S n) m i =
  indexes n m i ++ match m !! (i + Z.of_nat n)%Z with Some _ => [(i + Z.of_nat n)%Z] | None => [] end.
Proof.
  revert i. induction n as [|n IH]; intros i.
  - simpl. rewrite Z.add_0_r. by destruct (m !! i).
  - change (indexes (S (S n)) m i) with
      (match m !! i with Some _ => i :: indexes (S n) m (i + 1) | None => indexes (S n) m (i + 1) end).
    rewrite IH. replace (i + 1 + Z.of_nat n)%Z with (i + Z.of_nat (S n))%Z by lia.
    simpl. by destruct (m !! i).
Qed.

Definition shifted_up (idx : Z) m m' : Prop := forall j,
  m' !! j = if (j <? idx)%Z then m !! j else if (j =? idx)%Z then None else m !! (j - 1)%Z.
Definition shifted_down (idx : Z) m m' : Prop := forall j, m' !! j = if (j <? idx)%Z then m !! j else m !! (j + 1)%Z.

(** The other map holds nothing at the indexes of the first. *)
Definition apart m (o : gmap Z B) : Prop := forall j, is_Some (m !! j) -> o !! j = None.

Lemma delete_apart m o j v : apart m o -> m !! j = Some v -> delete j o = o.
Proof. intros H E. apply delete_id, H. by exists v. Qed.

Lemma move_up n : forall idx m (ms : maps), apart m ms.2 -> shifted_up (idx + Z.of_nat n) m ms.1 ->
  let ms' := fold_left (move 1) (rev (indexes n m idx)) ms in shifted_up idx m ms'.1 /\ ms'.2 = ms.2.
Proof.
  induction n as [|n IH]; intros idx m ms Ha Hs; [simpl; rewrite Z.add_0_r in Hs; done|].
  cbv zeta. rewrite indexes_snoc. set (t := (idx + Z.of_nat n)%Z).
  replace (idx + Z.of_nat (S n))%Z with (t + 1)%Z in Hs by (unfold t; lia).
  destruct (m !! t) as [v|] eqn:E.
  - rewrite rev_app_distr. simpl rev. simpl app. cbn [fold_left].
    assert (Ht : ms.1 !! t = Some v) by (rewrite Hs; destruct (Z.ltb_spec t (t + 1)%Z); [done|lia]).
    assert (E2 : (move 1 ms t).2 = ms.2) by (simpl; by apply (delete_apart m _ _ v)).
    destruct (IH idx m (move 1 ms t)) as [H1 H2]; [by rewrite E2| |by rewrite E2 in H2].
    intros j. simpl. rewrite Ht. fold t. destruct (Z.eq_dec j (t + 1)%Z) as [->|N1].
    + rewrite lookup_insert_eq. destruct (Z.ltb_spec (t + 1)%Z t), (Z.eqb_spec (t + 1)%Z t); try lia.
      replace (t + 1 - 1)%Z with t by lia. done.
    + rewrite lookup_insert_ne by auto. destruct (Z.eq_dec j t) as [->|N2].
      * rewrite lookup_delete_eq. destruct (Z.ltb_spec t t), (Z.eqb_spec t t); try lia. done.
      * rewrite lookup_delete_ne, Hs by auto.
        destruct (Z.ltb_spec j (t + 1)%Z), (Z.ltb_spec j t), (Z.eqb_spec j (t + 1)%Z), (Z.eqb_spec j t); try lia; done.
  - rewrite app_nil_r. apply IH; [done|]. intros j. fold t. rewrite Hs.
    destruct (Z.ltb_spec j (t + 1)%Z), (Z.ltb_spec j t), (Z.eqb_spec j (t + 1)%Z), (Z.eqb_spec j t); try lia; try done.
    + by subst j.
    + subst j. by replace (t + 1 - 1)%Z with t by lia.
Qed.

(** Between two steps of a shift down: [t] is the next index to move. *)
Definition moving_down (idx t : Z) m m' : Prop := forall j,
  m' !! j = if (j <? idx)%Z then m !! j else if (j <? t - 1)%Z then m !! (j + 1)%Z
            else if (j =? t - 1)%Z then None else m !! j.

Lemma move_down n : forall idx t m (ms : maps), (idx < t)%Z ->
  (forall j, (t <= j)%Z -> is_Some (m !! j) -> ms.2 !! j = None) -> moving_down idx t m ms.1 ->
  let ms' := fold_left (move (-1)) (indexes n m t) ms in moving_down idx (t + Z.of_nat n) m ms'.1 /\ ms'.2 = ms.2.
Proof.
  induction n as [|n IH]; intros idx t m ms Hi Ha Hs; [simpl; by rewrite Z.add_0_r|].
  cbv zeta. cbn [indexes]. replace (t + Z.of_nat (S n))%Z with (t + 1 + Z.of_nat n)%Z by lia.
  destruct (m !! t) as [v|] eqn:E.
  - cbn [fold_left].
    assert (Ht : ms.1 !! t = Some v).
    { rewrite Hs. destruct (Z.ltb_spec t idx), (Z.ltb_spec t (t - 1)%Z), (Z.eqb_spec t (t - 1)%Z); try lia. done. }
    assert (E2 : (move (-1) ms t).2 = ms.2) by (simpl; apply delete_id, Ha; [lia|by rewrite E]).
    destruct (IH idx (t + 1)%Z m (move (-1) ms t)) as [H1 H2]; [lia|rewrite E2; intros; apply Ha; [lia|done]| |by rewrite E2 in H2].
    intros j. simpl. rewrite Ht. destruct (Z.eq_dec j (t + -1)%Z) as [->|N1].
    + rewrite lookup_insert_eq. replace (t + -1 + 1)%Z with t by lia.
      destruct (Z.ltb_spec (t + -1)%Z idx), (Z.ltb_spec (t + -1)%Z (t + 1 - 1)%Z); try lia; done.
    + rewrite lookup_insert_ne by auto. destruct (Z.eq_dec j t) as [->|N2].
      * rewrite lookup_delete_eq. destruct (Z.ltb_spec t idx), (Z.ltb_spec t (t + 1 - 1)%Z), (Z.eqb_spec t (t + 1 - 1)%Z); try lia; done.
      * rewrite lookup_delete_ne, Hs by auto.
        destruct (Z.ltb_spec j idx), (Z.ltb_spec j (t - 1)%Z), (Z.ltb_spec j (t + 1 - 1)%Z), (Z.eqb_spec j (t - 1)%Z),
          (Z.eqb_spec j (t + 1 - 1)%Z); try lia; done.
  - apply IH; [lia|intros; apply Ha; [lia|done]|]. intros j. rewrite Hs.
    destruct (Z.ltb_spec j idx), (Z.ltb_spec j (t - 1)%Z), (Z.ltb_spec j (t + 1 - 1)%Z), (Z.eqb_spec j (t - 1)%Z),
      (Z.eqb_spec j (t + 1 - 1)%Z); try lia; try done.
    + subst j. by replace (t - 1 + 1)%Z with t by lia.
    + subst j. by replace (t + 1 - 1)%Z with t by lia.
Qed.
End Move.

(** ** Children of an array *)
Definition bit_of (ins : list bool) (j : Z) : option bool := if (0 <=? j)%Z then ins !! Z.to_nat j else None.

(** The inserted indexes have one child each, the others none. *)
Definition kids (ins : list bool) (e : EditTree) : Prop := forall j,
  match bit_of ins j with
  | Some true =>
      is_Some (childScalarValues e !! j) /\ childCompositeValues e !! j = None \/
      childScalarValues e !! j = None /\ is_Some (childCompositeValues e !! j)
  | _ => childScalarValues e !! j = None /\ childCompositeValues e !! j = None
  end.

Lemma bit_of_nat ins (i : nat) : bit_of ins (Z.of_nat i) = ins !! i.
Proof. unfold bit_of. destruct (Z.leb_spec 0 (Z.of_nat i)); [by rewrite Nat2Z.id|lia]. Qed.

Lemma kids_apart ins e : kids ins e ->
  apart (childScalarValues e) (childCompositeValues e) /\ apart (childCompositeValues e) (childScalarValues e).
Proof.
  intros K. split; intros j [x E]; specialize (K j); destruct (bit_of ins j) as [[]|];
    destruct K as [K|K] || idtac; naive_solver.
Qed.

Lemma kids_beyond ins e j : kids ins e -> (Z.of_nat (length ins) <= j)%Z ->
  childScalarValues e !! j = None /\ childCompositeValues e !! j = None.
Proof.
  intros K H. specialize (K j). replace (bit_of ins j) with (@None bool) in K; [done|].
  unfold bit_of. destruct (Z.leb_spec 0 j); [|done]. symmetry. apply lookup_ge_None_2. lia.
Qed.

Lemma collect_rewrites_ok v e n : bv_wf v -> kids (bits v) e -> forall i : nat, (i + n <= length (bits v))%nat ->
  collect_rewrites n e v (Z.of_nat i) =
    Some (indexes n (childScalarValues e) (Z.of_nat i), indexes n (childCompositeValues e) (Z.of_nat i)).
Proof.
  intros W K. induction n as [|n IH]; intros i H; [done|]. cbn [collect_rewrites indexes].
  destruct (drop_lookup (bits v) i ltac:(lia)) as (b & E & _). rewrite (Element_lookup v i b W E). cbn [mbind option_bind].
  specialize (K (Z.of_nat i)). rewrite bit_of_nat, E in K.
  replace (Z.of_nat i + 1)%Z with (Z.of_nat (S i)) by lia. rewrite (IH (S i)) by lia. destruct b; simpl.
  - destruct K as [[[x ->] ->]|[-> [x ->]]]; done.
  - destruct K as [-> ->]. done.
Qed.

(** What the rewriting leaves alone. *)
Definition same_node (e e' : EditTree) : Prop :=
  et_value e' = et_value e /\ childKeys e' = childKeys e /\ eliminated e' = eliminated e /\ insertions e' = insertions e.

Lemma rewrite_scalars s l : forall e, let e' := fold_left (rewrite_scalar s) l e in
  same_node e e' /\ (childScalarValues e', childCompositeValues e') =
    fold_left (move s) l (childScalarValues e, childCompositeValues e).
Proof.
  induction l as [|i l IH]; intros e; [done|]. cbn [fold_left]. cbv zeta.
  destruct (IH (rewrite_scalar s e i)) as [H1 H2]. by split.
Qed.

Lemma rewrite_composites s l : forall e, let e' := fold_left (rewrite_composite s) l e in
  same_node e e' /\ (childCompositeValues e', childScalarValues e') =
    fold_left (move s) l (childCompositeValues e, childScalarValues e).
Proof.
  induction l as [|i l IH]; intros e; [done|]. cbn [fold_left]. cbv zeta.
  destruct (IH (rewrite_composite s e i)) as [H1 H2]. by split.
Qed.

(** The moved scalars do not meet composites on their way. *)
Definition no_clash_up (e : EditTree) (idx : Z) : Prop := forall j,
  (idx <= j)%Z -> is_Some (childScalarValues e !! j) -> childCompositeValues e !! (j + 1)%Z = None.
Definition no_clash_down (e : EditTree) (idx : Z) : Prop := forall j,
  (idx < j)%Z -> is_Some (childCompositeValues e !! j) -> childScalarValues e !! (j + 1)%Z = None.

Lemma rewrite_up ins e (idx n : nat) : kids ins e -> no_clash_up e (Z.of_nat idx) -> (idx + n = length ins)%nat ->
  let e1 := fold_left (rewrite_scalar 1) (rev (indexes n (childScalarValues e) (Z.of_nat idx))) e in
  let e2 := fold_left (rewrite_composite 1) (rev (indexes n (childCompositeValues e) (Z.of_nat idx))) e1 in
  same_node e e2 /\ shifted_up (Z.of_nat idx) (childScalarValues e) (childScalarValues e2) /\
  shifted_up (Z.of_nat idx) (childCompositeValues e) (childCompositeValues e2).
Proof.
  intros K C H e1 e2. destruct (kids_apart ins e K) as [A1 A2].
  assert (Base : forall (A : Type) (m : gmap Z (option A)), (forall j, (Z.of_nat (length ins) <= j)%Z -> m !! j = None) ->
    shifted_up (Z.of_nat idx + Z.of_nat n) m m).
  { intros A m Hm j. destruct (Z.ltb_spec j (Z.of_nat idx + Z.of_nat n)); [done|].
    rewrite Hm by lia. destruct (Z.eqb_spec j (Z.of_nat idx + Z.of_nat n)); [done|]. rewrite Hm by lia. done. }
  assert (B1 := Base _ _ (fun j Hj => proj1 (kids_beyond ins e j K Hj))).
  assert (B2 := Base _ _ (fun j Hj => proj2 (kids_beyond ins e j K Hj))).
  destruct (rewrite_scalars 1 (rev (indexes n (childScalarValues e) (Z.of_nat idx))) e) as [N1 M1].
  destruct (move_up n (Z.of_nat idx) (childScalarValues e) (childScalarValues e, childCompositeValues e) A1 B1) as [S1 U1].
  cbv zeta in N1, M1, S1, U1. rewrite <- M1 in S1, U1. fold e1 in N1, M1, S1, U1. simpl in S1, U1.
  destruct (rewrite_composites 1 (rev (indexes n (childCompositeValues e) (Z.of_nat idx))) e1) as [N2 M2].
  destruct (move_up n (Z.of_nat idx) (childCompositeValues e) (childCompositeValues e1, childScalarValues e1)) as [S2 U2].
  { intros j Hj. simpl. rewrite S1. destruct (Z.ltb_spec j (Z.of_nat idx)); [by apply A2|].
    destruct (Z.eqb_spec j (Z.of_nat idx)); [done|].
    destruct (childScalarValues e !! (j - 1)%Z) eqn:E; [|done]. specialize (C (j - 1)%Z ltac:(lia) ltac:(by rewrite E)).
    replace (j - 1 + 1)%Z with j in C by lia. destruct Hj as [x Hj]. congruence. }
  { simpl. by rewrite U1. }
  cbv zeta in N2, M2, S2, U2. rewrite <- M2 in S2, U2. fold e2 in N2, M2, S2, U2. simpl in S2, U2. split_ands; [|by rewrite U2|done].
  unfold same_node in *. intuition congruence.
Qed.

Lemma moving_down_start {A} idx (m : gmap Z (option A)) : moving_down idx (idx + 1) m (delete idx m).
Proof.
  intros j. destruct (Z.eq_dec j idx) as [->|N].
  - rewrite lookup_delete_eq. destruct (Z.ltb_spec idx idx), (Z.ltb_spec idx (idx + 1 - 1)%Z),
      (Z.eqb_spec idx (idx + 1 - 1)%Z); try lia; done.
  - rewrite lookup_delete_ne by auto. destruct (Z.ltb_spec j idx), (Z.ltb_spec j (idx + 1 - 1)%Z),
      (Z.eqb_spec j (idx + 1 - 1)%Z); try lia; done.
Qed.

Lemma moving_down_end {A} idx t (m m' : gmap Z (option A)) : (idx < t)%Z -> (forall j, (t <= j)%Z -> m !! j = None) ->
  moving_down idx t m m' -> shifted_down idx m m'.
Proof.
  intros Hi Hm H j. rewrite H. destruct (Z.ltb_spec j idx), (Z.ltb_spec j (t - 1)%Z), (Z.eqb_spec j (t - 1)%Z);
    try done; symmetry; rewrite ?Hm by lia; done.
Qed.

Lemma rewrite_down ins e (idx n : nat) : kids ins e -> no_clash_down e (Z.of_nat idx) -> (idx + 1 + n = length ins)%nat ->
  let e0 := deleteChildValue e (Z.of_nat idx) in
  let e1 := fold_left (rewrite_scalar (-1)) (indexes n (childScalarValues e) (Z.of_nat idx + 1)) e0 in
  let e2 := fold_left (rewrite_composite (-1)) (indexes n (childCompositeValues e) (Z.of_nat idx + 1)) e1 in
  same_node e e2 /\ shifted_down (Z.of_nat idx) (childScalarValues e) (childScalarValues e2) /\
  shifted_down (Z.of_nat idx) (childCompositeValues e) (childCompositeValues e2).
Proof.
  intros K C H e0 e1 e2. destruct (kids_apart ins e K) as [A1 A2]. set (i := Z.of_nat idx) in *.
  assert (B1 := fun j Hj => proj1 (kids_beyond ins e j K Hj)). assert (B2 := fun j Hj => proj2 (kids_beyond ins e j K Hj)).
  destruct (rewrite_scalars (-1) (indexes n (childScalarValues e) (i + 1)) e0) as [N1 M1].
  destruct (move_down n i (i + 1) (childScalarValues e) (childScalarValues e0, childCompositeValues e0)) as [S1 U1];
    [lia| |apply moving_down_start|].
  { intros j Hj Hs. simpl. rewrite lookup_delete_ne by lia. by apply A1. }
  cbv zeta in N1, M1, S1, U1. rewrite <- M1 in S1, U1. fold e1 in N1, M1, S1, U1. cbn [fst snd] in S1, U1.
  apply moving_down_end in S1; [|lia|intros; apply B1; lia].
  destruct (rewrite_composites (-1) (indexes n (childCompositeValues e) (i + 1)) e1) as [N2 M2].
  destruct (move_down n i (i + 1) (childCompositeValues e) (childCompositeValues e1, childScalarValues e1)) as [S2 U2]; [lia| | |].
  { intros j Hj Hs. cbn [snd]. rewrite S1. destruct (Z.ltb_spec j i); [lia|]. apply C; [lia|done]. }
  { cbn [fst]. rewrite U1. apply moving_down_start. }
  cbv zeta in N2, M2, S2, U2. rewrite <- M2 in S2, U2. fold e2 in N2, M2, S2, U2. cbn [fst snd] in S2, U2.
  apply moving_down_end in S2; [|lia|intros; apply B2; lia]. split_ands; [|by rewrite U2|done].
  assert (N0 : same_node e e0) by done. unfold same_node in *. intuition congruence.
Qed.

(** ** Insertion into and removal from an array *)
Section Array.
Context `{X : XXHash}.

Lemma unsafeInsertArray_ok e ins (idx : nat) v : bv_wf ins -> kids (bits ins) e -> no_clash_up e (Z.of_nat idx) ->
  (Length ins + 1 < 2 ^ 32)%Z -> (idx <= length (bits ins))%nat -> exists e' ins',
  unsafeInsertArray e ins (Z.of_nat idx) v = Some (set_child (set_insertions e' ins') (Z.of_nat idx) v) /\
  same_node e e' /\ bv_wf ins' /\ bits ins' = insert_at idx true (bits ins) /\
  shifted_up (Z.of_nat idx) (childScalarValues e) (childScalarValues e') /\
  shifted_up (Z.of_nat idx) (childCompositeValues e) (childCompositeValues e').
Proof.
  intros W K C L H. unfold unsafeInsertArray. rewrite (Length_bits ins W).
  replace (Z.to_nat (Z.of_nat (length (bits ins)) - Z.of_nat idx)) with (length (bits ins) - idx)%nat by lia.
  rewrite (collect_rewrites_ok ins e _ W K idx) by lia. cbn [mbind option_bind].
  destruct (rewrite_up (bits ins) e idx (length (bits ins) - idx) K C ltac:(lia)) as (N & S1 & S2).
  destruct (Z.eqb_spec (Z.of_nat idx) (Z.of_nat (length (bits ins)))) as [E|E].
  - destruct (Append_ok ins 1 W L) as (ins' & -> & W' & B); [by right|]. cbn [mbind option_bind]. do 2 eexists.
    split; [done|]. split_ands; try done. rewrite B. unfold insert_at. rewrite take_ge, drop_ge by lia. done.
  - pose proof (Length_bits ins W) as LB. unfold Length in LB.
    destruct (BitVector.bits_Insert_ok ins (Z.of_nat idx) 1 W L) as (ins' & -> & W' & B); [lia|by right|].
    cbn [mbind option_bind]. do 2 eexists. split; [done|]. split_ands; try done. by rewrite B, Nat2Z.id.
Qed.

Lemma deleteArray_ok e ins elim (idx : nat) (b : bool) : bv_wf ins -> bv_wf elim -> eliminated e = Some elim ->
  kids (bits ins) e -> no_clash_down e (Z.of_nat idx) -> bits ins !! idx = Some b -> zeros (bits ins) = zeros (bits elim) ->
  exists e' ins' elim', deleteArray e ins (Z.of_nat idx) = Some e' /\
  et_value e' = et_value e /\ childKeys e' = childKeys e /\ insertions e' = Some ins' /\ eliminated e' = Some elim' /\
  bv_wf ins' /\ bits ins' = delete idx (bits ins) /\ bv_wf elim' /\
  (if b then elim' = elim else exists j : nat, bits elim !! j = Some false /\ zeros (take j (bits elim)) = zeros (take idx (bits ins)) /\
     bits elim' = <[j := true]> (bits elim)) /\
  shifted_down (Z.of_nat idx) (childScalarValues e) (childScalarValues e') /\
  shifted_down (Z.of_nat idx) (childCompositeValues e) (childCompositeValues e').
Proof.
  intros W We Ee K C E Z. pose proof (lookup_lt_Some _ _ _ E) as H. unfold deleteArray. rewrite (Length_bits ins W).
  replace (Z.to_nat (Z.of_nat (length (bits ins)) - (Z.of_nat idx + 1))) with (length (bits ins) - S idx)%nat by lia.
  replace (Z.of_nat idx + 1)%Z with (Z.of_nat (S idx)) by lia.
  rewrite (collect_rewrites_ok ins e _ W K (S idx)) by lia. cbn [mbind option_bind].
  destruct (rewrite_down (bits ins) e idx (length (bits ins) - S idx) K C ltac:(lia)) as (N & S1 & S2).
  replace (Z.of_nat idx + 1)%Z with (Z.of_nat (S idx)) in * by lia.
  set (e2 := fold_left (rewrite_composite (-1)) _ _) in *. destruct N as (N1 & N2 & N3 & N4).
  rewrite (Element_lookup ins idx b W E). cbn [mbind option_bind]. rewrite b2z_0.
  pose proof (Length_bits ins W) as LB. unfold Length in LB.
  destruct (BitVector.bits_Delete_ok ins (Z.of_nat idx) W ltac:(lia)) as (ins' & Ed & Wd & Bd). rewrite Nat2Z.id in Bd.
  destruct b; simpl negb; cbn [mbind option_bind].
  - rewrite Ed. cbn [mbind option_bind]. exists (set_insertions e2 ins'), ins', elim. simpl. split_ands; try done; congruence.
  - rewrite (sumZeroesBelowIndex_ok ins idx W) by lia. cbn [mbind option_bind]. rewrite N3, Ee. cbn [mbind option_bind].
    destruct (findIndexOfNthZero_ok elim (zeros (take idx (bits ins))) We) as (j & Ej & Zj & ->).
    { rewrite <- Z. by apply zeros_take_lt. }
    cbn [mbind option_bind]. pose proof (lookup_lt_Some _ _ _ Ej) as Hj. pose proof (Length_bits elim We) as LE. unfold Length in LE.
    destruct (Set_ok elim (Z.of_nat j) 1 We ltac:(lia)) as (elim' & -> & We' & Be); [by right|]. rewrite Nat2Z.id in Be.
    cbn [mbind option_bind]. rewrite Ed. cbn [mbind option_bind].
    exists (set_insertions (set_eliminated e2 elim') ins'), ins', elim'. simpl. split_ands; try done. by exists j.
Qed.
End Array.
