(* ===== verification/EditTreeSound.v ===== *)
(** Correctness of edit trees (definitions in EditTree.v): a relation between
    trees and the terms they stand for, which [Render] computes and the edits
    respect. *)
From Stdlib Require Import ZArith Lia String.
From stdpp Require Import base gmap list strings.
From S2P Require Import Prelude SortedKeys Value Containers SetTable ObjectTable RefOps Path Builtins Document BitVector EditTree EditArray.

(** ** Edits on terms *)
Definition set_remove (k : value) (l : list value) : list value := List.filter (fun x => negb (Equal k x)) l.
Definition obj_remove (k : value) (kvs : list (value * value)) : list (value * value) :=
  List.filter (fun kv => negb (Equal k kv.1)) kvs.

(** The index that a path segment denotes in an array of length [n]. *)
Definition index_in (key : value) (n : nat) : option nat :=
  i ← toIndex (Z.of_nat n) key; if (0 <=? i)%Z && (i <? Z.of_nat n)%Z then Some (Z.to_nat i) else None.

(** [x] added under [key]. *)
Definition put (key x t : value) : option value :=
  match t with
  | Object kvs => Some (Object (obj_insert key x kvs))
  | SetV l => if Equal key x then Some (SetV (set_insert x l)) else None
  | Array l =>
      i ← toIndex (Z.of_nat (length l)) key;
      if (0 <=? i)%Z && (i <=? Z.of_nat (length l))%Z then Some (Array (insert_at (Z.to_nat i) x l)) else None
  | _ => None
  end.

(** What is under [key] removed. *)
Definition cut (key t : value) : option value :=
  match t with
  | Object kvs => _ ← obj_get key kvs; Some (Object (obj_remove key kvs))
  | SetV l => if set_mem key l then Some (SetV (set_remove key l)) else None
  | Array l => i ← index_in key (length l); Some (Array (delete i l))
  | _ => None
  end.

(** [f] applied to what is at the end of a path; a member of a set that changes
    is replaced. *)
Fixpoint at_path (path : list value) (f : value -> option value) (t : value) : option value :=
  match path with
  | [] => f t
  | key :: path =>
      match t with
      | Object kvs => v ← obj_get key kvs; v' ← at_path path f v; Some (Object (obj_insert key v' kvs))
      | SetV l =>
          if set_mem key l then v' ← at_path path f key; Some (SetV (set_insert v' (set_remove key l))) else None
      | Array l => i ← index_in key (length l); v ← l !! i; v' ← at_path path f v; Some (Array (<[i := v']> l))
      | _ => None
      end
  end.

Fixpoint get_path (path : list value) (t : value) : option value :=
  match path with
  | [] => Some t
  | key :: path =>
      match t with
      | Object kvs => v ← obj_get key kvs; get_path path v
      | SetV l => if set_mem key l then get_path path key else None
      | Array l => i ← index_in key (length l); v ← l !! i; get_path path v
      | _ => None
      end
  end.

(** ** The table of keys *)
Section Table.
Context `{X : XXHash}.

Record table_wf (keys : gmap Z value) : Prop := {
  tw_ok : forall h k, keys !! h = Some k -> key_ok k = true;
  tw_distinct : forall h h' k k', keys !! h = Some k -> keys !! h' = Some k' -> Compare k k' = Eq -> h = h';
  tw_chain : forall h k, keys !! h = Some k -> exists n, h = at_slot (Hash k) n /\
    forall i, (i < n)%nat -> is_Some (keys !! at_slot (Hash k) i);
}.

Lemma table_wf_empty : table_wf ∅.
Proof. split; intros *; rewrite lookup_empty; discriminate. Qed.

Lemma probe_keys_spec fuel m x h i :
  match probe_keys fuel m x (at_slot h i) with
  | None => forall j, (i <= j < i + fuel)%nat -> is_Some (m !! at_slot h j)
  | Some (h', false) => exists n, (i <= n)%nat /\ h' = at_slot h n /\ m !! h' = None /\
      forall j, (i <= j < n)%nat -> exists y, m !! at_slot h j = Some y /\ key_equal x y = false
  | Some (h', true) => exists n y, h' = at_slot h n /\ m !! h' = Some y /\ key_equal x y = true /\
      forall j, (i <= j < n)%nat -> is_Some (m !! at_slot h j)
  end.
Proof.
  revert i. induction fuel as [|fuel IH]; intros i; simpl; [lia|].
  destruct (m !! at_slot h i) as [y|] eqn:E.
  - destruct (key_equal x y) eqn:K.
    + exists i, y. split_ands; [done..|]. intros j Hj. lia.
    + rewrite at_slot_S. specialize (IH (S i)). destruct (probe_keys _ _ _ _) as [[h' []]|].
      * destruct IH as (n & y' & -> & Hy & K' & Hj). exists n, y'. split_ands; [done..|]. intros j Hij.
        destruct (decide (j = i)) as [->|]; [by rewrite E|apply Hj; lia].
      * destruct IH as (n & Hn & -> & Hnone & Hj). exists n. split_ands; [lia|done|done|].
        intros j Hij. destruct (decide (j = i)) as [->|]; [by exists y|apply Hj; lia].
      * intros j Hij. destruct (decide (j = i)) as [->|]; [by exists y|apply IH; lia].
  - exists i. split_ands; [lia|done|done|]. intros j Hj. lia.
Qed.

Lemma probe_keys_total m x : (Z.of_nat (size m) < two64)%Z -> probe_keys (S (size m)) m x (Hash x) <> None.
Proof.
  intros Hs E. apply (probe_total m x Hs). revert E. generalize (Hash x). generalize (S (size m)).
  induction n as [|n IH]; intros h; simpl; [done|]. destruct (m !! h) as [y|]; [|done]. destruct (key_equal x y); [done|apply IH].
Qed.

(** Writing a key into the slot that the probe gave keeps the table. *)
Lemma table_insert keys x h : table_wf keys -> key_ok x = true ->
  (forall h' k, keys !! h' = Some k -> h' <> h -> Compare x k <> Eq) ->
  (exists n, h = at_slot (Hash x) n /\ forall i, (i < n)%nat -> is_Some (keys !! at_slot (Hash x) i)) ->
  table_wf (<[h := x]> keys).
Proof.
  intros [To Td Tc] Hx Hd (n & Hn & Hc). assert (Mono : forall h', is_Some (keys !! h') -> is_Some (<[h := x]> keys !! h')).
  { intros h' Hs. apply lookup_insert_is_Some'. by right. }
  split.
  - intros h' k [[_ <-]|[_ E]]%lookup_insert_Some; [done|by eapply To].
  - intros h1 h2 k1 k2 [[<- <-]|[N1 E1]]%lookup_insert_Some [[<- <-]|[N2 E2]]%lookup_insert_Some C; [done| | |by eapply Td].
    + by destruct (Hd _ _ E2 (not_eq_sym N2)).
    + destruct (Hd _ _ E1 (not_eq_sym N1)). by apply (cmp_eq_sym Compare).
  - intros h' k [[<- <-]|[_ E]]%lookup_insert_Some.
    + exists n. split; [done|]. intros i Hi. by apply Mono, Hc.
    + destruct (Tc _ _ E) as (m & -> & Hm). exists m. split; [done|]. intros i Hi. by apply Mono, Hm.
Qed.

Lemma getKeyHash_ok e x : table_wf (childKeys e) -> key_ok x = true -> (Z.of_nat (size (childKeys e)) < two64)%Z ->
  exists h b, getKeyHash e x = Some (h, b) /\ table_wf (<[h := x]> (childKeys e)) /\
  if b then exists k, childKeys e !! h = Some k /\ Compare x k = Eq
  else childKeys e !! h = None /\ forall h' k, childKeys e !! h' = Some k -> Compare x k <> Eq.
Proof.
  intros T Hx Hs. unfold getKeyHash. pose proof (probe_keys_total _ x Hs) as P.
  pose proof (probe_keys_spec (S (size (childKeys e))) (childKeys e) x (Hash x) 0) as S. rewrite at_slot_0 in S.
  destruct (probe_keys _ _ _ _) as [[h b]|]; [|done]. exists h, b. split; [done|]. destruct b.
  - destruct S as (n & y & -> & Hy & K & Hj). rewrite key_ok_equal in K by (done || by eapply tw_ok).
    apply Equal_true in K. split; [|by exists y]. apply table_insert; [done..| |].
    + intros h' k E N C. apply N. eapply (tw_distinct _ T); [exact E|exact Hy|].
      by apply (cmp_eq_trans Compare _ x); [apply (cmp_eq_sym Compare)|].
    + exists n. split; [done|]. intros i Hi. apply Hj. lia.
  - destruct S as (n & _ & -> & Hnone & Hj). assert (D : forall h' k, childKeys e !! h' = Some k -> Compare x k <> Eq).
    { intros h' k E C. destruct (tw_chain _ T _ _ E) as (m & -> & Hm). pose proof (tw_ok _ T _ _ E) as Hk.
      rewrite <- (key_ok_hash x k) in E, Hm by done. destruct (decide (m < n)%nat) as [L|L].
      - destruct (Hj m ltac:(lia)) as (y & Ey & K). assert (y = k) as -> by congruence.
        rewrite key_ok_equal in K by done. apply Equal_true in C. congruence.
      - destruct (decide (m = n)) as [->|]; [congruence|]. destruct (Hm n ltac:(lia)) as [z Hz]. congruence. }
    split; [|done]. apply table_insert; [done..|by intros; eapply D|].
    exists n. split; [done|]. intros i Hi. destruct (Hj i ltac:(lia)) as (y & -> & _). done.
Qed.
End Table.

(** ** Terms that fit: documents with arrays shorter than 2^32 *)
Inductive fits : value -> Prop :=
| fits_array l : (Z.of_nat (length l) < 2 ^ 32)%Z -> Forall fits l -> fits (Array l)
| fits_object kvs : kv_sorted kvs -> Forall (fun kv => fits kv.2) kvs -> fits (Object kvs)
| fits_set l : ssorted Compare id l -> Forall fits l -> fits (SetV l)
| fits_leaf v : isComposite v = false -> fits v.

Lemma fits_array_inv l : fits (Array l) -> (Z.of_nat (length l) < 2 ^ 32)%Z /\ Forall fits l.
Proof. inversion 1; done. Qed.
Lemma fits_object_inv kvs : fits (Object kvs) -> kv_sorted kvs /\ Forall (fun kv => fits kv.2) kvs.
Proof. inversion 1; done. Qed.
Lemma fits_set_inv l : fits (SetV l) -> ssorted Compare id l /\ Forall fits l.
Proof. inversion 1; done. Qed.

Lemma fits_get kvs k v : fits (Object kvs) -> obj_get k kvs = Some v -> fits v.
Proof.
  intros [_ Hd]%fits_object_inv (kv & Hkv & _ & <-)%obj_get_Some. rewrite Forall_forall in Hd. by apply Hd.
Qed.

Lemma fits_object_get kvs : kv_sorted kvs -> (forall k v, obj_get k kvs = Some v -> fits v) -> fits (Object kvs).
Proof.
  intros Hs H. apply fits_object; [done|]. apply Forall_forall. intros kv Hkv. apply (H kv.1).
  apply obj_get_elem; [by apply ssorted_distinct|done].
Qed.

(** ** Objects and sets from lists *)
Lemma obj_of_snoc l kv : obj_of (l ++ [kv]) = obj_insert kv.1 kv.2 (obj_of l).
Proof. unfold obj_of. by rewrite fold_left_app. Qed.

Lemma obj_of_get q l : match obj_get q (obj_of l) with
  | Some v => exists kv, kv ∈ l /\ Compare q kv.1 = Eq /\ kv.2 = v
  | None => forall kv, kv ∈ l -> Compare q kv.1 <> Eq
  end.
Proof.
  induction l as [|kv l IH] using rev_ind; [intros kv []%not_elem_of_nil|].
  rewrite obj_of_snoc, obj_get_insert by apply obj_of_sorted. destruct (Equal q kv.1) eqn:E.
  - apply Equal_true in E. exists kv. split_ands; [|done..]. apply elem_of_app. right. by apply list_elem_of_singleton.
  - destruct (obj_get q (obj_of l)) as [v|].
    + destruct IH as (c & Hc & Ec). exists c. split; [apply elem_of_app; by left|done].
    + intros c [Hc| ->%list_elem_of_singleton]%elem_of_app; [by apply IH|]. intros C%Equal_true. congruence.
Qed.

(** A list in which the members under [q] are all [v], or there are none. *)
Lemma obj_of_unique q l o : (forall kv, kv ∈ l -> Compare q kv.1 = Eq -> o = Some kv.2) ->
  (o <> None -> exists kv, kv ∈ l /\ Compare q kv.1 = Eq) -> obj_get q (obj_of l) = o.
Proof.
  intros H1 H2. pose proof (obj_of_get q l) as H. destruct (obj_get q (obj_of l)) as [v|].
  - destruct H as (kv & Hkv & E & <-). symmetry. by apply H1.
  - destruct o as [v|]; [|done]. destruct (H2 ltac:(done)) as (kv & Hkv & E). by destruct (H kv Hkv).
Qed.

Lemma isComposite_eq v w : Compare v w = Eq -> isComposite v = isComposite w.
Proof. intros E%Equal_true%Equal_sortOrder. destruct v, w; done. Qed.

Lemma set_mem_elem x l : set_mem x l = true <-> exists y, y ∈ l /\ Compare x y = Eq.
Proof. apply set_mem_true. Qed.

Lemma set_of_fits l : Forall fits l -> fits (SetV (set_of l)).
Proof.
  intros H. apply fits_set; [apply set_of_sorted|]. apply Forall_forall. intros y Hy. rewrite Forall_forall in H.
  unfold set_of in Hy. apply set_elems in Hy as [[]%not_elem_of_nil|Hy]. by apply H.
Qed.

(** ** What a tree stands for *)
Section Reps.
Context `{X : XXHash}.

(** Every key has one child, and there are no others. *)
Definition slots (e : EditTree) : Prop := forall h,
  match childKeys e !! h with
  | Some _ =>
      is_Some (childScalarValues e !! h) /\ childCompositeValues e !! h = None \/
      childScalarValues e !! h = None /\ is_Some (childCompositeValues e !! h)
  | None => childScalarValues e !! h = None /\ childCompositeValues e !! h = None
  end.

(** No key of the table equals [q]. *)
Definition untouched (e : EditTree) (q : value) : Prop := forall h k, childKeys e !! h = Some k -> Compare q k <> Eq.

Inductive reps : EditTree -> value -> Prop :=
| reps_leaf e v t : et_value e = Some v -> isComposite v = false -> Compare v t = Eq -> reps e t
| reps_object e kvs o :
    et_value e = Some (Object kvs) -> fits (Object kvs) -> fits (Object o) -> table_wf (childKeys e) -> slots e ->
    (forall h k, childKeys e !! h = Some k ->
       childScalarValues e !! h = Some None \/ childCompositeValues e !! h = Some None -> obj_get k o = None) ->
    (forall h k t, childKeys e !! h = Some k -> childScalarValues e !! h = Some (Some t) ->
       isComposite t = false /\ oeq (Some t) (obj_get k o)) ->
    (forall h k c, childKeys e !! h = Some k -> childCompositeValues e !! h = Some (Some c) ->
       exists w, obj_get k o = Some w /\ isComposite w = true) ->
    (forall h k c w, childKeys e !! h = Some k -> childCompositeValues e !! h = Some (Some c) ->
       obj_get k o = Some w -> reps c w) ->
    (forall q, untouched e q -> oeq (obj_get q o) (obj_get q kvs)) ->
    reps e (Object o)
| reps_set e l m (f : Z -> value) :
    et_value e = Some (SetV l) -> fits (SetV l) -> fits (SetV m) -> table_wf (childKeys e) -> slots e ->
    (forall h k x, childKeys e !! h = Some k -> childScalarValues e !! h = Some x ->
       isComposite k = false /\ match x with Some t => Compare t k = Eq | None => True end) ->
    (forall h k x, childKeys e !! h = Some k -> childCompositeValues e !! h = Some x -> isComposite k = true) ->
    (forall h h', is_Some (childCompositeValues e !! h) -> is_Some (childCompositeValues e !! h') -> h = h') ->
    (forall h c, childCompositeValues e !! h = Some (Some c) -> isComposite (f h) = true) ->
    (forall h c, childCompositeValues e !! h = Some (Some c) -> reps c (f h)) ->
    (forall q, set_mem q m = true <->
       (exists h t, childScalarValues e !! h = Some (Some t) /\ Compare q t = Eq) \/
       (exists h c, childCompositeValues e !! h = Some (Some c) /\ Compare q (f h) = Eq) \/
       (set_mem q l = true /\ untouched e q)) ->
    reps e (SetV m)
| reps_array e orig ins elim l :
    et_value e = Some (Array orig) -> fits (Array orig) -> fits (Array l) ->
    insertions e = Some ins -> eliminated e = Some elim -> bv_wf ins -> bv_wf elim ->
    kids (bits ins) e -> length (bits elim) = length orig -> zeros (bits ins) = zeros (bits elim) ->
    length l = length (bits ins) ->
    (forall (i : nat) x w, childScalarValues e !! Z.of_nat i = Some x -> l !! i = Some w ->
       exists t, x = Some t /\ isComposite t = false /\ Compare t w = Eq) ->
    (forall (i : nat) x w, childCompositeValues e !! Z.of_nat i = Some x -> l !! i = Some w ->
       x <> None /\ isComposite w = true) ->
    (forall (i : nat) c w, childCompositeValues e !! Z.of_nat i = Some (Some c) -> l !! i = Some w -> reps c w) ->
    (forall (i : nat) w, bits ins !! i = Some false -> l !! i = Some w ->
       exists v, survivors (bits elim) orig !! zeros (take i (bits ins)) = Some v /\ Compare v w = Eq) ->
    reps e (Array l).

(** The premises of the last three rules. *)
Record object_node (e : EditTree) (kvs o : list (value * value)) : Prop := {
  on_value : et_value e = Some (Object kvs);
  on_fits : fits (Object kvs);
  on_fits' : fits (Object o);
  on_table : table_wf (childKeys e);
  on_slots : slots e;
  on_deleted : forall h k, childKeys e !! h = Some k ->
    childScalarValues e !! h = Some None \/ childCompositeValues e !! h = Some None -> obj_get k o = None;
  on_scalar : forall h k t, childKeys e !! h = Some k -> childScalarValues e !! h = Some (Some t) ->
    isComposite t = false /\ oeq (Some t) (obj_get k o);
  on_composite : forall h k c, childKeys e !! h = Some k -> childCompositeValues e !! h = Some (Some c) ->
    exists w, obj_get k o = Some w /\ isComposite w = true /\ reps c w;
  on_rest : forall q, untouched e q -> oeq (obj_get q o) (obj_get q kvs);
}.

Lemma reps_object_iff e o : reps e (Object o) <-> exists kvs, object_node e kvs o.
Proof.
  split.
  - inversion 1 as [? v ? Ev N C|? kvs ? Ev F Fo T S D Sc Cc R U| |]; subst.
    + by rewrite (isComposite_eq _ _ C) in N.
    + exists kvs. split; try done. intros h k c Ek Ec. destruct (Cc h k c Ek Ec) as (w & Ew & Nw). exists w. eauto.
  - intros [kvs [Ev F Fo T S D Sc Cc U]]. apply (reps_object e kvs o); try done.
    + intros h k c Ek Ec. destruct (Cc h k c Ek Ec) as (w & Ew & Nw & _). eauto.
    + intros h k c w Ek Ec Ew. destruct (Cc h k c Ek Ec) as (w' & Ew' & _ & R). congruence.
Qed.

Record set_node (e : EditTree) (l m : list value) (f : Z -> value) : Prop := {
  sn_value : et_value e = Some (SetV l);
  sn_fits : fits (SetV l);
  sn_fits' : fits (SetV m);
  sn_table : table_wf (childKeys e);
  sn_slots : slots e;
  sn_scalar : forall h k x, childKeys e !! h = Some k -> childScalarValues e !! h = Some x ->
    isComposite k = false /\ match x with Some t => Compare t k = Eq | None => True end;
  sn_key : forall h k x, childKeys e !! h = Some k -> childCompositeValues e !! h = Some x -> isComposite k = true;
  sn_one : forall h h', is_Some (childCompositeValues e !! h) -> is_Some (childCompositeValues e !! h') -> h = h';
  sn_composite : forall h c, childCompositeValues e !! h = Some (Some c) -> isComposite (f h) = true /\ reps c (f h);
  sn_mem : forall q, set_mem q m = true <->
    (exists h t, childScalarValues e !! h = Some (Some t) /\ Compare q t = Eq) \/
    (exists h c, childCompositeValues e !! h = Some (Some c) /\ Compare q (f h) = Eq) \/
    (set_mem q l = true /\ untouched e q);
}.

Lemma reps_set_iff e m : reps e (SetV m) <-> exists l f, set_node e l m f.
Proof.
  split.
  - inversion 1 as [? v ? Ev N C| |? l ? f Ev F Fm T S Sc Ck C1 Cf R M|]; subst.
    + by rewrite (isComposite_eq _ _ C) in N.
    + exists l, f. split; try done. intros h c E. split; eauto.
  - intros (l & f & [Ev F Fm T S Sc Ck C1 Cf M]). apply (reps_set e l m f); try done; intros h c E; by apply (Cf h c E).
Qed.

Record array_node (e : EditTree) (orig : list value) (ins elim : BitVector) (l : list value) : Prop := {
  an_value : et_value e = Some (Array orig);
  an_fits : fits (Array orig);
  an_fits' : fits (Array l);
  an_ins : insertions e = Some ins;
  an_elim : eliminated e = Some elim;
  an_ins_wf : bv_wf ins;
  an_elim_wf : bv_wf elim;
  an_kids : kids (bits ins) e;
  an_orig : length (bits elim) = length orig;
  an_zeros : zeros (bits ins) = zeros (bits elim);
  an_length : length l = length (bits ins);
  an_scalar : forall (i : nat) x w, childScalarValues e !! Z.of_nat i = Some x -> l !! i = Some w ->
    exists t, x = Some t /\ isComposite t = false /\ Compare t w = Eq;
  an_composite : forall (i : nat) x w, childCompositeValues e !! Z.of_nat i = Some x -> l !! i = Some w ->
    exists c, x = Some c /\ isComposite w = true /\ reps c w;
  an_rest : forall (i : nat) w, bits ins !! i = Some false -> l !! i = Some w ->
    exists v, survivors (bits elim) orig !! zeros (take i (bits ins)) = Some v /\ Compare v w = Eq;
}.

Lemma reps_array_iff e l : reps e (Array l) <-> exists orig ins elim, array_node e orig ins elim l.
Proof.
  split.
  - inversion 1 as [? v ? Ev N C| | |? orig ins elim ? Ev F Fl Ei Ee Wi We K Le Z0 Li Sc Cc R O]; subst.
    + by rewrite (isComposite_eq _ _ C) in N.
    + exists orig, ins, elim. split; try done. intros i [c|] w Ec Ew; destruct (Cc i _ w Ec Ew) as [? Nw]; [|done]. exists c. eauto.
  - intros (orig & ins & elim & [Ev F Fl Ei Ee Wi We K Le Z0 Li Sc Cc O]). apply (reps_array e orig ins elim l); try done.
    + intros i x w Ec Ew. by destruct (Cc i x w Ec Ew) as (c & -> & Nw & _).
    + intros i c w Ec Ew. by destruct (Cc i _ w Ec Ew) as (c' & [= <-] & _ & R).
Qed.

Lemma reps_fits e t : reps e t -> fits t.
Proof. destruct 1; try done. apply fits_leaf. by rewrite <- (isComposite_eq v t). Qed.

Lemma reps_value e t : reps e t -> exists v, et_value e = Some v /\ sortOrder v = sortOrder t.
Proof.
  destruct 1 as [e v t E N C| | |]; try (eexists; split; [eassumption|done]).
  exists v. split; [done|]. by apply Equal_sortOrder, Equal_true.
Qed.
End Reps.

(** ** Render *)

(** [range] visits every entry once. *)
Class MapOrderOk (MO : MapOrder) : Prop := range_map_elem : forall A (m : gmap Z A) h x, (h, x) ∈ range_map m <-> m !! h = Some x.
#[export] Instance sorted_order_ok : MapOrderOk sorted_order.
Proof. intros A m h x. apply elem_of_map_to_list. Qed.

Section Render.
Context `{X : XXHash, MO : MapOrder, MOK : !MapOrderOk MO}.

Lemma collect_children_ok {A} (keys : gmap Z value) (term : A -> option (option value)) l :
  (forall h x, (h, x) ∈ l -> is_Some (keys !! h) /\ is_Some (term x)) ->
  exists out, collect keys term l = Some out /\
  forall k t, (k, t) ∈ out <-> exists h x, (h, x) ∈ l /\ keys !! h = Some k /\ term x = Some t.
Proof.
  induction l as [|[h x] l IH]; intros H; simpl.
  - exists []. split; [done|]. intros k t. split; [intros []%not_elem_of_nil|]. by intros (h & x & []%not_elem_of_nil & _).
  - destruct (H h x) as [[k Ek] [t Et]]; [left|]. rewrite Ek, Et. simpl.
    destruct IH as (out & -> & Ho); [intros; apply H; by right|]. exists ((k, t) :: out). split; [done|].
    intros k' t'. rewrite elem_of_cons, Ho. split.
    + intros [[= -> ->]|(h' & x' & Hl & E)]; [exists h, x; split; [left|done]|exists h', x'; split; [by right|done]].
    + intros (h' & x' & [[= -> ->]|Hl]%elem_of_cons & E1 & E2); [left; congruence|right; by exists h', x'].
Qed.

(** The rendered composites of a node. *)
Definition render_kids (e : EditTree) : gmap Z (option (option value)) :=
  (fun c => match c with
            | None => None
            | Some c => Some (match Render c with Some t => t | None => None end)
            end) <$> childCompositeValues e.

(** The term of the child in a slot, or [None] for a deletion. *)
Definition slot_term (e : EditTree) (h : Z) : option (option value) :=
  match childScalarValues e !! h with
  | Some t => Some t
  | None => match childCompositeValues e !! h with
            | Some None => Some None
            | Some (Some c) => match Render c with Some (Some t) => Some (Some t) | _ => None end
            | None => None
            end
  end.

Lemma children_ok e : slots e ->
  (forall h c, childCompositeValues e !! h = Some (Some c) -> exists t, Render c = Some (Some t)) ->
  exists cs, children (childKeys e) (childScalarValues e) (render_kids e) = Some cs /\
  forall k t, (k, t) ∈ cs <-> exists h, childKeys e !! h = Some k /\ slot_term e h = Some t.
Proof.
  intros S R. unfold children.
  destruct (collect_children_ok (childKeys e) (fun t => Some t) (range_map (childScalarValues e))) as (s & -> & Hs).
  { intros h x E%range_map_elem. split; [|done]. specialize (S h). destruct (childKeys e !! h); [done|]. destruct S; congruence. }
  set (term := fun t : option (option value) => match t with None => Some None | Some None => None | Some t => Some t end).
  destruct (collect_children_ok (childKeys e) term (range_map (render_kids e))) as (c & -> & Hc).
  { intros h x E%range_map_elem. unfold render_kids in E. rewrite lookup_fmap in E. apply fmap_Some in E as (oc & E & ->). split.
    - specialize (S h). destruct (childKeys e !! h); [done|]. destruct S; congruence.
    - destruct oc as [c'|]; [|done]. destruct (R h c' E) as [t ->]. done. }
  simpl. eexists. split; [done|]. intros k t. rewrite elem_of_app, Hs, Hc. unfold slot_term. split.
  - intros [(h & x & E%range_map_elem & Ek & [= ->])|(h & x & E%range_map_elem & Ek & Et)].
    + exists h. by rewrite E.
    + exists h. split; [done|]. unfold render_kids in E. rewrite lookup_fmap in E. apply fmap_Some in E as (oc & E & ->).
      specialize (S h). rewrite Ek in S. destruct S as [[_ S]|[-> _]]; [congruence|]. rewrite E.
      destruct oc as [c'|]; [|exact Et]. destruct (R h c' E) as [u Eu]. rewrite Eu in *. exact Et.
  - intros (h & Ek & Et). destruct (childScalarValues e !! h) as [x|] eqn:Es.
    + left. exists h, x. split_ands; [by apply range_map_elem|done|done].
    + right. destruct (childCompositeValues e !! h) as [oc|] eqn:Ec; [|discriminate Et]. eexists h, _. split_ands;
        [apply range_map_elem; unfold render_kids; by rewrite lookup_fmap, Ec|done|].
      destruct oc as [c'|]; [|exact Et]. destruct (R h c' Ec) as [u Eu]. rewrite Eu in *. exact Et.
Qed.

Lemma live_elem cs k t : (k, t) ∈ live cs <-> (k, Some t) ∈ cs.
Proof.
  unfold live. rewrite list_elem_of_omap. split.
  - intros ([k' [t'|]] & H & E); simpl in E; [by injection E as <- <-|discriminate E].
  - intros H. by exists (k, Some t).
Qed.

Lemma skipped_mem cs q : set_mem q (skipped cs) = true <-> exists k t, (k, t) ∈ cs /\ Compare q k = Eq.
Proof.
  unfold skipped. rewrite set_mem_set_of, existsb_exists. split.
  - intros (k & H & E%Equal_true). apply list_elem_of_In, list_elem_of_fmap in H as ([k' t] & -> & H). by exists k', t.
  - intros (k & t & H & E). exists k. split; [|by apply Equal_true]. apply list_elem_of_In, list_elem_of_fmap. by exists (k, t).
Qed.

Lemma Render_unfold e : Render e =
  match et_value e with
  | None => Some None
  | Some (Object kvs) =>
      if (size (childKeys e) =? 0)%nat then Some (Some (Object kvs))
      else
        cs ← children (childKeys e) (childScalarValues e) (render_kids e);
        Some (Some (ObjectTerm (live cs ++ List.filter (fun kv => negb (set_mem kv.1 (skipped cs))) kvs)))
  | Some (SetV l) =>
      if (size (childKeys e) =? 0)%nat then Some (Some (SetV l))
      else
        cs ← children (childKeys e) (childScalarValues e) (render_kids e);
        Some (Some (SetTerm (map snd (live cs) ++ List.filter (fun k => negb (set_mem k (skipped cs))) l)))
  | Some (Array elems) =>
      ins ← insertions e; elim ← eliminated e;
      out ← render_array (Z.to_nat (Length ins)) ins elim elems (childScalarValues e) (render_kids e) 0 0;
      Some (Some (Array out))
  | Some v => Some (Some v)
  end.
Proof. destruct e as [[[]|] ? ? ? ? ?]; reflexivity. Qed.

Lemma size_0 {A} (m : gmap Z A) : (size m =? 0)%nat = true -> m = ∅.
Proof. intros H%Nat.eqb_eq. by apply map_size_empty_inv. Qed.

(** Every slot shows what the object has under its key. *)
Definition shows (e : EditTree) (get : value -> option value) : Prop := forall h k, childKeys e !! h = Some k ->
  exists t, slot_term e h = Some t /\ oeq t (get k) /\ forall x, t = Some x -> fits x.

Definition shows_all (e : EditTree) : Prop := forall h k, childKeys e !! h = Some k -> is_Some (slot_term e h).

Lemma shows_shows_all e get : shows e get -> shows_all e.
Proof. intros H h k Ek. destruct (H h k Ek) as (t & -> & _). done. Qed.

Lemma all_kids e : slots e -> shows_all e ->
  forall h c, childCompositeValues e !! h = Some (Some c) -> exists t, Render c = Some (Some t).
Proof.
  intros S H h c E. specialize (S h). destruct (childKeys e !! h) as [k|] eqn:Ek; [|destruct S; congruence].
  destruct (H h k Ek) as (t & Et). unfold slot_term in Et. destruct S as [[_ S]|[S _]]; [congruence|]. rewrite S, E in Et.
  destruct (Render c) as [[x|]|]; [by exists x|discriminate Et..].
Qed.

Lemma touched_dec e q : (exists h k, childKeys e !! h = Some k /\ Compare q k = Eq) \/ untouched e q.
Proof.
  destruct (existsb (fun hk => Equal q hk.2) (map_to_list (childKeys e))) eqn:B.
  - left. apply existsb_exists in B as ([h k] & Hh & C%Equal_true). exists h, k. split; [|done].
    by apply elem_of_map_to_list, list_elem_of_In.
  - right. intros h k Ek C. apply not_true_iff_false in B. destruct B. apply existsb_exists. exists (h, k).
    split; [by apply list_elem_of_In, elem_of_map_to_list|by apply Equal_true].
Qed.

Section Rendered.
Context (e : EditTree) (cs : list (value * option value))
  (Hcs : forall k t, (k, t) ∈ cs <-> exists h, childKeys e !! h = Some k /\ slot_term e h = Some t).

Lemma skipped_untouched q : shows_all e -> set_mem q (skipped cs) = false <-> untouched e q.
Proof.
  intros A. rewrite <- not_true_iff_false, skipped_mem. split.
  - intros N h k Ek C. apply N. destruct (A h k Ek) as [t Et]. exists k, t. split; [|done]. apply Hcs. by exists h.
  - intros U (k & t & (h & Ek & _)%Hcs & C). by apply (U h k).
Qed.

(** A key of the table finds the term in its slot, other keys what they found. *)
Lemma rendered_under kvs q h k t : table_wf (childKeys e) -> childKeys e !! h = Some k -> Compare q k = Eq ->
  slot_term e h = Some t ->
  obj_get q (obj_of (live cs ++ List.filter (fun kv => negb (set_mem kv.1 (skipped cs))) kvs)) = t.
Proof.
  intros T Ek C Et. assert (C' := cmp_eq_sym Compare _ _ C). apply obj_of_unique.
  - intros [k' t'] [Hl|Hl]%elem_of_app Cq; simpl in *.
    + apply live_elem, Hcs in Hl as (h' & Ek' & Et'). assert (h = h') as ->; [|congruence].
      eapply (tw_distinct _ T); [exact Ek|exact Ek'|]. by apply (cmp_eq_trans Compare _ q).
    + apply list_elem_of_In, filter_In in Hl as [_ Hn%negb_true_iff]. simpl in Hn. apply not_true_iff_false in Hn. destruct Hn.
      apply skipped_mem. exists k, t. split; [apply Hcs; by exists h|].
      apply (cmp_eq_trans Compare _ q); [by apply (cmp_eq_sym Compare)|done].
  - destruct t as [t|]; [|done]. intros _. exists (k, t). split; [|done]. apply elem_of_app. left. apply live_elem, Hcs. by exists h.
Qed.

Lemma rendered_elsewhere kvs q : kv_sorted kvs -> shows_all e -> untouched e q ->
  obj_get q (obj_of (live cs ++ List.filter (fun kv => negb (set_mem kv.1 (skipped cs))) kvs)) = obj_get q kvs.
Proof.
  intros Sk A Hq. pose proof (proj2 (skipped_untouched q A) Hq) as Hs. apply obj_of_unique.
  - intros [k' t'] [Hl|Hl]%elem_of_app C; simpl in *.
    + apply live_elem, Hcs in Hl as (h' & Ek' & _). by destruct (Hq h' k').
    + apply list_elem_of_In, filter_In in Hl as [Hl%list_elem_of_In _]. rewrite (obj_get_congr q k' kvs C).
      by apply (obj_get_elem kvs (k', t')); [apply ssorted_distinct|].
  - destruct (obj_get q kvs) as [v|] eqn:G; [|done]. intros _. apply obj_get_Some in G as (kv & Hkv & C & _). exists kv. split; [|done].
    apply elem_of_app. right. apply list_elem_of_In, filter_In. split; [by apply list_elem_of_In|].
    by rewrite <- (set_mem_congr q kv.1), Hs.
Qed.
End Rendered.

Lemma Render_object e kvs o : et_value e = Some (Object kvs) -> fits (Object kvs) -> fits (Object o) ->
  table_wf (childKeys e) -> slots e -> shows e (fun k => obj_get k o) ->
  (forall q, untouched e q -> oeq (obj_get q o) (obj_get q kvs)) ->
  exists t, Render e = Some (Some t) /\ fits t /\ Compare t (Object o) = Eq.
Proof.
  intros Ev F Fo T S H U. rewrite Render_unfold, Ev. pose proof (fits_object_inv _ F) as [Sk _]. pose proof (fits_object_inv _ Fo) as [So _].
  destruct (size (childKeys e) =? 0)%nat eqn:Z.
  { apply size_0 in Z. exists (Object kvs). split_ands; [done..|]. apply (cmp_eq_sym Compare). apply object_ext; [done..|]. intros q. apply U.
    intros h k E. rewrite Z in E. by rewrite lookup_empty in E. }
  pose proof (shows_shows_all e _ H) as A.
  destruct (children_ok e S (all_kids e S A)) as (cs & -> & Hcs). cbn [mbind option_bind]. eexists. split; [done|]. unfold ObjectTerm. split.
  - apply fits_object_get; [apply obj_of_sorted|]. intros q v G. destruct (touched_dec e q) as [(h & k & Ek & C)|Hq].
    + destruct (H h k Ek) as (t & Et & _ & Ft). rewrite (rendered_under e cs Hcs kvs q h k t T Ek C Et) in G. by apply Ft.
    + rewrite (rendered_elsewhere e cs Hcs) in G by done. by apply (fits_get kvs q).
  - apply object_ext; [apply obj_of_sorted|done|]. intros q. destruct (touched_dec e q) as [(h & k & Ek & C)|Hq].
    + destruct (H h k Ek) as (t & Et & Ot & _). rewrite (rendered_under e cs Hcs kvs q h k t T Ek C Et), (obj_get_congr q k o C). done.
    + rewrite (rendered_elsewhere e cs Hcs) by done. specialize (U q Hq).
      destruct (obj_get q o), (obj_get q kvs); try done. by apply (cmp_eq_sym Compare).
Qed.

Lemma Render_set e l m : et_value e = Some (SetV l) -> fits (SetV l) -> fits (SetV m) -> slots e -> shows_all e ->
  (forall h t, slot_term e h = Some (Some t) -> fits t) ->
  (forall q, set_mem q m = true <-> (exists h t, slot_term e h = Some (Some t) /\ Compare q t = Eq) \/ (set_mem q l = true /\ untouched e q)) ->
  exists t, Render e = Some (Some t) /\ fits t /\ Compare t (SetV m) = Eq.
Proof.
  intros Ev F Fm S A Ft M. rewrite Render_unfold, Ev. pose proof (fits_set_inv _ F) as [Sl Fl]. pose proof (fits_set_inv _ Fm) as [Sm _].
  assert (Slot : forall h t, slot_term e h = Some t -> is_Some (childKeys e !! h)).
  { intros h t Et. specialize (S h). destruct (childKeys e !! h); [done|]. destruct S as [S1 S2]. unfold slot_term in Et. by rewrite S1, S2 in Et. }
  destruct (size (childKeys e) =? 0)%nat eqn:Z.
  { apply size_0 in Z. exists (SetV l). split_ands; [done..|]. apply set_ext; [done..|]. intros q. apply eq_true_iff_eq. rewrite M. split.
    - intros Hq. right. split; [done|]. intros h k E. rewrite Z in E. by rewrite lookup_empty in E.
    - intros [(h & t & Et & _)|[Hq _]]; [|done]. destruct (Slot h _ Et) as [k E]. rewrite Z in E. by rewrite lookup_empty in E. }
  destruct (children_ok e S (all_kids e S A)) as (cs & -> & Hcs). cbn [mbind option_bind]. eexists. split; [done|]. unfold SetTerm.
  assert (Mem : forall t, t ∈ map snd (live cs) <-> exists h, slot_term e h = Some (Some t)).
  { intros t. rewrite list_elem_of_fmap. split.
    - intros ([k t'] & -> & Hl). apply live_elem, Hcs in Hl as (h & _ & Et). by exists h.
    - intros [h Et]. destruct (Slot h _ Et) as [k Ek]. exists (k, t). split; [done|]. apply live_elem, Hcs. by exists h. }
  split.
  - apply set_of_fits, Forall_app. split; apply Forall_forall; intros t Ht.
    + apply Mem in Ht as [h Et]. by apply (Ft h).
    + apply list_elem_of_In, filter_In in Ht as [Ht%list_elem_of_In _]. rewrite Forall_forall in Fl. by apply Fl.
  - apply set_ext; [apply set_of_sorted|done|]. intros q. apply eq_true_iff_eq.
    rewrite M, set_mem_set_of, existsb_exists. setoid_rewrite <- list_elem_of_In. setoid_rewrite elem_of_app. split.
    + intros (t & [[h Et]%Mem|Ht] & C%Equal_true); [left; by exists h, t|right].
      apply list_elem_of_In, filter_In in Ht as [Ht%list_elem_of_In Hn%negb_true_iff].
      split; [apply set_mem_elem; by exists t|]. apply (skipped_untouched e cs Hcs q A). by rewrite (set_mem_congr q t).
    + intros [(h & t & Et & C)|[(t & Ht & C)%set_mem_elem U]]; exists t; (split; [|by apply Equal_true]); [left; apply Mem; by exists h|right].
      apply list_elem_of_In, filter_In. split; [by apply list_elem_of_In|]. apply (skipped_untouched e cs Hcs q A) in U.
      by rewrite <- (set_mem_congr q t), U.
Qed.

Definition kid_term (scalars : gmap Z (option value)) (composites : gmap Z (option (option value))) (i : Z) : option value :=
  match scalars !! i with
  | Some t => t
  | None => match composites !! i with Some (Some t) => t | _ => None end
  end.

Section RenderArray.
Context (ins elim : BitVector) (orig l : list value) (scalars : gmap Z (option value)) (composites : gmap Z (option (option value))).
Context (Wi : bv_wf ins) (We : bv_wf elim) (Le : length (bits elim) = length orig) (Z0 : zeros (bits ins) = zeros (bits elim))
  (Li : length l = length (bits ins)) (Fo : Forall fits orig)
  (K : forall (i : nat) w, bits ins !! i = Some true -> l !! i = Some w ->
         exists t, kid_term scalars composites (Z.of_nat i) = Some t /\ fits t /\ Compare t w = Eq)
  (O : forall (i : nat) w, bits ins !! i = Some false -> l !! i = Some w ->
         exists v, survivors (bits elim) orig !! zeros (take i (bits ins)) = Some v /\ Compare v w = Eq).

Lemma render_array_ok n : forall i eIdx : nat, (i + n = length l)%nat -> (eIdx <= length (bits elim))%nat ->
  zeros (take eIdx (bits elim)) = zeros (take i (bits ins)) -> exists out,
  render_array n ins elim orig scalars composites (Z.of_nat i) (Z.of_nat eIdx) = Some out /\
  Forall fits out /\ Forall2 (fun x y => Compare x y = Eq) out (drop i l).
Proof.
  induction n as [|n IH]; intros i eIdx Hi He Hz.
  - exists []. rewrite drop_ge by lia. done.
  - destruct (drop_lookup l i ltac:(lia)) as (w & Ew & ->). destruct (drop_lookup (bits ins) i ltac:(lia)) as (b & Eb & _).
    cbn [render_array]. rewrite (Element_lookup ins i b Wi Eb). cbn [mbind option_bind]. rewrite b2z_0.
    pose proof (zeros_take_S _ _ _ Eb) as Zs. replace (Z.of_nat i + 1)%Z with (Z.of_nat (S i)) by lia. destruct b; simpl negb.
    + destruct (K i w Eb Ew) as (t & Et & Ft & Ct). unfold kid_term in Et. cbn iota. rewrite Et. cbn [mbind option_bind].
      destruct (IH (S i) eIdx) as (out & -> & Fs & F2); [lia|done|rewrite Zs; done|]. exists (t :: out). split; [done|]. by split; constructor.
    + destruct (O i w Eb Ew) as (v & Ev & Cv). rewrite (Length_bits elim We).
      replace (Z.to_nat (Z.of_nat (length (bits elim)) - Z.of_nat eIdx)) with (length (bits elim) - eIdx)%nat by lia.
      destruct (next_zero_ok elim (length (bits elim) - eIdx) We eIdx) as (j & Ej & Zj & ->); [lia| |].
      { rewrite Hz, <- Z0. by apply zeros_take_lt. }
      cbn [mbind option_bind]. rewrite Nat2Z.id. rewrite <- Hz, <- Zj, survivors_lookup in Ev by done. rewrite Ev. cbn [mbind option_bind].
      replace (Z.of_nat j + 1)%Z with (Z.of_nat (S j)) by lia. pose proof (lookup_lt_Some _ _ _ Ej).
      destruct (IH (S i) (S j)) as (out & -> & Fs & F2); [lia|lia|rewrite Zs, (zeros_take_zero _ _ Ej), Zj, Hz; done|].
      exists (v :: out). split; [done|]. split; constructor; try done. by apply (Forall_lookup_1 _ _ _ _ Fo Ev).
Qed.
End RenderArray.

(** Trees whose composite children render to what they stand for. *)
Definition renders (c : EditTree) (t : value) : Prop := exists t', Render c = Some (Some t') /\ fits t' /\ Compare t' t = Eq.

Lemma set_slot_term e (f : Z -> value) : slots e ->
  (forall h c, childCompositeValues e !! h = Some (Some c) -> renders c (f h)) ->
  forall h t, slot_term e h = Some (Some t) <-> childScalarValues e !! h = Some (Some t) \/
    exists c, childCompositeValues e !! h = Some (Some c) /\ Render c = Some (Some t).
Proof.
  intros S IH h t. assert (Kid : forall c, childCompositeValues e !! h = Some (Some c) -> childScalarValues e !! h = None).
  { intros c E. specialize (S h). destruct (childKeys e !! h); [destruct S as [[_ S]|[S _]]|destruct S]; congruence. }
  unfold slot_term. destruct (childScalarValues e !! h) as [x|] eqn:Es.
  - split; [intros [= ->]; by left|]. intros [[= ->]|(c & Ec & _)]; [done|]. by specialize (Kid c Ec).
  - destruct (childCompositeValues e !! h) as [[c|]|] eqn:Ec.
    + destruct (IH h c Ec) as (t' & Er & _). rewrite Er. split; [intros [= ->]; right; by exists c|].
      intros [?|(c' & [= <-] & Er')]; congruence.
    + split; [discriminate|]. intros [?|(c' & ? & _)]; congruence.
    + split; [discriminate|]. intros [?|(c' & ? & _)]; congruence.
Qed.

Lemma renders_set e l m (f : Z -> value) :
  et_value e = Some (SetV l) -> fits (SetV l) -> fits (SetV m) -> slots e ->
  (forall h k x, childKeys e !! h = Some k -> childScalarValues e !! h = Some x ->
     isComposite k = false /\ match x with Some t => Compare t k = Eq | None => True end) ->
  (forall h c, childCompositeValues e !! h = Some (Some c) -> renders c (f h)) ->
  (forall q, set_mem q m = true <->
     (exists h t, childScalarValues e !! h = Some (Some t) /\ Compare q t = Eq) \/
     (exists h c, childCompositeValues e !! h = Some (Some c) /\ Compare q (f h) = Eq) \/
     (set_mem q l = true /\ untouched e q)) -> renders e (SetV m).
Proof.
  intros Ev F Fm S Sc IH M. pose proof (set_slot_term e f S IH) as Sl. apply (Render_set e l m); try done.
  - intros h k Ek. unfold slot_term. specialize (S h). rewrite Ek in S. destruct S as [[[x ->] _]|[-> [[c|] Ec]]]; [done| |by rewrite Ec].
    rewrite Ec. by destruct (IH h c Ec) as (t' & -> & _).
  - intros h t [Es|(c & Ec & Er)]%Sl; [|destruct (IH h c Ec) as (t' & E & Ft & _); congruence].
    pose proof (S h) as Sh. destruct (childKeys e !! h) as [k|] eqn:Ek; [|destruct Sh; congruence].
    destruct (Sc h k _ Ek Es) as [Nk Ct]. apply fits_leaf. by rewrite (isComposite_eq t k).
  - intros q. rewrite M. setoid_rewrite Sl. split.
    + intros [(h & t & Es & C)|[(h & c & Ec & C)|Hq]]; [left; exists h, t; auto| |by right]. left.
      destruct (IH h c Ec) as (t' & Er & _ & Ct). exists h, t'. split; [right; by exists c|].
      apply (cmp_eq_trans Compare _ (f h)); [done|by apply (cmp_eq_sym Compare)].
    + intros [(h & t & [Es|(c & Ec & Er)] & C)|Hq]; [left; by exists h, t|right; left|by right; right].
      destruct (IH h c Ec) as (t' & Er' & _ & Ct). exists h, c. split; [done|]. rewrite Er in Er'. injection Er' as <-.
      by apply (cmp_eq_trans Compare _ t).
Qed.

(** [Render] gives the term that a tree stands for. *)
Lemma Render_ok e t : reps e t -> renders e t.
Proof.
  induction 1 as [e v t Ev N C|e kvs o Ev F Fo T S D Sc Cc R IH U|e l m f Ev F Fm T S Sc Ck C1 Cf R IH M|
    e orig ins elim l Ev F Fl Ei Ee Wi We K Le Z0 Li Sc Cc R IH O]; unfold renders.
  - rewrite Render_unfold, Ev. exists v. split_ands; [by destruct v|by apply fits_leaf|done].
  - apply (Render_object e kvs o); try done. intros h k Ek. pose proof (S h) as Sh. rewrite Ek in Sh. unfold slot_term.
    destruct Sh as [[[x Ex] En]|[En [x Ex]]]; rewrite ?En, Ex.
    + exists x. split; [done|]. destruct x as [t|].
      * destruct (Sc h k t Ek Ex) as [Nt Ot]. split; [done|]. intros ? [= <-]. by apply fits_leaf.
      * rewrite (D h k Ek (or_introl Ex)). by split.
    + destruct x as [c|].
      * destruct (Cc h k c Ek Ex) as (w & Ew & _). destruct (IH h k c w Ek Ex Ew) as (t' & -> & Ft & Ct).
        exists (Some t'). split; [done|]. rewrite Ew. split; [done|]. by intros ? [= <-].
      * exists None. split; [done|]. rewrite (D h k Ek (or_intror Ex)). by split.
  - by apply (renders_set e l m f).
  - rewrite Render_unfold, Ev, Ei, Ee. cbn [mbind option_bind]. rewrite (Length_bits ins Wi), Nat2Z.id, <- Li.
    destruct (render_array_ok ins elim orig l (childScalarValues e) (render_kids e) Wi We Le Z0 Li) with (n := length l) (i := 0%nat) (eIdx := 0%nat)
      as (out & Er & Fs & F2); try done; try lia.
    + by apply fits_array_inv in F as [_ F].
    + intros i w Eb Ew. specialize (K (Z.of_nat i)). rewrite bit_of_nat, Eb in K. unfold kid_term.
      destruct K as [[[x Ex] _]|[En [x Ex]]].
      * rewrite Ex. destruct (Sc i x w Ex Ew) as (t & -> & Nt & Ct). exists t. split_ands; [done|by apply fits_leaf|done].
      * rewrite En. unfold render_kids. rewrite lookup_fmap, Ex. destruct x as [c|]; [|by destruct (Cc i None w Ex Ew)]. simpl.
        destruct (IH i c w Ex Ew) as (t' & -> & Ft & Ct). by exists t'.
    + change 0%Z with (Z.of_nat 0). rewrite Er. cbn [mbind option_bind]. eexists. split; [done|]. rewrite drop_0 in F2. apply fits_array_inv in Fl as [Ll _]. split.
      * apply fits_array; [|done]. by rewrite (Forall2_length _ _ _ F2).
      * apply slice_compare_eq_iff. exact F2.
Qed.
End Render.
