(* ===== verification/EditOps.v ===== *)
(** The edits of edit trees (definitions in EditTree.v) on the terms that trees
    stand for (EditTreeSound.v): [Insert], [Delete] and [Unfold] do to the term
    what [put], [cut] and [at_path] do. *)
From Stdlib Require Import ZArith Lia String.
From stdpp Require Import base gmap list strings.
From S2P Require Import Prelude SortedKeys Value Containers SetTable ObjectTable RefOps Path Builtins Document BitVector EditTree EditArray EditTreeSound.

(** ** New trees *)
Lemma zero_vector_ok n : (Z.of_nat n < 2 ^ 32)%Z -> bv_wf (zero_vector n) /\ bits (zero_vector n) = replicate n false.
Proof.
  intros Hn. set (d := replicate (Z.to_nat (Z.quot (Z.of_nat n - 1) 8 + 1)) 0%Z).
  assert (Q : (Z.shiftr (Z.of_nat n - 1) 3 <= Z.quot (Z.of_nat n - 1) 8)%Z /\ (0 <= Z.quot (Z.of_nat n - 1) 8)%Z).
  { rewrite Z.shiftr_div_pow2 by lia. change (2 ^ 3)%Z with 8%Z. destruct n as [|n]; [done|].
    rewrite Z.quot_div_nonneg by lia. split; [lia|]. apply Z.div_pos; lia. }
  split.
  - unfold bv_wf, zero_vector, bytesLength. cbn [bv_data bv_length NewBitVector]. fold d. split_ands; [lia|lia| |].
    + unfold d. rewrite length_replicate. lia.
    + unfold d. apply Forall_replicate. unfold is_byte. lia.
  - apply bits_eq.
    + cbn [bv_length zero_vector NewBitVector]. rewrite length_replicate. lia.
    + intros i b [-> _]%lookup_replicate. unfold zero_vector. cbn [bv_data NewBitVector]. fold d. unfold bit.
      replace (nth (i / 8) d 0%Z) with 0%Z; [apply Z.bits_0|]. symmetry. unfold d.
      destruct (lt_dec (i / 8) (Z.to_nat (Z.quot (Z.of_nat n - 1) 8 + 1))).
      * by apply nth_lookup_Some, lookup_replicate_2.
      * apply nth_overflow. rewrite length_replicate. lia.
Qed.

Section Ops.
Context `{X : XXHash, MO : MapOrder, MOK : !MapOrderOk MO}.

Lemma array_eq_lookup (v w : list value) i y : Compare (Array v) (Array w) = Eq -> w !! i = Some y ->
  exists x, v !! i = Some x /\ Compare x y = Eq.
Proof.
  simpl. intros F%slice_compare_eq_iff E. destruct (Forall2_lookup_r _ _ _ _ _ F E) as (x & Ex & C). by exists x.
Qed.

(** A tree without edits stands for every term equal to its own. *)
Lemma reps_unedited e v w : et_value e = Some v -> childKeys e = ∅ -> childScalarValues e = ∅ -> childCompositeValues e = ∅ ->
  (forall l, v <> Array l) -> fits v -> fits w -> Compare v w = Eq -> reps e w.
Proof.
  intros Ev Ek Es Ec NA Fv Fw C. destruct (isComposite v) eqn:N; [|by apply (reps_leaf _ v)].
  pose proof (Equal_sortOrder v w (proj2 (Equal_true v w) C)) as O.
  assert (T0 : table_wf (childKeys e)) by (rewrite Ek; apply table_wf_empty).
  assert (S0 : slots e) by (intros h; by rewrite Ek, Es, Ec, !lookup_empty).
  assert (K0 : forall h k, childKeys e !! h <> Some k) by (intros h k; by rewrite Ek, lookup_empty).
  assert (C0 : forall h c, childCompositeValues e !! h <> Some c) by (intros h c; by rewrite Ec, lookup_empty).
  assert (Sc0 : forall h c, childScalarValues e !! h <> Some c) by (intros h c; by rewrite Es, lookup_empty).
  destruct v; try discriminate N; destruct w; try discriminate O.
  - by destruct (NA elems).
  - apply (reps_object e kvs kvs0); try done; try (intros; exfalso; eapply K0; eassumption).
    intros q _. apply (object_ext_inv kvs0 kvs). by apply (cmp_eq_sym Compare).
  - apply (reps_set e keys keys0 (fun _ => Null)); try done; try (intros; exfalso; first [eapply K0; eassumption|eapply C0; eassumption]).
    + intros h h' [c E]. by destruct (C0 h c).
    + intros q. rewrite (set_ext_inv _ _ C q). split; [|by intros [(h & x & E & _)|[(h & c & E & _)|[H _]]];
        [destruct (Sc0 _ _ E)|destruct (C0 _ _ E)|]].
      intros H. right. right. split; [done|]. intros h k E. by destruct (K0 h k).
Qed.

Lemma NewEditTree_reps v w : fits v -> fits w -> Compare v w = Eq -> reps (NewEditTree v) w.
Proof.
  intros Fv Fw C. destruct v as [| | | | | |l| | | | | | ]; try (by eapply reps_unedited).
  pose proof (Equal_sortOrder _ w (proj2 (Equal_true _ w) C)) as O. destruct w as [| | | | | |l'| | | | | | ]; try discriminate O.
  pose proof (fits_array_inv _ Fv) as [Ll _]. destruct (zero_vector_ok (length l) Ll) as [W B].
  assert (L : length l' = length l).
  { simpl in C. apply slice_compare_eq_iff in C. symmetry. by eapply Forall2_length. }
  apply (reps_array _ l (zero_vector (length l)) (zero_vector (length l)) l'); try done; simpl; try setoid_rewrite lookup_empty; try done.
  - intros j. simpl. rewrite B, !lookup_empty. unfold bit_of. destruct (0 <=? j)%Z; [|done].
    destruct (replicate (length l) false !! Z.to_nat j) eqn:E; [|done]. by apply lookup_replicate in E as [-> _].
  - by rewrite B, length_replicate.
  - by rewrite B, length_replicate.
  - intros i w Ei Ew. destruct (array_eq_lookup l l' i w C Ew) as (x & Ex & Cx). exists x. split; [|done].
    rewrite B, survivors_all, take_replicate, zeros_replicate. pose proof (lookup_lt_Some _ _ _ Ex). by rewrite Nat.min_l by lia.
Qed.

(** ** Objects *)

(** [e'] is [e] with the key [key] and a new child in slot [h]. *)
Definition at_slot_only (e e' : EditTree) (h : Z) (key : value) : Prop :=
  et_value e' = et_value e /\ childKeys e' = <[h := key]> (childKeys e) /\
  forall h', h' <> h -> childScalarValues e' !! h' = childScalarValues e !! h' /\
    childCompositeValues e' !! h' = childCompositeValues e !! h'.

(** What the child in slot [h] says about the value under its key. *)
Definition child_is (e : EditTree) (h : Z) (o : option value) : Prop :=
  match childScalarValues e !! h, childCompositeValues e !! h with
  | Some None, None | None, Some None => o = None
  | Some (Some t), None => isComposite t = false /\ oeq (Some t) o
  | None, Some (Some c) => exists w, o = Some w /\ isComposite w = true /\ reps c w
  | _, _ => False
  end.

Lemma untouched_insert e e' h key q : at_slot_only e e' h key -> (forall k, childKeys e !! h = Some k -> Compare key k = Eq) ->
  untouched e' q <-> untouched e q /\ Compare q key <> Eq.
Proof.
  intros (_ & Ek & _) Hk. unfold untouched. rewrite Ek. split.
  - intros U. assert (Nq : Compare q key <> Eq) by (apply (U h); by rewrite lookup_insert_eq). split; [|done].
    intros h' k E. destruct (decide (h' = h)) as [->|N].
    + intros C. apply Nq. apply (cmp_eq_trans Compare _ k); [done|]. by apply (cmp_eq_sym Compare), Hk.
    + apply (U h'). by rewrite lookup_insert_ne.
  - intros [U Nq] h' k [[_ <-]|[_ E]]%lookup_insert_Some; [done|by apply (U h')].
Qed.

Lemma slots_insert e e' h key : at_slot_only e e' h key -> slots e ->
  (is_Some (childScalarValues e' !! h) /\ childCompositeValues e' !! h = None \/
   childScalarValues e' !! h = None /\ is_Some (childCompositeValues e' !! h)) -> slots e'.
Proof.
  intros (_ & Ek & Eo) S H h'. rewrite Ek. destruct (decide (h' = h)) as [->|N]; [by rewrite lookup_insert_eq|].
  rewrite lookup_insert_ne by done. destruct (Eo h' N) as [-> ->]. apply S.
Qed.

Lemma object_update e e' h key o o' : reps e (Object o) -> at_slot_only e e' h key -> table_wf (childKeys e') ->
  (forall k, childKeys e !! h = Some k -> Compare key k = Eq) -> fits (Object o') ->
  (forall q, Compare q key <> Eq -> obj_get q o' = obj_get q o) -> child_is e' h (obj_get key o') -> reps e' (Object o').
Proof.
  intros [kvs [Ev F Fo T S D Sc Cc U]]%reps_object_iff A T' Hk Fo' G Ch. pose proof A as (Ev' & Ek' & Eo).
  assert (Old : forall h' k, childKeys e' !! h' = Some k -> h' <> h -> childKeys e !! h' = Some k /\ obj_get k o' = obj_get k o).
  { intros h' k E N. assert (E' := E). rewrite Ek', lookup_insert_ne in E' by done. split; [done|]. apply G. intros C. apply N.
    eapply (tw_distinct _ T'); [exact E| |exact C]. by rewrite Ek', lookup_insert_eq. }
  apply reps_object_iff. exists kvs. unfold child_is in Ch. split; try done.
  - congruence.
  - apply (slots_insert e e' h key); [done..|]. destruct (childScalarValues e' !! h) as [[]|], (childCompositeValues e' !! h) as [[]|]; naive_solver.
  - intros h' k E Hd. destruct (decide (h' = h)) as [->|N].
    + rewrite Ek', lookup_insert_eq in E. injection E as <-.
      destruct Hd as [Hd|Hd]; rewrite Hd in Ch; [destruct (childCompositeValues e' !! h)|destruct (childScalarValues e' !! h) as [[]|]]; done.
    + destruct (Old h' k E N) as [E1 E2], (Eo h' N) as [H1 H2]. rewrite E2. apply (D h' k E1). by rewrite <- H1, <- H2.
  - intros h' k t E Et. destruct (decide (h' = h)) as [->|N].
    + rewrite Ek', lookup_insert_eq in E. injection E as <-. rewrite Et in Ch. by destruct (childCompositeValues e' !! h).
    + destruct (Old h' k E N) as [E1 E2], (Eo h' N) as [H1 H2]. rewrite E2. apply (Sc h' k t E1). by rewrite <- H1.
  - intros h' k c E Ec. destruct (decide (h' = h)) as [->|N].
    + rewrite Ek', lookup_insert_eq in E. injection E as <-. rewrite Ec in Ch. by destruct (childScalarValues e' !! h) as [[]|].
    + destruct (Old h' k E N) as [E1 E2], (Eo h' N) as [H1 H2]. rewrite E2. apply (Cc h' k c E1). by rewrite <- H2.
  - intros q [Uq Nq]%(untouched_insert e e' h key q A Hk). rewrite G by done. by apply U.
Qed.

Definition roomy (e : EditTree) : bool := (Z.of_nat (size (childKeys e)) <? two64)%Z.

Lemma fits_insert key v o : fits v -> fits (Object o) -> fits (Object (obj_insert key v o)).
Proof.
  intros Fv Fo. pose proof (fits_object_inv _ Fo) as [So _]. apply fits_object_get; [by apply obj_insert_sorted|].
  intros q w. rewrite obj_get_insert by done. destruct (Equal q key); [by intros [= <-]|by apply fits_get].
Qed.

Lemma ssorted_filter {B} (key : B -> value) (p : B -> bool) l : ssorted Compare key l -> ssorted Compare key (List.filter p l).
Proof.
  induction 1 as [|x l Hl IH Hx]; simpl; [constructor|]. destruct (p x); [|done]. constructor; [done|].
  rewrite Forall_forall in *. intros y Hy. apply list_elem_of_In, filter_In in Hy as [Hy _].
  apply Hx. by apply list_elem_of_In.
Qed.

Lemma obj_get_remove q key o : kv_sorted o -> obj_get q (obj_remove key o) = if Equal q key then None else obj_get q o.
Proof.
  intros So. unfold obj_remove, obj_get. rewrite sfind_filter by (by apply ssorted_distinct).
  destruct (sfind Compare fst q o) as [kv|] eqn:E; simpl; [|by destruct (Equal q key)].
  apply sfind_Some_1 in E as [_ C]. rewrite (Equal_sym key kv.1), <- (Equal_cong q kv.1 key) by (by apply Equal_true).
  by destruct (Equal q key).
Qed.

Lemma obj_remove_sorted key o : kv_sorted o -> kv_sorted (obj_remove key o).
Proof. apply ssorted_filter. Qed.

Lemma fits_remove key o : fits (Object o) -> fits (Object (obj_remove key o)).
Proof.
  intros Fo. pose proof (fits_object_inv _ Fo) as [So _]. apply fits_object_get; [by apply obj_remove_sorted|].
  intros q w. rewrite obj_get_remove by done. destruct (Equal q key); [done|by apply fits_get].
Qed.

(** The child for [v] is in slot [h]. *)
Definition holds (e : EditTree) (h : Z) (v : value) : Prop :=
  if isComposite v then childScalarValues e !! h = None /\ childCompositeValues e !! h = Some (Some (NewEditTree v))
  else childScalarValues e !! h = Some (Some v) /\ childCompositeValues e !! h = None.

Lemma unsafeInsert_ok e key v : table_wf (childKeys e) -> slots e -> key_ok key = true -> roomy e = true ->
  exists e' h, unsafeInsertObject e key v = Some (e', h) /\ at_slot_only e e' h key /\ holds e' h v /\
  table_wf (childKeys e') /\ (forall k, childKeys e !! h = Some k -> Compare key k = Eq).
Proof.
  intros T S Hk R%Z.ltb_lt. destruct (getKeyHash_ok e key T Hk R) as (h & b & E & T' & Hb). unfold unsafeInsertObject. rewrite E.
  cbn [mbind option_bind]. eexists _, h. split; [done|].
  assert (K : forall k, childKeys e !! h = Some k -> Compare key k = Eq).
  { intros k Ek. destruct b; [destruct Hb as (k' & Ek' & C)|destruct Hb]; congruence. }
  assert (Absent : b = false -> childScalarValues e !! h = None /\ childCompositeValues e !! h = None).
  { intros ->. destruct Hb as [Eh _]. specialize (S h). by rewrite Eh in S. }
  split_ands; [| |by unfold set_child; destruct (isComposite v), b|done].
  - unfold at_slot_only, set_child. destruct (isComposite v), b; simpl; split_ands; try done; intros h' N;
      rewrite ?lookup_insert_ne, ?lookup_delete_ne by done; done.
  - unfold holds, set_child. destruct (isComposite v), b; simpl; rewrite ?lookup_insert_eq, ?lookup_delete_eq; try done;
      by destruct (Absent eq_refl).
Qed.

Lemma holds_child_is e h v o : fits v -> oeq (Some v) o -> (forall w, o = Some w -> fits w) -> holds e h v -> child_is e h o.
Proof.
  intros Fv Ov Fo. unfold holds, child_is. destruct (isComposite v) eqn:N; intros [-> ->]; [|done].
  destruct o as [w|]; [|done]. exists w. simpl in Ov. split_ands; [done|by rewrite <- (isComposite_eq v w)|].
  apply NewEditTree_reps; auto.
Qed.

Lemma Insert_object e o key v : reps e (Object o) -> key_ok key = true -> roomy e = true -> fits v ->
  exists e' h, Insert e key v = Some (e', Ok h) /\ reps e' (Object (obj_insert key v o)) /\
    holds e' h v /\ childKeys e' !! h = Some key.
Proof.
  intros Re Hk R Fv. pose proof Re as [kvs N]%reps_object_iff. unfold Insert. rewrite (on_value _ _ _ N).
  destruct (unsafeInsert_ok e key v (on_table _ _ _ N) (on_slots _ _ _ N) Hk R) as (e' & h & -> & A & Hv & T' & K).
  cbn [mbind option_bind]. exists e', h. split; [done|].
  pose proof (fits_object_inv _ (on_fits' _ _ _ N)) as [So _]. pose proof (fits_insert key v o Fv (on_fits' _ _ _ N)) as Fi. split_ands; [|done|].
  - apply (object_update e e' h key o); try done.
    + intros q Nq. rewrite obj_get_insert by done. destruct (Equal q key) eqn:E; [by apply Equal_true in E|done].
    + apply (holds_child_is e' h v); try done; rewrite obj_get_insert, Equal_refl by done; [apply (cmp_refl Compare)|by intros w [= <-]].
  - destruct A as (_ & -> & _). apply lookup_insert_eq.
Qed.

(** A tree in which slot [h] records the deletion of [key]. *)
Definition deletes (e e' : EditTree) (h : Z) (key : value) : Prop :=
  at_slot_only e e' h key /\
  (childScalarValues e' !! h = Some None /\ childCompositeValues e' !! h = None \/
   childScalarValues e' !! h = None /\ childCompositeValues e' !! h = Some None).

Lemma deletes_scalar e h key : childCompositeValues e !! h = None -> deletes e (setChildScalarValue (setChildKey e h key) h None) h key.
Proof.
  intros E. split; [unfold at_slot_only; simpl; split_ands; [done..|]; intros h' N; by rewrite lookup_insert_ne|].
  left. simpl. by rewrite lookup_insert_eq.
Qed.
Lemma deletes_composite e h key : childScalarValues e !! h = None -> deletes e (setChildCompositeValue (setChildKey e h key) h None) h key.
Proof.
  intros E. split; [unfold at_slot_only; simpl; split_ands; [done..|]; intros h' N; by rewrite lookup_insert_ne|].
  right. simpl. by rewrite lookup_insert_eq.
Qed.

Lemma fallbackDelete_ok e key v : et_value e = Some v -> table_wf (childKeys e) -> slots e -> key_ok key = true -> roomy e = true ->
  untouched e key ->
  match Find v [key] with
  | None => fallbackDelete e key = Some (e, Err NoSuchChild)
  | Some _ => exists e' h, fallbackDelete e key = Some (e', Ok tt) /\ deletes e e' h key /\ table_wf (childKeys e') /\
      childKeys e !! h = None /\
      (forall x, Find v [key] = Some x -> childCompositeValues e' !! h = if isComposite x then Some None else None)
  end.
Proof.
  intros Ev T S Hk R%Z.ltb_lt U. unfold fallbackDelete. rewrite Ev. cbn [mbind option_bind]. destruct (Find v [key]) as [x|]; [|done].
  destruct (getKeyHash_ok e key T Hk R) as (h & b & -> & T' & Hb). cbn [mbind option_bind].
  assert (b = false) as -> by (destruct b; [destruct Hb as (k & Ek & C); by destruct (U h k)|done]).
  destruct Hb as [Eh _]. specialize (S h). rewrite Eh in S. destruct S as [S1 S2]. eexists _, h. split; [done|].
  destruct (isComposite x) eqn:Nx.
  - split; [by apply deletes_composite|]. split_ands; [done..|]. intros ? [= <-]. rewrite Nx. simpl. by rewrite lookup_insert_eq.
  - split; [by apply deletes_scalar|]. split_ands; [done..|]. intros ? [= <-]. by rewrite Nx.
Qed.

Lemma deletes_object e e' h key o : reps e (Object o) -> deletes e e' h key -> table_wf (childKeys e') ->
  (forall k, childKeys e !! h = Some k -> Compare key k = Eq) -> reps e' (Object (obj_remove key o)).
Proof.
  intros Re [A D] T' K. pose proof Re as [kvs N]%reps_object_iff. pose proof (fits_object_inv _ (on_fits' _ _ _ N)) as [So _].
  apply (object_update e e' h key o); try done.
  - apply fits_remove, (on_fits' _ _ _ N).
  - intros q Nq. rewrite obj_get_remove by done. destruct (Equal q key) eqn:E; [by apply Equal_true in E|done].
  - unfold child_is. rewrite obj_get_remove, Equal_refl by done. by destruct D as [[-> ->]|[-> ->]].
Qed.

Lemma Delete_object e o key : reps e (Object o) -> key_ok key = true -> roomy e = true ->
  match Delete e key with
  | Some (e', Ok _) => is_Some (obj_get key o) /\ reps e' (Object (obj_remove key o))
  | Some (_, Err _) => obj_get key o = None
  | None => False
  end.
Proof.
  intros Re Hk R. pose proof Re as [kvs N]%reps_object_iff. unfold Delete. rewrite (on_value _ _ _ N).
  pose proof (proj1 (Z.ltb_lt _ _) R) as R'.
  destruct (getKeyHash_ok e key (on_table _ _ _ N) Hk R') as (h & b & -> & T' & Hb). cbn [mbind option_bind]. destruct b.
  - destruct Hb as (k & Ek & C). assert (K : forall k', childKeys e !! h = Some k' -> Compare key k' = Eq) by (intros; congruence).
    pose proof (on_slots _ _ _ N h) as S. rewrite Ek in S. rewrite (obj_get_congr key k o C).
    destruct S as [[[x Ex] En]|[En [x Ex]]]; rewrite ?Ex, ?En; destruct x as [y|].
    + split; [|by apply (deletes_object e _ h); [|apply deletes_scalar| |]].
      destruct (on_scalar _ _ _ N h k y Ek Ex) as [_ O]. by destruct (obj_get k o).
    + apply (on_deleted _ _ _ N h k Ek). by left.
    + split; [|by apply (deletes_object e _ h); [|apply deletes_composite| |]].
      destruct (on_composite _ _ _ N h k y Ek Ex) as (w & -> & _). done.
    + apply (on_deleted _ _ _ N h k Ek). by right.
  - destruct Hb as [Eh U]. pose proof (on_rest _ _ _ N key U) as O.
    pose proof (fallbackDelete_ok e key (Object kvs) (on_value _ _ _ N) (on_table _ _ _ N) (on_slots _ _ _ N) Hk R U) as FD.
    cbn [Find] in FD. destruct (obj_get key kvs) as [v|] eqn:G, (obj_get key o) as [w|]; try done.
    + destruct FD as (e' & h' & -> & D & T'' & Eh' & _). split; [done|]. apply (deletes_object e e' h'); try done. congruence.
    + by rewrite FD.
Qed.

(** ** Sets *)
Lemma set_mem_remove q key l : set_mem q (set_remove key l) = negb (Equal q key) && set_mem q l.
Proof.
  apply eq_true_iff_eq. rewrite andb_true_iff, negb_true_iff, !set_mem_true. unfold set_remove. split.
  - intros (y & Hy & C). apply list_elem_of_In, filter_In in Hy as [Hy Hn%negb_true_iff]. split.
    + rewrite (Equal_cong q y key) by (by apply Equal_true). by rewrite Equal_sym.
    + exists y. split; [by apply list_elem_of_In|done].
  - intros [N (y & Hy & C)]. exists y. split; [|done]. apply list_elem_of_In, filter_In. split; [by apply list_elem_of_In|].
    rewrite Equal_sym, <- (Equal_cong q y key), N by (by apply Equal_true). done.
Qed.

Lemma fits_set_remove key l : fits (SetV l) -> fits (SetV (set_remove key l)).
Proof.
  intros [S F]%fits_set_inv. apply fits_set; [by apply ssorted_filter|]. rewrite Forall_forall in *. intros y Hy.
  apply list_elem_of_In, filter_In in Hy as [Hy _]. by apply F, list_elem_of_In.
Qed.

Lemma fits_set_insert x l : fits x -> fits (SetV l) -> fits (SetV (set_insert x l)).
Proof.
  intros Fx [S F]%fits_set_inv. apply fits_set; [by apply set_insert_ssorted|]. rewrite Forall_forall in *. intros y Hy.
  destruct (set_elems [x] l y Hy) as [H| ->%list_elem_of_singleton]; [by apply F|done].
Qed.

(** The members once the slot of a scalar key holds [x]. *)
Lemma set_scalar_members e e' h key x l m f q : set_node e l m f -> at_slot_only e e' h key -> table_wf (childKeys e') ->
  (forall k, childKeys e !! h = Some k -> Compare key k = Eq) -> isComposite key = false -> slots e' ->
  childScalarValues e' !! h = Some x -> match x with Some t => Compare t key = Eq | None => True end ->
  (if Equal q key then found x else set_mem q m) = true <->
  (exists h t, childScalarValues e' !! h = Some (Some t) /\ Compare q t = Eq) \/
  (exists h c, childCompositeValues e !! h = Some (Some c) /\ Compare q (f h) = Eq) \/ (set_mem q l = true /\ untouched e' q).
Proof.
  intros [Ev F Fm T S Sc Ck C1 Cf M] A T' K Nk S' Ex Cx. pose proof A as (Ev' & Ek' & Eo).
  assert (Keyh : childKeys e' !! h = Some key) by (by rewrite Ek', lookup_insert_eq).
  pose proof (untouched_insert e e' h key q A K) as U. destruct (Equal q key) eqn:Eqk; [apply Equal_true in Eqk|].
  - split.
    + destruct x as [t|]; [|done]. intros _. left. exists h, t. split; [done|]. apply (cmp_eq_trans Compare _ key); [done|by apply (cmp_eq_sym Compare)].
    + intros [(h' & t & Et & C)|[(h' & c & E & C)|[_ [_ Hq]%U]]]; [|exfalso|done].
      * destruct (decide (h' = h)) as [->|N]; [by assert (x = Some t) as -> by congruence|exfalso]. specialize (S' h').
        destruct (childKeys e' !! h') as [k|] eqn:Ek2; [|destruct S'; congruence]. rewrite (proj1 (Eo h' N)) in Et.
        pose proof Ek2 as Ek3. rewrite Ek', lookup_insert_ne in Ek3 by done. destruct (Sc h' k _ Ek3 Et) as [_ Ct].
        apply N. eapply (tw_distinct _ T'); [exact Ek2|exact Keyh|].
        apply (cmp_eq_trans Compare _ t); [by apply (cmp_eq_sym Compare)|]. apply (cmp_eq_trans Compare _ q); [by apply (cmp_eq_sym Compare)|done].
      * destruct (Cf h' c E) as [Nf _]. rewrite <- (isComposite_eq _ _ C), (isComposite_eq _ _ Eqk) in Nf. congruence.
  - assert (Nq : Compare q key <> Eq) by (intros C%Equal_true; congruence). rewrite M. split.
    + intros [(h' & t & Et & C)|[?|[H1 H2]]]; [left|by right; left|right; right; split; [done|]; by apply U].
      destruct (decide (h' = h)) as [->|N]; [exfalso|exists h', t; by rewrite (proj1 (Eo h' N))].
      pose proof (S h) as Sh. destruct (childKeys e !! h) as [k|] eqn:Ek; [|destruct Sh; congruence].
      destruct (Sc h k _ Ek Et) as [_ Ct]. apply Nq. apply (cmp_eq_trans Compare _ t); [done|].
      apply (cmp_eq_trans Compare _ k); [done|]. apply (cmp_eq_sym Compare), K. done.
    + intros [(h' & t & Et & C)|[?|[H1 [H2 _]%U]]]; [left|by right; left|by right; right].
      destruct (decide (h' = h)) as [->|N]; [exfalso|exists h', t; by rewrite <- (proj1 (Eo h' N))].
      assert (x = Some t) as -> by congruence. apply Nq. by apply (cmp_eq_trans Compare _ t).
Qed.

(** A scalar member added or removed. *)
Lemma set_scalar_update e e' h key x m m' : reps e (SetV m) -> at_slot_only e e' h key -> table_wf (childKeys e') ->
  (forall k, childKeys e !! h = Some k -> Compare key k = Eq) -> isComposite key = false ->
  childScalarValues e' !! h = Some x -> childCompositeValues e' !! h = None ->
  match x with Some t => Compare t key = Eq | None => True end -> fits (SetV m') ->
  (forall q, set_mem q m' = if Equal q key then found x else set_mem q m) -> reps e' (SetV m').
Proof.
  intros (l & f & Nd)%reps_set_iff A T' K Nk Ex Ec Cx Fm' M'. pose proof Nd as [Ev F Fm T S Sc Ck C1 Cf M]. pose proof A as (Ev' & Ek' & Eo).
  assert (Ech : childCompositeValues e !! h = None).
  { destruct (childCompositeValues e !! h) as [y|] eqn:E; [|done]. pose proof (S h) as Sh.
    destruct (childKeys e !! h) as [k|] eqn:Ek; [|destruct Sh; congruence].
    pose proof (Ck h k y Ek E) as Hc. rewrite <- (isComposite_eq _ _ (K k eq_refl)) in Hc. congruence. }
  assert (Comp : forall h', childCompositeValues e' !! h' = childCompositeValues e !! h').
  { intros h'. destruct (decide (h' = h)) as [->|N]; [congruence|]. by apply Eo. }
  assert (Key : forall h' k, childKeys e' !! h' = Some k -> h' <> h -> childKeys e !! h' = Some k).
  { intros h' k E N. by rewrite Ek', lookup_insert_ne in E. }
  assert (S' : slots e') by (apply (slots_insert e e' h key); [done..|]; left; by rewrite Ex).
  apply reps_set_iff. exists l, f. split; try done.
  - congruence.
  - intros h' k y E Ey. destruct (decide (h' = h)) as [->|N].
    + assert (k = key) as -> by (rewrite Ek', lookup_insert_eq in E; congruence). assert (y = x) as -> by congruence. done.
    + rewrite (proj1 (Eo h' N)) in Ey. by apply (Sc h' k y); [apply Key|].
  - intros h' k y E Ey. destruct (decide (h' = h)) as [->|N]; [congruence|]. rewrite Comp in Ey. by apply (Ck h' k y); [apply Key|].
  - intros h1 h2. rewrite !Comp. apply C1.
  - intros h' c. rewrite Comp. apply Cf.
  - intros q. rewrite M'. setoid_rewrite Comp. by apply (set_scalar_members e e' h key x l m f q).
Qed.

(** [collapse] leaves a set without edits. *)
Definition unedited (e : EditTree) (v : value) : Prop :=
  et_value e = Some v /\ childKeys e = ∅ /\ childScalarValues e = ∅ /\ childCompositeValues e = ∅.

Lemma collapse_ok e m : reps e (SetV m) -> exists e' l, collapse e = Some e' /\ unedited e' (SetV l) /\ fits (SetV l) /\
  (forall q, set_mem q l = set_mem q m) /\ collapse e' = Some e'.
Proof.
  intros R. destruct (Render_ok e _ R) as (t & E & Ft & C). unfold collapse. rewrite E. cbn [mbind option_bind].
  pose proof (Equal_sortOrder t _ (proj2 (Equal_true t _) C)) as O. destruct t as [| | | | | | | |l| | | | ]; try discriminate O.
  eexists _, l. split; [done|]. unfold unedited. split_ands; try done. by apply set_ext_inv.
Qed.

Lemma unedited_room e v : unedited e v -> table_wf (childKeys e) /\ slots e /\ roomy e = true.
Proof.
  intros (_ & Ek & Es & Ec). unfold roomy. rewrite Ek, map_size_empty. split_ands; [apply table_wf_empty| |done].
  intros h. by rewrite Ek, Es, Ec, !lookup_empty.
Qed.

(** The first edit of a composite member: it now stands for [w], or is deleted. *)
Lemma set_composite_update e e' l h key x w m m' : unedited e (SetV l) -> fits (SetV l) -> (forall q, set_mem q l = set_mem q m) ->
  at_slot_only e e' h key -> table_wf (childKeys e') -> isComposite key = true ->
  childScalarValues e' !! h = None -> childCompositeValues e' !! h = Some x ->
  (forall c, x = Some c -> reps c w /\ isComposite w = true) -> fits (SetV m') ->
  (forall q, set_mem q m' = (found x && Equal q w) || (negb (Equal q key) && set_mem q m)) -> reps e' (SetV m').
Proof.
  intros (Ev & Ek & Es & Ec) Fl M A T' Nk Es' Ec' Hw Fm' M'. pose proof A as (Ev' & Ek' & Eo). rewrite Ek in Ek'.
  assert (Sc : forall h', childScalarValues e' !! h' = None).
  { intros h'. destruct (decide (h' = h)) as [->|N]; [done|]. by rewrite (proj1 (Eo h' N)), Es, lookup_empty. }
  assert (Co : forall h' y, childCompositeValues e' !! h' = Some y -> h' = h /\ y = x).
  { intros h' y E. destruct (decide (h' = h)) as [->|N]; [split; congruence|]. by rewrite (proj2 (Eo h' N)), Ec, lookup_empty in E. }
  assert (Ke : forall h' k, childKeys e' !! h' = Some k -> h' = h /\ k = key).
  { intros h' k. rewrite Ek'. by intros [[<- <-]|[_ E]]%lookup_insert_Some; [|rewrite lookup_empty in E]. }
  apply reps_set_iff. exists l, (fun _ => w). split; try done.
  - congruence.
  - apply (slots_insert e e' h key); [done|by intros h'; rewrite Ek, Es, Ec, !lookup_empty|]. right. by rewrite Ec'.
  - intros h' k y _ E. by rewrite Sc in E.
  - intros h' k y E _. by apply Ke in E as [_ ->].
  - intros h1 h2 [y1 E1] [y2 E2]. apply Co in E1 as [-> _]. by apply Co in E2 as [-> _].
  - intros h' c E. apply Co in E as [_ E]. destruct (Hw c (eq_sym E)). done.
  - intros q. rewrite M', orb_true_iff, !andb_true_iff, negb_true_iff, <- M. split.
    + intros [[Hx Hq%Equal_true]|[Hn Hq]].
      * right. left. destruct x as [c|]; [|done]. by exists h, c.
      * right. right. split; [done|]. intros h' k E C. apply Ke in E as [_ ->]. apply Equal_true in C. congruence.
    + intros [(h' & t & E & _)|[(h' & c & E & C)|[Hq U]]]; [by rewrite Sc in E| |right].
      * left. apply Co in E as [_ <-]. split; [done|by apply Equal_true].
      * split; [|done]. apply not_true_iff_false. intros C%Equal_true. apply (U h key); [|done]. by rewrite Ek', lookup_insert_eq.
Qed.

(** Membership of a scalar, by its slot or in the original set. *)
Lemma set_slot_mem e l m f h k x : set_node e l m f -> childKeys e !! h = Some k -> childScalarValues e !! h = Some x ->
  set_mem k m = found x.
Proof.
  intros N Ek Ex. destruct (sn_scalar _ _ _ _ N h k x Ek Ex) as [Nk Ct]. destruct x as [t|]; simpl.
  - apply (sn_mem _ _ _ _ N). left. exists h, t. split; [done|by apply (cmp_eq_sym Compare)].
  - apply not_true_iff_false. intros [(h' & t & Et & C)|[(h' & c & Ec & C)|[_ U]]]%(sn_mem _ _ _ _ N).
    + pose proof (sn_slots _ _ _ _ N h') as S. destruct (childKeys e !! h') as [k'|] eqn:Ek'; [|destruct S; congruence].
      destruct (sn_scalar _ _ _ _ N h' k' _ Ek' Et) as [_ Ct']. assert (h = h') as ->; [|congruence].
      eapply (tw_distinct _ (sn_table _ _ _ _ N)); [exact Ek|exact Ek'|]. by apply (cmp_eq_trans Compare _ t).
    + destruct (sn_composite _ _ _ _ N h' c Ec) as [Nf _]. rewrite <- (isComposite_eq _ _ C) in Nf. congruence.
    + apply (U h k Ek). apply (cmp_refl Compare).
Qed.

Lemma set_untouched_mem e l m f q : set_node e l m f -> untouched e q -> isComposite q = false -> set_mem q m = set_mem q l.
Proof.
  intros N U Nq. apply eq_true_iff_eq. rewrite (sn_mem _ _ _ _ N). split; [|by intros; right; right].
  intros [(h' & t & Et & C)|[(h' & c & Ec & C)|[? _]]]; [exfalso..|done].
  - pose proof (sn_slots _ _ _ _ N h') as S. destruct (childKeys e !! h') as [k'|] eqn:Ek'; [|destruct S; congruence].
    destruct (sn_scalar _ _ _ _ N h' k' _ Ek' Et) as [_ Ct']. apply (U h' k' Ek'). by apply (cmp_eq_trans Compare _ t).
  - destruct (sn_composite _ _ _ _ N h' c Ec) as [Nf _]. rewrite <- (isComposite_eq _ _ C) in Nf. congruence.
Qed.

(** The slot of a scalar key of a set. *)
Lemma set_scalar_slot e l m f h k key : set_node e l m f -> childKeys e !! h = Some k -> Compare key k = Eq -> isComposite key = false ->
  exists x, childScalarValues e !! h = Some x /\ childCompositeValues e !! h = None /\ set_mem key m = found x /\
    match x with Some t => Compare key t = Eq | None => True end.
Proof.
  intros N Ek C Nk. pose proof (sn_slots _ _ _ _ N h) as S. rewrite Ek in S. destruct S as [[[x Ex] En]|[_ [x Ex]]].
  - exists x. rewrite (set_mem_congr key k m C). split_ands; [done..|by apply (set_slot_mem e l m f h)|].
    destruct (sn_scalar _ _ _ _ N h k x Ek Ex) as [_ Ct]. destruct x; [|done]. apply (cmp_eq_trans Compare _ k); [done|by apply (cmp_eq_sym Compare)].
  - pose proof (sn_key _ _ _ _ N h k x Ek Ex) as Hc. rewrite <- (isComposite_eq _ _ C) in Hc. congruence.
Qed.

Lemma Insert_set e m key v : reps e (SetV m) -> key_ok key = true -> roomy e = true -> fits v -> Equal key v = true ->
  exists e' h, Insert e key v = Some (e', Ok h) /\ reps e' (SetV (set_insert v m)) /\ holds e' h v.
Proof.
  intros Re Hk R Fv Ekv. pose proof Re as (l & f & N)%reps_set_iff. unfold Insert. rewrite (sn_value _ _ _ _ N), Ekv. simpl negb.
  pose proof (proj1 (Equal_true _ _) Ekv) as C. pose proof (isComposite_eq _ _ C) as Nv. pose proof (fits_set_inv _ (sn_fits' _ _ _ _ N)) as [Sm _].
  assert (Eq' : forall q, Equal q v = Equal q key) by (intros q; rewrite (Equal_sym q v), (Equal_sym q key); symmetry; by apply Equal_cong).
  pose proof (fits_set_insert v m Fv (sn_fits' _ _ _ _ N)) as Fi. unfold unsafeInsertSet. destruct (isComposite key) eqn:Nk.
  - destruct (collapse_ok e m Re) as (e0 & l0 & -> & U & Fl & M & _). cbn [mbind option_bind].
    destruct (unedited_room _ _ U) as (T0 & S0 & R0). destruct (unsafeInsert_ok e0 key v T0 S0 Hk R0) as (e' & h & -> & A & Hv & T' & K).
    cbn [mbind option_bind]. exists e', h. split_ands; [done| |done]. unfold holds in Hv. rewrite <- Nv in Hv. destruct Hv as [Es Ec].
    apply (set_composite_update e0 e' l0 h key (Some (NewEditTree v)) v m); try done.
    + intros c [= <-]. split; [|done]. apply NewEditTree_reps; [done..|apply (cmp_refl Compare)].
    + intros q. rewrite set_mem_insert, Eq' by done. simpl. by destruct (Equal q key).
  - cbn [mbind option_bind]. destruct (unsafeInsert_ok e key v (sn_table _ _ _ _ N) (sn_slots _ _ _ _ N) Hk R) as (e' & h & -> & A & Hv & T' & K).
    cbn [mbind option_bind]. exists e', h. split_ands; [done| |done]. unfold holds in Hv. rewrite <- Nv in Hv. destruct Hv as [Es Ec].
    apply (set_scalar_update e e' h key (Some v) m); try done.
    + by apply (cmp_eq_sym Compare).
    + intros q. rewrite set_mem_insert, Eq' by done. by destruct (Equal q key).
Qed.

Lemma Delete_set e m key : reps e (SetV m) -> key_ok key = true -> roomy e = true ->
  match Delete e key with
  | Some (e', Ok _) => set_mem key m = true /\ reps e' (SetV (set_remove key m))
  | Some (_, Err _) => set_mem key m = false
  | None => False
  end.
Proof.
  intros Re Hk R. pose proof Re as (l & f & N)%reps_set_iff. unfold Delete. rewrite (sn_value _ _ _ _ N).
  pose proof (fits_set_remove key m (sn_fits' _ _ _ _ N)) as Fr. destruct (isComposite key) eqn:Nk.
  - destruct (collapse_ok e m Re) as (e0 & l0 & -> & U & Fl & M & _). cbn [mbind option_bind]. pose proof U as (Ev0 & Ek0 & _).
    destruct (unedited_room _ _ U) as (T0 & S0 & R0).
    assert (U0 : untouched e0 key) by (intros h k E; by rewrite Ek0, lookup_empty in E).
    pose proof (fallbackDelete_ok e0 key (SetV l0) Ev0 T0 S0 Hk R0 U0) as FD. cbn [Find] in FD. rewrite M in FD.
    destruct (set_mem key m); [|by rewrite FD]. destruct FD as (e' & h & -> & [A D] & T' & _ & Hx). split; [done|].
    specialize (Hx key eq_refl). rewrite Nk in Hx. destruct D as [[_ D]|[Es Ec]]; [congruence|].
    apply (set_composite_update e0 e' l0 h key None key m); try done. intros q. by rewrite set_mem_remove.
  - pose proof (proj1 (Z.ltb_lt _ _) R) as R'.
    destruct (getKeyHash_ok e key (sn_table _ _ _ _ N) Hk R') as (h & b & -> & T' & Hb). cbn [mbind option_bind]. destruct b.
    + destruct Hb as (k & Ek & C). destruct (set_scalar_slot e l m f h k key N Ek C Nk) as (x & Ex & En & -> & Ct).
      rewrite Ex. destruct x as [t|]; [|done]. rewrite (proj2 (Equal_true key t) Ct). split; [done|].
      apply (set_scalar_update e _ h key None m); try done.
      * by apply deletes_scalar.
      * intros k' Ek'. congruence.
      * simpl. by rewrite lookup_insert_eq.
      * intros q. rewrite set_mem_remove. by destruct (Equal q key).
    + destruct Hb as [Eh U]. rewrite (set_untouched_mem e l m f key N U Nk).
      pose proof (fallbackDelete_ok e key (SetV l) (sn_value _ _ _ _ N) (sn_table _ _ _ _ N) (sn_slots _ _ _ _ N) Hk R U) as FD.
      cbn [Find] in FD. destruct (set_mem key l); [|by rewrite FD]. destruct FD as (e' & h' & -> & [A D] & T'' & Eh' & Hx). split; [done|].
      specialize (Hx key eq_refl). rewrite Nk in Hx. destruct D as [[D _]|[_ D]]; [|congruence].
      apply (set_scalar_update e e' h' key None m); try done; [congruence|].
      intros q. rewrite set_mem_remove. by destruct (Equal q key).
Qed.

(** ** Arrays *)
Lemma set_child_lookup e (h : Z) v j : childScalarValues e !! h = None -> childCompositeValues e !! h = None ->
  childScalarValues (set_child e h v) !! j = (if (j =? h)%Z then if isComposite v then None else Some (Some v) else childScalarValues e !! j) /\
  childCompositeValues (set_child e h v) !! j =
    (if (j =? h)%Z then if isComposite v then Some (Some (NewEditTree v)) else None else childCompositeValues e !! j).
Proof.
  intros Es Ec. unfold set_child. destruct (Z.eqb_spec j h) as [->|N], (isComposite v); simpl;
    rewrite ?lookup_insert_eq, ?lookup_insert_ne by done; done.
Qed.

(** What the node shows at an index. *)
Definition shows_at (e : EditTree) (orig : list value) (ins elim : list bool) (i : nat) (w : value) : Prop :=
  match ins !! i, childScalarValues e !! Z.of_nat i, childCompositeValues e !! Z.of_nat i with
  | Some true, Some (Some t), None => isComposite t = false /\ Compare t w = Eq
  | Some true, None, Some (Some c) => isComposite w = true /\ reps c w
  | Some false, None, None => exists v, survivors elim orig !! zeros (take i ins) = Some v /\ Compare v w = Eq
  | _, _, _ => False
  end.

Lemma shows_at_same e e' orig ins ins' elim elim' (i i' : nat) w : ins' !! i' = ins !! i ->
  childScalarValues e' !! Z.of_nat i' = childScalarValues e !! Z.of_nat i ->
  childCompositeValues e' !! Z.of_nat i' = childCompositeValues e !! Z.of_nat i ->
  (ins !! i = Some false -> survivors elim' orig !! zeros (take i' ins') = survivors elim orig !! zeros (take i ins)) ->
  shows_at e orig ins elim i w -> shows_at e' orig ins' elim' i' w.
Proof. unfold shows_at. intros -> -> -> Hz. destruct (ins !! i) as [[]|]; [done| |done]. by rewrite (Hz eq_refl). Qed.

Lemma holds_shows_at e orig ins elim (i : nat) v w : ins !! i = Some true -> holds e (Z.of_nat i) v -> fits v -> fits w ->
  Compare v w = Eq -> shows_at e orig ins elim i w.
Proof.
  unfold shows_at, holds. intros -> H Fv Fw C. destruct (isComposite v) eqn:N; destruct H as [-> ->]; [|done].
  split; [by rewrite <- (isComposite_eq _ _ C)|by apply NewEditTree_reps].
Qed.

(** Arrays by what they show at every index. *)
Lemma array_node_shows e orig ins elim l i w : array_node e orig ins elim l -> l !! i = Some w -> shows_at e orig (bits ins) (bits elim) i w.
Proof.
  intros [_ _ _ _ _ _ _ K _ _ Li Sc Cc O] Ew. specialize (K (Z.of_nat i)). rewrite bit_of_nat in K. unfold shows_at.
  pose proof (lookup_lt_Some _ _ _ Ew). destruct (drop_lookup (bits ins) i ltac:(lia)) as (b & Eb & _). rewrite Eb in *. destruct b.
  - destruct K as [[[x Ex] En]|[En [x Ex]]]; rewrite Ex, En.
    + by destruct (Sc i x w Ex Ew) as (t & -> & ? & ?).
    + by destruct (Cc i x w Ex Ew) as (c & -> & ? & ?).
  - destruct K as [-> ->]. by apply O.
Qed.

Lemma array_node_intro e orig ins elim l :
  et_value e = Some (Array orig) -> fits (Array orig) -> Forall fits l -> insertions e = Some ins -> eliminated e = Some elim ->
  bv_wf ins -> bv_wf elim -> length (bits elim) = length orig -> zeros (bits ins) = zeros (bits elim) -> length l = length (bits ins) ->
  (forall j, (j < 0 \/ Z.of_nat (length l) <= j)%Z -> childScalarValues e !! j = None /\ childCompositeValues e !! j = None) ->
  (forall i w, l !! i = Some w -> shows_at e orig (bits ins) (bits elim) i w) -> array_node e orig ins elim l.
Proof.
  intros Ev F Fl Ei Ee Wi We Le Z0 Li Out Sh. split; try done.
  - apply fits_array; [|done]. rewrite Li, length_bits. destruct Wi as [Wi _]. lia.
  - intros j. unfold bit_of. destruct (Z.leb_spec 0 j); [|apply Out; lia].
    destruct (decide (Z.to_nat j < length l)%nat) as [Hj|Hj].
    + destruct (lookup_lt_is_Some_2 l (Z.to_nat j) Hj) as [w Ew]. specialize (Sh _ _ Ew). unfold shows_at in Sh. rewrite Z2Nat.id in Sh by done.
      destruct (bits ins !! Z.to_nat j) as [[]|], (childScalarValues e !! j) as [[]|], (childCompositeValues e !! j) as [[]|]; try done; naive_solver.
    + rewrite (lookup_ge_None_2 (bits ins)) by lia. apply Out. lia.
  - intros i x w Ex Ew. specialize (Sh i w Ew). unfold shows_at in Sh. rewrite Ex in Sh.
    destruct (bits ins !! i) as [[]|], x as [t|], (childCompositeValues e !! Z.of_nat i); try done. by exists t.
  - intros i x w Ex Ew. specialize (Sh i w Ew). unfold shows_at in Sh. rewrite Ex in Sh.
    destruct (bits ins !! i) as [[]|], x as [c|], (childScalarValues e !! Z.of_nat i) as [[]|]; try done. by exists c.
  - intros i w Eb Ew. specialize (Sh i w Ew). unfold shows_at in Sh. rewrite Eb in Sh.
    destruct (childScalarValues e !! Z.of_nat i) as [[]|], (childCompositeValues e !! Z.of_nat i) as [[]|]; done.
Qed.

Lemma array_outside e orig ins elim l j : array_node e orig ins elim l -> (j < 0 \/ Z.of_nat (length l) <= j)%Z ->
  childScalarValues e !! j = None /\ childCompositeValues e !! j = None.
Proof.
  intros [_ _ _ _ _ _ _ K _ _ Li _ _ _] [Hj|Hj]; [|apply (kids_beyond (bits ins)); [done|lia]].
  specialize (K j). unfold bit_of in K. by destruct (Z.leb_spec 0 j); [lia|].
Qed.

Lemma insert_array_node e orig ins elim l (idx : nat) v : array_node e orig ins elim l -> (idx <= length l)%nat ->
  no_clash_up e (Z.of_nat idx) -> (Length ins + 1 < 2 ^ 32)%Z -> fits v ->
  exists e' ins', unsafeInsertArray e ins (Z.of_nat idx) v = Some e' /\ array_node e' orig ins' elim (insert_at idx v l) /\
    holds e' (Z.of_nat idx) v.
Proof.
  intros A Hi NC L Fv. pose proof A as [Ev F Fl Ei Ee Wi We K Le Z0 Li _ _ _].
  destruct (unsafeInsertArray_ok e ins idx v Wi K NC L ltac:(lia)) as (e1 & ins' & E & (N1 & N2 & N3 & N4) & W' & B & S1 & S2).
  set (e' := set_child (set_insertions e1 ins') (Z.of_nat idx) v) in *. exists e', ins'. split; [done|].
  assert (H1 := S1 (Z.of_nat idx)). assert (H2 := S2 (Z.of_nat idx)). rewrite Z.ltb_irrefl, Z.eqb_refl in H1, H2.
  pose proof (fun j => set_child_lookup (set_insertions e1 ins') (Z.of_nat idx) v j H1 H2) as Lk. fold e' in Lk.
  cbn [childScalarValues childCompositeValues set_insertions] in Lk. unfold shifted_up in S1, S2. setoid_rewrite S1 in Lk. setoid_rewrite S2 in Lk.
  assert (Hv : holds e' (Z.of_nat idx) v).
  { unfold holds. destruct (Lk (Z.of_nat idx)) as [-> ->]. rewrite Z.eqb_refl. by destruct (isComposite v). }
  split; [|done]. apply array_node_intro; try done.
  - unfold e', set_child. destruct (isComposite v); simpl; congruence.
  - apply fits_array_inv in Fl as [_ Fl]. apply Forall_app. split; [by apply Forall_take|]. constructor; [done|]. by apply Forall_drop.
  - unfold e', set_child. by destruct (isComposite v).
  - unfold e', set_child. destruct (isComposite v); simpl; congruence.
  - by rewrite B, zeros_insert_at.
  - rewrite B, !length_insert_at. lia.
  - intros j Hj. rewrite length_insert_at in Hj. destruct (Lk j) as [-> ->].
    destruct (Z.eqb_spec j (Z.of_nat idx)), (Z.ltb_spec j (Z.of_nat idx)); try lia; apply (array_outside e orig ins elim l); try done; lia.
  - intros i w. rewrite lookup_insert_at by done. destruct (Nat.ltb_spec i idx) as [Hl|Hl]; [|destruct (Nat.eqb_spec i idx) as [->|Ne]].
    + intros Ew. apply (shows_at_same e e' orig (bits ins) _ (bits elim) _ i); [..|by apply (array_node_shows e orig ins elim l)].
      * rewrite B, lookup_insert_at by lia. by destruct (Nat.ltb_spec i idx); [|lia].
      * destruct (Lk (Z.of_nat i)) as [-> _]. by destruct (Z.eqb_spec (Z.of_nat i) (Z.of_nat idx)), (Z.ltb_spec (Z.of_nat i) (Z.of_nat idx)); try lia.
      * destruct (Lk (Z.of_nat i)) as [_ ->]. by destruct (Z.eqb_spec (Z.of_nat i) (Z.of_nat idx)), (Z.ltb_spec (Z.of_nat i) (Z.of_nat idx)); try lia.
      * intros _. rewrite B, take_insert_at by lia. by destruct (Nat.leb_spec i idx); [|lia].
    + intros [= <-]. apply (holds_shows_at e' orig _ _ idx v); try done; [|apply (cmp_refl Compare)].
      rewrite B, lookup_insert_at by lia. rewrite Nat.ltb_irrefl. by rewrite Nat.eqb_refl.
    + intros Ew. apply (shows_at_same e e' orig (bits ins) _ (bits elim) _ (i - 1)); [..|by apply (array_node_shows e orig ins elim l)];
        replace (Z.of_nat (i - 1)) with (Z.of_nat i - 1)%Z by lia.
      * rewrite B, lookup_insert_at by lia. by destruct (Nat.ltb_spec i idx), (Nat.eqb_spec i idx); try lia.
      * destruct (Lk (Z.of_nat i)) as [-> _]. by destruct (Z.eqb_spec (Z.of_nat i) (Z.of_nat idx)), (Z.ltb_spec (Z.of_nat i) (Z.of_nat idx)); try lia.
      * destruct (Lk (Z.of_nat i)) as [_ ->]. by destruct (Z.eqb_spec (Z.of_nat i) (Z.of_nat idx)), (Z.ltb_spec (Z.of_nat i) (Z.of_nat idx)); try lia.
      * intros _. rewrite B, take_insert_at by lia. destruct (Nat.leb_spec i idx); [lia|]. by rewrite zeros_insert_at.
Qed.

(** The elements that survive a deletion, by the index they are shown at. *)
Lemma deleted_survivors (orig : list value) (ins elim elim' : list bool) (idx : nat) (b : bool) : ins !! idx = Some b ->
  length elim = length orig ->
  (if b then elim' = elim else exists j : nat, elim !! j = Some false /\ zeros (take j elim) = zeros (take idx ins) /\ elim' = <[j := true]> elim) ->
  (forall i : nat, (i < idx)%nat -> ins !! i = Some false ->
     survivors elim' orig !! zeros (take i (delete idx ins)) = survivors elim orig !! zeros (take i ins)) /\
  (forall i : nat, (idx <= i)%nat -> ins !! S i = Some false ->
     survivors elim' orig !! zeros (take i (delete idx ins)) = survivors elim orig !! zeros (take (S i) ins)).
Proof.
  intros Eb Le He. split; intros i Hi Ei.
  - rewrite take_delete_at. destruct (Nat.leb_spec i idx); [|lia]. destruct b; [by subst|]. destruct He as (j & Ej & Zj & ->).
    rewrite survivors_eliminate by done. apply list_lookup_delete_lt. rewrite Zj. pose proof (zeros_take_zero ins i Ei).
    pose proof (zeros_take_mono ins (S i) idx Hi). lia.
  - assert (Hd : zeros (take (S i) ins) = ((if b then 0 else 1) + zeros (take i (delete idx ins)))%nat).
    { rewrite take_delete_at. destruct (Nat.leb_spec i idx) as [H|H].
      - replace idx with i in * by lia. by apply zeros_take_S.
      - rewrite (zeros_delete idx b (take (S i) ins)); [done|]. rewrite lookup_take_lt by lia. done. }
    destruct b; simpl in Hd; [subst; by rewrite Hd|]. destruct He as (j & Ej & Zj & ->). rewrite survivors_eliminate by done.
    rewrite Hd. apply list_lookup_delete_ge. rewrite Zj. pose proof (zeros_take_zero ins idx Eb).
    pose proof (zeros_take_mono ins (S idx) (S i) ltac:(lia)). lia.
Qed.

Lemma delete_array_node e orig ins elim l (idx : nat) : array_node e orig ins elim l -> (idx < length l)%nat ->
  no_clash_down e (Z.of_nat idx) ->
  exists e' ins' elim', deleteArray e ins (Z.of_nat idx) = Some e' /\ array_node e' orig ins' elim' (delete idx l) /\
    bits ins' = delete idx (bits ins) /\
    shifted_down (Z.of_nat idx) (childScalarValues e) (childScalarValues e') /\
    shifted_down (Z.of_nat idx) (childCompositeValues e) (childCompositeValues e').
Proof.
  intros A Hi NC. pose proof A as [Ev F Fl Ei Ee Wi We K Le Z0 Li _ _ _].
  destruct (drop_lookup (bits ins) idx ltac:(lia)) as (b & Eb & _).
  destruct (deleteArray_ok e ins elim idx b Wi We Ee K NC Eb Z0) as (e' & ins' & elim' & E & V & _ & I' & El' & Wi' & B & We' & He & S1 & S2).
  exists e', ins', elim'. split_ands; try done.
  assert (He' : if b then bits elim' = bits elim else exists j : nat, bits elim !! j = Some false /\
    zeros (take j (bits elim)) = zeros (take idx (bits ins)) /\ bits elim' = <[j := true]> (bits elim)) by (by destruct b; [subst|]).
  destruct (deleted_survivors orig (bits ins) (bits elim) (bits elim') idx b Eb Le He') as [Below Above].
  assert (Ll : length (delete idx l) = (length l - 1)%nat).
  { rewrite length_delete by (by apply lookup_lt_is_Some_2). done. }
  apply array_node_intro; try done.
  - congruence.
  - apply fits_array_inv in Fl as [_ Fl]. by apply Forall_delete.
  - destruct b; [by subst|]. destruct He as (j & _ & _ & ->). by rewrite length_insert.
  - rewrite B. pose proof (zeros_delete idx b (bits ins) Eb) as Zd. destruct b; simpl in Zd; [subst; lia|].
    destruct He as (j & Ej & _ & ->). pose proof (zeros_eliminate _ _ Ej). lia.
  - rewrite B, Ll, length_delete by (rewrite Eb; done). lia.
  - intros j Hj. rewrite S1, S2. rewrite Ll in Hj. destruct (Z.ltb_spec j (Z.of_nat idx)); apply (array_outside e orig ins elim l); try done; lia.
  - intros i w. rewrite lookup_delete_at. destruct (Nat.ltb_spec i idx) as [Hl|Hl]; intros Ew.
    + apply (shows_at_same e e' orig (bits ins) _ (bits elim) _ i); [..|by apply (array_node_shows e orig ins elim l)].
      * rewrite B. by apply list_lookup_delete_lt.
      * rewrite S1. by destruct (Z.ltb_spec (Z.of_nat i) (Z.of_nat idx)); [|lia].
      * rewrite S2. by destruct (Z.ltb_spec (Z.of_nat i) (Z.of_nat idx)); [|lia].
      * intros E0. rewrite B. by apply Below.
    + apply (shows_at_same e e' orig (bits ins) _ (bits elim) _ (S i)); [..|by apply (array_node_shows e orig ins elim l)];
        replace (Z.of_nat (S i)) with (Z.of_nat i + 1)%Z by lia.
      * rewrite B. by apply list_lookup_delete_ge.
      * rewrite S1. by destruct (Z.ltb_spec (Z.of_nat i) (Z.of_nat idx)); [lia|].
      * rewrite S2. by destruct (Z.ltb_spec (Z.of_nat i) (Z.of_nat idx)); [lia|].
      * intros E0. rewrite B. by apply Above.
Qed.

(** A composite child that now stands for [w']. *)
Lemma update_array_node e orig ins elim l (i : nat) w w' c' : array_node e orig ins elim l -> l !! i = Some w ->
  is_Some (childCompositeValues e !! Z.of_nat i) -> reps c' w' -> isComposite w' = true ->
  array_node (setChildCompositeValue e (Z.of_nat i) (Some c')) orig ins elim (<[i := w']> l).
Proof.
  intros A Ew [x Ex] R N. pose proof A as [Ev F Fl Ei Ee Wi We K Le Z0 Li _ _ _]. pose proof (lookup_lt_Some _ _ _ Ew) as Hi.
  apply array_node_intro; try done.
  - apply fits_array_inv in Fl as [_ Fl]. apply Forall_insert; [done|]. by apply (reps_fits c').
  - by rewrite length_insert.
  - intros j Hj. rewrite length_insert in Hj. cbn [childScalarValues childCompositeValues setChildCompositeValue].
    rewrite lookup_insert_ne by lia. by apply (array_outside e orig ins elim l).
  - intros j v. pose proof (array_node_shows e orig ins elim l i w A Ew) as Sh. destruct (decide (j = i)) as [->|Nj].
    + rewrite list_lookup_insert_eq by done. intros [= <-]. unfold shows_at in *.
      cbn [childScalarValues childCompositeValues setChildCompositeValue]. rewrite lookup_insert_eq. rewrite Ex in Sh.
      by destruct (bits ins !! i) as [[]|], (childScalarValues e !! Z.of_nat i) as [[]|], x as [c|].
    + rewrite list_lookup_insert_ne by done. intros Ev'.
      apply (shows_at_same e _ orig (bits ins) _ (bits elim) _ j); try done; [|by apply (array_node_shows e orig ins elim l)].
      cbn [childCompositeValues setChildCompositeValue]. rewrite lookup_insert_ne by lia. done.
Qed.
End Ops.
