(* ===== verification/EditPaths.v ===== *)
(** Edits at a path (definitions in EditTree.v): [Unfold] reaches the node that the
    path denotes in the term of the tree, and an operation on the node acts on the
    term as [at_path] says.

    The code is right only where the indexes of array children are still those of
    the original array ([aligned]), no moved scalar overwrites a composite
    ([clash_free_up], [clash_free_down]), and no path enters a set through a member
    that was removed.  [clean] decides this for a tree and a path. *)
From Stdlib Require Import ZArith Lia String.
From stdpp Require Import base gmap list strings.
From S2P Require Import Prelude SortedKeys Value Containers SetTable ObjectTable RefOps Path Builtins Document BitVector EditTree EditArray EditTreeSound EditOps.

(** ** When an edit is safe *)
Definition index_range (from to : Z) : list Z := map (fun k => (from + Z.of_nat k)%Z) (seq 0 (Z.to_nat (to - from))).

Definition clash_free_up (e : EditTree) (ins : BitVector) (idx : Z) : bool :=
  forallb (fun j => negb (found (childScalarValues e !! j) && found (childCompositeValues e !! (j + 1)%Z))) (index_range idx (Length ins)).
Definition clash_free_down (e : EditTree) (ins : BitVector) (idx : Z) : bool :=
  forallb (fun j => negb (found (childCompositeValues e !! j) && found (childScalarValues e !! (j + 1)%Z)))
    (index_range (idx + 1) (Length ins)).

(** The element shown at [idx] is the original one at [idx]. *)
Definition aligned (ins elim : BitVector) (idx : Z) : bool :=
  match sumZeroesBelowIndex idx ins with
  | Some z => match findIndexOfNthZero (1 + z) elim with Some (Some j) => (j =? idx)%Z | _ => false end
  | None => false
  end.

Section Clean.
Context `{X : XXHash, MO : MapOrder}.

Definition ok_insert (key : value) (e : EditTree) : bool :=
  roomy e &&
  match et_value e, insertions e with
  | Some (Array _), Some ins =>
      match toIndex (Length ins) key with
      | Some idx => clash_free_up e ins idx && (Length ins + 1 <? 2 ^ 32)%Z
      | None => true
      end
  | _, _ => true
  end.
Definition ok_delete (key : value) (e : EditTree) : bool :=
  roomy e &&
  match et_value e, insertions e with
  | Some (Array _), Some ins => match toIndex (Length ins) key with Some idx => clash_free_down e ins idx | None => true end
  | _, _ => true
  end.

(** [ok] at the end of the path, and every step safe. *)
Fixpoint clean (ok : EditTree -> bool) (path : list value) (e : EditTree) : bool :=
  match path with
  | [] => ok e
  | key :: path =>
      let child h :=
        match childScalarValues e !! h, childCompositeValues e !! h with
        | Some (Some t), _ => clean ok path (NewEditTree t)
        | None, Some (Some c) => clean ok path c
        | _, _ => true
        end in
      roomy e &&
      match et_value e with
      | Some (Object kvs) =>
          match getKeyHash e key with
          | Some (h, true) => child h
          | _ => match obj_get key kvs with Some v => clean ok path (NewEditTree v) | None => true end
          end
      | Some (SetV l) =>
          if isComposite key then
            match collapse e with
            | Some c => if found (t ← et_value c; Find t [key]) then clean ok path (NewEditTree key) else true
            | None => true
            end
          else match getKeyHash e key with
               | Some (h, true) => match childScalarValues e !! h with Some None => false | _ => child h end
               | _ => if set_mem key l then clean ok path (NewEditTree key) else true
               end
      | Some (Array orig) =>
          match insertions e, eliminated e with
          | Some ins, Some elim =>
              match toIndex (Length ins) key with
              | Some idx =>
                  if found (childScalarValues e !! idx) || found (childCompositeValues e !! idx) then child idx
                  else if (0 <=? idx)%Z && (idx <? Length ins)%Z then
                    aligned ins elim idx && clash_free_down e ins idx && clash_free_up e ins (idx + 1) &&
                    match orig !! Z.to_nat idx with Some v => clean ok path (NewEditTree v) | None => true end
                  else true
              | None => true
              end
          | _, _ => true
          end
      | _ => true
      end
  end.
End Clean.

(** ** Equal terms *)
Section Paths.
Context `{X : XXHash, MO : MapOrder, MOK : !MapOrderOk MO}.

(** A tree stands for every term equal to one it stands for. *)
Lemma reps_equal e t : reps e t -> forall t', fits t' -> Compare t t' = Eq -> reps e t'.
Proof.
  induction 1 as [e v t Ev N C|e kvs o Ev F Fo T S D Sc Cc R IH U|e l m f Ev F Fm T S Sc Ck C1 Cf R IH M|
    e orig ins elim l Ev F Fl Ei Ee Wi We K Le Z0 Li Sc Cc R IH O]; intros t' Ft C'.
  - apply (reps_leaf e v); [done..|]. by apply (cmp_eq_trans Compare _ t).
  - pose proof (Equal_sortOrder _ t' (proj2 (Equal_true _ t') C')) as Or. destruct t' as [| | | | | | |o'| | | | | ]; try discriminate Or.
    pose proof (object_ext_inv _ _ C') as G. apply (reps_object e kvs o'); try done.
    + intros h k Ek Hd. specialize (G k). rewrite (D h k Ek Hd) in G. by destruct (obj_get k o').
    + intros h k t Ek Et. destruct (Sc h k t Ek Et) as [Nt Ot]. split; [done|]. by apply (oeq_trans _ (obj_get k o)).
    + intros h k c Ek Ec. destruct (Cc h k c Ek Ec) as (w & Ew & Nw). specialize (G k). rewrite Ew in G.
      destruct (obj_get k o') as [w'|]; [|done]. exists w'. split; [done|]. by rewrite <- (isComposite_eq _ _ G).
    + intros h k c w' Ek Ec Ew'. destruct (Cc h k c Ek Ec) as (w & Ew & Nw). specialize (G k). rewrite Ew, Ew' in G.
      apply (IH h k c w Ek Ec Ew); [by apply (fits_get o' k)|done].
    + intros q Uq. apply (oeq_trans _ (obj_get q o)); [|by apply U]. specialize (G q).
      destruct (obj_get q o), (obj_get q o'); try done. by apply (cmp_eq_sym Compare).
  - pose proof (Equal_sortOrder _ t' (proj2 (Equal_true _ t') C')) as Or. destruct t' as [| | | | | | | |m'| | | | ]; try discriminate Or.
    apply (reps_set e l m' f); try done. intros q. by rewrite <- (set_ext_inv _ _ C').
  - pose proof (Equal_sortOrder _ t' (proj2 (Equal_true _ t') C')) as Or. destruct t' as [| | | | | |l'| | | | | | ]; try discriminate Or.
    assert (G : forall i w', l' !! i = Some w' -> exists w, l !! i = Some w /\ Compare w w' = Eq) by (intros; by apply (array_eq_lookup l l')).
    assert (Ll : length l' = length l) by (simpl in C'; apply slice_compare_eq_iff in C'; symmetry; by eapply Forall2_length).
    apply (reps_array e orig ins elim l'); try done; try congruence.
    + intros i x w' Ex Ew'. destruct (G i w' Ew') as (w & Ew & Cw). destruct (Sc i x w Ex Ew) as (t & -> & Nt & Ct).
      exists t. split_ands; [done..|]. by apply (cmp_eq_trans Compare _ w).
    + intros i x w' Ex Ew'. destruct (G i w' Ew') as (w & Ew & Cw). destruct (Cc i x w Ex Ew) as [Hx Nw].
      split; [done|]. by rewrite <- (isComposite_eq _ _ Cw).
    + intros i c w' Ec Ew'. destruct (G i w' Ew') as (w & Ew & Cw). apply (IH i c w Ec Ew); [|done].
      apply fits_array_inv in Ft as [_ Ft]. by apply (Forall_lookup_1 _ _ _ _ Ft Ew').
    + intros i w' Eb Ew'. destruct (G i w' Ew') as (w & Ew & Cw). destruct (O i w Eb Ew) as (v & Ev' & Cv).
      exists v. split; [done|]. by apply (cmp_eq_trans Compare _ w).
Qed.

Lemma obj_insert_equal key v w o : fits (Object o) -> obj_get key o = Some w -> Compare w v = Eq ->
  Compare (Object o) (Object (obj_insert key v o)) = Eq.
Proof.
  intros [So _]%fits_object_inv E C. apply object_ext; [done|by apply obj_insert_sorted|]. intros q.
  rewrite obj_get_insert by done. destruct (Equal q key) eqn:Q; [|apply oeq_refl]. apply Equal_true in Q. by rewrite (obj_get_congr q key o Q), E.
Qed.

Lemma set_replace_equal key v m : fits (SetV m) -> set_mem key m = true -> Compare key v = Eq ->
  Compare (SetV m) (SetV (set_insert v (set_remove key m))) = Eq.
Proof.
  intros Fm Hm C. pose proof (fits_set_inv _ Fm) as [Sm _]. pose proof (fits_set_inv _ (fits_set_remove key m Fm)) as [Sr _].
  apply set_ext; [done|by apply set_insert_ssorted|]. intros q. rewrite set_mem_insert, set_mem_remove by done.
  rewrite (Equal_sym q v), <- (Equal_cong key v q), (Equal_sym key q) by (by apply Equal_true).
  destruct (Equal q key) eqn:Q; [|done]. apply Equal_true in Q. by rewrite (set_mem_congr q key m Q).
Qed.

Lemma list_insert_equal i v w l : l !! i = Some w -> Compare w v = Eq -> Compare (Array l) (Array (<[i := v]> l)) = Eq.
Proof.
  intros E C. simpl. apply slice_compare_eq_iff. apply Forall2_same_length_lookup_2; [by rewrite length_insert|].
  intros j x y Ex Ey. destruct (decide (j = i)) as [->|N].
  - rewrite list_lookup_insert_eq in Ey by (by eapply lookup_lt_Some). congruence.
  - rewrite list_lookup_insert_ne in Ey by done. assert (x = y) as -> by congruence. apply (cmp_refl Compare).
Qed.

(** ** Insertion and removal on a node *)
Lemma elem_index_range j from to : In j (index_range from to) <-> (from <= j < to)%Z.
Proof.
  unfold index_range. rewrite in_map_iff. split.
  - intros (k & <- & Hk%in_seq). lia.
  - intros H. exists (Z.to_nat (j - from)). split; [lia|]. apply in_seq. lia.
Qed.

Lemma clash_free_up_ok e orig ins elim l idx : array_node e orig ins elim l -> clash_free_up e ins idx = true -> no_clash_up e idx.
Proof.
  intros A H j Hj [x Ex]. unfold clash_free_up in H. rewrite forallb_forall in H.
  assert (j < Length ins)%Z.
  { rewrite Length_bits, <- (an_length _ _ _ _ _ A) by apply A. destruct (Z.ltb_spec j (Z.of_nat (length l))); [done|].
    destruct (array_outside _ _ _ _ _ j A) as [N _]; [lia|congruence]. }
  specialize (H j (proj2 (elem_index_range _ _ _) (conj Hj H0))). rewrite Ex in H. by destruct (childCompositeValues e !! (j + 1)%Z).
Qed.

Lemma clash_free_down_ok e orig ins elim l idx : array_node e orig ins elim l -> clash_free_down e ins idx = true -> no_clash_down e idx.
Proof.
  intros A H j Hj [x Ex]. unfold clash_free_down in H. rewrite forallb_forall in H.
  assert (j < Length ins)%Z.
  { rewrite Length_bits, <- (an_length _ _ _ _ _ A) by apply A. destruct (Z.ltb_spec j (Z.of_nat (length l))); [done|].
    destruct (array_outside _ _ _ _ _ j A) as [_ N]; [lia|congruence]. }
  specialize (H j ltac:(apply elem_index_range; lia)). rewrite Ex in H. by destruct (childScalarValues e !! (j + 1)%Z).
Qed.

Lemma array_node_length e orig ins elim l : array_node e orig ins elim l -> Length ins = Z.of_nat (length l).
Proof. intros A. by rewrite Length_bits, <- (an_length _ _ _ _ _ A) by apply A. Qed.

Lemma Insert_array e l key v : reps e (Array l) -> ok_insert key e = true -> fits v ->
  match Insert e key v with
  | Some (e', Ok _) => exists t, put key v (Array l) = Some t /\ reps e' t
  | Some (_, Err _) => put key v (Array l) = None
  | None => False
  end.
Proof.
  intros (orig & ins & elim & A)%reps_array_iff Ok Fv. unfold ok_insert in Ok. rewrite (an_value _ _ _ _ _ A), (an_ins _ _ _ _ _ A) in Ok.
  apply andb_true_iff in Ok as [_ Ok]. unfold Insert, put. rewrite (an_value _ _ _ _ _ A), (an_ins _ _ _ _ _ A). cbn [mbind option_bind].
  rewrite (array_node_length _ _ _ _ _ A) in *. destruct (toIndex _ key) as [idx|]; [|done]. cbn [mbind option_bind].
  apply andb_true_iff in Ok as [NC%(clash_free_up_ok _ _ _ _ _ _ A) Hl%Z.ltb_lt].
  destruct (Z.ltb_spec idx 0), (Z.leb_spec 0 idx); try lia; [done|].
  destruct (Z.ltb_spec (Z.of_nat (length l)) idx), (Z.leb_spec idx (Z.of_nat (length l))); try lia; [done|]. cbn [orb andb].
  rewrite <- (Z2Nat.id idx) in NC |- * by done. rewrite Nat2Z.id.
  destruct (insert_array_node e orig ins elim l (Z.to_nat idx) v A ltac:(lia) NC) as (e' & ins' & -> & A' & _); [|done|].
  { by rewrite (array_node_length _ _ _ _ _ A). }
  eexists. split; [done|]. apply reps_array_iff. eauto.
Qed.

Lemma Delete_array e l key : reps e (Array l) -> ok_delete key e = true ->
  match Delete e key with
  | Some (e', Ok _) => exists t, cut key (Array l) = Some t /\ reps e' t
  | Some (_, Err _) => cut key (Array l) = None
  | None => False
  end.
Proof.
  intros (orig & ins & elim & A)%reps_array_iff Ok. unfold ok_delete in Ok. rewrite (an_value _ _ _ _ _ A), (an_ins _ _ _ _ _ A) in Ok.
  apply andb_true_iff in Ok as [_ Ok]. unfold Delete, cut, index_in. rewrite (an_value _ _ _ _ _ A), (an_ins _ _ _ _ _ A). cbn [mbind option_bind].
  rewrite (array_node_length _ _ _ _ _ A) in *. destruct (toIndex _ key) as [idx|]; [|done]. cbn [mbind option_bind].
  apply (clash_free_down_ok _ _ _ _ _ _ A) in Ok.
  destruct (Z.ltb_spec idx 0), (Z.leb_spec 0 idx); try lia; [done|].
  destruct (Z.ltb_spec (Z.of_nat (length l) - 1) idx), (Z.ltb_spec idx (Z.of_nat (length l))); try lia; [done|]. cbn [orb andb mbind option_bind].
  rewrite <- (Z2Nat.id idx) in Ok |- * by done. rewrite Nat2Z.id.
  destruct (delete_array_node e orig ins elim l (Z.to_nat idx) A ltac:(lia) Ok) as (e' & ins' & elim' & -> & A' & _).
  eexists. split; [done|]. apply reps_array_iff. eauto.
Qed.

Lemma tree_Insert_ok e t key v : reps e t -> key_ok key = true -> fits v -> ok_insert key e = true ->
  match Insert e key v with
  | Some (e', Ok _) => exists t', put key v t = Some t' /\ reps e' t'
  | Some (_, Err _) => put key v t = None
  | None => False
  end.
Proof.
  intros R Hk Fv Ok. pose proof (proj1 (proj1 (andb_true_iff _ _) Ok)) as Rm. destruct (reps_value e t R) as (x & Ex & Hx).
  destruct t; try (unfold Insert; rewrite Ex; by destruct x).
  - by apply Insert_array.
  - destruct (Insert_object e _ key v R Hk Rm Fv) as (e' & h & -> & R' & _). simpl. eauto.
  - simpl put. destruct (Equal key v) eqn:E.
    + destruct (Insert_set e _ key v R Hk Rm Fv E) as (e' & h & -> & R' & _). eauto.
    + unfold Insert. rewrite Ex. destruct x; try discriminate Hx. by rewrite E.
Qed.

Lemma tree_Delete_ok e t key : reps e t -> key_ok key = true -> ok_delete key e = true ->
  match Delete e key with
  | Some (e', Ok _) => exists t', cut key t = Some t' /\ reps e' t'
  | Some (_, Err _) => cut key t = None
  | None => False
  end.
Proof.
  intros R Hk Ok. pose proof (proj1 (proj1 (andb_true_iff _ _) Ok)) as Rm. destruct (reps_value e t R) as (x & Ex & Hx).
  destruct t; try (unfold Delete; rewrite Ex; by destruct x).
  - by apply Delete_array.
  - pose proof (Delete_object e _ key R Hk Rm) as D. destruct (Delete e key) as [[e' []]|]; [|by simpl; rewrite D|done].
    destruct D as [[w Ew] D]. simpl. rewrite Ew. simpl. eauto.
  - pose proof (Delete_set e _ key R Hk Rm) as D. destruct (Delete e key) as [[e' []]|]; [|by simpl; rewrite D|done].
    destruct D as [Ew D]. simpl. rewrite Ew. eauto.
Qed.

Lemma toIndex_int n i : in_int64 i = true -> toIndex n (IntNumberTerm i) = Some i.
Proof. simpl. by intros ->. Qed.

Lemma fits_index l (i : nat) : fits (Array l) -> (i < length l)%nat -> in_int64 (Z.of_nat i) = true.
Proof. intros [Ll _]%fits_array_inv Hi. unfold in_int64, two63. lia. Qed.

Lemma insert_at_delete {B} (i : nat) (v : B) l : (i < length l)%nat -> insert_at i v (delete i l) = <[i := v]> l.
Proof.
  intros H. unfold insert_at. rewrite insert_take_drop, delete_take_drop by done.
  rewrite take_app_le, drop_app_ge by (rewrite length_take; lia). rewrite length_take, take_take.
  replace (i - i `min` length l) with 0 by lia. by rewrite Nat.min_id, drop_0.
Qed.

(** The element that an unedited index shows. *)
Lemma aligned_value e orig ins elim l (i : nat) w : array_node e orig ins elim l -> l !! i = Some w ->
  childScalarValues e !! Z.of_nat i = None -> childCompositeValues e !! Z.of_nat i = None -> aligned ins elim (Z.of_nat i) = true ->
  exists v, orig !! i = Some v /\ Compare v w = Eq.
Proof.
  intros A Ew Es Ec Al. pose proof (lookup_lt_Some _ _ _ Ew) as Hi. rewrite (an_length _ _ _ _ _ A) in Hi.
  pose proof (array_node_shows e orig ins elim l i w A Ew) as Sh. unfold shows_at in Sh. rewrite Es, Ec in Sh.
  destruct (bits ins !! i) as [[]|] eqn:Eb; [done| |done]. destruct Sh as (v & Ev & C). exists v. split; [|done].
  unfold aligned in Al. rewrite (sumZeroesBelowIndex_ok ins i (an_ins_wf _ _ _ _ _ A)) in Al by lia.
  pose proof (zeros_take_lt _ _ Eb) as Hz. rewrite (an_zeros _ _ _ _ _ A) in Hz.
  destruct (findIndexOfNthZero_ok elim _ (an_elim_wf _ _ _ _ _ A) Hz) as (j & Ej & Zj & Fj). rewrite Fj in Al.
  apply Z.eqb_eq, Nat2Z.inj in Al as ->. by rewrite <- (survivors_lookup _ orig i (an_orig _ _ _ _ _ A) Ej), Zj.
Qed.

(** An original element becomes a child. *)
Lemma refresh_slot e orig ins elim l (i : nat) v w : array_node e orig ins elim l -> l !! i = Some w -> orig !! i = Some v ->
  Compare v w = Eq -> clash_free_down e ins (Z.of_nat i) = true -> clash_free_up e ins (Z.of_nat i + 1) = true ->
  exists e1 e2, Delete e (IntNumberTerm (Z.of_nat i)) = Some (e1, Ok tt) /\
    Insert e1 (IntNumberTerm (Z.of_nat i)) v = Some (e2, Ok (Z.of_nat i)) /\ reps e2 (Array l) /\ holds e2 (Z.of_nat i) v.
Proof.
  intros N Ew Ev C Cd Cu. pose proof (lookup_lt_Some _ _ _ Ew) as Hi. pose proof (an_fits' _ _ _ _ _ N) as Fl.
  pose proof (fits_index l i Fl Hi) as I64. pose proof (fits_array_inv _ (an_fits _ _ _ _ _ N)) as [_ Fo]. pose proof (fits_array_inv _ Fl) as [Ll Fls].
  pose proof (Forall_lookup_1 _ _ _ _ Fo Ev) as Fv. pose proof (clash_free_up_ok _ _ _ _ _ _ N Cu) as NU.
  destruct (delete_array_node e orig ins elim l i N Hi (clash_free_down_ok _ _ _ _ _ _ N Cd)) as (e1 & ins1 & elim1 & E1 & N1 & _ & S1 & S2).
  assert (Ld : length (delete i l) = (length l - 1)%nat) by (by rewrite length_delete by (by rewrite Ew)).
  pose proof (array_node_length _ _ _ _ _ N1) as L1. unfold shifted_down in S1, S2.
  destruct (insert_array_node e1 orig ins1 elim1 (delete i l) i v N1 ltac:(lia)) as (e2 & ins2 & E2 & N2 & H2); [|lia|done|].
  { intros j Hj. rewrite S1, S2. destruct (Z.ltb_spec j (Z.of_nat i)), (Z.ltb_spec (j + 1) (Z.of_nat i)); try lia. apply NU. lia. }
  exists e1, e2. split_ands; [| | |done].
  - unfold Delete. rewrite (an_value _ _ _ _ _ N), (an_ins _ _ _ _ _ N). cbn [mbind option_bind]. rewrite toIndex_int by done.
    rewrite (array_node_length _ _ _ _ _ N). destruct (Z.ltb_spec (Z.of_nat i) 0), (Z.ltb_spec (Z.of_nat (length l) - 1) (Z.of_nat i)); try lia.
    cbn [orb]. by rewrite E1.
  - unfold Insert. rewrite (an_value _ _ _ _ _ N1), (an_ins _ _ _ _ _ N1). cbn [mbind option_bind]. rewrite toIndex_int by done.
    rewrite L1. destruct (Z.ltb_spec (Z.of_nat i) 0), (Z.ltb_spec (Z.of_nat (length (delete i l))) (Z.of_nat i)); try lia.
    cbn [orb]. by rewrite E2.
  - rewrite insert_at_delete in N2 by done. apply (reps_equal e2 (Array (<[i := v]> l))); [apply reps_array_iff; eauto|done|].
    apply (cmp_eq_sym Compare), (list_insert_equal i v w); [done|by apply (cmp_eq_sym Compare)].
Qed.

(** ** Unfold *)
Section Unfold.
Context {A : Type} (op : EditTree -> option (EditTree * res et_error A)) (f : value -> option value) (Q : value -> A -> Prop)
  (ok : EditTree -> bool).
Context (f_leaf : forall t t', isComposite t = false -> f t = Some t' -> Compare t t' = Eq)
  (f_composite : forall t t', isComposite t = true -> f t = Some t' -> isComposite t' = true).

(** The outcome of an operation at a path of [t]. *)
Definition acts (path : list value) (t : value) (r : option (EditTree * res et_error A)) : Prop :=
  match r with
  | Some (e', Ok a) =>
      (exists t', at_path path f t = Some t' /\ reps e' t') /\ exists t0, get_path path t = Some t0 /\ Q t0 a
  | Some (_, Err _) => at_path path f t = None
  | None => False
  end.

Context (op_ok : forall e t, reps e t -> ok e = true -> acts [] t (op e)).

Lemma at_path_leaf path t t' : isComposite t = false -> at_path path f t = Some t' -> Compare t t' = Eq.
Proof. destruct path; [apply f_leaf|]. by destruct t. Qed.

Lemma at_path_composite path t t' : isComposite t = true -> at_path path f t = Some t' -> isComposite t' = true.
Proof.
  destruct path as [|key path]; [apply f_composite|]. intros N. destruct t; try discriminate N; simpl.
  - destruct (index_in key _) as [i|]; simpl; [|done]. destruct (elems !! i); simpl; [|done]. destruct (at_path _ _ _); by intros [= <-].
  - destruct (obj_get key _); simpl; [|done]. destruct (at_path _ _ _); by intros [= <-].
  - destruct (set_mem key _); [|done]. destruct (at_path _ _ _); by intros [= <-].
Qed.

(** A child whose term is [w]: what an operation on it gives at the node [t], when
    [back] puts the new term in its place. *)
Lemma on_child_acts g path e h key t w (back : value -> value) :
  at_path (key :: path) f t = (v' ← at_path path f w; Some (back v')) -> get_path (key :: path) t = get_path path w ->
  (exists s, childScalarValues e !! h = Some (Some s) /\ isComposite w = false /\ acts path w (g (NewEditTree s)) /\
     forall w', fits w' -> Compare w w' = Eq -> reps e (back w')) \/
  (exists c, childScalarValues e !! h = None /\ childCompositeValues e !! h = Some (Some c) /\ isComposite w = true /\ acts path w (g c) /\
     forall c' w', reps c' w' -> isComposite w' = true -> reps (setChildCompositeValue e h (Some c')) (back w')) ->
  acts (key :: path) t (on_child g e h).
Proof.
  intros Ea Eg [(s & Es & Nw & S & B)|(c & Es & Ec & Nw & S & B)]; unfold on_child; rewrite Es, ?Ec; unfold acts in S |- *; rewrite Ea, Eg.
  - destruct (g (NewEditTree s)) as [[c' [a|]]|]; cbn [mbind option_bind]; [|by rewrite S|done]. destruct S as [(w' & Ew & R) G]. split; [|done].
    rewrite Ew. cbn [mbind option_bind]. eexists. split; [done|]. apply B; [by apply (reps_fits c')|by apply (at_path_leaf path)].
  - destruct (g c) as [[c' [a|]]|]; cbn [mbind option_bind]; [|by rewrite S|done]. destruct S as [(w' & Ew & R) G]. split; [|done].
    rewrite Ew. cbn [mbind option_bind]. eexists. split; [done|]. apply B; [done|by apply (at_path_composite path w)].
Qed.

Lemma on_child_object g path e o h k key w : reps e (Object o) -> childKeys e !! h = Some k -> Compare key k = Eq ->
  obj_get key o = Some w ->
  (forall s, childScalarValues e !! h = Some (Some s) -> reps (NewEditTree s) w -> acts path w (g (NewEditTree s))) ->
  (forall c, childScalarValues e !! h = None -> childCompositeValues e !! h = Some (Some c) -> reps c w -> acts path w (g c)) ->
  acts (key :: path) (Object o) (on_child g e h).
Proof.
  intros R Ek C Ew Hs Hc. pose proof R as (kvs & N)%reps_object_iff. pose proof (on_fits' _ _ _ N) as Fo. pose proof (fits_get _ _ _ Fo Ew) as Fw.
  assert (Ek' : obj_get k o = Some w) by (by rewrite <- (obj_get_congr key k o C)).
  apply (on_child_acts g path e h key (Object o) w (fun v' => Object (obj_insert key v' o))); [by simpl; rewrite Ew..|].
  pose proof (on_slots _ _ _ N h) as S. rewrite Ek in S.
  destruct S as [[[[s|] Es] En]|[En [[c|] Ec]]]; try (by rewrite (on_deleted _ _ _ N h k Ek) in Ek'; [|eauto]).
  - left. exists s. destruct (on_scalar _ _ _ N h k s Ek Es) as [Ns Os]. rewrite Ek' in Os. simpl in Os. split_ands; [done| | |].
    + by rewrite <- (isComposite_eq _ _ Os).
    + apply Hs; [done|]. apply NewEditTree_reps; [by apply fits_leaf|done..].
    + intros w' Fw' Cw. apply (reps_equal e (Object o) R); [by apply fits_insert|by apply (obj_insert_equal key w' w)].
  - right. exists c. destruct (on_composite _ _ _ N h k c Ek Ec) as (w0 & E0 & N0 & R0). assert (w0 = w) as -> by congruence.
    split_ands; [done..|by apply Hc|]. intros c' w' R' N'. pose proof (fits_object_inv _ Fo) as [So _].
    apply (object_update e _ h k o); try done.
    + unfold at_slot_only. split_ands; [done|symmetry; by apply insert_id|]. intros h' Nh. simpl. by rewrite lookup_insert_ne.
    + apply (on_table _ _ _ N).
    + intros k' E'. assert (k' = k) as -> by congruence. apply (cmp_refl Compare).
    + apply fits_insert; [by apply (reps_fits c')|done].
    + intros q Nq. rewrite obj_get_insert by done. destruct (Equal q key) eqn:Eqk; [|done].
      destruct Nq. apply (cmp_eq_trans Compare _ key); [by apply Equal_true|done].
    + rewrite obj_get_insert, (proj2 (Equal_true k key)) by (done || by apply (cmp_eq_sym Compare)).
      unfold child_is. simpl. rewrite En, lookup_insert_eq. eauto.
Qed.

Lemma on_child_scalar_set g path e m h key s : reps e (SetV m) -> childScalarValues e !! h = Some (Some s) -> Compare key s = Eq ->
  isComposite key = false -> set_mem key m = true -> acts path key (g (NewEditTree s)) ->
  acts (key :: path) (SetV m) (on_child g e h).
Proof.
  intros R Es C Nk Hm Ha. pose proof (reps_fits _ _ R) as Fm.
  apply (on_child_acts g path e h key (SetV m) key (fun v' => SetV (set_insert v' (set_remove key m)))); [by simpl; rewrite Hm..|].
  left. exists s. split_ands; [done..|]. intros w' Fw Cw. apply (reps_equal e (SetV m) R); [|by apply set_replace_equal].
  by apply fits_set_insert, fits_set_remove.
Qed.

(** A composite member of a set, found in the rendered set. *)
Lemma extend_composite_set g path e m key : reps e (SetV m) -> key_ok key = true -> fits key -> isComposite key = true ->
  (set_mem key m = true -> reps (NewEditTree key) key -> acts path key (g (NewEditTree key))) ->
  acts (key :: path) (SetV m) (e ← collapse e; extend g e key).
Proof.
  intros R Hk Fk Nk Ha. destruct (collapse_ok e m R) as (e0 & l & -> & U & Fl & M & Id). cbn [mbind option_bind].
  unfold extend. pose proof U as (Ev & _). rewrite Ev. cbn [mbind option_bind Find]. rewrite M. destruct (set_mem key m) eqn:Hm; [|by simpl; rewrite Hm].
  destruct (unedited_room _ _ U) as (T0 & S0 & R0). destruct (unsafeInsert_ok e0 key key T0 S0 Hk R0) as (e1 & h & E1 & At & Hv & T1 & K).
  assert (Ei : Insert e0 key key = Some (e1, Ok h)).
  { unfold Insert. rewrite Ev, (proj2 (Equal_true key key) (cmp_refl Compare key)). simpl negb. cbn iota. rewrite Nk, Id. cbn [mbind option_bind].
    unfold unsafeInsertSet. by rewrite E1. }
  rewrite Ei. cbn [mbind option_bind]. unfold holds in Hv. rewrite Nk in Hv. destruct Hv as [Es Ec].
  apply (on_child_acts g path e1 h key (SetV m) key (fun v' => SetV (set_insert v' (set_remove key m)))); [by simpl; rewrite Hm..|].
  right. exists (NewEditTree key). split_ands; [done..| |].
  { apply Ha, NewEditTree_reps; [done..|apply (cmp_refl Compare)]. }
  intros c' w' R' N'. pose proof (fits_set_remove key m (reps_fits _ _ R)) as Fr. pose proof (fits_set_inv _ Fr) as [Sr _].
  apply (set_composite_update e0 _ l h key (Some c') w' m); try done.
  - destruct At as (V & Ks & Rest). unfold at_slot_only. split_ands; [done..|]. intros h' Nh. simpl. rewrite lookup_insert_ne by done. by apply Rest.
  - simpl. by rewrite lookup_insert_eq.
  - by intros c [= <-].
  - apply fits_set_insert; [by apply (reps_fits c')|done].
  - intros q. rewrite set_mem_insert, set_mem_remove by done. by destruct (Equal q w').
Qed.

Lemma on_child_array g path e l i key w : reps e (Array l) -> index_in key (length l) = Some i -> l !! i = Some w ->
  is_Some (childScalarValues e !! Z.of_nat i) \/ is_Some (childCompositeValues e !! Z.of_nat i) ->
  (forall s, childScalarValues e !! Z.of_nat i = Some (Some s) -> reps (NewEditTree s) w -> acts path w (g (NewEditTree s))) ->
  (forall c, childScalarValues e !! Z.of_nat i = None -> childCompositeValues e !! Z.of_nat i = Some (Some c) -> reps c w -> acts path w (g c)) ->
  acts (key :: path) (Array l) (on_child g e (Z.of_nat i)).
Proof.
  intros R Ei Ew Hk Hs Hc. pose proof R as (orig & ins & elim & N)%reps_array_iff. pose proof (an_fits' _ _ _ _ _ N) as Fl.
  pose proof (fits_array_inv _ Fl) as [Ll Fls]. pose proof (Forall_lookup_1 _ _ _ _ Fls Ew) as Fw.
  apply (on_child_acts g path e (Z.of_nat i) key (Array l) w (fun v' => Array (<[i := v']> l)));
    [by simpl; rewrite Ei; simpl; rewrite Ew..|]. destruct (childScalarValues e !! Z.of_nat i) as [x|] eqn:Es.
  - left. destruct (an_scalar _ _ _ _ _ N i x w Es Ew) as (s & -> & Ns & Cs). exists s. split_ands; [done| | |].
    + by rewrite <- (isComposite_eq _ _ Cs).
    + apply Hs; [done|]. apply NewEditTree_reps; [by apply fits_leaf|done..].
    + intros w' Fw' Cw. apply (reps_equal e (Array l) R); [|by apply (list_insert_equal i w' w)].
      constructor; [by rewrite length_insert|by apply Forall_insert].
  - right. destruct Hk as [[? Hk]|[x Ec]]; [done|]. destruct (an_composite _ _ _ _ _ N i x w Ec Ew) as (c & -> & Nw & Rc).
    exists c. split_ands; [done..|by apply Hc|]. intros c' w' R' N'. apply reps_array_iff. exists orig, ins, elim.
    by apply (update_array_node e orig ins elim l i w w' c' N Ew).
Qed.

(** One step: the rest of the path is handled by [Unfold op path]. *)
Section Step.
Context (path : list value) (IH : forall e t, reps e t -> clean ok path e = true -> acts path t (Unfold op path e)).

Lemma Unfold_object e o key : reps e (Object o) -> key_ok key = true -> clean ok (key :: path) e = true ->
  acts (key :: path) (Object o) (Unfold op (key :: path) e).
Proof.
  intros R Hk Cl. pose proof R as (kvs & N)%reps_object_iff. cbn [Unfold clean] in *. rewrite (on_value _ _ _ N) in *.
  apply andb_true_iff in Cl as [Rm Cl]. pose proof (on_fits' _ _ _ N) as Fo.
  destruct (getKeyHash_ok e key (on_table _ _ _ N) Hk (proj1 (Z.ltb_lt _ _) Rm)) as (h & b & E & _ & Hb). rewrite E in *. cbn [mbind option_bind].
  destruct b.
  - destruct Hb as (k & Ek & C). destruct (obj_get key o) as [w|] eqn:Ew.
    + assert (A0 : acts (key :: path) (Object o) (on_child (Unfold op path) e h)).
      { apply (on_child_object _ _ e o h k key w); try done.
        - intros s Es Rs. rewrite Es in Cl. by apply IH.
        - intros c Es Ec Rc. rewrite Es, Ec in Cl. by apply IH. }
      rewrite (obj_get_congr key k o C) in Ew. destruct (childScalarValues e !! h) as [[s|]|] eqn:Es; [done| |].
      * by rewrite (on_deleted _ _ _ N h k Ek (or_introl Es)) in Ew.
      * destruct (childCompositeValues e !! h) as [[c|]|] eqn:Ec; [done| |done]. by rewrite (on_deleted _ _ _ N h k Ek (or_intror Ec)) in Ew.
    + assert (Ek' : obj_get k o = None) by (by rewrite <- (obj_get_congr key k o C)). pose proof (on_slots _ _ _ N h) as S. rewrite Ek in S.
      assert (Er : at_path (key :: path) f (Object o) = None) by (simpl; by rewrite Ew).
      destruct S as [[[[s|] Es] En]|[En [[c|] Ec]]].
      * destruct (on_scalar _ _ _ N h k s Ek Es) as [_ Os]. by rewrite Ek' in Os.
      * by rewrite Es.
      * destruct (on_composite _ _ _ N h k c Ek Ec) as (w & Ew' & _). congruence.
      * by rewrite En, Ec.
  - destruct Hb as [_ U]. pose proof (on_rest _ _ _ N key U) as Or. unfold extend. rewrite (on_value _ _ _ N). cbn [mbind option_bind Find].
    destruct (obj_get key kvs) as [v|] eqn:Ev, (obj_get key o) as [w|] eqn:Ew; try done; [|simpl; by rewrite Ew].
    simpl in Or. pose proof (fits_get _ _ _ (on_fits _ _ _ N) Ev) as Fv.
    destruct (Insert_object e o key v R Hk Rm Fv) as (e' & h' & -> & R' & Hv & Ek'). cbn [mbind option_bind].
    apply (on_child_object _ _ e' o h' key key w); try done.
    + apply (reps_equal e' _ R' (Object o) Fo). by apply (cmp_eq_sym Compare), (obj_insert_equal key v w).
    + apply (cmp_refl Compare).
    + unfold holds in Hv. intros s Es Rs. destruct (isComposite v); destruct Hv as [Hv1 Hv2]; [congruence|].
      assert (s = v) as -> by congruence. by apply IH.
    + unfold holds in Hv. intros c Es Ec Rc. destruct (isComposite v); destruct Hv as [Hv1 Hv2]; [|congruence].
      assert (c = NewEditTree v) as -> by congruence. by apply IH.
Qed.

Lemma Unfold_set e m key : reps e (SetV m) -> key_ok key = true -> fits key -> clean ok (key :: path) e = true ->
  acts (key :: path) (SetV m) (Unfold op (key :: path) e).
Proof.
  intros R Hk Fk Cl. pose proof R as (l & fn & N)%reps_set_iff. cbn [Unfold clean] in *. rewrite (sn_value _ _ _ _ N) in *.
  apply andb_true_iff in Cl as [Rm Cl]. destruct (isComposite key) eqn:Nk.
  { apply extend_composite_set; try done. intros Hm Rk. destruct (collapse_ok e m R) as (e0 & l0 & Ec & U & _ & M & _).
    rewrite Ec in Cl. destruct U as (Ev & _). rewrite Ev in Cl. cbn [mbind option_bind Find] in Cl. rewrite M, Hm in Cl. by apply IH. }
  assert (Rs : forall s, Compare s key = Eq -> reps (NewEditTree s) key).
  { intros s C. apply NewEditTree_reps; [|done..]. apply fits_leaf. by rewrite (isComposite_eq _ _ C). }
  destruct (getKeyHash_ok e key (sn_table _ _ _ _ N) Hk (proj1 (Z.ltb_lt _ _) Rm)) as (h & b & E & _ & Hb). rewrite E in *. cbn [mbind option_bind].
  destruct b.
  - destruct Hb as (k & Ek & C). destruct (set_scalar_slot e l m fn h k key N Ek C Nk) as (x & Ex & En & Hm & Ct).
    rewrite Ex in *. destruct x as [s|]; [|done]. apply (on_child_scalar_set _ _ e m h key s); try done.
    apply IH; [|done]. apply Rs. by apply (cmp_eq_sym Compare).
  - destruct Hb as [_ U]. pose proof (set_untouched_mem e l m fn key N U Nk) as Hm. unfold extend. rewrite (sn_value _ _ _ _ N).
    cbn [mbind option_bind Find]. destruct (set_mem key l); [|simpl; by rewrite Hm].
    pose proof (proj2 (Equal_true key key) (cmp_refl Compare key)) as Ekk.
    destruct (Insert_set e m key key R Hk Rm Fk Ekk) as (e' & h' & -> & R' & Hv). cbn [mbind option_bind].
    unfold holds in Hv. rewrite Nk in Hv. destruct Hv as [Es _].
    apply (on_child_scalar_set _ _ e' m h' key key); try done; [|apply (cmp_refl Compare)|apply IH; [apply Rs, (cmp_refl Compare)|done]].
    apply (reps_equal e' _ R' (SetV m) (reps_fits _ _ R)). pose proof (fits_set_inv _ (reps_fits _ _ R)) as [Sm _].
    apply set_ext; [by apply set_insert_ssorted|done|]. intros q. rewrite set_mem_insert by done.
    destruct (Equal q key) eqn:Eqk; [|done]. apply Equal_true in Eqk. by rewrite (set_mem_congr q key m Eqk), Hm.
Qed.

(** An index out of range is an error, even where the original array has it. *)
Lemma Unfold_outside e l key idx : reps e (Array l) -> toIndex (Z.of_nat (length l)) key = Some idx ->
  ~ (0 <= idx < Z.of_nat (length l))%Z -> acts (key :: path) (Array l) (Unfold op (key :: path) e).
Proof.
  intros (orig & ins & elim & N)%reps_array_iff Ei Out. assert (Er : at_path (key :: path) f (Array l) = None).
  { simpl. unfold index_in. rewrite Ei. cbn [mbind option_bind].
    destruct (Z.leb_spec 0 idx), (Z.ltb_spec idx (Z.of_nat (length l))); try lia; done. }
  cbn [Unfold]. rewrite (an_value _ _ _ _ _ N), (an_ins _ _ _ _ _ N). cbn [mbind option_bind]. rewrite (array_node_length _ _ _ _ _ N), Ei.
  destruct (array_outside _ _ _ _ _ idx N) as [-> ->]; [lia|]. destruct (Find (Array orig) _) as [v|] eqn:Fi; [|done].
  unfold Delete. rewrite (an_value _ _ _ _ _ N), (an_ins _ _ _ _ _ N). cbn [mbind option_bind].
  destruct (toIndex _ (IntNumberTerm idx)) as [z|] eqn:Ez; [|done]. rewrite (array_node_length _ _ _ _ _ N).
  assert (z = idx) as -> by (simpl in Ez; destruct (in_int64 idx); congruence).
  by destruct (Z.ltb_spec idx 0), (Z.ltb_spec (Z.of_nat (length l) - 1) idx); try lia.
Qed.

Lemma Unfold_array e l key : reps e (Array l) -> clean ok (key :: path) e = true ->
  acts (key :: path) (Array l) (Unfold op (key :: path) e).
Proof.
  intros R Cl. pose proof R as (orig & ins & elim & N)%reps_array_iff. pose proof (Unfold_outside e l key) as Outside. cbn [Unfold clean] in *.
  rewrite (an_value _ _ _ _ _ N), (an_ins _ _ _ _ _ N), ?(an_elim _ _ _ _ _ N) in *. cbn [mbind option_bind] in *.
  apply andb_true_iff in Cl as [_ Cl]. pose proof (an_fits' _ _ _ _ _ N) as Fl. rewrite (array_node_length _ _ _ _ _ N) in *.
  destruct (toIndex (Z.of_nat (length l)) key) as [idx|] eqn:Ei; [|simpl; unfold index_in; by rewrite Ei].
  destruct (decide (0 <= idx < Z.of_nat (length l))%Z) as [In|Out]; [clear Outside|by apply (Outside idx)].
  - assert (Hi : (Z.to_nat idx < length l)%nat) by lia. destruct (lookup_lt_is_Some_2 l _ Hi) as [w Ew]. revert Cl Ei.
    replace idx with (Z.of_nat (Z.to_nat idx)) by lia. set (i := Z.to_nat idx) in *. intros Cl Ei.
    assert (Ii : index_in key (length l) = Some i).
    { unfold index_in. rewrite Ei. cbn [mbind option_bind]. destruct (Z.leb_spec 0 (Z.of_nat i)), (Z.ltb_spec (Z.of_nat i) (Z.of_nat (length l))); try lia.
      by rewrite Nat2Z.id. }
    pose proof (fun Hk => on_child_array (Unfold op path) path e l i key w R Ii Ew Hk) as OC.
    destruct (childScalarValues e !! Z.of_nat i) as [x|] eqn:Es; [|destruct (childCompositeValues e !! Z.of_nat i) as [x|] eqn:Ec]; cbn [found orb] in Cl.
    + apply OC; [by left| |done]. intros s [= ->] Rs. by apply IH.
    + apply OC; [by right|done|]. intros c _ [= ->] Rc. by apply IH.
    + destruct (Z.leb_spec 0 (Z.of_nat i)), (Z.ltb_spec (Z.of_nat i) (Z.of_nat (length l))); try lia. cbn [andb] in Cl.
      rewrite Nat2Z.id, !andb_true_iff in Cl. destruct Cl as [[[Al Cd] Cu] Cl].
      destruct (aligned_value e orig ins elim l i w N Ew Es Ec Al) as (v & Ev & C). rewrite Ev in Cl.
      assert (Fi : Find (Array orig) [IntNumberTerm (Z.of_nat i)] = Some v).
      { cbn [Find]. pose proof (lookup_lt_Some _ _ _ Ev) as Ho. pose proof (fits_array_inv _ (an_fits _ _ _ _ _ N)) as [Lo _].
        unfold array_index, IntNumberTerm, num_int64. rewrite (fits_index l i Fl Hi).
        destruct (Z.ltb_spec (Z.of_nat i) 0), (Z.leb_spec (Z.of_nat (length orig)) (Z.of_nat i)); try lia. cbn [orb]. by rewrite Nat2Z.id, Ev. }
      rewrite Fi. destruct (refresh_slot e orig ins elim l i v w N Ew Ev C Cd Cu) as (e1 & e2 & -> & E2 & R2 & Hv).
      cbn [mbind option_bind]. rewrite E2. cbn [mbind option_bind]. unfold holds in Hv.
      apply (on_child_array (Unfold op path) path e2 l i key w R2 Ii Ew).
      * destruct (isComposite v); destruct Hv as [-> ->]; eauto.
      * intros s Es2 Rs. destruct (isComposite v); destruct Hv as [Hv1 Hv2]; [congruence|]. assert (s = v) as -> by congruence. by apply IH.
      * intros c Es2 Ec2 Rc. destruct (isComposite v); destruct Hv as [Hv1 Hv2]; [|congruence].
        assert (c = NewEditTree v) as -> by congruence. by apply IH.
Qed.
End Step.

Definition path_ok (path : list value) : Prop := Forall (fun k => key_ok k = true /\ fits k) path.

Lemma Unfold_ok path e t : path_ok path -> reps e t -> clean ok path e = true -> acts path t (Unfold op path e).
Proof.
  intros Hp. revert e t. induction Hp as [|key path [Hk Fk] Hp IH]; intros e t R Cl; [by apply op_ok|].
  destruct (reps_value e t R) as (x & Ex & Hx). destruct t; try (cbn [Unfold]; rewrite Ex; by destruct x).
  - by apply Unfold_array.
  - by apply Unfold_object.
  - by apply Unfold_set.
Qed.
End Unfold.
End Paths.
