(* ===== verification/JsonPatch.v ===== *)
(** [json.remove], [json.filter] and [json.patch]: [src/topdown/json.go], on the
    edit trees of EditTree.v. *)
From Stdlib Require Import ZArith Lia String Ascii.
From stdpp Require Import base gmap list strings pretty.
From S2P Require Import Prelude SortedKeys Value Containers SetTable RefOps Path Builtins Document BitVector EditTree.

(** ** Paths *)

(** [strings.TrimLeft(s, "/")]. *)
Fixpoint trim_slashes (s : string) : string :=
  match s with String c s' => if Ascii.eqb c slash then trim_slashes s' else s | EmptyString => s end.

(** [strings.ReplaceAll(s, old, new)] for an [old] of two characters. *)
Fixpoint replace_pair (a b new : ascii) (s : string) : string :=
  match s with
  | String c (String d s' as rest) =>
      if Ascii.eqb c a && Ascii.eqb d b then String new (replace_pair a b new s')
      else String c (replace_pair a b new rest)
  | s => s
  end.
Definition unescape (part : string) : string :=
  replace_pair "~" "0" "~" (replace_pair "~" "1" "/" part).

Definition parsePath (path : value) : res builtin_error (list value) :=
  match path with
  | Str p =>
      if String.eqb p EmptyString then Ok []
      else Ok (map (fun part => Str (unescape part)) (split_slash (trim_slashes p)))
  | Array l => Ok l
  | _ => Err (OperandErr 2 "must be one of {set, array} containing string paths or array of path segments")
  end.

Fixpoint parse_all (l : list value) : res builtin_error (list (list value)) :=
  match l with
  | [] => Ok []
  | x :: l => let? filter := parsePath x in let? paths := parse_all l in Ok (filter :: paths)
  end.
Definition getJSONPaths (operand : value) : res builtin_error (list (list value)) :=
  match operand with
  | Array l | SetV l => parse_all l
  | _ => Err (OperandTypeErr 2 operand ["set"; "array"]%string)
  end.

(** One path added to the object; [None] is the panic on a child that is neither
    [null] nor an object. *)
Fixpoint insert_path (node : list (value * value)) (path : list value) : option (list (value * value)) :=
  match path with
  | [] => Some node
  | [k] => Some (obj_insert k Null node)
  | k :: path =>
      match obj_get k node with
      | None => o ← insert_path [] path; Some (obj_insert k (Object o) node)
      | Some Null => Some node
      | Some (Object o) => o ← insert_path o path; Some (obj_insert k (Object o) node)
      | Some _ => None
      end
  end.
Fixpoint insert_paths (root : list (value * value)) (paths : list (list value)) : option (list (value * value)) :=
  match paths with [] => Some root | p :: paths => root ← insert_path root p; insert_paths root paths end.
Definition pathsToObject (paths : list (list value)) : option (list (value * value)) := insert_paths [] paths.

(** ** json.remove *)

(** The result [Ok None] is the nil term: the value is left out. *)
Fixpoint jsonRemove (a : value) (b : option value) {struct a} : res builtin_error (option value) :=
  match b with
  | Some (Object bObj) =>
      match a with
      | Str _ | Number _ | Boolean _ | Null => Ok (Some a)
      | Object kvs =>
          let rec := map (fun kv => (kv.1, jsonRemove kv.2)) kvs in
          let? newObj := res_fold (fun kr newObj =>
              let? diffValue := kr.2 (obj_get kr.1 bObj) in
              Ok (match diffValue with Some d => obj_insert kr.1 d newObj | None => newObj end)) rec [] in
          Ok (Some (Object newObj))
      | SetV l =>
          let rec := map (fun v => (v, jsonRemove v)) l in
          let? newSet := res_fold (fun vr newSet =>
              let? diffValue := vr.2 (obj_get vr.1 bObj) in
              Ok (match diffValue with Some d => set_insert d newSet | None => newSet end)) rec [] in
          Ok (Some (SetV newSet))
      | Array l =>
          let rec := map jsonRemove l in
          let? newArray := res_fold (fun ir newArray =>
              let? diffValue := ir.2 (obj_get (Str (pretty (N.of_nat ir.1))) bObj) in
              Ok (match diffValue with Some d => newArray ++ [d] | None => newArray end))
            (combine (seq 0 (length l)) rec) [] in
          Ok (Some (Array newArray))
      | _ => Err (PlainErr "invalid value type")
      end
  | Some Null => Ok None
  | _ => Ok (Some a)
  end.

Definition builtinJSONRemove (a b : value) : option builtin_result :=
  match ObjectOperand a 1, getJSONPaths b with
  | Err e, _ | Ok _, Err e => Some (Err e)
  | Ok _, Ok paths => o ← pathsToObject paths; Some (jsonRemove a (Some (Object o)))
  end.

(** ** json.filter *)
Definition builtinJSONFilter (a b : value) : option builtin_result :=
  match ObjectOperand a 1, getJSONPaths b with
  | Err e, _ | Ok _, Err e => Some (Err e)
  | Ok obj, Ok filters =>
      filterObj ← pathsToObject filters;
      Some (let? r := filterObject (Object obj) (Object filterObj) in iter_on r)
  end.

(** ** json.patch *)
Inductive patch_op : Set := OpAdd | OpRemove | OpReplace | OpMove | OpCopy | OpTest.
Record jsonPatch : Type := MkPatch { p_op : patch_op; p_path : value; p_from : value; p_value : value }.

Inductive patch_error : Type :=
| NotAnObject
| MissingAttribute (attr : string)
| OpNotString
| UnrecognizedOp (op : string)
| PathErr (e : builtin_error)
| EditErr (e : et_error)
| TestFailed.

Definition valid_op (op : string) : option patch_op :=
  if String.eqb op "add" then Some OpAdd else if String.eqb op "remove" then Some OpRemove
  else if String.eqb op "replace" then Some OpReplace else if String.eqb op "move" then Some OpMove
  else if String.eqb op "copy" then Some OpCopy else if String.eqb op "test" then Some OpTest else None.

Definition getAttribute (o : list (value * value)) (attr : string) : res patch_error value :=
  match obj_get (Str attr) o with Some t => Ok t | None => Err (MissingAttribute attr) end.

(** Attributes that an operation does not use are left nil, here [Null]. *)
Definition getPatch (o : list (value * value)) : res patch_error jsonPatch :=
  let? opTerm := getAttribute o "op" in
  match opTerm with
  | Str op =>
      match valid_op op with
      | None => Err (UnrecognizedOp op)
      | Some op =>
          let? path := getAttribute o "path" in
          let? from := match op with OpMove | OpCopy => getAttribute o "from" | _ => Ok Null end in
          let? v := match op with OpAdd | OpReplace | OpTest => getAttribute o "value" | _ => Ok Null end in
          Ok (MkPatch op path from v)
      end
  | _ => Err OpNotString
  end.

Section Patch.
Context `{X : XXHash, MO : MapOrder}.

(** [x, err := f(et); if err != nil { return nil, err }; ...]. *)
Definition edit {A B} (r : option (EditTree * res et_error A))
    (k : EditTree -> A -> option (res patch_error B)) : option (res patch_error B) :=
  '(et, r) ← r; match r with Ok a => k et a | Err e => Some (Err (EditErr e)) end.

(** [Term.Equal] of a term that may be nil with one that is not. *)
Definition equal_term (chunk : option value) (v : value) : bool :=
  match chunk with Some t => Equal t v | None => false end.

Definition applyPatch (et : EditTree) (patch : jsonPatch) (path : list value) : option (res patch_error EditTree) :=
  match p_op patch with
  | OpAdd => edit (InsertAtPath et path (Some (p_value patch))) (fun et _ => Some (Ok et))
  | OpRemove => edit (DeleteAtPath et path) (fun et _ => Some (Ok et))
  | OpReplace =>
      edit (DeleteAtPath et path) (fun et _ =>
      edit (InsertAtPath et path (Some (p_value patch))) (fun et _ => Some (Ok et)))
  | OpMove =>
      match parsePath (p_from patch) with
      | Err e => Some (Err (PathErr e))
      | Ok from =>
          edit (RenderAtPath et from) (fun et chunk =>
          edit (DeleteAtPath et from) (fun et _ =>
          edit (InsertAtPath et path chunk) (fun et _ => Some (Ok et))))
      end
  | OpCopy =>
      match parsePath (p_from patch) with
      | Err e => Some (Err (PathErr e))
      | Ok from =>
          edit (RenderAtPath et from) (fun et chunk =>
          edit (InsertAtPath et path chunk) (fun et _ => Some (Ok et)))
      end
  | OpTest =>
      edit (RenderAtPath et path) (fun et chunk =>
        if equal_term chunk (p_value patch) then Some (Ok et) else Some (Err TestFailed))
  end.

Fixpoint patch_loop (et : EditTree) (operations : list value) : option (res patch_error EditTree) :=
  match operations with
  | [] => Some (Ok et)
  | Object object :: operations =>
      match getPatch object with
      | Err e => Some (Err e)
      | Ok patch =>
          match parsePath (p_path patch) with
          | Err e => Some (Err (PathErr e))
          | Ok path =>
              r ← applyPatch et patch path;
              match r with Ok et => patch_loop et operations | Err e => Some (Err e) end
          end
      end
  | _ :: _ => Some (Err NotAnObject)
  end.

(** The result may be the nil term. *)
Definition applyPatches (source : value) (operations : list value) : option (res patch_error (option value)) :=
  r ← patch_loop (NewEditTree source) operations;
  match r with Ok et => final ← Render et; Some (Ok final) | Err e => Some (Err e) end.

(** The outer [option] is for panics; the iterator is called on a term that may
    be nil, or not at all. *)
Definition builtinJSONPatch (target operations : value) : option (res builtin_error (option (option value))) :=
  match ArrayOperand operations 2 with
  | Err e => Some (Err e)
  | Ok operations =>
      r ← applyPatches target operations;
      match r with Ok patched => Some (Ok (Some patched)) | Err _ => Some (Ok None) end
  end.
End Patch.
