(* ===== verification/PatchSound.v ===== *)
(** Correctness of [json.patch] (definitions in JsonPatch.v and EditTree.v): a run
    of operations on an edit tree gives what the same operations give on the
    document, one after the other. *)
From Stdlib Require Import ZArith Lia String.
From stdpp Require Import base gmap list strings.
From S2P Require Import Prelude SortedKeys Value Containers SetTable ObjectTable RefOps Path Builtins Document BitVector EditTree EditArray EditTreeSound EditOps EditPaths JsonPatch.

(** ** The operations on documents

    A document is [None] once its root has been removed; the result is [None] when
    the operation is an error. *)
Definition doc_insert (path : list value) (v : value) (d : option value) : option (option value) :=
  match split_last path with
  | None => Some (Some v)
  | Some (dir, key) => t ← d; t ← at_path dir (put key v) t; Some (Some t)
  end.
Definition doc_delete (path : list value) (d : option value) : option (option value) :=
  match split_last path with
  | None => _ ← d; Some None
  | Some (dir, key) => t ← d; t ← at_path dir (cut key) t; Some (Some t)
  end.
Definition doc_get (path : list value) (d : option value) : option value := t ← d; get_path path t.

Definition parsed (t : value) : option (list value) := match parsePath t with Ok p => Some p | Err _ => None end.

Definition patch_doc (p : jsonPatch) (d : option value) : option (option value) :=
  path ← parsed (p_path p);
  match p_op p with
  | OpAdd => doc_insert path (p_value p) d
  | OpRemove => doc_delete path d
  | OpReplace => d ← doc_delete path d; doc_insert path (p_value p) d
  | OpMove => from ← parsed (p_from p); x ← doc_get from d; d ← doc_delete from d; doc_insert path x d
  | OpCopy => from ← parsed (p_from p); x ← doc_get from d; doc_insert path x d
  | OpTest => x ← doc_get path d; if Equal x (p_value p) then Some d else None
  end.

Fixpoint patches_doc (operations : list value) (d : option value) : option (option value) :=
  match operations with
  | [] => Some d
  | Object o :: operations =>
      match getPatch o with Ok p => d ← patch_doc p d; patches_doc operations d | Err _ => None end
  | _ => None
  end.

(** ** The runs on which the tree is right *)
Section Clean.
Context `{X : XXHash, MO : MapOrder}.

Definition clean_insert (et : EditTree) (path : list value) : bool :=
  match split_last path with Some (dir, key) => clean (ok_insert key) dir et | None => true end.
Definition clean_delete (et : EditTree) (path : list value) : bool :=
  match split_last path with Some (dir, key) => clean (ok_delete key) dir et | None => true end.
Definition clean_render (et : EditTree) (path : list value) : bool := clean (fun _ => true) path et.

Definition after {A} (r : option (EditTree * res et_error A)) (k : EditTree -> bool) : bool :=
  match r with Some (et, Ok _) => k et | _ => true end.

Definition clean_patch (et : EditTree) (p : jsonPatch) (path from : list value) : bool :=
  match p_op p with
  | OpAdd => clean_insert et path
  | OpRemove => clean_delete et path
  | OpReplace => clean_delete et path && after (DeleteAtPath et path) (fun et => clean_insert et path)
  | OpMove =>
      clean_render et from && after (RenderAtPath et from) (fun et =>
      clean_delete et from && after (DeleteAtPath et from) (fun et => clean_insert et path))
  | OpCopy => clean_render et from && after (RenderAtPath et from) (fun et => clean_insert et path)
  | OpTest => clean_render et path
  end.

Fixpoint clean_patches (et : EditTree) (operations : list value) : bool :=
  match operations with
  | Object o :: operations =>
      match getPatch o with
      | Ok p =>
          match parsed (p_path p) with
          | Some path =>
              clean_patch et p path (default [] (parsed (p_from p))) &&
              match applyPatch et p path with Some (Ok et) => clean_patches et operations | _ => true end
          | None => true
          end
      | Err _ => true
      end
  | _ => true
  end.

(** The segments of the paths are keys that hash consistently. *)
Definition segments_ok (t : value) : bool := match parsed t with Some p => forallb key_ok p | None => true end.
Definition operation_ok (op : value) : bool :=
  match op with
  | Object o => match getPatch o with Ok p => segments_ok (p_path p) && segments_ok (p_from p) | Err _ => true end
  | _ => true
  end.
End Clean.

(** ** Operations at a path *)
Section Patches.
Context `{X : XXHash, MO : MapOrder, MOK : !MapOrderOk MO}.

(** The tree stands for the document. *)
Definition stands (et : EditTree) (d : option value) : Prop :=
  match d with Some t => reps et t | None => et_value et = None end.

Lemma put_leaf key v t t' : isComposite t = false -> put key v t = Some t' -> Compare t t' = Eq.
Proof. by destruct t. Qed.
Lemma put_composite key v t t' : isComposite t = true -> put key v t = Some t' -> isComposite t' = true.
Proof.
  destruct t; try done; simpl; intros _.
  - destruct (toIndex _ key) as [i|]; simpl; [|done]. destruct (_ && _); [by intros [= <-]|done].
  - by intros [= <-].
  - destruct (Equal key v); [by intros [= <-]|done].
Qed.
Lemma cut_leaf key t t' : isComposite t = false -> cut key t = Some t' -> Compare t t' = Eq.
Proof. by destruct t. Qed.
Lemma cut_composite key t t' : isComposite t = true -> cut key t = Some t' -> isComposite t' = true.
Proof.
  destruct t; try done; simpl; intros _.
  - destruct (index_in key _) as [i|]; simpl; [by intros [= <-]|done].
  - destruct (obj_get key _); simpl; [by intros [= <-]|done].
  - destruct (set_mem key _); [by intros [= <-]|done].
Qed.

Lemma split_last_ok path dir key : path_ok path -> split_last path = Some (dir, key) -> path_ok dir /\ key_ok key = true /\ fits key.
Proof.
  unfold split_last. destruct path as [|x p _] using rev_ind; [done|]. rewrite last_snoc, removelast_last. intros H [= <- <-].
  apply Forall_app in H as [H1 H2]. by inversion_clear H2.
Qed.

Lemma Unfold_removed {A} (op : EditTree -> option (EditTree * res et_error A)) path e : et_value e = None ->
  Unfold op path e = match path with [] => op e | _ :: _ => Some (e, Err NilNode) end.
Proof. destruct path; simpl; [done|]. by intros ->. Qed.

Definition edited {A} (r : option (EditTree * res et_error A)) (d : option (option value)) : Prop :=
  match r with
  | Some (et', Ok _) => exists d', d = Some d' /\ stands et' d'
  | Some (_, Err _) => d = None
  | None => False
  end.

Lemma InsertAtPath_ok et d path v : stands et d -> path_ok path -> fits v -> clean_insert et path = true ->
  edited (InsertAtPath et path (Some v)) (doc_insert path v d).
Proof.
  intros S Hp Fv Cl. unfold InsertAtPath, doc_insert, clean_insert in *. destruct (split_last path) as [[dir key]|] eqn:E.
  - destruct (split_last_ok path dir key Hp E) as (Hd & Hk & _). destruct d as [t|]; simpl in S.
    + set (op := fun dest => _).
      assert (U : acts (put key v) (fun _ _ => True) dir t (Unfold op dir et)).
      { apply (Unfold_ok _ _ _ (ok_insert key)); [apply put_leaf|apply put_composite| |done..].
        intros e t0 R0 Ok0. unfold op. pose proof (tree_Insert_ok e t0 key v R0 Hk Fv Ok0) as I.
        destruct (Insert e key v) as [[e' [a|]]|]; [|done..]. split; [done|]. by exists t0. }
      cbn [mbind option_bind]. destruct (Unfold op dir et) as [[e' [a|]]|]; [|by simpl in *; rewrite U|done].
      destruct U as [(t' & -> & R) _]. by exists (Some t').
    + rewrite Unfold_removed by done. destruct dir; [|done]. unfold Insert. by rewrite S.
  - assert (R : reps (match v with
      | Array l => MkTree (Some v) ∅ ∅ ∅ (Some (zero_vector (length l))) (Some (zero_vector (length l)))
      | _ => MkTree (Some v) ∅ ∅ ∅ (eliminated et) (insertions et) end) v).
    { pose proof (cmp_refl Compare v) as C.
      destruct v; try (eapply reps_unedited; [done..| |done|done|done]; done). by apply (NewEditTree_reps (Array elems)). }
    destruct v; eexists; (split; [reflexivity|exact R]).
Qed.

Lemma DeleteAtPath_ok et d path : stands et d -> path_ok path -> clean_delete et path = true ->
  edited (DeleteAtPath et path) (doc_delete path d).
Proof.
  intros S Hp Cl. unfold DeleteAtPath, doc_delete, clean_delete in *. destruct (split_last path) as [[dir key]|] eqn:E.
  - destruct (split_last_ok path dir key Hp E) as (Hd & Hk & _). destruct d as [t|]; simpl in S.
    + assert (U : acts (cut key) (fun _ _ => True) dir t (Unfold (fun dest => Delete dest key) dir et)).
      { apply (Unfold_ok _ _ _ (ok_delete key)); [apply cut_leaf|apply cut_composite| |done..].
        intros e t0 R0 Ok0. pose proof (tree_Delete_ok e t0 key R0 Hk Ok0) as I.
        destruct (Delete e key) as [[e' [a|]]|]; [|done..]. split; [done|]. by exists t0. }
      cbn [mbind option_bind]. destruct (Unfold _ dir et) as [[e' [a|]]|]; [|by simpl in *; rewrite U|done].
      destruct U as [(t' & -> & R) _]. by exists (Some t').
    + rewrite Unfold_removed by done. destruct dir; [|done]. unfold Delete. by rewrite S.
  - destruct d as [t|]; simpl in S.
    + destruct (reps_value et t S) as (x & -> & _). by exists None.
    + by rewrite S.
Qed.

(** Looking does not change the term. *)
Lemma at_path_same path t : fits t -> path_ok path ->
  match get_path path t with
  | Some _ => exists t', at_path path Some t = Some t' /\ Compare t t' = Eq
  | None => at_path path Some t = None
  end.
Proof.
  intros Ft Hp. revert t Ft. induction Hp as [|key path [Hk Fk] Hp IH]; intros t Ft.
  { exists t. split; [done|apply (cmp_refl Compare)]. }
  destruct t; try done; cbn [get_path at_path].
  - destruct (index_in key _) as [i|]; cbn [mbind option_bind]; [|done]. destruct (elems !! i) as [w|] eqn:Ew; cbn [mbind option_bind]; [|done].
    apply fits_array_inv in Ft as [_ Ft]. specialize (IH w (Forall_lookup_1 _ _ _ _ Ft Ew)). destruct (get_path path w); [|by rewrite IH].
    destruct IH as (w' & -> & C). eexists. split; [done|]. by apply (list_insert_equal i w' w).
  - destruct (obj_get key _) as [w|] eqn:Ew; cbn [mbind option_bind]; [|done]. specialize (IH w (fits_get _ _ _ Ft Ew)).
    destruct (get_path path w); [|by rewrite IH]. destruct IH as (w' & -> & C). eexists. split; [done|]. by apply (obj_insert_equal key w' w).
  - destruct (set_mem key _) eqn:Hm; [|done]. specialize (IH key Fk). destruct (get_path path key); [|by rewrite IH].
    destruct IH as (w' & -> & C). eexists. split; [done|]. by apply set_replace_equal.
Qed.

Lemma RenderAtPath_ok et d path : stands et d -> path_ok path -> clean_render et path = true ->
  match RenderAtPath et path with
  | Some (et', Ok (Some c)) => stands et' d /\ fits c /\ oeq (Some c) (doc_get path d)
  | Some (et', Ok None) => path = [] /\ d = None /\ stands et' None
  | Some (_, Err _) => doc_get path d = None
  | None => False
  end.
Proof.
  intros S Hp Cl. unfold RenderAtPath, doc_get, clean_render in *. destruct d as [t|]; simpl in S; cbn [mbind option_bind].
  - set (op := fun dest => _).
    assert (U : acts Some (fun w (c : option value) => exists c', c = Some c' /\ fits c' /\ Compare c' w = Eq) path t (Unfold op path et)).
    { apply (Unfold_ok _ _ _ (fun _ => true)); [by intros ?? _ [= <-]; apply (cmp_refl Compare)|by intros ??? [= <-]| |done..].
      intros e t0 R0 _. unfold op. destruct (Render_ok e t0 R0) as (t' & -> & Ft & C). simpl. split; [by exists t0|].
      exists t0. split; [done|]. by exists t'. }
    pose proof (at_path_same path t (reps_fits _ _ S) Hp) as Sm. destruct (Unfold op path et) as [[et' [c|]]|]; [| |done].
    + destruct U as [(t' & E & R) (t0 & G & c' & -> & Fc & C)]. rewrite G in *. destruct Sm as (t1 & E1 & C1).
      assert (t1 = t') as -> by congruence. split_ands; [|done..].
      apply (reps_equal et' t' R t (reps_fits _ _ S)). by apply (cmp_eq_sym Compare).
    + simpl in U. destruct (get_path path t); [|done]. destruct Sm as (? & ? & _). congruence.
  - rewrite Unfold_removed by done. destruct path; [|done]. rewrite Render_unfold, S. done.
Qed.

(** ** Equal values *)
Lemma obj_insert_congr key v v' o : kv_sorted o -> Compare v v' = Eq ->
  Compare (Object (obj_insert key v o)) (Object (obj_insert key v' o)) = Eq.
Proof.
  intros So C. apply object_ext; [by apply obj_insert_sorted..|]. intros q. rewrite !obj_get_insert by done.
  destruct (Equal q key); [done|apply oeq_refl].
Qed.
Lemma set_insert_congr v v' m : ssorted Compare id m -> Compare v v' = Eq -> Compare (SetV (set_insert v m)) (SetV (set_insert v' m)) = Eq.
Proof.
  intros Sm C. apply set_ext; [by apply set_insert_ssorted..|]. intros q. rewrite !set_mem_insert by done.
  by rewrite (Equal_sym q v), (Equal_sym q v'), (Equal_cong v v' q) by (by apply Equal_true).
Qed.
Lemma array_congr (l l' : list value) : Forall2 (fun x y => Compare x y = Eq) l l' -> Compare (Array l) (Array l') = Eq.
Proof. intros H. simpl. by apply slice_compare_eq_iff. Qed.
Lemma Forall2_refl (l : list value) : Forall2 (fun x y => Compare x y = Eq) l l.
Proof. induction l; constructor; [apply (cmp_refl Compare)|done]. Qed.

Lemma put_congr key v v' t : fits t -> Compare v v' = Eq -> oeq (put key v t) (put key v' t).
Proof.
  intros Ft C. destruct t; try done; simpl.
  - destruct (toIndex _ key) as [i|]; simpl; [|done]. destruct (_ && _); [|done]. apply array_congr. unfold insert_at.
    apply Forall2_app; [apply Forall2_refl|]. constructor; [done|apply Forall2_refl].
  - apply obj_insert_congr; [|done]. by apply fits_object_inv in Ft as [].
  - apply fits_set_inv in Ft as [Sm _]. rewrite (Equal_sym key v), (Equal_sym key v'), (Equal_cong v v' key) by (by apply Equal_true).
    destruct (Equal v' key); [|done]. by apply set_insert_congr.
Qed.

Lemma at_path_congr path f g t : (forall t, fits t -> oeq (f t) (g t)) -> path_ok path -> fits t ->
  oeq (at_path path f t) (at_path path g t).
Proof.
  intros H Hp. revert t. induction Hp as [|key path [Hk Fk] Hp IH]; intros t Ft; [by apply H|]. destruct t; try done; cbn [at_path].
  - destruct (index_in key _) as [i|]; cbn [mbind option_bind]; [|done]. destruct (elems !! i) as [w|] eqn:Ew; cbn [mbind option_bind]; [|done].
    apply fits_array_inv in Ft as [_ Ft]. specialize (IH w (Forall_lookup_1 _ _ _ _ Ft Ew)).
    destruct (at_path path f w) as [a|], (at_path path g w) as [b|]; cbn [mbind option_bind]; try done.
    apply array_congr, Forall2_insert; [apply Forall2_refl|done].
  - destruct (obj_get key _) as [w|] eqn:Ew; cbn [mbind option_bind]; [|done]. specialize (IH w (fits_get _ _ _ Ft Ew)).
    destruct (at_path path f w) as [a|], (at_path path g w) as [b|]; cbn [mbind option_bind]; try done.
    apply obj_insert_congr; [|done]. by apply fits_object_inv in Ft as [].
  - destruct (set_mem key _); [|done]. specialize (IH key Fk).
    destruct (at_path path f key) as [a|], (at_path path g key) as [b|]; cbn [mbind option_bind]; try done.
    apply set_insert_congr; [|done]. apply (fits_set_remove key) in Ft. by apply fits_set_inv in Ft as [].
Qed.

Lemma get_path_fits path t w : path_ok path -> fits t -> get_path path t = Some w -> fits w.
Proof.
  intros Hp. revert t. induction Hp as [|key path [Hk Fk] Hp IH]; intros t Ft; [by intros [= <-]|]. destruct t; try done; cbn [get_path].
  - destruct (index_in key _) as [i|]; cbn [mbind option_bind]; [|done]. destruct (elems !! i) as [x|] eqn:Ex; cbn [mbind option_bind]; [|done].
    apply fits_array_inv in Ft as [_ Ft]. apply IH. by apply (Forall_lookup_1 _ _ _ _ Ft Ex).
  - destruct (obj_get key _) as [x|] eqn:Ex; cbn [mbind option_bind]; [|done]. apply IH. by apply (fits_get _ _ _ Ft Ex).
  - destruct (set_mem key _); [|done]. by apply IH.
Qed.

(** Inserting an equal value stands for the same document. *)
Lemma InsertAtPath_equal et d path c x : stands et d -> path_ok path -> fits c -> fits x -> Compare c x = Eq ->
  clean_insert et path = true -> edited (InsertAtPath et path (Some c)) (doc_insert path x d).
Proof.
  intros S Hp Fc Fx C Cl. pose proof (InsertAtPath_ok et d path c S Hp Fc Cl) as I. pose proof (InsertAtPath_ok et d path x S Hp Fx Cl) as Ix.
  assert (E : match doc_insert path c d, doc_insert path x d with
              | Some (Some t), Some (Some t') => Compare t t' = Eq | None, None => True | _, _ => False end).
  { unfold doc_insert. destruct (split_last path) as [[dir key]|] eqn:Es; [|done]. destruct d as [t|]; [|done]. cbn [mbind option_bind].
    destruct (split_last_ok path dir key Hp Es) as (Hd & _).
    pose proof (at_path_congr dir (put key c) (put key x) t (fun t Ft => put_congr key c x t Ft C) Hd (reps_fits _ _ S)) as A.
    by destruct (at_path dir _ t), (at_path dir _ t). }
  unfold edited in *. destruct (InsertAtPath et path (Some c)) as [[e' [a|]]|]; [| |done].
  - destruct I as (d1 & E1 & S1). rewrite E1 in E. destruct d1 as [t1|]; [|by destruct (doc_insert path x d) as [[]|]].
    destruct (doc_insert path x d) as [[t2|]|] eqn:E2; try done. exists (Some t2). split; [done|]. simpl in S1 |- *.
    apply (reps_equal e' t1 S1); [|done]. destruct (InsertAtPath et path (Some x)) as [[e2 [a2|]]|]; try done.
    destruct Ix as (d2 & [= <-] & S2). by apply (reps_fits e2).
  - rewrite I in E. by destruct (doc_insert path x d) as [[]|].
Qed.

(** ** Runs *)
Definition patched (r : option (res patch_error EditTree)) (d : option (option value)) : Prop :=
  match r with
  | Some (Ok et) => exists d', d = Some d' /\ stands et d'
  | Some (Err _) => d = None
  | None => False
  end.

Lemma edit_ok {A} (r : option (EditTree * res et_error A)) k d kd : edited r d ->
  (forall et a d', r = Some (et, Ok a) -> stands et d' -> patched (k et a) (kd d')) -> patched (edit r k) (d ≫= kd).
Proof.
  intros E H. unfold edit. destruct r as [[et [a|]]|]; cbn [mbind option_bind]; [| |done].
  - destruct E as (d' & -> & S). cbn [mbind option_bind]. by apply (H et a).
  - simpl in E. by rewrite E.
Qed.

Lemma edit_last {A} (r : option (EditTree * res et_error A)) d : edited r d -> patched (edit r (fun et _ => Some (Ok et))) d.
Proof. destruct r as [[et [a|]]|]; done. Qed.

Lemma applyPatch_ok et d p path from : stands et d -> parsed (p_path p) = Some path -> default [] (parsed (p_from p)) = from ->
  path_ok path -> path_ok from -> fits (p_value p) -> clean_patch et p path from = true ->
  patched (applyPatch et p path) (patch_doc p d).
Proof.
  intros S Ep Ef Hp Hf Fv Cl. unfold applyPatch, patch_doc, clean_patch in *. rewrite Ep. cbn [mbind option_bind]. unfold parsed in Ef.
  assert (Get : forall path x, path_ok path -> doc_get path d = Some x -> fits x).
  { intros q x Hq. destruct d as [t|]; [|done]. by apply get_path_fits, (reps_fits et). }
  destruct (p_op p) eqn:Eo.
  - by apply edit_last, InsertAtPath_ok.
  - by apply edit_last, DeleteAtPath_ok.
  - apply andb_true_iff in Cl as [C1 C2]. apply edit_ok; [by apply DeleteAtPath_ok|]. intros et' a d' E S'.
    rewrite E in C2. by apply edit_last, InsertAtPath_ok.
  - unfold parsed. destruct (parsePath (p_from p)) as [q|]; [|done]. simpl in Ef. subst q. cbn [mbind option_bind].
    apply andb_true_iff in Cl as [C1 C2]. pose proof (RenderAtPath_ok et d from S Hf C1) as R. unfold edit at 1.
    destruct (RenderAtPath et from) as [[et1 [[c|]|]]|]; cbn [mbind option_bind]; [| |by rewrite R|done].
    + destruct R as (S1 & Fc & Oc). destruct (doc_get from d) as [x|] eqn:Eg; [|done]. cbn [mbind option_bind].
      apply andb_true_iff in C2 as [C2 C3]. apply edit_ok; [by apply DeleteAtPath_ok|]. intros et2 a d2 E2 S2. rewrite E2 in C3.
      apply edit_last, InsertAtPath_equal; try done. by apply (Get from).
    + destruct R as (-> & -> & S1). simpl in S1. unfold edit, DeleteAtPath. simpl. by rewrite S1.
  - unfold parsed. destruct (parsePath (p_from p)) as [q|]; [|done]. simpl in Ef. subst q. cbn [mbind option_bind].
    apply andb_true_iff in Cl as [C1 C2]. pose proof (RenderAtPath_ok et d from S Hf C1) as R. unfold edit at 1.
    destruct (RenderAtPath et from) as [[et1 [[c|]|]]|]; cbn [mbind option_bind]; [| |by rewrite R|done].
    + destruct R as (S1 & Fc & Oc). destruct (doc_get from d) as [x|] eqn:Eg; [|done]. cbn [mbind option_bind].
      apply edit_last, InsertAtPath_equal; try done. by apply (Get from).
    + by destruct R as (-> & -> & S1).
  - pose proof (RenderAtPath_ok et d path S Hp Cl) as R. unfold edit.
    destruct (RenderAtPath et path) as [[et1 [[c|]|]]|]; cbn [mbind option_bind equal_term]; [| |by rewrite R|done].
    + destruct R as (S1 & Fc & Oc). destruct (doc_get path d) as [x|]; [|done]. cbn [mbind option_bind]. simpl in Oc.
      rewrite (Equal_cong c x (p_value p)) by (by apply Equal_true). destruct (Equal x (p_value p)); [by exists d|done].
    + by destruct R as (-> & -> & S1).
Qed.

(** What the operations of a patch hold. *)
Lemma getAttribute_fits o attr t : fits (Object o) -> getAttribute o attr = Ok t -> fits t.
Proof. unfold getAttribute. destruct (obj_get _ o) as [x|] eqn:E; [|done]. intros F [= <-]. by apply (fits_get _ _ _ F E). Qed.

Lemma getPatch_fits o p : fits (Object o) -> getPatch o = Ok p -> fits (p_path p) /\ fits (p_from p) /\ fits (p_value p).
Proof.
  intros F. unfold getPatch. destruct (getAttribute o "op") as [[| | |op| | | | | | | | | ]|]; try done. simpl.
  destruct (valid_op op) as [k|]; [|done]. destruct (getAttribute o "path") as [a|] eqn:Ea; [|done]. simpl.
  assert (Fn : fits Null) by (by apply fits_leaf).
  destruct k; simpl; (destruct (getAttribute o "from") as [b|] eqn:Eb; simpl); (destruct (getAttribute o "value") as [c|] eqn:Ec; simpl);
    try done; intros [= <-]; simpl; split_ands; try done; by eapply getAttribute_fits.
Qed.

Lemma parsed_ok t : fits t -> segments_ok t = true -> path_ok (default [] (parsed t)).
Proof.
  unfold segments_ok, parsed, path_ok, parsePath. intros F. destruct t as [| | |s| | |l| | | | | | ]; simpl; try by constructor.
  - destruct (String.eqb s EmptyString); [by constructor|]. intros _. cbn [default]. apply Forall_forall.
    intros k (part & -> & _)%list_elem_of_fmap. split; [done|by apply fits_leaf].
  - intros H. rewrite forallb_forall in H. apply fits_array_inv in F as [_ F]. rewrite Forall_forall in F |- *.
    intros k Hk. split; [|by apply F]. by apply H, list_elem_of_In.
Qed.

Lemma patch_loop_ok operations : forall et d, stands et d -> Forall fits operations -> forallb operation_ok operations = true ->
  clean_patches et operations = true -> patched (patch_loop et operations) (patches_doc operations d).
Proof.
  induction operations as [|op operations IH]; intros et d S F Ok Cl; [by exists d|].
  inversion_clear F as [|? ? Fo Fs]. cbn [forallb] in Ok. apply andb_true_iff in Ok as [Oo Os]. destruct op; try done.
  cbn [patch_loop patches_doc clean_patches operation_ok] in *. destruct (getPatch _) as [p|] eqn:Eg; [|done].
  destruct (getPatch_fits _ p Fo Eg) as (Fp & Ff & Fv). apply andb_true_iff in Oo as [O1%(parsed_ok _ Fp) O2%(parsed_ok _ Ff)].
  destruct (parsed (p_path p)) as [path|] eqn:Ep.
  - apply andb_true_iff in Cl as [C1 C2]. pose proof (applyPatch_ok et d p path _ S Ep eq_refl O1 O2 Fv C1) as A.
    assert (Ep' : parsePath (p_path p) = Ok path) by (unfold parsed in Ep; destruct (parsePath _); congruence). rewrite Ep'.
    destruct (applyPatch et p path) as [[et'|]|]; cbn [mbind option_bind]; [| |done].
    + destruct A as (d' & -> & S'). by apply IH.
    + simpl in A. by rewrite A.
  - unfold patch_doc. rewrite Ep. unfold parsed in Ep. by destruct (parsePath _).
Qed.

(** ** A single operation

    On a tree without edits every path is safe. *)
Lemma fresh_index l idx : fits (Array l) -> (0 <= idx < Z.of_nat (length l))%Z ->
  let z := zero_vector (length l) in aligned z z idx = true.
Proof.
  intros [Ll _]%fits_array_inv Hi z. destruct (zero_vector_ok (length l) Ll) as [W B]. rewrite <- (Z2Nat.id idx) by lia. set (i := Z.to_nat idx).
  assert (Hl : (i < length l)%nat) by (unfold i; lia). fold z in W, B. unfold aligned.
  assert (T : zeros (take i (bits z)) = i) by (rewrite B, take_replicate, Nat.min_l by lia; apply zeros_replicate).
  rewrite (sumZeroesBelowIndex_ok z i W), T by (rewrite B, length_replicate; lia).
  destruct (findIndexOfNthZero_ok z i W) as (j & Ej & Zj & ->); [rewrite B, zeros_replicate; lia|].
  pose proof (lookup_lt_Some _ _ _ Ej) as Hj. rewrite B, length_replicate in Hj. rewrite B, take_replicate, Nat.min_l, zeros_replicate in Zj by lia.
  subst. apply Z.eqb_refl.
Qed.

Lemma forallb_all {B} (p : B -> bool) l : (forall x, p x = true) -> forallb p l = true.
Proof. intros H. by apply forallb_forall. Qed.

Lemma no_children v : childKeys (NewEditTree v) = ∅ /\ childScalarValues (NewEditTree v) = ∅ /\ childCompositeValues (NewEditTree v) = ∅ /\
  et_value (NewEditTree v) = Some v.
Proof. by destruct v. Qed.

Lemma fresh_clash v ins idx : clash_free_up (NewEditTree v) ins idx = true /\ clash_free_down (NewEditTree v) ins idx = true.
Proof.
  unfold clash_free_up, clash_free_down. destruct (no_children v) as (_ & -> & -> & _).
  split; apply forallb_all; intros j; by rewrite !lookup_empty.
Qed.

Lemma fresh_key v key : getKeyHash (NewEditTree v) key = Some (Hash key, false).
Proof. unfold getKeyHash. destruct (no_children v) as (-> & _). simpl. by rewrite lookup_empty. Qed.

Lemma clean_fresh ok path v : path_ok path -> fits v -> (forall w, get_path path v = Some w -> ok (NewEditTree w) = true) ->
  clean ok path (NewEditTree v) = true.
Proof.
  intros Hp. revert v. induction Hp as [|key path [Hk Fk] Hp IH]; intros v Fv Ok; [by apply Ok|].
  cbn [clean]. rewrite fresh_key. destruct (no_children v) as (Ks & Ss & Cs & Vs). unfold roomy. rewrite Ks, Ss, Cs, Vs. cbn [andb].
  destruct v; try done; cbn [get_path] in Ok.
  - change (insertions _) with (Some (zero_vector (length elems))). change (eliminated _) with (Some (zero_vector (length elems))).
    apply fits_array_inv in Fv as Fl. destruct Fl as [Ll Fl].
    destruct (zero_vector_ok (length elems) Ll) as [W B]. rewrite (Length_bits _ W), B, length_replicate.
    unfold index_in in Ok. destruct (toIndex _ key) as [idx|]; [|done]. rewrite !lookup_empty. cbn [found orb mbind option_bind] in *.
    destruct ((0 <=? idx)%Z && (idx <? Z.of_nat (length elems))%Z) eqn:Hi; [|done].
    rewrite fresh_index by (done || lia). destruct (fresh_clash (Array elems) (zero_vector (length elems)) idx) as [_ Cd].
    destruct (fresh_clash (Array elems) (zero_vector (length elems)) (idx + 1)) as [Cu _]. rewrite Cd, Cu. cbn [andb].
    destruct (elems !! Z.to_nat idx) as [w|] eqn:Ew; [|done]. cbn [mbind option_bind] in Ok. rewrite Ew in Ok. apply IH; [|by apply Ok].
    by apply (Forall_lookup_1 _ _ _ _ Fl Ew).
  - destruct (obj_get key _) as [w|] eqn:Ew; [|done]. apply IH; [by apply (fits_get _ _ _ Fv Ew)|by apply Ok].
  - pose proof (NewEditTree_reps _ _ Fv Fv (cmp_refl Compare _)) as R. destruct (collapse_ok _ _ R) as (e0 & l0 & -> & (Ev & _) & _ & M & _).
    rewrite Ev. cbn [mbind option_bind Find]. rewrite M. destruct (set_mem key _); [|by destruct (isComposite key)].
    rewrite IH by (done || by apply Ok). by destruct (isComposite key).
Qed.

Definition agrees (r : option (res patch_error (option value))) (d : option (option value)) : Prop :=
  match r, d with
  | Some (Ok final), Some d => oeq final d
  | Some (Err _), None => True
  | _, _ => False
  end.

Lemma applyPatches_ok source operations : fits source -> Forall fits operations -> forallb operation_ok operations = true ->
  clean_patches (NewEditTree source) operations = true -> agrees (applyPatches source operations) (patches_doc operations (Some source)).
Proof.
  intros Fs Fo Ok Cl. pose proof (NewEditTree_reps source source Fs Fs (cmp_refl Compare source)) as R.
  pose proof (patch_loop_ok operations _ (Some source) R Fo Ok Cl) as P. unfold applyPatches.
  destruct (patch_loop _ operations) as [[et|]|]; cbn [mbind option_bind]; [| |done].
  - destruct P as (d & -> & S). destruct d as [t|]; simpl in S.
    + destruct (Render_ok et t S) as (t' & -> & _ & C). done.
    + rewrite Render_unfold, S. done.
  - simpl in P. by rewrite P.
Qed.


(** The array that the path inserts into can take one more element. *)
Definition room (path : list value) (t : value) : bool :=
  match split_last path with
  | Some (dir, _) => match get_path dir t with Some (Array l) => (Z.of_nat (length l) + 1 <? 2 ^ 32)%Z | _ => true end
  | None => true
  end.
Definition one_edit (op : patch_op) : bool := match op with OpAdd | OpRemove | OpTest => true | _ => false end.

Lemma fresh_ok_insert key w : (forall l, w = Array l -> (Z.of_nat (length l) + 1 < 2 ^ 32)%Z) -> ok_insert key (NewEditTree w) = true.
Proof.
  intros H. unfold ok_insert. destruct (no_children w) as (Ks & _ & _ & Vs). unfold roomy. rewrite Ks, Vs. destruct w; try done.
  change (insertions _) with (Some (zero_vector (length elems))). cbn iota beta. destruct (toIndex _ key) as [idx|]; [|done].
  rewrite (proj1 (fresh_clash _ _ idx)). specialize (H elems eq_refl). destruct (zero_vector_ok (length elems) ltac:(lia)) as [W B].
  rewrite (Length_bits _ W), B, length_replicate. cbn [andb]. by apply Z.ltb_lt.
Qed.
Lemma fresh_ok_delete key w : ok_delete key (NewEditTree w) = true.
Proof.
  unfold ok_delete. destruct (no_children w) as (Ks & _ & _ & Vs). unfold roomy. rewrite Ks, Vs. destruct w; try done.
  change (insertions _) with (Some (zero_vector (length elems))). cbn iota beta. destruct (toIndex _ key) as [idx|]; [|done].
  by rewrite (proj2 (fresh_clash _ _ idx)).
Qed.

End Patches.

(** ** Examples *)
Definition ex_num (z : Z) : value := Number (NInt z).
Definition ex_op (op path : string) (v : value) : value :=
  Object [(Str "op", Str op); (Str "path", Str path); (Str "value", v)].
Definition ex_from (op path from : string) : value :=
  Object [(Str "from", Str from); (Str "op", Str op); (Str "path", Str path)].
Definition ex_path (op : string) (path : list value) (v : value) : value :=
  Object [(Str "op", Str op); (Str "path", Array path); (Str "value", v)].
Definition ex_doc : value := Object [(Str "a", Array [ex_num 1; Object [(Str "b", ex_num 2)]; ex_num 3]); (Str "s", Str "x")].
Definition ex_ops : list value :=
  [ex_op "replace" "/s" (Str "y"); ex_op "add" "/a/1/c" (ex_num 7); ex_from "move" "/z" "/a/0"; ex_from "copy" "/a/-" "/a/0/b";
   ex_op "test" "/a/0/c" (ex_num 7); ex_op "remove" "/a/1" Null].
Definition patch (source : value) (operations : list value) : option (res patch_error (option value)) :=
  @applyPatches xx_length sorted_order source operations.

Ltac solve_fits :=
  repeat first
    [ apply fits_leaf; reflexivity
    | apply fits_array; [reflexivity|]
    | apply fits_object; [repeat constructor|]
    | apply fits_set; [repeat constructor|]
    | apply Forall_cons_2
    | apply Forall_nil_2 ].



(** runs of several operations on which the code leaves the meaning of
    [json.patch], so that [clean_patches] is needed.  After an insertion before it,
    an array element is looked up at its new index in the old array, and the
    duplicate replaces its neighbour.  A scalar that moves over a composite is lost,
    which makes the next rendering panic.  A path through a removed member of a set
    panics. *)
Theorem patch_divergence :
  let one := ex_num 1 in let two := ex_num 2 in
  let shifted := [ex_op "add" "/0" (Str "x"); ex_op "add" "/1/0" (ex_num 5)] in
  let moved := [ex_op "add" "/0" (Str "a"); ex_op "add" "/1" (Array []); ex_op "add" "/0" (Str "b")] in
  let removed := [ex_path "remove" [one] Null; ex_path "test" [one] one] in
  (patch (Array [Array [one]; Array [two]]) shifted = Some (Ok (Some (Array [Str "x"; Array [ex_num 5; two]; Array [two]]))) /\
   patches_doc shifted (Some (Array [Array [one]; Array [two]])) =
     Some (Some (Array [Str "x"; Array [ex_num 5; one]; Array [two]]))) /\
  (patch (Array []) moved = None /\
   patches_doc moved (Some (Array [])) = Some (Some (Array [Str "b"; Str "a"; Array []]))) /\
  (patch (SetV [one; two]) removed = None /\ patches_doc removed (Some (SetV [one; two])) = None).
Proof. vm_compute. repeat split. Qed.
