(* ===== verification/JsonPaths.v ===== *)
(** Correctness of [json.remove] (definitions in JsonPatch.v): the object that the
    paths are merged into stands for the set of paths, and the removal omits what
    the paths lead to, level by level. *)
From Stdlib Require Import ZArith Lia String.
From stdpp Require Import base gmap list strings pretty.
From S2P Require Import Prelude SortedKeys Value Containers SetTable ObjectTable RefOps Path Builtins Document EditTreeSound JsonPatch.

(** ** The meaning of a list of paths *)

(** What is left of the paths below [k]. *)
Definition tail_of (k : value) (p : list value) : option (list value) :=
  match p with k' :: p' => if Equal k k' then Some p' else None | [] => None end.
Definition tails (k : value) (paths : list (list value)) : list (list value) := omap (tail_of k) paths.
(** Some path ends here. *)
Definition ends (paths : list (list value)) : bool :=
  existsb (fun p => match p with [] => true | _ :: _ => false end) paths.

(** [a] without the values at the ends of the paths.  An element of an array is under
    its index written as a string, a member of a set under itself. *)
Fixpoint without (paths : list (list value)) (a : value) {struct a} : value :=
  let below k (f : list (list value) -> value) : list value := let ts := tails k paths in if ends ts then [] else [f ts] in
  match a with
  | Object kvs => Object (flat_map (fun kv => map (pair kv.1) (below kv.1 (fun ts => without ts kv.2))) kvs)
  | SetV l => SetV (set_of (flat_map (fun v => below v (fun ts => without ts v)) l))
  | Array l =>
      Array (flat_map (fun ir => below (Str (pretty (N.of_nat ir.1))) ir.2)
               (combine (seq 0 (length l)) (map (fun v ts => without ts v) l)))
  | _ => a
  end.

(** JSON documents, with sets. *)
Inductive json_term : value -> Prop :=
| jt_scalar v : match v with Null | Boolean _ | Number _ | Str _ => True | _ => False end -> json_term v
| jt_array l : Forall json_term l -> json_term (Array l)
| jt_object kvs : kv_sorted kvs -> Forall (fun kv => json_term kv.2) kvs -> json_term (Object kvs)
| jt_set l : ssorted Compare id l -> Forall json_term l -> json_term (SetV l).

Lemma json_term_induction (P : value -> Prop) :
  (forall v, match v with Null | Boolean _ | Number _ | Str _ => True | _ => False end -> P v) ->
  (forall l, Forall json_term l -> Forall P l -> P (Array l)) ->
  (forall kvs, kv_sorted kvs -> Forall (fun kv => P kv.2) kvs -> P (Object kvs)) ->
  (forall l, ssorted Compare id l -> Forall P l -> P (SetV l)) -> forall v, json_term v -> P v.
Proof.
  intros HL HA HO HS. apply (value_composite_ind (fun v => json_term v -> P v)). intros v IH Hv.
  destruct Hv as [v Hv|l Hl|kvs S Hk|l S Hl].
  - by apply HL.
  - apply HA; [done|]. rewrite Forall_forall in *. auto.
  - apply HO; [done|]. rewrite Forall_forall in *. intros kv Hkv. by apply IH, Hk.
  - apply HS; [done|]. rewrite Forall_forall in *. auto.
Qed.

(** ** The object of the paths *)
Inductive trie : list (list value) -> list (value * value) -> Prop :=
| trie_node paths o : kv_sorted o ->
    (forall k, match obj_get k o with
       | None => tails k paths = []
       | Some Null => ends (tails k paths) = true
       | Some (Object _) => tails k paths <> [] /\ ends (tails k paths) = false
       | Some _ => False
       end) ->
    (forall k o', obj_get k o = Some (Object o') -> trie (tails k paths) o') -> trie paths o.

Lemma tails_congr k k' paths : Compare k k' = Eq -> tails k paths = tails k' paths.
Proof.
  intros C. unfold tails. induction paths as [|p paths IH]; csimpl; [done|]. rewrite IH. destruct p as [|x p]; simpl; [done|].
  by rewrite (Equal_cong k k' x) by (by apply Equal_true).
Qed.

Lemma tails_snoc k paths p : tails k (paths ++ [p]) = tails k paths ++ match tail_of k p with Some t => [t] | None => [] end.
Proof. unfold tails. rewrite omap_app. simpl. by destruct (tail_of k p). Qed.

Lemma ends_app a b : ends (a ++ b) = ends a || ends b.
Proof. apply existsb_app. Qed.

Lemma trie_empty : trie [] [].
Proof. constructor; [constructor|done..]. Qed.

(** A path that is already covered, or empty, changes nothing. *)
Lemma trie_same paths o p : trie paths o -> (forall k t, tail_of k p = Some t -> obj_get k o = Some Null) -> trie (paths ++ [p]) o.
Proof.
  destruct 1 as [paths o S M R]. intros H. constructor; [done|intros k; specialize (M k)|intros k o' E; specialize (R k o' E)]; rewrite tails_snoc.
  - destruct (tail_of k p) as [t|] eqn:T; [|by rewrite app_nil_r]. rewrite (H k t T) in *. by rewrite ends_app, M.
  - destruct (tail_of k p) as [t|] eqn:T; [|by rewrite app_nil_r]. by rewrite (H k t T) in E.
Qed.

(** A new value under the head of the path. *)
Lemma trie_insert paths o k0 t0 v : trie paths o ->
  match v with Null => ends (tails k0 paths ++ [t0]) = true
  | Object o' => ends (tails k0 paths ++ [t0]) = false /\ trie (tails k0 paths ++ [t0]) o' | _ => False end ->
  trie (paths ++ [k0 :: t0]) (obj_insert k0 v o).
Proof.
  destruct 1 as [paths o S M R]. intros H. constructor; [by apply obj_insert_sorted|intros k; specialize (M k)|intros k o'; specialize (R k o')];
    rewrite tails_snoc, obj_get_insert by done; simpl tail_of; (destruct (Equal k k0) eqn:E; [|by rewrite ?app_nil_r]);
    apply Equal_true in E; rewrite (tails_congr k k0 paths E).
  - destruct v; try done. destruct H as [H _]. split; [|done]. by destruct (tails k0 paths).
  - intros [= ->]. by destruct H.
Qed.

Lemma insert_path_ok p : forall paths o, trie paths o -> exists o', insert_path o p = Some o' /\ trie (paths ++ [p]) o'.
Proof.
  induction p as [|k p IH]; intros paths o T; [by exists o; split; [|by apply trie_same]|]. destruct p as [|k2 p].
  { eexists. split; [done|]. apply trie_insert; [done|]. by rewrite ends_app, orb_true_r. }
  inversion T as [? ? S M R]; subst. specialize (M k). cbn [insert_path].
  destruct (obj_get k o) as [[| | | | | | |o1| | | | | ]|] eqn:E; try done.
  - exists o. split; [done|]. apply trie_same; [done|]. intros q t. simpl. destruct (Equal q k) eqn:Q; [|done].
    intros _. apply Equal_true in Q. by rewrite (obj_get_congr q k o Q).
  - destruct (IH _ o1 (R k o1 E)) as (o2 & E2 & T2). cbn [insert_path] in E2. rewrite E2. cbn [mbind option_bind]. eexists. split; [done|].
    apply trie_insert; [done|]. split; [|done]. rewrite ends_app. destruct M as [_ ->]. done.
  - destruct (IH [] [] trie_empty) as (o2 & E2 & T2). cbn [insert_path] in E2. rewrite E2. cbn [mbind option_bind]. eexists. split; [done|].
    apply trie_insert; [done|]. rewrite M. by split.
Qed.

Lemma pathsToObject_ok paths : exists o, pathsToObject paths = Some o /\ trie paths o.
Proof.
  unfold pathsToObject. enough (G : forall done o, trie done o -> exists o', insert_paths o paths = Some o' /\ trie (done ++ paths) o') by
    apply (G [] [] trie_empty).
  induction paths as [|p paths IH]; intros done o T; simpl; [exists o; by rewrite app_nil_r|].
  destruct (insert_path_ok p done o T) as (o1 & -> & T1). cbn [mbind option_bind].
  destruct (IH (done ++ [p]) o1 T1) as (o2 & -> & T2). exists o2. by rewrite <- app_assoc in T2.
Qed.

(** ** Sorted lists are their own objects and sets *)
Lemma sins_last {B} (key : B -> value) upd b l : Forall (fun c => Compare (key c) (key b) = Lt) l -> sins Compare key upd b l = l ++ [b].
Proof.
  induction 1 as [|c l Hc Hl IH]; simpl; [done|]. rewrite (proj2 (cmp_gt_lt Compare _ _) Hc). by rewrite IH.
Qed.

Lemma ssorted_snoc {B} (key : B -> value) b l : ssorted Compare key (l ++ [b]) -> ssorted Compare key l /\ Forall (fun c => Compare (key c) (key b) = Lt) l.
Proof.
  induction l as [|c l IH]; simpl; [split; constructor|]. intros H. inversion_clear H as [|? ? H1 H2].
  destruct (IH H1) as [S F]. apply Forall_app in H2 as [H2 H3]. inversion_clear H3. split; by constructor.
Qed.

Lemma obj_of_id l : kv_sorted l -> obj_of l = l.
Proof.
  induction l as [|[k v] l IH] using rev_ind; [done|]. intros [S F]%ssorted_snoc. rewrite obj_of_snoc, (IH S). by apply sins_last.
Qed.

Lemma set_of_id l : ssorted Compare id l -> set_of l = l.
Proof.
  induction l as [|x l IH] using rev_ind; [done|]. intros [S F]%ssorted_snoc. unfold set_of. rewrite fold_left_app. simpl.
  fold (set_of l). rewrite (IH S). by apply sins_last.
Qed.

(** ** Removal *)
Lemma res_fold_ok {B C} (f : B -> C -> res builtin_error C) (g : C -> B -> C) l : (forall x acc, x ∈ l -> f x acc = Ok (g acc x)) ->
  forall acc, res_fold f l acc = Ok (fold_left g l acc).
Proof.
  induction l as [|x l IH]; intros H acc; simpl; [done|]. rewrite H by left. simpl. apply IH. intros y a Hy. apply H. by right.
Qed.

Lemma fold_flat_map {B C D} (step : C -> D -> C) (f : B -> list D) l : forall acc,
  fold_left step (flat_map f l) acc = fold_left (fun acc x => fold_left step (f x) acc) l acc.
Proof. induction l as [|x l IH]; intros acc; simpl; [done|]. by rewrite fold_left_app, IH. Qed.

Lemma fold_snoc {B} (l : list B) : forall acc, fold_left (fun acc x => acc ++ [x]) l acc = acc ++ l.
Proof. induction l as [|x l IH]; intros acc; simpl; [by rewrite app_nil_r|]. by rewrite IH, <- app_assoc. Qed.

Lemma without_nil v : json_term v -> without [] v = v.
Proof.
  induction 1 as [v Hv|l Hl IH|kvs S IH|l S IH] using json_term_induction; [by destruct v|..]; cbn [without]; f_equal.
  - clear Hl. generalize 0. induction IH as [|x l Hx Hl IH]; intros n; simpl; [done|]. rewrite Hx. f_equal. apply IH.
  - clear S. induction IH as [|[k x] l Hx Hl IH]; [done|]. cbn [flat_map]. rewrite IH. simpl in *. by rewrite Hx.
  - rewrite <- (set_of_id l S) at 2. f_equal. clear S. induction IH as [|x l Hx Hl IH]; [done|]. cbn [flat_map]. rewrite IH. simpl. by rewrite Hx.
Qed.

(** What becomes of a child [v] under [k]. *)
Lemma jsonRemove_child paths o k v : trie paths o -> json_term v ->
  (forall paths o, trie paths o -> jsonRemove v (Some (Object o)) = Ok (Some (without paths v))) ->
  jsonRemove v (obj_get k o) = Ok (if ends (tails k paths) then None else Some (without (tails k paths) v)).
Proof.
  intros T J H. inversion T as [? ? S M R]; subst. specialize (M k). specialize (R k).
  destruct (obj_get k o) as [[| | | | | | |o1| | | | | ]|]; try done.
  - rewrite M. by destruct v.
  - destruct M as [_ ->]. apply H. by apply R.
  - rewrite M, without_nil by done. by destruct v.
Qed.

Lemma res_fold_map {B C D} (f : D -> C -> res builtin_error C) (h : B -> D) l : forall acc,
  res_fold f (map h l) acc = res_fold (fun x => f (h x)) l acc.
Proof. induction l as [|x l IH]; intros acc; simpl; [done|]. destruct (f (h x) acc); simpl; [apply IH|done]. Qed.

Lemma combine_map_r {B C D} (f : C -> D) (a : list B) l : combine a (map f l) = map (fun p => (p.1, f p.2)) (combine a l).
Proof. revert l. induction a as [|x a IH]; intros [|y l]; simpl; [done..|]. by rewrite IH. Qed.

Lemma flat_map_map {B C D} (f : C -> list D) (h : B -> C) l : flat_map f (map h l) = flat_map (fun x => f (h x)) l.
Proof. induction l as [|x l IH]; simpl; [done|]. by rewrite IH. Qed.

(** Some members of a sorted object, with new values. *)
Lemma sorted_flat_map (drop : value -> bool) (f : value * value -> value) kvs : kv_sorted kvs ->
  kv_sorted (flat_map (fun kv => map (pair kv.1) (if drop kv.1 then [] else [f kv])) kvs).
Proof.
  induction 1 as [|kv kvs S IH F]; simpl; [constructor|]. destruct (drop kv.1); [done|]. simpl. constructor; [done|].
  apply Forall_forall. intros x Hx. apply list_elem_of_In, in_flat_map in Hx as (y & Hy & Hx). rewrite Forall_forall in F.
  destruct (drop y.1); [done|]. destruct Hx as [<-|[]]. simpl. by apply F, list_elem_of_In.
Qed.

Lemma jsonRemove_ok v : json_term v -> forall paths o, trie paths o -> jsonRemove v (Some (Object o)) = Ok (Some (without paths v)).
Proof.
  intros J. induction v as [v IH] using value_composite_ind. intros paths o T.
  destruct J as [v Hv|l Hl|kvs S Hk|l S Hl]; [by destruct v|..]; cbn [jsonRemove without].
  - rewrite !combine_map_r, res_fold_map, flat_map_map.
    rewrite (res_fold_ok _ (fun acc iv => fold_left (fun acc x => acc ++ [x])
      (if ends (tails (Str (pretty (N.of_nat iv.1))) paths) then [] else [without (tails (Str (pretty (N.of_nat iv.1))) paths) iv.2]) acc)).
    + simpl. by rewrite <- fold_flat_map, fold_snoc.
    + intros [i x] acc Hx. simpl. apply list_elem_of_In, in_combine_r, list_elem_of_In in Hx. rewrite Forall_forall in IH, Hl.
      rewrite (jsonRemove_child paths o _ x T (Hl x Hx) (IH x Hx (Hl x Hx))). simpl. by destruct (ends _).
  - rewrite res_fold_map. rewrite (res_fold_ok _ (fun acc kv => fold_left (fun r kv => obj_insert kv.1 kv.2 r)
      (map (pair kv.1) (if ends (tails kv.1 paths) then [] else [without (tails kv.1 paths) kv.2])) acc)).
    + simpl. rewrite <- fold_flat_map. fold (obj_of (flat_map (fun kv => map (pair kv.1)
        (if ends (tails kv.1 paths) then [] else [without (tails kv.1 paths) kv.2])) kvs)).
      rewrite obj_of_id; [done|]. by apply (sorted_flat_map (fun k => ends (tails k paths)) (fun kv => without (tails kv.1 paths) kv.2)).
    + intros [k x] acc Hx. simpl. rewrite Forall_forall in IH, Hk. destruct (IH _ Hx) as [_ IHx]. simpl in IHx.
      rewrite (jsonRemove_child paths o k x T (Hk _ Hx) (IHx (Hk _ Hx))). simpl. by destruct (ends _).
  - rewrite res_fold_map. rewrite (res_fold_ok _ (fun acc x => fold_left (fun s x => set_insert x s)
      (if ends (tails x paths) then [] else [without (tails x paths) x]) acc)).
    + simpl. by rewrite <- fold_flat_map.
    + intros x acc Hx. simpl. rewrite Forall_forall in IH, Hl.
      rewrite (jsonRemove_child paths o x x T (Hl x Hx) (IH x Hx (Hl x Hx))). simpl. by destruct (ends _).
Qed.

(** C23: [json.remove] on a JSON object gives the object without the values at the
    paths, whatever the order of the paths and whichever paths extend others; it
    never panics, and the only errors are those of its operands. *)
Theorem json_remove_correct (a b : value) : json_term a ->
  match a, getJSONPaths b with
  | Object _, Ok paths => builtinJSONRemove a b = Some (Ok (Some (without paths a)))
  | Object _, Err e => builtinJSONRemove a b = Some (Err e)
  | _, _ => exists e, builtinJSONRemove a b = Some (Err e)
  end.
Proof.
  intros J. unfold builtinJSONRemove. destruct a; cbn [ObjectOperand]; try by eexists.
  destruct (getJSONPaths b) as [paths|e]; [|done]. destruct (pathsToObject_ok paths) as (o & -> & T).
  cbn [mbind option_bind]. by rewrite (jsonRemove_ok _ J paths o T).
Qed.

(** An element and a member of the element that follows it, with a path that extends
    another. *)
Lemma json_remove_correct_witness :
  let n i := Number (NInt (Z.of_nat i)) in
  let a := Object [(Str "a", Array [n 1; Object [(Str "b", n 2); (Str "c", n 3)]]); (Str "d", SetV [n 1; n 2])] in
  let b := Array [Str "/a/0"; Array [Str "a"; Str "0"; Str "x"]; Str "a/1/b"; Array [Str "d"; n 2]] in
  json_term a /\
  builtinJSONRemove a b = Some (Ok (Some (Object [(Str "a", Array [Object [(Str "c", n 3)]]); (Str "d", SetV [n 1])]))).
Proof.
  intros n a b.
  assert (J : json_term a).
  { repeat first [apply jt_scalar; exact I | apply jt_array | apply jt_object; [repeat constructor|] | apply jt_set; [repeat constructor|]
                 | apply Forall_cons_2 | apply Forall_nil_2]. }
  split; [exact J|]. exact (json_remove_correct a b J).
Defined.
