(* ===== verification/VarVisitor.v ===== *)
(** Sets of variables and the visitors that collect them: [src/ast/varset.go], the
    [VarVisitor] and the term and closure walks of [src/ast/visit.go]. *)
From Stdlib Require Import ZArith Lia String.
From stdpp Require Import base gmap list strings.
From S2P Require Import Prelude Value.

(** ** VarSet *)
Abbreviation VarSet := (gset string).

Definition Contains (s : VarSet) (v : string) : bool := bool_decide (v ∈ s).
Definition Diff (s vs : VarSet) : VarSet := s ∖ vs.
Definition Intersect (s vs : VarSet) : VarSet := s ∩ vs.
Definition Update (s vs : VarSet) : VarSet := s ∪ vs.
Definition is_empty (s : VarSet) : bool := bool_decide (s = ∅).
Definition VarSet_Equal (s vs : VarSet) : bool := is_empty (Diff s vs) && is_empty (Diff vs s).

(** The order in which a set is iterated over. *)
Class VarOrder := var_order : VarSet -> list string.
#[export] Instance sorted_vars : VarOrder := elements.

(** ** VarVisitor *)
Record VarVisitorParams : Set := MkParams {
  SkipRefHead : bool;
  SkipRefCallHead : bool;
  SkipObjectKeys : bool;
  SkipClosures : bool;
  SkipWithTarget : bool;
  SkipSets : bool;
}.
Definition no_params : VarVisitorParams := MkParams false false false false false false.
Definition SafetyCheckVisitorParams : VarVisitorParams := MkParams false true false true false false.

(** The variables that [Walk] adds to the set, one function for each type of node.  The operator of a
    call is a reference: the type assertion of [visit] panics on another term,
    which the parser does not build; here it adds nothing. *)
Section VarVisitor.
Context (p : VarVisitorParams).

Fixpoint vars_of (v : value) : VarSet :=
  match v with
  | Null | Boolean _ | Number _ | Str _ => ∅
  | Var x => {[x]}
  | Ref ts => match ts with [] => ∅ | h :: ts => (if SkipRefHead p then ∅ else vars_of h) ∪ ⋃ (map vars_of ts) end
  | Array l => ⋃ (map vars_of l)
  | Object kvs => ⋃ (map (fun kv => (if SkipObjectKeys p then ∅ else vars_of kv.1) ∪ vars_of kv.2) kvs)
  | SetV l => if SkipSets p then ∅ else ⋃ (map vars_of l)
  | ArrayComprehension t b | SetComprehension t b =>
      if SkipClosures p then ∅ else vars_of t ∪ ⋃ (map vars_of_expr b)
  | ObjectComprehension k v b =>
      if SkipClosures p then ∅ else vars_of k ∪ vars_of v ∪ ⋃ (map vars_of_expr b)
  | Call ts =>
      if SkipRefCallHead p then
        match ts with
        | Ref (_ :: operator) :: args => ⋃ (map vars_of operator) ∪ ⋃ (map vars_of args)
        | _ => ∅
        end
      else ⋃ (map vars_of ts)
  end
with vars_of_expr (e : expr) : VarSet :=
  match e with
  | Expr ts withs _ _ =>
      let with_vars := ⋃ (map (fun tv =>
        if SkipWithTarget p then vars_of tv.2
        else if SkipRefCallHead p then
          match tv.1 with Ref (_ :: r) => ⋃ (map vars_of r) | _ => ∅ end ∪
          match tv.2 with Ref [] => ∅ | Ref (_ :: r) => ⋃ (map vars_of r) | _ => vars_of tv.2 end
        else vars_of tv.1 ∪ vars_of tv.2) withs) in
      match ts with
      | TEvery _ _ domain _ => if SkipClosures p then vars_of domain else vars_of_terms ts ∪ with_vars
      | TTerms l =>
          if SkipRefCallHead p then
            match l with
            | Ref (_ :: operator) :: args => ⋃ (map vars_of operator) ∪ ⋃ (map vars_of args) ∪ with_vars
            | _ => ∅
            end
          else vars_of_terms ts ∪ with_vars
      | _ => vars_of_terms ts ∪ with_vars
      end
  end
with vars_of_terms (ts : terms) : VarSet :=
  match ts with
  | TTerm t => vars_of t
  | TTerms l => ⋃ (map vars_of l)
  | TSome symbols => ⋃ (map vars_of symbols)
  | TEvery key v domain b =>
      match key with Some k => vars_of k | None => ∅ end ∪ vars_of v ∪ vars_of domain ∪ ⋃ (map vars_of_expr b)
  end.

Definition vars_of_list (l : list value) : VarSet := ⋃ (map vars_of l).
Definition vars_of_body (b : body) : VarSet := ⋃ (map vars_of_expr b).
End VarVisitor.

(** A [with] modifier on its own. *)
Definition vars_of_with (p : VarVisitorParams) (tv : value * value) : VarSet :=
  if SkipWithTarget p then vars_of p tv.2
  else if SkipRefCallHead p then
    match tv.1 with Ref (_ :: r) => vars_of_list p r | _ => ∅ end ∪
    match tv.2 with Ref [] => ∅ | Ref (_ :: r) => vars_of_list p r | _ => vars_of p tv.2 end
  else vars_of p tv.1 ∪ vars_of p tv.2.

(** [Ref.OutputVars]. *)
Definition OutputVars (ref : list value) : VarSet := vars_of (MkParams true false false false false false) (Ref ref).
(** [Every.KeyValueVars]. *)
Definition KeyValueVars (key : option value) (v : value) : VarSet :=
  match key with Some k => vars_of no_params k | None => ∅ end ∪ vars_of no_params v.

(** ** The variables in closures

    [unsafeVarsInClosures]: [WalkClosures] stops at the first closure on a branch. *)
Fixpoint closure_vars (v : value) : VarSet :=
  match v with
  | Ref l | Array l | SetV l | Call l => ⋃ (map closure_vars l)
  | Object kvs => ⋃ (map (fun kv => closure_vars kv.1 ∪ closure_vars kv.2) kvs)
  | ArrayComprehension _ _ | SetComprehension _ _ | ObjectComprehension _ _ _ => vars_of no_params v
  | _ => ∅
  end.
Definition unsafeVarsInClosures (e : expr) : VarSet :=
  match e with
  | Expr ts withs _ _ =>
      match ts with
      | TTerm t => closure_vars t
      | TTerms l | TSome l => ⋃ (map closure_vars l)
      | TEvery _ _ _ b => vars_of_body no_params b
      end ∪ ⋃ (map (fun tv => closure_vars tv.1 ∪ closure_vars tv.2) withs)
  end.
