(* ===== verification/Safety.v ===== *)
(** The safety check of rule bodies: the variables that unification makes safe
    ([src/ast/unify.go]) and the reordering of bodies ([reorderBodyForSafety] and what
    it calls in [src/ast/compile.go]). *)
From Stdlib Require Import ZArith Lia String.
From stdpp Require Import base gmap list strings.
From S2P Require Import Prelude Value Containers Builtins VarVisitor.

(** ** Safe references and calls *)
Definition isCallSafe (call : list value) (safe : VarSet) : bool :=
  is_empty (Diff (vars_of SafetyCheckVisitorParams (Call call)) safe).

Definition isRefSafe (ref : list value) (safe : VarSet) : bool :=
  match ref with
  | Var head :: _ => Contains safe head
  | Call head :: _ => isCallSafe head safe
  | head :: _ => is_empty (Diff (vars_of no_params head) safe)
  | [] => false (* out of range *)
  end.

(** ** Unify *)
Record unifier : Type := MkUnifier {
  u_safe : VarSet;
  unified : VarSet;
  unknown : gmap string VarSet;
}.

Section Unify.
Context `{VO : VarOrder}.

Definition isSafe (u : unifier) (x : string) : bool := Contains (u_safe u) x || Contains (unified u) x.
Definition set_unknown (u : unifier) (m : gmap string VarSet) : unifier := MkUnifier (u_safe u) (unified u) m.

(** Every recursive call is on a smaller map: [size_unknown] bounds their depth. *)
Fixpoint markSafe_rec (fuel : nat) (x : string) (u : unifier) : unifier :=
  match fuel with
  | O => u
  | S fuel =>
      let vs := default ∅ (unknown u !! x) in
      let u := MkUnifier (u_safe u) (unified u ∪ {[x]}) (delete x (unknown u)) in
      let u := fold_left (fun u v => markSafe_rec fuel v u) (var_order vs) u in
      fold_left (fun u v =>
        match unknown u !! v with
        | Some deps =>
            if Contains deps x then
              let deps := deps ∖ {[x]} in
              let u := set_unknown u (<[v := deps]> (unknown u)) in
              if is_empty deps then markSafe_rec fuel v u else u
            else u
        | None => u
        end) (var_order (dom (unknown u))) u
  end.

Definition size_unknown (m : gmap string VarSet) : nat := map_fold (fun _ deps n => 1 + size deps + n) 0 m.
Definition markSafe (u : unifier) (x : string) : unifier := markSafe_rec (S (size_unknown (unknown u))) x u.

Definition markUnknown (u : unifier) (a b : string) : unifier :=
  set_unknown u (<[a := default ∅ (unknown u !! a) ∪ {[b]}]> (unknown u)).

Definition varVisitor : VarVisitorParams := MkParams true false true true false false.
Definition markAllSafe (u : unifier) (x : value) : unifier := fold_left markSafe (var_order (vars_of varVisitor x)) u.

Definition unifyAll (u : unifier) (a : string) (b : value) : unifier :=
  if isSafe u a then markAllSafe u b
  else
    let unsafe := Diff (Diff (vars_of varVisitor b) (u_safe u)) (unified u) in
    if is_empty unsafe then markSafe u a else fold_left (fun u v => markUnknown u a v) (var_order unsafe) u.

Fixpoint unify (u : unifier) (a b : value) {struct a} : unifier :=
  match a with
  | Var x =>
      match b with
      | Var y =>
          if isSafe u y then markSafe u x
          else if isSafe u x then markSafe u y
          else markUnknown (markUnknown u x y) y x
      | Array _ | Object _ => unifyAll u x b
      | Ref r => if isRefSafe r (u_safe u) then markSafe u x else u
      | Call c => if isCallSafe c (u_safe u) then markSafe u x else u
      | _ => markSafe u x
      end
  | Ref r =>
      if isRefSafe r (u_safe u) then
        match b with Var y => markSafe u y | Array _ | Object _ => markAllSafe u b | _ => u end
      else u
  | Call c =>
      if isCallSafe c (u_safe u) then
        match b with Var y => markSafe u y | Array _ | Object _ => markAllSafe u b | _ => u end
      else u
  | ArrayComprehension _ _ =>
      match b with Var y => markSafe u y | Array _ => markAllSafe u b | _ => u end
  | ObjectComprehension _ _ _ =>
      match b with Var y => markSafe u y | Object _ => markAllSafe u b | _ => u end
  | SetComprehension _ _ => match b with Var y => markSafe u y | _ => u end
  | Array la =>
      match b with
      | Var y => unifyAll u y a
      | ArrayComprehension _ _ | ObjectComprehension _ _ _ | SetComprehension _ _ => markAllSafe u a
      | Ref r => if isRefSafe r (u_safe u) then markAllSafe u a else u
      | Call c => if isCallSafe c (u_safe u) then markAllSafe u a else u
      | Array lb =>
          if (length la =? length lb)%nat then
            fold_left (fun u fy => fy.1 u fy.2) (combine (map (fun x u y => unify u x y) la) lb) u
          else u
      | _ => u
      end
  | Object oa =>
      match b with
      | Var y => unifyAll u y a
      | Ref r => if isRefSafe r (u_safe u) then markAllSafe u a else u
      | Call c => if isCallSafe c (u_safe u) then markAllSafe u a else u
      | Object ob =>
          if (length oa =? length ob)%nat then
            fold_left (fun u kf => match obj_get kf.1 ob with Some v2 => kf.2 u v2 | None => u end)
              (map (fun kv => (kv.1, fun u y => unify u kv.2 y)) oa) u
          else u
      | _ => u
      end
  | _ => match b with Var y => markSafe u y | _ => u end
  end.

Definition Unify (safe : VarSet) (a b : value) : VarSet := unified (unify (MkUnifier safe ∅ ∅) a b).

(** ** Output variables *)

(** The terms that [outputVarsForTerms] walks over. *)
Fixpoint outputs (safe : VarSet) (v : value) : VarSet :=
  match v with
  | Ref r => if isRefSafe r safe then OutputVars r ∪ ⋃ (map (outputs safe) r) else ∅
  | Array l | SetV l | Call l => ⋃ (map (outputs safe) l)
  | Object kvs => ⋃ (map (fun kv => outputs safe kv.1 ∪ outputs safe kv.2) kvs)
  | _ => ∅
  end.
Definition outputs_expr (safe : VarSet) (ts : list value) (withs : list (value * value)) : VarSet :=
  ⋃ (map (outputs safe) ts) ∪ ⋃ (map (fun tv => outputs safe tv.1 ∪ outputs safe tv.2) withs).

Definition IsEquality (ts : list value) : bool :=
  match ts with Ref [Var name] :: _ => String.eqb name "eq" | _ => false end.

Definition outputVarsForExprEq (ts : list value) (withs : list (value * value)) (safe : VarSet) : VarSet :=
  match ts with
  | [_; a; b] =>
      let output := Update (outputs_expr safe ts withs) safe in
      Diff (Update output (Unify output a b)) safe
  | _ => safe
  end.

Definition outputVarsForExprCall (ts : list value) (withs : list (value * value)) (arity : Z) (safe : VarSet) : VarSet :=
  let output := outputs_expr safe ts withs in
  let numInputTerms := Z.to_nat (arity + 1) in
  if (length ts <=? numInputTerms)%nat then output
  else
    let params := MkParams true false true true false true in
    let unsafe := Diff (Diff (vars_of_list params (take numInputTerms ts)) output) safe in
    if negb (is_empty unsafe) then ∅ else Update output (vars_of_list params (drop numInputTerms ts)).

(** [None] is the panic on an expression that is neither of the three. *)
Definition outputVarsForExpr (arity : list value -> Z) (e : expr) (safe : VarSet) : option VarSet :=
  match e with
  | Expr terms withs _ negated =>
      if negated then Some ∅
      else if existsb (fun tv => negb (is_empty (Diff (vars_of_with SafetyCheckVisitorParams tv) safe))) withs then Some ∅
      else match terms with
      | TTerm t => Some (outputs_expr safe [t] withs)
      | TTerms ts =>
          if IsEquality ts then Some (outputVarsForExprEq ts withs safe)
          else match ts with
          | Ref operator :: _ =>
              let ar := arity operator in
              if (ar <? 0)%Z then Some ∅ else Some (outputVarsForExprCall ts withs ar safe)
          | _ => Some ∅
          end
      | TEvery _ _ domain _ => Some (outputs safe domain)
      | TSome _ => None
      end
  end.

Fixpoint outputs_loop (arity : list value -> Z) (b : body) (o : VarSet) : option VarSet :=
  match b with [] => Some o | e :: b => vs ← outputVarsForExpr arity e o; outputs_loop arity b (Update o vs) end.
Definition outputVarsForBody (arity : list value -> Z) (b : body) (safe : VarSet) : option VarSet :=
  o ← outputs_loop arity b safe; Some (Diff o safe).
End Unify.

(** ** Reordering

    Expressions are shared between the body and the reordered body, and [Append]
    changes their index: the expressions are kept in a store by their position in the
    body, and the reordered body is a list of positions.  The unsafe variables are
    kept by position too, and those of the expressions of closures in a list. *)
Definition expr_index (e : expr) : Z := match e with Expr _ _ i _ => i end.
Definition set_index (i : Z) (e : expr) : expr := match e with Expr ts withs _ negated => Expr ts withs i negated end.
Definition Expr_Equal (a b : expr) : bool := match Expr_Compare a b with Eq => true | _ => false end.

Record unsafeVars : Type := MkUnsafe { by_expr : gmap nat VarSet; in_closures : list VarSet }.
Definition no_unsafe (u : unsafeVars) : bool := bool_decide (by_expr u = ∅) && bool_decide (in_closures u = []).
Definition unsafe_Add (u : unsafeVars) (i : nat) (v : VarSet) : unsafeVars :=
  if is_empty v then u else MkUnsafe (<[i := default ∅ (by_expr u !! i) ∪ v]> (by_expr u)) (in_closures u).
(** [Update] with the unsafe variables of the body of a closure. *)
Definition unsafe_Update (u o : unsafeVars) : unsafeVars :=
  MkUnsafe (by_expr u) (in_closures u ++ map snd (map_to_list (by_expr o)) ++ in_closures o).

Record reordering : Type := MkReordering {
  store : list expr;
  reordered : list nat;
  safe : VarSet;
  unsafe : gmap nat VarSet;
}.

Section Reorder.
Context `{VO : VarOrder} (arity : list value -> Z).

Definition exprs_at (st : list expr) (l : list nat) : body := omap (fun i => st !! i) l.
(** [Body.Contains]. *)
Definition Body_Contains (b : body) (x : expr) : bool := existsb (fun e => Expr_Equal e x) b.

Definition initial (globals : VarSet) (b : body) : reordering :=
  let vars := map (vars_of_expr SafetyCheckVisitorParams) b in
  MkReordering b [] (⋃ (map (fun vs => vs ∩ globals) vars))
    (list_to_map (List.filter (fun iv => negb (is_empty iv.2)) (imap (fun i vs => (i, vs ∖ globals)) vars))).

(** [reordered.Append(e)]. *)
Definition place (r : reordering) (i : nat) (ovs : VarSet) : reordering :=
  MkReordering (alter (set_index (Z.of_nat (length (reordered r)))) i (store r)) (reordered r ++ [i])
    (Update (safe r) ovs) (delete i (unsafe r)).

(** One expression of a pass. *)
Definition consider (bodyVars globals : VarSet) (r : reordering) (i : nat) : option reordering :=
  e ← store r !! i;
  if Body_Contains (exprs_at (store r) (reordered r)) e then Some r
  else
    ovs ← outputVarsForExpr arity e (safe r);
    made ← outputVarsForBody arity (exprs_at (store r) (reordered r)) (safe r);
    let cv := Diff (Intersect (unsafeVarsInClosures e) bodyVars) globals in
    let uv := Diff cv made in
    if negb (is_empty uv) && VarSet_Equal uv ovs then Some r
    else
      let unsafe := if is_empty uv then unsafe r else <[i := uv]> (unsafe r) in
      let left := default ∅ (unsafe !! i) ∖ (ovs ∪ safe r) in
      if is_empty left then Some (place (MkReordering (store r) (reordered r) (safe r) unsafe) i ovs)
      else Some (MkReordering (store r) (reordered r) (safe r) (<[i := left]> unsafe)).

Fixpoint pass (bodyVars globals : VarSet) (todo : list nat) (r : reordering) : option reordering :=
  match todo with [] => Some r | i :: todo => r ← consider bodyVars globals r i; pass bodyVars globals todo r end.

(** Each pass but the last places an expression. *)
Fixpoint passes (fuel : nat) (bodyVars globals : VarSet) (r : reordering) : option reordering :=
  match fuel with
  | O => None
  | S fuel =>
      r' ← pass bodyVars globals (seq 0 (length (store r))) r;
      if (length (reordered r') =? length (reordered r))%nat then Some r' else passes fuel bodyVars globals r'
  end.
Definition reorder (globals : VarSet) (b : body) : option reordering :=
  passes (S (length b)) (vars_of_body SafetyCheckVisitorParams b) globals (initial globals b).

(** *** Closures

    The visitor carries the globals and the unsafe variables. *)
Section Transform.
Context (reorderBody : VarSet -> body -> option (body * body * unsafeVars)) (current : nat).

Abbreviation xstate := (VarSet * unsafeVars)%type.

Definition reorderComprehensionSafety (s : xstate) (tv : VarSet) (b : body) : option (xstate * body) :=
  let '(globals, unsafe) := s in
  let uv := Diff tv (Update (vars_of_body SafetyCheckVisitorParams b) globals) in
  let unsafe := unsafe_Add unsafe current uv in
  '(r, b, u) ← reorderBody globals b;
  Some (if no_unsafe u then ((globals, unsafe), r) else ((globals, unsafe_Update unsafe u), b)).

Fixpoint through {A} (f : xstate -> A -> option (xstate * A)) (s : xstate) (l : list A) : option (xstate * list A) :=
  match l with
  | [] => Some (s, [])
  | x :: l => '(s, x) ← f s x; '(s, l) ← through f s l; Some (s, x :: l)
  end.

Fixpoint visit (s : xstate) (v : value) {struct v} : option (xstate * value) :=
  match v with
  | Ref l => '(s, l) ← through visit s l; Some (s, Ref l)
  | Array l => '(s, l) ← through visit s l; Some (s, Array l)
  | Call l => '(s, l) ← through visit s l; Some (s, Call l)
  | SetV l => '(s, l) ← through visit s l; Some (s, SetV (set_of l))
  | Object kvs =>
      '(s, kvs) ← through (fun s kv => '(s, k) ← visit s kv.1; '(s, v) ← visit s kv.2; Some (s, (k, v))) s kvs;
      Some (s, Object (obj_of kvs))
  | ArrayComprehension t b =>
      '(s, b) ← reorderComprehensionSafety s (vars_of no_params t) b; Some (s, ArrayComprehension t b)
  | SetComprehension t b =>
      '(s, b) ← reorderComprehensionSafety s (vars_of no_params t) b; Some (s, SetComprehension t b)
  | ObjectComprehension k v b =>
      '(s, b) ← reorderComprehensionSafety s (vars_of no_params k ∪ vars_of no_params v) b;
      Some (s, ObjectComprehension k v b)
  | _ => Some (s, v)
  end.

Definition visit_expr (s : xstate) (e : expr) : option (xstate * expr) :=
  match e with
  | Expr ts withs i negated =>
      let with_modifiers s := through (fun s tv => '(s, t) ← visit s tv.1; '(s, v) ← visit s tv.2; Some (s, (t, v))) s withs in
      match ts with
      | TEvery key v domain b =>
          '(s, b) ← reorderComprehensionSafety (Update s.1 (KeyValueVars key v), s.2) ∅ b;
          Some (s, Expr (TEvery key v domain b) withs i negated)
      | TTerm t =>
          '(s, t) ← visit s t; '(s, withs) ← with_modifiers s; Some (s, Expr (TTerm t) withs i negated)
      | TTerms l =>
          '(s, l) ← through visit s l; '(s, withs) ← with_modifiers s; Some (s, Expr (TTerms l) withs i negated)
      | TSome l =>
          '(s, l) ← through visit s l; '(s, withs) ← with_modifiers s; Some (s, Expr (TSome l) withs i negated)
      end
  end.
End Transform.

(** The loop over the reordered body; [prev] is the expression before. *)
Fixpoint visit_all (reorderBody : VarSet -> body -> option (body * body * unsafeVars)) (prev : VarSet) (todo : list nat)
    (s : VarSet * unsafeVars) (st : list expr) : option (unsafeVars * list expr) :=
  match todo with
  | [] => Some (s.2, st)
  | i :: todo =>
      e ← st !! i;
      '(s, e') ← visit_expr reorderBody i (Update s.1 prev, s.2) e;
      visit_all reorderBody (vars_of_expr SafetyCheckVisitorParams e') todo s (<[i := e']> st)
  end.

(** The reordered body, and the body as it is left by the changes of its expressions.
    [fuel] bounds the nesting of closures. *)
Fixpoint reorderBodyForSafety (fuel : nat) (globals : VarSet) (b : body) : option (body * body * unsafeVars) :=
  match fuel with
  | O => None
  | S fuel =>
      r ← reorder globals b;
      '(unsafe, st) ← visit_all (reorderBodyForSafety fuel) ∅ (reordered r) (globals, MkUnsafe (unsafe r) []) (store r);
      Some (exprs_at st (reordered r), st, unsafe)
  end.

(** [checkBodySafety]: an error is reported when there are unsafe variables. *)
Definition checkBodySafety (fuel : nat) (safe : VarSet) (b : body) : option (res unsafeVars body) :=
  '(r, b, unsafe) ← reorderBodyForSafety fuel safe b;
  Some (if no_unsafe unsafe then Ok r else Err unsafe).
End Reorder.
