(* ===== verification/UnifySafe.v ===== *)
(** Correctness of [ast.Unify] (definitions in Safety.v): the variables it returns
    have at most one value in the solutions of the equation, once the safe variables
    are fixed. *)
From Stdlib Require Import ZArith Lia String.
From stdpp Require Import base gmap list strings.
From S2P Require Import Prelude SortedKeys Value Containers ObjectTable Builtins Document VarVisitor Safety.

(** The iteration order is any enumeration of the set. *)
Class VarOrderOk (VO : VarOrder) : Prop := var_order_ok : forall s x, x ∈ var_order s <-> x ∈ s.
#[export] Instance sorted_vars_ok : VarOrderOk sorted_vars.
Proof. intros s x. apply elem_of_elements. Qed.

Lemma Forall2_map_same {A B} (R : B -> B -> Prop) (f g : A -> B) l :
  Forall2 R (map f l) (map g l) <-> Forall (fun x => R (f x) (g x)) l.
Proof.
  induction l as [|x l IH]; simpl; [split; constructor|]. rewrite Forall_cons, <- IH. split; [by inversion_clear 1|].
  intros []. by constructor.
Qed.

(** ** Terms under a valuation *)

(** References, calls, sets and comprehensions, of which the unifier does not look
    at the structure. *)
Definition opaque_term (v : value) : bool :=
  match v with
  | Ref _ | Call _ | SetV _ | ArrayComprehension _ _ | ObjectComprehension _ _ _ | SetComprehension _ _ => true
  | _ => false
  end.

Section Eval.
Context (opaque : (string -> value) -> value -> value).

Fixpoint eval (th : string -> value) (v : value) : value :=
  match v with
  | Var x => th x
  | Array l => Array (map (eval th) l)
  | Object kvs => Object (map (fun kv => (kv.1, eval th kv.2)) kvs)
  | _ => if opaque_term v then opaque th v else v
  end.

(** Equal on the variables of a set. *)
Definition agree_on (s : VarSet) (th th' : string -> value) : Prop := forall x, x ∈ s -> Compare (th x) (th' x) = Eq.

(** Patterns: the keys of objects are ground, and what is opaque depends on the
    variables of [s] only. *)
Inductive pattern (s : VarSet) : value -> Prop :=
| pat_var x : pattern s (Var x)
| pat_scalar v : match v with Null | Boolean _ | Number _ | Str _ => True | _ => False end -> pattern s v
| pat_array l : Forall (pattern s) l -> pattern s (Array l)
| pat_object kvs : kv_sorted kvs -> Forall (fun kv => vars_of no_params kv.1 = ∅) kvs ->
    Forall (fun kv => pattern s kv.2) kvs -> pattern s (Object kvs)
| pat_opaque v : opaque_term v = true -> vars_of varVisitor v ⊆ s ->
    (forall th th', agree_on s th th' -> Compare (opaque th v) (opaque th' v) = Eq) -> pattern s v.

Lemma pattern_induction (s : VarSet) (P : value -> Prop) :
  (forall x, P (Var x)) -> (forall v, match v with Null | Boolean _ | Number _ | Str _ => True | _ => False end -> P v) ->
  (forall l, Forall P l -> P (Array l)) -> (forall kvs, Forall (fun kv => P kv.2) kvs -> P (Object kvs)) ->
  (forall v, opaque_term v = true -> vars_of varVisitor v ⊆ s ->
    (forall th th', agree_on s th th' -> Compare (opaque th v) (opaque th' v) = Eq) -> P v) -> forall v, pattern s v -> P v.
Proof.
  intros HV HL HA HO HP. apply (value_composite_ind (fun v => pattern s v -> P v)). intros v IH Hv.
  destruct Hv as [x|v Hv|l Hl|kvs S K Hk|v O V D]; [apply HV|by apply HL| | |by apply HP].
  - apply HA. rewrite Forall_forall in *. auto.
  - apply HO. rewrite Forall_forall in *. intros kv Hkv. by apply IH, Hk.
Qed.

Lemma pattern_array_inv s l : pattern s (Array l) -> Forall (pattern s) l.
Proof. by inversion 1. Qed.
Lemma pattern_object_inv s kvs : pattern s (Object kvs) -> kv_sorted kvs /\ Forall (fun kv => pattern s kv.2) kvs.
Proof. by inversion 1. Qed.

Section Agree.
Context (s : VarSet) (th1 th2 : string -> value) (Hs : agree_on s th1 th2).

Definition agree (x : string) : Prop := Compare (th1 x) (th2 x) = Eq.
Definition agree_term (v : value) : Prop := Compare (eval th1 v) (eval th2 v) = Eq.

Lemma eval_opaque v th : opaque_term v = true -> eval th v = opaque th v.
Proof. by destruct v. Qed.

Lemma agree_array l : agree_term (Array l) <-> Forall agree_term l.
Proof.
  unfold agree_term. simpl. by rewrite slice_compare_eq_iff, Forall2_map_same.
Qed.

Lemma agree_object kvs : agree_term (Object kvs) <-> Forall (fun kv => agree_term kv.2) kvs.
Proof.
  unfold agree_term. simpl. rewrite slice_compare_eq_iff, Forall2_map_same. apply Forall_proper; [|done]. intros kv.
  unfold pair_compare. simpl. rewrite cmp_then_eq, (cmp_refl Compare). naive_solver.
Qed.

(** A pattern is determined by its variables, and determines them. *)
Lemma pattern_agree v : pattern s v -> agree_term v <-> forall x, x ∈ vars_of varVisitor v -> agree x.
Proof.
  induction 1 as [x|v Hv|l IH|kvs IH|v O V D] using pattern_induction.
  - simpl. split; [intros H y ->%elem_of_singleton; exact H|]. intros H. apply (H x). by apply elem_of_singleton.
  - destruct v; try done; (split; [intros _ x []%elem_of_empty|intros _; apply (cmp_refl Compare)]).
  - rewrite agree_array. cbn [vars_of]. setoid_rewrite elem_of_union_list. rewrite Forall_forall in IH. rewrite Forall_forall. split.
    + intros H x (X & (y & -> & Hy)%list_elem_of_fmap & Hx). by apply (IH y Hy); [apply H|].
    + intros H y Hy. apply IH; [done|]. intros x Hx. apply H. exists (vars_of varVisitor y). split; [by apply list_elem_of_fmap_2|done].
  - rewrite agree_object. cbn [vars_of]. setoid_rewrite elem_of_union_list. rewrite Forall_forall in IH. rewrite Forall_forall. split.
    + intros H x (X & (y & -> & Hy)%list_elem_of_fmap & Hx). simpl in Hx. rewrite (left_id_L ∅ (∪)) in Hx. by apply (IH y Hy); [apply H|].
    + intros H y Hy. apply IH; [done|]. intros x Hx. apply H. exists (vars_of varVisitor y.2). split; [|done].
      apply list_elem_of_fmap. exists y. split; [|done]. simpl. by rewrite (left_id_L ∅ (∪)).
  - split; [intros _ x Hx; by apply Hs, V|]. intros _. unfold agree_term. rewrite !eval_opaque by done. by apply D.
Qed.

(** ** The invariant of the unifier *)
Context `{VO : VarOrder, VOK : !VarOrderOk VO}.

Record determined (u : unifier) : Prop := {
  dt_safe : u_safe u = s;
  dt_unified : forall x, x ∈ unified u -> agree x;
  dt_unknown : forall a deps, unknown u !! a = Some deps -> agree a <-> forall d, d ∈ deps -> agree d;
}.

Lemma fold_determined {B} (f : unifier -> B -> unifier) (l : list B) :
  (forall u x, x ∈ l -> determined u -> determined (f u x)) -> forall u, determined u -> determined (fold_left f l u).
Proof.
  induction l as [|x l IH]; intros H u Hu; simpl; [done|]. apply IH; [|apply H; [left|done]]. intros u' y Hy. apply H. by right.
Qed.

Lemma markSafe_rec_determined fuel : forall x u, agree x -> determined u -> determined (markSafe_rec fuel x u).
Proof.
  induction fuel as [|fuel IH]; intros x u Hx Hu; [done|]. simpl. set (u1 := MkUnifier _ _ _). set (vs := default ∅ (unknown u !! x)).
  assert (H1 : determined u1).
  { destruct Hu as [S U K]. split; simpl; [done| |].
    - intros y [Hy| ->%elem_of_singleton]%elem_of_union; auto.
    - intros a deps [_ E]%lookup_delete_Some. by apply K. }
  assert (H2 : determined (fold_left (fun u v => markSafe_rec fuel v u) (var_order vs) u1)).
  { apply fold_determined; [|done]. intros u' v Hv Hu'. apply IH; [|done]. apply var_order_ok in Hv. unfold vs in Hv.
    destruct (unknown u !! x) as [deps|] eqn:E; [|by apply elem_of_empty in Hv]. by apply (dt_unknown _ Hu x deps E). }
  apply fold_determined; [|done]. intros w v _ Hw. destruct (unknown w !! v) as [deps|] eqn:E; [|done].
  unfold Contains. destruct (bool_decide_reflect (x ∈ deps)) as [Hd|_]; [|done].
  assert (Iff : agree v <-> forall d, d ∈ deps ∖ {[x]} -> agree d).
  { rewrite (dt_unknown _ Hw v deps E). split; intros H d Hd'; [apply H; set_solver|].
    destruct (decide (d = x)) as [->|]; [done|]. apply H. set_solver. }
  assert (Hw' : determined (set_unknown w (<[v := deps ∖ {[x]}]> (unknown w)))).
  { destruct Hw as [S U K]. split; simpl; [done..|]. intros a ds [[<- <-]|[_ E']]%lookup_insert_Some; [done|by apply K]. }
  unfold is_empty. destruct (bool_decide_reflect (deps ∖ {[x]} = ∅)) as [E0|_]; [|done].
  apply IH; [|done]. apply Iff. rewrite E0. intros d []%elem_of_empty.
Qed.

Lemma markSafe_determined u x : agree x -> determined u -> determined (markSafe u x).
Proof. apply markSafe_rec_determined. Qed.

Lemma isSafe_agree u x : determined u -> isSafe u x = true -> agree x.
Proof.
  intros [S U K]. unfold isSafe, Contains. rewrite orb_true_iff, !bool_decide_eq_true, S. intros [H|H]; [by apply Hs|by apply U].
Qed.

Lemma markAllSafe_determined u v : pattern s v -> agree_term v -> determined u -> determined (markAllSafe u v).
Proof.
  intros P A Hu. apply fold_determined; [|done]. intros u' x Hx%var_order_ok. apply markSafe_determined. by apply (pattern_agree v P).
Qed.

(** The equation [a = b] between a variable and a composite. *)
Lemma markUnknowns u a (l : list string) : forall m, (forall x, x ≠ a -> unknown (fold_left (fun u v => markUnknown u a v) l u) !! x = unknown u !! x) /\
  u_safe (fold_left (fun u v => markUnknown u a v) l u) = u_safe u /\ unified (fold_left (fun u v => markUnknown u a v) l u) = unified u /\
  (unknown u !! a = m -> forall deps, unknown (fold_left (fun u v => markUnknown u a v) l u) !! a = Some deps ->
     forall d, d ∈ deps <-> d ∈ default ∅ m \/ d ∈ l).
Proof.
  revert u. induction l as [|y l IH]; intros u m; simpl.
  - split_ands; [done..|]. intros <- deps -> d. simpl. rewrite elem_of_nil. naive_solver.
  - destruct (IH (markUnknown u a y) (Some (default ∅ (unknown u !! a) ∪ {[y]}))) as (H1 & H2 & H3 & H4). split_ands; [|done..|].
    + intros x N. rewrite H1 by done. simpl. by rewrite lookup_insert_ne.
    + intros <- deps E d. rewrite (H4 ltac:(simpl; by rewrite lookup_insert_eq) deps E d). simpl. rewrite elem_of_cons. set_solver.
Qed.

Lemma unifyAll_determined u a b : pattern s b -> (agree a <-> agree_term b) -> determined u -> determined (unifyAll u a b).
Proof.
  intros P E Hu. unfold unifyAll. destruct (isSafe u a) eqn:Sa.
  { apply markAllSafe_determined; [done| |done]. by apply E, (isSafe_agree u). }
  set (un := Diff (Diff (vars_of varVisitor b) (u_safe u)) (unified u)).
  assert (V : agree a <-> forall d, d ∈ un -> agree d).
  { rewrite E, (pattern_agree b P). unfold un, Diff. split; intros H d Hd; [apply H; set_solver|]. destruct Hu as [S U K].
    destruct (decide (d ∈ s)); [by apply Hs|]. destruct (decide (d ∈ unified u)); [by apply U|]. apply H. set_solver. }
  unfold is_empty. destruct (bool_decide_reflect (un = ∅)) as [E0|_].
  { apply markSafe_determined; [|done]. apply V. rewrite E0. intros d []%elem_of_empty. }
  destruct (markUnknowns u a (var_order un) (unknown u !! a)) as (H1 & H2 & H3 & H4). destruct Hu as [S U K]. split; [congruence|by rewrite H3|].
  intros x deps Ex. destruct (decide (x = a)) as [->|N]; [|rewrite H1 in Ex by done; by apply K].
  setoid_rewrite (H4 eq_refl deps Ex). setoid_rewrite var_order_ok. rewrite V. split; [|by intros H d Hd; apply H; right].
  intros H d [Hd|Hd]; [|by apply H]. destruct (unknown u !! a) as [ds|] eqn:Ea; [|by apply elem_of_empty in Hd].
  by apply (proj1 (K a ds Ea)); [apply V|].
Qed.

(** ** Unification *)
Definition solves (a b : value) : Prop := Compare (eval th1 a) (eval th1 b) = Eq /\ Compare (eval th2 a) (eval th2 b) = Eq.

Lemma solves_agree a b : solves a b -> agree_term a <-> agree_term b.
Proof.
  intros [E1 E2]. unfold agree_term. split; intros H.
  - apply (cmp_eq_trans Compare _ (eval th1 a)); [by apply (cmp_eq_sym Compare)|]. by apply (cmp_eq_trans Compare _ (eval th2 a)).
  - apply (cmp_eq_trans Compare _ (eval th1 b)); [done|]. apply (cmp_eq_trans Compare _ (eval th2 b)); [done|by apply (cmp_eq_sym Compare)].
Qed.

Lemma markUnknown_pair u x y : (agree x <-> agree y) -> determined u -> determined (markUnknown (markUnknown u x y) y x).
Proof.
  intros E Hu. assert (One : forall u x y, (agree x <-> agree y) -> determined u -> determined (markUnknown u x y)).
  { clear u x y E Hu. intros u x y E [S U K]. split; simpl; [done..|]. intros a deps [[<- <-]|[_ Ea]]%lookup_insert_Some; [|by apply K].
    destruct (unknown u !! x) as [ds|] eqn:Ex; simpl.
    - split; [|intros H; apply E, H; set_solver]. intros H d [Hd| ->%elem_of_singleton]%elem_of_union; [|by apply E]. by apply (proj1 (K x ds Ex) H).
    - split; [intros H d [[]%elem_of_empty| ->%elem_of_singleton]%elem_of_union; by apply E|]. intros H. apply E, H. set_solver. }
  apply One; [by symmetry|]. by apply One.
Qed.

Lemma opaque_agree v : pattern s v -> opaque_term v = true -> agree_term v.
Proof.
  destruct 1 as [x|v Hv|l Hl|kvs S K Hk|v O V D]; intros Ho; try discriminate Ho; [by destruct v|].
  unfold agree_term. rewrite !eval_opaque by done. by apply D.
Qed.

Lemma obj_get_eval k kvs th : obj_get k (map (fun kv => (kv.1, eval th kv.2)) kvs) = option_map (eval th) (obj_get k kvs).
Proof.
  unfold obj_get. induction kvs as [|kv kvs IH]; simpl; [done|]. unfold same_key. simpl. by destruct (Compare k kv.1).
Qed.

Lemma unify_arrays la lb u : Forall (fun a => pattern s a -> forall b u, pattern s b -> solves a b -> determined u -> determined (unify u a b)) la ->
  pattern s (Array la) -> pattern s (Array lb) -> solves (Array la) (Array lb) -> determined u ->
  determined (fold_left (fun u fy => fy.1 u fy.2) (combine (map (fun x u y => unify u x y) la) lb) u).
Proof.
  intros IH Pa Pb [E1 E2]. simpl in E1, E2. apply slice_compare_eq_iff in E1, E2.
  apply pattern_array_inv in Pa as Fa, Pb as Fb. clear Pa Pb. revert lb u Fb E1 E2.
  induction IH as [|a la Ha _ IH]; intros [|b lb] u Fb E1 E2 Hu; try done. simpl. inversion_clear Fa. inversion_clear Fb.
  inversion_clear E1. inversion_clear E2. apply IH; try done. by apply Ha.
Qed.

Lemma unify_objects oa ob u :
  Forall (fun kv => (pattern s kv.1 -> forall b u, pattern s b -> solves kv.1 b -> determined u -> determined (unify u kv.1 b)) /\
    (pattern s kv.2 -> forall b u, pattern s b -> solves kv.2 b -> determined u -> determined (unify u kv.2 b))) oa ->
  pattern s (Object oa) -> pattern s (Object ob) -> solves (Object oa) (Object ob) -> determined u ->
  determined (fold_left (fun u kf => match obj_get kf.1 ob with Some v2 => kf.2 u v2 | None => u end)
    (map (fun kv => (kv.1, fun u y => unify u kv.2 y)) oa) u).
Proof.
  intros IH Pa Pb [E1 E2]. apply pattern_object_inv in Pa as [Sa Fa], Pb as [Sb Fb].
  apply fold_determined. intros u' kf (kv & -> & Hkv)%list_elem_of_fmap Hu. simpl. destruct (obj_get kv.1 ob) as [v2|] eqn:G; [|done].
  rewrite Forall_forall in IH, Fa, Fb. apply IH; [done|by apply Fa| | |done].
  - apply obj_get_Some in G as (kv2 & Hkv2 & _ & <-). by apply Fb.
  - pose proof (obj_get_elem oa kv (ssorted_distinct _ _ _ Sa) Hkv) as Ga. cbn [eval] in E1, E2.
    pose proof (object_ext_inv _ _ E1 kv.1) as O1. pose proof (object_ext_inv _ _ E2 kv.1) as O2.
    rewrite !obj_get_eval, Ga, G in O1, O2. done.
Qed.

Lemma unify_determined a : pattern s a -> forall b u, pattern s b -> solves a b -> determined u -> determined (unify u a b).
Proof.
  induction a as [a IH] using value_composite_ind. intros Pa b u Pb E Hu. pose proof (solves_agree a b E) as A.
  assert (Mark : forall y, b = Var y -> agree_term a -> determined (markSafe u y)).
  { intros y -> Ha. apply markSafe_determined; [by apply A|done]. }
  assert (MarkAll : agree_term a -> determined (markAllSafe u b)) by (intros Ha; apply markAllSafe_determined; [done|by apply A|done]).
  assert (Back : opaque_term b = true -> determined (markAllSafe u a)).
  { intros Ho. apply markAllSafe_determined; [done|by apply A, opaque_agree|done]. }
  destruct (opaque_term a) eqn:Oa.
  { pose proof (opaque_agree a Pa Oa) as Ha. destruct a; try discriminate Oa; cbn [unify];
      try (destruct (isRefSafe _ _); [|done]); try (destruct (isCallSafe _ _); [|done]); destruct b; try done;
      (by eapply Mark) || by apply MarkAll. }
  destruct a as [| | | |x| |la|oa| | | | | ]; try discriminate Oa;
    try (cbn [unify]; destruct b; try done; apply (Mark _ eq_refl), (cmp_refl Compare)); cbn [unify].
  - assert (X : agree x <-> agree_term b) by exact A.
    assert (Ho : opaque_term b = true -> determined (markSafe u x)) by (intros O; apply markSafe_determined; [by apply X, opaque_agree|done]).
    destruct b as [| | | |y| | | | | | | | ]; try (apply markSafe_determined; [apply X, (cmp_refl Compare)|done]); try (by apply Ho); try (by apply unifyAll_determined).
    + destruct (isSafe u y) eqn:Sy; [apply markSafe_determined; [by apply X, (isSafe_agree u)|done]|].
      destruct (isSafe u x) eqn:Sx; [apply markSafe_determined; [by apply X, (isSafe_agree u)|done]|]. by apply markUnknown_pair.
    + destruct (isRefSafe _ _); [by apply Ho|done].
    + destruct (isCallSafe _ _); [by apply Ho|done].
  - destruct b as [| | | |y| |lb| | | | | | ]; try done; try (by apply Back); try (by apply unifyAll_determined; [|symmetry|]).
    + destruct (isRefSafe _ _); [by apply Back|done].
    + destruct (Nat.eqb_spec (length la) (length lb)) as [Hl|]; [|done]. by apply unify_arrays.
    + destruct (isCallSafe _ _); [by apply Back|done].
  - destruct b as [| | | |y| | |ob| | | | | ]; try done; try (by apply unifyAll_determined; [|symmetry|]).
    + destruct (isRefSafe _ _); [by apply Back|done].
    + destruct (Nat.eqb_spec (length oa) (length ob)) as [Hl|]; [|done]. by apply unify_objects.
    + destruct (isCallSafe _ _); [by apply Back|done].
Qed.
End Agree.
End Eval.

(** ** Fuel

    The recursion of [markSafe] ends before the fuel it is started with. *)
Section Fuel.
Context `{VO : VarOrder, VOK : !VarOrderOk VO}.

Lemma size_unknown_delete m x deps : m !! x = Some deps -> size_unknown m = 1 + size deps + size_unknown (delete x m).
Proof. intros E. unfold size_unknown. rewrite (map_fold_delete_L _ _ x deps); [done| |done]. intros. lia. Qed.

Lemma size_unknown_shrink m v x deps : m !! v = Some deps -> x ∈ deps -> size_unknown (<[v := deps ∖ {[x]}]> m) < size_unknown m.
Proof.
  intros E Hx. rewrite (size_unknown_delete m v deps E), (size_unknown_delete (<[v := _]> m) v (deps ∖ {[x]})) by apply lookup_insert_eq.
  rewrite delete_insert_eq. assert (size (deps ∖ {[x]}) < size deps); [|lia]. apply subset_size. set_solver.
Qed.

Abbreviation weight u := (size_unknown (unknown u)).

(** The step of the second loop. *)
Definition dependants (mark : string -> unifier -> unifier) (x : string) (u : unifier) (v : string) : unifier :=
  match unknown u !! v with
  | Some deps =>
      if Contains deps x then
        let u := set_unknown u (<[v := deps ∖ {[x]}]> (unknown u)) in
        if is_empty (deps ∖ {[x]}) then mark v u else u
      else u
  | None => u
  end.

Lemma dependants_weight mark x u v : (forall y u, weight (mark y u) <= weight u) -> weight (dependants mark x u v) <= weight u.
Proof.
  intros H. unfold dependants. destruct (unknown u !! v) as [deps|] eqn:E; [|lia]. unfold Contains. destruct (bool_decide_reflect (x ∈ deps)) as [Hx|]; [|lia].
  pose proof (size_unknown_shrink _ v x deps E Hx). destruct (is_empty _); simpl; [|lia]. etransitivity; [apply H|]. simpl. lia.
Qed.

Lemma fold_weight {B} (f : unifier -> B -> unifier) l : (forall u x, weight (f u x) <= weight u) -> forall u, weight (fold_left f l u) <= weight u.
Proof. intros H. induction l as [|x l IH]; intros u; simpl; [lia|]. etransitivity; [apply IH|apply H]. Qed.

Lemma delete_weight m x : size_unknown (delete x m) <= size_unknown m.
Proof. destruct (m !! x) as [deps|] eqn:E; [rewrite (size_unknown_delete m x deps E); lia|]. by rewrite delete_id. Qed.

Lemma markSafe_weight n : forall x u, weight (markSafe_rec n x u) <= weight u.
Proof.
  induction n as [|n IH]; intros x u; simpl; [lia|].
  etransitivity; [apply (fold_weight (dependants (markSafe_rec n) x)); intros; by apply dependants_weight|].
  etransitivity; [apply (fold_weight (fun u v => markSafe_rec n v u)); intros; apply IH|]. apply delete_weight.
Qed.

Lemma fold_same {B} (f g : unifier -> B -> unifier) l k : (forall u x, weight (f u x) <= weight u) ->
  (forall u x, weight u <= k -> f u x = g u x) -> forall u, weight u <= k -> fold_left f l u = fold_left g l u.
Proof.
  intros Hw H. induction l as [|x l IH]; intros u Hu; simpl; [done|]. rewrite <- H by done. apply IH. pose proof (Hw u x). lia.
Qed.

Lemma markSafe_enough n : forall k x u, weight u < n -> weight u < k -> markSafe_rec n x u = markSafe_rec k x u.
Proof.
  induction n as [|n IH]; intros [|k] x u Hn Hk; try lia. simpl. set (u1 := MkUnifier _ _ _).
  pose proof (delete_weight (unknown u) x) as W1. assert (W : weight u1 <= weight u) by exact W1.
  set (vs := var_order (default ∅ (unknown u !! x))).
  assert (L1 : fold_left (fun u v => markSafe_rec n v u) vs u1 = fold_left (fun u v => markSafe_rec k v u) vs u1).
  { destruct (unknown u !! x) as [deps|] eqn:E.
    - assert (weight u1 < weight u) by (unfold u1; simpl; rewrite (size_unknown_delete _ x deps E); lia).
      apply (fold_same _ _ _ (weight u1)); [intros; apply markSafe_weight| |done]. intros w v Hw. apply IH; lia.
    - assert (Nil : vs = []); [|by rewrite Nil]. destruct vs as [|y l] eqn:Ev; [done|]. unfold vs in Ev.
      assert (Hy : y ∈ var_order (default ∅ None)) by (rewrite Ev; left). by apply var_order_ok, elem_of_empty in Hy. }
  rewrite <- L1. set (u2 := fold_left _ vs u1).
  assert (W2 : weight u2 <= weight u).
  { unfold u2. etransitivity; [apply (fold_weight (fun u v => markSafe_rec n v u)); intros; apply markSafe_weight|done]. }
  apply (fold_same (dependants (markSafe_rec n) x) (dependants (markSafe_rec k) x) _ (weight u)); [|
    |done].
  - intros w v. apply dependants_weight. intros. apply markSafe_weight.
  - intros w v Hw. unfold dependants. destruct (unknown w !! v) as [deps|] eqn:E; [|done]. unfold Contains.
    destruct (bool_decide_reflect (x ∈ deps)) as [Hx|]; [|done]. pose proof (size_unknown_shrink _ v x deps E Hx).
    destruct (is_empty _); [|done]. apply IH; simpl; lia.
Qed.
End Fuel.

Lemma Unify_agree `{VO : VarOrder, VOK : !VarOrderOk VO} (opaque : (string -> value) -> value -> value) s a b th1 th2 :
  pattern opaque s a -> pattern opaque s b -> agree_on s th1 th2 ->
  Compare (eval opaque th1 a) (eval opaque th1 b) = Eq -> Compare (eval opaque th2 a) (eval opaque th2 b) = Eq ->
  agree_on (Unify s a b) th1 th2.
Proof.
  intros Pa Pb Hs E1 E2. enough (D : determined s th1 th2 (unify (MkUnifier s ∅ ∅) a b)) by (intros x; apply D).
  apply (unify_determined opaque s th1 th2 Hs a Pa b); [done|by split|]. split; simpl; [done| |].
  - intros x []%elem_of_empty.
  - intros x deps E. by rewrite lookup_empty in E.
Qed.

(** C17: the variables that [Unify] returns are determined by the equation: two
    valuations that agree on the safe variables and both solve [a = b] agree on all
    of them.  The terms are patterns: variables, scalars, arrays, objects with ground
    keys, and other terms (references, calls, sets, comprehensions) only if their
    variables are safe; in [x = {y}] the code returns [x], which is not determined.
    Marking follows chains of equations that wait for each other, and whatever fuel
    from the one it is started with gives the same result. *)
Theorem Unify_determines `{VO : VarOrder, VOK : !VarOrderOk VO} (opaque : (string -> value) -> value -> value)
    (s : VarSet) (a b : value) (th1 th2 : string -> value) :
  pattern opaque s a -> pattern opaque s b -> agree_on s th1 th2 ->
  Compare (eval opaque th1 a) (eval opaque th1 b) = Eq -> Compare (eval opaque th2 a) (eval opaque th2 b) = Eq ->
  agree_on (Unify s a b) th1 th2 /\
  forall u x n, size_unknown (unknown u) < n -> markSafe_rec n x u = markSafe u x.
Proof.
  intros Pa Pb Hs E1 E2. split; [by apply (Unify_agree opaque)|]. intros u x n Hn. apply markSafe_enough; lia.
Qed.

(** [[x, y, z] = [[y, w], z, 1]] binds everything: [z] is [1], hence [y], and [x] with
    [w] safe. *)
Lemma Unify_determines_witness :
  let opaque := fun (_ : string -> value) (v : value) => v in
  let one := Number (NInt 1) in
  let a := Array [Var "x"; Var "y"; Var "z"] in
  let b := Array [Array [Var "y"; Var "w"]; Var "z"; one] in
  let th := fun x : string => if String.eqb x "x" then Array [one; Str "w"] else if String.eqb x "w" then Str "w" else one in
  let th' := fun x : string => if String.eqb x "q" then Null else th x in
  elements (Unify {["w"]} a b) = ["y"; "z"; "x"] /\ agree_on (Unify {["w"]} a b) th th'.
Proof.
  intros opaque one a b th th'. split; [vm_compute; reflexivity|].
  assert (Pa : pattern opaque {["w"]} a) by (repeat constructor).
  assert (Pb : pattern opaque {["w"]} b) by (repeat constructor).
  assert (Hs : agree_on {["w"]} th th') by (intros x Hx; apply elem_of_singleton in Hx; subst x; vm_compute; reflexivity).
  apply (Unify_determines opaque {["w"]} a b th th' Pa Pb Hs); vm_compute; reflexivity.
Defined.

(** A set with an unsafe variable does not determine the variable that equals it, which
    is returned all the same; the variable in the set remains unsafe. *)
Lemma Unify_set_member : elements (Unify ∅ (Var "x") (SetV [Var "y"])) = ["x"].
Proof. vm_compute. reflexivity. Qed.
