(* ===== verification/ReorderSound.v ===== *)
(** Correctness of the reordering of bodies (definitions in Safety.v), for bodies
    without closures. *)
From Stdlib Require Import ZArith Lia String.
From stdpp Require Import base gmap list strings.
From S2P Require Import Prelude SortedKeys Value Containers Builtins Document JsonPaths VarVisitor Safety UnifySafe.

Lemma Expr_Equal_refl e : Expr_Equal e e = true.
Proof. unfold Expr_Equal. by rewrite (cmp_at_refl Expr_Compare e) by apply Compare_ok_all. Qed.

Lemma covered_difference (vs g s o : VarSet) : vs ⊆ g ∪ s ∪ o -> (vs ∖ g) ∖ (o ∪ s) = ∅.
Proof. set_solver. Qed.
Lemma subseteq_difference_l (u t w : VarSet) : u ⊆ w -> u ∖ t ⊆ w.
Proof. set_solver. Qed.
Lemma empty_difference_L (s : VarSet) : ∅ ∖ s = ∅.
Proof. set_solver. Qed.

(** ** Bodies in a safe order *)
Section Order.
Context `{VO : VarOrder} (arity : list value -> Z) (globals : VarSet).

Definition expr_vars (e : expr) : VarSet := vars_of_expr SafetyCheckVisitorParams e.

(** [v] is safe in [e]: safe already, or an output of [e] when no more than [s] is
    safe. *)
Definition settled (e : expr) (s : VarSet) (v : string) : Prop :=
  v ∈ s \/ exists s' ovs, s' ⊆ s /\ outputVarsForExpr arity e s' = Some ovs /\ v ∈ ovs.

(** Each expression finds its variables safe, or makes them safe. *)
Fixpoint safe_order (s : VarSet) (b : body) : Prop :=
  match b with
  | [] => True
  | e :: b =>
      (forall v, v ∈ expr_vars e -> v ∈ globals \/ settled e s v) /\
      exists ovs, outputVarsForExpr arity e s = Some ovs /\ safe_order (s ∪ ovs) b
  end.

Lemma settled_mono e s s' v : s ⊆ s' -> settled e s v -> settled e s' v.
Proof. intros H [Hv|(t & ovs & Ht & E & Hv)]; [left; set_solver|right; exists t, ovs; set_solver]. Qed.

Lemma outputs_set_index i e s : outputVarsForExpr arity (set_index i e) s = outputVarsForExpr arity e s.
Proof. by destruct e. Qed.
Lemma vars_set_index i e : expr_vars (set_index i e) = expr_vars e.
Proof. by destruct e. Qed.

Lemma safe_order_snoc s b e s' : safe_order s b -> outputs_loop arity b s = Some s' ->
  (forall v, v ∈ expr_vars e -> v ∈ globals \/ settled e s' v) -> is_Some (outputVarsForExpr arity e s') -> safe_order s (b ++ [e]).
Proof.
  revert s. induction b as [|x b IH]; intros s S L H [ovs O]; simpl in *.
  - injection L as ->. split; [done|]. by exists ovs.
  - destruct S as [Hx (o & Eo & S)]. rewrite Eo in L. cbn [mbind option_bind] in L. split; [done|]. exists o. split; [done|]. by apply IH.
Qed.

Lemma outputs_loop_snoc b e s : outputs_loop arity (b ++ [e]) s = (s' ← outputs_loop arity b s; ovs ← outputVarsForExpr arity e s'; Some (s' ∪ ovs)).
Proof.
  revert s. induction b as [|x b IH]; intros s; simpl; [done|]. destruct (outputVarsForExpr arity x s); simpl; [apply IH|done].
Qed.

(** ** The invariant of the loop *)
Context (b : body).

(** As [NewBody] numbers the expressions; no closures; no [some] declarations. *)
Definition plain_expr (i : nat) (e : expr) : Prop :=
  expr_index e = Z.of_nat i /\ unsafeVarsInClosures e = ∅ /\ forall s, is_Some (outputVarsForExpr arity e s).
Context (Hb : forall i e, b !! i = Some e -> plain_expr i e).

Definition start : VarSet := safe (initial globals b).

Record progress (r : reordering) : Prop := {
  pg_length : length (store r) = length b;
  pg_nodup : NoDup (reordered r);
  pg_range : forall i, i ∈ reordered r -> i < length b;
  pg_placed : forall p i e, reordered r !! p = Some i -> b !! i = Some e -> store r !! i = Some (set_index (Z.of_nat p) e);
  pg_rest : forall i, i ∉ reordered r -> store r !! i = b !! i;
  pg_order : safe_order start (exprs_at (store r) (reordered r));
  pg_safe : outputs_loop arity (exprs_at (store r) (reordered r)) start = Some (safe r);
  pg_unsafe : forall i e v, i ∉ reordered r -> b !! i = Some e -> v ∈ expr_vars e -> v ∈ globals \/ v ∈ default ∅ (unsafe r !! i) \/ settled e (safe r) v;
  pg_only : forall i u, unsafe r !! i = Some u -> (i ∉ reordered r) /\ u <> ∅ /\ exists e, b !! i = Some e /\ u ⊆ expr_vars e ∖ globals;
}.

Lemma initial_unsafe i : unsafe (initial globals b) !! i =
  (e ← b !! i; (let vs := expr_vars e ∖ globals in if is_empty vs then None else Some vs)).
Proof.
  unfold initial. cbn [unsafe]. set (l := List.filter _ _).
  assert (El : forall j vs, (j, vs) ∈ l <-> exists e, b !! j = Some e /\ vs = expr_vars e ∖ globals /\ is_empty vs = false).
  { intros j vs. unfold l. rewrite list_elem_of_In, filter_In, <- list_elem_of_In, elem_of_lookup_imap, negb_true_iff. simpl. split.
    - intros [(k & x & Ej & E) Ne]. injection Ej as -> ->. rewrite list_lookup_fmap in E. destruct (b !! k) as [e|] eqn:Ek; [|done].
      injection E as <-. exists e. done.
    - intros (e & E & -> & Ne). split; [|done]. exists j, (expr_vars e). split; [done|]. by rewrite list_lookup_fmap, E. }
  assert (Fn : forall j vs vs', (j, vs) ∈ l -> (j, vs') ∈ l -> vs = vs').
  { intros j vs vs' (e & E & -> & _)%El (e' & E' & -> & _)%El. congruence. }
  destruct (list_to_map l !! i) as [vs|] eqn:E.
  - apply elem_of_list_to_map_2, El in E as (e & -> & -> & Ne). simpl. by rewrite Ne.
  - apply not_elem_of_list_to_map_2 in E. destruct (b !! i) as [e|] eqn:Eb; [|done]. simpl. destruct (is_empty _) eqn:Ne; [done|].
    destruct E. apply list_elem_of_fmap. exists (i, expr_vars e ∖ globals). split; [done|]. apply El. eauto.
Qed.

Lemma initial_progress : progress (initial globals b).
Proof.
  split; try done.
  - constructor.
  - intros i Hi%elem_of_nil. done.
  - intros i e v _ E Hv. rewrite initial_unsafe, E. simpl. destruct (decide (v ∈ globals)) as [|N]; [by left|right; left].
    unfold is_empty. destruct (bool_decide_reflect (expr_vars e ∖ globals = ∅)) as [E0|_]; simpl; set_solver.
  - intros i u. rewrite initial_unsafe. destruct (b !! i); [|done]. simpl. unfold is_empty. destruct (bool_decide_reflect (expr_vars e ∖ globals = ∅)); [done|].
    intros [= <-]. split_ands; [apply not_elem_of_nil|done|by exists e].
Qed.

(** ** One expression *)
Lemma exprs_at_placed r i ovs : progress r -> i ∉ reordered r -> i < length b ->
  forall e, b !! i = Some e ->
  exprs_at (store (place r i ovs)) (reordered (place r i ovs)) =
  exprs_at (store r) (reordered r) ++ [set_index (Z.of_nat (length (reordered r))) e].
Proof.
  intros P N Hi e Ee. unfold exprs_at, place. cbn [store reordered]. rewrite omap_app. f_equal.
  - apply list_omap_ext, Forall_Forall2_diag, Forall_forall. intros j Hj. rewrite list_lookup_alter_ne; [done|]. intros ->. done.
  - simpl. rewrite list_lookup_alter_eq, (pg_rest r P i N), Ee. done.
Qed.

Lemma place_progress r i e ovs : progress r -> i ∉ reordered r -> b !! i = Some e -> outputVarsForExpr arity e (safe r) = Some ovs ->
  (forall v, v ∈ expr_vars e -> v ∈ globals \/ settled e (safe r) v) -> progress (place r i ovs).
Proof.
  intros P N Ee O V. pose proof (lookup_lt_Some _ _ _ Ee) as Hi. pose proof (exprs_at_placed r i ovs P N Hi e Ee) as X.
  pose proof P as [Pl Pn Pr Pp Pe Po Ps Pu Pq]. set (n := length (reordered r)) in *. split.
  - unfold place. cbn [store]. by rewrite length_alter.
  - apply NoDup_app. split_ands; [done| |apply NoDup_singleton]. intros j Hj ->%list_elem_of_singleton. done.
  - intros j [Hj| ->%list_elem_of_singleton]%elem_of_app; [by apply Pr|done].
  - intros p j f. unfold place. cbn [store reordered]. intros E Ef. apply lookup_app_Some in E as [E|[Hp E]].
    + assert (j ≠ i) by (intros ->; by apply N, list_elem_of_lookup_2 with p). rewrite list_lookup_alter_ne by done. by apply Pp.
    + apply list_lookup_singleton_Some in E as [E <-]. assert (p = n) as -> by (unfold n; lia). rewrite list_lookup_alter_eq, (Pe i N). by rewrite Ef.
  - intros j Hj. unfold place in *. cbn [store reordered] in *. apply not_elem_of_app in Hj as [Hj Hi'].
    rewrite list_lookup_alter_ne; [by apply Pe|]. intros ->. apply Hi'. left.
  - rewrite X. apply (safe_order_snoc _ _ _ (safe r)); [done..| |].
    + intros v. rewrite vars_set_index. intros [Hv|[Hv|(t & o & Ht & Eo & Hv)]]%V; [by left|by right; left|right; right; exists t, o].
      by rewrite outputs_set_index.
    + rewrite outputs_set_index, O. done.
  - rewrite X, outputs_loop_snoc, Ps. cbn [mbind option_bind]. by rewrite outputs_set_index, O.
  - intros j f v Hj Ef Hv. unfold place in *. cbn [reordered unsafe safe] in *. apply not_elem_of_app in Hj as [Hj Hi'].
    assert (j ≠ i) by (intros ->; apply Hi'; left). rewrite lookup_delete_ne by done.
    destruct (Pu j f v Hj Ef Hv) as [?|[?|Hs]]; [by left|by right; left|right; right]. apply (settled_mono _ (safe r)); [|done]. unfold Update. set_solver.
  - intros j u. unfold place. cbn [reordered unsafe]. intros [Nj E]%lookup_delete_Some. destruct (Pq j u E) as [Hj Hu]. split; [|done].
    rewrite not_elem_of_app. split; [done|]. by intros ->%list_elem_of_singleton.
Qed.

(** What is known of an expression that was considered. *)
Definition considered (r : reordering) (i : nat) : Prop :=
  i ∈ reordered r \/ (exists e, b !! i = Some e /\ Body_Contains (exprs_at (store r) (reordered r)) e = true) \/ is_Some (unsafe r !! i).

Lemma made_Some r : progress r -> is_Some (outputVarsForBody arity (exprs_at (store r) (reordered r)) (safe r)).
Proof.
  intros P. unfold outputVarsForBody. enough (H : forall l s, (forall e, e ∈ l -> forall s, is_Some (outputVarsForExpr arity e s)) -> is_Some (outputs_loop arity l s)).
  { destruct (H (exprs_at (store r) (reordered r)) (safe r)) as [o ->]; [|done]. intros e (i & Hi & E)%list_elem_of_omap s.
    apply list_elem_of_lookup in Hi as [p Ep]. pose proof (pg_range r P i (list_elem_of_lookup_2 _ _ _ Ep)) as Hi.
    destruct (lookup_lt_is_Some_2 b i Hi) as [f Ef]. rewrite (pg_placed r P p i f Ep Ef) in E. injection E as <-.
    rewrite outputs_set_index. by apply (Hb i f Ef). }
  induction l as [|e l IH]; intros s H; simpl; [done|]. destruct (H e ltac:(left) s) as [o ->]. simpl. apply IH. intros f Hf. apply H. by right.
Qed.

Definition left_unsafe (r : reordering) (i : nat) (ovs : VarSet) : VarSet := default ∅ (unsafe r !! i) ∖ (ovs ∪ safe r).

Lemma postpone_progress r i e ovs : progress r -> i ∉ reordered r -> b !! i = Some e -> outputVarsForExpr arity e (safe r) = Some ovs ->
  left_unsafe r i ovs <> ∅ -> progress (MkReordering (store r) (reordered r) (safe r) (<[i := left_unsafe r i ovs]> (unsafe r))).
Proof.
  intros [Pl Pn Pr Pp Pe Po Ps Pu Pq] N Ee O L. split; try done; cbn [reordered safe unsafe].
  - intros j f v Hj Ef Hv. destruct (decide (j = i)) as [->|Nj]; [|rewrite lookup_insert_ne by done; by apply Pu].
    rewrite lookup_insert_eq. simpl. destruct (Pu i f v N Ef Hv) as [?|[Hu|?]]; [by left| |by right; right]. right.
    destruct (decide (v ∈ ovs ∪ safe r)) as [Ho|No]; [right|left; unfold left_unsafe; set_solver]. assert (f = e) as -> by congruence.
    apply elem_of_union in Ho as [Ho|Ho]; [|by left]. right. by exists (safe r), ovs.
  - intros j u [[<- <-]|[_ E]]%lookup_insert_Some; [|by apply Pq]. split_ands; [done..|]. exists e. split; [done|].
    unfold left_unsafe. destruct (unsafe r !! i) as [u0|] eqn:Eu; cbn [default]; [|apply subseteq_difference_l, empty_subseteq].
    destruct (Pq i u0 Eu) as (_ & _ & f & Ef & Hf). assert (f = e) as -> by congruence. by apply subseteq_difference_l.
Qed.

Lemma left_empty r i ovs v : left_unsafe r i ovs = ∅ -> v ∈ default ∅ (unsafe r !! i) -> v ∈ ovs ∪ safe r.
Proof. unfold left_unsafe. generalize (default ∅ (unsafe r !! i)). intros u E Hv. destruct (decide (v ∈ ovs ∪ safe r)); [done|]. set_solver. Qed.

Lemma consider_ok bodyVars r i : progress r -> i < length b -> exists r', consider arity bodyVars globals r i = Some r' /\ progress r' /\
  considered r' i /\ (forall j, considered r j -> considered r' j) /\ length (reordered r) <= length (reordered r').
Proof.
  intros P Hi. destruct (lookup_lt_is_Some_2 b i Hi) as [e Ee]. destruct (Hb i e Ee) as (_ & Cl & Out). unfold consider.
  destruct (decide (i ∈ reordered r)) as [Hin|N].
  { pose proof Hin as [p Ep]%list_elem_of_lookup. rewrite (pg_placed r P p i e Ep Ee). cbn [mbind option_bind].
    assert (C : Body_Contains (exprs_at (store r) (reordered r)) (set_index (Z.of_nat p) e) = true).
    { apply existsb_exists. exists (set_index (Z.of_nat p) e). split; [|by apply Expr_Equal_refl]. apply list_elem_of_In, list_elem_of_omap.
      exists i. split; [done|]. by apply pg_placed. }
    rewrite C. exists r. split_ands; try done. by left. }
  rewrite (pg_rest r P i N), Ee. cbn [mbind option_bind]. destruct (Body_Contains _ e) eqn:C.
  { exists r. split_ands; try done. right. left. by exists e. }
  destruct (Out (safe r)) as [ovs O]. rewrite O. destruct (made_Some r P) as [made ->]. cbn [mbind option_bind]. rewrite Cl.
  assert (E0 : is_empty (Diff (Diff (Intersect ∅ bodyVars) globals) made) = true) by (apply bool_decide_eq_true; unfold Diff, Intersect; set_solver).
  rewrite E0. cbn [negb andb]. fold (left_unsafe r i ovs). unfold is_empty. destruct (bool_decide_reflect (left_unsafe r i ovs = ∅)) as [L|L].
  - replace (MkReordering _ _ _ _) with r by (by destruct r). exists (place r i ovs).
    pose proof (exprs_at_placed r i ovs P N Hi e Ee) as X. split_ands; [done| | | |].
    + apply (place_progress r i e ovs); try done. intros v Hv. destruct (pg_unsafe r P i e v N Ee Hv) as [?|[Hu|?]]; [by left| |by right].
      right. assert (Ho : v ∈ ovs ∪ safe r) by (by apply (left_empty r i)). apply elem_of_union in Ho as [Ho|Ho]; [|by left].
      right. by exists (safe r), ovs.
    + left. unfold place. cbn [reordered]. apply elem_of_app. right. left.
    + intros j [Hj|[(f & Ef & Hf)|Hj]].
      * left. unfold place. cbn [reordered]. apply elem_of_app. by left.
      * right. left. exists f. split; [done|]. unfold Body_Contains in *. by rewrite X, existsb_app, Hf.
      * destruct (decide (j = i)) as [->|Nj]; [left; unfold place; cbn [reordered]; apply elem_of_app; right; left|].
        right. right. unfold place. cbn [unsafe]. by rewrite lookup_delete_ne.
    + unfold place. cbn [reordered]. rewrite length_app. simpl. lia.
  - eexists. split_ands; [done|by apply (postpone_progress r i e ovs)| | |done]; unfold considered; cbn [reordered store unsafe].
    + right. right. by rewrite lookup_insert_eq.
    + intros j [Hj|[Hj|Hj]]; [by left|by right; left|right; right]. apply lookup_insert_is_Some'. by right.
Qed.

(** ** Passes *)
Lemma pass_ok bodyVars todo : (forall i, i ∈ todo -> i < length b) -> forall r, progress r ->
  exists r', pass arity bodyVars globals todo r = Some r' /\ progress r' /\ (forall i, i ∈ todo -> considered r' i) /\
  (forall j, considered r j -> considered r' j) /\ length (reordered r) <= length (reordered r').
Proof.
  induction todo as [|i todo IH]; intros Ht r P; simpl.
  { exists r. split_ands; try done. intros i Hi%elem_of_nil. done. }
  destruct (consider_ok bodyVars r i P) as (r1 & -> & P1 & C1 & M1 & L1); [apply Ht; left|]. cbn [mbind option_bind].
  destruct (IH (fun j Hj => Ht j (list_elem_of_further _ _ _ Hj)) r1 P1) as (r2 & -> & P2 & C2 & M2 & L2). exists r2. split_ands; try done; [|auto|lia].
  intros j [->|Hj]%elem_of_cons; auto.
Qed.

Lemma reordered_length r : progress r -> length (reordered r) <= length b.
Proof.
  intros P. rewrite <- (length_seq (length b) 0). apply submseteq_length, NoDup_submseteq; [apply P|].
  intros i Hi%(pg_range r P). apply elem_of_seq. lia.
Qed.

Lemma passes_ok bodyVars fuel : forall r, progress r -> length b - length (reordered r) < fuel ->
  exists r', passes arity fuel bodyVars globals r = Some r' /\ progress r' /\ forall i, i < length b -> considered r' i.
Proof.
  induction fuel as [|fuel IH]; intros r P Hf; [lia|]. simpl. rewrite (pg_length r P).
  destruct (pass_ok bodyVars (seq 0 (length b))) with (r := r) as (r1 & -> & P1 & C1 & _ & L1); [intros i Hi%elem_of_seq; lia|done|].
  cbn [mbind option_bind]. destruct (Nat.eqb_spec (length (reordered r1)) (length (reordered r))) as [E|N].
  - exists r1. split_ands; [done..|]. intros i Hi. apply C1, elem_of_seq. lia.
  - apply IH; [done|]. pose proof (reordered_length r1 P1). lia.
Qed.

Lemma exprs_lookup r : progress r -> forall p, is_Some (exprs_at (store r) (reordered r) !! p) ->
  exists i e, reordered r !! p = Some i /\ b !! i = Some e /\ exprs_at (store r) (reordered r) !! p = Some (set_index (Z.of_nat p) e).
Proof.
  intros P. assert (X : exprs_at (store r) (reordered r) = imap (fun p i => default (Expr (TTerm Null) [] 0 false) (set_index (Z.of_nat p) <$> b !! i)) (reordered r)).
  { assert (Pl : forall p i, reordered r !! p = Some i -> exists e, b !! i = Some e /\ store r !! i = Some (set_index (Z.of_nat p) e)).
    { intros p i Ep. destruct (lookup_lt_is_Some_2 b i (pg_range r P i (list_elem_of_lookup_2 _ _ _ Ep))) as [e Ee]. exists e.
      split; [done|]. by apply (pg_placed r P p i e). }
    unfold exprs_at. revert Pl. generalize (reordered r) as l. intros l. change l with (drop 0 l) at 1.
    enough (G : forall n l, (forall p i, l !! p = Some i -> exists e, b !! i = Some e /\ store r !! i = Some (set_index (Z.of_nat (n + p)) e)) ->
      omap (fun i => store r !! i) l = imap (fun p i => default (Expr (TTerm Null) [] 0 false) (set_index (Z.of_nat (n + p)) <$> b !! i)) l) by
      (intros Pl; by apply (G 0)).
    clear l. intros n l. revert n. induction l as [|i l IH]; intros n Pl; csimpl; [done|].
    destruct (Pl 0 i eq_refl) as (e & -> & ->). simpl. rewrite Nat.add_0_r. f_equal. rewrite (IH (S n)).
    - apply imap_ext. intros p j _. simpl. do 4 f_equal. lia.
    - intros p j Ep. destruct (Pl (S p) j Ep) as (f & Ef & Es). exists f. split; [done|]. rewrite Es. do 3 f_equal. lia. }
  intros p [e' Ep]. rewrite X in Ep |- *. rewrite list_lookup_imap in Ep |- *. destruct (reordered r !! p) as [i|] eqn:Er; [|done].
  destruct (lookup_lt_is_Some_2 b i (pg_range r P i (list_elem_of_lookup_2 _ _ _ Er))) as [e Ee]. exists i, e. split_ands; [done..|]. simpl. by rewrite Ee.
Qed.

Lemma reorder_ok : exists r, reorder arity globals b = Some r /\ progress r /\ forall i, i < length b -> considered r i.
Proof. apply passes_ok; [apply initial_progress|]. simpl. lia. Qed.

(** ** A body that is in order already *)
Fixpoint in_order (s : VarSet) (l : body) : Prop :=
  match l with
  | [] => True
  | e :: l => exists ovs, outputVarsForExpr arity e s = Some ovs /\ expr_vars e ⊆ globals ∪ s ∪ ovs /\ in_order (s ∪ ovs) l
  end.

Lemma Contains_index l e : (forall f, f ∈ l -> expr_index f <> expr_index e) -> Body_Contains l e = false.
Proof.
  intros H. apply not_true_iff_false. intros (f & Hf%list_elem_of_In & E)%existsb_exists. apply (H f Hf). unfold Expr_Equal in E.
  destruct f as [t1 w1 i1 n1], e as [t2 w2 i2 n2]. simpl in *. destruct (Z.compare (terms_sortOrder t1) _); try done. simpl in E.
  destruct (Z.compare_spec i1 i2); [done|discriminate E..].
Qed.

Lemma exprs_at_seq n : n <= length b -> exprs_at b (seq 0 n) = take n b.
Proof.
  induction n as [|n IH]; intros Hn; [done|]. rewrite seq_S. unfold exprs_at in *. rewrite omap_app, IH by lia. simpl.
  destruct (lookup_lt_is_Some_2 b n Hn) as [e Ee]. rewrite Ee. by rewrite (take_S_r b n e Ee).
Qed.

Lemma set_index_same i e : expr_index e = i -> set_index i e = e.
Proof. destruct e. simpl. by intros <-. Qed.

(** The next expression of a body in order. *)
Lemma consider_next bodyVars n e ovs r : progress r -> store r = b -> reordered r = seq 0 n -> b !! n = Some e ->
  unsafe r !! n = unsafe (initial globals b) !! n -> outputVarsForExpr arity e (safe r) = Some ovs -> expr_vars e ⊆ globals ∪ safe r ∪ ovs ->
  consider arity bodyVars globals r n = Some (MkReordering b (seq 0 (S n)) (safe r ∪ ovs) (delete n (unsafe r))).
Proof.
  intros P Es Er Ee Eu O V. destruct (Hb n e Ee) as (Ix & Cl & _). unfold consider. pose proof (lookup_lt_Some _ _ _ Ee) as Hn.
  destruct (made_Some r P) as [made Em]. rewrite Em, Es, Er, Ee. cbn [mbind option_bind]. rewrite Contains_index, O; cycle 1.
  { rewrite exprs_at_seq by lia. intros f (j & Ej & Hj)%elem_of_take. rewrite Ix. destruct (Hb j f Ej) as (-> & _). lia. }
  cbn [mbind option_bind]. rewrite Cl.
  assert (E0 : is_empty (Diff (Diff (Intersect ∅ bodyVars) globals) made) = true) by (apply bool_decide_eq_true; unfold Diff, Intersect; set_solver).
  rewrite E0. cbn [negb andb].
  assert (L : is_empty (default ∅ (unsafe r !! n) ∖ (ovs ∪ safe r)) = true).
  { apply bool_decide_eq_true. rewrite Eu, initial_unsafe, Ee. simpl. destruct (is_empty (expr_vars e ∖ globals)); cbn [default]; [apply empty_difference_L|by apply covered_difference]. }
  rewrite L. unfold place. cbn [store reordered safe unsafe]. rewrite length_seq, seq_S. do 2 f_equal.
  apply list_eq. intros j. destruct (decide (j = n)) as [->|Nj]; [|by rewrite list_lookup_alter_ne].
  rewrite list_lookup_alter_eq, Ee. simpl. by rewrite set_index_same.
Qed.

Lemma next_progress n e ovs r : progress r -> store r = b -> reordered r = seq 0 n -> b !! n = Some e ->
  outputVarsForExpr arity e (safe r) = Some ovs -> expr_vars e ⊆ globals ∪ safe r ∪ ovs ->
  progress (MkReordering b (seq 0 (S n)) (safe r ∪ ovs) (delete n (unsafe r))).
Proof.
  intros P Es Er Ee O V. destruct (Hb n e Ee) as (Ix & _). assert (N : n ∉ reordered r) by (rewrite Er, elem_of_seq; lia).
  pose proof (place_progress r n e ovs P N Ee O) as Q. unfold place in Q. rewrite Es, Er, length_seq in Q.
  replace (alter (set_index (Z.of_nat n)) n b) with b in Q.
  - rewrite seq_S. apply Q. intros v Hv. apply V in Hv. rewrite !elem_of_union in Hv. destruct Hv as [[?|?]|?]; [by left|by right; left|].
    right. right. by exists (safe r), ovs.
  - apply list_eq. intros j. destruct (decide (j = n)) as [->|Nj]; [|by rewrite list_lookup_alter_ne].
    rewrite list_lookup_alter_eq, Ee. simpl. by rewrite set_index_same.
Qed.

Lemma pass_in_order bodyVars k : forall n r, n + k = length b -> progress r -> store r = b -> reordered r = seq 0 n ->
  (forall i, n <= i -> unsafe r !! i = unsafe (initial globals b) !! i) -> in_order (safe r) (drop n b) ->
  exists r', pass arity bodyVars globals (seq n k) r = Some r' /\ progress r' /\ store r' = b /\ reordered r' = seq 0 (length b).
Proof.
  induction k as [|k IH]; intros n r Hn P Es Er Eu Io; simpl.
  { exists r. replace (length b) with n by lia. done. }
  destruct (lookup_lt_is_Some_2 b n ltac:(lia)) as [e Ee]. rewrite (drop_S b e n Ee) in Io. destruct Io as (ovs & O & V & Io).
  rewrite (consider_next bodyVars n e ovs r) by (done || by apply Eu). cbn [mbind option_bind]. apply IH; try done; [lia|by apply (next_progress n e)|].
  cbn [unsafe]. intros i Hi. rewrite lookup_delete_ne by lia. apply Eu. lia.
Qed.

Lemma pass_done bodyVars r todo : progress r -> reordered r = seq 0 (length b) -> (forall i, i ∈ todo -> i < length b) ->
  pass arity bodyVars globals todo r = Some r.
Proof.
  intros P Er. induction todo as [|i todo IH]; intros Ht; simpl; [done|]. destruct (lookup_lt_is_Some_2 b i (Ht i ltac:(left))) as [e Ee].
  unfold consider. rewrite (pg_placed r P i i e); [|rewrite Er; apply lookup_seq; split; [done|apply Ht; left]|done]. cbn [mbind option_bind].
  assert (C : Body_Contains (exprs_at (store r) (reordered r)) (set_index (Z.of_nat i) e) = true).
  { apply existsb_exists. exists (set_index (Z.of_nat i) e). split; [|by apply Expr_Equal_refl]. apply list_elem_of_In, list_elem_of_omap.
    exists i. split; [rewrite Er; apply elem_of_seq; split; [lia|apply Ht; left]|]. apply pg_placed; try done. rewrite Er. apply lookup_seq. split; [done|apply Ht; left]. }
  rewrite C. cbn [mbind option_bind]. apply IH. intros j Hj. apply Ht. by right.
Qed.

Lemma reorder_in_order : in_order start b -> exists r, reorder arity globals b = Some r /\ progress r /\ store r = b /\ reordered r = seq 0 (length b).
Proof.
  intros Io. unfold reorder. set (bv := vars_of_body _ b).
  destruct (pass_in_order bv (length b) 0 (initial globals b)) as (r1 & E1 & P1 & S1 & R1); try done; [apply initial_progress|].
  cbn [passes]. change (store (initial globals b)) with b. rewrite E1. cbn [mbind option_bind]. change (reordered (initial globals b)) with (@nil nat).
  destruct (Nat.eqb_spec (length (reordered r1)) (length (@nil nat))) as [E|N]; [by exists r1|].
  rewrite R1, length_seq in N. destruct (length b) as [|n] eqn:L; [done|]. cbn [passes]. rewrite S1, L, <- L.
  rewrite pass_done; [|done|by rewrite L|intros i Hi%elem_of_seq; lia]. cbn [mbind option_bind]. rewrite Nat.eqb_refl. exists r1. by rewrite L.
Qed.
End Order.

(** ** Expressions without closures *)
Inductive plain : value -> Prop :=
| pl_leaf v : match v with Null | Boolean _ | Number _ | Str _ | Var _ => True | _ => False end -> plain v
| pl_ref l : Forall plain l -> plain (Ref l)
| pl_call l : Forall plain l -> plain (Call l)
| pl_array l : Forall plain l -> plain (Array l)
| pl_set l : ssorted Compare id l -> Forall plain l -> plain (SetV l)
| pl_object kvs : kv_sorted kvs -> Forall (fun kv => plain kv.1 /\ plain kv.2) kvs -> plain (Object kvs).

(** As [NewBody] numbers the expressions. *)
Inductive plain_at (i : nat) : expr -> Prop :=
| pl_term t ws n : plain t -> Forall (fun tv => plain tv.1 /\ plain tv.2) ws -> plain_at i (Expr (TTerm t) ws (Z.of_nat i) n)
| pl_terms l ws n : Forall plain l -> Forall (fun tv => plain tv.1 /\ plain tv.2) ws -> plain_at i (Expr (TTerms l) ws (Z.of_nat i) n).

Lemma plain_induction (P : value -> Prop) :
  (forall v, match v with Null | Boolean _ | Number _ | Str _ | Var _ => True | _ => False end -> P v) ->
  (forall l, Forall P l -> P (Ref l)) -> (forall l, Forall P l -> P (Call l)) -> (forall l, Forall P l -> P (Array l)) ->
  (forall l, ssorted Compare id l -> Forall P l -> P (SetV l)) ->
  (forall kvs, kv_sorted kvs -> Forall (fun kv => P kv.1 /\ P kv.2) kvs -> P (Object kvs)) -> forall v, plain v -> P v.
Proof.
  intros HL HR HC HA HS HO. apply (syntax_ind (fun v => plain v -> P v) (fun _ => True) (fun _ => True)); try done; intros; try (by apply HL);
    match goal with H : plain _ |- _ => inversion H; subst; try done end.
  - apply HR. rewrite Forall_forall in *. auto.
  - apply HA. rewrite Forall_forall in *. auto.
  - apply HO; [done|]. rewrite Forall_forall in *. intros kv Hkv. split; [apply H|apply H]; try done; by apply H3.
  - apply HS; [done|]. rewrite Forall_forall in *. auto.
  - apply HC. rewrite Forall_forall in *. auto.
Qed.

Lemma union_empty {B} (f : B -> VarSet) l : Forall (fun x => f x = ∅) l -> ⋃ (map f l) = ∅.
Proof. induction 1 as [|x l Hx _ IH]; simpl; [done|]. by rewrite Hx, IH, (left_id_L ∅ (∪)). Qed.

Lemma plain_closures v : plain v -> closure_vars v = ∅.
Proof.
  induction 1 as [v Hv|l IH|l IH|l IH|l S IH|kvs S IH] using plain_induction; [by destruct v|by apply union_empty..|].
  apply (union_empty (fun kv => closure_vars kv.1 ∪ closure_vars kv.2)). eapply Forall_impl; [exact IH|]. intros kv [-> ->]. apply (left_id_L ∅ (∪)).
Qed.

Section Plain.
Context `{VO : VarOrder} (arity : list value -> Z).

Lemma plain_at_ok i e : plain_at i e -> plain_expr arity i e.
Proof.
  assert (W : forall ws, Forall (fun tv => plain tv.1 /\ plain tv.2) ws -> ⋃ (map (fun tv => closure_vars tv.1 ∪ closure_vars tv.2) ws) = ∅).
  { intros ws Hw. apply (union_empty (fun tv => closure_vars tv.1 ∪ closure_vars tv.2)). eapply Forall_impl; [exact Hw|].
    intros tv [H1 H2]. by rewrite !plain_closures, (left_id_L ∅ (∪)). }
  destruct 1 as [t ws n Ht Hw|l ws n Hl Hw]; unfold plain_expr; split_ands; try done.
  - simpl. by rewrite (plain_closures t Ht), (W ws Hw), (left_id_L ∅ (∪)).
  - intros s. simpl. destruct n; [done|]. by destruct (existsb _ ws).
  - simpl. rewrite (W ws Hw), (right_id_L ∅ (∪)). apply union_empty. eapply Forall_impl; [exact Hl|]. apply plain_closures.
  - intros s. simpl. destruct n; [done|]. destruct (existsb _ ws); [done|]. destruct (IsEquality l); [done|]. destruct l as [|[]]; try done.
    by destruct (arity ts <? 0)%Z.
Qed.

(** The visitor leaves them as they are. *)
Section Visit.
Context (rb : VarSet -> body -> option (body * body * unsafeVars)) (cur : nat).

Lemma through_same {B} (f : VarSet * unsafeVars -> B -> option ((VarSet * unsafeVars) * B)) l :
  Forall (fun x => forall s, f s x = Some (s, x)) l -> forall s, through f s l = Some (s, l).
Proof. induction 1 as [|x l Hx _ IH]; intros s; simpl; [done|]. rewrite Hx. simpl. by rewrite IH. Qed.

Lemma visit_plain v : plain v -> forall s, visit rb cur s v = Some (s, v).
Proof.
  induction 1 as [v Hv|l IH|l IH|l IH|l S IH|kvs S IH] using plain_induction; intros s; [by destruct v|..]; cbn [visit];
    try (by rewrite (through_same _ _ IH s)).
  - rewrite (through_same _ _ IH s). simpl. by rewrite set_of_id.
  - rewrite (through_same (fun s kv => '(s, k) ← visit rb cur s kv.1; '(s, v) ← visit rb cur s kv.2; Some (s, (k, v)))).
    + simpl. by rewrite obj_of_id.
    + eapply Forall_impl; [exact IH|]. intros [k v] [Hk Hv] s'. simpl in *. rewrite Hk. simpl. by rewrite Hv.
Qed.

Lemma visit_expr_plain i j e s : plain_at i e -> visit_expr rb cur s (set_index j e) = Some (s, set_index j e).
Proof.
  assert (W : forall ws s, Forall (fun tv => plain tv.1 /\ plain tv.2) ws ->
    through (fun s tv => '(s, t) ← visit rb cur s tv.1; '(s, v) ← visit rb cur s tv.2; Some (s, (t, v))) s ws = Some (s, ws)).
  { intros ws s' Hw. apply through_same. eapply Forall_impl; [exact Hw|]. intros [t v] [Ht Hv] s2. simpl in *.
    rewrite (visit_plain t Ht). simpl. by rewrite (visit_plain v Hv). }
  destruct 1 as [t ws n Ht Hw|l ws n Hl Hw]; cbn [set_index visit_expr].
  - rewrite (visit_plain t Ht). simpl. by rewrite (W ws s Hw).
  - rewrite (through_same (visit rb cur) l); [|eapply Forall_impl; [exact Hl|]; apply visit_plain]. simpl. by rewrite (W ws s Hw).
Qed.
End Visit.

Lemma visit_all_plain rb (todo : list nat) : forall prev s st,
  (forall i, i ∈ todo -> exists j k e, plain_at j e /\ st !! i = Some (set_index k e)) ->
  visit_all rb prev todo s st = Some (s.2, st).
Proof.
  induction todo as [|i todo IH]; intros prev s st H; simpl; [done|]. destruct (H i ltac:(left)) as (j & k & e & Pe & Ee).
  rewrite Ee. cbn [mbind option_bind]. rewrite (visit_expr_plain rb i j) by done. cbn [mbind option_bind]. rewrite list_insert_id by done.
  apply (IH _ (Update s.1 prev, s.2)). intros i' Hi'. apply H. by right.
Qed.

Definition plain_body (b : body) : Prop := forall i e, b !! i = Some e -> plain_at i e.

Lemma plain_body_ok b : plain_body b -> forall i e, b !! i = Some e -> plain_expr arity i e.
Proof. intros H i e E. by apply plain_at_ok, H. Qed.

Lemma checkBodySafety_plain fuel globals b r : plain_body b -> progress arity globals b r -> reorder arity globals b = Some r ->
  checkBodySafety arity (S fuel) globals b =
    Some (if bool_decide (unsafe r = ∅) then Ok (exprs_at (store r) (reordered r)) else Err (MkUnsafe (unsafe r) [])).
Proof.
  intros Hb P E. unfold checkBodySafety. cbn [reorderBodyForSafety]. rewrite E. cbn [mbind option_bind].
  rewrite visit_all_plain.
  - cbn [mbind option_bind snd]. unfold no_unsafe. cbn [by_expr in_closures]. rewrite (bool_decide_true ([] = [])), andb_true_r by done. done.
  - intros i Hi. pose proof (pg_range _ _ _ _ P i Hi) as L. destruct (lookup_lt_is_Some_2 b i L) as [e Ee].
    apply list_elem_of_lookup in Hi as [p Ep]. exists i, (Z.of_nat p), e. split; [by apply Hb|]. by apply (pg_placed _ _ _ _ P).
Qed.
End Plain.

(** C10: the safety check of a body without closures always ends.  When it accepts,
    the body it returns is in a safe order: read from left to right, each variable of
    an expression is global, made safe by the expressions before it, or an output of
    the expression.  The returned body has the expressions of the given one, each at
    most once, numbered by their new positions, and every expression is there or
    equal to one that is.  When it rejects, it names expressions of the body with
    variables of theirs that are not global. *)
Theorem safety_check_correct `{VO : VarOrder} (arity : list value -> Z) (fuel : nat) (globals : VarSet) (b : body) :
  plain_body b -> exists res, checkBodySafety arity (S fuel) globals b = Some res /\
  match res with
  | Ok b' =>
      safe_order arity globals (⋃ (map (fun e => expr_vars e ∩ globals) b)) b' /\
      exists l, NoDup l /\
        (forall p e', b' !! p = Some e' -> exists i e, l !! p = Some i /\ b !! i = Some e /\ e' = set_index (Z.of_nat p) e) /\
        forall i e, b !! i = Some e -> i ∈ l \/ Body_Contains b' e = true
  | Err u => by_expr u <> ∅ /\ forall i vs, by_expr u !! i = Some vs ->
      vs <> ∅ /\ exists e, b !! i = Some e /\ vs ⊆ expr_vars e ∖ globals
  end.
Proof.
  intros Hb. pose proof (plain_body_ok arity b Hb) as Hp. destruct (reorder_ok arity globals b Hp) as (r & E & P & C).
  eexists. split; [by apply checkBodySafety_plain|]. destruct (bool_decide_reflect (unsafe r = ∅)) as [U|U].
  - split; [|exists (reordered r); split_ands; [apply P|..]].
    + pose proof (pg_order _ _ _ _ P) as O. unfold start, initial in O. cbn [safe] in O. by rewrite map_map in O.
    + intros p e' Ep. destruct (exprs_lookup arity globals b r P p) as (i & e & Ei & Ee & Ex); [by exists e'|].
      exists i, e. split_ands; [done..|]. congruence.
    + intros i e Ee. destruct (C i (lookup_lt_Some _ _ _ Ee)) as [Hi|[(f & Ef & Hf)|[u Hu]]]; [by left|right; congruence|].
      by rewrite U, lookup_empty in Hu.
  - split; [done|]. intros i vs Ei. by apply (pg_only _ _ _ _ P i vs Ei).
Qed.

Definition ex_call (f : string) (args : list value) (i : Z) : expr := Expr (TTerms (Ref [Var f] :: args)) [] i false.
Definition ex_arity (ref : list value) : Z := match ref with [Var "f"] => 1 | _ => 2 end.
Definition ex_one : value := Number (NInt 1).

Ltac solve_plain :=
  repeat first
    [ apply pl_leaf; exact I | apply pl_ref | apply pl_call | apply pl_array | apply pl_set; [repeat constructor|]
    | apply pl_object; [repeat constructor|] | apply Forall_cons_2 | apply Forall_nil_2 | split ].
Ltac solve_plain_body :=
  let i := fresh "i" in let e := fresh "e" in let E := fresh "E" in
  intros i e E; repeat (destruct i as [|i]; [injection E as <-; first [apply (pl_terms 0)|apply (pl_terms 1)|apply (pl_terms 2)]; solve_plain|]);
  discriminate E.

Lemma safety_check_correct_witness :
  let b := [ex_call "f" [Var "x"] 0; ex_call "eq" [Array [Var "x"; Var "y"]; Array [Var "z"; ex_one]] 1; ex_call "eq" [Var "z"; ex_one] 2] in
  let b' := [ex_call "eq" [Var "z"; ex_one] 0; ex_call "eq" [Array [Var "x"; Var "y"]; Array [Var "z"; ex_one]] 1; ex_call "f" [Var "x"] 2] in
  checkBodySafety ex_arity 1 ∅ b = Some (Ok b') /\ safe_order ex_arity ∅ ∅ b'.
Proof.
  intros b b'. assert (E : checkBodySafety ex_arity 1 ∅ b = Some (Ok b')) by (vm_compute; reflexivity).
  split; [exact E|]. assert (P : plain_body b) by solve_plain_body.
  destruct (safety_check_correct ex_arity 0 ∅ b P) as (res & E' & H). rewrite E in E'. injection E' as <-. exact (proj1 H).
Defined.

(** C25: a body without closures whose expressions are in a safe order already is
    accepted and not changed. *)
Theorem safety_check_keeps_order `{VO : VarOrder} (arity : list value -> Z) (fuel : nat) (globals : VarSet) (b : body) :
  plain_body b -> in_order arity globals (⋃ (map (fun e => expr_vars e ∩ globals) b)) b ->
  checkBodySafety arity (S fuel) globals b = Some (Ok b).
Proof.
  intros Hb Io. pose proof (plain_body_ok arity b Hb) as Hp.
  destruct (reorder_in_order arity globals b Hp) as (r & E & P & S & R); [unfold start, initial; cbn [safe]; by rewrite map_map|].
  rewrite (checkBodySafety_plain arity fuel globals b r) by done. rewrite S, R, (exprs_at_seq b), firstn_all by done.
  rewrite bool_decide_true; [done|]. apply map_empty. intros i. destruct (unsafe r !! i) as [u|] eqn:Eu; [|done].
  destruct (pg_only _ _ _ _ P i u Eu) as (Ni & _ & e & Ee & _). destruct Ni. rewrite R. apply elem_of_seq. apply lookup_lt_Some in Ee. lia.
Qed.

Lemma safety_check_keeps_order_witness :
  let b := [ex_call "eq" [Var "z"; ex_one] 0; ex_call "eq" [Var "x"; Var "z"] 1; ex_call "f" [Var "x"] 2] in
  in_order ex_arity ∅ ∅ b /\ checkBodySafety ex_arity 1 ∅ b = Some (Ok b).
Proof.
  intros b. assert (P : plain_body b) by solve_plain_body.
  assert (I : in_order ex_arity ∅ ∅ b).
  { exists {["z"]}. split; [vm_compute; reflexivity|]. split; [apply (bool_decide_unpack _); vm_compute; exact Logic.I|].
    exists {["x"]}. split; [vm_compute; reflexivity|]. split; [apply (bool_decide_unpack _); vm_compute; exact Logic.I|].
    exists ∅. split; [vm_compute; reflexivity|]. split; [apply (bool_decide_unpack _); vm_compute; exact Logic.I|]. exact Logic.I. }
  split; [exact I|]. exact (safety_check_keeps_order ex_arity 0 ∅ b P I).
Defined.
