(* ===== verification/SafetySound.v ===== *)
(** What the safety check gives on bodies of equations, and where it goes wrong
    (definitions in Safety.v, lemmas in UnifySafe.v and ReorderSound.v). *)
From Stdlib Require Import ZArith Lia String.
From stdpp Require Import base gmap list strings.
From S2P Require Import Prelude SortedKeys Value Containers Builtins Document VarVisitor Safety UnifySafe ReorderSound.

(** ** Equations *)

(** Terms of variables, scalars, arrays and objects with ground keys. *)
Inductive pure : value -> Prop :=
| pu_var x : pure (Var x)
| pu_scalar v : match v with Null | Boolean _ | Number _ | Str _ => True | _ => False end -> pure v
| pu_array l : Forall pure l -> pure (Array l)
| pu_object kvs : kv_sorted kvs ->
    Forall (fun kv => match kv.1 with Null | Boolean _ | Number _ | Str _ => True | _ => False end) kvs ->
    Forall (fun kv => pure kv.2) kvs -> pure (Object kvs).

Definition equation (i : nat) (a c : value) : expr := Expr (TTerms [Ref [Var "eq"]; a; c]) [] (Z.of_nat i) false.

Lemma pure_induction (P : value -> Prop) :
  (forall x, P (Var x)) -> (forall v, match v with Null | Boolean _ | Number _ | Str _ => True | _ => False end -> P v) ->
  (forall l, Forall P l -> P (Array l)) ->
  (forall kvs, kv_sorted kvs -> Forall (fun kv => match kv.1 with Null | Boolean _ | Number _ | Str _ => True | _ => False end) kvs ->
     Forall (fun kv => P kv.2) kvs -> P (Object kvs)) -> forall v, pure v -> P v.
Proof.
  intros HV HL HA HO. apply (value_composite_ind (fun v => pure v -> P v)). intros v IH Hv.
  destruct Hv as [x|v Hv|l Hl|kvs S K Hk]; [apply HV|by apply HL| |].
  - apply HA. rewrite Forall_forall in *. auto.
  - apply HO; [done..|]. rewrite Forall_forall in *. intros kv Hkv. by apply IH, Hk.
Qed.

Lemma pure_pattern opaque s v : pure v -> pattern opaque s v.
Proof.
  induction 1 as [x|v Hv|l IH|kvs S K IH] using pure_induction; [constructor|by constructor|by constructor|].
  constructor; [done| |done]. eapply Forall_impl; [exact K|]. intros [[] w]; done.
Qed.

Lemma pure_plain v : pure v -> plain v.
Proof.
  induction 1 as [x|v Hv|l IH|kvs S K IH] using pure_induction; [by constructor|constructor; by destruct v|by constructor|].
  constructor; [done|]. rewrite Forall_forall in *. intros kv Hkv. split; [|by apply IH]. specialize (K kv Hkv). constructor. by destruct kv.1.
Qed.

Section Equations.
Context `{VO : VarOrder, VOK : !VarOrderOk VO} (arity : list value -> Z) (globals : VarSet).

Lemma pure_outputs s v : pure v -> outputs s v = ∅.
Proof.
  induction 1 as [x|v Hv|l IH|kvs S K IH] using pure_induction; [done|by destruct v|by apply union_empty|].
  apply (union_empty (fun kv => outputs s kv.1 ∪ outputs s kv.2)). rewrite Forall_forall in *. intros kv Hkv. rewrite (IH kv Hkv).
  specialize (K kv Hkv). rewrite (right_id_L ∅ (∪)). by destruct kv.1.
Qed.

Lemma equation_outputs i a c s : pure a -> pure c ->
  exists ovs, outputVarsForExpr arity (equation i a c) s = Some ovs /\ ovs ⊆ Unify s a c.
Proof.
  intros Ha Hc. unfold equation. cbn [outputVarsForExpr existsb IsEquality]. change (String.eqb "eq" "eq") with true. cbv iota.
  eexists. split; [done|]. unfold outputVarsForExprEq. cbv zeta.
  assert (E : outputs_expr s [Ref [Var "eq"]; a; c] [] = ∅).
  { unfold outputs_expr. cbn [map union_list foldr]. rewrite (pure_outputs s a Ha), (pure_outputs s c Hc). cbn [outputs]. destruct (isRefSafe _ _); set_solver. }
  rewrite E. unfold Update, Diff. rewrite (left_id_L ∅ (∪)). set_solver.
Qed.

(** The valuations that solve an equation. *)
Definition solves_eq (th : string -> value) (e : expr) : Prop :=
  match e with
  | Expr (TTerms [_; a; c]) _ _ _ => Compare (eval (fun _ v => v) th a) (eval (fun _ v => v) th c) = Eq
  | _ => False
  end.
Definition is_equation (e : expr) : Prop := exists i a c, e = equation i a c /\ pure a /\ pure c.

Lemma equation_determined e s th1 th2 : is_equation e -> agree_on s th1 th2 -> solves_eq th1 e -> solves_eq th2 e ->
  forall ovs, outputVarsForExpr arity e s = Some ovs -> agree_on ovs th1 th2.
Proof.
  intros (i & a & c & -> & Ha & Hc) Hs E1 E2 ovs O. destruct (equation_outputs i a c s Ha Hc) as (o & O' & Sub).
  assert (o = ovs) as -> by congruence. intros x Hx.
  apply (Unify_agree (fun _ v => v) s a c th1 th2); [by apply pure_pattern..|done|done|done|by apply Sub].
Qed.

Lemma order_determined b' th1 th2 : agree_on globals th1 th2 ->
  (forall e, e ∈ b' -> is_equation e /\ solves_eq th1 e /\ solves_eq th2 e) -> forall s, agree_on s th1 th2 -> safe_order arity globals s b' ->
  forall e, e ∈ b' -> agree_on (expr_vars e) th1 th2.
Proof.
  intros Hg. induction b' as [|e b' IH]; intros H s Hs O f Hf; [by apply elem_of_nil in Hf|].
  destruct O as [V (ovs & Eo & O)]. destruct (H e ltac:(left)) as (Eq' & S1 & S2).
  apply elem_of_cons in Hf as [->|Hf].
  - intros x [Hx|[Hx|(s' & o & Hsub & E' & Hx)]]%V; [by apply Hg|by apply Hs|].
    assert (Hs' : agree_on s' th1 th2) by (intros y Hy; by apply Hs, Hsub). by apply (equation_determined e s' th1 th2 Eq' Hs' S1 S2 o E').
  - apply (IH (fun g Hg' => H g (list_elem_of_further _ _ _ Hg')) (s ∪ ovs)); [|done..].
    intros x [Hx|Hx]%elem_of_union; [by apply Hs|]. by apply (equation_determined e s th1 th2 Eq' Hs S1 S2 ovs Eo).
Qed.
End Equations.

(** C11: a body of equations that the safety check accepts has at most one solution:
    two valuations that agree on the globals and solve every equation of the body
    agree on all variables of the body that is returned. *)
Theorem safe_equations_determined `{VO : VarOrder, VOK : !VarOrderOk VO} (arity : list value -> Z) (fuel : nat) (globals : VarSet)
    (b b' : body) (th1 th2 : string -> value) :
  (forall i e, b !! i = Some e -> exists a c, e = equation i a c /\ pure a /\ pure c) ->
  checkBodySafety arity (S fuel) globals b = Some (Ok b') -> agree_on globals th1 th2 ->
  (forall e, e ∈ b -> solves_eq th1 e /\ solves_eq th2 e) ->
  forall e, e ∈ b' -> agree_on (expr_vars e) th1 th2.
Proof.
  intros Hb E Hg Hsol. assert (P : plain_body b).
  { intros i e Ee. destruct (Hb i e Ee) as (a & c & -> & Ha & Hc). apply (pl_terms i); [|constructor].
    repeat (apply Forall_cons_2 || apply Forall_nil_2); [|by apply pure_plain..]. apply pl_ref. repeat constructor. }
  destruct (reorder_ok arity globals b (plain_body_ok arity b P)) as (r & Er & Pr & _).
  rewrite (checkBodySafety_plain arity fuel globals b r P Pr Er) in E. destruct (bool_decide (unsafe r = ∅)); [|discriminate E]. injection E as <-.
  apply (order_determined arity globals _ th1 th2 Hg) with (s := start globals b); [| |apply Pr].
  - intros e (p & Ep)%list_elem_of_lookup. destruct (exprs_lookup arity globals b r Pr p) as (i & f & _ & Ef & Ex); [by exists e|].
    assert (e = set_index (Z.of_nat p) f) as -> by congruence. destruct (Hb i f Ef) as (a & c & -> & Ha & Hc).
    destruct (Hsol _ (list_elem_of_lookup_2 _ _ _ Ef)) as [S1 S2]. split_ands; [|done..]. by exists p, a, c.
  - intros x Hx. apply Hg. unfold start, initial in Hx. cbn [safe] in Hx. apply elem_of_union_list in Hx as (X & HX & Hx).
    apply list_elem_of_fmap in HX as (vs & -> & _). by apply elem_of_intersection in Hx as [_ Hx].
Qed.

Ltac solve_pure := repeat first [apply pu_var | apply pu_scalar; exact I | apply pu_array | apply Forall_cons_2 | apply Forall_nil_2].

Lemma safe_equations_determined_witness :
  let b := [equation 0 (Var "x") (Array [Var "y"; Var "g"]); equation 1 (Var "y") ex_one] in
  let b' := [equation 0 (Var "y") ex_one; equation 1 (Var "x") (Array [Var "y"; Var "g"])] in
  let th := fun x : string => if String.eqb x "x" then Array [ex_one; Null] else if String.eqb x "g" then Null else ex_one in
  let th' := fun x : string => if String.eqb x "q" then Null else th x in
  checkBodySafety ex_arity 1 {["g"]} b = Some (Ok b') /\
  agree_on (expr_vars (equation 1 (Var "x") (Array [Var "y"; Var "g"]))) th th'.
Proof.
  intros b b' th th'. assert (E : checkBodySafety ex_arity 1 {["g"]} b = Some (Ok b')) by (vm_compute; reflexivity). split; [exact E|].
  assert (H : forall e, e ∈ b' -> agree_on (expr_vars e) th th').
  { apply (safe_equations_determined ex_arity 0 {["g"]} b b' th th').
    - intros i e Ee. destruct i as [|[|i]]; [| |discriminate Ee]; injection Ee as <-.
      + exists (Var "x"), (Array [Var "y"; Var "g"]). split; [reflexivity|]. split; solve_pure.
      + exists (Var "y"), ex_one. split; [reflexivity|]. split; solve_pure.
    - exact E.
    - intros x Hx. apply elem_of_singleton in Hx. subst x. vm_compute. reflexivity.
    - intros e He. apply elem_of_cons in He. destruct He as [He|He].
      + subst e. split; vm_compute; reflexivity.
      + apply list_elem_of_singleton in He. subst e. split; vm_compute; reflexivity. }
  apply H. right. left.
Defined.

(** ** Where the check goes wrong *)

(** two bodies on which the check is wrong.  In [f(x); f(x); x = 1] the second [f(x)]
    is taken for the first once that has been moved and renumbered, is never
    considered, and its variable is reported as unsafe; with [f(x); x = 1] the check
    accepts.  In [x = 1; g(w, {z | z = x})] nothing binds [w], but the variable that the
    closure shares with the body replaces it in the record of what is unsafe: the
    body is accepted, and it is not in a safe order. *)
Theorem safety_check_wrong :
  let dup := [ex_call "f" [Var "x"] 0; ex_call "f" [Var "x"] 1; ex_call "eq" [Var "x"; ex_one] 2] in
  let closure := SetComprehension (Var "z") [ex_call "eq" [Var "z"; Var "x"] 0] in
  let open := [ex_call "eq" [Var "x"; ex_one] 0; ex_call "g" [Var "w"; closure] 1] in
  checkBodySafety ex_arity 1 ∅ dup = Some (Err (MkUnsafe {[1 := {["x"]}]} [])) /\
  checkBodySafety ex_arity 1 ∅ (drop 1 dup) = Some (Ok [ex_call "eq" [Var "x"; ex_one] 0; ex_call "f" [Var "x"] 1]) /\
  checkBodySafety ex_arity 2 ∅ open = Some (Ok open) /\ ~ safe_order ex_arity ∅ ∅ open.
Proof.
  intros dup closure open. split; [vm_compute; reflexivity|]. split; [vm_compute; reflexivity|]. split; [vm_compute; reflexivity|].
  intros [_ (o & Eo & V & _)]. assert (o = {["x"]}) as -> by (vm_compute in Eo; injection Eo as <-; reflexivity).
  assert (G : forall s, outputVarsForExpr ex_arity (ex_call "g" [Var "w"; closure] 1) s = Some ∅).
  { intros s. cbn [ex_call outputVarsForExpr existsb IsEquality]. unfold outputVarsForExprCall, outputs_expr. simpl.
    by destruct (Contains s "g"). }
  assert (W : "w" ∈ expr_vars (ex_call "g" [Var "w"; closure] 1)) by (vm_compute; reflexivity).
  destruct (V "w" W) as [H|[H|(s & o & _ & E & H)]].
  - by apply elem_of_empty in H.
  - vm_compute in H. discriminate H.
  - rewrite G in E. injection E as <-. by apply elem_of_empty in H.
Qed.
