(* ===== verification/EvalGround.v ===== *)
(** Unification of a term whose variables are bound to ground values with any other
    term: it terminates, and binds every variable of the other term to a ground value.
    The evaluator unifies such terms only, when the query is in a safe order. *)
From Stdlib Require Import ZArith Lia String.
From stdpp Require Import base gmap list strings.
From S2P Require Import Prelude SortedKeys Value Containers SetTable ObjectTable RefOps Builtins Document JsonPaths VarVisitor EvalCache Bindings.
From S2P Require Import Unify UnifySound UnifyTotal.

(** ** Ground values *)

(** An integer is written as an integer. *)
Definition tidy (v : value) : Prop :=
  match v with
  | Number n => forall i, in_int64 i = true -> Equal (Number n) (Number (NInt i)) = true -> n = NInt i
  | _ => True
  end.

Inductive data : value -> Prop :=
| data_scalar v : IsScalar v = true -> tidy v -> data v
| data_array l : in_int64 (Z.of_nat (length l)) = true -> Forall data l -> data (Array l)
| data_object kvs : kv_sorted kvs -> Forall (fun kv => data kv.1) kvs -> Forall (fun kv => data kv.2) kvs -> data (Object kvs)
| data_set l : ssorted Compare id l -> Forall data l -> data (SetV l).

Lemma data_induction (P : value -> Prop) :
  (forall v, IsScalar v = true -> tidy v -> P v) ->
  (forall l, in_int64 (Z.of_nat (length l)) = true -> Forall data l -> Forall P l -> P (Array l)) ->
  (forall kvs, kv_sorted kvs -> Forall (fun kv => data kv.1) kvs -> Forall (fun kv => data kv.2) kvs ->
    Forall (fun kv => P kv.1) kvs -> Forall (fun kv => P kv.2) kvs -> P (Object kvs)) ->
  (forall l, ssorted Compare id l -> Forall data l -> Forall P l -> P (SetV l)) -> forall v, data v -> P v.
Proof.
  intros HS HA HO HT. fix IH 2. intros v [v' Hs Ht|l L D|kvs S Dk Dv|l S D]; [by apply HS|..].
  - apply HA; [done|done|]. clear L. induction D as [|x l Dx D IHl]; constructor; [by apply IH|exact IHl].
  - apply HO; [done..| |]; clear S; [clear Dv; induction Dk as [|x l Dx Dl IHl]|clear Dk; induction Dv as [|x l Dx Dl IHl]];
      constructor; try (by apply IH); exact IHl.
  - apply HT; [done|done|]. clear S. induction D as [|x l Dx D IHl]; constructor; [by apply IH|exact IHl].
Qed.

Lemma data_ground v : data v -> IsGround v = true.
Proof.
  induction 1 as [v Hs _|l _ _ IH|kvs _ _ _ IHk IHv|l _ _ IH] using data_induction; [by destruct v|..]; simpl.
  - by apply forallb_Forall.
  - apply forallb_Forall. rewrite Forall_forall in *. intros kv H. by rewrite (IHk kv H), (IHv kv H).
  - by apply forallb_Forall.
Qed.

Lemma union_list_empty (l : list VarSet) : Forall (fun X => X = ∅) l -> ⋃ l = ∅.
Proof. induction 1 as [|X l -> _ IH]; [done|]. simpl. rewrite IH. set_solver. Qed.

Lemma data_vars v : data v -> vars_of no_params v = ∅.
Proof.
  induction 1 as [v Hs _|l _ _ IH|kvs _ _ _ IHk IHv|l _ _ IH] using data_induction; [by destruct v|..]; cbn [vars_of SkipObjectKeys SkipSets no_params];
    apply union_list_empty; rewrite Forall_fmap; rewrite Forall_forall in *; try done.
  intros kv H. simpl. rewrite (IHk kv H), (IHv kv H). set_solver.
Qed.

(** ** Patterns: terms with variables *)
Inductive pat : value -> Prop :=
| pat_var x : pat (Var x)
| pat_scalar v : IsScalar v = true -> tidy v -> pat v
| pat_array l : in_int64 (Z.of_nat (length l)) = true -> Forall pat l -> pat (Array l)
| pat_object kvs : kv_sorted kvs -> Forall (fun kv => data kv.1) kvs -> Forall (fun kv => pat kv.2) kvs -> pat (Object kvs)
| pat_set l : data (SetV l) -> pat (SetV l).

Lemma pat_induction (P : value -> Prop) :
  (forall x, P (Var x)) -> (forall v, IsScalar v = true -> tidy v -> P v) ->
  (forall l, in_int64 (Z.of_nat (length l)) = true -> Forall pat l -> Forall P l -> P (Array l)) ->
  (forall kvs, kv_sorted kvs -> Forall (fun kv => data kv.1) kvs -> Forall (fun kv => pat kv.2) kvs ->
    Forall (fun kv => P kv.2) kvs -> P (Object kvs)) ->
  (forall l, data (SetV l) -> P (SetV l)) -> forall v, pat v -> P v.
Proof.
  intros HV HS HA HO HT. fix IH 2. intros v [x|v' Hs Ht|l L D|kvs S Dk Dv|l D]; [by apply HV|by apply HS|..|by apply HT].
  - apply HA; [done|done|]. clear L. induction D as [|x l Dx D IHl]; constructor; [by apply IH|exact IHl].
  - apply HO; [done..|]. clear S Dk. induction Dv as [|x l Dx Dl IHl]; constructor; [by apply IH|exact IHl].
Qed.

Lemma pat_plain t : pat t -> plain t.
Proof.
  induction 1 as [x|v Hs _|l _ _ IH|kvs S Dk _ IH|l D] using pat_induction.
  - apply plain_var.
  - by apply plain_scalar.
  - by apply plain_array.
  - apply plain_object; [done| |done]. eapply Forall_impl; [exact Dk|]. intros kv. apply data_ground.
  - apply plain_set. by apply data_ground.
Qed.

Lemma data_pat v : data v -> pat v.
Proof.
  induction 1 as [v Hs Ht|l L _ IH|kvs S Dk _ _ IH|l S D _] using data_induction;
    [by apply pat_scalar|by apply pat_array|by apply pat_object|apply pat_set; by constructor].
Qed.

(** ** The value of a term in a store *)
Section Value.
Context (V : vstore).

Inductive gv : option nat -> value -> value -> Prop :=
| gv_var u x bv v : vget V u x = Some bv -> gv (bv_u bv) (bv_v bv) v -> gv u (Var x) v
| gv_scalar u t : IsScalar t = true -> tidy t -> gv u t t
| gv_array u l l' : in_int64 (Z.of_nat (length l)) = true -> Forall2 (gv u) l l' -> gv u (Array l) (Array l')
| gv_object u kvs kvs' : kv_sorted kvs -> Forall (fun kv => data kv.1) kvs -> map fst kvs = map fst kvs' ->
    Forall2 (gv u) (map snd kvs) (map snd kvs') -> gv u (Object kvs) (Object kvs')
| gv_set u l : data (SetV l) -> gv u (SetV l) (SetV l).

Lemma gv_induction (P : option nat -> value -> value -> Prop) :
  (forall u x bv v, vget V u x = Some bv -> gv (bv_u bv) (bv_v bv) v -> P (bv_u bv) (bv_v bv) v -> P u (Var x) v) ->
  (forall u t, IsScalar t = true -> tidy t -> P u t t) ->
  (forall u l l', in_int64 (Z.of_nat (length l)) = true -> Forall2 (gv u) l l' -> Forall2 (P u) l l' -> P u (Array l) (Array l')) ->
  (forall u kvs kvs', kv_sorted kvs -> Forall (fun kv => data kv.1) kvs -> map fst kvs = map fst kvs' ->
    Forall2 (gv u) (map snd kvs) (map snd kvs') -> Forall2 (P u) (map snd kvs) (map snd kvs') -> P u (Object kvs) (Object kvs')) ->
  (forall u l, data (SetV l) -> P u (SetV l) (SetV l)) -> forall u t v, gv u t v -> P u t v.
Proof.
  intros HV HS HA HO HT. fix IH 4. intros u t v [u' x bv v' G D|u' t' S T|u' l l' L F|u' kvs kvs' S Dk Ek F|u' l D];
    [eapply HV; [exact G|exact D|by apply IH]|by apply HS|..|by apply HT].
  - apply HA; [done|done|]. clear L. induction F as [|x y l l' Fx F IHl]; constructor; [by apply IH|exact IHl].
  - apply HO; [done..|]. clear S Dk Ek. induction F as [|x y l l' Fx F IHl]; constructor; [by apply IH|exact IHl].
Qed.
End Value.

Definition extends (V V1 : vstore) : Prop :=
  (forall u x bv, vget V u x = Some bv -> vget V1 u x = Some bv) /\ forall p, is_Some (V !! p) -> is_Some (V1 !! p).
#[export] Instance extends_preorder : PreOrder extends.
Proof. split; [by split|]. intros V V1 V2 [H1 D1] [H2 D2]. split; auto. Qed.

Lemma gv_mono V V1 u t v : extends V V1 -> gv V u t v -> gv V1 u t v.
Proof.
  intros [H _]. induction 1 as [u x bv v G _ IH|u t S T|u l l' L _ IH|u kvs kvs' S Dk Ek _ IH|u l D] using gv_induction.
  - eapply gv_var; [by apply H|done].
  - by apply gv_scalar.
  - by apply gv_array.
  - by apply gv_object.
  - by apply gv_set.
Qed.

Lemma kvs_ext {A B} (a b : list (A * B)) : map fst a = map fst b -> map snd a = map snd b -> a = b.
Proof.
  revert b. induction a as [|[k v] a IH]; intros [|[k' v'] b]; try done. simpl. intros [= -> E1] [= -> E2]. f_equal. by apply IH.
Qed.

Lemma Forall2_fun {A B} (R : A -> B -> Prop) l l' : Forall2 (fun x y => forall w, R x w -> y = w) l l' ->
  forall l2, Forall2 R l l2 -> l' = l2.
Proof. induction 1 as [|x y l l' Hx _ IH]; intros l2 F; inversion F; subst; [done|]. f_equal; auto. Qed.

Lemma zip_keys {A B} (l : list A) (l' : list B) : length l = length l' -> map fst (zip l l') = l /\ map snd (zip l l') = l'.
Proof. intros L. split; [apply fst_zip|apply snd_zip]; lia. Qed.

Lemma Equal_Object_split a b : Forall2 (fun x y => Compare x y = Eq) (map fst a) (map fst b) ->
  Forall2 (fun x y => Equal x y = true) (map snd a) (map snd b) -> Equal (Object a) (Object b) = true.
Proof.
  intros F1 F2. rewrite Equal_true, Compare_unfold. simpl. apply slice_compare_eq_iff. revert b F1 F2.
  induction a as [|x a IH]; intros [|y b] F1 F2; inversion F1; inversion F2; subst; constructor; [|by apply IH].
  unfold pair_compare. rewrite cmp_then_eq. split; [done|by apply Equal_true].
Qed.

Section Values.
Context (V : vstore).

Lemma gv_fun u t v : gv V u t v -> forall w, gv V u t w -> v = w.
Proof.
  induction 1 as [u x bv v G _ IH|u t S T|u l l' L _ IH|u kvs kvs' S Dk Ek _ IH|u l D] using gv_induction; intros w Hw.
  - inversion Hw as [? ? bv' ? G' Hw'|? ? N| | |]; subst; [|done]. rewrite G in G'. injection G' as <-. by apply IH.
  - destruct t; try done; by inversion Hw.
  - inversion Hw as [| |? ? l2 ? F| |]; subst; [done|]. f_equal. by eapply Forall2_fun.
  - inversion Hw as [| | |? ? kvs2 ? ? Ek2 F|]; subst; [done|]. f_equal. apply kvs_ext; [congruence|]. by eapply Forall2_fun.
  - by inversion Hw.
Qed.

Lemma data_gv u v : data v -> gv V u v v.
Proof.
  induction 1 as [v Hs Ht|l L _ IH|kvs S Dk _ _ IH|l S D _] using data_induction.
  - by apply gv_scalar.
  - apply gv_array; [done|]. by apply Forall_Forall2_diag.
  - apply gv_object; [done..|]. apply Forall_Forall2_diag. by rewrite Forall_fmap.
  - apply gv_set. by apply data_set.
Qed.

Lemma Forall2_data (R : value -> value -> Prop) l l' : (forall x y, R x y -> data y) -> Forall2 R l l' -> Forall data l'.
Proof. intros H. induction 1; constructor; eauto. Qed.

Lemma gv_data u t v : gv V u t v -> data v.
Proof.
  induction 1 as [u x bv v G _ IH|u t S T|u l l' L F IH|u kvs kvs' S Dk Ek F IH|u l D] using gv_induction.
  - done.
  - by apply data_scalar.
  - apply data_array; [by rewrite <- (Forall2_length _ _ _ F)|]. by eapply Forall2_data; [|exact IH].
  - apply data_object.
    + by apply (sorted_map_fst kvs).
    + apply List.Forall_map. rewrite <- Ek. by apply List.Forall_map.
    + apply List.Forall_map. by eapply Forall2_data; [|exact IH].
  - done.
Qed.

Lemma gv_pat u t v : gv V u t v -> pat t.
Proof.
  induction 1 as [u x bv v G _ IH|u t S T|u l l' L F IH|u kvs kvs' S Dk Ek F IH|u l D] using gv_induction.
  - apply pat_var.
  - by apply pat_scalar.
  - apply pat_array; [done|]. by eapply Forall2_Forall_l; [exact IH|apply Forall_true].
  - apply pat_object; [done..|]. apply List.Forall_map. by eapply Forall2_Forall_l; [exact IH|apply Forall_true].
  - by apply pat_set.
Qed.

(** The value is the one in every solution. *)
Lemma gv_ev sigma u t v : solves sigma V -> gv V u t v -> Equal (ev sigma u t) v = true.
Proof.
  intros S. induction 1 as [u x bv v G _ IH|u t Sc T|u l l' L F IH|u kvs kvs' Sk Dk Ek F IH|u l D] using gv_induction.
  - simpl. eapply Equal_trans; [by apply S|done].
  - rewrite ev_const by (by left). apply Equal_refl.
  - simpl. rewrite <- (map_id l'). apply Equal_Array_map. exact IH.
  - simpl. apply Equal_Object_split; rewrite map_map; simpl.
    + rewrite <- Ek. apply Forall_Forall2_diag, Forall_forall. intros k _. apply (cmp_refl Compare).
    + rewrite <- (map_map snd (ev sigma u)). by apply Forall2_fmap_l.
  - apply Equal_refl.
Qed.

Lemma gv_vars u t v : gv V u t v -> forall x, x ∈ vars_of no_params t -> exists w, gv V u (Var x) w.
Proof.
  induction 1 as [u x bv v G D _|u t S T|u l l' L F IH|u kvs kvs' S Dk Ek F IH|u l D] using gv_induction; intros y Hy.
  - cbn [vars_of] in Hy. apply elem_of_singleton in Hy as ->. exists v. by eapply gv_var.
  - rewrite data_vars in Hy by (by apply data_scalar). set_solver.
  - cbn [vars_of] in Hy. apply elem_of_union_list in Hy as (X & (z & -> & Hz)%list_elem_of_fmap & Hy).
    apply list_elem_of_lookup in Hz as [i Hi]. destruct (Forall2_lookup_l _ _ _ _ _ IH Hi) as (w & _ & Hw). by apply Hw.
  - cbn [vars_of SkipObjectKeys no_params] in Hy. apply elem_of_union_list in Hy as (X & (z & -> & Hz)%list_elem_of_fmap & Hy).
    rewrite Forall_forall in Dk. rewrite (data_vars z.1) in Hy by (by apply Dk). rewrite (left_id_L ∅ (∪)) in Hy.
    assert (Hz' : z.2 ∈ map snd kvs) by (by apply list_elem_of_fmap_2). apply list_elem_of_lookup in Hz' as [i Hi].
    destruct (Forall2_lookup_l _ _ _ _ _ IH Hi) as (w & _ & Hw). by apply Hw.
  - rewrite data_vars in Hy by done. set_solver.
Qed.

Lemma gv_bounded u t v : gv V u t v -> forall n, bounded n v -> bounded n t.
Proof.
  induction 1 as [u x bv v G D _|u t S T|u l l' L F IH|u kvs kvs' S Dk Ek F IH|u l D] using gv_induction; intros n B; [by destruct n|done| | |done].
  - destruct n as [|n]; [done|]. simpl in *. clear L F. induction IH; [done|]. apply Forall_cons in B as []. constructor; auto.
  - destruct n as [|n]; [done|]. destruct B as [B Bk]. split; [|apply List.Forall_map; rewrite Ek; by apply List.Forall_map].
    apply List.Forall_map in B. apply List.Forall_map. clear S Dk Ek F Bk.
    induction IH; [done|]. apply Forall_cons in B as []. constructor; auto.
Qed.

Lemma Forall_values {A B} (P : A -> B -> Prop) (l : list A) : Forall (fun x => exists v, P x v) l -> exists l', Forall2 P l l'.
Proof. induction 1 as [|x l [v Hv] _ [l' IH]]; [by exists []|]. exists (v :: l'). by constructor. Qed.

Lemma pat_gv u t : pat t -> (forall x, x ∈ vars_of no_params t -> exists w, gv V u (Var x) w) -> exists v, gv V u t v.
Proof.
  induction 1 as [x|v Hs T|l L _ IH|kvs S Dk _ IH|l D] using pat_induction; intros H.
  - apply H. cbn [vars_of]. by apply elem_of_singleton.
  - exists v. by apply gv_scalar.
  - destruct (Forall_values (gv V u) l) as [l' F]; [|exists (Array l'); by apply gv_array].
    rewrite Forall_forall in *. intros x Hx. apply IH; [done|]. intros y Hy. apply H. cbn [vars_of]. apply elem_of_union_list.
    exists (vars_of no_params x). split; [by apply list_elem_of_fmap_2|done].
  - destruct (Forall_values (gv V u) (map snd kvs)) as [l' F].
    + apply List.Forall_map. rewrite Forall_forall in *. intros kv Hkv. apply IH; [done|]. intros y Hy. apply H.
      cbn [vars_of SkipObjectKeys no_params]. apply elem_of_union_list.
      exists (vars_of no_params kv.1 ∪ vars_of no_params kv.2). split; [|set_solver].
      apply list_elem_of_fmap. by exists kv.
    + destruct (zip_keys (map fst kvs) l') as [E1 E2]; [rewrite length_map, <- (length_map snd); by apply Forall2_length in F|].
      exists (Object (zip (map fst kvs) l')). apply gv_object; [done|done|by rewrite E1|by rewrite E2].
  - exists (SetV l). by apply gv_set.
Qed.
End Values.

Lemma vars_array l x : x ∈ l -> vars_of no_params x ⊆ vars_of no_params (Array l).
Proof.
  intros Hx y Hy. cbn [vars_of]. apply elem_of_union_list. exists (vars_of no_params x). split; [by apply list_elem_of_fmap_2|done].
Qed.
Lemma vars_object kvs kv : kv ∈ kvs -> vars_of no_params kv.2 ⊆ vars_of no_params (Object kvs).
Proof.
  intros Hx y Hy. cbn [vars_of SkipObjectKeys no_params]. apply elem_of_union_list. exists (vars_of no_params kv.1 ∪ vars_of no_params kv.2).
  split; [|set_solver]. apply list_elem_of_fmap. by exists kv.
Qed.

(** ** States *)

(** What is known of the caches and stacks that evaluators share. *)
Class SharedInv : Type := shared_ok : shared -> Prop.

(** The values are nested to depth [N] at most. *)
Record inv `{SI : SharedInv} (N : nat) (st : ustate) : Prop := {
  i_pre : pre st;
  i_closed : closed (sview st);
  i_ground : forall u x bv, vget (sview st) u x = Some bv -> exists v, gv (sview st) (bv_u bv) (bv_v bv) v /\ bounded N v;
  i_shared : shared_ok (common (us_env st));
}.

Lemma inv_iters `{SI : SharedInv} N st l : inv N st -> inv N (set_iters st l).
Proof. intros [P C G]. split; [by apply pre_iters|done..]. Qed.

Lemma inv_bound `{SI : SharedInv} N st u x bv : inv N st -> vget (sview st) u x = Some bv -> exists v, gv (sview st) u (Var x) v.
Proof. intros I G. destruct (i_ground N st I u x bv G) as (v & Hv & _). exists v. by eapply gv_var. Qed.

Lemma gv_unbound V u x v : vget V u x = None -> ~ gv V u (Var x) v.
Proof. intros G H. inversion H; subst; [congruence|done]. Qed.

Lemma valid_extends V V1 u : extends V V1 -> valid V u -> valid V1 u.
Proof. intros [_ D] (p & -> & Hp). exists p. auto. Qed.

(** [apply] changes nothing, or finds the term of a bound variable. *)
Lemma apply_ground `{SI : SharedInv} N st u t : inv N st -> exists t' u', b_apply (us_heap st) u t = Some (t', u') /\
  ((t' = t /\ u' = u /\ forall x, t = Var x -> vget (sview st) u x = None) \/
   exists v, gv (sview st) u t v /\ gv (sview st) u' t' v /\ bounded N v /\ (forall y, t' <> Var y) /\ (valid (sview st) u -> valid (sview st) u')).
Proof.
  intros I. pose proof (i_pre N st I) as P. destruct (pre_chain st P u t) as (n & Hn & C). unfold b_apply. rewrite b_count_view.
  assert (Hf : (n < S (vcount (view (us_heap st))))%nat) by lia. revert Hf. generalize (S (vcount (view (us_heap st)))). clear Hn.
  intros fuel Hf. revert fuel Hf. induction C as [u t Ht|u x Hx|u x bv n Hx C IH]; intros [|fuel] Hf; try lia.
  - exists t, u. split; [destruct t; try done; by destruct (Ht x)|]. left. split_ands; [done..|]. by intros x ->; destruct (Ht x).
  - exists (Var x), u. simpl. rewrite b_get_view, Hx by apply P. split; [done|]. left. split_ands; [done..|]. by intros y [= <-].
  - simpl. rewrite b_get_view, Hx by apply P. destruct (IH fuel ltac:(lia)) as (t' & u' & -> & H). exists t', u'. split; [done|]. right.
    destruct (i_ground N st I u x bv Hx) as (v & Hv & Bv). exists v. split; [by eapply gv_var|].
    pose proof (i_closed N st I u x bv Hx) as Vb. destruct H as [(-> & -> & Hn)|(w & G1 & G2 & _ & Nv & Vw)].
    + split_ands; [done|done| |done]. intros y E. rewrite E in Hv. by eapply gv_unbound; [apply Hn|].
    + rewrite <- (gv_fun _ _ _ _ Hv w G1) in G2. split_ands; [done|done|done|auto].
Qed.

(** *** Plugging

    A term that has a value is plugged to it; otherwise a variable remains. *)
Lemma Plug_data v fuel h u : data v -> (0 < fuel)%nat -> Plug fuel h u v = Some v.
Proof.
  intros D L. pose proof (data_ground v D) as G. destruct fuel as [|fuel]; [lia|]. unfold Plug.
  destruct D as [v S _|l _ _|kvs _ _ _|l _ _]; [by destruct v|..]; cbn [plugNamespaced]; by rewrite G.
Qed.

Lemma ground_data t : pat t -> IsGround t = true -> data t.
Proof.
  induction 1 as [x|v Hs T|l L _ IH|kvs S Dk _ IH|l D] using pat_induction; intros G; [done|by apply data_scalar| | |done]; simpl in G.
  - apply forallb_Forall in G. apply data_array; [done|]. rewrite Forall_forall in *. auto.
  - apply forallb_Forall in G. apply data_object; [done|done|]. rewrite Forall_forall in *. intros x Hx. apply IH; [done|].
    specialize (G x Hx). by apply andb_true_iff in G as [_ ?].
Qed.

Lemma Plug_object fuel h u kvs vs : IsGround (Object kvs) = false -> kv_sorted kvs -> Forall (fun kv => data kv.1) kvs -> (0 < fuel)%nat ->
  Forall2 (fun t v => Plug fuel h u t = Some v) (map snd kvs) vs ->
  exists kvs', Plug (S fuel) h u (Object kvs) = Some (Object kvs') /\ map fst kvs' = map fst kvs /\ map snd kvs' = vs.
Proof.
  intros G S Dk L F. unfold Plug. cbn [plugNamespaced]. rewrite G.
  assert (M : exists kvs', mapM (fun kv => match plugNamespaced fuel h u kv.1 None, plugNamespaced fuel h u kv.2 None with
      | Some k, Some v => Some (k, v) | _, _ => None end) kvs = Some kvs' /\ map fst kvs' = map fst kvs /\ map snd kvs' = vs).
  { clear G S. revert vs F. induction kvs as [|[k t] kvs IH]; intros vs F; inversion F as [|? v ? vs' Hv F']; subst; [by exists []|].
    apply Forall_cons in Dk as [Hk Dk]. destruct (IH Dk vs' F') as (kvs' & M & E1 & E2). exists ((k, v) :: kvs'). simpl.
    pose proof (Plug_data k fuel h u Hk L) as Pk. unfold Plug in Pk, Hv. rewrite Pk, Hv, M. simpl. by rewrite E1, E2. }
  destruct M as (kvs' & -> & E1 & E2). exists kvs'. split_ands; [|done..]. simpl. f_equal. f_equal.
  apply obj_of_id. eapply sorted_map_fst; [symmetry; exact E1|done].
Qed.

Lemma Plug_value `{SI : SharedInv} N st k : inv N st -> forall fuel u t v, gv (sview st) u t v -> bounded k v -> (2 * k + 2 <= fuel)%nat ->
  Plug fuel (us_heap st) u t = Some v.
Proof.
  intros I. induction k as [k IH] using lt_wf_ind. intros fuel u t v G B L.
  assert (NV : forall fuel u t, gv (sview st) u t v -> (forall x, t <> Var x) -> (2 * k + 1 <= fuel)%nat -> Plug fuel (us_heap st) u t = Some v).
  { clear fuel u t G L. intros fuel u t G Nv L. destruct (IsGround t) eqn:Gt.
    { pose proof (ground_data t (gv_pat _ _ _ _ G) Gt) as D. rewrite (Plug_data t) by (done || lia). f_equal.
      exact (gv_fun _ _ _ _ (data_gv _ u t D) v G). }
    destruct fuel as [|fuel]; [lia|]. destruct G as [u x bv v G D|u t S T|u l l' Ll F|u kvs kvs' S Dk Ek F|u l D].
    - by destruct (Nv x).
    - by destruct t.
    - destruct k as [|k]; [done|]. unfold Plug. cbn [plugNamespaced]. rewrite Gt. simpl in B.
      rewrite (proj2 (mapM_Some (fun x => plugNamespaced fuel (us_heap st) u x None) l l')); [done|].
      clear Gt Ll Nv. induction F as [|x y l l' Fx F IHl]; [constructor|]. apply Forall_cons in B as [Bx B].
      constructor; [apply (IH k); [lia|done|done|lia]|by apply IHl].
    - destruct k as [|k]; [done|]. destruct B as [B _]. destruct (Plug_object fuel (us_heap st) u kvs (map snd kvs')) as (kvs2 & -> & E1 & E2); try done; [lia| |].
      + apply List.Forall_map in B. clear Ek S Dk Gt Nv. revert F B. generalize (map snd kvs), (map snd kvs').
        induction 1 as [|x y l l' Fx F IHl]; intros B; [constructor|]. apply Forall_cons in B as [Bx B].
        constructor; [apply (IH k); [lia|done|done|lia]|by apply IHl].
      + f_equal. f_equal. apply kvs_ext; congruence.
    - apply Plug_data; [done|lia]. }
  destruct t as [| | | |x| | | | | | | |]; try (by apply NV; [done|done|lia]). inversion G as [? ? bv ? Gx D|? ? Sx|? ? ? ? ?|? ? ? ? ? ? ?|]; subst; [|done].
  destruct fuel as [|fuel]; [lia|]. unfold Plug. cbn [plugNamespaced]. rewrite b_get_view by (apply (pre_wf _ (i_pre _ _ I))).
  fold (sview st). rewrite Gx. destruct (apply_ground N st (bv_u bv) (bv_v bv) I) as (t' & u' & -> & [(-> & -> & N0)|(w & G1 & G2 & _ & N0 & _)]).
  - apply NV; [done| |lia]. intros y E. rewrite E in *. by eapply gv_unbound; [apply N0|].
  - apply NV; [|done|lia]. by rewrite (gv_fun _ _ _ _ D w G1).
Qed.
Lemma all_or_open (R : value -> value -> Prop) l l' : Forall2 (fun x y => R x y \/ IsGround y = false) l l' ->
  Forall2 R l l' \/ forallb IsGround l' = false.
Proof.
  induction 1 as [|x y l l' H _ IH]; [by left; constructor|]. simpl. destruct H as [H| ->]; [|by right].
  destruct IH as [IH| ->]; [left; by constructor|right; apply andb_false_r].
Qed.

Lemma choose_list {A B} (f : A -> option B) (R : A -> B -> Prop) l : Forall (fun x => exists y, f x = Some y /\ R x y) l ->
  exists l', Forall2 (fun x y => f x = Some y) l l' /\ Forall2 R l l'.
Proof. induction 1 as [|x l (y & E & H) _ (l' & IH1 & IH2)]; [by exists []|]. exists (y :: l'). split; by constructor. Qed.

Lemma bounded_inv m v : bounded m v -> is_composite v = true -> is_set v = false -> exists m', m = S m'.
Proof. destruct m; [by destruct v|by eexists]. Qed.

Lemma Plug_ok `{SI : SharedInv} N st u t : inv N st -> pat t -> forall m fuel, bounded m t -> (m + 2 * N + 3 < fuel)%nat ->
  exists t', Plug fuel (us_heap st) u t = Some t' /\ (gv (sview st) u t t' \/ IsGround t' = false).
Proof.
  intros I. assert (HD : forall v fuel, data v -> (0 < fuel)%nat -> exists t', Plug fuel (us_heap st) u v = Some t' /\ (gv (sview st) u v t' \/ IsGround t' = false)).
  { intros v fuel D L. exists v. split; [by apply Plug_data|left; by apply data_gv]. }
  induction 1 as [x|v Hs T|l L P IH|kvs S Dk P IH|l D] using pat_induction; intros m fuel B Lf.
  - destruct (vget (sview st) u x) as [bv|] eqn:Gx.
    + destruct (i_ground N st I u x bv Gx) as (v & Hv & Bv). exists v. assert (G : gv (sview st) u (Var x) v) by (by eapply gv_var).
      split; [|by left]. apply (Plug_value N st N I); [done|done|lia].
    + exists (Var x). split; [|by right]. destruct fuel as [|fuel]; [lia|]. unfold Plug. cbn [plugNamespaced].
      rewrite b_get_view by (apply (pre_wf _ (i_pre _ _ I))). fold (sview st). by rewrite Gx.
  - apply HD; [by apply data_scalar|lia].
  - destruct (IsGround (Array l)) eqn:G; [apply HD; [apply ground_data; [by apply pat_array|done]|lia]|].
    destruct (bounded_inv m (Array l) B) as [m' ->]; [done..|]. destruct fuel as [|fuel]; [lia|]. simpl in B.
    destruct (choose_list (Plug fuel (us_heap st) u) (fun x y => gv (sview st) u x y \/ IsGround y = false) l) as (l' & M & A).
    { rewrite Forall_forall in *. intros x Hx. apply (IH x Hx m'); [by apply B|lia]. }
    unfold Plug. cbn [plugNamespaced]. rewrite G, (proj2 (mapM_Some (fun x => plugNamespaced fuel (us_heap st) u x None) l l') M).
    exists (Array l'). split; [done|]. apply all_or_open in A as [A|A]; [left; by apply gv_array|by right].
  - destruct (IsGround (Object kvs)) eqn:G; [apply HD; [apply ground_data; [by apply pat_object|done]|lia]|].
    destruct (bounded_inv m (Object kvs) B) as [m' ->]; [done..|]. destruct fuel as [|fuel]; [lia|]. destruct B as [B _].
    destruct (choose_list (Plug fuel (us_heap st) u) (fun x y => gv (sview st) u x y \/ IsGround y = false) (map snd kvs)) as (l' & M & A).
    { apply List.Forall_map. rewrite Forall_forall in *. intros x Hx. apply (IH x Hx m'); [by apply B|lia]. }
    destruct (Plug_object fuel (us_heap st) u kvs l') as (kvs' & -> & E1 & E2); try done; [lia|]. exists (Object kvs'). split; [done|].
    apply all_or_open in A as [A|A]; [left; apply gv_object; congruence|right]. simpl. rewrite <- E2 in A. clear -A.
    induction kvs' as [|kv l IH]; [done|]. simpl in *. destruct (IsGround kv.2); [|by rewrite andb_false_r]. simpl in A. by rewrite IH, andb_false_r.
  - apply HD; [done|lia].
Qed.

(** ** One call of the continuation *)

(** Cells are only added, and query identifiers only go up. *)
Definition grow (e e' : env) : Prop := (length (cells e) <= length (cells e'))%nat /\ (curr e <= curr e')%N.
#[export] Instance grow_preorder : PreOrder grow.
Proof. split; [by split|]. intros a b c [] []. split; lia. Qed.

(** The cells in [P] keep their content. *)
Definition frame (P : nat -> Prop) (e e' : env) : Prop :=
  grow e e' /\ forall i, P i -> (i < length (cells e))%nat -> cells e' !! i = cells e !! i.
#[export] Instance frame_preorder P : PreOrder (frame P).
Proof.
  split; [by split|]. intros a b c [G1 H1] [G2 H2]. split; [by etransitivity|]. intros i Hi L. rewrite H2, H1; try done. destruct G1. lia.
Qed.
Lemma frame_weaken (P P' : nat -> Prop) e e' : (forall i, (i < length (cells e))%nat -> P' i -> P i) -> frame P e e' -> frame P' e e'.
Proof. intros H [G F]. split; auto. Qed.
(** The cells before the first [c] ones, and the others. *)
Abbreviation quiet c := (frame (fun i => (i < c)%nat)).
Abbreviation keeps c := (frame (fun i => (c <= i)%nat)).

Section Once.
Context `{SI : SharedInv} {E : Type} (N : nat) (cl : nat) (F : option nat -> string -> Prop).
Implicit Types iter k : K (E := E).

(** The continuation answers from these states, and leaves the bindings and all but the
    first [cl] cells alone. *)
Definition handles (P : ustate -> Prop) iter : Prop := forall st, P st ->
  exists st' r, iter st = Some (st', r) /\ inv N st' /\ sview st' = sview st /\ keeps cl (us_env st) (us_env st').

(** States from [st] on: more is bound, by variables of [F]. *)
Record after (L : list nat) (st : ustate) (Q : vstore -> Prop) (st1 : ustate) : Prop := {
  af_inv : inv N st1;
  af_ext : extends (sview st) (sview st1);
  af_new : forall u x bv, vget (sview st1) u x = Some bv -> vget (sview st) u x = Some bv \/ F u x;
  af_iters : L `prefix_of` us_iters st1;
  af_env : us_env st1 = us_env st;
  af_post : Q (sview st1);
}.

(** The continuation is called once, in a state that keeps the solutions of the
    equation, or not at all, when it has none. *)
Definition once (L : list nat) (st : ustate) (Q : vstore -> Prop) (Eqn : (option nat -> string -> value) -> Prop)
    iter (res : option (ustate * option E)) : Prop :=
  exists st' r, res = Some (st', r) /\ inv N st' /\ sview st' = sview st /\
  ((exists st1 st2, after L st Q st1 /\ (forall sigma, solves sigma (sview st) -> Eqn sigma -> solves sigma (sview st1)) /\
      iter st1 = Some (st2, r) /\ us_env st' = us_env st2) \/
   (r = None /\ us_env st' = us_env st /\ forall sigma, solves sigma (sview st) -> ~ Eqn sigma)).

Lemma after_refl L st (Q : vstore -> Prop) : L `prefix_of` us_iters st -> inv N st -> Q (sview st) -> after L st Q st.
Proof. intros HL I H. split; try done. by left. Qed.

Lemma after_trans L L' st st1 st2 (Q Q' : vstore -> Prop) : after L st Q st1 -> after L' st1 Q' st2 -> L `prefix_of` L' ->
  after L st Q' st2.
Proof.
  intros [I1 E1 N1 P1 V1 _] [I2 E2 N2 P2 V2 H]. split; [done|by etransitivity| |by etransitivity|by rewrite V2|done].
  intros u x bv Hx. destruct (N2 u x bv Hx) as [H1|H1]; [by apply N1|by right].
Qed.

Lemma after_weaken L L' st (Q Q' : vstore -> Prop) st1 : L' `prefix_of` L -> (forall V, extends (sview st) V -> Q V -> Q' V) -> after L st Q st1 -> after L' st Q' st1.
Proof. intros HL H [I1 E1 N1 P1 V1 Q1]. split; try done; [by etransitivity|auto]. Qed.

Lemma handles_impl (P P' : ustate -> Prop) iter : (forall st, P' st -> P st) -> handles P iter -> handles P' iter.
Proof. intros H Hi st Hst. by apply Hi, H. Qed.

Lemma once_weaken L L' st (Q Q' : vstore -> Prop) (A B : (option nat -> string -> value) -> Prop) iter res :
  L' `prefix_of` L -> (forall V, extends (sview st) V -> Q V -> Q' V) -> (forall sigma, solves sigma (sview st) -> A sigma <-> B sigma) ->
  once L st Q A iter res -> once L' st Q' B iter res.
Proof.
  intros HL HQ HAB (st' & r & -> & I & Vw & H). exists st', r. split_ands; [done..|].
  destruct H as [(st1 & st2 & Af & S & It & Ev)|(-> & Ev & Nn)]; [left|right].
  - exists st1, st2. split_ands; [by eapply after_weaken| |done|done]. intros sigma Sv Hb. apply S; [done|]. by apply HAB.
  - split_ands; [done..|]. intros sigma Sv Hb. apply (Nn sigma Sv). by apply HAB.
Qed.

Lemma once_iter L st (Q : vstore -> Prop) Eqn iter : L `prefix_of` us_iters st -> inv N st -> Q (sview st) -> handles (after L st Q) iter ->
  once L st Q Eqn iter (iter st).
Proof.
  intros HL I HQ H. pose proof (after_refl L st Q HL I HQ) as Af. destruct (H st Af) as (st' & r & Ei & I' & Vw & _).
  exists st', r. split_ands; [done..|]. left. exists st, st'. split_ands; [done|by intros|done|done].
Qed.

(** Only the bindings and the cells of the first state matter. *)
Lemma once_iters L st st0 (Q : vstore -> Prop) Eqn iter res : sview st = sview st0 -> us_env st = us_env st0 ->
  once L st Q Eqn iter res -> once L st0 Q Eqn iter res.
Proof.
  intros Vw Ev. unfold once. rewrite Vw, Ev. intros (st' & r & -> & I & Vw' & H). exists st', r. split_ands; [done..|].
  destruct H as [(st1 & st2 & [] & H)|H]; [left|by right]. exists st1, st2. split; [|done].
  split; rewrite <- ?Vw, <- ?Ev; try done.
Qed.

Lemma once_nil L st Q Eqn iter : inv N st -> (forall sigma, solves sigma (sview st) -> ~ Eqn sigma) ->
  once L st Q Eqn iter (return_nil st).
Proof. intros I Nn. exists st, None. split_ands; [done..|]. right. split_ands; done. Qed.

(** What follows in the continuation. *)
Lemma once_seq L L' st (Q1 Q2 : vstore -> Prop) (A B : (option nat -> string -> value) -> Prop) k iter res :
  L `prefix_of` L' -> once L' st Q1 A k res ->
  (forall st1, after L' st Q1 st1 -> once L st1 Q2 B iter (k st1)) ->
  once L st Q2 (fun sigma => A sigma /\ B sigma) iter res.
Proof.
  intros HL (st' & r & -> & I & Vw & H) HB. exists st', r. split_ands; [done..|].
  destruct H as [(st1 & st2 & Af & S & It & Ev)|(-> & Ev & Nn)].
  - destruct (HB st1 Af) as (st2' & r' & E2 & I2 & Vw2 & H2). rewrite It in E2. injection E2 as <- <-.
    destruct H2 as [(s1 & s2 & Af2 & S2 & It2 & Ev2)|(-> & Ev2 & Nn)]; [left|right].
    + exists s1, s2. split_ands; [by eapply after_trans; [eapply (after_weaken L' L); [exact HL|intros V _ HQ; exact HQ|exact Af]|exact Af2|]| |done|congruence].
      intros sigma Sv [HA HB']. auto.
    + split_ands; [done|rewrite Ev, Ev2; apply Af|]. intros sigma Sv [HA HB']. apply (Nn sigma); auto.
  - right. split_ands; [done..|]. intros sigma Sv [HA _]. by apply (Nn sigma).
Qed.

Lemma once_handles L Q Eqn iter k (P : ustate -> Prop) :
  (forall st1, P st1 -> handles (after L st1 Q) iter) ->
  (forall st1, P st1 -> once L st1 Q Eqn iter (k st1)) -> handles P k.
Proof.
  intros Hi H st1 P1. destruct (H st1 P1) as (st' & r & Ek & I & Vw & C). exists st', r. split; [done|]. split; [done|]. split; [done|].
  destruct C as [(s1 & s2 & Af & _ & It & Ev)|(-> & Ev & _)]; rewrite Ev; [|done].
  destruct (Hi st1 P1 s1 Af) as (s2' & r' & It' & _ & _ & G). rewrite It in It'. injection It' as <- <-. by rewrite <- (af_env _ _ _ _ Af).
Qed.
End Once.

(** ** Unification with a ground side *)
Section Unification.
Context `{SI : SharedInv} {E : Type} (N : nat) (cl : nat) (F : option nat -> string -> Prop).
Context (saveUnify biunifyRef : value -> value -> option nat -> option nat -> K (E := E) -> K (E := E)).
Context (biunifyComprehension : value -> value -> option nat -> option nat -> bool -> K (E := E) -> K (E := E)).
Abbreviation none := (fun (_ : ustate) (_ : value) (_ : option nat) => false).
Abbreviation values := (biunifyValues none none saveUnify biunifyRef biunifyComprehension).
Abbreviation unif := (biunify none none saveUnify biunifyRef biunifyComprehension).
Implicit Types iter k : K (E := E).

(** What is not bound to a ground value may be bound. *)
Definition bindable (V : vstore) (u : option nat) (t : value) : Prop :=
  forall x, x ∈ vars_of no_params t -> F u x \/ exists v, gv V u (Var x) v.

(** Both sides have a value, and the values are equal. *)
Definition both (u1 u2 : option nat) (a b : value) (V : vstore) : Prop :=
  exists va vb, gv V u1 a va /\ gv V u2 b vb /\ Equal va vb = true.
Definition eqn (u1 u2 : option nat) (a b : value) (sigma : option nat -> string -> value) : Prop :=
  Equal (ev sigma u1 a) (ev sigma u2 b) = true.

(** One of the sides has a value already, of bounded nesting. *)
Definition dir (n : nat) (u1 u2 : option nat) (V : vstore) (a b : value) : Prop :=
  (exists v, gv V u1 a v /\ bounded n v) \/ exists v, gv V u2 b v /\ bounded n v.

Lemma both_mono u1 u2 a b V V1 : extends V V1 -> both u1 u2 a b V -> both u1 u2 a b V1.
Proof. intros X (va & vb & H1 & H2 & Q). exists va, vb. split_ands; [by eapply gv_mono..|done]. Qed.
Lemma dir_mono n u1 u2 a b V V1 : extends V V1 -> dir n u1 u2 V a b -> dir n u1 u2 V1 a b.
Proof. intros X [(v & H & B)|(v & H & B)]; [left|right]; exists v; (split; [by eapply gv_mono|done]). Qed.
Lemma bindable_mono u t V V1 : extends V V1 -> bindable V u t -> bindable V1 u t.
Proof. intros X H x Hx. destruct (H x Hx) as [?|[v Hv]]; [by left|right]. exists v. by eapply gv_mono. Qed.

Lemma once_bind st u x t other v iter : inv N st -> valid (sview st) u -> valid (sview st) other ->
  vget (sview st) u x = None -> F u x -> gv (sview st) other t v -> bounded N v -> (forall y, t <> Var y) ->
  handles N cl (after N F (us_iters st) st (fun V => gv V u (Var x) v)) iter ->
  once N F (us_iters st) st (fun V => gv V u (Var x) v) (fun sigma => Equal (sigma u x) (ev sigma other t) = true) iter
    (bind_and_iter u x t other iter st).
Proof.
  intros I Vu Vo Hx Fx Gt Bv Nv Hi. unfold bind_and_iter. destruct (b_bind (us_heap st) u x t other) as [h|] eqn:Bd.
  2:{ exfalso. destruct Vu as (p & -> & Hp). unfold b_bind, b_update in Bd.
      unfold sview in Hp. rewrite view_lookup in Hp. destruct (us_heap st !! p); [done|]. by destruct Hp. }
  destruct (pre_bind st u x t other h (i_pre N st I)) as (p & -> & P1 & Vw & S1); [by eapply pat_plain, gv_pat|done| |done|].
  { intros y ->. by destruct (Nv y). }
  assert (Hp : is_Some (sview st !! p)) by (by destruct Vu as (q & [= <-] & Hq)).
  set (st1 := set_heap st h) in *. assert (Vw1 : sview st1 = vput (sview st) p x (MkBvalue other t)) by exact Vw.
  assert (Ex : extends (sview st) (sview st1)).
  { rewrite Vw1. split.
    - intros u y bv Hy. rewrite vget_vput, decide_False by (done || (intros [-> ->]; congruence)). done.
    - intros q. unfold vput. by rewrite lookup_alter_is_Some. }
  assert (Gx : gv (sview st1) (Some p) (Var x) v).
  { eapply gv_var; [rewrite Vw1, vget_vput, decide_True by done; done|]. by eapply gv_mono. }
  assert (Af : after N F (us_iters st) st (fun V => gv V (Some p) (Var x) v) st1).
  { split; try done.
    - split; [done| | |apply (i_shared N st I)].
      + rewrite Vw1. apply closed_vput; [done|done|]. apply I.
      + intros u y bv. rewrite Vw1 at 1. rewrite vget_vput by done. destruct (decide _) as [_|_].
        * intros [= <-]. exists v. split; [by eapply gv_mono|done].
        * intros Hy. destruct (i_ground N st I u y bv Hy) as (w & Hw & Bw). exists w. split; [by eapply gv_mono|done].
    - intros u y bv. rewrite Vw1, vget_vput by done. destruct (decide _) as [[-> ->]|_]; [by right|by left]. }
  destruct (Hi st1 Af) as (st2 & r & Ei & I2 & V2 & _). rewrite Ei.
  assert (Hp' : is_Some (sview st2 !! p)) by (rewrite V2, Vw1; unfold vput; by apply lookup_alter_is_Some).
  destruct (b_delete (us_heap st2) (Some p) x) as [h'|] eqn:Dl.
  2:{ exfalso. unfold b_delete, b_update in Dl. unfold sview in Hp'. rewrite view_lookup in Hp'.
      destruct (us_heap st2 !! p); [done|]. by destruct Hp'. }
  destruct (b_delete_view _ _ _ _ (pre_wf st2 (i_pre N st2 I2)) Dl) as [W3 V3].
  assert (Vh : view h' = sview st).
  { rewrite V3. change (view (us_heap st2)) with (sview st2). rewrite V2, Vw1. by apply vdel_vput. }
  exists (set_heap st2 h'), r. assert (Vs : sview (set_heap st2 h') = sview st) by exact Vh. split_ands; [done| |done|].
  - split; [split; cbn [us_heap set_heap]; [done| |]; rewrite Vh; apply I|rewrite Vs; apply I..|apply (i_shared N st2 I2)].
  - left. exists st1, st2. split_ands; [done| |done|done]. intros sigma Sv Q. apply S1. by split.
Qed.

(** *** Arrays and objects *)
Section Elements.
Context (n : nat) (u1 u2 : option nat) (unify : value -> value -> K (E := E) -> K (E := E)).

(** An equation that can be unified in a state. *)
Record ready (V : vstore) (x y : value) : Prop := {
  rd_pat1 : pat x;
  rd_pat2 : pat y;
  rd_bind1 : bindable V u1 x;
  rd_bind2 : bindable V u2 y;
  rd_bound1 : bounded N x;
  rd_bound2 : bounded N y;
  rd_dir : dir n u1 u2 V x y;
}.
Definition here (st : ustate) : Prop := inv N st /\ valid (sview st) u1 /\ valid (sview st) u2.

Context (U : forall x y k st, here st -> ready (sview st) x y -> handles N cl (after N F (us_iters st) st (both u1 u2 x y)) k ->
  once N F (us_iters st) st (both u1 u2 x y) (eqn u1 u2 x y) k (unify x y k st)).

Lemma ready_mono V V1 x y : extends V V1 -> ready V x y -> ready V1 x y.
Proof. intros X [P1 P2 B1 B2 N1 N2 D]. split; [done|done|by eapply bindable_mono|by eapply bindable_mono|done|done|by eapply dir_mono]. Qed.

Lemma here_after L st Q st1 : here st -> after N F L st Q st1 -> here st1.
Proof. intros (I & V1 & V2) A. split; [apply A|]. split; (eapply valid_extends; [apply A|done]). Qed.

(** A first equation and the others. *)
Lemma once_cons L st x y k iter (Q : vstore -> Prop) Eqn : here st -> ready (sview st) x y -> L `prefix_of` us_iters st ->
  handles N cl (after N F L st (fun V => both u1 u2 x y V /\ Q V)) iter ->
  (forall st1, after N F (us_iters st) st (both u1 u2 x y) st1 -> L `prefix_of` us_iters st1 ->
    handles N cl (after N F L st1 Q) iter -> once N F L st1 Q Eqn iter (k st1)) ->
  once N F L st (fun V => both u1 u2 x y V /\ Q V) (fun sigma => eqn u1 u2 x y sigma /\ Eqn sigma) iter (unify x y k st).
Proof.
  intros H R HL Hi Hk.
  assert (Lp : forall st1, after N F (us_iters st) st (both u1 u2 x y) st1 -> L `prefix_of` us_iters st1)
    by (intros st1 A; etransitivity; [exact HL|apply A]).
  assert (Hi1 : forall st1, after N F (us_iters st) st (both u1 u2 x y) st1 -> handles N cl (after N F L st1 Q) iter).
  { intros st1 A. eapply handles_impl; [|exact Hi]. intros st2 A2.
    eapply (after_trans N F L L); [eapply (after_weaken N F (us_iters st)); [exact HL|intros V _ HQ; exact HQ|exact A]| |reflexivity].
    eapply after_weaken; [reflexivity| |exact A2]. intros V X HQ. split; [|done]. eapply both_mono; [exact X|apply A]. }
  apply (once_weaken N F L L st (fun V => Q V /\ both u1 u2 x y V) _
    (fun sigma => eqn u1 u2 x y sigma /\ Eqn sigma)); [reflexivity|tauto|done|].
  eapply once_seq; [exact HL| |].
  - apply U; [done|done|]. eapply once_handles; [exact Hi1|]. intros st1 A. apply Hk; auto.
  - intros st1 A. eapply once_weaken; [reflexivity| |done|apply Hk; auto]. intros V X HQ. split; [done|].
    eapply both_mono; [exact X|apply A].
Qed.

Lemma Forall2_both_mono la lb V V1 : extends V V1 ->
  Forall2 (fun x y => both u1 u2 x y V) la lb -> Forall2 (fun x y => both u1 u2 x y V1) la lb.
Proof. intros X H. eapply Forall2_impl; [exact H|]. intros x y. by apply both_mono. Qed.

Lemma arrays_once L la : forall lb iter st, here st -> Forall2 (ready (sview st)) la lb -> L `prefix_of` us_iters st ->
  handles N cl (after N F L st (fun V => Forall2 (fun x y => both u1 u2 x y V) la lb)) iter ->
  once N F L st (fun V => Forall2 (fun x y => both u1 u2 x y V) la lb)
    (fun sigma => Forall2 (fun x y => eqn u1 u2 x y sigma) la lb) iter (arrays_rec unify la lb iter st).
Proof.
  induction la as [|x la IH]; intros lb iter st H R HL Hi; inversion R as [|? y ? lb' Rx R']; subst; simpl.
  - apply (once_iter N cl F); [done|apply H|constructor|done].
  - eapply once_weaken; [reflexivity| | |eapply (once_cons _ st x y _ _ (fun V => Forall2 (fun x y => both u1 u2 x y V) la lb')
      (fun sigma => Forall2 (fun x y => eqn u1 u2 x y sigma) la lb'))].
    + intros V _ [H1 H2]. by constructor.
    + intros sigma _. rewrite Forall2_cons. reflexivity.
    + done.
    + done.
    + done.
    + eapply handles_impl; [|exact Hi]. intros st1. apply after_weaken; [done|]. intros V _ [H1 H2]. by constructor.
    + intros st1 A Lp Hi1. apply IH; [by eapply here_after| |done|done]. eapply Forall2_impl; [exact R'|]. intros x' y'. apply ready_mono, A.
Qed.

Context (oa ob : list (value * value)) (Sa : kv_sorted oa).

Definition obj_both (V : vstore) (kv : value * value) : Prop := exists v2, obj_get kv.1 ob = Some v2 /\ both u1 u2 kv.2 v2 V.

Lemma obj_both_mono V V1 l : extends V V1 -> Forall (obj_both V) l -> Forall (obj_both V1) l.
Proof. intros X H. eapply Forall_impl; [exact H|]. intros kv (v2 & G & B). exists v2. split; [done|by eapply both_mono]. Qed.

Lemma objects_once m c iter L : (length L <= c)%nat -> forall st pos, here st ->
  (forall kv v2, kv ∈ oa -> obj_get kv.1 ob = Some v2 -> ready (sview st) kv.2 v2) ->
  L `prefix_of` us_iters st -> us_iters st !! c = Some pos -> (length oa - pos <= m)%nat ->
  handles N cl (after N F L st (fun V => Forall (obj_both V) (drop pos oa))) iter ->
  once N F L st (fun V => Forall (obj_both V) (drop pos oa)) (fun sigma => Forall (obj_eqn u1 u2 ob sigma) (drop pos oa)) iter
    (objects_rec m unify oa ob (map fst oa) c iter st).
Proof.
  intros Hc. induction m as [|m IH]; intros st pos H R HL Hpos Hm Hi; simpl; rewrite Hpos; simpl;
    rewrite list_lookup_fmap; (destruct (oa !! pos) as [[key v]|] eqn:Ho; simpl;
      [|rewrite drop_ge in * by (by apply lookup_ge_None); apply (once_iter N cl F); [done|apply H|constructor|done]]).
  { apply lookup_lt_Some in Ho. lia. }
  pose proof (list_elem_of_lookup_2 _ _ _ Ho) as Hin. rewrite (obj_get_at _ _ _ _ Sa Ho), (drop_S _ _ _ Ho) in *.
  set (st' := set_iters st (<[c := S pos]> (us_iters st))).
  assert (Lp : L `prefix_of` us_iters st').
  { unfold st'. cbn [us_iters set_iters]. destruct HL as [k ->]. rewrite insert_app_r_alt by lia. by eexists. }
  assert (H' : here st') by (destruct H as [I Vd]; split; [by apply inv_iters|done]).
  destruct (obj_get key ob) as [v2|] eqn:G2.
  2:{ exists st', None. split_ands; [done|apply H'|done|]. right. split_ands; [done..|].
      intros sigma _ [(w & Hw & _) _]%Forall_cons. simpl in Hw. congruence. }
  enough (Hs : once N F L st' (fun V => both u1 u2 v v2 V /\ Forall (obj_both V) (drop (S pos) oa))
    (fun sigma => eqn u1 u2 v v2 sigma /\ Forall (obj_eqn u1 u2 ob sigma) (drop (S pos) oa)) iter
    (unify v v2 (objects_rec m unify oa ob (map fst oa) c iter) st')).
  { apply (once_iters N F L st' st) in Hs; [|done..]. eapply once_weaken; [reflexivity| | |exact Hs].
    - intros V _ [Q1 Q2]. constructor; [by exists v2|done].
    - intros sigma _. rewrite Forall_cons. unfold obj_eqn at 2. simpl. unfold eqn. naive_solver. }
  apply once_cons; [done|by apply (R (key, v))|done| |].
  - eapply handles_impl; [|exact Hi]. intros st1 [I1 E1 N1 P1 V1 [Q1 Q2]]. split; try done. constructor; [by exists v2|done].
  - intros st1 A Lp1 Hi1. apply IH; [by eapply here_after| |done| |lia|done].
    + intros kv w Hkv Hw. eapply ready_mono; [apply A|by apply R].
    + eapply prefix_lookup_Some; [|apply A]. unfold st'. cbn [us_iters set_iters]. apply list_lookup_insert_eq. by eapply lookup_lt_Some.
Qed.
End Elements.

(** *** Terms *)
Lemma apply_ready st u t : inv N st -> valid (sview st) u -> pat t -> bindable (sview st) u t -> bounded N t ->
  exists t' u', b_apply (us_heap st) u t = Some (t', u') /\ valid (sview st) u' /\ pat t' /\ bindable (sview st) u' t' /\ bounded N t' /\
    (forall x, t' = Var x -> vget (sview st) u' x = None) /\
    (forall V1 w, extends (sview st) V1 -> gv V1 u' t' w <-> gv V1 u t w) /\
    (forall sigma, solves sigma (sview st) -> Equal (ev sigma u t) (ev sigma u' t') = true).
Proof.
  intros I Vu Pt Bt Nt. destruct (apply_ground N st u t I) as (t' & u' & E' & [(-> & -> & Nv)|(v & G1 & G2 & Bv & Nv & Vv)]); [exists t, u|exists t', u'].
  - split_ands; try done. intros sigma _. apply Equal_refl.
  - split_ands; [done|auto|by eapply gv_pat| |by eapply gv_bounded|by intros x ->; destruct (Nv x)| |].
    + intros x Hx. right. by eapply gv_vars.
    + intros V1 w X. pose proof (gv_mono _ _ _ _ _ X G1) as H1. pose proof (gv_mono _ _ _ _ _ X G2) as H2. split; intros H.
      * by rewrite <- (gv_fun _ _ _ _ H2 w H).
      * by rewrite <- (gv_fun _ _ _ _ H1 w H).
    + intros sigma S. eapply Equal_trans; [by eapply gv_ev|]. rewrite Equal_sym. by eapply gv_ev.
Qed.

Lemma ready_head n u1 u2 V a b : ready n u1 u2 V a b -> (forall x, a = Var x -> vget V u1 x = None) -> (forall y, b = Var y -> vget V u2 y = None) ->
  (exists v, gv V u1 a v /\ bounded n v /\ forall x, a <> Var x) \/ (exists v, gv V u2 b v /\ bounded n v /\ forall y, b <> Var y).
Proof.
  intros R Ha Hb. destruct (rd_dir _ _ _ _ _ _ R) as [(v & G & Bv)|(v & G & Bv)]; [left|right]; exists v; (split_ands; [done|done|]);
    intros x ->; (eapply gv_unbound; [|exact G]); auto.
Qed.

Lemma pat_const a : pat a -> IsScalar a = true \/ is_set a = true -> data a.
Proof. intros P [H|H]; destruct P; try done; by apply data_scalar. Qed.
Lemma const_sort a b : IsScalar a = true \/ is_set a = true -> sortOrder a = sortOrder b -> IsScalar b = true \/ is_set b = true.
Proof. intros [H|H]; destruct a; try done; destruct b; try done; naive_solver. Qed.

Lemma free_var u x V : bindable V u (Var x) -> vget V u x = None -> F u x.
Proof.
  intros B Nx. destruct (B x) as [?|[v Hv]]; [cbn [vars_of]; by apply elem_of_singleton|done|]. by destruct (gv_unbound _ _ _ _ Nx Hv).
Qed.

(** A variable, on the left or on the right. *)
Lemma left_once n x b u1 u2 iter st : (n <= N)%nat -> here u1 u2 st -> ready n u1 u2 (sview st) (Var x) b ->
  vget (sview st) u1 x = None -> (forall y, b = Var y -> vget (sview st) u2 y = None) ->
  handles N cl (after N F (us_iters st) st (both u1 u2 (Var x) b)) iter ->
  once N F (us_iters st) st (both u1 u2 (Var x) b) (eqn u1 u2 (Var x) b) iter (bind_and_iter u1 x b u2 iter st).
Proof.
  intros Hn (I & V1 & V2) R Ha Hb Hi. pose proof (free_var _ _ _ (rd_bind1 _ _ _ _ _ _ R) Ha) as Fx.
  destruct (ready_head _ _ _ _ _ _ R ltac:(by intros ? [= <-]) Hb) as [(v & G & Bv & Nv)|(v & G & Bv & Nv)]; [by destruct (Nv x)|].
  destruct R as [Pa Pb Ba Bb Za Zb _].
  assert (Q : forall V, extends (sview st) V -> gv V u1 (Var x) v -> both u1 u2 (Var x) b V)
    by (intros V X H; exists v, v; split_ands; [done|by eapply gv_mono|apply Equal_refl]).
  eapply once_weaken; [reflexivity|exact Q|done|apply (once_bind st u1 x b u2 v)]; eauto using bounded_le.
  eapply handles_impl; [|exact Hi]. intros st1. by apply after_weaken.
Qed.

Lemma right_once n a y u1 u2 iter st : (n <= N)%nat -> here u1 u2 st -> ready n u1 u2 (sview st) a (Var y) ->
  (forall x, a = Var x -> vget (sview st) u1 x = None) -> vget (sview st) u2 y = None ->
  handles N cl (after N F (us_iters st) st (both u1 u2 a (Var y))) iter ->
  once N F (us_iters st) st (both u1 u2 a (Var y)) (eqn u1 u2 a (Var y)) iter (bind_and_iter u2 y a u1 iter st).
Proof.
  intros Hn (I & V1 & V2) R Ha Hb Hi. pose proof (free_var _ _ _ (rd_bind2 _ _ _ _ _ _ R) Hb) as Fy.
  destruct (ready_head _ _ _ _ _ _ R Ha ltac:(by intros ? [= <-])) as [(v & G & Bv & Nv)|(v & G & Bv & Nv)]; [|by destruct (Nv y)].
  destruct R as [Pa Pb Ba Bb Za Zb _].
  assert (Q : forall V, extends (sview st) V -> gv V u2 (Var y) v -> both u1 u2 a (Var y) V)
    by (intros V X H; exists v, v; split_ands; [by eapply gv_mono|done|apply Equal_refl]).
  eapply once_weaken; [reflexivity|exact Q| |apply (once_bind st u2 y a u1 v)]; eauto using bounded_le.
  - intros sigma _. unfold eqn. simpl. by rewrite Equal_sym.
  - eapply handles_impl; [|exact Hi]. intros st1. by apply after_weaken.
Qed.

(** A scalar or a set is compared. *)
Lemma const_once a b u1 u2 iter st : inv N st -> pat a -> pat b -> IsScalar a = true \/ is_set a = true -> (forall y, b <> Var y) ->
  handles N cl (after N F (us_iters st) st (both u1 u2 a b)) iter ->
  once N F (us_iters st) st (both u1 u2 a b) (eqn u1 u2 a b) iter (if Equal a b then iter st else return_nil st).
Proof.
  intros I Pa Pb Ca Nb Hi. pose proof (pat_const a Pa Ca) as Da. destruct (Equal a b) eqn:Q.
  - assert (Db : data b) by (apply pat_const; [done|]; eapply const_sort; [exact Ca|by apply Equal_sortOrder]).
    apply (once_iter N cl F); [done|done| |done]. exists a, b. split_ands; [by apply data_gv..|done].
  - apply once_nil; [done|]. intros sigma S H. unfold eqn in H. rewrite (ev_const _ _ a Ca) in H.
    assert (Cb : IsScalar b = true \/ is_set b = true).
    { eapply const_sort; [exact Ca|]. rewrite (Equal_sortOrder _ _ H). destruct b; try done. by destruct (Nb x). }
    rewrite (ev_const _ _ b Cb) in H. congruence.
Qed.

Lemma set_once fuel ks b u1 u2 iter st : (3 * N + 4 < fuel)%nat -> inv N st -> pat (SetV ks) -> pat b -> bounded N (SetV ks) -> bounded N b -> (forall y, b <> Var y) ->
  handles N cl (after N F (us_iters st) st (both u1 u2 (SetV ks) b)) iter ->
  once N F (us_iters st) st (both u1 u2 (SetV ks) b) (eqn u1 u2 (SetV ks) b) iter
    match Plug fuel (us_heap st) u1 (SetV ks), Plug fuel (us_heap st) u2 b with
    | Some a, Some b => if Equal a b then iter st else return_nil st
    | _, _ => None end.
Proof.
  intros Hf I Pa Pb Za Zb Nv Hi. assert (Da : data (SetV ks)) by (inversion Pa; subst; done).
  rewrite (Plug_data (SetV ks)) by (done || lia). destruct (Plug_ok N st u2 b I Pb N fuel Zb ltac:(lia)) as (b' & PB & _).
  rewrite PB. destruct (is_set b) eqn:Sb.
  - assert (Db : data b) by (apply pat_const; [done|by right]). rewrite (Plug_data b) in PB by (done || lia). injection PB as <-.
    apply const_once; try done. by right.
  - assert (Q : forall w, sortOrder w = sortOrder b -> Equal (SetV ks) w = false).
    { intros w Hw. destruct (Equal (SetV ks) w) eqn:Q; [|done]. apply Equal_sortOrder in Q. rewrite Hw in Q. by destruct b. }
    rewrite Q by (by eapply Plug_sort). apply once_nil; [done|]. intros sigma _. unfold eqn. simpl.
    rewrite Q; [done|]. destruct b; try done. by destruct (Nv x).
Qed.

(** Variables, scalars and sets. *)
Lemma values_once n fuel a b u1 u2 iter st : (n <= N)%nat -> (3 * N + 4 < fuel)%nat -> here u1 u2 st -> ready n u1 u2 (sview st) a b ->
  (forall x, a = Var x -> vget (sview st) u1 x = None) -> (forall y, b = Var y -> vget (sview st) u2 y = None) ->
  (exists x, a = Var x) \/ (exists y, b = Var y) \/ (IsScalar a = true /\ IsScalar b = true) \/ is_set a = true ->
  handles N cl (after N F (us_iters st) st (both u1 u2 a b)) iter ->
  once N F (us_iters st) st (both u1 u2 a b) (eqn u1 u2 a b) iter (values fuel a b u1 u2 iter st).
Proof.
  intros Hn Hf H R Ha Hb Hc Hi. pose proof H as (I & _). pose proof (ready_head _ _ _ _ _ _ R Ha Hb) as D. pose proof R as [Pa Pb _ _ Za Zb _].
  assert (BL : forall x, a = Var x -> once N F (us_iters st) st (both u1 u2 a b) (eqn u1 u2 a b) iter (bind_and_iter u1 x b u2 iter st)).
  { intros x ->. apply (left_once n); auto. }
  assert (BR : forall y, b = Var y -> once N F (us_iters st) st (both u1 u2 a b) (eqn u1 u2 a b) iter (bind_and_iter u2 y a u1 iter st)).
  { intros y ->. apply (right_once n); auto. }
  assert (Ca : IsComprehension a = false /\ is_ref a = false) by (inversion Pa; subst; try done; by destruct a).
  assert (Cb : IsComprehension b = false /\ is_ref b = false) by (inversion Pb; subst; try done; by destruct b).
  destruct Ca as [Ca Ra], Cb as [Cb Rb]. unfold biunifyValues. rewrite Ra, Rb, Ca, Cb, !andb_false_r.
  replace (if is_set a then false else false) with false by (by destruct (is_set a)).
  replace (if is_set b then false else false) with false by (by destruct (is_set b)). cbn [orb].
  destruct a as [| | | |x| | | |ks| | | |]; try (by inversion Pa);
    try (by destruct b; try (by inversion Pb); try (by apply BR); (apply const_once; [done|done|done|by left|done|done])).
  - destruct b; try (by apply BL). destruct D as [(? & _ & _ & Nv)|(? & _ & _ & Nv)]; by destruct (Nv _ eq_refl).
  - destruct Hc as [[? [=]]|[[y ->]|[[[=] _]|[=]]]]. by apply BR.
  - destruct Hc as [[? [=]]|[[y ->]|[[[=] _]|[=]]]]. by apply BR.
  - destruct b; try (by apply set_once). by apply BR.
Qed.

Lemma both_array u1 u2 V la lb : in_int64 (Z.of_nat (length la)) = true -> in_int64 (Z.of_nat (length lb)) = true ->
  Forall2 (fun x y => both u1 u2 x y V) la lb -> both u1 u2 (Array la) (Array lb) V.
Proof.
  intros La Lb Fl. assert (H : exists va vb, Forall2 (gv V u1) la va /\ Forall2 (gv V u2) lb vb /\ Forall2 (fun x y => Equal x y = true) va vb).
  { clear La Lb. induction Fl as [|x y la lb (va & vb & G1 & G2 & Q) _ (la' & lb' & F1 & F2 & F3)]; [by exists [], []|].
    exists (va :: la'), (vb :: lb'). split_ands; by constructor. }
  destruct H as (va & vb & F1 & F2 & F3). exists (Array va), (Array vb). split_ands; [by apply gv_array..|].
  rewrite <- (map_id va), <- (map_id vb). by apply Equal_Array_map.
Qed.

(** Elements of ready arrays and objects are ready. *)
Lemma ready_element n u1 u2 V a b x y : ready n u1 u2 V a b -> pat x -> pat y ->
  vars_of no_params x ⊆ vars_of no_params a -> vars_of no_params y ⊆ vars_of no_params b -> bounded N x -> bounded N y ->
  (forall v, gv V u1 a v -> exists w, gv V u1 x w /\ forall m, bounded (S m) v -> bounded m w) ->
  (forall v, gv V u2 b v -> exists w, gv V u2 y w /\ forall m, bounded (S m) v -> bounded m w) ->
  (exists n', n = S n') -> ready (pred n) u1 u2 V x y.
Proof.
  intros [Pa Pb Ba Bb _ _ D] Px Py Vx Vy Zx Zy Ga Gb [n' ->]. split; try done.
  - intros z Hz. apply Ba. set_solver.
  - intros z Hz. apply Bb. set_solver.
  - destruct D as [(v & G & B)|(v & G & B)]; [left; destruct (Ga v G) as (w & Gw & Bw)|right; destruct (Gb v G) as (w & Gw & Bw)];
      exists w; auto.
Qed.

Lemma ready_succ n u1 u2 V a b : ready n u1 u2 V a b -> is_composite a = true -> is_set a = false -> is_composite b = true -> is_set b = false -> exists n', n = S n'.
Proof.
  intros R Ca Sa Cb Sb. destruct (rd_dir _ _ _ _ _ _ R) as [(v & G & B)|(v & G & B)]; apply (bounded_inv n v B); inversion G; subst; try done; by destruct v.
Qed.

Lemma gv_array_elem V u l i x v : l !! i = Some x -> gv V u (Array l) v -> exists w, gv V u x w /\ forall m, bounded (S m) v -> bounded m w.
Proof.
  intros Hi G. inversion G as [| |? ? l' _ Fl| |]; subst; [done|]. destruct (Forall2_lookup_l _ _ _ _ _ Fl Hi) as (w & Hw & Gw).
  exists w. split; [done|]. intros m B. simpl in B. rewrite Forall_forall in B. apply B. by eapply list_elem_of_lookup_2.
Qed.

Lemma gv_object_elem V u kvs kv v : kv ∈ kvs -> gv V u (Object kvs) v -> exists w, gv V u kv.2 w /\ forall m, bounded (S m) v -> bounded m w.
Proof.
  intros [i Hi]%list_elem_of_lookup G. inversion G as [| | |? ? kvs' _ _ _ Fl|]; subst; [done|].
  destruct (Forall2_lookup_l _ _ _ i kv.2 Fl) as (w & Hw & Gw); [by rewrite list_lookup_fmap, Hi|].
  exists w. split; [done|]. intros m [B _]. apply List.Forall_map in B. rewrite Forall_forall in B. apply B. by eapply list_elem_of_lookup_2.
Qed.

Lemma bounded_array n l x : bounded n (Array l) -> x ∈ l -> bounded n x.
Proof. destruct n as [|n]; [done|]. simpl. rewrite Forall_forall. intros H Hx. apply bounded_S. by apply H. Qed.
Lemma bounded_object n kvs kv : bounded n (Object kvs) -> kv ∈ kvs -> bounded n kv.2.
Proof. destruct n as [|n]; [done|]. intros [H _] Hx. rewrite Forall_forall in H. apply bounded_S. by apply H. Qed.

Lemma ready_array n u1 u2 V la lb : length la = length lb -> ready n u1 u2 V (Array la) (Array lb) ->
  exists n', n = S n' /\ Forall2 (ready n' u1 u2 V) la lb.
Proof.
  intros L R. destruct (ready_succ n u1 u2 V _ _ R) as [n' ->]; [done..|]. exists n'. split; [done|].
  apply Forall2_same_length_lookup_2; [done|]. intros i x y Hx Hy.
  pose proof (list_elem_of_lookup_2 _ _ _ Hx) as Ix. pose proof (list_elem_of_lookup_2 _ _ _ Hy) as Iy.
  assert (Pl : Forall pat la /\ Forall pat lb) by (destruct R as [Pa Pb _ _ _ _ _]; by inversion Pa; inversion Pb).
  destruct Pl as [Pa Pb]. rewrite Forall_forall in Pa, Pb.
  apply (ready_element (S n') u1 u2 V (Array la) (Array lb)); auto using vars_array; try (by eexists).
  - eapply bounded_array; [apply (rd_bound1 _ _ _ _ _ _ R)|done].
  - eapply bounded_array; [apply (rd_bound2 _ _ _ _ _ _ R)|done].
  - intros v. by apply (gv_array_elem V u1 la i).
  - intros v. by apply (gv_array_elem V u2 lb i).
Qed.

Lemma ready_object n u1 u2 V oa ob : ready n u1 u2 V (Object oa) (Object ob) -> exists n', n = S n' /\
  forall kv v2, kv ∈ oa -> obj_get kv.1 ob = Some v2 -> ready n' u1 u2 V kv.2 v2.
Proof.
  intros R. destruct (ready_succ n u1 u2 V _ _ R) as [n' ->]; [done..|]. exists n'. split; [done|].
  intros kv v2 Ix (kv2 & Iy & _ & <-)%obj_get_Some.
  assert (Pl : Forall (fun kv => pat kv.2) oa /\ Forall (fun kv => pat kv.2) ob) by (destruct R as [Pa Pb _ _ _ _ _]; by inversion Pa; inversion Pb).
  destruct Pl as [Pa Pb]. rewrite Forall_forall in Pa, Pb.
  apply (ready_element (S n') u1 u2 V (Object oa) (Object ob)); auto using vars_object; try (by eexists).
  - eapply bounded_object; [apply (rd_bound1 _ _ _ _ _ _ R)|done].
  - eapply bounded_object; [apply (rd_bound2 _ _ _ _ _ _ R)|done].
  - intros v. by apply gv_object_elem.
  - intros v. by apply gv_object_elem.
Qed.

Lemma both_object u1 u2 V oa ob : pat (Object oa) -> pat (Object ob) -> length oa = length ob ->
  Forall (obj_both u1 u2 ob V) oa -> both u1 u2 (Object oa) (Object ob) V.
Proof.
  intros Pa Pb L H. inversion Pa as [|? X| |? Sa Da _|]; subst; [done|]. inversion Pb as [|? X| |? Sb Db _|]; subst; [done|].
  apply (Forall2_obj_get (fun x y => both u1 u2 x y V)) in H; [|done..].
  assert (X : exists va vb, Forall2 (gv V u1) (map snd oa) va /\ Forall2 (gv V u2) (map snd ob) vb /\ Forall2 (fun x y => Equal x y = true) va vb).
  { clear -H. induction H as [|x y la lb [_ (va & vb & G1 & G2 & Q)] _ (la' & lb' & F1 & F2 & F3)]; [by exists [], []|].
    exists (va :: la'), (vb :: lb'). split_ands; by constructor. }
  destruct X as (va & vb & F1 & F2 & F3).
  destruct (zip_keys (map fst oa) va) as [E1 E2]; [rewrite length_map, <- (length_map snd); by apply Forall2_length in F1|].
  destruct (zip_keys (map fst ob) vb) as [E3 E4]; [rewrite length_map, <- (length_map snd); by apply Forall2_length in F2|].
  exists (Object (zip (map fst oa) va)), (Object (zip (map fst ob) vb)).
  split_ands; [apply gv_object; [done|done|by rewrite E1|by rewrite E2]|apply gv_object; [done|done|by rewrite E3|by rewrite E4]|].
  apply Equal_Object_split; [rewrite E1, E3|by rewrite E2, E4]. apply Forall2_fmap. eapply Forall2_impl; [exact H|]. by intros x y [? _].
Qed.

(** [IH] is the statement for terms of lower nesting. *)
Section Level.
Context (n fuel : nat) (Hn : (n <= N)%nat) (Hf : (n + 3 * N + 6 < S fuel)%nat).
Context (IH : forall n', (n' < n)%nat -> forall a b b1 b2 iter st, (n' + 3 * N + 6 < fuel)%nat -> here b1 b2 st ->
  ready n' b1 b2 (sview st) a b -> handles N cl (after N F (us_iters st) st (both b1 b2 a b)) iter ->
  once N F (us_iters st) st (both b1 b2 a b) (eqn b1 b2 a b) iter (unif fuel a b b1 b2 iter st)).

Lemma arrays_level la lb u1 u2 iter st : here u1 u2 st -> ready n u1 u2 (sview st) (Array la) (Array lb) ->
  handles N cl (after N F (us_iters st) st (both u1 u2 (Array la) (Array lb))) iter ->
  once N F (us_iters st) st (both u1 u2 (Array la) (Array lb)) (eqn u1 u2 (Array la) (Array lb)) iter
    (biunifyArrays (fun x y k => unif fuel x y u1 u2 k) la lb iter st).
Proof.
  intros H R Hi. pose proof R as [Pa Pb _ _ _ _ _]. unfold biunifyArrays. destruct (length la =? length lb)%nat eqn:L.
  2:{ apply once_nil; [apply H|]. intros sigma _ Q. apply Equal_Array_map, Forall2_length in Q. by rewrite Q, Nat.eqb_refl in L. }
  apply Nat.eqb_eq in L. destruct (ready_array n u1 u2 (sview st) la lb L R) as (n' & -> & R').
  assert (Q : forall V, Forall2 (fun x y => both u1 u2 x y V) la lb -> both u1 u2 (Array la) (Array lb) V)
    by (intros V; apply (both_array u1 u2 V); [by inversion Pa|by inversion Pb]).
  eapply once_weaken; [done|intros V _; apply Q|intros sigma _; symmetry; apply Equal_Array_map|].
  apply (arrays_once n' u1 u2 (fun x y k => unif fuel x y u1 u2 k)); try done.
  - intros x y k st' H0 R0 Hi0. apply (IH n'); try done; lia.
  - eapply handles_impl; [|exact Hi]. intros st1. apply after_weaken; [done|]. intros V _. apply Q.
Qed.

Lemma objects_level oa ob u1 u2 iter st : here u1 u2 st -> ready n u1 u2 (sview st) (Object oa) (Object ob) ->
  handles N cl (after N F (us_iters st) st (both u1 u2 (Object oa) (Object ob))) iter ->
  once N F (us_iters st) st (both u1 u2 (Object oa) (Object ob)) (eqn u1 u2 (Object oa) (Object ob)) iter
    (biunifyObjects fuel (fun x y k => unif fuel x y u1 u2 k) oa ob u1 u2 iter st).
Proof.
  intros H R Hi. pose proof R as [Pa Pb _ _ _ _ _]. unfold biunifyObjects. destruct (length oa =? length ob)%nat eqn:L; simpl.
  2:{ apply once_nil; [apply H|]. intros sigma _ Q. apply Equal_Object_map, Forall2_length in Q. by rewrite Q, Nat.eqb_refl in L. }
  apply Nat.eqb_eq in L. destruct (ready_object n u1 u2 (sview st) oa ob R) as (n' & -> & R').
  assert (Sa : kv_sorted oa) by (by inversion Pa). assert (Sb : kv_sorted ob) by (by inversion Pb).
  assert (Ka : forall l, pat (Object l) -> nonGroundKeys l = false).
  { intros l Pl. apply ground_keys. inversion Pl as [|? X| |? _ Dl _|]; subst; [done|]. eapply Forall_impl; [exact Dl|]. intros kv. apply data_ground. }
  rewrite !Ka by done. set (st' := set_iters st (us_iters st ++ [0%nat])).
  apply (once_iters N F (us_iters st) st' st); [done..|].
  eapply once_weaken; [done| | |apply (objects_once n' u1 u2 (fun x y k => unif fuel x y u1 u2 k) )]; try done.
  - intros V _. rewrite drop_0. by apply both_object.
  - intros sigma _. unfold eqn. simpl. rewrite drop_0, Equal_Object_map. symmetry. by apply Equal_Object_get.
  - intros x y k st0 H0 R0 Hi0. apply (IH n'); try done; lia.
  - split; [by apply inv_iters, H|apply H].
  - by eexists.
  - unfold st'. simpl. rewrite lookup_app_r, Nat.sub_diag by done. done.
  - lia.
  - eapply handles_impl; [|exact Hi]. intros st1 [I1 E1 N1 P1 W1 Q1]. split; try done. rewrite drop_0 in Q1. by apply both_object.
Qed.
End Level.

Lemma biunify_once n : (n <= N)%nat -> forall fuel a b b1 b2 iter st, (n + 3 * N + 6 < fuel)%nat -> here b1 b2 st ->
  ready n b1 b2 (sview st) a b -> handles N cl (after N F (us_iters st) st (both b1 b2 a b)) iter ->
  once N F (us_iters st) st (both b1 b2 a b) (eqn b1 b2 a b) iter (unif fuel a b b1 b2 iter st).
Proof.
  induction n as [n IHn] using lt_wf_ind; intros Hn [|fuel] a b b1 b2 iter st Hf (I & V1 & V2) R Hi; [lia|].
  cbn [biunify]. fold (unif fuel). destruct R as [Pa Pb Ba Bb Za Zb D].
  destruct (apply_ready st b1 a I V1 Pa Ba Za) as (a' & u1 & -> & Vu1 & Pa' & Ba' & Za' & Fa & Ga & Ea).
  destruct (apply_ready st b2 b I V2 Pb Bb Zb) as (b' & u2 & -> & Vu2 & Pb' & Bb' & Zb' & Fb & Gb & Eb).
  assert (R : ready n u1 u2 (sview st) a' b').
  { split; try done. destruct D as [(v & G & B)|(v & G & B)]; [left|right]; exists v; (split; [|done]); [by apply Ga|by apply Gb]. }
  assert (Q : forall V, extends (sview st) V -> both u1 u2 a' b' V -> both b1 b2 a b V).
  { intros V X (va & vb & G1 & G2 & Q). exists va, vb. split_ands; [by apply Ga|by apply Gb|done]. }
  apply (once_weaken N F (us_iters st) (us_iters st) st (both u1 u2 a' b') _ (eqn u1 u2 a' b')); [done|exact Q| |].
  { intros sigma S. unfold eqn. rewrite (Equal_cong _ _ _ (Ea sigma S)), (Equal_sym (ev sigma u1 a')),
      (Equal_sym (ev sigma u1 a')), (Equal_cong _ _ _ (Eb sigma S)). done. }
  assert (Hi' : handles N cl (after N F (us_iters st) st (both u1 u2 a' b')) iter).
  { eapply handles_impl; [|exact Hi]. intros st1. by apply after_weaken. }
  assert (H' : here u1 u2 st) by done.
  clear a b Pa Pb Ba Bb Za Zb D Ga Gb Ea Eb V1 V2 Q Hi. rename a' into a, b' into b.
  assert (Hv : (exists x, a = Var x) \/ (exists y, b = Var y) \/ (IsScalar a = true /\ IsScalar b = true) \/ is_set a = true ->
    once N F (us_iters st) st (both u1 u2 a b) (eqn u1 u2 a b) iter (values fuel a b u1 u2 iter st)).
  { intros. apply (values_once n); try done. lia. }
  assert (Hn' : (forall y, b <> Var y) -> sortOrder a <> sortOrder b -> (forall x, a <> Var x) ->
    once N F (us_iters st) st (both u1 u2 a b) (eqn u1 u2 a b) iter (return_nil st)).
  { intros Nb No Na. apply once_nil; [done|]. intros sigma _ Q%Equal_sortOrder. apply No.
    destruct a; try (by destruct (Na x)); destruct b; try (by destruct (Nb x)); done. }
  destruct a; try (by inversion Pa'); try (by apply Hv; eauto);
    (destruct b; try (by inversion Pb'); try (by apply Hv; eauto); try (by apply Hn')).
  - apply (arrays_level n fuel); try done. intros n' Hl. intros. apply (IHn n'); try done; lia.
  - apply (objects_level n fuel); try done. intros n' Hl. intros. apply (IHn n'); try done; lia.
Qed.
End Unification.
