(* ===== verification/Eval.v ===== *)
(** Evaluation of queries: [eval] and the evaluation of expressions, references,
    comprehensions and built-in calls in [src/topdown/eval.go], outside partial
    evaluation.

    The code is in continuation-passing style, as in Unify.v.  The variables that the
    closures of the code assign ([defined], [result], ...) are cells of the state.
    What the evaluator calls for references to [data], for functions and for [with]
    modifiers is an argument, which gets the evaluator itself for its recursive calls;
    tracing, cancellation, metrics and the caches of comprehensions and of
    non-deterministic built-in functions are left out. *)
From Stdlib Require Import ZArith Lia String.
From stdpp Require Import base gmap list strings pretty.
From S2P Require Import Prelude Value Containers RefOps VarVisitor Safety EvalCache Bindings Unify.

Inductive eval_error : Type :=
| EarlyExit (prev : option eval_error)
| DeferredEarlyExit (prev : option eval_error)
| UnsupportedBuiltin
| ObjectConflict
| OtherErr (msg : string).

Abbreviation EK := (K (E := eval_error)).

(** A built-in function passes its outputs to the iterator one by one, and returns
    the error of the iterator at once; then it may fail or halt evaluation. *)
Inductive failure : Type :=
| Fails (msg : string)
| Halts (err : eval_error).
Record Builtin : Type := MkBuiltin {
  bi_args : nat;
  bi_result : bool;
  bi_func : list value -> list value * option failure;
}.

(** The fields of [eval] that evaluation of a query uses.  The documents that [with]
    modifiers replace and the bindings of the caller are kept together. *)
Record context : Type := MkContext {
  input : option value;
  data_doc : option value;
  caller : option nat;
}.
Record eval : Type := MkEval {
  query : list expr;
  index : nat;
  queryID : N;
  bindings_of : option nat;
  findOne : bool;
  context_of : context;
}.

(** ** State *)
Definition set_env (st : ustate) (e : env) : ustate := MkUstate (us_heap st) (us_iters st) e.
Definition new_cell (v : value) (st : ustate) : nat * ustate :=
  let e := us_env st in (length (cells e), set_env st (MkEnv (cells e ++ [v]) (curr e) (errs e) (common e))).
Definition get_cell (c : nat) (st : ustate) : option value := cells (us_env st) !! c.
Definition put_cell (c : nat) (v : value) (st : ustate) : ustate :=
  let e := us_env st in set_env st (MkEnv (<[c := v]> (cells e)) (curr e) (errs e) (common e)).
Definition add_err (msg : string) (st : ustate) : ustate :=
  let e := us_env st in set_env st (MkEnv (cells e) (curr e) (errs e ++ [msg]) (common e)).

Definition set_common (st : ustate) (c : shared) : ustate :=
  let e := us_env st in set_env st (MkEnv (cells e) (curr e) (errs e) c).
Definition set_mocks (st : ustate) (s : FunctionMocks.stack) : ustate :=
  let c := common (us_env st) in set_common st (MkShared (virtualCache c) (baseCache c) (targetStack c) s).
Definition push_mocks (st : ustate) : ustate := set_mocks st (FunctionMocks.Push (functionMocks (common (us_env st)))).
Definition pop_mocks (st : ustate) : option ustate := s ← FunctionMocks.Pop (functionMocks (common (us_env st))); Some (set_mocks st s).

(** [queryIDFactory.Next]. *)
Definition Next (st : ustate) : N * ustate :=
  let e := us_env st in (curr e, set_env st (MkEnv (cells e) (curr e + 1)%N (errs e) (common e))).

Definition closure (e : eval) (q : list expr) (st : ustate) : eval * ustate :=
  let '(id, st) := Next st in (MkEval q 0 id (bindings_of e) false (context_of e), st).

Definition genvarprefix : string := "$".
Definition generateVar (suffix : string) : value := Var (genvarprefix +:+ "_" +:+ suffix).
Definition term_var (id : N) (i : nat) : value := generateVar ("term_" +:+ pretty id +:+ "_" +:+ pretty i).

(** ** Errors *)
Definition suppressEarlyExit (err : option eval_error) : option eval_error :=
  match err with Some (EarlyExit prev) | Some (DeferredEarlyExit prev) => prev | _ => err end.

(** The loops of [enumerate]: a deferred early exit is kept until the end of the
    loop, the first one being returned; any other error ends the loop. *)
Fixpoint each {A} (deferred : option eval_error) (l : list A) (f : A -> EK) : EK := fun st =>
  match l with
  | [] => Some (st, deferred)
  | x :: l =>
      '(st, err) ← f x st;
      match err with
      | None => each deferred l f st
      | Some (DeferredEarlyExit _) => each (match deferred with None => err | _ => deferred end) l f st
      | Some _ => Some (st, err)
      end
  end.

(** ** References to terms *)
Section Term.
Context (fuel : nat) (biunify : value -> value -> option nat -> option nat -> EK -> EK).

(** The first element that [Until] stops at; [None] is lack of fuel. *)
Fixpoint until (test : value * value -> option bool) (l : list (value * value)) : option (option (value * value)) :=
  match l with
  | [] => Some None
  | x :: l => b ← test x; if (b : bool) then Some (Some x) else until test l
  end.

Definition evalTerm_get (h : heap) (term : value) (termbindings : option nat) (plugged : value) :
    option (option (value * option nat)) :=
  let found (v : value) := option_map Some (b_apply h termbindings v) in
  let same (k : value) := option_map (fun k => Equal k plugged) (Plug fuel h termbindings k) in
  match term with
  | SetV l =>
      if IsGround term then if set_mem plugged l then found plugged else Some None
      else x ← until (fun kv => same kv.1) (map (fun x => (x, x)) l); match x with Some _ => found plugged | None => Some None end
  | Object kvs =>
      if IsGround term then match obj_get plugged kvs with Some v => found v | None => Some None end
      else x ← until (fun kv => same kv.1) kvs; match x with Some kv => found kv.2 | None => Some None end
  | Array l => match Term_Get term plugged with Some v => found v | None => Some None end
  | _ => Some None
  end.

(** [evalTerm.eval], [next] and [enumerate]; [path] is the rest of the reference. *)
Fixpoint evalTerm (path : list value) (bindings : option nat) (term : value) (termbindings : option nat)
    (rterm : value) (rbindings : option nat) (iter : EK) {struct path} : EK := fun st =>
  match path with
  | [] => biunify term rterm termbindings rbindings iter st
  | k :: path =>
      let next (plugged : value) : EK := fun st =>
        r ← evalTerm_get (us_heap st) term termbindings plugged;
        match r with
        | Some (t, b) => evalTerm path bindings t b rterm rbindings iter st
        | None => return_nil st
        end in
      let next_of (key : value) : EK := fun st => plugged ← Plug fuel (us_heap st) termbindings key; next plugged st in
      plugged ← Plug fuel (us_heap st) bindings k;
      if IsGround plugged then next plugged st
      else
        match term with
        | Array l => each None (seq 0 (length l)) (fun i => let key := Number (NInt (Z.of_nat i)) in
            biunify key k bindings bindings (next key)) st
        | Object kvs => each None (map fst kvs) (fun key => biunify key k termbindings bindings (next_of key)) st
        | SetV l => each None l (fun key => biunify key k termbindings bindings (next_of key)) st
        | _ => return_nil st
        end
  end.
End Term.

(** ** Expressions *)
(** What evaluation uses of the types of functions: the text of a reference, which
    references are functions, and how many arguments those take. *)
Record function_env : Type := MkFunctionEnv {
  refString : list value -> string;
  isFunction : list value -> bool;
  arity : list value -> nat;
}.

Section Expr.
Context (functions : function_env) (builtinFunc : list value -> option Builtin).
Abbreviation eval_type := (eval -> (eval -> EK) -> EK).
Abbreviation biunify_type := (eval -> value -> value -> option nat -> option nat -> EK -> EK).
Context (evalTree : nat -> eval_type -> biunify_type -> eval -> list value -> value -> option nat -> option nat -> EK -> EK).
Context (evalFunc : nat -> eval_type -> biunify_type -> eval -> list value -> EK -> EK).
Context (evalWith : nat -> eval_type -> biunify_type -> eval -> (eval -> EK) -> EK).

(** The calls to the evaluator from within. *)
Section Rec.
Context (fuel : nat) (run : eval_type) (biunify : biunify_type).

Definition biunifyRef (e : eval) (a b : value) (b1 b2 : option nat) (iter : EK) : EK := fun st =>
  match a with
  | Ref (head :: path) =>
      if Equal head (Var "data") then evalTree fuel run biunify e (head :: path) b b1 b2 iter st
      else if Equal head (Var "input") then
        match input (context_of e) with
        | Some term => evalTerm fuel (biunify e) path b1 term b1 b b2 iter st
        | None => return_nil st
        end
      else
        match head with
        | Var x =>
            match b_get (us_heap st) b1 x with
            | Some _ =>
                '(term, termbindings) ← b_apply (us_heap st) b1 head;
                evalTerm fuel (biunify e) path b1 term termbindings b b2 iter st
            | None => return_nil st
            end
        | _ => return_nil st
        end
  | _ => None
  end.

(** The body in a closure, each solution of which updates the cell; then the result
    is unified with the other term. *)
Definition comprehend (e : eval) (body : list expr) (start : value) (add : nat -> eval -> EK) (b : value)
    (b1 b2 : option nat) (iter : EK) : EK := fun st =>
  let '(c, st) := new_cell start st in
  let '(child, st) := closure e body st in
  '(st, err) ← run child (add c) st;
  match err with
  | Some _ => Some (st, err)
  | None => result ← get_cell c st; biunify e result b b1 b2 iter st
  end.

(** The cell holds an array, a set or an object throughout. *)
Definition biunifyComprehensionArray (e : eval) (t : value) (body : list expr) : value -> option nat -> option nat -> EK -> EK :=
  comprehend e body (Array []) (fun c child st =>
    v ← Plug fuel (us_heap st) (bindings_of child) t;
    r ← get_cell c st;
    match r with Array l => Some (put_cell c (Array (l ++ [v])) st, None) | _ => return_nil st end).

Definition biunifyComprehensionSet (e : eval) (t : value) (body : list expr) : value -> option nat -> option nat -> EK -> EK :=
  comprehend e body (SetV []) (fun c child st =>
    v ← Plug fuel (us_heap st) (bindings_of child) t;
    r ← get_cell c st;
    match r with SetV l => Some (put_cell c (SetV (set_insert v l)) st, None) | _ => return_nil st end).

Definition biunifyComprehensionObject (e : eval) (k t : value) (body : list expr) : value -> option nat -> option nat -> EK -> EK :=
  comprehend e body (Object []) (fun c child st =>
    key ← Plug fuel (us_heap st) (bindings_of child) k;
    v ← Plug fuel (us_heap st) (bindings_of child) t;
    r ← get_cell c st;
    match r with
    | Object kvs =>
        match obj_get key kvs with
        | Some old => if Equal old v then Some (put_cell c (Object (obj_insert key v kvs)) st, None)
                        else Some (st, Some ObjectConflict)
        | None => Some (put_cell c (Object (obj_insert key v kvs)) st, None)
        end
    | _ => return_nil st
    end).

Definition biunifyComprehension (e : eval) (a b : value) (b1 b2 : option nat) (swap : bool) (iter : EK) : EK :=
  match a with
  | ArrayComprehension t body => biunifyComprehensionArray e t body b b1 b2 iter
  | SetComprehension t body => biunifyComprehensionSet e t body b b1 b2 iter
  | ObjectComprehension k t body => biunifyComprehensionObject e k t body b b1 b2 iter
  | _ => fun st => Some (st, Some (OtherErr "illegal comprehension type"))
  end.

Definition unify (e : eval) (a b : value) (iter : EK) : EK := biunify e a b (bindings_of e) (bindings_of e) iter.

(** [evalBuiltin.eval]. *)
Definition is_false (v : value) : bool := Equal v (Boolean false).
Fixpoint outputs_rec (k : value -> EK) (l : list value) (fails : option failure) : EK := fun st =>
  match l with
  | [] =>
      match fails with
      | None => Some (st, None)
      | Some (Fails msg) => Some (add_err msg st, None)
      | Some (Halts err) => Some (st, Some err)
      end
  | output :: l =>
      '(st, err) ← k output st;
      match err with None => outputs_rec k l fails st | Some _ => Some (st, err) end
  end.
Definition evalBuiltin (e : eval) (bi : Builtin) (terms : list value) (iter : EK) : EK := fun st =>
  operands ← mapM (Plug fuel (us_heap st) (bindings_of e)) terms;
  let '(outputs, fails) := bi_func bi operands in
  outputs_rec (fun output st =>
    if negb (bi_result bi) then iter st
    else if (length operands =? bi_args bi)%nat then if is_false output then return_nil st else iter st
    else
      (* the last term captures the output *)
      let endIndex := if (bi_args bi <? length operands)%nat then (length operands - 1)%nat else length operands in
      last ← terms !! endIndex; unify e last output iter st) outputs fails st.

(** A call whose function is replaced by a value. *)
Definition evalCallValue (e : eval) (arity : nat) (ts : list value) (mock : value) (iter : EK) : EK := fun st =>
  if (length ts =? arity + 2)%nat then last ← last ts; unify e last mock iter st
  else if (length ts =? arity + 1)%nat then if is_false mock then return_nil st else iter st
  else None.

(** A function that replaces another is called with an empty list of replacements, so
    that [depth] 2 is enough. *)
Fixpoint evalCall_at (depth : nat) (e : eval) (ts : list value) (iter : EK) : EK := fun st =>
  match depth, ts with
  | S depth, Ref ((head :: _) as ref) :: args =>
      mock ← FunctionMocks.Get (refString functions) (functionMocks (common (us_env st))) ref;
      let replaced := match mock with Some (Ref m) => if isFunction functions m then Some m else None | _ => None end in
      match replaced with
      | Some m =>
          '(st, err) ← evalCall_at depth e (Ref m :: args) (fun st =>
            st ← pop_mocks st;
            '(st, err) ← iter st;
            Some (push_mocks st, err)) (push_mocks st);
          st ← pop_mocks st;
          Some (st, err)
      | None =>
          if Equal head (Var "data") then
            match mock with
            | Some mock => evalCallValue e (arity functions ref) ts mock iter st
            | None => evalFunc fuel run biunify e ts iter st
            end
          else
            match builtinFunc ref, mock with
            | None, _ => Some (st, Some UnsupportedBuiltin)
            | Some bi, Some mock => evalCallValue e (bi_args bi) ts mock iter st
            | Some bi, None => evalBuiltin e bi args iter st
            end
      end
  | _, _ => None
  end.
Definition evalCall : eval -> list value -> EK -> EK := evalCall_at 2.

Definition Complement (x : expr) : expr := match x with Expr t w i n => Expr t w i (negb n) end.
Definition NoWith (x : expr) : expr := match x with Expr t _ i n => Expr t [] i n end.

Definition evalNot (e : eval) (x : expr) (iter : eval -> EK) : EK := fun st =>
  let '(c, st) := new_cell (Boolean false) st in
  let '(child, st) := closure e [set_index 0 (NoWith (Complement x))] st in
  '(st, err) ← run child (fun _ st => Some (put_cell c (Boolean true) st, None)) st;
  match err with
  | Some _ => Some (st, err)
  | None =>
      defined ← get_cell c st;
      if Equal defined (Boolean true) then return_nil st else iter e st
  end.

(** [evalEvery.eval] *)
Definition evalEvery (e : eval) (key val domain : value) (body : list expr) (iter : EK) : EK := fun st =>
  let generator := [Expr (TTerms [Ref [Var "eq"]; Ref [domain; key]; val]) [] 0 false] in
  let '(all, st) := new_cell (Boolean true) st in
  let '(child, st) := closure e generator st in
  '(st, err) ← run child (fun child st =>
      ok ← get_cell all st;
      if Equal ok (Boolean false) then return_nil st
      else
        let '(done, st) := new_cell (Boolean false) st in
        let '(inner, st) := closure child body st in
        let inner := MkEval (query inner) (index inner) (queryID inner) (bindings_of inner) true (context_of inner) in
        '(st, err) ← run inner (fun _ st => Some (put_cell done (Boolean true) st, None)) st;
        d ← get_cell done st;
        Some (if Equal d (Boolean true) then st else put_cell all (Boolean false) st, suppressEarlyExit err)) st;
  match err with
  | Some _ => Some (st, err)
  | None => ok ← get_cell all st; if Equal ok (Boolean true) then iter st else return_nil st
  end.

Definition evalStep (e : eval) (x : expr) (iter : eval -> EK) : EK := fun st =>
  match x with
  | Expr _ _ _ true => evalNot e x iter st
  | Expr ts _ _ false =>
      match ts with
      | TTerms ((_ :: operands) as l) =>
          if IsEquality l then
            match operands with a :: b :: _ => unify e a b (iter e) st | _ => None end
          else evalCall e l (iter e) st
      | TTerms [] => None
      | TTerm t =>
          let rterm := term_var (queryID e) (index e) in
          unify e t rterm (fun st =>
            v ← Plug fuel (us_heap st) (bindings_of e) rterm;
            if is_false v then return_nil st else iter e st) st
      | TEvery (Some key) val domain body => evalEvery e key val domain body (iter e) st
      | TEvery None _ _ _ => None
      | TSome _ => Some (st, Some (OtherErr "got *ast.SomeDecl terms"))
      end
  end.

Definition advance (e : eval) : eval := MkEval (query e) (S (index e)) (queryID e) (bindings_of e) (findOne e) (context_of e).

(** A solution of the whole query. *)
Definition finish (e : eval) (iter : eval -> EK) : EK := fun st =>
  '(st, err) ← iter e st;
  Some (st, match err with
            | Some (EarlyExit _) | Some (DeferredEarlyExit _) =>
                Some (if findOne e then EarlyExit err else DeferredEarlyExit err)
            | Some _ => err
            | None => if findOne e then Some (EarlyExit None) else None
            end).

Definition evalExpr (e : eval) (iter : eval -> EK) : EK := fun st =>
  match query e !! index e with
  | None => finish e iter st
  | Some (Expr _ (_ :: _) _ _) => evalWith fuel run biunify e iter st
  | Some x => evalStep e x (fun e => run (advance e) iter) st
  end.
End Rec.

(** The evaluator: [fuel] bounds the depth of the calls and the nesting of terms. *)
Fixpoint eval_at (fuel : nat) (e : eval) (iter : eval -> EK) : EK := fun st =>
  match fuel with O => None | S fuel => evalExpr fuel (eval_at fuel) (biunify_at fuel) e iter st end
with biunify_at (fuel : nat) (e : eval) (a b : value) (b1 b2 : option nat) (iter : EK) : EK := fun st =>
  match fuel with
  | O => None
  | S fuel =>
      Unify.biunify (fun _ _ _ => false) (fun _ _ _ => false) (fun _ _ _ _ _ _ => None)
        (biunifyRef fuel (eval_at fuel) (biunify_at fuel) e)
        (biunifyComprehension fuel (eval_at fuel) (biunify_at fuel) e) fuel a b b1 b2 iter st
  end.

(** ** Queries *)
Section Query.
(** The iteration order of a Go map. *)
Context (order : gmap string bvalue -> list string).

(** [bindings.Iter], without a caller: the variables with their plugged values. *)
Definition b_Iter (fuel : nat) (h : heap) (u : option nat) : option (list (string * value)) :=
  p ← u;
  b ← h !! p;
  mapM (fun kv => v ← Plug fuel h u (Var kv.1); Some (kv.1, v)) (hm_Iter (order (hm_map (b_values b))) (b_values b)).

(** A [QueryResult] is held as an object whose keys are the variables. *)
Definition query_result (fuel : nat) (h : heap) (u : option nat) : option value :=
  kvs ← b_Iter fuel h u; Some (Object (fold_left (fun qr kv => obj_insert kv.1 kv.2 qr) (map (fun kv => (Var kv.1, kv.2)) kvs) [])).

(** [Query.Iter]: a fresh list of bindings, and the first query identifier.  With
    [strictBuiltinErrors] the first error of a built-in function is returned.  The cells
    are the variables of the caller. *)
Definition start_state (vars : list value) : ustate := MkUstate {[ 0%nat := newBindings 0 ]} [] (MkEnv vars 0 [] newShared).
Definition Iter (fuel : nat) (input : option value) (strictBuiltinErrors : bool) (q : list expr) (vars : list value) (iter : value -> EK) :
    option (ustate * option eval_error) :=
  let '(id, st) := Next (start_state vars) in
  '(st, err) ← eval_at fuel (MkEval q 0 id (Some 0%nat) false (MkContext input None (Some 0%nat)))
    (fun e st => qr ← query_result fuel (us_heap st) (bindings_of e); iter qr st) st;
  Some (st, match errs (us_env st) with
            | msg :: _ => if strictBuiltinErrors then Some (OtherErr msg) else err
            | [] => err
            end).

(** [Query.Run] appends the results to [qrs], the first cell, which is read when the call
    of [Iter] has returned.  A list of built-in errors of the caller is left out. *)
Definition Run (fuel : nat) (input : option value) (strictBuiltinErrors : bool) (q : list expr) : option (list value * option eval_error) :=
  '(st, err) ← Iter fuel input strictBuiltinErrors q [Array []] (fun qr st =>
    r ← get_cell 0 st;
    match r with Array qrs => Some (put_cell 0 (Array (qrs ++ [qr])) st, None) | _ => return_nil st end);
  r ← get_cell 0 st;
  match r with Array qrs => Some (qrs, err) | _ => None end.
End Query.
End Expr.
