(* ===== verification/EvalRules.v ===== *)
(** Evaluation of rules, functions and [with] modifiers: [evalTree], [evalVirtual],
    [evalVirtualPartial], [evalVirtualComplete], [evalFunc] and [evalWith] in
    [src/topdown/eval.go], and the merging of documents in [src/topdown/input.go], outside
    partial evaluation.  They are the arguments of the evaluator of Eval.v, which they call
    back.

    A local variable that a closure of the code assigns is a cell; nil is the empty array
    there, and a term the array of that term.  The bindings of a rule are dropped from the
    store when its evaluation ends, as nothing refers to them any more.  The slice [plugged]
    of the code is written in place, at positions that are read only after they have been
    written; here it is the list of the terms written so far. *)
From Stdlib Require Import ZArith Lia String.
From stdpp Require Import base gmap list strings pretty.
From S2P Require Import Prelude Value Containers RefOps Index EvalCache RuleTree Bindings Unify Eval.

(** ** Merging documents *)

(** [MergeWith]: the resolver gives the merged value of a key that both have, or nothing, which
    ends the merge. *)
Section MergeWith.
Context (resolver : value -> value -> option value).
Fixpoint merge_keys (a b acc : list (value * value)) : option (list (value * value)) :=
  match a with
  | [] => Some acc
  | (k, v) :: a =>
      merged ← match obj_get k b with None => Some v | Some v2 => resolver v v2 end;
      merge_keys a b (obj_insert k merged acc)
  end.
Definition other_keys (a b acc : list (value * value)) : list (value * value) :=
  fold_left (fun acc kv => match obj_get kv.1 a with None => obj_insert kv.1 kv.2 acc | Some _ => acc end) b acc.
Definition MergeWith (a b : list (value * value)) : option (list (value * value)) :=
  acc ← merge_keys a b []; Some (other_keys a b acc).
End MergeWith.

(** [Object.Merge]: only objects are merged with each other. *)
Fixpoint Merge (fuel : nat) (a b : value) : option value :=
  match fuel, a, b with
  | S fuel, Object oa, Object ob => option_map Object (MergeWith (Merge fuel) oa ob)
  | _, _, _ => None
  end.

(** [merge] and [mergeObjects]: where the two cannot be merged the first wins, so they
    always succeed. *)
Fixpoint merge (a b : value) {struct a} : value :=
  match a, b with
  | Object oa, Object ob =>
      Object (other_keys oa ob
        ((fix keys (l acc : list (value * value)) :=
            match l with
            | [] => acc
            | (k, v) :: l => keys l (obj_insert k (match obj_get k ob with None => v | Some v2 => merge v v2 end) acc)
            end) oa []))
  | _, _ => a
  end.

(** [makeTree] and the loop of [mergeTermWithValues] along one target. *)
Fixpoint makeTree (k : list value) (v : value) : value :=
  match k with [] => v | k :: ks => Object [(k, makeTree ks v)] end.
Fixpoint replace_at (node : value) (target : list value) (v : value) : value :=
  match target with
  | [] => v
  | k :: rest =>
      match node with
      | Object kvs =>
          let child :=
            match rest, obj_get k kvs with
            | _ :: _, Some (Object _ as child) => replace_at child rest v
            | _, _ => makeTree rest v
            end in
          Object (obj_insert k child kvs)
      | _ => makeTree target v
      end
  end.

Definition valid_root (v : value) : bool := Equal v (Var "data") || Equal v (Var "input").
Definition IsValidImportPath (v : value) : bool :=
  match v with
  | Var _ => valid_root v
  | Ref (head :: path) => valid_root head && forallb (fun k => match k with Str _ => true | _ => false end) path
  | _ => false
  end.

(** [None] is [errBadPath]. *)
Definition merge_pair (exist : option value) (result : option (option value)) (pair : list value * value) :
    option (option (option value)) :=
  if IsValidImportPath (Ref pair.1) then
    match pair.1 with
    | [_] => Some (Some (Some pair.2))
    | target =>
        let current := match result with Some r => r | None => exist end in
        Some (Some (Some (match current with
          | None => makeTree (tail target) pair.2
          | Some node => replace_at node (tail target) pair.2
          end)))
    end
  else None.
(** The inner option is the variable [init]. *)
Definition mergeTermWithValues (exist : option value) (pairs : list (list value * value)) : option (option value) :=
  result ← fold_left (fun r pair => r ← r; merge_pair exist r pair) pairs (Some None);
  Some (match result with Some r => r | None => exist end).

(** ** What evaluation of rules needs *)

(** The compiler's rule tree and indices, the settings of the query, and the documents: what
    [external.Resolve] gives for a reference, and what the store has at a path.  The text of
    a number is an argument. *)
Inductive read_result : Type := Found (v : value) | NotFound | ReadErr (msg : string).
Record policy : Type := MkPolicy {
  ruleTree : TreeNode;
  RuleIndex : list value -> option baseDocEqIndex;
  indexing : bool;
  earlyExit : bool;
  external : list value -> res eval_error (option value);
  Read : list string -> read_result;
  number_text : number -> string;
}.

Definition nil_cell : value := Array [].
Definition term_cell (v : value) : value := Array [v].
Definition cell_term (c : value) : option value := match c with Array [v] => Some v | _ => None end.
Definition maybe_cell (v : option value) : value := match v with Some v => term_cell v | None => nil_cell end.

Definition new_pointer (h : heap) : nat := S (fold_right Nat.max 0%nat (map fst (map_to_list h))).
Definition child (e : eval) (q : list expr) (st : ustate) : eval * ustate :=
  let '(id, st) := Next st in
  let p := new_pointer (us_heap st) in
  (MkEval q 0 id (Some p) false (context_of e), set_heap st (<[p := newBindings id]> (us_heap st))).
Definition release (c : eval) (st : ustate) : ustate :=
  match bindings_of c with Some p => set_heap st (delete p (us_heap st)) | None => st end.
Definition with_findOne (one : bool) (e : eval) : eval :=
  MkEval (query e) (index e) (queryID e) (bindings_of e) one (context_of e).

Definition set_virtual (st : ustate) (vc : VirtualCache.virtualCache) : ustate :=
  let c := common (us_env st) in set_common st (MkShared vc (baseCache c) (targetStack c) (functionMocks c)).
Definition set_base (st : ustate) (bc : BaseCache.baseCache) : ustate :=
  let c := common (us_env st) in set_common st (MkShared (virtualCache c) bc (targetStack c) (functionMocks c)).
Definition set_targets (st : ustate) (s : RefStack.refStack) : ustate :=
  let c := common (us_env st) in set_common st (MkShared (virtualCache c) (baseCache c) s (functionMocks c)).
Definition cached (ref : list value) (st : ustate) : option (option value * bool) :=
  VirtualCache.Get (virtualCache (common (us_env st))) ref.
Definition cache_put (ref : list value) (v : option value) (st : ustate) : option ustate :=
  vc ← VirtualCache.Put (virtualCache (common (us_env st))) ref v; Some (set_virtual st vc).

Section Rules.
Context (pol : policy) (fuel : nat).
Abbreviation eval_type := (eval -> (eval -> EK) -> EK).
Abbreviation biunify_type := (eval -> value -> value -> option nat -> option nat -> EK -> EK).
Context (run : eval_type) (biunify : biunify_type).

(** ** Base documents *)
Definition refContainsNonScalar (ref : list value) : bool := existsb (fun k => negb (IsScalar k)) (tail ref).

(** [storage.NewPathForRef]. *)
Inductive path_result : Type := PathOk (p : list string) | PathNotFound | PathErr (msg : string).
Fixpoint path_of (l : list value) : path_result :=
  match l with
  | [] => PathOk []
  | k :: l =>
      let cons_text s := match path_of l with PathOk p => PathOk (s :: p) | r => r end in
      match k with
      | Str s => cons_text s
      | Number n => cons_text (number_text pol n)
      | Boolean _ | Null => PathNotFound
      | Array _ | Object _ | SetV _ => PathErr "composites cannot be base document keys"
      | _ => PathErr "unresolved reference"
      end
  end.
Definition NewPathForRef (ref : list value) : path_result :=
  match ref with [] => PathErr "empty reference" | _ :: l => path_of l end.

Definition as_resolved (v : option value) : resolved eval_error := match v with Some v => RValue v | None => RUndefined end.

(** A document without the key [system], when it is the whole base document. *)
Definition hide_system (path : list string) (v : value) : value :=
  match path, v with
  | [], Object kvs => Object (List.filter (fun kv => negb (Equal kv.1 SystemDocumentKey)) kvs)
  | _, _ => v
  end.

Definition resolveReadFromStorage (ref : list value) (a : option value) (st : ustate) : resolved eval_error * ustate :=
  let found v :=
    (RValue (match a with None => v | Some a => merge a v end),
     set_base st (BaseCache.Put (baseCache (common (us_env st))) ref v)) in
  if refContainsNonScalar ref then (as_resolved a, st)
  else
    match external pol ref with
    | Err err => (RError err, st)
    | Ok (Some v) => found v
    | Ok None =>
        match NewPathForRef ref with
        | PathErr msg => (RError (OtherErr msg), st)
        | PathNotFound => (as_resolved a, st)
        | PathOk path =>
            match Read pol path with
            | NotFound => (as_resolved a, st)
            | ReadErr msg => (RError (OtherErr msg), st)
            | Found v => found (hide_system path v)
            end
        end
    end.

(** [evalResolver.Resolve]; [args] are the plugged arguments of the call. *)
Definition Resolve (e : eval) (args : list value) (ref : list value) (st : ustate) : resolved eval_error * ustate :=
  match ref with
  | [] => (RUndefined, st)
  | head :: path =>
      if Equal head (Var "args") then
        (match path with
         | Number n :: _ => match num_int64 n with
                            | Some i => if (i <? 0)%Z then RUnknown else match args !! Z.to_nat i with Some v => RValue v | None => RUnknown end
                            | None => RUnknown
                            end
         | _ => RUnknown
         end, st)
      else if Equal head (Var "input") then
        (as_resolved (doc ← input (context_of e); Find doc path), st)
      else if Equal head (Var "data") then
        let rep := doc ← data_doc (context_of e); Find doc path in
        if RefStack.Prefixed (targetStack (common (us_env st))) ref then (as_resolved rep, st)
        else
          match BaseCache.Get (baseCache (common (us_env st))) ref with
          | Some real => (RValue (match rep with None => real | Some a => merge a real end), st)
          | None => resolveReadFromStorage ref rep st
          end
      else (RError (OtherErr "illegal ref"), st)
  end.

(** [getRules]; [None] is the nil result of a path without an index.  What a lookup reads
    is not recorded in the base cache (BaseSpec shows that this makes no difference). *)
Definition getRules (e : eval) (ref args : list value) (st : ustate) : option (res eval_error (option IndexResult)) :=
  args ← mapM (fun a => plugNamespaced fuel (us_heap st) (bindings_of e) a (caller (context_of e))) args;
  Some (match RuleIndex pol ref with
        | None => Ok None
        | Some ix =>
            let? ir := if indexing pol then Lookup (fun ref => (Resolve e args ref st).1) ix else Ok (AllRules ix) in
            Ok (Some (MkIndexResult (ir_rules ir) (ir_else ir) (ir_default ir) (ir_kind ir)
                  (ir_earlyExit ir && earlyExit pol) (ir_onlyGroundRefs ir)))
        end).
Definition ir_Empty (ir : IndexResult) : bool :=
  match ir_rules ir, ir_default ir with [], None => true | _, _ => false end.
Fixpoint else_rules (r : rule) (l : list (rule * list rule)) : list rule :=
  match l with [] => [] | (r', rs) :: l => if (r_id r' =? r_id r)%nat then rs else else_rules r l end.

(** ** Loops over rules

    [prev] and the first deferred early exit are threaded through the loop; an evaluation
    of a rule returns its error and the value of the rule.  The chain of a rule is tried when
    it has none. *)
Section Loop.
Context (eval_rule : rule -> option value -> ustate -> option (ustate * option eval_error * option value)).

(** The error is kept when it is a deferred one, else it ends the loop. *)
Definition keep (deferred err : option eval_error) : option eval_error :=
  match deferred with Some _ => deferred | None => err end.
Fixpoint chain_loop (rs : list rule) (prev : option value) (deferred : option eval_error) (st : ustate) :
    option (ustate * (eval_error + (option value * option eval_error))) :=
  match rs with
  | [] => Some (st, inr (None, deferred))
  | r :: rs =>
      '(st, err, next) ← eval_rule r prev st;
      let go deferred := match next with Some _ => Some (st, inr (next, deferred)) | None => chain_loop rs prev deferred st end in
      match err with
      | None => go deferred
      | Some (DeferredEarlyExit _) => go (keep deferred err)
      | Some err => Some (st, inl err)
      end
  end.
Fixpoint rules_loop (else_of : rule -> list rule) (rs : list rule) (prev : option value) (deferred : option eval_error) (st : ustate) :
    option (ustate * (eval_error + (option value * option eval_error))) :=
  match rs with
  | [] => Some (st, inr (prev, deferred))
  | r :: rs =>
      '(st, out) ← chain_loop (r :: else_of r) prev deferred st;
      match out with
      | inl err => Some (st, inl err)
      | inr (next, deferred) => rules_loop else_of rs (match next with Some _ => next | None => prev end) deferred st
      end
  end.

(** The loop, and then the default rule; [undefined] is run when there is no value. *)
Definition value_of_rules (ir : IndexResult) (undefined : ustate -> option ustate) : EK := fun st =>
  '(st, out) ← rules_loop (fun r => else_rules r (ir_else ir)) (ir_rules ir) None None st;
  '(st, err) ← match out with
               | inl err => Some (st, Some err)
               | inr (prev, deferred) =>
                   match ir_default ir, prev with
                   | Some r, None => '(st, err, _) ← eval_rule r None st; Some (st, err)
                   | _, None => st ← undefined st; Some (st, deferred)
                   | _, Some _ => Some (st, deferred)
                   end
               end;
  Some (st, suppressEarlyExit err).
End Loop.

(** ** Complete rules

    [pre] is the plugged path of the rules and [rest] the rest of the reference. *)
Section Virtual.
Context (e : eval) (pre rest : list value) (bindings : option nat) (rterm : value) (rbindings : option nat) (iter : EK).

Definition evalTerm_from (path : list value) (term : value) (termbindings : option nat) : EK :=
  evalTerm fuel (biunify e) path bindings term termbindings rterm rbindings iter.

(** What a solution of the body does. *)
Definition value_found (r : rule) (result prev : nat) (c : eval) : EK := fun st =>
  head ← r_value r;
  v ← Plug fuel (us_heap st) (bindings_of c) head;
  let st := put_cell result (term_cell v) st in
  p ← get_cell prev st;
  match cell_term p with
  | Some p => if Equal v p then return_nil st else Some (st, Some (OtherErr "complete rules must not produce multiple outputs"))
  | None =>
      let st := put_cell prev (term_cell v) st in
      st ← cache_put pre (Some v) st;
      '(term, termbindings) ← b_apply (us_heap st) (bindings_of c) head;
      evalTerm_from rest term termbindings st
  end.

Definition evalValueRule (findOne : bool) (r : rule) (prev : option value) (st : ustate) :
    option (ustate * option eval_error * option value) :=
  let '(cprev, st) := new_cell (maybe_cell prev) st in
  let '(cresult, st) := new_cell nil_cell st in
  let '(c, st) := child e (r_body r) st in
  '(st, err) ← run (with_findOne findOne c) (value_found r cresult cprev) st;
  result ← get_cell cresult st;
  Some (release c st, err, cell_term result).

Definition evalValue (ir : IndexResult) : EK := fun st =>
  '(hit, undefined) ← cached pre st;
  if undefined : bool then return_nil st
  else
    match hit with
    | Some v => evalTerm_from rest v bindings st
    | None => value_of_rules (evalValueRule (ir_earlyExit ir)) ir (cache_put pre None) st
    end.

(** [evalVirtualComplete.eval]: functions have no extent. *)
Definition has_args (r : rule) : bool := match r_args r with [] => false | _ => true end.
Definition evalVirtualComplete (ir : IndexResult) : EK := fun st =>
  if ir_Empty ir then return_nil st
  else if match ir_rules ir with r :: _ => has_args r | [] => false end || match ir_default ir with Some r => has_args r | None => false end
  then return_nil st
  else evalValue ir st.

(** ** Partial rules: [reduce] *)

(** Outcome of an update of the result: an error, or the new value and whether the entry was
    there before. *)
Abbreviation reduced := (res eval_error (list (value * value) * bool)).
Definition conflict : eval_error := OtherErr "object keys must be unique".

(** [getNestedObject], and what is done in the object that it returns. *)
Fixpoint nested (h : heap) (b : option nat) (path : list value) (leaf : list (value * value) -> reduced)
    (kvs : list (value * value)) : option reduced :=
  match path with
  | [] => Some (leaf kvs)
  | t :: path =>
      key ← Plug fuel h b t;
      match obj_get key kvs with
      | Some (Object obj) => r ← nested h b path leaf obj; Some (let? x := r in Ok (obj_insert key (Object x.1) kvs, x.2))
      | Some _ => Some (Err conflict)
      | None => r ← nested h b path leaf []; Some (let? x := r in Ok (obj_insert key (Object x.1) kvs, x.2))
      end
  end.

(** [hasCollisions]; [None] when the path collides, else the visited references with it. *)
Definition hasCollisions (path : list value) (visited : list (list value)) : option (list (list value)) :=
  if existsb (fun c => Ref_HasPrefix path c && negb (Equal (Ref path) (Ref c))) visited then None else Some (visited ++ [path]).

Definition single_leaf (key v : value) (kvs : list (value * value)) : reduced :=
  match obj_get key kvs with
  | Some curr => if Equal curr v then Ok (kvs, true) else Err conflict
  | None => Ok (obj_insert key v kvs, false)
  end.
Definition multi_leaf (key elem : value) (kvs : list (value * value)) : reduced :=
  match obj_get key kvs with
  | Some (SetV l) => Ok (obj_insert key (SetV (set_insert elem l)) kvs, set_mem elem l)
  | Some _ => Err conflict
  | None => Ok (obj_insert key (SetV [elem]) kvs, false)
  end.

(** The result, whether the entry was there, and the visited references. *)
Definition reduce (r : rule) (h : heap) (b : option nat) (result : value) (visited : list (list value)) :
    option (res eval_error (value * bool * list (list value))) :=
  match result with
  | SetV l => key ← (k ← r_key r; Plug fuel h b k); Some (Ok (SetV (set_insert key l), set_mem key l, visited))
  | Object kvs =>
      let path := drop (length pre) (r_ref r) in
      plugged ← mapM (Plug fuel h b) path;
      match hasCollisions plugged visited with
      | None => Some (Err conflict)
      | Some visited =>
          leafKey ← last plugged;
          leaf ← match rule_kind r with
                 | Some SingleValue => v ← (v ← r_value r; Plug fuel h b v); Some (single_leaf leafKey v)
                 | Some MultiValue => k ← (k ← r_key r; Plug fuel h b k); Some (multi_leaf leafKey k)
                 | None => None
                 end;
          out ← nested h b (removelast path) leaf kvs;
          Some (let? x := out in Ok (Object x.1, x.2, visited))
      end
  | _ => Some (Ok (result, false, visited))
  end.

(** The cells of the result and of the visited references, which are held as an array. *)
Definition refs_cell (l : list (list value)) : value := Array (map Ref l).
Definition cell_refs (c : value) : list (list value) := match c with Array l => omap (fun r => match r with Ref r => Some r | _ => None end) l | _ => [] end.
Definition reduce_cell (r : rule) (cresult cvisited : nat) (c : eval) : EK := fun st =>
  result ← get_cell cresult st;
  visited ← get_cell cvisited st;
  out ← reduce r (us_heap st) (bindings_of c) result (cell_refs visited);
  match out with
  | Err err => Some (st, Some err)
  | Ok (result, _, visited) => Some (put_cell cvisited (refs_cell visited) (put_cell cresult result st), None)
  end.

(** Rules one after the other, until one fails. *)
Fixpoint each_rule (f : rule -> EK) (rs : list rule) : EK := fun st =>
  match rs with
  | [] => return_nil st
  | r :: rs => '(st, err) ← f r st; match err with None => each_rule f rs st | Some _ => Some (st, err) end
  end.
Definition collect (f : nat -> nat -> rule -> EK) (empty : value) (rs : list rule) (k : value -> EK) : EK := fun st =>
  let '(cresult, st) := new_cell empty st in
  let '(cvisited, st) := new_cell (refs_cell []) st in
  '(st, err) ← each_rule (f cresult cvisited) rs st;
  match err with
  | Some _ => Some (st, err)
  | None => result ← get_cell cresult st; k result st
  end.

Definition rule_extent (cresult cvisited : nat) (r : rule) : EK := fun st =>
  let '(c, st) := child e (r_body r) st in
  '(st, err) ← run c (reduce_cell r cresult cvisited) st;
  Some (release c st, err).
Definition evalAllRulesNoCache : value -> list rule -> (value -> EK) -> EK := collect rule_extent.

Definition evalAllRules (empty : value) (rules : list rule) : EK := fun st =>
  '(hit, _) ← cached pre st;
  match hit with
  | Some v => biunify e v rterm bindings rbindings iter st
  | None =>
      evalAllRulesNoCache empty rules (fun v st =>
        st ← cache_put pre (Some v) st;
        biunify e v rterm bindings rbindings iter st) st
  end.

(** *** With more of the reference given *)
Definition headKey (r : rule) : option value := match r_key r with Some k => Some k | None => last (r_ref r) end.

(** [biunifyDynamicRef] on the rests of the two references; the continuation gets what is left
    of the first. *)
Fixpoint biunifyDynamicRef (c : eval) (a b : list value) (b1 b2 : option nat) (k : list value -> EK) : EK :=
  match a, b with
  | x :: a, y :: b => biunify c x y b1 b2 (biunifyDynamicRef c a b b1 b2 k)
  | _, _ => k a
  end.
Definition biunifyRuleHead (c : eval) (r : rule) (k : EK) : EK :=
  biunifyDynamicRef c rest (drop (length pre) (r_ref r)) bindings (bindings_of c) (fun left st =>
    match rule_kind r, left with
    | Some MultiValue, x :: _ => key ← headKey r; biunify c x key bindings (bindings_of c) k st
    | Some _, _ => k st
    | None, _ => None
    end).
Definition evalOneRulePreUnify (cresult cvisited : nat) (r : rule) : EK := fun st =>
  let '(c, st) := child e (r_body r) st in
  '(st, err) ← biunifyRuleHead c r (run c (reduce_cell r cresult cvisited)) st;
  Some (release c st, err).

(** The number of terms of the reference that the longest rule reference has. *)
Definition ref_length (r : rule) : option nat :=
  kind ← rule_kind r; Some (length (r_ref r) + match kind with MultiValue => 1 | SingleValue => 0 end)%nat.
Definition maxRefLength (rules : list rule) (ceil : nat) : option nat :=
  (fix go rs l := match rs with
   | [] => Some l
   | r :: rs => rl ← ref_length r; if (ceil <=? rl)%nat then Some ceil else go rs (if (l <? rl)%nat then rl else l)
   end) rules 0%nat.

(** [evalCache] along the terms that are known: a hit with the path that is left, or the longest
    known path. *)
Inductive hint : Type :=
| Hit (v : value) (path : list value)
| Full
| Miss (key : option (list value)).
Fixpoint known_prefix (key : list value) (n : nat) (path : list value) (found : option (list value)) (st : ustate) : option hint :=
  match n, path with
  | S n, t :: path =>
      plugged ← Plug fuel (us_heap st) bindings t;
      if IsGround plugged then
        let key := key ++ [plugged] in
        '(hit, _) ← cached key st;
        match hit with Some v => Some (Hit v path) | None => known_prefix key n path (Some key) st end
      else Some (Miss found)
  | _, _ => Some (Miss found)
  end.
Definition evalCache (ir : IndexResult) (st : ustate) : option hint :=
  '(hit, _) ← cached pre st;
  match hit with
  | Some v => Some (Hit v rest)
  | None =>
      first ← head rest;
      plugged ← Plug fuel (us_heap st) bindings first;
      match plugged with
      | Var _ => Some Full
      | _ =>
          m ← maxRefLength (ir_rules ir) (length pre + length rest);
          known_prefix pre (m - length pre) rest None st
      end
  end.

Definition evalEachRule (empty : value) (ir : IndexResult) : EK := fun st =>
  if ir_Empty ir then return_nil st
  else
    _ ← maxRefLength (ir_rules ir) (length pre + length rest);
    hint ← evalCache ir st;
    match hint with
    | Hit v path => evalTerm_from path v bindings st
    | Full =>
        evalAllRulesNoCache empty (ir_rules ir) (fun result st =>
          st ← cache_put pre (Some result) st;
          evalTerm_from rest result bindings st) st
    | Miss key =>
        collect evalOneRulePreUnify empty (ir_rules ir) (fun result st =>
          st ← match key with
               | Some key => match Find result (drop (length pre) key) with Some v => cache_put key (Some v) st | None => Some st end
               | None => Some st
               end;
          evalTerm_from rest result bindings st) st
    end.

Definition evalVirtualPartial (empty : value) (ir : IndexResult) : EK := fun st =>
  match rest with [] => evalAllRules empty (ir_rules ir) st | _ => evalEachRule empty ir st end.

(** [evalVirtual.eval]. *)
Definition evalVirtual : EK := fun st =>
  rules ← getRules e pre [] st;
  match rules with
  | Err err => Some (st, Some err)
  | Ok None => None
  | Ok (Some ir) =>
      match ir_kind ir, ir_onlyGroundRefs ir with
      | MultiValue, true => evalVirtualPartial (SetV []) ir st
      | SingleValue, true => evalVirtualComplete ir st
      | _, false => evalVirtualPartial (Object []) ir st
      end
  end.
End Virtual.

(** ** The tree of documents *)

(** [leaves]: the values of the rules below a node, each found by evaluating a reference to
    it. *)
Definition leaf (e : eval) (path : list value) (st : ustate) : option (ustate * (eval_error + option value)) :=
  let rterm := generateVar "leaf" in
  let '(c, st) := new_cell nil_cell st in
  '(st, err) ← unify biunify e (Ref path) rterm (fun st =>
    v ← Plug fuel (us_heap st) (bindings_of e) rterm; Some (put_cell c (term_cell v) st, None)) st;
  match err with
  | Some err => Some (st, inl err)
  | None => save ← get_cell c st; Some (st, inr (cell_term save))
  end.
Fixpoint leaves (e : eval) (plugged : list value) (n : TreeNode) (st : ustate) : option (ustate * (eval_error + value)) :=
  let 'Tree _ children _ := n in
  (fix go (l : list (value * TreeNode)) (result : value) (st : ustate) : option (ustate * (eval_error + value)) :=
     match l with
     | [] => Some (st, inr result)
     | (k, c) :: l =>
         if Hide c then go l result st
         else
           let path := plugged ++ [k] in
           '(st, out) ← match Values c with
                        | _ :: _ => leaf e path st
                        | [] => '(st, out) ← leaves e path c st; Some (st, match out with inl err => inl err | inr v => inr (Some v) end)
                        end;
           match out with
           | inl err => Some (st, inl err)
           | inr None => go l result st
           | inr (Some v) => result ← Merge 1 result (Object [(k, v)]); go l result st
           end
     end) children (Object []) st.

(** [extent]: the base document and the rules. *)
Definition extent (e : eval) (plugged : list value) (node : option TreeNode) (st : ustate) :
    option (ustate * (eval_error + option value)) :=
  let '(base, st) := Resolve e [] plugged st in
  let merged (base : option value) :=
    match node with
    | None => Some (st, inr base)
    | Some n =>
        '(st, out) ← leaves e plugged n st;
        Some (st, match out with
                  | inl err => inl err
                  | inr virtual => inr (Some (match base with None => virtual | Some b => merge b virtual end))
                  end)
    end in
  match base with
  | RError err => Some (st, inl err)
  | RUnknown => Some (st, inl (OtherErr "unknown value"))
  | RUndefined => merged None
  | RValue b => merged (Some b)
  end.

Section Tree.
Context (e : eval) (bindings : option nat) (rterm : value) (rbindings : option nat) (iter : EK).

Definition evalTree_finish (plugged : list value) (node : option TreeNode) : EK := fun st =>
  '(st, out) ← extent e plugged node st;
  match out with
  | inl err => Some (st, Some err)
  | inr None => return_nil st
  | inr (Some v) => biunify e rterm v rbindings bindings iter st
  end.

(** The keys of the base document, and then those of the rules, a deferred early exit being
    kept in the first loop only. *)
Definition doc_keys (doc : resolved eval_error) : list value :=
  match doc with
  | RValue (Array l) => map (fun i => Number (NInt (Z.of_nat i))) (seq 0 (length l))
  | RValue (Object kvs) => map fst kvs
  | RValue (SetV l) => l
  | _ => []
  end.
Fixpoint until_error {A} (l : list A) (f : A -> EK) : EK := fun st =>
  match l with
  | [] => return_nil st
  | x :: l => '(st, err) ← f x st; match err with None => until_error l f st | Some _ => Some (st, err) end
  end.
Definition evalTree_enumerate (plugged : list value) (node : option TreeNode) (k : value) (next : value -> EK) : EK := fun st =>
  let '(doc, st) := Resolve e [] plugged st in
  match doc with
  | RError err => Some (st, Some err)
  | RUnknown => Some (st, Some (OtherErr "unknown value"))
  | _ =>
      let try key := biunify e key k bindings bindings (next key) in
      '(st, err) ← each None (doc_keys doc) try st;
      match err, node with
      | Some _, _ => Some (st, err)
      | None, None => return_nil st
      | None, Some n => until_error (map fst (Children n)) try st
      end
  end.

(** [evalTree.eval] and [next]. *)
Fixpoint evalTree_from (plugged : list value) (node : option TreeNode) (rest : list value) {struct rest} : EK := fun st =>
  match rest with
  | [] => evalTree_finish plugged node st
  | k :: rest =>
      let next (key : value) : EK := fun st =>
        let pre := plugged ++ [key] in
        if RefStack.Prefixed (targetStack (common (us_env st))) pre then evalTree_from pre None rest st
        else
          match node ≫= fun n => Child n key with
          | Some c =>
              match Values c with
              | _ :: _ => evalVirtual e pre rest bindings rterm rbindings iter st
              | [] => evalTree_from pre (Some c) rest st
              end
          | None => evalTree_from pre None rest st
          end in
      key ← Plug fuel (us_heap st) bindings k;
      if IsGround key then next key st else evalTree_enumerate plugged node k next st
  end.
End Tree.

Definition evalTree (e : eval) (ref : list value) (rterm : value) (bindings rbindings : option nat) (iter : EK) : EK :=
  match ref with
  | [] => fun _ => None
  | head :: rest => evalTree_from e bindings rterm rbindings iter [head] (Child (ruleTree pol) head) rest
  end.

(** ** Functions *)
Section Func.
Context (e : eval) (ts : list value) (iter : EK).

(** The arguments and, when the call captures it, the value of the rule; [None] is the panic on
    the nil terms of a call with too many arguments. *)
Definition head_args (r : rule) : option (list value) :=
  let n := (length ts - 1)%nat in
  if (n =? length (r_args r) + 1)%nat then v ← r_value r; Some (r_args r ++ [v])
  else if (n <=? length (r_args r))%nat then Some (take n (r_args r))
  else None.

Definition result_found (r : rule) (key : list value) (result prev : nat) (c : eval) : EK := fun st =>
  head ← r_value r;
  v ← Plug fuel (us_heap st) (bindings_of c) head;
  let st := put_cell result (term_cell v) st in
  st ← cache_put key (Some v) st;
  p ← get_cell prev st;
  let differs := match cell_term p with Some p => negb (Equal p v) | None => false end in
  let conflict := OtherErr "functions must not produce multiple outputs for same inputs" in
  if (length (r_args r) =? length ts - 1)%nat && is_false v then
    if differs then Some (st, Some conflict) else Some (put_cell prev (term_cell v) st, None)
  else
    match cell_term p with
    | Some _ => if differs then Some (st, Some conflict) else return_nil st
    | None => iter (put_cell prev (term_cell v) st)
    end.

Definition evalOneRule (findOne : bool) (key : list value) (r : rule) (prev : option value) (st : ustate) :
    option (ustate * option eval_error * option value) :=
  let '(cprev, st) := new_cell (maybe_cell prev) st in
  let '(cresult, st) := new_cell nil_cell st in
  let '(c, st) := child e (r_body r) st in
  let c := with_findOne findOne c in
  args ← head_args r;
  '(st, err) ← biunifyArrays (fun a b k => biunify c a b (bindings_of e) (bindings_of c) k) (tail ts) args
    (run c (result_found r key cresult cprev)) st;
  result ← get_cell cresult st;
  Some (release c st, err, cell_term result).

(** [evalCache] and [evalValue]. *)
Definition evalFunc_value (ir : IndexResult) (argCount : nat) : EK := fun st =>
  let captured := (length ts =? argCount + 2)%nat in
  key ← mapM (Plug fuel (us_heap st) (bindings_of e)) (if captured then removelast ts else ts);
  '(hit, _) ← cached key st;
  match hit with
  | Some v =>
      if (argCount =? length ts - 1)%nat then if is_false v then return_nil st else iter st
      else last ← last ts; unify biunify e last v iter st
  | None => value_of_rules (evalOneRule (ir_earlyExit ir) key) ir Some st
  end.

Definition evalFunc : EK := fun st =>
  match ts with
  | Ref ref :: args =>
      rules ← getRules e ref args st;
      match rules with
      | Err err => Some (st, Some err)
      | Ok None => None
      | Ok (Some ir) =>
          if ir_Empty ir then return_nil st
          else evalFunc_value ir (match ir_rules ir, ir_default ir with
                                  | r :: _, _ => length (r_args r)
                                  | [], Some r => length (r_args r)
                                  | [], None => 0
                                  end) st
      end
  | _ => None
  end.
End Func.
End Rules.

(** ** [with] modifiers *)
Section With.
Context (functions : function_env) (builtinFunc : list value -> option Builtin) (pol : policy).
Context (fuel : nat) (run : eval -> (eval -> EK) -> EK) (biunify : eval -> value -> value -> option nat -> option nat -> EK -> EK).

(** The targets by what they replace; a target that is neither a document nor a function is
    only a target. *)
Record replacements : Type := MkReplacements {
  pairsInput : list (list value * value);
  pairsData : list (list value * value);
  mocks : list (list value * value);
  targets : list (list value);
}.
Definition add_with (rs : replacements) (target : list value) (v : value) : replacements :=
  let '(MkReplacements i d m t) := rs in
  if isFunction functions target then MkReplacements i d (m ++ [(target, v)]) (t ++ [target])
  else if Ref_HasPrefix target [Var "input"] then MkReplacements (i ++ [(target, v)]) d m (t ++ [target])
  else if Ref_HasPrefix target [Var "data"] then MkReplacements i (d ++ [(target, v)]) m (t ++ [target])
  else
    match builtinFunc target with
    | Some _ => MkReplacements i d (m ++ [(target, v)]) t
    | None => MkReplacements i d m (t ++ [target])
    end.
Fixpoint replacements_of (e : eval) (withs : list (value * value)) (rs : replacements) (st : ustate) : option replacements :=
  match withs with
  | [] => Some rs
  | (Ref target, v) :: withs =>
      v ← Plug fuel (us_heap st) (bindings_of e) v;
      replacements_of e withs (add_with rs target v) st
  | _ :: _ => None
  end.

Definition evalWithPush (rs : replacements) (st : ustate) : option ustate :=
  let c := common (us_env st) in
  m ← FunctionMocks.PutPairs (refString functions) (functionMocks c) (mocks rs);
  Some (set_common st (MkShared (VirtualCache.Push (virtualCache c)) (baseCache c) (RefStack.Push (targetStack c) (targets rs)) m)).
Definition evalWithPop (st : ustate) : option ustate :=
  let c := common (us_env st) in
  t ← RefStack.Pop (targetStack c);
  vc ← VirtualCache.Pop (virtualCache c);
  m ← FunctionMocks.PopPairs (functionMocks c);
  Some (set_common st (MkShared vc (baseCache c) t m)).

(** The evaluator with the replaced documents; a nil document replaces nothing. *)
Definition with_docs (e : eval) (inp dat : option value) : eval :=
  let cx := context_of e in
  MkEval (query e) (index e) (queryID e) (bindings_of e) (findOne e)
    (MkContext (match inp with Some _ => inp | None => input cx end) (match dat with Some _ => dat | None => data_doc cx end) (caller cx)).

Definition evalWith (e : eval) (iter : eval -> EK) : EK := fun st =>
  x ← query e !! index e;
  let 'Expr _ withs _ _ := x in
  rs ← replacements_of e withs (MkReplacements [] [] [] []) st;
  match mergeTermWithValues (input (context_of e)) (pairsInput rs), mergeTermWithValues (data_doc (context_of e)) (pairsData rs) with
  | Some inp, Some dat =>
      st ← evalWithPush rs st;
      '(st, err) ← evalStep functions builtinFunc (evalFunc pol) fuel run biunify (with_docs e inp dat) x (fun _ st =>
        st ← evalWithPop st;
        '(st, err) ← run (advance e) iter st;
        st ← evalWithPush rs st;
        Some (st, err)) st;
      st ← evalWithPop st;
      Some (st, err)
  | _, _ => Some (st, Some (OtherErr "bad document path"))
  end.
End With.
