(* ===== verification/EvalPolicy.v ===== *)
(** Policies: the rule tree and the indices that the compiler makes of modules, a store, and
    runs of queries over both. *)
From Stdlib Require Import ZArith Lia String.
From stdpp Require Import base gmap list strings pretty.
From S2P Require Import Prelude Value Containers RefOps Index EvalCache RuleTree Bindings Unify Eval EvalRules.

Section Compile.
(** The order of the references of an index, and the chain of [else] rules of a rule. *)
Context (sorted : list value -> list (list value)) (else_of : rule -> list rule).

(** The rules of the index of a path, each with its chain. *)
Definition chains_at (tree : TreeNode) (path : list value) : option (list (list rule)) :=
  x ← List.find (fun x => ref_eq x.1 path) (indexed_rules tree); Some (map (fun r => r :: else_of r) x.2).
Definition virtual_prefix (tree : TreeNode) (ref : list value) : bool := isVirtual tree (Ref_GroundPrefix ref).
(** The index of a path, if there is one: [buildRuleIndices] keeps those that [Build] accepts. *)
Definition find_index (tree : TreeNode) (path : list value) : option baseDocEqIndex :=
  chains ← chains_at tree path; Build (virtual_prefix tree) (sorted path) chains.

(** A store with one base document, and no external documents. *)
Definition compile (mods : list module) (base : value) (indexing earlyExit : bool) (number_text : number -> string) : policy :=
  let tree := NewRuleTree mods in
  MkPolicy tree (find_index tree) indexing earlyExit (fun _ => Ok None)
    (fun p => match Find base (map Str p) with Some v => Found v | None => NotFound end) number_text.
End Compile.

(** ** Runs *)
Module Runs.
Definition functions : function_env := MkFunctionEnv (fun _ => "f"%string) (fun _ => false) (fun _ => 0%nat).
Definition order (m : gmap string bvalue) : list string := (map_to_list m).*1.
Definition run (pol : policy) (q : list expr) : option (list value * option eval_error) :=
  Run functions (fun _ => None) (evalTree pol) (evalFunc pol) (evalWith functions (fun _ => None) pol) order 200 None false q.
Definition policy_of (mods : list module) (base : value) : policy := compile (fun _ => []) (fun _ => []) mods base true true (fun _ => "0"%string).

Definition num (z : Z) : value := Number (NInt z).
Definition eq (a b : value) : expr := Expr (TTerms [Ref [Var "eq"]; a; b]) [] 0 false.
Definition doc (l : list value) : value := Ref (Var "data" :: l).
Definition test : list value := [Var "data"; Str "test"].

(** The rules [p[k][x].a := 1] and [p[k][x].b := 2] with the body [k = "foo"; x = "r"]. *)
Definition partial_rule (id : nat) (key : string) (v : value) : rule :=
  MkRule id false [] [eq (Var "k") (Str "foo"); eq (Var "x") (Str "r")] (test ++ [Str "p"; Var "k"; Var "x"; Str key]) None (Some v).
Definition partial : policy := policy_of [(test, [partial_rule 0 "a" (num 1); partial_rule 1 "b" (num 2)])] (Object []).
Definition find_a : expr := eq (Var "v") (doc [Str "test"; Str "p"; Str "foo"; Var "x"; Str "a"]).
Definition find_b : expr := eq (Var "w") (doc [Str "test"; Str "p"; Str "foo"; Var "y"; Str "b"]).

(** The rule [data.a.x.q := 1] next to the base document [{"a": {"x": {"z": 5}}}]. *)
Definition both_keys : policy := policy_of [([Var "data"; Str "a"; Str "x"], [MkRule 0 false [] [] [Var "data"; Str "a"; Str "x"; Str "q"] None (Some (num 1))])]
  (Object [(Str "a", Object [(Str "x", Object [(Str "z", num 5)])])]).
Definition all_keys : expr := eq (Var "l") (ArrayComprehension (Var "k") [Expr (TTerm (doc [Str "a"; Var "k"])) [] 0 false]).

(** The rules of a document are evaluated with the terms of the reference that are known, and
    what they give is cached as the document of a shorter reference: the second of two
    references then misses what the first did not ask for.  And a key that the base document
    and the rules share is enumerated twice. *)
Lemma rules_divergence :
  run partial [find_a] = Some ([Object [(Var "v", num 1); (Var "x", Str "r")]], None) /\
  run partial [find_b] = Some ([Object [(Var "w", num 2); (Var "y", Str "r")]], None) /\
  run partial [find_a; find_b] = Some ([], None) /\
  run both_keys [all_keys] = Some ([Object [(Var "l", Array [Str "x"; Str "x"])]], None).
Proof. vm_compute. done. Qed.
End Runs.
