(* ===== verification/EvalRefs.v ===== *)
(** References to documents (definitions in Eval.v): the continuation is called once
    for every way to walk along the reference. *)
From Stdlib Require Import ZArith Lia String.
From stdpp Require Import base gmap list strings pretty.
From S2P Require Import Prelude SortedKeys Value Containers SetTable ObjectTable RefOps Builtins Document JsonPaths VarVisitor Bindings.
From S2P Require Import Unify UnifySound UnifyTotal EvalGround Eval.

(** ** Lookup in documents *)
Definition lookup (doc key v : value) : Prop :=
  match doc with
  | Array l => exists i, Equal key (Number (NInt (Z.of_nat i))) = true /\ l !! i = Some v
  | Object kvs => obj_get key kvs = Some v
  | SetV l => set_mem key l = true /\ v = key
  | _ => False
  end.
Fixpoint lookups (doc : value) (keys : list value) (v : value) : Prop :=
  match keys with [] => v = doc | k :: keys => exists w, lookup doc k w /\ lookups w keys v end.

Lemma obj_get_Forall2 (R : value -> value -> Prop) key kvs kvs' : map fst kvs = map fst kvs' -> Forall2 R (map snd kvs) (map snd kvs') ->
  match obj_get key kvs, obj_get key kvs' with Some t, Some w => R t w | None, None => True | _, _ => False end.
Proof.
  revert kvs'. induction kvs as [|[k t] kvs IH]; intros [|[k' w] kvs'] E F; try done. simpl in E, F. injection E as <- E.
  inversion F as [|? ? ? ? Htw F']; subst. unfold obj_get. simpl. unfold same_key. simpl. destruct (Compare key k); [done|by apply IH..].
Qed.

Lemma b_apply_data h u v : data v -> b_apply h u v = Some (v, u).
Proof. intros D. unfold b_apply. simpl. destruct D as [v S _| | |]; [by destruct v|done..]. Qed.

Lemma array_index_tidy key n i : data key -> in_int64 (Z.of_nat n) = true -> array_index key n = Some i <->
  Equal key (Number (NInt (Z.of_nat i))) = true /\ (i < n)%nat.
Proof.
  intros D L. assert (In : forall j, (j < n)%nat -> in_int64 (Z.of_nat j) = true).
  { intros j Hj. unfold in_int64, two63 in *. apply andb_true_iff in L as [_ L2%Z.ltb_lt]. apply andb_true_iff. rewrite Z.leb_le, Z.ltb_lt. lia. }
  split.
  - intros H. destruct key as [| |x| | | | | | | | | |]; try done. simpl in H. destruct (num_int64 x) as [z|] eqn:Z; [|done].
    destruct ((z <? 0)%Z || (Z.of_nat n <=? z)%Z) eqn:R; [done|]. injection H as <-. apply orb_false_iff in R as [R1%Z.ltb_ge R2%Z.leb_gt].
    destruct x as [y|]; [|done]. simpl in Z. destruct (in_int64 y); [|done]. injection Z as ->. rewrite Z2Nat.id by lia.
    split; [apply Equal_refl|lia].
  - intros [Q Hi]. pose proof (Equal_sortOrder _ _ Q) as O. destruct key as [| |x| | | | | | | | | |]; try done.
    assert (x = NInt (Z.of_nat i)) as ->.
    { inversion D as [? _ T| | |]; subst. apply T; [by apply In|done]. }
    simpl. rewrite (In i Hi). replace ((Z.of_nat i <? 0)%Z || (Z.of_nat n <=? Z.of_nat i)%Z) with false; [by rewrite Nat2Z.id|].
    symmetry. apply orb_false_iff. rewrite Z.ltb_ge, Z.leb_gt. lia.
Qed.

Lemma until_find (key : value) (kvs : list (value * value)) :
  until (fun kv => Some (Equal kv.1 key)) kvs = Some (sfind Compare fst key kvs).
Proof.
  induction kvs as [|kv kvs IH]; [done|]. simpl. rewrite Equal_sym. unfold Equal, same_key. destruct (Compare key kv.1); simpl; [done|by apply IH..].
Qed.

(** A component of a term: its term, the list it belongs to, and its value. *)
Definition component (V : vstore) (r : option (value * option nat)) (doc key : value) : Prop :=
  match r with
  | Some (t, b) => (exists w, gv V b t w /\ lookup doc key w) /\ (forall x, t <> Var x) /\ valid V b
  | None => forall w, ~ lookup doc key w
  end.

Section Get.
Context `{SI : SharedInv} (N fuel : nat) (Hf : (0 < fuel)%nat) (st : ustate) (I : inv N st).
Abbreviation V := (sview st).

Lemma found_ok tb t w : valid V tb -> gv V tb t w -> exists t' b', b_apply (us_heap st) tb t = Some (t', b') /\
  gv V b' t' w /\ (forall x, t' <> Var x) /\ valid V b'.
Proof.
  intros Vd G. destruct (apply_ground N st tb t I) as (t' & b' & E & [(-> & -> & Nv)|(v & G1 & G2 & _ & Nv & Vb)]); eexists _, _; (split; [exact E|]).
  - split_ands; [done| |done]. intros x ->. by eapply gv_unbound; [apply Nv|].
  - rewrite <- (gv_fun _ _ _ _ G1 w G). split_ands; [done|done|auto].
Qed.

Lemma get_ok term tb doc key : valid V tb -> gv V tb term doc -> (forall x, term <> Var x) -> data key ->
  exists r, evalTerm_get fuel (us_heap st) term tb key = Some r /\ component V r doc key.
Proof.
  intros Vd G Nv Dk. assert (HF : forall t w, gv V tb t w -> lookup doc key w ->
    exists r, option_map Some (b_apply (us_heap st) tb t) = Some r /\ component V r doc key).
  { intros t w Gt Hl. destruct (found_ok tb t w Vd Gt) as (t' & b' & -> & G' & Nv' & Vb'). exists (Some (t', b')). simpl. split_ands; [done|by exists w|done|done]. }
  destruct G as [u x bv v G D|u t S T|u l l' L F|u kvs kvs' S Dkv Ek F|u l D]; unfold evalTerm_get.
  - by destruct (Nv x).
  - exists None. destruct t; try done; (split; [done|]); by intros w [].
  - simpl. destruct (array_index key (length l)) as [i|] eqn:Ai.
    + pose proof Ai as [Q Hi]%(array_index_tidy key (length l) i Dk L). destruct (lookup_lt_is_Some_2 l i Hi) as [t Ht]. rewrite Ht.
      destruct (Forall2_lookup_l _ _ _ _ _ F Ht) as (w & Hw & Gw). apply (HF t w Gw). by exists i.
    + exists None. split; [done|]. intros w (i & Q & Hi). apply lookup_lt_Some in Hi. rewrite <- (Forall2_length _ _ _ F) in Hi.
      rewrite (proj2 (array_index_tidy key (length l) i Dk L)) in Ai; done.
  - pose proof (obj_get_Forall2 (gv V u) key kvs kvs' Ek F) as O.
    assert (HO : exists r, match obj_get key kvs with Some v => option_map Some (b_apply (us_heap st) u v) | None => Some None end = Some r /\
      component V r (Object kvs') key).
    { destruct (obj_get key kvs) as [t|], (obj_get key kvs') as [w|] eqn:E; try done; [by apply (HF t w)|].
      exists None. split; [done|]. intros w Hw. simpl in Hw. congruence. }
    destruct (IsGround (Object kvs)); [exact HO|].
    assert (Eu : until (fun kv => option_map (fun k => Equal k key) (Plug fuel (us_heap st) u kv.1)) kvs = Some (sfind Compare fst key kvs)).
    { rewrite <- until_find. clear -Dkv Hf. induction Dkv as [|kv kvs D _ IH]; [done|]. cbn [until]. rewrite (Plug_data kv.1) by done. simpl. by rewrite IH. }
    rewrite Eu. cbn [mbind option_bind]. unfold obj_get in HO. by destruct (sfind Compare fst key kvs).
  - rewrite (data_ground _ D). destruct (set_mem key l) eqn:M.
    + apply (HF key key); [by apply data_gv|done].
    + exists None. split; [done|]. intros w [M' _]. congruence.
Qed.
End Get.

(** ** Several calls of the continuation *)

(** A deferred early exit lets the loops around it go on; any other error ends them. *)
Definition soft (e : eval_error) : bool := match e with DeferredEarlyExit _ => true | _ => false end.

(** The error of a loop in which a call returned the deferred early exit [e] and the rest
    returned [r]: the first deferred early exit is kept. *)
Definition after_soft (e : eval_error) (r : option eval_error) : option eval_error :=
  match r with Some e' => if soft e' then Some e else r | None => Some e end.
Lemma after_soft_assoc e e' r : soft e' = true -> after_soft e (after_soft e' r) = after_soft e r.
Proof. intros He. destruct r as [e2|]; simpl; [destruct (soft e2) eqn:E2; simpl; by rewrite ?He, ?E2|by rewrite He]. Qed.

Definition gen_name (id : N) (i : nat) : string := genvarprefix +:+ "_" +:+ ("term_" +:+ pretty id +:+ "_" +:+ pretty i).
Definition user (x : string) : Prop := forall id i, x <> gen_name id i.
(** Assignments of values to the variables of all binding lists. *)
Abbreviation valuation := (option nat -> string -> value).
Definition assigns (s : valuation) : Prop := forall u x, data (s u x).
(** Assignments that agree on the variables of the lists in [P], apart from the variables
    generated in those of [G]. *)
Definition near (P G : option nat -> Prop) (s s' : valuation) : Prop :=
  (forall v x, P v -> (G v -> user x) -> s' v x = s v x) /\ (assigns s -> assigns s').
#[export] Instance near_preorder P G : PreOrder (near P G).
Proof. split; [by split|]. intros a b c [H1 A1] [H2 A2]. split; [|auto]. intros v x Hv Hx. by rewrite H2, H1. Qed.
Lemma near_weaken (P P' G G' : option nat -> Prop) s s' : (forall v, P' v -> P v /\ (G v -> G' v)) -> near P G s s' -> near P' G' s s'.
Proof. intros HP [H A]. split; [|done]. intros v x [Pv Hu]%HP Hx. apply H; auto. Qed.
(** Agreement on all variables of the lists in [P]. *)
Abbreviation same P := (near P (fun _ => False)).

Section Many.
Context `{SI : SharedInv} (N : nat) (F : option nat -> string -> Prop) (rel : relation valuation) `{!PreOrder rel}.
Implicit Types iter k : EK.

(** The bindings that may be reached: there may be new lists, and the old ones may have
    new variables of [F]. *)
Definition from (V : vstore) (Q : vstore -> Prop) (V1 : vstore) : Prop :=
  extends V V1 /\ (forall u x bv, valid V u -> vget V1 u x = Some bv -> vget V u x = Some bv \/ F u x) /\ Q V1.

(** States from [st] on. *)
Record reach (st : ustate) (Q : vstore -> Prop) (st1 : ustate) : Prop := {
  rc_inv : inv N st1;
  rc_from : from (sview st) Q (sview st1);
  rc_env : grow (us_env st) (us_env st1);
}.

(** The continuation is called in states with these bindings, one after the other,
    until one call fails; after a deferred early exit, more calls may follow.  In between
    the first [c] cells are left alone. *)
Inductive runs (c : nat) iter (P : vstore -> Prop) : list vstore -> ustate -> ustate -> option eval_error -> Prop :=
| runs_done st st' : quiet c (us_env st) (us_env st') -> runs c iter P [] st st' None
| runs_call st st1 st2 st' r Vs : quiet c (us_env st) (us_env st1) -> P (sview st1) -> inv N st1 ->
    iter st1 = Some (st2, None) -> grow (us_env st1) (us_env st2) -> runs c iter P Vs st2 st' r ->
    runs c iter P (sview st1 :: Vs) st st' r
| runs_soft st st1 st2 st' e r Vs : quiet c (us_env st) (us_env st1) -> P (sview st1) -> inv N st1 ->
    iter st1 = Some (st2, Some e) -> grow (us_env st1) (us_env st2) -> soft e = true -> runs c iter P Vs st2 st' r ->
    runs c iter P (sview st1 :: Vs) st st' (after_soft e r)
| runs_err st st1 st2 st' e : quiet c (us_env st) (us_env st1) -> P (sview st1) -> inv N st1 ->
    iter st1 = Some (st2, Some e) -> grow (us_env st1) (us_env st2) -> soft e = false -> quiet c (us_env st2) (us_env st') ->
    runs c iter P [sview st1] st st' (Some e).

(** The calls cover the solutions of the equation, up to a relation on assignments. *)
Abbreviation count st := (length (cells (us_env st))).
Definition covers (V : vstore) (Vs : list vstore) (Eqn : valuation -> Prop) : Prop :=
  forall sigma, solves sigma V -> Eqn sigma -> exists V1 sigma', V1 ∈ Vs /\ rel sigma sigma' /\ solves sigma' V1.
Definition many (st : ustate) (Q : vstore -> Prop) (Eqn : valuation -> Prop) iter
    (res : option (ustate * option eval_error)) : Prop :=
  exists st' r Vs, res = Some (st', r) /\ inv N st' /\ sview st' = sview st /\ runs (count st) iter (from (sview st) Q) Vs st st' r /\
    (r = None -> covers (sview st) Vs Eqn).

Lemma runs_quiet c iter P Vs st st1 st' r : quiet c (us_env st) (us_env st1) -> runs c iter P Vs st1 st' r -> runs c iter P Vs st st' r.
Proof. intros Q R. destruct R; [eapply runs_done|eapply runs_call|eapply runs_soft|eapply runs_err]; try done; by etransitivity. Qed.

Lemma runs_quiet_r c iter P Vs st st1 st' r : runs c iter P Vs st st1 r -> quiet c (us_env st1) (us_env st') -> runs c iter P Vs st st' r.
Proof.
  intros R Q. induction R; [eapply runs_done|eapply runs_call|eapply runs_soft|eapply runs_err]; try done;
    [by etransitivity|by apply IHR|by apply IHR|by etransitivity].
Qed.

Lemma runs_app c iter P Vs Ws st st1 st' r : runs c iter P Vs st st1 None -> runs c iter P Ws st1 st' r -> runs c iter P (Vs ++ Ws) st st' r.
Proof.
  intros R R2. remember None as r0 eqn:E0. induction R as [st st1 Q|st s1 s2 st1 r' Vs Q HP I It G R IH|st s1 s2 st1 e r' Vs Q HP I It G He R IH|]; simplify_eq/=.
  - by eapply runs_quiet.
  - eapply runs_call; try done. by apply IH.
  - exfalso. destruct r' as [e'|]; simpl in *; [by destruct (soft e')|done].
Qed.

Lemma runs_app_soft c iter P Vs Ws st st1 st' e r : runs c iter P Vs st st1 (Some e) -> soft e = true -> runs c iter P Ws st1 st' r ->
  runs c iter P (Vs ++ Ws) st st' (after_soft e r).
Proof.
  intros R He R2. remember (Some e) as r0 eqn:E0. revert e He E0.
  induction R as [|st s1 s2 st1 r' Vs Q HP I It G R IH|st s1 s2 st1 e1 r' Vs Q HP I It G He1 R IH|st s1 s2 st1 e1 Q HP I It G He1 Q2]; intros e He E0; simplify_eq/=.
  - eapply runs_call; try done. by apply IH.
  - assert (e1 = e) as -> by (destruct r' as [e'|]; simpl in E0; [destruct (soft e') eqn:E'|]; simplify_eq/=; congruence).
    destruct r' as [e'|]; [|eapply runs_soft; try done; by eapply runs_app]. simpl in E0.
    destruct (soft e') eqn:E'; [|congruence]. rewrite <- (after_soft_assoc e e') by done. eapply runs_soft; try done. by apply IH.
  - congruence.
Qed.

Lemma runs_weaken c c' iter (P P' : vstore -> Prop) Vs st st' r : (c' <= c)%nat -> (forall V, P V -> P' V) ->
  runs c iter P Vs st st' r -> runs c' iter P' Vs st st' r.
Proof.
  intros Hc H R. assert (Hq : forall e e', quiet c e e' -> quiet c' e e') by (intros e e'; apply frame_weaken; intros i _ Hi; cbv beta in *; lia).
  induction R; [eapply runs_done|eapply runs_call|eapply runs_soft|eapply runs_err]; solve [eauto].
Qed.

Lemma runs_grow c iter P Vs st st' r : runs c iter P Vs st st' r -> grow (us_env st) (us_env st').
Proof.
  induction 1 as [st st' Q|st s1 s2 st' r Vs Q _ _ _ G _ IH|st s1 s2 st' e r Vs Q _ _ _ G _ _ IH|st s1 s2 st' e Q _ _ _ G _ Q2].
  - apply Q.
  - etransitivity; [apply Q|]. by etransitivity.
  - etransitivity; [apply Q|]. by etransitivity.
  - etransitivity; [apply Q|]. etransitivity; [exact G|apply Q2].
Qed.

(** The cells that the continuation leaves alone. *)
Lemma runs_keeps c cl iter V e0 (Q : vstore -> Prop) Vs st st' r :
  (forall st1, inv N st1 -> from V Q (sview st1) -> grow e0 (us_env st1) -> exists st2 r, iter st1 = Some (st2, r) /\ keeps cl (us_env st1) (us_env st2)) ->
  runs c iter (from V Q) Vs st st' r -> grow e0 (us_env st) -> frame (fun i => (cl <= i < c)%nat) (us_env st) (us_env st').
Proof.
  intros Hi. assert (Hq : forall e e', quiet c e e' -> frame (fun i => (cl <= i < c)%nat) e e') by (intros e e'; apply frame_weaken; intros i _ Hj; cbv beta in *; lia).
  assert (Hc : forall st st1 st2 r, quiet c (us_env st) (us_env st1) -> from V Q (sview st1) -> inv N st1 -> iter st1 = Some (st2, r) -> grow e0 (us_env st) ->
    frame (fun i => (cl <= i < c)%nat) (us_env st) (us_env st2)).
  { intros st1 st2 st3 r1 Q1 HQ I1 It G. destruct (Hi st2 I1 HQ) as (st3' & r' & It' & K); [etransitivity; [exact G|apply Q1]|].
    rewrite It in It'. injection It' as <- <-. etransitivity; [by apply Hq|]. eapply frame_weaken; [|exact K]. intros i _ Hi'; cbv beta in *; lia. }
  induction 1 as [st st' Qu|st s1 s2 st' r Vs Qu H1 I1 It G R IH|st s1 s2 st' e r Vs Qu H1 I1 It G He R IH|st s1 s2 st' e Qu H1 I1 It G He Q2]; intros Ge.
  - by apply Hq.
  - pose proof (Hc st s1 s2 None Qu H1 I1 It Ge) as K. etransitivity; [exact K|]. apply IH. etransitivity; [exact Ge|apply K].
  - pose proof (Hc st s1 s2 (Some e) Qu H1 I1 It Ge) as K. etransitivity; [exact K|]. apply IH. etransitivity; [exact Ge|apply K].
  - etransitivity; [by eapply Hc|by apply Hq].
Qed.

Lemma many_keeps cl iter st (Q : vstore -> Prop) Vs st' r : handles N cl (reach st Q) iter -> runs (count st) iter (from (sview st) Q) Vs st st' r ->
  keeps cl (us_env st) (us_env st').
Proof.
  intros Hi R. eapply frame_weaken; [|eapply (runs_keeps (count st) cl iter (sview st) (us_env st) Q); [|exact R|done]].
  - intros i Hi' Hc. simpl in *. lia.
  - intros st1 I1 Fr G. destruct (Hi st1) as (st2 & r2 & E & _ & _ & K); [by split|]. by exists st2, r2.
Qed.

Lemma many_handles cl (P : ustate -> Prop) k iter (Q : ustate -> vstore -> Prop) Eqn :
  (forall st, P st -> handles N cl (reach st (Q st)) iter) -> (forall st, P st -> many st (Q st) (Eqn st) iter (k st)) -> handles N cl P k.
Proof.
  intros Hi H st Hst. destruct (H st Hst) as (st' & r & Vs & E & I & Vw & R & _). exists st', r. split_ands; [done..|]. by eapply many_keeps; [apply Hi|].
Qed.

Lemma many_weaken st (Q Q' : vstore -> Prop) (A B : valuation -> Prop) iter res :
  (forall V, extends (sview st) V -> Q V -> Q' V) -> (forall sigma, solves sigma (sview st) -> B sigma -> A sigma) ->
  many st Q A iter res -> many st Q' B iter res.
Proof.
  intros HQ HA (st' & r & Vs & E & I & Vw & R & C). exists st', r, Vs. split_ands; [done..| |].
  - eapply runs_weaken; [done| |exact R]. intros V (X & Nw & H). split; [done|]. split; [done|auto].
  - intros Er sigma S HB. apply C; auto.
Qed.

Lemma many_nil st Q (Eqn : valuation -> Prop) iter : inv N st -> (forall sigma, solves sigma (sview st) -> ~ Eqn sigma) ->
  many st Q Eqn iter (return_nil st).
Proof.
  intros I Nn. exists st, None, []. split_ands; [done..|by apply runs_done|]. intros _ sigma S H. by destruct (Nn sigma S).
Qed.

(** One call. *)
Lemma runs_one c iter P st st1 st2 st' r : quiet c (us_env st) (us_env st1) -> P (sview st1) -> inv N st1 ->
  iter st1 = Some (st2, r) -> grow (us_env st1) (us_env st2) -> quiet c (us_env st2) (us_env st') -> runs c iter P [sview st1] st st' r.
Proof.
  intros Q HP I It G Q2. destruct r as [e|]; [destruct (soft e) eqn:He|].
  - change (Some e) with (after_soft e None). eapply runs_soft; try done. by apply runs_done.
  - by eapply runs_err.
  - eapply runs_call; try done. by apply runs_done.
Qed.

Lemma many_once cl L st (Q : vstore -> Prop) Eqn iter res : handles N cl (after N F L st Q) iter -> once N F L st Q Eqn iter res ->
  many st Q Eqn iter res.
Proof.
  intros Hi (st' & r & -> & I & Vw & [(st1 & st2 & A & S & It & Ev)|(-> & Ev & Nn)]).
  - destruct (Hi st1 A) as (st2' & r' & It' & I2 & V2 & G). rewrite It in It'. injection It' as <- <-.
    exists st', r, [sview st1]. split_ands; [done..| |].
    + eapply runs_one; [| |apply A|exact It|apply G|by rewrite Ev].
      * by rewrite (af_env _ _ _ _ _ _ A).
      * split; [apply A|]. split; [|apply A]. intros u x bv _. apply A.
    + intros _ sigma Sv HE. exists (sview st1), sigma. split_ands; [by apply list_elem_of_singleton|done|by apply S].
  - exists st', None, []. split_ands; [done..| |].
    + apply runs_done. by rewrite Ev.
    + intros _ sigma Sv HE. by destruct (Nn sigma Sv).
Qed.

Lemma after_reach L st (Q : vstore -> Prop) st1 : after N F L st Q st1 -> reach st Q st1.
Proof. intros [I X Nw _ Ev H]. split; [done| |by rewrite Ev]. split; [done|]. split; [|done]. intros u x bv _. apply Nw. Qed.

Lemma from_trans V Q V1 Q' V2 : from V Q V1 -> from V1 Q' V2 -> from V Q' V2.
Proof.
  intros (X1 & N1 & _) (X2 & N2 & H). split; [by etransitivity|]. split; [|done].
  intros u x bv Vu Hx. destruct (N2 u x bv) as [Hx'|]; [by eapply valid_extends|done|by apply N1|by right].
Qed.

Lemma reach_trans st st1 st2 (Q Q' : vstore -> Prop) : reach st Q st1 -> reach st1 Q' st2 -> reach st Q' st2.
Proof. intros [I1 F1 G1] [I2 F2 G2]. split; [done|by eapply from_trans|by etransitivity]. Qed.

Lemma reach_same st st1 st2 (Q : vstore -> Prop) : sview st1 = sview st -> grow (us_env st) (us_env st1) -> reach st1 Q st2 -> reach st Q st2.
Proof. intros V1 G1 [I2 F2 G2]. rewrite V1 in F2. split; [done|done|by etransitivity]. Qed.

(** What follows in the continuation. *)
Lemma runs_bind c k iter V e0 (Q1 Q2 : vstore -> Prop) B Vs st st' r :
  runs c k (from V Q1) Vs st st' r -> grow e0 (us_env st) -> (c <= length (cells e0))%nat ->
  (forall st1, inv N st1 -> from V Q1 (sview st1) -> grow e0 (us_env st1) -> many st1 Q2 B iter (k st1)) ->
  exists Ws, runs c iter (from V Q2) Ws st st' r /\ (r = None -> forall V1, V1 ∈ Vs -> covers V1 Ws B).
Proof.
  assert (Here : forall st st1 st2 r, quiet c (us_env st) (us_env st1) -> from V Q1 (sview st1) -> inv N st1 -> k st1 = Some (st2, r) ->
    grow e0 (us_env st) -> (c <= length (cells e0))%nat ->
    (forall st1, inv N st1 -> from V Q1 (sview st1) -> grow e0 (us_env st1) -> many st1 Q2 B iter (k st1)) ->
    exists Ws, runs c iter (from V Q2) Ws st st2 r /\ (r = None -> covers (sview st1) Ws B)).
  { clear -PreOrder0. intros st st1 st2 r Q H1 I1 It Ge Hc Hk. assert (Ge1 : grow e0 (us_env st1)) by (etransitivity; [exact Ge|apply Q]).
    destruct (Hk st1 I1 H1 Ge1) as (s2 & r2 & Ws & Ek & _ & _ & R & C). rewrite It in Ek. injection Ek as <- <-. exists Ws. split; [|exact C].
    eapply runs_quiet; [exact Q|]. eapply runs_weaken; [|intros W; by apply from_trans with Q1|exact R]. destruct Ge1. lia. }
  induction 1 as [st st' Q|st st1 st2 st' r Vs Q H1 I1 It G R IH|st st1 st2 st' e r Vs Q H1 I1 It G He R IH|st st1 st2 st' e Q H1 I1 It G He Qr]; intros Ge Hc Hk.
  - exists []. split; [by apply runs_done|]. by intros _ V1 []%elem_of_nil.
  - destruct (Here st st1 st2 None Q H1 I1 It Ge Hc Hk) as (Ws1 & R1 & C1).
    destruct IH as (Ws2 & R2 & C2); [etransitivity; [exact Ge|by eapply runs_grow]|done|done|]. exists (Ws1 ++ Ws2). split; [by eapply runs_app|].
    intros Er V1 [->|HV]%elem_of_cons sigma Sv Hb.
    + destruct (C1 eq_refl sigma Sv Hb) as (W & s' & HW & ?). exists W, s'. split; [|done]. apply elem_of_app. by left.
    + destruct (C2 Er V1 HV sigma Sv Hb) as (W & s' & HW & ?). exists W, s'. split; [|done]. apply elem_of_app. by right.
  - destruct (Here st st1 st2 (Some e) Q H1 I1 It Ge Hc Hk) as (Ws1 & R1 & _).
    destruct IH as (Ws2 & R2 & _); [etransitivity; [exact Ge|by eapply runs_grow]|done|done|]. exists (Ws1 ++ Ws2). split; [by eapply runs_app_soft|].
    intros Er. destruct r as [e'|]; simpl in Er; [by destruct (soft e')|done].
  - destruct (Here st st1 st2 (Some e) Q H1 I1 It Ge Hc Hk) as (Ws1 & R1 & _). exists Ws1. split; [by eapply runs_quiet_r|done].
Qed.

Lemma many_bind st (Q1 Q2 : vstore -> Prop) (A B : valuation -> Prop) k iter res :
  many st Q1 A k res -> (forall s s', rel s s' -> B s -> B s') ->
  (forall st1, reach st Q1 st1 -> many st1 Q2 B iter (k st1)) ->
  many st Q2 (fun sigma => A sigma /\ B sigma) iter res.
Proof.
  intros (st' & r & Vs & -> & I & Vw & R & C) Hn Hk.
  destruct (runs_bind (count st) k iter (sview st) (us_env st) Q1 Q2 B Vs st st' r R) as (Ws & R' & C'); [done|done| |].
  { intros st1 I1 H G. apply Hk. by split. }
  exists st', r, Ws. split_ands; [done..|]. intros Er sigma Sv [HA HB].
  destruct (C Er sigma Sv HA) as (V1 & s1 & HV & N1 & S1).
  destruct (C' Er V1 HV s1 S1 (Hn _ _ N1 HB)) as (W & s2 & HW & N2 & S2). exists W, s2. split_ands; [done| |done]. by etransitivity.
Qed.

(** Two computations, one after the other: what [Vs] and [Ws] cover. *)
Lemma covers_app V (A B : valuation -> Prop) Vs Ws : covers V Vs A -> covers V Ws B -> covers V (Vs ++ Ws) (fun sigma => A sigma \/ B sigma).
Proof.
  intros CA CB sigma Sv [HA|HB].
  - destruct (CA sigma Sv HA) as (V1 & s' & HV & ?). exists V1, s'. split; [|done]. apply elem_of_app. by left.
  - destruct (CB sigma Sv HB) as (V1 & s' & HV & ?). exists V1, s'. split; [|done]. apply elem_of_app. by right.
Qed.
Lemma covers_impl V (A B : valuation -> Prop) Vs : (forall sigma, B sigma -> A sigma) -> covers V Vs A -> covers V Vs B.
Proof. intros H C sigma Sv HB. apply C; auto. Qed.

(** One after the other; [h] passes errors on. *)
Lemma many_seq st (Q : vstore -> Prop) (A B : valuation -> Prop) iter res h :
  many st Q A iter res -> (forall st1 e, h st1 (Some e) = Some (st1, Some e)) ->
  (forall st1, inv N st1 -> sview st1 = sview st -> grow (us_env st) (us_env st1) -> many st1 Q B iter (h st1 None)) ->
  many st Q (fun sigma => A sigma \/ B sigma) iter ('(st1, err) ← res; h st1 err).
Proof.
  intros (st2 & r & Vs & -> & I2 & V2 & R & C) He Hh. pose proof (runs_grow _ _ _ _ _ _ _ R) as G2. cbn [mbind option_bind]. destruct r as [e|].
  - rewrite He. by exists st2, (Some e), Vs.
  - destruct (Hh st2 I2 V2 G2) as (st3 & r3 & Ws & -> & I3 & V3 & R3 & C3). rewrite V2 in *.
    exists st3, r3, (Vs ++ Ws). split_ands; [done|done|congruence| |].
    + eapply runs_app; [exact R|]. eapply runs_weaken; [|done|exact R3]. apply G2.
    + intros Er. apply covers_app; auto.
Qed.

(** Loops; [deferred] is the deferred early exit so far. *)
Definition loops {A} (Q : vstore -> Prop) (Eqn : A -> valuation -> Prop) iter (f : A -> EK) (l : list A) (st : ustate) (deferred : option eval_error) : Prop :=
  exists st' r Vs, each deferred l f st = Some (st', match deferred with None => r | Some e => after_soft e r end) /\
    inv N st' /\ sview st' = sview st /\ runs (count st) iter (from (sview st) Q) Vs st st' r /\
    (r = None -> covers (sview st) Vs (fun sigma => exists x, x ∈ l /\ Eqn x sigma)).

Lemma each_runs {A} (Q : vstore -> Prop) (Eqn : A -> valuation -> Prop) iter (f : A -> EK) l : forall st deferred, inv N st ->
  (forall e, deferred = Some e -> soft e = true) ->
  (forall x st1, x ∈ l -> inv N st1 -> sview st1 = sview st -> grow (us_env st) (us_env st1) -> many st1 Q (Eqn x) iter (f x st1)) ->
  loops Q Eqn iter f l st deferred.
Proof.
  induction l as [|x l IH]; intros st deferred I Hd H.
  - exists st, None, []. split_ands; [by destruct deferred|done|done|by apply runs_done|]. intros _ sigma _ (y & []%elem_of_nil & _).
  - destruct (H x st) as (st2 & r & Vs & E & I2 & V2 & R & C); [by left|done..|]. pose proof (runs_grow _ _ _ _ _ _ _ R) as G2.
    unfold loops. simpl. rewrite E. cbn [mbind option_bind].
    assert (Hrec : forall d', (forall e, d' = Some e -> soft e = true) -> exists st' r Ws, each d' l f st2 = Some (st', match d' with None => r | Some e => after_soft e r end) /\
      inv N st' /\ sview st' = sview st /\ runs (count st) iter (from (sview st) Q) Ws st2 st' r /\
      (r = None -> covers (sview st) Ws (fun sigma => exists x, x ∈ l /\ Eqn x sigma))).
    { intros d' Hd'. destruct (IH st2 d' I2 Hd') as (st' & r' & Ws & E' & I' & V' & R' & C'); [|].
      - intros y st3 Hy I3 V3 G3. apply H; [by right|done|congruence|by etransitivity].
      - rewrite V2 in *. exists st', r', Ws. split_ands; try done. eapply runs_weaken; [|done|exact R']. apply G2. }
    assert (Hx : forall sigma, (exists y, y ∈ x :: l /\ Eqn y sigma) -> Eqn x sigma \/ exists y, y ∈ l /\ Eqn y sigma).
    { intros sigma (y & [->|Hy]%elem_of_cons & Hs); [by left|right; by exists y]. }
    destruct r as [e|]; [destruct (soft e) eqn:He|].
    + destruct e; try done. destruct (Hrec (match deferred with None => Some (DeferredEarlyExit prev) | _ => deferred end)) as (st' & r & Ws & E' & I' & V' & R' & _).
      { intros e0. destruct deferred; [by apply Hd|by intros [= <-]]. }
      exists st', (after_soft (DeferredEarlyExit prev) r), (Vs ++ Ws). split_ands; [|done|done|by eapply runs_app_soft|].
      * destruct deferred as [e0|]; [|done]. rewrite E'. by rewrite after_soft_assoc.
      * intros Er. by destruct r as [[]|].
    + exists st2, (Some e), Vs. split_ands; [|done..]. destruct deferred; destruct e; done.
    + destruct (Hrec deferred Hd) as (st' & r & Ws & E' & I' & V' & R' & C'). exists st', r, (Vs ++ Ws). split_ands; [done..|by eapply runs_app|].
      intros Er. eapply covers_impl; [exact Hx|]. apply covers_app; auto.
Qed.

Lemma each_many {A} st (Q : vstore -> Prop) (Eqn : A -> valuation -> Prop) iter (f : A -> EK) l : inv N st ->
  (forall x st1, x ∈ l -> inv N st1 -> sview st1 = sview st -> grow (us_env st) (us_env st1) -> many st1 Q (Eqn x) iter (f x st1)) ->
  many st Q (fun sigma => exists x, x ∈ l /\ Eqn x sigma) iter (each None l f st).
Proof. intros I H. by apply (each_runs Q Eqn iter f l st None I). Qed.
End Many.
Abbreviation count st := (length (cells (us_env st))).

(** A larger relation. *)
Lemma many_rel `{SI : SharedInv} N F (rel rel' : relation valuation) st Q Eqn iter res : (forall s s', rel s s' -> rel' s s') ->
  many N F rel st Q Eqn iter res -> many N F rel' st Q Eqn iter res.
Proof.
  intros H (st' & r & Vs & E & I & V & R & C). exists st', r, Vs. split_ands; [done..|].
  intros Er sigma Sv HE. destruct (C Er sigma Sv HE) as (V1 & s' & HV & Hr & S1). exists V1, s'. split_ands; auto.
Qed.
