(* ===== verification/EvalTerms.v ===== *)
(** Terms with references (definitions in Eval.v): unification of references with
    patterns and with each other calls its continuation for every way to walk along
    them. *)
From Stdlib Require Import ZArith Lia String QArith.
From stdpp Require Import base gmap list strings pretty.
From S2P Require Import Prelude SortedKeys Value Containers SetTable ObjectTable RefOps Builtins Document JsonPaths VarVisitor Bindings.
From S2P Require Import Unify UnifySound UnifyTotal EvalGround Eval EvalRefs.

(** ** Lookup respects equality *)
Lemma NInt_Equal i j : Equal (Number (NInt i)) (Number (NInt j)) = true -> i = j.
Proof.
  rewrite Equal_true. change (num_compare (NInt i) (NInt j) = Eq -> i = j). unfold num_compare, num_int64.
  destruct (in_int64 i), (in_int64 j); try apply Z.compare_eq; intros E%Qeq_alt; by apply inject_Z_injective.
Qed.

Lemma tidy_int i : tidy (Number (NInt i)).
Proof. intros j _ E. f_equal. by apply NInt_Equal. Qed.

Lemma lookup_congr doc doc' key key' v : Equal doc doc' = true -> Equal key key' = true -> lookup doc key v ->
  exists v', lookup doc' key' v' /\ Equal v v' = true.
Proof.
  intros Ed Ek H. destruct doc as [| | | | | |l|kvs|l| | | |]; try done.
  - destruct (Equal_Array _ _ Ed) as (l' & -> & F). destruct H as (i & Ei & Hi).
    destruct (Forall2_lookup_l _ _ _ _ _ F Hi) as (v' & Hv' & Q). exists v'. split; [|done]. exists i. split; [|done].
    rewrite Equal_sym in Ek. by eapply Equal_trans.
  - destruct (Equal_Object _ _ Ed) as (l' & -> & _). simpl in H |- *. apply Equal_true in Ed, Ek.
    pose proof (object_ext_inv _ _ Ed key) as O. rewrite H in O. rewrite <- (obj_get_congr _ _ _ Ek).
    destruct (obj_get key l') as [v'|]; [|done]. exists v'. split; [done|by apply Equal_true].
  - destruct (Equal_Set _ _ Ed) as (l' & -> & _). destruct H as [M ->]. apply Equal_true in Ed.
    rewrite (set_ext_inv _ _ Ed), (set_mem_congr _ _ _ (proj1 (Equal_true _ _) Ek)) in M. by exists key'.
Qed.

Lemma lookups_congr keys : forall doc doc' keys' v, Equal doc doc' = true -> Forall2 (fun x y => Equal x y = true) keys keys' ->
  lookups doc keys v -> exists v', lookups doc' keys' v' /\ Equal v v' = true.
Proof.
  induction keys as [|k keys IH]; intros doc doc' keys' v Ed F H; inversion F as [|? k' ? ks' Ek F']; subst; simpl in H.
  - subst v. by exists doc'.
  - destruct H as (w & Hw & H). destruct (lookup_congr _ _ _ _ _ Ed Ek Hw) as (w' & Hw' & Ew).
    destruct (IH _ _ _ _ Ew F' H) as (v' & Hv' & Ev). exists v'. split; [by exists w'|done].
Qed.

Lemma lookups_doc keys doc doc' v : Equal doc doc' = true -> lookups doc keys v -> exists v', lookups doc' keys v' /\ Equal v v' = true.
Proof. intros Ed. apply lookups_congr; [done|]. apply Forall_Forall2_diag, Forall_forall. intros x _. apply Equal_refl. Qed.

Lemma lookup_fun doc key v w : lookup doc key v -> lookup doc key w -> v = w.
Proof.
  destruct doc; try done; simpl.
  - intros (i & Ei & Hi) (j & Ej & Hj). rewrite Equal_sym in Ei. pose proof (Equal_trans _ _ _ Ei Ej) as E%NInt_Equal.
    apply Nat2Z.inj in E. subst j. congruence.
  - congruence.
  - intros [_ ->] [_ ->]. done.
Qed.

(** The keys that [enumerate] tries. *)
Definition keys_in (doc : value) : list value :=
  match doc with
  | Array l => map (fun i => Number (NInt (Z.of_nat i))) (seq 0 (length l))
  | Object kvs => map fst kvs
  | SetV l => l
  | _ => []
  end.

Lemma lookup_key_in doc key v : lookup doc key v -> exists key', key' ∈ keys_in doc /\ Equal key' key = true.
Proof.
  destruct doc; try done; simpl.
  - intros (i & Ei & Hi). exists (Number (NInt (Z.of_nat i))). split; [|by rewrite Equal_sym].
    apply list_elem_of_fmap. exists i. split; [done|]. apply elem_of_seq. apply lookup_lt_Some in Hi. lia.
  - intros (kv & Hkv & E & _)%obj_get_Some. exists kv.1. split; [by apply list_elem_of_fmap_2|]. rewrite Equal_sym. by apply Equal_true.
  - intros [M _]. rewrite set_mem_existsb in M. apply existsb_exists in M as (y & Hy & E). exists y.
    split; [by apply list_elem_of_In|by rewrite Equal_sym].
Qed.

Lemma keys_in_data doc : data doc -> Forall data (keys_in doc).
Proof.
  intros [v S _|l _ _|kvs _ Dk _|l _ D]; simpl.
  - by destruct v.
  - apply List.Forall_map, Forall_forall. intros i _. apply data_scalar; [done|apply tidy_int].
  - by apply List.Forall_map.
  - done.
Qed.

Lemma keys_in_bounded n doc : bounded n doc -> Forall (bounded n) (keys_in doc).
Proof.
  intros B. destruct doc; simpl; try done.
  - apply List.Forall_map, Forall_forall. intros i _. by destruct n.
  - destruct n as [|n]; [done|]. destruct B as [_ B]. apply List.Forall_map. eapply Forall_impl; [exact B|]. intros kv. apply bounded_S.
  - destruct n as [|n]; [done|]. eapply Forall_impl; [exact B|]. apply bounded_S.
Qed.

Lemma lookup_bounded n doc key v : bounded n doc -> lookup doc key v -> bounded n v.
Proof.
  intros B. destruct doc; try done; simpl.
  - intros (i & _ & Hi). destruct n as [|n]; [done|]. apply bounded_S. simpl in B. rewrite Forall_forall in B. apply B. by eapply list_elem_of_lookup_2.
  - intros (kv & Hkv & _ & <-)%obj_get_Some. destruct n as [|n]; [done|]. destruct B as [B _]. rewrite Forall_forall in B. by apply bounded_S, B.
  - intros [M ->]. rewrite set_mem_existsb in M. apply existsb_exists in M as (y & Hy & E). rewrite Equal_sym in E.
    apply (bounded_Equal n y key E). destruct n as [|n]; [done|]. apply bounded_S. simpl in B. rewrite Forall_forall in B. apply B. by apply list_elem_of_In.
Qed.

Lemma lookups_keys_bounded d keys : forall doc v, bounded d doc -> lookups doc keys v -> Forall (bounded d) keys /\ bounded d v.
Proof.
  induction keys as [|k keys IH]; intros doc v Bd H; simpl in H; [by subst|]. destruct H as (w & Hw & L).
  destruct (IH w v (lookup_bounded d doc k w Bd Hw) L) as [F Bv]. split; [|done]. constructor; [|done].
  destruct (lookup_key_in doc k w Hw) as (k' & Hk' & E). apply (bounded_Equal d k' k E).
  pose proof (keys_in_bounded d doc Bd) as Fk. rewrite Forall_forall in Fk. by apply Fk.
Qed.

Lemma lookup_data doc key v : data doc -> data key -> lookup doc key v -> data v.
Proof.
  intros Dd Dk. destruct Dd as [v' S _|l _ F|kvs _ _ F|l _ F]; simpl.
  - by destruct v'.
  - intros (j & _ & Hj). rewrite Forall_lookup in F. by eapply F.
  - intros (kv & Hkv & _ & <-)%obj_get_Some. rewrite Forall_forall in F. by apply F.
  - by intros [_ ->].
Qed.
Lemma lookups_data keys : forall doc v, data doc -> Forall data keys -> lookups doc keys v -> data v.
Proof.
  induction keys as [|k keys IH]; intros doc v Dd Fk H; simpl in H; [by subst|]. destruct H as (w & Hw & L). apply Forall_cons in Fk as [Dk Fk].
  by apply (IH w v (lookup_data doc k w Dd Dk Hw)).
Qed.

(** ** Walks along a reference *)
Lemma each_keys {A B} (g : A -> B) (l : list A) (f : B -> EK) d st : each d (map g l) f st = each d l (fun x => f (g x)) st.
Proof.
  revert d st. induction l as [|x l IH]; intros d st; simpl; [done|]. destruct (f (g x) st) as [[st1 [e|]]|]; simpl; try done.
  by destruct e.
Qed.

Lemma ev_near P G s s' u t : near P G s s' -> P u -> pat t -> (forall x, x ∈ vars_of no_params t -> G u -> user x) -> ev s' u t = ev s u t.
Proof.
  intros [Hn _] Pu. induction 1 as [x|v Hs _|l _ _ IH|kvs _ _ _ IH|l _] using pat_induction; intros Hu.
  - apply Hn; [done|]. apply Hu. cbn [vars_of]. by apply elem_of_singleton.
  - by rewrite !ev_const by (by left).
  - simpl. f_equal. apply map_ext_in. intros x Hx%list_elem_of_In. rewrite Forall_forall in IH. apply IH; [done|].
    intros y Hy. apply Hu. by eapply vars_array.
  - simpl. f_equal. apply map_ext_in. intros kv Hx%list_elem_of_In. rewrite Forall_forall in IH. f_equal. apply IH; [done|].
    intros y Hy. apply Hu. by eapply vars_object.
  - done.
Qed.

Lemma reach_here `{SI : SharedInv} N F st : inv N st -> reach N F st (fun _ => True) st.
Proof. intros I. split; [done| |done]. split; [done|]. split; [by left|done]. Qed.
Lemma reach_post `{SI : SharedInv} N F st (Q Q' : vstore -> Prop) st1 : (forall V, extends (sview st) V -> Q V -> Q' V) -> reach N F st Q st1 -> reach N F st Q' st1.
Proof. intros H [I (X & Nw & HQ) G]. split; [done| |done]. split; [done|]. split; [done|auto]. Qed.
Lemma reach_any `{SI : SharedInv} N F st Q st1 : reach N F st Q st1 -> reach N F st (fun _ => True) st1.
Proof. by apply reach_post. Qed.
Lemma handles_post `{SI : SharedInv} N F cl st (Q Q' : vstore -> Prop) (k : EK) : (forall V, extends (sview st) V -> Q V -> Q' V) ->
  handles N cl (reach N F st Q') k -> handles N cl (reach N F st Q) k.
Proof. intros H. apply handles_impl. intros st1. by apply reach_post. Qed.

Section Walk.
Context `{SI : SharedInv} (N fuel cl : nat) (Hf : (3 * N + 3 < fuel)%nat) (F : option nat -> string -> Prop).
Context (biunify : value -> value -> option nat -> option nat -> EK -> EK).
Context (U : forall x y u1 u2 k st, here N u1 u2 st -> ready N F N u1 u2 (sview st) x y ->
  handles N cl (after N F (us_iters st) st (both u1 u2 x y)) k ->
  once N F (us_iters st) st (both u1 u2 x y) (eqn u1 u2 x y) k (biunify x y u1 u2 k st)).
(** The lists that are there when the walk starts. *)
Context (P : option nat -> Prop) (b rb : option nat) (Pb : P b) (rterm : value) (iter : EK).

(** What the end of the walk does: [R] is the condition on the value that is
    reached, [Qr] what holds when the continuation is called. *)
Context (R : value -> valuation -> Prop) (Qr : value -> vstore -> Prop).
Context (R_congr : forall v w sigma, Equal v w = true -> R v sigma -> R w sigma).
Context (R_same : forall v sigma sigma', same P sigma sigma' -> R v sigma -> R v sigma').
Context (Qr_congr : forall v w V, Equal v w = true -> Qr v V -> Qr w V).

(** What is known of the value where the walk ends. *)
Context (W : value -> vstore -> Prop) (W_congr : forall v w V, Equal v w = true -> W v V -> W w V).

Definition post (doc : value) (path : list value) (V : vstore) : Prop :=
  exists ks v, Forall2 (gv V b) path ks /\ lookups doc ks v /\ Qr v V.
Definition walk_eqn (doc : value) (path : list value) (sigma : valuation) : Prop :=
  exists v, lookups doc (map (ev sigma b) path) v /\ R v sigma.

Record ends (st : ustate) : Prop := {
  en_many : forall st1 t1 tb1 v, reach N F st (fun _ => True) st1 -> valid (sview st1) tb1 ->
    gv (sview st1) tb1 t1 v -> bounded N v -> (forall x, t1 <> Var x) -> (forall V, extends (sview st1) V -> W v V) ->
    many N F (same P) st1 (Qr v) (R v) iter (biunify t1 rterm tb1 rb iter st1);
  en_iter : handles N cl (reach N F st (fun V => exists v, W v V /\ Qr v V)) iter;
}.

Lemma ends_reach st (Q : vstore -> Prop) st1 : reach N F st Q st1 -> ends st -> ends st1.
Proof.
  intros R1 [E Hi]. split.
  - intros st2 t1 tb1 v R2. apply E. by eapply reach_trans.
  - eapply handles_impl; [|exact Hi]. intros st2 R2. by eapply reach_trans.
Qed.

(** A path that can be walked from a state on. *)
Record walkable (st : ustate) (path : list value) : Prop := {
  wk_pat : Forall pat path;
  wk_bound : Forall (bounded N) path;
  wk_bind : Forall (bindable F (sview st) b) path;
}.
Lemma walkable_reach st Q st1 path : reach N F st Q st1 -> walkable st path -> walkable st1 path.
Proof.
  intros [_ [X _] _] [Pp B Bi]. split; try done. eapply Forall_impl; [exact Bi|]. intros t. by apply bindable_mono.
Qed.
Lemma walkable_tail st k path : walkable st (k :: path) -> walkable st path.
Proof.
  intros [Pp%Forall_cons B%Forall_cons Bi%Forall_cons]. split; [apply Pp|apply B|apply Bi].
Qed.

Record located (st : ustate) (term : value) (tb : option nat) (doc : value) : Prop := {
  lc_inv : inv N st;
  lc_valid : valid (sview st) tb;
  lc_b : valid (sview st) b;
  lc_value : gv (sview st) tb term doc;
  lc_bound : bounded N doc;
  lc_term : forall x, term <> Var x;
  lc_ends : ends st;
}.
Lemma located_reach st Q st1 term tb doc : reach N F st Q st1 -> located st term tb doc -> located st1 term tb doc.
Proof.
  intros R1 [I V1 V2 G B T E]. pose proof R1 as [I1 [X _] _]. split; try done; [by eapply valid_extends..|by eapply gv_mono|by eapply ends_reach].
Qed.

Definition leads (st : ustate) (doc : value) (path : list value) : Prop := forall V ks v, extends (sview st) V -> Forall2 (gv V b) path ks ->
  lookups doc ks v -> W v V.
Definition walks (path : list value) : Prop := forall term tb doc st, located st term tb doc -> walkable st path -> leads st doc path ->
  many N F (same P) st (post doc path) (walk_eqn doc path) iter (evalTerm fuel biunify path b term tb rterm rb iter st).

Lemma walk_iter st doc path : ends st -> leads st doc path -> handles N cl (reach N F st (post doc path)) iter.
Proof.
  intros [_ Hi] Ld. eapply handles_post; [|exact Hi]. intros V X (ks & v & Fk & L & Q). exists v. split; [by eapply Ld|done].
Qed.

Lemma walk_same doc path s s' : Forall pat path -> same P s s' -> walk_eqn doc path s -> walk_eqn doc path s'.
Proof.
  intros Pp Hn (v & L & H). exists v. split; [|by eapply R_same]. replace (map (ev s' b) path) with (map (ev s b) path); [done|].
  apply map_ext_in. intros k Hk%list_elem_of_In. rewrite Forall_forall in Pp. symmetry. eapply ev_near; [exact Hn|done|by apply Pp|done].
Qed.

Definition next_of (path : list value) (term : value) (tb : option nat) (plugged : value) : EK := fun st =>
  r ← evalTerm_get fuel (us_heap st) term tb plugged;
  match r with
  | Some (t, tb') => evalTerm fuel biunify path b t tb' rterm rb iter st
  | None => return_nil st
  end.

Lemma next_many path term tb doc st key : walks path -> located st term tb doc -> walkable st path -> data key ->
  (forall w, lookup doc key w -> leads st w path) ->
  many N F (same P) st (fun V => exists w, lookup doc key w /\ post w path V) (fun sigma => exists w, lookup doc key w /\ walk_eqn w path sigma) iter
    (next_of path term tb key st).
Proof.
  intros Wk L Wp D Ld. unfold next_of. destruct (get_ok N fuel ltac:(lia) st (lc_inv _ _ _ _ L) term tb doc key) as (r & -> & C);
    [apply L|apply L|apply L|done|]. cbn [mbind option_bind]. destruct r as [[t tb']|].
  - destruct C as ((w & G & Hl) & Nv & Vd). eapply many_weaken; [| |apply (Wk t tb' w st)].
    + intros V _ Hp. by exists w.
    + intros sigma _ (w' & Hl' & He). by rewrite (lookup_fun _ _ _ _ Hl Hl').
    + split; try done; [apply L|apply L|by eapply lookup_bounded; [apply L|]|apply L].
    + done.
    + by apply Ld.
  - apply many_nil; [apply L|]. intros sigma _ (w & Hl & _). by apply (C w).
Qed.

Lemma key_ready st ub k path key : walkable st (k :: path) -> data key -> bounded N key -> ready N F N ub b (sview st) key k.
Proof.
  intros [Pp%Forall_cons B%Forall_cons Bi%Forall_cons] D Bk. split; [by apply data_pat|apply Pp| |apply Bi|done|apply B|].
  - intros x Hx. rewrite data_vars in Hx by done. set_solver.
  - left. exists key. split; [by apply data_gv|done].
Qed.

Lemma both_key V ub k key : data key -> both ub b key k V -> exists kv, gv V b k kv /\ Equal key kv = true.
Proof. intros D (va & vb & Ga & Gb & Q). exists vb. split; [done|]. by rewrite (gv_fun _ _ _ _ (data_gv _ ub key D) va Ga). Qed.

Lemma post_key V doc k path key kv : gv V b k kv -> Equal key kv = true -> (exists w, lookup doc key w /\ post w path V) -> post doc (k :: path) V.
Proof.
  intros G Q (w & Hw & ks & v & Fk & L & H). destruct (lookup_congr doc doc key kv w (Equal_refl _) Q Hw) as (w' & Hw' & Ew).
  destruct (lookups_doc ks w w' v Ew L) as (v' & L' & Ev).
  exists (kv :: ks), v'. split_ands; [by constructor|by exists w'|by eapply Qr_congr].
Qed.

(** A walk that goes on from an equal key. *)
Lemma walk_key sigma doc k path key : Equal key (ev sigma b k) = true -> walk_eqn doc (k :: path) sigma ->
  exists w, lookup doc key w /\ walk_eqn w path sigma.
Proof.
  intros Q (v & (w & Hw & L) & H). rewrite Equal_sym in Q. destruct (lookup_congr doc doc _ key w (Equal_refl _) Q Hw) as (w' & Hw' & Ew).
  destruct (lookups_doc (map (ev sigma b) path) w w' v Ew L) as (v' & L' & Ev).
  exists w'. split; [done|]. exists v'. split; [done|by eapply R_congr].
Qed.

Lemma leads_key st st2 doc k path key kv w : leads st doc (k :: path) -> extends (sview st) (sview st2) -> gv (sview st2) b k kv ->
  Equal key kv = true -> lookup doc key w -> leads st2 w path.
Proof.
  intros Ld X G Q Hw V ks v X2 Fk L. destruct (lookup_congr doc doc key kv w (Equal_refl _) Q Hw) as (w' & Hw' & Ew).
  destruct (lookups_doc ks w w' v Ew L) as (v' & L' & Ev).
  rewrite Equal_sym in Ev. eapply W_congr; [exact Ev|]. apply (Ld V (kv :: ks) v'); [by etransitivity| |by exists w'].
  constructor; [by eapply gv_mono|done].
Qed.

Lemma enum_many path k term tb doc st ub cont : walks path -> located st term tb doc -> walkable st (k :: path) -> leads st doc (k :: path) -> valid (sview st) ub ->
  (forall key st1, key ∈ keys_in doc -> located st1 term tb doc -> cont key st1 = next_of path term tb key st1) ->
  many N F (same P) st (post doc (k :: path)) (walk_eqn doc (k :: path)) iter (each None (keys_in doc) (fun key => biunify key k ub b (cont key)) st).
Proof.
  intros Wk L Wp Ld Vu Hc. pose proof (keys_in_data doc (gv_data _ _ _ _ (lc_value _ _ _ _ L))) as Dk.
  pose proof (keys_in_bounded N doc (lc_bound _ _ _ _ L)) as Bk. rewrite Forall_forall in Dk, Bk.
  eapply many_weaken; [intros V _ HQ; exact HQ| |apply (each_many N F (same P) st _ (fun key sigma => eqn ub b key k sigma /\
    exists w, lookup doc key w /\ walk_eqn w path sigma)); [apply L|]].
  { intros sigma Sv H. pose proof H as (v & (w & Hw & _) & _). destruct (lookup_key_in _ _ _ Hw) as (key & Hkey & Q).
    assert (Qe : Equal (ev sigma ub key) key = true) by (eapply gv_ev; [exact Sv|by apply data_gv, Dk]).
    exists key. split_ands; [done|by eapply Equal_trans|by apply (walk_key sigma doc k path)]. }
  intros key st1 Hkey I1 V1 G1. assert (R1 : reach N F st (fun _ => True) st1) by (eapply reach_same; [done|exact G1|by apply reach_here]).
  pose proof (located_reach _ _ _ _ _ _ R1 L) as L1. pose proof (walkable_reach _ _ _ _ R1 Wp) as P1.
  assert (Hn : forall st2, reach N F st1 (both ub b key k) st2 -> many N F (same P) st2 (post doc (k :: path))
    (fun sigma => exists w, lookup doc key w /\ walk_eqn w path sigma) iter (cont key st2)).
  { intros st2 R2. pose proof (located_reach _ _ _ _ _ _ R2 L1) as L2. rewrite (Hc key st2 Hkey L2). pose proof R2 as [_ (X2 & _ & Hb) _].
    destruct (both_key _ _ _ _ (Dk key Hkey) Hb) as (kv & Gk & Q).
    eapply many_weaken; [| |apply (next_many path term tb doc st2 key Wk L2)]; auto.
    - intros V X HQ. eapply post_key; [by eapply gv_mono|exact Q|exact HQ].
    - eapply walkable_tail, walkable_reach; [exact R2|exact P1].
    - intros w Hw. eapply leads_key; [exact Ld| |exact Gk|exact Q|exact Hw]. by rewrite <- V1. }
  eapply many_bind; [apply _| | |exact Hn].
  - assert (Hh : handles N cl (after N F (us_iters st1) st1 (both ub b key k)) (cont key)).
    { eapply many_handles; intros st2 A%after_reach; [|by apply Hn]. apply walk_iter; [by eapply ends_reach, L1|].
      intros V ks v X. apply Ld. etransitivity; [|exact X]. rewrite <- V1. apply A. }
    eapply many_once; [apply _|exact Hh|]. apply U; [|by eapply key_ready; [exact P1|apply Dk|apply Bk]|exact Hh].
    split; [done|]. split; [by rewrite V1|apply L1].
  - intros s s' Hs (w & Hw & H). exists w. split; [done|]. eapply walk_same; [|exact Hs|exact H]. eapply Forall_inv_tail. apply Wp.
Qed.

(** A key that has a value already. *)
Lemma ground_many path k term tb doc st kv : walks path -> located st term tb doc -> walkable st (k :: path) -> leads st doc (k :: path) -> gv (sview st) b k kv ->
  many N F (same P) st (post doc (k :: path)) (walk_eqn doc (k :: path)) iter (next_of path term tb kv st).
Proof.
  intros Wk L Wp Ld G. eapply many_weaken; [| |apply (next_many path term tb doc st kv Wk L)].
  - intros V X HQ. eapply post_key; [by eapply gv_mono|apply Equal_refl|exact HQ].
  - intros sigma Sv H. apply (walk_key sigma doc k path); [|done]. rewrite Equal_sym. by eapply gv_ev.
  - by eapply walkable_tail.
  - by eapply gv_data.
  - intros w Hw. eapply leads_key; [exact Ld|done|exact G|apply Equal_refl|exact Hw].
Qed.

Lemma plugged_next path term tb doc st key : located st term tb doc -> data key ->
  (plugged ← Plug fuel (us_heap st) tb key; next_of path term tb plugged st) = next_of path term tb key st.
Proof. intros _ D. by rewrite (Plug_data key) by (done || lia). Qed.

Lemma no_walk st k path doc : inv N st -> keys_in doc = [] ->
  many N F (same P) st (post doc (k :: path)) (walk_eqn doc (k :: path)) iter (return_nil st).
Proof.
  intros I E. apply many_nil; [done|]. intros sigma _ (v & (w & Hw & _) & _). apply lookup_key_in in Hw as (key & Hk & _).
  rewrite E in Hk. by apply elem_of_nil in Hk.
Qed.

Lemma walks_all path : walks path.
Proof.
  induction path as [|k path Wk]; intros term tb doc st L Wp Ld.
  - eapply many_weaken; [| |apply (en_many _ (lc_ends _ _ _ _ L) st); try apply L].
    + intros V _ H. by exists [], doc.
    + intros sigma _ (v & Hv & H). simpl in Hv. by subst.
    + apply reach_here, L.
    + intros V X. by apply (Ld V [] doc).
  - destruct (Plug_ok N st b k (lc_inv _ _ _ _ L)) with (m := N) (fuel := fuel) as (kv & Ek & Gk);
      [by apply (Forall_inv (wk_pat _ _ Wp))|by apply (Forall_inv (wk_bound _ _ Wp))|lia|].
    cbn [evalTerm]. rewrite Ek. cbn [mbind option_bind]. destruct (IsGround kv) eqn:Gkv.
    { destruct Gk as [Gk|]; [|congruence]. by apply ground_many. }
    clear Gk. pose proof (lc_value _ _ _ _ L) as G. assert (Dk := keys_in_data doc (gv_data _ _ _ _ G)). rewrite Forall_forall in Dk.
    destruct G as [u x bv v G D|u t S T|u l l' Ll Fl|u kvs kvs' S Dkv El Fl|u l D].
    + by destruct (lc_term _ _ _ _ L x).
    + destruct t; try done; (apply no_walk; [apply L|done]).
    + rewrite <- (each_keys (fun i => Number (NInt (Z.of_nat i))) (seq 0 (length l)) (fun key => biunify key k b b (next_of path (Array l) u key))).
      rewrite (Forall2_length _ _ _ Fl). by apply (enum_many path k (Array l) u (Array l') st b (next_of path (Array l) u)); [..|apply L|].
    + rewrite El. apply (enum_many path k (Object kvs) u (Object kvs') st u); [done|done|done|done|apply L|].
      intros key st1 Hk L1. by eapply plugged_next; [|apply Dk].
    + apply (enum_many path k (SetV l) u (SetV l) st u); [done|done|done|done|apply L|].
      intros key st1 Hk L1. by eapply plugged_next; [|apply Dk].
Qed.
End Walk.
