(* ===== verification/EvalSem.v ===== *)
(** What a query means: the assignments that satisfy its expressions, and the queries
    that the theorem on the evaluator is about. *)
From Stdlib Require Import ZArith Lia String Ascii.
From stdpp Require Import base gmap list strings pretty.
From S2P Require Import Prelude SortedKeys Value Containers ObjectTable RefOps VarVisitor Safety Bindings.
From S2P Require Import Unify UnifySound UnifyTotal EvalGround Eval EvalRefs EvalTerms.

(** ** Names of generated variables *)
Fixpoint no_bar (s : string) : Prop :=
  match s with EmptyString => True | String.String c s => c <> "_"%char /\ no_bar s end.

Lemma bar_split s1 s2 t1 t2 : no_bar s1 -> no_bar s2 -> s1 +:+ "_" +:+ t1 = s2 +:+ "_" +:+ t2 -> s1 = s2 /\ t1 = t2.
Proof.
  revert s2. induction s1 as [|c s1 IH]; intros [|c' s2] N1 N2 E; simpl in *.
  - by injection E.
  - injection E as <- _. by destruct N2.
  - injection E as -> _. by destruct N1.
  - injection E as -> E. destruct (IH s2) as [-> ->]; [apply N1|apply N2|done|done].
Qed.

Lemma pretty_char_bar n : pretty_N_char n <> "_"%char.
Proof. by destruct n as [|[[[|[]|]|[|[]|]|]|[[[]| |]|[|[]|]|]|]]. Qed.

Lemma no_bar_pretty_go x s : no_bar s -> no_bar (pretty_N_go x s).
Proof.
  revert s. induction (N.lt_wf_0 x) as [x _ IH]; intros s Hs. destruct (decide (0 < x)%N) as [Hx|Hx].
  - rewrite pretty_N_go_step by done. apply IH; [by apply N.div_lt|]. split; [apply pretty_char_bar|done].
  - assert (x = 0%N) as -> by lia. by rewrite pretty_N_go_0.
Qed.

Lemma no_bar_pretty (x : N) : no_bar (pretty x).
Proof. unfold pretty, pretty_N. case_decide; [done|]. by apply no_bar_pretty_go. Qed.

Lemma gen_name_inj id i id' i' : gen_name id i = gen_name id' i' -> id = id' /\ i = i'.
Proof.
  unfold gen_name. intros E. simpl in E. injection E as E. apply bar_split in E as [E1 E2]; [|apply no_bar_pretty..].
  split; [by apply (inj pretty)|by apply (inj pretty)].
Qed.

(** Names that do not start with the prefix are not generated. *)
Lemma user_first c s : c <> "$"%char -> user (String.String c s).
Proof. intros Hc id i E. by injection E. Qed.

(** ** Variables *)
Abbreviation pvars := (vars_of no_params).
(** Assignments of values to the variables of one list. *)
Abbreviation assignment := (string -> value).
Definition evs (s : assignment) (t : value) : value := ev (fun _ => s) None t.
Definition assigned (s : assignment) : Prop := forall x, data (s x).
(** Agreement but for generated variables. *)
Definition alike (s s' : assignment) : Prop := forall x, user x -> s' x = s x.

Lemma ev_list (s : valuation) u t : ev s u t = evs (s u) t.
Proof.
  unfold evs. revert t. fix IH 1. intros [| | | | | |l|kvs| | | | |]; try reflexivity; simpl; f_equal.
  - induction l as [|t l IHl]; simpl; [reflexivity|]. rewrite (IH t), IHl. reflexivity.
  - induction kvs as [|[k t] l IHl]; simpl; [reflexivity|]. rewrite (IH t), IHl. reflexivity.
Qed.

Lemma evs_alike s s' t : alike s s' -> pat t -> (forall x, x ∈ pvars t -> user x) -> evs s' t = evs s t.
Proof.
  intros H. unfold evs. induction 1 as [x|v Hs _|l _ _ IH|kvs _ _ _ IH|l _] using pat_induction; intros Hu.
  - apply H, Hu. cbn [vars_of]. by apply elem_of_singleton.
  - by rewrite !ev_const by (by left).
  - simpl. f_equal. apply map_ext_in. intros x Hx%list_elem_of_In. rewrite Forall_forall in IH. apply IH; [done|].
    intros y Hy. apply Hu. by eapply vars_array.
  - simpl. f_equal. apply map_ext_in. intros kv Hx%list_elem_of_In. rewrite Forall_forall in IH. f_equal. apply IH; [done|].
    intros y Hy. apply Hu. by eapply vars_object.
  - done.
Qed.

Lemma evs_data s t : pat t -> assigned s -> data (evs s t).
Proof.
  intros P A. unfold evs. induction P as [x|v Hs T|l L _ IH|kvs S Dk _ IH|l Dl] using pat_induction.
  - apply A.
  - rewrite ev_const by (by left). by apply data_scalar.
  - simpl. apply data_array; [by rewrite length_map|by apply List.Forall_map].
  - simpl. apply data_object; [|by apply List.Forall_map|by apply List.Forall_map]. eapply sorted_map_fst; [|exact S]. by rewrite map_map.
  - done.
Qed.

(** The variables of an operand, of an expression and of a query, outside the closures
    in them. *)
Definition head_vars (h : string) : gset string := if String.eqb h "data" || String.eqb h "input" then ∅ else {[h]}.
Definition tvars (t : value) : gset string :=
  match t with
  | Ref (Var h :: path) => head_vars h ∪ ⋃ (map pvars path)
  | SetComprehension _ _ => ∅
  | _ => pvars t
  end.
Definition xvars (x : expr) : gset string :=
  let 'Expr ts _ _ negated := x in
  if negated then ∅
  else match ts with TTerms (_ :: args) => ⋃ (map tvars args) | TTerm t => tvars t | _ => ∅ end.
Definition qvars (q : list expr) : gset string := ⋃ (map xvars q).

(** The query that a negated expression evaluates, and the one that enumerates the domain
    of [every]. *)
Definition negation (x : expr) : expr := set_index 0 (NoWith (Complement x)).
Definition generator (key val domain : value) : list expr :=
  [Expr (TTerms [Ref [Var "eq"]; Ref [domain; key]; val]) [] 0 false].

(** ** Satisfaction *)
Section Meaning.
Context (builtinFunc : list value -> option Builtin) (input : option value).
(** The documents under [data]: the value at a path. *)
Context (docs : list value -> value -> Prop).

(** Agreement on the variables in scope. *)
Definition agree (O : gset string) (s s' : assignment) : Prop := forall x, x ∈ O -> Equal (s x) (s' x) = true.

(** The value of a reference with these keys. *)
Definition ref_value (s : assignment) (h : string) (keys : list value) (v : value) : Prop :=
  if String.eqb h "data" then docs keys v
  else if String.eqb h "input" then exists doc, input = Some doc /\ lookups doc keys v
  else lookups (s h) keys v.

(** A call is satisfied by one of the outputs of the function: whatever it is when the
    function has no result, when it is not false, or when it equals the last term. *)
Definition sat_call (s : assignment) (ref : list value) (args : list value) : Prop :=
  exists bi o, builtinFunc ref = Some bi /\ o ∈ (bi_func bi (map (evs s) (take (bi_args bi) args))).1 /\
  if bi_result bi then
    if (length args =? bi_args bi)%nat then is_false o = false
    else exists last, args !! bi_args bi = Some last /\ Equal (evs s last) o = true
  else True.

(** [inner] is satisfaction of the expressions of a closure. *)
Section Level.
Context (inner : gset string -> assignment -> expr -> Prop).

(** The solutions of the body of a closure that extend an assignment; [O] are the
    variables in scope outside. *)
Definition solution (O : gset string) (s : assignment) (body : list expr) (s' : assignment) : Prop :=
  assigned s' /\ agree O s s' /\ Forall (inner (O ∪ qvars body) s') body.

Definition tval (O : gset string) (s : assignment) (t v : value) : Prop :=
  match t with
  | Ref (Var h :: path) => ref_value s h (map (evs s) path) v
  | Ref _ => False
  | SetComprehension t body => data v /\ exists l, v = SetV l /\
      forall w, data w -> set_mem w l = true <-> exists s', solution O s body s' /\ Equal w (evs s' t) = true
  | _ => v = evs s t
  end.

Definition sat_at (O : gset string) (s : assignment) (x : expr) : Prop :=
  let 'Expr ts _ _ negated := x in
  if negated then ~ exists s', solution O s [negation x] s'
  else
    match ts with
    | TTerms l =>
        if IsEquality l then
          match l with
          | [_; a; b] => exists va vb, tval O s a va /\ tval O s b vb /\ Equal va vb = true
          | _ => False
          end
        else match l with Ref ref :: args => sat_call s ref args | _ => False end
    | TTerm t => exists v, tval O s t v /\ is_false v = false
    | TEvery (Some key) val domain body =>
        forall s', solution O s (generator key val domain) s' ->
          exists s2, solution (O ∪ qvars (generator key val domain)) s' body s2
    | _ => False
    end.
End Level.

(** Closures are nested less than [n] deep. *)
Fixpoint sat (n : nat) : gset string -> assignment -> expr -> Prop :=
  match n with O => fun _ _ _ => False | S n => sat_at (sat n) end.
End Meaning.

(** ** The queries considered

    Variables are bound before they are used, as the safety check of the compiler
    arranges; there are no calls of functions of the policy and no [with] modifiers.  [D] bounds the nesting of the values of variables, [M] that of
    the outputs of built-in functions, and [N] that of all values. *)
Section Considered.
Context (builtinFunc : list value -> option Builtin) (input : option value).
(** The paths under [data] that may be used, and the nesting of the values there. *)
Context (docs_ok : list value -> nat -> Prop).
Context (N M : nat) (D : string -> nat).

(** The nesting of a term is at most [n], given that of its variables. *)
Fixpoint fits (n : nat) (t : value) : Prop :=
  match t with
  | Var x => (D x <= n)%nat
  | _ =>
      match n with
      | O => match t with Array _ | Object _ | SetV _ => False | _ => True end
      | S n =>
          match t with
          | Array l => Forall (fits n) l
          | SetV l => Forall (bounded n) l
          | Object kvs => Forall (fun kv => fits n kv.2) kvs /\ Forall (fun kv => bounded n kv.1) kvs
          | _ => True
          end
      end
  end.

Definition pattern_ok (t : value) : Prop := pat t /\ bounded N t /\ forall x, x ∈ pvars t -> user x.

(** A pattern that is matched with a value of nesting [d], where [B] is bound. *)
Definition accepts (B : gset string) (t : value) (d : nat) : Prop :=
  pattern_ok t /\ forall x, x ∈ pvars t -> x ∈ B \/ (d <= D x)%nat.

Definition root_ok (B : gset string) (h : string) (path : list value) (d : nat) : Prop :=
  if String.eqb h "data" then docs_ok path d
  else if String.eqb h "input" then forall doc, input = Some doc -> data doc /\ bounded d doc
  else user h /\ h ∈ B /\ (D h <= d)%nat.

(** [inner] is the condition on the bodies of closures. *)
Section Level.
Context (inner : gset string -> gset string -> list expr -> Prop).

(** The variables of a closure that are in scope outside are bound. *)
Definition closure_ok (B O : gset string) (body : list expr) : Prop :=
  (forall x, x ∈ qvars body -> user x /\ (x ∈ O -> x ∈ B)) /\ inner B (O ∪ qvars body) body.

(** A term whose values are known, and of nesting [d]. *)
Definition known (B O : gset string) (t : value) (d : nat) : Prop :=
  match t with
  | Ref (Var h :: path) => root_ok B h path d /\ Forall (fun k => accepts B k d) path
  | Ref _ => False
  | SetComprehension t body => closure_ok B O body /\ pattern_ok t /\ pvars t ⊆ B ∪ qvars body /\
      exists d', d = S d' /\ fits d' t
  | _ => pattern_ok t /\ pvars t ⊆ B /\ fits d t
  end.

Definition call_ok (B : gset string) (ref args : list value) : Prop :=
  exists bi, builtinFunc ref = Some bi /\
    Forall (fun t => pattern_ok t /\ pvars t ⊆ B /\ fits N t) (take (bi_args bi) args) /\
    (length args = bi_args bi \/ bi_result bi = true /\ exists last, length args = S (bi_args bi) /\ args !! bi_args bi = Some last /\ accepts B last M).

Definition expr_ok (B O : gset string) (x : expr) : Prop :=
  let 'Expr ts withs _ negated := x in
  withs = [] /\
  if negated then closure_ok B O [negation x]
  else
    match ts with
    | TTerms l =>
        if IsEquality l then
          match l with
          | [_; a; b] => exists d, (d <= N)%nat /\
              (known B O a d /\ accepts B b d \/ accepts B a d /\ known B O b d \/
               known B O a d /\ known B O b d /\ is_ref a = true /\ is_ref b = true)
          | _ => False
          end
        else match l with Ref ((head :: _) as ref) :: args => Equal head (Var "data") = false /\ call_ok B ref args | _ => False end
    | TTerm t => exists d, (d <= N)%nat /\ known B O t d
    | TEvery (Some key) val domain body =>
        let gen := generator key val domain in
        closure_ok B O gen /\ closure_ok (B ∪ qvars gen) (O ∪ qvars gen) body
    | _ => False
    end.

Fixpoint query_at (B O : gset string) (q : list expr) : Prop :=
  match q with [] => True | x :: q => expr_ok B O x /\ query_at (B ∪ xvars x) O q end.
End Level.

Fixpoint query_ok (n : nat) : gset string -> gset string -> list expr -> Prop :=
  match n with O => fun _ _ _ => False | S n => query_at (query_ok n) end.
End Considered.

(** Built-in functions are functions of the values of their operands: they look at as
    many as they declare, have values as outputs, and do not halt evaluation. *)
Record builtins_ok (builtinFunc : list value -> option Builtin) (N M : nat) : Prop := {
  bo_args : forall ref bi args, builtinFunc ref = Some bi -> bi_func bi args = bi_func bi (take (bi_args bi) args);
  bo_outputs : forall ref bi args, builtinFunc ref = Some bi -> Forall data args -> Forall (bounded N) args ->
    Forall (fun o => data o /\ bounded M o) (bi_func bi args).1;
  bo_halts : forall ref bi args err, builtinFunc ref = Some bi -> Forall data args -> (bi_func bi args).2 <> Some (Halts err);
  bo_congr : forall ref bi args args', builtinFunc ref = Some bi -> Forall data args -> Forall data args' ->
    Forall2 (fun a b => Equal a b = true) args args' -> Forall2 (fun a b => Equal a b = true) (bi_func bi args).1 (bi_func bi args').1;
}.

(** What is needed of the documents. *)
Record documents (docs : list value -> value -> Prop) (docs_ok : list value -> nat -> Prop) : Prop := {
  dm_congr : forall ks ks' v, Forall2 (fun k k' => Equal k k' = true) ks ks' -> docs ks v -> exists v', docs ks' v' /\ Equal v v' = true;
  dm_data : forall ks v, Forall data ks -> docs ks v -> data v;
  dm_bounded : forall path d V u ks v, docs_ok path d -> Forall2 (gv V u) path ks -> docs ks v -> Forall (bounded d) ks /\ bounded d v;
}.

(** ** Fuel *)
Fixpoint cost (n : nat) (q : list expr) : nat :=
  match n with
  | O => 0
  | S n =>
      let term t := match t with SetComprehension _ body => cost n body | _ => 0%nat end in
      sum_list_with (fun x =>
        let 'Expr ts _ _ negated := x in
        4 + if negated then cost n [negation x]
        else
          match ts with
          | TTerms ts => sum_list_with term ts
          | TTerm t => term t
          | TEvery (Some key) val domain body => cost n (generator key val domain) + cost n body
          | _ => 0
          end)%nat q
  end.

(** ** Assignments that differ at generated variables *)
Section Near.
Context (builtinFunc : list value -> option Builtin) (input : option value) (docs : list value -> value -> Prop).
Context (docs_ok : list value -> nat -> Prop) (N M : nat) (D : string -> nat) (okq : gset string -> gset string -> list expr -> Prop).
Context (inner : gset string -> assignment -> expr -> Prop).
Context (B O : gset string) (HO : forall x, x ∈ O -> user x).
Implicit Types s : assignment.

Abbreviation known := (known input docs_ok N D okq B O).
Abbreviation accepts := (accepts N D B).
Abbreviation tval := (tval input docs inner O).

(** A term that is known, or a pattern. *)
Definition operand (t : value) (d : nat) : Prop := known t d \/ accepts t d.

Lemma operand_cases t d : operand t d -> (pattern_ok N t /\ tvars t = pvars t /\ forall s v, tval s t v <-> v = evs s t) \/
  (exists h path, t = Ref (Var h :: path) /\ root_ok input docs_ok D B h path d /\ Forall (fun k => accepts k d) path) \/
  exists t' body, t = SetComprehension t' body /\ known t d.
Proof.
  intros [K|[P A]].
  - destruct t as [| | | | |l| | | | |t body| |]; try (left; split; [apply K|done]); [|].
    + right; left. destruct l as [|[] path]; try done. eexists _, _. split; [done|apply K].
    + right; right. by eexists _, _.
  - left. split; [done|]. destruct P as [P _]. inversion P; subst; try done. by destruct t.
Qed.

Lemma head_user h path d x : root_ok input docs_ok D B h path d -> x ∈ head_vars h -> x = h /\ user h /\ h ∈ B /\ (D h <= d)%nat.
Proof.
  unfold head_vars, root_ok. intros R Hx. destruct (String.eqb h "data"); simpl in Hx; [by apply elem_of_empty in Hx|].
  destruct (String.eqb h "input"); [by apply elem_of_empty in Hx|]. by apply elem_of_singleton in Hx as ->.
Qed.

Lemma operand_user t d x : operand t d -> x ∈ tvars t -> user x.
Proof.
  intros [(P & -> & _)|[(h & path & -> & R & F)|(t' & body & -> & _)]]%operand_cases Hx; [by apply P| |by apply elem_of_empty in Hx].
  simpl in Hx. apply elem_of_union in Hx as [Hx|Hx].
  - by destruct (head_user h path d x R Hx) as (-> & ? & _).
  - apply elem_of_union_list in Hx as (X & (k & -> & Hk)%list_elem_of_fmap & Hx). rewrite Forall_forall in F. by apply (F k Hk).
Qed.

Lemma solution_same s s' body s2 : alike s s' -> solution inner O s body s2 <-> solution inner O s' body s2.
Proof.
  intros H. unfold solution, agree. split; intros (A & G & F); (split; [done|]); (split; [|done]); intros x Hx; [rewrite H|rewrite <- H]; auto.
Qed.

Lemma tval_alike s s' t v d : operand t d -> alike s s' -> tval s t v -> tval s' t v.
Proof.
  intros Op Hn. pose proof (operand_cases t d Op) as [(P & _ & E)|[(h & path & -> & R & F)|(t' & body & -> & K)]].
  - rewrite !E. intros ->. symmetry. apply evs_alike; [exact Hn|apply P|apply P].
  - cbn [EvalSem.tval]. replace (map (evs s') path) with (map (evs s) path).
    + unfold ref_value, root_ok in *. destruct (String.eqb h "data"); [done|]. destruct (String.eqb h "input"); [done|]. by rewrite (Hn h) by apply R.
    + apply map_ext_in. intros k Hk%list_elem_of_In. rewrite Forall_forall in F. destruct (F k Hk) as [(P & _ & Hu) _]. symmetry. by apply evs_alike.
  - intros (Dv & l & -> & H). split; [done|]. exists l. split; [done|]. intros w Dw. rewrite (H w Dw).
    split; intros (s2 & S2 & Q); exists s2; (split; [|done]); by apply (solution_same s s').
Qed.

Lemma sat_alike s s' x : expr_ok builtinFunc input docs_ok N M D okq B O x -> alike s s' ->
  sat_at builtinFunc input docs inner O s x -> sat_at builtinFunc input docs inner O s' x.
Proof.
  intros Ok Hn H. assert (Hs : forall body s2, solution inner O s body s2 <-> solution inner O s' body s2) by (intros; by apply solution_same).
  destruct x as [ts withs i []], Ok as [_ Ok]; cbn [sat_at] in *.
  - intros [s2 S2]. destruct H. exists s2. by apply Hs.
  - destruct ts as [t|l|l|key val domain body].
    + destruct Ok as (d & _ & K). destruct H as (v & T & Fv). exists v. split; [|done]. eapply tval_alike; [by left|done|done].
    + destruct (IsEquality l).
      * destruct l as [|? [|a [|b []]]]; try done. destruct H as (va & vb & Ta & Tb & Q). destruct Ok as (d & _ & K).
        assert (Oa : operand a d) by (unfold operand; tauto). assert (Ob : operand b d) by (unfold operand; tauto).
        exists va, vb. split_ands; [by eapply tval_alike|by eapply tval_alike|done].
      * destruct l as [|[| | | | |ref| | | | | | |] args]; try done. destruct ref as [|head ref]; [done|].
        destruct Ok as (_ & bi & Hbi & Fa & L). destruct H as (bi' & o & Hbi' & Ho & Hr). rewrite Hbi in Hbi'. injection Hbi' as <-.
        exists bi, o. split; [done|]. split.
        -- erewrite map_ext_in; [exact Ho|]. intros t Ht%list_elem_of_In. rewrite Forall_forall in Fa. destruct (Fa t Ht) as [(P & _ & Hu) _]. by apply evs_alike.
        -- destruct (bi_result bi); [|done]. destruct (length args =? bi_args bi)%nat eqn:El; [done|].
           destruct L as [L|(_ & last & _ & Hl & (P & _ & Hu) & _)]; [by rewrite L, Nat.eqb_refl in El|].
           destruct Hr as (last' & Hl' & Q). rewrite Hl in Hl'. injection Hl' as <-. exists last. split; [done|].
           rewrite (evs_alike s s') by done. done.
    + done.
    + destruct key as [key|]; [|done]. intros s2 S2. destruct (H s2) as [s3 S3]; [by apply Hs|]. by exists s3.
Qed.
End Near.
