(* ===== verification/EvalDocs.v ===== *)
(** The documents that the rules of a policy define: what a reference to [data] means,
    and the policies that the theorem on the evaluator is about. *)
From Stdlib Require Import ZArith Lia String.
From stdpp Require Import base gmap list strings pretty.
From S2P Require Import Prelude SortedKeys Value Containers SetTable ObjectTable RefOps Builtins Document VarVisitor Safety Index IndexBody EvalCache RuleTree Bindings.
From S2P Require Import Unify UnifySound UnifyTotal EvalGround Eval EvalRefs EvalTerms EvalSem EvalRules EvalPolicy.

(** ** Paths *)

(** The path of the rules that a reference meets first, and the rest of the reference. *)
Fixpoint walk_tree (n : TreeNode) (pre keys : list value) : option (list value * list value) :=
  match keys with
  | Str s :: keys =>
      c ← Child n (Str s);
      match Values c with [] => walk_tree c (pre ++ [Str s]) keys | _ => Some (pre ++ [Str s], keys) end
  | _ => None
  end.
Definition doc_split (tree : TreeNode) (keys : list value) : option (list value * list value) :=
  n ← Child tree (Var "data"); walk_tree n [Var "data"] keys.

(** Keys that are told apart by their text. *)
Definition plain_key (k : value) : Prop := match k with Var _ | Str _ => True | _ => False end.

Lemma walk_tree_rel (R : value -> value -> Prop) : (forall s k, R (Str s) k -> k = Str s) -> forall keys n pre keys' p rest,
  Forall2 R keys keys' -> walk_tree n pre keys = Some (p, rest) -> exists rest', walk_tree n pre keys' = Some (p, rest') /\ Forall2 R rest rest'.
Proof.
  intros HR. induction keys as [|k keys IH]; intros n pre keys' p rest F H; [done|]. inversion F as [|? k' ? ks' Hk F']; subst.
  destruct k as [| | |s| | | | | | | | |]; try done. rewrite (HR s k' Hk). cbn [walk_tree] in *. destruct (Child n (Str s)) as [c|]; [|done]. simpl in *.
  destruct (Values c) as [|r rs]; [by apply (IH c (pre ++ [Str s]))|]. injection H as <- <-. by exists ks'.
Qed.
Lemma doc_split_rel tree (R : value -> value -> Prop) keys keys' p rest : (forall s k, R (Str s) k -> k = Str s) -> Forall2 R keys keys' ->
  doc_split tree keys = Some (p, rest) -> exists rest', doc_split tree keys' = Some (p, rest') /\ Forall2 R rest rest'.
Proof. unfold doc_split. intros HR F H. destruct (Child tree (Var "data")); [|done]. simpl in *. by eapply walk_tree_rel. Qed.

Lemma walk_tree_path keys : forall n pre p rest, walk_tree n pre keys = Some (p, rest) -> exists l, p = pre ++ map Str l /\ keys = map Str l ++ rest.
Proof.
  induction keys as [|k keys IH]; intros n pre p rest H; [done|]. destruct k as [| | |s| | | | | | | | |]; try done. cbn [walk_tree] in H.
  destruct (Child n (Str s)) as [c|]; [|done]. simpl in H. destruct (Values c) as [|r rs].
  - destruct (IH c (pre ++ [Str s]) p rest H) as (l & -> & ->). exists (s :: l). split; [by rewrite <- (assoc_L (++))|done].
  - injection H as <- <-. by exists [s].
Qed.
Lemma doc_split_path tree keys p rest : doc_split tree keys = Some (p, rest) -> exists l, p = Var "data" :: map Str l /\ keys = map Str l ++ rest.
Proof. unfold doc_split. destruct (Child tree (Var "data")) as [n|]; [|done]. simpl. by intros (l & -> & ->)%walk_tree_path; exists l. Qed.
Lemma plain_path l : Forall plain_key (Var "data" :: map Str l).
Proof. constructor; [done|]. by induction l; constructor. Qed.

Lemma Str_Equal s k : Equal (Str s) k = true -> k = Str s.
Proof.
  intros E. pose proof (Equal_sortOrder _ _ E) as O. destruct k; try done. apply Equal_true in E. rewrite Compare_unfold in E. simpl in E.
  apply string_compare_eq in E. by subst.
Qed.
Lemma gv_Str V u s k : gv V u (Str s) k -> k = Str s.
Proof. intros G. by inversion G. Qed.

(** ** The meaning of rules *)
Definition default_rule (chains : list (list rule)) : option rule := last (List.filter r_default (concat chains)).

Section Meaning.
Context (builtinFunc : list value -> option Builtin) (input : option value) (tree : TreeNode).
(** The rules at a path, each with its chain of [else] rules; closures in them are nested less
    than [n0] deep. *)
Context (rules_at : list value -> option (list (list rule))) (n0 : nat).
(** The values of the rules at a path. *)
Context (J : list value -> value -> Prop).

Definition docs (keys : list value) (v : value) : Prop :=
  exists pre rest w, doc_split tree keys = Some (pre, rest) /\ J pre w /\ lookups w rest v.

Definition sat_body (r : rule) (s : assignment) : Prop :=
  assigned s /\ Forall (sat builtinFunc input docs n0 (qvars (r_body r)) s) (r_body r).
Definition rule_value (r : rule) (w : value) : Prop :=
  exists head s, r_value r = Some head /\ sat_body r s /\ Equal w (evs s head) = true.
(** The first rule of a chain whose body holds gives its values. *)
Fixpoint chain_value (ch : list rule) (w : value) : Prop :=
  match ch with
  | [] => False
  | r :: ch => rule_value r w \/ (~ exists s, sat_body r s) /\ chain_value ch w
  end.
Definition some_chain (chains : list (list rule)) (w : value) : Prop :=
  exists ch, ch ∈ chains /\ chain_value (List.filter (fun r => negb (r_default r)) ch) w.
(** The default rule counts when the others have no value. *)
Definition doc_value (chains : list (list rule)) (w : value) : Prop :=
  some_chain chains w \/ (~ exists w, some_chain chains w) /\ exists r, default_rule chains = Some r /\ rule_value r w.

(** The documents are those of the rules, and no two rules give different values. *)
Record model : Prop := {
  md_iff : forall pre chains w, rules_at pre = Some chains -> J pre w <-> data w /\ doc_value chains w;
  md_data : forall pre w, J pre w -> data w;
  md_fun : forall pre w w', J pre w -> J pre w' -> Equal w w' = true;
}.
End Meaning.

(** ** What the caches hold *)
Section Caches.
Context (J : list value -> value -> Prop).

(** The entry of a path is right, and nothing is replaced. *)
Definition entry_ok (e : VirtualCache.elem) (pre : list value) : Prop :=
  (forall v, VirtualCache.value_of e = Some v -> J pre v) /\ (VirtualCache.undefined e = true -> forall w, ~ J pre w).
Definition caches_ok (sh : shared) : Prop :=
  (exists t rest, virtualCache sh = t :: rest /\ forall pre, Forall plain_key pre -> entry_ok (entry Equal (VirtualCache.MkElem None false) pre t) pre) /\
  targetStack sh = [] /\ functionMocks sh = [[]].

Lemma plain_refs a b : Forall plain_key a -> Forall plain_key b -> same_refs Equal a b = true -> a = b.
Proof.
  intros Fa. revert b. induction Fa as [|x a Px Fa IH]; intros [|y b] Fb E; try done. cbn [same_refs] in E. apply andb_true_iff in E as [E1 E2].
  apply Forall_cons in Fb as [Py Fb]. f_equal; [|by apply IH]. apply Equal_true in E1. rewrite Compare_unfold in E1.
  destruct x, y; try done; simpl in E1; apply string_compare_eq in E1; by subst.
Qed.

Lemma new_caches_ok : caches_ok newShared.
Proof.
  split; [|done]. eexists _, []. split; [done|]. intros pre _. rewrite (VirtualSpec.new_repr pre). by split.
Qed.

Lemma cached_ok sh pre : caches_ok sh -> Forall plain_key pre -> exists hit undefined, VirtualCache.Get (virtualCache sh) pre = Some (hit, undefined) /\
  (undefined = true -> forall w, ~ J pre w) /\ (forall v, hit = Some v -> J pre v).
Proof.
  intros ((t & rest & -> & H) & _) P. destruct (H pre P) as [H1 H2]. unfold entry in *. cbn [VirtualCache.Get].
  destruct (node_at Equal pre t) as [n|]; [|by eexists _, _]. unfold VirtualCache.result. destruct (VirtualCache.undefined (content n)) eqn:Eu.
  - eexists _, _. split; [done|]. by split.
  - eexists _, _. split; [done|]. by split.
Qed.

Lemma put_caches_ok sh pre v : caches_ok sh -> Forall plain_key pre -> (forall w, v = Some w -> J pre w) -> (v = None -> forall w, ~ J pre w) ->
  exists vc, VirtualCache.Put (virtualCache sh) pre v = Some vc /\ caches_ok (MkShared vc (baseCache sh) (targetStack sh) (functionMocks sh)).
Proof.
  intros ((t & rest & -> & H) & Ht & Hm) P Hv Hn. eexists. split; [done|]. split; [|done]. eexists _, rest. split; [done|].
  intros ref Pr. rewrite (VirtualSpec.put_repr t (fun ref => entry Equal (VirtualCache.MkElem None false) ref t) pre v (fun _ => eq_refl) ref).
  unfold VirtualSpec.put. destruct (same_refs Equal pre ref) eqn:E; [|by apply H]. rewrite <- (plain_refs pre ref P Pr E). destruct (H pre P) as [H1 H2].
  destruct v as [v|]; split; simpl; auto.
Qed.
End Caches.

(** ** The policies considered *)
Section Considered.
Context (builtinFunc : list value -> option Builtin) (pol : policy) (cx : context).
Context (rules_at : list value -> option (list (list rule))) (n0 : nat) (J : list value -> value -> Prop) (N M : nat).
Abbreviation docs := (docs (ruleTree pol) J).
Abbreviation chain_value := (chain_value builtinFunc (input cx) (ruleTree pol) n0 J).
Abbreviation some_chain := (some_chain builtinFunc (input cx) (ruleTree pol) n0 J).

(** The rules that are evaluated: a rule and its chain. *)
Definition chains_of (ir : IndexResult) : list (list rule) := map (fun r => r :: else_rules r (ir_else ir)) (ir_rules ir).

(** A lookup may leave out rules that have no value. *)
Record indexes (chains : list (list rule)) (ir : IndexResult) : Prop := {
  ix_single : ir_kind ir = SingleValue;
  ix_ground : ir_onlyGroundRefs ir = true;
  ix_default : ir_default ir = default_rule chains;
  ix_rules : forall c r, c ∈ chains_of ir -> r ∈ c -> r ∈ concat chains;
  ix_values : forall w, (exists c, c ∈ chains_of ir /\ chain_value c w) <-> some_chain chains w;
}.
Definition lookup_ok (pre : list value) (chains : list (list rule)) : Prop := forall fuel e st, context_of e = cx -> caches_ok J (common (us_env st)) ->
  exists ir, getRules pol fuel e pre [] st = Some (Ok (Some ir)) /\ indexes chains ir.

(** The index of a path is built from its rules; its references are those of equalities in
    the rules, in some order.  Rules are told apart by their identity. *)
Definition index_ok (pre : list value) (chains : list (list rule)) : Prop :=
  NoDup (map r_id (concat chains)) /\ Forall (fun r => r_ground r = true /\ glob_free r = true) (concat chains) /\
  let isVirtual := virtual_prefix (ruleTree pol) in
  exists sorted ix, RuleIndex pol pre = Some ix /\ Build isVirtual sorted chains = Some ix /\
    sorted ≡ₚ map fst (frequency (build_indices isVirtual chains)).

(** A complete rule whose body may refer to the documents in [ok]. *)
Definition rule_ok (ok : list value -> nat -> Prop) (r : rule) : Prop := exists D head, r_value r = Some head /\ r_args r = [] /\
  query_ok builtinFunc (input cx) ok N M D n0 ∅ (qvars (r_body r)) (r_body r) /\ (forall x, x ∈ qvars (r_body r) -> user x) /\
  pattern_ok N head /\ pvars head ⊆ qvars (r_body r).

(** Rules refer only to rules of lower rank. *)
Fixpoint docs_ok (rank : nat) : list value -> nat -> Prop :=
  match rank with
  | O => fun _ _ => False
  | S rank => fun path d => exists pre rest chains, doc_split (ruleTree pol) path = Some (pre, rest) /\ rules_at pre = Some chains /\
      index_ok pre chains /\ Forall (rule_ok (docs_ok rank)) (concat chains) /\ forall w, J pre w -> bounded d w
  end.

Lemma docs_documents rank : model builtinFunc (input cx) (ruleTree pol) rules_at n0 J -> documents docs (docs_ok rank).
Proof.
  intros Md. split.
  - intros ks ks' v F (pre & rest & w & Es & Hw & L).
    destruct (doc_split_rel _ _ ks ks' pre rest (fun s k => Str_Equal s k) F Es) as (rest' & Es' & F').
    destruct (lookups_congr rest w w rest' v (Equal_refl _) F' L) as (v' & L' & Ev). exists v'. split; [|done]. by exists pre, rest', w.
  - intros ks v Dk (pre & rest & w & Es & Hw & L). destruct (doc_split_path _ _ _ _ Es) as (l & _ & ->). apply Forall_app in Dk as [_ Dk].
    eapply lookups_data; [by eapply (md_data _ _ _ _ _ _ Md)|exact Dk|exact L].
  - intros path d V u ks v Ok Fk (pre & rest & w & Es & Hw & L). destruct rank as [|rank]; [done|].
    destruct Ok as (pre' & rest' & chains & Ep & _ & _ & _ & Hb).
    destruct (doc_split_rel _ _ path ks pre' rest' (fun s k => gv_Str V u s k) Fk Ep) as (rest2 & Es' & F'). rewrite Es in Es'. injection Es' as <- <-.
    destruct (lookups_keys_bounded d rest w v (Hb w Hw) L) as [Fr Bv]. split; [|done].
    destruct (doc_split_path _ _ _ _ Es) as (l & -> & ->). apply Forall_app. split; [|done].
    apply Forall_forall. intros k (x & -> & _)%list_elem_of_fmap. by destruct d.
Qed.
End Considered.

(** The index that the compiler makes of the rules of a path. *)
Lemma compile_index_ok sorted else_of mods base indexing earlyExit number_text path chains : let tree := NewRuleTree mods in
  chains_at else_of tree path = Some chains -> is_Some (find_index sorted else_of tree path) ->
  sorted path ≡ₚ map fst (frequency (build_indices (virtual_prefix tree) chains)) ->
  NoDup (map r_id (concat chains)) -> Forall (fun r => r_ground r = true /\ glob_free r = true) (concat chains) ->
  index_ok (compile sorted else_of mods base indexing earlyExit number_text) path chains.
Proof.
  intros tree Hc [ix Hi] Hs Nd Hg. split; [done|]. split; [done|]. exists (sorted path), ix. split_ands; [exact Hi| |exact Hs].
  unfold find_index in Hi. by rewrite Hc in Hi.
Qed.
