(* ===== verification/EvalIndex.v ===== *)
(** The rules that an index returns against the meaning of the rules: what a lookup leaves
    out has no value, and the chains of [else] rules keep their order. *)
From Stdlib Require Import ZArith Lia String Sorted.
From stdpp Require Import base gmap list strings pretty.
From S2P Require Import Prelude SortedKeys Value Containers SetTable ObjectTable RefOps Builtins Document VarVisitor Safety.
From S2P Require Import Index IndexSound IndexRules IndexBody EvalCache RuleTree Bindings.
From S2P Require Import Unify UnifySound UnifyTotal EvalGround Eval EvalRefs EvalTerms EvalSem EvalRules EvalPolicy EvalDocs.

(** ** Positions in chains *)
Lemma map_snd_combine_seq {A} (l : list A) s : map snd (combine (seq s (length l)) l) = l.
Proof. revert s. induction l as [|x l IH]; intros s; simpl; [done|]. by rewrite IH. Qed.
Lemma all_nodes_rules rules : map rn_rule (all_nodes rules) = nondefault (concat rules).
Proof.
  unfold all_nodes. generalize 0%nat. induction rules as [|c rules IH]; intros s; [done|]. simpl. unfold nondefault. rewrite map_app, IH, List.filter_app. f_equal.
  unfold chain_nodes. rewrite map_map. apply map_snd_combine_seq.
Qed.

(** Rules with different identities are at one position. *)
Lemma node_inj rules rn rn' : NoDup (map r_id (concat rules)) -> rn ∈ all_nodes rules -> rn' ∈ all_nodes rules ->
  r_id (rn_rule rn) = r_id (rn_rule rn') -> rn = rn'.
Proof.
  intros Nd. apply (NoDup_map_inj (fun rn => r_id (rn_rule rn))). rewrite <- (map_map rn_rule r_id), all_nodes_rules. unfold nondefault.
  clear rn rn'. induction (concat rules) as [|r l IH]; [done|]. simpl in *. apply NoDup_cons in Nd as [Hr Nd].
  destruct (negb (r_default r)); simpl; [|by apply IH]. apply NoDup_cons. split; [|by apply IH]. intros (x & E & Hx)%list_elem_of_fmap.
  apply Hr. rewrite E. apply list_elem_of_fmap_2. apply list_elem_of_In, filter_In in Hx as [Hx _]. by apply list_elem_of_In.
Qed.

(** ** The values of a chain *)
Section Chains.
Context (builtinFunc : list value -> option Builtin) (doc : option value) (tree : TreeNode) (n0 : nat) (J : list value -> value -> Prop).
Abbreviation holds r := (exists s, sat_body builtinFunc doc tree n0 J r s).
Abbreviation rule_value := (rule_value builtinFunc doc tree n0 J).
Abbreviation chain_value := (chain_value builtinFunc doc tree n0 J).
Abbreviation some_chain := (some_chain builtinFunc doc tree n0 J).

Lemma chain_value_at ch w : chain_value ch w <-> exists i r, ch !! i = Some r /\ rule_value r w /\ forall j r', (j < i)%nat -> ch !! j = Some r' -> ~ holds r'.
Proof.
  induction ch as [|r ch IH]; simpl; [split; [done|by intros (i & r & ? & _)]|]. rewrite IH. split.
  - intros [H|[Hn (i & r' & Hi & Hv & H)]]; [exists 0%nat, r; split_ands; [done|done|lia]|]. exists (S i), r'. split_ands; [done|done|].
    intros [|j] r2 Hj; simpl; [by intros [= <-]|]. apply H. lia.
  - intros ([|i] & r' & Hi & Hv & H); simpl in Hi; [injection Hi as ->; by left|]. right. split; [apply (H 0%nat r); [lia|done]|].
    exists i, r'. split_ands; [done|done|]. intros j r2 Hj. apply (H (S j) r2). lia.
Qed.

Lemma chain_value_nodes rns w : Sorted (fun a b => rn_prio a <= rn_prio b)%nat rns ->
  (forall a b, a ∈ rns -> b ∈ rns -> rn_prio a = rn_prio b -> rn_rule a = rn_rule b) ->
  chain_value (map rn_rule rns) w <-> exists rn, rn ∈ rns /\ rule_value (rn_rule rn) w /\ forall rn', rn' ∈ rns -> (rn_prio rn' < rn_prio rn)%nat -> ~ holds (rn_rule rn').
Proof.
  intros S%Sorted_StronglySorted; [|intros a b c; lia]. induction S as [|h rns S IH Hh]; intros Inj; simpl.
  { split; [done|by intros (rn & ?%elem_of_nil & _)]. }
  rewrite Forall_forall in Hh. rewrite IH by (intros a b Ha Hb; apply Inj; by right). split.
  - intros [H|[Hn (rn & Hrn & Hv & H)]]; [exists h|exists rn]; (split; [|split; [done|]]); [by left| |by right|].
    + intros rn' [->|Hr]%elem_of_cons Hlt; [lia|]. specialize (Hh rn' Hr). lia.
    + intros rn' [->|Hr]%elem_of_cons Hlt; [done|by apply H].
  - intros (rn & Hrn & Hv & H). destruct (decide (rn_prio rn = rn_prio h)) as [E|E].
    + left. rewrite <- (Inj rn h Hrn ltac:(by left) E). done.
    + apply elem_of_cons in Hrn as [->|Hrn]; [done|]. right. split; [apply H; [by left|specialize (Hh rn Hrn); lia]|].
      exists rn. split_ands; [done|done|]. intros rn' Hr. apply H. by right.
Qed.
End Chains.

(** ** The chains of a result *)
Definition elses (g : list rule) : list (rule * list rule) := match g with r :: (_ :: _) as rest => [(r, rest)] | _ => [] end.
Definition head_id (g : list rule) : option nat := option_map r_id (head g).

Lemma else_rules_none r gs : Some (r_id r) ∉ map head_id gs -> else_rules r (concat (map elses gs)) = [].
Proof.
  induction gs as [|g gs IH]; [done|]. simpl. rewrite not_elem_of_cons. intros [Hg Hgs]. destruct g as [|r' [|r2 rest]]; unfold head_id in *; simpl in *; [by apply IH..|].
  destruct (r_id r' =? r_id r)%nat eqn:E; [apply Nat.eqb_eq in E; congruence|by apply IH].
Qed.
Lemma else_rules_chain r rest gs : NoDup (map head_id gs) -> (r :: rest) ∈ gs -> else_rules r (concat (map elses gs)) = rest.
Proof.
  induction gs as [|g gs IH]; intros Nd H; [by apply elem_of_nil in H|]. simpl in Nd |- *. apply NoDup_cons in Nd as [Hg Nd]. apply elem_of_cons in H as [<-|H].
  - destruct rest as [|r2 rest]; simpl; [by apply else_rules_none|]. by rewrite Nat.eqb_refl.
  - assert (Ne : Some (r_id r) <> head_id g) by (intros E; apply Hg; rewrite <- E; by apply (list_elem_of_fmap_2 head_id) in H).
    destruct g as [|r' [|r2 rest']]; unfold head_id in Ne; simpl in *; [by apply IH..|]. destruct (r_id r' =? r_id r)%nat eqn:E; [apply Nat.eqb_eq in E; congruence|by apply IH].
Qed.

Lemma chains_groups ix tr : let groups := map (fun g => sorted_group g.2) (tr_groups tr) in
  Forall (fun g => g <> []) groups -> NoDup (map head_id groups) -> forall c, c ∈ chains_of (make_result ix tr) <-> c ∈ groups.
Proof.
  intros groups Ne Nd c. unfold chains_of, make_result. cbn [ir_rules ir_else]. fold groups. rewrite list_elem_of_fmap. setoid_rewrite in_concat_map.
  rewrite Forall_forall in Ne. change (map (fun g => match g with r :: (_ :: _) as rest => [(r, rest)] | _ => [] end) groups) with (map elses groups). split.
  - intros (r & -> & g & Hg & Hr). destruct g as [|r' rest]; [by apply elem_of_nil in Hr|]. apply list_elem_of_singleton in Hr as ->.
    by rewrite (else_rules_chain r' rest groups Nd Hg).
  - intros Hc. destruct c as [|r rest]; [by destruct (Ne [] Hc)|]. exists r. split; [by rewrite (else_rules_chain r rest groups Nd Hc)|].
    exists (r :: rest). split; [done|by left].
Qed.

Section Result.
Context (builtinFunc : list value -> option Builtin) (doc : option value) (tree : TreeNode) (n0 : nat) (J : list value -> value -> Prop).
Abbreviation holds r := (exists s, sat_body builtinFunc doc tree n0 J r s).
Abbreviation chain_value := (chain_value builtinFunc doc tree n0 J).
Abbreviation some_chain := (some_chain builtinFunc doc tree n0 J).
Context {E : Type} (rules : list (list rule)) (Nd : NoDup (map r_id (concat rules))) (ix : baseDocEqIndex) (es : list (event E)) (tr : trieTraversalResult).
Context (He : Forall (ev_in (node_ok (all_nodes rules)) (fun _ => True)) es) (C : Index.collect es (MkResult [] []) = Ok tr).
Context (All : forall rn, rn ∈ all_nodes rules -> holds (rn_rule rn) -> found rn es).

Lemma in_some_group rn : (exists g, g ∈ tr_groups tr /\ rn ∈ g.2) <-> found rn es.
Proof. pose proof (collect_in es _ _ rn C) as H. unfold in_groups in H. simpl in H. rewrite H. split; [|by right]. by intros [(g & ?%elem_of_nil & _)|]. Qed.

Lemma groups_ok : groups_wf (tr_groups tr).
Proof. apply (collect_wf _ _ _ C). split; [apply NoDup_nil_2|by apply Forall_nil]. Qed.

Lemma group_node g rn : g ∈ tr_groups tr -> rn ∈ g.2 -> rn_idx rn = g.1 /\ rn ∈ all_nodes rules.
Proof.
  intros Hg Hr. destruct groups_ok as [_ W]. rewrite Forall_forall in W. destruct (W g Hg) as [_ F]. rewrite Forall_forall in F.
  split; [by apply F|]. apply (found_rule rules es He). apply in_some_group. by exists g.
Qed.

Lemma group_of rn g : found rn es -> g ∈ tr_groups tr -> rn_idx rn = g.1 -> rn ∈ g.2.
Proof.
  intros (g' & Hg' & Hr)%in_some_group Hg Ei. destruct (group_node g' rn Hg' Hr) as [Ei' _]. destruct groups_ok as [Ng _].
  by rewrite (NoDup_map_inj fst _ g g' Ng Hg Hg' ltac:(congruence)).
Qed.

Lemma sorted_nodes g : g ∈ tr_groups tr -> exists rns, sorted_group g.2 = map rn_rule rns /\ Sorted (fun a b => rn_prio a <= rn_prio b)%nat rns /\ forall rn, rn ∈ rns <-> rn ∈ g.2.
Proof.
  intros Hg. eexists. split; [done|]. split; [|intros rn; apply elem_of_sort_by].
  induction g.2 as [|b l IH]; simpl; [constructor|]. by apply insert_by_le_sorted.
Qed.

Lemma result_groups_heads : let groups := map (fun g => sorted_group g.2) (tr_groups tr) in Forall (fun g => g <> []) groups /\ NoDup (map head_id groups).
Proof.
  assert (H : Forall (fun g => exists rn, rn ∈ g.2 /\ head_id (sorted_group g.2) = Some (r_id (rn_rule rn))) (tr_groups tr)).
  { apply Forall_forall. intros g Hg. destruct groups_ok as [_ W]. rewrite Forall_forall in W. destruct (W g Hg) as [Ne _].
    destruct (sorted_nodes g Hg) as ([|rn rns] & -> & _ & M).
    - destruct g.2 as [|rn l]; [done|]. pose proof (proj2 (M rn) ltac:(by left)) as ?%elem_of_nil. done.
    - exists rn. split; [apply M; by left|done]. }
  destruct groups_ok as [Ng _]. cut (forall l, (forall g, g ∈ l -> g ∈ tr_groups tr) -> Forall (fun g => exists rn, rn ∈ g.2 /\ head_id (sorted_group g.2) = Some (r_id (rn_rule rn))) l ->
    NoDup (map fst l) -> let groups := map (fun g => sorted_group g.2) l in Forall (fun g => g <> []) groups /\ NoDup (map head_id groups)).
  { intros X. by apply X. }
  clear H Ng. induction l as [|g l IH]; intros S H Ng; simpl in *; [split; [constructor|apply NoDup_nil_2]|].
  apply Forall_cons in H as [(rn & Hr & Hh) H]. apply NoDup_cons in Ng as [Hg Ng]. destruct (IH ltac:(intros; apply S; by right) H Ng) as [I1 I2]. split.
  - apply Forall_cons. split; [intros Eg; by rewrite Eg in Hh|done].
  - apply NoDup_cons. split; [|done]. rewrite Hh, map_map. intros (g' & Eg & Hg')%list_elem_of_fmap. rewrite Forall_forall in H.
    destruct (H g' Hg') as (rn' & Hr' & Hh'). rewrite Hh' in Eg. injection Eg as Eg.
    destruct (group_node g rn (S g ltac:(by left)) Hr) as [E1 N1]. destruct (group_node g' rn' (S g' ltac:(by right)) Hr') as [E2 N2].
    pose proof (node_inj rules rn rn' Nd N1 N2 Eg) as <-. apply Hg. rewrite <- E1, E2. by apply list_elem_of_fmap_2.
Qed.

Lemma result_chain c : c ∈ chains_of (make_result ix tr) <-> exists g, g ∈ tr_groups tr /\ c = sorted_group g.2.
Proof. destruct result_groups_heads as [H1 H2]. rewrite (chains_groups ix tr H1 H2 c), list_elem_of_fmap. naive_solver. Qed.

Lemma group_prio g a b : g ∈ tr_groups tr -> a ∈ g.2 -> b ∈ g.2 -> rn_prio a = rn_prio b -> rn_rule a = rn_rule b.
Proof.
  intros Hg Ha Hb Ep. destruct (group_node g a Hg Ha) as [Ea (c & Hc & Hp)%all_nodes_lookup], (group_node g b Hg Hb) as [Eb (c' & Hc' & Hp')%all_nodes_lookup].
  congruence.
Qed.

(** What is left out has no value. *)
Lemma result_values w : (exists c, c ∈ chains_of (make_result ix tr) /\ chain_value c w) <-> some_chain rules w.
Proof.
  unfold EvalDocs.some_chain. split.
  - intros (c & (g & Hg & ->)%result_chain & Hc). destruct (sorted_nodes g Hg) as (rns & Er & So & M). rewrite Er in Hc.
    apply chain_value_nodes in Hc as (rn & Hrn & Hv & H); [|done|].
    + apply M in Hrn. destruct (group_node g rn Hg Hrn) as [Ei (c & Hc & Hp)%all_nodes_lookup]. exists c. split; [by eapply list_elem_of_lookup_2|].
      apply chain_value_at. exists (rn_prio rn), (rn_rule rn). split_ands; [done|done|]. intros j r' Hj Hr' Hs.
      apply (H (MkRuleNode (rn_idx rn) j r')); [|done|done]. apply M. apply group_of; [|done|done]. apply All; [|done]. apply all_nodes_lookup. by exists c.
    + intros a b Ha%M Hb%M. by apply (group_prio g).
  - intros (c & [k Hk]%list_elem_of_lookup & (i & r & Hi & Hv & H)%chain_value_at). pose (rn := MkRuleNode k i r).
    assert (Fr : found rn es).
    { apply All; [apply all_nodes_lookup; by exists c|]. destruct Hv as (head & s & _ & Hs & _). by exists s. }
    pose proof Fr as (g & Hg & Hr)%in_some_group. exists (sorted_group g.2). split; [apply result_chain; by exists g|].
    destruct (sorted_nodes g Hg) as (rns & -> & So & M). apply chain_value_nodes; [done| |].
    + intros a b Ha%M Hb%M. by apply (group_prio g).
    + exists rn. split_ands; [by apply M|done|]. intros rn' Hr'%M Hlt. destruct (group_node g rn' Hg Hr') as [E' (c' & Hc' & Hp')%all_nodes_lookup].
      destruct (group_node g rn Hg Hr) as [E0 _]. simpl in E0. rewrite E', <- E0, Hk in Hc'. injection Hc' as <-. by apply (H (rn_prio rn')).
Qed.

Lemma result_chain_rules c r : c ∈ chains_of (make_result ix tr) -> r ∈ c -> r ∈ concat rules.
Proof.
  intros (g & Hg & ->)%result_chain Hr. destruct (sorted_nodes g Hg) as (rns & Er & _ & M). rewrite Er in Hr. apply list_elem_of_fmap in Hr as (rn & -> & Hrn%M).
  apply (all_nodes_rule rules). exists rn. split; [by eapply group_node|done].
Qed.
End Result.

(** ** Bodies that hold *)
Definition equal_ok (builtinFunc : list value -> option Builtin) : Prop := forall bi, builtinFunc Equal_Ref = Some bi -> bi_args bi = 2%nat /\ bi_result bi = true /\
  forall a b o, data a -> data b -> o ∈ (bi_func bi [a; b]).1 -> is_false o = false -> Equal a b = true.

Lemma ref_eq_Forall2 a b : ref_eq a b = true -> Forall2 (fun x y => Equal x y = true) a b.
Proof.
  intros H%Equal_true. rewrite Compare_unfold in H. simpl in H. apply slice_compare_eq_iff in H. eapply Forall2_impl; [exact H|]. intros x y. apply Equal_true.
Qed.
Lemma ref_eq_name a x : ref_eq a [Var x] = true -> a = [Var x].
Proof. intros F%ref_eq_Forall2. inversion F as [|? ? ? ? E F']; subst. inversion F'; subst. by rewrite (Var_Equal _ _ E). Qed.

Lemma Find_lookups keys : forall doc v, data doc -> Forall data keys -> Find doc keys = Some v <-> lookups doc keys v.
Proof.
  induction keys as [|k keys IH]; intros doc v Dd Fk; [simpl; naive_solver|]. apply Forall_cons in Fk as [Dk Fk].
  assert (Step : forall w, lookup doc k w -> Find doc (k :: keys) = Find w keys).
  { intros w L. destruct Dd as [v' S _|l Ll F|kvs _ _ F|l _ F]; [by destruct v'|..]; simpl in L.
    - destruct L as (i & Ei & Hi). simpl. rewrite (proj2 (array_index_tidy k (length l) i Dk Ll)); [by rewrite Hi|]. split; [done|by eapply lookup_lt_Some].
    - simpl. by rewrite L.
    - destruct L as [M ->]. simpl. by rewrite M. }
  assert (Get : forall u, Find doc (k :: keys) = Some u -> exists w, lookup doc k w).
  { intros u. destruct Dd as [v' S _|l Ll F|kvs _ _ F|l _ F]; [by destruct v'|..]; simpl.
    - destruct (array_index k (length l)) as [i|] eqn:Ai; [|done]. apply (array_index_tidy k (length l) i Dk Ll) in Ai as [Ei Hi].
      destruct (lookup_lt_is_Some_2 l i Hi) as [w Hw]. intros _. exists w, i. done.
    - destruct (obj_get k kvs) as [w|] eqn:Ew; [|done]. intros _. by exists w.
    - destruct (set_mem k l) eqn:Em; [|done]. intros _. by exists k. }
  simpl lookups. split.
  - intros H. destruct (Get v H) as [w L]. exists w. split; [done|]. apply IH; [exact (lookup_data doc k w Dd Dk L)|done|]. by rewrite <- (Step w L).
  - intros (w & L & H). rewrite (Step w L). apply IH; [exact (lookup_data doc k w Dd Dk L)|done|done].
Qed.

Section Holds.
Context (builtinFunc : list value -> option Builtin) (Eq_ok : equal_ok builtinFunc) (doc : option value) (docs : list value -> value -> Prop).

(** What is known of the input. *)
Definition resolve_input (ref : list value) : resolved eval_error :=
  match ref with
  | [] => RUndefined
  | Var h :: path => if String.eqb h "input" && forallb IsGround path then as_resolved (d ← doc; Find d path) else RUnknown
  | _ => RUnknown
  end.

Lemma resolve_no_error ref e : resolve_input ref <> RError e.
Proof. destruct ref as [|[] path]; try done. simpl. destruct (_ && _); [|done]. by destruct (d ← doc; Find d path). Qed.

Lemma pattern_denotes s t : pat t -> forall w, Equal (evs s t) w = true -> denotes resolve_input s t w = true.
Proof.
  induction 1 as [x|v Hs _|l _ _ IH|kvs _ _ _ _|l _] using pat_induction; intros w Q; [done| | |done|done].
  - unfold evs in Q. rewrite ev_const in Q by (by left). by destruct v.
  - unfold evs in Q. simpl in Q. destruct (Equal_Array _ _ Q) as (ws & -> & F). clear Q. revert ws F.
    induction IH as [|t l Ht _ IHl]; intros ws F; inversion F as [|? w ? ws' Ew F']; subst; [done|].
    change (denotes resolve_input s t w && denotes resolve_input s (Array l) (Array ws') = true). apply andb_true_iff. split; [by apply Ht|by apply IHl].
Qed.

Lemma evs_ground s t : pat t -> IsGround t = true -> evs s t = t.
Proof.
  unfold evs. induction 1 as [x|v Hs _|l _ _ IH|kvs _ _ _ IH|l _] using pat_induction; intros G; [done|by apply ev_const; left|..|done].
  - simpl in *. f_equal. apply forallb_Forall in G. rewrite Forall_forall in *. rewrite <- (map_id l) at 2. apply map_ext_in. intros x Hx%list_elem_of_In. auto.
  - simpl in *. f_equal. apply forallb_Forall in G. rewrite Forall_forall in *. rewrite <- (map_id kvs) at 2. apply map_ext_in. intros [k v] Hx%list_elem_of_In.
    f_equal. apply (IH _ Hx). specialize (G _ Hx). by apply andb_true_iff in G as [_ ?].
Qed.

Section Rule.
Context (ok : list value -> nat -> Prop) (N M : nat) (D : string -> nat).

Lemma known_keys B s path d : Forall (fun k => accepts N D B k d) path -> forallb IsGround path = true -> Forall data path /\ map (evs s) path = path.
Proof.
  intros F G%forallb_Forall. rewrite Forall_forall in F, G. split; [apply Forall_forall; intros k Hk; apply ground_data; [apply (F k Hk)|by apply G]|].
  rewrite <- (map_id path) at 2. apply map_ext_in. intros k Hk%list_elem_of_In. apply evs_ground; [apply (F k Hk)|by apply G].
Qed.

Lemma operand_denotes okq inner B O s t d v w : operand doc ok N D okq B O t d -> tval doc docs inner O s t v -> Equal v w = true -> denotes resolve_input s t w = true.
Proof.
  intros Op T Q. destruct (operand_cases doc docs ok N D okq inner B O t d Op) as [(P & _ & Ev)|[(h & path & -> & R & F)|(t' & body & -> & _)]]; [|..|done].
  - apply Ev in T as ->. by apply pattern_denotes; [apply P|].
  - cbn [denotes]. unfold may_be, resolve_input. destruct (String.eqb h "input") eqn:Eh; [|done]. destruct (forallb IsGround path) eqn:G; [|done]. simpl.
    apply String.eqb_eq in Eh as ->. unfold ref_value, root_ok in *. simpl in T, R. destruct T as (doc' & -> & L). simpl.
    destruct (known_keys B s path d F G) as [Dk Em]. rewrite Em in L. apply Find_lookups in L as ->; [done|by apply R|done].
Qed.

Lemma query_at_in okq B O q x : query_at builtinFunc doc ok N M D okq B O q -> x ∈ q -> exists B, expr_ok builtinFunc doc ok N M D okq B O x.
Proof.
  revert B. induction q as [|y q IH]; intros B H Hx; [by apply elem_of_nil in Hx|]. destruct H as [H1 H2]. apply elem_of_cons in Hx as [->|Hx]; [by exists B|by eapply IH].
Qed.

(** The operands of an indexed equality. *)
Lemma eq_operands_ok okq B O x a b : expr_ok builtinFunc doc ok N M D okq B O x -> eq_operands x = Some (a, b) ->
  (exists d, operand doc ok N D okq B O a d /\ operand doc ok N D okq B O b d) /\
  forall inner s, assigned s -> sat_at builtinFunc doc docs inner O s x -> eq_holds resolve_input s a b.
Proof.
  intros Ok H. destruct x as [[t|[|[] ops]| |] withs i neg]; try done. rename ts into op. destruct ops as [|a' [|b' []]]; try done. destruct withs; [|done]. destruct neg; [done|]. simpl in H.
  destruct (ref_eq op Equality_Ref || ref_eq op Equal_Ref) eqn:R; [|done]. injection H as -> ->. destruct Ok as [_ Ok].
  apply orb_true_iff in R as [R|R]; apply ref_eq_name in R as ->; simpl in Ok.
  - destruct Ok as (d & _ & Ok). assert (Op : operand doc ok N D okq B O a d /\ operand doc ok N D okq B O b d) by (unfold operand; tauto).
    split; [by exists d|]. intros inner s A (va & vb & Ta & Tb & Q). exists va.
    split; [eapply operand_denotes; [apply Op|exact Ta|apply Equal_refl]|]. eapply operand_denotes; [apply Op|exact Tb|by rewrite Equal_sym].
  - destruct Ok as (_ & bi & Hbi & Fa & L). destruct (Eq_ok bi Hbi) as (E2 & Er & Ho). rewrite E2 in Fa. simpl in Fa.
    apply Forall_cons in Fa as [(Pa & Va & Ba) [(Pb & Vb & Bb) _]%Forall_cons].
    assert (Op : forall t, pattern_ok N t -> pvars t ⊆ B -> EvalSem.fits D N t -> operand doc ok N D okq B O t N).
    { intros t P V F. left. destruct P as [P ?]. by inversion P; subst; try (by destruct t). }
    split; [exists N; by split; apply Op|]. intros inner s A (bi' & o & Hbi' & Hin & Hr). rewrite Hbi in Hbi'. injection Hbi' as <-.
    rewrite Er, E2 in Hr. simpl in Hr. rewrite E2 in Hin. simpl in Hin. exists (evs s a). split; [apply pattern_denotes; [apply Pa|apply Equal_refl]|].
    apply pattern_denotes; [apply Pb|]. rewrite Equal_sym. by apply (Ho _ _ o); [apply evs_data; [apply Pa|done]|apply evs_data; [apply Pb|done]|..].
Qed.
End Rule.
End Holds.

(** ** Lookup *)
Lemma walk_tree_virtual keys : forall n pre p rest, walk_tree n pre keys = Some (p, rest) -> forall i, isVirtual n (ground_prefix (S i) keys) = true.
Proof.
  induction keys as [|k keys IH]; intros n pre p rest H i; [done|]. destruct k as [| | |s| | | | | | | | |]; try done. cbn [walk_tree] in H. cbn [ground_prefix IsGround].
  simpl. destruct (child_in (Str s) (Children n)) as [c|] eqn:Ec; unfold Child in H; rewrite Ec in H; [|done]. simpl in H.
  destruct (Values c); [by eapply IH|done].
Qed.
Lemma doc_split_virtual tree path p rest : doc_split tree path = Some (p, rest) -> virtual_prefix tree (Var "data" :: path) = true.
Proof.
  unfold doc_split, virtual_prefix, Ref_GroundPrefix. destruct (Child tree (Var "data")) as [n|] eqn:Ec; [|done]. simpl. unfold Child in Ec. rewrite Ec.
  intros H. destruct (Values n); [|done]. by eapply walk_tree_virtual.
Qed.

Section Lookup.
Context (builtinFunc : list value -> option Builtin) (Eq_ok : equal_ok builtinFunc) (pol : policy) (cx : context).
Context (n0 : nat) (J : list value -> value -> Prop) (N M : nat) (ok : list value -> nat -> Prop).
Abbreviation isVirtual := (virtual_prefix (ruleTree pol)).
Context (Virt : forall path d, ok path d -> isVirtual (Var "data" :: path) = true).
Abbreviation rule_ok := (rule_ok builtinFunc cx n0 N M ok).
Abbreviation resolve := (resolve_input (input cx)).

Lemma rule_expr r x : rule_ok r -> x ∈ r_body r -> exists D n B, n0 = S n /\
  expr_ok builtinFunc (input cx) ok N M D (query_ok builtinFunc (input cx) ok N M D n) B (qvars (r_body r)) x.
Proof.
  intros (D & head & _ & _ & Hq & _) Hx. destruct n0 as [|n]; [done|]. destruct (query_at_in _ _ _ _ _ _ _ _ _ _ _ Hq Hx) as [B HB]. by exists D, n, B.
Qed.

Lemma rule_arity r : rule_ok r -> eq_arity r = true.
Proof.
  intros Hr. unfold eq_arity. rewrite forallb_forall. intros x Hx%list_elem_of_In. destruct (rule_expr r x Hr Hx) as (D & n & B & _ & Ok).
  destruct x as [[t|[|[] ops]| |] withs i neg]; try done. destruct (ref_eq ts Equality_Ref) eqn:E; [|done]. apply ref_eq_name in E as ->.
  assert (L : forall okq B O withs i, expr_ok builtinFunc (input cx) ok N M D okq B O (Expr (TTerms (Ref [Var "eq"] :: ops)) withs i false) -> (length ops =? 2)%nat = true).
  { intros okq B' O withs' i' [_ X]. simpl in X. by destruct ops as [|a [|b []]]. }
  cbn [negb orb]. destruct neg; [|exact (L _ _ _ _ _ Ok)]. destruct Ok as [_ [_ Q]]. destruct n as [|n]; [done|]. exact (L _ _ _ _ _ (proj1 Q)).
Qed.

Lemma rule_holds r s : rule_ok r -> sat_body builtinFunc (input cx) (ruleTree pol) n0 J r s -> body_holds resolve s r.
Proof.
  intros Hr [A F]. rewrite Forall_forall in F. split.
  - intros x a b Hx Ho. destruct (rule_expr r x Hr Hx) as (D & n & B & -> & Ok). specialize (F x Hx).
    eapply (eq_operands_ok builtinFunc Eq_ok (input cx) (docs (ruleTree pol) J) ok N M D); [exact Ok|done|done|exact F].
  - destruct Hr as (D & head & _ & -> & _). by intros i arg Hi.
Qed.

Lemma rule_refs r idx : rule_ok r -> from_body isVirtual r idx -> exists path, ri_ref idx = Var "input" :: path /\ forallb IsGround path = true /\
  Forall data path /\ forall d, input cx = Some d -> data d.
Proof.
  intros Hr (x & a & b & Hx & Ho & Hi). destruct (rule_expr r x Hr Hx) as (D & n & B & -> & Ok).
  destruct (eq_operands_ok builtinFunc Eq_ok (input cx) (docs (ruleTree pol) J) ok N M D _ _ _ _ _ _ Ok Ho) as [(d & Oa & Ob) _].
  destruct Hr as (D' & head & _ & Ea & _). rewrite Ea in Hi.
  cut (forall t u, operand (input cx) ok N D (query_ok builtinFunc (input cx) ok N M D n) B (qvars (r_body r)) t d -> eqOperandsToRefAndValue isVirtual [] t u = Some idx ->
    exists path, ri_ref idx = Var "input" :: path /\ forallb IsGround path = true /\ Forall data path /\ forall d, input cx = Some d -> data d).
  { intros X. destruct Hi as [Hi|Hi]; [exact (X a b Oa Hi)|exact (X b a Ob Hi)]. }
  intros t u Op Hi'. destruct t as [| | | | |ref| | | | | | |]; try done.
  destruct (operand_cases _ (docs (ruleTree pol) J) _ _ _ _ (fun _ _ _ => True) _ _ _ _ Op) as [([P _] & _)|[(h & path & [= ->] & R & F)|(? & ? & ? & _)]]; [by inversion P|..|done].
  cbn [eqOperandsToRefAndValue] in Hi'. destruct (negb (is_root_document (Var h))) eqn:Root; [done|]. destruct (isVirtual (Var h :: path)) eqn:Ev; [done|].
  destruct (_ || _) eqn:G; [done|]. apply orb_false_iff in G as [_ G%negb_false_iff]. apply negb_false_iff, orb_true_iff in Root.
  destruct Root as [E|E]; apply Var_Equal in E; injection E as ->.
  - simpl in R. by rewrite (Virt path d R) in Ev.
  - exists path. destruct (indexValue u); [|done]. injection Hi' as <-. simpl in G. split; [done|]. split; [done|].
    split; [by eapply (known_keys N D B (fun _ => Null))|]. intros d' Ed. by apply R.
Qed.

Lemma resolve_congr pa pb v : Forall data pa -> Forall data pb -> forallb IsGround pa = true -> forallb IsGround pb = true -> (forall d, input cx = Some d -> data d) ->
  ref_eq (Var "input" :: pa) (Var "input" :: pb) = true -> may_be resolve (Var "input" :: pa) v = true -> may_be resolve (Var "input" :: pb) v = true.
Proof.
  intros Da Db Ga Gb Dd E%ref_eq_Forall2. inversion E as [|? ? ? ? _ F]; subst. unfold may_be, resolve_input. rewrite Ga, Gb. simpl.
  destruct (input cx) as [d|]; [|done]. specialize (Dd d eq_refl). simpl. destruct (Find d pa) as [w|] eqn:Fa; [|done]. simpl. intros Ev.
  apply Find_lookups in Fa; [|done|done]. destruct (lookups_congr pa d d pb w (Equal_refl _) F Fa) as (w' & L & Ew).
  apply Find_lookups in L as ->; [|done|done]. simpl. rewrite Equal_sym in Ew. by eapply Equal_trans.
Qed.

Section Index.
Context (chains : list (list rule)) (Nd : NoDup (map r_id (concat chains))) (Hg : Forall (fun r => r_ground r = true /\ glob_free r = true) (concat chains)).
Context (sorted : list (list value)) (ix : baseDocEqIndex) (B : Build isVirtual sorted chains = Some ix).
Context (Hs : sorted ≡ₚ map fst (frequency (build_indices isVirtual chains))) (Fr : Forall rule_ok (concat chains)).

Lemma sorted_refs ref : ref ∈ sorted -> exists path, ref = Var "input" :: path /\ forallb IsGround path = true /\ Forall data path /\ forall d, input cx = Some d -> data d.
Proof.
  rewrite Hs. rewrite Forall_forall in Fr, Hg. intros (r & idx & Hr & Hi & <-)%frequency_from_body; [eapply rule_refs; [by apply Fr|done]|].
  intros r Hr. split; [by apply rule_arity, Fr|by apply Hg].
Qed.

(** A rule whose body holds is found. *)
Lemma holding_found rn s : rn ∈ all_nodes chains -> sat_body builtinFunc (input cx) (ruleTree pol) n0 J (rn_rule rn) s -> found rn (Traverse resolve (ix_root ix)).
Proof.
  intros Hrn Hb. assert (Hin : rn_rule rn ∈ concat chains) by (apply (all_nodes_rule chains); by exists rn). pose proof (proj1 (Forall_forall _ _) Fr) as Fr'. pose proof (proj1 (Forall_forall _ _) Hg) as Hg'.
  pose proof (rule_arity _ (Fr' _ Hin)) as Ha. destruct (Hg' _ Hin) as [_ Hgl].
  eapply (satisfiable_found resolve s); [exact B| |apply resolve_no_error|done|done|done|done|by apply rule_holds; [apply Fr'|]].
  intros idx ref v Hidx (pb & -> & Gb & Db & Dd)%sorted_refs.
  pose proof (build_indices_ok isVirtual chains (rn_rule rn) (fun r' H1 H2 => NoDup_map_inj r_id _ _ _ Nd H1 Hin H2) Ha Hgl) as P.
  unfold indices_ok in P. rewrite Forall_forall in P. destruct (rule_refs _ idx (Fr' _ Hin) (P idx Hidx)) as (pa & -> & Ga & Da & _). by apply resolve_congr.
Qed.

Lemma result_indexes {E} (es : list (event E)) tr early : Forall (ev_in (node_ok (all_nodes chains)) (fun _ => True)) es -> Index.collect es (MkResult [] []) = Ok tr ->
  (forall rn s, rn ∈ all_nodes chains -> sat_body builtinFunc (input cx) (ruleTree pol) n0 J (rn_rule rn) s -> found rn es) ->
  let ir := make_result ix tr in indexes builtinFunc pol cx n0 J chains (MkIndexResult (ir_rules ir) (ir_else ir) (ir_default ir) (ir_kind ir) early (ir_onlyGroundRefs ir)).
Proof.
  intros He C All ir. rewrite Forall_forall in Fr, Hg. split.
  - simpl. unfold Build in B. apply bind_Some in B as (first & Hf & (kind & Hk & B')%bind_Some). apply bind_Some in Hf as (ch & Hch & Hf).
    assert (Hin : first ∈ concat chains).
    { destruct chains as [|c l]; [done|]. injection Hch as ->. destruct ch as [|r ch]; [done|]. injection Hf as ->. simpl. left. }
    destruct (Fr first Hin) as (D & hd & Hv & _). unfold rule_kind in Hk. rewrite Hv in Hk. injection Hk as <-.
    destruct (build_trie _ _ _); [|done]. by injection B' as <-.
  - destruct (Build_eq _ _ _ _ B) as (root & kind & _ & ->). unfold ir. cbn [ir_onlyGroundRefs make_result ix_onlyGroundRefs]. rewrite forallb_forall. intros r Hr%list_elem_of_In. cbv beta. destruct (Hg r Hr) as [-> _]. by rewrite orb_true_r.
  - by destruct (Build_eq _ _ _ _ B) as (root & kind & _ & ->).
  - intros c r. apply (result_chain_rules chains Nd ix es tr He C).
  - apply (result_values builtinFunc (input cx) (ruleTree pol) n0 J chains Nd ix es tr He C). intros rn Hrn [s Hb]. by eapply All.
Qed.
End Index.

Lemma indexed_result pre chains fuel e st : index_ok pol pre chains -> Forall rule_ok (concat chains) -> context_of e = cx ->
  exists ir, getRules pol fuel e pre [] st = Some (Ok (Some ir)) /\ indexes builtinFunc pol cx n0 J chains ir.
Proof.
  intros (Nd & Hg & sorted & ix & Ei & B & Hs) Fr He. unfold getRules. simpl. rewrite Ei. destruct (indexing pol).
  - rewrite (Lookup_ext _ resolve _ _ _ _ B).
    + pose proof (Lookup_cases resolve _ _ _ _ B) as L. destruct (Lookup resolve ix) as [ir|err]; [|destruct L as [ref L]; by destruct (resolve_no_error (input cx) ref err)].
      destruct L as (tr & -> & C). eexists. split; [done|]. apply (result_indexes chains Nd Hg sorted ix B Hs Fr (Traverse resolve (ix_root ix)) tr); [|exact C|intros rn s; by eapply holding_found].
      exact (ev_in_weaken _ _ (fun _ => True) _ (fun _ _ => I) (Lookup_events resolve _ _ _ _ B)).
    + intros ref [->|Hr]; [done|]. destruct (sorted_refs chains Hg sorted Hs Fr ref Hr) as (path & -> & G & _). simpl. rewrite G, He. done.
  - eexists. split; [done|]. unfold AllRules. pose proof (collect_walk (walk (ix_root ix)) (MkResult [] [])) as C.
    apply (result_indexes chains Nd Hg sorted ix B Hs Fr _ _ _) with (2 := C); [|intros rn s Hrn _; by eapply walk_found]. apply Forall_fmap. eapply Forall_impl; [by eapply Build_nodes|done].
Qed.
Lemma indexed_lookup pre chains : index_ok pol pre chains -> Forall rule_ok (concat chains) -> lookup_ok builtinFunc pol cx n0 J pre chains.
Proof. intros Hi Fr fuel e st He _. by apply indexed_result. Qed.
End Lookup.
