(* ===== verification/EvalStates.v ===== *)
(** The states in which the expressions of a query are evaluated, and what the calls of
    a continuation leave behind. *)
From Stdlib Require Import ZArith Lia String.
From stdpp Require Import base gmap list strings pretty.
From S2P Require Import Prelude SortedKeys Value Containers SetTable ObjectTable Builtins Document VarVisitor Safety Bindings.
From S2P Require Import Unify UnifySound UnifyTotal EvalGround Eval EvalRefs EvalTerms EvalSem.

(** ** Solutions of a store *)
Lemma gv_ev_vars V s u t v : (forall u x v, gv V u (Var x) v -> Equal (s u x) v = true) -> gv V u t v -> Equal (ev s u t) v = true.
Proof.
  intros H. induction 1 as [u x bv v G Gv IH|u t Sc T|u l l' L F IH|u kvs kvs' Sk Dk Ek F IH|u l Dl] using gv_induction.
  - apply H. by eapply gv_var.
  - rewrite ev_const by (by left). apply Equal_refl.
  - simpl. rewrite <- (map_id l'). apply Equal_Array_map. exact IH.
  - simpl. apply Equal_Object_split; rewrite map_map; simpl.
    + rewrite <- Ek. apply Forall_Forall2_diag, Forall_forall. intros k _. apply (cmp_refl Compare).
    + rewrite <- (map_map snd (ev s u)). by apply Forall2_fmap_l.
  - apply Equal_refl.
Qed.

Lemma solves_values `{SI : SharedInv} N st s : inv N st -> solves s (sview st) <-> forall u x v, gv (sview st) u (Var x) v -> Equal (s u x) v = true.
Proof.
  intros I. split; [intros S u x v; by apply (gv_ev (sview st) s u (Var x))|]. intros H u x bv Hx.
  destruct (i_ground N st I u x bv Hx) as (v & Gv & _). eapply Equal_trans; [eapply H, gv_var; [exact Hx|exact Gv]|].
  rewrite Equal_sym. by eapply gv_ev_vars.
Qed.

(** The bound variables get the values they have in the store. *)
Lemma completion `{SI : SharedInv} N st s : inv N st -> assigns s -> exists s', assigns s' /\ solves s' (sview st) /\
  forall u x, vget (sview st) u x = None -> s' u x = s u x.
Proof.
  intros I A. pose (s' := fun u x => match vget (sview st) u x with
    | Some _ => default (s u x) (Plug (2 * N + 2) (us_heap st) u (Var x)) | None => s u x end).
  assert (Hb : forall u x v, gv (sview st) u (Var x) v -> s' u x = v).
  { intros u x v G. unfold s'. inversion G as [? ? bv ? Hx Gv|? ? X| | |]; subst; [|done]. rewrite Hx.
    destruct (i_ground N st I u x bv Hx) as (v' & Gv' & B). rewrite <- (gv_fun _ _ _ _ Gv v' Gv') in B.
    by rewrite (Plug_value N st N I (2 * N + 2) u (Var x) v) by (done || lia). }
  exists s'. split_ands.
  - intros u x. destruct (vget (sview st) u x) as [bv|] eqn:Hx; [|unfold s'; by rewrite Hx].
    destruct (inv_bound N st u x bv I Hx) as (v & G). rewrite (Hb u x v G). by eapply gv_data.
  - apply (solves_values N st s' I). intros u x v G. rewrite (Hb u x v G). apply Equal_refl.
  - intros u x Hx. unfold s'. by rewrite Hx.
Qed.

(** ** The variables of a value *)
Lemma gv_component V u t v : gv V u t v -> forall x, x ∈ pvars t -> exists w, gv V u (Var x) w /\ forall n, bounded n v -> bounded n w.
Proof.
  induction 1 as [u x bv v G Gv _|u t S T|u l l' L F IH|u kvs kvs' S Dk Ek F IH|u l Dl] using gv_induction; intros y Hy.
  - cbn [vars_of] in Hy. apply elem_of_singleton in Hy as ->. exists v. split; [by eapply gv_var|done].
  - rewrite data_vars in Hy by (by apply data_scalar). set_solver.
  - cbn [vars_of] in Hy. apply elem_of_union_list in Hy as (X & (z & -> & Hz)%list_elem_of_fmap & Hy).
    apply list_elem_of_lookup in Hz as [i Hi]. destruct (Forall2_lookup_l _ _ _ _ _ IH Hi) as (v & Hv & H).
    destruct (H y Hy) as (w & Gw & Bw). exists w. split; [done|]. intros n B. apply Bw. eapply bounded_array; [exact B|by eapply list_elem_of_lookup_2].
  - cbn [vars_of SkipObjectKeys no_params] in Hy. apply elem_of_union_list in Hy as (X & (z & -> & Hz)%list_elem_of_fmap & Hy).
    rewrite Forall_forall in Dk. rewrite (data_vars z.1) in Hy by (by apply Dk). rewrite (left_id_L ∅ (∪)) in Hy.
    assert (Hz' : z.2 ∈ map snd kvs) by (by apply list_elem_of_fmap_2). apply list_elem_of_lookup in Hz' as [i Hi].
    destruct (Forall2_lookup_l _ _ _ _ _ IH Hi) as (v & Hv & H). destruct (H y Hy) as (w & Gw & Bw). exists w. split; [done|].
    intros n B. apply Bw. apply list_elem_of_lookup_2, list_elem_of_fmap in Hv as (kv & -> & Hkv). by eapply bounded_object.
  - rewrite data_vars in Hy by done. set_solver.
Qed.

Lemma fits_bounded D V u t v : gv V u t v -> (forall x w, x ∈ pvars t -> gv V u (Var x) w -> bounded (D x) w) ->
  forall n, fits D n t -> bounded n v.
Proof.
  assert (Hall : forall u t (l l' : list value) n, (forall x, x ∈ l -> pvars x ⊆ pvars t) ->
    (forall x w, x ∈ pvars t -> gv V u (Var x) w -> bounded (D x) w) ->
    Forall2 (fun t v => (forall x w, x ∈ pvars t -> gv V u (Var x) w -> bounded (D x) w) -> forall n, fits D n t -> bounded n v) l l' ->
    Forall (fits D n) l -> Forall (bounded n) l').
  { clear. intros u t l l' n Hl H F. induction F as [|x y l l' Hxy _ IH]; intros [Fx Fl]%Forall_cons || intros _; constructor.
    - apply Hxy; [|done]. intros z w Hz. apply H. apply (Hl x); [by left|done].
    - apply IH; [|done]. intros z Hz. apply Hl. by right. }
  induction 1 as [u x bv v G Gv _|u t S T|u l l' L F IH|u kvs kvs' S Dk Ek F IH|u l Dl] using gv_induction; intros H n Hf.
  - eapply bounded_le; [|apply (H x v)]; [by destruct n|cbn [vars_of]; by apply elem_of_singleton|by eapply gv_var].
  - by destruct t, n.
  - destruct n as [|n]; [done|]. by apply (Hall u (Array l) l l' n (fun x => vars_array l x) H IH).
  - destruct n as [|n]; [done|]. destruct Hf as [Hf Hk]. split; [|apply List.Forall_map; rewrite <- Ek; by apply List.Forall_map].
    apply List.Forall_map. apply (Hall u (Object kvs) (map snd kvs) (map snd kvs') n); [|done|done|by apply List.Forall_map].
    intros x (kv & -> & Hkv)%list_elem_of_fmap. by apply vars_object.
  - by destruct n.
Qed.

(** ** Calls of a continuation *)
Section Calls.
Context `{SI : SharedInv} (N : nat) (F : option nat -> string -> Prop) (rel : relation valuation) `{!PreOrder rel}.
Implicit Types k iter : EK.

Lemma many_vars (F' : option nat -> string -> Prop) st (Q Q' : vstore -> Prop) (A B : valuation -> Prop) iter res : (forall v x, F v x -> F' v x) ->
  (forall V, from F (sview st) Q V -> Q' V) -> (forall s, solves s (sview st) -> B s -> A s) ->
  many N F rel st Q A iter res -> many N F' rel st Q' B iter res.
Proof.
  intros HF HQ HA (st' & r & Vs & E & I & Vw & R & C). exists st', r, Vs. split_ands; [done..| |].
  - eapply runs_weaken; [done| |exact R]. intros V H. pose proof H as (X & Nw & _). split; [done|]. split; [|by apply HQ].
    intros u x bv Vu Hx. destruct (Nw u x bv Vu Hx); [by left|right; auto].
  - intros Er s S HB. apply C; auto.
Qed.

(** The solutions may be changed. *)
Lemma many_fresh st Q (A B : valuation -> Prop) iter res :
  (forall s, solves s (sview st) -> B s -> exists s', rel s s' /\ solves s' (sview st) /\ A s') ->
  many N F rel st Q A iter res -> many N F rel st Q B iter res.
Proof.
  intros H (st' & r & Vs & E & I & Vw & R & C). exists st', r, Vs. split_ands; [done..|]. intros Er s S HB.
  destruct (H s S HB) as (s1 & N1 & S1 & A1). destruct (C Er s1 S1 A1) as (V & s2 & HV & N2 & S2).
  exists V, s2. split_ands; [done|by etransitivity|done].
Qed.

Lemma runs_state c k P Vs st st' r V : runs N c k P Vs st st' r -> V ∈ Vs -> exists st1, inv N st1 /\ sview st1 = V /\ P V.
Proof.
  induction 1 as [|st st1 st2 st' r Vs _ H1 I1 _ _ _ IH|st st1 st2 st' e r Vs _ H1 I1 _ _ _ _ IH|st st1 st2 st' e _ H1 I1 _ _ _ _]; intros HV.
  - by apply elem_of_nil in HV.
  - apply elem_of_cons in HV as [->|HV]; [by exists st1|by apply IH].
  - apply elem_of_cons in HV as [->|HV]; [by exists st1|by apply IH].
  - apply list_elem_of_singleton in HV as ->. by exists st1.
Qed.

Lemma after_soft_ok (Ok : eval_error -> Prop) e r : Ok e -> (forall e', r = Some e' -> Ok e') -> forall e', after_soft e r = Some e' -> Ok e'.
Proof. intros He Hr e'. destruct r as [e2|]; simpl; [destruct (soft e2); [by intros [= <-]|by apply Hr]|by intros [= <-]]. Qed.

(** An invariant of the calls, [J], which holds of the bindings so far and of the cells. *)
Lemma runs_inv c k P (J : list vstore -> env -> Prop) (Ok : eval_error -> Prop) Vs st st' r : (forall Ws e e', J Ws e -> quiet c e e' -> J Ws e') ->
  (forall Ws st1 st2 r, P (sview st1) -> inv N st1 -> J Ws (us_env st1) -> k st1 = Some (st2, r) ->
    J (Ws ++ [sview st1]) (us_env st2) /\ forall e, r = Some e -> Ok e) ->
  runs N c k P Vs st st' r -> forall Ws, J Ws (us_env st) -> J (Ws ++ Vs) (us_env st') /\ forall e, r = Some e -> Ok e.
Proof.
  intros Hq Hk. induction 1 as [st st' Q|st st1 st2 st' r Vs Q H1 I1 It _ _ IH|st st1 st2 st' e r Vs Q H1 I1 It _ He _ IH|st st1 st2 st' e Q H1 I1 It _ _ Q2]; intros Ws HJ.
  - rewrite app_nil_r. split; [by eapply Hq|done].
  - rewrite cons_middle, (assoc_L (++)). apply IH. eapply Hk; [done|done| |exact It]. by eapply Hq.
  - destruct (Hk Ws st1 st2 (Some e) H1 I1) as [HJ2 Hok]; [by eapply Hq|done|]. rewrite cons_middle, (assoc_L (++)).
    destruct (IH _ HJ2) as [HJ3 Hok3]. split; [done|]. apply after_soft_ok; auto.
  - destruct (Hk Ws st1 st2 (Some e) H1 I1) as [HJ2 Hok]; [by eapply Hq|done|]. split; [by eapply Hq|done].
Qed.
End Calls.

(** ** Stages of a query *)
Section Stage.
Context `{SI : SharedInv} (N : nat) (D : string -> nat) (u : option nat).

Definition bound (X : gset string) (V : vstore) : Prop := forall x, x ∈ X -> exists v, gv V u (Var x) v /\ bounded (D x) v.

(** Before the expression [i] of the query [id]: the variables of [B] are bound, and
    otherwise only variables that were generated before. *)
Record stage (B : gset string) (id : BinNums.N) (i : nat) (st : ustate) : Prop := {
  sg_inv : inv N st;
  sg_valid : valid (sview st) u;
  sg_known : bound B (sview st);
  sg_bound : forall x bv, vget (sview st) u x = Some bv ->
    x ∈ B \/ exists id' j, x = gen_name id' j /\ (id' < curr (us_env st))%N /\ (id' = id -> (j < i)%nat);
  sg_id : (id < curr (us_env st))%N;
}.

(** The variables that an expression or a query may bind. *)
Definition step_vars (X : gset string) (id : BinNums.N) (i : nat) (v : option nat) (x : string) : Prop := v = u /\ (x ∈ X \/ x = gen_name id i).
Definition query_vars (X : gset string) (id : BinNums.N) (v : option nat) (x : string) : Prop := v = u /\ (x ∈ X \/ exists j, x = gen_name id j).

Lemma vget_valid V v x bv : vget V v x = Some bv -> valid V v.
Proof. unfold vget. intros H. destruct v as [p|]; [|done]. exists p. split; [done|]. by destruct (V !! p). Qed.

Lemma bound_mono X V V1 : extends V V1 -> bound X V -> bound X V1.
Proof. intros E H x Hx. destruct (H x Hx) as (v & G & Bv). exists v. split; [by eapply gv_mono|done]. Qed.
Lemma bound_union X Y V : bound (X ∪ Y) V <-> bound X V /\ bound Y V.
Proof. unfold bound. set_solver. Qed.

Lemma stage_step B id i X st Q st1 : stage B id i st -> reach N (step_vars X id i) st Q st1 -> bound X (sview st1) -> stage (B ∪ X) id (S i) st1.
Proof.
  intros [I V K Bd Hid] [I1 (X1 & Nw & _) [_ G]] Bx. split; [done| | | |lia].
  - by eapply valid_extends.
  - apply bound_union. split; [by eapply bound_mono|done].
  - intros x bv Hx. destruct (Nw u x bv V Hx) as [Hx'|[_ [Hx'| ->]]]; [|set_solver|].
    + destruct (Bd x bv Hx') as [?|(id' & j & -> & H1 & H2)]; [set_solver|right]. exists id', j. split; [done|]. split; [lia|]. intros E. specialize (H2 E). lia.
    + right. exists id, i. split; [done|]. split; [lia|]. lia.
Qed.

(** After another query in between. *)
Lemma stage_query B id i X cid st Q st1 : stage B id i st -> cid <> id -> (cid < curr (us_env st1))%N -> reach N (query_vars X cid) st Q st1 ->
  bound X (sview st1) -> stage (B ∪ X) id i st1.
Proof.
  intros [I V K Bd Hid] Hc Hl [I1 (X1 & Nw & _) [_ G]] Bx. split; [done| | | |lia].
  - by eapply valid_extends.
  - apply bound_union. split; [by eapply bound_mono|done].
  - intros x bv Hx. destruct (Nw u x bv V Hx) as [Hx'|[_ [Hx'|[j ->]]]]; [|set_solver|].
    + destruct (Bd x bv Hx') as [?|(id' & j & -> & H1 & H2)]; [set_solver|right]. exists id', j. split; [done|]. split; [lia|done].
    + right. exists cid, j. split; [done|]. split; [lia|done].
Qed.

Lemma stage_same B id i st st1 : stage B id i st -> inv N st1 -> sview st1 = sview st -> grow (us_env st) (us_env st1) -> stage B id i st1.
Proof.
  intros [I V K Bd Hid] I1 E [_ G]. split; rewrite ?E; try done; [|lia].
  intros x bv Hx. destruct (Bd x bv Hx) as [?|(id' & j & -> & H1 & H2)]; [by left|right]. exists id', j. split; [done|]. split; [lia|done].
Qed.

Lemma stage_child B id i st st1 : stage B id i st -> inv N st1 -> sview st1 = sview st -> (curr (us_env st) < curr (us_env st1))%N ->
  stage B (curr (us_env st)) 0 st1.
Proof.
  intros [I V K Bd Hid] I1 E G. split; rewrite ?E; try done.
  intros x bv Hx. destruct (Bd x bv Hx) as [?|(id' & j & -> & H1 & H2)]; [by left|right]. exists id', j. split; [done|]. lia.
Qed.

Lemma stage_fresh B id i st : stage B id i st -> (forall x, x ∈ B -> user x) -> vget (sview st) u (gen_name id i) = None.
Proof.
  intros S HB. destruct (vget (sview st) u (gen_name id i)) as [bv|] eqn:E; [|done].
  destruct (sg_bound _ _ _ _ S _ bv E) as [Hx|(id' & j & Ej & _ & H)]; [by destruct (HB _ Hx id i)|].
  apply gen_name_inj in Ej as [<- <-]. specialize (H eq_refl). lia.
Qed.

Lemma stage_free B id i st x : stage B id i st -> user x -> x ∉ B -> vget (sview st) u x = None.
Proof.
  intros S Hx HB. destruct (vget (sview st) u x) as [bv|] eqn:E; [|done].
  destruct (sg_bound _ _ _ _ S _ bv E) as [?|(id' & j & Ej & _)]; [done|by destruct (Hx id' j)].
Qed.

(** *** Assignments that agree on the variables in scope *)

(** From outside a closure to its solutions. *)
Lemma into_scope B O id i st (s : valuation) (s' : assignment) : stage B id i st -> B ⊆ O -> solves s (sview st) -> assigns s -> assigned s' -> agree O (s u) s' ->
  exists s2, alike s' (s2 u) /\ assigns s2 /\ solves s2 (sview st).
Proof.
  intros S HB Sv A A' G. pose (s2 := fun v x => if decide (v = u) then match vget (sview st) u x with Some _ => if decide (x ∈ O) then s' x else s u x | None => s' x end else s v x).
  assert (Hu : forall x, s2 u x = match vget (sview st) u x with Some _ => if decide (x ∈ O) then s' x else s u x | None => s' x end)
    by (intros x; unfold s2; by rewrite decide_True).
  assert (Hv : forall v x, v <> u -> s2 v x = s v x) by (intros v x Hv; unfold s2; by rewrite decide_False).
  exists s2. split_ands.
  - intros x Hx. rewrite Hu. destruct (vget (sview st) u x) as [bv|] eqn:E; [|done]. case_decide as Hd; [done|].
    rewrite (stage_free B id i st x S Hx) in E; [done|set_solver].
  - intros v x. destruct (decide (v = u)) as [->|Hd]; [|rewrite Hv by done; apply A]. rewrite Hu. destruct (vget (sview st) u x); [|done]. case_decide; [done|apply A].
  - apply (solves_values N st s2 (sg_inv _ _ _ _ S)). intros v x w Gw.
    assert (Hs : Equal (s v x) w = true) by (by apply (gv_ev (sview st) s v (Var x))).
    destruct (decide (v = u)) as [->|Hd]; [|by rewrite Hv]. rewrite Hu.
    destruct (vget (sview st) u x) as [bv|] eqn:E; [|by destruct (gv_unbound (sview st) u x w E)]. case_decide as Hd; [|done].
    eapply Equal_trans; [|exact Hs]. rewrite Equal_sym. by apply G.
Qed.

(** From a solution that was found to an assignment. *)
Lemma out_of_scope B O (X : gset string) id i st (F : option nat -> string -> Prop) V1 st1 (s : valuation) : stage B id i st -> B ⊆ O -> (forall x, F u x -> x ∈ X \/ ~ user x) ->
  (forall x, x ∈ O -> user x) -> (forall x, x ∈ X -> x ∈ O -> x ∈ B) ->
  solves s (sview st) -> assigns s -> inv N st1 -> sview st1 = V1 -> from F (sview st) (fun _ => True) V1 ->
  exists s', assigns s' /\ solves s' V1 /\ agree O (s u) (s' u).
Proof.
  intros S HB HF HO HX Sv A I1 <- (E & Nw & _). destruct (completion N st1 s I1 A) as (s' & A' & S' & Hn). exists s'. split_ands; [done..|].
  intros x Hx. destruct (vget (sview st1) u x) as [bv|] eqn:Eb; [|rewrite Hn by done; apply Equal_refl].
  assert (HxB : x ∈ B).
  { destruct (decide (x ∈ B)) as [|Hd]; [done|]. destruct (Nw u x bv (sg_valid _ _ _ _ S) Eb) as [Eb'|[Hf|Hf]%HF]; [|by apply HX|by destruct Hf; apply HO].
    rewrite (stage_free B id i st x S) in Eb'; auto; done. }
  destruct (sg_known _ _ _ _ S x HxB) as (w & Gw & _).
  eapply Equal_trans; [by apply (gv_ev (sview st) s u (Var x))|]. rewrite Equal_sym.
  apply (gv_ev (sview st1) s' u (Var x)); [done|by eapply gv_mono].
Qed.
End Stage.
