(* ===== verification/EvalClosures.v ===== *)
(** Closures: negation, set comprehensions and [every] run a query of their own and keep
    what they learn in a cell. *)
From Stdlib Require Import ZArith Lia String.
From stdpp Require Import base gmap list strings pretty.
From S2P Require Import Prelude SortedKeys Value Containers SetTable ObjectTable Builtins Document VarVisitor Safety EvalCache Bindings.
From S2P Require Import Unify UnifySound UnifyTotal EvalGround Eval EvalRefs EvalTerms EvalSem EvalStates.

Lemma inv_env `{SI : SharedInv} N st e : inv N st -> common e = common (us_env st) -> inv N (set_env st e).
Proof. intros [[W P C] Cl G S] E. split; [by split|done|done|]. simpl. by rewrite E. Qed.

(** One call of the continuation, or none, in a state with the same bindings. *)
Lemma many_call `{SI : SharedInv} N cl F (rel : relation valuation) `{!PreOrder rel} st st' (Q : vstore -> Prop) A k : inv N st' -> sview st' = sview st ->
  quiet (count st) (us_env st) (us_env st') -> Q (sview st) -> handles N cl (reach N F st Q) k -> many N F rel st Q A k (k st').
Proof.
  intros I E Qu HQ Hk. assert (Fr : from F (sview st) Q (sview st')) by (rewrite E; split; [done|]; split; [by left|done]).
  destruct (Hk st') as (st2 & r & Ek & I2 & V2 & G); [split; [done|done|apply Qu]|].
  exists st2, r, [sview st']. split_ands; [done|done|congruence| |].
  - eapply runs_one; try done. apply G.
  - intros _ s S _. exists (sview st'), s. split_ands; [by apply list_elem_of_singleton|done|by rewrite E].
Qed.

Lemma many_here `{SI : SharedInv} N cl F (rel : relation valuation) `{!PreOrder rel} st (Q : vstore -> Prop) A k : inv N st -> Q (sview st) ->
  handles N cl (reach N F st Q) k -> many N F rel st Q A k (k st).
Proof. intros I HQ Hk. by eapply many_call. Qed.

Lemma many_none `{SI : SharedInv} N F (rel : relation valuation) st st' Q (A : valuation -> Prop) k : inv N st' -> sview st' = sview st ->
  quiet (count st) (us_env st) (us_env st') -> (forall s, solves s (sview st) -> ~ A s) -> many N F rel st Q A k (return_nil st').
Proof.
  intros I E Qu H. exists st', None, []. split_ands; [done..|by apply runs_done|]. intros _ s S HA. by destruct (H s S).
Qed.

(** A cell that is written. *)
Lemma put_cell_frame c v st : frame (fun i => i <> c) (us_env st) (us_env (put_cell c v st)).
Proof.
  split; [split; simpl; [by rewrite length_insert|done]|]. intros i Hi _. simpl. by rewrite list_lookup_insert_ne.
Qed.
Lemma put_cell_get c v st : (c < count st)%nat -> get_cell c (put_cell c v st) = Some v.
Proof. intros L. unfold get_cell. simpl. by apply list_lookup_insert_eq. Qed.

(** The query of a closure at its end. *)
Definition at_end (cx : context) (u : option nat) (q : list expr) (id : BinNums.N) (one : bool) : eval := MkEval q (length q) id u one cx.

Section Closures.
Context `{SI : SharedInv} (builtinFunc : list value -> option Builtin) (cx : context).
Context (docs : list value -> value -> Prop) (docs_ok : list value -> nat -> Prop).
Context (N M : nat) (D : string -> nat) (u : option nat).
Implicit Types (s : valuation) (q body : list expr).

(** *** What evaluation of a query promises *)
Abbreviation sat := (sat builtinFunc (input cx) docs).
Abbreviation query_ok := (query_ok builtinFunc (input cx) docs_ok N M D).
Abbreviation nearby V := (near (valid V) (eq u)).
Definition solved (n : nat) (O : gset string) q (V : vstore) : Prop := forall s, assigns s -> solves s V -> Forall (sat n O (s u)) q.
Definition found (n : nat) (O : gset string) q (V : vstore) : Prop := solved n O q V /\ bound D u (qvars q) V.
Definition satisfies (n : nat) (O : gset string) q s : Prop := assigns s /\ Forall (sat n O (s u)) q.
Abbreviation at_end := (at_end cx u).

Record scope (n : nat) (B O : gset string) q : Prop := {
  sc_ok : query_ok n B O q;
  sc_user : forall x, x ∈ O -> user x;
  sc_bound : B ⊆ O;
  sc_vars : qvars q ⊆ O;
}.
Definition evaluates (n : nat) (run : eval -> (eval -> EK) -> EK) (room : list expr -> Prop) : Prop :=
  forall B O q id st iter one cl, scope n B O q -> room q -> stage N D u B id 0 st -> (cl <= count st)%nat ->
  let k := finish (at_end q id one) iter in
  handles N cl (reach N (query_vars u (qvars q) id) st (found n O q)) k ->
  many N (query_vars u (qvars q) id) (nearby (sview st)) st (found n O q) (satisfies n O q) k (run (MkEval q 0 id u one cx) iter st).

Lemma sats_alike n B O q (s s' : assignment) : scope n B O q -> alike s s' -> Forall (sat n O s) q -> Forall (sat n O s') q.
Proof.
  intros [Ok HO _ _] Hn F. destruct n as [|n]; [done|]. simpl in Ok.
  assert (H : forall B, query_at builtinFunc (input cx) docs_ok N M D (query_ok n) B O q -> Forall (sat (S n) O s') q); [|by apply (H B)].
  clear Ok B. induction F as [|x q Hx F IH]; intros B Ok; [done|]. destruct Ok as [Okx Ok]. constructor; [|by eapply IH].
  by eapply (sat_alike builtinFunc (input cx) docs docs_ok N M D (query_ok n) (sat n) B O).
Qed.

Lemma near_alike V s s' : valid V u -> nearby V s s' -> alike (s u) (s' u).
Proof. intros Vu [H _] x Hx. by apply H. Qed.
Lemma satisfies_near n B O q V s s' : scope n B O q -> valid V u -> nearby V s s' -> satisfies n O q s -> satisfies n O q s'.
Proof. intros Sc Vu Hn [A F]. split; [by apply Hn|]. eapply sats_alike; [exact Sc|by eapply near_alike|done]. Qed.

Section Inner.
Context (n : nat) (run : eval -> (eval -> EK) -> EK) (room : list expr -> Prop) (IH : evaluates n run room).
Context (B O : gset string) (HO : forall x, x ∈ O -> user x) (HB : B ⊆ O).

Abbreviation closure_ok := (closure_ok (query_ok n)).

Lemma closure_scope body : closure_ok B O body -> scope n B (O ∪ qvars body) body.
Proof.
  intros [H Ok]. split; [done| |set_solver|set_solver]. intros x [Hx|Hx]%elem_of_union; [by apply HO|by apply H].
Qed.

(** The run of a closure whose continuation updates a cell; [R] relates the solutions
    found so far to the content of the cell. *)
Section Run.
Context (body : list expr) (Hok : closure_ok B O body) (Hroom : room body).
Context (id : BinNums.N) (i : nat) (st : ustate) (St : stage N D u B id i st).
Context (start : value) (one : bool) (kk : eval -> EK) (R : list vstore -> value -> Prop) (Ok : eval_error -> Prop).
Abbreviation c := (count st).
Abbreviation cid := (curr (us_env st)).
Abbreviation F := (query_vars u (qvars body) cid).
Abbreviation k := (finish (at_end body cid one) kk).
Definition opened : ustate := set_env st (MkEnv (cells (us_env st) ++ [start]) (cid + 1)%N (errs (us_env st)) (common (us_env st))).

(** What the continuation does from a state in which the cell holds [w]. *)
Definition updates (st2 : ustate) (w : value) : Prop := exists st3 r w', k st2 = Some (st3, r) /\ inv N st3 /\ sview st3 = sview st2 /\
  frame (fun i => i <> c) (us_env st2) (us_env st3) /\ get_cell c st3 = Some w' /\ (forall e, r = Some e -> Ok e) /\
  forall Ws, R Ws w -> R (Ws ++ [sview st2]) w'.
Context (Hk : forall st2 w, reach N F opened (found n (O ∪ qvars body) body) st2 -> get_cell c st2 = Some w -> updates st2 w).

Lemma opened_inv : inv N opened.
Proof. apply inv_env; [apply St|done]. Qed.
Lemma opened_stage : stage N D u B cid 0 opened.
Proof. eapply stage_child; [exact St|apply opened_inv|done|]. simpl. lia. Qed.
Lemma opened_count : count opened = S c.
Proof. simpl. rewrite length_app. simpl. lia. Qed.

Lemma cell_handles : handles N (S c) (reach N F opened (found n (O ∪ qvars body) body)) k.
Proof.
  intros st2 R2. destruct (rc_env _ _ _ _ _ R2) as [L _]. rewrite opened_count in L.
  destruct (lookup_lt_is_Some_2 (cells (us_env st2)) c) as [w Hw]; [lia|].
  destruct (Hk st2 w R2 Hw) as (st3 & r & w' & E & I & V & Fr & _). exists st3, r. split_ands; [done..|].
  eapply frame_weaken; [|exact Fr]. intros j _ Hj. cbv beta in *. lia.
Qed.

Lemma child_runs : exists st' r Vs w, run (MkEval body 0 cid u one cx) kk opened = Some (st', r) /\ inv N st' /\ sview st' = sview st /\
  get_cell c st' = Some w /\ quiet c (us_env st) (us_env st') /\
  (R [] start -> R Vs w) /\ (forall e, r = Some e -> Ok e) /\ runs N (S c) k (from F (sview st) (found n (O ∪ qvars body) body)) Vs opened st' r /\
  (r = None -> covers (nearby (sview st)) (sview st) Vs (satisfies n (O ∪ qvars body) body)).
Proof.
  destruct (IH B (O ∪ qvars body) body cid opened kk one (S c) (closure_scope body Hok) Hroom opened_stage ltac:(by rewrite opened_count) cell_handles)
    as (st' & r & Vs & E & I & V & Rn & C). rewrite opened_count in Rn.
  pose (J := fun Ws e => exists w, cells e !! c = Some w /\ grow (us_env opened) e /\ quiet c (us_env st) e /\ (R [] start -> R Ws w)).
  assert (HJ : J ([] ++ Vs) (us_env st') /\ forall e, r = Some e -> Ok e).
  { eapply (runs_inv N (S c) k _ J Ok); [| |exact Rn|].
    - intros Ws e e' (w & Ec & G & Q & HR) Qu. exists w. split_ands; [|etransitivity; [exact G|apply Qu]| |done].
      + rewrite (proj2 Qu); [done|lia|by eapply lookup_lt_Some].
      + etransitivity; [exact Q|]. eapply frame_weaken; [|exact Qu]. intros j _ Hj. cbv beta in *. lia.
    - intros Ws st2 st3 r2 Fr I2 (w & Ec & G & Q & HR) Ek. destruct (Hk st2 w) as (st3' & r' & w' & Ek' & _ & _ & Fr' & Ec' & He & HR'); [by split|done|].
      rewrite Ek in Ek'. injection Ek' as <- <-. split; [|done]. exists w'. split_ands; [done|etransitivity; [exact G|apply Fr']| |auto].
      etransitivity; [exact Q|]. eapply frame_weaken; [|exact Fr']. intros j _ Hj. cbv beta in *. lia.
    - exists start. split_ands; [by apply list_lookup_middle|done| |done]. split; [split; simpl; [rewrite length_app; lia|lia]|].
      intros j Hj _. by apply lookup_app_l. }
  destruct HJ as [(w & Ec & G & Q & HR) He]. by exists st', r, Vs, w.
Qed.
End Run.

(** The solutions of a closure against those that were found. *)
Section Solutions.
Context (body : list expr) (Hok : closure_ok B O body) (id : BinNums.N) (i : nat) (st : ustate) (St : stage N D u B id i st).
Context (c : nat) (k : EK) (Vs : list vstore) (st1 st2 : ustate) (r : option eval_error) (cid : BinNums.N).
Context (Rn : runs N c k (from (query_vars u (qvars body) cid) (sview st) (found n (O ∪ qvars body) body)) Vs st1 st2 r).

Lemma solution_found s (s' : assignment) : covers (nearby (sview st)) (sview st) Vs (satisfies n (O ∪ qvars body) body) ->
  assigns s -> solves s (sview st) -> solution (sat n) O (s u) body s' -> exists V s2, V ∈ Vs /\ alike s' (s2 u) /\ assigns s2 /\ solves s2 V.
Proof.
  intros C A S (A' & G & F). destruct (into_scope N D u B O id i st s s' St HB S A A' G) as (s2 & N2 & A2 & S2).
  destruct (C s2 S2) as (V & s3 & HV & N3 & S3); [split; [done|]; by eapply sats_alike; [apply closure_scope|..]|].
  exists V, s3. split_ands; [done| |by apply N3|done]. intros x Hx. rewrite <- N2 by done. apply N3; [apply St|done].
Qed.

Lemma found_solution s V : assigns s -> solves s (sview st) -> V ∈ Vs -> exists s', solution (sat n) O (s u) body (s' u) /\ assigns s' /\ solves s' V.
Proof.
  intros A S HV. destruct (runs_state N c k _ Vs st1 st2 r V Rn HV) as (st3 & I3 & E3 & X & Nw & Sd & _).
  destruct (out_of_scope N D u B O (qvars body) id i st (query_vars u (qvars body) cid) V st3 s) as (s' & A' & S' & G); try done.
  - intros x [_ [Hx|[j ->]]]; [by left|right]. intros H. by apply (H cid j).
  - intros x Hx. by apply Hok.
  - exists s'. split_ands; [|done|done]. split; [intros x; apply A'|]. split; [done|]. by apply Sd.
Qed.
End Solutions.

(** *** Negation *)
Lemma evalNot_many cl F e ts withs idx iter id i st : let x := Expr ts withs idx true in
  let Q V := forall s, assigns s -> solves s V -> sat (S n) O (s u) x in
  bindings_of e = u -> context_of e = cx -> closure_ok B O [negation x] -> room [negation x] -> stage N D u B id i st ->
  handles N cl (reach N F st Q) (iter e) ->
  many N F (nearby (sview st)) st Q (fun s => assigns s /\ sat (S n) O (s u) x) (iter e) (evalNot run e x iter st).
Proof.
  intros x Q Hu Hcx Hok Hr St Hi. unfold evalNot. cbn [new_cell closure Next us_env set_env cells curr errs common]. rewrite Hu, Hcx.
  destruct (child_runs [negation x] Hok Hr id i st St (Boolean false) false
    (fun _ st' => Some (put_cell (count st) (Boolean true) st', None))
    (fun Ws w => w = Boolean (negb (bool_decide (Ws = [])))) (fun _ => False)) as (st' & r & Vs & w & E & I & V & Ec & Qu & HR & He & Rn & C).
  { intros st2 w R2 Ec. eexists _, _, (Boolean true). split; [done|]. pose proof (lookup_lt_Some _ _ _ Ec).
    split_ands; [apply inv_env; [apply R2|done]|done|apply put_cell_frame|by apply put_cell_get|done|]. intros Ws _. by destruct Ws. }
  fold (negation x). change (set_env (set_env st _) _) with (opened st (Boolean false)). rewrite E. cbn [mbind option_bind]. specialize (HR eq_refl).
  assert (r = None) as -> by (destruct r as [e'|]; [by destruct (He e')|done]).
  rewrite Ec. cbn [mbind option_bind]. rewrite HR. destruct Vs as [|V1 Vs].
  - eapply many_call; [apply _|try done..]. intros s A S [s' Hs].
    destruct (solution_found [negation x] Hok id i st St [] s s' (C eq_refl) A S Hs) as (V' & _ & []%elem_of_nil & _).
  - apply many_none; try done. intros s S [A Hx]. apply Hx.
    destruct (found_solution [negation x] Hok id i st St _ _ _ _ _ _ _ Rn s V1 A S) as (s' & Hs & _); [by left|]. by exists (s' u).
Qed.

(** *** Set comprehensions *)
Definition add_to_set (fuel : nat) (t : value) (c : nat) (child : eval) : EK := fun st =>
  v ← Plug fuel (us_heap st) (bindings_of child) t;
  r ← get_cell c st;
  match r with SetV l => Some (put_cell c (SetV (set_insert v l)) st, None) | _ => return_nil st end.

(** The cell holds the values of the term in the solutions. *)
Definition collected (t : value) (d : nat) (Ws : list vstore) (w : value) : Prop :=
  exists l, w = SetV l /\ data w /\ bounded (S d) w /\
    forall x, set_mem x l = true <-> exists V v, V ∈ Ws /\ gv V u t v /\ Equal x v = true.

Lemma collected_add t d Ws w V v : gv V u t v -> bounded d v -> collected t d Ws w ->
  exists l, w = SetV l /\ collected t d (Ws ++ [V]) (SetV (set_insert v l)).
Proof.
  intros G Bv (l & -> & Dl & Bl & H). exists l. split; [done|]. inversion Dl as [? X| | |? Sl Fl]; subst; [done|].
  assert (Hin : forall y, y ∈ set_insert v l -> y ∈ l \/ y = v).
  { intros y Hy. destruct (set_elems [v] l y Hy) as [?|?%list_elem_of_singleton]; auto. }
  exists (set_insert v l). split_ands; [done| | |].
  - apply data_set; [by apply set_insert_ssorted|]. apply Forall_forall. intros y [Hy| ->]%Hin; [|by eapply gv_data].
    rewrite Forall_forall in Fl. by apply Fl.
  - simpl in Bl |- *. apply Forall_forall. intros y [Hy| ->]%Hin; [|done]. rewrite Forall_forall in Bl. by apply Bl.
  - intros x. rewrite set_mem_insert, orb_true_iff, H by done. split.
    + intros [Q|(V' & v' & HV & ?)]; [exists V, v|exists V', v']; (split; [set_solver|]); [done|done].
    + intros (V' & v' & [HV|HV%list_elem_of_singleton]%elem_of_app & Gv' & Q); [right; by exists V', v'|left].
      subst V'. by rewrite (gv_fun _ _ _ _ G v' Gv').
Qed.

Lemma term_value t d id i st X V : pattern_ok N t -> pvars t ⊆ B ∪ X -> fits D d t -> stage N D u B id i st ->
  extends (sview st) V -> bound D u X V -> exists v, gv V u t v /\ bounded d v.
Proof.
  intros (P & _ & _) Hv Hf St XV Bx. assert (Bd : bound D u (B ∪ X) V).
  { apply bound_union. split; [|done]. eapply bound_mono; [exact XV|apply St]. }
  destruct (pat_gv V u t P) as [v Gv].
  { intros x Hx. destruct (Bd x (Hv x Hx)) as (w & Gw & _). by exists w. }
  exists v. split; [done|]. eapply fits_bounded; [exact Gv| |exact Hf]. intros x w Hx Gw.
  destruct (Bd x (Hv x Hx)) as (w' & Gw' & Bw). by rewrite (gv_fun _ _ _ _ Gw w' Gw').
Qed.

Lemma collected_start t d : collected t d [] (SetV []).
Proof.
  exists []. split_ands; [done|apply data_set; [apply Sorted.SSorted_nil|by apply Forall_nil]|by apply Forall_nil|]. intros x. split; [done|]. by intros (V & v & []%elem_of_nil & _).
Qed.

Section Comprehension.
Context (fuel : nat) (t : value) (body : list expr) (d : nat) (id : BinNums.N) (i : nat) (st : ustate).
Context (Hok : closure_ok B O body) (Hr : room body) (St : stage N D u B id i st).
Context (P : pattern_ok N t) (Hv : pvars t ⊆ B ∪ qvars body) (Hf : fits D d t) (Hd : (d <= N)%nat) (HF : (2 * N + 2 <= fuel)%nat).

Lemma collect_step st2 w : reach N (query_vars u (qvars body) (curr (us_env st))) (opened st (SetV [])) (found n (O ∪ qvars body) body) st2 ->
  get_cell (count st) st2 = Some w -> updates body st false (add_to_set fuel t (count st)) (collected t d) (fun _ => False) st2 w.
Proof.
  intros [I2 (X2 & _ & _ & B2) G2] Ec. destruct (term_value t d (curr (us_env st)) 0 (opened st (SetV [])) (qvars body) (sview st2) P Hv Hf) as (v & Gv & Bv);
    [by eapply opened_stage|done|done|]. unfold updates, finish, add_to_set. cbn [bindings_of EvalClosures.at_end findOne].
  rewrite (Plug_value N st2 N I2 fuel u t v Gv) by (done || by eapply bounded_le). cbn [mbind option_bind].
  rewrite Ec. cbn [mbind option_bind]. pose proof (lookup_lt_Some _ _ _ Ec).
  assert (Hc : (exists l, w = SetV l) \/ forall l, w <> SetV l) by (destruct w; eauto; right; done). destruct Hc as [[l ->]|Hn].
  - eexists _, _, (SetV (set_insert v l)). split; [done|].
    split_ands; [by apply inv_env|done|apply put_cell_frame|by apply put_cell_get|done|]. intros Ws HW.
    destruct (collected_add t d Ws _ (sview st2) v Gv Bv HW) as (l' & [= <-] & H'). done.
  - exists st2, None, w. split; [by destruct w; try done; destruct (Hn keys)|]. split_ands; try done.
    intros Ws (l & -> & _). by destruct (Hn l).
Qed.

(** The set has the meaning of the comprehension. *)
Lemma collected_meaning c k Vs st1 st2 l : runs N c k (from (query_vars u (qvars body) (curr (us_env st))) (sview st) (found n (O ∪ qvars body) body)) Vs st1 st2 None ->
  covers (nearby (sview st)) (sview st) Vs (satisfies n (O ∪ qvars body) body) ->
  collected t d Vs (SetV l) -> forall s, assigns s -> solves s (sview st) -> tval (input cx) docs (sat n) O (s u) (SetComprehension t body) (SetV l).
Proof.
  intros Rn C (l' & [= <-] & Dl & _ & Hl) s A S. split; [done|]. exists l. split; [done|]. intros x Dx. rewrite Hl. split.
  - intros (V1 & v & HV & Gv & Q). destruct (found_solution body Hok id i st St _ _ _ _ _ _ _ Rn s V1 A S HV) as (s' & Hs & A' & S').
    exists (s' u). split; [done|]. eapply Equal_trans; [exact Q|]. rewrite Equal_sym, <- ev_list. by eapply gv_ev.
  - intros (s' & Hs & Q). destruct (solution_found body Hok id i st St Vs s s' C A S Hs) as (V1 & s2 & HV & N2 & A2 & S2).
    destruct (runs_state N _ _ _ Vs _ st2 None V1 Rn HV) as (st3 & I3 & <- & X & Nw & Sd & Bd).
    destruct (term_value t d id i st (qvars body) (sview st3) P Hv Hf St X Bd) as (v & Gv & Bv).
    exists (sview st3), v. split_ands; [done|done|]. eapply Equal_trans; [exact Q|]. destruct P as (Pt & _ & Hu').
    rewrite <- (evs_alike s' (s2 u) t N2 Pt Hu'), <- ev_list. by eapply gv_ev.
Qed.

Lemma comprehension_set e : bindings_of e = u -> context_of e = cx ->
  exists st' v, (forall biunify b b1 b2 k, biunifyComprehensionSet fuel run biunify e t body b b1 b2 k st = biunify e v b b1 b2 k st') /\
    inv N st' /\ sview st' = sview st /\ quiet (count st) (us_env st) (us_env st') /\ data v /\ bounded (S d) v /\
    forall s, assigns s -> solves s (sview st) -> tval (input cx) docs (sat n) O (s u) (SetComprehension t body) v.
Proof.
  intros Hu Hcx. destruct (child_runs body Hok Hr id i st St (SetV []) false (add_to_set fuel t (count st)) (collected t d)
    (fun _ => False) collect_step) as (st' & r & Vs & w & E & I & V & Ec & Qu & HR & He & Rn & C).
  specialize (HR (collected_start t d)). pose proof HR as (l & -> & Dl & Bl & _).
  assert (r = None) as -> by (destruct r as [e'|]; [by destruct (He e')|done]).
  exists st', (SetV l). split_ands; [|done|done|done|done|done|by eapply collected_meaning; [exact Rn|exact (C eq_refl)|]].
  intros biunify b b1 b2 k. unfold biunifyComprehensionSet, comprehend. cbn [new_cell closure Next us_env set_env cells curr errs common]. rewrite Hu, Hcx.
  change (set_env (set_env st _) _) with (opened st (SetV [])). unfold add_to_set in E. rewrite E. cbn [mbind option_bind]. by rewrite Ec.
Qed.
End Comprehension.
End Inner.

(** *** Every *)
Section Every.
Context (n : nat) (run : eval -> (eval -> EK) -> EK) (room : list expr -> Prop) (IH : evaluates n run room).
Abbreviation closure_ok := (closure_ok (query_ok n)).

Definition good (O : gset string) body (V : vstore) : Prop := forall s, assigns s -> solves s V -> exists s2 : assignment, solution (sat n) O (s u) body s2.
Definition bad (O : gset string) body (V : vstore) : Prop := forall s, assigns s -> solves s V -> ~ exists s2 : assignment, solution (sat n) O (s u) body s2.

(** The body, for one element of the domain: it stops at the first solution. *)
Lemma body_runs B O body id i st : (forall x, x ∈ O -> user x) -> B ⊆ O -> closure_ok B O body -> room body -> stage N D u B id i st ->
  exists st' r b, run (MkEval body 0 (curr (us_env st)) u true cx) (fun _ st' => Some (put_cell (count st) (Boolean true) st', None)) (opened st (Boolean false)) = Some (st', r) /\
    inv N st' /\ sview st' = sview st /\ get_cell (count st) st' = Some (Boolean b) /\ quiet (count st) (us_env st) (us_env st') /\
    suppressEarlyExit r = None /\ if b then good O body (sview st) else bad O body (sview st).
Proof.
  intros HO HB Hok Hr St. destruct (child_runs n run room IH B O HO HB body Hok Hr id i st St (Boolean false) true
    (fun _ st' => Some (put_cell (count st) (Boolean true) st', None)) (fun Ws w => w = Boolean (negb (bool_decide (Ws = []))))
    (fun e => suppressEarlyExit (Some e) = None)) as (st' & r & Vs & w & E & I & V & Ec & Qu & HR & He & Rn & C).
  { intros st2 w R2 Ec. eexists _, _, (Boolean true). split; [done|]. pose proof (lookup_lt_Some _ _ _ Ec).
    split_ands; [apply inv_env; [apply R2|done]|done|apply put_cell_frame|by apply put_cell_get|by intros e [= <-]|]. intros Ws _. by destruct Ws. }
  specialize (HR eq_refl). subst w. exists st', r, (negb (bool_decide (Vs = []))). split_ands; [done..| |].
  - destruct r as [e|]; [by apply He|done].
  - destruct Vs as [|V1 Vs]; simpl.
    + assert (r = None) as -> by (by inversion Rn). intros s A S [s2 Hs].
      destruct (solution_found n run room IH B O HO HB body Hok id i st St [] s s2 (C eq_refl) A S Hs) as (V' & _ & []%elem_of_nil & _).
    + intros s A S. destruct (found_solution n B O HO HB body Hok id i st St _ _ _ _ _ _ _ Rn s V1 A S) as (s2 & Hs & _); [by left|]. by exists (s2 u).
Qed.

(** The cell tells whether the body has a solution for all elements so far. *)
Definition all_so_far (O : gset string) body (Ws : list vstore) (w : value) : Prop :=
  (w = Boolean true /\ forall V, V ∈ Ws -> good O body V) \/ (w = Boolean false /\ exists V, V ∈ Ws /\ bad O body V).

Definition check_body (all : nat) (body : list expr) (child : eval) : EK := fun st =>
  ok ← get_cell all st;
  if Equal ok (Boolean false) then return_nil st
  else
    let '(done, st) := new_cell (Boolean false) st in
    let '(inner, st) := closure child body st in
    let inner := MkEval (query inner) (index inner) (queryID inner) (bindings_of inner) true (context_of inner) in
    '(st, err) ← run inner (fun _ st => Some (put_cell done (Boolean true) st, None)) st;
    d ← get_cell done st;
    Some (if Equal d (Boolean true) then st else put_cell all (Boolean false) st, suppressEarlyExit err).

Lemma check_step B O body id i st all child w : (forall x, x ∈ O -> user x) -> B ⊆ O -> closure_ok B O body -> room body -> stage N D u B id i st ->
  bindings_of child = u -> context_of child = cx -> get_cell all st = Some w ->
  exists st3 w', check_body all body child st = Some (st3, None) /\ inv N st3 /\ sview st3 = sview st /\ frame (fun i => i <> all) (us_env st) (us_env st3) /\
    get_cell all st3 = Some w' /\ forall Ws, all_so_far O body Ws w -> all_so_far O body (Ws ++ [sview st]) w'.
Proof.
  intros HO HB Hok Hr St Hu Hcx Ec. pose proof (lookup_lt_Some _ _ _ Ec) as L. unfold check_body. rewrite Ec. cbn [mbind option_bind].
  destruct (Equal w (Boolean false)) eqn:Ew.
  { exists st, w. split_ands; [done|apply St|done|done|done|]. intros Ws [[-> _]|(-> & V & HV & Hb)]; [done|].
    right. split; [done|]. exists V. split; [set_solver|done]. }
  cbn [new_cell closure Next us_env set_env cells curr errs common query index queryID bindings_of context_of]. rewrite Hu, Hcx.
  change (set_env (set_env st _) _) with (opened st (Boolean false)).
  destruct (body_runs B O body id i st HO HB Hok Hr St) as (st3 & r & b & -> & I3 & V3 & Ec3 & Qu & Er & Hb). cbn [mbind option_bind].
  rewrite Ec3. cbn [mbind option_bind]. rewrite Er. assert (Fr : frame (fun i => i <> all) (us_env st) (us_env st3)).
  { eapply frame_weaken; [|exact Qu]. intros j Hj _. done. }
  assert (Eall : get_cell all st3 = Some w) by (unfold get_cell; rewrite (proj2 Qu); done). destruct b.
  - exists st3, w. split_ands; [done..|].
    intros Ws [[-> Hg]|[-> _]]; [|done]. left. split; [done|]. intros V [HV|HV%list_elem_of_singleton]%elem_of_app; [by apply Hg|by subst V].
  - eexists _, (Boolean false). split; [done|]. split_ands; [by apply inv_env|done|etransitivity; [exact Fr|apply put_cell_frame]| |].
    + apply put_cell_get. by eapply lookup_lt_Some.
    + intros Ws _. right. split; [done|]. exists (sview st). split; [set_solver|done].
Qed.

Lemma evalEvery_opened e key val domain body k st : let c := count st in
  evalEvery run e key val domain body k st =
  '(st', err) ← run (MkEval (generator key val domain) 0 (curr (us_env st)) (bindings_of e) false (context_of e)) (check_body c body) (opened st (Boolean true));
  match err with
  | Some _ => Some (st', err)
  | None => ok ← get_cell c st'; if Equal ok (Boolean true) then k st' else return_nil st'
  end.
Proof. done. Qed.

Lemma evalEvery_many cl B O F e key val domain body withs idx k id i st : let x := Expr (TEvery (Some key) val domain body) withs idx false in
  let gen := generator key val domain in let Q V := forall s, assigns s -> solves s V -> sat (S n) O (s u) x in
  (forall x, x ∈ O -> user x) -> B ⊆ O -> bindings_of e = u -> context_of e = cx -> closure_ok B O gen -> closure_ok (B ∪ qvars gen) (O ∪ qvars gen) body ->
  room gen -> room body -> stage N D u B id i st -> handles N cl (reach N F st Q) k ->
  many N F (nearby (sview st)) st Q (fun s => assigns s /\ sat (S n) O (s u) x) k (evalEvery run e key val domain body k st).
Proof.
  intros x gen Q HO HB Hu Hcx Hg Hb Rg Rb St Hk. set (O1 := O ∪ qvars gen) in *.
  assert (HO1 : forall y, y ∈ O1 -> user y) by (intros y [Hy|Hy]%elem_of_union; [by apply HO|by apply Hg]).
  destruct (child_runs n run room IH B O HO HB gen Hg Rg id i st St (Boolean true) false (check_body (count st) body) (all_so_far O1 body)
    (fun _ => False)) as (st' & r & Vs & w & E & I & V & Ec & Qu & HR & He & Rn & C).
  { intros st2 w R2 Ec.
    destruct (check_step (B ∪ qvars gen) O1 body id i st2 (count st) (at_end gen (curr (us_env st)) false) w)
      as (st3 & w' & Ek & I3 & V3 & Fr & Ec3 & HR); try done; [set_solver| |].
    - eapply (stage_query N D u B id i (qvars gen) (curr (us_env st)) (opened st (Boolean true))); [|..|exact R2|apply R2].
      + eapply stage_same; [exact St|apply inv_env; [apply St|done]|done|]. split; simpl; [rewrite length_app; lia|lia].
      + pose proof (sg_id _ _ _ _ _ _ _ St). lia.
      + destruct (rc_env _ _ _ _ _ R2) as [_ Hc]. simpl in Hc. lia.
    - exists st3, None, w'. split; [unfold finish; by rewrite Ek|]. split_ands; done. }
  assert (r = None) as -> by (destruct r as [e'|]; [by destruct (He e')|done]). specialize (HR ltac:(left; split; [done|]; by intros V' ?%elem_of_nil)).
  rewrite evalEvery_opened, Hu, Hcx. fold gen. cbn zeta. rewrite E. cbn [mbind option_bind].
  rewrite Ec. cbn [mbind option_bind]. destruct HR as [[-> Ha]|(-> & V1 & HV & Hbad)].
  - eapply many_call; [apply _|try done..]. intros s A S s1 Hs1.
    destruct (solution_found n run room IH B O HO HB gen Hg id i st St Vs s s1 (C eq_refl) A S Hs1) as (V1 & s2 & HV & N2 & A2 & S2).
    destruct (Ha V1 HV s2 A2 S2) as [s3 Hs3]. exists s3. by eapply (solution_same (sat n) O1 HO1 s1 (s2 u)).
  - apply many_none; try done. intros s S [A Hx].
    destruct (found_solution n B O HO HB gen Hg id i st St _ _ _ _ _ _ _ Rn s V1 A S HV) as (s1 & Hs1 & A1 & S1).
    apply (Hbad s1 A1 S1). by apply Hx.
Qed.
End Every.
End Closures.
