(* ===== verification/EvalChild.v ===== *)
(** The bindings of a rule: a list of its own, which is dropped at the end. *)
From Stdlib Require Import ZArith Lia String.
From stdpp Require Import base gmap list strings pretty.
From S2P Require Import Prelude SortedKeys Value Containers SetTable ObjectTable RefOps Builtins Document VarVisitor Safety Index EvalCache RuleTree Bindings.
From S2P Require Import Unify UnifySound UnifyTotal EvalGround Eval EvalRefs EvalTerms EvalSem EvalRules EvalStates EvalClosures.

Lemma new_pointer_fresh (h : heap) : h !! new_pointer h = None.
Proof.
  destruct (h !! new_pointer h) as [b|] eqn:E; [|done]. exfalso. apply elem_of_map_to_list in E.
  assert (H : forall l p, p ∈ l -> (p <= fold_right Nat.max 0 l)%nat).
  { induction l as [|q l IH]; intros p Hp; [by apply elem_of_nil in Hp|]. simpl. apply elem_of_cons in Hp as [->|Hp]; [lia|]. specialize (IH p Hp). lia. }
  specialize (H _ _ (list_elem_of_fmap_2 fst _ _ E)). unfold new_pointer in H. simpl in H. change (fst <$> map_to_list h) with (map fst (map_to_list h)) in H. lia.
Qed.

(** ** A store with an empty list more *)
Section Fresh.
Context (V : vstore) (p : nat) (id : BinNums.N) (Hp : V !! p = None).
Abbreviation V1 := (<[p := (id, ∅)]> V).

Lemma fresh_vget u x : vget V1 u x = vget V u x.
Proof using Hp.
  destruct u as [q|]; [|done]. unfold vget. destruct (decide (q = p)) as [->|Hq]; [|by rewrite lookup_insert_ne].
  by rewrite lookup_insert_eq, Hp, lookup_empty.
Qed.
Lemma fresh_vcount : vcount V1 = vcount V.
Proof using Hp. unfold vcount. rewrite map_fold_insert_L; [done| |done]. intros. lia. Qed.
Lemma fresh_extends : extends V V1.
Proof using Hp. split; [intros u x bv; by rewrite fresh_vget|]. intros q Hq. apply lookup_insert_is_Some. destruct (decide (p = q)); auto. Qed.
Lemma fresh_valid : valid V1 (Some p).
Proof. exists p. split; [done|]. by rewrite lookup_insert_eq. Qed.
Lemma fresh_invalid : ~ valid V (Some p).
Proof using Hp. intros (q & [= <-] & [w Hw]). congruence. Qed.
End Fresh.

Lemma chain_vget V V' u t n : (forall u x, vget V' u x = vget V u x) -> chain V u t n -> chain V' u t n.
Proof. intros H. induction 1 as [u t Ht|u x Hx|u x bv n Hx _ IH]; [by apply chain_term|apply chain_free; by rewrite H|]. eapply chain_bound; [by rewrite H|done]. Qed.

Section Inv.
Context `{SI : SharedInv} (N : nat).

(** The invariant is one of the bindings. *)
Lemma inv_vget st st' : inv N st -> heap_wf (us_heap st') -> extends (sview st) (sview st') -> (forall u x, vget (sview st') u x = vget (sview st) u x) ->
  vcount (sview st') = vcount (sview st) -> shared_ok (common (us_env st')) -> inv N st'.
Proof.
  intros [[W P C] Cl G _] W' X Hv Hc Sh. split; [split|..]; [done| | | | |done].
  - intros u x bv. fold (sview st'). rewrite Hv. apply P.
  - intros u t. destruct (C u t) as (n & Hn & Ch). exists n. fold (sview st') in *. rewrite Hc. split; [done|]. by eapply chain_vget.
  - intros u x bv. rewrite Hv. intros Hb. eapply valid_extends; [exact X|by eapply Cl].
  - intros u x bv. rewrite Hv. intros Hb. destruct (G u x bv Hb) as (v & Gv & Bv). exists v. split; [by eapply gv_mono|done].
Qed.
Lemma inv_sview st st' : inv N st -> heap_wf (us_heap st') -> sview st' = sview st -> shared_ok (common (us_env st')) -> inv N st'.
Proof. intros I W E Sh. apply (inv_vget st); try done; by rewrite E. Qed.

(** *** Opening and dropping a list *)
Definition pointer (st : ustate) : option nat := Some (new_pointer (us_heap st)).
Definition own (st : ustate) (more : list value) : ustate :=
  let env := us_env st in
  MkUstate (<[new_pointer (us_heap st) := newBindings (curr env)]> (us_heap st)) (us_iters st)
    (MkEnv (cells env ++ more) (curr env + 1)%N (errs env) (common env)).

Lemma pointer_fresh st : sview st !! new_pointer (us_heap st) = None.
Proof. unfold sview. by rewrite view_lookup, new_pointer_fresh. Qed.
Lemma own_view st more : sview (own st more) = <[new_pointer (us_heap st) := (curr (us_env st), ∅)]> (sview st).
Proof. unfold sview, own, view. cbn [us_heap]. by rewrite fmap_insert. Qed.
Lemma own_inv st more : inv N st -> inv N (own st more).
Proof.
  intros I. pose proof (pointer_fresh st) as Hp. apply (inv_vget st); [done| | | | |apply I].
  - intros q b. unfold own. cbn [us_heap]. destruct (decide (q = new_pointer (us_heap st))) as [->|Hq].
    + rewrite lookup_insert_eq. intros [= <-]. apply hm_wf_new.
    + rewrite lookup_insert_ne by done. apply I.
  - rewrite own_view. by apply fresh_extends.
  - intros u x. rewrite own_view. by apply fresh_vget.
  - rewrite own_view. by apply fresh_vcount.
Qed.
Lemma own_stage D st more : inv N st -> stage N D (pointer st) ∅ (curr (us_env st)) 0 (own st more).
Proof.
  intros I. split; [by apply own_inv| |by intros x ?%elem_of_empty| |simpl; lia].
  - rewrite own_view. apply fresh_valid.
  - intros x bv. rewrite own_view, fresh_vget by apply pointer_fresh. intros Hx%vget_valid. by destruct (fresh_invalid _ _ (pointer_fresh st)).
Qed.
Lemma own_quiet st more : quiet (count st) (us_env st) (us_env (own st more)).
Proof. split; [split; simpl; [rewrite length_app; lia|lia]|]. intros i Hi _. by apply lookup_app_l. Qed.

(** What is reached with the list, is reached without it. *)
Lemma own_reach F X st0 st more Q st1 : sview st = sview st0 -> grow (us_env st0) (us_env st) ->
  reach N (query_vars (pointer st) X (curr (us_env st))) (own st more) Q st1 -> reach N F st0 (fun _ => True) st1.
Proof.
  intros E G [I1 (X1 & Nw & _) G1]. rewrite own_view in X1, Nw. pose proof (pointer_fresh st) as Hp. pose proof (fresh_extends _ _ (curr (us_env st)) Hp) as X0.
  split; [done| |].
  - split; [|split; [|done]]; rewrite <- E; [by etransitivity|]. intros u x bv Vu Hx.
    destruct (Nw u x bv ltac:(by eapply valid_extends) Hx) as [Hx'|[-> _]]; [rewrite fresh_vget in Hx' by done; by left|by destruct (fresh_invalid _ _ Hp)].
  - etransitivity; [exact G|]. etransitivity; [apply own_quiet|exact G1].
Qed.

Lemma release_inv e st more st' : inv N st -> inv N st' -> bindings_of e = pointer st -> sview st' = sview (own st more) ->
  inv N (release e st') /\ sview (release e st') = sview st /\ us_env (release e st') = us_env st'.
Proof.
  intros I I' Ep E. unfold release. rewrite Ep. cbn [pointer]. assert (Ev : sview (set_heap st' (delete (new_pointer (us_heap st)) (us_heap st'))) = sview st).
  { unfold sview, set_heap. cbn [us_heap]. unfold view. rewrite fmap_delete. fold (view (us_heap st')). fold (sview st'). rewrite E, own_view.
    apply delete_insert_id, pointer_fresh. }
  split_ands; [|done|done]. apply (inv_sview st); [done| |done|apply I'].
  intros q b. cbn [us_heap set_heap]. intros [_ H]%lookup_delete_Some. by apply (pre_wf _ (i_pre _ _ I')) in H.
Qed.

Lemma reach_moved F st st1 st2 (Q : vstore -> Prop) : reach N F st Q st1 -> sview st2 = sview st1 -> grow (us_env st1) (us_env st2) -> inv N st2 -> reach N F st Q st2.
Proof. intros [_ Fr G] E G2 I2. split; [done|by rewrite E|by etransitivity]. Qed.
Lemma reach_valid F st Q st1 v : reach N F st Q st1 -> valid (sview st) v -> valid (sview st1) v.
Proof. intros [_ [X _] _]. by apply valid_extends. Qed.

(** *** Assignments *)

(** An assignment to the old lists, and the values of the store for the new ones. *)
Lemma extension F st0 st1 s : inv N st0 -> reach N F st0 (fun _ => True) st1 -> (forall u x bv, valid (sview st0) u -> vget (sview st1) u x = Some bv -> vget (sview st0) u x = Some bv) ->
  assigns s -> solves s (sview st0) -> exists s', assigns s' /\ solves s' (sview st1) /\ same (valid (sview st0)) s s'.
Proof.
  intros I0 [I1 (X & _) _] Old A S. destruct (completion N st1 s I1 A) as (s1 & A1 & S1 & _).
  assert (Dec : forall v, Decision (valid (sview st0) v)).
  { intros [p|]; [|right; by intros (? & ? & _)]. destruct (sview st0 !! p) as [w|] eqn:E; [left; exists p; split; [done|by rewrite E]|].
    right. intros (q & [= <-] & [w Hw]). congruence. }
  exists (fun v x => if decide (valid (sview st0) v) then s v x else s1 v x). split_ands.
  - intros v x. case_decide; [apply A|apply A1].
  - apply (solves_values N st1 _ I1). intros v x w G. case_decide as Hv; [|by apply (gv_ev (sview st1) s1 v (Var x))].
    inversion G as [? ? bv ? Hx _|? ? Z| | |]; subst; [|done]. destruct (inv_bound N st0 v x bv I0 (Old v x bv Hv Hx)) as [w' G'].
    rewrite (gv_fun _ _ _ _ G w' (gv_mono _ _ _ _ _ X G')). by apply (gv_ev (sview st0) s v (Var x)).
  - split; [|intros _ v x; case_decide; [apply A|apply A1]]. intros v x Hv _. by case_decide.
Qed.
End Inv.
