(* ===== verification/EvalVirtual.v ===== *)
(** Evaluation of complete rules: a reference to their document calls the continuation with
    the value that the rules give, if there is one. *)
From Stdlib Require Import ZArith Lia String.
From stdpp Require Import base gmap list strings pretty.
From S2P Require Import Prelude SortedKeys Value Containers SetTable ObjectTable RefOps Builtins Document VarVisitor Safety Index EvalCache RuleTree Bindings.
From S2P Require Import Unify UnifySound UnifyTotal EvalGround Eval EvalRefs EvalTerms EvalSem EvalRules EvalDocs EvalStates EvalClosures EvalChild.

(** ** Early exits *)

(** What [finish] makes of the error of its continuation. *)
Definition fin (one : bool) (r : option eval_error) : option eval_error :=
  match r with
  | Some (EarlyExit _) | Some (DeferredEarlyExit _) => Some (if one then EarlyExit r else DeferredEarlyExit r)
  | Some _ => r
  | None => if one then Some (EarlyExit None) else None
  end.
Lemma suppress_fin one r : suppressEarlyExit (fin one r) = r.
Proof. by destruct r as [[]|], one. Qed.
Lemma finish_fin e iter st : finish e iter st = '(st, r) ← iter e st; Some (st, fin (findOne e) r).
Proof. reflexivity. Qed.

(** The first call. *)
Lemma runs_cases `{SI : SharedInv} N c iter P Vs st st' r : runs N c iter P Vs st st' r -> (Vs = [] /\ r = None /\ quiet c (us_env st) (us_env st')) \/
  exists s1 s2 r1, quiet c (us_env st) (us_env s1) /\ P (sview s1) /\ inv N s1 /\ iter s1 = Some (s2, r1) /\
    ((exists Ws r', (r1 = None \/ exists er, r1 = Some er /\ soft er = true) /\ (r' = None -> r = r1) /\ runs N c iter P Ws s2 st' r') \/
     (r = r1 /\ quiet c (us_env s2) (us_env st'))).
Proof.
  intros Rn. destruct Rn as [st st' Qu|st s1 s3 st' r Vs Qu HP I1 It _ Rr|st s1 s3 st' er r Vs Qu HP I1 It _ So Rr|st s1 s3 st' er Qu HP I1 It _ So Q2]; [by left|right..].
  - exists s1, s3, None. split_ands; [done..|]. left. exists Vs, r. split_ands; [by left|done|done].
  - exists s1, s3, (Some er). split_ands; [done..|]. left. exists Vs, r. split_ands; [right; by exists er|by intros ->|done].
  - exists s1, s3, (Some er). split_ands; [done..|by right].
Qed.

Section Rules.
Context (builtinFunc : list value -> option Builtin) (pol : policy) (cx : context) (n0 : nat) (J : list value -> value -> Prop) (N M : nat).
Abbreviation tree := (ruleTree pol).
#[local] Instance caches_inv : SharedInv := caches_ok J.
Abbreviation docs := (docs tree J).
Context (J_data : forall pre w, J pre w -> data w) (J_fun : forall pre w w', J pre w -> J pre w' -> Equal w w' = true).
Context (ok : list value -> nat -> Prop) (run : eval -> (eval -> EK) -> EK) (room : list expr -> Prop).
Context (IH : forall D u, evaluates builtinFunc cx docs ok N M D u n0 run room).
Abbreviation sat_body := (sat_body builtinFunc (input cx) tree n0 J).
Abbreviation rule_value := (rule_value builtinFunc (input cx) tree n0 J).
Abbreviation chain_value := (chain_value builtinFunc (input cx) tree n0 J).
Abbreviation some_chain := (some_chain builtinFunc (input cx) tree n0 J).

(** The reference: [pre] is the path of the rules; [Walk] says what the walk along the rest
    of it does from the value of the rules. *)
Context (fuel : nat) (HF : (2 * N + 2 <= fuel)%nat) (biunify : eval -> value -> value -> option nat -> option nat -> EK -> EK).
Context (e : eval) (He : context_of e = cx) (pre rest : list value) (Pre : Forall plain_key pre).
Context (bindings : option nat) (rterm : value) (rbindings : option nat) (iter : EK).
Context (d : nat) (Hd : (d <= N)%nat) (Jb : forall w, J pre w -> bounded d w).
Context (F : option nat -> string -> Prop) (cl : nat) (st0 : ustate) (I0 : inv N st0) (Hcl : (cl <= count st0)%nat).
Context (Q : vstore -> Prop) (Eqn : valuation -> Prop).
Abbreviation samev := (same (valid (sview st0))).
Context (Eqn_assigns : forall s, Eqn s -> assigns s) (Eqn_same : forall s s', samev s s' -> Eqn s -> Eqn s').
Context (Eqn_doc : forall s, Eqn s -> exists w, J pre w).
Context (Hiter : handles N cl (reach N F st0 Q) iter).
Abbreviation walk t tb := (evalTerm_from fuel biunify e bindings rterm rbindings iter rest t tb).
Context (Walk : forall st1 t tb v, reach N F st0 (fun _ => True) st1 -> valid (sview st1) tb -> gv (sview st1) tb t v -> (forall x, t <> Var x) -> J pre v ->
  many N F samev st1 Q Eqn iter (walk t tb st1)).

(** The calls of the continuation between two states, for all solutions. *)
Definition called (st st' : ustate) (r : option eval_error) : Prop :=
  exists Ws, runs N (count st0) iter (from F (sview st0) Q) Ws st st' r /\ (r = None -> covers samev (sview st0) Ws Eqn).

Lemma called_between st st1 st2 st' r : quiet (count st0) (us_env st) (us_env st1) -> called st1 st2 r -> quiet (count st0) (us_env st2) (us_env st') -> called st st' r.
Proof. intros Q1 (Ws & R & C) Q2. exists Ws. split; [|done]. eapply runs_quiet; [exact Q1|]. by eapply runs_quiet_r. Qed.

(** A walk that starts in a state without new variables in the lists. *)
Lemma walk_called st1 t tb v : reach N (fun _ _ => False) st0 (fun _ => True) st1 -> valid (sview st1) tb -> gv (sview st1) tb t v -> (forall x, t <> Var x) -> J pre v ->
  exists st2 r, walk t tb st1 = Some (st2, r) /\ inv N st2 /\ sview st2 = sview st1 /\ keeps cl (us_env st1) (us_env st2) /\ called st1 st2 r.
Proof.
  intros R1 Vt Gt Nt Hv. assert (R2 : reach N F st0 (fun _ => True) st1).
  { destruct R1 as [I1 (X & Nw & _) G1]. split; [done| |done]. split; [done|]. split; [|done]. intros u x bv Vu Hx. by destruct (Nw u x bv Vu Hx); [left|]. }
  destruct (Walk st1 t tb v R2 Vt Gt Nt Hv) as (st2 & r & Ws & E & I2 & V2 & Rn & C). exists st2, r. split_ands; [done..| |].
  - eapply (many_keeps N F cl iter st1 Q Ws); [|exact Rn]. eapply handles_impl; [|exact Hiter]. intros st3 R3. by eapply reach_trans.
  - exists Ws. split.
    + eapply runs_weaken; [apply R2| |exact Rn]. intros V. apply from_trans with (Q := fun _ => True). apply R2.
    + intros Er s S HE. destruct R1 as [I1 (X & Nw & _) G1].
      destruct (extension N F st0 st1 s I0 R2) as (s1 & A1 & S1 & H1); [|by apply Eqn_assigns|done|].
      { intros u x bv Vu Hx. by destruct (Nw u x bv Vu Hx). }
      destruct (C Er s1 S1 (Eqn_same _ _ H1 HE)) as (V & s2 & HV & H2 & S2). exists V, s2. split_ands; [done|by etransitivity|done].
Qed.

(** *** One rule *)
Section Rule.
Context (r : rule) (D : string -> nat) (head : value) (Hv : r_value r = Some head).
Abbreviation body := (r_body r).
Abbreviation X := (qvars body).
Context (Hq : query_ok builtinFunc (input cx) ok N M D n0 ∅ X body) (Hu : forall x, x ∈ X -> user x).
Context (Hp : pattern_ok N head) (Hs : pvars head ⊆ X) (Hroom : room body) (HJ : forall w, data w -> rule_value r w -> J pre w).
Context (st : ustate) (I : inv N st) (Ev : sview st = sview st0) (G : grow (us_env st0) (us_env st)).
Abbreviation p := (pointer st).
Abbreviation id := (curr (us_env st)).
Abbreviation cprev := (count st).
Abbreviation cresult := (S (count st)).
Abbreviation found := (found builtinFunc cx docs D p n0 X body).
Abbreviation reached prev := (reach N (query_vars p X id) (own st [maybe_cell prev; nil_cell]) found).
Abbreviation value_found := (value_found fuel biunify e pre rest bindings rterm rbindings iter r cresult cprev).

Lemma rule_scope : scope builtinFunc cx ok N M D n0 ∅ X body.
Proof. by split. Qed.

Lemma head_value prev st2 : reached prev st2 -> exists v, gv (sview st2) p head v /\ J pre v.
Proof.
  intros [I2 (X2 & _ & Sd & Bd) _]. destruct (pat_gv (sview st2) p head) as [v Gv]; [apply Hp| |].
  { intros x Hx. destruct (Bd x (Hs x Hx)) as (w & Gw & _). by exists w. }
  exists v. split; [done|]. apply HJ; [by eapply gv_data|].
  destruct (completion N st2 (fun _ _ => Null) I2) as (s & A & S & _); [intros u x; by apply data_scalar|].
  exists head, (s p). split_ands; [done|split; [by intros x|by apply Sd]|]. rewrite Equal_sym, <- ev_list. by eapply gv_ev.
Qed.

Lemma own_cells prev st2 : grow (us_env (own st [maybe_cell prev; nil_cell])) (us_env st2) -> (cresult < count st2)%nat.
Proof. intros [L _]. simpl in L. rewrite length_app in L. simpl in L. lia. Qed.

(** The value is known already. *)
Lemma found_known prev c st2 w pv : bindings_of c = p -> reached prev st2 -> get_cell cprev st2 = Some w -> cell_term w = Some pv ->
  exists v, J pre v /\ value_found c st2 = Some (put_cell cresult (term_cell v) st2,
    if Equal v pv then None else Some (OtherErr "complete rules must not produce multiple outputs")).
Proof.
  intros Ec R2 Ew Et. destruct (head_value prev st2 R2) as (v & Gv & Jv). exists v. split; [done|]. unfold EvalRules.value_found. rewrite Hv, Ec. cbn [mbind option_bind].
  rewrite (Plug_value N st2 N (rc_inv _ _ _ _ _ R2) fuel p head v Gv) by (done || by eapply bounded_le, Jb). cbn [mbind option_bind].
  unfold get_cell. cbn [us_env put_cell set_env cells]. rewrite list_lookup_insert_ne by lia. unfold get_cell in Ew. rewrite Ew. cbn [mbind option_bind].
  rewrite Et. by destruct (Equal v pv).
Qed.

(** The first value. *)
Lemma found_new prev c st2 w : bindings_of c = p -> reached prev st2 -> get_cell cprev st2 = Some w -> cell_term w = None ->
  exists v st3 r1, J pre v /\ value_found c st2 = Some (st3, r1) /\ inv N st3 /\ sview st3 = sview st2 /\
    get_cell cprev st3 = Some (term_cell v) /\ get_cell cresult st3 = Some (term_cell v) /\ keeps (count st + 2) (us_env st2) (us_env st3) /\ called st2 st3 r1.
Proof.
  intros Ec R2 Ew Et. pose proof (own_cells prev st2 (rc_env _ _ _ _ _ R2)) as L. pose proof (rc_inv _ _ _ _ _ R2) as I2. pose proof (proj1 G) as G0.
  destruct (head_value prev st2 R2) as (v & Gv & Jv). destruct (put_caches_ok J (common (us_env st2)) pre (Some v)) as (vc & Ep & Hc);
    [apply I2|done|by intros ? [= <-]|done|].
  set (s1 := set_virtual (put_cell cprev (term_cell v) (put_cell cresult (term_cell v) st2)) vc).
  assert (I1 : inv N s1) by (apply (inv_sview N st2); [done|apply I2|done|exact Hc]).
  assert (K1 : frame (fun i => i <> cprev /\ i <> cresult) (us_env st2) (us_env s1)).
  { split; [split; simpl; [by rewrite !length_insert|done]|]. intros i [Hi Hi'] _. simpl. by rewrite !list_lookup_insert_ne. }
  destruct (apply_ground N s1 p head I1) as (t & tb & Ea & Ht). assert (Ht' : valid (sview s1) tb /\ gv (sview s1) tb t v /\ forall x, t <> Var x).
  { assert (Vp : valid (sview st2) p) by (eapply reach_valid; [exact R2|apply (own_stage N D st _ I)]).
    destruct Ht as [(-> & -> & Hn)|(v' & G1 & G2 & _ & Nt & Vt)].
    - split_ands; [done|done|]. intros x Hx. rewrite Hx in Gv. by apply (gv_unbound _ _ _ _ (Hn x Hx) Gv).
    - rewrite (gv_fun _ _ _ _ Gv v' G1). split_ands; [by apply Vt|done|done]. }
  destruct Ht' as (Vt & Gt & Nt).
  destruct (walk_called s1 t tb v) as (st3 & r1 & Ew3 & I3 & V3 & K3 & C3); [|done|done|done|done|].
  { apply (reach_moved N _ st0 st2 s1); [by eapply own_reach|done|apply K1|done]. }
  exists v, st3, r1. split; [done|]. split; [|split_ands].
  - unfold EvalRules.value_found. rewrite Hv, Ec. cbn [mbind option_bind].
    rewrite (Plug_value N st2 N I2 fuel p head v Gv) by (done || by eapply bounded_le, Jb). cbn [mbind option_bind].
    unfold get_cell at 1. cbn [us_env put_cell set_env cells]. rewrite list_lookup_insert_ne by lia. unfold get_cell in Ew. rewrite Ew. cbn [mbind option_bind].
    rewrite Et. unfold cache_put. change (common (us_env (put_cell cprev _ _))) with (common (us_env st2)). rewrite Ep. cbn [mbind option_bind]. fold s1.
    rewrite Ea. exact Ew3.
  - done.
  - by rewrite V3.
  - unfold get_cell. rewrite (proj2 K3 cprev) by (simpl; rewrite ?length_insert; lia). simpl. apply list_lookup_insert_eq. rewrite length_insert. lia.
  - unfold get_cell. rewrite (proj2 K3 cresult) by (simpl; rewrite ?length_insert; lia). simpl. rewrite list_lookup_insert_ne by lia. by apply list_lookup_insert_eq.
  - etransitivity; [eapply frame_weaken; [|exact K1]|eapply frame_weaken; [|exact K3]]; intros i Hl Hi; cbv beta in *; lia.
  - eapply called_between; [|exact C3|done]. eapply frame_weaken; [|exact K1]. intros i Hl Hi; cbv beta in *; lia.
Qed.

Abbreviation k one := (finish (at_end cx p body id one) value_found).
Abbreviation start prev := (own st [maybe_cell prev; nil_cell]).
Abbreviation solutions prev := (from (query_vars p X id) (sview (start prev)) found).

Lemma rule_handles prev one : handles N (count st + 2) (reached prev) (k one).
Proof.
  intros st2 R2. pose proof (own_cells prev st2 (rc_env _ _ _ _ _ R2)) as L. destruct (lookup_lt_is_Some_2 (cells (us_env st2)) cprev ltac:(lia)) as [w Ew].
  rewrite finish_fin. destruct (cell_term w) as [pv|] eqn:Et.
  - destruct (found_known prev (at_end cx p body id one) st2 w pv eq_refl R2 Ew Et) as (v & _ & ->). cbn [mbind option_bind]. eexists _, _.
    split_ands; [done|apply inv_env; [apply R2|done]|done|]. eapply frame_weaken; [|apply put_cell_frame]. intros i _ Hi. cbv beta in *. lia.
  - destruct (found_new prev (at_end cx p body id one) st2 w eq_refl R2 Ew Et) as (v & st3 & r1 & _ & -> & I3 & V3 & _ & _ & K3 & _). cbn [mbind option_bind]. by eexists _, _.
Qed.

Lemma start_count prev : count (start prev) = (count st + 2)%nat.
Proof. simpl. rewrite length_app. simpl. lia. Qed.

Lemma rule_runs prev one : exists st' err Vs, run (MkEval body 0 id p one cx) value_found (start prev) = Some (st', err) /\ inv N st' /\ sview st' = sview (start prev) /\
  runs N (count st + 2) (k one) (solutions prev) Vs (start prev) st' err /\ (err = None -> Vs = [] -> ~ exists s, sat_body r s).
Proof.
  destruct (IH D p ∅ X body id (start prev) value_found one (count st + 2) rule_scope Hroom (own_stage N D st _ I) ltac:(by rewrite start_count) (rule_handles prev one))
    as (st' & err & Vs & E & I' & V' & Rn & C). rewrite start_count in Rn. exists st', err, Vs. split_ands; [done..|]. intros Er -> [s [A Sb]].
  destruct (completion N (start prev) (fun _ => s) (own_inv N st _ I)) as (s1 & A1 & S1 & H1); [by intros v x|].
  assert (E1 : forall x, s1 p x = s x).
  { intros x. apply H1. rewrite own_view, fresh_vget by apply pointer_fresh. destruct (vget (sview st) p x) as [bv|] eqn:Ex; [|done].
    destruct (fresh_invalid _ _ (pointer_fresh st)). by eapply vget_valid. }
  destruct (C Er s1 S1) as (V & _ & []%elem_of_nil & _). split; [done|]. eapply (sats_alike builtinFunc cx docs ok N M D n0 ∅ X body s); [apply rule_scope|by intros x _|done].
Qed.

(** Once there is a value, no more calls. *)
Lemma known_runs prev pv w Vs s1 s2 err : J pre pv -> runs N (count st + 2) (k false) (solutions prev) Vs s1 s2 err -> grow (us_env (start prev)) (us_env s1) ->
  get_cell cprev s1 = Some (term_cell pv) -> get_cell cresult s1 = Some w ->
  err = None /\ quiet (count st0) (us_env s1) (us_env s2) /\ exists w', get_cell cresult s2 = Some w' /\ (Vs = [] /\ w' = w \/ exists v, w' = term_cell v /\ J pre v).
Proof.
  intros Jp Rn G1 Ep Ew. pose proof (proj1 G) as G0.
  pose (K := fun (Ws : list vstore) en => (grow (us_env (start prev)) en /\ cells en !! cprev = Some (term_cell pv) /\ quiet (count st0) (us_env s1) en) /\
    exists w', cells en !! cresult = Some w' /\ (Ws = [] /\ w' = w \/ exists v, w' = term_cell v /\ J pre v)).
  assert (HK : K ([] ++ Vs) (us_env s2) /\ forall er, err = Some er -> False).
  { eapply (runs_inv N (count st + 2) (k false) _ K (fun _ => False)); [| |exact Rn|split; [done|exists w; split; [done|by left]]].
    - intros Ws en en' ((Ga & Ea & Qa) & w' & Eb & Hw) Qu. split; [|exists w'; split; [|done]].
      + split_ands; [etransitivity; [exact Ga|apply Qu]|rewrite (proj2 Qu); [done|lia|by eapply lookup_lt_Some]|].
        etransitivity; [exact Qa|]. eapply frame_weaken; [|exact Qu]. intros i _ Hi. cbv beta in *. lia.
      + rewrite (proj2 Qu); [done|lia|by eapply lookup_lt_Some].
    - intros Ws st2 st3 r2 Fr I2 ((Ga & Ea & Qa) & w' & Eb & Hw) Ek. destruct (found_known prev (at_end cx p body id false) st2 (term_cell pv) pv eq_refl) as (v & Jv & Ev'); [by split|done|done|].
      rewrite finish_fin, Ev', (J_fun _ _ _ Jv Jp) in Ek. injection Ek as <- <-. split; [|done]. split.
      + split_ands; [etransitivity; [exact Ga|apply put_cell_frame]|simpl; by rewrite list_lookup_insert_ne by lia|].
        etransitivity; [exact Qa|]. eapply frame_weaken; [|apply put_cell_frame]. intros i _ Hi. cbv beta in *. lia.
      + exists (term_cell v). split; [|right; by exists v]. apply list_lookup_insert_eq. by eapply lookup_lt_Some. }
  destruct HK as [((_ & _ & Qa) & w' & Eb & Hw) He']. split_ands; [destruct err as [er|]; [by destruct (He' er)|done]|done|by exists w'].
Qed.

(** Until then the first solution makes the walk. *)
Lemma fresh_runs one Vs s2 err : runs N (count st + 2) (k one) (solutions None) Vs (start None) s2 err ->
  (Vs = [] /\ err = None /\ quiet (count st0) (us_env st) (us_env s2) /\ get_cell cresult s2 = Some nil_cell) \/
  exists v r1, J pre v /\ called st s2 r1 /\ err = fin one r1 /\ get_cell cresult s2 = Some (term_cell v).
Proof.
  intros Rn. pose proof (proj1 G) as G0. assert (Qst : quiet (count st0) (us_env st) (us_env (start None))).
  { eapply frame_weaken; [|apply own_quiet]. intros i _ Hi. cbv beta in *. lia. }
  assert (E0 : forall en, quiet (count st + 2) (us_env (start None)) en -> quiet (count st0) (us_env st) en /\ cells en !! cprev = Some nil_cell /\ cells en !! cresult = Some nil_cell).
  { intros en Qu. split_ands; [etransitivity; [exact Qst|eapply frame_weaken; [|exact Qu]; intros i _ Hi; cbv beta in *; lia]|..];
      (rewrite (proj2 Qu); [simpl; rewrite lookup_app_r by lia|lia|simpl; rewrite length_app; simpl; lia]); [by rewrite Nat.sub_diag|by replace (S _ - _)%nat with 1%nat by lia]. }
  assert (First : forall s1 s3 r2, quiet (count st + 2) (us_env (start None)) (us_env s1) -> solutions None (sview s1) -> inv N s1 -> k one s1 = Some (s3, r2) ->
    exists v r1, J pre v /\ r2 = fin one r1 /\ called st s3 r1 /\ grow (us_env (start None)) (us_env s3) /\ get_cell cprev s3 = Some (term_cell v) /\ get_cell cresult s3 = Some (term_cell v)).
  { intros s1 s3 r2 Qu Fr I1 Ek. destruct (E0 _ Qu) as (Q1 & Ea & _).
    destruct (found_new None (at_end cx p body id one) s1 nil_cell eq_refl) as (v & s3' & r1 & Jv & Ev' & _ & _ & Ec & Ed & K3 & C3); [split; [done|done|apply Qu]|done|done|].
    rewrite finish_fin, Ev' in Ek. injection Ek as <- <-. exists v, r1. split_ands; [done|done| |etransitivity; [apply Qu|apply K3]|done|done]. by eapply called_between. }
  destruct (runs_cases _ _ _ _ _ _ _ _ Rn) as [(-> & -> & Qu)|(s1 & s3 & r2 & Qu & HP & I1 & It & Hr)].
  { left. destruct (E0 _ Qu) as (Q1 & _ & Ed). by split_ands. }
  destruct (First s1 s3 r2 Qu HP I1 It) as (v & r1 & Jv & -> & C3 & G3 & Ec & Ed). right. destruct Hr as [(Ws & r' & So & Er & Rr)|(-> & Q2)].
  - destruct one; [destruct r1 as [[]|]; destruct So as [?|(er & ? & ?)]; by simplify_eq/=|].
    destruct (known_runs None v (term_cell v) Ws s3 s2 r' Jv Rr G3 Ec Ed) as (-> & Q3 & w' & Ew' & Hw).
    assert (Hw' : exists v', w' = term_cell v' /\ J pre v') by (destruct Hw as [[_ ->]|]; [by exists v|done]). destruct Hw' as (v' & -> & Jv').
    exists v', r1. split_ands; [done|by eapply called_between; [reflexivity|exact C3|]|by apply Er|done].
  - exists v, r1. split_ands; [done| |done|].
    + eapply called_between; [reflexivity|exact C3|]. eapply frame_weaken; [|exact Q2]. intros i _ Hi. cbv beta in *. lia.
    + unfold get_cell. rewrite (proj2 Q2); [done|lia|by eapply lookup_lt_Some].
Qed.

Abbreviation evalValueRule := (evalValueRule fuel run biunify e pre rest bindings rterm rbindings iter).

Lemma rule_eq prev one : evalValueRule one r prev st =
  '(st', err) ← run (MkEval body 0 id p one cx) value_found (start prev);
  result ← get_cell cresult st';
  Some (release (MkEval body 0 id p one cx) st', err, cell_term result).
Proof.
  unfold EvalRules.evalValueRule. cbn [new_cell child Next us_env set_env cells curr errs common us_heap us_iters with_findOne query index queryID bindings_of context_of].
  rewrite length_app, Nat.add_1_r, <- (assoc_L (++)), He. reflexivity.
Qed.

Lemma rule_end prev one st' : inv N st' -> sview st' = sview (start prev) ->
  inv N (release (MkEval body 0 id p one cx) st') /\ sview (release (MkEval body 0 id p one cx) st') = sview st0 /\ us_env (release (MkEval body 0 id p one cx) st') = us_env st'.
Proof. intros I' E'. rewrite <- Ev. by apply (release_inv N _ st [maybe_cell prev; nil_cell]). Qed.

Lemma rule_fresh one : exists st' err res, evalValueRule one r None st = Some (st', err, res) /\ inv N st' /\ sview st' = sview st0 /\
  ((err = None /\ res = None /\ quiet (count st0) (us_env st) (us_env st') /\ ~ exists s, sat_body r s) \/
   exists v r1, J pre v /\ called st st' r1 /\ err = fin one r1 /\ res = Some v).
Proof.
  destruct (rule_runs None one) as (st' & err & Vs & E & I' & V' & Rn & Un). destruct (rule_end None one st' I' V') as (I2 & V2 & E2).
  rewrite rule_eq, E. cbn [mbind option_bind]. destruct (fresh_runs one Vs st' err Rn) as [(-> & -> & Qu & ->)|(v & r1 & Jv & C & -> & ->)];
    cbn [mbind option_bind]; eexists _, _, _; (split; [done|]); (split; [done|]); (split; [done|]).
  - left. rewrite E2. split_ands; [done..|by apply Un].
  - right. exists v, r1. split_ands; [done| |done|done]. eapply called_between; [reflexivity|exact C|]. by rewrite E2.
Qed.

Lemma rule_known pv : J pre pv -> exists st' res, evalValueRule false r (Some pv) st = Some (st', None, res) /\ inv N st' /\ sview st' = sview st0 /\
  quiet (count st0) (us_env st) (us_env st') /\ ((res = None /\ ~ exists s, sat_body r s) \/ exists v, res = Some v /\ J pre v).
Proof.
  intros Jp. destruct (rule_runs (Some pv) false) as (st' & err & Vs & E & I' & V' & Rn & Un). destruct (rule_end (Some pv) false st' I' V') as (I2 & V2 & E2).
  destruct (known_runs (Some pv) pv nil_cell Vs (start (Some pv)) st' err Jp Rn) as (-> & Qu & w & Ew & Hw);
    [done|unfold get_cell; simpl; by rewrite lookup_app_r, Nat.sub_diag by lia|unfold get_cell; simpl; rewrite lookup_app_r by lia; by replace (S _ - _)%nat with 1%nat by lia|].
  rewrite rule_eq, E. cbn [mbind option_bind]. rewrite Ew. cbn [mbind option_bind]. eexists _, _. split; [done|]. rewrite E2. split_ands; [done|done| |].
  - etransitivity; [|exact Qu]. eapply frame_weaken; [|apply own_quiet]. intros i _ Hi. pose proof (proj1 G). cbv beta in *. lia.
  - destruct Hw as [[-> ->]|(v & -> & Jv)]; [left; split; [done|by apply Un]|right; by exists v].
Qed.
End Rule.

(** *** Rules one after the other *)
Abbreviation evalValueRule := (evalValueRule fuel run biunify e pre rest bindings rterm rbindings iter).
Abbreviation fits r := (rule_ok builtinFunc cx n0 N M ok r /\ room (r_body r)).

(** The loops start here: nothing has been bound or called yet. *)
Definition idle (st : ustate) : Prop := inv N st /\ sview st = sview st0 /\ grow (us_env st0) (us_env st).

Lemma eval_fresh one r st : fits r -> (forall w, data w -> rule_value r w -> J pre w) -> idle st ->
  exists st' err res, evalValueRule one r None st = Some (st', err, res) /\ idle st' /\
    ((err = None /\ res = None /\ quiet (count st0) (us_env st) (us_env st') /\ ~ exists s, sat_body r s) \/
     exists v r1, J pre v /\ called st st' r1 /\ err = fin one r1 /\ res = Some v).
Proof.
  intros [(D & head & Hv & _ & Hq & Hu & Hp & Hs) Hr] HJ (I & V & G).
  destruct (rule_fresh r D head Hv Hq Hu Hp Hs Hr HJ st I V G one) as (st' & err & res & E & I' & V' & H). exists st', err, res. split; [done|]. split; [|done].
  split; [done|]. split; [done|]. etransitivity; [exact G|]. destruct H as [(_ & _ & Qu & _)|(v & r1 & _ & (Ws & R & _) & _)]; [apply Qu|by eapply runs_grow].
Qed.
Lemma eval_known pv r st : fits r -> (forall w, data w -> rule_value r w -> J pre w) -> idle st -> J pre pv ->
  exists st' res, evalValueRule false r (Some pv) st = Some (st', None, res) /\ idle st' /\ quiet (count st0) (us_env st) (us_env st') /\
    ((res = None /\ ~ exists s, sat_body r s) \/ exists v, res = Some v /\ J pre v).
Proof.
  intros [(D & head & Hv & _ & Hq & Hu & Hp & Hs) Hr] HJ (I & V & G) Jp.
  destruct (rule_known r D head Hv Hq Hu Hp Hs Hr HJ st I V G pv Jp) as (st' & res & E & I' & V' & Qu & H). exists st', res. split; [done|]. split; [|done].
  split; [done|]. split; [done|]. etransitivity; [exact G|apply Qu].
Qed.

(** A value has been found: the rest of the loop only compares. *)
Lemma chain_known rs : forall st pv deferred, Forall (fun r => fits r) rs -> (forall w, data w -> chain_value rs w -> J pre w) -> idle st -> J pre pv ->
  exists st' res, chain_loop (evalValueRule false) rs (Some pv) deferred st = Some (st', inr (res, deferred)) /\ idle st' /\
    quiet (count st0) (us_env st) (us_env st') /\ forall v, res = Some v -> J pre v.
Proof.
  induction rs as [|r rs IHr]; intros st pv deferred Fr HJ Id Jp; [by exists st, None|]. apply Forall_cons in Fr as [Hr Fr].
  destruct (eval_known pv r st Hr) as (st1 & res & E & Id1 & Qu & H); [intros w Dw Hw; apply HJ; [done|by left]|done|done|].
  cbn [chain_loop]. rewrite E. cbn [mbind option_bind]. destruct H as [[-> Un]|(v & -> & Jv)].
  - destruct (IHr st1 pv deferred Fr) as (st2 & res & E2 & Id2 & Q2 & H2); [intros w Dw Hw; apply HJ; [done|by right]|done|done|].
    exists st2, res. split; [done|]. split; [done|]. split; [by etransitivity|done].
  - exists st1, (Some v). split; [done|]. split; [done|]. split; [done|]. by intros ? [= <-].
Qed.

Lemma rules_known else_of rs : forall st pv deferred, Forall (fun r => Forall (fun r => fits r) (r :: else_of r)) rs ->
  (forall r w, r ∈ rs -> data w -> chain_value (r :: else_of r) w -> J pre w) -> idle st -> J pre pv ->
  exists st' v, rules_loop (evalValueRule false) else_of rs (Some pv) deferred st = Some (st', inr (Some v, deferred)) /\ idle st' /\
    quiet (count st0) (us_env st) (us_env st').
Proof.
  induction rs as [|r rs IHr]; intros st pv deferred Fr HJ Id Jp; [by exists st, pv|]. apply Forall_cons in Fr as [Hr Fr].
  destruct (chain_known (r :: else_of r) st pv deferred Hr) as (st1 & res & E & Id1 & Qu & H); [intros w; apply HJ; by left|done|done|].
  cbn [rules_loop]. rewrite E. cbn [mbind option_bind].
  destruct (IHr st1 (match res with Some v => v | None => pv end) deferred Fr) as (st2 & v & E2 & Id2 & Q2);
    [intros r' w Hr'; apply HJ; by right|done|destruct res; [by apply H|done]|].
  exists st2, v. split; [by destruct res|]. split; [done|by etransitivity].
Qed.

(** The end of a loop in which a value was found. *)
Definition settled (one : bool) (st st' : ustate) (out : eval_error + (option value * option eval_error)) : Prop :=
  exists r1, called st st' r1 /\
    match out with
    | inl err => suppressEarlyExit (Some err) = r1
    | inr (prev, deferred) => one = false /\ (exists v, prev = Some v /\ J pre v) /\ suppressEarlyExit deferred = r1
    end.

Lemma chain_fresh one rs : forall st, Forall (fun r => fits r) rs -> (forall w, data w -> chain_value rs w -> J pre w) -> idle st ->
  exists st' out, chain_loop (evalValueRule one) rs None None st = Some (st', out) /\ idle st' /\
    ((out = inr (None, None) /\ quiet (count st0) (us_env st) (us_env st') /\ forall w, ~ chain_value rs w) \/ settled one st st' out).
Proof.
  induction rs as [|r rs IHr]; intros st Fr HJ Id.
  { exists st, (inr (None, None)). split; [done|]. split; [done|]. left. split_ands; [done|done|]. by intros w []. }
  apply Forall_cons in Fr as [Hr Fr]. destruct (eval_fresh one r st Hr) as (st1 & err & res & E & Id1 & H); [intros w Dw Hw; apply HJ; [done|by left]|done|].
  cbn [chain_loop]. rewrite E. cbn [mbind option_bind]. destruct H as [(-> & -> & Qu & Un)|(v & r1 & Jv & C & -> & ->)].
  - destruct (IHr st1 Fr) as (st2 & out & E2 & Id2 & H2); [intros w Dw Hw; apply HJ; [done|by right]|done|].
    exists st2, out. split; [done|]. split; [done|]. destruct H2 as [(-> & Q2 & Un2)|(r2 & C2 & H2)].
    + left. split_ands; [done|by etransitivity|]. intros w [(head & s & _ & Hs & _)|[_ Hw]]; [apply Un; by exists s|by destruct (Un2 w)].
    + right. exists r2. split; [|done]. by eapply called_between.
  - pose proof (suppress_fin one r1) as Sf. destruct (fin one r1) as [err|] eqn:Ef.
    + assert (Hk : (exists pr, err = DeferredEarlyExit pr) \/ forall pr, err <> DeferredEarlyExit pr) by (destruct err; eauto; right; done).
      destruct Hk as [[pr ->]|Hn].
      * eexists _, _. split; [done|]. split; [done|]. right. exists r1. split; [done|]. split_ands; [by destruct r1 as [[]|], one; simplify_eq/=|by exists v|done].
      * exists st1, (inl err). split; [by destruct err; try done; destruct (Hn prev)|]. split; [done|]. right. by exists r1.
    + eexists _, _. split; [done|]. split; [done|]. right. exists r1. split; [done|]. split_ands; [by destruct r1 as [[]|], one; simplify_eq/=|by exists v|done].
Qed.

Lemma rules_fresh one else_of rs : forall st, Forall (fun r => Forall (fun r => fits r) (r :: else_of r)) rs ->
  (forall r w, r ∈ rs -> data w -> chain_value (r :: else_of r) w -> J pre w) -> idle st ->
  exists st' out, rules_loop (evalValueRule one) else_of rs None None st = Some (st', out) /\ idle st' /\
    ((out = inr (None, None) /\ quiet (count st0) (us_env st) (us_env st') /\ forall r w, r ∈ rs -> ~ chain_value (r :: else_of r) w) \/
     exists r1, called st st' r1 /\ match out with inl err => suppressEarlyExit (Some err) = r1 | inr (prev, deferred) => is_Some prev /\ suppressEarlyExit deferred = r1 end).
Proof.
  induction rs as [|r rs IHr]; intros st Fr HJ Id.
  { exists st, (inr (None, None)). split; [done|]. split; [done|]. left. split_ands; [done|done|]. by intros r w ?%elem_of_nil. }
  apply Forall_cons in Fr as [Hr Fr]. destruct (chain_fresh one (r :: else_of r) st Hr) as (st1 & out & E & Id1 & H); [intros w; apply HJ; by left|done|].
  cbn [rules_loop]. rewrite E. cbn [mbind option_bind]. destruct H as [(-> & Qu & Un)|(r1 & C & H)].
  - destruct (IHr st1 Fr) as (st2 & out & E2 & Id2 & H2); [intros r' w Hr'; apply HJ; by right|done|]. exists st2, out. split; [done|]. split; [done|].
    destruct H2 as [(-> & Q2 & Un2)|(r2 & C2 & H2)].
    + left. split_ands; [done|by etransitivity|]. intros r' w [->|Hr']%elem_of_cons; [by apply Un|by apply Un2].
    + right. exists r2. split; [|done]. by eapply called_between.
  - destruct out as [err|[prev deferred]]; [exists st1, (inl err); split; [done|]; split; [done|]; right; by exists r1|].
    destruct H as (-> & (v & -> & Jv) & Sd). destruct (rules_known else_of rs st1 v deferred Fr) as (st2 & v2 & E2 & Id2 & Q2); [intros r' w Hr'; apply HJ; by right|done|done|].
    eexists _, _. split; [exact E2|]. split; [done|]. right. exists r1. split; [|by split]. by eapply called_between; [reflexivity|exact C|].
Qed.

(** *** The document *)
Section Document.
Context (chains : list (list rule)) (Jdoc : forall w, J pre w <-> data w /\ doc_value builtinFunc (input cx) tree n0 J chains w).
Context (Fit : Forall (fun r => fits r) (concat chains)).

Lemma called_many st' r : idle st' -> called st0 st' r -> many N F samev st0 Q Eqn iter (Some (st', r)).
Proof. intros (I & V & _) (Ws & R & C). by exists st', r, Ws. Qed.
Lemma nothing_many st' : idle st' -> quiet (count st0) (us_env st0) (us_env st') -> (forall w, ~ J pre w) -> many N F samev st0 Q Eqn iter (Some (st', None)).
Proof. intros (I & V & _) Qu Nw. apply (many_none N F samev st0 st'); try done. intros s _ HE. destruct (Eqn_doc s HE) as [w Hw]. by destruct (Nw w). Qed.

Lemma default_in r : default_rule chains = Some r -> r ∈ concat chains.
Proof.
  intros H. apply last_Some_elem_of, list_elem_of_In, filter_In in H as [H _]. by apply list_elem_of_In.
Qed.

Section Indexed.
Context (ir : IndexResult) (Ix : indexes builtinFunc pol cx n0 J chains ir).
Abbreviation else_of := (fun r => else_rules r (ir_else ir)).
Abbreviation one := (ir_earlyExit ir).

Lemma chain_of r : r ∈ ir_rules ir -> r :: else_of r ∈ chains_of ir.
Proof. intros Hr. unfold chains_of. apply list_elem_of_fmap. by exists r. Qed.
Lemma ir_fits : Forall (fun r => Forall (fun r => fits r) (r :: else_of r)) (ir_rules ir).
Proof.
  apply Forall_forall. intros r Hr. apply Forall_forall. intros r' Hr'. rewrite Forall_forall in Fit. apply Fit.
  eapply (ix_rules _ _ _ _ _ _ _ Ix); [by apply chain_of|done].
Qed.
Lemma ir_value r w : r ∈ ir_rules ir -> data w -> chain_value (r :: else_of r) w -> J pre w.
Proof. intros Hr Dw Hw. apply Jdoc. split; [done|]. left. apply (ix_values _ _ _ _ _ _ _ Ix). exists (r :: else_of r). split; [by apply chain_of|done]. Qed.
Lemma ir_none : (forall r w, r ∈ ir_rules ir -> ~ chain_value (r :: else_of r) w) -> ~ exists w, some_chain chains w.
Proof.
  intros Un [w Hw]. apply (ix_values _ _ _ _ _ _ _ Ix) in Hw as (c & Hc & Hw). unfold chains_of in Hc.
  apply list_elem_of_fmap in Hc as (r & -> & Hr). by apply (Un r w Hr).
Qed.

(** No rule but the default rule has a value. *)
Lemma default_many st1 : idle st1 -> quiet (count st0) (us_env st0) (us_env st1) -> (~ exists w, some_chain chains w) ->
  many N F samev st0 Q Eqn iter ('(st, err) ← match ir_default ir with
    | Some r => '(st, err, _) ← evalValueRule one r None st1; Some (st, err)
    | None => st ← cache_put pre None st1; Some (st, None)
    end; Some (st, suppressEarlyExit err)).
Proof.
  intros Id1 Qu Un. pose proof (ix_default _ _ _ _ _ _ _ Ix) as Ed. destruct (ir_default ir) as [r|].
  - assert (Hr : r ∈ concat chains) by (by apply default_in). rewrite Forall_forall in Fit.
    destruct (eval_fresh one r st1 (Fit r Hr)) as (st2 & err & res & E & Id2 & H); [|done|].
    { intros w Dw Hw. apply Jdoc. split; [done|]. right. split; [done|]. by exists r. }
    rewrite E. cbn [mbind option_bind]. destruct H as [(-> & -> & Q2 & Un2)|(v & r1 & Jv & C & -> & ->)].
    + apply nothing_many; [done|by etransitivity|]. intros w Hw. apply Jdoc in Hw as [_ [Hw|(_ & r' & Er & head & s & _ & Hs & _)]]; [apply Un; by exists w|].
      rewrite <- Ed in Er. injection Er as <-. apply Un2. by exists s.
    + rewrite suppress_fin. apply called_many; [done|]. by eapply called_between.
  - assert (Nw : forall w, ~ J pre w).
    { intros w Hw. apply Jdoc in Hw as [_ [Hw|(_ & r' & Er & _)]]; [apply Un; by exists w|congruence]. }
    destruct Id1 as (I1 & V1 & G1). destruct (put_caches_ok J (common (us_env st1)) pre None) as (vc & Ep & Hc); [apply I1|done|done|done|].
    unfold cache_put. rewrite Ep. cbn [mbind option_bind suppressEarlyExit]. apply nothing_many; [|done|done].
    split; [apply (inv_sview N st1); [done|apply I1|done|exact Hc]|]. split; [done|]. exact G1.
Qed.

Lemma value_many : many N F samev st0 Q Eqn iter (value_of_rules (evalValueRule one) ir (cache_put pre None) st0).
Proof.
  destruct (rules_fresh one else_of (ir_rules ir) st0 ir_fits ir_value) as (st1 & out & E & Id1 & H); [done|].
  unfold value_of_rules. rewrite E. cbn [mbind option_bind]. destruct H as [(-> & Qu & Un)|(r1 & C & H)].
  - pose proof (default_many st1 Id1 Qu (ir_none Un)) as Hm. by destruct (ir_default ir).
  - destruct out as [err|[prev deferred]]; cbn [mbind option_bind].
    + rewrite H. by apply called_many.
    + destruct H as [[v ->] Sd]. replace (match ir_default ir with Some _ | _ => _ end) with (Some (st1, deferred)) by (by destruct (ir_default ir)).
      cbn [mbind option_bind]. rewrite Sd. by apply called_many.
Qed.

Lemma evalValue_many : valid (sview st0) bindings -> many N F samev st0 Q Eqn iter (evalValue fuel run biunify e pre rest bindings rterm rbindings iter ir st0).
Proof.
  intros Vb. destruct (cached_ok J (common (us_env st0)) pre (i_shared _ _ I0) Pre) as (hit & undefined & Ec & Hu & Hh).
  unfold evalValue, cached. rewrite Ec. cbn [mbind option_bind]. destruct undefined; [by apply nothing_many; [|done|apply Hu]|].
  destruct hit as [v|]; [|apply value_many]. pose proof (J_data _ _ (Hh v eq_refl)) as Dv. apply (Walk st0 v bindings v); [by apply reach_here|done|by apply data_gv| |by apply Hh].
  intros x ->. by apply data_ground in Dv.
Qed.

Lemma no_args r : r ∈ concat chains -> has_args r = false.
Proof. intros Hr. rewrite Forall_forall in Fit. destruct (Fit r Hr) as [(D & head & _ & Ha & _) _]. unfold has_args. by rewrite Ha. Qed.

Lemma complete_many : valid (sview st0) bindings -> many N F samev st0 Q Eqn iter (evalVirtualComplete fuel run biunify e pre rest bindings rterm rbindings iter ir st0).
Proof.
  intros Vb. unfold evalVirtualComplete, ir_Empty. pose proof (ix_default _ _ _ _ _ _ _ Ix) as Ed. pose proof ir_none as Nn.
  pose proof (fun r Hr => ix_rules _ _ _ _ _ _ _ Ix _ r (chain_of r Hr) ltac:(by left)) as Hin. pose proof (evalValue_many Vb) as Hm.
  destruct (ir_rules ir) as [|r rs]; destruct (ir_default ir) as [r'|];
    rewrite ?(no_args r) by (apply Hin; by left); rewrite ?(no_args r') by (by apply default_in); cbn [orb]; try exact Hm.
  apply nothing_many; [done|done|]. intros w [_ [Hw|(_ & r & Er & _)]]%Jdoc; [|congruence]. apply Nn; [by intros r w' ?%elem_of_nil|by exists w].
Qed.
End Indexed.

Lemma virtual_many : lookup_ok builtinFunc pol cx n0 J pre chains -> valid (sview st0) bindings ->
  many N F samev st0 Q Eqn iter (evalVirtual pol fuel run biunify e pre rest bindings rterm rbindings iter st0).
Proof.
  intros Lk Vb. destruct (Lk fuel e st0 He (i_shared _ _ I0)) as (ir & E & Ix). unfold evalVirtual. rewrite E. cbn [mbind option_bind].
  rewrite (ix_single _ _ _ _ _ _ _ Ix), (ix_ground _ _ _ _ _ _ _ Ix). by apply complete_many.
Qed.
End Document.
End Rules.
