(* ===== verification/EvalUnify.v ===== *)
(** Unification of operands: patterns, references and set comprehensions. *)
From Stdlib Require Import ZArith Lia String.
From stdpp Require Import base gmap list strings pretty.
From S2P Require Import Prelude SortedKeys Value Containers SetTable ObjectTable Builtins Document VarVisitor Safety Bindings.
From S2P Require Import Unify UnifySound UnifyTotal EvalGround Eval EvalRefs EvalTerms EvalSem EvalStates EvalClosures.

(** Equal sets, by their members. *)
Lemma data_set_ext l l' : data (SetV l) -> data (SetV l') -> (forall w, data w -> set_mem w l = true <-> set_mem w l' = true) -> Equal (SetV l) (SetV l') = true.
Proof.
  intros Dl Dl' H. inversion Dl as [? X| | |? Sl Fl]; subst; [done|]. inversion Dl' as [? X| | |? Sl' Fl']; subst; [done|].
  apply Equal_true, set_ext; [done..|]. intros x. apply eq_true_iff_eq. rewrite Forall_forall in Fl, Fl'.
  split; intros Hx; pose proof Hx as (y & Hy & E)%set_mem_true; rewrite (set_mem_congr x y) in Hx |- * by done; apply H; auto.
Qed.

Lemma Equal_Var x y : Equal (Var x) (Var y) = String.eqb x y.
Proof.
  apply eq_true_iff_eq. rewrite Equal_true, String.eqb_eq, Compare_unfold. simpl. apply string_compare_eq.
Qed.

(** ** References to documents

    What the evaluator relies on for references to [data]. *)
Section Documents.
Context `{SI : SharedInv} (functions : function_env) (builtinFunc : list value -> option Builtin).
Abbreviation eval_type := (eval -> (eval -> EK) -> EK).
Abbreviation biunify_type := (eval -> value -> value -> option nat -> option nat -> EK -> EK).
Context (evalTree : nat -> eval_type -> biunify_type -> eval -> list value -> value -> option nat -> option nat -> EK -> EK).
Context (evalFunc : nat -> eval_type -> biunify_type -> eval -> list value -> EK -> EK).
Context (evalWith : nat -> eval_type -> biunify_type -> eval -> (eval -> EK) -> EK).
Abbreviation eval_at := (eval_at functions builtinFunc evalTree evalFunc evalWith).
Abbreviation biunify_at := (biunify_at functions builtinFunc evalTree evalFunc evalWith).
Context (cx : context) (docs : list value -> value -> Prop) (docs_ok : list value -> nat -> Prop) (N : nat).

(** The document at the path has this value in a store. *)
Definition doc_gv (u : option nat) (path : list value) (d : nat) (v : value) (V : vstore) : Prop :=
  exists ks, Forall2 (gv V u) path ks /\ docs ks v /\ bounded d v.
Definition doc_reaches (u : option nat) (path : list value) (d : nat) (v : value) (V : vstore) : Prop :=
  exists v', Equal v v' = true /\ doc_gv u path d v' V.

Definition tree_many (f : nat) : Prop := forall cl D u B F e path d rterm rb k (R : value -> valuation -> Prop) (Qr : value -> vstore -> Prop) st,
  bindings_of e = u -> context_of e = cx -> docs_ok path d -> (d <= N)%nat -> Forall (fun k => accepts N D B k d) path ->
  inv N st -> valid (sview st) u -> (cl <= count st)%nat -> bound D u B (sview st) -> (forall x, x ∈ ⋃ (map pvars path) -> x ∈ B \/ F u x) ->
  (forall v w s, Equal v w = true -> R v s -> R w s) -> (forall v s s', same (valid (sview st)) s s' -> R v s -> R v s') ->
  (forall v w V, Equal v w = true -> Qr v V -> Qr w V) ->
  ends N cl F (biunify_at f e) (valid (sview st)) rb rterm k R Qr (doc_reaches u path d) st ->
  many N F (same (valid (sview st))) st (fun V => exists v, doc_gv u path d v V /\ Qr v V)
    (fun s => assigns s /\ exists v, docs (map (ev s u) path) v /\ R v s) k
    (evalTree f (eval_at f) (biunify_at f) e (Var "data" :: path) rterm u rb k st).
End Documents.

Lemma valid_reach `{SI : SharedInv} N F st Q st1 v : reach N F st Q st1 -> valid (sview st) v -> valid (sview st1) v.
Proof. intros [_ [X _] _]. by apply valid_extends. Qed.
Lemma many_later `{SI : SharedInv} N F st Q0 st1 Q A iter res : reach N F st Q0 st1 -> many N F (same (valid (sview st1))) st1 Q A iter res ->
  many N F (same (valid (sview st))) st1 Q A iter res.
Proof. intros R. apply many_rel. intros s s'. apply near_weaken. intros v Hv. split; [by eapply valid_reach|done]. Qed.

Lemma path_walkable `{SI : SharedInv} N D u B F st path d : Forall (fun k => accepts N D B k d) path -> bound D u B (sview st) ->
  (forall x, x ∈ ⋃ (map pvars path) -> x ∈ B \/ F u x) -> walkable N F u st path.
Proof.
  intros Fp Bd HF. split; [eapply Forall_impl; [exact Fp|]; by intros k' [[P _] _]|eapply Forall_impl; [exact Fp|]; by intros k' [(_ & P & _) _]|].
  apply Forall_forall. intros k' Hk x Hx. destruct (HF x) as [Hx'|Hx'].
  - apply elem_of_union_list. exists (pvars k'). split; [by apply list_elem_of_fmap_2|done].
  - right. destruct (Bd x Hx') as (w & Gw & _). by exists w.
  - by left.
Qed.

Section Operands.
Context `{SI : SharedInv} (functions : function_env) (builtinFunc : list value -> option Builtin).
Abbreviation eval_type := (eval -> (eval -> EK) -> EK).
Abbreviation biunify_type := (eval -> value -> value -> option nat -> option nat -> EK -> EK).
Context (evalTree : nat -> eval_type -> biunify_type -> eval -> list value -> value -> option nat -> option nat -> EK -> EK).
Context (evalFunc : nat -> eval_type -> biunify_type -> eval -> list value -> EK -> EK).
Context (evalWith : nat -> eval_type -> biunify_type -> eval -> (eval -> EK) -> EK).
Abbreviation eval_at := (eval_at functions builtinFunc evalTree evalFunc evalWith).
Abbreviation biunify_at := (biunify_at functions builtinFunc evalTree evalFunc evalWith).
Context (cx : context) (docs : list value -> value -> Prop) (docs_ok : list value -> nat -> Prop) (Dm : documents docs docs_ok).
Context (N M : nat) (D : string -> nat) (u : option nat) (n : nat).
Abbreviation sat := (sat builtinFunc (input cx) docs).
Abbreviation query_ok := (query_ok builtinFunc (input cx) docs_ok N M D).

(** Fuel for patterns; references and comprehensions take one step more, and documents
    [extra] ones. *)
Definition base : nat := 4 * N + 8.
Context (extra : nat) (Tr : forall f, (base + extra <= f)%nat -> tree_many functions builtinFunc evalTree evalFunc evalWith cx docs docs_ok N f).
Context (IH : forall f, evaluates builtinFunc cx docs docs_ok N M D u n (eval_at f) (fun q => base + extra + cost n q <= f)%nat).
Context (B O : gset string) (HO : forall x, x ∈ O -> user x) (HB : B ⊆ O) (cl : nat) (F : option nat -> string -> Prop).
Context (e : eval) (He : bindings_of e = u) (Hcx : context_of e = cx).
Implicit Types s : valuation.

Abbreviation known := (known (input cx) docs_ok N D (query_ok n) B O).
Abbreviation accepts := (accepts N D B).
Abbreviation tval s := (tval (input cx) docs (sat n) O (s u)).
Abbreviation samev st := (same (valid (sview st))).

Lemma patterns_once f x y u1 u2 k st : (base <= f)%nat -> here N u1 u2 st -> ready N F N u1 u2 (sview st) x y ->
  handles N cl (after N F (us_iters st) st (both u1 u2 x y)) k ->
  once N F (us_iters st) st (both u1 u2 x y) (eqn u1 u2 x y) k (biunify_at f e x y u1 u2 k st).
Proof.
  intros Hf Hh R Hk. unfold base in Hf. destruct f as [|f]; [lia|]. cbn [Eval.biunify_at]. apply (biunify_once N cl F _ _ _ N); try done. lia.
Qed.

Lemma patterns_many (rel : relation valuation) `{!PreOrder rel} f x y u1 u2 k st : (base <= f)%nat -> here N u1 u2 st -> ready N F N u1 u2 (sview st) x y ->
  handles N cl (reach N F st (both u1 u2 x y)) k ->
  many N F rel st (both u1 u2 x y) (eqn u1 u2 x y) k (biunify_at f e x y u1 u2 k st).
Proof.
  intros Hf Hh R Hk. assert (Ha : handles N cl (after N F (us_iters st) st (both u1 u2 x y)) k).
  { eapply handles_impl; [|exact Hk]. intros st1. apply after_reach. }
  eapply many_once; [apply _|exact Ha|]. by apply patterns_once.
Qed.

(** *** The value of an operand in a store *)
Definition ref_gv (V : vstore) (h : string) (ks : list value) (v : value) : Prop :=
  if String.eqb h "data" then docs ks v
  else if String.eqb h "input" then exists doc, input cx = Some doc /\ lookups doc ks v
  else exists doc, gv V u (Var h) doc /\ lookups doc ks v.
Definition tgv (V : vstore) (t v : value) : Prop :=
  match t with
  | Ref (Var h :: path) => exists ks, Forall2 (gv V u) path ks /\ ref_gv V h ks v
  | Ref _ => False
  | SetComprehension _ _ => forall s, assigns s -> solves s V -> tval s t v
  | _ => gv V u t v
  end.

Lemma known_pattern t d : pattern_ok N t -> known t d -> pvars t ⊆ B /\ fits D d t.
Proof. intros [P _] K. destruct t; try apply K; by inversion P. Qed.

Lemma tgv_pattern t V v : pat t -> tgv V t v <-> gv V u t v.
Proof. intros P. destruct P; try done. by destruct v0. Qed.

Lemma keys_Equal s V path ks : solves s V -> Forall2 (gv V u) path ks -> Forall2 (fun k k' => Equal k k' = true) ks (map (evs (s u)) path).
Proof. intros S Fk. induction Fk as [|t w path ks Gt _ IHp]; constructor; [|done]. rewrite Equal_sym, <- ev_list. by eapply gv_ev. Qed.

Lemma tgv_tval s V t v : assigns s -> solves s V -> tgv V t v -> exists v', tval s t v' /\ Equal v v' = true.
Proof.
  intros A S H. assert (Hg : gv V u t v -> exists v', v' = evs (s u) t /\ Equal v v' = true).
  { intros G. exists (ev s u t). split; [apply ev_list|]. rewrite Equal_sym. by eapply gv_ev. }
  destruct t as [| | | | |ts| | | | | |t body|]; try (by apply Hg).
  - destruct ts as [|[| | | |h| | | | | | | |] path]; try done. destruct H as (ks & Fk & H). pose proof (keys_Equal s V path ks S Fk) as Ek.
    cbn [EvalSem.tval]. unfold ref_gv, ref_value in *. destruct (String.eqb h "data"); [by eapply (dm_congr _ _ Dm)|].
    destruct (String.eqb h "input").
    + destruct H as (doc & Ei & L). destruct (lookups_congr ks doc doc _ v (Equal_refl _) Ek L) as (v' & L' & Ev). exists v'. split; [by exists doc|done].
    + destruct H as (doc & G & L). apply (lookups_congr ks doc (s u h) _ v); [|done|done]. rewrite Equal_sym. by apply (gv_ev V s u (Var h)).
  - exists v. split; [by apply H|apply Equal_refl].
Qed.

(** *** What is bound afterwards *)
Lemma ref_bounded V h path ks d v : root_ok (input cx) docs_ok D B h path d -> bound D u B V -> Forall2 (gv V u) path ks -> ref_gv V h ks v ->
  Forall (bounded d) ks /\ bounded d v.
Proof.
  unfold root_ok, ref_gv. intros R Bd Fk H. destruct (String.eqb h "data"); [by eapply (dm_bounded _ _ Dm)|]. destruct (String.eqb h "input").
  - destruct H as (doc & Ei & L). by eapply lookups_keys_bounded; [apply (R doc)|].
  - destruct H as (doc & G & L), R as (_ & Hh & Dh). eapply lookups_keys_bounded; [|exact L].
    destruct (Bd h Hh) as (w & Gw & Bw). rewrite (gv_fun _ _ _ _ G w Gw). by eapply bounded_le.
Qed.

Lemma ref_mono V V1 h ks v : extends V V1 -> ref_gv V h ks v -> ref_gv V1 h ks v.
Proof.
  intros X. unfold ref_gv. destruct (String.eqb h "data"); [done|]. destruct (String.eqb h "input"); [done|].
  intros (doc & G & L). exists doc. split; [by eapply gv_mono|done].
Qed.

Lemma accepts_bound V t d v : accepts t d -> bound D u B V -> gv V u t v -> bounded d v -> bound D u (pvars t) V.
Proof.
  intros [_ H] Bd G Bv x Hx. destruct (H x Hx) as [?|Dx]; [by apply Bd|].
  destruct (gv_component V u t v G x Hx) as (w & Gw & Bw). exists w. split; [done|]. by eapply bounded_le, Bw.
Qed.

Lemma tgv_bound V t d v : operand (input cx) docs_ok N D (query_ok n) B O t d -> bound D u B V -> tgv V t v -> bounded d v -> bound D u (tvars t) V.
Proof.
  intros Op Bd G Bv. destruct (operand_cases (input cx) docs docs_ok N D (query_ok n) (sat n) B O t d Op) as [(P & -> & _)|[(h & path & -> & R & Fp)|(t' & body & -> & _)]];
    [|..|by intros x ?%elem_of_empty].
  - apply tgv_pattern in G; [|apply P]. destruct Op as [K|A]; [|by eapply accepts_bound].
    apply (accepts_bound V t d v); try done. split; [done|]. intros x Hx. left. by apply (known_pattern t d P K).
  - destruct G as (ks & Fk & H). destruct (ref_bounded V h path ks d v R Bd Fk H) as [Bk _]. simpl. apply bound_union. split.
    + intros x Hx. destruct (head_user _ _ _ _ _ _ _ _ R Hx) as (-> & _ & Hh & _). by apply Bd.
    + intros x (X & (k & -> & Hk)%list_elem_of_fmap & Hx)%elem_of_union_list. apply list_elem_of_lookup in Hk as [j Hj].
      destruct (Forall2_lookup_l _ _ _ _ _ Fk Hj) as (w & Hw & Gw). rewrite Forall_lookup in Fp. rewrite Forall_lookup in Bk.
      by apply (accepts_bound V k d w (Fp j k Hj) Bd Gw (Bk j w Hw)).
Qed.

(** *** References *)
Section Reference.
Context (rterm : value) (rb : option nat) (k : EK) (R : value -> valuation -> Prop) (Qr : value -> vstore -> Prop).
Context (R_congr : forall v w s, Equal v w = true -> R v s -> R w s).
Context (Qr_congr : forall v w V, Equal v w = true -> Qr v V -> Qr w V).

(** The operand has this value. *)
Definition reaches (t : value) (d : nat) (v : value) (V : vstore) : Prop := exists v', Equal v v' = true /\ tgv V t v' /\ bounded d v'.
Lemma reaches_congr t d v w V : Equal v w = true -> reaches t d v V -> reaches t d w V.
Proof. intros E (v' & E' & H). exists v'. split; [|done]. eapply Equal_trans; [|exact E']. by rewrite Equal_sym. Qed.

Context (f : nat) (Hf : (base <= f)%nat) (st : ustate) (I : inv N st) (Vu : valid (sview st) u) (Hcl : (cl <= count st)%nat).
Context (R_same : forall v s s', samev st s s' -> R v s -> R v s').
Abbreviation Ends t d := (ends N cl F (biunify_at f e) (valid (sview st)) rb rterm k R Qr (reaches t d) st).

(** A walk along a path, from a term that is the value of the head. *)
Lemma walk_many h path d term tb doc : Forall (fun k => accepts k d) path -> (d <= N)%nat -> bound D u B (sview st) ->
  (forall x, x ∈ ⋃ (map pvars path) -> x ∈ B \/ F u x) -> Ends (Ref (Var h :: path)) d ->
  valid (sview st) tb -> gv (sview st) tb term doc -> (forall x, term <> Var x) -> bounded d doc ->
  (forall V ks v, extends (sview st) V -> lookups doc ks v -> ref_gv V h ks v) ->
  (forall s ks v, solves s (sview st) -> ref_value (input cx) docs (s u) h ks v -> exists doc', Equal doc' doc = true /\ lookups doc' ks v) ->
  many N F (samev st) st (fun V => exists v, tgv V (Ref (Var h :: path)) v /\ bounded d v /\ Qr v V)
    (fun s => assigns s /\ exists v, tval s (Ref (Var h :: path)) v /\ R v s) k (evalTerm f (biunify_at f e) path u term tb rterm rb k st).
Proof.
  intros Fp Hd Bd HF Ends Vt G Nt Bdoc Hin Hout. unfold base in Hf.
  pose proof (path_walkable N D u B F st path d Fp Bd HF) as Wk.
  assert (Ht : forall V ks v, extends (sview st) V -> Forall2 (gv V u) path ks -> lookups doc ks v -> tgv V (Ref (Var h :: path)) v /\ bounded d v).
  { intros V ks v X Fk L. split; [|by eapply lookups_keys_bounded]. exists ks. split; [done|by apply Hin]. }
  eapply many_weaken; [| |apply (walks_all N f cl ltac:(lia) F (biunify_at f e) (fun x y u1 u2 k st => patterns_once f x y u1 u2 k st ltac:(unfold base; lia))
    (valid (sview st)) u rb Vu rterm k R Qr R_congr R_same Qr_congr (reaches (Ref (Var h :: path)) d) (reaches_congr _ _) path term tb doc st)].
  - intros V X (ks & v & Fk & L & HQ). destruct (Ht V ks v X Fk L) as [T Bv]. by exists v.
  - intros s S (_ & v & Hv & HR). cbn [EvalSem.tval] in Hv. destruct (Hout s _ v S Hv) as (doc' & Ed & L).
    destruct (lookups_doc _ doc' doc v Ed L) as (v' & L' & Ev). exists v'. split; [|by eapply R_congr].
    replace (map (ev s u) path) with (map (evs (s u)) path); [done|]. apply map_ext. intros t. by rewrite ev_list.
  - split; try done. by eapply bounded_le.
  - done.
  - intros V ks v X Fk L. exists v. split; [apply Equal_refl|by eapply Ht].
Qed.

Lemma reference_many h path d : (base + extra <= f)%nat -> root_ok (input cx) docs_ok D B h path d -> Forall (fun k => accepts k d) path -> (d <= N)%nat ->
  bound D u B (sview st) -> (forall x, x ∈ tvars (Ref (Var h :: path)) -> x ∈ B \/ F u x) -> Ends (Ref (Var h :: path)) d ->
  many N F (samev st) st (fun V => exists v, tgv V (Ref (Var h :: path)) v /\ bounded d v /\ Qr v V)
    (fun s => assigns s /\ exists v, tval s (Ref (Var h :: path)) v /\ R v s) k
    (biunifyRef evalTree f (eval_at f) (biunify_at f) e (Ref (Var h :: path)) rterm u rb k st).
Proof.
  intros Hfx Rh Fp Hd Bd HF Ends. assert (HP : forall x, x ∈ ⋃ (map pvars path) -> x ∈ B \/ F u x) by (intros x Hx; apply HF; simpl; set_solver).
  pose proof (fun term tb doc => walk_many h path d term tb doc Fp Hd Bd HP Ends) as Walk.
  cbn [biunifyRef]. rewrite !Equal_Var. unfold root_ok in Rh. cbn [EvalSem.tval tgv] in *. unfold ref_gv, ref_value in *.
  destruct (String.eqb_spec h "data") as [->|Hn]; [|destruct (String.eqb_spec h "input") as [->|Hn']].
  - eapply many_weaken; [| |eapply (Tr f Hfx cl D u B F e path d rterm rb k R Qr st); try done].
    + intros V _ (v & (ks & Fk & Hv & Bv) & HQ). exists v. split; [by exists ks|done].
    + intros s _ (A & v & Hv & HR). split; [done|]. exists v. split; [|done]. erewrite map_ext; [exact Hv|]. intros t. by rewrite ev_list.
    + destruct Ends as [Em Ei]. assert (HW : forall v V, doc_reaches docs u path d v V -> reaches (Ref (Var "data" :: path)) d v V).
      { intros v V (v' & E & ks & Fk & Hv & Bv). exists v'. split_ands; [done| |done]. by exists ks. }
      split; [intros st1 t1 tb1 v R1 V1 G1 B1 T1 W1; apply Em; auto|]. eapply handles_post; [|exact Ei]. intros V _ (v & Hw & HQ). exists v. auto.
  - rewrite Hcx. destruct (input cx) as [doc|] eqn:Ei.
    + destruct (Rh doc eq_refl) as [Dd Bd']. apply (Walk doc u doc); [done|by apply data_gv| |done| |].
      * intros x ->. by inversion Dd.
      * intros V ks v _ L. by exists doc.
      * intros s ks v _ (doc' & [= <-] & L). exists doc. split; [apply Equal_refl|done].
    + apply many_nil; [done|]. intros s _ (_ & v & (doc & Hr & _) & _). done.
  - destruct Rh as (_ & Hh & Dh). destruct (Bd h Hh) as (doc & Gh & Bh). inversion Gh as [? ? bv ? Hx _|? ? X| | |]; subst; [|done].
    rewrite b_get_view by apply I. fold (sview st). rewrite Hx. destruct (found_ok N st I _ (Var h) doc Vu Gh) as (t' & b' & -> & G' & Nv' & Vb').
    cbn [mbind option_bind]. apply (Walk t' b' doc); try done; [by eapply bounded_le| |].
    + intros V ks v X L. exists doc. split; [by eapply gv_mono|done].
    + intros s ks v S L. exists (s u h). split; [|done]. by apply (gv_ev (sview st) s u (Var h)).
Qed.
End Reference.

(** *** Set comprehensions *)
Lemma many_same (rel : relation valuation) st st' Q A iter res : sview st' = sview st -> quiet (count st) (us_env st) (us_env st') ->
  many N F rel st' Q A iter res -> many N F rel st Q A iter res.
Proof.
  intros E Qu (st2 & r & Vs & Er & I & Vw & Rn & C). exists st2, r, Vs. rewrite E in *. split_ands; [done..| |done].
  eapply runs_quiet; [exact Qu|]. eapply runs_weaken; [|done|exact Rn]. apply Qu.
Qed.

Lemma solves_mono s V V1 : extends V V1 -> solves s V1 -> solves s V.
Proof. intros [X _] S v x bv Hx. by apply S, X. Qed.

Lemma comprehension_many rterm rb k (R : value -> valuation -> Prop) (Qr : value -> vstore -> Prop) f t body d id i st :
  let c := SetComprehension t body in (forall v w s, Equal v w = true -> R v s -> R w s) ->
  (base + extra + cost n body <= f)%nat -> known c d -> (d <= N)%nat -> stage N D u B id i st ->
  ends N cl F (biunify_at f e) (valid (sview st)) rb rterm k R Qr (reaches c d) st ->
  many N F (samev st) st (fun V => exists v, tgv V c v /\ bounded d v /\ Qr v V) (fun s => assigns s /\ exists v, tval s c v /\ R v s) k
    (biunifyComprehensionSet f (eval_at f) (biunify_at f) e t body rterm u rb k st).
Proof.
  intros c R_congr Hf (Hok & P & Hv & d' & -> & Fit) Hd St Ends.
  destruct (comprehension_set builtinFunc cx docs docs_ok N M D u n (eval_at f) _ (IH f) B O HO HB f t body d' id i st Hok Hf St P Hv Fit ltac:(lia) ltac:(unfold base in Hf; lia) e He Hcx)
    as (st' & v & -> & I & V & Qu & Dv & Bv & T).
  assert (HT : forall V1, extends (sview st) V1 -> tgv V1 c v) by (intros V1 X s A S; by apply T; [|eapply solves_mono]).
  apply (many_same _ st st'); [done|done|]. eapply many_weaken; [| |apply (en_many _ _ _ _ _ _ _ _ _ _ _ _ Ends st' v u v)].
  - intros V1 X HQ. exists v. rewrite V in X. split_ands; auto.
  - intros s S (A & v' & T' & HR). rewrite V in S. specialize (T s A S). destruct T as (_ & l & -> & Hl), T' as (Dv' & l' & -> & Hl').
    eapply R_congr; [|exact HR]. apply data_set_ext; [done|done|]. intros w Dw. by rewrite Hl, Hl'.
  - eapply reach_same; [exact V|apply Qu|by apply reach_here].
  - rewrite V. apply St.
  - by apply data_gv.
  - by eapply bounded_le.
  - intros x ->. by inversion Dv.
  - intros V1 X. exists v. rewrite V in X. split_ands; [apply Equal_refl|auto|done].
Qed.

(** *** A pattern with another operand *)
Definition matched (x : value) (ux : option nat) (y : value) (d : nat) (V : vstore) : Prop :=
  exists vx vy, gv V ux x vx /\ tgv V y vy /\ Equal vy vx = true /\ bounded d vy.

(** The pattern may be matched with values that are found. *)
Record open_pattern (x : value) (ux : option nat) (st : ustate) : Prop := {
  op_pat : pat x;
  op_bounded : bounded N x;
  op_bind : bindable F (sview st) ux x;
  op_valid : valid (sview st) ux;
}.

(** The condition on the value that is found, and what holds then. *)
Definition equals (x : value) (ux : option nat) (v : value) s : Prop := Equal v (ev s ux x) = true.
Definition equals_gv (x : value) (ux : option nat) (v : value) (V : vstore) : Prop := exists vx, gv V ux x vx /\ Equal v vx = true.

Lemma equals_congr x ux v w s : Equal v w = true -> equals x ux v s -> equals x ux w s.
Proof. intros E Q. eapply Equal_trans; [|exact Q]. by rewrite Equal_sym. Qed.
Lemma equals_gv_congr x ux v w V : Equal v w = true -> equals_gv x ux v V -> equals_gv x ux w V.
Proof. intros E (vx & Gx & Q). exists vx. split; [done|]. eapply Equal_trans; [|exact Q]. by rewrite Equal_sym. Qed.
Lemma equals_same x ux st v s s' : open_pattern x ux st -> samev st s s' -> equals x ux v s -> equals x ux v s'.
Proof. intros [P _ _ Vx] Hn. unfold equals. by rewrite (ev_near _ _ s s' ux x Hn Vx P). Qed.

Lemma pattern_ends f x ux y d k st : (base <= f)%nat -> open_pattern x ux st -> handles N cl (reach N F st (matched x ux y d)) k ->
  ends N cl F (biunify_at f e) (valid (sview st)) ux x k (equals x ux) (equals_gv x ux) (reaches y d) st.
Proof.
  intros Hf [P Bx Bi Vx] Hk.
  assert (Hm : forall v V, reaches y d v V -> equals_gv x ux v V -> matched x ux y d V).
  { intros v V (vy & Qy & Ty & By) (vx & Gx & Q). exists vx, vy. split_ands; [done|done| |done]. eapply Equal_trans; [|exact Q]. by rewrite Equal_sym. }
  split; [|eapply handles_post; [|exact Hk]; intros V _ (v & Hw & HQ); by eapply Hm].
  intros st1 t1 tb1 v R1 Vt G Bv Nv HW.
  assert (Hb : forall V, extends (sview st1) V -> both tb1 ux t1 x V -> equals_gv x ux v V).
  { intros V X (va & vb & Ga & Gb & Q). exists vb. split; [done|]. by rewrite (gv_fun _ _ _ _ (gv_mono _ _ _ _ _ X G) va Ga). }
  eapply many_weaken; [exact Hb| |apply (patterns_many _ f t1 x tb1 ux k st1 Hf)].
  - intros s S Q. unfold eqn. eapply Equal_trans; [|exact Q]. by eapply gv_ev.
  - split; [apply R1|]. split; [done|]. by eapply valid_reach.
  - destruct R1 as [_ [X1 _] _]. split; [by eapply gv_pat|done| |by eapply bindable_mono|by eapply gv_bounded|done|].
    + intros z Hz. right. by eapply gv_vars.
    + left. by exists v.
  - eapply handles_impl; [|exact Hk]. intros st2 R2. eapply reach_trans; [exact R1|]. eapply reach_post; [|exact R2].
    intros V X Hv. eapply Hm; [by apply HW|by apply Hb].
Qed.

(** The pattern after [apply]. *)
Lemma open_apply x ux st : inv N st -> open_pattern x ux st -> exists x' ux', b_apply (us_heap st) ux x = Some (x', ux') /\ open_pattern x' ux' st /\
  (forall V w, extends (sview st) V -> gv V ux' x' w <-> gv V ux x w) /\
  (forall s, solves s (sview st) -> Equal (ev s ux x) (ev s ux' x') = true).
Proof.
  intros I [P Bx Bi Vx]. destruct (apply_ready N F st ux x I Vx P Bi Bx) as (x' & ux' & E & V' & P' & Bi' & Bx' & _ & Ga & Ea).
  exists x', ux'. split_ands; [done|by split|done|done].
Qed.

Lemma matched_apply x ux x' ux' y d V1 V : (forall V w, extends V1 V -> gv V ux' x' w <-> gv V ux x w) -> extends V1 V -> matched x' ux' y d V <-> matched x ux y d V.
Proof.
  intros G X. unfold matched. split; intros (vx & vy & Gx & H); exists vx, vy; (split; [|done]); by apply (G V vx X).
Qed.

Lemma pattern_ref f x ux h path d k st : let y := Ref (Var h :: path) in
  (base + extra <= f)%nat -> root_ok (input cx) docs_ok D B h path d -> Forall (fun k => accepts k d) path -> (d <= N)%nat -> inv N st -> valid (sview st) u -> (cl <= count st)%nat ->
  bound D u B (sview st) -> (forall z, z ∈ tvars y -> z ∈ B \/ F u z) -> open_pattern x ux st -> handles N cl (reach N F st (matched x ux y d)) k ->
  many N F (samev st) st (matched x ux y d) (fun s => assigns s /\ exists v, tval s y v /\ equals x ux v s) k
    (biunifyRef evalTree f (eval_at f) (biunify_at f) e y x u ux k st).
Proof.
  intros y Hf Rh Fp Hd I Vu Hcl Bd HF Op Hk. eapply many_weaken; [|intros s _ H; exact H|apply (reference_many x ux k (equals x ux) (equals_gv x ux)); try done].
  - intros V X (v & T & Bv & vx & Gx & Q). by exists vx, v.
  - intros v w s. apply equals_congr.
  - intros v w V. apply equals_gv_congr.
  - lia.
  - intros v s s'. by apply equals_same.
  - apply pattern_ends; [lia|done|done].
Qed.

Lemma pattern_comprehension f x ux t body d id i k st : let y := SetComprehension t body in
  (base + extra + cost n body <= f)%nat -> known y d -> (d <= N)%nat -> stage N D u B id i st -> open_pattern x ux st ->
  handles N cl (reach N F st (matched x ux y d)) k ->
  many N F (samev st) st (matched x ux y d) (fun s => assigns s /\ exists v, tval s y v /\ equals x ux v s) k
    (biunifyComprehensionSet f (eval_at f) (biunify_at f) e t body x u ux k st).
Proof.
  intros y Hf K Hd St Op Hk. eapply many_weaken; [|intros s _ H; exact H|apply (comprehension_many x ux k (equals x ux) (equals_gv x ux)) with (id := id) (i := i); try done].
  - intros V X (v & T & Bv & vx & Gx & Q). by exists vx, v.
  - intros v w s. apply equals_congr.
  - apply pattern_ends; [lia|done|done].
Qed.

(** *** Which operand comes first *)
Section Order.
Context (f : nat) (k : EK) (st : ustate) (u1 u2 : option nat).
Abbreviation byRef := (biunifyRef evalTree (S f) (eval_at (S f)) (biunify_at (S f)) e).
Abbreviation bySet := (biunifyComprehensionSet (S f) (eval_at (S f)) (biunify_at (S f)) e).

Lemma left_ref l b b' u2' : b_apply (us_heap st) u2 b = Some (b', u2') -> biunify_at (S (S f)) e (Ref l) b u1 u2 k st = byRef (Ref l) b' u1 u2' k st.
Proof. intros E. cbn [Eval.biunify_at biunify]. rewrite E. done. Qed.

Lemma left_comprehension t body b b' u2' : b_apply (us_heap st) u2 b = Some (b', u2') -> pat b' ->
  biunify_at (S (S f)) e (SetComprehension t body) b u1 u2 k st = bySet t body b' u1 u2' k st.
Proof. intros E P. cbn [Eval.biunify_at biunify]. rewrite E. by destruct P as [|[]| | |]. Qed.

Lemma right_ref l a a' u1' : b_apply (us_heap st) u1 a = Some (a', u1') -> pat a' -> biunify_at (S (S f)) e a (Ref l) u1 u2 k st = byRef (Ref l) a' u2 u1' k st.
Proof. intros E P. cbn [Eval.biunify_at biunify]. rewrite E. by destruct P as [|[]| | |]. Qed.

Lemma right_comprehension t body a a' u1' : b_apply (us_heap st) u1 a = Some (a', u1') -> pat a' ->
  biunify_at (S (S f)) e a (SetComprehension t body) u1 u2 k st =
  match a' with Var _ | SetV _ => bySet t body a' u2 u1' k st | _ => return_nil st end.
Proof. intros E P. cbn [Eval.biunify_at biunify]. rewrite E. by destruct P as [|[]| | |]. Qed.
End Order.

(** *** All pairs of operands *)
Definition equated (a b : value) (d : nat) (V : vstore) : Prop :=
  exists va vb, tgv V a va /\ tgv V b vb /\ Equal va vb = true /\ bounded d va.
Definition equation (a b : value) s : Prop := assigns s /\ exists va vb, tval s a va /\ tval s b vb /\ Equal va vb = true.
Definition opcost (t : value) : nat := match t with SetComprehension _ body => cost n body | _ => 0 end.

Lemma equated_sym a b d V : equated a b d V -> equated b a d V.
Proof. intros (va & vb & Ta & Tb & Q & Bv). exists vb, va. split_ands; [done|done|by rewrite Equal_sym|by eapply bounded_Equal]. Qed.
Lemma equation_sym a b s : equation a b s -> equation b a s.
Proof. intros (A & va & vb & Ta & Tb & Q). split; [done|]. exists vb, va. split_ands; [done|done|by rewrite Equal_sym]. Qed.

Lemma matched_equated x y d V : pat x -> matched x u y d V <-> equated y x d V.
Proof.
  intros P. split; [intros (vx & vy & Gx & Ty & Q & Bv); exists vy, vx|intros (vy & vx & Ty & Gx & Q & Bv); exists vx, vy]; apply (tgv_pattern x V vx P) in Gx; done.
Qed.
Lemma pattern_tval x s v : pat x -> tval s x v <-> v = ev s u x.
Proof. intros P. rewrite ev_list. destruct P; try done. by destruct v0. Qed.

(** What is left to do with a pattern is to look at it after [apply]. *)
Lemma many_apply x y d st k (res : value -> option nat -> option (ustate * option eval_error)) : inv N st -> open_pattern x u st ->
  handles N cl (reach N F st (equated y x d)) k ->
  (forall x' ux', b_apply (us_heap st) u x = Some (x', ux') -> open_pattern x' ux' st -> handles N cl (reach N F st (matched x' ux' y d)) k ->
    many N F (samev st) st (matched x' ux' y d) (fun s => assigns s /\ exists v, tval s y v /\ equals x' ux' v s) k (res x' ux')) ->
  exists x' ux', b_apply (us_heap st) u x = Some (x', ux') /\ pat x' /\ many N F (samev st) st (equated y x d) (equation y x) k (res x' ux').
Proof.
  intros I Op Hk H. pose proof (op_pat _ _ _ Op) as P. destruct (open_apply x u st I Op) as (x' & ux' & Ea & Op' & Gx & Ex). exists x', ux'. split_ands; [done|apply Op'|].
  assert (Hm : forall V, extends (sview st) V -> matched x' ux' y d V -> equated y x d V).
  { intros V X HM. apply (matched_equated x y d V P). by apply (matched_apply x u x' ux' y d (sview st) V). }
  eapply many_weaken; [exact Hm| |apply H; try done].
  - intros s S (A & va & vb & Ta & Tb & Q). split; [done|]. exists va. split; [done|]. apply (pattern_tval x s vb P) in Tb as ->.
    unfold equals. eapply Equal_trans; [exact Q|by apply Ex].
  - by eapply handles_post.
Qed.

Lemma accepts_open t d st : accepts t d -> bound D u B (sview st) -> valid (sview st) u -> (forall z, z ∈ pvars t -> z ∈ B \/ F u z) -> open_pattern t u st.
Proof.
  intros [(P & Bt & _) _] Bd Vu HF. split; try done. intros z Hz. destruct (HF z Hz) as [Hz'|]; [right|by left].
  destruct (Bd z Hz') as (w & G & _). by exists w.
Qed.

Lemma known_value t d id i st : pattern_ok N t -> known t d -> stage N D u B id i st -> exists v, gv (sview st) u t v /\ bounded d v.
Proof.
  intros P K St. destruct (known_pattern t d P K) as [Hv Hf].
  apply (term_value N D u B t d id i st ∅ (sview st) P); [set_solver|done|done|done|by intros x ?%elem_of_empty].
Qed.

Lemma known_open t d id i st : pattern_ok N t -> known t d -> stage N D u B id i st -> open_pattern t u st.
Proof.
  intros P K St. destruct (known_value t d id i st P K St) as (v & G & _). split; [apply P|apply P| |apply St].
  intros z Hz. right. by eapply gv_vars.
Qed.

Lemma both_patterns f a b d w k st : (base <= f)%nat -> (d <= N)%nat -> inv N st -> open_pattern a u st -> open_pattern b u st ->
  gv (sview st) u a w \/ gv (sview st) u b w -> bounded d w -> handles N cl (reach N F st (equated a b d)) k ->
  many N F (samev st) st (equated a b d) (equation a b) k (biunify_at f e a b u u k st).
Proof.
  intros Hf Hd I [Pa B1 Bi1 V1] [Pb B2 Bi2 V2] G Bw Hk.
  assert (Hb : forall V, extends (sview st) V -> both u u a b V -> equated a b d V).
  { intros V X (va & vb & Ga & Gb & Q). exists va, vb. split_ands; [by apply tgv_pattern|by apply tgv_pattern|done|].
    destruct G as [G|G]; [by rewrite <- (gv_fun _ _ _ _ (gv_mono _ _ _ _ _ X G) va Ga)|].
    rewrite <- (gv_fun _ _ _ _ (gv_mono _ _ _ _ _ X G) vb Gb) in Q. rewrite Equal_sym in Q. by eapply bounded_Equal. }
  eapply many_weaken; [exact Hb| |apply patterns_many; [apply _|try done..]].
  - intros s S (A & va & vb & Ta & Tb & Q). apply (pattern_tval a s va Pa) in Ta as ->. by apply (pattern_tval b s vb Pb) in Tb as ->.
  - split; try done. destruct G as [G|G]; [left|right]; exists w; (split; [done|by eapply bounded_le]).
  - by eapply handles_post.
Qed.

Lemma known_left f a b d id i k st : (base + extra + 2 + opcost a <= f)%nat -> (d <= N)%nat -> stage N D u B id i st -> (cl <= count st)%nat -> known a d -> open_pattern b u st ->
  (forall z, z ∈ tvars a -> z ∈ B \/ F u z) -> handles N cl (reach N F st (equated a b d)) k ->
  many N F (samev st) st (equated a b d) (equation a b) k (biunify_at f e a b u u k st).
Proof.
  intros Hf Hd St Hcl K Ob HF Hk. destruct f as [|[|f]]; [unfold base in *; lia..|]. pose proof (sg_inv _ _ _ _ _ _ _ St) as I.
  destruct (operand_cases (input cx) docs docs_ok N D (query_ok n) (sat n) B O a d (or_introl K)) as [(Pa & _)|[(h & path & -> & Rh & Fp)|(t & body & -> & _)]].
  - destruct (known_value a d id i st Pa K St) as (w & G & Bw). apply (both_patterns _ a b d w); try done; [unfold base in *; lia| |by left].
    by eapply known_open.
  - destruct (many_apply b (Ref (Var h :: path)) d st k (fun x' ux' => biunifyRef evalTree (S f) (eval_at (S f)) (biunify_at (S f)) e (Ref (Var h :: path)) x' u ux' k st))
      as (b' & u2' & Eb & Pb' & H); try done; [|by rewrite (left_ref f k st u u _ b b' u2' Eb)].
    intros x' ux' _ Op' Hk'. apply (pattern_ref (S f) x' ux' h path d); try done; [lia|apply St|apply St].
  - destruct (many_apply b (SetComprehension t body) d st k (fun x' ux' => biunifyComprehensionSet (S f) (eval_at (S f)) (biunify_at (S f)) e t body x' u ux' k st))
      as (b' & u2' & Eb & Pb' & H); try done; [|by rewrite (left_comprehension f k st u u _ _ b b' u2' Eb)].
    intros x' ux' _ Op' Hk'. apply (pattern_comprehension (S f) x' ux' t body d id i); try done. simpl in Hf. lia.
Qed.

Lemma known_right f a b d id i k st : (base + extra + 2 + opcost b <= f)%nat -> (d <= N)%nat -> stage N D u B id i st -> (cl <= count st)%nat -> open_pattern a u st -> known b d ->
  (forall z, z ∈ tvars b -> z ∈ B \/ F u z) -> handles N cl (reach N F st (equated a b d)) k ->
  many N F (samev st) st (equated a b d) (equation a b) k (biunify_at f e a b u u k st).
Proof.
  intros Hf Hd St Hcl Oa K HF Hk. destruct f as [|[|f]]; [unfold base in *; lia..|]. pose proof (sg_inv _ _ _ _ _ _ _ St) as I.
  assert (Hk' : handles N cl (reach N F st (equated b a d)) k) by (eapply handles_post; [|exact Hk]; intros V _; apply equated_sym).
  destruct (operand_cases (input cx) docs docs_ok N D (query_ok n) (sat n) B O b d (or_introl K)) as [(Pb & _)|[(h & path & -> & Rh & Fp)|(t & body & -> & _)]].
  - destruct (known_value b d id i st Pb K St) as (w & G & Bw). apply (both_patterns _ a b d w); try done; [unfold base in *; lia| |by right].
    by eapply known_open.
  - eapply many_weaken; [intros V _; apply equated_sym|intros s _; apply equation_sym|].
    destruct (many_apply a (Ref (Var h :: path)) d st k (fun x' ux' => biunifyRef evalTree (S f) (eval_at (S f)) (biunify_at (S f)) e (Ref (Var h :: path)) x' u ux' k st))
      as (a' & u1' & Ea & Pa' & H); try done; [|by rewrite (right_ref f k st u u _ a a' u1' Ea Pa')].
    intros x' ux' _ Op' Hk2. apply (pattern_ref (S f) x' ux' h path d); try done; [lia|apply St|apply St].
  - eapply many_weaken; [intros V _; apply equated_sym|intros s _; apply equation_sym|].
    destruct (many_apply a (SetComprehension t body) d st k (fun x' ux' => match x' with Var _ | SetV _ =>
      biunifyComprehensionSet (S f) (eval_at (S f)) (biunify_at (S f)) e t body x' u ux' k st | _ => return_nil st end))
      as (a' & u1' & Ea & Pa' & H); try done; [|by rewrite (right_comprehension f k st u u _ _ a a' u1' Ea Pa')].
    intros x' ux' _ Op' Hk2. assert (Hn : (forall z, x' <> Var z) -> (forall l, x' <> SetV l) ->
      many N F (samev st) st (matched x' ux' (SetComprehension t body) d) (fun s => assigns s /\ exists v, tval s (SetComprehension t body) v /\ equals x' ux' v s) k (return_nil st)).
    { intros N1 N2. apply many_nil; [done|]. intros s _ (_ & v & (_ & l & -> & _) & Q%Equal_sortOrder). by destruct x'; try (by destruct (N1 x)); try (by destruct (N2 keys)). }
    destruct x'; try (by apply Hn); (apply (pattern_comprehension (S f) _ ux' t body d id i); try done; simpl in Hf; lia).
Qed.

Lemma apply_ref h l : b_apply h u (Ref l) = Some (Ref l, u).
Proof. done. Qed.

Definition some_value (y : value) (v : value) s : Prop := assigns s /\ exists vy, tval s y vy /\ Equal v vy = true.
Definition some_gv (y : value) (v : value) (V : vstore) : Prop := exists vy, tgv V y vy /\ Equal v vy = true.

Lemma some_same y d st v s s' : valid (sview st) u -> known y d -> samev st s s' -> some_value y v s -> some_value y v s'.
Proof.
  intros Vu K Hn (A & vy & T & Q). split; [by apply Hn|]. exists vy. split; [|done].
  eapply (tval_alike (input cx) docs docs_ok N D (query_ok n) (sat n) B O HO); [left; exact K| |exact T]. intros x _. by apply Hn.
Qed.

Lemma ref_ends f a h path d k st : let y := Ref (Var h :: path) in
  (base + extra + 1 <= f)%nat -> root_ok (input cx) docs_ok D B h path d -> Forall (fun k => accepts k d) path -> (d <= N)%nat -> valid (sview st) u -> (cl <= count st)%nat ->
  bound D u B (sview st) -> (forall z, z ∈ tvars y -> z ∈ B \/ F u z) -> handles N cl (reach N F st (equated a y d)) k ->
  ends N cl F (biunify_at f e) (valid (sview st)) u y k (some_value y) (some_gv y) (reaches a d) st.
Proof.
  intros y Hf Rh Fp Hd Vu Hcl Bd HF Hk. assert (Hm : forall v V, reaches a d v V -> some_gv y v V -> equated a y d V).
  { intros v V (va & Qa & Ta & Ba) (vy & Ty & Q). exists va, vy. split_ands; [done|done| |done]. eapply Equal_trans; [|exact Q]. by rewrite Equal_sym. }
  split; [|eapply handles_post; [|exact Hk]; intros V _ (v & Hw & HQ); by eapply Hm].
  intros st1 t1 tb1 v R1 Vt G Bv Nv HW. destruct f as [|[|f]]; [unfold base in *; lia..|].
  assert (Op : open_pattern t1 tb1 st1).
  { split; [by eapply gv_pat|by eapply gv_bounded| |done]. intros z Hz. right. by eapply gv_vars. }
  assert (Ea : b_apply (us_heap st1) tb1 t1 = Some (t1, tb1)) by (destruct t1; try done; by destruct (Nv x)).
  change (biunify_at (S (S f)) e t1 y) with (biunify_at (S (S f)) e t1 (Ref (Var h :: path))).
  rewrite (right_ref f k st1 tb1 u _ t1 t1 tb1 Ea (op_pat _ _ _ Op)).
  assert (Hs : forall V, extends (sview st1) V -> matched t1 tb1 y d V -> some_gv y v V).
  { intros V X (vx & vy & Gx & Ty & Q & _). exists vy. split; [done|]. rewrite (gv_fun _ _ _ _ (gv_mono _ _ _ _ _ X G) vx Gx). by rewrite Equal_sym. }
  eapply many_later; [exact R1|]. eapply many_weaken; [exact Hs| |apply (pattern_ref (S f) t1 tb1 h path d); try done].
  - intros s S (A & vy & Ty & Q). split; [done|]. exists vy. split; [done|]. unfold equals. rewrite Equal_sym. eapply Equal_trans; [|exact Q]. by eapply gv_ev.
  - lia.
  - apply R1.
  - by eapply valid_reach.
  - pose proof (rc_env _ _ _ _ _ R1) as [L _]. lia.
  - eapply bound_mono; [apply R1|done].
  - eapply handles_impl; [|exact Hk]. intros st2 R2. eapply reach_trans; [exact R1|]. eapply reach_post; [|exact R2].
    intros V X Hv. eapply Hm; [by apply HW|by apply Hs].
Qed.

Lemma known_refs f a b d id i k st : (base + extra + 3 <= f)%nat -> (d <= N)%nat -> stage N D u B id i st -> (cl <= count st)%nat -> known a d -> known b d -> is_ref a = true -> is_ref b = true ->
  (forall z, z ∈ tvars a ∪ tvars b -> z ∈ B \/ F u z) -> handles N cl (reach N F st (equated a b d)) k ->
  many N F (samev st) st (equated a b d) (equation a b) k (biunify_at f e a b u u k st).
Proof.
  intros Hf Hd St Hcl Ka Kb Ra Rb HF Hk. destruct f as [|[|f]]; [unfold base in *; lia..|].
  destruct a as [| | | | |[|[| | | |h| | | | | | | |] path]| | | | | | |]; try done. destruct b as [| | | | |[|[| | | |h2| | | | | | | |] path2]| | | | | | |]; try done.
  pose proof Kb as Kb'. destruct Ka as [Rh Fp], Kb as [Rh2 Fp2]. rewrite (left_ref f k st u u _ _ _ u (apply_ref (us_heap st) _)).
  eapply many_weaken; [| |apply (reference_many (Ref (Var h2 :: path2)) u k (some_value (Ref (Var h2 :: path2))) (some_gv (Ref (Var h2 :: path2)))) with (d := d); try done].
  - intros V X (va & Ta & Ba & vb & Tb & Q). by exists va, vb.
  - intros s _ (A & va & vb & Ta & Tb & Q). split; [done|]. exists va. split; [done|]. split; [done|]. by exists vb.
  - intros v w s E (A & vb & Tb & Q). split; [done|]. exists vb. split; [done|]. eapply Equal_trans; [|exact Q]. by rewrite Equal_sym.
  - intros v w V E (vb & Tb & Q). exists vb. split; [done|]. eapply Equal_trans; [|exact Q]. by rewrite Equal_sym.
  - lia.
  - apply St.
  - apply St.
  - intros v s s'. eapply some_same; [apply St|exact Kb'].
  - lia.
  - apply St.
  - set_solver.
  - apply ref_ends; try done; [lia|apply St|apply St|set_solver].
Qed.
End Operands.
