(* ===== verification/EvalSound.v ===== *)
(** Evaluation of a query finds the assignments that satisfy it. *)
From Stdlib Require Import ZArith Lia String.
From stdpp Require Import base gmap list strings pretty.
From S2P Require Import Prelude SortedKeys Value Containers SetTable ObjectTable Builtins Document VarVisitor Safety EvalCache Bindings.
From S2P Require Import Unify UnifySound UnifyTotal EvalGround Eval EvalRefs EvalTerms EvalSem EvalStates EvalClosures EvalUnify.

Lemma assigns_list s u : assigns s -> assigned (s u).
Proof. intros A x. apply A. Qed.

Section Sound.
Context `{SI : SharedInv} (functions : function_env) (builtinFunc : list value -> option Builtin).
Abbreviation eval_type := (eval -> (eval -> EK) -> EK).
Abbreviation biunify_type := (eval -> value -> value -> option nat -> option nat -> EK -> EK).
Context (evalTree : nat -> eval_type -> biunify_type -> eval -> list value -> value -> option nat -> option nat -> EK -> EK).
Context (evalFunc : nat -> eval_type -> biunify_type -> eval -> list value -> EK -> EK).
Context (evalWith : nat -> eval_type -> biunify_type -> eval -> (eval -> EK) -> EK).
Abbreviation eval_at := (eval_at functions builtinFunc evalTree evalFunc evalWith).
Abbreviation biunify_at := (biunify_at functions builtinFunc evalTree evalFunc evalWith).
Context (cx : context) (docs : list value -> value -> Prop) (docs_ok : list value -> nat -> Prop) (Dm : documents docs docs_ok).
Context (N M : nat) (HM : (M <= N)%nat) (Bi : builtins_ok builtinFunc N M).
(** No function is replaced. *)
Context (Mocks : forall sh ref, shared_ok sh -> FunctionMocks.Get (refString functions) (functionMocks sh) ref = Some None).
Abbreviation base := (base N).
Context (extra : nat) (Tr : forall f, (base + extra <= f)%nat -> tree_many functions builtinFunc evalTree evalFunc evalWith cx docs docs_ok N f).
Context (D : string -> nat) (u : option nat).
Abbreviation sat := (sat builtinFunc (input cx) docs).
Abbreviation query_ok := (query_ok builtinFunc (input cx) docs_ok N M D).
Abbreviation evaluates := (evaluates builtinFunc cx docs docs_ok N M D u).
Abbreviation nearby V := (near (valid V) (eq u)).
Implicit Types s : valuation.

(** ** Expressions *)
Section Step.
Context (n : nat) (IH : forall f, evaluates n (eval_at f) (fun q => base + extra + cost n q <= f)%nat).
Context (B O : gset string) (HO : forall x, x ∈ O -> user x) (HB : B ⊆ O).
Context (id : BinNums.N) (i : nat) (st : ustate) (St : stage N D u B id i st).
Context (e : eval) (He : bindings_of e = u) (Hcx : context_of e = cx) (Hid : queryID e = id) (Hi : index e = i).
Context (f : nat) (Hf : (base + extra + 3 <= f)%nat) (cl : nat) (Hcl : (cl <= count st)%nat) (k : EK).

Abbreviation known := (known (input cx) docs_ok N D (query_ok n) B O).
Abbreviation accepts := (accepts N D B).
Abbreviation operand := (operand (input cx) docs_ok N D (query_ok n) B O).
Abbreviation tval s := (tval (input cx) docs (sat n) O (s u)).
Abbreviation tgv := (tgv builtinFunc cx docs u n O).
Abbreviation equated := (equated builtinFunc cx docs u n O).
Abbreviation equation := (equation builtinFunc cx docs u n O).
Abbreviation expr_ok := (expr_ok builtinFunc (input cx) docs_ok N M D (query_ok n) B O).
Abbreviation F X := (step_vars u X id i).

(** What holds after an expression. *)
Definition done_with (x : expr) (V : vstore) : Prop := (forall s, assigns s -> solves s V -> sat (S n) O (s u) x) /\ bound D u (xvars x) V.
Definition meets (x : expr) s : Prop := assigns s /\ sat (S n) O (s u) x.

Lemma many_nearby Fx st1 (Q : vstore -> Prop) A iter res : many N Fx (same (valid (sview st1))) st1 Q A iter res -> many N Fx (nearby (sview st1)) st1 Q A iter res.
Proof. apply many_rel. intros s s'. apply near_weaken. by intros v Hv. Qed.

Lemma known_data t d s v : known t d -> assigns s -> tval s t v -> data v.
Proof.
  intros K A T. destruct (operand_cases (input cx) docs docs_ok N D (query_ok n) (sat n) B O t d (or_introl K)) as [(P & _ & E)|[(h & path & -> & Rh & Fp)|(t' & body & -> & _)]].
  - apply E in T as ->. apply evs_data; [apply P|by apply assigns_list].
  - assert (Fk : Forall data (map (evs (s u)) path)).
    { apply List.Forall_map. eapply Forall_impl; [exact Fp|]. intros k' [[P _] _]. apply evs_data; [done|by apply assigns_list]. }
    cbn [EvalSem.tval] in T. unfold ref_value, root_ok in *. destruct (String.eqb h "data"); [by eapply (dm_data _ _ Dm)|]. destruct (String.eqb h "input").
    + destruct T as (doc & Ei & L). eapply lookups_data; [by apply (Rh doc)|exact Fk|exact L].
    + eapply lookups_data; [apply A|exact Fk|exact T].
  - apply T.
Qed.

(** *** Equality *)
Lemma equated_done a b d l withs idx V : IsEquality [l; a; b] = true ->
  operand a d -> operand b d -> extends (sview st) V ->
  equated a b d V -> done_with (Expr (TTerms [l; a; b]) withs idx false) V.
Proof.
  intros El Oa Ob X (va & vb & Ta & Tb & Q & Ba). assert (Bd : bound D u B V) by (eapply bound_mono; [exact X|apply St]). split.
  - intros s A S. cbn [EvalSem.sat sat_at]. rewrite El. destruct (tgv_tval builtinFunc cx docs docs_ok Dm u n O s V a va A S Ta) as (va' & Ta' & Qa).
    destruct (tgv_tval builtinFunc cx docs docs_ok Dm u n O s V b vb A S Tb) as (vb' & Tb' & Qb). exists va', vb'. split_ands; [done|done|].
    rewrite Equal_sym in Qa. eapply Equal_trans; [exact Qa|]. by eapply Equal_trans.
  - simpl. rewrite (right_id_L ∅ (∪)). apply bound_union. split.
    + by apply (tgv_bound builtinFunc cx docs docs_ok Dm N M D u n B O V a d va).
    + apply (tgv_bound builtinFunc cx docs docs_ok Dm N M D u n B O V b d vb); try done. by eapply bounded_Equal.
Qed.

Lemma open_accepts x t d : accepts t d -> pvars t ⊆ x -> open_pattern N (F x) t u st.
Proof. intros A Hx. eapply accepts_open; [exact A|apply St|apply St|]. intros z Hz. right. split; [done|left]. by apply Hx. Qed.

Lemma eq_step l a b withs idx : let x := Expr (TTerms [l; a; b]) withs idx false in
  IsEquality [l; a; b] = true -> expr_ok x -> (base + extra + 3 + opcost n a + opcost n b <= f)%nat ->
  handles N cl (reach N (F (xvars x)) st (done_with x)) k ->
  many N (F (xvars x)) (nearby (sview st)) st (done_with x) (meets x) k (Eval.unify (biunify_at f) e a b k st).
Proof.
  intros x El [_ Ok] Hc Hk. rewrite El in Ok. destruct Ok as (d & Hd & Ok). unfold Eval.unify. rewrite He.
  assert (Oa : operand a d) by (unfold EvalSem.operand; tauto). assert (Ob : operand b d) by (unfold EvalSem.operand; tauto).
  assert (Hq : forall V, extends (sview st) V -> equated a b d V -> done_with x V) by (intros V X; by apply (equated_done a b d)).
  assert (Hk' : handles N cl (reach N (F (xvars x)) st (equated a b d)) k) by (by eapply handles_post).
  assert (HX : forall t, t = a \/ t = b -> tvars t ⊆ xvars x) by (intros t [->| ->]; simpl; set_solver).
  assert (HP : forall t, accepts t d -> t = a \/ t = b -> open_pattern N (F (xvars x)) t u st).
  { intros t A Ht. apply (open_accepts _ t d A). etransitivity; [|apply (HX t Ht)]. destruct A as [[P _] _]. destruct P; try done. by destruct v. }
  assert (HF : forall t z, t = a \/ t = b -> z ∈ tvars t -> z ∈ B \/ F (xvars x) u z) by (intros t z Ht Hz; right; split; [done|left]; by apply (HX t Ht)).
  apply many_nearby. eapply many_weaken with (A := equation a b); [exact Hq| |destruct Ok as [[K A]|[[A K]|(K1 & K2 & R1 & R2)]]].
  - intros s _ [A Hs]. split; [done|]. unfold x in Hs. cbn [EvalSem.sat sat_at] in Hs. by rewrite El in Hs.
  - eapply known_left; eauto; lia.
  - eapply known_right; eauto; lia.
  - eapply known_refs; eauto. intros z [Hz|Hz]%elem_of_union; eauto.
Qed.

(** *** Terms *)
Lemma is_false_congr v w : Equal v w = true -> is_false v = is_false w.
Proof. intros E. unfold is_false. by rewrite (Equal_cong _ _ _ E). Qed.

Abbreviation gen := (gen_name id i).
Definition not_false : EK := fun st' => v ← Plug f (us_heap st') u (Var gen); if is_false v then return_nil st' else k st'.

Lemma gen_open X : open_pattern N (F X) (Var gen) u st.
Proof.
  split; [apply pat_var|by destruct N| |apply St]. intros z Hz. cbn [vars_of] in Hz. apply elem_of_singleton in Hz as ->. left. split; [done|by right].
Qed.

Lemma term_done t d withs idx V vt vg : let x := Expr (TTerm t) withs idx false in known t d -> extends (sview st) V -> tgv V t vt -> bounded d vt ->
  Equal vt vg = true -> is_false vg = false -> done_with x V.
Proof.
  intros x K X Tt Bt Q Fv. split.
  - intros s A S. destruct (tgv_tval builtinFunc cx docs docs_ok Dm u n O s V t vt A S Tt) as (v & Tv & Qv). exists v. split; [done|].
    by rewrite <- (is_false_congr vt v Qv), (is_false_congr vt vg Q).
  - apply (tgv_bound builtinFunc cx docs docs_ok Dm N M D u n B O V t d vt); try done; [by left|]. eapply bound_mono; [exact X|apply St].
Qed.

Lemma not_false_many t d withs idx st1 : let x := Expr (TTerm t) withs idx false in known t d -> (d <= N)%nat ->
  handles N cl (reach N (F (xvars x)) st (done_with x)) k -> reach N (F (xvars x)) st (equated t (Var gen) d) st1 ->
  many N (F (xvars x)) (same (valid (sview st))) st1 (done_with x) (fun s => is_false (s u gen) = false) k (not_false st1).
Proof.
  intros x K Hd Hk R1. pose proof R1 as [I1 (X1 & _ & vt & vg & Tt & Tg & Q & Bt) _]. change (gv (sview st1) u (Var gen) vg) in Tg.
  unfold not_false. rewrite (Plug_value N st1 N I1 f u (Var gen) vg Tg); [| |unfold EvalUnify.base in *; lia].
  2:{ eapply bounded_Equal; [exact Q|]. by eapply bounded_le. }
  cbn [mbind option_bind]. destruct (is_false vg) eqn:Fv.
  - apply many_nil; [done|]. intros s S. rewrite (is_false_congr (s u gen) vg); [congruence|]. by apply (gv_ev (sview st1) s u (Var gen)).
  - eapply many_here; [apply _|done| |].
    + eapply term_done; [exact K|exact X1|exact Tt|done|exact Q|done].
    + eapply handles_impl; [|exact Hk]. intros st2 R2. by eapply reach_trans.
Qed.

(** The generated variable may have the value of the term. *)
Lemma fresh_value t d s : known t d -> solves s (sview st) -> assigns s -> (exists v, tval s t v /\ is_false v = false) ->
  exists s', nearby (sview st) s s' /\ solves s' (sview st) /\ (equation t (Var gen) s' /\ is_false (s' u gen) = false).
Proof.
  intros K S A (v & Tv & Fv). pose proof (known_data t d s v K A Tv) as Dv.
  pose (s' := fun v' x => if decide (v' = u /\ x = gen) then v else s v' x). assert (A' : assigns s') by (intros v' x; unfold s'; by case_decide).
  assert (Nr : nearby (sview st) s s').
  { split; [|done]. intros v' x _ Hx. unfold s'. rewrite decide_False; [done|]. intros [-> ->]. by destruct (Hx eq_refl id i). }
  assert (Sg : s' u gen = v) by (unfold s'; by rewrite decide_True).
  exists s'. split_ands; [done| |split; [done|]|by rewrite Sg].
  - apply (solves_values N st s' (sg_inv _ _ _ _ _ _ _ St)). intros v' x w G. unfold s'. case_decide as Hx; [|by apply (gv_ev (sview st) s v' (Var x))].
    destruct Hx as [-> ->]. destruct (gv_unbound (sview st) u gen w); [|done]. eapply stage_fresh; [exact St|]. intros y Hy. apply HO. by apply HB.
  - exists v, v. split_ands; [|by rewrite <- Sg|apply Equal_refl].
    eapply (tval_alike (input cx) docs docs_ok N D (query_ok n) (sat n) B O HO (s u) (s' u) t v d); [by left| |done]. intros x Hx. apply Nr; [apply St|done].
Qed.

Lemma term_step t withs idx : let x := Expr (TTerm t) withs idx false in expr_ok x -> (base + extra + 3 + opcost n t <= f)%nat ->
  handles N cl (reach N (F (xvars x)) st (done_with x)) k ->
  many N (F (xvars x)) (nearby (sview st)) st (done_with x) (meets x) k (biunify_at f e t (Var gen) u u not_false st).
Proof.
  intros x [_ (d & Hd & K)] Hc Hk.
  assert (Hn : forall st1, reach N (F (xvars x)) st (equated t (Var gen) d) st1 ->
    many N (F (xvars x)) (same (valid (sview st))) st1 (done_with x) (fun s => is_false (s u gen) = false) k (not_false st1)) by (intros st1; by apply (not_false_many t d)).
  eapply many_fresh; [apply _|intros s S [A T]; by apply (fresh_value t d)|]. apply many_nearby. eapply many_bind; [apply _| | |exact Hn].
  - eapply known_left; eauto; [lia|apply gen_open| |].
    + intros z Hz. right. split; [done|by left].
    + eapply many_handles; intros st1 R1; [|by apply Hn]. eapply handles_impl; [|exact Hk]. intros st2 R2. by eapply reach_trans.
  - intros s s' Hs. destruct Hs as [Hs _]. by rewrite (Hs u gen) by (done || apply St).
Qed.

(** *** Calls of built-in functions *)
Lemma outputs_many Fx (Q : vstore -> Prop) (Eqn : value -> valuation -> Prop) (k' : value -> EK) outs fails : forall st0, inv N st0 ->
  (forall err, fails <> Some (Halts err)) ->
  (forall o st1, o ∈ outs -> inv N st1 -> sview st1 = sview st0 -> grow (us_env st0) (us_env st1) -> many N Fx (nearby (sview st)) st1 Q (Eqn o) k (k' o st1)) ->
  many N Fx (nearby (sview st)) st0 Q (fun s => exists o, o ∈ outs /\ Eqn o s) k (outputs_rec k' outs fails st0).
Proof.
  induction outs as [|o outs IHo]; intros st0 I Hh H; simpl.
  - assert (Hn : forall s, solves s (sview st0) -> ~ exists o, o ∈ [] /\ Eqn o s) by (intros s _ (o & []%elem_of_nil & _)).
    destruct fails as [[msg|err]|]; [apply many_none|by destruct (Hh err)|apply many_none]; try done. by apply inv_env.
  - eapply many_weaken; [done| |apply (many_seq N Fx (nearby (sview st)) st0 Q (Eqn o) (fun s => exists o, o ∈ outs /\ Eqn o s))].
    + intros s _ (y & [->|Hy]%elem_of_cons & Hs); [by left|right; by exists y].
    + apply H; [by left|done|done|done].
    + done.
    + intros st1 I1 V1 G1. apply IHo; [done|done|]. intros y st2 Hy I2 V2 G2. apply H; [by right|done|congruence|by etransitivity].
Qed.

Section Call.
Context (ref args : list value) (bi : Builtin) (Hbi : builtinFunc ref = Some bi).
Context (Fa : Forall (fun t => pattern_ok N t /\ pvars t ⊆ B /\ fits D N t) (take (bi_args bi) args)).
Context (Hl : length args = bi_args bi \/ bi_result bi = true /\ exists last, length args = S (bi_args bi) /\ args !! bi_args bi = Some last /\ accepts last M).
Abbreviation a := (bi_args bi).

Lemma args_ok t : t ∈ args -> pattern_ok N t.
Proof.
  intros [j Hj]%list_elem_of_lookup. destruct (decide (j < a)%nat) as [Hlt|Hge].
  - rewrite Forall_lookup in Fa. apply (Fa j t). by rewrite lookup_take_lt.
  - pose proof (lookup_lt_Some _ _ _ Hj). destruct Hl as [El|(_ & last & El & Hla & [P _])]; [lia|].
    assert (j = a) as -> by lia. congruence.
Qed.

Lemma call_operands : exists ops vals, mapM (Plug f (us_heap st) u) args = Some ops /\ length ops = length args /\ take a ops = vals /\
  Forall2 (gv (sview st) u) (take a args) vals /\ Forall (bounded N) vals.
Proof.
  pose proof (sg_inv _ _ _ _ _ _ _ St) as I. unfold EvalUnify.base in Hf.
  assert (Ho : Forall (fun t => exists o, Plug f (us_heap st) u t = Some o) args).
  { apply Forall_forall. intros t Ht. destruct (args_ok t Ht) as (P & Bt & _). destruct (Plug_ok N st u t I P N f Bt) as (o & Eo & _); [lia|]. by exists o. }
  destruct (Forall_values (fun t o => Plug f (us_heap st) u t = Some o) args Ho) as [ops Fo].
  assert (Hv : Forall (fun t => exists v, gv (sview st) u t v /\ bounded N v) (take a args)).
  { eapply Forall_impl; [exact Fa|]. intros t (P & Hv & Hft).
    apply (term_value N D u B t N id i st ∅ (sview st) P); [set_solver|done|done|done|by intros x ?%elem_of_empty]. }
  destruct (Forall_values _ _ Hv) as [vals Fv]. exists ops, vals. split_ands.
  - by apply mapM_Some_2.
  - symmetry. by eapply Forall2_length.
  - symmetry. eapply (Forall2_fun (fun t o => Plug f (us_heap st) u t = Some o)); [|by apply Forall2_take]. eapply Forall2_impl; [exact Fv|].
    intros t v [G Bv] o Eo. rewrite (Plug_value N st N I f u t v G Bv) in Eo by lia. congruence.
  - eapply Forall2_impl; [exact Fv|]. by intros t v [G _].
  - eapply Forall2_Forall_r; [exact Fv|]. apply Forall_true. by intros t v [_ Bv].
Qed.

(** An output makes the call true. *)
Definition output_ok (o : value) s : Prop :=
  if bi_result bi then
    if (length args =? a)%nat then is_false o = false
    else exists last, args !! a = Some last /\ Equal (evs (s u) last) o = true
  else True.

Lemma output_congr o o' s : Equal o o' = true -> output_ok o s -> output_ok o' s.
Proof.
  intros E. unfold output_ok. destruct (bi_result bi); [|done]. destruct (length args =? a)%nat; [by rewrite (is_false_congr o o' E)|].
  intros (last & Hla & Q). exists last. split; [done|]. by eapply Equal_trans.
Qed.

Section Outputs.
Context (vals : list value) (Fv : Forall2 (gv (sview st) u) (take a args) vals).

Lemma operand_values s V : assigns s -> extends (sview st) V -> solves s V ->
  Forall2 (fun o o' => Equal o o' = true) (bi_func bi vals).1 (bi_func bi (map (evs (s u)) (take a args))).1.
Proof.
  intros A X S. apply (bo_congr _ _ _ Bi ref); [done| | |].
  - eapply Forall2_Forall_r; [exact Fv|]. apply Forall_true. intros t v G. by eapply gv_data.
  - apply List.Forall_map. eapply Forall_impl; [exact Fa|]. intros t [[P _] _]. apply evs_data; [done|by apply assigns_list].
  - apply Forall2_fmap_r, Forall2_flip. eapply Forall2_impl; [exact Fv|]. intros t v G. simpl. rewrite Equal_sym, <- ev_list.
    apply (gv_ev V s u t v S). by eapply gv_mono.
Qed.

Lemma call_sat s V : assigns s -> extends (sview st) V -> solves s V ->
  sat_call builtinFunc (s u) ref args <-> exists o, o ∈ (bi_func bi vals).1 /\ output_ok o s.
Proof.
  intros A X S. pose proof (operand_values s V A X S) as Fo. split.
  - intros (bi' & o' & Hbi' & Ho' & H). rewrite Hbi in Hbi'. injection Hbi' as <-. apply list_elem_of_lookup in Ho' as [j Hj].
    destruct (Forall2_lookup_r _ _ _ _ _ Fo Hj) as (o & Ho & Q). exists o. split; [by eapply list_elem_of_lookup_2|].
    eapply output_congr; [|exact H]. by rewrite Equal_sym.
  - intros (o & [j Hj]%list_elem_of_lookup & H). destruct (Forall2_lookup_l _ _ _ _ _ Fo Hj) as (o' & Ho' & Q).
    exists bi, o'. split; [done|]. split; [by eapply list_elem_of_lookup_2|]. by apply (output_congr o o' s Q).
Qed.

Context (withs : list (value * value)) (idx : Z) (El : IsEquality (Ref ref :: args) = false).
Abbreviation x := (Expr (TTerms (Ref ref :: args)) withs idx false).

Lemma args_vars t : t ∈ args -> tvars t = pvars t.
Proof. intros Ht. destruct (args_ok t Ht) as [P _]. destruct P; try done. by destruct v. Qed.

Lemma args_bound V : extends (sview st) V -> (forall last, args !! a = Some last -> bound D u (pvars last) V) -> bound D u (xvars x) V.
Proof.
  intros X Hla z Hz. simpl in Hz. apply elem_of_union_list in Hz as (Y & (t & -> & Ht)%list_elem_of_fmap & Hz). rewrite (args_vars t Ht) in Hz.
  apply list_elem_of_lookup in Ht as [j Hj]. destruct (decide (j < a)%nat) as [Hlt|Hge].
  - rewrite Forall_lookup in Fa. destruct (Fa j t) as (_ & Hv & _); [by rewrite lookup_take_lt|].
    eapply bound_mono; [exact X|apply St|]. by apply Hv.
  - pose proof (lookup_lt_Some _ _ _ Hj). destruct Hl as [El'|(_ & last & El' & _)]; [lia|]. assert (j = a) as -> by lia. by apply (Hla t).
Qed.

Lemma call_done V o : extends (sview st) V -> o ∈ (bi_func bi vals).1 -> (forall s, assigns s -> solves s V -> output_ok o s) ->
  (forall last, args !! a = Some last -> bound D u (pvars last) V) -> done_with x V.
Proof.
  intros X Ho H Hla. split; [|by apply args_bound]. intros s A S. cbn [EvalSem.sat sat_at]. rewrite El. apply (call_sat s V A X S). exists o. auto.
Qed.

Definition on_output (o : value) : EK := fun st1 =>
  if negb (bi_result bi) then k st1
  else if (length args =? a)%nat then if is_false o then return_nil st1 else k st1
  else last ← args !! a; biunify_at f e last o u u k st1.

Lemma last_step last o st1 : length args = S a -> args !! a = Some last -> bi_result bi = true -> accepts last M -> o ∈ (bi_func bi vals).1 -> data o -> bounded M o ->
  inv N st1 -> sview st1 = sview st -> grow (us_env st) (us_env st1) -> handles N cl (reach N (F (xvars x)) st (done_with x)) k ->
  many N (F (xvars x)) (nearby (sview st)) st1 (done_with x) (fun s => assigns s /\ output_ok o s) k (biunify_at f e last o u u k st1).
Proof.
  intros Ll Hla Hres Acc Ho Do Bo I1 V1 G1 Hk. assert (En : (length args =? a)%nat = false) by (apply Nat.eqb_neq; lia).
  assert (Hv : pvars last ⊆ xvars x).
  { assert (Ht : last ∈ args) by (by eapply list_elem_of_lookup_2). rewrite <- (args_vars last Ht). simpl. intros z Hz. apply elem_of_union_list.
    exists (tvars last). split; [by apply list_elem_of_fmap_2|done]. }
  destruct (open_accepts (xvars x) last M Acc Hv) as [P Bl Bil Vl].
  assert (Hb : forall V, extends (sview st) V -> both u u last o V -> done_with x V).
  { intros V X (va & vb & Ga & Gb & Q). rewrite <- (gv_fun _ _ _ _ (data_gv V u o Do) vb Gb) in Q. apply (call_done V o X Ho).
    - intros s A S. unfold output_ok. rewrite Hres, En. exists last. split; [done|]. eapply Equal_trans; [|exact Q]. rewrite <- ev_list. by eapply gv_ev.
    - intros last' Hla'. rewrite Hla in Hla'. injection Hla' as <-. eapply accepts_bound; [exact Acc| |exact Ga|].
      + eapply bound_mono; [exact X|apply St].
      + rewrite Equal_sym in Q. by eapply bounded_Equal. }
  eapply many_weaken; [rewrite V1; exact Hb| |eapply patterns_many; [apply _|..]].
  - intros s S (A & Hs). unfold output_ok in Hs. rewrite Hres, En in Hs. destruct Hs as (last' & Hla' & Q). rewrite Hla in Hla'. injection Hla' as <-.
    unfold eqn. rewrite ev_list. eapply Equal_trans; [exact Q|]. rewrite Equal_sym. apply (gv_ev (sview st1) s u o o S). by apply data_gv.
  - lia.
  - split; [done|]. rewrite V1. split; apply St.
  - rewrite V1. split; [done|by apply data_pat|done| |done|by eapply bounded_le|].
    + intros z Hz. rewrite data_vars in Hz by done. by apply elem_of_empty in Hz.
    + right. exists o. split; [by apply data_gv|by eapply bounded_le].
  - eapply handles_impl; [|exact Hk]. intros st2 R2. eapply reach_post; [exact Hb|]. by eapply reach_same.
Qed.

Lemma output_step o st1 : o ∈ (bi_func bi vals).1 -> data o -> bounded M o -> inv N st1 -> sview st1 = sview st -> grow (us_env st) (us_env st1) ->
  handles N cl (reach N (F (xvars x)) st (done_with x)) k ->
  many N (F (xvars x)) (nearby (sview st)) st1 (done_with x) (fun s => assigns s /\ output_ok o s) k (on_output o st1).
Proof.
  intros Ho Do Bo I1 V1 G1 Hk. assert (Hk1 : handles N cl (reach N (F (xvars x)) st1 (done_with x)) k).
  { eapply handles_impl; [|exact Hk]. intros st2 R2. by eapply reach_same. }
  unfold on_output. pose proof Hl as [El'|(Hres & last & El' & Hla & Acc)].
  - assert (Nla : forall last, args !! a = Some last -> bound D u (pvars last) (sview st1)) by (intros last Hla; apply lookup_lt_Some in Hla; lia).
    rewrite El', Nat.eqb_refl. assert (Hr : bi_result bi = true \/ bi_result bi = false) by (by case (bi_result bi); auto).
    destruct Hr as [Hres|Hres]; rewrite Hres; simpl.
    + destruct (is_false o) eqn:Fo; [apply many_none; try done|eapply many_here; [apply _|done| |done]].
      * intros s _ [_ H]. unfold output_ok in H. rewrite Hres, El', Nat.eqb_refl in H. congruence.
      * apply (call_done _ o); [by rewrite V1|done| |done]. intros s A S. unfold output_ok. by rewrite Hres, El', Nat.eqb_refl.
    + eapply many_here; [apply _|done| |done]. apply (call_done _ o); [by rewrite V1|done| |done]. intros s A S. unfold output_ok. by rewrite Hres.
  - rewrite Hres, Hla, (proj2 (Nat.eqb_neq (length args) a)) by lia. simpl. by apply last_step.
Qed.

Lemma outputs_step l : handles N cl (reach N (F (xvars x)) st (done_with x)) k -> Forall (bounded N) vals -> take a l = vals -> length l = length args ->
  mapM (Plug f (us_heap st) u) args = Some l ->
  many N (F (xvars x)) (nearby (sview st)) st (done_with x) (meets x) k (evalBuiltin f (biunify_at f) e bi args k st).
Proof.
  intros Hk Bv Hv Ll Em. assert (Dv : Forall data vals) by (eapply Forall2_Forall_r; [exact Fv|]; apply Forall_true; intros t v G; by eapply gv_data).
  pose proof (bo_outputs _ _ _ Bi ref bi vals Hbi Dv Bv) as Fo. pose proof (fun err => bo_halts _ _ _ Bi ref bi vals err Hbi Dv) as Hh.
  pose proof (fun o st1 Ho => output_step o st1 Ho) as Hs. pose proof (fun s => call_sat s (sview st)) as Hc.
  unfold evalBuiltin. rewrite He, Em. cbn [mbind option_bind]. rewrite (bo_args _ _ _ Bi ref bi l Hbi), Hv, Ll.
  destruct (bi_func bi vals) as [outs fails]. simpl in Fo, Hh, Hs, Hc. rewrite Forall_forall in Fo.
  eapply many_weaken; [done| |apply (outputs_many _ (done_with x) (fun o s => assigns s /\ output_ok o s)); [apply St|exact Hh|]].
  - intros s S [A H]. cbn [EvalSem.sat sat_at] in H. rewrite El in H. apply (Hc s A ltac:(done) S) in H as (o & Ho & H). by exists o.
  - intros o st1 Ho I1 V1 G1. destruct (Fo o Ho) as [Do Bo]. specialize (Hs o st1 Ho Do Bo I1 V1 G1 Hk). unfold on_output in Hs.
    unfold Eval.unify. rewrite He. pose proof Hl as [El'|(_ & last & El' & Hla & _)].
    + by rewrite El', Nat.eqb_refl in *.
    + rewrite (proj2 (Nat.ltb_lt a (length args))) by lia. by replace (length args - 1)%nat with a by lia.
Qed.
End Outputs.

Lemma call_step withs idx : let x := Expr (TTerms (Ref ref :: args)) withs idx false in
  IsEquality (Ref ref :: args) = false -> handles N cl (reach N (F (xvars x)) st (done_with x)) k ->
  many N (F (xvars x)) (nearby (sview st)) st (done_with x) (meets x) k (evalBuiltin f (biunify_at f) e bi args k st).
Proof. intros x El Hk. destruct call_operands as (ops & vals & Em & Ll & Hv & Fv & Bv). by apply (outputs_step vals Fv withs idx El ops). Qed.
End Call.
End Step.

Lemma closure_post n O x V : xvars x = ∅ -> done_with n O x V <-> forall s, assigns s -> solves s V -> sat (S n) O (s u) x.
Proof. intros E. unfold done_with. rewrite E. split; [by intros [H _]|]. intros H. split; [done|]. by intros z ?%elem_of_empty. Qed.

Lemma step_many n B O id i st e f cl x iter : (forall f, evaluates n (eval_at f) (fun q => base + extra + cost n q <= f)%nat) ->
  (forall x, x ∈ O -> user x) -> B ⊆ O -> stage N D u B id i st -> bindings_of e = u -> context_of e = cx -> queryID e = id -> index e = i ->
  expr_ok builtinFunc (input cx) docs_ok N M D (query_ok n) B O x -> (base + extra + cost (S n) [x] <= S f)%nat -> (cl <= count st)%nat ->
  handles N cl (reach N (step_vars u (xvars x) id i) st (done_with n O x)) (iter e) ->
  many N (step_vars u (xvars x) id i) (nearby (sview st)) st (done_with n O x) (meets n O x) (iter e)
    (evalStep functions builtinFunc evalFunc f (eval_at f) (biunify_at f) e x iter st).
Proof.
  intros IH HO HB St He Hcx Hid Hi Ok Hf Hcl Hk. simpl in Hf. destruct x as [ts withs idx [|]].
  - assert (Hq : forall V, done_with n O (Expr ts withs idx true) V <-> forall s, assigns s -> solves s V -> sat (S n) O (s u) (Expr ts withs idx true)) by (intros V; by apply closure_post).
    eapply many_weaken; [intros V _; apply Hq|intros s _ H; exact H|]. eapply evalNot_many; [apply (IH f)|done|done|done|done|apply Ok| |exact St|].
    + simpl. lia.
    + eapply handles_post; [|exact Hk]. intros V _. apply Hq.
  - destruct ts as [t|l| |key val domain body]; [| |by destruct Ok|].
    + cbn [evalStep]. unfold Eval.unify. rewrite He, Hid, Hi.
      eapply term_step; eauto; [lia|]. unfold opcost. destruct t; simpl in *; lia.
    + destruct (IsEquality l) eqn:El.
      * assert (Ok' := Ok). destruct Ok' as [_ Ok']. rewrite El in Ok'. destruct l as [|h [|a [|b []]]]; try done.
        cbn [evalStep]. rewrite El. eapply eq_step; eauto; [lia|]. unfold opcost. simpl in Hf. lia.
      * destruct Ok as [_ Ok]. rewrite El in Ok. destruct l as [|[| | | | |[|head ref]| | | | | | |] args]; try done.
        destruct Ok as (Hh & bi & Hbi & Fa & Hl). cbn [evalStep]. rewrite El. unfold evalCall. cbn [evalCall_at].
        rewrite (Mocks (common (us_env st))) by apply (i_shared _ _ (sg_inv _ _ _ _ _ _ _ St)). cbn [mbind option_bind]. rewrite Hh, Hbi.
        eapply call_step; eauto. lia.
    + destruct key as [key|]; [|by destruct Ok]. destruct Ok as (_ & Hg & Hb).
      assert (Hq : forall V, done_with n O (Expr (TEvery (Some key) val domain body) withs idx false) V <->
        forall s, assigns s -> solves s V -> sat (S n) O (s u) (Expr (TEvery (Some key) val domain body) withs idx false)) by (intros V; by apply closure_post).
      eapply many_weaken; [intros V _; apply Hq|intros s _ H; exact H|]. cbn [evalStep].
      eapply evalEvery_many; [apply (IH f)|exact HO|exact HB|exact He|exact Hcx|exact Hg|exact Hb|simpl; lia|simpl; lia|exact St|].
      eapply handles_post; [|exact Hk]. intros V _. apply Hq.
Qed.

(** ** Queries *)
Lemma reach_vars (F F' : option nat -> string -> Prop) (Q Q' : vstore -> Prop) st st1 : (forall v x, F v x -> F' v x) -> (Q (sview st1) -> Q' (sview st1)) ->
  reach N F st Q st1 -> reach N F' st Q' st1.
Proof.
  intros HF HQ [I (X & Nw & H) G]. split; [done| |done]. split; [done|]. split; [|auto].
  intros v x bv Vv Hx. destruct (Nw v x bv Vv Hx); auto.
Qed.

Section Query.
Context (n : nat) (IH : forall f, evaluates n (eval_at f) (fun q => base + extra + cost n q <= f)%nat).
Context (O : gset string) (HO : forall x, x ∈ O -> user x) (q : list expr) (id : BinNums.N) (one : bool) (cl : nat) (iter : eval -> EK).
Abbreviation found := (found builtinFunc cx docs D u).
Abbreviation satisfies := (satisfies builtinFunc cx docs u).
Abbreviation scope := (scope builtinFunc cx docs_ok N M D).
Abbreviation k := (finish (at_end cx u q id one) iter).
Abbreviation at_index i := (MkEval q i id u one cx).

Lemma found_cons x rest st1 V : done_with n O x (sview st1) -> extends (sview st1) V -> found (S n) O rest V -> found (S n) O (x :: rest) V.
Proof.
  intros [Hs Bx] X [Sr Br]. split.
  - intros s A S. constructor; [|by apply Sr]. apply Hs; [done|]. by eapply solves_mono.
  - unfold qvars. simpl. apply bound_union. split; [by eapply bound_mono|done].
Qed.

Lemma query_vars_cons i x rest v z : step_vars u (xvars x) id i v z \/ query_vars u (qvars rest) id v z -> query_vars u (qvars (x :: rest)) id v z.
Proof. unfold step_vars, query_vars, qvars. simpl. intros [[? [H| ->]]|[? [H|H]]]; (split; [done|]); [left; set_solver|right; by exists i|left; set_solver|by right]. Qed.

(** An expression, and then the rest of the query. *)
Lemma query_cons x rest i B st f : expr_ok builtinFunc (input cx) docs_ok N M D (query_ok n) B O x -> scope (S n) (B ∪ xvars x) O rest ->
  B ⊆ O -> (base + extra + cost (S n) [x] <= S f)%nat -> stage N D u B id i st -> (cl <= count st)%nat ->
  (forall st1, stage N D u (B ∪ xvars x) id (S i) st1 -> (cl <= count st1)%nat -> handles N cl (reach N (query_vars u (qvars rest) id) st1 (found (S n) O rest)) k ->
    many N (query_vars u (qvars rest) id) (nearby (sview st1)) st1 (found (S n) O rest) (satisfies (S n) O rest) k (eval_at f (at_index (S i)) iter st1)) ->
  handles N cl (reach N (query_vars u (qvars (x :: rest)) id) st (found (S n) O (x :: rest))) k ->
  many N (query_vars u (qvars (x :: rest)) id) (nearby (sview st)) st (found (S n) O (x :: rest)) (satisfies (S n) O (x :: rest)) k
    (evalStep functions builtinFunc evalFunc f (eval_at f) (biunify_at f) (at_index i) x (fun e => eval_at f (advance e) iter) st).
Proof.
  intros Okx Sc HB Hf St Hcl Hr Hk. set (Fq := query_vars u (qvars (x :: rest)) id) in *. pose (Q1 := from (step_vars u (xvars x) id i) (sview st) (done_with n O x)).
  assert (Hk1 : forall st1, reach N (step_vars u (xvars x) id i) st (done_with n O x) st1 -> handles N cl (reach N Fq st1 (found (S n) O (x :: rest))) k).
  { intros st1 R1. eapply handles_impl; [|exact Hk]. intros st2 R2. eapply (reach_trans N Fq st st1 st2 (done_with n O x)); [|exact R2].
    eapply reach_vars; [|done|exact R1]. intros v z Hz. apply (query_vars_cons i). by left. }
  assert (Hrest : forall st1, reach N (step_vars u (xvars x) id i) st (done_with n O x) st1 ->
    many N Fq (nearby (sview st)) st1 (found (S n) O (x :: rest)) (satisfies (S n) O rest) k (eval_at f (at_index (S i)) iter st1)).
  { intros st1 R1. pose proof R1 as [_ (X1 & _ & Hx) _]. apply (many_rel N Fq (nearby (sview st1))).
    { intros s s'. apply near_weaken. intros v Hv. split; [by eapply valid_extends|done]. }
    eapply many_vars; [intros v z Hz; apply (query_vars_cons i); by right| |intros s _ H; exact H|apply Hr].
    - intros V (X & _ & Hf'). by eapply found_cons.
    - eapply stage_step; [exact St|exact R1|apply Hx].
    - pose proof (rc_env _ _ _ _ _ R1) as [L _]. lia.
    - eapply handles_impl; [|by apply (Hk1 st1)]. intros st2 R2. pose proof R2 as [_ (X2 & _) _].
      eapply reach_vars; [intros v z Hz; apply (query_vars_cons i); by right| |exact R2]. by apply found_cons with st1. }
  eapply many_weaken; [done| |eapply (many_bind N Fq (nearby (sview st)) st Q1 _ (meets n O x) (satisfies (S n) O rest))].
  - intros s _ [A [Hx Hs]%Forall_cons]. by split.
  - eapply many_vars; [|intros V H; exact H|intros s _ H; exact H|eapply (step_many n B O id i st (at_index i) f cl); try done].
    + intros v z Hz. apply (query_vars_cons i). by left.
    + eapply many_handles; [exact Hk1|exact Hrest].
  - intros s s' Hn. eapply (satisfies_near builtinFunc cx docs docs_ok N M D u (S n) (B ∪ xvars x) O rest (sview st)); [exact Sc|apply St|done].
  - intros st1 R1. apply Hrest. destruct R1 as [I1 (X1 & _ & Hd) G1]. by split.
Qed.

Lemma query_many rest : forall i B st f, drop i q = rest -> (i + length rest)%nat = length q -> scope (S n) B O rest ->
  (base + extra + cost (S n) rest <= f)%nat -> stage N D u B id i st -> (cl <= count st)%nat ->
  handles N cl (reach N (query_vars u (qvars rest) id) st (found (S n) O rest)) k ->
  many N (query_vars u (qvars rest) id) (nearby (sview st)) st (found (S n) O rest) (satisfies (S n) O rest) k (eval_at f (at_index i) iter st).
Proof.
  induction rest as [|x rest IHr]; intros i B st f Hd Hl [Ok _ HB Hv] Hf St Hcl Hk; (destruct f as [|f]; [unfold EvalUnify.base in Hf; lia|]);
    cbn [Eval.eval_at]; unfold evalExpr; cbn [query index].
  - simpl in Hl. rewrite Nat.add_0_r in Hl. rewrite lookup_ge_None_2, Hl by lia.
    eapply many_here; [apply _|apply St| |exact Hk]. split; [by intros s _ _|intros z Hz; change (qvars []) with (∅ : gset string) in Hz; by apply elem_of_empty in Hz].
  - destruct Ok as [Okx Ok]. assert (Hx : q !! i = Some x) by (rewrite <- (Nat.add_0_r i), <- lookup_drop, Hd; done).
    assert (Hv' : xvars x ∪ qvars rest ⊆ O) by done.
    rewrite Hx. destruct x as [ts [|w withs] idx negated]; [|by destruct Okx as [[=] _]].
    assert (Sc : scope (S n) (B ∪ xvars (Expr ts [] idx negated)) O rest) by (split; [done|done|set_solver|set_solver]).
    eapply (query_cons (Expr ts [] idx negated) rest i B st f Okx Sc HB); [|exact St|exact Hcl| |exact Hk].
    + simpl in Hf |- *. lia.
    + intros st1 St1 Hcl1 Hk1. eapply IHr; [|simpl in Hl; lia|exact Sc|simpl in Hf |- *; lia|exact St1|exact Hcl1|exact Hk1].
      rewrite <- (Nat.add_1_r i), <- drop_drop, Hd. done.
Qed.
End Query.

Lemma eval_evaluates n : forall f, evaluates n (eval_at f) (fun q => base + extra + cost n q <= f)%nat.
Proof.
  induction n as [|n IH]; intros f B O q id st iter one cl Sc Hf St Hcl k Hk; [by destruct Sc|].
  by apply (query_many n IH O (sc_user _ _ _ _ _ _ _ _ _ _ Sc) q id one cl iter q 0 B st f).
Qed.
End Sound.
