(* ===== verification/EvalData.v ===== *)
(** References to the documents of complete rules: what [evalTree] finds along the rule tree,
    and the evaluation of rules that refer to each other. *)
From Stdlib Require Import ZArith Lia String.
From stdpp Require Import base gmap list strings pretty.
From S2P Require Import Prelude SortedKeys Value Containers SetTable ObjectTable RefOps Builtins Document VarVisitor Safety Index EvalCache RuleTree Bindings.
From S2P Require Import Unify UnifySound UnifyTotal EvalGround Eval EvalRefs EvalTerms EvalSem EvalRules EvalPolicy EvalDocs EvalIndex EvalStates EvalClosures EvalUnify EvalSound EvalChild EvalVirtual.

(** ** The walk along the rule tree *)
Section Tree.
Context (pol : policy) (fuel : nat) (Hf : (0 < fuel)%nat) (run : eval -> (eval -> EK) -> EK).
Context (biunify : eval -> value -> value -> option nat -> option nat -> EK -> EK).
Context (e : eval) (b : option nat) (rterm : value) (rb : option nat) (iter : EK) (st : ustate) (Ht : targetStack (common (us_env st)) = []).

Lemma tree_walk keys : forall n pre p rest, walk_tree n pre keys = Some (p, rest) ->
  evalTree_from pol fuel run biunify e b rterm rb iter pre (Some n) keys st = evalVirtual pol fuel run biunify e p rest b rterm rb iter st.
Proof.
  induction keys as [|k keys IH]; intros n pre p rest H; [done|]. destruct k as [| | |s| | | | | | | | |]; try done. cbn [walk_tree evalTree_from] in *.
  rewrite Plug_data by (done || by apply data_scalar). cbn [mbind option_bind IsGround]. rewrite Ht. cbn [RefStack.Prefixed existsb].
  destruct (Child n (Str s)) as [c|]; [|done]. cbn [mbind option_bind] in *. destruct (Values c) as [|r rs]; [by apply IH|]. by injection H as <- <-.
Qed.

Lemma tree_found path pre rest : doc_split (ruleTree pol) path = Some (pre, rest) ->
  evalTree pol fuel run biunify e (Var "data" :: path) rterm b rb iter st = evalVirtual pol fuel run biunify e pre rest b rterm rb iter st.
Proof.
  unfold doc_split, evalTree. destruct (Child (ruleTree pol) (Var "data")) as [n|]; [|done]. simpl. apply tree_walk.
Qed.
End Tree.

(** ** Rules that refer to rules *)
Section Data.
Context (functions : function_env) (builtinFunc : list value -> option Builtin) (Eq_ok : equal_ok builtinFunc) (pol : policy) (cx : context).
Context (rules_at : list value -> option (list (list rule))) (n0 : nat) (J : list value -> value -> Prop) (N M : nat).
#[local] Instance policy_inv : SharedInv := caches_ok J.
Context (Md : model builtinFunc (input cx) (ruleTree pol) rules_at n0 J).
Abbreviation docs := (docs (ruleTree pol) J).
Abbreviation docs_ok := (docs_ok builtinFunc pol cx rules_at n0 J N M).
Abbreviation evalTree := (evalTree pol).
Abbreviation evalFunc := (evalFunc pol).
Abbreviation evalWith := (evalWith functions builtinFunc pol).
Abbreviation eval_at := (eval_at functions builtinFunc evalTree evalFunc evalWith).
Abbreviation biunify_at := (biunify_at functions builtinFunc evalTree evalFunc evalWith).

(** A bound on the fuel for the bodies of the rules. *)
Context (K : nat) (HK : forall pre chains r, rules_at pre = Some chains -> r ∈ concat chains -> (cost n0 (r_body r) <= K)%nat).

Lemma docs_virtual rank path d : docs_ok rank path d -> virtual_prefix (ruleTree pol) (Var "data" :: path) = true.
Proof. destruct rank as [|rank]; [done|]. intros (pre & rest & chains & Es & _). by eapply doc_split_virtual. Qed.

Section Reference.
Context (rank f : nat) (room : list expr -> Prop) (Hroom : forall q, (cost n0 q <= K)%nat -> room q) (Hf : (base N <= f)%nat).
Context (IH : forall D u, evaluates builtinFunc cx docs (docs_ok rank) N M D u n0 (eval_at f) room).

(** The strings of the path have themselves as values. *)
Lemma split_gv path pre rest V u ks : doc_split (ruleTree pol) path = Some (pre, rest) -> Forall2 (gv V u) rest ks ->
  exists l, path = map Str l ++ rest /\ Forall2 (gv V u) path (map Str l ++ ks) /\ doc_split (ruleTree pol) (map Str l ++ ks) = Some (pre, ks).
Proof.
  intros Es Fk. destruct (doc_split_path _ _ _ _ Es) as (l & -> & ->). exists l. assert (Fl : Forall2 (gv V u) (map Str l ++ rest) (map Str l ++ ks)).
  { apply Forall2_app; [|done]. clear. induction l; constructor; [by apply gv_scalar|done]. }
  split_ands; [done|done|]. destruct (doc_split_rel _ _ _ _ _ _ (fun s k => gv_Str V u s k) Fl Es) as (rest' & Es' & _). rewrite Es'. f_equal. f_equal.
  destruct (doc_split_path _ _ _ _ Es') as (l' & [= <-] & E). by apply app_inv_head in E.
Qed.
Lemma split_ev path pre rest s u : doc_split (ruleTree pol) path = Some (pre, rest) -> doc_split (ruleTree pol) (map (ev s u) path) = Some (pre, map (ev s u) rest).
Proof.
  intros Es. destruct (doc_split_rel (ruleTree pol) (fun k k' => k' = ev s u k) path (map (ev s u) path) pre rest) as (rest' & Es' & F); try done.
  { clear. induction path; by constructor. }
  rewrite Es'. f_equal. f_equal. clear -F. induction F as [|k k' ks ks' -> _ IH]; [done|]. simpl. by rewrite IH.
Qed.

Lemma data_many : tree_many functions builtinFunc evalTree evalFunc evalWith cx docs (docs_ok (S rank)) N f.
Proof.
  intros cl D u B F e path d rterm rb k R Qr st Hu Hcx (pre & rest & chains & Es & Er & Ix & Fr & Jb) Hd Fp I Vu Hcl Bd HF R_congr R_same Qr_congr Ends.
  pose proof (indexed_lookup builtinFunc Eq_ok pol cx n0 J N M (docs_ok rank) (docs_virtual rank) pre chains Ix Fr) as Lk.
  destruct (i_shared _ _ I) as (_ & Ht & _). rewrite (tree_found pol f ltac:(unfold base in Hf; lia) _ _ e u rterm rb k st Ht path pre rest Es).
  destruct (doc_split_path _ _ _ _ Es) as (l & Epre & Ep).
  assert (Fpr : Forall (fun k => accepts N D B k d) rest) by (rewrite Ep in Fp; by apply Forall_app in Fp as [_ ?]).
  eapply (virtual_many builtinFunc pol cx n0 J N M (md_data _ _ _ _ _ _ Md) (md_fun _ _ _ _ _ _ Md) (docs_ok rank) (eval_at f) room IH f ltac:(unfold base in Hf; lia)
    (biunify_at f) e Hcx pre rest ltac:(rewrite Epre; apply plain_path) u rterm rb k d Hd Jb F cl st I Hcl); [| | | | |intros w; exact (md_iff _ _ _ _ _ _ Md pre chains w Er)| |done|done].
  - by intros s [A _].
  - intros s s' Hs (A & v & Hv & HR). split; [by apply Hs|]. exists v. split; [|by eapply R_same].
    replace (map (ev s' u) path) with (map (ev s u) path); [done|]. apply map_ext_in. intros t Ht'%list_elem_of_In. rewrite Forall_forall in Fp.
    symmetry. eapply ev_near; [exact Hs|done|by apply (Fp t)|done].
  - intros s (_ & v & (pre' & rest' & w & Es' & Hw & _) & _). rewrite (split_ev path pre rest s u Es) in Es'. injection Es' as <- <-. by exists w.
  - eapply handles_post; [|apply Ends]. intros V _ (v & Hv & HQ). exists v. split; [|done]. exists v. split; [apply Equal_refl|done].
  - intros st1 t tb v R1 Vt Gt Nt Jv. unfold evalTerm_from.
    assert (Ld : forall V ks v', Forall2 (gv V u) rest ks -> lookups v ks v' -> doc_gv docs u path d v' V).
    { intros V ks v' Fk L. destruct (split_gv path pre rest V u ks Es Fk) as (l' & _ & Fk' & Es'). exists (map Str l' ++ ks). split_ands; [done| |].
      - by exists pre, ks, v.
      - by apply (lookups_keys_bounded d ks v v' (Jb v Jv) L). }
    eapply many_weaken; [| |apply (walks_all N f cl ltac:(unfold base in Hf; lia) F (biunify_at f e)
      (fun x y u1 u2 k st => patterns_once functions builtinFunc evalTree evalFunc evalWith N cl F e f x y u1 u2 k st Hf)
      (valid (sview st)) u rb Vu rterm k R Qr R_congr R_same Qr_congr (doc_reaches docs u path d)) with (path := rest) (term := t) (tb := tb) (doc := v)].
    + intros V _ (ks & v' & Fk & L & HQ). exists v'. split; [by eapply Ld|done].
    + intros s _ (_ & v' & (pre' & rest' & w & Es' & Hw & L) & HR). rewrite (split_ev path pre rest s u Es) in Es'. injection Es' as <- <-.
      destruct (lookups_doc _ w v v' (md_fun _ _ _ _ _ _ Md _ _ _ Hw Jv) L) as (v2 & L2 & E2). exists v2. split; [done|by eapply R_congr].
    + intros v1 v2 V E (v' & E' & H). exists v'. split; [|done]. eapply Equal_trans; [|exact E']. by rewrite Equal_sym.
    + split; try done; [apply R1|by eapply valid_reach|by eapply bounded_le, Jb|by eapply ends_reach].
    + eapply walkable_reach; [exact R1|]. apply (path_walkable N D u B F st rest d Fpr Bd). intros x Hx. apply HF. rewrite Ep, map_app, union_list_app_L. set_solver.
    + intros V ks v' _ Fk L. exists v'. split; [apply Equal_refl|by eapply Ld].
  - apply Forall_forall. intros r Hr. rewrite Forall_forall in Fr. split; [by apply Fr|]. apply Hroom. by eapply HK.
Qed.
End Reference.

(** With fuel for the bodies at every rank. *)
Context (HM : (M <= N)%nat) (Bi : builtins_ok builtinFunc N M).
Lemma policy_mocks sh ref : shared_ok sh -> FunctionMocks.Get (refString functions) (functionMocks sh) ref = Some None.
Proof. by intros (_ & _ & ->). Qed.

Definition rank_fuel (rank : nat) : nat := rank * K.

Lemma rank_many rank : forall f, (base N + rank_fuel rank <= f)%nat -> tree_many functions builtinFunc evalTree evalFunc evalWith cx docs (docs_ok rank) N f.
Proof.
  induction rank as [|rank IH]; intros f Hf; [by intros cl D u B F e path d rterm rb k R Qr st _ _ []|].
  apply (data_many rank f (fun q => base N + rank_fuel rank + cost n0 q <= f)%nat); unfold rank_fuel in *; [simpl in Hf; lia|lia|].
  intros D u. apply (eval_evaluates functions builtinFunc evalTree evalFunc evalWith cx docs (docs_ok rank) (docs_documents _ _ _ _ _ _ _ _ _ Md) N M HM Bi policy_mocks
    (rank_fuel rank) IH D u n0).
Qed.
End Data.
