(* ===== verification/EvalRun.v ===== *)
(** [Query.Run] returns the assignments that satisfy a query. *)
From Stdlib Require Import ZArith Lia String.
From stdpp Require Import base gmap list strings pretty.
From S2P Require Import Prelude SortedKeys Value Containers SetTable ObjectTable RefOps Builtins Document VarVisitor Safety Index IndexBody EvalCache RuleTree Bindings.
From S2P Require Import Unify UnifySound UnifyTotal EvalGround Eval EvalRefs EvalTerms EvalSem EvalRules EvalPolicy EvalDocs EvalIndex EvalStates EvalClosures EvalUnify EvalSound EvalData.

(** The bindings of the query. *)
Abbreviation u0 := (Some 0%nat).

(** ** Results *)
Definition value_in (qr : value) (x : string) (v : value) : Prop := match qr with Object kvs => obj_get (Var x) kvs = Some v | _ => False end.
(** The result holds the values of the store. *)
Definition result_of (V : vstore) (qr : value) : Prop := forall x v, value_in qr x v <-> gv V u0 (Var x) v.
Definition order_ok (order : gmap string bvalue -> list string) : Prop := forall m, NoDup (order m) /\ forall x, x ∈ order m <-> is_Some (m !! x).

Lemma last_value_vars x kvs : forall d, last_value (Var x) (map (fun kv => (Var kv.1, kv.2)) kvs) d = d \/
  exists v, (x, v) ∈ kvs /\ last_value (Var x) (map (fun kv => (Var kv.1, kv.2)) kvs) d = Some v.
Proof.
  unfold last_value. induction kvs as [|[y w] kvs IH]; intros d; simpl; [by left|]. rewrite Equal_Var.
  destruct (IH (if String.eqb x y then Some w else d)) as [->|(v & Hv & ->)]; [|right; exists v; split; [by right|done]].
  destruct (String.eqb_spec x y) as [->|]; [right; exists w; split; [by left|done]|by left].
Qed.

Lemma last_value_found x w kvs : (x, w) ∈ kvs -> forall d, exists v, (x, v) ∈ kvs /\ last_value (Var x) (map (fun kv => (Var kv.1, kv.2)) kvs) d = Some v.
Proof.
  intros Hx d. induction kvs as [|[y z] kvs IH] in d, Hx |- *; [by apply elem_of_nil in Hx|]. apply elem_of_cons in Hx as [[= <- <-]|Hx].
  - unfold last_value. simpl. rewrite Equal_Var, String.eqb_refl. fold (last_value (Var x) (map (fun kv => (Var kv.1, kv.2)) kvs) (Some w)).
    destruct (last_value_vars x kvs (Some w)) as [->|(v & Hv & ->)]; [exists w; split; [by left|done]|exists v; split; [by right|done]].
  - destruct (IH Hx (if Equal (Var x) (Var y) then Some z else d)) as (v & Hv & E). exists v. split; [by right|exact E].
Qed.

Lemma query_result_ok `{SI : SharedInv} N order fuel st : inv N st -> valid (sview st) u0 -> order_ok order -> (2 * N + 2 <= fuel)%nat ->
  exists qr, query_result order fuel (us_heap st) u0 = Some qr /\ result_of (sview st) qr.
Proof.
  intros I (p & [= <-] & Hp) Ho Hf. pose proof (pre_wf st (i_pre N st I)) as Hw. unfold sview in Hp. rewrite view_lookup in Hp.
  destruct (us_heap st !! 0%nat) as [b|] eqn:Eb; [|by destruct Hp]. unfold query_result, b_Iter. cbn [mbind option_bind]. rewrite Eb. cbn [mbind option_bind].
  assert (Hg : forall x, vget (sview st) u0 x = hm_map (b_values b) !! x).
  { intros x. unfold vget, sview. rewrite view_lookup, Eb. done. }
  destruct (Ho (hm_map (b_values b))) as [Nd Hin]. pose proof (hm_Iter_ok (b_values b) (order (hm_map (b_values b))) (Hw _ _ Eb) Hin Nd) as Pm.
  set (entries := hm_Iter _ _) in *.
  assert (He : forall x bv, (x, bv) ∈ entries <-> vget (sview st) u0 x = Some bv) by (intros x bv; by rewrite Pm, elem_of_map_to_list, Hg).
  destruct (Forall_values (fun (e : string * bvalue) kv => (v ← Plug fuel (us_heap st) u0 (Var e.1); Some (e.1, v)) = Some kv /\
    kv.1 = e.1 /\ gv (sview st) u0 (Var e.1) kv.2) entries) as [kvs Fk].
  { apply Forall_forall. intros [x bv] Hx%He. destruct (i_ground N st I _ _ _ Hx) as (v & G & B). exists (x, v).
    assert (Gx : gv (sview st) u0 (Var x) v) by (by eapply gv_var). split_ands; [|done|done].
    simpl. by rewrite (Plug_value N st N I fuel u0 (Var x) v Gx B Hf). }
  rewrite (proj2 (mapM_Some _ _ kvs)) by (eapply Forall2_impl; [exact Fk|]; by intros e kv [H _]). cbn [mbind option_bind].
  eexists. split; [done|]. destruct (fold_insert_kv_sorted (map (fun kv => (Var kv.1, kv.2)) kvs) [] ltac:(constructor)) as [_ Hl].
  assert (Hk : forall x v, (x, v) ∈ kvs -> gv (sview st) u0 (Var x) v).
  { intros x v [j Hj]%list_elem_of_lookup. by destruct (Forall2_lookup_r _ _ _ _ _ Fk Hj) as (e & _ & _ & <- & G). }
  intros x v. simpl. rewrite Hl. split.
  - intros Ev. destruct (last_value_vars x kvs (obj_get (Var x) [])) as [E|(w & Hw' & E)]; rewrite E in Ev; [done|]. injection Ev as <-. by apply Hk.
  - intros G. inversion G as [? ? bv ? Hx _|? ? X| | |]; subst; [|done]. apply He, list_elem_of_lookup in Hx as [j Hj].
    destruct (Forall2_lookup_l _ _ _ _ _ Fk Hj) as ([y w] & Hy & _ & E1 & Gw). simpl in E1. subst y.
    destruct (last_value_found x w kvs ltac:(by eapply list_elem_of_lookup_2) (obj_get (Var x) [])) as (w' & Hw' & ->).
    f_equal. by apply (gv_fun _ _ _ _ (Hk x w' Hw')).
Qed.

(** ** The start *)
Lemma start_empty vars u x : vget (sview (start_state vars)) u x = None.
Proof.
  destruct u as [p|]; [|done]. unfold vget, sview. rewrite view_lookup. cbn [us_heap start_state].
  destruct (_ !! p) as [b|] eqn:H; [|done]. by apply lookup_singleton_Some in H as [_ <-].
Qed.

Lemma start_inv `{SI : SharedInv} N vars : shared_ok newShared -> inv N (start_state vars).
Proof.
  intros Sh. split; [split|..].
  - intros p b H. cbn [us_heap start_state] in H. apply lookup_singleton_Some in H as [_ <-]. apply hm_wf_new.
  - intros u x bv. fold (sview (start_state vars)). by rewrite start_empty.
  - intros u t. exists 0%nat. split; [lia|]. destruct t; try (by constructor). apply chain_free. apply (start_empty vars).
  - intros u x bv. by rewrite start_empty.
  - intros u x bv. by rewrite start_empty.
  - done.
Qed.

Lemma start_valid vars v : valid (sview (start_state vars)) v <-> v = u0.
Proof.
  assert (Hv : forall p, is_Some (sview (start_state vars) !! p) <-> p = 0%nat).
  { intros p. unfold sview. rewrite view_lookup. cbn [us_heap start_state]. destruct (decide (p = 0%nat)) as [->|Hp].
    - rewrite lookup_singleton_eq. split; [done|by eexists].
    - rewrite lookup_singleton_ne by done. split; [by intros []|done]. }
  split; [by intros (p & -> & ->%Hv)|]. intros ->. exists 0%nat. split; [done|by apply Hv].
Qed.

Lemma start_stage `{SI : SharedInv} N D vars : shared_ok newShared -> stage N D u0 ∅ 0 0 (Next (start_state vars)).2.
Proof.
  intros Sh. split.
  - apply inv_env; [by apply start_inv|done].
  - by apply (start_valid vars).
  - intros x ?%elem_of_empty. done.
  - intros x bv. change (sview _) with (sview (start_state vars)). by rewrite start_empty.
  - done.
Qed.

Section Run.
Context `{SI : SharedInv} (functions : function_env) (builtinFunc : list value -> option Builtin) (doc : option value).
Abbreviation eval_type := (eval -> (eval -> EK) -> EK).
Abbreviation biunify_type := (eval -> value -> value -> option nat -> option nat -> EK -> EK).
Context (evalTree : nat -> eval_type -> biunify_type -> eval -> list value -> value -> option nat -> option nat -> EK -> EK).
Context (evalFunc : nat -> eval_type -> biunify_type -> eval -> list value -> EK -> EK).
Context (evalWith : nat -> eval_type -> biunify_type -> eval -> (eval -> EK) -> EK).
Abbreviation cx := (MkContext doc None u0).
Context (docs : list value -> value -> Prop) (docs_ok : list value -> nat -> Prop) (Dm : documents docs docs_ok).
Context (N M : nat) (HM : (M <= N)%nat) (Bi : builtins_ok builtinFunc N M) (Sh : shared_ok newShared).
Context (Mocks : forall sh ref, shared_ok sh -> FunctionMocks.Get (refString functions) (functionMocks sh) ref = Some None).
Context (extra : nat) (Tr : forall f, (base N + extra <= f)%nat -> tree_many functions builtinFunc evalTree evalFunc evalWith cx docs docs_ok N f).
Context (order : gmap string bvalue -> list string) (Ho : order_ok order) (D : string -> nat) (n : nat).
Context (q : list expr) (Hu : forall x, x ∈ qvars q -> user x) (Hq : query_ok builtinFunc doc docs_ok N M D n ∅ (qvars q) q).
Abbreviation satq s := (Forall (sat builtinFunc doc docs n (qvars q) s) q).
Abbreviation found := (found builtinFunc cx docs D u0 n (qvars q) q).
Abbreviation F := (query_vars u0 (qvars q) 0).
Abbreviation st1 := (Next (start_state [Array []])).2.

(** A result: it has values for the variables of the query, and assignments with these
    values satisfy it. *)
Definition answers (qr : value) : Prop :=
  (forall x, x ∈ qvars q -> exists v, value_in qr x v /\ data v) /\
  forall s : assignment, assigned s -> (forall x v, x ∈ qvars q -> value_in qr x v -> Equal (s x) v = true) -> satq s.

Lemma query_scope : scope builtinFunc cx docs_ok N M D n ∅ (qvars q) q.
Proof. split; [done|done|set_solver|done]. Qed.

Lemma result_answers st qr : reach N F st1 found st -> result_of (sview st) qr -> answers qr.
Proof.
  intros [I (X & Nw & Sd & Bd) _] R. split.
  - intros x Hx. destruct (Bd x Hx) as (v & G & _). exists v. split; [by apply R|by eapply gv_data].
  - intros s A Hs. destruct (completion N st (fun _ => s) I ltac:(by intros v x)) as (s1 & A1 & S1 & Hn).
    pose (s2 := fun v x => if decide (v = u0 /\ x ∈ qvars q) then s x else s1 v x).
    assert (A2 : assigns s2) by (intros v x; unfold s2; case_decide; [apply A|apply A1]).
    assert (S2 : solves s2 (sview st)).
    { apply (solves_values N st s2 I). intros v x w G. unfold s2. case_decide as Hx; [|by apply (gv_ev (sview st) s1 v (Var x))].
      destruct Hx as [-> Hx]. apply Hs; [done|]. by apply R. }
    eapply (sats_alike builtinFunc cx docs docs_ok N M D n ∅ (qvars q) q (s2 u0)); [apply query_scope| |by apply Sd].
    intros x Hx. unfold s2. case_decide as Hd; [done|]. symmetry. apply Hn.
    destruct (vget (sview st) u0 x) as [bv|] eqn:E; [|done].
    destruct (Nw u0 x bv (proj2 (start_valid [Array []] u0) eq_refl) E) as [Ex|[_ [?|[j ->]]]]; [|by destruct Hd|by destruct (Hx 0%N j)].
    change (sview st1) with (sview (start_state [Array []])) in Ex. by rewrite start_empty in Ex.
Qed.

Section Fuel.
Context (fuel : nat) (Hf : (base N + extra + cost n q <= fuel)%nat).
Abbreviation eval_at := (eval_at functions builtinFunc evalTree evalFunc evalWith).

Definition append_result (qr : value) : EK := fun st =>
  r ← get_cell 0 st;
  match r with Array qrs => Some (put_cell 0 (Array (qrs ++ [qr])) st, None) | _ => return_nil st end.
Definition report (e : eval) : EK := fun st => qr ← query_result order fuel (us_heap st) (bindings_of e); append_result qr st.
Abbreviation k := (finish (at_end cx u0 q 0 false) report).

Lemma report_step st w tl : reach N F st1 found st -> cells (us_env st) = w :: tl ->
  exists st3 w' qr, k st = Some (st3, None) /\ inv N st3 /\ sview st3 = sview st /\ curr (us_env st3) = curr (us_env st) /\
    cells (us_env st3) = w' :: tl /\ result_of (sview st) qr /\ forall l, w = Array l -> w' = Array (l ++ [qr]).
Proof.
  intros R Ec. assert (Hv : valid (sview st) u0) by (eapply valid_extends; [apply R|apply (start_stage N D [Array []] Sh)]).
  destruct (query_result_ok N order fuel st (rc_inv _ _ _ _ _ R) Hv Ho) as (qr & Eq & Rq); [unfold base in Hf; lia|].
  unfold finish, report, append_result. cbn [bindings_of at_end findOne]. rewrite Eq. cbn [mbind option_bind]. unfold get_cell at 1. rewrite Ec. simpl.
  assert (Hc : (exists l, w = Array l) \/ forall l, w <> Array l) by (destruct w; eauto; right; done). destruct Hc as [[l ->]|Hn].
  - eexists _, _, qr. split; [done|]. split_ands; [apply inv_env; [apply R|done]|done|done|by simpl; rewrite Ec|done|]. by intros l' [= <-].
  - exists st, w, qr. split; [by destruct w; try done; destruct (Hn elems)|]. split_ands; try done; [apply R|]. intros l ->. by destruct (Hn l).
Qed.

Lemma report_handles : handles N 1 (reach N F st1 found) k.
Proof.
  intros st R. destruct (rc_env _ _ _ _ _ R) as [L C]. destruct (cells (us_env st)) as [|w tl] eqn:Ec; [simpl in L; lia|].
  destruct (report_step st w tl R Ec) as (st3 & w' & qr & Ek & I & V & Cu & Ec3 & _). exists st3, None. split_ands; [done..|].
  split; [split; [by rewrite Ec, Ec3|by rewrite Cu]|]. intros i Hi _. rewrite Ec, Ec3. by destruct i; [lia|].
Qed.

Lemma run_many : many N F (near (valid (sview st1)) (eq u0)) st1 found (satisfies builtinFunc cx docs u0 n (qvars q) q) k
  (eval_at fuel (MkEval q 0 0 u0 false cx) report st1).
Proof.
  apply (eval_evaluates functions builtinFunc evalTree evalFunc evalWith cx docs docs_ok Dm N M HM Bi Mocks extra Tr D u0 n fuel ∅ (qvars q) q 0%N st1 report false 1);
    [apply query_scope|done|by apply start_stage|simpl; lia|apply report_handles].
Qed.

(** The results are those of the bindings that evaluation finds. *)
Lemma run_results Vs st' r : runs N 1 k (from F (sview st1) found) Vs st1 st' r ->
  r = None /\ exists qrs, get_cell 0 st' = Some (Array qrs) /\ Forall2 (fun V qr => result_of V qr /\ answers qr) Vs qrs.
Proof.
  intros R. pose (J := fun Ws e => exists l tl, cells e = Array l :: tl /\ (1 <= curr e)%N /\ Forall2 (fun V qr => result_of V qr /\ answers qr) Ws l).
  assert (HJ : J ([] ++ Vs) (us_env st') /\ forall e, r = Some e -> False).
  { eapply (runs_inv N 1 k _ J (fun _ => False)); [| |exact R|exists [], []; split_ands; [done|done|constructor]].
    - intros Ws e e' (l & tl & Ec & Cu & Fl) [[L Q] Hc]. specialize (Hc 0%nat ltac:(lia)). rewrite Ec in L, Hc. specialize (Hc ltac:(simpl; lia)).
      destruct (cells e') as [|w tl'] eqn:Ec'; [done|]. injection Hc as ->. exists l, tl'. split_ands; [done|lia|done].
    - intros Ws s2 s3 r2 Fr I2 (l & tl & Ec & Cu & Fl) Ek.
      assert (R2 : reach N F st1 found s2) by (split; [done..|]; split; [rewrite Ec; simpl; lia|done]).
      destruct (report_step s2 (Array l) tl R2 Ec) as (s3' & w' & qr & Ek' & _ & _ & Cu' & Ec' & Rq & Hw). rewrite Ek in Ek'. injection Ek' as <- ->.
      split; [|done]. exists (l ++ [qr]), tl. split_ands; [by rewrite Ec', (Hw l eq_refl)|by rewrite Cu'|].
      apply Forall2_app; [done|]. constructor; [|done]. split; [done|by eapply result_answers]. }
  destruct HJ as [(l & tl & Ec & _ & Fl) He]. split; [destruct r as [e|]; [by destruct (He e)|done]|]. exists l. split; [|done].
  unfold get_cell. by rewrite Ec.
Qed.

Lemma Run_report strict : Run functions builtinFunc evalTree evalFunc evalWith order fuel doc strict q =
  '(st, err) ← eval_at fuel (MkEval q 0 0 u0 false cx) report st1;
  r ← get_cell 0 st;
  match r with
  | Array qrs => Some (qrs, match errs (us_env st) with msg :: _ => if strict then Some (OtherErr msg) else err | [] => err end)
  | _ => None
  end.
Proof.
  unfold Run, Iter. change (fun e st => qr ← query_result order fuel (us_heap st) (bindings_of e); _) with report.
  cbn [Next]. by destruct (eval_at _ _ _ _) as [[st err]|].
Qed.

(** The results are the assignments that satisfy the query. *)
Lemma run_correct strict : exists qrs err, Run functions builtinFunc evalTree evalFunc evalWith order fuel doc strict q = Some (qrs, err) /\
  (forall qr, qr ∈ qrs -> answers qr) /\
  (forall s : assignment, assigned s -> satq s -> exists qr, qr ∈ qrs /\ forall x v, x ∈ qvars q -> value_in qr x v -> Equal (s x) v = true) /\
  (strict = false -> err = None).
Proof.
  destruct run_many as (st' & r & Vs & E & _ & _ & R & C). pose proof R as R'. eapply run_results in R' as (-> & qrs & Ec & Fq).
  exists qrs, (match errs (us_env st') with msg :: _ => if strict then Some (OtherErr msg) else None | [] => None end). split_ands.
  - rewrite Run_report, E. cbn [mbind option_bind]. by rewrite Ec.
  - intros qr [j Hj]%list_elem_of_lookup. by destruct (Forall2_lookup_r _ _ _ _ _ Fq Hj) as (V & _ & _ & A).
  - intros s A Sq. destruct (C eq_refl (fun _ => s)) as (V & s' & HV & Nr & S').
    { intros v x bv. change (sview _) with (sview (start_state [Array []])). by rewrite start_empty. }
    { split; [by intros v x|done]. }
    apply list_elem_of_lookup in HV as [j Hj]. destruct (Forall2_lookup_l _ _ _ _ _ Fq Hj) as (qr & Hqr & Rq & _).
    exists qr. split; [by eapply list_elem_of_lookup_2|]. intros x v Hx Hv%Rq.
    rewrite <- (proj1 Nr u0 x (sg_valid _ _ _ _ _ _ _ (start_stage N D [Array []] Sh)) (fun _ => Hu x Hx)).
    by apply (gv_ev V s' u0 (Var x)).
  - intros ->. by destruct (errs (us_env st')).
Qed.
End Fuel.
End Run.



(** ** A run

    Of the arrays of the input, those that do not have one element: their length, the
    set of their elements, and a check that each of the elements is in that set; with the
    documents of two rules,

    [denied := true { input.blocked = true }],
    [role := "admin" { input.user = "alice"; not data.test.denied } else := "user"],
    [default open := false] and [open := true { data.test.role = "user" }]. *)
Module Example.
Definition call (op : string) (args : list value) (negated : bool) : expr := Expr (TTerms (Ref [Var op] :: args)) [] 0 negated.
Definition num (z : Z) : value := Number (NInt z).
Definition doc : value := Object [(Str "user", Str "alice"); (Str "xs", Array [Array [num 1]; Array [num 2; num 3]])].
Definition package : list value := [Var "data"; Str "test"].
Definition path (x : string) : list value := package ++ [Str x].
Definition truth : expr := Expr (TTerm (Boolean true)) [] 0 false.
Definition denied : rule := MkRule 0 false [] [call "eq" [Ref [Var "input"; Str "blocked"]; Boolean true] false] (path "denied") None (Some (Boolean true)).
Definition admin : rule :=
  MkRule 1 false [] [call "eq" [Ref [Var "input"; Str "user"]; Str "alice"] false; Expr (TTerm (Ref (path "denied"))) [] 0 true] (path "role") None (Some (Str "admin")).
Definition user_role : rule := MkRule 2 false [] [truth] (path "role") None (Some (Str "user")).
Definition closed : rule := MkRule 3 true [] [truth] (path "open") None (Some (Boolean false)).
Definition opened : rule := MkRule 4 false [] [call "eq" [Ref (path "role"); Str "user"] false] (path "open") None (Some (Boolean true)).
Definition else_of (r : rule) : list rule := if (r_id r =? 1)%nat then [user_role] else [].
Definition sorted (p : list value) : list (list value) :=
  if ref_eq p (path "denied") then [[Var "input"; Str "blocked"]] else if ref_eq p (path "role") then [[Var "input"; Str "user"]] else [].
Definition pol : policy := compile sorted else_of [(package, [denied; admin; closed; opened])] (Object []) true true (fun _ => "0"%string).
Abbreviation rules_at := (chains_at else_of (ruleTree pol)).

Definition body : list expr := [call "eq" [Var "z"; Ref [Var "x"; Var "j"]] false].
Definition q : list expr :=
  [call "eq" [Var "x"; Ref [Var "input"; Str "xs"; Var "i"]] false;
   call "count" [Var "x"; Var "c"] false;
   call "eq" [Var "c"; num 1] true;
   call "eq" [Var "y"; SetComprehension (Var "z") body] false;
   Expr (TEvery (Some (Var "k")) (Var "v") (Var "x") [Expr (TTerm (Ref [Var "y"; Var "v"])) [] 0 false]) [] 0 false;
   call "eq" [Var "role"; Ref (path "role")] false;
   call "eq" [Var "open"; Ref (path "open")] false].

Definition count (args : list value) : list value * option failure :=
  (match args with [Array l] => [num (Z.of_nat (length l))] | _ => [] end, None).
Definition builtins (ref : list value) : option Builtin :=
  match ref with [Var op] => if String.eqb op "count" then Some (MkBuiltin 1 true (fun args => count (take 1 args))) else None | _ => None end.
Definition functions : function_env := MkFunctionEnv (fun _ => "f"%string) (fun _ => false) (fun _ => 0%nat).
Definition order (m : gmap string bvalue) : list string := (map_to_list m).*1.
Definition D (x : string) : nat := if String.eqb x "y" then 4 else 3.

Definition run : option (list value * option eval_error) :=
  Run functions builtins (evalTree pol) (evalFunc pol) (evalWith functions builtins pol) order 200 (Some doc) false q.

Lemma order_is_ok : order_ok order.
Proof.
  intros m. split; [apply NoDup_fst_map_to_list|]. intros x. unfold order. rewrite list_elem_of_fmap. split.
  - intros ([y v] & -> & H%elem_of_map_to_list). by exists v.
  - intros [v Hv]. exists (x, v). split; [done|by apply elem_of_map_to_list].
Qed.

Lemma builtins_are_ok : builtins_ok builtins 4 0.
Proof.
  assert (Hb : forall ref bi, builtins ref = Some bi -> bi = MkBuiltin 1 true (fun args => count (take 1 args))).
  { intros ref bi H. unfold builtins in H. destruct ref as [|[| | | |op| | | | | | | |] []]; try done. destruct (String.eqb op "count"); [by injection H|done]. }
  split.
  - intros ref bi args ->%Hb. simpl. by rewrite take_take.
  - intros ref bi args ->%Hb _ _. simpl. destruct args as [|[] args]; simpl; try constructor; [|constructor].
    split; [by apply data_scalar; [|apply tidy_int]|done].
  - by intros ref bi args err ->%Hb _.
  - intros ref bi args args' ->%Hb _ _ F. simpl. destruct F as [|a a' args args' E _]; [constructor|]. simpl.
    destruct a as [| | | | | |l|kvs|l| | | |]; try (apply Equal_sortOrder in E; by destruct a').
    destruct (Equal_Array _ _ E) as (l' & -> & Fl). rewrite (Forall2_length _ _ _ Fl). constructor; [apply Equal_refl|constructor].
Qed.

Lemma all_in (X : gset string) (P : string -> Prop) l : X = list_to_set l -> Forall P l -> forall x, x ∈ X -> P x.
Proof. intros -> F x Hx%elem_of_list_to_set. rewrite Forall_forall in F. by apply F. Qed.

Lemma var_ok x : user x -> pattern_ok 4 (Var x).
Proof. intros Hx. split; [apply pat_var|]. split; [done|]. intros y Hy. cbn [vars_of] in Hy. by apply elem_of_singleton in Hy as ->. Qed.

Lemma accepts_var B x d : user x -> x ∈ B \/ (d <= D x)%nat -> accepts 4 D B (Var x) d.
Proof. intros Hx H. split; [by apply var_ok|]. intros y Hy. cbn [vars_of] in Hy. by apply elem_of_singleton in Hy as ->. Qed.

Lemma closure_intro okq B O cbody l : qvars cbody = list_to_set l -> Forall user l -> bool_decide (qvars cbody ∩ O ⊆ B) = true ->
  okq B (O ∪ qvars cbody) cbody -> closure_ok okq B O cbody.
Proof.
  intros El Ul Hb%bool_decide_eq_true_1 Ok. split; [|done]. intros x Hx. split; [|set_solver]. by apply (all_in _ user l El Ul).
Qed.

Lemma known_var ok okq B O x d : user x -> bool_decide (x ∈ B) = true -> (D x <= d)%nat -> known (Some doc) ok 4 D okq B O (Var x) d.
Proof.
  intros Hx Hb%bool_decide_eq_true_1 Hd. split; [by apply var_ok|]. split; [|by destruct d]. intros y Hy. cbn [vars_of] in Hy. by apply elem_of_singleton in Hy as ->.
Qed.

Lemma accepts_scalar B v d : IsScalar v = true -> tidy v -> accepts 4 D B v d.
Proof.
  intros Hs T. assert (Dv : data v) by (by apply data_scalar). split; [split; [by apply pat_scalar|split]|].
  - by destruct v.
  - intros x Hx. rewrite data_vars in Hx by done. by apply elem_of_empty in Hx.
  - intros x Hx. rewrite data_vars in Hx by done. by apply elem_of_empty in Hx.
Qed.

Lemma known_ref ok okq B O h ks d : h <> "input" -> h <> "data" -> user h -> bool_decide (h ∈ B) = true -> (D h <= d)%nat -> Forall (fun k => accepts 4 D B k d) ks ->
  known (Some doc) ok 4 D okq B O (Ref (Var h :: ks)) d.
Proof.
  intros H1 H2 Hu Hb%bool_decide_eq_true_1 Hd Fk. split; [|done]. unfold root_ok. by rewrite (proj2 (String.eqb_neq h "data")), (proj2 (String.eqb_neq h "input")) by done.
Qed.

Lemma doc_ok : data doc /\ bounded 3 doc.
Proof.
  split; [|by repeat constructor]. repeat first [apply data_object|apply data_array|apply data_scalar|constructor|apply tidy_int|done].
Qed.

Ltac name := by apply user_first.

Ltac each_in := repeat (apply Forall_cons_2 || apply Forall_nil_2).

(** *** The documents *)
Definition J (pre : list value) (w : value) : Prop := pre = path "role" /\ w = Str "admin" \/ pre = path "open" /\ w = Boolean false.
Abbreviation docs := (docs (ruleTree pol) J).
Abbreviation sat_body := (sat_body builtins (Some doc) (ruleTree pol) 2 J).
Abbreviation docs_ok := (docs_ok builtins pol (MkContext (Some doc) None u0) rules_at 2 J 4 0).

Lemma path_eq x pre : ref_eq (path x) pre = true -> pre = path x.
Proof.
  intros F%ref_eq_Forall2. inversion F as [|? k1 ? l1 E1 F1]; subst. inversion F1 as [|? k2 ? l2 E2 F2]; subst. inversion F2 as [|? k3 ? l3 E3 F3]; subst. inversion F3; subst.
  rewrite Equal_sym in E1. by rewrite (Var_Equal _ _ E1), (Str_Equal _ _ E2), (Str_Equal _ _ E3).
Qed.
Lemma rules_cases pre chains : rules_at pre = Some chains -> pre = path "denied" /\ chains = [[denied]] \/ pre = path "open" /\ chains = [[closed]; [opened]] \/
  pre = path "role" /\ chains = [[admin; user_role]].
Proof.
  assert (E : indexed_rules (ruleTree pol) = [(path "denied", [denied]); (path "open", [closed; opened]); (path "role", [admin])]) by (by vm_compute).
  unfold chains_at. rewrite E. cbn [List.find fst]. intros H.
  destruct (ref_eq (path "denied") pre) eqn:E1; [left; split; [by apply path_eq|by injection H]|].
  destruct (ref_eq (path "open") pre) eqn:E2; [right; left; split; [by apply path_eq|by injection H]|].
  destruct (ref_eq (path "role") pre) eqn:E3; [right; right; split; [by apply path_eq|by injection H]|done].
Qed.

Lemma doc_at x : x ∈ ["denied"; "open"; "role"]%string -> doc_split (ruleTree pol) [Str "test"; Str x] = Some (path x, []).
Proof. rewrite !elem_of_cons. by intros [->|[->|[->|?%elem_of_nil]]]; vm_compute. Qed.
Lemma docs_at x v : x ∈ ["denied"; "open"; "role"]%string -> docs [Str "test"; Str x] v -> J (path x) v.
Proof. intros Hx (pre & rest & w & E & Jw & L). rewrite (doc_at x Hx) in E. injection E as <- <-. simpl in L. by subst. Qed.

Definition nulls : assignment := fun _ => Null.
Lemma nulls_assigned : assigned nulls.
Proof. intros x. by apply data_scalar. Qed.

Lemma denied_fails s : ~ sat_body denied s.
Proof. intros [_ [(va & vb & (d & [= <-] & w & Hw & _) & _) _]%Forall_cons]. by vm_compute in Hw. Qed.
Lemma opened_fails s : ~ sat_body opened s.
Proof.
  intros [_ [(va & vb & Ta & -> & Q) _]%Forall_cons]. destruct (docs_at "role" va) as [[_ ->]|[? _]]; [set_solver|exact Ta|by vm_compute in Q|done].
Qed.
Lemma truth_holds r : r_body r = [truth] -> sat_body r nulls.
Proof. intros E. split; [apply nulls_assigned|]. rewrite E. apply Forall_singleton. by exists (Boolean true). Qed.
Lemma admin_holds : sat_body admin nulls.
Proof.
  split; [apply nulls_assigned|]. apply Forall_cons. split; [|apply Forall_singleton].
  - exists (Str "alice"), (Str "alice"). split_ands; [|done|by vm_compute]. exists doc. split; [done|]. by exists (Str "alice").
  - intros (s & _ & _ & [(v & T & _) _]%Forall_cons). destruct (docs_at "denied" v) as [[? _]|[? _]]; [set_solver|exact T|done|done].
Qed.

Lemma Boolean_Equal b w : Equal w (Boolean b) = true -> w = Boolean b.
Proof. intros Q. pose proof (Equal_sortOrder _ _ Q) as O. destruct w as [|c| | | | | | | | | | |]; try done. by destruct b, c. Qed.

Lemma is_model : model builtins (Some doc) (ruleTree pol) rules_at 2 J.
Proof.
  split.
  - intros pre chains w [[-> ->]|[[-> ->]|[-> ->]]]%rules_cases; split.
    + by intros [[? _]|[? _]].
    + intros (_ & [(c & ->%list_elem_of_singleton & [(hd & s & _ & Hs & _)|[_ []]])|(_ & r & Er & _)]); [by destruct (denied_fails s)|done].
    + intros [[? _]|[_ ->]]; [done|]. split; [by apply data_scalar|]. right. split; [|exists closed; split; [done|]; exists (Boolean false), nulls; split_ands; [done|by apply truth_holds|done]].
      intros (w & c & [->| ->%list_elem_of_singleton]%elem_of_cons & Hc); [done|]. destruct Hc as [(hd & s & _ & Hs & _)|[_ []]]. by destruct (opened_fails s).
    + intros (_ & [(c & [->| ->%list_elem_of_singleton]%elem_of_cons & Hc)|(_ & r & [= <-] & hd & s & [= <-] & _ & Q)]); [done| |right; split; [done|by apply Boolean_Equal]].
      destruct Hc as [(hd & s & _ & Hs & _)|[_ []]]. by destruct (opened_fails s).
    + intros [[_ ->]|[? _]]; [|done]. split; [by apply data_scalar|]. left. exists [admin; user_role]. split; [by left|]. left. exists (Str "admin"), nulls.
      split_ands; [done|apply admin_holds|done].
    + intros (_ & [(c & ->%list_elem_of_singleton & [(hd & s & [= <-] & _ & Q)|[N _]])|(_ & r & Er & _)]); [|by destruct N; exists nulls; apply admin_holds|done].
      left. split; [done|]. apply Str_Equal. by rewrite Equal_sym.
  - intros pre w [[_ ->]|[_ ->]]; by apply data_scalar.
  - intros pre w w' [[-> ->]|[-> ->]] [[E ->]|[E ->]]; try done.
Qed.

(** *** The rules *)
Lemma known_input okq ok B O ks : Forall (fun k => accepts 4 D B k 3) ks -> known (Some doc) ok 4 D okq B O (Ref (Var "input" :: ks)) 3.
Proof. intros F. split; [|done]. intros doc' [= <-]. apply doc_ok. Qed.
Lemma known_doc okq ok B O x : ok [Str "test"; Str x] 3%nat -> known (Some doc) ok 4 D okq B O (Ref (path x)) 3.
Proof. intros H. split; [exact H|]. each_in; by apply accepts_scalar. Qed.

Lemma rule_intro ok r v : r_value r = Some v -> r_args r = [] -> IsScalar v = true -> tidy v -> qvars (r_body r) = ∅ ->
  query_ok builtins (Some doc) ok 4 0 D 2 ∅ ∅ (r_body r) -> rule_ok builtins (MkContext (Some doc) None u0) 2 4 0 ok r.
Proof.
  intros Hv Ha Hs T E Hq. exists D, v. rewrite E. destruct (accepts_scalar ∅ v 0 Hs T) as [P _]. split_ands; try done.
  rewrite data_vars by (by apply data_scalar). set_solver.
Qed.
Lemma truth_ok ok r v : r_value r = Some v -> r_args r = [] -> IsScalar v = true -> tidy v -> r_body r = [truth] -> rule_ok builtins (MkContext (Some doc) None u0) 2 4 0 ok r.
Proof.
  intros Hv Ha Hs T E. apply (rule_intro ok r v); try done; rewrite E; [done|]. split; [|done]. split; [done|]. exists 0%nat. split; [lia|].
  destruct (accepts_scalar ∅ (Boolean true) 0 eq_refl I) as [P _]. split; [done|]. split; [|done]. rewrite data_vars by (by apply data_scalar). set_solver.
Qed.

Lemma docs_intro k x chains : x ∈ ["denied"; "open"; "role"]%string -> rules_at (path x) = Some chains -> is_Some (RuleIndex pol (path x)) ->
  sorted (path x) ≡ₚ map fst (frequency (build_indices (virtual_prefix (ruleTree pol)) chains)) ->
  bool_decide (NoDup (map r_id (concat chains))) = true -> Forall (fun r => r_ground r = true /\ glob_free r = true) (concat chains) ->
  Forall (rule_ok builtins (MkContext (Some doc) None u0) 2 4 0 (docs_ok k)) (concat chains) -> docs_ok (S k) [Str "test"; Str x] 3%nat.
Proof.
  intros Hx Hc Hi Hs Hn%bool_decide_eq_true_1 Hg Hr. exists (path x), [], chains. split_ands; [by apply doc_at|done| |done|].
  - by apply compile_index_ok.
  - intros w [[_ ->]|[_ ->]]; done.
Qed.

Lemma denied_docs k : docs_ok (S k) [Str "test"; Str "denied"] 3%nat.
Proof.
  apply (docs_intro k _ [[denied]]); [set_solver|by vm_compute|vm_compute; by eexists|by vm_compute|by vm_compute|each_in; by vm_compute|]. each_in.
  apply (rule_intro _ _ (Boolean true)); try done. split; [|done]. split; [done|]. exists 3%nat. split; [lia|]. left.
  split; [apply known_input; each_in; by apply accepts_scalar|by apply accepts_scalar].
Qed.
Lemma role_docs k : docs_ok (S (S k)) [Str "test"; Str "role"] 3%nat.
Proof.
  apply (docs_intro _ _ [[admin; user_role]]); [set_solver|by vm_compute|vm_compute; by eexists|by vm_compute|by vm_compute|each_in; by vm_compute|]. each_in; [|by eapply truth_ok].
  apply (rule_intro _ _ (Str "admin")); try done. split; [|split; [|done]].
  - split; [done|]. exists 3%nat. split; [lia|]. left. split; [apply known_input; each_in; by apply accepts_scalar|by apply accepts_scalar].
  - split; [done|]. apply (closure_intro _ _ _ _ []); [by vm_compute|each_in|by vm_compute|]. split; [|done]. split; [done|]. exists 3%nat. split; [lia|].
    apply known_doc, denied_docs.
Qed.
Lemma open_docs k : docs_ok (S (S (S k))) [Str "test"; Str "open"] 3%nat.
Proof.
  apply (docs_intro _ _ [[closed]; [opened]]); [set_solver|by vm_compute|vm_compute; by eexists|by vm_compute|by vm_compute|each_in; by vm_compute|]. each_in; [by eapply truth_ok|].
  apply (rule_intro _ _ (Boolean true)); try done. split; [|done]. split; [done|]. exists 3%nat. split; [lia|]. left.
  split; [apply known_doc, role_docs|by apply accepts_scalar].
Qed.

Lemma query_is_ok : query_ok builtins (Some doc) (docs_ok 3) 4 0 D 2 ∅ (qvars q) q.
Proof.
  cbn [query_ok query_at q]. split_ands; [..|done].
  - split; [done|]. exists 3%nat. split; [lia|]. right; left. split; [apply accepts_var; [name|right; done]|]. apply known_input.
    each_in; [by apply accepts_scalar|]. apply accepts_var; [name|by right].
  - split; [done|]. split; [done|]. eexists. split; [done|]. split.
    + each_in. apply (known_var (fun _ _ => True) (fun _ _ _ => True) _ ∅ _ 4%nat); [name|by vm_compute|cbv; lia].
    + right. split; [done|]. exists (Var "c"). split_ands; [done|done|]. apply accepts_var; [name|right; cbv; lia].
  - split; [done|]. apply (closure_intro _ _ _ _ ["c"]); [by vm_compute|each_in; name|by vm_compute|]. split; [|done].
    split; [done|]. exists 3%nat. split; [lia|]. left. split; [apply known_var; [name|by vm_compute|done]|]. apply accepts_scalar; [done|apply tidy_int].
  - split; [done|]. exists 4%nat. split; [lia|]. right; left. split; [apply accepts_var; [name|by right]|]. split; [|split; [|split]].
    + apply (closure_intro _ _ _ _ ["z"; "x"; "j"]); [by vm_compute|each_in; name|by vm_compute|]. split; [|done].
      split; [done|]. exists 3%nat. split; [lia|]. right; left. split; [apply accepts_var; [name|by right]|].
      apply known_ref; [done|done|name|by vm_compute|done|]. each_in. apply accepts_var; [name|by right].
    + apply var_ok. name.
    + apply (bool_decide_unpack _). by vm_compute.
    + exists 3%nat. split; [done|]. cbv. lia.
  - split; [done|]. split.
    + apply (closure_intro _ _ _ _ ["x"; "k"; "v"]); [by vm_compute|each_in; name|by vm_compute|]. split; [|done].
      split; [done|]. exists 3%nat. split; [lia|]. left. split; [|apply accepts_var; [name|by right]].
      apply known_ref; [done|done|name|by vm_compute|done|]. each_in. apply accepts_var; [name|by right].
    + apply (closure_intro _ _ _ _ ["y"; "v"]); [by vm_compute|each_in; name|by vm_compute|]. split; [|done].
      split; [done|]. exists 4%nat. split; [lia|]. apply known_ref; [done|done|name|by vm_compute|done|]. each_in.
      apply accepts_var; [name|left; apply (bool_decide_unpack _); by vm_compute].
  - split; [done|]. exists 3%nat. split; [lia|]. right; left. split; [apply accepts_var; [name|by right]|]. apply known_doc, (role_docs 1).
  - split; [done|]. exists 3%nat. split; [lia|]. right; left. split; [apply accepts_var; [name|by right]|]. apply known_doc, (open_docs 0).
Qed.

Lemma run_value : run = Some ([Object [(Var "c", num 2); (Var "i", num 1); (Var "open", Boolean false); (Var "role", Str "admin");
  (Var "x", Array [num 2; num 3]); (Var "y", SetV [num 2; num 3])]], None).
Proof. vm_compute. reflexivity. Qed.

Lemma rules_cost pre chains r : rules_at pre = Some chains -> r ∈ concat chains -> (cost 2 (r_body r) <= 12)%nat.
Proof.
  intros [[_ ->]|[[_ ->]|[_ ->]]]%rules_cases; simpl; rewrite ?elem_of_cons; intros Hr; repeat destruct Hr as [->|Hr]; try (by apply elem_of_nil in Hr); vm_compute; lia.
Qed.


End Example.
